(* ===== verification/_CoqProject ===== *)
-Q . S2P
Prelude.v
RStr.v
Contract.v
Circuit.v
Coverage.v
Lexer.v
Segments.v
Permissions.v
Billing.v
SearchPages.v
ReadCost.v
Namespace.v
Approvals.v
Operation.v
F32.v
Budget.v
Json.v
JsonPack.v
Utf8.v
Exec.v
Api.v
ExecJobs.v
ExecOutput.v
Codec.v
ReadWindow.v
Rewrite.v
Rules.v
RewriteSegment.v
RewriteBlock.v
RewriteOutcome.v
Guard.v
Filter.v
Trust.v
Tee.v
Fallback.v
Candidate.v
Planner.v
ContextPlan.v
Coordinator.v
GrepaiConfig.v
Paths.v
WriteCore.v
WriteCmd.v
WriteLock.v
Fidelity.v
ShellWords.v
Adapter.v
Grants.v
HookSession.v
Policy.v
Hook.v
HookChain.v
DaemonExec.v
DaemonSpec.v
DaemonTasks.v
