(* ===== verification/Prelude.v ===== *)
(** * A verification development for hzr

    hzr sits between coding agents and the tools they call: a control plane
    (the crates under [crates/]) and an engine forked from rtk
    ([fork-core/rtk/]) that rewrites shell commands so that their output costs
    fewer tokens.  The agent's host asks the engine whether a command may run;
    the daemon answers searches and reads and keeps account of what the agent
    was shown; the core crate records what could not be accounted and prices
    what was.  This development models the decisions of those parts, as pure
    functions over explicit state, and proves what makes them correct.

    ** The parts and their files

    - [Prelude]: the scope, the hint databases and tactics, machine integers
      with their saturation and rounding, the [result] type of fallible code
      with its bind, orderings and stable sorting ([Ordering], [sort_by]),
      reachability, and the generic lemmas.
    - [RStr]: Rust's [char], [str] and the string operations the program uses,
      with byte offsets, character boundaries and UTF-8 lengths; decimal
      printing and parsing.
    - [Lexer] ([fork-core/rtk/src/discover/lexer.rs], the tokenizer): a command
      to its tokens.  [tokenize_inner] is the source's function, [tok_step] one
      turn of its loop.
    - [Segments] (the rest of [lexer.rs]): from tokens to the commands a line
      runs ([split_for_permissions]), shell wrappers
      ([parse_shell_command_wrapper]), the substitution scan and word splitting.
      It calls [Lexer].
    - [Permissions] ([permissions.rs] and the prefix readers of
      [discover/registry.rs]): from settings files to rules
      ([load_permission_rules_from]) and from a command to a verdict
      ([check_command_with_prefixes]).  It calls [Segments] and [Lexer].
    - [Contract] ([crates/hzr-engine-contract/src/lib.rs]): the vocabularies
      both sides exchange, each with its stored names, and the validity checks
      of rewrite plans, evasions and accounting receipts.
    - [Coverage] ([crates/hzr-core/src/accounting_coverage.rs]): the store of
      accounting gaps, and in its [Contexts] the registrations of running
      producers.  Its state is the decoded file, [None] when there is none; it
      uses the failure kinds of [Contract].
    - [Billing] ([crates/hzr-core/src/billing.rs]): the price catalog, its
      validation and override, receipts and estimates.
    - [Circuit] ([crates/hzr-memory/src/circuit.rs]): the breaker in front of the
      memory engine, and in [Interleaving] any number of tasks that share it.
    - [SearchPages] ([crates/hzr-daemon/src/search_pages.rs]): search results
      published as immutable snapshots in a directory and read by cursor.
    - [ReadCost] ([crates/hzr-daemon/src/read_cost.rs]): what an agent has read
      of a file, and the advice that prices the next read.
    - [Namespace] ([crates/hzr-memory/src/namespace.rs]): whose a memory is, and
      the recalls of a project and of its user merged.
    - [Approvals] ([crates/hzr-daemon/src/approval.rs]): commands that wait for
      their user's consent.
    - [Operation] ([crates/hzr-core/src/operation.rs]): what a recorded command
      was: its route and subsystem, its redacted summary, the command offered in
      place of a needless bypass, and the preflight of a request for exact
      output.  It uses the fidelity vocabulary of [Contract].
    - [Budget] ([crates/hzr-context/src/budget.rs]): evidence from several
      sources fused, ranked and chosen under a token budget.  [F32] holds the
      single-precision arithmetic it ranks with.
    - [JsonPack] ([fork-core/rtk/src/jsonpack.rs]): JSON output folded into
      tables and back.  [Json] holds the values, objects as ordered lists, and
      the laws of the JSON library.
    - [Exec] ([crates/hzr-exec/src/]): the commands, grants and outcomes of an
      execution, and the capture of its output in memory and in a spill file.
    - [ExecJobs] ([crates/hzr-daemon/src/exec_jobs.rs] and its [retention.rs],
      [receipts.rs]): execution jobs with their records, receipts, compaction
      and cancellation, as a step function over the files of the store and the
      running tasks, and [spec_step], the protocol they implement.  [Api] holds
      the errors of the daemon's interface.
    - [ExecOutput] ([exec_jobs/output.rs]): the captured output of a job read in
      pages; [Utf8] is the decoder that ends a page between characters.  It
      calls [ExecJobs] and reads what [Exec] captured.
    - [Codec] ([crates/hzr-codec/src/lib.rs]): the response codec and its
      protected spans.
    - [ReadWindow] ([fork-core/rtk/src/read.rs], the windows, and
      [read_source.rs], the line ranges): the first lines, the last lines and
      ranges of a file, as bytes.
    - [Rewrite] ([fork-core/rtk/src/discover/registry.rs]): pipelines, compound
      commands and the reads of one file rewritten to calls of the engine.  It
      calls [Lexer], [Segments], [Permissions] for the program's name, and
      [ReadWindow].
    - [Rules] ([discover/rules.rs]), [RewriteSegment], [RewriteBlock] and
      [RewriteOutcome] (the rest of [registry.rs], with the checks of
      [sqlite_cmd.rs], [tar_cmd.rs] and [remote_logs_cmd.rs], and
      [rewrite_cmd.rs]): the rule table; one command with its prefixes, wrapper and
      redirections; blocks of lines; and the outcome for a whole command, with the
      questions in front of it, its attribution and the plan for the host.
      [RewriteSegment] is the function that [Rewrite] is parameterized by,
      [RewriteOutcome] composes all of them with [Permissions].
    - [Guard] ([fork-core/rtk/src/guard.rs]): what may take the place of a raw
      output.  [Filter] ([toml_filter.rs]): the declarative filters, from their
      definition to the text shown and what it has lost; [Trust] ([trust.rs],
      [integrity.rs] and the consent of [init.rs]): which filter files are loaded
      and which hook is run; [Tee] ([tee.rs]): the files that keep raw output, with
      their rotation and hints; [Fallback] ([run_fallback] of [main.rs]) joins the
      four for one command.
    - [Candidate], [Planner] and [ContextPlan] ([crates/hzr-context/src/]
      [candidate.rs] and [planner.rs]): hits, plans and memories as candidates;
      search with its routes and fallbacks, warnings, and the answer fitted into its
      budget; and the plan made of all of them.  [Planner] calls [Budget],
      [ContextPlan] also [Namespace].
    - [Coordinator], [GrepaiConfig] and [Paths] ([crates/hzr-index/src/]
      [coordinator.rs], [grepai.rs] and [paths.rs]): the watchers of the worktrees
      under their limit, the edits of the engine's settings as text, and the paths
      of filters and results inside a worktree.
    - [WriteCore], [WriteCmd] and [WriteLock] ([fork-core/rtk/src/write_core.rs],
      [write_cmd.rs] and [write_lock.rs]): a file replaced by a rename, over a disk
      that may crash; the edits, JSON keys, creations and batches that end in such
      a replacement, with their comparisons and retries; and the lock under which
      processes that edit one file take turns, over entries of which some are links.
    - [ShellWords] ([crates/hzr-exec/src/shell.rs]): plain commands as words and back.
      [Adapter] ([adapter.rs]): the pinned engine probed, asked for a plan and its plan
      made a decision; the exports and the shim of a managed command.
    - [Grants] ([crates/hzr-core/src/host_grant.rs] and the minting in
      [crates/hzr-cli/src/hook_runner.rs]): the host's grant with its session and age,
      and its way into the approved command.  [HookSession] (the same [hook_runner.rs]):
      the counters of a session under its lock, and the status line.
    - [Policy] (the decisions of [crates/hzr-daemon/src/api.rs], and the hook's own for
      a host without its daemon) and [Hook] ([hook_runner.rs], [host_hooks.rs]): from
      the engine's outcome to the host's one answer.  [HookChain] composes [Hook],
      [Policy], [Adapter], [RewriteOutcome] and [Permissions].
    - [Fidelity] ([crates/hzr-daemon/src/ledger_writer.rs], the commands of exact
      output, with their queries in [crates/hzr-core/src/ledger.rs]): reservations,
      executions and completions on file and in the ledger, over a disk and a database
      that fail and a process that dies.
    - [DaemonExec] ([exec_run], [exec_approval] and [fidelity_reconcile] of [api.rs] and
      [crates/hzr-exec/src/executor.rs]): the handlers as programs that make calls.
      [DaemonSpec]: the discipline that each handler keeps to whatever it is answered.
      [DaemonTasks]: any number of them over one [Fidelity] and one [Approvals], with
      clients that go away, restarts, and a ledger whose thread may be gone.

    A panic of the source (a slice off a character boundary, an overflowing
    index) is [None]; an error value is [Err].  The theorems about total
    behaviour therefore say [Some], and the panics that remain are theorems
    too.

    ** What is shown

    The permission gate.  [Lexer.tokens_lay_out_the_command]: tokens are the
    command, exact and in order.  On it rest [Segments]: the split never
    panics, every segment runs one command
    ([segments_run_one_command]), nothing between separators is lost
    ([segments_cover_the_command]), and the substitution scan finds exactly what
    the shell would run ([substitution_found_iff_live]).  On those rest
    [Permissions]: a verdict of [Allow] has earned it ([allow_is_earned]); a
    rule that names a segment, any reading of it, or a command inside a quoted
    script denies it ([named_command_is_denied], [scripted_command_is_denied]);
    more deny rules never loosen a denial; settings that cannot be read never
    allow.  The three ways in which the gate does less than it means to are
    lemmas with a command that shows each
    ([stdbuf_takes_a_command_for_an_option],
    [expansion_in_a_leading_redirect_hides_the_command],
    [wrapper_parse_panics_iff_lone_quote]).

    Rewriting.  [Rewrite.compound_rewrites_keep_the_rest]: whatever the rule
    table answers for a stage, the rest of the command is copied byte for byte
    and nothing panics.  [rewritten_reads_show_the_same], with
    [ReadWindow.run_window_native] and [line_ranges_agree], composes the rewriter
    with the reader: a rewritten [head], [tail], [sed -n] or [nl] shows the lines
    of the command it replaces; [relative_sed_spans_are_cut_short] is the span
    for which it does not.  [RewriteSegment.rewritten_segments_keep_their_surroundings]
    says what a rule may replace in one command, and
    [RewriteBlock.blocks_keep_their_lines] what becomes of a block of lines;
    [RewriteOutcome.rewritten_commands_keep_the_rest] composes them to the command
    that the host runs, with what its checks do and do not look at
    ([scripts_may_write_files], [path_is_looked_at_where_it_is_set]).  [segments_are_rewritten_by_recursion] and
    [ambiguity_is_decided_by_recursion] are the termination of the two recursions,
    [exec_alone_diverges] the settings with which the second has no end.
    [attributions_are_valid_but_for_a_lone_reason] and [exit_codes_agree_with_plans]
    are the contract with the control plane.  The examples at the ends of
    [RewriteSegment] and [RewriteOutcome] are commands that are changed in meaning.

    Output filters.  [Guard.guards_are_never_worse] says exactly when a filtered
    output is shown.  [Filter.filter_losses_are_told]: what a filter cuts it tells,
    with the offset from which the rest can be read.
    [Tee.tee_files_are_rotated] and [hinted_paths_read_back] are the file behind a
    hint, and [Fallback.cut_output_is_recoverable] composes the three: what a filter
    reports as cut is within reach, within the limits of the files.
    [Trust.only_consented_filters_are_loaded] holds over every sequence of consents and
    revocations, where no continuous integration overrides the gate, [consents_are_honoured] is the
    other direction, and [Integrity.hooks_are_verified_as_stored] the hook.
    [line_feed_in_replacement_misleads] and [new_file_can_be_removed] are the limits.

    Context.  [Planner.searches_say_how_they_were_answered] and
    [index_failures_do_not_fail_searches]: a search without its index is answered
    and says so.  [context_plans_fit]: the loop that drops evidence until the answer,
    whose size is part of it, fits its budget ends, and tells what it dropped.
    [plans_deliver_their_evidence]: what is left is the first of the choice of
    [Budget], with its texts.  [ContextPlan.plans_degrade_and_say_so] and
    [plans_show_only_the_projects_memories] are the two promises of the composition:
    an index, a planner or a memory service that fails is a warning before the answer is
    fitted, and no other project's memory is shown.
    [Candidate.memories_are_bounded] and [search_candidates_are_located] are about
    the pieces.

    The index.  [Coordinator.watchers_stay_within_their_limit] is the invariant of
    every sequence of operations on the watchers, [room_is_made_in_order] says which
    of them go.  [GrepaiConfig.managed_ignores_are_added_once],
    [enabled_graph_is_read_back] and [dedup_is_disabled_once] are what the edits
    change; [empty_lines_hide_the_graph], [graph_sections_are_damaged] and
    [ignores_misread_comments_and_flat_lists] the texts they misread.
    [Paths.normalized_paths_stay_inside] keeps filters and results in the worktree.

    Writing files.  [WriteCore.writes_are_atomic]: readers and crashes see the old
    file or the new one, whatever fails.  [WriteCmd.edits_change_only_matches] and
    [setting_a_key_keeps_the_others] say what an edit changes,
    [batches_answer_every_operation] that a batch is its operations, file by file
    and in order, and [strict_cas_overwrites_what_it_read] what the comparison is
    worth; [lenient_cas_misses_early_changes] and [empty_files_are_not_created] are
    its limits.  [WriteLock.locked_writers_lose_no_update] composes them: under the
    lock, every interleaving of edits leaves what one after the other would, under
    names that are no links themselves; [an_edit_through_a_link_is_lost] is the limit.

    From the agent's call to the host's answer.
    [ShellWords.simple_commands_are_read_as_written] and [rendered_words_are_read_back]
    are the reader and the writer of plain commands,
    [Adapter.decisions_rest_on_the_pinned_engine] says on what a decision rests, and
    [Grants.minted_grants_reach_their_session] where a grant is good.
    [Hook.allow_answers_are_backed] says when the hook may answer [allow], and over the
    whole chain [HookChain.denied_commands_are_answered_deny] and
    [answers_follow_the_operators_rules] what the operator's rules come to;
    [ask_rules_are_passed_over_by_exact_output] and
    [deny_rules_are_not_asked_about_contradicted_requests] are commands for which they
    come to less.  [HookSession.degraded_time_is_accounted] is the account of a session.

    Exact output.  [Fidelity.allowance_is_never_oversubscribed],
    [executed_operations_are_recorded_once], [unknown_executions_are_kept] and
    [resolutions_are_final] hold over every sequence of commands, failures, damages and
    restarts that the contract of the ledger permits;
    [damaged_executions_are_forgotten] and [filed_completions_can_be_disowned] are what
    their conditions exclude.  [DaemonTasks.handlers_keep_the_ledger_contract] shows that
    all interleavings of the handlers are such sequences, so that these theorems hold of
    the daemon; on it rest [started_exact_runs_stay_accounted_for],
    [processes_have_a_reason], [an_approval_starts_one_process] and
    [answers_tell_what_happened].

    Execution.  [ExecJobs.jobs_refine_protocol]: every event of the daemon is
    matched by the protocol of operations, in which an operation is bound once
    and finishes once; from it [no_operation_runs_twice],
    [finished_jobs_stay_finished], [cancelled_before_dispatch_never_runs], and
    [active_jobs_bounded] from the room each job reserves.
    [poll_never_reports_orphans_running] and [retry_replays_the_outcome] are what
    clients rely on.  [ExecOutput.captured_output_is_delivered] composes capture,
    jobs and pages: what a command wrote is what a client reads;
    [pages_show_what_they_name] is the safety of a single page.

    Output for the agent.  [JsonPack.packed_output_is_lossless];
    [envelopes_pack_when_shorter] and [clean_tables_pack_when_shorter] are the
    round trips behind it, which say when packing is not turned down;
    [line_feed_in_a_cell_prevents_packing] and [packing_can_panic] are their
    limits.  [Codec.codec_drops_only_repeats] says what the codec may change.
    [Budget.plan_refines_greedy_choice] gives the planner its reference, and
    [plan_stays_in_budget] its bounds.

    Accounting.  [Operation.exact_output_is_granted_within_budget],
    [preflight_attributions_are_valid], [summary_shows_names_only] and
    [replacement_keeps_the_command] are the contracts of the operation records;
    [bypasses_are_classified] and [ledger_and_classifier_drift_apart] compare the
    classifier with the ledger's predicate.
    [Coverage.store_operations_safe] is the invariant of the gap
    store over every sequence of its operations, [snapshot_accounts] its
    functional meaning; the round trips say that a command that finishes, or a
    producer that recovers in its grace period, leaves no gap.
    [Contract.receipt_savings_are_earned] and [stored_names_decode_uniquely]
    are what the ledger relies on.  [Billing.price_usage_exact] gives the bounds
    of rounding and the exact conditions of every error, [price_receipt_is_backed]
    the evidence behind an estimate.

    Concurrency.  [Circuit.breaker_cycle] is the life of one circuit;
    [half_open_single_probe] and [stale_permits_inert] hold in every
    interleaving of its callers.

    Reads and searches.  [SearchPages.pages_deliver_the_snapshot]: following
    cursors gives back what was published; [store_stays_bounded].
    [ReadCost.observe_accounts_for_the_read]: coverage is exactly what was read,
    and the gap reported is the first; [advice_prices_its_own_response]: the loop
    whose counters are part of what it measures stops at a fixed point.

    Memories and consent.  [Namespace.recall_reaches_its_scope] keeps the
    projects of one database apart, and [merge_keeps_the_best] is what a merged
    recall may leave out.  [Approvals.approval_is_single_use] and
    [approval_is_kept] hold over every sequence of requests and answers.

    ** Fuel

    Structural recursion is used wherever the source's loop allows it.  The
    tokenizer's fuel is the number of characters left, and each turn consumes
    one ([tok_loop_ok]).  [strip_residue_loop] shortens its text at each turn
    ([strip_residue_loop_fuel]).  [dec] has the size of the number in bits
    ([dec_digits_value]).  [costs_loop] has 40 rounds: its counters only grow
    and two [u64]s have at most 40 digits ([costs_loop_converges]).
    [SearchPages.follow] has one unit per read, and the number of hits is enough.
    The recursion into shell wrappers is bounded by [MAX_WRAPPER_DEPTH], as in
    the source.  [seek_loop] reads a chunk at every turn, so one more than the
    bytes of the file is enough ([seek_loop_native]); [select_lines] and
    [range_bytes] take a line ([select_lines_spec]).  [detabulate_fuel] has the
    depth of the value.  [fetch], the client that follows the pages of an output,
    needs one unit per byte kept ([captured_output_is_delivered]).  [replace_loop]
    takes a match, which is not empty, at every turn ([replace_loop_pieces]);
    [rewrite_segment_inner] and [shell_segment_is_ambiguous] call themselves for
    shorter texts ([rewrite_segment_fuel], [shell_segment_is_ambiguous_fuel]), and
    [block_loop] takes a line ([block_loop_kept]); and
    [attempts] has one turn more than there are retries, as the source's range.
    [strip_ansi], [strip_inline_flags] and [skip_str] have the length of their text.
    [bound_loop] drops a thing at every turn, so one turn more than there are things
    is enough ([context_plans_fit]); [settle] has the source's four rounds, which
    reach the fixed point ([settled_counts]); and [make_room] takes an entry that it
    has not taken yet ([room_is_made_in_order]).  The ancestors of a path in [Fidelity]
    have the length of the path, [shim_loop] one more than it, [reader_operands] the
    number of words ([reader_operands_spec]), and [follow] the 40 links that the system
    follows.

    ** What is not modelled

    Encodings: JSON, TOML and SHA-256 are parameters where a model needs them,
    with the documented law it relies on, and so are regular expressions: the
    patterns of the rule table and the environment prefix (the record [Outside] of
    [RewriteSegment], which holds the executables of the machine and the TOML filters
    too), the protected spans of [Codec] and the search across lines of [WriteCmd],
    to which the TOML documents are a parameter too.  The theorems of [Rewrite] hold
    for every rewriter of a segment.  In most components the file system is a
    state (the gap store's file, the snapshot directory) without failing calls;
    [Exec], [ExecJobs], [ExecOutput] and the writes take the failures of every
    call as inputs.  Locks inside the daemon make an operation atomic; the lock
    between processes is modelled in [WriteLock], where creating a file, as in the
    source, does not take it.  In [ExecJobs] a record's revision
    is a number without bound (the source's is a [u64] that a running job
    advances once), and a request is its command and the hash of its other
    fields; the counters of [HookSession] have no bound either.  The gap store of
    [Coverage] is read and written without errors.  In [WriteCore] the directories made
    for a new file count as synced.  In [DaemonTasks] a call to a ledger whose thread is
    gone is not made; one that dies inside a call while the daemon lives on is left
    out.  The dashboard's spans are left out.  The SQLite ledger, HTTP routing, process supervision, the command
    line, the visualizer and the integrations are input and output around these
    parts.

    In [Planner] and [ContextPlan] the runs of the engine, its settings and their
    cache, the wait for the index and the memory service answer through parameters,
    and so does the length of an answer's JSON.  In [Coordinator] a process is what
    its probe answers, and an operation is atomic between two steps, as under the
    locks of the source.

    Left out of the subsystems: the registrations of the index registry and the
    discovery of workspaces ([crates/hzr-index/]), the cache of the engine's settings
    ([crates/hzr-context/]), and the filters written for single tools
    ([fork-core/rtk/src/]), which are a large part of the engine. *)

From Stdlib Require Export NArith ZArith Lia.
From stdpp Require Export base option list gmap sets strings numbers sorting.

#[global] Open Scope N_scope.

(** * The development's scope, databases and tactics *)

Declare Scope hzr_scope.
Delimit Scope hzr_scope with hzr.
#[global] Open Scope hzr_scope.

Create HintDb hzr discriminated.
Create Rewrite HintDb hzr_simp.

(** Splits every boolean test, comparison and match of the goal, closing the
    branches that contradict each other. *)
Ltac split_cases :=
  repeat (first [ progress simplify_eq/= | case_match | case_bool_decide | case_decide ]).

(** Turns boolean facts in the context and the goal into propositions. *)
Ltac bool_prop :=
  repeat match goal with
    | H : _ && _ = true |- _ => apply andb_true_iff in H; destruct H
    | H : _ || _ = true |- _ => apply orb_true_iff in H
    | H : _ || _ = false |- _ => apply orb_false_iff in H; destruct H
    | H : negb _ = true |- _ => apply negb_true_iff in H
    | H : negb _ = false |- _ => apply negb_false_iff in H
    | H : bool_decide _ = true |- _ => apply bool_decide_eq_true in H
    | H : bool_decide _ = false |- _ => apply bool_decide_eq_false in H
    | H : (_ <? _)%N = true |- _ => apply N.ltb_lt in H
    | H : (_ <? _)%N = false |- _ => apply N.ltb_ge in H
    | H : (_ <=? _)%N = true |- _ => apply N.leb_le in H
    | H : (_ <=? _)%N = false |- _ => apply N.leb_gt in H
    | H : (_ =? _)%N = true |- _ => apply N.eqb_eq in H
    | H : (_ =? _)%N = false |- _ => apply N.eqb_neq in H
    | H : (_ <? _)%Z = true |- _ => apply Z.ltb_lt in H
    | H : (_ <? _)%Z = false |- _ => apply Z.ltb_ge in H
    | H : (_ <=? _)%Z = true |- _ => apply Z.leb_le in H
    | H : (_ <=? _)%Z = false |- _ => apply Z.leb_gt in H
    | H : (_ =? _)%Z = true |- _ => apply Z.eqb_eq in H
    | H : (_ =? _)%Z = false |- _ => apply Z.eqb_neq in H
    end.

(** * Unsigned machine integers

    A [u32], [u64] or [u128] is an [N]; what the source does at the top of the
    range (saturate, or answer [None]) is written out. *)

Definition u32_max : N := 4294967295.
Definition u64_max : N := 18446744073709551615.
Definition u128_max : N := 340282366920938463463374607431768211455.
Definition i64_max : Z := 9223372036854775807.
Definition i64_min : Z := -9223372036854775808.

(** [uN::saturating_add], with the type's maximum as an argument. *)
Definition sat_add (max a b : N) : N := N.min (a + b) max.

(** [uN::saturating_sub]: subtraction on [N] truncates at zero. *)
Definition sat_sub (a b : N) : N := a - b.

(** [uN::checked_add] and [uN::checked_mul]. *)
Definition checked_add (max a b : N) : option N :=
  if a + b <=? max then Some (a + b) else None.

Definition checked_mul (max a b : N) : option N :=
  if a * b <=? max then Some (a * b) else None.

(** [uN::div_ceil] for a non-zero divisor. *)
Definition div_ceil (a b : N) : N :=
  if a mod b =? 0 then a / b else a / b + 1.

Lemma sat_add_le max a b : sat_add max a b <= max.
Proof. unfold sat_add. lia. Qed.

Lemma sat_add_exact max a b : a + b <= max -> sat_add max a b = a + b.
Proof. unfold sat_add. lia. Qed.

Lemma sat_add_ge_l max a b : a <= max -> a <= sat_add max a b.
Proof. unfold sat_add. lia. Qed.

Lemma sat_add_assoc_comm max a b c :
  sat_add max (sat_add max a b) c = sat_add max (sat_add max a c) b.
Proof. unfold sat_add. lia. Qed.

Lemma checked_add_Some max a b c :
  checked_add max a b = Some c <-> c = a + b /\ a + b <= max.
Proof. unfold checked_add. destruct (N.leb_spec (a + b) max); split; intros; simplify_eq; intuition (subst; auto; lia). Qed.

Lemma checked_mul_Some max a b c :
  checked_mul max a b = Some c <-> c = a * b /\ a * b <= max.
Proof. unfold checked_mul. destruct (N.leb_spec (a * b) max); split; intros; simplify_eq; intuition (subst; auto; lia). Qed.

(** [div_ceil] is the least integer whose product covers the dividend. *)
Lemma div_ceil_spec a b :
  b <> 0 -> a <= b * div_ceil a b /\ b * div_ceil a b < a + b.
Proof.
  intros Hb. unfold div_ceil.
  pose proof (N.div_mod a b Hb). pose proof (N.mod_lt a b Hb).
  generalize dependent (a / b). generalize dependent (a mod b).
  intros r Hr q Hq. destruct (N.eqb_spec r 0); nia.
Qed.

#[export] Hint Resolve sat_add_le sat_add_ge_l : hzr.

(** * Fallible operations: [Result<A, E>] *)

Inductive result (E A : Type) : Type :=
| Ok (a : A)
| Err (e : E).
Arguments Ok {E A} a.
Arguments Err {E A} e.

#[global] Instance result_ret E : MRet (result E) := fun _ a => Ok a.
#[global] Instance result_bind E : MBind (result E) :=
  fun _ _ k m => match m with Ok a => k a | Err e => Err e end.
#[global] Instance result_fmap E : FMap (result E) :=
  fun _ _ f m => match m with Ok a => Ok (f a) | Err e => Err e end.

Definition is_ok {E A} (r : result E A) : bool := match r with Ok _ => true | Err _ => false end.

(** [Option::ok_or]. *)
Definition ok_or {E A} (o : option A) (e : E) : result E A :=
  match o with Some a => Ok a | None => Err e end.

(** The [if guard { return Err(e) }] idiom. *)
Definition guard_err {E} (bad : bool) (e : E) : result E unit :=
  if bad then Err e else Ok tt.

Lemma bind_Ok {E A B} (m : result E A) (k : A -> result E B) b :
  m ≫= k = Ok b <-> exists a, m = Ok a /\ k a = Ok b.
Proof.
  destruct m as [a|e]; cbv [mbind result_bind]; split; intros H; eauto; try discriminate;
    destruct H as (? & ? & ?); simplify_eq; auto.
Qed.

Lemma bind_Err {E A B} (m : result E A) (k : A -> result E B) e :
  m ≫= k = Err e <-> m = Err e \/ exists a, m = Ok a /\ k a = Err e.
Proof.
  destruct m as [a|e']; cbv [mbind result_bind]; split; intros H;
    naive_solver.
Qed.

Lemma ok_or_Ok {E A} (o : option A) (e : E) a :
  ok_or o e = Ok a <-> o = Some a.
Proof. destruct o; simpl; naive_solver. Qed.

Lemma guard_err_Ok {E} bad (e : E) u : guard_err bad e = Ok u <-> bad = false.
Proof. destruct bad, u; simpl; naive_solver. Qed.

(** Walks through a chain of binds that succeeded. *)
Ltac inv_ok :=
  repeat match goal with
    | H : mbind _ _ = Ok _ |- _ => apply bind_Ok in H; destruct H as (? & ? & ?)
    | H : ok_or _ _ = Ok _ |- _ => apply ok_or_Ok in H
    | H : guard_err _ _ = Ok _ |- _ => apply guard_err_Ok in H
    | H : mret _ = Ok _ |- _ => cbv [mret result_ret] in H; simplify_eq
    | H : Ok _ = Ok _ |- _ => simplify_eq
    | H : Err _ = Ok _ |- _ => discriminate H
    end.

(** [Vec::is_empty]. *)
Definition is_nil {A} (l : list A) : bool := match l with [] => true | _ => false end.

(** * Reachability under a step relation *)

Section Reach.
Context {S : Type} (init : S -> Prop) (step : S -> S -> Prop).

Inductive reachable : S -> Prop :=
| reach_init s : init s -> reachable s
| reach_step s t : reachable s -> step s t -> reachable t.

(** An invariant of the initial states that every step keeps holds of every
    reachable state. *)
Lemma reachable_invariant (Inv : S -> Prop) :
  (forall s, init s -> Inv s) ->
  (forall s t, Inv s -> step s t -> Inv t) ->
  forall s, reachable s -> Inv s.
Proof. intros Hi Hs s Hr. induction Hr; eauto. Qed.
End Reach.

#[export] Hint Constructors reachable : hzr.

(** * Orderings

    What [sort_by] asks of its comparison. *)

Class Ordering {A} (cmp : A -> A -> comparison) : Prop := {
  cmp_antisym a b : cmp b a = CompOpp (cmp a b);
  cmp_trans a b c : cmp a b <> Gt -> cmp b c <> Gt -> cmp a c <> Gt;
}.

(** [Ordering::then_with], and the comparison of a key in either direction. *)
Definition then_with {A} (c1 c2 : A -> A -> comparison) (a b : A) : comparison :=
  match c1 a b with Eq => c2 a b | c => c end.
Definition by_key {A K} (f : A -> K) (cmp : K -> K -> comparison) (a b : A) : comparison := cmp (f a) (f b).
Definition by_key_desc {A K} (f : A -> K) (cmp : K -> K -> comparison) (a b : A) : comparison := cmp (f b) (f a).

Lemma cmp_refl {A} (cmp : A -> A -> comparison) `{!Ordering cmp} a : cmp a a = Eq.
Proof. pose proof (cmp_antisym a a) as H. by destruct (cmp a a). Qed.

#[export] Instance Z_compare_ordering : Ordering Z.compare.
Proof.
  split; [apply Z.compare_antisym|]. intros a b c. rewrite !Z.compare_le_iff. lia.
Qed.

#[export] Instance by_key_ordering {A K} (f : A -> K) cmp `{!Ordering cmp} : Ordering (by_key f cmp).
Proof. split; unfold by_key; intros *; [apply cmp_antisym | apply cmp_trans]. Qed.

#[export] Instance by_key_desc_ordering {A K} (f : A -> K) cmp `{!Ordering cmp} :
  Ordering (by_key_desc f cmp).
Proof. split; unfold by_key_desc; intros *; [apply cmp_antisym|]. intros H1 H2. by eapply cmp_trans. Qed.

#[export] Instance then_with_ordering {A} (c1 c2 : A -> A -> comparison) `{!Ordering c1, !Ordering c2} :
  Ordering (then_with c1 c2).
Proof.
  split; unfold then_with.
  - intros a b. rewrite (cmp_antisym (cmp := c1) a b). destruct (c1 a b); simpl; [apply cmp_antisym|done..].
  - intros a b c H1 H2.
    assert (c1 a b <> Gt) as H1' by (by destruct (c1 a b)).
    assert (c1 b c <> Gt) as H2' by (by destruct (c1 b c)).
    pose proof (cmp_trans _ _ _ H1' H2') as H3. destruct (c1 a c) eqn:E; [|done..].
    assert (c1 c a <> Gt) as H4 by (by rewrite (cmp_antisym a c), E).
    pose proof (cmp_trans _ _ _ H2' H4) as Hba. pose proof (cmp_trans _ _ _ H4 H1') as Hcb.
    rewrite (cmp_antisym a b) in Hba. rewrite (cmp_antisym b c) in Hcb.
    destruct (c1 a b); try done. destruct (c1 b c); try done. by eapply cmp_trans.
Qed.

(** [slice::sort_by]: a stable sort. *)
Section SortBy.
Context {A : Type} (cmp : A -> A -> comparison).

Fixpoint insert_by (x : A) (l : list A) : list A :=
  match l with
  | [] => [x]
  | y :: l' => match cmp x y with Gt => y :: insert_by x l' | _ => x :: l end
  end.

Definition sort_by (l : list A) : list A := fold_right insert_by [] l.

Lemma insert_by_perm x l : insert_by x l ≡ₚ x :: l.
Proof.
  induction l as [|y l IH]; simpl; [done|].
  destruct (cmp x y); [done..|]. by rewrite IH, Permutation_swap.
Qed.

Lemma sort_by_perm l : sort_by l ≡ₚ l.
Proof. induction l as [|x l IH]; simpl; [done|]. by rewrite insert_by_perm, IH. Qed.

Definition le_by (a b : A) : Prop := cmp a b <> Gt.

Lemma sort_by_sorted `{!Ordering cmp} l : StronglySorted le_by (sort_by l).
Proof.
  induction l as [|x l IH]; simpl; [constructor|]. revert IH. generalize (sort_by l) as s.
  intros s. induction 1 as [|y s Hs IH Hy]; simpl; [by repeat constructor|].
  destruct (cmp x y) eqn:E.
  1,2: constructor; [by constructor|]; constructor; [unfold le_by; by rewrite E|];
    eapply Forall_impl; [exact Hy|]; intros z Hz; eapply cmp_trans; [|exact Hz]; by rewrite E.
  constructor; [done|]. rewrite insert_by_perm. constructor; [|done].
  unfold le_by. by rewrite (cmp_antisym x y), E.
Qed.
End SortBy.

(** * The least of a list *)

(** [iter.min_by_key(key)]: the first of the least. *)
Definition min_by_key {A} (key : A -> N) (l : list A) : option A :=
  match l with
  | [] => None
  | x :: l => Some (fold_left (fun best y => if key y <? key best then y else best) l x)
  end.

Lemma min_by_key_spec {A} (key : A -> N) l m : min_by_key key l = Some m -> m ∈ l /\ forall x, x ∈ l -> key m <= key x.
Proof.
  destruct l as [|a l]; [done|]. intros [= <-]. revert a. induction l as [|b l IH]; intros a; cbn [fold_left].
  - split; [by left|]. intros x ->%list_elem_of_singleton. done.
  - set (best := if key b <? key a then b else a).
    assert (key best <= key a /\ key best <= key b /\ (best = a \/ best = b)) as (Ha & Hb & Hor).
    { unfold best. destruct (N.ltb_spec (key b) (key a)); repeat split; auto; lia. }
    destruct (IH best) as [Hin Hle]. split.
    + apply elem_of_cons in Hin as [->|Hin]; [|by right; right]. destruct Hor as [->| ->]; [by left|by right; left].
    + pose proof (Hle best (list_elem_of_here _ _)).
      intros x [->|[->|Hx]%elem_of_cons]%elem_of_cons; [lia..|]. apply Hle. by right.
Qed.

Lemma min_by_key_None {A} (key : A -> N) l : min_by_key key l = None <-> l = [].
Proof. by destruct l. Qed.
