(* ===== verification/RStr.v ===== *)
(** Rust strings.

    A [char] is its Unicode scalar value and a [str] is the list of its
    [char]s; [blen] is [str::len], the length of the UTF-8 encoding.  Byte
    offsets into a string are [nat]s, and slicing at an offset that is no
    character boundary panics, so [split_at] answers [None] there.  Only the
    standard library's string operations the program uses are defined. *)

From S2P Require Import Prelude.
From Stdlib Require Ascii.

Abbreviation char := N (only parsing).
Abbreviation rstr := (list N) (only parsing).

(** A string literal of the source (ASCII). *)
Definition lit (s : String.string) : rstr :=
  map Ascii.N_of_ascii (String.list_ascii_of_string s).
Arguments lit s%_string.

(** A character literal. *)
Definition ch (s : String.string) : char :=
  match lit s with c :: _ => c | [] => 0 end.
Arguments ch s%_string.

Definition between (lo hi c : N) : bool := (lo <=? c) && (c <=? hi).

(** ** Character classes *)

Definition is_ascii (c : char) : bool := c <=? 127.
Definition is_ascii_digit (c : char) : bool := between 48 57 c.
Definition is_ascii_uppercase (c : char) : bool := between 65 90 c.
Definition is_ascii_lowercase (c : char) : bool := between 97 122 c.
Definition is_ascii_alphabetic (c : char) : bool :=
  is_ascii_uppercase c || is_ascii_lowercase c.
Definition is_ascii_alphanumeric (c : char) : bool :=
  is_ascii_alphabetic c || is_ascii_digit c.
Definition is_ascii_hexdigit (c : char) : bool :=
  is_ascii_digit c || between 65 70 c || between 97 102 c.

(** [char::is_control]: the Unicode category Cc. *)
Definition is_control (c : char) : bool := (c <=? 31) || between 127 159 c.

(** [char::is_whitespace]: the Unicode property White_Space. *)
Definition is_whitespace (c : char) : bool :=
  between 9 13 c || (c =? 32) || (c =? 133) || (c =? 160) || (c =? 5760)
  || between 8192 8202 c || (c =? 8232) || (c =? 8233) || (c =? 8239)
  || (c =? 8287) || (c =? 12288).

(** ** Lengths and slices *)

Definition len_utf8 (c : char) : nat :=
  (if (c <? 128)%N then 1 else if (c <? 2048)%N then 2 else if (c <? 65536)%N then 3 else 4)%nat.

Fixpoint blen (s : rstr) : nat :=
  match s with [] => 0 | c :: s => len_utf8 c + blen s end%nat.

(** [s.len()] as an unsigned integer. *)
Definition slen (s : rstr) : N := N.of_nat (blen s).

Definition is_empty (s : rstr) : bool := match s with [] => true | _ => false end.

(** [s.split_at(n)]: [None] when [n] is past the end or inside a character. *)
Fixpoint split_at (n : nat) (s : rstr) : option (rstr * rstr) :=
  match n, s with
  | O, _ => Some ([], s)
  | S _, [] => None
  | S _, c :: s' =>
      if (len_utf8 c <=? n)%nat
      then '(a, b) ← split_at (n - len_utf8 c) s'; Some (c :: a, b)
      else None
  end.

(** [&s[a..b]], [&s[a..]] and [&s[..b]]. *)
Definition slice_from (a : nat) (s : rstr) : option rstr := snd <$> split_at a s.
Definition slice_to (b : nat) (s : rstr) : option rstr := fst <$> split_at b s.
Definition slice (a b : nat) (s : rstr) : option rstr :=
  if (a <=? b)%nat then slice_from a s ≫= slice_to (b - a) else None.

(** ** Patterns *)

(** [str::strip_prefix]; [str::starts_with] and their mirror images. *)
Fixpoint strip_prefix (p s : rstr) : option rstr :=
  match p, s with
  | [], _ => Some s
  | _ :: _, [] => None
  | a :: p, b :: s => if a =? b then strip_prefix p s else None
  end.

Definition starts_with (p s : rstr) : bool :=
  match strip_prefix p s with Some _ => true | None => false end.

Definition strip_suffix (p s : rstr) : option rstr :=
  reverse <$> strip_prefix (reverse p) (reverse s).

Definition ends_with (p s : rstr) : bool :=
  match strip_suffix p s with Some _ => true | None => false end.

Definition contains_char (c : char) (s : rstr) : bool := existsb (N.eqb c) s.

(** Cuts a string before its first character satisfying [f]. *)
Fixpoint span (f : char -> bool) (s : rstr) : rstr * rstr :=
  match s with
  | [] => ([], [])
  | c :: s' => if f c then ([], s) else let '(a, b) := span f s' in (c :: a, b)
  end.

Fixpoint skip_while (f : char -> bool) (s : rstr) : rstr :=
  match s with
  | [] => []
  | c :: s' => if f c then skip_while f s' else s
  end.

Definition trim_start_matches := skip_while.
Definition trim_end_matches (f : char -> bool) (s : rstr) : rstr :=
  reverse (skip_while f (reverse s)).
Definition trim_matches (f : char -> bool) (s : rstr) : rstr :=
  trim_end_matches f (skip_while f s).
Definition trim_start (s : rstr) : rstr := skip_while is_whitespace s.
Definition trim_end (s : rstr) : rstr := trim_end_matches is_whitespace s.
Definition trim (s : rstr) : rstr := trim_end (trim_start s).

(** [s.find(p)] for a string pattern, as the text before and after the first
    occurrence; [str::split_once]. *)
Fixpoint split_once (p s : rstr) : option (rstr * rstr) :=
  match strip_prefix p s with
  | Some rest => Some ([], rest)
  | None =>
      match s with
      | [] => None
      | c :: s' => '(a, b) ← split_once p s'; Some (c :: a, b)
      end
  end.

Definition contains (p s : rstr) : bool :=
  match split_once p s with Some _ => true | None => false end.

(** [s.split(c)] for a character pattern: never empty. *)
Fixpoint split_char (f : char -> bool) (s : rstr) : list rstr :=
  match s with
  | [] => [[]]
  | c :: s' =>
      if f c then [] :: split_char f s'
      else match split_char f s' with
           | [] => [[c]]
           | w :: ws => (c :: w) :: ws
           end
  end.

Definition split_whitespace (s : rstr) : list rstr :=
  List.filter (fun w => negb (is_empty w)) (split_char is_whitespace s).

(** [s.rsplit_once(p)]: around the last occurrence. *)
Definition rsplit_once (p s : rstr) : option (rstr * rstr) :=
  '(b, a) ← split_once (reverse p) (reverse s); Some (reverse a, reverse b).

(** [s.lines()]: cut behind each line feed, which goes with a carriage return
    in front of it. *)
Definition strip_cr (line : rstr) : rstr := default line (strip_suffix [13] line).

Definition lines (s : rstr) : list rstr :=
  let parts := split_char (N.eqb 10) s in
  let tail := List.last parts [] in
  map strip_cr (removelast parts) ++ (if is_empty tail then [] else [tail]).

(** [words.join(sep)]. *)
Fixpoint join (sep : rstr) (ws : list rstr) : rstr :=
  match ws with
  | [] => []
  | [w] => w
  | w :: ws => w ++ sep ++ join sep ws
  end.

(** [s.replace(p, q)] for a non-empty [p]: occurrences from the left, none
    overlapping.  [fuel] only has to exceed the number of characters. *)
Fixpoint replace_fuel (fuel : nat) (p q s : rstr) : rstr :=
  match fuel with
  | O => s
  | S fuel =>
      match split_once p s with
      | None => s
      | Some (a, b) => a ++ q ++ replace_fuel fuel p q b
      end
  end.
Definition replace (p q s : rstr) : rstr := replace_fuel (S (length s)) p q s.

(** Lexicographic order of the code points, which is the byte order of the
    UTF-8 encodings that [str::cmp] compares. *)
Fixpoint str_cmp (a b : rstr) : comparison :=
  match a, b with
  | [], [] => Eq
  | [], _ => Lt
  | _, [] => Gt
  | x :: a, y :: b => match x ?= y with Eq => str_cmp a b | c => c end
  end.

Definition str_eqb (a b : rstr) : bool := bool_decide (a = b).
Definition one_of (s : rstr) (l : list rstr) : bool := existsb (str_eqb s) l.

(** [Path::file_name]: the last component, unless it is [..]. *)
Definition file_name (path : rstr) : option rstr :=
  match last (List.filter (fun c => negb (is_empty c || str_eqb c (lit "."))) (split_char (N.eqb (ch "/")) path)) with
  | Some c => if str_eqb c (lit "..") then None else Some c
  | None => None
  end.

(** [Path::join] of a relative path. *)
Definition path_join (dir path : rstr) : rstr :=
  if is_empty dir || ends_with (lit "/") dir then dir ++ path else dir ++ lit "/" ++ path.

(** ** Lemmas *)

Lemma len_utf8_pos c : (1 <= len_utf8 c)%nat.
Proof. unfold len_utf8. repeat case_match; lia. Qed.

Lemma len_utf8_ascii c : c < 128 -> len_utf8 c = 1%nat.
Proof. intros H. unfold len_utf8. by apply N.ltb_lt in H as ->. Qed.

Lemma blen_app s t : blen (s ++ t) = (blen s + blen t)%nat.
Proof. induction s; simpl; lia. Qed.

Lemma split_at_app s t : split_at (blen s) (s ++ t) = Some (s, t).
Proof.
  induction s as [|c s IH]; [by destruct t|]. simpl.
  destruct (len_utf8 c + blen s)%nat as [|n] eqn:E; [pose proof (len_utf8_pos c); lia|].
  rewrite <- E. destruct (Nat.leb_spec (len_utf8 c) (len_utf8 c + blen s)); [|lia].
  replace (len_utf8 c + blen s - len_utf8 c)%nat with (blen s) by lia. by rewrite IH.
Qed.

Lemma split_at_Some n s a b : split_at n s = Some (a, b) <-> s = a ++ b /\ blen a = n.
Proof.
  split.
  - revert n a b. induction s as [|c s IH]; intros [|n] a b H; simpl in H; simplify_eq; auto.
    destruct (Nat.leb_spec (len_utf8 c) (S n)); [|discriminate].
    destruct (split_at _ s) as [[a' b']|] eqn:E; [|discriminate].
    simpl in H; simplify_eq. apply IH in E as [-> E]. split; [done|]. simpl. lia.
  - intros [-> <-]. apply split_at_app.
Qed.

(** A slice in terms of a decomposition of the string. *)
Lemma slice_app s t u : slice (blen s) (blen s + blen t) (s ++ t ++ u) = Some t.
Proof.
  unfold slice, slice_from, slice_to.
  destruct (Nat.leb_spec (blen s) (blen s + blen t)); [|lia].
  rewrite split_at_app. simpl.
  replace (blen s + blen t - blen s)%nat with (blen t) by lia. by rewrite split_at_app.
Qed.

Lemma slice_from_app s t : slice_from (blen s) (s ++ t) = Some t.
Proof. unfold slice_from. by rewrite split_at_app. Qed.

Lemma slice_to_app s t : slice_to (blen s) (s ++ t) = Some s.
Proof. unfold slice_to. by rewrite split_at_app. Qed.

Lemma strip_prefix_Some p s t : strip_prefix p s = Some t <-> s = p ++ t.
Proof.
  revert s. induction p as [|a p IH]; intros s; simpl; [naive_solver|].
  destruct s as [|b s]; [naive_solver|].
  destruct (N.eqb_spec a b) as [->|Hne]; [rewrite IH; naive_solver|].
  split; [done|]. intros [= ->]. congruence.
Qed.

Lemma starts_with_true p s : starts_with p s = true <-> exists t, s = p ++ t.
Proof.
  unfold starts_with. destruct (strip_prefix p s) as [t|] eqn:E.
  - apply strip_prefix_Some in E. naive_solver.
  - split; [done|]. intros [t ->].
    assert (strip_prefix p (p ++ t) = Some t) by by apply strip_prefix_Some. congruence.
Qed.

Lemma strip_suffix_Some p s t : strip_suffix p s = Some t <-> s = t ++ p.
Proof.
  unfold strip_suffix. split.
  - intros (u & H & ->)%fmap_Some. apply strip_prefix_Some in H.
    apply (f_equal reverse) in H. rewrite reverse_involutive, reverse_app, reverse_involutive in H.
    done.
  - intros ->. apply fmap_Some. exists (reverse t). rewrite reverse_involutive. split; [|done].
    apply strip_prefix_Some. apply reverse_app.
Qed.

Lemma ends_with_true p s : ends_with p s = true <-> exists t, s = t ++ p.
Proof.
  unfold ends_with. destruct (strip_suffix p s) as [t|] eqn:E.
  - apply strip_suffix_Some in E. naive_solver.
  - split; [done|]. intros [t ->].
    assert (strip_suffix p (t ++ p) = Some t) by by apply strip_suffix_Some. congruence.
Qed.

Lemma skip_while_suffix f s : exists w, s = w ++ skip_while f s /\ forallb f w = true.
Proof.
  induction s as [|c s (w & Hs & Hw)]; simpl; [by exists []|].
  destruct (f c) eqn:E; [|by exists []].
  exists (c :: w). simpl. rewrite E, Hw. by rewrite <- Hs.
Qed.

(** The parts that trimming takes away are white space. *)
Lemma trim_start_split s : exists w, s = w ++ trim_start s /\ forallb is_whitespace w = true.
Proof. exact (skip_while_suffix is_whitespace s). Qed.

Lemma trim_end_split s : exists w, s = trim_end s ++ w /\ forallb is_whitespace w = true.
Proof.
  unfold trim_end, trim_end_matches. destruct (skip_while_suffix is_whitespace (reverse s)) as (w & Hw & Hb). exists (reverse w). split.
  - rewrite <- reverse_app, <- Hw. by rewrite reverse_involutive.
  - apply forallb_forall. intros c. rewrite <- list_elem_of_In, elem_of_reverse, list_elem_of_In. by apply forallb_forall.
Qed.

Lemma skip_while_app f a b :
  skip_while f (a ++ b) = if is_empty (skip_while f a) then skip_while f b else skip_while f a ++ b.
Proof. induction a as [|c a IH]; [done|]. cbn [app skip_while]. destruct (f c); [exact IH | done]. Qed.

Lemma skip_while_skipped f s : skip_while f (skip_while f s) = skip_while f s.
Proof. induction s as [|c s IH]; cbn; [done|]. destruct (f c) eqn:E; [done|]. cbn. by rewrite E. Qed.

Lemma skip_while_prefix f s t u : skip_while f s = t ++ u -> skip_while f t = t.
Proof.
  destruct t as [|c t]; [done|]. intros H. cbn. pose proof (skip_while_skipped f s) as Hs. rewrite H in Hs. cbn in Hs.
  destruct (f c); [|done]. exfalso. destruct (skip_while_suffix f (t ++ u)) as (w & Hw & _). apply (f_equal length) in Hw.
  rewrite Hs in Hw. rewrite !length_app in Hw. cbn in Hw. rewrite length_app in Hw. lia.
Qed.

Lemma trim_trim s : trim (trim s) = trim s.
Proof.
  unfold trim at 1. assert (trim_start (trim s) = trim s) as ->.
  { destruct (trim_end_split (trim_start s)) as (w & Hw & _). by apply (skip_while_prefix is_whitespace s _ w). }
  unfold trim, trim_end, trim_end_matches. rewrite reverse_involutive. by rewrite skip_while_skipped.
Qed.

(** What trimming leaves nothing of is white space. *)
Lemma skip_while_nil f s : skip_while f s = [] <-> forallb f s = true.
Proof.
  induction s as [|c s IH]; simpl; [done|]. destruct (f c); simpl; [exact IH|done].
Qed.

Lemma trim_nil s : trim s = [] <-> forallb is_whitespace s = true.
Proof.
  split.
  - intros H. destruct (trim_start_split s) as (w & Hs & Hw). destruct (trim_end_split (trim_start s)) as (w' & Hs' & Hw').
    unfold trim in H. rewrite Hs, Hs', H, !forallb_app, Hw, Hw'. done.
  - intros H. unfold trim, trim_start. by apply skip_while_nil in H as ->.
Qed.

Lemma split_once_Some p s a b : split_once p s = Some (a, b) -> s = a ++ p ++ b.
Proof.
  revert a b. induction s as [|c s IH]; intros a b; simpl.
  - destruct (strip_prefix p []) as [t|] eqn:E; [|done]. intros [= <- <-].
    by apply strip_prefix_Some in E.
  - destruct (strip_prefix p (c :: s)) as [t|] eqn:E.
    + intros [= <- <-]. by apply strip_prefix_Some in E.
    + destruct (split_once p s) as [[a' b']|]; [|done]. simpl. intros [= <- <-].
      simpl. f_equal. by apply IH.
Qed.

(** The first occurrence is the leftmost: no other decomposition of the string
    around the pattern has a shorter left part. *)
Lemma split_once_leftmost p s a b :
  split_once p (a ++ p ++ b) = Some s ->
  (length s.1 <= length a)%nat.
Proof.
  revert s. induction a as [|c a IH]; intros s; simpl.
  - assert (strip_prefix p (p ++ b) = Some b) as Hp by by apply strip_prefix_Some.
    destruct (p ++ b) eqn:E; simpl; rewrite Hp; intros [= <-]; simpl; lia.
  - destruct (strip_prefix p (c :: _)); [intros [= <-]; simpl; lia|].
    destruct (split_once p (a ++ p ++ b)) as [[a' b']|] eqn:E; [|done].
    simpl. intros [= <-]. specialize (IH _ eq_refl). simpl in *. lia.
Qed.

Lemma split_once_complete p a b : exists s, split_once p (a ++ p ++ b) = Some s.
Proof.
  induction a as [|c a [s IH]]; simpl.
  - assert (strip_prefix p (p ++ b) = Some b) as Hp by by apply strip_prefix_Some.
    destruct (p ++ b); simpl; rewrite Hp; eauto.
  - destruct (strip_prefix p (c :: _)); [eauto|]. rewrite IH. destruct s; simpl; eauto.
Qed.

Lemma span_app f s a b : span f s = (a, b) -> s = a ++ b.
Proof.
  revert a b. induction s as [|c s IH]; intros a b; simpl; [by intros [= <- <-]|].
  destruct (f c); [by intros [= <- <-]|].
  destruct (span f s) as [a' b']. intros [= <- <-]. simpl. f_equal. by apply IH.
Qed.

Lemma slice_from_inv n s t : slice_from n s = Some t -> exists x, s = x ++ t /\ blen x = n.
Proof. unfold slice_from. destruct (split_at n s) as [ [x y]|] eqn:E; [|done]. cbn. intros [= ->]. apply split_at_Some in E as [-> <-]. by exists x. Qed.

Lemma slice_to_inv n s t : slice_to n s = Some t -> exists y, s = t ++ y /\ blen t = n.
Proof. unfold slice_to. destruct (split_at n s) as [ [x y]|] eqn:E; [|done]. cbn. intros [= ->]. apply split_at_Some in E as [-> <-]. by exists y. Qed.

#[export] Hint Rewrite blen_app split_at_app slice_app slice_from_app slice_to_app : hzr_simp.

(** ** UTF-8 *)

(** [char::encode_utf8] / [str::as_bytes]. *)
Definition utf8_char (c : char) : list N :=
  if c <? 128 then [c]
  else if c <? 2048 then [192 + c / 64; 128 + c mod 64]
  else if c <? 65536 then [224 + c / 4096; 128 + c / 64 mod 64; 128 + c mod 64]
  else [240 + c / 262144; 128 + c / 4096 mod 64; 128 + c / 64 mod 64; 128 + c mod 64].

Definition utf8 (s : rstr) : list N := concat (map utf8_char s).

Lemma length_utf8_char c : length (utf8_char c) = len_utf8 c.
Proof. unfold utf8_char, len_utf8. by repeat case_match. Qed.

Lemma length_utf8 s : length (utf8 s) = blen s.
Proof.
  induction s as [|c s IH]; [done|]. unfold utf8 in *. simpl.
  by rewrite length_app, length_utf8_char, IH.
Qed.

(** ** Decimal numbers *)

Definition dec_value (s : rstr) : N := fold_left (fun n c => n * 10 + (c - 48)) s 0.

(** [s.parse::<uN>().ok()], for the type whose maximum is [max]. *)
Definition parse_unsigned (max : N) (s : rstr) : option N :=
  let digits := match s with c :: d => if c =? ch "+" then d else s | [] => [] end in
  if negb (is_empty digits) && forallb is_ascii_digit digits && (dec_value digits <=? max)
  then Some (dec_value digits) else None.

(** [n.to_string()]: the digits of [n], least significant first until its
    quotient is zero; the fuel is its size in bits. *)
Fixpoint dec_digits (fuel : nat) (n : N) (acc : rstr) : rstr :=
  match fuel with
  | O => acc
  | S fuel =>
      let acc := (48 + n mod 10) :: acc in
      if n / 10 =? 0 then acc else dec_digits fuel (n / 10) acc
  end.

Definition dec (n : N) : rstr := dec_digits (S (N.size_nat n)) n [].

Lemma dec_value_cons c s k :
  fold_left (fun n c => n * 10 + (c - 48)) (c :: s) k
  = fold_left (fun n c => n * 10 + (c - 48)) s (k * 10 + (c - 48)).
Proof. done. Qed.

Lemma dec_digits_value fuel n acc :
  n < 2 ^ N.of_nat fuel -> (0 < fuel)%nat ->
  fold_left (fun n c => n * 10 + (c - 48)) (dec_digits fuel n acc) 0
  = fold_left (fun n c => n * 10 + (c - 48)) acc n.
Proof.
  revert n acc. induction fuel as [|fuel IH]; intros n acc Hn Hf; [lia|].
  cbn [dec_digits]. pose proof (N.div_mod n 10 ltac:(done)) as Hd.
  pose proof (N.mod_lt n 10 ltac:(done)) as Hm.
  destruct (N.eqb_spec (n / 10) 0) as [E|E].
  - rewrite dec_value_cons. f_equal. lia.
  - rewrite Nat2N.inj_succ, N.pow_succ_r' in Hn.
    assert (n / 10 < 2 ^ N.of_nat fuel) by (apply N.Div0.div_lt_upper_bound; lia).
    rewrite IH; [|done|destruct fuel; [change (2 ^ N.of_nat 0) with 1 in *; lia | lia] ].
    rewrite dec_value_cons. f_equal. clear -Hd. generalize dependent (n mod 10). generalize dependent (n / 10). lia.
Qed.

Lemma size_nat_bound n : n < 2 ^ N.of_nat (N.size_nat n).
Proof.
  destruct n as [|p]; [simpl; lia|]. simpl. induction p as [p IH|p IH|]; cbn [Pos.size_nat];
    rewrite ?Nat2N.inj_succ, ?N.pow_succ_r'; [lia | lia | simpl; lia].
Qed.

Lemma dec_digits_digits fuel n acc :
  forallb is_ascii_digit acc = true -> forallb is_ascii_digit (dec_digits fuel n acc) = true.
Proof.
  revert n acc. induction fuel as [|fuel IH]; intros n acc Ha; simpl; [done|].
  assert (forallb is_ascii_digit ((48 + n mod 10) :: acc) = true) as H.
  { simpl. rewrite Ha, andb_true_r. unfold is_ascii_digit, between.
    pose proof (N.mod_lt n 10 ltac:(done)) as Hm. revert Hm. generalize (n mod 10). intros r Hr.
    apply andb_true_iff. split; apply N.leb_le; lia. }
  destruct (n / 10 =? 0); [done|]. by apply IH.
Qed.

Lemma dec_digits_nonempty fuel n acc : (0 < fuel)%nat -> dec_digits fuel n acc <> [].
Proof.
  revert n acc. induction fuel as [|fuel IH]; intros n acc Hf; [lia|]. cbn [dec_digits].
  destruct (n / 10 =? 0); [done|]. destruct fuel; [done|]. apply IH. lia.
Qed.

(** Printing a number and parsing it back. *)
Lemma dec_value_dec n : dec_value (dec n) = n.
Proof.
  unfold dec_value, dec. rewrite dec_digits_value; [done | | lia].
  eapply N.lt_trans; [apply size_nat_bound|]. apply N.pow_lt_mono_r; lia.
Qed.

Lemma parse_dec_eq max n : parse_unsigned max (dec n) = if n <=? max then Some n else None.
Proof.
  unfold parse_unsigned.
  assert (forallb is_ascii_digit (dec n) = true) as Hd by by apply dec_digits_digits.
  assert (dec n <> []) as Hne by (apply dec_digits_nonempty; lia).
  pose proof (dec_value_dec n) as Hv.
  destruct (dec n) as [|c d] eqn:E; [done|]. destruct (N.eqb_spec c (ch "+")) as [->|_].
  - simpl in Hd. discriminate.
  - by rewrite Hd, Hv.
Qed.

Lemma parse_dec max n : n <= max -> parse_unsigned max (dec n) = Some n.
Proof. intros Hn. rewrite parse_dec_eq. by apply N.leb_le in Hn as ->. Qed.

Lemma dec_digits_length k : forall fuel n acc,
  n < 10 ^ N.of_nat k -> (0 < k)%nat -> (length (dec_digits fuel n acc) <= k + length acc)%nat.
Proof.
  induction k as [|k IH]; intros fuel n acc Hn Hk; [lia|].
  destruct fuel as [|fuel]; cbn [dec_digits]; [lia|].
  destruct (N.eqb_spec (n / 10) 0) as [E|E]; [simpl; lia|].
  rewrite Nat2N.inj_succ, N.pow_succ_r' in Hn.
  assert (n / 10 < 10 ^ N.of_nat k) as Hd by (apply N.Div0.div_lt_upper_bound; lia).
  assert (0 < k)%nat as Hk' by
    (destruct k; [revert E Hd; change (10 ^ N.of_nat 0) with 1; generalize (n / 10); lia | lia]).
  clear Hk Hn.
  specialize (IH fuel (n / 10) ((48 + n mod 10) :: acc) Hd Hk').
  change (length ((48 + n mod 10) :: acc)) with (S (length acc)) in IH. lia.
Qed.

Lemma digits_blen s : forallb is_ascii_digit s = true -> blen s = length s.
Proof.
  induction s as [|c s IH]; simpl; [done|]. intros H. apply andb_true_iff in H as [Hc H].
  rewrite IH by done. rewrite len_utf8_ascii; [done|].
  apply andb_true_iff in Hc as [_ Hc]. apply N.leb_le in Hc. lia.
Qed.

(** A [u64] has at most twenty digits. *)
Lemma dec_blen n : n <= u64_max -> (blen (dec n) <= 20)%nat.
Proof.
  intros Hn. rewrite digits_blen by by apply dec_digits_digits.
  assert (n < 10 ^ N.of_nat 20) as H.
  { eapply N.le_lt_trans; [exact Hn|]. reflexivity. }
  pose proof (dec_digits_length 20 (S (N.size_nat n)) n [] H ltac:(lia)) as Hl.
  unfold dec. etransitivity; [exact Hl|]. simpl. lia.
Qed.

Lemma dec_digits_grows fuel n acc : (length acc <= length (dec_digits fuel n acc))%nat.
Proof.
  revert n acc. induction fuel as [|fuel IH]; intros n acc; cbn [dec_digits]; [lia|].
  destruct (n / 10 =? 0); [simpl; lia|]. specialize (IH (n / 10) ((48 + n mod 10) :: acc)).
  cbn [length] in IH. lia.
Qed.

Lemma dec_digits_mono f2 : forall f1 m n a b,
  m <= n -> n < 2 ^ N.of_nat f2 -> (0 < f2)%nat ->
  (length (dec_digits f1 m a) + length b <= length (dec_digits f2 n b) + length a)%nat.
Proof.
  induction f2 as [|f2 IH]; intros f1 m n a b Hmn Hn Hf; [lia|].
  destruct f1 as [|f1]; [pose proof (dec_digits_grows (S f2) n b); cbn [dec_digits] in *; lia|].
  cbn [dec_digits]. pose proof (N.Div0.div_le_mono m n 10 Hmn) as Hd.
  destruct (N.eqb_spec (m / 10) 0) as [Em|Em]; destruct (N.eqb_spec (n / 10) 0) as [En|En].
  - simpl. lia.
  - pose proof (dec_digits_grows f2 (n / 10) ((48 + n mod 10) :: b)) as Hg. cbn [length] in *. lia.
  - exfalso. revert Hd Em En. generalize (m / 10) (n / 10). lia.
  - rewrite Nat2N.inj_succ, N.pow_succ_r' in Hn.
    assert (n / 10 < 2 ^ N.of_nat f2) as Hn' by (apply N.Div0.div_lt_upper_bound; lia).
    assert (0 < f2)%nat as Hf'.
    { destruct f2; [|lia]. revert Hn' En. change (2 ^ N.of_nat 0) with 1. generalize (n / 10). lia. }
    specialize (IH f1 (m / 10) (n / 10) ((48 + m mod 10) :: a) ((48 + n mod 10) :: b) Hd Hn' Hf').
    cbn [length] in IH. clear -IH. lia.
Qed.

(** A greater number has at least as many digits. *)
Lemma dec_blen_mono m n : m <= n -> (blen (dec m) <= blen (dec n))%nat.
Proof.
  intros Hmn. rewrite !digits_blen by by apply dec_digits_digits. unfold dec.
  assert (n < 2 ^ N.of_nat (S (N.size_nat n))) as Hn.
  { eapply N.lt_trans; [apply size_nat_bound|]. apply N.pow_lt_mono_r; lia. }
  pose proof (dec_digits_mono _ (S (N.size_nat m)) m n [] [] Hmn Hn ltac:(lia)) as H.
  cbn [length] in H. lia.
Qed.

Lemma dec_blen_pos n : (0 < blen (dec n))%nat.
Proof.
  rewrite digits_blen by by apply dec_digits_digits.
  pose proof (dec_digits_nonempty (S (N.size_nat n)) n [] ltac:(lia)) as H.
  unfold dec in *. destruct (dec_digits _ _ _); [done|simpl; lia].
Qed.

(** ** The order of strings *)

Lemma str_cmp_refl a : str_cmp a a = Eq.
Proof. induction a as [|c a IH]; simpl; [done|]. by rewrite N.compare_refl. Qed.

Lemma str_cmp_eq a b : str_cmp a b = Eq -> a = b.
Proof.
  revert b. induction a as [|c a IH]; intros [|d b]; simpl; try done.
  destruct (N.compare_spec c d) as [->|H|H]; try done. intros H. f_equal. auto.
Qed.

Lemma str_cmp_antisym a b : str_cmp b a = CompOpp (str_cmp a b).
Proof.
  revert b. induction a as [|c a IH]; intros [|d b]; simpl; try done.
  rewrite (N.compare_antisym c d). by destruct (c ?= d); simpl.
Qed.

Lemma str_cmp_trans a b c : str_cmp a b = Lt -> str_cmp b c = Lt -> str_cmp a c = Lt.
Proof.
  revert b c. induction a as [|x a IH]; intros [|y b] [|z c]; simpl; try done.
  destruct (N.compare_spec x y) as [->|Hxy|Hxy]; [|intros _|done].
  - destruct (y ?= z); try done. apply IH.
  - destruct (N.compare_spec y z) as [->|Hyz|Hyz]; [intros _|intros _|done].
    + by rewrite (proj2 (N.compare_lt_iff x z)).
    + by rewrite (proj2 (N.compare_lt_iff x z)) by lia.
Qed.

(** ** Bytes of ASCII strings *)

Lemma utf8_cons c s : utf8 (c :: s) = utf8_char c ++ utf8 s.
Proof. done. Qed.

(** A test that no byte above 127 passes sees the characters themselves. *)
Lemma utf8_forallb (f : N -> bool) s :
  (forall b, f b = true -> b < 128) -> forallb f (utf8 s) = true -> utf8 s = s /\ forallb f s = true.
Proof.
  intros Hf. induction s as [|c s IH]; [done|]. rewrite utf8_cons, forallb_app.
  intros [Hc Hs]%andb_true_iff. destruct (IH Hs) as [E Hs']. rewrite E. simpl. rewrite Hs'.
  unfold utf8_char in *. destruct (N.ltb_spec c 128); [by apply andb_true_iff in Hc as [-> _]|].
  exfalso. assert (forall k x, 128 <= k -> f (k + x) = false) as Hbig.
  { intros k x Hk. destruct (f (k + x)) eqn:E'; [|done]. apply Hf in E'. lia. }
  repeat case_match; simpl in Hc; by rewrite Hbig in Hc.
Qed.

#[export] Instance str_cmp_ordering : Ordering str_cmp.
Proof.
  split; [intros a b; apply str_cmp_antisym|]. intros a b c Hab Hbc.
  destruct (str_cmp a b) eqn:E1; [apply str_cmp_eq in E1 as ->; done | | done].
  destruct (str_cmp b c) eqn:E2; [apply str_cmp_eq in E2 as <-; by rewrite E1 | | done].
  by rewrite (str_cmp_trans _ _ _ E1 E2).
Qed.

(** ** Joining and splitting *)

Lemma contains_char_app c s t : contains_char c (s ++ t) = contains_char c s || contains_char c t.
Proof. apply existsb_app. Qed.

Lemma contains_char_join c sep ws :
  contains_char c sep = false -> Forall (fun w => contains_char c w = false) ws -> contains_char c (join sep ws) = false.
Proof.
  intros Hsep. induction 1 as [|w ws Hw Hws IH]; [done|]. simpl. destruct ws as [|w' ws]; [done|].
  by rewrite !contains_char_app, Hw, Hsep, IH.
Qed.

Lemma split_char_nonempty f s : split_char f s <> [].
Proof. destruct s as [|c s]; simpl; [done|]. destruct (f c); [done|]. by destruct (split_char f s). Qed.

Lemma split_char_app f a c b : f c = true -> split_char f (a ++ c :: b) = split_char f a ++ split_char f b.
Proof.
  intros Hc. induction a as [|d a IH]; simpl; [by rewrite Hc|]. rewrite IH.
  destruct (f d); [done|]. pose proof (split_char_nonempty f a). by destruct (split_char f a).
Qed.

Lemma split_char_none c s : contains_char c s = false -> split_char (N.eqb c) s = [s].
Proof.
  induction s as [|d s IH]; simpl; [done|]. intros H. apply orb_false_iff in H as [-> H]. by rewrite IH.
Qed.

Lemma split_char_cons c s t : contains_char c s = false -> split_char (N.eqb c) (s ++ c :: t) = s :: split_char (N.eqb c) t.
Proof.
  induction s as [|d s IH]; simpl; [by rewrite N.eqb_refl|]. intros H. apply orb_false_iff in H as [-> H]. by rewrite IH.
Qed.

(** Splitting undoes joining. *)
Lemma split_join c ws : ws <> [] -> Forall (fun w => contains_char c w = false) ws ->
  split_char (N.eqb c) (join [c] ws) = ws.
Proof.
  intros Hne H. induction H as [|w ws Hw Hws IH]; [done|]. destruct ws as [|w' ws]; [by apply split_char_none|].
  change (join [c] (w :: w' :: ws)) with (w ++ c :: join [c] (w' :: ws)). rewrite split_char_cons by done.
  by rewrite IH.
Qed.

Lemma split_once_char c s t : contains_char c s = false -> split_once [c] (s ++ c :: t) = Some (s, t).
Proof.
  induction s as [|d s IH]; simpl; [by rewrite N.eqb_refl|]. intros H. apply orb_false_iff in H as [-> H]. by rewrite IH.
Qed.

Lemma contains_char_reverse c s : contains_char c (reverse s) = contains_char c s.
Proof.
  induction s as [|d s IH]; [done|]. rewrite reverse_cons, contains_char_app, IH. simpl. by rewrite orb_false_r, orb_comm.
Qed.

Lemma rsplit_once_char c s t : contains_char c t = false -> rsplit_once [c] (s ++ c :: t) = Some (s, t).
Proof.
  intros H. unfold rsplit_once. change (reverse [c]) with [c].
  rewrite reverse_app, reverse_cons, <- app_assoc. simpl.
  rewrite split_once_char by (by rewrite contains_char_reverse). simpl. by rewrite !reverse_involutive.
Qed.

(** Lines that hold no line feed and end in no carriage return. *)
Lemma lines_concat ls :
  Forall (fun l => contains_char 10 l = false /\ last l <> Some 13) ls ->
  lines (concat (map (fun l => l ++ [10]) ls)) = ls.
Proof.
  intros H. unfold lines.
  assert (split_char (N.eqb 10) (concat (map (fun l => l ++ [10]) ls)) = ls ++ [[]]) as ->.
  { induction H as [|l ls [Hl _] _ IH]; [done|]. simpl. rewrite <- app_assoc. simpl. by rewrite split_char_cons, IH. }
  rewrite removelast_last, last_last. simpl. rewrite app_nil_r.
  induction H as [|l ls [_ Hl] _ IH]; [done|]. simpl. rewrite IH. f_equal. unfold strip_cr.
  destruct (strip_suffix [13] l) as [x|] eqn:E; [|done]. apply strip_suffix_Some in E as ->.
  destruct Hl. apply last_snoc.
Qed.

(** Every line feed ends a line. *)
Definition count_char (c : char) (s : rstr) : nat := length (List.filter (N.eqb c) s).

Lemma count_char_app c s t : count_char c (s ++ t) = (count_char c s + count_char c t)%nat.
Proof. unfold count_char. by rewrite List.filter_app, length_app. Qed.

Lemma contains_count c s : contains_char c s = true -> (0 < count_char c s)%nat.
Proof.
  unfold count_char, contains_char. intros (d & Hd & E)%existsb_exists.
  assert (In d (List.filter (N.eqb c) s)) as Hin by (by apply List.filter_In). destruct (List.filter _ s); [done|simpl; lia].
Qed.

Lemma length_split_char c s : length (split_char (N.eqb c) s) = S (count_char c s).
Proof.
  unfold count_char. induction s as [|d s IH]; [done|]. simpl. destruct (c =? d); simpl; [by rewrite IH|].
  destruct (split_char (N.eqb c) s); [done|]. exact IH.
Qed.

Lemma lines_length s : (count_char 10 s <= length (lines s))%nat.
Proof.
  unfold lines. pose proof (length_split_char 10 s) as H. destruct (split_char (N.eqb 10) s) as [|p ps] eqn:E; [done|].
  rewrite length_app, length_map.
  assert (length (removelast (p :: ps)) = length ps) as ->; [|simpl in H; lia].
  pose proof (f_equal length (app_removelast_last (l := p :: ps) [] ltac:(done))) as H'. rewrite length_app in H'. simpl in *. lia.
Qed.

(** ** Splitting at a string *)

(** [s.split(p)] for a non-empty [p]; every occurrence takes a character. *)
Fixpoint split_str_fuel (fuel : nat) (p s : rstr) : list rstr :=
  match fuel with
  | O => [s]
  | S fuel => match split_once p s with Some (a, b) => a :: split_str_fuel fuel p b | None => [s] end
  end.

Definition split_str (p s : rstr) : list rstr := split_str_fuel (S (length s)) p s.

(** [s.matches(p).count()] for a non-empty [p]. *)
Definition count_matches (p s : rstr) : nat := pred (length (split_str p s)).

Lemma split_once_shorter p s a b : p <> [] -> split_once p s = Some (a, b) -> (length b < length s)%nat.
Proof.
  intros Hp H. apply split_once_Some in H as ->. rewrite !length_app. destruct p; [done|]. cbn [length]. lia.
Qed.

Lemma split_str_fuel_enough p n : p <> [] -> forall m s, (length s < n)%nat -> (length s < m)%nat ->
  split_str_fuel n p s = split_str_fuel m p s.
Proof.
  intros Hp. induction n as [|n IH]; intros m s Hn Hm; [lia|]. destruct m as [|m]; [lia|]. cbn [split_str_fuel].
  destruct (split_once p s) as [ [a b]|] eqn:E; [|done]. apply split_once_shorter in E; [|done].
  f_equal. apply IH; lia.
Qed.

Lemma split_str_eq p s : p <> [] ->
  split_str p s = match split_once p s with Some (a, b) => a :: split_str p b | None => [s] end.
Proof.
  intros Hp. unfold split_str at 1. cbn [split_str_fuel]. destruct (split_once p s) as [ [a b]|] eqn:E; [|done].
  apply split_once_shorter in E; [|done]. f_equal. apply split_str_fuel_enough; [done | lia | lia].
Qed.

(** An occurrence stays the first one when the text goes on. *)
Lemma split_once_app p s a b r : split_once p s = Some (a, b) -> split_once p (s ++ r) = Some (a, b ++ r).
Proof.
  intros H. pose proof (split_once_Some _ _ _ _ H) as Hs. subst s. rewrite <- !app_assoc.
  destruct (split_once_complete p a (b ++ r)) as [ [x y] Hxy]. rewrite Hxy.
  pose proof (split_once_leftmost _ _ _ _ Hxy) as Hle. cbn [fst] in Hle. apply split_once_Some in Hxy.
  destruct (decide (length x = length a)) as [E|E].
  - apply app_inj_1 in Hxy as [-> Hpy]; [|by symmetry]. by apply app_inv_head in Hpy as ->.
  - exfalso. assert (exists y', a ++ p ++ b = x ++ p ++ y') as [y' Hy].
    { exists (take (length (p ++ b) - length p + (length a - length x)) y).
      apply (f_equal (take (length (a ++ p ++ b)))) in Hxy.
      replace (a ++ p ++ b ++ r) with ((a ++ p ++ b) ++ r) in Hxy by (by rewrite <- !app_assoc).
      rewrite take_app_length in Hxy. rewrite Hxy. rewrite !take_app, (take_ge x), (take_ge p) by (rewrite !length_app; lia).
      do 2 f_equal. f_equal. rewrite !length_app. lia. }
    rewrite Hy in H. pose proof (split_once_leftmost _ _ _ _ H) as Hle'. cbn [fst] in Hle'. lia.
Qed.

(** ** Lines with their ends *)

(** The lines of a text: [split_inclusive('\n')]. *)
Fixpoint split_inclusive (s : rstr) : list rstr :=
  match s with
  | [] => []
  | c :: s' =>
      if c =? 10 then [c] :: split_inclusive s'
      else match split_inclusive s' with
           | [] => [[c]]
           | l :: ls => (c :: l) :: ls
           end
  end.

Lemma split_inclusive_bytes s : sum_list_with blen (split_inclusive s) = blen s.
Proof.
  induction s as [|c s IH]; [done|]. simpl. destruct (c =? 10); simpl; [lia|].
  destruct (split_inclusive s); simpl in *; lia.
Qed.

Lemma no_feed_cons c w : c <> 10 -> contains_char 10 w = false -> contains_char 10 (c :: w) = false.
Proof.
  intros Hc Hw. change (contains_char 10 (c :: w)) with ((10 =? c) || contains_char 10 w). rewrite Hw, orb_false_r. by apply N.eqb_neq.
Qed.

Lemma concat_split_inclusive s : concat (split_inclusive s) = s.
Proof.
  induction s as [|c s IH]; cbn [split_inclusive]; [done|]. destruct (c =? 10); [cbn; by rewrite IH|].
  destruct (split_inclusive s) as [|l ls]; cbn in *; by rewrite <- IH.
Qed.

(** A line with its end, and one that ends the text without it. *)
Definition full_line (l : rstr) : Prop := exists w, l = w ++ [10] /\ contains_char 10 w = false.
Definition open_line (l : rstr) : Prop := l <> [] /\ contains_char 10 l = false.

Lemma full_line_nonempty l : full_line l -> l <> [].
Proof. intros (w & -> & _). by destruct w. Qed.

Lemma split_inclusive_cons l s : full_line l -> split_inclusive (l ++ s) = l :: split_inclusive s.
Proof.
  intros (w & -> & Hw). rewrite <- app_assoc. cbn [app]. induction w as [|c w IH]; cbn [app split_inclusive]; [done|].
  change (contains_char 10 (c :: w)) with ((10 =? c) || contains_char 10 w) in Hw. apply orb_false_iff in Hw as [Hc%N.eqb_neq Hw]. rewrite (proj2 (N.eqb_neq c 10)) by done. by rewrite (IH Hw).
Qed.

Lemma split_inclusive_concat ls : Forall full_line ls -> split_inclusive (concat ls) = ls.
Proof. induction 1 as [|l ls Hl _ IH]; [done|]. cbn [concat]. by rewrite split_inclusive_cons, IH. Qed.

(** Every line of a text is full, but for the last of one that does not end in a line feed. *)
Lemma split_inclusive_lines s : exists ls o, split_inclusive s = ls ++ option_list o /\ Forall full_line ls
  /\ match o with Some l => open_line l | None => True end.
Proof.
  induction s as [|c s (ls & o & Hs & Hf & Ho)]; cbn [split_inclusive]; [by exists [], None|]. rewrite Hs.
  destruct (N.eqb_spec c 10) as [->|Hc].
  - exists ([10] :: ls), o. split; [done|]. split; [|done]. constructor; [by exists []|done].
  - destruct ls as [|l ls]; cbn [app].
    + destruct o as [l|]; cbn [option_list].
      * exists [], (Some (c :: l)). destruct Ho as [_ Ho]. split; [done|]. split; [constructor|]. split; [done|]. by apply no_feed_cons.
      * exists [], (Some [c]). split; [done|]. split; [constructor|]. split; [done|]. by apply no_feed_cons.
    + exists ((c :: l) :: ls), o. split; [done|]. split; [|done]. inversion_clear Hf as [|? ? (w & -> & Hw) Hls]. constructor; [|done].
      exists (c :: w). split; [done|]. by apply no_feed_cons.
Qed.

(** A line without its end. *)
Definition bare_line (l : rstr) : rstr := match strip_suffix [10] l with Some w => strip_cr w | None => l end.

Lemma lines_full ls rest : Forall full_line ls -> lines (concat ls ++ rest) = map bare_line ls ++ lines rest.
Proof.
  induction 1 as [|l ls (w & -> & Hw) _ IH]; [done|]. cbn [concat map app]. rewrite <- !app_assoc. cbn [app].
  assert (forall t, lines (w ++ 10 :: t) = strip_cr w :: lines t) as Hl.
  { intros t. unfold lines. rewrite split_char_cons by done. pose proof (length_split_char 10 t) as Hlen.
    destruct (split_char (N.eqb 10) t) as [|p ps] eqn:E; [done|]. done. }
  rewrite Hl, IH. f_equal. unfold bare_line. by rewrite (proj2 (strip_suffix_Some [10] (w ++ [10]) w) eq_refl).
Qed.
