(* ===== verification/Contract.v ===== *)
(** The engine contract ([crates/hzr-engine-contract/src/lib.rs]): the closed
    vocabularies the control plane and the engine exchange, the classification
    of a command that evaded the optimizer, the plan of a rewrite and the receipt
    of an accounted operation, with the validity checks both sides apply.  Each
    enumeration is a [Module] whose type is [t]. *)

From S2P Require Import Prelude RStr.

Module AccountingFailureKind.
Inductive t := TrackerOpen | OperationRecord | ReceiptAppend.

#[global] Instance eq_dec : EqDecision t.
Proof. solve_decision. Defined.

End AccountingFailureKind.

Module AccountingChannel.
Inductive t := HookCli | Mcp | NativeHost.

#[global] Instance eq_dec : EqDecision t.
Proof. solve_decision. Defined.

End AccountingChannel.

Module AccountingMeasurement.
Inductive t := Estimated | Unmeasured.

#[global] Instance eq_dec : EqDecision t.
Proof. solve_decision. Defined.

End AccountingMeasurement.

Module AccountingRoute.
Inductive t := Optimized | Bypassed | NativeUnaccounted.

#[global] Instance eq_dec : EqDecision t.
Proof. solve_decision. Defined.

End AccountingRoute.

Module AccountingOperationKind.
Inductive t :=
| Search | Read | Write | Context | Memory | Codec | Exec | Observability | Doctor.

#[global] Instance eq_dec : EqDecision t.
Proof. solve_decision. Defined.

Definition as_str (self : t) : rstr :=
  match self with
  | Search => lit "search"
  | Read => lit "read"
  | Write => lit "write"
  | Context => lit "context"
  | Memory => lit "memory"
  | Codec => lit "codec"
  | Exec => lit "exec"
  | Observability => lit "observability"
  | Doctor => lit "doctor"
  end.

End AccountingOperationKind.

Module AccountingOperationMode.
Inductive t :=
| SearchAuto | SearchSemantic | SearchExact | SearchBuiltin | ReadFull | ReadFiltered |
ReadRange | ReadHead | ReadTail | ReadOutline | ReadSymbols | ReadChanged | ReadSince |
Write | ContextPlan | MemoryRecall | MemoryStore | MemoryForget | MemoryUpdate |
MemoryPrune | CodecCompile | ExecRun | ObservabilitySnapshot | DoctorCheck.

#[global] Instance eq_dec : EqDecision t.
Proof. solve_decision. Defined.

Definition as_str (self : t) : rstr :=
  match self with
  | SearchAuto => lit "search_auto"
  | SearchSemantic => lit "search_semantic"
  | SearchExact => lit "search_exact"
  | SearchBuiltin => lit "search_builtin"
  | ReadFull => lit "read_full"
  | ReadFiltered => lit "read_filtered"
  | ReadRange => lit "read_range"
  | ReadHead => lit "read_head"
  | ReadTail => lit "read_tail"
  | ReadOutline => lit "read_outline"
  | ReadSymbols => lit "read_symbols"
  | ReadChanged => lit "read_changed"
  | ReadSince => lit "read_since"
  | Write => lit "write"
  | ContextPlan => lit "context_plan"
  | MemoryRecall => lit "memory_recall"
  | MemoryStore => lit "memory_store"
  | MemoryForget => lit "memory_forget"
  | MemoryUpdate => lit "memory_update"
  | MemoryPrune => lit "memory_prune"
  | CodecCompile => lit "codec_compile"
  | ExecRun => lit "exec_run"
  | ObservabilitySnapshot => lit "observability_snapshot"
  | DoctorCheck => lit "doctor_check"
  end.

Definition operation (self : t) : AccountingOperationKind.t :=
  match self with
  | SearchAuto | SearchSemantic | SearchExact | SearchBuiltin => AccountingOperationKind.Search
  | ReadFull | ReadFiltered | ReadRange | ReadHead | ReadTail | ReadOutline | ReadSymbols
  | ReadChanged | ReadSince => AccountingOperationKind.Read
  | Write => AccountingOperationKind.Write
  | ContextPlan => AccountingOperationKind.Context
  | MemoryRecall | MemoryStore | MemoryForget | MemoryUpdate | MemoryPrune =>
      AccountingOperationKind.Memory
  | CodecCompile => AccountingOperationKind.Codec
  | ExecRun => AccountingOperationKind.Exec
  | ObservabilitySnapshot => AccountingOperationKind.Observability
  | DoctorCheck => AccountingOperationKind.Doctor
  end.

End AccountingOperationMode.

Module AccountingStage.
Inductive t := InternalTransport | FinalDelivery | StandaloneDelivery | ControlPlane.

#[global] Instance eq_dec : EqDecision t.
Proof. solve_decision. Defined.

Definition as_str (self : t) : rstr :=
  match self with
  | InternalTransport => lit "internal_transport"
  | FinalDelivery => lit "final_delivery"
  | StandaloneDelivery => lit "standalone_delivery"
  | ControlPlane => lit "control_plane"
  end.

End AccountingStage.

Module AccountingFilterLevel.
Inductive t := None | Minimal | Aggressive.

#[global] Instance eq_dec : EqDecision t.
Proof. solve_decision. Defined.

Definition as_str (self : t) : rstr :=
  match self with
  | None => lit "none"
  | Minimal => lit "minimal"
  | Aggressive => lit "aggressive"
  end.

End AccountingFilterLevel.

Module AccountingSearchStrategy.
Inductive t :=
| ForkRgaiAdaptive | ForkRgaiBuiltin | ForkRgaiGrepai | ForkRgaiRipgrep | ForkRgaiFiles.

#[global] Instance eq_dec : EqDecision t.
Proof. solve_decision. Defined.

Definition as_str (self : t) : rstr :=
  match self with
  | ForkRgaiAdaptive => lit "fork_rgai_adaptive"
  | ForkRgaiBuiltin => lit "fork_rgai_builtin"
  | ForkRgaiGrepai => lit "fork_rgai_grepai"
  | ForkRgaiRipgrep => lit "fork_rgai_ripgrep"
  | ForkRgaiFiles => lit "fork_rgai_files"
  end.

End AccountingSearchStrategy.

Module SearchFallbackCode.
Inductive t :=
| LegacyIndexRequiresMigration | SemanticIndexUnavailable | GrepaiUnavailable |
RipgrepUnavailable.

#[global] Instance eq_dec : EqDecision t.
Proof. solve_decision. Defined.

Definition as_str (self : t) : rstr :=
  match self with
  | LegacyIndexRequiresMigration => lit "legacy_index_requires_migration"
  | SemanticIndexUnavailable => lit "semantic_index_unavailable"
  | GrepaiUnavailable => lit "grepai_unavailable"
  | RipgrepUnavailable => lit "ripgrep_unavailable"
  end.

End SearchFallbackCode.

Module EvasionClass.
Inductive t :=
| E1QuotedCoveredCommand | E2ShellWrapper | E3InterpreterRead | E4ExecutablePath |
E5PipelineOrRedirect | E6NestedUnboundedReader | E7FidelityHatch | E8NativeTool |
E9DiagnosticBypass | E10CapabilityGap | E11PrivilegedPrefix.

#[global] Instance eq_dec : EqDecision t.
Proof. solve_decision. Defined.

Definition as_str (self : t) : rstr :=
  match self with
  | E1QuotedCoveredCommand => lit "e1"
  | E2ShellWrapper => lit "e2"
  | E3InterpreterRead => lit "e3"
  | E4ExecutablePath => lit "e4"
  | E5PipelineOrRedirect => lit "e5"
  | E6NestedUnboundedReader => lit "e6"
  | E7FidelityHatch => lit "e7"
  | E8NativeTool => lit "e8"
  | E9DiagnosticBypass => lit "e9"
  | E10CapabilityGap => lit "e10"
  | E11PrivilegedPrefix => lit "e11"
  end.

Definition ledger_str (self : t) : rstr :=
  match self with
  | E1QuotedCoveredCommand => lit "e1_quoted_covered_command"
  | E2ShellWrapper => lit "e2_shell_wrapper"
  | E3InterpreterRead => lit "e3_interpreter_read"
  | E4ExecutablePath => lit "e4_executable_path"
  | E5PipelineOrRedirect => lit "e5_pipeline_or_redirect"
  | E6NestedUnboundedReader => lit "e6_nested_unbounded_reader"
  | E7FidelityHatch => lit "e7_fidelity_hatch"
  | E8NativeTool => lit "e8_native_tool"
  | E9DiagnosticBypass => lit "e9_diagnostic_bypass"
  | E10CapabilityGap => lit "e10_capability_gap"
  | E11PrivilegedPrefix => lit "e11_privileged_prefix"
  end.

Definition construct (self : t) : rstr :=
  match self with
  | E1QuotedCoveredCommand => lit "quoted covered command"
  | E2ShellWrapper => lit "shell wrapper"
  | E3InterpreterRead => lit "interpreter file read"
  | E4ExecutablePath => lit "executable path form"
  | E5PipelineOrRedirect => lit "pipeline or redirect"
  | E6NestedUnboundedReader => lit "nested unbounded reader"
  | E7FidelityHatch => lit "raw fidelity request"
  | E8NativeTool => lit "host-native file tool"
  | E9DiagnosticBypass => lit "direct HZR diagnostic access"
  | E10CapabilityGap => lit "no first-class route"
  | E11PrivilegedPrefix => lit "privilege elevation prefix"
  end.

Definition prescription (self : t) : rstr :=
  match self with
  | E1QuotedCoveredCommand | E2ShellWrapper | E4ExecutablePath => lit "re-issue the inner command directly so HZR can route it"
  | E3InterpreterRead => lit "read files with `hzr read <file>` and scan them with `hzr search '<pattern>'`; keep the interpreter for computation that has no managed route"
  | E5PipelineOrRedirect => lit "run each stage through its own managed route, for example `hzr read <file> --max-lines N` instead of piping a full read into a limiter"
  | E6NestedUnboundedReader => lit "read the matched files with `hzr read <file>` instead of embedding an unbounded reader in the command"
  | E7FidelityHatch => lit "supply a fidelity reason that matches the command, or use the bounded managed route when exact bytes are not required"
  | E8NativeTool => lit "use the equivalent `hzr` file operation"
  | E9DiagnosticBypass => lit "use `hzr stats` (add `--since` or `--workspace`) instead of reading HZR state directly; this is an HZR policy decision surfaced through the harness approval channel, not a harness permission"
  | E10CapabilityGap => lit "no managed route covers this command; approving runs it as tracked raw"
  | E11PrivilegedPrefix => lit "elevation was granted to one binary; HZR stays out of it and runs the command verbatim " ++ [8212]
      ++ lit " drop the elevation to get a managed route"
  end.

End EvasionClass.

Module EvasionInterpreter.
Inductive t := Shell | Python | Javascript | Ruby | Perl | Awk | Sed.

#[global] Instance eq_dec : EqDecision t.
Proof. solve_decision. Defined.

Definition as_str (self : t) : rstr :=
  match self with
  | Shell => lit "shell"
  | Python => lit "python"
  | Javascript => lit "javascript"
  | Ruby => lit "ruby"
  | Perl => lit "perl"
  | Awk => lit "awk"
  | Sed => lit "sed"
  end.

End EvasionInterpreter.

Module EvasionPathForm.
Inductive t := Bare | AbsoluteSystem | Relative | ResolvedAlias.

#[global] Instance eq_dec : EqDecision t.
Proof. solve_decision. Defined.

Definition as_str (self : t) : rstr :=
  match self with
  | Bare => lit "bare"
  | AbsoluteSystem => lit "absolute_system"
  | Relative => lit "relative"
  | ResolvedAlias => lit "resolved_alias"
  end.

End EvasionPathForm.

Module EnforcementTier.
Inductive t :=
| T0TransparentRewrite | T1NamedCorrection | T2DenyWithPrescription | T3BudgetExhaustion
| T4HatchQuarantine.

#[global] Instance eq_dec : EqDecision t.
Proof. solve_decision. Defined.

Definition as_str (self : t) : rstr :=
  match self with
  | T0TransparentRewrite => lit "t0"
  | T1NamedCorrection => lit "t1"
  | T2DenyWithPrescription => lit "t2"
  | T3BudgetExhaustion => lit "t3"
  | T4HatchQuarantine => lit "t4"
  end.

Definition ledger_str (self : t) : rstr :=
  match self with
  | T0TransparentRewrite => lit "t0_transparent_rewrite"
  | T1NamedCorrection => lit "t1_named_correction"
  | T2DenyWithPrescription => lit "t2_deny_with_prescription"
  | T3BudgetExhaustion => lit "t3_budget_exhaustion"
  | T4HatchQuarantine => lit "t4_hatch_quarantine"
  end.

End EnforcementTier.

Module FidelityReason.
Inductive t :=
| Binary | Checksum | MachineProtocol | CompleteLog | FullPatch | VerbatimSource.

#[global] Instance eq_dec : EqDecision t.
Proof. solve_decision. Defined.

Definition as_str (self : t) : rstr :=
  match self with
  | Binary => lit "binary"
  | Checksum => lit "checksum"
  | MachineProtocol => lit "machine_protocol"
  | CompleteLog => lit "complete_log"
  | FullPatch => lit "full_patch"
  | VerbatimSource => lit "verbatim_source"
  end.

Definition parse (value : rstr) : option t :=
  if bool_decide (value = lit "binary") then Some Binary
  else if bool_decide (value = lit "checksum") then Some Checksum
  else if bool_decide (value = lit "machine_protocol") then Some MachineProtocol
  else if bool_decide (value = lit "complete_log") then Some CompleteLog
  else if bool_decide (value = lit "full_patch") then Some FullPatch
  else if bool_decide (value = lit "verbatim_source") then Some VerbatimSource
  else None.

End FidelityReason.

Module FidelityValidation.
Inductive t :=
| NotRequested | Valid | MissingReason | InvalidReason | Contradicted | ProvenEquivalent
| BudgetExhausted.

#[global] Instance eq_dec : EqDecision t.
Proof. solve_decision. Defined.

Definition as_str (self : t) : rstr :=
  match self with
  | NotRequested => lit "not_requested"
  | Valid => lit "valid"
  | MissingReason => lit "missing_reason"
  | InvalidReason => lit "invalid_reason"
  | Contradicted => lit "contradicted"
  | ProvenEquivalent => lit "proven_equivalent"
  | BudgetExhausted => lit "budget_exhausted"
  end.

End FidelityValidation.

Module PolicyDecision.
Inductive t := Ask | Deny | Correction.

#[global] Instance eq_dec : EqDecision t.
Proof. solve_decision. Defined.

Definition as_str (self : t) : rstr :=
  match self with
  | Ask => lit "ask"
  | Deny => lit "deny"
  | Correction => lit "correction"
  end.

End PolicyDecision.

Module RewritePlanDecision.
Inductive t := Rewrite | Proxy | Ask | Deny.

#[global] Instance eq_dec : EqDecision t.
Proof. solve_decision. Defined.

End RewritePlanDecision.

Module RewritePlanReason.
Inductive t := PermissionPolicy | CanonicalPolicy.

#[global] Instance eq_dec : EqDecision t.
Proof. solve_decision. Defined.

End RewritePlanReason.

Module HostPermissionVerdict.
Inductive t := Allow | Ask | Deny | Default.

#[global] Instance eq_dec : EqDecision t.
Proof. solve_decision. Defined.

End HostPermissionVerdict.

Definition ENGINE_CONTRACT_VERSION : N := 1.

Record EvasionAttribution := {
  class : EvasionClass.t;
  wrapper_depth : N;
  interpreter : option EvasionInterpreter.t;
  path_form : EvasionPathForm.t;
  stage_count : N;
  hatch_marker : bool;
  avoidable : bool;
  tier : EnforcementTier.t;
  fidelity_reason : option FidelityReason.t;
  fidelity_validation : FidelityValidation.t;
}.

Definition evasion_is_valid (self : EvasionAttribution) : bool :=
  (wrapper_depth self <=? 3) && (0 <? stage_count self)
  && (hatch_marker self || bool_decide (fidelity_reason self = None))
  && (hatch_marker self || bool_decide (fidelity_validation self = FidelityValidation.NotRequested)).

Record AccountingAttribution := {
  operation : AccountingOperationKind.t;
  mode : AccountingOperationMode.t;
  stage : AccountingStage.t;
  requested_mode : option AccountingOperationMode.t;
  effective_mode : option AccountingOperationMode.t;
  search_strategy : option AccountingSearchStrategy.t;
  search_fallback_code : option SearchFallbackCode.t;
  include_content : option bool;
  limit : option N;
  path_scope_count : option N;
  filter_level : option AccountingFilterLevel.t;
  from_line : option N;
  to_line : option N;
  source_bytes : option N;
  evasion : option EvasionAttribution;
}.

Record RewritePlan := {
  decision : RewritePlanDecision.t;
  proposed : option rstr;
  attribution : option EvasionAttribution;
  reason : option RewritePlanReason.t;
  host_permission : option HostPermissionVerdict.t;
}.

Definition plan_is_consistent (self : RewritePlan) : bool :=
  let metadata_matches :=
    match decision self with
    | RewritePlanDecision.Rewrite =>
        bool_decide (is_Some (proposed self)) && bool_decide (reason self = None)
    | RewritePlanDecision.Proxy =>
        bool_decide (proposed self = None) && bool_decide (reason self = None)
    | RewritePlanDecision.Ask =>
        match reason self with
        | Some (RewritePlanReason.PermissionPolicy | RewritePlanReason.CanonicalPolicy) => true
        | None => false
        end
    | RewritePlanDecision.Deny =>
        bool_decide (proposed self = None)
        && bool_decide (reason self = Some RewritePlanReason.PermissionPolicy)
    end in
  metadata_matches
  && match attribution self with Some a => evasion_is_valid a | None => true end.

Record EngineContractIdentity := {
  id_contract_version : N;
  engine_version : rstr;
  manifest_sha256 : rstr;
  content_manifest_sha256 : rstr;
}.

#[export] Instance EngineContractIdentity_eq_dec : EqDecision EngineContractIdentity.
Proof. solve_decision. Defined.

Record EngineAccountingReceipt := {
  contract_version : N;
  engine : EngineContractIdentity;
  correlation_id : rstr;
  sequence : N;
  occurred_at_unix_ms : Z;
  baseline_tokens : N;
  delivered_tokens : N;
  execution_ms : N;
  measurement : AccountingMeasurement.t;
  route : AccountingRoute.t;
  receipt_attribution : AccountingAttribution;
  host_grant_applied : bool;
}.

(** The bytes of a non-ASCII character are never hexadecimal digits, so testing
    the characters is testing the bytes. *)
Definition valid_correlation_id (value : rstr) : bool :=
  (slen value =? 32) && forallb is_ascii_hexdigit value.

Definition receipt_is_valid_for (self : EngineAccountingReceipt)
    (expected : EngineContractIdentity) : bool :=
  (contract_version self =? ENGINE_CONTRACT_VERSION)
  && bool_decide (engine self = expected)
  && valid_correlation_id (correlation_id self)
  && bool_decide (operation (receipt_attribution self)
                  = AccountingOperationMode.operation (mode (receipt_attribution self)))
  && match measurement self with
     | AccountingMeasurement.Estimated => true
     | AccountingMeasurement.Unmeasured =>
         (baseline_tokens self =? 0) && (delivered_tokens self =? 0)
     end
  && match route self with
     | AccountingRoute.Optimized => true
     | AccountingRoute.Bypassed | AccountingRoute.NativeUnaccounted =>
         baseline_tokens self =? delivered_tokens self
     end
  && match evasion (receipt_attribution self) with
     | Some a => evasion_is_valid a
     | None => true
     end.

(** A receipt that validates can only claim a saving (or a loss) that the
    optimizer produced and estimated.  If baseline and delivered tokens differ,
    the operation took the optimized route with an estimated measurement, its
    operation is the one its mode belongs to, and its contract version and
    engine are the expected ones. *)
Theorem receipt_savings_are_earned (r : EngineAccountingReceipt) (expected : EngineContractIdentity) :
  receipt_is_valid_for r expected = true ->
  baseline_tokens r <> delivered_tokens r ->
  route r = AccountingRoute.Optimized /\ measurement r = AccountingMeasurement.Estimated /\
  operation (receipt_attribution r) = AccountingOperationMode.operation (mode (receipt_attribution r)) /\
  contract_version r = ENGINE_CONTRACT_VERSION /\ engine r = expected.
Proof.
  unfold receipt_is_valid_for. intros H Hne. bool_prop.
  destruct (route r), (measurement r); bool_prop; try congruence; auto.
Qed.

Definition sample_identity : EngineContractIdentity :=
  {| id_contract_version := 1; engine_version := lit "1.1.0";
     manifest_sha256 := lit "aa"; content_manifest_sha256 := lit "bb" |}.

Definition sample_receipt : EngineAccountingReceipt :=
  {| contract_version := 1; engine := sample_identity;
     correlation_id := lit "0123456789abcdef0123456789abcdef"; sequence := 1;
     occurred_at_unix_ms := 5; baseline_tokens := 100; delivered_tokens := 40;
     execution_ms := 3; measurement := AccountingMeasurement.Estimated;
     route := AccountingRoute.Optimized;
     receipt_attribution :=
       {| operation := AccountingOperationKind.Read; mode := AccountingOperationMode.ReadRange;
          stage := AccountingStage.FinalDelivery; requested_mode := None; effective_mode := None;
          search_strategy := None; search_fallback_code := None; include_content := None;
          limit := None; path_scope_count := None; filter_level := None; from_line := Some 1;
          to_line := Some 9; source_bytes := None; evasion := None |};
     host_grant_applied := false |}.

Lemma receipt_savings_are_earned_witness : route sample_receipt = AccountingRoute.Optimized.
Proof.
  refine (proj1 (receipt_savings_are_earned sample_receipt sample_identity _ _)).
  - vm_compute. reflexivity.
  - discriminate.
Defined.

(** The names under which the vocabularies are stored decode to one value
    each.  A fidelity reason parses back from exactly its own name, and the
    ledger names of evasion classes and enforcement tiers are pairwise
    different, as are the wire names of operation modes. *)
Theorem stored_names_decode_uniquely :
  (forall v r, FidelityReason.parse v = Some r <-> v = FidelityReason.as_str r) /\
  (forall a b, EvasionClass.ledger_str a = EvasionClass.ledger_str b -> a = b) /\
  (forall a b, EnforcementTier.ledger_str a = EnforcementTier.ledger_str b -> a = b) /\
  (forall a b, AccountingOperationMode.as_str a = AccountingOperationMode.as_str b -> a = b).
Proof.
  split_and!.
  - intros v r. unfold FidelityReason.parse. repeat case_bool_decide; subst;
      destruct r; simpl; split; intros E; try done; vm_compute in E; try discriminate;
      exfalso; eauto.
  - intros a b H. destruct a, b; try reflexivity; discriminate H.
  - intros a b H. destruct a, b; try reflexivity; discriminate H.
  - intros a b H. destruct a, b; try reflexivity; discriminate H.
Qed.
