(* ===== verification/Circuit.v ===== *)
(** The circuit breaker in front of the memory engine
    ([crates/hzr-memory/src/circuit.rs]).

    Each operation takes the mutex for its whole body, so it is one atomic
    function of the breaker's state and of the clock it reads.  The tasks that
    share the breaker appear in [Module Interleaving] as an arbitrary sequence
    of those operations. *)

From S2P Require Import Prelude.

Module Circuit.

Inductive CircuitStatus := StClosed | StOpen | StHalfOpen.

#[export] Instance CircuitStatus_eq_dec : EqDecision CircuitStatus.
Proof. solve_decision. Defined.

Record CircuitSnapshot := {
  status : CircuitStatus;
  consecutive_failures : N;
  retry_after : option N;
}.

(** [Instant]s and [Duration]s count clock ticks. *)
Inductive State :=
| Closed (failures generation : N)
| Open (until generation : N)
| HalfOpen (generation : N).

Definition CircuitPermit := N.

Record CircuitBreaker := {
  threshold : N;
  reset_timeout : N;
  state : State;
}.

Definition with_state (b : CircuitBreaker) (s : State) : CircuitBreaker :=
  {| threshold := threshold b; reset_timeout := reset_timeout b; state := s |}.

(** [MemoryError::CircuitOpen { retry_after }]. *)
Inductive CircuitOpen := circuit_open (retry_after : N).

Definition new (threshold reset_timeout : N) : CircuitBreaker :=
  {| threshold := threshold; reset_timeout := reset_timeout; state := Closed 0 0 |}.

Definition before_request (now : N) (b : CircuitBreaker)
  : result CircuitOpen CircuitPermit * CircuitBreaker :=
  match state b with
  | Closed _ generation => (Ok generation, b)
  | Open until generation =>
      if until <=? now
      then (Ok generation, with_state b (HalfOpen generation))
      else (Err (circuit_open (sat_sub until now)), b)
  | HalfOpen _ => (Err (circuit_open (reset_timeout b)), b)
  end.

Definition record_success (permit : CircuitPermit) (b : CircuitBreaker) : CircuitBreaker :=
  match state b with
  | Closed _ generation =>
      if generation =? permit then with_state b (Closed 0 generation) else b
  | HalfOpen generation =>
      if generation =? permit
      then with_state b (Closed 0 (sat_add u64_max generation 1)) else b
  | Open _ _ => b
  end.

Definition record_failure (now : N) (permit : CircuitPermit) (b : CircuitBreaker)
  : CircuitBreaker :=
  match state b with
  | Closed failures generation =>
      if generation =? permit then
        let failures' := sat_add u32_max failures 1 in
        if threshold b <=? failures'
        then with_state b (Open (now + reset_timeout b) (sat_add u64_max generation 1))
        else with_state b (Closed failures' generation)
      else b
  | HalfOpen generation =>
      if generation =? permit
      then with_state b (Open (now + reset_timeout b) (sat_add u64_max generation 1))
      else b
  | Open _ _ => b
  end.

Definition snapshot (now : N) (b : CircuitBreaker) : CircuitSnapshot :=
  match state b with
  | Closed failures _ =>
      {| status := StClosed; consecutive_failures := failures; retry_after := None |}
  | Open until _ =>
      {| status := StOpen; consecutive_failures := threshold b;
         retry_after := Some (sat_sub until now) |}
  | HalfOpen _ =>
      {| status := StHalfOpen; consecutive_failures := threshold b; retry_after := None |}
  end.

Definition generation (b : CircuitBreaker) : N :=
  match state b with Closed _ g | Open _ g | HalfOpen g => g end.

(** [k] failures reported one after the other by requests of the current
    generation. *)
Fixpoint fail_times (k : nat) (now : N) (b : CircuitBreaker) : CircuitBreaker :=
  match k with
  | O => b
  | S k => fail_times k now (record_failure now (generation b) b)
  end.

(** ** One operation *)

Lemma record_failure_stale now p b :
  generation b <> p -> record_failure now p b = b.
Proof.
  unfold generation, record_failure.
  destruct (state b) as [f g|u g|g]; intros Hne; auto.
  - by apply N.eqb_neq in Hne as ->.
  - by apply N.eqb_neq in Hne as ->.
Qed.

Lemma record_success_stale p b :
  generation b <> p -> record_success p b = b.
Proof.
  unfold generation, record_success.
  destruct (state b) as [f g|u g|g]; intros Hne; auto.
  - by apply N.eqb_neq in Hne as ->.
  - by apply N.eqb_neq in Hne as ->.
Qed.

Lemma fail_times_closed k now t r f g :
  f + N.of_nat k < t -> t <= u32_max ->
  fail_times k now {| threshold := t; reset_timeout := r; state := Closed f g |}
  = {| threshold := t; reset_timeout := r; state := Closed (f + N.of_nat k) g |}.
Proof.
  revert f. induction k as [|k IH]; intros f Hk Ht; simpl.
  - by rewrite N.add_0_r.
  - unfold record_failure at 1, generation; simpl. rewrite N.eqb_refl, sat_add_exact by lia.
    destruct (N.leb_spec t (f + 1)); [lia|]. unfold with_state; simpl.
    rewrite IH by lia. do 2 f_equal. lia.
Qed.

(** A breaker whose circuit is closed counts the failures of current
    requests, stays closed below the threshold, and opens with the failure that
    reaches it; it then refuses every request until the reset timeout has
    passed, lets one probe through afterwards, and a successful probe closes
    the circuit with a clean count. *)
Theorem breaker_cycle (t r g now : N) (k : nat) :
  1 <= t <= u32_max -> g < u64_max -> N.of_nat k + 1 = t ->
  let b0 := {| threshold := t; reset_timeout := r; state := Closed 0 g |} in
  let opened := fail_times (S k) now b0 in
  snapshot now (fail_times k now b0)
  = {| status := StClosed; consecutive_failures := t - 1; retry_after := None |} /\
  state opened = Open (now + r) (g + 1) /\
  (forall later, later < now + r ->
     before_request later opened = (Err (circuit_open (now + r - later)), opened)) /\
  (forall later, now + r <= later ->
     let probing := with_state opened (HalfOpen (g + 1)) in
     before_request later opened = (Ok (g + 1), probing) /\
     fst (before_request later probing) = Err (circuit_open r) /\
     state (record_success (g + 1) probing) = Closed 0 (sat_add u64_max (g + 1) 1)).
Proof.
  intros Ht Hg Hk b0 opened.
  assert (fail_times k now b0 = with_state b0 (Closed (N.of_nat k) g)) as Hclosed.
  { unfold b0. rewrite fail_times_closed by lia. reflexivity. }
  assert (opened = with_state b0 (Open (now + r) (g + 1))) as ->.
  { unfold opened.
    assert (forall n b, fail_times (S n) now b
              = record_failure now (generation (fail_times n now b)) (fail_times n now b)) as Hs.
    { induction n as [|n IH]; intros b; [done|]. cbn [fail_times] in *. by rewrite IH. }
    rewrite Hs, Hclosed. unfold record_failure; simpl.
    rewrite N.eqb_refl, sat_add_exact by (unfold u32_max in *; lia).
    destruct (N.leb_spec t (N.of_nat k + 1)); [|lia].
    by rewrite sat_add_exact by lia. }
  rewrite Hclosed. split_and!; [| done | |].
  - unfold snapshot; simpl. f_equal. lia.
  - intros later Hl. unfold before_request; simpl.
    destruct (N.leb_spec (now + r) later); [lia | done].
  - intros later Hl. unfold before_request; simpl.
    destruct (N.leb_spec (now + r) later); [|lia].
    unfold record_success; simpl. by rewrite N.eqb_refl.
Qed.

Lemma breaker_cycle_witness :
  state (fail_times 2 10 (new 2 5)) = Open 15 1 /\
  fst (before_request 14 (fail_times 2 10 (new 2 5))) = Err (circuit_open 1).
Proof.
  destruct (breaker_cycle 2 5 0 10 1) as (_ & H1 & H2 & _);
    [vm_compute; split; discriminate | reflexivity | reflexivity |].
  split; [exact H1 | unfold new; rewrite H2; reflexivity].
Defined.

(** ** Interleavings of the tasks that share one breaker *)

Module Interleaving.

(** The breaker, and every permit it has ever handed out.  A permit is [Copy]:
    a task may hold it for any time and report on it at any later step. *)
Record World := { breaker : CircuitBreaker; issued : list CircuitPermit }.

Definition init (w : World) : Prop :=
  exists t r, w = {| breaker := new t r; issued := [] |}.

Inductive step : World -> World -> Prop :=
| step_admit w now p b' :
    before_request now (breaker w) = (Ok p, b') ->
    step w {| breaker := b'; issued := p :: issued w |}
| step_refuse w now e b' :
    before_request now (breaker w) = (Err e, b') ->
    step w {| breaker := b'; issued := issued w |}
| step_success w p :
    p ∈ issued w ->
    step w {| breaker := record_success p (breaker w); issued := issued w |}
| step_failure w now p :
    p ∈ issued w ->
    step w {| breaker := record_failure now p (breaker w); issued := issued w |}.

Definition count (g : N) (ps : list CircuitPermit) : nat :=
  length (filter (.= g) ps).

(** While the generation counter is below its maximum: no permit is newer than
    the breaker, an open circuit has no current permit, and a half-open one has
    exactly one, the probe. *)
Definition Inv (w : World) : Prop :=
  generation (breaker w) < u64_max ->
  Forall (fun p => p <= generation (breaker w)) (issued w) /\
  match state (breaker w) with
  | Closed f _ => f < N.max 1 (threshold (breaker w))
  | Open _ g => Forall (fun p => p < g) (issued w)
  | HalfOpen g => count g (issued w) = 1%nat
  end.

Lemma count_cons_eq g ps : count g (g :: ps) = S (count g ps).
Proof. unfold count. by rewrite filter_cons_True. Qed.

Lemma count_fresh g ps : Forall (fun p => p < g) ps -> count g ps = O.
Proof.
  unfold count. induction 1 as [|p ps Hp _ IH]; [done|].
  rewrite filter_cons_False by lia. done.
Qed.

Lemma Forall_weaken_lt (g : N) (ps : list N) :
  Forall (fun p => p <= g) ps -> Forall (fun p => p < g + 1) ps.
Proof. intros H. eapply Forall_impl; [exact H | simpl; lia]. Qed.

Lemma Forall_weaken_le (g : N) (ps : list N) :
  Forall (fun p => p <= g) ps -> Forall (fun p => p <= g + 1) ps.
Proof. intros H. eapply Forall_impl; [exact H | simpl; lia]. Qed.

#[local] Hint Resolve Forall_weaken_le Forall_weaken_lt : hzr.

Lemma sat_succ_lt g : sat_add u64_max g 1 < u64_max -> g < u64_max /\ sat_add u64_max g 1 = g + 1.
Proof. unfold sat_add. lia. Qed.

Lemma Inv_init w : init w -> Inv w.
Proof.
  intros (t & r & ->) _; simpl. split; [constructor | lia].
Qed.

Lemma Inv_admit w now p b' :
  Inv w -> before_request now (breaker w) = (Ok p, b') ->
  Inv {| breaker := b'; issued := p :: issued w |}.
Proof.
  unfold Inv, before_request, generation. destruct w as [[t r s] ps]; simpl.
  destruct s as [f g|u g|g]; intros HI Hb; [| destruct (u <=? now) |]; simplify_eq/=;
    intros Hg; destruct (HI Hg) as [Hle Hs]; split; auto.
  rewrite count_cons_eq, count_fresh; auto.
Qed.

Lemma Inv_refuse w now e b' :
  Inv w -> before_request now (breaker w) = (Err e, b') ->
  Inv {| breaker := b'; issued := issued w |}.
Proof.
  unfold Inv, before_request, generation. destruct w as [[t r s] ps]; simpl.
  destruct s as [f g|u g|g]; intros HI Hb; [| destruct (u <=? now) |]; by simplify_eq/=.
Qed.

Lemma Inv_success w p :
  Inv w -> Inv {| breaker := record_success p (breaker w); issued := issued w |}.
Proof.
  unfold Inv, record_success, generation. destruct w as [[t r s] ps]; simpl.
  destruct s as [f g|u g|g]; intros HI; simpl; auto;
    destruct (g =? p); simpl; auto.
  - intros Hg. destruct (HI Hg). split; [done | lia].
  - intros Hg. apply sat_succ_lt in Hg as [Hlt Heq]. destruct (HI Hlt).
    rewrite Heq. split; [auto with hzr | lia].
Qed.

Lemma Inv_failure w now p :
  Inv w -> Inv {| breaker := record_failure now p (breaker w); issued := issued w |}.
Proof.
  unfold Inv, record_failure, generation. destruct w as [[t r s] ps]; simpl.
  destruct s as [f g|u g|g]; intros HI; simpl; auto;
    destruct (g =? p); simpl; auto.
  - destruct (N.leb_spec t (sat_add u32_max f 1)); simpl.
    + intros Hg. apply sat_succ_lt in Hg as [Hlt Heq]. destruct (HI Hlt).
      rewrite Heq. auto with hzr.
    + intros Hg. destruct (HI Hg). split; [done | lia].
  - intros Hg. apply sat_succ_lt in Hg as [Hlt Heq]. destruct (HI Hlt).
    rewrite Heq. auto with hzr.
Qed.

Lemma reachable_Inv w : reachable init step w -> Inv w.
Proof.
  apply reachable_invariant; [exact Inv_init|].
  intros s t HI Hst. destruct Hst; eauto using Inv_admit, Inv_refuse, Inv_success, Inv_failure.
Qed.

(** In every interleaving, a half-open circuit has exactly one outstanding
    current permit, so a single probe decides whether the circuit closes, and
    it refuses every further request. *)
Theorem half_open_single_probe (w : World) (g now : N) :
  reachable init step w -> state (breaker w) = HalfOpen g -> g < u64_max ->
  count g (issued w) = 1%nat /\
  fst (before_request now (breaker w))
  = Err (circuit_open (reset_timeout (breaker w))).
Proof.
  intros Hr Hs Hg. apply reachable_Inv in Hr. unfold Inv, generation in Hr.
  rewrite Hs in Hr. destruct (Hr Hg) as [_ Hc]. split; [done|].
  unfold before_request. by rewrite Hs.
Qed.

(** In every interleaving, once the circuit is open no permit handed out
    before can change the breaker, whatever the tasks holding those permits
    report: an old success cannot close the circuit, an old failure cannot
    extend the timeout. *)
Theorem stale_permits_inert (w : World) (until g : N) :
  reachable init step w -> state (breaker w) = Open until g -> g < u64_max ->
  forall (reports : list (bool * N * CircuitPermit)),
    Forall (fun '(_, _, p) => p ∈ issued w) reports ->
    foldl (fun b '(succeeded, now, p) =>
             if (succeeded : bool) then record_success p b else record_failure now p b)
          (with_state (breaker w) (HalfOpen g)) reports
    = with_state (breaker w) (HalfOpen g) /\
    foldl (fun b '(succeeded, now, p) =>
             if (succeeded : bool) then record_success p b else record_failure now p b)
          (breaker w) reports
    = breaker w.
Proof.
  intros Hr Hs Hg reports Hin. apply reachable_Inv in Hr. unfold Inv, generation in Hr.
  rewrite Hs in Hr. destruct (Hr Hg) as [_ Hlt]. rewrite Forall_forall in Hlt.
  induction Hin as [|[[ok now] p] rs Hp _ IH]; simpl; [done|].
  pose proof (Hlt p Hp) as Hpg.
  assert (generation (breaker w) <> p) by (unfold generation; rewrite Hs; lia).
  assert (generation (with_state (breaker w) (HalfOpen g)) <> p)
    by (unfold generation; simpl; lia).
  destruct ok; rewrite ?record_success_stale, ?record_failure_stale; auto.
Qed.

(** One failure opens a breaker whose threshold is one. *)
Definition opened_world : World :=
  {| breaker := record_failure 3 0 (new 1 30); issued := [0; 0] |}.

Lemma opened_world_reachable : reachable init step opened_world.
Proof.
  unfold opened_world.
  eapply (reach_step _ _ {| breaker := new 1 30; issued := [0; 0] |}).
  2: { apply (step_failure {| breaker := new 1 30; issued := [0; 0] |}); simpl; set_solver. }
  eapply (reach_step _ _ {| breaker := new 1 30; issued := [0] |}).
  2: { by apply (step_admit {| breaker := new 1 30; issued := [0] |} 0). }
  eapply (reach_step _ _ {| breaker := new 1 30; issued := [] |}).
  2: { by apply (step_admit {| breaker := new 1 30; issued := [] |} 0). }
  apply reach_init. by exists 1, 30.
Qed.

Lemma half_open_single_probe_witness :
  count 1 [1; 0; 0] = 1%nat.
Proof.
  refine (proj1 (half_open_single_probe
    {| breaker := with_state (breaker opened_world) (HalfOpen 1); issued := [1; 0; 0] |}
    1 0 _ eq_refl eq_refl)).
  eapply reach_step; [exact opened_world_reachable|].
  by apply (step_admit opened_world 33).
Defined.

Lemma stale_permits_inert_witness :
  record_success 0 (breaker opened_world) = breaker opened_world.
Proof.
  refine (proj2 (stale_permits_inert opened_world 33 1 opened_world_reachable
    eq_refl eq_refl [(true, 0, 0)] _)).
  constructor; [simpl; set_solver | constructor].
Defined.

End Interleaving.
End Circuit.
