(* ===== verification/Coverage.v ===== *)
(** Gaps in the operation accounting ([crates/hzr-core/src/accounting_coverage.rs]).

    The store is one JSON file under an exclusive lock: [Disk] is its content,
    [None] when the file does not exist.  An operation that fails leaves the
    file alone.  [Module Contexts] adds the registrations of running producers,
    one file per correlation id. *)

From S2P Require Import Prelude RStr Contract.

Module Coverage.

Definition COVERAGE_SCHEMA_VERSION : N := 1.
Definition MAX_IDENTITY_BYTES : N := 256.
Definition MAX_INTERVALS : N := 100000.
Definition REPEATED_FAILURE_REWRITE_SECS : N := 60.
Definition MAX_ACCOUNTING_CONTEXT_BYTES : N := 16384.
Definition FORK_PRODUCER_PENDING_GRACE_SECS : N := 600.
Definition FORK_PRODUCER_ABANDONED_TTL_SECS : N := 24 * 60 * 60.

Inductive AccountingGapSurface := RewriteDaemon | Hook | Cli | Mcp | ForkProducer.

#[export] Instance surface_eq_dec : EqDecision AccountingGapSurface.
Proof. solve_decision. Defined.

Definition DAEMON_UNREACHABLE_SURFACES : list AccountingGapSurface :=
  [Hook; RewriteDaemon; Cli; Mcp].

Record AccountingGapEvent := {
  ev_surface : AccountingGapSurface;
  ev_workspace_hash : option rstr;
  ev_session_hash : option rstr;
  ev_operation_family : option rstr;
  ev_at_unix : N;
}.

Record AccountingGapInterval := {
  surface : AccountingGapSurface;
  workspace_hash : option rstr;
  session_hash : option rstr;
  operation_family : option rstr;
  started_at_unix : N;
  last_failure_at_unix : N;
  recovered_at_unix : option N;
  missing_operations : N;
}.

Record AccountingCoverageSnapshot := {
  open_intervals : N;
  pending_producer_operations : N;
  closed_intervals : N;
  open_missing_operations : N;
  lifetime_missing_operations : N;
  snap_legacy_missing_operations : N;
  rewrite_missing_operations : N;
  hook_missing_operations : N;
  cli_missing_operations : N;
  mcp_missing_operations : N;
  fork_producer_missing_operations : N;
  live_complete : bool;
  historical_complete : bool;
  gap_started_at_unix : option N;
  snap_last_failure_at_unix : option N;
  last_recovered_at_unix : option N;
  open_gap_seconds : option N;
  closed_gap_seconds : N;
}.

(** The [Invalid] errors, by what they report. *)
Inductive AccountingCoverageError :=
| Io
| Json
| InvalidSchemaVersion (v : N)
| InvalidIntervalLimit
| InvalidIntervalOrdering
| InvalidTimestamp
| InvalidIdentity (field : rstr)
| InvalidCorrelationId
| InvalidContextSize
| InvalidContextPath
| InvalidContextCapacity.

Abbreviation res := (result AccountingCoverageError).

Record AccountingCoverageState := {
  schema_version : N;
  legacy_missing_operations : N;
  intervals : list AccountingGapInterval;
}.

Definition default_state : AccountingCoverageState :=
  {| schema_version := COVERAGE_SCHEMA_VERSION;
     legacy_missing_operations := 0; intervals := [] |}.

Definition with_intervals (s : AccountingCoverageState) (l : list AccountingGapInterval) :=
  {| schema_version := schema_version s;
     legacy_missing_operations := legacy_missing_operations s; intervals := l |}.

Abbreviation Disk := (option AccountingCoverageState).

(** ** Validation *)

Definition invalid_identity (v : option rstr) : bool :=
  match v with Some v => is_empty v || (MAX_IDENTITY_BYTES <? slen v) | None => false end.

Definition validate_event (event : AccountingGapEvent) : res unit :=
  _ ← guard_err (ev_at_unix event =? 0) InvalidTimestamp;
  _ ← guard_err (invalid_identity (ev_workspace_hash event))
                (InvalidIdentity (lit "workspace_hash"));
  _ ← guard_err (invalid_identity (ev_session_hash event))
                (InvalidIdentity (lit "session_hash"));
  guard_err (invalid_identity (ev_operation_family event))
            (InvalidIdentity (lit "operation_family")).

Definition invalid_interval (interval : AccountingGapInterval) : bool :=
  (missing_operations interval =? 0) || (started_at_unix interval =? 0)
  || (last_failure_at_unix interval <? started_at_unix interval)
  || match recovered_at_unix interval with
     | Some recovered => recovered <? last_failure_at_unix interval
     | None => false
     end.

Definition validate_state (state : AccountingCoverageState) : res unit :=
  _ ← guard_err (negb (schema_version state =? COVERAGE_SCHEMA_VERSION))
                (InvalidSchemaVersion (schema_version state));
  _ ← guard_err (MAX_INTERVALS <? N.of_nat (length (intervals state))) InvalidIntervalLimit;
  guard_err (existsb invalid_interval (intervals state)) InvalidIntervalOrdering.

(** ** The state file *)

Definition is_settled_registration (interval : AccountingGapInterval) (recovered : N) : bool :=
  bool_decide (surface interval = ForkProducer)
  && bool_decide (operation_family interval = None)
  && (sat_sub recovered (last_failure_at_unix interval) <? FORK_PRODUCER_PENDING_GRACE_SECS).

Definition prune_settled_registrations (state : AccountingCoverageState)
  : AccountingCoverageState :=
  with_intervals state
    (List.filter (fun interval =>
       negb match recovered_at_unix interval with
            | Some recovered => is_settled_registration interval recovered
            | None => false
            end) (intervals state)).

Definition read_state (disk : Disk) : res AccountingCoverageState :=
  match disk with
  | None => Ok default_state
  | Some state => _ ← validate_state state; Ok state
  end.

Definition write_state (state : AccountingCoverageState) : res Disk :=
  _ ← validate_state state; Ok (Some state).

(** [update] also answers the caller's counter. *)
Definition with_exclusive_state {A}
    (update : AccountingCoverageState -> res (bool * AccountingCoverageState * A))
    (disk : Disk) : res (Disk * A) :=
  state ← read_state disk;
  '(changed, state', a) ← update state;
  if (changed : bool) then
    disk' ← write_state (prune_settled_registrations state'); Ok (disk', a)
  else Ok (disk, a).

Definition exists_ (disk : Disk) : bool := match disk with Some _ => true | None => false end.

(** ** Snapshot *)

Definition in_context (context : option (rstr * rstr)) (interval : AccountingGapInterval) : bool :=
  match context with
  | None => true
  | Some (session, workspace) =>
      bool_decide (workspace_hash interval = Some workspace)
      && match session_hash interval with
         | Some value => bool_decide (value = session)
         | None => true
         end
  end.

Definition is_pending (now_unix : N) (interval : AccountingGapInterval) : bool :=
  bool_decide (recovered_at_unix interval = None)
  && bool_decide (surface interval = ForkProducer)
  && bool_decide (operation_family interval = None)
  && (sat_sub now_unix (last_failure_at_unix interval) <? FORK_PRODUCER_PENDING_GRACE_SECS).

Definition add64 := sat_add u64_max.

Definition surface_total (s : AccountingGapSurface) (interval : AccountingGapInterval) (total : N) :=
  if bool_decide (surface interval = s) then add64 total (missing_operations interval) else total.

(** The fields of [result] that the loop of [snapshot] updates for one interval. *)
Definition snapshot_step (context : option (rstr * rstr)) (now_unix : N)
    (r : AccountingCoverageSnapshot) (interval : AccountingGapInterval)
  : AccountingCoverageSnapshot :=
  if negb (in_context context interval) then r
  else if is_pending now_unix interval then
    {| open_intervals := open_intervals r;
       pending_producer_operations :=
         add64 (pending_producer_operations r) (missing_operations interval);
       closed_intervals := closed_intervals r;
       open_missing_operations := open_missing_operations r;
       lifetime_missing_operations := lifetime_missing_operations r;
       snap_legacy_missing_operations := snap_legacy_missing_operations r;
       rewrite_missing_operations := rewrite_missing_operations r;
       hook_missing_operations := hook_missing_operations r;
       cli_missing_operations := cli_missing_operations r;
       mcp_missing_operations := mcp_missing_operations r;
       fork_producer_missing_operations := fork_producer_missing_operations r;
       live_complete := live_complete r;
       historical_complete := historical_complete r;
       gap_started_at_unix := gap_started_at_unix r;
       snap_last_failure_at_unix := snap_last_failure_at_unix r;
       last_recovered_at_unix := last_recovered_at_unix r;
       open_gap_seconds := open_gap_seconds r;
       closed_gap_seconds := closed_gap_seconds r |}
  else
    let recovered := recovered_at_unix interval in
    {| open_intervals :=
         match recovered with None => add64 (open_intervals r) 1 | Some _ => open_intervals r end;
       pending_producer_operations := pending_producer_operations r;
       closed_intervals :=
         match recovered with Some _ => add64 (closed_intervals r) 1 | None => closed_intervals r end;
       open_missing_operations :=
         match recovered with
         | None => add64 (open_missing_operations r) (missing_operations interval)
         | Some _ => open_missing_operations r
         end;
       lifetime_missing_operations :=
         add64 (lifetime_missing_operations r) (missing_operations interval);
       snap_legacy_missing_operations := snap_legacy_missing_operations r;
       rewrite_missing_operations :=
         surface_total RewriteDaemon interval (rewrite_missing_operations r);
       hook_missing_operations := surface_total Hook interval (hook_missing_operations r);
       cli_missing_operations := surface_total Cli interval (cli_missing_operations r);
       mcp_missing_operations := surface_total Mcp interval (mcp_missing_operations r);
       fork_producer_missing_operations :=
         surface_total ForkProducer interval (fork_producer_missing_operations r);
       live_complete := live_complete r;
       historical_complete := false;
       gap_started_at_unix :=
         match recovered with
         | None => Some match gap_started_at_unix r with
                        | None => started_at_unix interval
                        | Some started => N.min started (started_at_unix interval)
                        end
         | Some _ => gap_started_at_unix r
         end;
       snap_last_failure_at_unix :=
         Some (N.max (default 0 (snap_last_failure_at_unix r)) (last_failure_at_unix interval));
       last_recovered_at_unix :=
         match recovered with
         | Some recovered => Some (N.max (default 0 (last_recovered_at_unix r)) recovered)
         | None => last_recovered_at_unix r
         end;
       open_gap_seconds := open_gap_seconds r;
       closed_gap_seconds :=
         match recovered with
         | Some recovered =>
             add64 (closed_gap_seconds r) (sat_sub recovered (started_at_unix interval))
         | None => closed_gap_seconds r
         end |}.

Definition snapshot_start (legacy : N) : AccountingCoverageSnapshot :=
  {| open_intervals := 0; pending_producer_operations := 0; closed_intervals := 0;
     open_missing_operations := 0; lifetime_missing_operations := legacy;
     snap_legacy_missing_operations := legacy; rewrite_missing_operations := 0;
     hook_missing_operations := 0; cli_missing_operations := 0; mcp_missing_operations := 0;
     fork_producer_missing_operations := 0; live_complete := false;
     historical_complete := legacy =? 0; gap_started_at_unix := None;
     snap_last_failure_at_unix := None; last_recovered_at_unix := None;
     open_gap_seconds := None; closed_gap_seconds := 0 |}.

Definition snapshot_finish (now_unix : N) (r : AccountingCoverageSnapshot)
  : AccountingCoverageSnapshot :=
  {| open_intervals := open_intervals r;
     pending_producer_operations := pending_producer_operations r;
     closed_intervals := closed_intervals r;
     open_missing_operations := open_missing_operations r;
     lifetime_missing_operations := lifetime_missing_operations r;
     snap_legacy_missing_operations := snap_legacy_missing_operations r;
     rewrite_missing_operations := rewrite_missing_operations r;
     hook_missing_operations := hook_missing_operations r;
     cli_missing_operations := cli_missing_operations r;
     mcp_missing_operations := mcp_missing_operations r;
     fork_producer_missing_operations := fork_producer_missing_operations r;
     live_complete := open_intervals r =? 0;
     historical_complete := historical_complete r;
     gap_started_at_unix := gap_started_at_unix r;
     snap_last_failure_at_unix := snap_last_failure_at_unix r;
     last_recovered_at_unix := last_recovered_at_unix r;
     open_gap_seconds := sat_sub now_unix <$> gap_started_at_unix r;
     closed_gap_seconds := closed_gap_seconds r |}.

Definition snapshot (state : AccountingCoverageState) (context : option (rstr * rstr))
    (now_unix : N) : AccountingCoverageSnapshot :=
  let legacy := match context with None => legacy_missing_operations state | Some _ => 0 end in
  snapshot_finish now_unix
    (fold_left (snapshot_step context now_unix) (intervals state) (snapshot_start legacy)).

Definition snapshot_filtered (context : option (rstr * rstr)) (now_unix : N) (disk : Disk)
  : res AccountingCoverageSnapshot :=
  state ← read_state disk; Ok (snapshot state context now_unix).

Definition snapshot_for_context (session workspace : rstr) (now_unix : N) (disk : Disk)
  : res AccountingCoverageSnapshot :=
  _ ← guard_err (is_empty session || (MAX_IDENTITY_BYTES <? slen session))
                (InvalidIdentity (lit "session_hash"));
  _ ← guard_err (is_empty workspace || (MAX_IDENTITY_BYTES <? slen workspace))
                (InvalidIdentity (lit "workspace_hash"));
  snapshot_filtered (Some (session, workspace)) now_unix disk.

(** ** Recording and recovering gaps *)

Definition same_identity (event : AccountingGapEvent) (interval : AccountingGapInterval) : bool :=
  bool_decide (recovered_at_unix interval = None)
  && bool_decide (surface interval = ev_surface event)
  && bool_decide (workspace_hash interval = ev_workspace_hash event)
  && bool_decide (session_hash interval = ev_session_hash event)
  && bool_decide (operation_family interval = ev_operation_family event).

(** [iter_mut().rev().find(..)]: the last element satisfying [p], with what
    surrounds it. *)
Fixpoint split_last {A} (p : A -> bool) (l : list A) : option (list A * A * list A) :=
  match l with
  | [] => None
  | x :: l' =>
      match split_last p l' with
      | Some (before, y, after) => Some (x :: before, y, after)
      | None => if p x then Some ([], x, l') else None
      end
  end.

Definition repeated (interval : AccountingGapInterval) (count : bool) (at_unix : N)
  : bool * AccountingGapInterval :=
  let advanced := sat_sub at_unix (last_failure_at_unix interval) in
  let advance := (0 <? advanced) && (count || (REPEATED_FAILURE_REWRITE_SECS <=? advanced)) in
  (count || advance,
   {| surface := surface interval; workspace_hash := workspace_hash interval;
      session_hash := session_hash interval; operation_family := operation_family interval;
      started_at_unix := started_at_unix interval;
      last_failure_at_unix := if advance then at_unix else last_failure_at_unix interval;
      recovered_at_unix := recovered_at_unix interval;
      missing_operations :=
        if count then add64 (missing_operations interval) 1 else missing_operations interval |}).

Definition open_interval (event : AccountingGapEvent) : AccountingGapInterval :=
  {| surface := ev_surface event; workspace_hash := ev_workspace_hash event;
     session_hash := ev_session_hash event; operation_family := ev_operation_family event;
     started_at_unix := ev_at_unix event; last_failure_at_unix := ev_at_unix event;
     recovered_at_unix := None; missing_operations := 1 |}.

Definition record_missing_update (event : AccountingGapEvent) (count_repetition : bool)
    (state : AccountingCoverageState) : res (bool * AccountingCoverageState * unit) :=
  match split_last (same_identity event) (intervals state) with
  | Some (before, interval, after) =>
      let '(changed, interval') := repeated interval count_repetition (ev_at_unix event) in
      Ok (changed, with_intervals state (before ++ interval' :: after), tt)
  | None =>
      _ ← guard_err (MAX_INTERVALS <=? N.of_nat (length (intervals state))) InvalidIntervalLimit;
      Ok (true, with_intervals state (intervals state ++ [open_interval event]), tt)
  end.

(** The last step, [self.snapshot(event.at_unix)], reads the file back. *)
Definition record_missing_event (event : AccountingGapEvent) (count_repetition : bool)
    (disk : Disk) : res (AccountingCoverageSnapshot * Disk) :=
  _ ← validate_event event;
  '(disk', _) ← with_exclusive_state (record_missing_update event count_repetition) disk;
  s ← snapshot_filtered None (ev_at_unix event) disk';
  Ok (s, disk').

Definition record_missing event := record_missing_event event true.
Definition ensure_missing event := record_missing_event event false.

Definition close (interval : AccountingGapInterval) (recovered : N) : AccountingGapInterval :=
  {| surface := surface interval; workspace_hash := workspace_hash interval;
     session_hash := session_hash interval; operation_family := operation_family interval;
     started_at_unix := started_at_unix interval;
     last_failure_at_unix := last_failure_at_unix interval;
     recovered_at_unix := Some (N.max recovered (last_failure_at_unix interval));
     missing_operations := missing_operations interval |}.

(** The closures of the three recoveries: [matches] selects the intervals,
    [drop_settled] says whether a settled registration is removed. *)
Definition recover_interval (matches : AccountingGapInterval -> bool) (drop_settled : bool)
    (recovered : N) (interval : AccountingGapInterval) : option AccountingGapInterval :=
  if negb (matches interval) then Some interval
  else if drop_settled && is_settled_registration interval recovered then None
  else Some (close interval recovered).

Definition recover_update (matches : AccountingGapInterval -> bool) (drop_settled : bool)
    (at_unix : N) (state : AccountingCoverageState)
  : res (bool * AccountingCoverageState * N) :=
  let recovered := N.of_nat (length (List.filter matches (intervals state))) in
  Ok (0 <? recovered,
      with_intervals state (omap (recover_interval matches drop_settled at_unix) (intervals state)),
      recovered).

Definition recover_matching (matches : AccountingGapInterval -> bool) (drop_settled : bool)
    (at_unix : N) (disk : Disk) : res (N * Disk) :=
  if negb (exists_ disk) then Ok (0, disk)
  else '(disk', recovered) ← with_exclusive_state (recover_update matches drop_settled at_unix) disk;
       Ok (recovered, disk').

Definition recover (event : AccountingGapEvent) (disk : Disk) : res (N * Disk) :=
  _ ← validate_event event;
  recover_matching (same_identity event) true (ev_at_unix event) disk.

Definition is_open_surface (surfaces : list AccountingGapSurface)
    (interval : AccountingGapInterval) : bool :=
  bool_decide (recovered_at_unix interval = None) && bool_decide (surface interval ∈ surfaces).

Definition recover_surfaces (surfaces : list AccountingGapSurface) (recovered_at : N)
    (disk : Disk) : res (N * Disk) :=
  recover_matching (is_open_surface surfaces) true recovered_at disk.

Definition is_stale_fork_producer (older_than : N) (interval : AccountingGapInterval) : bool :=
  bool_decide (recovered_at_unix interval = None)
  && bool_decide (surface interval = ForkProducer)
  && bool_decide (operation_family interval = None)
  && (last_failure_at_unix interval <=? older_than).

Definition recover_stale_fork_producer_gaps (older_than recovered_at : N) (disk : Disk)
  : res (N * Disk) :=
  recover_matching (is_stale_fork_producer older_than) false recovered_at disk.

Definition count_intervals (p : AccountingGapInterval -> bool) (disk : Disk) : res N :=
  if negb (exists_ disk) then Ok 0
  else state ← read_state disk; Ok (N.of_nat (length (List.filter p (intervals state)))).

Definition open_daemon_unreachable_intervals : Disk -> res N :=
  count_intervals (is_open_surface DAEMON_UNREACHABLE_SURFACES).

Definition open_stale_fork_producer_intervals (older_than : N) : Disk -> res N :=
  count_intervals (is_stale_fork_producer older_than).

Definition import_legacy (legacy : N) (disk : Disk) : res Disk :=
  if (legacy =? 0) || exists_ disk then Ok disk
  else '(disk', _) ← with_exclusive_state (fun state =>
         Ok (true, {| schema_version := schema_version state;
                      legacy_missing_operations := legacy;
                      intervals := intervals state |}, tt)) disk;
       Ok disk'.

(** * Well-formed stores *)

(** What the file may hold: it validates, and no two open intervals record the
    same gap. *)
Definition identity (i : AccountingGapInterval) :=
  (surface i, workspace_hash i, session_hash i, operation_family i).

Definition open_intervals_of (l : list AccountingGapInterval) : list AccountingGapInterval :=
  List.filter (fun i => bool_decide (recovered_at_unix i = None)) l.

Definition wf_state (s : AccountingCoverageState) : Prop :=
  validate_state s = Ok tt /\ NoDup (map identity (open_intervals_of (intervals s))).

Definition wf (disk : Disk) : Prop :=
  match disk with Some s => wf_state s | None => True end.

Lemma validate_state_Ok s :
  validate_state s = Ok tt <->
  schema_version s = COVERAGE_SCHEMA_VERSION /\
  N.of_nat (length (intervals s)) <= MAX_INTERVALS /\
  Forall (fun i => invalid_interval i = false) (intervals s).
Proof.
  unfold validate_state.
  assert (forall l, existsb invalid_interval l = false
                    <-> Forall (fun i => invalid_interval i = false) l) as Hex.
  { induction l as [|i l IH]; simpl; [by split|].
    rewrite orb_false_iff, Forall_cons, IH. done. }
  rewrite <- Hex. split.
  - intros H. inv_ok. bool_prop. auto.
  - intros (-> & Hl & ->). apply N.ltb_ge in Hl as ->. reflexivity.
Qed.

Lemma read_state_wf disk :
  wf disk -> exists s, read_state disk = Ok s /\ wf_state s /\
    s = default default_state disk.
Proof.
  destruct disk as [s|]; simpl.
  - intros Hwf. exists s. destruct Hwf as [Hv Hn]. rewrite Hv. done.
  - intros _. exists default_state. split_and!; [done | | done].
    split; [reflexivity | constructor].
Qed.

Lemma filter_sublist {A} (p : A -> bool) l : sublist (List.filter p l) l.
Proof.
  induction l as [|x l IH]; simpl; [constructor|].
  destruct (p x); by constructor.
Qed.

Lemma Forall_filter {A} (P : A -> Prop) p l : Forall P l -> Forall P (List.filter p l).
Proof. intros H. induction H; simpl; [|case_match]; auto. Qed.

Lemma open_intervals_of_filter p l :
  open_intervals_of (List.filter p l) = List.filter p (open_intervals_of l).
Proof.
  unfold open_intervals_of. induction l as [|i l IH]; simpl; [done|].
  destruct (p i) eqn:E1; simpl; destruct (bool_decide _) eqn:E2; simpl; rewrite ?E1, IH; done.
Qed.

Lemma NoDup_map_sublist {A B} (f : A -> B) l k :
  sublist l k -> NoDup (map f k) -> NoDup (map f l).
Proof.
  intros Hs Hn. eapply sublist_NoDup; [exact Hn|].
  clear Hn. induction Hs; simpl; by constructor.
Qed.

(** Dropping intervals keeps a state well formed. *)
Lemma prune_wf s : wf_state s -> wf_state (prune_settled_registrations s).
Proof.
  intros [Hv Hn]. apply validate_state_Ok in Hv as (Hs & Hl & Hf).
  unfold prune_settled_registrations. split; simpl.
  - apply validate_state_Ok; simpl. split_and!; [done | | by apply Forall_filter].
    match goal with |- context [List.filter ?p ?l] =>
      pose proof (sublist_length _ _ (filter_sublist p l)) end. lia.
  - rewrite open_intervals_of_filter. eapply NoDup_map_sublist; [apply filter_sublist | done].
Qed.

(** An update that keeps states well formed keeps the file well formed, and the
    write that follows it never fails. *)
Lemma with_exclusive_state_wf {A} (update : _ -> res (_ * _ * A)) disk changed s' a :
  wf disk ->
  update (default default_state disk) = Ok (changed, s', a) ->
  wf_state s' ->
  with_exclusive_state update disk =
    Ok (if (changed : bool) then Some (prune_settled_registrations s') else disk, a) /\
  wf (if changed then Some (prune_settled_registrations s') else disk).
Proof.
  intros Hwf Hu Hs'. destruct (read_state_wf _ Hwf) as (s & Hr & _ & ->).
  unfold with_exclusive_state. rewrite Hr. simpl. rewrite Hu. simpl.
  destruct changed; [|done]. unfold write_state.
  pose proof (prune_wf _ Hs') as Hp. split; [|done]. destruct Hp as [Hv _]. by rewrite Hv.
Qed.

Lemma split_last_Some {A} (p : A -> bool) l before x after :
  split_last p l = Some (before, x, after) ->
  l = before ++ x :: after /\ p x = true /\ Forall (fun y => p y = false) after.
Proof.
  assert (forall l, split_last p l = None -> Forall (fun y => p y = false) l) as HN.
  { induction l0 as [|y l0 IH]; simpl; [constructor|].
    destruct (split_last p l0) as [[[? ?] ?]|]; [done|].
    destruct (p y) eqn:E; [done|]. auto. }
  revert before. induction l as [|y l IH]; intros before; simpl; [done|].
  destruct (split_last p l) as [[[b z] a]|] eqn:E.
  - intros [= <- <- <-]. destruct (IH b eq_refl) as (-> & ? & ?). done.
  - destruct (p y) eqn:Ey; [|done]. intros [= <- <- <-]. auto.
Qed.

Lemma split_last_None {A} (p : A -> bool) l :
  split_last p l = None -> Forall (fun y => p y = false) l.
Proof.
  induction l as [|y l IH]; simpl; [constructor|].
  destruct (split_last p l) as [[[? ?] ?]|]; [done|].
  destruct (p y) eqn:E; [done|]. auto.
Qed.

Lemma same_identity_true ev i :
  same_identity ev i = true <->
  recovered_at_unix i = None /\ identity i = identity (open_interval ev).
Proof.
  unfold same_identity, identity, open_interval; simpl. split.
  - intros H. bool_prop. split; congruence.
  - intros [-> [= -> -> -> ->]]. by rewrite !bool_decide_eq_true_2.
Qed.

Lemma repeated_wf i count t changed i' :
  repeated i count t = (changed, i') -> invalid_interval i = false -> recovered_at_unix i = None ->
  invalid_interval i' = false /\ recovered_at_unix i' = None /\ identity i' = identity i.
Proof.
  intros [= <- <-] Hv Hr. unfold invalid_interval in *; simpl. rewrite Hr in *.
  bool_prop. split_and!; [| done | done]. unfold add64, sat_add, sat_sub, u64_max in *.
  repeat (apply orb_false_iff; split); try done.
  - apply N.eqb_neq. destruct count; lia.
  - by apply N.eqb_neq.
  - apply N.ltb_ge. destruct (_ && _) eqn:E; bool_prop; lia.
Qed.

Lemma omap_cons {A B} (f : A -> option B) x l :
  omap f (x :: l) = match f x with Some y => y :: omap f l | None => omap f l end.
Proof. reflexivity. Qed.

Lemma open_intervals_of_app l k :
  open_intervals_of (l ++ k) = open_intervals_of l ++ open_intervals_of k.
Proof. apply List.filter_app. Qed.

Lemma open_interval_valid ev : validate_event ev = Ok tt -> invalid_interval (open_interval ev) = false.
Proof.
  unfold validate_event. intros H. inv_ok. bool_prop. unfold invalid_interval; simpl.
  apply N.eqb_neq in H as ->. rewrite N.ltb_irrefl. reflexivity.
Qed.

Lemma record_missing_update_wf ev count s changed s' u :
  validate_event ev = Ok tt -> wf_state s ->
  record_missing_update ev count s = Ok (changed, s', u) -> wf_state s'.
Proof.
  intros Hev [Hv Hn] Hu. apply validate_state_Ok in Hv as (Hs & Hl & Hf).
  unfold record_missing_update in Hu.
  destruct (split_last _ _) as [[[b i] a]|] eqn:E.
  - apply split_last_Some in E as (El & Hi & _).
    apply same_identity_true in Hi as [Hro Hid].
    destruct (repeated i count _) as [ch i'] eqn:Er. simplify_eq/=.
    rewrite El in Hf, Hl, Hn. apply Forall_app in Hf as [Hfb [Hfi Hfa]%Forall_cons].
    apply repeated_wf in Er as (Hi' & Hr' & Hid'); [|done..].
    split; simpl.
    + apply validate_state_Ok; simpl. rewrite length_app in *; simpl in *.
      split_and!; [done | lia |]. apply Forall_app; auto.
    + rewrite open_intervals_of_app in *. simpl in *. unfold open_intervals_of in *. simpl in *.
      rewrite Hr', Hro, bool_decide_eq_true_2 in * by done.
      rewrite map_app in *. simpl in *. by rewrite Hid'.
  - apply split_last_None in E. inv_ok. bool_prop. split; simpl.
    + apply validate_state_Ok; simpl. rewrite length_app; simpl. split_and!; [done | lia |].
      apply Forall_app; split; [done|]. constructor; [by apply open_interval_valid | constructor].
    + rewrite open_intervals_of_app, map_app. apply NoDup_app. split_and!; [done | |].
      * intros k Hk Hin. unfold open_intervals_of in Hin at 1. simpl in Hin.
        apply list_elem_of_singleton in Hin as ->.
        apply list_elem_of_fmap in Hk as (i & Hid & Hi).
        apply list_elem_of_In, List.filter_In in Hi as [Hi Ho]. bool_prop.
        rewrite Forall_forall in E. apply list_elem_of_In in Hi. specialize (E i Hi).
        simpl in E. apply not_true_iff_false in E. apply E. by apply same_identity_true.
      * simpl. apply NoDup_singleton.
Qed.

Section Recover.
Context (matches : AccountingGapInterval -> bool) (drop : bool) (at_unix : N).
Hypothesis matches_open : forall i, matches i = true -> recovered_at_unix i = None.

Lemma recover_open l :
  open_intervals_of (omap (recover_interval matches drop at_unix) l)
  = List.filter (fun i => negb (matches i)) (open_intervals_of l).
Proof.
  unfold open_intervals_of. induction l as [|i l IH]; [done|]. rewrite omap_cons.
  unfold recover_interval at 1. simpl. destruct (matches i) eqn:Em; simpl.
  - rewrite (matches_open _ Em), bool_decide_eq_true_2 by done. simpl. rewrite Em. simpl.
    destruct (_ && _); simpl; [done|]. by rewrite IH.
  - destruct (bool_decide _) eqn:Eo; simpl; rewrite ?Em, IH; done.
Qed.

Lemma close_valid i :
  invalid_interval i = false -> invalid_interval (close i at_unix) = false.
Proof.
  unfold invalid_interval; simpl. intros H. bool_prop.
  repeat (apply orb_false_iff; split);
    [by apply N.eqb_neq | by apply N.eqb_neq | apply N.ltb_ge; lia | apply N.ltb_ge; lia].
Qed.

Lemma recover_update_wf s changed s' n :
  wf_state s -> recover_update matches drop at_unix s = Ok (changed, s', n) -> wf_state s'.
Proof.
  intros [Hv Hn] [= <- <- <-]. apply validate_state_Ok in Hv as (Hs & Hl & Hf).
  split; simpl.
  - apply validate_state_Ok; simpl. split_and!; [done | |].
    + assert (forall l, length (omap (recover_interval matches drop at_unix) l) <= length l)%nat
        as Hlen.
      { induction l as [|i l IH]; [done|]. rewrite omap_cons.
        destruct (recover_interval _ _ _ i); simpl; lia. }
      specialize (Hlen (intervals s)). lia.
    + clear Hl Hn. induction Hf as [|i l Hi Hf IH]; [constructor|]. rewrite omap_cons.
      unfold recover_interval at 1.
      destruct (matches i); simpl; [destruct (drop && _); [done|]|]; constructor; auto.
      by apply close_valid.
  - rewrite recover_open. eapply NoDup_map_sublist; [apply filter_sublist | done].
Qed.
End Recover.

(** ** Every operation keeps the store usable *)

Inductive op :=
| OpRecord (event : AccountingGapEvent)
| OpEnsure (event : AccountingGapEvent)
| OpRecover (event : AccountingGapEvent)
| OpRecoverSurfaces (surfaces : list AccountingGapSurface) (at_unix : N)
| OpRecoverStale (older_than at_unix : N)
| OpImportLegacy (legacy : N).

Definition run_op (o : op) (disk : Disk) : res Disk :=
  match o with
  | OpRecord ev => snd <$> record_missing ev disk
  | OpEnsure ev => snd <$> ensure_missing ev disk
  | OpRecover ev => snd <$> recover ev disk
  | OpRecoverSurfaces ss t => snd <$> recover_surfaces ss t disk
  | OpRecoverStale older t => snd <$> recover_stale_fork_producer_gaps older t disk
  | OpImportLegacy n => import_legacy n disk
  end.

Definition store_step (d d' : Disk) : Prop := exists o, run_op o d = Ok d'.

(** The only reasons an operation may refuse: its event does not validate, or a
    new gap meets a full table. *)
Definition refused (o : op) (d : Disk) (e : AccountingCoverageError) : Prop :=
  match o with
  | OpRecord ev | OpEnsure ev =>
      validate_event ev = Err e \/
      e = InvalidIntervalLimit /\
      N.of_nat (length (intervals (default default_state d))) = MAX_INTERVALS
  | OpRecover ev => validate_event ev = Err e
  | _ => False
  end.

Definition op_safe (o : op) (d : Disk) : Prop :=
  match run_op o d with Ok d' => wf d' | Err e => refused o d e end.

Lemma record_missing_event_safe ev count d :
  wf d ->
  match snd <$> record_missing_event ev count d with
  | Ok d' => wf d'
  | Err e => refused (OpRecord ev) d e
  end.
Proof.
  intros Hwf. unfold record_missing_event.
  destruct (validate_event ev) as [[]|e] eqn:Hev; [|by left].
  destruct (read_state_wf _ Hwf) as (s & Hr & Hs & ->).
  destruct (record_missing_update ev count (default default_state d)) as [[[ch s'] []]|e] eqn:Hu.
  - pose proof (record_missing_update_wf _ _ _ _ _ _ Hev Hs Hu) as Hs'.
    destruct (with_exclusive_state_wf _ _ _ _ _ Hwf Hu Hs') as [Hw Hd].
    cbv [mbind result_bind]. rewrite Hw.
    destruct (read_state_wf _ Hd) as (s2 & Hr2 & _ & _).
    unfold snapshot_filtered, mbind, result_bind. rewrite Hr2. exact Hd.
  - unfold with_exclusive_state, mbind, result_bind in *. rewrite Hr, Hu. simpl. right.
    unfold record_missing_update in Hu. destruct (split_last _ _) as [[[? ?] ?]|].
    + by destruct (repeated _ _ _).
    + cbv [guard_err mbind result_bind] in Hu. destruct (N.leb_spec MAX_INTERVALS
        (N.of_nat (length (intervals (default default_state d))))); [|done].
      simplify_eq. split; [done|]. destruct Hs as [Hv _].
      apply validate_state_Ok in Hv as (_ & Hl & _). lia.
Qed.

Lemma recover_matching_safe matches drop t d :
  (forall i, matches i = true -> recovered_at_unix i = None) ->
  wf d ->
  exists n d', recover_matching matches drop t d = Ok (n, d') /\ wf d'.
Proof.
  intros Hm Hwf. unfold recover_matching. destruct (exists_ d); simpl; [|eauto].
  destruct (read_state_wf _ Hwf) as (s & Hr & Hs & ->).
  destruct (recover_update matches drop t (default default_state d)) as [[[ch s'] n]|] eqn:Hu;
    [|discriminate Hu].
  pose proof (recover_update_wf _ _ _ Hm _ _ _ _ Hs Hu) as Hs'.
  destruct (with_exclusive_state_wf _ _ _ _ _ Hwf Hu Hs') as [Hw Hd].
  rewrite Hw. cbv [mbind result_bind]. eauto.
Qed.

Lemma same_identity_open ev i : same_identity ev i = true -> recovered_at_unix i = None.
Proof. intros H. by apply same_identity_true in H as [? _]. Qed.

Lemma is_open_surface_open ss i : is_open_surface ss i = true -> recovered_at_unix i = None.
Proof. unfold is_open_surface. intros H. by bool_prop. Qed.

Lemma is_stale_open t i : is_stale_fork_producer t i = true -> recovered_at_unix i = None.
Proof. unfold is_stale_fork_producer. intros H. by bool_prop. Qed.

#[local] Hint Resolve same_identity_open is_open_surface_open is_stale_open : hzr.

Lemma op_safe_wf o d : wf d -> op_safe o d.
Proof.
  intros Hwf. unfold op_safe. destruct o as [ev|ev|ev|ss t|older t|n]; simpl.
  - by apply record_missing_event_safe.
  - by apply (record_missing_event_safe ev false).
  - unfold recover. destruct (validate_event ev) as [[]|e] eqn:Hev; simpl; [|done].
    edestruct (recover_matching_safe (same_identity ev) true (ev_at_unix ev) d)
      as (n & d' & -> & ?); eauto with hzr.
  - unfold recover_surfaces.
    edestruct (recover_matching_safe (is_open_surface ss) true t d)
      as (n & d' & -> & ?); eauto with hzr.
  - unfold recover_stale_fork_producer_gaps.
    edestruct (recover_matching_safe (is_stale_fork_producer older) false t d)
      as (n & d' & -> & ?); eauto with hzr.
  - unfold import_legacy. destruct ((n =? 0) || exists_ d) eqn:E; [done|].
    apply orb_false_iff in E as [_ E]. destruct d; [done|].
    unfold with_exclusive_state; simpl. split; [reflexivity | constructor].
Qed.

(** C37: whatever sequence of operations produced the state file, the file
    validates and holds no two open intervals for the same gap, and the next
    operation either succeeds with such a file or refuses for one of two
    reasons: its event is invalid, or the table is full.  No operation ever
    writes a file the next one cannot read. *)
Theorem store_operations_safe (d : Disk) :
  reachable (eq None) store_step d -> wf d /\ forall o, op_safe o d.
Proof.
  intros Hr.
  assert (wf d) as Hwf.
  { revert d Hr. apply reachable_invariant; [by intros ? <-|].
    intros d d' Hwf [o Ho]. pose proof (op_safe_wf o d Hwf) as Hs.
    unfold op_safe in Hs. by rewrite Ho in Hs. }
  split; [done|]. intros o. by apply op_safe_wf.
Qed.

Definition sample_event (t : N) : AccountingGapEvent :=
  {| ev_surface := ForkProducer; ev_workspace_hash := Some (lit "w");
     ev_session_hash := Some (lit "s"); ev_operation_family := None; ev_at_unix := t |}.

Definition sample_disk : Disk :=
  Some {| schema_version := 1; legacy_missing_operations := 0;
          intervals := [open_interval (sample_event 10)] |}.

Lemma sample_disk_reachable : reachable (eq None) store_step sample_disk.
Proof.
  apply (reach_step _ _ None); [by apply reach_init|].
  exists (OpRecord (sample_event 10)). vm_compute. reflexivity.
Qed.

Lemma store_operations_safe_witness : wf sample_disk.
Proof. exact (proj1 (store_operations_safe sample_disk sample_disk_reachable)). Defined.

(** ** What a snapshot counts *)

Definition total (f : AccountingGapInterval -> N) (l : list AccountingGapInterval) : N :=
  foldr (fun i n => f i + n) 0 l.

(** The missing operations of the intervals satisfying [p]. *)
Definition missing (p : AccountingGapInterval -> bool) (i : AccountingGapInterval) : N :=
  if p i then missing_operations i else 0.

Section Snapshot.
Context (context : option (rstr * rstr)) (now : N).

(** Intervals that count as gaps: in the context, and not a producer that is
    still inside its grace. *)
Definition counted (i : AccountingGapInterval) : bool :=
  in_context context i && negb (is_pending now i).
Definition counted_on (s : AccountingGapSurface) (i : AccountingGapInterval) : bool :=
  counted i && bool_decide (surface i = s).
Definition counted_open (i : AccountingGapInterval) : bool :=
  counted i && bool_decide (recovered_at_unix i = None).
Definition pending (i : AccountingGapInterval) : bool :=
  in_context context i && is_pending now i.

Abbreviation run := (fold_left (snapshot_step context now)).

(** A field that one interval increases by [w] adds up over the file. *)
Lemma fold_field (F : AccountingCoverageSnapshot -> N) w :
  (forall r i, F r + w i <= u64_max -> F (snapshot_step context now r i) = F r + w i) ->
  forall l r, F r + total w l <= u64_max -> F (run l r) = F r + total w l.
Proof.
  intros Hstep. induction l as [|i l IH]; intros r Hb; simpl in *; [lia|].
  rewrite IH; rewrite Hstep; lia.
Qed.

Ltac field_step :=
  intros r i; unfold snapshot_step, missing, counted_on, counted_open, pending, counted,
    surface_total, add64, sat_add;
  destruct (in_context context i), (is_pending now i); simpl;
  repeat case_bool_decide; destruct (recovered_at_unix i); simpl; try congruence; lia.

Lemma lifetime_step r i :
  lifetime_missing_operations r + missing counted i <= u64_max ->
  lifetime_missing_operations (snapshot_step context now r i)
  = lifetime_missing_operations r + missing counted i.
Proof. revert r i. field_step. Qed.

Lemma pending_step r i :
  pending_producer_operations r + missing pending i <= u64_max ->
  pending_producer_operations (snapshot_step context now r i)
  = pending_producer_operations r + missing pending i.
Proof. revert r i. field_step. Qed.

Lemma open_step r i :
  open_missing_operations r + missing counted_open i <= u64_max ->
  open_missing_operations (snapshot_step context now r i)
  = open_missing_operations r + missing counted_open i.
Proof. revert r i. field_step. Qed.

Definition surface_field (s : AccountingGapSurface) (r : AccountingCoverageSnapshot) : N :=
  match s with
  | RewriteDaemon => rewrite_missing_operations r
  | Hook => hook_missing_operations r
  | Cli => cli_missing_operations r
  | Mcp => mcp_missing_operations r
  | ForkProducer => fork_producer_missing_operations r
  end.

Lemma surface_step s r i :
  surface_field s r + missing (counted_on s) i <= u64_max ->
  surface_field s (snapshot_step context now r i)
  = surface_field s r + missing (counted_on s) i.
Proof. revert r i. destruct s; field_step. Qed.

Lemma open_intervals_zero l r :
  open_intervals r <= u64_max ->
  (open_intervals (run l r) = 0 <->
   open_intervals r = 0 /\ Forall (fun i => counted_open i = false) l).
Proof.
  revert r. induction l as [|i l IH]; intros r Hr; simpl; [intuition|].
  assert (open_intervals (snapshot_step context now r i)
          = if counted_open i then add64 (open_intervals r) 1 else open_intervals r) as E.
  { unfold snapshot_step, counted_open, counted.
    destruct (in_context context i), (is_pending now i); simpl; auto.
    by destruct (recovered_at_unix i). }
  rewrite IH, Forall_cons, E; [|rewrite E; unfold add64, sat_add; destruct (counted_open i); lia].
  destruct (counted_open i); [|tauto]. unfold add64, sat_add, u64_max. split; [lia|].
  by intros (_ & ? & _).
Qed.

Lemma historical_step l r :
  historical_complete (run l r) =
  historical_complete r && forallb (fun i => negb (counted i)) l.
Proof.
  revert r. induction l as [|i l IH]; intros r; simpl; [by rewrite andb_true_r|].
  rewrite IH. unfold snapshot_step, counted.
  destruct (in_context context i), (is_pending now i); simpl;
    rewrite ?andb_false_r; done.
Qed.

Lemma total_surfaces l :
  total (missing (counted_on RewriteDaemon)) l + total (missing (counted_on Hook)) l
  + total (missing (counted_on Cli)) l + total (missing (counted_on Mcp)) l
  + total (missing (counted_on ForkProducer)) l = total (missing counted) l.
Proof.
  induction l as [|i l IH]; simpl; [done|]. rewrite <- IH. unfold missing, counted_on.
  destruct (counted i); simpl; [|lia]. destruct (surface i); simpl; lia.
Qed.

Lemma total_mono f g l : (forall i, f i <= g i) -> total f l <= total g l.
Proof. intros H. induction l as [|i l IH]; simpl; [lia|]. specialize (H i). lia. Qed.
End Snapshot.

(** The counted and the pending operations of a context are all of its
    operations, and the counted ones hold the open ones. *)
Lemma counted_or_pending context now l :
  total (missing (counted context now)) l + total (missing (pending context now)) l
  = total (missing (in_context context)) l.
Proof.
  induction l as [|i l IH]; simpl; [done|]. rewrite <- IH. unfold missing, counted, pending.
  destruct (in_context context i), (is_pending now i); simpl; lia.
Qed.

Lemma open_are_counted context now l :
  total (missing (counted_open context now)) l <= total (missing (counted context now)) l.
Proof.
  apply total_mono. intros i. unfold missing, counted_open. destruct (counted _ _ i); simpl; [|done].
  destruct (bool_decide _); lia.
Qed.

Lemma legacy_stays context now l r :
  snap_legacy_missing_operations (fold_left (snapshot_step context now) l r) = snap_legacy_missing_operations r.
Proof.
  revert r. induction l as [|i l IH]; intros r; simpl; [done|]. rewrite IH. unfold snapshot_step.
  by destruct (in_context context i), (is_pending now i).
Qed.

(** The accounting identity of a snapshot.  As long as the totals fit in 64
    bits, every missing operation in the context is counted exactly once:
    either as a producer still inside its grace, or in the lifetime total and on
    its own surface; the open part is what belongs to intervals not yet
    recovered.  [live_complete] says that there is no such interval and
    [historical_complete] that there never was a counted one. *)
Theorem snapshot_accounts (s : AccountingCoverageState) context now :
  let legacy := match context with None => legacy_missing_operations s | Some _ => 0 end in
  let l := intervals s in
  legacy + total (missing (in_context context)) l <= u64_max ->
  let r := snapshot s context now in
  lifetime_missing_operations r + pending_producer_operations r
  = legacy + total (missing (in_context context)) l /\
  lifetime_missing_operations r
  = snap_legacy_missing_operations r + rewrite_missing_operations r + hook_missing_operations r
    + cli_missing_operations r + mcp_missing_operations r + fork_producer_missing_operations r /\
  open_missing_operations r = total (missing (counted_open context now)) l /\
  (live_complete r = true <-> Forall (fun i => counted_open context now i = false) l) /\
  (historical_complete r = true <->
   legacy = 0 /\ Forall (fun i => counted context now i = false) l).
Proof.
  intros legacy l Hmax r.
  pose proof (counted_or_pending context now l) as Hsplit.
  pose proof (total_surfaces context now l) as Hsurf.
  pose proof (open_are_counted context now l) as Hopen.
  set (r0 := snapshot_start legacy).
  assert (forall F w, F r0 = 0 ->
    (forall r i, F r + w i <= u64_max -> F (snapshot_step context now r i) = F r + w i) ->
    total w l <= u64_max -> F (fold_left (snapshot_step context now) l r0) = total w l) as Hrun.
  { intros F w H0 Hs Hb. rewrite (fold_field context now F w Hs); lia. }
  assert (lifetime_missing_operations r = legacy + total (missing (counted context now)) l) as Hlife.
  { apply (fold_field context now lifetime_missing_operations); [apply lifetime_step | simpl; lia]. }
  assert (forall S, surface_field S r = total (missing (counted_on context now S)) l) as Hsurface.
  { intros S. transitivity (surface_field S (fold_left (snapshot_step context now) l r0));
      [by destruct S|].
    apply Hrun; [by destruct S | apply surface_step | destruct S; lia]. }
  assert (pending_producer_operations r = total (missing (pending context now)) l) as Hpend.
  { apply (Hrun pending_producer_operations); [done | apply pending_step | lia]. }
  split_and!.
  - rewrite Hlife, Hpend. lia.
  - assert (snap_legacy_missing_operations r = legacy) as -> by (unfold r, snapshot; simpl; by rewrite legacy_stays).
    rewrite Hlife, <- Hsurf.
    rewrite <- (Hsurface RewriteDaemon), <- (Hsurface Hook), <- (Hsurface Cli),
      <- (Hsurface Mcp), <- (Hsurface ForkProducer). simpl. lia.
  - apply (Hrun open_missing_operations); [done | apply open_step | lia].
  - unfold r, snapshot; simpl. rewrite N.eqb_eq, open_intervals_zero by (simpl; lia).
    simpl. tauto.
  - unfold r, snapshot; simpl. rewrite historical_step; simpl.
    rewrite andb_true_iff, N.eqb_eq, forallb_forall, List.Forall_forall. fold legacy.
    apply and_iff_compat_l. setoid_rewrite negb_true_iff. done.
Qed.

Lemma snapshot_accounts_witness :
  lifetime_missing_operations (snapshot (default default_state sample_disk) None 700) = 1.
Proof.
  pose proof (snapshot_accounts (default default_state sample_disk) None 700) as H.
  destruct H as (H & _); [vm_compute; discriminate|].
  vm_compute in H |- *. reflexivity.
Defined.

(** ** The life of one gap *)

Definition at_time (ev : AccountingGapEvent) (t : N) : AccountingGapEvent :=
  {| ev_surface := ev_surface ev; ev_workspace_hash := ev_workspace_hash ev;
     ev_session_hash := ev_session_hash ev; ev_operation_family := ev_operation_family ev;
     ev_at_unix := t |}.

Definition pruned (s : AccountingCoverageState) : Prop := prune_settled_registrations s = s.

(** No open interval records the gap of [ev] yet, and there is room for it. *)
Definition fresh (ev : AccountingGapEvent) (s : AccountingCoverageState) : Prop :=
  Forall (fun i => same_identity ev i = false) (intervals s) /\
  N.of_nat (length (intervals s)) < MAX_INTERVALS.

Definition state_of (d : Disk) : AccountingCoverageState := default default_state d.

Lemma validate_at_time ev t :
  validate_event ev = Ok tt -> t <> 0 -> validate_event (at_time ev t) = Ok tt.
Proof.
  unfold validate_event; simpl. intros H Ht. inv_ok.
  apply N.eqb_neq in Ht as ->. simpl. rewrite H0, H1. simpl. by rewrite H2.
Qed.

Lemma filter_all {A} (p : A -> bool) l :
  Forall (fun x => p x = true) l -> List.filter p l = l.
Proof. intros H. induction H as [|x l Hx _ IH]; simpl; [done|]. by rewrite Hx, IH. Qed.

Lemma filter_id_inv {A} (p : A -> bool) l :
  List.filter p l = l -> Forall (fun x => p x = true) l.
Proof.
  intros H. rewrite <- H. apply Forall_forall. intros x Hx.
  apply list_elem_of_In, List.filter_In in Hx. by destruct Hx.
Qed.

Lemma pruned_app s i :
  pruned s -> recovered_at_unix i = None \/
    (exists t, recovered_at_unix i = Some t /\ is_settled_registration i t = false) ->
  prune_settled_registrations (with_intervals s (intervals s ++ [i]))
  = with_intervals s (intervals s ++ [i]).
Proof.
  unfold pruned, prune_settled_registrations. intros Hp Hi. f_equal. simpl.
  apply (f_equal intervals) in Hp. simpl in Hp. rewrite List.filter_app, Hp. simpl.
  destruct Hi as [->|(t & -> & ->)]; done.
Qed.

Lemma split_last_app_last {A} (p : A -> bool) l x :
  p x = true -> split_last p (l ++ [x]) = Some (l, x, []).
Proof. intros Hx. induction l as [|y l IH]; simpl; [by rewrite Hx | by rewrite IH]. Qed.

Lemma split_last_none_all {A} (p : A -> bool) l :
  Forall (fun y => p y = false) l -> split_last p l = None.
Proof. induction 1 as [|y l Hy _ IH]; simpl; [done|]. by rewrite IH, Hy. Qed.

Lemma same_identity_at_time ev t : same_identity (at_time ev t) = same_identity ev.
Proof. reflexivity. Qed.

Lemma same_identity_self ev i :
  identity i = identity (open_interval ev) -> recovered_at_unix i = None ->
  same_identity ev i = true.
Proof. intros. by apply same_identity_true. Qed.

Lemma record_missing_event_eq ev count d ch s' :
  wf d -> validate_event ev = Ok tt ->
  record_missing_update ev count (state_of d) = Ok (ch, s', tt) ->
  let d' := if (ch : bool) then Some (prune_settled_registrations s') else d in
  wf d' /\
  record_missing_event ev count d = Ok (snapshot (state_of d') None (ev_at_unix ev), d').
Proof.
  intros Hwf Hev Hu d'.
  destruct (read_state_wf _ Hwf) as (s & _ & Hs & Hsd). unfold state_of in Hu.
  rewrite <- Hsd in Hu.
  pose proof (record_missing_update_wf _ _ _ _ _ _ Hev Hs Hu) as Hs'. rewrite Hsd in Hu.
  destruct (with_exclusive_state_wf _ _ _ _ _ Hwf Hu Hs') as [Hw Hd].
  split; [exact Hd|]. unfold record_missing_event. rewrite Hev.
  cbv [mbind result_bind]. rewrite Hw. fold d' in Hd |- *.
  destruct (read_state_wf _ Hd) as (s2 & Hr2 & _ & ->).
  unfold snapshot_filtered, mbind, result_bind. by rewrite Hr2.
Qed.

(** Recording a fresh gap appends one open interval. *)
Lemma record_fresh ev count d :
  wf d -> pruned (state_of d) -> validate_event ev = Ok tt -> fresh ev (state_of d) ->
  let d' := Some (with_intervals (state_of d) (intervals (state_of d) ++ [open_interval ev])) in
  wf d' /\
  record_missing_event ev count d = Ok (snapshot (state_of d') None (ev_at_unix ev), d').
Proof.
  intros Hwf Hp Hev [Hf Hl] d'.
  assert (record_missing_update ev count (state_of d)
          = Ok (true, with_intervals (state_of d)
                        (intervals (state_of d) ++ [open_interval ev]), tt)) as Hu.
  { unfold record_missing_update. rewrite (split_last_none_all _ _ Hf).
    apply N.leb_gt in Hl. by rewrite Hl. }
  pose proof (record_missing_event_eq _ _ _ _ _ Hwf Hev Hu) as H. simpl in H.
  rewrite pruned_app in H by auto. exact H.
Qed.

(** What one further report does to the open interval of its gap. *)
Lemma record_again ev count t d s i :
  wf d -> d = Some (with_intervals s (intervals s ++ [i])) -> pruned s ->
  same_identity ev i = true -> validate_event ev = Ok tt -> t <> 0 ->
  let i' := snd (repeated i count t) in
  let d' := Some (with_intervals s (intervals s ++ [i'])) in
  wf d' /\ (fst (repeated i count t) = false -> i' = i) /\
  exists snap, record_missing_event (at_time ev t) count d = Ok (snap, d').
Proof.
  intros Hwf -> Hp Hi Hev Ht i' d'.
  assert (fst (repeated i count t) = false -> i' = i) as Hsame.
  { unfold i', repeated. simpl. intros H. bool_prop. subst count. rewrite H0. by destruct i. }
  destruct (repeated i count t) as [ch j] eqn:Er. simpl in i', Hsame. subst i'.
  assert (recovered_at_unix j = None) as Hjo.
  { unfold repeated in Er. simplify_eq/=. by apply same_identity_open in Hi. }
  assert (record_missing_update (at_time ev t) count
            (state_of (Some (with_intervals s (intervals s ++ [i]))))
          = Ok (ch, with_intervals s (intervals s ++ [j]), tt)) as Hu.
  { unfold record_missing_update. rewrite same_identity_at_time.
    cbn [state_of default from_option id intervals with_intervals].
    rewrite (split_last_app_last _ _ _ Hi). cbv beta iota.
    change (ev_at_unix (at_time ev t)) with t. by rewrite Er. }
  pose proof (record_missing_event_eq _ _ _ _ _ Hwf (validate_at_time _ _ Hev Ht) Hu) as [Hw He].
  rewrite pruned_app in Hw, He by auto.
  simpl in *. destruct ch; [split_and!; eauto|].
  specialize (Hsame eq_refl) as ->. split_and!; eauto.
Qed.

(** Reports of one gap, in order: [(true, t)] is a missing operation at [t],
    [(false, t)] a repeated inspection of the same condition. *)
Fixpoint report_all (ev : AccountingGapEvent) (reports : list (bool * N)) (d : Disk) : res Disk :=
  match reports with
  | [] => Ok d
  | (count, t) :: rest =>
      '(_, d') ← record_missing_event (at_time ev t) count d; report_all ev rest d'
  end.

Definition count_reports (reports : list (bool * N)) : N :=
  foldr (fun '(count, _) n => (if (count : bool) then 1 else 0) + n) 0 reports.

Lemma report_all_open ev s reports : forall i d,
  pruned s -> validate_event ev = Ok tt -> Forall (fun '(_, t) => t <> 0) reports ->
  wf d -> d = Some (with_intervals s (intervals s ++ [i])) ->
  recovered_at_unix i = None -> identity i = identity (open_interval ev) ->
  missing_operations i <= u64_max ->
  exists j d', report_all ev reports d = Ok d' /\ wf d' /\
    d' = Some (with_intervals s (intervals s ++ [j])) /\
    recovered_at_unix j = None /\ identity j = identity (open_interval ev) /\
    started_at_unix j = started_at_unix i /\
    last_failure_at_unix i <= last_failure_at_unix j /\
    missing_operations j = N.min (missing_operations i + count_reports reports) u64_max /\
    (count_reports reports = 0 ->
     Forall (fun '(_, t) => t < last_failure_at_unix i + REPEATED_FAILURE_REWRITE_SECS) reports ->
     j = i).
Proof.
  induction reports as [|[count t] rest IH]; intros i d Hp Hev Ht Hwf Hd Hro Hid Hm.
  - exists i, d. simpl. split_and!; auto; lia.
  - apply Forall_cons in Ht as [Ht Htr].
    pose proof (record_again ev count t d s i Hwf Hd Hp (same_identity_self _ _ Hid Hro) Hev Ht)
      as (Hwf' & _ & snap & Hrec).
    destruct (IH (snd (repeated i count t)) _ Hp Hev Htr Hwf' eq_refl)
      as (j & d' & Hall & Hwfj & Hd' & Hjo & Hjid & Hjs & Hjl & Hjm & Hquiet).
    { done. } { done. }
    { simpl. destruct count; [unfold add64; apply sat_add_le | done]. }
    exists j, d'. simpl. rewrite Hrec. cbv [mbind result_bind]. split_and!; auto.
    + etransitivity; [|exact Hjl]. simpl. unfold sat_sub.
      destruct (_ && _) eqn:E; bool_prop; lia.
    + rewrite Hjm. simpl. unfold add64, sat_add. destruct count; lia.
    + intros Hz Hall'. apply Forall_cons in Hall' as [Hlt Hall'].
      destruct count; [lia|].
      assert (snd (repeated i false t) = i) as Hi.
      { unfold repeated; simpl. unfold sat_sub, REPEATED_FAILURE_REWRITE_SECS in *.
        destruct (N.leb_spec 60 (t - last_failure_at_unix i)); [lia|].
        rewrite andb_false_r. by destruct i. }
      rewrite Hi in Hquiet. apply Hquiet; [lia | done].
Qed.

(** One unresolved condition is one gap, however often it is reported.
    After the first report of a gap no open interval recorded yet, any sequence
    of further reports keeps exactly that one interval, with its start; its
    count is one plus the number of missing operations (repeated inspections
    count nothing), up to 64 bits.  If the sequence only inspects, within a
    minute of the first failure, the file is not touched at all. *)
Theorem repeated_failures_one_gap (ev : AccountingGapEvent) (first : bool) (d : Disk)
    (reports : list (bool * N)) :
  wf d -> pruned (state_of d) -> validate_event ev = Ok tt -> fresh ev (state_of d) ->
  Forall (fun '(_, t) => t <> 0) reports ->
  exists d1 j d',
    snd <$> record_missing_event ev first d = Ok d1 /\
    report_all ev reports d1 = Ok d' /\ wf d' /\
    intervals (state_of d') = intervals (state_of d) ++ [j] /\
    same_identity ev j = true /\ started_at_unix j = ev_at_unix ev /\
    missing_operations j = N.min (1 + count_reports reports) u64_max /\
    (count_reports reports = 0 ->
     Forall (fun '(_, t) => t < ev_at_unix ev + REPEATED_FAILURE_REWRITE_SECS) reports ->
     d' = d1).
Proof.
  intros Hwf Hp Hev Hf Ht.
  destruct (record_fresh ev first d Hwf Hp Hev Hf) as [Hwf1 Hr1].
  destruct (report_all_open ev (state_of d) reports (open_interval ev) _ Hp Hev Ht Hwf1 eq_refl)
    as (j & d' & Hall & Hwf' & Hd' & Hjo & Hjid & Hjs & _ & Hjm & Hquiet); [done..|].
  eexists _, j, d'. split_and!.
  - by rewrite Hr1.
  - exact Hall.
  - exact Hwf'.
  - by rewrite Hd'.
  - by apply same_identity_self.
  - exact Hjs.
  - exact Hjm.
  - intros Hz Hq. by rewrite Hd', (Hquiet Hz Hq).
Qed.

Lemma repeated_failures_one_gap_witness :
  exists j d', intervals (state_of d') = [j] /\ missing_operations j = 3.
Proof.
  destruct (repeated_failures_one_gap (sample_event 10) true None
              [(true, 11); (false, 100); (true, 12)])
    as (d1 & j & d' & _ & _ & _ & Hi & _ & _ & Hm & _).
  - exact I.
  - reflexivity.
  - reflexivity.
  - split; [constructor | vm_compute; reflexivity].
  - repeat constructor; discriminate.
  - exists j, d'. split; [exact Hi | exact Hm].
Defined.

Lemma recover_matching_eq matches drop t d n l' :
  (forall i, matches i = true -> recovered_at_unix i = None) ->
  wf d -> exists_ d = true ->
  n = N.of_nat (length (List.filter matches (intervals (state_of d)))) -> 0 < n ->
  l' = omap (recover_interval matches drop t) (intervals (state_of d)) ->
  let s' := prune_settled_registrations (with_intervals (state_of d) l') in
  recover_matching matches drop t d = Ok (n, Some s') /\ wf (Some s').
Proof.
  intros Hm Hwf He -> Hn -> s'.
  destruct (read_state_wf _ Hwf) as (s & _ & Hs & Hsd).
  assert (recover_update matches drop t (state_of d)
          = Ok (true, with_intervals (state_of d)
                  (omap (recover_interval matches drop t) (intervals (state_of d))),
                N.of_nat (length (List.filter matches (intervals (state_of d)))))) as Hu.
  { unfold recover_update. apply N.ltb_lt in Hn. by rewrite Hn. }
  pose proof (recover_update_wf matches drop t Hm s) as Hwf'. rewrite Hsd in Hwf', Hs.
  specialize (Hwf' _ _ _ Hs Hu).
  destruct (with_exclusive_state_wf _ _ _ _ _ Hwf Hu Hwf') as [Hw Hd].
  split; [|exact Hd]. unfold recover_matching. rewrite He. simpl. by rewrite Hw.
Qed.

Lemma omap_recover_none matches drop t l :
  Forall (fun i => matches i = false) l -> omap (recover_interval matches drop t) l = l.
Proof.
  induction 1 as [|i l Hi _ IH]; [done|]. rewrite omap_cons. unfold recover_interval at 1.
  by rewrite Hi, IH.
Qed.

Lemma filter_none {A} (p : A -> bool) l :
  Forall (fun x => p x = false) l -> List.filter p l = [].
Proof. induction 1 as [|x l Hx _ IH]; simpl; [done|]. by rewrite Hx. Qed.

(** A producer that finishes inside its grace leaves no trace.  Registering
    it opens a gap; recovering the gap less than [FORK_PRODUCER_PENDING_GRACE_SECS]
    later restores the state of before, and recovering it later keeps exactly
    that interval, closed at the time of recovery. *)
Theorem registration_settles (ev : AccountingGapEvent) (d : Disk) (t : N) :
  wf d -> pruned (state_of d) -> validate_event ev = Ok tt -> fresh ev (state_of d) ->
  ev_surface ev = ForkProducer -> ev_operation_family ev = None -> t <> 0 ->
  exists d1, snd <$> record_missing ev d = Ok d1 /\
    recover (at_time ev t) d1 =
      Ok (1, Some (if t - ev_at_unix ev <? FORK_PRODUCER_PENDING_GRACE_SECS
                   then state_of d
                   else with_intervals (state_of d)
                          (intervals (state_of d) ++ [close (open_interval ev) t]))).
Proof.
  intros Hwf Hp Hev Hf Hs Hfam Ht.
  destruct (record_fresh ev true d Hwf Hp Hev Hf) as [Hwf1 Hr1].
  eexists. split; [unfold record_missing; by rewrite Hr1|].
  unfold recover. rewrite (validate_at_time _ _ Hev Ht). cbv [mbind result_bind].
  rewrite same_identity_at_time. destruct Hf as [Hf _].
  assert (same_identity ev (open_interval ev) = true) as Hself by by apply same_identity_self.
  edestruct (recover_matching_eq (same_identity ev) true (ev_at_unix (at_time ev t)))
    as [-> _]; [apply same_identity_open | exact Hwf1 | done | reflexivity | | reflexivity |].
  { simpl. rewrite List.filter_app, length_app. simpl. rewrite Hself. simpl. lia. }
  simpl. rewrite List.filter_app, (filter_none _ _ Hf). simpl. rewrite Hself. simpl. do 2 f_equal.
  rewrite omap_app, (omap_recover_none _ _ _ _ Hf). rewrite omap_cons.
  unfold recover_interval. rewrite Hself. simpl.
  assert (is_settled_registration (open_interval ev) t
          = (t - ev_at_unix ev <? FORK_PRODUCER_PENDING_GRACE_SECS)) as Hset.
  { unfold is_settled_registration; simpl. by rewrite Hs, Hfam, !bool_decide_eq_true_2 by done. }
  rewrite Hset. unfold with_intervals at 2; simpl. f_equal.
  destruct (N.ltb_spec (t - ev_at_unix ev) FORK_PRODUCER_PENDING_GRACE_SECS) as [Hlt|Hge];
    simpl; f_equal.
  - rewrite app_nil_r. transitivity (prune_settled_registrations (state_of d)); [|exact Hp].
    by destruct (state_of d).
  - apply (pruned_app (state_of d)); [exact Hp|]. right. simpl. eexists. split; [done|].
    unfold is_settled_registration; simpl.
    unfold sat_sub, FORK_PRODUCER_PENDING_GRACE_SECS in *.
    apply andb_false_iff. right. apply N.ltb_ge. lia.
Qed.

Lemma registration_settles_witness :
  recover (sample_event 500) sample_disk = Ok (1, Some default_state).
Proof.
  destruct (registration_settles (sample_event 10) None 500) as (d1 & H1 & H2).
  - exact I.
  - reflexivity.
  - reflexivity.
  - split; [constructor | vm_compute; reflexivity].
  - reflexivity.
  - reflexivity.
  - discriminate.
  - assert (d1 = sample_disk) as -> by (vm_compute in H1; by simplify_eq).
    exact H2.
Defined.

(** ** Repairing the gaps of an unreachable daemon *)

Lemma is_settled_surface i t : surface i <> ForkProducer -> is_settled_registration i t = false.
Proof. intros H. unfold is_settled_registration. by rewrite bool_decide_eq_false_2. Qed.

Lemma total_app f l k : total f (l ++ k) = total f l + total f k.
Proof. induction l as [|i l IH]; simpl; [done|]. rewrite IH. lia. Qed.

Lemma daemon_surface i :
  is_open_surface DAEMON_UNREACHABLE_SURFACES i = true -> surface i <> ForkProducer.
Proof. unfold is_open_surface. intros H. bool_prop. intros E. rewrite E in *. set_solver. Qed.

Lemma recover_daemon_map t l :
  omap (recover_interval (is_open_surface DAEMON_UNREACHABLE_SURFACES) true t) l
  = map (fun i => if is_open_surface DAEMON_UNREACHABLE_SURFACES i then close i t else i) l.
Proof.
  induction l as [|i l IH]; [done|]. rewrite omap_cons, IH. simpl.
  unfold recover_interval. destruct (is_open_surface _ i) eqn:E; simpl; [|done].
  by rewrite is_settled_surface by by apply daemon_surface.
Qed.

Lemma recover_daemon_pruned t s :
  pruned s ->
  let l := map (fun i => if is_open_surface DAEMON_UNREACHABLE_SURFACES i then close i t else i)
               (intervals s) in
  prune_settled_registrations (with_intervals s l) = with_intervals s l.
Proof.
  intros Hp l. unfold pruned, prune_settled_registrations in *. f_equal.
  apply (f_equal intervals) in Hp. simpl in Hp |- *. apply filter_id_inv in Hp.
  apply filter_all. unfold l. apply Forall_map. eapply Forall_impl; [exact Hp|].
  intros i Hi. simpl. destruct (is_open_surface _ i) eqn:E; [|exact Hi]. simpl.
  unfold is_settled_registration; simpl.
  by rewrite bool_decide_eq_false_2 by by apply daemon_surface.
Qed.

(** The doctor's repair closes exactly the gaps the doctor counted.  When
    [n] open gaps are due to an unreachable daemon, recovering those surfaces
    answers [n] and afterwards none is open; no interval disappears, every
    other interval is as before, and no missing operation is lost from the
    history. *)
Theorem daemon_repair_closes_what_it_counts (d : Disk) (t n : N) :
  wf d -> pruned (state_of d) -> open_daemon_unreachable_intervals d = Ok n ->
  exists d',
    recover_surfaces DAEMON_UNREACHABLE_SURFACES t d = Ok (n, d') /\ wf d' /\
    open_daemon_unreachable_intervals d' = Ok 0 /\
    length (intervals (state_of d')) = length (intervals (state_of d)) /\
    List.filter (fun i => bool_decide (surface i = ForkProducer)) (intervals (state_of d'))
    = List.filter (fun i => bool_decide (surface i = ForkProducer)) (intervals (state_of d)) /\
    total missing_operations (intervals (state_of d'))
    = total missing_operations (intervals (state_of d)).
Proof.
  intros Hwf Hp Hn. destruct (read_state_wf _ Hwf) as (s & Hr & Hs & ->).
  fold (state_of d) in *.
  assert (exists_ d = false -> n = 0 /\ d = None) as Hnone.
  { destruct d; [done|]. intros _. vm_compute in Hn. by simplify_eq. }
  destruct (exists_ d) eqn:He; cycle 1.
  { destruct (Hnone eq_refl) as [-> ->]. exists None. by vm_compute. }
  unfold open_daemon_unreachable_intervals, count_intervals in *. rewrite He, Hr in Hn.
  cbv [mbind result_bind negb] in Hn. simplify_eq.
  destruct (decide (List.filter (is_open_surface DAEMON_UNREACHABLE_SURFACES)
                      (intervals (state_of d)) = [])) as [E0|E0].
  - exists d. unfold recover_surfaces, recover_matching, with_exclusive_state, recover_update.
    fold (state_of d). rewrite He, Hr. cbv [mbind result_bind negb]. rewrite E0. simpl. done.
  - set (l := intervals (state_of d)) in *.
    edestruct (recover_matching_eq (is_open_surface DAEMON_UNREACHABLE_SURFACES) true t d)
      as [Hrec Hwf']; [apply is_open_surface_open | exact Hwf | exact He | reflexivity | |
                       symmetry; apply recover_daemon_map |].
    { destruct (List.filter _ _); [done | simpl; lia]. }
    rewrite recover_daemon_pruned in Hrec, Hwf' by done.
    eexists. split_and!; [exact Hrec | exact Hwf' | | | |]; [|simpl; fold l..].
    + destruct Hwf' as [Hv _]. cbn [exists_ negb]. unfold read_state. rewrite Hv.
      cbv [mbind result_bind]. rewrite filter_none; [done|]. simpl. apply Forall_map, Forall_true. intros i. simpl.
      destruct (is_open_surface _ i) eqn:E; [|done].
      unfold is_open_surface. by rewrite bool_decide_eq_false_2.
    + by rewrite length_map.
    + clear. induction l as [|i l IH]; simpl; [done|].
      destruct (is_open_surface _ i) eqn:E; simpl; [|by rewrite IH].
      by rewrite bool_decide_eq_false_2 by by apply daemon_surface.
    + clear. induction l as [|i l IH]; simpl; [done|].
      by destruct (is_open_surface _ i); simpl; rewrite IH.
Qed.

Definition hook_event (t : N) : AccountingGapEvent :=
  {| ev_surface := Hook; ev_workspace_hash := None; ev_session_hash := Some (lit "s");
     ev_operation_family := Some (lit "read"); ev_at_unix := t |}.

Lemma daemon_repair_closes_what_it_counts_witness :
  exists d', recover_surfaces DAEMON_UNREACHABLE_SURFACES 90
               (Some {| schema_version := 1; legacy_missing_operations := 0;
                        intervals := [open_interval (hook_event 7); open_interval (sample_event 8)] |})
             = Ok (1, d').
Proof.
  edestruct (daemon_repair_closes_what_it_counts
    (Some {| schema_version := 1; legacy_missing_operations := 0;
             intervals := [open_interval (hook_event 7); open_interval (sample_event 8)] |}) 90 1)
    as (d' & H & _).
  - split; [reflexivity | vm_compute; repeat constructor; set_solver].
  - reflexivity.
  - reflexivity.
  - exists d'. exact H.
Defined.

(** * Registrations of running producers *)

Module Contexts.

Definition MAX_CONTEXTS : nat := N.to_nat 20000.

Record AccountingReceiptContext := {
  correlation_id : rstr;
  project_path : rstr;
  agent : option rstr;
  session_id : option rstr;
  registered_at_unix : N;
  completed_at_unix : option N;
  channel : AccountingChannel.t;
  evasion : option EvasionAttribution;
  command_summary : option rstr;
}.

Definition default_accounting_channel : AccountingChannel.t := AccountingChannel.HookCli.

(** The data root: the context files, by the correlation id in their name, and
    the gap store. *)
Record World := {
  contexts : gmap rstr AccountingReceiptContext;
  gaps : Disk;
}.

Definition validate_correlation_id (correlation_id : rstr) : res unit :=
  guard_err (negb (slen correlation_id =? 32)
             || negb (forallb (fun c => is_ascii_hexdigit c && negb (is_ascii_uppercase c))
                              correlation_id))
            InvalidCorrelationId.

Section Contexts.
(** [hex::encode(Sha256::digest(bytes))], and the length of a context's JSON. *)
Context (sha256_hex : list N -> rstr) (json_len : AccountingReceiptContext -> N).

Definition privacy_identity_hash (domain value : rstr) : rstr :=
  lit "sha256:" ++ sha256_hex (utf8 domain ++ [0] ++ utf8 value).

Definition gap_event (self : AccountingReceiptContext) (now : N) : AccountingGapEvent :=
  {| ev_surface := ForkProducer;
     ev_workspace_hash := Some (privacy_identity_hash (lit "workspace") (project_path self));
     ev_session_hash := privacy_identity_hash (lit "session") <$> session_id self;
     ev_operation_family := None;
     ev_at_unix := now |}.

(** [now] is the clock for the registration, [now'] for its gap event. *)
Definition register_with_command (correlation_id project_path : rstr)
    (agent session_id : option rstr) (channel : AccountingChannel.t)
    (evasion : option EvasionAttribution) (command_summary : option rstr)
    (now now' : N) (w : World) : res unit * World :=
  match validate_correlation_id correlation_id with
  | Err e => (Err e, w)
  | Ok _ =>
      let context :=
        {| correlation_id := correlation_id; project_path := project_path; agent := agent;
           session_id := session_id; registered_at_unix := now; completed_at_unix := None;
           channel := channel; evasion := evasion; command_summary := command_summary |} in
      if (MAX_CONTEXTS <=? size (contexts w))%nat then (Err InvalidContextCapacity, w)
      else
        let written := <[correlation_id := context]> (contexts w) in
        match record_missing (gap_event context now') (gaps w) with
        | Ok (_, gaps') => (Ok tt, {| contexts := written; gaps := gaps' |})
        | Err e => (Err e, {| contexts := delete correlation_id written; gaps := gaps w |})
        end
  end.

Definition register_with_attribution correlation_id project_path agent session_id channel evasion :=
  register_with_command correlation_id project_path agent session_id channel evasion None.

Definition register_with_channel correlation_id project_path agent session_id channel :=
  register_with_attribution correlation_id project_path agent session_id channel None.

Definition register correlation_id project_path agent session_id :=
  register_with_channel correlation_id project_path agent session_id default_accounting_channel.

(** [read] of the file named after [key]. *)
Definition read (key : rstr) (w : World) : res AccountingReceiptContext :=
  context ← ok_or (contexts w !! key) Io;
  _ ← guard_err (MAX_ACCOUNTING_CONTEXT_BYTES <? json_len context) InvalidContextSize;
  _ ← validate_correlation_id (correlation_id context);
  _ ← guard_err (negb (bool_decide (correlation_id context = key))) InvalidContextPath;
  Ok context.

Definition completed (context : AccountingReceiptContext) (now : N) : AccountingReceiptContext :=
  {| correlation_id := correlation_id context; project_path := project_path context;
     agent := agent context; session_id := session_id context;
     registered_at_unix := registered_at_unix context; completed_at_unix := Some now;
     channel := channel context; evasion := evasion context;
     command_summary := command_summary context |}.

Definition complete (key : rstr) (now now' : N) (w : World) : res unit * World :=
  match (_ ← validate_correlation_id key; read key w) with
  | Err e => (Err e, w)
  | Ok context =>
      let context := completed context now in
      let written := <[key := context]> (contexts w) in
      match recover (gap_event context now') (gaps w) with
      | Ok (_, gaps') => (Ok tt, {| contexts := written; gaps := gaps' |})
      | Err e => (Err e, {| contexts := written; gaps := gaps w |})
      end
  end.

(** A SHA-256 digest has 32 bytes, hence 64 hexadecimal characters. *)
Hypothesis sha256_hex_length : forall bytes, slen (sha256_hex bytes) = 64.

Lemma gap_event_valid c now : now <> 0 -> validate_event (gap_event c now) = Ok tt.
Proof.
  intros Hn. apply N.eqb_neq in Hn.
  assert (forall d v, slen (privacy_identity_hash d v) = 71) as Hlen.
  { intros d v. unfold privacy_identity_hash, slen in *. rewrite blen_app.
    specialize (sha256_hex_length (utf8 d ++ [0] ++ utf8 v)). simpl in *. lia. }
  assert (forall d v, invalid_identity (Some (privacy_identity_hash d v)) = false) as Hi.
  { intros d v. simpl. rewrite Hlen. done. }
  unfold validate_event. simpl ev_at_unix. rewrite Hn. cbn [guard_err].
  cbv [mbind result_bind]. simpl ev_workspace_hash. rewrite Hi. cbn [guard_err].
  simpl ev_session_hash. destruct (session_id c); simpl fmap; [rewrite Hi|]; reflexivity.
Qed.

(** A command that finishes inside the grace was in flight, never a gap.
    Registering a producer under a well-formed correlation id succeeds while
    there is room, and completing it less than ten minutes after its gap was
    opened restores the gap store of before; the context file remains, with
    its completion time. *)
Theorem finished_command_is_no_gap (w : World) (cid path : rstr) (ag session : option rstr)
    (chan : AccountingChannel.t) (ev : option EvasionAttribution) (summary : option rstr)
    (t0 t1 t2 t3 : N) :
  let context :=
    {| correlation_id := cid; project_path := path; agent := ag; session_id := session;
       registered_at_unix := t0; completed_at_unix := None; channel := chan;
       evasion := ev; command_summary := summary |} in
  wf (gaps w) -> pruned (state_of (gaps w)) -> fresh (gap_event context t1) (state_of (gaps w)) ->
  validate_correlation_id cid = Ok tt -> (size (contexts w) < MAX_CONTEXTS)%nat ->
  json_len context <= MAX_ACCOUNTING_CONTEXT_BYTES ->
  t1 <> 0 -> t1 <= t3 < t1 + FORK_PRODUCER_PENDING_GRACE_SECS ->
  exists w1,
    register_with_command cid path ag session chan ev summary t0 t1 w = (Ok tt, w1) /\
    complete cid t2 t3 w1
    = (Ok tt, {| contexts := <[cid := completed context t2]> (contexts w);
                 gaps := Some (state_of (gaps w)) |}).
Proof.
  intros context Hwf Hp Hf Hcid Hroom Hlen Ht1 Ht3.
  destruct (registration_settles (gap_event context t1) (gaps w) t3) as (d1 & Hd1 & Hrec);
    auto using gap_event_valid; [lia|].
  apply Nat.leb_gt in Hroom.
  eexists. split.
  - unfold register_with_command. rewrite Hcid, Hroom. fold context.
    destruct (record_missing (gap_event context t1) (gaps w)) as [[snap d]|]; [|done].
    cbn in Hd1. simplify_eq. reflexivity.
  - unfold complete, read. rewrite Hcid. cbv [mbind result_bind]. simpl contexts.
    rewrite lookup_insert_eq. cbn [ok_or]. apply N.ltb_ge in Hlen. rewrite Hlen.
    simpl correlation_id. cbn [guard_err]. rewrite Hcid, bool_decide_eq_true_2 by done.
    cbn [negb guard_err]. simpl gaps.
    assert ((t3 - ev_at_unix (gap_event context t1) <? FORK_PRODUCER_PENDING_GRACE_SECS) = true)
      as Hlt by (apply N.ltb_lt; simpl; lia).
    rewrite Hlt in Hrec.
    change (gap_event (completed context t2) t3) with (at_time (gap_event context t1) t3).
    rewrite Hrec. by rewrite insert_insert_eq.
Qed.
End Contexts.

(** The hypothesis on the digest is satisfied by any 64-character function. *)
Lemma finished_command_is_no_gap_witness :
  exists w1,
    complete (fun _ => repeat 48 64) (fun _ => 300) (lit "0123456789abcdef0123456789abcdef")
      120 130 w1
    = (Ok tt, {| contexts := <[lit "0123456789abcdef0123456789abcdef" :=
                                 {| correlation_id := lit "0123456789abcdef0123456789abcdef";
                                    project_path := lit "/p"; agent := None;
                                    session_id := Some (lit "s1"); registered_at_unix := 100;
                                    completed_at_unix := Some 120;
                                    channel := AccountingChannel.Mcp; evasion := None;
                                    command_summary := None |}]> ∅;
                 gaps := Some default_state |}).
Proof.
  destruct (finished_command_is_no_gap (fun _ => repeat 48 64) (fun _ => 300)
              ltac:(reflexivity) {| contexts := ∅; gaps := None |}
              (lit "0123456789abcdef0123456789abcdef") (lit "/p") None (Some (lit "s1"))
              AccountingChannel.Mcp None None 100 101 120 130) as (w1 & _ & H).
  - exact I.
  - reflexivity.
  - split; [constructor | reflexivity].
  - reflexivity.
  - apply Nat.ltb_lt. vm_compute. reflexivity.
  - discriminate.
  - discriminate.
  - split; [discriminate | reflexivity].
  - exists w1. exact H.
Defined.

End Contexts.
End Coverage.
