(* ===== verification/Lexer.v ===== *)
(** The shell lexer of fork-core ([fork-core/rtk/src/discover/lexer.rs]).

    The tokenizer's loop is [tok_loop] over [tok_step], one iteration per
    character of the input, with the iterator's remaining characters passed
    along; its fuel is the length of the input, which every iteration
    shortens.  Slices of the command answer [None] where the source would
    panic; that they never do is proved. *)

From S2P Require Import Prelude RStr.
From Stdlib Require Import ZifyBool ZifyN.

Module Lexer.

Inductive PipeKind := Stdout | StdoutAndStderr.

Inductive TokenKind := Arg | Operator | Pipe (k : PipeKind) | Redirect | Shellism.

#[export] Instance PipeKind_eq_dec : EqDecision PipeKind.
Proof. solve_decision. Defined.

#[export] Instance TokenKind_eq_dec : EqDecision TokenKind.
Proof. solve_decision. Defined.

Record ParsedToken := { kind : TokenKind; value : rstr; offset : nat }.

Definition token (k : TokenKind) (v : rstr) (o : nat) : ParsedToken :=
  {| kind := k; value := v; offset := o |}.

(** The end of a token in the source. *)
Definition tok_end (t : ParsedToken) : nat := (offset t + blen (value t))%nat.

(** ** The tokenizer *)

Record TokState := {
  tokens : list ParsedToken;
  current : rstr;
  current_start : nat;
  byte_pos : nat;
  quote : option char;
  escaped : bool;
}.

Definition flush_arg (tokens : list ParsedToken) (current : rstr) (offset : nat)
  : list ParsedToken :=
  match current with
  | [] => tokens
  | _ => tokens ++ [token Arg current offset]
  end.

(** After a special token: it is pushed, and the next word starts behind it. *)
Definition pushed (st : TokState) (flushed : list ParsedToken) (t : ParsedToken) : TokState :=
  {| tokens := flushed ++ [t]; current := []; current_start := tok_end t;
     byte_pos := tok_end t; quote := None; escaped := false |}.

Definition flushed (st : TokState) : list ParsedToken :=
  flush_arg (tokens st) (current st) (current_start st).

(** Takes the characters of a [while let Some(&nc) = chars.peek()] loop. *)
Fixpoint take_while (f : char -> bool) (s : rstr) : rstr * rstr :=
  match s with
  | [] => ([], [])
  | c :: s' => if f c then let '(a, b) := take_while f s' in (c :: a, b) else ([], s)
  end.

Definition is_name_start (c : char) : bool := is_ascii_alphabetic c || (c =? ch "_").
Definition is_name_char (c : char) : bool := is_ascii_alphanumeric c || (c =? ch "_").

Definition is_shellism (c : char) : bool :=
  existsb (N.eqb c) (lit "*?`(){}!").

Definition peek_is (c : char) (s : rstr) : bool :=
  match s with d :: _ => d =? c | [] => false end.

Definition step_dollar (st : TokState) (rest : rstr) : TokState * rstr :=
  let start := byte_pos st in
  match rest with
  | nc :: _ =>
      if is_name_start nc then
        let '(name, rest') := take_while is_name_char rest in
        (pushed st (flushed st) (token Arg (lit "$" ++ name) start), rest')
      else (pushed st (flushed st) (token Shellism (lit "$") start), rest)
  | [] => (pushed st (flushed st) (token Shellism (lit "$") start), rest)
  end.

Definition step_pipe (st : TokState) (rest : rstr) : TokState * rstr :=
  let start := byte_pos st in
  if peek_is (ch "|") rest then
    (pushed st (flushed st) (token Operator (lit "||") start), tail rest)
  else if peek_is (ch "&") rest then
    (pushed st (flushed st) (token (Pipe StdoutAndStderr) (lit "|&") start), tail rest)
  else (pushed st (flushed st) (token (Pipe Stdout) (lit "|") start), rest).

Definition step_amp (st : TokState) (rest : rstr) : TokState * rstr :=
  let start := byte_pos st in
  if peek_is (ch "&") rest then
    (pushed st (flushed st) (token Operator (lit "&&") start), tail rest)
  else if peek_is (ch ">") rest then
    let rest' := tail rest in
    if peek_is (ch ">") rest'
    then (pushed st (flushed st) (token Redirect (lit "&>>") start), tail rest')
    else (pushed st (flushed st) (token Redirect (lit "&>") start), rest')
  else (pushed st (flushed st) (token Shellism (lit "&") start), rest).

Definition is_fd_char (c : char) : bool := is_ascii_digit c || (c =? ch "-").

Definition step_greater (st : TokState) (rest : rstr) : TokState * rstr :=
  let fd_prefix := negb (is_empty (current st)) && forallb is_ascii_digit (current st) in
  let toks := if fd_prefix then tokens st else flushed st in
  let redir_start := if fd_prefix then current_start st else byte_pos st in
  let val := (if fd_prefix then current st else []) ++ lit ">" in
  let '(val, rest) := if peek_is (ch ">") rest then (val ++ lit ">", tail rest) else (val, rest) in
  let '(val, rest) :=
    if peek_is (ch "&") rest then
      let '(fd, rest') := take_while is_fd_char (tail rest) in (val ++ lit "&" ++ fd, rest')
    else (val, rest) in
  (pushed st toks (token Redirect val redir_start), rest).

Definition step_less (st : TokState) (rest : rstr) : TokState * rstr :=
  let start := byte_pos st in
  if peek_is (ch "<") rest
  then (pushed st (flushed st) (token Redirect (lit "<<") start), tail rest)
  else (pushed st (flushed st) (token Redirect (lit "<") start), rest).

(** Appends [c] to the current word. *)
Definition grow (st : TokState) (c : char) (q : option char) : TokState :=
  {| tokens := tokens st; current := current st ++ [c];
     current_start := if is_empty (current st) then byte_pos st else current_start st;
     byte_pos := (byte_pos st + len_utf8 c)%nat; quote := q; escaped := false |}.

Definition LF : char := 10.
Definition CR : char := 13.
Definition BACKSLASH : char := 92.
Definition SQUOTE : char := 39.
Definition DQUOTE : char := 34.

Definition tok_step (emit_newline : bool) (st : TokState) (c : char) (rest : rstr)
  : TokState * rstr :=
  if escaped st then
    ({| tokens := tokens st; current := current st ++ [BACKSLASH; c];
        current_start := current_start st; byte_pos := (byte_pos st + len_utf8 c)%nat;
        quote := quote st; escaped := false |}, rest)
  else if (c =? BACKSLASH) && negb (bool_decide (quote st = Some SQUOTE)) then
    ({| tokens := tokens st; current := current st;
        current_start := if is_empty (current st) then byte_pos st else current_start st;
        byte_pos := (byte_pos st + len_utf8 c)%nat; quote := quote st; escaped := true |}, rest)
  else match quote st with
  | Some q =>
      ({| tokens := tokens st; current := current st ++ [c];
          current_start := current_start st; byte_pos := (byte_pos st + len_utf8 c)%nat;
          quote := if c =? q then None else Some q; escaped := false |}, rest)
  | None =>
      if (c =? SQUOTE) || (c =? DQUOTE) then (grow st c (Some c), rest)
      else if c =? ch "$" then step_dollar st rest
      else if is_shellism c then
        (pushed st (flushed st) (token Shellism [c] (byte_pos st)), rest)
      else if c =? ch "|" then step_pipe st rest
      else if c =? ch ";" then
        (pushed st (flushed st) (token Operator (lit ";") (byte_pos st)), rest)
      else if c =? ch "&" then step_amp st rest
      else if c =? ch ">" then step_greater st rest
      else if c =? ch "<" then step_less st rest
      else if emit_newline && ((c =? LF) || ((c =? CR) && peek_is LF rest)) then
        (pushed st (flushed st) (token Operator [LF] (byte_pos st)), rest)
      else if is_whitespace c then
        ({| tokens := flushed st; current := [];
            current_start := (byte_pos st + len_utf8 c)%nat;
            byte_pos := (byte_pos st + len_utf8 c)%nat; quote := None; escaped := false |}, rest)
      else (grow st c None, rest)
  end.

Fixpoint tok_loop (emit_newline : bool) (fuel : nat) (st : TokState) (input : rstr)
  : TokState * rstr :=
  match fuel, input with
  | S fuel, c :: rest =>
      let '(st', rest') := tok_step emit_newline st c rest in
      tok_loop emit_newline fuel st' rest'
  | _, _ => (st, input)
  end.

Definition tok_init : TokState :=
  {| tokens := []; current := []; current_start := 0; byte_pos := 0;
     quote := None; escaped := false |}.

Definition tok_finish (st : TokState) : list ParsedToken :=
  let current := if escaped st then current st ++ [BACKSLASH] else current st in
  flush_arg (tokens st) current (current_start st).

Definition tokenize_inner (input : rstr) (emit_newline : bool) : list ParsedToken :=
  tok_finish (tok_loop emit_newline (length input) tok_init input).1.

Definition tokenize (input : rstr) : list ParsedToken := tokenize_inner input false.
Definition tokenize_with_newlines (input : rstr) : list ParsedToken := tokenize_inner input true.

(** ** What the tokens say about the command *)

(** The shell's quoting, one character at a time: the open quote, and whether
    the next character is escaped. *)
Definition scan_step (q : option char * bool) (c : char) : option char * bool :=
  let '(quote, escaped) := q in
  if escaped then (quote, false)
  else if (c =? BACKSLASH) && negb (bool_decide (quote = Some SQUOTE)) then (quote, true)
  else match quote with
       | Some d => (if c =? d then None else Some d, false)
       | None => (if (c =? SQUOTE) || (c =? DQUOTE) then Some c else None, false)
       end.

Definition bare : option char * bool := (None, false).

Definition scan (s : rstr) : option char * bool := fold_left scan_step s bare.

(** The characters that end a word when they are neither quoted nor escaped. *)
Definition is_break (c : char) : bool :=
  existsb (N.eqb c) (lit "$*?`(){}!|;&><") || is_whitespace c.

(** A word: none of its bare characters ends a word. *)
Definition word_text (w : rstr) : Prop :=
  forall a c b, w = a ++ c :: b -> scan a = bare -> is_break c = false.

Definition redirect_text (s : rstr) : Prop :=
  s ∈ [lit "<"; lit "<<"; lit "&>"; lit "&>>"] \/
  exists fd (two : bool) tl,
    s = fd ++ lit ">" ++ (if two then lit ">" else []) ++ tl /\
    forallb is_ascii_digit fd = true /\
    (tl = [] \/ exists d, tl = lit "&" ++ d /\ forallb is_fd_char d = true).

(** [src] is the text a token of this kind and value stands for.  Only the
    first half of a CRLF pair, reported as a newline operator, is not written
    in the source as the token's value. *)
Definition tok_text (src : rstr) (t : ParsedToken) : Prop :=
  match kind t with
  | Arg => src = value t /\
      (word_text src \/ exists name, src = lit "$" ++ name /\ forallb is_name_char name = true)
  | Operator => (src = value t /\ src ∈ [lit "&&"; lit "||"; lit ";"; [LF]]) \/
      (src = [CR] /\ value t = [LF])
  | Pipe Stdout => src = value t /\ src = lit "|"
  | Pipe StdoutAndStderr => src = value t /\ src = lit "|&"
  | Redirect => src = value t /\ redirect_text src
  | Shellism => src = value t /\ exists c, src = [c] /\ c ∈ lit "$*?`(){}!&"
  end.

(** [laid nl ts s]: [s] is the texts of [ts], in order, each starting outside
    quotes, with bare white space between them (no line feed when newlines are
    tokens). *)
Inductive laid (nl : bool) : list ParsedToken -> rstr -> Prop :=
| laid_nil : laid nl [] []
| laid_token ts s t src :
    laid nl ts s -> scan s = bare -> offset t = blen s -> src <> [] ->
    tok_text src t -> laid nl (ts ++ [t]) (s ++ src)
| laid_gap ts s c :
    laid nl ts s -> scan s = bare -> is_whitespace c = true -> nl && (c =? LF) = false ->
    laid nl ts (s ++ [c]).

(** The source text of the word being read. *)
Definition pending (st : TokState) : rstr :=
  current st ++ (if escaped st then [BACKSLASH] else []).

(** The loop invariant: what has been read is laid out by the tokens pushed so
    far, followed by the pending word. *)
Definition tok_inv (nl : bool) (read : rstr) (st : TokState) : Prop :=
  exists base, laid nl (tokens st) base /\ read = base ++ pending st /\
    scan base = bare /\ scan (pending st) = (quote st, escaped st) /\
    word_text (pending st) /\ byte_pos st = blen read /\
    (pending st <> [] -> current_start st = blen base).

(** A character that changes nothing about quoting. *)
Definition inert (c : char) : bool :=
  negb ((c =? BACKSLASH) || (c =? SQUOTE) || (c =? DQUOTE)).

Lemma fold_scan s t q : fold_left scan_step (s ++ t) q = fold_left scan_step t (fold_left scan_step s q).
Proof. apply fold_left_app. Qed.

Lemma scan_app s t : scan s = bare -> scan (s ++ t) = scan t.
Proof. intros H. unfold scan in *. by rewrite fold_scan, H. Qed.

Lemma scan_snoc s c : scan (s ++ [c]) = scan_step (scan s) c.
Proof. unfold scan. by rewrite fold_scan. Qed.

Lemma inert_step c : inert c = true -> scan_step bare c = bare.
Proof.
  unfold inert, scan_step, bare. intros H. apply negb_true_iff in H. bool_prop.
  destruct (N.eqb_spec c BACKSLASH), (N.eqb_spec c SQUOTE), (N.eqb_spec c DQUOTE); done.
Qed.

Lemma scan_inert s : forallb inert s = true -> scan s = bare.
Proof.
  unfold scan. induction s as [|c s IH]; cbn [fold_left forallb]; [done|]. intros H.
  apply andb_true_iff in H as [H1 H2]. rewrite inert_step by done. auto.
Qed.

Lemma forallb_imp {A} (f g : A -> bool) l :
  (forall x, f x = true -> g x = true) -> forallb f l = true -> forallb g l = true.
Proof.
  intros H. rewrite !List.forallb_forall. auto.
Qed.

Lemma range_inert c :
  is_ascii_alphabetic c || is_ascii_digit c || (c =? ch "_") || (c =? ch "-") = true -> inert c = true.
Proof.
  unfold is_ascii_alphabetic, is_ascii_digit, is_ascii_uppercase, is_ascii_lowercase, between,
    inert, BACKSLASH, SQUOTE, DQUOTE.
  change (ch "_") with 95. change (ch "-") with 45. lia.
Qed.

Lemma name_inert c : is_name_char c = true -> inert c = true.
Proof.
  intros H. apply range_inert. unfold is_name_char, is_ascii_alphanumeric in H. by rewrite H.
Qed.

Lemma fd_inert c : is_fd_char c = true -> inert c = true.
Proof.
  intros H. apply range_inert. unfold is_fd_char in H. bool_prop.
  destruct H as [-> | ->]; by rewrite ?orb_true_r.
Qed.

Lemma digit_inert c : is_ascii_digit c = true -> inert c = true.
Proof. intros H. apply fd_inert. unfold is_fd_char. by rewrite H. Qed.

Lemma tok_text_blen src t : tok_text src t -> blen src = blen (value t).
Proof.
  unfold tok_text. repeat case_match; try by intros [-> _].
  intros [ [-> _] | [-> ->] ]; done.
Qed.

Lemma word_text_nil : word_text [].
Proof. intros [|? a] c b; discriminate. Qed.

Lemma word_text_snoc w c :
  word_text w -> (scan w = bare -> is_break c = false) -> word_text (w ++ [c]).
Proof.
  intros Hw Hc a d b E Ha. destruct b as [|d' b' _] using rev_ind.
  - apply app_inj_tail in E as [-> ->]. auto.
  - rewrite app_comm_cons, app_assoc in E. apply app_inj_tail in E as [-> _]. by eapply Hw.
Qed.

Lemma word_arg_text w o : word_text w -> tok_text w (token Arg w o).
Proof. intros H. split; [done|]. by left. Qed.

Lemma flush_laid nl ts base w :
  laid nl ts base -> scan base = bare -> word_text w ->
  laid nl (flush_arg ts w (blen base)) (base ++ w).
Proof.
  intros H Hs Hw. destruct w as [|c w]; simpl; [by rewrite app_nil_r|].
  apply laid_token; [done.. |]. by apply word_arg_text.
Qed.

(** Flushing the pending word, outside quotes. *)
Lemma flushed_laid nl read st :
  tok_inv nl read st -> quote st = None -> escaped st = false ->
  laid nl (flushed st) read /\ scan read = bare.
Proof.
  intros (base & Hl & -> & Hb & Hp & Hw & _ & Hs) Hq He.
  rewrite Hq, He in Hp. split; [|by rewrite scan_app].
  unfold pending in *. rewrite He, app_nil_r in *. unfold flushed.
  destruct (current st) as [|c cur] eqn:E; simpl; [by rewrite app_nil_r|].
  rewrite Hs by done. apply laid_token; [done.. |]. by apply word_arg_text.
Qed.

(** The state after the tokens [ts] lay out everything that was read. *)
Lemma bare_inv nl ts read start :
  laid nl ts read -> scan read = bare ->
  tok_inv nl read {| tokens := ts; current := []; current_start := start;
                     byte_pos := blen read; quote := None; escaped := false |}.
Proof.
  intros Hl Hs. exists read. unfold pending; simpl. rewrite app_nil_r.
  split_and!; try done. apply word_text_nil.
Qed.

Lemma take_while_app f s a b : take_while f s = (a, b) -> s = a ++ b /\ forallb f a = true.
Proof.
  revert a b. induction s as [|c s IH]; intros a b; simpl; [by intros [= <- <-]|].
  destruct (f c) eqn:Ec; [|by intros [= <- <-]].
  destruct (take_while f s) as [a' b']. intros [= <- <-]. simpl.
  destruct (IH _ _ eq_refl) as [-> ->]. by rewrite Ec.
Qed.

Lemma peek_is_true c s : peek_is c s = true -> exists s', s = c :: s'.
Proof. destruct s as [|d s]; simpl; [done|]. intros H. bool_prop. subst. eauto. Qed.

(** A step consumes [c] and a prefix of the rest. *)
Definition step_ok (nl : bool) (read : rstr) (c : char) (rest : rstr) (r : TokState * rstr) : Prop :=
  exists eaten, rest = eaten ++ r.2 /\ tok_inv nl (read ++ c :: eaten) r.1.

Section Steps.
Context (nl : bool) (read : rstr) (st : TokState).
Hypothesis Hinv : tok_inv nl read st.
Hypothesis Hesc : escaped st = false.
Hypothesis Hquo : quote st = None.

(** Pushing a special token whose text is [c :: eaten]. *)
Lemma push_ok k v eaten c rest :
  tok_text (c :: eaten) (token k v (byte_pos st)) -> forallb inert (c :: eaten) = true ->
  step_ok nl read c (eaten ++ rest) (pushed st (flushed st) (token k v (byte_pos st)), rest).
Proof.
  intros Ht Hi. exists eaten. split; [done|].
  destruct (flushed_laid _ _ _ Hinv Hquo Hesc) as [Hl Hs].
  assert (byte_pos st = blen read) as Hb by by destruct Hinv as (? & ? & ? & ? & ? & ? & ? & ?).
  assert (tok_end (token k v (byte_pos st)) = blen (read ++ c :: eaten)) as He.
  { unfold tok_end; simpl. rewrite blen_app, Hb. f_equal. symmetry. apply (tok_text_blen _ _ Ht). }
  unfold pushed; simpl. rewrite He. apply bare_inv.
  - by apply laid_token.
  - rewrite scan_app by done. by apply scan_inert.
Qed.

Lemma step_dollar_ok rest : step_ok nl read (ch "$") rest (step_dollar st rest).
Proof.
  unfold step_dollar.
  assert (step_ok nl read (ch "$") rest
    (pushed st (flushed st) (token Shellism (lit "$") (byte_pos st)), rest)) as Hbare.
  { apply (push_ok _ _ []); [split; [done|] | done]. exists (ch "$"). split; [done|]. by left. }
  destruct rest as [|nc rest]; [done|]. destruct (is_name_start nc); [|done].
  destruct (take_while is_name_char (nc :: rest)) as [name rest'] eqn:E.
  apply take_while_app in E as [-> Hn]. apply push_ok.
  - split; [done|]. right. by exists name.
  - change (forallb inert name = true). eapply forallb_imp; [apply name_inert | done].
Qed.

Lemma step_pipe_ok rest : step_ok nl read (ch "|") rest (step_pipe st rest).
Proof.
  unfold step_pipe. destruct (peek_is (ch "|") rest) eqn:E1.
  { apply peek_is_true in E1 as [r ->]. apply (push_ok _ _ [ch "|"]); [|done].
    left. split; [done | set_solver]. }
  destruct (peek_is (ch "&") rest) eqn:E2; [|by apply (push_ok _ _ [])].
  apply peek_is_true in E2 as [r ->]. by apply (push_ok _ _ [ch "&"]).
Qed.

Lemma step_amp_ok rest : step_ok nl read (ch "&") rest (step_amp st rest).
Proof.
  unfold step_amp. destruct (peek_is (ch "&") rest) eqn:E1.
  { apply peek_is_true in E1 as [r ->]. apply (push_ok _ _ [ch "&"]); [|done].
    left. split; [done | set_solver]. }
  destruct (peek_is (ch ">") rest) eqn:E2.
  - apply peek_is_true in E2 as [r ->]. simpl tail. destruct (peek_is (ch ">") r) eqn:E3.
    + apply peek_is_true in E3 as [r' ->]. apply (push_ok _ _ [ch ">"; ch ">"]); [|done].
      split; [done|]. left. set_solver.
    + apply (push_ok _ _ [ch ">"]); [|done]. split; [done|]. left. set_solver.
  - apply (push_ok _ _ []); [|done]. split; [done|]. exists (ch "&"). split; [done | set_solver].
Qed.

Lemma step_less_ok rest : step_ok nl read (ch "<") rest (step_less st rest).
Proof.
  unfold step_less. destruct (peek_is (ch "<") rest) eqn:E.
  - apply peek_is_true in E as [r ->]. apply (push_ok _ _ [ch "<"]); [|done].
    split; [done|]. left. set_solver.
  - apply (push_ok _ _ []); [|done]. split; [done|]. left. set_solver.
Qed.

(** The tail of a redirection after its first [>]. *)
Lemma greater_tail rest (val : rstr) :
  let '(v1, r1) := if peek_is (ch ">") rest then (val ++ lit ">", tail rest) else (val, rest) in
  let '(v2, r2) :=
    if peek_is (ch "&") r1 then
      let '(fd, rest') := take_while is_fd_char (tail r1) in (v1 ++ lit "&" ++ fd, rest')
    else (v1, r1) in
  exists (two : bool) tl, rest = ((if two then lit ">" else []) ++ tl) ++ r2 /\
    v2 = val ++ (if two then lit ">" else []) ++ tl /\
    (tl = [] \/ exists d, tl = lit "&" ++ d /\ forallb is_fd_char d = true).
Proof.
  assert (forall v1 r1, let '(v2, r2) := if peek_is (ch "&") r1 then
      let '(fd, rest') := take_while is_fd_char (tail r1) in (v1 ++ lit "&" ++ fd, rest')
      else (v1, r1) in
    exists tl, r1 = tl ++ r2 /\ v2 = v1 ++ tl /\
    (tl = [] \/ exists d, tl = lit "&" ++ d /\ forallb is_fd_char d = true)) as Hamp.
  { intros v1 r1. destruct (peek_is (ch "&") r1) eqn:E.
    - apply peek_is_true in E as [r ->]. simpl tail.
      destruct (take_while is_fd_char r) as [fd r'] eqn:E. apply take_while_app in E as [-> Hf].
      exists (lit "&" ++ fd). split_and!; [done.. |]. eauto.
    - exists []. rewrite app_nil_r. auto. }
  destruct (peek_is (ch ">") rest) eqn:E.
  - apply peek_is_true in E as [r ->]. specialize (Hamp (val ++ lit ">") r). simpl tail.
    destruct (if peek_is (ch "&") r then _ else _) as [v2 r2].
    destruct Hamp as (tl & -> & -> & Ht). exists true, tl.
    split_and!; [done | by rewrite <- (app_assoc val) | done].
  - specialize (Hamp val rest). destruct (if peek_is (ch "&") rest then _ else _) as [v2 r2].
    destruct Hamp as (tl & -> & -> & Ht). by exists false, tl.
Qed.

Lemma redirect_inert fd (two : bool) tl :
  forallb is_ascii_digit fd = true ->
  (tl = [] \/ exists d, tl = lit "&" ++ d /\ forallb is_fd_char d = true) ->
  forallb inert (fd ++ lit ">" ++ (if two then lit ">" else []) ++ tl) = true.
Proof.
  intros Hf Ht. rewrite !forallb_app. apply andb_true_iff. split.
  { eapply forallb_imp; [apply digit_inert | done]. }
  apply andb_true_iff. split; [done|]. apply andb_true_iff. split; [by destruct two|].
  destruct Ht as [->|(d & -> & Hd)]; [done|].
  change (forallb inert d = true). eapply forallb_imp; [apply fd_inert | done].
Qed.

Lemma step_greater_ok rest : step_ok nl read (ch ">") rest (step_greater st rest).
Proof.
  unfold step_greater. set (fd := negb _ && _).
  pose proof (greater_tail rest ((if fd then current st else []) ++ lit ">")) as Ht.
  destruct (if peek_is (ch ">") rest then _ else _) as [v1 r1].
  destruct (if peek_is (ch "&") r1 then _ else _) as [v2 r2].
  destruct Ht as (two & tl & -> & -> & Htl). destruct fd eqn:Efd; cycle 1.
  { apply push_ok; [split; [done|] | by apply (redirect_inert [] two tl)].
    right. by exists [], two, tl. }
  exists ((if two then lit ">" else []) ++ tl). split; [done|]. simpl fst.
  apply andb_true_iff in Efd as [Hne Hdig]. apply negb_true_iff in Hne.
  destruct Hinv as (base & Hl & Hr & Hsb & Hsp & Hw & Hb & Hs).
  unfold pending in *. rewrite Hesc, app_nil_r in *.
  assert (current st <> []) as Hne' by (intros E; rewrite E in Hne; discriminate).
  rewrite Hs by done. rewrite Hr, <- !app_assoc.
  set (src := current st ++ ch ">" :: _).
  change ((lit ">" ++ (if two then lit ">" else []) ++ tl)) with (ch ">" :: (if two then lit ">" else []) ++ tl).
  fold src. unfold pushed. assert (tok_end (token Redirect src (blen base)) = blen (base ++ src)) as ->.
  { unfold tok_end; simpl. by rewrite blen_app. }
  apply bare_inv.
  - apply laid_token; [done..| |]; [|split; [done|]; right; by exists (current st), two, tl].
    unfold src. by destruct (current st).
  - rewrite scan_app by done. apply scan_inert. by apply redirect_inert.
Qed.

Lemma space_ok c rest :
  is_whitespace c = true -> nl && (c =? LF) = false ->
  step_ok nl read c rest
    ({| tokens := flushed st; current := []; current_start := (byte_pos st + len_utf8 c)%nat;
        byte_pos := (byte_pos st + len_utf8 c)%nat; quote := None; escaped := false |}, rest).
Proof.
  intros Hc Hn. exists []. split; [done|].
  destruct (flushed_laid _ _ _ Hinv Hquo Hesc) as [Hl Hs].
  assert (byte_pos st = blen read) as -> by by destruct Hinv as (? & ? & ? & ? & ? & ? & ? & ?).
  simpl fst. replace (blen read + len_utf8 c)%nat with (blen (read ++ [c])) by (rewrite blen_app; simpl; lia).
  apply bare_inv; [by apply laid_gap|]. rewrite scan_snoc, Hs. apply inert_step.
  revert Hc. unfold is_whitespace, between, inert, BACKSLASH, SQUOTE, DQUOTE. lia.
Qed.
End Steps.

(** Adding a character to the pending word, in and out of quotes. *)
Lemma word_inv nl read st st' src c :
  tok_inv nl read st -> tokens st' = tokens st -> src = [c] ->
  pending st' = pending st ++ src ->
  scan_step (quote st, escaped st) c = (quote st', escaped st') ->
  (pending st = [] -> current_start st' = byte_pos st) ->
  (pending st <> [] -> current_start st' = current_start st) ->
  (scan (pending st) = bare -> is_break c = false) ->
  byte_pos st' = (byte_pos st + len_utf8 c)%nat ->
  tok_inv nl (read ++ [c]) st'.
Proof.
  intros (base & Hl & -> & Hsb & Hsp & Hw & Hb & Hs) Ht -> Hp Hstep Hnew Hold Hbr Hpos.
  exists base. rewrite Ht, Hp, <- app_assoc, scan_snoc, Hsp, Hpos, Hb.
  split_and!; try done.
  - by apply word_text_snoc.
  - rewrite !blen_app. simpl. lia.
  - intros _. destruct (decide (pending st = [])) as [E|E].
    + rewrite Hnew, Hb, E, app_nil_r by done. done.
    + rewrite Hold by done. auto.
Qed.

(** A character that is escaped, the backslash itself, and one inside quotes. *)
Lemma escaped_step_ok nl read st c rest :
  tok_inv nl read st -> escaped st = true -> step_ok nl read c rest (tok_step nl st c rest).
Proof.
  intros Hinv Hesc. unfold tok_step. rewrite Hesc. exists []. split; [done|].
  eapply word_inv; try done; unfold pending, scan_step; simpl; rewrite ?Hesc.
  - by rewrite app_nil_r, <- app_assoc.
  - done.
  - by destruct (current st).
  - destruct Hinv as (? & _ & _ & _ & Hsp & _). unfold pending in Hsp.
    rewrite Hesc in Hsp. by rewrite Hsp.
Qed.

Lemma backslash_step_ok nl read st c rest :
  tok_inv nl read st -> escaped st = false ->
  (c =? BACKSLASH) && negb (bool_decide (quote st = Some SQUOTE)) = true ->
  step_ok nl read c rest (tok_step nl st c rest).
Proof.
  intros Hinv Hesc Ebs. unfold tok_step. rewrite Hesc, Ebs. exists []. split; [done|].
  pose proof Ebs as Ec. apply andb_true_iff in Ec as [Ec _]. apply N.eqb_eq in Ec. subst c.
  eapply word_inv; try done; unfold pending, scan_step; simpl; rewrite ?Hesc, ?app_nil_r.
  - done.
  - simpl in Ebs. by rewrite Ebs.
  - by intros ->.
  - by destruct (current st).
Qed.

Lemma quoted_step_ok nl read st c rest q :
  tok_inv nl read st -> escaped st = false ->
  (c =? BACKSLASH) && negb (bool_decide (quote st = Some SQUOTE)) = false -> quote st = Some q ->
  step_ok nl read c rest (tok_step nl st c rest).
Proof.
  intros Hinv Hesc Ebs Eq. unfold tok_step. rewrite Hesc, Ebs, Eq. rewrite Eq in Ebs.
  assert (current st <> []) as Hne.
  { destruct Hinv as (? & _ & _ & _ & Hsp & _). unfold pending in Hsp.
    rewrite Hesc, Eq, app_nil_r in Hsp. by intros E; rewrite E in Hsp. }
  exists []. split; [done|]. eapply word_inv; try done; unfold pending, scan_step; simpl;
    rewrite ?Hesc, ?Eq, ?app_nil_r; try done.
  - by rewrite Ebs.
  - destruct Hinv as (? & _ & _ & _ & Hsp & _). unfold pending in Hsp.
    rewrite Hesc, Eq, app_nil_r in Hsp. by rewrite Hsp.
Qed.

Lemma tok_step_ok nl read st c rest :
  tok_inv nl read st -> step_ok nl read c rest (tok_step nl st c rest).
Proof.
  intros Hinv. unfold tok_step. destruct (escaped st) eqn:Hesc.
  { pose proof (escaped_step_ok nl read st c rest Hinv Hesc) as H. unfold tok_step in H. by rewrite Hesc in H. }
  destruct ((c =? BACKSLASH) && _) eqn:Ebs.
  { pose proof (backslash_step_ok nl read st c rest Hinv Hesc Ebs) as H. unfold tok_step in H. by rewrite Hesc, Ebs in H. }
  destruct (quote st) as [q|] eqn:Eq.
  { rewrite <- Eq in Ebs. pose proof (quoted_step_ok nl read st c rest q Hinv Hesc Ebs Eq) as H. unfold tok_step in H.
    by rewrite Hesc, Ebs, Eq in H. }
  assert (forall (d : option char), scan_step bare c = (d, false) -> is_break c = false ->
    step_ok nl read c rest (grow st c d, rest)) as Hgrow.
  { intros d Hd Hb. exists []. split; [done|]. eapply word_inv; try done; unfold pending; simpl;
      rewrite ?Hesc, ?Eq, ?app_nil_r; try done.
    - by intros ->.
    - by destruct (current st). }
  assert (forall k, tok_text [c] (token k [c] (byte_pos st)) -> inert c = true ->
    step_ok nl read c rest (pushed st (flushed st) (token k [c] (byte_pos st)), rest)) as Hone.
  { intros k Ht Hi. apply (push_ok _ _ _ Hinv Hesc Eq k [c] [] c rest); [done|]. simpl. by rewrite Hi. }
  destruct ((c =? SQUOTE) || (c =? DQUOTE)) eqn:E0.
  { apply Hgrow; [cbv beta iota zeta delta [scan_step bare]; by rewrite Ebs, E0|]. bool_prop. by destruct E0; bool_prop; subst. }
  destruct (N.eqb_spec c (ch "$")) as [->|Hd]; [by apply step_dollar_ok|].
  destruct (is_shellism c) eqn:Es.
  { unfold is_shellism in Es. apply existsb_exists in Es as (d & Hin & Hd'). apply N.eqb_eq in Hd'.
    subst d. apply Hone.
    - split; [done|]. exists c. split; [done|]. apply list_elem_of_In. simpl in *. tauto.
    - simpl in Hin. repeat destruct Hin as [<-|Hin]; done. }
  destruct (N.eqb_spec c (ch "|")) as [->|Hp]; [by apply step_pipe_ok|].
  destruct (N.eqb_spec c (ch ";")) as [->|Hsc].
  { apply Hone; [|done]. left. split; [done|]. set_solver. }
  destruct (N.eqb_spec c (ch "&")) as [->|Ha]; [by apply step_amp_ok|].
  destruct (N.eqb_spec c (ch ">")) as [->|Hg]; [by apply step_greater_ok|].
  destruct (N.eqb_spec c (ch "<")) as [->|Hl]; [by apply step_less_ok|].
  destruct (nl && _) eqn:En.
  { apply andb_true_iff in En as [-> En]. bool_prop. destruct En as [En|En]; bool_prop; subst c.
    - apply Hone; [|done]. left. split; [done|]. set_solver.
    - apply (push_ok _ _ _ Hinv Hesc Eq Operator [LF] [] CR rest); [|done]. by right. }
  destruct (is_whitespace c) eqn:Ew.
  { apply space_ok; try done. destruct nl; [|done]. simpl in *.
    by apply orb_false_iff in En as [-> _]. }
  apply Hgrow; [cbv beta iota zeta delta [scan_step bare]; by rewrite Ebs, E0|].
  unfold is_break, is_shellism in *. rewrite Ew, orb_false_r.
  clear - Es Hd Hp Hsc Ha Hg Hl. unfold ch, lit in *. simpl in *. lia.
Qed.

(** The loop reads the whole input: its length is enough fuel. *)
Lemma tok_loop_ok nl fuel read st input :
  (length input <= fuel)%nat -> tok_inv nl read st ->
  (tok_loop nl fuel st input).2 = [] /\ tok_inv nl (read ++ input) (tok_loop nl fuel st input).1.
Proof.
  revert read st input. induction fuel as [|fuel IH]; intros read st input Hf Hi.
  { destruct input; simpl in *; [|lia]. by rewrite app_nil_r. }
  destruct input as [|c rest]; simpl; [by rewrite app_nil_r|].
  pose proof (tok_step_ok nl read st c rest Hi) as (eaten & Hrest & Hi').
  destruct (tok_step nl st c rest) as [st' rest']. simpl in *. subst rest.
  rewrite length_app in Hf.
  replace (read ++ c :: eaten ++ rest') with ((read ++ c :: eaten) ++ rest')
    by (rewrite <- app_assoc; reflexivity).
  apply IH; [lia | done].
Qed.

Lemma tok_init_inv nl : tok_inv nl [] tok_init.
Proof.
  exists []. split_and!; try done; [by constructor | apply word_text_nil].
Qed.

Lemma tokenize_inner_laid input nl : laid nl (tokenize_inner input nl) input.
Proof.
  unfold tokenize_inner.
  destruct (tok_loop_ok nl (length input) [] tok_init input) as [_ Hi]; [done | apply tok_init_inv | ].
  destruct (tok_loop nl _ _ _).1 as [ts cur start pos q e].
  destruct Hi as (base & Hl & Hr & Hsb & _ & Hw & _ & Hs). simpl in *.
  unfold tok_finish, pending in *; simpl in *.
  replace (if e then cur ++ [BACKSLASH] else cur) with (cur ++ if e then [BACKSLASH] else [])
    by (destruct e; by rewrite ?app_nil_r).
  rewrite Hr. destruct (cur ++ _) as [|c w] eqn:E; simpl; [by rewrite app_nil_r|].
  rewrite Hs by done. apply laid_token; [done..|]. by apply word_arg_text.
Qed.

(** Whatever the command, the tokens are the command: in order, each at its
    offset and spelled as it is written (a CRLF pair's first half apart), each
    word free of separators outside quotes and escapes and each other token one
    of the shell's, all starting outside quotes, with nothing but white space
    between them.  In particular the loop reads the whole command. *)
Theorem tokens_lay_out_the_command input emit_newline :
  laid emit_newline (tokenize_inner input emit_newline) input.
Proof. apply tokenize_inner_laid. Qed.
End Lexer.
