(* ===== verification/Segments.v ===== *)
(** What fork-core reads off the tokens of a command
    ([fork-core/rtk/src/discover/lexer.rs], behind the tokenizer): shell words,
    quoted [sh -c] wrappers, the constructs the permission gate cannot
    decompose, and the splits into segments.

    A slice of the command that would panic is [None], so every operation that
    slices answers an [option]; the theorems say exactly when it is [None]. *)

From S2P Require Import Prelude RStr Lexer.
From Stdlib Require Import ZifyBool ZifyN.

Module Segments.
Import Lexer.

(** ** Words *)

Definition range := (nat * nat)%type.

(** One iteration of the loop of [shell_word_spans]; the spans are kept last
    first, so that [spans.last_mut()] is the head. *)
Definition span_step (acc : list range * option nat) (token : ParsedToken)
  : list range * option nat :=
  let '(spans, previous_end) := acc in
  match kind token with
  | Arg | Shellism =>
      let fin := tok_end token in
      match spans with
      | (start, _) :: spans' =>
          if bool_decide (previous_end = Some (offset token))
          then ((start, fin) :: spans', Some fin)
          else ((offset token, fin) :: spans, Some fin)
      | [] => ([(offset token, fin)], Some fin)
      end
  | _ => (spans, None)
  end.

Definition shell_word_spans (input : rstr) : list range :=
  reverse (fold_left span_step (tokenize input) ([], None)).1.

Definition is_quote (c : char) : bool := (c =? SQUOTE) || (c =? DQUOTE).

(** [None] is the panic of slicing a lone quote as [value[1..0]]. *)
Definition unquote_word (value : rstr) : option (option rstr) :=
  match head value, last value with
  | Some first, Some lst =>
      if is_quote first && (first =? lst)
      then Some <$> slice 1 (blen value - 1) value
      else if is_quote first || is_quote lst then Some None
      else Some (Some value)
  | _, _ => Some (Some value)
  end.

Definition shell_names : list rstr :=
  [lit "sh"; lit "bash"; lit "dash"; lit "ksh"; lit "zsh"].

(** [s.rsplit(c).next()]. *)
Definition rsplit_next (c : char) (s : rstr) : rstr :=
  default [] (last (split_char (N.eqb c) s)).

Definition is_shell_program (value : rstr) : option bool :=
  unquoted ← unquote_word value;
  Some (match unquoted with
        | Some value => bool_decide (rsplit_next (ch "/") value ∈ shell_names)
        | None => false
        end).

(** The loop of [quotes_balanced] over the bytes of the command. *)
Fixpoint balance (bytes : list N) (single double escaped : bool) : bool :=
  match bytes with
  | [] => negb single && negb double && negb escaped
  | byte :: bytes =>
      if escaped then balance bytes single double false
      else if (byte =? BACKSLASH) && negb single then balance bytes single double true
      else if (byte =? SQUOTE) && negb double then balance bytes (negb single) double false
      else if (byte =? DQUOTE) && negb single then balance bytes single (negb double) false
      else balance bytes single double false
  end.

Definition quotes_balanced (input : rstr) : bool := balance (utf8 input) false false false.

(** ** [sh -c] wrappers *)

Record ShellCommandPayload := {
  command : rstr;
  payload_range : range;
  payload_quote : option char;
}.

Inductive ShellWrapperParse :=
| NotWrapper
| Parsed (payload : ShellCommandPayload)
| Ambiguous.

(** A short option with a [c] among its letters. *)
Definition has_command_flag (word : rstr) : bool :=
  starts_with (lit "-") word && negb (starts_with (lit "--") word)
  && contains_char (ch "c") (tail word).

(** [tokens.iter().any(..)] over the words behind a script's name. *)
Fixpoint later_command_flag (tokens : list ParsedToken) : option bool :=
  match tokens with
  | [] => Some false
  | later :: tokens =>
      unquoted ← unquote_word (value later);
      match unquoted with
      | Some word => if has_command_flag word then Some true else later_command_flag tokens
      | None => later_command_flag tokens
      end
  end.

(** How the option loop ends: at the command flag, with the words behind it, or
    with the answer of the whole function. *)
Inductive flag_scan := FlagBefore (rest : list ParsedToken) | Answer (r : ShellWrapperParse).

Definition valued_options : list rstr :=
  [lit "-O"; lit "+O"; lit "--rcfile"; lit "--init-file"].

Fixpoint find_command_flag (tokens : list ParsedToken) : option flag_scan :=
  match tokens with
  | [] => Some (Answer NotWrapper)
  | token :: rest =>
      unquoted ← unquote_word (value token);
      match unquoted with
      | None => Some (Answer Ambiguous)
      | Some value =>
          if has_command_flag value then Some (FlagBefore rest)
          else if bool_decide (value ∈ valued_options) then
            match rest with
            | [] => Some (Answer Ambiguous)
            | _ :: rest => find_command_flag rest
            end
          else if negb (starts_with (lit "-") value || starts_with (lit "+") value)
                  || str_eqb value (lit "--") then
            later ← later_command_flag rest;
            Some (Answer (if (later : bool) then Ambiguous else NotWrapper))
          else find_command_flag rest
      end
  end.

Definition is_arg (t : ParsedToken) : bool := bool_decide (kind t = Arg).

(** The payload's own quotes: [None] is the panic of slicing a lone quote. *)
Definition read_payload (raw : rstr) (r : range) : option ShellWrapperParse :=
  match head raw, last raw with
  | Some first, Some lst =>
      if is_quote first && (first =? lst) then
        command ← slice (len_utf8 first) (blen raw - len_utf8 lst) raw;
        Some (Parsed {| command := command; payload_range := r; payload_quote := Some first |})
      else if is_quote first || is_quote lst then Some Ambiguous
      else Some (Parsed {| command := raw; payload_range := r; payload_quote := None |})
  | _, _ => Some (Parsed {| command := raw; payload_range := r; payload_quote := None |})
  end.

Definition parse_shell_command_wrapper (input : rstr) : option ShellWrapperParse :=
  match tokenize input with
  | [] => Some NotWrapper
  | program :: rest =>
      if negb (is_arg program) then Some NotWrapper
      else
        shell ← is_shell_program (value program);
        if negb (shell : bool) then Some NotWrapper
        else if negb (quotes_balanced input) || existsb (fun t => negb (is_arg t)) (program :: rest)
        then Some Ambiguous
        else
          scan ← find_command_flag rest;
          match scan with
          | Answer r => Some r
          | FlagBefore [] => Some Ambiguous
          | FlagBefore (payload :: _) =>
              raw ← slice (offset payload) (tok_end payload) input;
              read_payload raw (offset payload, tok_end payload)
          end
  end.

(** [ShellCommandPayload::replace_in]. *)
Definition replace_in (self : ShellCommandPayload) (invocation rewritten : rstr) : option rstr :=
  let replacement :=
    match payload_quote self with
    | Some q => q :: rewritten ++ [q]
    | None => SQUOTE :: replace [SQUOTE] [SQUOTE; BACKSLASH; SQUOTE; SQUOTE] rewritten ++ [SQUOTE]
    end in
  before ← slice_to (payload_range self).1 invocation;
  behind ← slice_from (payload_range self).2 invocation;
  Some (before ++ replacement ++ behind).

(** ** What the permission gate cannot decompose *)

(** The scan of [contains_substitution] over the bytes of the command. *)
Fixpoint substitution_in (bytes : list N) (in_single in_double : bool) : bool :=
  match bytes with
  | [] => false
  | b :: rest =>
      if (b =? BACKSLASH) && negb in_single then
        match rest with [] => false | _ :: rest => substitution_in rest in_single in_double end
      else if (b =? SQUOTE) && negb in_double then substitution_in rest (negb in_single) in_double
      else if (b =? DQUOTE) && negb in_single then substitution_in rest in_single (negb in_double)
      else if (b =? ch "`") && negb in_single then true
      else if (b =? ch "$") && negb in_single && peek_is (ch "(") rest then true
      else if ((b =? ch "<") || (b =? ch ">")) && negb in_single && negb in_double
              && peek_is (ch "(") rest then true
      else substitution_in rest in_single in_double
  end.

Definition contains_substitution (cmd : rstr) : bool := substitution_in (utf8 cmd) false false.

(** [redirect_has_file_target(tokens, i)], for the token and those behind it. *)
Definition redirect_has_file_target (tok : ParsedToken) (behind : list ParsedToken) : bool :=
  if starts_with (lit "<<") (trim_start_matches is_ascii_digit (value tok)) then true
  else if match split_once (lit ">&") (value tok) with
          | Some (_, tl) => negb (is_empty tl) && forallb is_fd_char tl
          | None => false
          end then false
  else match behind with
       | next :: _ =>
           if is_arg next then negb (str_eqb (value next) (lit "/dev/null")) else true
       | [] => true
       end.

Definition is_redirect (t : ParsedToken) : bool := bool_decide (kind t = Redirect).

(** [tokens.iter().enumerate().any(|(i, tok)| ..)]. *)
Fixpoint any_redirect (f : ParsedToken -> bool) (tokens : list ParsedToken) : bool :=
  match tokens with
  | [] => false
  | tok :: behind =>
      (is_redirect tok && redirect_has_file_target tok behind && f tok) || any_redirect f behind
  end.

Definition contains_unattestable_construct (cmd : rstr) : bool :=
  contains_substitution cmd || any_redirect (fun _ => true) (tokenize cmd).

Definition has_stdout_file_redirect (cmd : rstr) : bool :=
  any_redirect (fun t => starts_with (lit ">") (value t) || starts_with (lit "1>") (value t)
                         || starts_with (lit "&>") (value t)) (tokenize cmd).

(** ** Splitting a command into segments *)

Definition is_boundary (t : ParsedToken) : bool :=
  match kind t with
  | Operator | Pipe _ => true
  | Shellism => bool_decide (value t ∈ [lit "&"; lit "("; lit ")"])
  | _ => false
  end.

(** [results.push(segment)], unless the trimmed slice is empty. *)
Definition push_segment (results : list rstr) (slice : rstr) : list rstr :=
  let segment := trim slice in
  if is_empty segment then results else results ++ [segment].

Record SplitState := {
  results : list rstr;
  seg_start : nat;
  seg_end : option nat;
  seen_word : bool;
  skip_operand : bool;
}.

(** One iteration of the loop of [split_for_permissions]; [None] is a panic. *)
Definition split_step (trimmed : rstr) (s : SplitState) (tok : ParsedToken)
    (behind : list ParsedToken) : option SplitState :=
  if is_boundary tok then
    text ← slice (seg_start s) (default (offset tok) (seg_end s)) trimmed;
    Some {| results := push_segment (results s) text; seg_start := tok_end tok;
            seg_end := None; seen_word := false; skip_operand := false |}
  else if is_redirect tok && negb (seen_word s) && bool_decide (seg_end s = None) then
    Some {| results := results s; seg_start := tok_end tok; seg_end := seg_end s;
            seen_word := seen_word s;
            skip_operand := redirect_has_file_target tok behind
                            && match behind with next :: _ => is_arg next | [] => false end |}
  else if skip_operand s && is_arg tok then
    Some {| results := results s; seg_start := tok_end tok; seg_end := seg_end s;
            seen_word := seen_word s; skip_operand := false |}
  else if is_redirect tok && bool_decide (seg_end s = None) then
    Some {| results := results s; seg_start := seg_start s; seg_end := Some (offset tok);
            seen_word := seen_word s; skip_operand := skip_operand s |}
  else if bool_decide (seg_end s = None) && negb (is_redirect tok) then
    Some {| results := results s; seg_start := seg_start s; seg_end := seg_end s;
            seen_word := true; skip_operand := skip_operand s |}
  else Some s.

Fixpoint split_loop (trimmed : rstr) (s : SplitState) (tokens : list ParsedToken)
  : option SplitState :=
  match tokens with
  | [] => Some s
  | tok :: behind => s ← split_step trimmed s tok behind; split_loop trimmed s behind
  end.

Definition split_init : SplitState :=
  {| results := []; seg_start := 0; seg_end := None; seen_word := false; skip_operand := false |}.

Definition split_for_permissions (cmd : rstr) : option (list rstr) :=
  let trimmed := trim cmd in
  if is_empty trimmed then Some []
  else
    s ← split_loop trimmed split_init (tokenize_inner trimmed true);
    text ← slice (seg_start s) (default (blen trimmed) (seg_end s)) trimmed;
    Some (push_segment (results s) text).

(** The loop of [split_on_operators], with [results] and [seg_start]. *)
Fixpoint operators_loop (trimmed : rstr) (stop_at_pipe : bool) (results : list rstr)
    (seg_start : nat) (tokens : list ParsedToken) : option (list rstr) :=
  match tokens with
  | [] => text ← slice_from seg_start trimmed; Some (push_segment results text)
  | tok :: tokens =>
      match kind tok with
      | Operator =>
          text ← slice seg_start (offset tok) trimmed;
          operators_loop trimmed stop_at_pipe (push_segment results text) (tok_end tok) tokens
      | Pipe _ =>
          text ← slice seg_start (offset tok) trimmed;
          let results := push_segment results text in
          if stop_at_pipe then Some results
          else operators_loop trimmed stop_at_pipe results (tok_end tok) tokens
      | _ => operators_loop trimmed stop_at_pipe results seg_start tokens
      end
  end.

Definition split_on_operators (cmd : rstr) (stop_at_pipe : bool) : option (list rstr) :=
  let trimmed := trim cmd in
  if is_empty trimmed then Some []
  else operators_loop trimmed stop_at_pipe [] 0 (tokenize trimmed).


(** ** The tokens, front to back *)

(** [ahead nl n ts s]: from byte [n] on, the text [s] is laid out by [ts].  Only
    the last word may leave a quote open. *)
Inductive ahead (nl : bool) : nat -> list ParsedToken -> rstr -> Prop :=
| ahead_nil n : ahead nl n [] []
| ahead_gap n ts c s :
    is_whitespace c = true -> nl && (c =? LF) = false ->
    ahead nl (n + len_utf8 c) ts s -> ahead nl n ts (c :: s)
| ahead_token n t ts src s :
    offset t = n -> src <> [] -> tok_text src t -> s = [] \/ scan src = bare ->
    ahead nl (n + blen src) ts s -> ahead nl n (t :: ts) (src ++ s).

Lemma white_inert c : is_whitespace c = true -> inert c = true.
Proof. unfold is_whitespace, between, inert, BACKSLASH, SQUOTE, DQUOTE. lia. Qed.

Lemma scan_cons_inert c s : inert c = true -> scan (c :: s) = scan s.
Proof. intros H. apply (scan_app [c] s). apply scan_inert. simpl. by rewrite H. Qed.

Lemma ahead_app nl n ts s ts' s' :
  ahead nl n ts s -> scan s = bare -> ahead nl (n + blen s) ts' s' ->
  ahead nl n (ts ++ ts') (s ++ s').
Proof.
  induction 1 as [n|n ts c s Hw Hn H IH|n t ts src s Ho Hne Ht Hs H IH]; intros Hb Ha.
  - by rewrite Nat.add_0_r in Ha.
  - rewrite scan_cons_inert in Hb by by apply white_inert.
    simpl. apply ahead_gap; [done..|]. apply IH; [done|]. simpl in Ha. by rewrite Nat.add_assoc in Ha.
  - assert (scan src = bare) as Hsrc.
    { destruct Hs as [->|Hs]; [|done]. by rewrite app_nil_r in Hb. }
    rewrite scan_app in Hb by done. simpl. rewrite <- app_assoc.
    apply ahead_token; auto. apply IH; [done|]. by rewrite blen_app, Nat.add_assoc in Ha.
Qed.

Lemma laid_ahead nl ts s : laid nl ts s -> ahead nl 0 ts s.
Proof.
  induction 1 as [|ts s t src Hl IH Hs Ho Hne Ht|ts s c Hl IH Hs Hw Hn]; [constructor| |].
  - apply ahead_app; [done..|]. rewrite <- (app_nil_r src).
    apply ahead_token; auto. constructor.
  - rewrite <- (app_nil_r ts). apply ahead_app; [done..|]. apply ahead_gap; [done..|constructor].
Qed.

Lemma tokenize_ahead input nl : ahead nl 0 (tokenize_inner input nl) input.
Proof. apply laid_ahead, tokenize_inner_laid. Qed.

(** The text in front of the next token is white space. *)
Lemma ahead_cons nl n t ts s :
  ahead nl n (t :: ts) s ->
  exists w src s', s = w ++ src ++ s' /\ forallb is_whitespace w = true /\
    forallb (fun c => negb (nl && (c =? LF))) w = true /\
    offset t = (n + blen w)%nat /\ src <> [] /\ tok_text src t /\
    (s' = [] \/ scan src = bare) /\ ahead nl (n + blen w + blen src) ts s'.
Proof.
  intros H. remember (t :: ts) as l eqn:E. induction H as [n|n l c s Hw Hn H IH|n t' l src s]; [done| |].
  - destruct (IH E) as (w & src & s' & -> & Hws & Hnl & Ho & Hrest).
    exists (c :: w), src, s'. simpl. rewrite Hw, Hn. rewrite Nat.add_assoc. auto.
  - simplify_eq. exists [], src, s. simpl. rewrite Nat.add_0_r. auto 10.
Qed.

Lemma ahead_nil_inv nl n s :
  ahead nl n [] s -> forallb is_whitespace s = true /\
    forallb (fun c => negb (nl && (c =? LF))) s = true.
Proof.
  intros H. remember [] as l eqn:E. induction H as [n|n l c s Hw Hn H IH|]; [done| |done].
  simpl. rewrite Hw, Hn. auto.
Qed.

(** ** Segments *)

(** A text with no bare separator: none of its unquoted, unescaped characters
    separates commands, opens a subshell or redirects. *)
Definition clean (s : rstr) : Prop :=
  forall a c b, s = a ++ c :: b -> scan a = bare -> c ∉ LF :: lit "|;&()<>".

Lemma clean_nil : clean [].
Proof. intros [|? ?] c b; discriminate. Qed.

Lemma clean_app s t : clean s -> clean t -> t = [] \/ scan s = bare -> clean (s ++ t).
Proof.
  intros Hs Ht [->|Hb]; [by rewrite app_nil_r|]. intros a c b E Ha.
  apply app_eq_app in E as (l & [(-> & E)|(-> & E)]).
  - destruct l as [|c' l]; simpl in E; simplify_eq.
    + rewrite app_nil_r in Hb. by apply (Ht [] c b).
    + by eapply (Hs a).
  - apply (Ht l c b); [done|]. by rewrite scan_app in Ha.
Qed.

Lemma clean_prefix s t : clean (s ++ t) -> clean s.
Proof. intros H a c b -> Ha. apply (H a c (b ++ t)); [by rewrite <- app_assoc | done]. Qed.

Lemma clean_suffix s t : clean (s ++ t) -> scan s = bare -> clean t.
Proof.
  intros H Hs a c b -> Ha. apply (H (s ++ a) c b); [by rewrite <- app_assoc|].
  by rewrite scan_app.
Qed.

Lemma clean_all s : forallb (fun c => negb (existsb (N.eqb c) (LF :: lit "|;&()<>"))) s = true -> clean s.
Proof.
  intros H a c b -> _ Hin. rewrite forallb_app in H. simpl in H.
  apply list_elem_of_In in Hin. simpl in Hin. lia.
Qed.

Lemma white_clean w :
  forallb is_whitespace w = true -> forallb (fun c => negb (true && (c =? LF))) w = true -> clean w.
Proof.
  intros Hw Hn. apply clean_all. rewrite List.forallb_forall in *. intros c Hin.
  specialize (Hw c Hin). specialize (Hn c Hin). revert Hw Hn.
  unfold is_whitespace, between, LF, lit. simpl. lia.
Qed.

Lemma white_scan w : forallb is_whitespace w = true -> scan w = bare.
Proof. intros H. apply scan_inert. eapply forallb_imp; [apply white_inert | done]. Qed.

(** The tokens a segment is made of are clean. *)
Lemma inside_clean src t :
  tok_text src t -> is_boundary t = false -> is_redirect t = false -> clean src.
Proof.
  unfold tok_text, is_boundary, is_redirect. destruct (kind t) eqn:E; try done.
  - intros [-> [Hw|(name & -> & Hn)]] _ _.
    + intros a c b Eq Ha Hin. specialize (Hw a c b Eq Ha). unfold is_break in Hw.
      apply list_elem_of_In in Hin. simpl in Hin, Hw. unfold is_whitespace, between in Hw.
      unfold LF in Hin. lia.
    + apply clean_all. rewrite forallb_app. apply andb_true_iff. split; [done|].
      rewrite List.forallb_forall in *. intros c Hc. specialize (Hn c Hc).
      unfold is_name_char, is_ascii_alphanumeric, is_ascii_alphabetic, is_ascii_digit,
        is_ascii_uppercase, is_ascii_lowercase, between in Hn.
      change (ch "_") with 95 in Hn. unfold LF, lit. simpl. lia.
  - intros [-> (c & -> & Hc)] Hb _. apply bool_decide_eq_false in Hb. apply clean_all.
    simpl. rewrite andb_true_r. apply negb_true_iff, not_true_is_false. intros Hx. apply Hb.
    apply list_elem_of_In in Hc. simpl in Hc. unfold LF in Hx.
    assert (c = 38 \/ c = 40 \/ c = 41) as [-> | [-> | ->]] by lia; set_solver.
Qed.

(** Tokens that are not words end outside quotes. *)
Lemma special_bare src t : tok_text src t -> kind t <> Arg -> scan src = bare.
Proof.
  unfold tok_text. destruct (kind t) as [| |p| |]; try done.
  - intros [[_ H]|[-> _]]; [|done]. rewrite !elem_of_cons in H.
    by destruct H as [->|[->|[->|[->|H]]]]; [..|apply elem_of_nil in H].
  - destruct p; by intros [_ ->].
  - intros [_ [H|(fd & two & tl & -> & Hf & Ht)]] _.
    + rewrite !elem_of_cons in H.
      by destruct H as [->|[->|[->|[->|H]]]]; [..|apply elem_of_nil in H].
    + apply scan_inert. by apply redirect_inert.
  - intros [_ (c & -> & Hc)] _. apply list_elem_of_In in Hc. simpl in Hc.
    apply scan_inert. simpl. rewrite andb_true_r. unfold inert, BACKSLASH, SQUOTE, DQUOTE. lia.
Qed.

(** A segment: clean, not empty, and written in the command. *)
Definition segment_of (cmd g : rstr) : Prop :=
  g <> [] /\ clean g /\ exists a b, cmd = a ++ g ++ b.

Lemma trim_parts s : exists w w', s = w ++ trim s ++ w' /\ forallb is_whitespace w = true.
Proof.
  unfold trim, trim_start, trim_end, trim_end_matches.
  destruct (skip_while_suffix is_whitespace s) as (w & Hs & Hw).
  destruct (skip_while_suffix is_whitespace (reverse (skip_while is_whitespace s))) as (w' & Hr & _).
  exists w, (reverse w'). split; [|done].
  rewrite <- reverse_app, <- Hr, reverse_involutive. done.
Qed.

Lemma push_segment_good cmd gs a text b :
  Forall (segment_of cmd) gs -> cmd = a ++ text ++ b -> clean text ->
  Forall (segment_of cmd) (push_segment gs text).
Proof.
  intros Hgs -> Hc. unfold push_segment. destruct (trim_parts text) as (w & w' & Ht & Hw).
  destruct (is_empty (trim text)) eqn:E; [done|].
  apply Forall_app. split; [done|]. apply Forall_singleton. split_and!.
  - by intros E'; rewrite E' in E.
  - rewrite Ht in Hc. apply clean_suffix in Hc; [|by apply white_scan]. by eapply clean_prefix.
  - exists (a ++ w), (w' ++ b). rewrite Ht at 1. by rewrite <- !app_assoc.
Qed.

(** The operand of a leading redirection is the very next token. *)
Definition operand_next (st : SplitState) (ts : list ParsedToken) : Prop :=
  skip_operand st = true -> seg_end st = None /\ exists next ts', ts = next :: ts' /\ is_arg next = true.

(** The invariant of the loop of [split_for_permissions], with the text [s]
    still ahead: the text behind [seg_start] is clean up to [seg_end]. *)
Definition split_inv (trimmed : rstr) (st : SplitState) (ts : list ParsedToken) (s : rstr) : Prop :=
  Forall (segment_of trimmed) (results st) /\ operand_next st ts /\
  exists pre mid rest, trimmed = pre ++ (mid ++ rest) ++ s /\ blen pre = seg_start st /\
    ahead true (blen (pre ++ mid ++ rest)) ts s /\ clean mid /\
    match seg_end st with
    | None => rest = [] /\ (s = [] \/ scan mid = bare)
    | Some e => e = blen (pre ++ mid)
    end.

(** Starting the next segment behind everything read. *)
Lemma split_inv_restart trimmed pre ts s st :
  Forall (segment_of trimmed) (results st) -> trimmed = pre ++ s -> ahead true (blen pre) ts s ->
  operand_next st ts -> seg_start st = blen pre -> seg_end st = None ->
  split_inv trimmed st ts s.
Proof.
  intros Hg -> Ha Hop Hst He. split; [done|]. split; [done|]. exists pre, [], [].
  rewrite Hst, He, !app_nil_r. split_and!; try done; [apply clean_nil | by right].
Qed.

(** Reading on within the segment, or past its end. *)
Lemma split_inv_extend trimmed st' ts pre mid rest src s :
  Forall (segment_of trimmed) (results st') -> operand_next st' ts ->
  trimmed = pre ++ (mid ++ rest) ++ src ++ s ->
  blen pre = seg_start st' -> ahead true (blen (pre ++ (mid ++ rest) ++ src)) ts s ->
  clean mid -> (s = [] \/ scan src = bare) ->
  match seg_end st' with
  | None => rest = [] /\ clean src /\ (src ++ s = [] \/ scan mid = bare)
  | Some e => e = blen (pre ++ mid)
  end ->
  split_inv trimmed st' ts s.
Proof.
  intros Hg Hop -> Hp Ha Hc Hs Hend. split; [done|]. split; [done|]. destruct (seg_end st') as [e|] eqn:E.
  - exists pre, mid, (rest ++ src).
    rewrite <- !app_assoc in Ha. split_and!; try done. by rewrite <- !app_assoc.
  - destruct Hend as (-> & Hsrc & Hm). exists pre, (mid ++ src), []. rewrite !app_nil_r in *.
    split_and!; try done.
    + by rewrite <- !app_assoc.
    + apply clean_app; [done..|]. destruct Hm as [E0|Hm]; [|by right].
      left. by apply app_eq_nil in E0 as [-> _].
    + destruct Hm as [E0|Hm]; [left; by apply app_eq_nil in E0 as [_ ->]|].
      rewrite scan_app by done. done.
Qed.

Lemma slice_parts trimmed a text b n m :
  trimmed = a ++ text ++ b -> n = blen a -> m = blen (a ++ text) -> slice n m trimmed = Some text.
Proof. intros -> -> ->. rewrite blen_app. apply slice_app. Qed.

(** The segment that ends in front of [s], at the latest, is sliced without a
    panic and is clean. *)
Lemma split_text trimmed st ts w s e :
  split_inv trimmed st ts (w ++ s) -> clean w -> (e + blen s)%nat = blen trimmed ->
  exists text, slice (seg_start st) (default e (seg_end st)) trimmed = Some text /\
    clean text /\ exists a b, trimmed = a ++ text ++ b.
Proof.
  intros (_ & _ & pre & mid & rest & -> & Hp & _ & Hc & Hend) Hw He.
  destruct (seg_end st) as [e'|]; simpl.
  - exists mid. split; [|split; [done|]].
    + apply (slice_parts _ pre mid (rest ++ w ++ s)); [|done..]. by rewrite <- !app_assoc.
    + exists pre, (rest ++ w ++ s). by rewrite <- !app_assoc.
  - destruct Hend as (-> & Hm). rewrite !app_nil_r in *. exists (mid ++ w). split; [|split].
    + apply (slice_parts _ pre (mid ++ w) s); [by rewrite <- !app_assoc | done |].
      rewrite !blen_app in *. lia.
    + apply clean_app; [done..|]. destruct Hm as [E|Hm]; [|by right].
      apply app_eq_nil in E as [-> _]. by left.
    + exists pre, s. by rewrite <- !app_assoc.
Qed.

(** The state after one token, the text it leaves, and where it was. *)
Lemma split_cons trimmed st t ts s :
  split_inv trimmed st (t :: ts) s ->
  exists w src s', s = w ++ src ++ s' /\ clean w /\ scan w = bare /\ tok_text src t /\ src <> [] /\
    (s' = [] \/ scan src = bare) /\ (offset t + blen (src ++ s'))%nat = blen trimmed /\
    exists read, trimmed = read ++ s' /\ tok_end t = blen read /\ ahead true (blen read) ts s'.
Proof.
  intros (_ & _ & pre & mid & rest & Htr & _ & Ha & _ & _).
  apply ahead_cons in Ha as (w & src & s' & -> & Hw & Hnl & Ho & Hne & Ht & Hs & Ha).
  exists w, src, s'. split_and!; auto using white_clean, white_scan.
  - rewrite Ho, Htr, !blen_app. lia.
  - exists (pre ++ (mid ++ rest) ++ w ++ src). split_and!.
    + rewrite Htr. by rewrite <- !app_assoc.
    + unfold tok_end. rewrite Ho, <- (tok_text_blen _ _ Ht), !blen_app. lia.
    + revert Ha. rewrite !blen_app. by rewrite !Nat.add_assoc.
Qed.

Lemma no_operand st ts : skip_operand st = false -> operand_next st ts.
Proof. intros H H'. congruence. Qed.

(** A token that neither separates, nor redirects, nor is stepped over. *)
Lemma split_inv_word trimmed st st' t ts s :
  split_inv trimmed st (t :: ts) s -> results st' = results st -> seg_start st' = seg_start st ->
  seg_end st' = seg_end st -> skip_operand st' = false ->
  is_boundary t = false -> (seg_end st = None -> is_redirect t = false) ->
  exists s', split_inv trimmed st' ts s'.
Proof.
  intros Hinv Hr Hst Hen Hsk Hb Hred. destruct (split_cons _ _ _ _ _ Hinv)
    as (w & src & s' & -> & Hcw & Hsw & Ht & Hne & Hs & _ & read & Hread & _ & Ha).
  destruct Hinv as (Hg & _ & pre & mid & rest & Htr & Hp & _ & Hc & Hend).
  assert (read = pre ++ (mid ++ rest) ++ w ++ src) as ->.
  { apply (app_inv_tail s'). rewrite <- Hread, Htr. by rewrite <- !app_assoc. }
  exists s'. apply (split_inv_extend _ _ _ pre mid rest (w ++ src)).
  - by rewrite Hr.
  - by apply no_operand.
  - by rewrite <- (app_assoc w).
  - by rewrite Hst.
  - done.
  - done.
  - destruct Hs as [Hs|Hs]; [by left|]. right. by rewrite scan_app.
  - rewrite Hen. destruct (seg_end st) as [e|]; [done|]. destruct Hend as [-> Hm].
    split_and!; [done | | by rewrite <- app_assoc].
    apply clean_app; [done | | by right]. by eapply inside_clean; auto.
Qed.

(** One token keeps the invariant, and its slice does not panic. *)
Lemma split_step_ok trimmed st t ts s :
  split_inv trimmed st (t :: ts) s ->
  exists st' s', split_step trimmed st t ts = Some st' /\ split_inv trimmed st' ts s'.
Proof.
  intros Hinv. destruct (split_cons _ _ _ _ _ Hinv)
    as (w & src & s' & -> & Hcw & Hsw & Ht & Hne & Hs & Hlen & read & Hread & Hte & Ha).
  pose proof Hinv as (Hg & Hop & pre & mid & rest & Htr & Hp & _ & Hc & Hend).
  unfold split_step. destruct (is_boundary t) eqn:Eb.
  { destruct (split_text _ _ _ _ _ (offset t) Hinv Hcw Hlen) as (text & -> & Hct & a & b & Hab).
    eexists _, s'. split; [done|]. apply (split_inv_restart _ read); simpl; auto using no_operand.
    by eapply push_segment_good. }
  destruct (is_redirect t && _ && _) eqn:E1.
  { bool_prop. eexists _, s'. split; [done|]. apply (split_inv_restart _ read); simpl; auto.
    intros Hsk. split; [done|]. apply andb_true_iff in Hsk as [_ Hsk].
    destruct ts as [|n ts']; [done|]. eauto. }
  destruct (skip_operand st) eqn:E2; simpl.
  { destruct (Hop E2) as (He & n & ts' & [= <- <-] & Hn). rewrite Hn.
    eexists _, s'. split; [done|]. apply (split_inv_restart _ read); simpl; auto using no_operand. }
  destruct (is_redirect t) eqn:E3; simpl.
  - destruct (seg_end st) as [e|] eqn:Ee; simpl.
    + destruct (split_inv_word _ _ st _ _ _ Hinv) as [s'' H]; auto; [congruence|]. eauto.
    + destruct Hend as [-> Hm]. rewrite app_nil_r in *.
      eexists _, s'. split; [done|]. split; [done|]. split; [by apply no_operand|].
      exists pre, (mid ++ w), src. simpl. split_and!; try done.
      * rewrite Htr. by rewrite <- !app_assoc.
      * replace (blen (pre ++ (mid ++ w) ++ src)) with (blen read); [done|].
        rewrite <- Hte. unfold tok_end. rewrite <- (tok_text_blen _ _ Ht).
        apply (f_equal blen) in Htr. rewrite !blen_app in *. lia.
      * apply clean_app; [done..|]. destruct Hm as [E|Hm]; [|by right].
        apply app_eq_nil in E as [-> _]. by left.
      * apply (f_equal blen) in Htr. rewrite !blen_app in *. lia.
  - destruct (bool_decide (seg_end st = None)); simpl.
    + destruct (split_inv_word _ _ {| results := results st; seg_start := seg_start st;
        seg_end := seg_end st; seen_word := true; skip_operand := false |} _ _ _ Hinv)
        as [s'' H]; auto. eauto.
    + destruct (split_inv_word _ _ st _ _ _ Hinv) as [s'' H]; auto. eauto.
Qed.

Lemma split_loop_ok trimmed ts st s :
  split_inv trimmed st ts s ->
  exists st' s', split_loop trimmed st ts = Some st' /\ split_inv trimmed st' [] s'.
Proof.
  revert st s. induction ts as [|t ts IH]; intros st s H; simpl; [eauto|].
  destruct (split_step_ok _ _ _ _ _ H) as (st' & s' & -> & H'). eauto.
Qed.

Lemma split_for_permissions_ok cmd :
  exists gs, split_for_permissions cmd = Some gs /\ Forall (segment_of (trim cmd)) gs.
Proof.
  unfold split_for_permissions. destruct (is_empty (trim cmd)); [eauto|].
  destruct (split_loop_ok (trim cmd) (tokenize_inner (trim cmd) true) split_init (trim cmd))
    as (st & s & -> & H).
  { apply (split_inv_restart _ []); try done. apply tokenize_ahead. }
  simpl. pose proof H as (Hg & _ & pre & mid & rest & _ & _ & Ha & _).
  apply ahead_nil_inv in Ha as [Hw Hn].
  destruct (split_text (trim cmd) st [] s [] (blen (trim cmd))) as (text & -> & Hc & a & b & Hab).
  - by rewrite app_nil_r.
  - by apply white_clean.
  - simpl. lia.
  - eexists. split; [done|]. by eapply push_segment_good.
Qed.

(** ** Nothing is dropped from a command that does not redirect *)

Definition separators : list rstr :=
  [lit "&&"; lit "||"; lit ";"; [LF]; [CR]; lit "|"; lit "|&"; lit "&"; lit "("; lit ")"].

(** [woven d gs]: [d] is a sequence of pieces, each followed by a separator, and
    [gs] is what [push_segment] makes of the pieces. *)
Inductive woven : rstr -> list rstr -> Prop :=
| woven_nil : woven [] []
| woven_cons d gs text sep :
    woven d gs -> sep ∈ separators -> woven (d ++ text ++ sep) (push_segment gs text).

Lemma boundary_separator src t : tok_text src t -> is_boundary t = true -> src ∈ separators.
Proof.
  unfold tok_text, is_boundary, separators. destruct (kind t) as [| |p| |]; try done.
  - intros [[_ H]|[-> _]] _; [|set_solver]. rewrite !elem_of_cons in *.
    destruct H as [->|[->|[->|[->|H]]]]; [..|by apply elem_of_nil in H]; tauto.
  - destruct p; intros [_ ->] _; set_solver.
  - intros [-> _] H. bool_prop. set_solver.
Qed.

Definition cover_inv (trimmed : rstr) (st : SplitState) (ts : list ParsedToken) (s : rstr) : Prop :=
  seg_end st = None /\ skip_operand st = false /\
  exists d text, trimmed = d ++ text ++ s /\ woven d (results st) /\ blen d = seg_start st /\
    ahead true (blen (d ++ text)) ts s.

Lemma cover_step trimmed st t ts s :
  cover_inv trimmed st (t :: ts) s -> is_redirect t = false ->
  exists st' s', split_step trimmed st t ts = Some st' /\ cover_inv trimmed st' ts s'.
Proof.
  intros (He & Hsk & d & text & Htr & Hd & Hst & Ha) Hr.
  apply ahead_cons in Ha as (w & src & s' & -> & Hw & Hnl & Ho & Hne & Ht & Hs & Ha).
  assert (ahead true (blen (d ++ (text ++ w) ++ src)) ts s') as Ha'.
  { revert Ha. rewrite !blen_app. by rewrite !Nat.add_assoc. }
  assert (tok_end t = blen (d ++ (text ++ w) ++ src)) as Hend.
  { unfold tok_end. rewrite Ho, <- (tok_text_blen _ _ Ht), !blen_app. lia. }
  unfold split_step. rewrite He, Hr, Hsk. destruct (is_boundary t) eqn:Eb; simpl.
  - rewrite (slice_parts _ d (text ++ w) (src ++ s')); [|by rewrite Htr, <- !app_assoc | done
      | rewrite Ho, !blen_app; lia].
    simpl. eexists _, s'. split; [done|]. split; [done|]. split; [done|].
    exists (d ++ (text ++ w) ++ src), []. rewrite app_nil_r. split_and!; try done.
    + by rewrite Htr, <- !app_assoc.
    + simpl. apply woven_cons; [done|]. by eapply boundary_separator.
  - eexists _, s'. split; [done|]. split; [done|]. split; [done|].
    exists d, (text ++ w ++ src). rewrite <- !app_assoc in *. by split_and!.
Qed.

Lemma cover_loop trimmed ts st s :
  cover_inv trimmed st ts s -> existsb is_redirect ts = false ->
  exists st' s', split_loop trimmed st ts = Some st' /\ cover_inv trimmed st' [] s'.
Proof.
  revert st s. induction ts as [|t ts IH]; intros st s H Hr; simpl; [eauto|].
  simpl in Hr. apply orb_false_iff in Hr as [Ht Hr].
  destruct (cover_step _ _ _ _ _ H Ht) as (st' & s' & -> & H'). by apply (IH st' s').
Qed.

(** The command is its pieces and separators, and the segments are its pieces. *)
Definition covers (trimmed : rstr) (segments : list rstr) : Prop :=
  exists d gs text, woven d gs /\ trimmed = d ++ text /\ segments = push_segment gs text.

Lemma split_for_permissions_covers cmd gs :
  existsb is_redirect (tokenize_inner (trim cmd) true) = false ->
  split_for_permissions cmd = Some gs -> covers (trim cmd) gs.
Proof.
  intros Hr. unfold split_for_permissions. destruct (is_empty (trim cmd)) eqn:E.
  { intros [= <-]. exists [], [], []. split_and!; [constructor | by destruct (trim cmd) | done]. }
  destruct (cover_loop (trim cmd) (tokenize_inner (trim cmd) true) split_init (trim cmd))
    as (st & s & -> & He & _ & d & text & Htr & Hw & Hst & _); [|done|].
  { split; [done|]. split; [done|]. exists [], []. split_and!; try done; [constructor|].
    apply tokenize_ahead. }
  simpl. rewrite He. simpl. rewrite (slice_parts _ d (text ++ s) []).
  - simpl. intros [= <-]. by exists d, (results st), (text ++ s).
  - by rewrite app_nil_r.
  - done.
  - by rewrite Htr at 1.
Qed.

(** ** The quote checks agree with the shell's quoting *)

(** The two flags of [quotes_balanced], as an open quote. *)
Definition flags (quote : option char) : bool * bool :=
  (bool_decide (quote = Some SQUOTE), bool_decide (quote = Some DQUOTE)).

Definition quote_ok (quote : option char) : Prop :=
  quote = None \/ quote = Some SQUOTE \/ quote = Some DQUOTE.

Lemma scan_step_ok q c : quote_ok q.1 -> quote_ok (scan_step q c).1.
Proof.
  destruct q as [quote e]. intros H. unfold scan_step. destruct e; [done|].
  destruct (_ && _); [done|]. simpl in H. destruct quote as [d|].
  - simpl. destruct (c =? d); [by left|done].
  - destruct (N.eqb_spec c SQUOTE) as [->|]; [by right; left|].
    destruct (N.eqb_spec c DQUOTE) as [->|]; [by right; right|]. by left.
Qed.

Lemma balance_high bs rest s d e :
  forallb (fun b => 128 <=? b) bs = true ->
  balance (bs ++ rest) s d e = balance rest s d (match bs with [] => e | _ => false end).
Proof.
  revert e. induction bs as [|b bs IH]; intros e H; [done|]. simpl in H.
  apply andb_true_iff in H as [Hb H]. simpl. unfold BACKSLASH, SQUOTE, DQUOTE.
  destruct e; [by rewrite IH; destruct bs|].
  destruct (N.eqb_spec b 92), (N.eqb_spec b 39), (N.eqb_spec b 34); try lia.
  simpl. rewrite IH by done. by destruct bs.
Qed.

Lemma utf8_char_cases c :
  (c < 128 /\ utf8_char c = [c]) \/
  (128 <= c /\ utf8_char c <> [] /\ forallb (fun b => 128 <=? b) (utf8_char c) = true).
Proof.
  unfold utf8_char. destruct (N.ltb_spec c 128); [by left|]. right. split; [done|].
  repeat case_match; (split; [done|]); simpl; repeat (apply andb_true_iff; split); try done;
    apply N.leb_le; lia.
Qed.

Lemma balance_scan s quote e :
  quote_ok quote ->
  balance (utf8 s) (flags quote).1 (flags quote).2 e =
  bool_decide (fold_left scan_step s (quote, e) = bare).
Proof.
  revert quote e. induction s as [|c s IH]; intros quote e Hq.
  { simpl. destruct Hq as [->|[->| ->]], e; done. }
  change (utf8 (c :: s)) with (utf8_char c ++ utf8 s). cbn [fold_left].
  destruct (utf8_char_cases c) as [[Hc ->]|(Hc & Hne & Hh)].
  - pose proof (scan_step_ok (quote, e) c Hq) as Hq'.
    destruct (scan_step (quote, e) c) as [quote' e'] eqn:Es. rewrite <- IH by done. clear IH Hq'.
    revert Es. simpl. destruct e; [by intros [= <- <-]|].
    destruct Hq as [->|[->| ->]]; simpl;
      destruct (N.eqb_spec c BACKSLASH), (N.eqb_spec c SQUOTE), (N.eqb_spec c DQUOTE);
      subst; simpl; try discriminate; by intros [= <- <-].
  - rewrite balance_high by done. destruct (utf8_char c); [done|].
    assert (scan_step (quote, e) c = (quote, false)) as ->; [|by apply IH].
    unfold scan_step. destruct e; [done|].
    destruct (N.eqb_spec c BACKSLASH) as [->|_]; [by unfold BACKSLASH in Hc|]. simpl.
    destruct (N.eqb_spec c SQUOTE) as [->|Hs]; [by unfold SQUOTE in Hc|].
    destruct (N.eqb_spec c DQUOTE) as [->|Hd]; [by unfold DQUOTE in Hc|]. simpl.
    destruct Hq as [->|[->| ->]]; [done|..]; f_equal;
      by destruct (N.eqb_spec c SQUOTE), (N.eqb_spec c DQUOTE).
Qed.

Lemma quotes_balanced_scan input : quotes_balanced input = true <-> scan input = bare.
Proof.
  pose proof (balance_scan input None false (or_introl eq_refl)) as H. simpl in H.
  unfold quotes_balanced. rewrite H. apply bool_decide_eq_true.
Qed.

(** [substitution_at q s]: a substitution the shell would run starts [s], read
    in the quoting state [q]. *)
Definition substitution_at (q : option char * bool) (s : rstr) : bool :=
  negb q.2 &&
  ((starts_with (lit "`") s || starts_with (lit "$(") s) && negb (bool_decide (q.1 = Some SQUOTE))
   || (starts_with (lit "<(") s || starts_with (lit ">(") s) && bool_decide (q.1 = None)).

Definition substitutes (q : option char * bool) (s : rstr) : Prop :=
  exists a b, s = a ++ b /\ substitution_at (fold_left scan_step a q) b = true.

Lemma substitutes_cons q c s :
  substitutes q (c :: s) <-> substitution_at q (c :: s) = true \/ substitutes (scan_step q c) s.
Proof.
  split.
  - intros ([|d a] & b & E & H); simpl in *; [subst; by left|]. simplify_eq. right. by exists a, b.
  - intros [H|(a & b & -> & H)]; [by exists [], (c :: s) | by exists (c :: a), b].
Qed.

Lemma substitutes_nil q : ~ substitutes q [].
Proof.
  intros (a & b & E & H). symmetry in E. apply app_eq_nil in E as [-> ->].
  unfold substitution_at in H. simpl in H. by rewrite andb_false_r in H.
Qed.

Lemma substitution_high bs rest s d :
  forallb (fun b => 128 <=? b) bs = true ->
  substitution_in (bs ++ rest) s d = substitution_in rest s d.
Proof.
  induction bs as [|b bs IH]; intros H; [done|]. simpl in H.
  apply andb_true_iff in H as [Hb H]. simpl. unfold BACKSLASH, SQUOTE, DQUOTE.
  change (ch "`") with 96. change (ch "$") with 36. change (ch "<") with 60. change (ch ">") with 62.
  rewrite (proj2 (N.eqb_neq b 92)), (proj2 (N.eqb_neq b 39)), (proj2 (N.eqb_neq b 34)),
    (proj2 (N.eqb_neq b 96)), (proj2 (N.eqb_neq b 36)), (proj2 (N.eqb_neq b 60)),
    (proj2 (N.eqb_neq b 62)) by lia. simpl. by apply IH.
Qed.

Lemma peek_paren s : peek_is (ch "(") (utf8 s) = peek_is (ch "(") s.
Proof.
  destruct s as [|c s]; [done|]. change (utf8 (c :: s)) with (utf8_char c ++ utf8 s).
  destruct (utf8_char_cases c) as [[Hc ->]|(Hc & Hne & Hh)]; [done|].
  destruct (utf8_char c) as [|b bs]; [done|]. simpl in *. change (ch "(") with 40. lia.
Qed.

Lemma starts_pair a b c s :
  starts_with [a; b] (c :: s) = (a =? c) && peek_is b s.
Proof.
  unfold starts_with. simpl. destruct (a =? c); [|done]. destruct s as [|d s]; [done|]. simpl.
  by rewrite (N.eqb_sym d b); destruct (b =? d).
Qed.

Lemma starts_one a c s : starts_with [a] (c :: s) = (a =? c).
Proof. unfold starts_with. simpl. by destruct (a =? c). Qed.

(** What the scan does with an ASCII character outside an escape. *)
Lemma substitution_ascii quote c s :
  quote_ok quote -> c < 128 ->
  substitution_in (c :: utf8 s) (flags quote).1 (flags quote).2 =
  (substitution_at (quote, false) (c :: s) ||
   (let '(quote', e) := scan_step (quote, false) c in
    if e : bool then match utf8 s with
              | [] => false
              | _ :: rest => substitution_in rest (flags quote').1 (flags quote').2
              end
    else substitution_in (utf8 s) (flags quote').1 (flags quote').2)).
Proof.
  intros Hq Hc. cbn [substitution_in]. rewrite peek_paren. unfold substitution_at. cbn [fst snd negb].
  change (lit "`") with [ch "`"]. change (lit "$(") with [ch "$"; ch "("].
  change (lit "<(") with [ch "<"; ch "("]. change (lit ">(") with [ch ">"; ch "("].
  rewrite starts_one, !starts_pair. rewrite !(N.eqb_sym _ c).
  change (ch "`") with 96. change (ch "$") with 36. change (ch "<") with 60. change (ch ">") with 62.
  generalize (peek_is (ch "(") s). intros par. unfold BACKSLASH, SQUOTE, DQUOTE in *.
  destruct (N.eqb_spec c 92) as [->|H1]; [by destruct Hq as [->|[->| ->]]|].
  destruct (N.eqb_spec c 39) as [->|H2]; [by destruct Hq as [->|[->| ->]]|].
  destruct (N.eqb_spec c 34) as [->|H3]; [by destruct Hq as [->|[->| ->]]|].
  assert (scan_step (quote, false) c = (quote, false)) as ->.
  { unfold scan_step, BACKSLASH, SQUOTE, DQUOTE.
    rewrite (proj2 (N.eqb_neq c 92)), (proj2 (N.eqb_neq c 39)), (proj2 (N.eqb_neq c 34)) by done.
    simpl. destruct Hq as [->|[->| ->]]; unfold SQUOTE, DQUOTE; [done|..];
      by rewrite (proj2 (N.eqb_neq c _)) by done. }
  destruct Hq as [->|[->| ->]]; simpl; unfold SQUOTE, DQUOTE;
    destruct (c =? 96), (c =? 36), (c =? 60), (c =? 62), par; done.
Qed.

Lemma substitution_in_spec s :
  forall quote, quote_ok quote ->
  (substitution_in (utf8 s) (flags quote).1 (flags quote).2 = true <-> substitutes (quote, false) s) /\
  (match utf8 s with
   | [] => false
   | _ :: rest => substitution_in rest (flags quote).1 (flags quote).2
   end = true <-> substitutes (quote, true) s).
Proof.
  induction s as [|c s IH]; intros quote Hq.
  { split; (split; [done | by intros ?%substitutes_nil]). }
  rewrite !substitutes_cons. change (utf8 (c :: s)) with (utf8_char c ++ utf8 s).
  pose proof (scan_step_ok (quote, false) c Hq) as Hq'.
  destruct (utf8_char_cases c) as [[Hc ->]|(Hc & Hne & Hh)].
  - cbn [app]. rewrite substitution_ascii by done. rewrite orb_true_iff. split.
    + destruct (scan_step (quote, false) c) as [quote' e].
      destruct e; [by rewrite (proj2 (IH quote' Hq')) | by rewrite (proj1 (IH quote' Hq'))].
    + rewrite (proj1 (IH quote Hq)). unfold substitution_at at 1. simpl. naive_solver.
  - destruct (utf8_char c) as [|b bs] eqn:E; [done|]. rewrite <- E. split.
    + rewrite substitution_high by by rewrite E. rewrite (proj1 (IH quote Hq)).
      assert (substitution_at (quote, false) (c :: s) = false) as ->.
      { unfold substitution_at. change (lit "`") with [ch "`"]. change (lit "$(") with [ch "$"; ch "("].
        change (lit "<(") with [ch "<"; ch "("]. change (lit ">(") with [ch ">"; ch "("].
        rewrite starts_one, !starts_pair.
        change (ch "`") with 96. change (ch "$") with 36. change (ch "<") with 60. change (ch ">") with 62.
        rewrite !(proj2 (N.eqb_neq _ c)) by lia. by rewrite andb_false_r. }
      assert (scan_step (quote, false) c = (quote, false)) as ->; [|naive_solver].
      unfold scan_step, BACKSLASH, SQUOTE, DQUOTE.
      rewrite (proj2 (N.eqb_neq c 92)), (proj2 (N.eqb_neq c 39)), (proj2 (N.eqb_neq c 34)) by lia.
      destruct Hq as [->|[->| ->]]; unfold SQUOTE, DQUOTE; [done|..];
        by rewrite (proj2 (N.eqb_neq c _)) by lia.
    + rewrite E. cbn [app]. simpl in Hh. apply andb_true_iff in Hh as [_ Hh].
      rewrite substitution_high by done. rewrite (proj1 (IH quote Hq)).
      unfold substitution_at. simpl. naive_solver.
Qed.

Lemma contains_substitution_iff cmd : contains_substitution cmd = true <-> substitutes bare cmd.
Proof. exact (proj1 (substitution_in_spec cmd None (or_introl eq_refl))). Qed.

(** ** Wrappers: when parsing panics, and what it finds *)

Lemma head_last_parts (v : rstr) f l :
  head v = Some f -> last v = Some l -> v = [f] /\ f = l \/ exists m, v = f :: m ++ [l].
Proof.
  destruct v as [|x v]; [done|]. intros [= ->]. destruct v as [|y m _] using rev_ind.
  - intros [= ->]. by left.
  - rewrite app_comm_cons, last_snoc. intros [= ->]. right. by exists m.
Qed.

Lemma is_quote_len q : is_quote q = true -> len_utf8 q = 1%nat.
Proof. unfold is_quote. intros H. bool_prop. by destruct H; bool_prop; subst. Qed.

(** A quoted text with a character between its quotes is sliced. *)
Lemma slice_quoted f m :
  is_quote f = true -> slice 1 (blen (f :: m ++ [f]) - 1) (f :: m ++ [f]) = Some m.
Proof.
  intros H. apply (slice_parts _ [f] m [f]); [done|..]; simpl;
    rewrite ?blen_app; simpl; rewrite is_quote_len by done; lia.
Qed.

Lemma unquote_word_None v : unquote_word v = None <-> exists q, v = [q] /\ is_quote q = true.
Proof.
  unfold unquote_word. split.
  - destruct (head v) as [f|] eqn:Ef; [|done]. destruct (last v) as [l|] eqn:El; [|done].
    destruct (is_quote f && (f =? l)) eqn:E; [|by destruct (_ || _)]. bool_prop. subst l.
    destruct (head_last_parts _ _ _ Ef El) as [[-> _]|[m ->]]; [eauto|].
    rewrite slice_quoted by done. done.
  - intros (q & -> & Hq). simpl. rewrite Hq, N.eqb_refl. simpl. by rewrite is_quote_len.
Qed.

Lemma scan_quote q : is_quote q = true -> scan [q] = (Some q, false).
Proof. unfold is_quote. intros H. bool_prop. by destruct H; bool_prop; subst. Qed.

(** In a balanced text every word is balanced. *)
Lemma ahead_words nl n ts s :
  ahead nl n ts s -> scan s = bare ->
  Forall (fun t => kind t = Arg -> scan (value t) = bare) ts.
Proof.
  induction 1 as [n|n ts c s Hw Hn H IH|n t ts src s Ho Hne Ht Hs H IH]; intros Hb; [done| |].
  - rewrite scan_cons_inert in Hb by by apply white_inert. auto.
  - assert (scan src = bare) as Hsrc.
    { destruct Hs as [->|Hs]; [|done]. by rewrite app_nil_r in Hb. }
    rewrite scan_app in Hb by done. constructor; [|auto].
    intros Hk. unfold tok_text in Ht. rewrite Hk in Ht. by destruct Ht as [<- _].
Qed.

(** A word is the slice of the command at its offset. *)
Lemma ahead_slice nl n ts s pre t :
  ahead nl n ts s -> n = blen pre -> t ∈ ts -> kind t = Arg ->
  exists a b, pre ++ s = a ++ value t ++ b /\ offset t = blen a.
Proof.
  intros H. revert pre. induction H as [n|n ts c s Hw Hn H IH|n t' ts src s Ho Hne Ht Hs H IH];
    intros pre -> Hin Hk.
  - by apply elem_of_nil in Hin.
  - destruct (IH (pre ++ [c])) as (a & b & E & Ho); [rewrite blen_app; simpl; lia|done..|].
    exists a, b. rewrite <- app_assoc in E. done.
  - apply elem_of_cons in Hin as [->|Hin].
    + unfold tok_text in Ht. rewrite Hk in Ht. destruct Ht as [<- _]. by exists pre, s.
    + destruct (IH (pre ++ src)) as (a & b & E & Ho'); [by rewrite blen_app|done..|].
      exists a, b. by rewrite <- app_assoc in E.
Qed.

Definition balanced_word (t : ParsedToken) : Prop := scan (value t) = bare.

Lemma unquote_balanced t : balanced_word t -> unquote_word (value t) <> None.
Proof.
  intros H (q & E & Hq)%unquote_word_None. unfold balanced_word in H.
  by rewrite E, (scan_quote q Hq) in H.
Qed.

Lemma later_command_flag_total ts :
  Forall balanced_word ts -> exists b, later_command_flag ts = Some b.
Proof.
  induction 1 as [|t ts Ht _ [b IH]]; simpl; [eauto|].
  pose proof (unquote_balanced t Ht). destruct (unquote_word (value t)) as [[w|]|]; [|eauto|done].
  simpl. destruct (has_command_flag w); eauto.
Qed.

(** The option loop ends at a suffix of the words, or answers. *)
Lemma find_command_flag_total ts :
  Forall balanced_word ts ->
  exists r, find_command_flag ts = Some r /\
    match r with
    | FlagBefore rest => rest ⊆ ts
    | Answer a => a = NotWrapper \/ a = Ambiguous
    end.
Proof.
  induction ts as [ts IH] using (induction_ltof1 _ (@length ParsedToken)). unfold ltof in IH.
  intros Hts. destruct ts as [|t rest]; simpl; [exists (Answer NotWrapper); auto|].
  apply Forall_cons in Hts as [Ht Hrest]. pose proof (unquote_balanced t Ht) as Hu.
  destruct (unquote_word (value t)) as [[w|]|]; simpl; [|exists (Answer Ambiguous); by auto|done].
  destruct (has_command_flag w); [eexists; split; [done|]; set_solver|].
  assert (forall l, (length l < S (length rest))%nat -> l ⊆ rest -> Forall balanced_word l ->
    exists r, find_command_flag l = Some r /\ match r with
      | FlagBefore rest' => rest' ⊆ t :: rest | Answer a => a = NotWrapper \/ a = Ambiguous end) as Hrec.
  { intros l Hl Hsub Hb. destruct (IH l Hl Hb) as (r & -> & Hr). exists r. split; [done|].
    destruct r; [set_solver|done]. }
  destruct (bool_decide (w ∈ valued_options)).
  - destruct rest as [|t' rest']; [exists (Answer Ambiguous); by auto|]. apply Hrec; simpl; [lia | set_solver |].
    by apply Forall_cons in Hrest as [_ ?].
  - destruct (_ || _); [|apply Hrec; [lia | set_solver | done]].
    destruct (later_command_flag_total rest Hrest) as [b ->]. simpl.
    destruct b; [exists (Answer Ambiguous) | exists (Answer NotWrapper)]; auto.
Qed.

Lemma read_payload_total raw r : scan raw = bare -> exists a, read_payload raw r = Some a /\
  forall p, a = Parsed p -> payload_range p = r /\
    raw = match payload_quote p with Some q => q :: command p ++ [q] | None => command p end.
Proof.
  intros Hb. unfold read_payload. destruct (head raw) as [f|] eqn:Ef; [|eexists; split; [done|]; by intros p [= <-]].
  destruct (last raw) as [l|] eqn:El; [|eexists; split; [done|]; by intros p [= <-]].
  destruct (is_quote f && (f =? l)) eqn:E; cycle 1.
  { destruct (_ || _); eexists; (split; [done|]); [done|]. by intros p [= <-]. }
  bool_prop. subst l. destruct (head_last_parts _ _ _ Ef El) as [[-> _]|[m ->]].
  { by rewrite scan_quote in Hb. }
  rewrite is_quote_len, slice_quoted by done. eexists. split; [done|]. by intros p [= <-].
Qed.

(** What a parsed wrapper's payload is in the invocation. *)
Definition payload_in (input : rstr) (p : ShellCommandPayload) : Prop :=
  exists before behind, payload_range p = (blen before, (blen before + blen
      (match payload_quote p with Some q => q :: command p ++ [q] | None => command p end))%nat) /\
    input = before ++ (match payload_quote p with Some q => q :: command p ++ [q] | None => command p end)
              ++ behind.

Lemma parse_wrapper_cases input :
  (exists q w, input = w ++ [q] /\ forallb is_whitespace w = true /\ is_quote q = true) \/
  exists a, parse_shell_command_wrapper input = Some a /\
    forall p, a = Parsed p -> payload_in input p.
Proof.
  unfold parse_shell_command_wrapper. pose proof (tokenize_ahead input false) as Ha.
  fold (tokenize input) in Ha. destruct (tokenize input) as [|t ts] eqn:Ets.
  { right. eexists. by split. }
  destruct (is_arg t) eqn:Hk; simpl; [|right; by eexists]. unfold is_arg in Hk. bool_prop.
  unfold is_shell_program. destruct (unquote_word (value t)) as [u|] eqn:Eu; simpl; cycle 1.
  { left. apply unquote_word_None in Eu as (q & Ev & Hq).
    apply ahead_cons in Ha as (w & src & s & -> & Hw & _ & _ & Hne & Ht & Hs & _).
    unfold tok_text in Ht. rewrite Hk, Ev in Ht. destruct Ht as [-> _].
    rewrite scan_quote in Hs by done. destruct Hs as [->|Hs]; [|done].
    exists q, w. by rewrite app_nil_r. }
  right. destruct (negb _) eqn:Hsh; [by eexists|].
  destruct (quotes_balanced input) eqn:Hq; [|by eexists]. simpl.
  unfold is_arg at 1. rewrite bool_decide_true by done. simpl.
  destruct (existsb _ ts) eqn:Hall; [by eexists|].
  apply quotes_balanced_scan in Hq. pose proof (ahead_words _ _ _ _ Ha Hq) as Hwords.
  assert (Forall (fun t => kind t = Arg) ts) as Hargs.
  { apply List.Forall_forall. intros t' Hin. apply not_true_iff_false in Hall.
    destruct (decide (kind t' = Arg)) as [|Hn]; [done|]. exfalso. apply Hall.
    apply existsb_exists. exists t'. split; [done|]. unfold is_arg. by rewrite bool_decide_false. }
  apply Forall_cons in Hwords as [_ Hwords].
  assert (Forall balanced_word ts) as Hbal.
  { eapply Forall_impl; [apply Forall_and; split; [exact Hwords | exact Hargs]|]. naive_solver. }
  destruct (find_command_flag_total ts Hbal) as (r & -> & Hr). simpl.
  destruct r as [[|payload rest]|a]; [by eexists| |].
  - assert (payload ∈ ts) as Hin by set_solver.
    assert (kind payload = Arg) as Hpk by by eapply Forall_forall in Hargs.
    destruct (ahead_slice false 0 (t :: ts) input [] payload) as (a & b & E & Ho); [done..|set_solver|done|].
    simpl in E. rewrite (slice_parts input a (value payload) b); [|done|done|].
    2:{ unfold tok_end. by rewrite Ho, blen_app. }
    simpl. destruct (read_payload_total (value payload) (offset payload, tok_end payload))
      as (ans & -> & Hans); [by eapply Forall_forall in Hbal|].
    eexists. split; [done|]. intros p Hp. destruct (Hans p Hp) as [Hrange Hraw].
    exists a, b. rewrite <- Hraw. split; [|done]. rewrite Hrange. unfold tok_end. by rewrite Ho.
  - eexists. split; [done|]. intros p ->. by destruct Hr.
Qed.

(** ** Slices at token boundaries *)

(** [n] is a character boundary of [s]. *)
Definition boundary (n : nat) (s : rstr) : Prop := exists x z, s = x ++ z /\ n = blen x.

Lemma boundary_slice_from n s : boundary n s -> exists z, slice_from n s = Some z /\ z ⊆ s.
Proof. intros (x & z & -> & ->). exists z. rewrite slice_from_app. set_solver. Qed.

Lemma boundary_slice_to n s : boundary n s -> exists x, slice_to n s = Some x /\ x ⊆ s.
Proof. intros (x & z & -> & ->). exists x. rewrite slice_to_app. set_solver. Qed.

Lemma boundary_slice a b s :
  boundary a s -> boundary b s -> (a <= b)%nat -> exists t, slice a b s = Some t /\ t ⊆ s.
Proof.
  intros (x & z & -> & ->) (x' & z' & E & ->) Hle.
  apply app_eq_app in E as (l & [(-> & ->)|(-> & ->)]).
  - rewrite blen_app in Hle. destruct l as [|c l].
    + rewrite app_nil_r in *. exists []. split; [|set_solver].
      apply (slice_parts _ x' [] z); by rewrite ?app_nil_r.
    + simpl in Hle. pose proof (len_utf8_pos c). lia.
  - exists l. split; [|set_solver]. by apply (slice_parts _ x l z').
Qed.

Definition good_span (s : rstr) (r : range) : Prop :=
  boundary r.1 s /\ boundary r.2 s /\ (r.1 <= r.2)%nat.

(** Every token starts and ends at a boundary of the command, in order. *)
Lemma ahead_boundaries nl n ts s pre t :
  ahead nl n ts s -> n = blen pre -> t ∈ ts ->
  boundary (offset t) (pre ++ s) /\ boundary (tok_end t) (pre ++ s).
Proof.
  intros H. revert pre. induction H as [n|n ts c s Hw Hn H IH|n t' ts src s Ho Hne Ht Hs H IH];
    intros pre -> Hin.
  - by apply elem_of_nil in Hin.
  - replace (pre ++ c :: s) with ((pre ++ [c]) ++ s) by by rewrite <- app_assoc.
    apply IH; [rewrite blen_app; simpl; lia | done].
  - apply elem_of_cons in Hin as [->|Hin].
    + split; [by exists pre, (src ++ s)|]. exists (pre ++ src), s. rewrite <- app_assoc.
      split; [done|]. unfold tok_end. by rewrite Ho, blen_app, (tok_text_blen _ _ Ht).
    + rewrite app_assoc. apply IH; [by rewrite blen_app | done].
Qed.

Lemma span_step_good s acc t :
  Forall (good_span s) acc.1 -> boundary (offset t) s -> boundary (tok_end t) s ->
  (forall e, acc.2 = Some e -> match acc.1 with r :: _ => e = r.2 | [] => True end) ->
  Forall (good_span s) (span_step acc t).1 /\
  (forall e, (span_step acc t).2 = Some e -> match (span_step acc t).1 with r :: _ => e = r.2 | [] => True end).
Proof.
  destruct acc as [spans prev]. simpl. intros Hg Ho He Hp.
  assert (good_span s (offset t, tok_end t)) as Hnew by (split_and!; simpl; auto; unfold tok_end; lia).
  assert ((offset t <= tok_end t)%nat) as Hle by (unfold tok_end; lia).
  unfold span_step. destruct (kind t); try done; (destruct spans as [|[a b] spans];
    [simpl; split; [by constructor|by intros e [= <-]] |];
    destruct (bool_decide _) eqn:E; simpl; (split; [|by intros e [= <-]]); [|by constructor];
    bool_prop; specialize (Hp _ E); simpl in Hp; subst b;
    apply Forall_cons in Hg as [(Ha & Hb & Hab) Hg]; constructor; [|done];
    split_and!; simpl in *; auto; lia).
Qed.

Lemma shell_word_spans_good s : Forall (good_span s) (shell_word_spans s).
Proof.
  unfold shell_word_spans. apply Forall_reverse.
  assert (forall t, t ∈ tokenize s -> boundary (offset t) s /\ boundary (tok_end t) s) as Hb.
  { intros t Ht. by apply (ahead_boundaries false 0 (tokenize s) s []); [apply tokenize_ahead|..]. }
  revert Hb. generalize (tokenize s). intros ts Hb.
  assert (forall acc, Forall (good_span s) acc.1 ->
    (forall e, acc.2 = Some e -> match acc.1 with r :: _ => e = r.2 | [] => True end) ->
    Forall (good_span s) (fold_left span_step ts acc).1) as H; [|by apply H].
  induction ts as [|t ts IH]; intros acc Hg Hp; simpl; [done|].
  destruct (Hb t ltac:(set_solver)) as [Ho He].
  destruct (span_step_good s acc t Hg Ho He Hp). apply IH; [|done..]. set_solver.
Qed.

(** A white space character in front of the first word is skipped. *)
Lemma tok_step_white st c rest :
  is_whitespace c = true -> current st = [] -> quote st = None -> escaped st = false ->
  tok_step false st c rest =
  ({| tokens := tokens st; current := []; current_start := (byte_pos st + len_utf8 c)%nat;
      byte_pos := (byte_pos st + len_utf8 c)%nat; quote := None; escaped := false |}, rest).
Proof.
  intros Hw Hc Hq He. unfold tok_step. rewrite He, Hq.
  assert (forall d, is_whitespace d = false -> (c =? d) = false) as Hn.
  { intros d Hd. apply N.eqb_neq. intros ->. congruence. }
  assert (is_shellism c = false) as Hs.
  { unfold is_shellism, lit. simpl. rewrite !Hn by done. done. }
  rewrite (Hn BACKSLASH), (Hn SQUOTE), (Hn DQUOTE), (Hn (ch "$")), Hs, (Hn (ch "|")),
    (Hn (ch ";")), (Hn (ch "&")), (Hn (ch ">")), (Hn (ch "<")), Hw by done. simpl.
  unfold flushed. by rewrite Hc.
Qed.

Lemma tokenize_lone_quote w q :
  forallb is_whitespace w = true -> is_quote q = true ->
  exists o, tokenize (w ++ [q]) = [token Arg [q] o].
Proof.
  intros Hw Hq. unfold tokenize, tokenize_inner.
  assert (forall st fuel, tokens st = [] -> current st = [] -> quote st = None -> escaped st = false ->
    (length (w ++ [q]) <= fuel)%nat ->
    exists o, tok_finish (tok_loop false fuel st (w ++ [q])).1 = [token Arg [q] o]) as H.
  { induction w as [|c w IH]; intros st [|fuel] Ht Hc Hqu He Hf; simpl in Hf; try lia.
    - simpl app. cbn [tok_loop]. unfold tok_step. rewrite He, Hqu.
      unfold is_quote in Hq. bool_prop. destruct Hq as [Hq|Hq]; bool_prop; subst q;
        simpl; destruct fuel; simpl; unfold tok_finish; simpl; rewrite Hc, Ht; simpl; eauto.
    - simpl in Hw. apply andb_true_iff in Hw as [Hcw Hw]. simpl app. cbn [tok_loop].
      rewrite tok_step_white by done. apply (IH Hw); simpl; auto. lia. }
  by apply H.
Qed.

(** ** Properties *)

(** C11: splitting a command for the permission gate never panics, whatever the
    command; every segment it answers is written in the command, is not empty,
    and holds no separator, subshell parenthesis or redirection outside quotes
    and escapes, so that each segment runs one command. *)
Theorem segments_run_one_command cmd :
  exists gs, split_for_permissions cmd = Some gs /\
    forall g, g ∈ gs -> g <> [] /\ clean g /\ exists a b, trim cmd = a ++ g ++ b.
Proof.
  destruct (split_for_permissions_ok cmd) as (gs & -> & H). exists gs. split; [done|].
  intros g Hg. by eapply Forall_forall in H.
Qed.

(** In a command without redirections nothing is dropped by the split: the
    command is a sequence of pieces and separators, and the segments are exactly
    the pieces, trimmed, without the empty ones. *)
Theorem segments_cover_the_command cmd gs :
  existsb is_redirect (tokenize_inner (trim cmd) true) = false ->
  split_for_permissions cmd = Some gs ->
  exists d gs' text, woven d gs' /\ trim cmd = d ++ text /\ gs = push_segment gs' text.
Proof. apply split_for_permissions_covers. Qed.

Lemma segments_cover_the_command_witness :
  exists d gs' text, woven d gs' /\ trim (lit "a 'b;c' && (d)") = d ++ text /\
    [lit "a 'b;c'"; lit "d"] = push_segment gs' text.
Proof. apply segments_cover_the_command; vm_compute; reflexivity. Defined.

(** [contains_substitution] finds exactly the substitutions the shell would
    run: a backquote or [$(] outside single quotes, or [<(] and [>(] outside all
    quotes, none of them escaped. *)
Theorem substitution_found_iff_live cmd :
  contains_substitution cmd = true <->
  exists a b, cmd = a ++ b /\ substitution_at (scan a) b = true.
Proof. apply contains_substitution_iff. Qed.

(** Parsing a command as a shell wrapper panics on the commands that are a
    lone quote character behind white space, and on no others. *)
Theorem wrapper_parse_panics_iff_lone_quote input :
  parse_shell_command_wrapper input = None <->
  exists q w, input = w ++ [q] /\ forallb is_whitespace w = true /\ is_quote q = true.
Proof.
  split.
  - intros H. destruct (parse_wrapper_cases input) as [Hq|(a & Ha & _)]; [done|]. congruence.
  - intros (q & w & -> & Hw & Hq). destruct (tokenize_lone_quote w q Hw Hq) as [o Ho].
    unfold parse_shell_command_wrapper. rewrite Ho. simpl. unfold is_shell_program. simpl value.
    by rewrite (proj2 (unquote_word_None [q])) by eauto.
Qed.

(** The payload of a parsed wrapper is where its range says: replacing it
    never panics, touches nothing around it, and putting a quoted payload's own
    command back gives the invocation. *)
Theorem wrapper_payload_roundtrip input p :
  parse_shell_command_wrapper input = Some (Parsed p) ->
  exists before behind,
    (forall r, exists quoted, replace_in p input r = Some (before ++ quoted ++ behind)) /\
    (forall q, payload_quote p = Some q ->
      input = before ++ [q] ++ command p ++ [q] ++ behind /\
      replace_in p input (command p) = Some input) /\
    (payload_quote p = None -> input = before ++ command p ++ behind).
Proof.
  intros H. destruct (parse_wrapper_cases input) as [Hq|(a & Ha & Hp)].
  { apply wrapper_parse_panics_iff_lone_quote in Hq. congruence. }
  assert (a = Parsed p) as -> by congruence.
  destruct (Hp p eq_refl) as (before & behind & Hr & Hi). exists before, behind.
  assert (forall r, replace_in p input r = Some (before ++
    (match payload_quote p with
     | Some q => q :: r ++ [q]
     | None => SQUOTE :: replace [SQUOTE] [SQUOTE; BACKSLASH; SQUOTE; SQUOTE] r ++ [SQUOTE]
     end) ++ behind)) as Hrep.
  { intros r. unfold replace_in. rewrite Hr. simpl. rewrite Hi at 1. rewrite slice_to_app. simpl.
    rewrite Hi at 1. rewrite app_assoc, <- blen_app, slice_from_app. done. }
  split_and!; [eauto| |].
  - intros q Hq. rewrite Hq in *. split; [rewrite Hi; simpl; by rewrite <- app_assoc|].
    by rewrite Hrep, <- Hi.
  - intros Hq. by rewrite Hq in Hi.
Qed.

Lemma wrapper_payload_roundtrip_witness :
  exists before behind,
    (forall r, exists quoted,
      replace_in {| command := lit "git push"; payload_range := (9%nat, 19%nat);
                    payload_quote := Some SQUOTE |} (lit "bash -lc 'git push' x") r =
      Some (before ++ quoted ++ behind)) /\
    (forall q, Some SQUOTE = Some q ->
      lit "bash -lc 'git push' x" = before ++ [q] ++ lit "git push" ++ [q] ++ behind /\
      replace_in {| command := lit "git push"; payload_range := (9%nat, 19%nat);
                    payload_quote := Some SQUOTE |} (lit "bash -lc 'git push' x") (lit "git push") =
      Some (lit "bash -lc 'git push' x")) /\
    (Some SQUOTE = None -> lit "bash -lc 'git push' x" = before ++ lit "git push" ++ behind).
Proof.
  apply (wrapper_payload_roundtrip (lit "bash -lc 'git push' x")
    {| command := lit "git push"; payload_range := (9%nat, 19%nat); payload_quote := Some SQUOTE |}).
  vm_compute. reflexivity.
Defined.
End Segments.
