(* ===== verification/Permissions.v ===== *)
(** The permission gate of fork-core: whether a command may run, by the host's
    deny, ask and allow rules.

    [fork-core/rtk/src/permissions.rs], and the prefix readers it takes from
    [fork-core/rtk/src/discover/registry.rs].  The executables on the search
    path are the environment's: [on_path absolute basename] stands for
    [absolute_matches_path_executable].  [None] is a panic. *)

From S2P Require Import Prelude RStr Lexer Segments.
From Stdlib Require Import ZifyBool ZifyN.

Module Permissions.
Import Lexer Segments.

Inductive PermissionVerdict := Allow | Deny | Ask | Default.

#[export] Instance PermissionVerdict_eq_dec : EqDecision PermissionVerdict.
Proof. solve_decision. Defined.

Definition MAX_MATCHING_PEELS : nat := 32.
Definition MAX_WRAPPER_DEPTH : nat := 3.
Definition MATCH_ONLY_KEYWORDS : list rstr := [lit "sudo"; lit "xargs"].
Definition BUILTIN_TRANSPARENT_PREFIXES : list rstr :=
  [lit "uv run"; lit "noglob"; lit "command"; lit "builtin"; lit "exec"; lit "nocorrect"].

(** ** Matching a command against a rule *)

Definition extract_bash_pattern (rule : rstr) : rstr :=
  match strip_prefix (lit "Bash(") rule with
  | Some inner => match strip_suffix (lit ")") inner with Some pattern => pattern | None => rule end
  | None => rule
  end.

(** The loop of [glob_matches] behind its first part; [remaining] is
    [cmd[search_from..]]. *)
Fixpoint glob_rest (remaining : rstr) (parts : list rstr) : bool :=
  match parts with
  | [] => true
  | part :: parts' =>
      if is_empty part then glob_rest remaining parts'
      else match parts' with
           | [] => ends_with part remaining
           | _ =>
               match split_once part remaining with
               | Some (_, behind) => glob_rest behind parts'
               | None =>
                   let trimmed := trim_end part in
                   if negb (is_empty trimmed) && ends_with trimmed remaining
                   then glob_rest [] parts'
                   else false
               end
           end
  end.

Definition STAR : char := 42.

Definition glob_parts (pattern : rstr) : list rstr :=
  let normalized := replace (lit "*:") (lit "* ") (replace (lit ":*") (lit " *") pattern) in
  split_char (N.eqb STAR) normalized.

Definition glob_matches (cmd pattern : rstr) : bool :=
  let parts := glob_parts pattern in
  if forallb is_empty parts then true
  else match parts with
       | [] => true
       | first :: parts =>
           if is_empty first then glob_rest cmd parts
           else match strip_prefix first cmd with
                | Some remaining => glob_rest remaining parts
                | None => false
                end
       end.

Definition normalize_words (s : rstr) : rstr := join (lit " ") (split_whitespace s).

(** [cmd == p || cmd.starts_with(p + " ")]. *)
Definition runs_command (cmd p : rstr) : bool := str_eqb cmd p || starts_with (p ++ lit " ") cmd.

Definition command_matches_pattern (cmd pattern : rstr) : bool :=
  let cmd := normalize_words (replace [BACKSLASH; LF] [] cmd) in
  let pattern := normalize_words pattern in
  let general :=
    if contains_char STAR pattern then glob_matches cmd pattern else runs_command cmd pattern in
  if str_eqb pattern (lit "*") then true
  else match strip_suffix (lit "*") pattern with
       | Some p =>
           let prefix := trim_end (trim_end_matches (N.eqb (ch ":")) p) in
           if is_empty prefix || str_eqb prefix (lit "*") then true
           else if negb (contains_char STAR prefix) then runs_command cmd prefix
           else general
       | None => general
       end.

(** ** Prefixes a command runs behind *)

(** [s.parse::<i32>().is_ok()]. *)
Definition parse_i32_ok (s : rstr) : bool :=
  let digits limit d :=
    negb (is_empty d) && forallb is_ascii_digit d && (dec_value d <=? limit) in
  match s with
  | c :: d => if c =? ch "-" then digits 2147483648 d
              else if c =? ch "+" then digits 2147483647 d
              else digits 2147483647 s
  | [] => false
  end.

Section Gate.
Context (on_path : rstr -> rstr -> bool).

Definition executable_name (program : rstr) : rstr :=
  if starts_with (lit "/") program then
    let basename := default program (file_name program) in
    if on_path program basename then basename else program
  else program.

Fixpoint nice_options (args : list ParsedToken) : list ParsedToken :=
  match args with
  | [] => []
  | a :: rest =>
      let v := value a in
      if str_eqb v (lit "--") then rest
      else if one_of v [lit "-n"; lit "--adjustment"] then
        match rest with [] => [] | _ :: rest => nice_options rest end
      else if starts_with (lit "--adjustment=") v then nice_options rest
      else if starts_with (lit "-") v && parse_i32_ok (tail v) then nice_options rest
      else args
  end.

(** The bytes of a word behind its first one start with [i], [o] or [e]. *)
Definition second_byte_is_mode (v : rstr) : bool :=
  match nth_error (utf8 v) 1 with
  | Some b => (b =? ch "i") || (b =? ch "o") || (b =? ch "e")
  | None => false
  end.

Fixpoint stdbuf_options (saw_mode : bool) (args : list ParsedToken) : bool * list ParsedToken :=
  match args with
  | [] => (saw_mode, [])
  | a :: rest =>
      let v := value a in
      if str_eqb v (lit "--") then (saw_mode, rest)
      else if one_of v [lit "-i"; lit "-o"; lit "-e"; lit "--input"; lit "--output"; lit "--error"] then
        match rest with [] => (true, []) | _ :: rest => stdbuf_options true rest end
      else if starts_with (lit "--input=") v || starts_with (lit "--output=") v
              || starts_with (lit "--error=") v || (2 <? slen v) && second_byte_is_mode v
      then stdbuf_options true rest
      else (saw_mode, args)
  end.

Fixpoint time_options (args : list ParsedToken) : list ParsedToken :=
  match args with
  | [] => []
  | a :: rest => if one_of (value a) [lit "-p"; lit "--"] then time_options rest else args
  end.

(** [None] is the early return on an unknown option. *)
Fixpoint timeout_options (args : list ParsedToken) : option (list ParsedToken) :=
  match args with
  | [] => Some []
  | a :: rest =>
      let v := value a in
      if str_eqb v (lit "--") then Some rest
      else if one_of v [lit "-s"; lit "--signal"; lit "-k"; lit "--kill-after"] then
        match rest with [] => Some [] | _ :: rest => timeout_options rest end
      else if one_of v [lit "--preserve-status"; lit "--foreground"; lit "-v"; lit "--verbose"] then
        timeout_options rest
      else if starts_with (lit "--signal=") v || starts_with (lit "--kill-after=") v
              || (2 <? slen v) && (starts_with (lit "-s") v || starts_with (lit "-k") v)
      then timeout_options rest
      else if starts_with (lit "-") v then None
      else Some args
  end.

Definition is_duration (v : rstr) : bool :=
  let number := trim_end_matches (fun c => existsb (N.eqb c) (lit "smhd")) v in
  negb (is_empty number) && forallb (fun b => is_ascii_digit b || (b =? ch ".")) number.

(** The arguments from the wrapped command on: the [index] of
    [execution_prefix] when its [match] ends. *)
Definition wrapped_args (program : rstr) (args : list ParsedToken) : option (list ParsedToken) :=
  if str_eqb program (lit "nice") then Some (nice_options args)
  else if str_eqb program (lit "stdbuf") then
    let '(saw_mode, rest) := stdbuf_options false args in
    if saw_mode then Some rest else None
  else if str_eqb program (lit "time") then Some (time_options args)
  else if str_eqb program (lit "timeout") then
    match timeout_options args with
    | Some (duration :: rest) => if is_duration (value duration) then Some rest else None
    | _ => None
    end
  else if str_eqb program (lit "nohup") then
    match args with
    | a :: _ => if starts_with (lit "-") (value a) then None else Some args
    | [] => Some []
    end
  else None.

Definition execution_prefix (command : rstr) : option (option (rstr * rstr)) :=
  match List.filter is_arg (tokenize command) with
  | [] => Some None
  | program :: args =>
      match wrapped_args (executable_name (value program)) args with
      | Some (child :: _) =>
          before ← slice_to (offset child) command;
          behind ← slice_from (offset child) command;
          Some (Some (trim_end before, trim_start behind))
      | _ => Some None
      end
  end.

(** The scan of [ASSIGNMENT_WORD] behind its [=]: the text behind the value,
    which ends in front of white space or at the end of the command. *)
Inductive value_mode := Plain | InDouble | Escape | InSingle.

Fixpoint assignment_value (m : value_mode) (s : rstr) : option rstr :=
  match s with
  | [] => match m with Plain => Some [] | _ => None end
  | c :: rest =>
      match m with
      | Plain =>
          if is_whitespace c then Some s
          else if c =? DQUOTE then assignment_value InDouble rest
          else if c =? SQUOTE then assignment_value InSingle rest
          else assignment_value Plain rest
      | InDouble =>
          if c =? DQUOTE then assignment_value Plain rest
          else if c =? BACKSLASH then assignment_value Escape rest
          else assignment_value InDouble rest
      | Escape => if c =? LF then None else assignment_value InDouble rest
      | InSingle => if c =? SQUOTE then assignment_value Plain rest else assignment_value InSingle rest
      end
  end.

(** [ASSIGNMENT_WORD.find(cmd)], as the text behind the match. *)
Definition assignment_word (cmd : rstr) : option rstr :=
  match cmd with
  | c :: rest =>
      if is_name_start c then
        match take_while is_name_char rest with
        | (_, eq :: v) => if eq =? ch "=" then trim_start <$> assignment_value Plain v else None
        | _ => None
        end
      else None
  | [] => None
  end.

(** The option loop of [peel_env]: the words from the command on, [Some None] for
    its early return. *)
Fixpoint env_options (cmd : rstr) (words : list range) : option (option (list range)) :=
  match words with
  | [] => Some (Some [])
  | (a, b) :: rest =>
      word ← slice a b cmd;
      if one_of word [lit "-i"; lit "-"; lit "--ignore-environment"; lit "-0"; lit "--null"]
      then env_options cmd rest
      else if one_of word [lit "-u"; lit "--unset"; lit "-C"; lit "--chdir"] then
        match rest with [] => Some (Some []) | _ :: rest => env_options cmd rest end
      else if str_eqb word (lit "--") then Some (Some rest)
      else if starts_with (lit "--unset=") word || starts_with (lit "--chdir=") word
      then env_options cmd rest
      else if starts_with (lit "-") word then Some None
      else Some (Some words)
  end.

Definition peel_env (cmd : rstr) : option (option rstr) :=
  match shell_word_spans cmd with
  | [] => Some None
  | (a, b) :: words =>
      program ← slice a b cmd;
      if negb (str_eqb (rsplit_next (ch "/") program) (lit "env")) then Some None
      else
        options ← env_options cmd words;
        match options with
        | Some ((start, _) :: _) => behind ← slice_from start cmd; Some (Some (trim_start behind))
        | _ => Some None
        end
  end.

Definition strip_word_prefix (cmd prefix : rstr) : option rstr :=
  if str_eqb cmd prefix then Some []
  else match strip_prefix prefix cmd with
       | Some (c :: rest) => if c =? ch " " then Some (trim_start rest) else None
       | _ => None
       end.

Fixpoint first_prefix (cmd : rstr) (prefixes : list rstr) : option rstr :=
  match prefixes with
  | [] => None
  | p :: prefixes =>
      match strip_word_prefix cmd p with
      | Some rest => Some rest
      | None => first_prefix cmd prefixes
      end
  end.

Definition peel_one (cmd : rstr) (prefixes : list rstr) : option (option rstr) :=
  match assignment_word cmd with
  | Some rest => Some (Some (trim_start rest))
  | None =>
      env ← peel_env cmd;
      match env with
      | Some rest => Some (Some rest)
      | None =>
          prefix ← execution_prefix cmd;
          match prefix with
          | Some (_, inner) => Some (Some inner)
          | None => Some (first_prefix cmd prefixes)
          end
      end
  end.

(** ** Readings of a segment *)

Record Readings := { readings : list rstr; complete : bool }.

Definition as_written (segment : rstr) : Readings :=
  {| readings := [segment]; complete := true |}.

(** The loop of [matching_readings]; [room] is how many readings may still be
    pushed before [readings.len() > MAX_MATCHING_PEELS]. *)
Fixpoint peel_loop (prefixes : list rstr) (room : nat) (acc : list rstr) (rest : rstr)
  : option Readings :=
  peeled ← peel_one rest prefixes;
  match peeled with
  | None => Some {| readings := acc; complete := true |}
  | Some inner =>
      if is_empty inner || str_eqb inner rest then Some {| readings := acc; complete := true |}
      else match room with
           | O => Some {| readings := acc; complete := false |}
           | S room => peel_loop prefixes room (acc ++ [inner]) inner
           end
  end.

Definition matching_readings (segment : rstr) (prefixes : list rstr) : option Readings :=
  peel_loop prefixes MAX_MATCHING_PEELS [trim segment] (trim segment).

(** The loop of [strip_grammar_residue]; its fuel is the length of the text,
    which every round shortens. *)
Fixpoint strip_residue_loop (fuel : nat) (rest : rstr) : rstr :=
  match fuel with
  | O => rest
  | S fuel =>
      match span (fun c => (c =? ch " ") || (c =? 9)) rest with
      | (word, _ :: tl) =>
          if one_of word [lit "{"; lit "}"; lit "!"; lit "("; lit ")"] then
            let next := trim_start tl in
            if str_eqb next rest then rest else strip_residue_loop fuel next
          else rest
      | _ => rest
      end
  end.

Definition strip_grammar_residue (segment : rstr) : rstr :=
  strip_residue_loop (S (length (trim segment))) (trim segment).

(** Longer prefixes first, ties in text order, duplicates removed. *)
Definition prefix_le (a b : rstr) : Prop :=
  (blen b < blen a)%nat \/ blen a = blen b /\ str_cmp a b <> Gt.

#[local] Instance prefix_le_dec a b : Decision (prefix_le a b).
Proof. unfold prefix_le. apply _. Defined.

Fixpoint dedup (l : list rstr) : list rstr :=
  match l with
  | a :: (b :: _) as tl => if str_eqb a b then dedup tl else a :: dedup tl
  | _ => l
  end.

Definition normalize_transparent_prefixes (prefixes : list rstr) : list rstr :=
  dedup (merge_sort prefix_le (List.filter (fun p => negb (is_empty p)) (map trim prefixes))).

Definition gate_prefixes (transparent_prefixes : list rstr) : list rstr :=
  normalize_transparent_prefixes
    (BUILTIN_TRANSPARENT_PREFIXES ++ MATCH_ONLY_KEYWORDS ++ transparent_prefixes).

(** ** The verdict *)

(** [iter().any(..)] over operations that may panic. *)
Fixpoint any_of {A} (f : A -> option bool) (l : list A) : option bool :=
  match l with
  | [] => Some false
  | a :: l => b ← f a; if (b : bool) then Some true else any_of f l
  end.

Inductive WrapperVerdict := NoWrapper | Wrapped | WrapperDeny.

(** [matches_any]: a rule names the segment or one of its readings. *)
Definition matches_any (segment : rstr) (peeled : Readings) (pattern : rstr) : bool :=
  command_matches_pattern segment pattern
  || existsb (fun reading => command_matches_pattern reading pattern) (readings peeled).

Section Rules.
Context (deny_rules ask_rules allow_rules prefixes : list rstr).

Definition denied (segment : rstr) (peeled : Readings) : bool :=
  existsb (matches_any segment peeled) deny_rules.

(** What a wrapper's script is judged by, given the verdict on the wrappers its
    own commands reach: [true] is a denied command. *)
Definition script_denied (inner_verdict : list rstr -> option WrapperVerdict) (script : rstr)
  : option bool :=
  segments ← split_for_permissions (replace [BACKSLASH; LF] [] script);
  any_of (fun inner =>
    let inner := trim inner in
    inner_peeled ← matching_readings (strip_grammar_residue inner) prefixes;
    if denied inner inner_peeled then Some true
    else
      v ← inner_verdict (readings inner_peeled);
      Some (match v with WrapperDeny => true | _ => false end)) segments.

(** The loop over the readings; [inside] is [None] when the wrapper is too deep
    to be read. *)
Fixpoint scan_wrappers (inside : option (list rstr -> option WrapperVerdict)) (rs : list rstr)
    (wrapped : bool) : option WrapperVerdict :=
  match rs with
  | [] => Some (if wrapped then Wrapped else NoWrapper)
  | reading :: rs =>
      parsed ← parse_shell_command_wrapper reading;
      match parsed with
      | NotWrapper => scan_wrappers inside rs wrapped
      | Ambiguous => scan_wrappers inside rs true
      | Parsed payload =>
          match inside with
          | None => if is_nil deny_rules then scan_wrappers inside rs true else Some WrapperDeny
          | Some inner_verdict =>
              inner_denied ← script_denied inner_verdict (command payload);
              if (inner_denied : bool) then Some WrapperDeny else scan_wrappers inside rs true
          end
      end
  end.

(** [depth] of the source is [MAX_WRAPPER_DEPTH - room]. *)
Fixpoint wrapper_verdict (room : nat) (peeled : list rstr) : option WrapperVerdict :=
  scan_wrappers (match room with O => None | S room => Some (wrapper_verdict room) end) peeled false.

Definition reads_past_prefixes : bool := negb (is_nil deny_rules) || negb (is_nil ask_rules).

(** A segment with its readings. *)
Definition read_segment (segment : rstr) : option (rstr * Readings) :=
  let segment := trim segment in
  peeled ← (if reads_past_prefixes
            then matching_readings (strip_grammar_residue segment) prefixes
            else Some (as_written segment));
  Some (segment, peeled).

(** The loop over the segments' wrappers: [None] inside is the early [Deny]. *)
Fixpoint wrappers_seen (rs : list (rstr * Readings)) (seen : bool) : option (option bool) :=
  match rs with
  | [] => Some (Some seen)
  | (_, peeled) :: rs =>
      v ← wrapper_verdict MAX_WRAPPER_DEPTH (readings peeled);
      match v with
      | WrapperDeny => Some None
      | Wrapped => wrappers_seen rs true
      | NoWrapper => wrappers_seen rs seen
      end
  end.

Definition asks (r : rstr * Readings) : bool :=
  let '(segment, peeled) := r in
  (reads_past_prefixes && negb (complete peeled)) || existsb (matches_any segment peeled) ask_rules.

Definition allowed (r : rstr * Readings) : bool :=
  existsb (command_matches_pattern r.1) allow_rules.

(** The scan of [ansi_c_quote_defeats_lexer]: the quote flags of [QuoteScan] and
    the two variables of the loop, with the byte before the rest. *)
Fixpoint ansi_scan (prev : option N) (bytes : list N) (in_single in_double ansi_span : bool)
    (backslash_run : N) : bool :=
  match bytes with
  | [] => false
  | b :: rest =>
      if (b =? BACKSLASH) && negb in_single then
        match rest with
        | [] => false
        | skipped :: rest => ansi_scan (Some skipped) rest in_single in_double ansi_span backslash_run
        end
      else
        let in_single' := if (b =? SQUOTE) && negb in_double then negb in_single else in_single in
        let in_double' := if (b =? DQUOTE) && negb in_single then negb in_double else in_double in
        if (b =? SQUOTE) && negb in_double then
          if negb in_single then
            ansi_scan (Some b) rest in_single' in_double' (bool_decide (prev = Some (ch "$"))) 0
          else if ansi_span && (backslash_run mod 2 =? 1) then true
          else ansi_scan (Some b) rest in_single' in_double' ansi_span backslash_run
        else
          ansi_scan (Some b) rest in_single' in_double' ansi_span
            (if in_single then (if b =? BACKSLASH then backslash_run + 1 else 0) else backslash_run)
  end.

Definition ansi_c_quote_defeats_lexer (cmd : rstr) : bool :=
  ansi_scan None (utf8 cmd) false false false 0.

(** The answer once no rule denied: [live] are the segments that are not empty. *)
Definition final_verdict (cmd : rstr) (live : list (rstr * Readings)) (wrapper_seen : bool)
  : PermissionVerdict :=
  let unattestable :=
    wrapper_seen || contains_unattestable_construct cmd || ansi_c_quote_defeats_lexer cmd in
  if existsb asks live then Ask
  else if negb (is_nil live) && forallb allowed live && negb (is_nil allow_rules) then
    if unattestable then Ask else Allow
  else Default.

Definition check_segments (cmd : rstr) (segments : list rstr) : option PermissionVerdict :=
  rs ← mapM read_segment segments;
  if existsb (fun r => denied r.1 r.2) rs then Some Deny
  else
    seen ← wrappers_seen rs false;
    match seen with
    | None => Some Deny
    | Some seen => Some (final_verdict cmd (List.filter (fun r => negb (is_empty r.1)) rs) seen)
    end.
End Rules.

Definition check_command_with_prefixes (cmd : rstr)
    (deny_rules ask_rules allow_rules transparent_prefixes : list rstr) : option PermissionVerdict :=
  segments ← split_for_permissions cmd;
  check_segments deny_rules ask_rules allow_rules (gate_prefixes transparent_prefixes) cmd segments.

(** ** Texts read off a command *)

Lemma trim_start_sub s : trim_start s ⊆ s.
Proof.
  unfold trim_start. destruct (skip_while_suffix is_whitespace s) as (w & H & _).
  rewrite H at 2. set_solver.
Qed.

Lemma trim_sub s : trim s ⊆ s.
Proof. destruct (trim_parts s) as (w & w' & H & _). rewrite H at 2. set_solver. Qed.

Lemma assignment_value_sub m s r : assignment_value m s = Some r -> r ⊆ s.
Proof.
  revert m r. induction s as [|c s IH]; intros m r; simpl.
  { destruct m; intros [= <-]; done. }
  destruct m; repeat case_match; intros Hv; try discriminate; try (apply IH in Hv; set_solver).
  by injection Hv as <-.
Qed.

Lemma assignment_word_sub s r : assignment_word s = Some r -> r ⊆ s.
Proof.
  unfold assignment_word. destruct s as [|c s]; [done|]. destruct (is_name_start c); [|done].
  destruct (take_while is_name_char s) as [name [|d v]] eqn:E; [done|].
  apply take_while_app in E as [-> _]. destruct (d =? ch "="); [|done].
  intros (u & Hu & ->)%fmap_Some. apply assignment_value_sub in Hu.
  pose proof (trim_start_sub u). set_solver.
Qed.

Lemma strip_word_prefix_sub s p r : strip_word_prefix s p = Some r -> r ⊆ s.
Proof.
  unfold strip_word_prefix. destruct (str_eqb s p); [intros [= <-]; set_solver|].
  destruct (strip_prefix p s) as [[|c u]|] eqn:E; [done| |done].
  destruct (c =? ch " "); [|done]. intros [= <-]. apply strip_prefix_Some in E as ->.
  pose proof (trim_start_sub u). set_solver.
Qed.

Lemma first_prefix_sub s ps r : first_prefix s ps = Some r -> r ⊆ s.
Proof.
  induction ps as [|p ps IH]; simpl; [done|].
  destruct (strip_word_prefix s p) eqn:E; [|done]. intros [= <-]. by eapply strip_word_prefix_sub.
Qed.

(** An operation that does not panic and answers a text of the command. *)
Definition reads (s : rstr) (o : option (option rstr)) : Prop :=
  exists r, o = Some r /\ forall u, r = Some u -> u ⊆ s.

Lemma reads_none s : reads s (Some None).
Proof. by exists None. Qed.

Lemma env_options_total s words :
  Forall (good_span s) words ->
  exists r, env_options s words = Some r /\ forall l, r = Some l -> Forall (good_span s) l.
Proof.
  induction words as [words IH] using (induction_ltof1 _ (@length range)). unfold ltof in IH.
  intros Hw. destruct words as [|[a b] rest]; simpl; [eexists; split; [done|]; by intros l [= <-]|].
  pose proof Hw as Hw'. apply Forall_cons in Hw as [(Ha & Hb & Hab) Hr].
  destruct (boundary_slice a b s) as (word & -> & _); [done..|]. simpl.
  assert (forall l, Forall (good_span s) l -> exists r, Some (Some l) = Some r /\
    forall l', r = Some l' -> Forall (good_span s) l') as Hend.
  { intros l Hl. eexists. split; [done|]. by intros l' [= <-]. }
  repeat match goal with |- context [if ?b then _ else _] => destruct b end;
    try (by apply IH; simpl; auto); try (by apply Hend); [|by eexists].
  destruct rest as [|x rest]; [by apply Hend|].
  apply IH; [simpl; lia|]. by apply Forall_cons in Hr as [_ ?].
Qed.

Lemma peel_env_reads s : reads s (peel_env s).
Proof.
  unfold peel_env. pose proof (shell_word_spans_good s) as Hw.
  destruct (shell_word_spans s) as [|[a b] words]; [apply reads_none|].
  apply Forall_cons in Hw as [(Ha & Hb & Hab) Hw].
  destruct (boundary_slice a b s) as (program & -> & _); [done..|]. simpl.
  destruct (negb _); [apply reads_none|].
  destruct (env_options_total s words Hw) as (r & -> & Hr). simpl.
  destruct r as [[|[start e] l]|]; [apply reads_none| |apply reads_none].
  specialize (Hr _ eq_refl). apply Forall_cons in Hr as [(Hs & _ & _) _].
  destruct (boundary_slice_from start s Hs) as (z & -> & Hz). simpl.
  eexists. split; [done|]. intros u [= <-]. pose proof (trim_start_sub z). set_solver.
Qed.

(** The option loops end at a suffix of the arguments. *)
Ltac options_sub IH :=
  repeat match goal with
    | |- (if ?b then _ else _) ⊆ _ => destruct b
    | |- (if ?b then _ else _).2 ⊆ _ => destruct b
    end;
  repeat match goal with |- context [match ?l with [] => _ | _ :: _ => _ end] => destruct l end;
  simpl;
  first
    [ set_solver
    | match goal with
      | |- ?f ?l ⊆ _ =>
          let H := fresh in assert (f l ⊆ l) as H by (apply IH; simpl; lia); set_solver
      | |- (?f ?b ?l).2 ⊆ _ =>
          let H := fresh in assert ((f b l).2 ⊆ l) as H by (apply IH; simpl; lia); set_solver
      end ].

Lemma nice_options_sub args : nice_options args ⊆ args.
Proof.
  induction args as [args IH] using (induction_ltof1 _ (@length ParsedToken)). unfold ltof in IH.
  destruct args as [|a rest]; simpl; [done|]. options_sub IH.
Qed.

Lemma stdbuf_options_sub saw args : (stdbuf_options saw args).2 ⊆ args.
Proof.
  revert saw. induction args as [args IH] using (induction_ltof1 _ (@length ParsedToken)).
  unfold ltof in IH. intros saw. destruct args as [|a rest]; simpl; [done|]. options_sub IH.
Qed.

Lemma time_options_sub args : time_options args ⊆ args.
Proof.
  induction args as [args IH] using (induction_ltof1 _ (@length ParsedToken)). unfold ltof in IH.
  destruct args as [|a rest]; simpl; [done|]. options_sub IH.
Qed.

Lemma timeout_options_sub args l : timeout_options args = Some l -> l ⊆ args.
Proof.
  revert l. induction args as [args IH] using (induction_ltof1 _ (@length ParsedToken)).
  unfold ltof in IH. intros l. destruct args as [|a rest]; simpl; [by intros [= <-]|].
  repeat match goal with |- (if ?b then _ else _) = _ -> _ => destruct b end;
    try done; try (intros [= <-]; set_solver);
    try (intros H; apply IH in H; simpl; [set_solver | lia]).
  destruct rest as [|x rest]; [intros [= <-]; set_solver|].
  intros H. apply IH in H; simpl; [set_solver | lia].
Qed.

Lemma wrapped_args_sub p args l : wrapped_args p args = Some l -> l ⊆ args.
Proof.
  unfold wrapped_args. destruct (str_eqb p (lit "nice")); [intros [= <-]; apply nice_options_sub|].
  destruct (str_eqb p (lit "stdbuf")).
  { pose proof (stdbuf_options_sub false args). destruct (stdbuf_options false args) as [[] r];
      [by intros [= <-]|done]. }
  destruct (str_eqb p (lit "time")); [intros [= <-]; apply time_options_sub|].
  destruct (str_eqb p (lit "timeout")).
  { pose proof (timeout_options_sub args). destruct (timeout_options args) as [[|d r]|]; [done| |done].
    destruct (is_duration _); [|done]. intros [= <-]. specialize (H _ eq_refl). set_solver. }
  destruct (str_eqb p (lit "nohup")); [|done].
  destruct args as [|a r]; [by intros [= <-]|]. destruct (starts_with _ _); [done|]. by intros [= <-].
Qed.

Lemma execution_prefix_reads s :
  exists r, execution_prefix s = Some r /\ forall x u, r = Some (x, u) -> u ⊆ s.
Proof.
  unfold execution_prefix. pose proof (tokenize_ahead s false) as Ha. fold (tokenize s) in Ha.
  assert (List.filter is_arg (tokenize s) ⊆ tokenize s) as Hsub.
  { intros t. rewrite !list_elem_of_In, List.filter_In. tauto. }
  destruct (List.filter is_arg (tokenize s)) as [|program args]; [by exists None|].
  destruct (wrapped_args _ args) as [[|child rest]|] eqn:E; [by exists None| |by exists None].
  apply wrapped_args_sub in E.
  destruct (ahead_boundaries false 0 (tokenize s) s [] child) as [Hb _]; [done..|set_solver|].
  change ([] ++ s) with s in Hb. destruct (boundary_slice_to _ _ Hb) as (x & -> & _).
  destruct (boundary_slice_from _ _ Hb) as (z & -> & Hz). simpl.
  eexists. split; [done|]. intros x' u [= _ <-]. pose proof (trim_start_sub z). set_solver.
Qed.

(** Peeling a prefix never panics, and reads a part of the command. *)
Lemma peel_one_reads s ps : reads s (peel_one s ps).
Proof.
  unfold peel_one. destruct (assignment_word s) as [r|] eqn:E.
  { eexists. split; [done|]. intros u [= <-]. apply assignment_word_sub in E.
    pose proof (trim_start_sub r). set_solver. }
  destruct (peel_env_reads s) as ([r|] & -> & Hr); simpl.
  { eexists. split; [done|]. intros u [= <-]. auto. }
  destruct (execution_prefix_reads s) as ([[x r]|] & -> & Hx); simpl.
  { eexists. split; [done|]. intros u [= <-]. eauto. }
  eexists. split; [done|]. intros u. apply first_prefix_sub.
Qed.

Lemma peel_loop_total s ps room acc rest :
  rest ⊆ s -> Forall (fun r => r ⊆ s) acc ->
  exists rd, peel_loop ps room acc rest = Some rd /\ Forall (fun r => r ⊆ s) (readings rd) /\
    (length (readings rd) <= length acc + room)%nat /\
    (complete rd = false -> length (readings rd) = (length acc + room)%nat) /\
    exists l, readings rd = acc ++ l.
Proof.
  revert acc rest. induction room as [|room IH]; intros acc rest Hr Ha; simpl;
    destruct (peel_one_reads rest ps) as ([inner|] & -> & Hi); simpl;
    try (eexists; split; [done|]; simpl; split_and!; [done|lia|done|by exists []; rewrite app_nil_r]);
    (destruct (_ || _); [eexists; split; [done|]; simpl; split_and!; [done|lia|done|by exists []; rewrite app_nil_r]|]).
  - eexists. split; [done|]. simpl. split_and!; [done|lia|intros _; lia|by exists []; rewrite app_nil_r].
  - specialize (Hi _ eq_refl). destruct (IH (acc ++ [inner]) inner) as (rd & -> & H1 & H2 & H3 & l & H4).
    + set_solver.
    + apply Forall_app. split; [done|]. apply Forall_singleton. set_solver.
    + rewrite length_app in *. simpl in *. eexists. split; [done|]. split_and!; [done|lia| |].
      * intros Hc. rewrite H3 by done. lia.
      * exists (inner :: l). by rewrite H4, <- app_assoc.
Qed.

(** Reading a segment's prefixes never panics, whatever the segment: at most 33
    readings, the first as written, each a part of it; the reading is incomplete
    only when all of them were needed. *)
Lemma matching_readings_total s ps :
  exists rd, matching_readings s ps = Some rd /\ Forall (fun r => r ⊆ s) (readings rd) /\
    (length (readings rd) <= S MAX_MATCHING_PEELS)%nat /\
    (complete rd = false -> length (readings rd) = S MAX_MATCHING_PEELS) /\
    head (readings rd) = Some (trim s).
Proof.
  unfold matching_readings. pose proof (trim_sub s) as Ht.
  destruct (peel_loop_total s ps MAX_MATCHING_PEELS [trim s] (trim s)) as (rd & -> & H1 & H2 & H3 & l & H4).
  - done.
  - by apply Forall_singleton.
  - eexists. split; [done|]. split_and!; auto. by rewrite H4.
Qed.

Lemma strip_residue_loop_sub fuel s : strip_residue_loop fuel s ⊆ s.
Proof.
  revert s. induction fuel as [|fuel IH]; intros s; simpl; [done|].
  destruct (span _ s) as [w [|d tl]] eqn:E; [done|]. apply span_app in E as ->.
  match goal with |- context [if ?b then (if _ then _ else _) else _] => destruct b end; [|done].
  destruct (str_eqb (trim_start tl) _); [done|].
  pose proof (IH (trim_start tl)). pose proof (trim_start_sub tl). set_solver.
Qed.

Lemma strip_grammar_residue_sub s : strip_grammar_residue s ⊆ s.
Proof.
  unfold strip_grammar_residue. pose proof (strip_residue_loop_sub (S (length (trim s))) (trim s)).
  pose proof (trim_sub s). set_solver.
Qed.

(** Its fuel is enough: the loop stops by itself. *)
Lemma strip_residue_loop_fuel s fuel fuel' :
  (length s < fuel)%nat -> (length s < fuel')%nat ->
  strip_residue_loop fuel s = strip_residue_loop fuel' s.
Proof.
  revert s fuel'. induction fuel as [|fuel IH]; intros s fuel' H H'; [lia|].
  destruct fuel' as [|fuel']; [lia|]. simpl.
  destruct (span _ s) as [w [|d tl]] eqn:E; [done|]. apply span_app in E as ->.
  match goal with |- context [if ?b then (if _ then _ else _) else _] => destruct b end; [|done].
  destruct (str_eqb (trim_start tl) _); [done|].
  assert ((length (trim_start tl) <= length tl)%nat) as Hl.
  { unfold trim_start. destruct (skip_while_suffix is_whitespace tl) as (x & Hx & _).
    rewrite Hx at 2. rewrite length_app. lia. }
  rewrite length_app in *. simpl in *. apply IH; lia.
Qed.

(** ** The gate does not panic on a command without quotes *)

Definition quote_free (s : rstr) : Prop := forall c, c ∈ s -> is_quote c = false.

Lemma quote_free_sub s t : quote_free s -> t ⊆ s -> quote_free t.
Proof. intros H Hs c Hc. auto. Qed.

Lemma replace_nil_sub p s : replace p [] s ⊆ s.
Proof.
  unfold replace. generalize (S (length s)). intros fuel. revert s.
  induction fuel as [|fuel IH]; intros s; simpl; [done|].
  destruct (split_once p s) as [[a b]|] eqn:E; [|done]. apply split_once_Some in E as ->.
  pose proof (IH b). set_solver.
Qed.

Lemma parse_wrapper_total s :
  quote_free s -> exists a, parse_shell_command_wrapper s = Some a /\
    forall p, a = Parsed p -> command p ⊆ s.
Proof.
  intros Hq. destruct (parse_wrapper_cases s) as [(q & w & -> & _ & H)|(a & Ha & Hp)].
  - rewrite (Hq q) in H; [done|]. set_solver.
  - exists a. split; [done|]. intros p ->. destruct (Hp p eq_refl) as (x & y & _ & ->).
    destruct (payload_quote p); set_solver.
Qed.

Lemma split_total s :
  exists gs, split_for_permissions s = Some gs /\ Forall (fun g => g ⊆ s) gs.
Proof.
  destruct (split_for_permissions_ok s) as (gs & E & H). exists gs. split; [done|].
  eapply Forall_impl; [exact H|]. simpl. intros g (_ & _ & a & b & Hg).
  pose proof (trim_sub s) as Hs. rewrite Hg in Hs. set_solver.
Qed.

Lemma any_of_total {A} (f : A -> option bool) l :
  Forall (fun a => is_Some (f a)) l -> is_Some (any_of f l).
Proof. induction 1 as [|a l [b Hb] _ IH]; simpl; [done|]. rewrite Hb. by destruct b. Qed.

Section RuleLemmas.
Context (deny ask allow prefixes : list rstr).

Lemma script_denied_total inner script :
  (forall rs, Forall quote_free rs -> is_Some (inner rs)) -> quote_free script ->
  is_Some (script_denied deny prefixes inner script).
Proof.
  intros Hin Hq. unfold script_denied. pose proof (replace_nil_sub [BACKSLASH; LF] script) as Hr.
  destruct (split_total (replace [BACKSLASH; LF] [] script)) as (gs & -> & Hg). simpl.
  apply any_of_total. eapply Forall_impl; [exact Hg|]. simpl. intros g Hgs.
  destruct (matching_readings_total (strip_grammar_residue (trim g)) prefixes) as (rd & -> & Hrd & _).
  simpl. destruct (denied deny (trim g) rd); [done|].
  destruct (Hin (readings rd)) as [v ->]; [|done].
  eapply Forall_impl; [exact Hrd|]. simpl. intros r Hr'. eapply quote_free_sub; [exact Hq|].
  pose proof (strip_grammar_residue_sub (trim g)). pose proof (trim_sub g). set_solver.
Qed.

Lemma scan_wrappers_total inside rs wrapped :
  (forall inner, inside = Some inner -> forall rs, Forall quote_free rs -> is_Some (inner rs)) ->
  Forall quote_free rs -> is_Some (scan_wrappers deny prefixes inside rs wrapped).
Proof.
  intros Hin Hrs. revert wrapped. induction Hrs as [|r rs Hr _ IH]; intros wrapped; simpl; [done|].
  destruct (parse_wrapper_total r Hr) as (a & -> & Ha). simpl. destruct a as [|p|]; [done| |done].
  destruct inside as [inner|]; [|by destruct (is_nil deny)].
  destruct (script_denied_total inner (command p)) as [b ->].
  - by apply Hin.
  - eapply quote_free_sub; eauto.
  - simpl. by destruct b.
Qed.

Lemma wrapper_verdict_total room rs :
  Forall quote_free rs -> is_Some (wrapper_verdict deny prefixes room rs).
Proof.
  revert rs. induction room as [|room IH]; intros rs H; simpl;
    apply scan_wrappers_total; try done. by intros inner [= <-].
Qed.

Lemma read_segment_total g :
  exists r, read_segment deny ask prefixes g = Some r /\ r.1 = trim g /\
    Forall (fun s => s ⊆ g) (readings r.2).
Proof.
  unfold read_segment. destruct (reads_past_prefixes deny ask).
  - destruct (matching_readings_total (strip_grammar_residue (trim g)) prefixes) as (rd & -> & Hrd & _).
    simpl. eexists. split_and!; [done..|]. simpl. eapply Forall_impl; [exact Hrd|]. simpl.
    intros s Hs. pose proof (strip_grammar_residue_sub (trim g)). pose proof (trim_sub g). set_solver.
  - eexists. split_and!; [done..|]. simpl. apply Forall_singleton, trim_sub.
Qed.

(** Reading all the segments, one by one. *)
Lemma read_segments_total gs :
  exists rs, mapM (read_segment deny ask prefixes) gs = Some rs /\
    Forall2 (fun g r => read_segment deny ask prefixes g = Some r /\ r.1 = trim g /\
      Forall (fun s => s ⊆ g) (readings r.2)) gs rs.
Proof.
  induction gs as [|g gs (rs & E & H)]; [by exists []|].
  destruct (read_segment_total g) as (r & Er & H1 & H2). exists (r :: rs). split.
  - simpl. by rewrite Er, E.
  - constructor; auto.
Qed.

Lemma wrappers_seen_total rs seen :
  Forall (fun r => Forall quote_free (readings r.2)) rs ->
  is_Some (wrappers_seen deny prefixes rs seen).
Proof.
  intros H. revert seen. induction H as [|[g rd] rs Hr _ IH]; intros seen; [done|]. cbn [wrappers_seen].
  destruct (wrapper_verdict_total MAX_WRAPPER_DEPTH (readings rd) Hr) as [v ->]. simpl.
  by destruct v.
Qed.
End RuleLemmas.

Lemma check_total cmd deny ask allow tp :
  quote_free cmd -> is_Some (check_command_with_prefixes cmd deny ask allow tp).
Proof.
  intros Hq. unfold check_command_with_prefixes, check_segments.
  destruct (split_total cmd) as (gs & -> & Hgs). simpl.
  destruct (read_segments_total deny ask (gate_prefixes tp) gs) as (rs & -> & Hrs). simpl.
  destruct (existsb _ rs); [done|].
  destruct (wrappers_seen_total deny (gate_prefixes tp) rs false) as [s ->]; [|by destruct s].
  clear - Hq Hgs Hrs. revert Hgs. induction Hrs as [|g r gs rs (_ & _ & Hr) _ IH]; intros Hgs; constructor.
  - apply Forall_cons in Hgs as [Hg _]. eapply Forall_impl; [exact Hr|]. simpl. intros s Hs.
    eapply quote_free_sub; [exact Hq|]. set_solver.
  - apply IH. by apply Forall_cons in Hgs as [_ ?].
Qed.

(** ** What the verdict says *)

Lemma check_inv cmd deny ask allow tp v :
  check_command_with_prefixes cmd deny ask allow tp = Some v ->
  exists gs rs, split_for_permissions cmd = Some gs /\
    Forall2 (fun g r => read_segment deny ask (gate_prefixes tp) g = Some r /\ r.1 = trim g) gs rs /\
    ((existsb (fun r => denied deny r.1 r.2) rs = true /\ v = Deny) \/
     existsb (fun r => denied deny r.1 r.2) rs = false /\
     exists seen, wrappers_seen deny (gate_prefixes tp) rs false = Some seen /\
       v = match seen with
           | None => Deny
           | Some seen => final_verdict deny ask allow cmd (List.filter (fun r => negb (is_empty r.1)) rs) seen
           end).
Proof.
  unfold check_command_with_prefixes, check_segments.
  destruct (split_total cmd) as (gs & -> & _). simpl.
  destruct (read_segments_total deny ask (gate_prefixes tp) gs) as (rs & -> & Hrs). simpl.
  intros H. exists gs, rs. split; [done|]. split.
  { eapply Forall2_impl; [exact Hrs|]. naive_solver. }
  destruct (existsb _ rs); [left; split; congruence|]. right. split; [done|].
  destruct (wrappers_seen _ _ rs false) as [seen|]; [|done]. exists seen. split; [done|].
  simpl in H. by destruct seen; simplify_eq.
Qed.

(** A denied segment decides, whatever else the command holds. *)
Lemma check_denies cmd deny ask allow tp gs g r :
  split_for_permissions cmd = Some gs -> g ∈ gs ->
  read_segment deny ask (gate_prefixes tp) g = Some r -> denied deny r.1 r.2 = true ->
  check_command_with_prefixes cmd deny ask allow tp = Some Deny.
Proof.
  intros Hs Hg Hr Hd. unfold check_command_with_prefixes, check_segments. rewrite Hs. simpl.
  destruct (read_segments_total deny ask (gate_prefixes tp) gs) as (rs & -> & Hrs). simpl.
  assert (existsb (fun r => denied deny r.1 r.2) rs = true) as ->; [|done].
  apply existsb_exists. apply list_elem_of_lookup in Hg as [i Hi].
  destruct (Forall2_lookup_l _ _ _ _ _ Hrs Hi) as (r' & Hr' & E & _ & _).
  assert (r' = r) as -> by congruence. exists r. split; [|done].
  apply list_elem_of_In. by eapply list_elem_of_lookup_2.
Qed.

Lemma existsb_false_elem {A} (f : A -> bool) l x : existsb f l = false -> x ∈ l -> f x = false.
Proof.
  intros H Hx. apply not_true_iff_false. intros Hf. apply not_true_iff_false in H. apply H.
  apply existsb_exists. exists x. by rewrite <- list_elem_of_In.
Qed.

(** No wrapper was seen: every reading of every segment is no wrapper at all. *)
Lemma wrappers_seen_false deny prefixes rs seen :
  wrappers_seen deny prefixes rs seen = Some (Some false) -> seen = false.
Proof.
  revert seen. induction rs as [|[g rd] rs IH]; intros seen; cbn [wrappers_seen]; [congruence|].
  destruct (wrapper_verdict deny prefixes MAX_WRAPPER_DEPTH (readings rd)) as [[]|]; simpl; try done.
  - apply IH.
  - intros H. by apply IH in H.
Qed.

(** [Allow] needs every test of the gate to pass. *)
Lemma check_allow cmd deny ask allow tp :
  check_command_with_prefixes cmd deny ask allow tp = Some Allow ->
  contains_unattestable_construct cmd = false /\ ansi_c_quote_defeats_lexer cmd = false /\
  exists gs, split_for_permissions cmd = Some gs /\ gs <> [] /\
    forall g, g ∈ gs -> exists peeled,
      read_segment deny ask (gate_prefixes tp) g = Some (trim g, peeled) /\
      denied deny (trim g) peeled = false /\
      (trim g <> [] -> existsb (command_matches_pattern (trim g)) allow = true /\
        existsb (matches_any (trim g) peeled) ask = false /\
        (reads_past_prefixes deny ask = true -> complete peeled = true)).
Proof.
  intros H. destruct (check_inv _ _ _ _ _ _ H) as (gs & rs & Hs & Hrs & Hv).
  destruct Hv as [[_ ?]|(Hd & seen & Hw & Hv)]; [done|]. destruct seen as [seen|]; [|done].
  unfold final_verdict in Hv. destruct (existsb _ (List.filter _ rs)) eqn:Ea; [done|].
  destruct (_ && _ && _) eqn:El; [|done]. apply andb_true_iff in El as [El _].
  apply andb_true_iff in El as [Hnil Hall]. destruct (_ || _ || _) eqn:Eu; [done|].
  bool_prop. split; [done|]. split; [done|]. exists gs. split; [done|]. split.
  { intros ->. inversion Hrs; subst. done. }
  intros g Hg. apply list_elem_of_lookup in Hg as [i Hi].
  destruct (Forall2_lookup_l _ _ _ _ _ Hrs Hi) as ([t peeled] & Hr & Er & Et). simpl in Et. subst t.
  apply list_elem_of_lookup_2 in Hr. exists peeled. split; [done|]. split.
  { apply (existsb_false_elem _ _ _ Hd Hr). }
  intros Hne. assert ((trim g, peeled) ∈ List.filter (fun r => negb (is_empty r.1)) rs) as Hin.
  { apply list_elem_of_In, List.filter_In. split; [by apply list_elem_of_In|].
    simpl. by destruct (trim g). }
  rewrite List.forallb_forall in Hall. split_and!.
  - specialize (Hall (trim g, peeled)). apply Hall. by apply list_elem_of_In.
  - pose proof (existsb_false_elem _ _ _ Ea Hin) as Ha. simpl in Ha. by apply orb_false_iff in Ha as [_ ?].
  - intros Hrp. pose proof (existsb_false_elem _ _ _ Ea Hin) as Ha. simpl in Ha.
    apply orb_false_iff in Ha as [Ha _]. rewrite Hrp in Ha. simpl in Ha. by apply negb_false_iff in Ha.
Qed.

(** ** More deny rules never loosen a denial *)

Section Monotone.
Context (deny deny' prefixes : list rstr).
Hypothesis Hsub : deny ⊆ deny'.

Lemma denied_mono g rd : denied deny g rd = true -> denied deny' g rd = true.
Proof.
  unfold denied. rewrite !existsb_exists. intros (d & Hd & Hm). exists d. split; [|done].
  apply list_elem_of_In, Hsub. by apply list_elem_of_In.
Qed.

(** The verdict under more rules: the same, or a denial. *)
Definition tighter (o o' : option WrapperVerdict) : Prop :=
  forall v, o = Some v -> o' = Some v \/ o' = Some WrapperDeny.

Lemma any_of_mono {A} (f f' : A -> option bool) l b :
  (forall a b, f a = Some b -> exists b', f' a = Some b' /\ (b = true -> b' = true)) ->
  any_of f l = Some b -> exists b', any_of f' l = Some b' /\ (b = true -> b' = true).
Proof.
  intros Hf. induction l as [|a l IH]; simpl; [intros [= <-]; eauto|].
  destruct (f a) as [c|] eqn:E; [|done]. simpl. destruct (Hf _ _ E) as (c' & -> & Hc). simpl.
  destruct c; [rewrite Hc by done; eauto|]. intros H. destruct c'; [eauto|]. auto.
Qed.

Lemma script_denied_mono inner inner' script b :
  (forall rs, tighter (inner rs) (inner' rs)) ->
  script_denied deny prefixes inner script = Some b ->
  exists b', script_denied deny' prefixes inner' script = Some b' /\ (b = true -> b' = true).
Proof.
  intros Hi. unfold script_denied. destruct (split_for_permissions _) as [gs|]; [|done]. simpl.
  apply any_of_mono. intros g c. destruct (matching_readings _ prefixes) as [rd|]; [|done]. simpl.
  destruct (denied deny (trim g) rd) eqn:E.
  { intros [= <-]. rewrite denied_mono by done. eauto. }
  destruct (inner (readings rd)) as [v|] eqn:Ev; [|done]. simpl. intros [= <-].
  destruct (denied deny' (trim g) rd); [eauto|].
  destruct (Hi _ _ Ev) as [-> | ->]; simpl; [eauto|]. exists true. eauto.
Qed.

Lemma scan_wrappers_mono inside inside' rs wrapped :
  match inside, inside' with
  | Some inner, Some inner' => forall rs, tighter (inner rs) (inner' rs)
  | None, None => True
  | _, _ => False
  end ->
  tighter (scan_wrappers deny prefixes inside rs wrapped) (scan_wrappers deny' prefixes inside' rs wrapped).
Proof.
  intros Hin. revert wrapped. induction rs as [|r rs IH]; intros wrapped v; simpl; [by left|].
  destruct (parse_shell_command_wrapper r) as [a|]; [|done]. simpl. destruct a as [|p|]; [apply IH| |apply IH].
  destruct inside as [inner|], inside' as [inner'|]; try done.
  - destruct (script_denied deny prefixes inner (command p)) as [b|] eqn:E; [|done]. simpl.
    destruct (script_denied_mono _ _ _ _ Hin E) as (b' & -> & Hb). simpl.
    destruct b; [rewrite Hb by done; by left|]. destruct b'; [by right|]. apply IH.
  - destruct (is_nil deny') eqn:E'.
    + assert (is_nil deny = true) as ->; [|apply IH]. destruct deny as [|d l]; [done|].
      destruct deny'; [|done]. specialize (Hsub d). set_solver.
    + intros _. by right.
Qed.

Lemma wrapper_verdict_mono room rs :
  tighter (wrapper_verdict deny prefixes room rs) (wrapper_verdict deny' prefixes room rs).
Proof. revert rs. induction room; intros rs; simpl; by apply scan_wrappers_mono. Qed.

Lemma wrappers_seen_mono rs seen :
  wrappers_seen deny prefixes rs seen = Some None -> wrappers_seen deny' prefixes rs seen = Some None.
Proof.
  revert seen. induction rs as [|[g rd] rs IH]; intros seen; cbn [wrappers_seen]; [done|].
  destruct (wrapper_verdict deny prefixes MAX_WRAPPER_DEPTH (readings rd)) as [v|] eqn:E; [|done].
  destruct (wrapper_verdict_mono _ _ v E) as [-> | ->]; simpl; [|done].
  destruct v; auto.
Qed.
End Monotone.

(** Without deny rules no wrapper is denied. *)
Lemma no_rules_no_denial prefixes room rs v :
  wrapper_verdict [] prefixes room rs = Some v -> v <> WrapperDeny.
Proof.
  assert (forall inside, (forall inner, inside = Some inner -> forall rs v, inner rs = Some v -> v <> WrapperDeny) ->
    forall rs w v, scan_wrappers [] prefixes inside rs w = Some v -> v <> WrapperDeny) as Hscan.
  { intros inside Hin rs'. induction rs' as [|r rs' IH]; intros w v'; simpl.
    { destruct w; congruence. }
    destruct (parse_shell_command_wrapper r) as [a|]; [|done]. simpl. destruct a as [|p|]; [apply IH| |apply IH].
    destruct inside as [inner|]; [|apply IH]. unfold script_denied.
    destruct (split_for_permissions _) as [gs|]; [|done]. simpl.
    assert (forall b, any_of (fun inner0 => inner_peeled ← matching_readings (strip_grammar_residue (trim inner0)) prefixes;
        (if denied [] (trim inner0) inner_peeled then Some true
         else v ← inner (readings inner_peeled); Some (match v with WrapperDeny => true | _ => false end))) gs = Some b ->
        b = false) as Hany.
    { induction gs as [|g gs IHg]; intros b; simpl; [congruence|].
      destruct (matching_readings _ prefixes) as [rd|]; [|done]. simpl.
      destruct (inner (readings rd)) as [u|] eqn:Eu; [|done]. simpl.
      destruct u; [apply IHg | apply IHg |]. by apply (Hin inner eq_refl) in Eu. }
    destruct (any_of _ gs) as [b|] eqn:Eb; [|done]. rewrite (Hany _ eq_refl). simpl. apply IH. }
  revert rs v. induction room as [|room IH]; intros rs v; simpl; apply Hscan; [done|].
  by intros inner [= <-].
Qed.

Lemma final_not_deny deny ask allow cmd live seen : final_verdict deny ask allow cmd live seen <> Deny.
Proof. unfold final_verdict. by repeat case_match. Qed.

Lemma check_no_rules cmd ask allow tp :
  check_command_with_prefixes cmd [] ask allow tp <> Some Deny.
Proof.
  intros H. destruct (check_inv _ _ _ _ _ _ H) as (gs & rs & _ & _ & [[Hd _]|(_ & seen & Hw & Hv)]).
  - apply existsb_exists in Hd as (r & _ & Hr). done.
  - destruct seen as [seen|].
    + symmetry in Hv. by apply final_not_deny in Hv.
    + revert Hw. generalize false. induction rs as [|[g rd] rs IH]; intros b; cbn [wrappers_seen]; [done|].
      destruct (wrapper_verdict [] _ _ (readings rd)) as [v|] eqn:E; [|done]. simpl.
      apply no_rules_no_denial in E. destruct v; [apply IH|apply IH|done].
Qed.

Lemma reads_past_cons d deny ask : reads_past_prefixes (d :: deny) ask = true.
Proof. done. Qed.

Lemma read_segment_same deny deny' ask prefixes g :
  reads_past_prefixes deny ask = reads_past_prefixes deny' ask ->
  read_segment deny ask prefixes g = read_segment deny' ask prefixes g.
Proof. unfold read_segment. by intros ->. Qed.

Lemma check_mono cmd deny deny' ask allow tp :
  deny ⊆ deny' ->
  check_command_with_prefixes cmd deny ask allow tp = Some Deny ->
  check_command_with_prefixes cmd deny' ask allow tp = Some Deny.
Proof.
  intros Hsub H. destruct deny as [|d deny]; [by apply check_no_rules in H|].
  assert (exists e l, deny' = e :: l) as (e & l & E) by (destruct deny'; [set_solver|eauto]).
  assert (forall g, read_segment deny' ask (gate_prefixes tp) g
    = read_segment (d :: deny) ask (gate_prefixes tp) g) as Hread.
  { intros g. apply read_segment_same. by rewrite E. }
  clear E. revert Hsub Hread H. generalize (d :: deny). clear d deny. intros deny Hsub Hread H.
  unfold check_command_with_prefixes, check_segments in *.
  destruct (split_for_permissions cmd) as [gs|]; [|done]. simpl in *.
  rewrite (mapM_ext _ _ gs Hread).
  destruct (mapM _ gs) as [rs|]; [|done]. simpl in *.
  destruct (existsb (fun r => denied deny r.1 r.2) rs) eqn:Ed.
  - assert (existsb (fun r => denied deny' r.1 r.2) rs = true) as ->; [|done].
    apply existsb_exists in Ed as (r & Hr & Hd). apply existsb_exists. exists r.
    split; [done|]. by apply (denied_mono deny).
  - destruct (existsb (fun r => denied deny' r.1 r.2) rs); [done|].
    destruct (wrappers_seen deny (gate_prefixes tp) rs false) as [seen|] eqn:Ew; [|done]. simpl in H.
    destruct seen as [seen|].
    + injection H as H. by apply final_not_deny in H.
    + by rewrite (wrappers_seen_mono _ _ _ Hsub _ _ Ew).
Qed.

(** ** Commands inside quoted scripts *)

Lemma any_of_true {A} (f : A -> option bool) l x b :
  x ∈ l -> f x = Some true -> any_of f l = Some b -> b = true.
Proof.
  intros Hx Hf. induction l as [|a l IH]; [by apply elem_of_nil in Hx|]. simpl.
  apply elem_of_cons in Hx as [<-|Hx].
  - rewrite Hf. simpl. congruence.
  - destruct (f a) as [[]|]; simpl; [congruence | by apply IH | done].
Qed.

Lemma scan_wrappers_deny deny prefixes inner rs wrapped reading p segments i rd v :
  reading ∈ rs -> parse_shell_command_wrapper reading = Some (Parsed p) ->
  split_for_permissions (replace [BACKSLASH; LF] [] (command p)) = Some segments -> i ∈ segments ->
  matching_readings (strip_grammar_residue (trim i)) prefixes = Some rd ->
  denied deny (trim i) rd = true ->
  scan_wrappers deny prefixes (Some inner) rs wrapped = Some v -> v = WrapperDeny.
Proof.
  intros Hin Hp Hs Hi Hrd Hd. revert wrapped. induction rs as [|r rs IH]; intros wrapped;
    [by apply elem_of_nil in Hin|]. cbn [scan_wrappers].
  apply elem_of_cons in Hin as [<-|Hin].
  - rewrite Hp. simpl. unfold script_denied. rewrite Hs. simpl.
    destruct (any_of _ segments) as [b|] eqn:E; [|done]. simpl.
    apply (any_of_true _ _ i) in E as ->; [congruence|done|]. by rewrite Hrd; simpl; rewrite Hd.
  - specialize (IH Hin). destruct (parse_shell_command_wrapper r) as [[|q|]|]; simpl; [apply IH| |apply IH|done].
    destruct (script_denied _ _ _ _) as [[]|]; simpl; [congruence|apply IH|done].
Qed.

Lemma wrappers_seen_deny deny prefixes rs r seen s :
  r ∈ rs -> (forall v, wrapper_verdict deny prefixes MAX_WRAPPER_DEPTH (readings r.2) = Some v -> v = WrapperDeny) ->
  wrappers_seen deny prefixes rs seen = Some s -> s = None.
Proof.
  intros Hin Hv. revert seen. induction rs as [|r' rs IH]; intros seen; [by apply elem_of_nil in Hin|].
  destruct r' as [g rd]. cbn [wrappers_seen].
  apply elem_of_cons in Hin as [->|Hin].
  - cbn [snd] in Hv. destruct (wrapper_verdict deny prefixes _ (readings rd)) as [v|]; [|done].
    rewrite (Hv v eq_refl). simpl. congruence.
  - destruct (wrapper_verdict _ _ _ (readings rd)) as [[]|]; simpl;
      [by apply IH | by apply IH | congruence | done].
Qed.

(** ** Loaded rules *)

Lemma star_matches s : command_matches_pattern s (lit "*") = true.
Proof. reflexivity. Qed.

Lemma check_star cmd deny ask allow tp v :
  lit "*" ∈ ask -> check_command_with_prefixes cmd deny ask allow tp = Some v ->
  v <> Allow /\
  ((exists gs g, split_for_permissions cmd = Some gs /\ g ∈ gs /\ trim g <> []) -> v = Deny \/ v = Ask).
Proof.
  intros Hstar H. destruct (check_inv _ _ _ _ _ _ H) as (gs & rs & Hs & Hrs & Hv).
  destruct Hv as [[_ ->]|(_ & [seen|] & _ & ->)]; [auto| |auto].
  assert (forall r, asks deny ask r = true) as Hask.
  { intros [t rd]. simpl. apply orb_true_iff. right. apply existsb_exists. exists (lit "*").
    split; [by apply list_elem_of_In|]. unfold matches_any. by rewrite star_matches. }
  unfold final_verdict. destruct (List.filter _ rs) as [|r live] eqn:E.
  - split; [done|]. intros (gs' & g & Hs' & Hg & Hne). exfalso. simplify_eq.
    apply list_elem_of_lookup in Hg as [i Hi].
    destruct (Forall2_lookup_l _ _ _ _ _ Hrs Hi) as ([t rd] & Hr & _ & Et). simpl in Et. subst t.
    apply list_elem_of_lookup_2, list_elem_of_In in Hr.
    assert (In (trim g, rd) (List.filter (fun r => negb (is_empty r.1)) rs)) as Hin.
    { apply List.filter_In. split; [done|]. simpl. by destruct (trim g). }
    by rewrite E in Hin.
  - simpl. rewrite Hask. simpl. auto.
Qed.
End Gate.

(** ** Rules that name a command fire *)

(** [glob_tail parts s]: [s] is the parts in order with anything between and in
    front of them, the last part at the end. *)
Inductive glob_tail : list rstr -> rstr -> Prop :=
| glob_tail_last p x : glob_tail [p] (x ++ p)
| glob_tail_mid p x ps t : glob_tail ps t -> glob_tail (p :: ps) (x ++ p ++ t).

(** A leftmost occurrence ends no later than any other. *)
Lemma split_once_before p x t :
  exists a z, split_once p (x ++ p ++ t) = Some (a, z ++ t).
Proof.
  destruct (split_once_complete p x t) as [[a b] E]. pose proof (split_once_leftmost _ _ _ _ E) as Hl.
  apply split_once_Some in E as Eq. simpl in Hl.
  assert (exists z, b = z ++ t) as [z ->]; [|by exists a, z].
  rewrite !app_assoc in Eq. apply app_eq_app in Eq as (l & [(E' & ->)|(E' & ->)]); [by exists l|].
  apply (f_equal length) in E'. rewrite !length_app in E'.
  destruct l; simpl in E'; [by exists []|lia].
Qed.

Lemma glob_rest_complete ps t : glob_tail ps t -> forall y, glob_rest (y ++ t) ps = true.
Proof.
  induction 1 as [p x|p x ps t Ht IH]; intros y; simpl.
  - destruct (is_empty p); [done|]. apply ends_with_true. exists (y ++ x). by rewrite app_assoc.
  - destruct (is_empty p) eqn:E.
    { destruct p; [|done]. simpl. rewrite app_assoc. apply IH. }
    rewrite (app_assoc y x). destruct (split_once_before p (y ++ x) t) as (a & z & ->).
    destruct ps; [by inversion Ht|]. apply IH.
Qed.

Lemma glob_matches_complete first ps t pattern :
  glob_parts pattern = first :: ps -> glob_tail ps t -> glob_matches (first ++ t) pattern = true.
Proof.
  intros Hp Ht. unfold glob_matches. rewrite Hp. destruct (forallb _ _); [done|].
  destruct (is_empty first) eqn:E.
  - destruct first; [|done]. apply (glob_rest_complete _ _ Ht []).
  - assert (strip_prefix first (first ++ t) = Some t) as -> by by apply strip_prefix_Some.
    apply (glob_rest_complete _ _ Ht []).
Qed.

(** ** Loading the rules of the settings files

    What a settings file reads as is the environment's, its JSON the parser's:
    [Value], [from_str] and its accessors stand for [serde_json]. *)

Inductive FileRead := Missing | Unreadable | Content (content : rstr).

Record Rules := { deny_rules : list rstr; ask_rules : list rstr; allow_rules : list rstr }.

Section Loading.
Context {Value : Type} (from_str : rstr -> option Value) (get : rstr -> Value -> option Value).
Context (as_array : Value -> option (list Value)) (as_str : Value -> option rstr).

Definition bash_rule (rule : Value) : option rstr :=
  s ← as_str rule;
  if starts_with (lit "Bash(") s then Some (extract_bash_pattern s) else None.

Definition append_bash_rules (rules_value : option Value) (target : list rstr) : list rstr :=
  match rules_value ≫= as_array with
  | Some arr => target ++ omap bash_rule arr
  | None => target
  end.

Definition BOM : char := 65279.

Definition strip_bom (content : rstr) : rstr := default content (strip_prefix [BOM] content).

Definition ask_everything (rules : Rules) : Rules :=
  {| deny_rules := deny_rules rules; ask_rules := ask_rules rules ++ [lit "*"];
     allow_rules := allow_rules rules |}.

(** One iteration of the loop of [load_permission_rules_from]. *)
Definition load_file (rules : Rules) (file : FileRead) : Rules :=
  match file with
  | Missing => rules
  | Unreadable => ask_everything rules
  | Content content =>
      let content := strip_bom content in
      if is_empty (trim content) then rules
      else match from_str content with
           | None => ask_everything rules
           | Some json =>
               match get (lit "permissions") json with
               | None => rules
               | Some permissions =>
                   {| deny_rules := append_bash_rules (get (lit "deny") permissions) (deny_rules rules);
                      ask_rules := append_bash_rules (get (lit "ask") permissions) (ask_rules rules);
                      allow_rules := append_bash_rules (get (lit "allow") permissions) (allow_rules rules) |}
               end
           end
  end.

Definition load_permission_rules_from (files : list FileRead) : Rules :=
  fold_left load_file files {| deny_rules := []; ask_rules := []; allow_rules := [] |}.

(** A settings file that exists and says nothing the loader can use. *)
Definition broken (file : FileRead) : Prop :=
  match file with
  | Missing => False
  | Unreadable => True
  | Content content => trim (strip_bom content) <> [] /\ from_str (strip_bom content) = None
  end.

Lemma load_file_keeps rules file d : d ∈ ask_rules rules -> d ∈ ask_rules (load_file rules file).
Proof.
  intros H. destruct file as [| |content]; simpl; [done|set_solver|].
  destruct (is_empty _); [done|]. destruct (from_str _); [|simpl; set_solver].
  destruct (get _ v); [|done]. simpl. unfold append_bash_rules.
  destruct (_ ≫= _); [set_solver|done].
Qed.

Lemma load_broken files rules file :
  file ∈ files -> broken file -> lit "*" ∈ ask_rules (fold_left load_file files rules).
Proof.
  intros Hin Hb. assert (forall fs r, lit "*" ∈ ask_rules r -> lit "*" ∈ ask_rules (fold_left load_file fs r)) as Hkeep.
  { induction fs as [|f fs IH]; intros r H; simpl; [done|]. by apply IH, load_file_keeps. }
  revert rules. induction files as [|f files IH]; intros rules; [by apply elem_of_nil in Hin|].
  simpl. apply elem_of_cons in Hin as [<-|Hin]; [|by apply IH]. apply Hkeep.
  destruct file as [| |content]; simpl in *; [done|set_solver|]. destruct Hb as [Hne Hp].
  destruct (is_empty _) eqn:E; [by destruct (trim _)|]. rewrite Hp. simpl. set_solver.
Qed.
End Loading.

(** ** Properties *)

(** C1: a command is allowed only when the gate could read all of it and every
    test passed: each segment runs one command, matches an allow rule as it is
    written, and neither it nor any of its readings matches a deny or an ask rule;
    no prefix was left unread when there are such rules, and the shell would run
    no substitution in it. *)
Theorem allow_is_earned on_path cmd deny ask allow tp :
  check_command_with_prefixes on_path cmd deny ask allow tp = Some Allow ->
  ~ (exists a b, cmd = a ++ b /\ substitution_at (scan a) b = true) /\
  exists gs, split_for_permissions cmd = Some gs /\ gs <> [] /\
    forall g, g ∈ gs -> clean g /\ exists peeled,
      read_segment on_path deny ask (gate_prefixes tp) g = Some (trim g, peeled) /\
      (forall d, d ∈ deny -> matches_any (trim g) peeled d = false) /\
      (trim g <> [] ->
        (exists rule, rule ∈ allow /\ command_matches_pattern (trim g) rule = true) /\
        (forall k, k ∈ ask -> matches_any (trim g) peeled k = false) /\
        (reads_past_prefixes deny ask = true -> complete peeled = true)).
Proof.
  intros H. destruct (check_allow _ _ _ _ _ _ H) as (Hu & _ & gs & Hs & Hne & Hg). split.
  - intros Hsub. apply contains_substitution_iff in Hsub.
    unfold contains_unattestable_construct in Hu. by rewrite Hsub in Hu.
  - exists gs. split; [done|]. split; [done|]. intros g Hin. split.
    { destruct (split_for_permissions_ok cmd) as (gs' & Hs' & Hok). simplify_eq.
      by eapply Forall_forall in Hok as (_ & ? & _). }
    destruct (Hg g Hin) as (peeled & Hr & Hd & Hrest). exists peeled. split; [done|]. split.
    + intros d Hdin. by apply (existsb_false_elem _ _ _ Hd).
    + intros Ht. destruct (Hrest Ht) as (Ha & Hk & Hc). split_and!; [|intros k Hkin|done].
      * apply existsb_exists in Ha as (rule & Hrule & Hm). exists rule.
        split; [by apply list_elem_of_In | done].
      * by apply (existsb_false_elem _ _ _ Hk).
Qed.

Lemma allow_is_earned_witness :
  let cmd := lit "ls -la && git status" in
  let tp := [lit "docker exec"] in
  ~ (exists a b, cmd = a ++ b /\ substitution_at (scan a) b = true) /\
  exists gs, split_for_permissions cmd = Some gs /\ gs <> [] /\
    forall g, g ∈ gs -> clean g /\ exists peeled,
      read_segment (fun _ _ => false) [lit "git push"] [] (gate_prefixes tp) g = Some (trim g, peeled) /\
      (forall d, d ∈ [lit "git push"] -> matches_any (trim g) peeled d = false) /\
      (trim g <> [] ->
        (exists rule, rule ∈ [lit "ls:*"; lit "git *"] /\ command_matches_pattern (trim g) rule = true) /\
        (forall k, k ∈ [] -> matches_any (trim g) peeled k = false) /\
        (reads_past_prefixes [lit "git push"] [] = true -> complete peeled = true)).
Proof. apply allow_is_earned. vm_compute. reflexivity. Defined.

(** C34: a deny rule that names a segment of the command, as written or behind
    the prefixes the gate reads past, denies the whole command, whatever the other
    segments and rules. *)
Theorem named_command_is_denied on_path cmd deny ask allow tp gs g t peeled d :
  split_for_permissions cmd = Some gs -> g ∈ gs ->
  read_segment on_path deny ask (gate_prefixes tp) g = Some (t, peeled) ->
  d ∈ deny -> matches_any t peeled d = true ->
  check_command_with_prefixes on_path cmd deny ask allow tp = Some Deny.
Proof.
  intros Hs Hg Hr Hd Hm. eapply check_denies; [exact Hs | exact Hg | exact Hr|].
  apply existsb_exists. exists d. split; [by apply list_elem_of_In | done].
Qed.

Lemma named_command_is_denied_witness :
  check_command_with_prefixes (fun _ _ => false) (lit "ls; A=1 sudo timeout 5s git push") [lit "git push"] []
    [lit "*"] [] = Some Deny.
Proof.
  eapply (named_command_is_denied _ _ _ _ _ _ [lit "ls"; lit "A=1 sudo timeout 5s git push"]
    (lit "A=1 sudo timeout 5s git push")); [vm_compute; reflexivity | set_solver | vm_compute; reflexivity
    | apply list_elem_of_here | vm_compute; reflexivity].
Defined.

(** A deny rule that names a command inside the quoted script of a [sh -c]
    the gate reaches denies the whole command: once the gate answers, it
    denies. *)
Theorem scripted_command_is_denied on_path cmd deny ask allow tp gs g t peeled reading p segments i inner v :
  split_for_permissions cmd = Some gs -> g ∈ gs ->
  read_segment on_path deny ask (gate_prefixes tp) g = Some (t, peeled) ->
  reading ∈ readings peeled -> parse_shell_command_wrapper reading = Some (Parsed p) ->
  split_for_permissions (replace [BACKSLASH; LF] [] (command p)) = Some segments -> i ∈ segments ->
  matching_readings on_path (strip_grammar_residue (trim i)) (gate_prefixes tp) = Some inner ->
  denied deny (trim i) inner = true ->
  check_command_with_prefixes on_path cmd deny ask allow tp = Some v -> v = Deny.
Proof.
  intros Hs Hg Hr Hread Hp Hseg Hi Hin Hd H.
  destruct (check_inv _ _ _ _ _ _ _ H) as (gs' & rs & Hs' & Hrs & [[_ ->]|(_ & seen & Hw & ->)]); [done|].
  simplify_eq. apply list_elem_of_lookup in Hg as [k Hk].
  destruct (Forall2_lookup_l _ _ _ _ _ Hrs Hk) as (r & Hrk & Er & _). simplify_eq.
  assert (seen = None) as ->; [|done].
  eapply wrappers_seen_deny; [by eapply list_elem_of_lookup_2|..|exact Hw].
  intros v. unfold MAX_WRAPPER_DEPTH. simpl. by eapply scan_wrappers_deny.
Qed.

Lemma scripted_command_is_denied_witness : Deny = Deny.
Proof.
  eapply (scripted_command_is_denied (fun _ _ => false) (lit "sudo bash -c 'ls && git push'") [lit "git push"]
    [] [lit "*"] [] _ (lit "sudo bash -c 'ls && git push'") _ _ (lit "bash -c 'ls && git push'") _ _ (lit "git push"));
    [vm_compute; reflexivity | apply list_elem_of_here | vm_compute; reflexivity
    | apply list_elem_of_further, list_elem_of_here | vm_compute; reflexivity | vm_compute; reflexivity
    | apply list_elem_of_further, list_elem_of_here | vm_compute; reflexivity | vm_compute; reflexivity
    | vm_compute; reflexivity].
Defined.

(** Adding deny rules never loosens a denial, whichever wrappers and
    readings the rules are matched against. *)
Theorem more_deny_rules_keep_a_denial on_path cmd deny deny' ask allow tp :
  deny ⊆ deny' ->
  check_command_with_prefixes on_path cmd deny ask allow tp = Some Deny ->
  check_command_with_prefixes on_path cmd deny' ask allow tp = Some Deny.
Proof. apply check_mono. Qed.

Lemma more_deny_rules_keep_a_denial_witness :
  check_command_with_prefixes (fun _ _ => false) (lit "bash -c 'git push'") [lit "rm"; lit "git push"] [] [] [] = Some Deny.
Proof.
  apply (more_deny_rules_keep_a_denial _ _ [lit "git push"]); [set_solver | vm_compute; reflexivity].
Defined.

(** A glob rule matches every command its pattern describes: the pattern's
    parts in order, the first at the start, the last at the end and anything in
    between.  Taking the leftmost occurrence of each part loses no match. *)
Theorem glob_rule_never_misses first parts t pattern :
  glob_parts pattern = first :: parts -> glob_tail parts t ->
  glob_matches (first ++ t) pattern = true.
Proof. apply glob_matches_complete. Qed.

Lemma glob_rule_never_misses_witness :
  glob_matches (lit "git " ++ lit "-C x push --force y" ++ lit " origin" ++ lit "-main") (lit "git *push*-main") = true.
Proof.
  apply (glob_rule_never_misses (lit "git ") [lit "push"; lit "-main"]); [reflexivity|].
  apply (glob_tail_mid (lit "push") (lit "-C x ") [lit "-main"] (lit " --force y origin-main")).
  apply (glob_tail_last (lit "-main") (lit " --force y origin")).
Defined.

(** The gate answers every command without quote characters: no slice
    panics and no loop runs out of the readings or depth it is given. *)
Theorem gate_answers_quote_free_commands on_path cmd deny ask allow tp :
  (forall c, c ∈ cmd -> is_quote c = false) ->
  exists v, check_command_with_prefixes on_path cmd deny ask allow tp = Some v.
Proof. apply check_total. Qed.

Lemma gate_answers_quote_free_commands_witness :
  exists v, check_command_with_prefixes (fun _ _ => true) (lit "/bin/nice -n 3 make all") [lit "x"] [] [] [] = Some v.
Proof.
  apply gate_answers_quote_free_commands.
  apply Forall_forall. repeat (constructor; [reflexivity|]). constructor.
Defined.

(** A settings file that exists but cannot be read or parsed never lets a
    command be allowed, and the host is asked, at least, for every command that
    has a segment. *)
Theorem broken_settings_never_allow {Value} (from_str : rstr -> option Value) get as_array as_str
    on_path files file cmd tp v :
  file ∈ files -> broken from_str file ->
  let rules := load_permission_rules_from from_str get as_array as_str files in
  check_command_with_prefixes on_path cmd (deny_rules rules) (ask_rules rules) (allow_rules rules) tp = Some v ->
  v <> Allow /\
  ((exists gs g, split_for_permissions cmd = Some gs /\ g ∈ gs /\ trim g <> []) -> v = Deny \/ v = Ask).
Proof. intros Hin Hb rules. apply check_star. by eapply load_broken. Qed.

Lemma broken_settings_never_allow_witness :
  Ask <> Allow /\
  ((exists gs g, split_for_permissions (lit "ls") = Some gs /\ g ∈ gs /\ trim g <> []) -> Ask = Deny \/ Ask = Ask).
Proof.
  apply (broken_settings_never_allow (Value := list rstr) (fun s => if starts_with (lit "{") s then Some [lit "Bash(ls)"] else None)
    (fun k v => if str_eqb k (lit "deny") then None else Some v) (fun v => Some (map (fun s => [s]) v)) head
    (fun _ _ => false) [Content (lit "{}"); Content (lit "oops")] (Content (lit "oops")) (lit "ls") []);
    [set_solver | split; [vm_compute; discriminate | reflexivity] | vm_compute; reflexivity].
Defined.

(** ** Two commands a deny rule does not reach *)

(** The options of [stdbuf] are read by the second byte of a word, whether or
    not the first is a dash: [git] is taken for an option, and the rule against
    [git push] does not fire; against [npm push], behind the same prefix, it does. *)
Theorem stdbuf_takes_a_command_for_an_option on_path :
  check_command_with_prefixes on_path (lit "stdbuf -oL git push") [lit "git push"] [] [] [] = Some Default /\
  check_command_with_prefixes on_path (lit "stdbuf -oL npm push") [lit "npm push"] [] [] [] = Some Deny.
Proof. split; vm_compute; reflexivity. Qed.

(** Only the first token of a leading redirection's operand is stepped over, so
    an operand with an expansion leaves its rest in front of the command. *)
Theorem expansion_in_a_leading_redirect_hides_the_command on_path :
  check_command_with_prefixes on_path (lit "> $D.log git push") [lit "git push"] [] [] [] = Some Default /\
  check_command_with_prefixes on_path (lit "> x.log git push") [lit "git push"] [] [] [] = Some Deny.
Proof. split; vm_compute; reflexivity. Qed.

End Permissions.
