(* ===== verification/Billing.v ===== *)
(** Pricing of provider usage ([crates/hzr-core/src/billing.rs]): the catalog
    of public prices, its validation and user override, and the estimates priced
    from it.

    Amounts are [u64] microunits and intermediate products [u128], as [N] with
    the checks written out; days are [i64], as [Z] wrapping like a release build.
    JSON decoding, the SHA-256 digest and the clock belong to the environment:
    a decoded catalog, [sha256_hex] and [now_secs]. *)

From S2P Require Import Prelude RStr.
From stdpp Require Import pretty.
From Stdlib Require Import ZifyN.
#[local] Open Scope N_scope.

Module Billing.

Definition PRICING_CATALOG_SCHEMA_VERSION : N := 1.
Definition PROVIDER_RECEIPT_MAX_AGE_MS : N := 366 * 24 * 60 * 60 * 1000.
Definition PROVIDER_RECEIPT_MAX_FUTURE_SKEW_MS : N := 5 * 60 * 1000.

Record TokenRates := {
  input_microunits_per_million : option N;
  output_microunits_per_million : option N;
  cache_read_microunits_per_million : option N;
  cache_write_microunits_per_million : option N;
  cache_write_5m_microunits_per_million : option N;
  cache_write_1h_microunits_per_million : option N;
}.

Record ProviderTokenUsage := {
  input_tokens : N;
  output_tokens : N;
  reasoning_tokens : N;
  cache_read_tokens : N;
  cache_write_tokens : N;
  cache_write_5m_tokens : N;
  cache_write_1h_tokens : N;
}.

Record PricingEntry := {
  version : rstr;
  entry_harness : rstr;
  entry_provider : rstr;
  entry_model : rstr;
  aliases : list rstr;
  entry_method : rstr;
  entry_currency : rstr;
  effective_at : rstr;
  entry_retrieved_at : option rstr;
  entry_max_age_days : option N;
  valid_until : option rstr;
  min_context_tokens : option N;
  max_context_tokens_exclusive : option N;
  source_url : rstr;
  unit_ : rstr;
  rates : TokenRates;
  note : rstr;
}.

Record PricingCatalog := {
  schema_version : N;
  identity : rstr;
  retrieved_at : rstr;
  max_age_days : option N;
  entries : list PricingEntry;
}.

Record ProviderEconomicReceipt := {
  receipt_id : rstr;
  source : rstr;
  observed_at_ms : N;
  harness : rstr;
  provider : rstr;
  model : rstr;
  method : rstr;
  currency : rstr;
  request_input_tokens : option N;
  session_id : rstr;
  project_path : rstr;
  baseline : ProviderTokenUsage;
  delivered : ProviderTokenUsage;
  actual_baseline_cost_microunits : option N;
  actual_delivered_cost_microunits : option N;
  enable_public_estimate : bool;
}.

Record EconomicAmount := {
  amount_currency : rstr;
  baseline_microunits : N;
  delivered_microunits : N;
  savings_microunits : Z;
}.

Record PublicEstimate := {
  classification : rstr;
  preliminary : bool;
  amount : EconomicAmount;
  price_table_identity : rstr;
  entry_version : rstr;
  estimate_source_url : rstr;
  estimate_retrieved_at : rstr;
  disclaimer : rstr;
}.

Record RawPublicEstimate := {
  raw_classification : rstr;
  raw_preliminary : bool;
  potential : bool;
  avoided_input_tokens_estimated : N;
  pricing_basis : rstr;
  raw_harness : rstr;
  raw_provider : rstr;
  raw_model : rstr;
  raw_method : rstr;
  raw_currency : rstr;
  raw_savings_microunits : N;
  raw_price_table_identity : rstr;
  raw_entry_version : rstr;
  raw_source_url : rstr;
  raw_retrieved_at : rstr;
  raw_disclaimer : rstr;
}.

Record RawPublicEstimateRequest := {
  req_harness : rstr;
  req_provider : rstr;
  req_model : rstr;
  req_method : rstr;
  req_input_tokens : option N;
  basis : rstr;
  avoided_tokens : N;
}.

Record SingleUsageRequest := {
  single_harness : rstr;
  single_provider : rstr;
  single_model : rstr;
  single_method : rstr;
  single_input_tokens : option N;
  usage : ProviderTokenUsage;
  single_currency : rstr;
}.

Record SingleUsagePrice := {
  price_currency : rstr;
  microunits : N;
  price_identity : rstr;
  price_entry_version : rstr;
}.

Inductive BillingError :=
| InvalidCatalog (why : rstr)
| CatalogRead
| InvalidCatalogFile
| CatalogTooLarge
| CatalogParse
| InvalidReceipt (why : rstr)
| PricingUnavailable (why : rstr)
| ArithmeticOverflow.

(** ** Dates *)

(** [i64] arithmetic of a release build. *)
Definition wrap64 (z : Z) : Z :=
  ((z + 9223372036854775808) mod 18446744073709551616 - 9223372036854775808)%Z.

Definition digits_value (s : rstr) : Z := fold_left (fun n c => n * 10 + (Z.of_N c - 48))%Z s 0%Z.

(** [s.parse::<i64>().ok()]. *)
Definition parse_i64 (s : rstr) : option Z :=
  let number sign d :=
    let v := (sign * digits_value d)%Z in
    if negb (is_empty d) && forallb is_ascii_digit d && (i64_min <=? v)%Z && (v <=? i64_max)%Z
    then Some v else None in
  match s with
  | c :: d => if c =? ch "-" then number (-1)%Z d
              else if c =? ch "+" then number 1%Z d
              else number 1%Z s
  | [] => None
  end.

Definition leap_year (year : Z) : bool :=
  (year mod 4 =? 0)%Z && (negb (year mod 100 =? 0)%Z || (year mod 400 =? 0)%Z).

Definition days_in_month (year month : Z) : Z :=
  if (month =? 2)%Z then (if leap_year year then 29 else 28)
  else if existsb (Z.eqb month) [4; 6; 9; 11]%Z then 30
  else 31.

(** The arithmetic at the end of [date_to_unix_days], of a valid date. *)
Definition civil_days (year month day : Z) : Z :=
  let adjusted_year := wrap64 (year - (if month <=? 2 then 1 else 0))%Z in
  let era := (adjusted_year / 400)%Z in
  let year_of_era := wrap64 (adjusted_year - wrap64 (era * 400))%Z in
  let shifted_month := (month + (if month >? 2 then -3 else 9))%Z in
  let day_of_year := ((153 * shifted_month + 2) / 5 + day - 1)%Z in
  let day_of_era := (year_of_era * 365 + year_of_era / 4 - year_of_era / 100 + day_of_year)%Z in
  wrap64 (wrap64 (wrap64 (era * 146097) + day_of_era) - 719468)%Z.

Definition date_to_unix_days (value : rstr) : option Z :=
  match split_char (N.eqb (ch "-")) value with
  | y :: rest =>
      year ← parse_i64 y;
      match rest with
      | m :: rest =>
          month ← parse_i64 m;
          match rest with
          | d :: rest =>
              day ← parse_i64 d;
              if negb (is_nil rest) || negb ((1 <=? month)%Z && (month <=? 12)%Z) then None
              else if negb ((1 <=? day)%Z && (day <=? days_in_month year month)%Z) then None
              else Some (civil_days year month day)
          | [] => None
          end
      | [] => None
      end
  | [] => None
  end.

(** ** The catalog *)

Definition valid_identifier (value : rstr) (max : N) : bool :=
  negb (is_empty value) && (slen value <=? max) && forallb is_ascii value
  && negb (existsb is_control value).

Definition NUL : rstr := [0].

Definition entry_key (entry : PricingEntry) : rstr :=
  entry_harness entry ++ NUL ++ entry_provider entry ++ NUL ++ entry_model entry ++ NUL ++ entry_method entry.

Definition is_date (value : rstr) : bool :=
  match date_to_unix_days value with Some _ => true | None => false end.

(** The first test of the loop of [validate_catalog]. *)
Definition entry_is_valid (entry : PricingEntry) : bool :=
  valid_identifier (version entry) 128
  && valid_identifier (entry_harness entry) 64
  && valid_identifier (entry_provider entry) 64
  && valid_identifier (entry_model entry) 128
  && valid_identifier (entry_method entry) 64
  && valid_identifier (entry_currency entry) 8
  && is_date (effective_at entry)
  && match entry_retrieved_at entry with Some date => is_date date | None => false end
  && negb (match entry_max_age_days entry with Some days => days =? 0 | None => false end)
  && match valid_until entry with Some date => is_date date | None => true end
  && match min_context_tokens entry, max_context_tokens_exclusive entry with
     | Some minimum, Some maximum => negb (maximum <=? minimum)
     | _, _ => true
     end
  && str_eqb (unit_ entry) (lit "per_1m_tokens")
  && starts_with (lit "https://") (source_url entry).

Definition name_key := (rstr * rstr * rstr * rstr)%type.

(** The names an entry is resolved by. *)
Definition entry_names (entry : PricingEntry) : list name_key :=
  map (fun name => (entry_harness entry, entry_provider entry, entry_method entry, name))
    (entry_model entry :: aliases entry).

(** The inner loop: each name must be new. *)
Fixpoint insert_names (names seen : list name_key) : result rstr (list name_key) :=
  match names with
  | [] => Ok seen
  | n :: names => if bool_decide (n ∈ seen) then Err n.2 else insert_names names (n :: seen)
  end.

(** The loop of [validate_catalog], with the two sets built so far. *)
Fixpoint validate_entries (es : list PricingEntry) (keys : list rstr) (names : list name_key)
  : result BillingError unit :=
  match es with
  | [] => Ok tt
  | entry :: es =>
      if negb (entry_is_valid entry) then Err (InvalidCatalog (lit "invalid entry " ++ version entry))
      else if negb (forallb (fun alias => valid_identifier alias 128) (aliases entry))
      then Err (InvalidCatalog (lit "invalid alias in " ++ version entry))
      else if bool_decide (entry_key entry ∈ keys)
      then Err (InvalidCatalog (lit "duplicate pricing key for " ++ version entry))
      else match insert_names (entry_names entry) names with
           | Err name => Err (InvalidCatalog (lit "overlapping model or alias " ++ name ++ lit " for "
               ++ entry_harness entry ++ lit "/" ++ entry_provider entry ++ lit "/" ++ entry_method entry))
           | Ok names => validate_entries es (entry_key entry :: keys) names
           end
  end.

Definition validate_catalog (catalog : PricingCatalog) : result BillingError unit :=
  if negb (schema_version catalog =? PRICING_CATALOG_SCHEMA_VERSION)
  then Err (InvalidCatalog (lit "schema_version must be 1"))
  else if negb (valid_identifier (identity catalog) 192) || negb (is_date (retrieved_at catalog))
          || (2048 <? N.of_nat (length (entries catalog)))
  then Err (InvalidCatalog (lit "invalid identity or too many entries"))
  else validate_entries (entries catalog) [] [].

Definition normalize_entry (catalog : PricingCatalog) (e : PricingEntry) : PricingEntry :=
  {| version := version e; entry_harness := entry_harness e; entry_provider := entry_provider e;
     entry_model := entry_model e; aliases := aliases e; entry_method := entry_method e;
     entry_currency := entry_currency e; effective_at := effective_at e;
     entry_retrieved_at := match entry_retrieved_at e with
                           | None => Some (retrieved_at catalog) | Some d => Some d end;
     entry_max_age_days := match entry_max_age_days e with
                           | None => max_age_days catalog | Some d => Some d end;
     valid_until := valid_until e; min_context_tokens := min_context_tokens e;
     max_context_tokens_exclusive := max_context_tokens_exclusive e;
     source_url := source_url e; unit_ := unit_ e; rates := rates e; note := note e |}.

Definition with_entries (catalog : PricingCatalog) (es : list PricingEntry) : PricingCatalog :=
  {| schema_version := schema_version catalog; identity := identity catalog;
     retrieved_at := retrieved_at catalog; max_age_days := max_age_days catalog; entries := es |}.

Definition normalize_catalog_entries (catalog : PricingCatalog) : PricingCatalog :=
  with_entries catalog (map (normalize_entry catalog) (entries catalog)).

(** A [BTreeMap] from pricing keys to entries, as its entries in key order. *)
Fixpoint merge_insert (entry : PricingEntry) (merged : list PricingEntry) : list PricingEntry :=
  match merged with
  | [] => [entry]
  | e :: merged' =>
      match str_cmp (entry_key entry) (entry_key e) with
      | Lt => entry :: merged
      | Eq => entry :: merged'
      | Gt => e :: merge_insert entry merged'
      end
  end.

Definition merge_entries (merged es : list PricingEntry) : list PricingEntry :=
  fold_left (fun m e => merge_insert e m) es merged.

Definition str_max (a b : rstr) : rstr :=
  match str_cmp a b with Gt => a | _ => b end.

Section Loading.
Context (builtin : result BillingError PricingCatalog) (sha256_hex : list N -> rstr).

Definition builtin_pricing_catalog : result BillingError PricingCatalog :=
  catalog ← builtin;
  let catalog := normalize_catalog_entries catalog in
  _ ← validate_catalog catalog;
  Ok catalog.

(** [load_pricing_catalog]: the override is the bytes that were read, or why not,
    and how they parse. *)
Definition load_pricing_catalog
    (user_override : option (result BillingError (list N)))
    (from_slice : list N -> result BillingError PricingCatalog) : result BillingError PricingCatalog :=
  catalog ← builtin_pricing_catalog;
  match user_override with
  | None => Ok catalog
  | Some read =>
      bytes ← read;
      parsed ← from_slice bytes;
      let override_catalog := normalize_catalog_entries parsed in
      _ ← validate_catalog override_catalog;
      let merged := merge_entries (merge_entries [] (entries catalog)) (entries override_catalog) in
      let catalog :=
        {| schema_version := schema_version catalog;
           identity := identity catalog ++ lit "+" ++ identity override_catalog ++ lit "@sha256:"
                       ++ sha256_hex bytes;
           retrieved_at := str_max (retrieved_at catalog) (retrieved_at override_catalog);
           max_age_days := max_age_days catalog;
           entries := merged |} in
      _ ← validate_catalog catalog;
      Ok catalog
  end.
End Loading.

(** ** Receipts *)

Definition receipt_field_ok (value : rstr) (limit : N) : bool :=
  negb (is_empty value) && (slen value <=? limit) && forallb is_ascii value
  && negb (existsb is_control value).

Fixpoint check_fields (fields : list (rstr * rstr * N)) : result BillingError unit :=
  match fields with
  | [] => Ok tt
  | (name, value, limit) :: fields =>
      if receipt_field_ok value limit then check_fields fields
      else Err (InvalidReceipt (lit "invalid " ++ name))
  end.

Definition is_some {A} (o : option A) : bool := match o with Some _ => true | None => false end.

Definition validate_receipt (receipt : ProviderEconomicReceipt) : result BillingError unit :=
  _ ← check_fields
    [(lit "receipt_id", receipt_id receipt, 256); (lit "source", source receipt, 128);
     (lit "harness", harness receipt, 64); (lit "provider", provider receipt, 64);
     (lit "model", model receipt, 128); (lit "method", method receipt, 64);
     (lit "currency", currency receipt, 8); (lit "session_id", session_id receipt, 512)];
  _ ← guard_err ((4096 <? slen (project_path receipt)) || contains_char 0 (project_path receipt))
        (InvalidReceipt (lit "invalid project_path"));
  _ ← guard_err (match request_input_tokens receipt with Some t => t =? 0 | None => false end)
        (InvalidReceipt (lit "request_input_tokens must be positive when supplied"));
  _ ← guard_err ((output_tokens (baseline receipt) <? reasoning_tokens (baseline receipt))
                 || (output_tokens (delivered receipt) <? reasoning_tokens (delivered receipt)))
        (InvalidReceipt (lit "reasoning_tokens must be included in output_tokens"));
  guard_err (negb (eqb (is_some (actual_baseline_cost_microunits receipt))
                       (is_some (actual_delivered_cost_microunits receipt))))
    (InvalidReceipt (lit "actual provider cost requires both baseline and delivered amounts")).

Definition validate_receipt_observed_at (receipt : ProviderEconomicReceipt) (now_ms : N)
  : result BillingError unit :=
  _ ← guard_err (observed_at_ms receipt =? 0)
        (InvalidReceipt (lit "observed_at_ms must be a positive Unix timestamp in milliseconds"));
  _ ← guard_err (sat_add u64_max now_ms PROVIDER_RECEIPT_MAX_FUTURE_SKEW_MS <? observed_at_ms receipt)
        (InvalidReceipt (lit "observed_at_ms exceeds the allowed 300000 ms future clock skew"));
  guard_err (observed_at_ms receipt <? sat_sub now_ms PROVIDER_RECEIPT_MAX_AGE_MS)
    (InvalidReceipt (lit "observed_at_ms is older than the allowed 31622400000 ms receipt age")).

(** ** Prices *)

Definition categories (usage : ProviderTokenUsage) (r : TokenRates) : list (rstr * N * option N) :=
  [(lit "input", input_tokens usage, input_microunits_per_million r);
   (lit "output", output_tokens usage, output_microunits_per_million r);
   (lit "cache_read", cache_read_tokens usage, cache_read_microunits_per_million r);
   (lit "cache_write", cache_write_tokens usage, cache_write_microunits_per_million r);
   (lit "cache_write_5m", cache_write_5m_tokens usage, cache_write_5m_microunits_per_million r);
   (lit "cache_write_1h", cache_write_1h_tokens usage, cache_write_1h_microunits_per_million r)].

(** [u64::try_from(..).map_err(..)]. *)
Definition to_u64 (n : N) : result BillingError N :=
  if n <=? u64_max then Ok n else Err ArithmeticOverflow.

(** [tokens * rate / 1_000_000], rounded up, within [u64]. *)
Definition price_tokens (tokens rate : N) : result BillingError N :=
  numerator ← ok_or (checked_mul u128_max tokens rate) ArithmeticOverflow;
  to_u64 (div_ceil numerator 1000000).

Fixpoint price_categories (cs : list (rstr * N * option N)) (total : N) : result BillingError N :=
  match cs with
  | [] => Ok total
  | (name, tokens, rate) :: cs =>
      if tokens =? 0 then price_categories cs total
      else
        rate ← ok_or rate (PricingUnavailable (lit "catalog has no " ++ name ++ lit " rate"));
        amount ← price_tokens tokens rate;
        total ← ok_or (checked_add u64_max total amount) ArithmeticOverflow;
        price_categories cs total
  end.

Definition price_usage (usage : ProviderTokenUsage) (r : TokenRates) : result BillingError N :=
  price_categories (categories usage r) 0.

Definition signed_difference (baseline delivered : N) : result BillingError Z :=
  let d := (Z.of_N baseline - Z.of_N delivered)%Z in
  if (i64_min <=? d)%Z && (d <=? i64_max)%Z then Ok d else Err ArithmeticOverflow.

Definition model_matches (entry : PricingEntry) (model : rstr) : bool :=
  str_eqb (entry_model entry) model || existsb (fun alias => str_eqb alias model) (aliases entry).

Section Clock.
Context (now_secs : N).

(** Production: the wall clock in days; it fits [i64]. *)
Definition current_unix_days : Z := Z.of_N (now_secs / 86400).

Definition pricing_date_expired (date : rstr) : bool :=
  match date_to_unix_days date with
  | Some expiry_days => (expiry_days <? current_unix_days)%Z
  | None => true
  end.

(** [retrieved.saturating_add(i64::try_from(max_age).unwrap_or(i64::MAX))]. *)
Definition fresh_until (retrieved : Z) (max_age : N) : Z :=
  let age := Z.min (Z.of_N max_age) i64_max in
  Z.max i64_min (Z.min i64_max (retrieved + age)).

Definition entry_matches (harness provider model method : rstr) (entry : PricingEntry) : bool :=
  str_eqb (entry_harness entry) harness && str_eqb (entry_provider entry) provider
  && str_eqb (entry_method entry) method && model_matches entry model.

(** The tests on the one matching entry. *)
Definition is_effective (entry : PricingEntry) : bool :=
  match date_to_unix_days (effective_at entry) with
  | Some effective => (effective <=? current_unix_days)%Z
  | None => false
  end.

Definition is_stale (entry : PricingEntry) : bool :=
  match entry_max_age_days entry with
  | Some max_age =>
      match date_to_unix_days (default [] (entry_retrieved_at entry)) with
      | Some retrieved => (fresh_until retrieved max_age <? current_unix_days)%Z
      | None => true
      end
  | None => false
  end.

Definition context_check (entry : PricingEntry) (request_input_tokens : option N)
  : result BillingError unit :=
  if is_some (min_context_tokens entry) || is_some (max_context_tokens_exclusive entry) then
    context ← ok_or request_input_tokens
      (PricingUnavailable (lit "catalog entry " ++ version entry ++ lit
        " requires explicit request_input_tokens (actual priced-request input, not model capacity)"));
    guard_err
      (match min_context_tokens entry with Some m => (context : N) <? m | None => false end
       || match max_context_tokens_exclusive entry with Some m => m <=? context | None => false end)
      (PricingUnavailable (lit "request_input_tokens=" ++ lit (pretty (context : N))
        ++ lit " does not match catalog entry " ++ version entry))
  else Ok tt.

Definition find_entry (catalog : PricingCatalog) (harness provider model method : rstr)
    (request_input_tokens : option N) : result BillingError PricingEntry :=
  match List.filter (entry_matches harness provider model method) (entries catalog) with
  | [entry] =>
      _ ← guard_err (negb (is_effective entry))
            (PricingUnavailable (lit "catalog entry " ++ version entry ++ lit " is not effective until "
              ++ effective_at entry));
      _ ← guard_err (match valid_until entry with Some d => pricing_date_expired d | None => false end)
            (PricingUnavailable (lit "catalog entry " ++ version entry ++ lit " expired on "
              ++ default [] (valid_until entry)));
      _ ← guard_err (is_stale entry)
            (PricingUnavailable (lit "catalog entry " ++ version entry ++ lit " is stale: retrieved "
              ++ default [] (entry_retrieved_at entry) ++ lit " with max_age_days="
              ++ lit (pretty (default 0 (entry_max_age_days entry)))));
      _ ← context_check entry request_input_tokens;
      Ok entry
  | [] => Err (PricingUnavailable (lit "no exact catalog entry for harness=" ++ harness ++ lit " provider="
      ++ provider ++ lit " model=" ++ model ++ lit " method=" ++ method))
  | _ => Err (PricingUnavailable (lit "model alias resolves to multiple catalog entries"))
  end.

Definition price_receipt (catalog : PricingCatalog) (receipt : ProviderEconomicReceipt)
  : result BillingError PublicEstimate :=
  _ ← validate_receipt receipt;
  entry ← find_entry catalog (harness receipt) (provider receipt) (model receipt) (method receipt)
            (request_input_tokens receipt);
  _ ← guard_err (negb (str_eqb (entry_currency entry) (currency receipt)))
        (PricingUnavailable (lit "catalog currency " ++ entry_currency entry
          ++ lit " does not match receipt currency " ++ currency receipt));
  base ← price_usage (baseline receipt) (rates entry);
  deliv ← price_usage (delivered receipt) (rates entry);
  savings ← signed_difference base deliv;
  Ok {| classification := lit "public_estimate"; preliminary := true;
        amount := {| amount_currency := entry_currency entry; baseline_microunits := base;
                     delivered_microunits := deliv; savings_microunits := savings |};
        price_table_identity := identity catalog; entry_version := version entry;
        estimate_source_url := source_url entry;
        estimate_retrieved_at := default [] (entry_retrieved_at entry);
        disclaimer := lit "Preliminary public-list-price estimate; not a provider invoice or billed amount. Contract, region, tier, discounts, taxes, and tool fees may differ." |}.

Definition price_avoided_input_tokens (catalog : PricingCatalog) (request : RawPublicEstimateRequest)
  : result BillingError RawPublicEstimate :=
  entry ← find_entry catalog (req_harness request) (req_provider request) (req_model request)
            (req_method request) (req_input_tokens request);
  rate ← (if str_eqb (basis request) (lit "input")
          then Ok (input_microunits_per_million (rates entry))
          else if str_eqb (basis request) (lit "cache_read")
          then Ok (cache_read_microunits_per_million (rates entry))
          else Err (PricingUnavailable (lit "pricing basis must be input or cache_read")));
  rate ← ok_or rate (PricingUnavailable (lit "catalog has no " ++ basis request ++ lit " rate"));
  savings ← price_tokens (avoided_tokens request) rate;
  Ok {| raw_classification := lit "raw_public_estimate"; raw_preliminary := true; potential := true;
        avoided_input_tokens_estimated := avoided_tokens request; pricing_basis := basis request;
        raw_harness := req_harness request; raw_provider := req_provider request;
        raw_model := req_model request; raw_method := req_method request;
        raw_currency := entry_currency entry; raw_savings_microunits := savings;
        raw_price_table_identity := identity catalog; raw_entry_version := version entry;
        raw_source_url := source_url entry;
        raw_retrieved_at := default [] (entry_retrieved_at entry);
        raw_disclaimer := lit "Preliminary potential savings from estimated avoided tool-output tokens priced as future model input; not usage, an invoice, or a billed amount." |}.

Definition price_single_usage (catalog : PricingCatalog) (request : SingleUsageRequest)
  : result BillingError SingleUsagePrice :=
  entry ← find_entry catalog (single_harness request) (single_provider request) (single_model request)
            (single_method request) (single_input_tokens request);
  _ ← guard_err (negb (str_eqb (entry_currency entry) (single_currency request)))
        (PricingUnavailable (lit "catalog currency " ++ entry_currency entry
          ++ lit " does not match reported currency " ++ single_currency request));
  total ← price_usage (usage request) (rates entry);
  Ok {| price_currency := entry_currency entry; microunits := total;
        price_identity := identity catalog; price_entry_version := version entry |}.
End Clock.

(** ** Dates count days *)

Definition next_day (date : Z * Z * Z) : Z * Z * Z :=
  let '(y, m, d) := date in
  (if d <? days_in_month y m then (y, m, d + 1)
   else if m <? 12 then (y, m + 1, 1)
   else (y + 1, 1, 1))%Z.

(** [civil_days] without the wrapping. *)
Definition plain_days (date : Z * Z * Z) : Z :=
  let '(y, m, d) := date in
  (let a := y - (if m <=? 2 then 1 else 0) in
   let yoe := a - a / 400 * 400 in
   a / 400 * 146097 + (yoe * 365 + yoe / 4 - yoe / 100
     + ((153 * (m + (if m >? 2 then -3 else 9)) + 2) / 5 + d - 1)) - 719468)%Z.

Lemma wrap64_id z : (i64_min <= z <= i64_max)%Z -> wrap64 z = z.
Proof.
  unfold wrap64, i64_min, i64_max. intros H. rewrite Z.mod_small by lia. lia.
Qed.

(** Years a release build computes without wrapping; a date of the catalog is
    years 0 to 9999. *)
Definition max_year : Z := 10000000000.

Lemma civil_days_plain y m d :
  (0 <= y <= max_year)%Z -> (1 <= m <= 12)%Z -> (1 <= d <= 31)%Z ->
  civil_days y m d = plain_days (y, m, d).
Proof.
  intros Hy Hm Hd. unfold civil_days, plain_days, max_year in *.
  set (a := (y - (if m <=? 2 then 1 else 0))%Z). assert (-1 <= a <= 10000000000)%Z as Ha.
  { unfold a. destruct (m <=? 2)%Z; lia. }
  assert (-1 <= a / 400 <= 25000000)%Z as Hera.
  { split; [apply Z.div_le_lower_bound; lia | apply Z.div_le_upper_bound; lia]. }
  assert (0 <= a - a / 400 * 400 <= 399)%Z as Hyoe.
  { pose proof (Z.div_mod a 400 ltac:(lia)). pose proof (Z.mod_pos_bound a 400 ltac:(lia)). lia. }
  rewrite (wrap64_id a) by (unfold i64_min, i64_max; lia).
  rewrite (wrap64_id (a / 400 * 400)) by (unfold i64_min, i64_max; lia).
  rewrite (wrap64_id (a - _)) by (unfold i64_min, i64_max; lia).
  rewrite (wrap64_id (a / 400 * 146097)) by (unfold i64_min, i64_max; lia).
  set (yoe := (a - a / 400 * 400)%Z) in *. set (sm := (m + (if m >? 2 then -3 else 9))%Z).
  assert (0 <= sm <= 11)%Z as Hsm.
  { unfold sm. destruct (Z.gtb_spec m 2); lia. }
  assert (0 <= (153 * sm + 2) / 5 <= 400)%Z as Hdoy.
  { split; [apply Z.div_pos; lia | apply Z.div_le_upper_bound; lia]. }
  assert (0 <= yoe / 4 <= 100)%Z by (split; [apply Z.div_pos; lia | apply Z.div_le_upper_bound; lia]).
  assert (0 <= yoe / 100 <= 4)%Z by (split; [apply Z.div_pos; lia | apply Z.div_le_upper_bound; lia]).
  set (doe := (yoe * 365 + yoe / 4 - yoe / 100 + ((153 * sm + 2) / 5 + d - 1))%Z).
  assert (-10 <= doe <= 200000)%Z by (unfold doe; lia).
  rewrite (wrap64_id (a / 400 * 146097 + doe)) by (unfold i64_min, i64_max; lia).
  rewrite wrap64_id by (unfold i64_min, i64_max; lia). done.
Qed.

(** The calendar repeats every 400 years. *)
Lemma plain_days_shift y m d q :
  plain_days (y + q * 400, m, d)%Z = (plain_days (y, m, d) + q * 146097)%Z.
Proof.
  unfold plain_days. set (c := (if (m <=? 2)%Z then 1 else 0)%Z).
  replace (y + q * 400 - c)%Z with (y - c + q * 400)%Z by lia.
  rewrite Z.div_add by lia.
  replace (y - c + q * 400 - ((y - c) / 400 + q) * 400)%Z with (y - c - (y - c) / 400 * 400)%Z by lia.
  lia.
Qed.

Lemma leap_year_shift y q : leap_year (y + q * 400) = leap_year y.
Proof.
  unfold leap_year. replace (q * 400)%Z with (q * 100 * 4)%Z by lia. rewrite Z.mod_add by lia.
  replace (q * 100 * 4)%Z with (q * 4 * 100)%Z by lia. rewrite Z.mod_add by lia.
  replace (q * 4 * 100)%Z with (q * 400)%Z by lia. by rewrite Z.mod_add by lia.
Qed.

Lemma days_in_month_shift y m q : days_in_month (y + q * 400) m = days_in_month y m.
Proof. unfold days_in_month. by rewrite leap_year_shift. Qed.

Definition range_z (lo n : nat) : list Z := map Z.of_nat (seq lo n).

Lemma in_range_z lo n z : (Z.of_nat lo <= z < Z.of_nat (lo + n))%Z -> In z (range_z lo n).
Proof.
  intros H. unfold range_z. apply in_map_iff. exists (Z.to_nat z). split; [lia|].
  apply in_seq. lia.
Qed.

(** The day before [next_day] turns a page: the last of month [m]. *)
Definition last_day (y m : Z) : Z * Z * Z := (y, m, days_in_month y m).

Definition month_turns (y m : Z) : bool :=
  (plain_days (next_day (last_day y m)) =? plain_days (last_day y m) + 1)%Z.

(** One cycle of the calendar, checked month by month. *)
Lemma cycle_checked :
  forallb (fun y => forallb (month_turns y) (range_z 1 12)) (range_z 0 400) = true.
Proof. vm_compute. reflexivity. Qed.

Lemma forallb_In {A} (f : A -> bool) l x : forallb f l = true -> In x l -> f x = true.
Proof. rewrite List.forallb_forall. auto. Qed.

Lemma cycle_month y m :
  (0 <= y < 400)%Z -> (1 <= m <= 12)%Z -> month_turns y m = true.
Proof.
  intros Hy Hm. apply (forallb_In _ (range_z 1 12)); [|apply in_range_z; lia].
  apply (forallb_In (fun y => forallb (month_turns y) (range_z 1 12)) (range_z 0 400));
    [exact cycle_checked | apply in_range_z; lia].
Qed.

Lemma days_in_month_le y m : (days_in_month y m <= 31)%Z.
Proof. unfold days_in_month. repeat case_match; lia. Qed.

Lemma plain_days_next y m d :
  (1 <= m <= 12)%Z -> (1 <= d <= days_in_month y m)%Z ->
  plain_days (next_day (y, m, d)) = (plain_days (y, m, d) + 1)%Z.
Proof.
  intros Hm Hd. unfold next_day. destruct (Z.ltb_spec d (days_in_month y m)) as [|Hlast].
  { unfold plain_days. lia. }
  assert (d = days_in_month y m) as -> by lia. clear Hd Hlast.
  pose proof (Z.div_mod y 400 ltac:(lia)) as Hdm. pose proof (Z.mod_pos_bound y 400 ltac:(lia)) as Hr.
  set (q := (y / 400)%Z) in *. set (r := (y mod 400)%Z) in *.
  replace y with (r + q * 400)%Z in * by lia. clear Hdm.
  rewrite days_in_month_shift. pose proof (cycle_month r m Hr Hm) as H. apply Z.eqb_eq in H.
  revert H. unfold last_day, next_day. rewrite Z.ltb_irrefl, plain_days_shift.
  destruct (m <? 12)%Z; [rewrite plain_days_shift; lia|].
  replace (r + q * 400 + 1)%Z with (r + 1 + q * 400)%Z by lia. rewrite plain_days_shift. lia.
Qed.

(** The date a text spells: three numbers between dashes, a day of the calendar. *)
Definition spells_date (value : rstr) (date : Z * Z * Z) : Prop :=
  let '(y, m, d) := date in
  (exists ys ms ds, split_char (N.eqb (ch "-")) value = [ys; ms; ds] /\
    parse_i64 ys = Some y /\ parse_i64 ms = Some m /\ parse_i64 ds = Some d) /\
  (1 <= m <= 12)%Z /\ (1 <= d <= days_in_month y m)%Z.

Lemma date_to_unix_days_Some value n :
  date_to_unix_days value = Some n <->
  exists y m d, spells_date value (y, m, d) /\ n = civil_days y m d.
Proof.
  unfold date_to_unix_days, spells_date. split.
  - destruct (split_char _ value) as [|ys [|ms [|ds rest]]]; try done.
    { destruct (parse_i64 ys); done. }
    { destruct (parse_i64 ys); [|done]. simpl. destruct (parse_i64 ms); done. }
    destruct (parse_i64 ys) as [y|] eqn:Ey; [|done]. simpl.
    destruct (parse_i64 ms) as [m|] eqn:Em; [|done]. simpl.
    destruct (parse_i64 ds) as [d|] eqn:Ed; [|done]. simpl.
    destruct rest; [|done]. simpl.
    destruct ((1 <=? m)%Z && _) eqn:E1; [|done]. simpl.
    destruct ((1 <=? d)%Z && _) eqn:E2; [|done]. intros [= <-]. bool_prop.
    exists y, m, d. split; [|done]. split; [by exists ys, ms, ds|]. lia.
  - intros (y & m & d & ((ys & ms & ds & -> & Hy & Hm & Hd) & H1 & H2) & ->).
    rewrite Hy, Hm, Hd. simpl.
    rewrite (proj2 (Z.leb_le 1 m)), (proj2 (Z.leb_le m 12)), (proj2 (Z.leb_le 1 d)),
      (proj2 (Z.leb_le d _)) by lia. done.
Qed.

(** ** Prices are exact up to rounding *)

(** The price of one dimension, rounded up; nothing when no token was used. *)
Definition dimension_cost (c : rstr * N * option N) : N :=
  let '(_, tokens, rate) := c in
  if tokens =? 0 then 0 else div_ceil (tokens * default 0 rate) 1000000.

Definition total_cost (cs : list (rstr * N * option N)) : N :=
  fold_right (fun c n => dimension_cost c + n) 0 cs.

(** Millionths of microunits: what the dimensions cost without rounding. *)
Definition exact_cost (cs : list (rstr * N * option N)) : N :=
  fold_right (fun c n => let '(_, tokens, rate) := c in tokens * default 0 rate + n) 0 cs.

Definition rated (c : rstr * N * option N) : Prop := let '(_, tokens, rate) := c in tokens <> 0 -> rate <> None.

Definition in_u64 (c : rstr * N * option N) : Prop :=
  let '(_, tokens, rate) := c in tokens <= u64_max /\ default 0 rate <= u64_max.

Lemma price_tokens_Ok tokens rate n :
  tokens <= u64_max -> rate <= u64_max ->
  price_tokens tokens rate = Ok n <-> n = div_ceil (tokens * rate) 1000000 /\ n <= u64_max.
Proof.
  intros Ht Hr. unfold price_tokens, checked_mul, to_u64.
  assert (tokens * rate <= u128_max) as H.
  { transitivity (u64_max * u64_max); [by apply N.mul_le_mono|]. vm_compute. discriminate. }
  apply N.leb_le in H. rewrite H. cbn [ok_or]. cbv [mbind result_bind].
  destruct (N.leb_spec (div_ceil (tokens * rate) 1000000) u64_max) as [Hd|Hd].
  - split; [intros [= <-]; done | by intros [-> _]].
  - split; [done|]. intros [-> Hn]. lia.
Qed.

Lemma price_categories_Ok cs total n :
  Forall in_u64 cs -> total <= u64_max ->
  price_categories cs total = Ok n <->
  Forall rated cs /\ n = total + total_cost cs /\ n <= u64_max.
Proof.
  intros Hcs. revert total. induction Hcs as [|[[name tokens] rate] cs [Ht Hr] _ IH]; intros total Htot.
  { simpl. split; [intros [= <-]; split_and!; [constructor | lia | done]|].
    intros (_ & -> & _). f_equal. lia. }
  cbn [price_categories total_cost fold_right dimension_cost]. fold (total_cost cs).
  rewrite Forall_cons. cbn [rated]. destruct (N.eqb_spec tokens 0) as [->|Hz].
  { rewrite IH by done. intuition (try lia; try done). }
  destruct rate as [rate|]; cbn [ok_or]; cbv [mbind result_bind]; cycle 1.
  { split; [done|]. intros [[H _] _]. by specialize (H Hz). }
  simpl in Hr. destruct (price_tokens tokens rate) as [amount|e] eqn:Ep.
  - apply price_tokens_Ok in Ep as [-> Ha]; [|done..]. simpl default.
    unfold checked_add. destruct (N.leb_spec (total + div_ceil (tokens * rate) 1000000) u64_max) as [Hs|Hs].
    + cbn [ok_or]. rewrite IH by done. intuition (try lia; try done).
    + cbn [ok_or]. split; [done|]. lia.
  - split; [done|]. intros (_ & -> & Hn). exfalso.
    assert (price_tokens tokens rate = Ok (div_ceil (tokens * rate) 1000000)) as E; [|congruence].
    apply price_tokens_Ok; [done..|]. split; [done|]. simpl in Hn. lia.
Qed.

Lemma cost_bounds cs :
  exact_cost cs <= 1000000 * total_cost cs /\
  1000000 * total_cost cs <= exact_cost cs + 999999 * N.of_nat (length (filter (fun c => c.1.2 <> 0) cs)).
Proof.
  induction cs as [|[[name tokens] rate] cs IH]; [simpl; lia|].
  cbn [exact_cost total_cost fold_right dimension_cost]. fold (exact_cost cs) (total_cost cs). rewrite filter_cons. simpl.
  destruct (N.eqb_spec tokens 0) as [->|Hz]; [rewrite decide_False by auto; lia|rewrite decide_True by done; simpl].
  pose proof (div_ceil_spec (tokens * default 0 rate) 1000000 ltac:(done)). lia.
Qed.

(** The same without the names, and with the rounding written out. *)
Lemma total_cost_rounds cs :
  total_cost cs = fold_right (fun d n => (d.1 * default 0 d.2 + 999999) / 1000000 + n) 0 ((fun c => (c.1.2, c.2)) <$> cs).
Proof.
  induction cs as [|[[name tokens] rate] cs IH]; [done|]. cbn [total_cost fold_right dimension_cost fmap list_fmap fst snd].
  fold (total_cost cs). rewrite IH. f_equal. destruct (N.eqb_spec tokens 0) as [->|Hz]; [done|].
  pose proof (div_ceil_spec (tokens * default 0 rate) 1000000 ltac:(done)) as [H1 H2]. set (q := div_ceil _ _) in *.
  apply (N.div_unique _ _ _ (tokens * default 0 rate + 999999 - 1000000 * q)); lia.
Qed.

Lemma exact_cost_sums cs :
  exact_cost cs = fold_right (fun d n => d.1 * default 0 d.2 + n) 0 ((fun c => (c.1.2, c.2)) <$> cs).
Proof. induction cs as [|[[name tokens] rate] cs IH]; [done|]. cbn. by rewrite <- IH. Qed.

Lemma used_sums (cs : list (rstr * N * option N)) :
  filter (fun d : N * option N => d.1 <> 0) ((fun c => (c.1.2, c.2)) <$> cs) = (fun c => (c.1.2, c.2)) <$> filter (fun c => c.1.2 <> 0) cs.
Proof.
  induction cs as [|[[name tokens] rate] cs IH]; [done|]. rewrite fmap_cons, !filter_cons. simpl. rewrite IH.
  by destruct (decide (tokens <> 0)).
Qed.

(** ** Names of a validated catalog resolve to one entry *)

Lemma insert_names_Ok names seen seen' :
  insert_names names seen = Ok seen' ->
  (forall n, n ∈ seen' <-> n ∈ names \/ n ∈ seen) /\ (forall n, n ∈ names -> n ∉ seen).
Proof.
  revert seen. induction names as [|n names IH]; intros seen; simpl.
  { intros [= <-]. set_solver. }
  destruct (bool_decide (n ∈ seen)) eqn:E; [done|]. bool_prop. intros H.
  apply IH in H as [H1 H2]. split; [set_solver|]. intros m Hm. apply elem_of_cons in Hm as [->|Hm]; [done|].
  specialize (H2 m Hm). set_solver.
Qed.

Lemma entry_matches_name h p m me e :
  entry_matches h p m me e = true -> (h, p, me, m) ∈ entry_names e.
Proof.
  unfold entry_matches, model_matches, str_eqb. intros H. repeat bool_prop. subst.
  unfold entry_names. rewrite list_elem_of_fmap.
  destruct H0 as [H|H]; bool_prop.
  - exists (entry_model e). subst. set_solver.
  - apply existsb_exists in H as (a & Ha & E). bool_prop. exists a. subst.
    split; [done|]. apply list_elem_of_In. by right.
Qed.

Lemma validate_entries_names es keys names h p m me :
  validate_entries es keys names = Ok tt -> (h, p, me, m) ∈ names ->
  List.filter (entry_matches h p m me) es = [].
Proof.
  revert keys names. induction es as [|e es IH]; intros keys names; [done|]; cbn [validate_entries List.filter].
  destruct (negb (entry_is_valid e)); [done|]. destruct (negb (forallb _ _)); [done|].
  destruct (bool_decide _); [done|]. destruct (insert_names _ names) as [names'|] eqn:En; [|done].
  apply insert_names_Ok in En as [H1 H2]. intros Hv Hin.
  destruct (entry_matches h p m me e) eqn:Em.
  { apply entry_matches_name in Em. by apply H2 in Em. }
  eapply IH; [exact Hv|]. rewrite H1. by right.
Qed.

Lemma validate_entries_unique es keys names h p m me :
  validate_entries es keys names = Ok tt ->
  (length (List.filter (entry_matches h p m me) es) <= 1)%nat.
Proof.
  revert keys names. induction es as [|e es IH]; intros keys names; [simpl; lia|]; cbn [validate_entries List.filter].
  destruct (negb (entry_is_valid e)); [done|]. destruct (negb (forallb _ _)); [done|].
  destruct (bool_decide _); [done|]. destruct (insert_names _ names) as [names'|] eqn:En; [|done].
  apply insert_names_Ok in En as [H1 _]. intros Hv.
  destruct (entry_matches h p m me e) eqn:Em; [|by eapply IH].
  apply entry_matches_name in Em. simpl.
  rewrite (validate_entries_names _ _ _ _ _ _ _ Hv); [simpl; lia|]. rewrite H1. by left.
Qed.

Lemma validate_catalog_entries c : validate_catalog c = Ok tt -> validate_entries (entries c) [] [] = Ok tt.
Proof. unfold validate_catalog. by repeat case_match. Qed.

Lemma validate_entries_keys es keys names :
  validate_entries es keys names = Ok tt ->
  NoDup (map entry_key es) /\ forall e, e ∈ es -> entry_key e ∉ keys.
Proof.
  revert keys names. induction es as [|e es IH]; intros keys names; [split; [constructor|set_solver]|]; cbn [validate_entries map].
  destruct (negb (entry_is_valid e)); [done|]. destruct (negb (forallb _ _)); [done|].
  destruct (bool_decide _) eqn:Ek; [done|]. destruct (insert_names _ names) as [names'|]; [|done].
  bool_prop. intros Hv. destruct (IH _ _ Hv) as [Hd Hk]. split.
  - constructor; [|done]. intros Hin. apply list_elem_of_fmap in Hin as (e' & E & He').
    apply (Hk e' He'). rewrite <- E. set_solver.
  - intros e' He'. apply elem_of_cons in He' as [->|He']; [done|]. specialize (Hk e' He'). set_solver.
Qed.

(** ** The override replaces exactly its keys *)

(** Entries in strictly increasing key order. *)
Definition key_lt (a b : PricingEntry) : Prop := str_cmp (entry_key a) (entry_key b) = Lt.

Lemma merge_insert_spec entry m :
  StronglySorted key_lt m ->
  StronglySorted key_lt (merge_insert entry m) /\
  forall e, e ∈ merge_insert entry m <-> e = entry \/ (e ∈ m /\ entry_key e <> entry_key entry).
Proof.
  induction 1 as [|x m Hs IH Hx]; simpl.
  { split; [repeat constructor | set_solver]. }
  rewrite Forall_forall in Hx. destruct (str_cmp (entry_key entry) (entry_key x)) eqn:E.
  - apply str_cmp_eq in E. split.
    + constructor; [done|]. apply Forall_forall. intros y Hy. unfold key_lt. rewrite E. by apply Hx.
    + intros e. rewrite elem_of_cons. split; [|by intros [->|[[->|H]%elem_of_cons Hk]]; [left|congruence|right]].
      intros [->|He]; [by left|]. right. split; [by right|]. rewrite E. intros Hk.
      specialize (Hx e He). unfold key_lt in Hx. by rewrite Hk, str_cmp_refl in Hx.
  - assert (forall y, y ∈ x :: m -> key_lt entry y) as Hall.
    { intros y [->|Hy]%elem_of_cons; [done|]. unfold key_lt. eapply str_cmp_trans; [exact E|by apply Hx]. }
    split; [constructor; [by constructor; [|apply Forall_forall]|by apply Forall_forall]|].
    intros e. rewrite elem_of_cons. split; [|naive_solver]. intros [->|He]; [by left|]. right.
    split; [done|]. intros Hk. specialize (Hall e He). unfold key_lt in Hall.
    by rewrite Hk, str_cmp_refl in Hall.
  - destruct IH as [IHs IHe]. split.
    + constructor; [done|]. apply Forall_forall. intros y Hy. apply IHe in Hy as [->|[Hy _]]; [|by apply Hx].
      unfold key_lt. by rewrite str_cmp_antisym, E.
    + intros e. rewrite !elem_of_cons, IHe. split; [|naive_solver].
      intros [->|[->|[He Hk]]]; [right|by left|right; auto]. split; [by left|].
      intros Hk. by rewrite Hk, str_cmp_refl in E.
Qed.

Lemma merge_entries_spec es m :
  StronglySorted key_lt m -> NoDup (map entry_key es) ->
  StronglySorted key_lt (merge_entries m es) /\
  forall e, e ∈ merge_entries m es <-> e ∈ es \/ (e ∈ m /\ entry_key e ∉ map entry_key es).
Proof.
  unfold merge_entries. revert m. induction es as [|x es IH]; intros m Hs Hd; simpl.
  { split; [done|]. set_solver. }
  apply NoDup_cons in Hd as [Hx Hd]. destruct (merge_insert_spec x m Hs) as [Hs' He].
  destruct (IH _ Hs' Hd) as [H1 H2]. split; [done|]. intros e. rewrite H2, He, !elem_of_cons.
  split; [|naive_solver]. intros [H|[[->|[H Hk]] Hn]]; [auto | auto | right; split; [done|]].
  intros [?|?]; [done|auto].
Qed.

(** ** What an estimate rests on *)

Lemma find_entry_Ok now c h p m me ctx e :
  find_entry now c h p m me ctx = Ok e ->
  List.filter (entry_matches h p m me) (entries c) = [e] /\
  is_effective now e = true /\
  (forall d, valid_until e = Some d -> pricing_date_expired now d = false) /\
  is_stale now e = false /\ context_check e ctx = Ok tt.
Proof.
  unfold find_entry. destruct (List.filter _ (entries c)) as [|x [|y l]]; [done| |done].
  intros H. apply bind_Ok in H as (u1 & H1 & H). apply bind_Ok in H as (u2 & H2 & H).
  apply bind_Ok in H as (u3 & H3 & H). apply bind_Ok in H as ([] & H4 & [= <-]).
  apply guard_err_Ok in H1, H2, H3. apply negb_false_iff in H1. split_and!; try done.
  intros d Hd. by rewrite Hd in H2.
Qed.

Lemma signed_difference_Ok b d z :
  signed_difference b d = Ok z <-> z = (Z.of_N b - Z.of_N d)%Z /\ (i64_min <= z <= i64_max)%Z.
Proof.
  unfold signed_difference. destruct ((i64_min <=? _)%Z && _) eqn:E.
  - bool_prop. split; [intros [= <-]; lia | by intros [-> _]].
  - split; [done|]. intros [-> H]. apply andb_false_iff in E. destruct E as [E|E]; bool_prop; lia.
Qed.

(** ** Properties *)

(** C39: pricing usage is exact. Each kind of tokens has the rate of its kind, per million
    tokens. Pricing succeeds exactly when every kind with tokens has a rate and the total
    fits a [u64], and then answers the sum of the prices, each rounded up: never less
    than the exact price, and less than one microunit more for each kind with tokens. *)
Theorem price_usage_exact usage r :
  let dimensions :=
    [(input_tokens usage, input_microunits_per_million r);
     (output_tokens usage, output_microunits_per_million r);
     (cache_read_tokens usage, cache_read_microunits_per_million r);
     (cache_write_tokens usage, cache_write_microunits_per_million r);
     (cache_write_5m_tokens usage, cache_write_5m_microunits_per_million r);
     (cache_write_1h_tokens usage, cache_write_1h_microunits_per_million r)] in
  let used := filter (fun d => d.1 <> 0) dimensions in
  Forall (fun d => d.1 <= u64_max /\ default 0 d.2 <= u64_max) dimensions ->
  (forall n, price_usage usage r = Ok n <->
    Forall (fun d => is_Some d.2) used /\
    n = fold_right (fun d n => (d.1 * default 0 d.2 + 999999) / 1000000 + n) 0 dimensions /\ n <= u64_max) /\
  (forall n, price_usage usage r = Ok n ->
    let exact := fold_right (fun d n => d.1 * default 0 d.2 + n) 0 dimensions in
    exact <= 1000000 * n <= exact + 999999 * N.of_nat (length used)).
Proof.
  intros dimensions used Hu. set (cs := categories usage r). assert (dimensions = (fun c => (c.1.2, c.2)) <$> cs) as Hd by done.
  assert (used = (fun c => (c.1.2, c.2)) <$> filter (fun c => c.1.2 <> 0) cs) as Hused by (unfold used; rewrite Hd; apply used_sums).
  assert (Forall in_u64 cs) as Hcs.
  { rewrite Hd, Forall_fmap in Hu. apply (Forall_impl _ _ _ Hu). intros [[name tokens] rate]. done. }
  assert (Forall rated cs <-> Forall (fun d => is_Some d.2) used) as Hrated.
  { rewrite Hused, Forall_fmap, !Forall_forall. split.
    - intros H [[name tokens] rate] [Hz Hin]%list_elem_of_filter. specialize (H _ Hin Hz). simpl. by destruct rate; [eauto|].
    - intros H [[name tokens] rate] Hin Hz. destruct (H (name, tokens, rate)) as [x Hx]; [by apply list_elem_of_filter|].
      simpl in Hx. by rewrite Hx. }
  assert (forall n, price_usage usage r = Ok n <-> Forall rated cs /\ n = total_cost cs /\ n <= u64_max) as H.
  { intros n. unfold price_usage. fold cs. rewrite price_categories_Ok; [|done|vm_compute; discriminate]. by rewrite N.add_0_l. }
  rewrite total_cost_rounds, <- Hd in H.
  split; [intros n; rewrite H, Hrated; done|]. intros n Hn exact. apply H in Hn as (_ & Hn & _).
  pose proof (cost_bounds cs) as [H1 H2]. rewrite total_cost_rounds, exact_cost_sums, <- Hd, <- Hn in H1, H2. fold exact in H1, H2.
  rewrite Hused, length_fmap. lia.
Qed.

Definition sample_usage : ProviderTokenUsage :=
  {| input_tokens := 1500000; output_tokens := 7; reasoning_tokens := 0; cache_read_tokens := 0;
     cache_write_tokens := 0; cache_write_5m_tokens := 0; cache_write_1h_tokens := 0 |}.

Definition sample_rates : TokenRates :=
  {| input_microunits_per_million := Some 3000000; output_microunits_per_million := Some 15000001;
     cache_read_microunits_per_million := None; cache_write_microunits_per_million := None;
     cache_write_5m_microunits_per_million := None; cache_write_1h_microunits_per_million := None |}.

Lemma price_usage_exact_witness :
  price_usage sample_usage sample_rates = Ok 4500106 /\ 4500105000007 <= 1000000 * 4500106 <= 4500105000007 + 999999 * 2.
Proof.
  assert (price_usage sample_usage sample_rates = Ok 4500106) as H by reflexivity. split; [exact H|].
  apply (proj2 (price_usage_exact sample_usage sample_rates ltac:(repeat (constructor; [split; vm_compute; discriminate|]); constructor)) _ H).
Defined.

(** An estimate is backed by the catalog: exactly one entry is named by the
    receipt's harness, provider, model or alias, and method; it is in effect,
    neither expired nor stale, in the receipt's currency; and the savings are the
    difference of the two prices. *)
Theorem price_receipt_is_backed now c receipt est :
  price_receipt now c receipt = Ok est ->
  exists e b d,
    List.filter (entry_matches (harness receipt) (provider receipt) (model receipt) (method receipt))
      (entries c) = [e] /\
    is_effective now e = true /\ is_stale now e = false /\
    (forall day, valid_until e = Some day -> pricing_date_expired now day = false) /\
    entry_currency e = currency receipt /\ amount_currency (amount est) = currency receipt /\
    price_usage (baseline receipt) (rates e) = Ok b /\ price_usage (delivered receipt) (rates e) = Ok d /\
    baseline_microunits (amount est) = b /\ delivered_microunits (amount est) = d /\
    savings_microunits (amount est) = (Z.of_N b - Z.of_N d)%Z /\
    price_table_identity est = identity c /\ entry_version est = version e /\ preliminary est = true.
Proof.
  unfold price_receipt. intros H. inv_ok. apply find_entry_Ok in H0 as (Hf & He & Hv & Hs & _).
  apply negb_false_iff in H1. unfold str_eqb in H1. bool_prop.
  apply signed_difference_Ok in H4 as [-> _]. eexists _, _, _. simpl. by split_and!.
Qed.

Definition sample_entry : PricingEntry :=
  {| version := lit "v1"; entry_harness := lit "h"; entry_provider := lit "p"; entry_model := lit "m";
     aliases := [lit "m-alias"]; entry_method := lit "api"; entry_currency := lit "USD";
     effective_at := lit "2026-01-01"; entry_retrieved_at := Some (lit "2026-11-05");
     entry_max_age_days := Some 90; valid_until := None; min_context_tokens := None;
     max_context_tokens_exclusive := None; source_url := lit "https://example.org";
     unit_ := lit "per_1m_tokens"; rates := sample_rates; note := [] |}.

Definition sample_catalog : PricingCatalog :=
  {| schema_version := 1; identity := lit "sample"; retrieved_at := lit "2026-11-05";
     max_age_days := None; entries := [sample_entry] |}.

Definition sample_receipt : ProviderEconomicReceipt :=
  {| receipt_id := lit "r"; source := lit "s"; observed_at_ms := 1; harness := lit "h"; provider := lit "p";
     model := lit "m-alias"; method := lit "api"; currency := lit "USD"; request_input_tokens := None;
     session_id := lit "x"; project_path := []; baseline := sample_usage; delivered := sample_usage;
     actual_baseline_cost_microunits := None; actual_delivered_cost_microunits := None;
     enable_public_estimate := true |}.

(** 2026-11-06. *)
Definition sample_now : N := 20763 * 86400.

Lemma price_receipt_is_backed_witness :
  exists est e b d, price_receipt sample_now sample_catalog sample_receipt = Ok est /\
    List.filter (entry_matches (harness sample_receipt) (provider sample_receipt) (model sample_receipt)
      (method sample_receipt)) (entries sample_catalog) = [e] /\
    savings_microunits (amount est) = (Z.of_N b - Z.of_N d)%Z.
Proof.
  destruct (price_receipt sample_now sample_catalog sample_receipt) as [est|] eqn:E; [|vm_compute in E; discriminate].
  destruct (price_receipt_is_backed _ _ _ _ E) as (e & b & d & H1 & _ & _ & _ & _ & _ & _ & _ & _ & _ & H2 & _).
  exists est, e, b, d. by split_and!.
Defined.

(** In a catalog that passed validation no harness, provider, model or alias,
    and method is resolved by two entries: looking one up never fails for being
    ambiguous. *)
Theorem validated_names_resolve_uniquely now c h p m me ctx :
  validate_catalog c = Ok tt ->
  (length (List.filter (entry_matches h p m me) (entries c)) <= 1)%nat /\
  find_entry now c h p m me ctx <>
    Err (PricingUnavailable (lit "model alias resolves to multiple catalog entries")).
Proof.
  intros Hv. pose proof (validate_entries_unique _ _ _ h p m me (validate_catalog_entries _ Hv)) as Hl.
  split; [done|]. unfold find_entry.
  destruct (List.filter _ (entries c)) as [|x [|y l]]; [discriminate| |simpl in Hl; lia].
  rewrite bind_Err. intros [H|(u1 & _ & H)].
  { unfold guard_err in H. repeat case_match; simplify_eq. }
  rewrite bind_Err in H. destruct H as [H|(u2 & _ & H)].
  { unfold guard_err in H. repeat case_match; simplify_eq. }
  rewrite bind_Err in H. destruct H as [H|(u3 & _ & H)].
  { unfold guard_err in H. repeat case_match; simplify_eq. }
  rewrite bind_Err in H. destruct H as [H|(u4 & _ & H)]; [|done].
  unfold context_check in H. destruct (_ || _); [|done].
  rewrite bind_Err in H. destruct H as [H|(u5 & _ & H)].
  - destruct ctx; simplify_eq.
  - unfold guard_err in H. repeat case_match; simplify_eq.
Qed.

Lemma validated_names_resolve_uniquely_witness :
  (length (List.filter (entry_matches (lit "h") (lit "p") (lit "m") (lit "api")) (entries sample_catalog)) <= 1)%nat /\
  find_entry sample_now sample_catalog (lit "h") (lit "p") (lit "m") (lit "api") None <>
    Err (PricingUnavailable (lit "model alias resolves to multiple catalog entries")).
Proof. apply validated_names_resolve_uniquely. vm_compute. reflexivity. Defined.

(** An override replaces exactly the pricing keys it names: the loaded
    catalog holds every entry of the override and every built-in entry whose key
    the override does not name, and nothing else; it passed validation, and its
    identity says it was overridden. *)
Theorem override_replaces_its_keys builtin sha from_slice bytes b o c :
  builtin_pricing_catalog builtin = Ok b -> from_slice bytes = Ok o ->
  load_pricing_catalog builtin sha (Some (Ok bytes)) from_slice = Ok c ->
  (forall e, e ∈ entries c <->
    e ∈ entries (normalize_catalog_entries o) \/
    (e ∈ entries b /\ entry_key e ∉ map entry_key (entries (normalize_catalog_entries o)))) /\
  validate_catalog c = Ok tt /\
  identity c = identity b ++ lit "+" ++ identity o ++ lit "@sha256:" ++ sha bytes.
Proof.
  intros Hb Ho. unfold load_pricing_catalog. rewrite Hb. cbn. cbv [mbind result_bind]. rewrite Ho.
  destruct (validate_catalog (normalize_catalog_entries o)) as [[]|] eqn:Ev; [|done].
  match goal with |- match validate_catalog ?x with _ => _ end = _ -> _ => set (cat := x) end.
  destruct (validate_catalog cat) as [[]|] eqn:Ec; [|done]. intros [= <-].
  assert (validate_catalog b = Ok tt) as Hbv.
  { revert Hb. unfold builtin_pricing_catalog. intros H. inv_ok. by destruct x0. }
  apply validate_catalog_entries, validate_entries_keys in Hbv as [Hbd _].
  apply validate_catalog_entries, validate_entries_keys in Ev as [Hod _].
  destruct (merge_entries_spec (entries b) [] ltac:(constructor) Hbd) as [Hs He].
  destruct (merge_entries_spec _ _ Hs Hod) as [_ He']. split; [|done].
  intros e. unfold cat. cbn [entries]. rewrite He', He. set_solver.
Qed.

Lemma override_replaces_its_keys_witness :
  exists c, load_pricing_catalog (Ok sample_catalog) (fun _ => lit "00") (Some (Ok [1])) (fun _ => Ok sample_catalog) = Ok c /\
    sample_entry ∈ entries c.
Proof.
  destruct (load_pricing_catalog (Ok sample_catalog) (fun _ => lit "00") (Some (Ok [1])) (fun _ => Ok sample_catalog))
    as [c|] eqn:E; [|vm_compute in E; discriminate].
  destruct (override_replaces_its_keys (Ok sample_catalog) (fun _ => lit "00") (fun _ => Ok sample_catalog) [1]
    sample_catalog sample_catalog c) as [H _]; [vm_compute; reflexivity | reflexivity | exact E|].
  exists c. split; [done|]. apply H. left. apply list_elem_of_here.
Defined.

(** A date is the number of days since 1970-01-01: the text of the next day
    of the calendar reads as one more, and a text that spells no day of the
    calendar reads as nothing. *)
Theorem dates_count_days value value' y m d n :
  (0 <= y < max_year)%Z ->
  spells_date value (y, m, d) -> spells_date value' (next_day (y, m, d)) ->
  date_to_unix_days value = Some n ->
  date_to_unix_days value' = Some (n + 1)%Z /\
  (forall v, date_to_unix_days v <> None <-> exists date, spells_date v date) /\
  date_to_unix_days (lit "1970-01-01") = Some 0%Z.
Proof.
  intros Hy H1 H2 Hn. split_and!; [| |reflexivity].
  - apply date_to_unix_days_Some in Hn as (y1 & m1 & d1 & Hsp & ->).
    assert ((y1, m1, d1) = (y, m, d)) as [= -> -> ->].
    { destruct Hsp as ((a & b & c & Hs & Ha & Hb & Hc) & _).
      destruct H1 as ((a' & b' & c' & Hs' & Ha' & Hb' & Hc') & _). congruence. }
    apply date_to_unix_days_Some. destruct (next_day (y, m, d)) as [[y2 m2] d2] eqn:En.
    exists y2, m2, d2. split; [done|].
    destruct H1 as (_ & Hm & Hd). destruct H2 as (_ & Hm2 & Hd2).
    assert (y2 = y \/ y2 = y + 1)%Z as Hy2.
    { unfold next_day in En. repeat case_match; simplify_eq; lia. }
    rewrite !civil_days_plain; [|unfold max_year in *; pose proof (days_in_month_le y m);
      pose proof (days_in_month_le y2 m2); lia ..].
    rewrite <- En. symmetry. by apply plain_days_next.
  - intros v. destruct (date_to_unix_days v) as [z|] eqn:E.
    + split; [|done]. intros _. apply date_to_unix_days_Some in E as (? & ? & ? & H & _). eauto.
    + split; [done|]. intros ([[a b] c] & H). exfalso.
      assert (date_to_unix_days v = Some (civil_days a b c)); [|congruence].
      apply date_to_unix_days_Some. eauto.
Qed.

Lemma dates_count_days_witness :
  date_to_unix_days (lit "2024-02-29") = Some 19782%Z /\
  date_to_unix_days (lit "2024-03-01") = Some (19782 + 1)%Z.
Proof.
  assert (spells_date (lit "2024-02-29") (2024, 2, 29)%Z) as H1.
  { split; [exists (lit "2024"), (lit "02"), (lit "29"); by split_and!|]. split; split; vm_compute; discriminate. }
  assert (spells_date (lit "2024-03-01") (next_day (2024, 2, 29)%Z)) as H2.
  { split; [exists (lit "2024"), (lit "03"), (lit "01"); by split_and!|]. split; split; vm_compute; discriminate. }
  split; [reflexivity|].
  apply (dates_count_days (lit "2024-02-29") (lit "2024-03-01") 2024 2 29 19782); [|exact H1|exact H2|reflexivity].
  split; vm_compute; [discriminate|reflexivity].
Defined.

End Billing.
