(* ===== verification/SearchPages.v ===== *)
(** Search pages ([crates/hzr-daemon/src/search_pages.rs]): a search result is
    published once as an immutable snapshot and then read page by page with
    cursors.

    The snapshot directory is the list of its files, in the order the operating
    system lists them; failing file system calls are left out.  The JSON encoding
    of a snapshot and the digest of a request's identity are the parameters
    [to_vec], [from_slice] and [digest]; a hit is never looked into. *)

From S2P Require Import Prelude RStr.
From Stdlib Require Import ZifyBool ZifyN.

Module SearchPages.

Definition SNAPSHOT_HITS : N := 100.
Definition TTL_MS : N := 15 * 60 * 1000.
Definition MAX_RECORD_BYTES : N := 2 * 1024 * 1024.
Definition MAX_RECORDS : N := 128.
Definition MAX_TOTAL_BYTES : N := 64 * 1024 * 1024.

Inductive SearchMode := Exact | Semantic | Auto.

#[export] Instance SearchMode_eq_dec : EqDecision SearchMode.
Proof. solve_decision. Defined.

Inductive ApiError :=
| bad_request (message : rstr)
| not_found (code message : rstr)
| service (code message : rstr)
| internal (message : rstr).

Record SearchPage := {
  snapshot_id : rstr;
  page_offset : N;
  available_hits : N;
  snapshot_complete : bool;
  next_cursor : option rstr;
  page_expires_at_ms : N;
}.

Record SearchApiRequest := {
  paginate : bool;
  cursor : option rstr;
  workspace : rstr;
  query : rstr;
  path : option rstr;
  limit : N;
  mode : SearchMode;
  include_content : bool;
}.

Definition valid_id (id : rstr) : bool := (slen id =? 32) && forallb is_ascii_hexdigit id.

Definition cache_full : ApiError :=
  service (lit "search_snapshot_capacity")
    (lit "private search snapshot capacity reached; wait for expiry or search without pagination").

(** ** The snapshot directory *)

Record DirEntry := {
  name : rstr;
  is_file : bool;
  modified : option N;
  content : list N;
}.

Definition Directory := list DirEntry.

Definition entry_len (e : DirEntry) : N := N.of_nat (length (content e)).

(** The identifier of a snapshot's file: its name behind [Path::extension] and
    [strip_suffix] tests. *)
Definition record_id (file_name : rstr) : option rstr :=
  match strip_suffix (lit ".json") file_name with
  | Some id => if valid_id id then Some id else None
  | None => None
  end.

Definition is_expired (now : N) (e : DirEntry) : bool :=
  match modified e with Some m => TTL_MS <=? sat_sub now m | None => false end.

(** The loop over the directory of [publish_at]: the files kept so far, the
    number of records and their total size.  An early return keeps what was not
    yet removed. *)
Fixpoint sweep (now : N) (index : N) (todo kept : Directory) (records total : N)
  : Directory * result ApiError (N * N) :=
  match todo with
  | [] => (kept, Ok (records, total))
  | e :: rest =>
      if 2 * MAX_RECORDS <? index then (kept ++ todo, Err cache_full)
      else match record_id (name e) with
           | None => sweep now (index + 1) rest (kept ++ [e]) records total
           | Some _ =>
               if negb (is_file e) then (kept ++ todo, Err cache_full)
               else if is_expired now e then sweep now (index + 1) rest kept records total
               else sweep now (index + 1) rest (kept ++ [e]) (records + 1)
                      (sat_add u64_max total (entry_len e))
           end
  end.

(** [NamedTempFile::persist]: a file of the same name is replaced. *)
Definition persist (e : DirEntry) (dir : Directory) : Directory :=
  List.filter (fun f => negb (str_eqb (name f) (name e))) dir ++ [e].

Definition find_file (dir : Directory) (file_name : rstr) : option DirEntry :=
  List.find (fun e => str_eqb (name e) file_name) dir.

(** ** What a publication leaves behind *)

Definition is_record (e : DirEntry) : bool :=
  match record_id (name e) with Some _ => true | None => false end.

Definition records_of (dir : Directory) : Directory := List.filter is_record dir.

Definition total_of (dir : Directory) : N := fold_right (fun e n => entry_len e + n) 0 (records_of dir).

Lemma total_of_app d d' : total_of (d ++ d') = total_of d + total_of d'.
Proof.
  unfold total_of, records_of. rewrite List.filter_app.
  induction (List.filter is_record d) as [|e l IH]; simpl; [done|]. lia.
Qed.

(** The sweep counts the records it keeps, and their total. *)
Lemma sweep_counts now todo : forall index kept records total dir r t,
  sweep now index todo kept records total = (dir, Ok (r, t)) ->
  exists kept', dir = kept ++ kept' /\ r = records + N.of_nat (length (records_of kept')) /\
    (t <= u64_max -> total + total_of kept' <= t \/ t = u64_max).
Proof.
  induction todo as [|e todo IH]; intros index kept records total dir r t; cbn [sweep].
  { intros [= <- <- <-]. exists []. rewrite app_nil_r. unfold total_of. simpl. split_and!; [done|lia|lia]. }
  destruct (2 * MAX_RECORDS <? index); [done|].
  destruct (record_id (name e)) as [id|] eqn:Eid; cycle 1.
  { intros H. apply IH in H as (k & -> & -> & Ht). exists (e :: k). rewrite <- app_assoc.
    assert (is_record e = false) as Er by (unfold is_record; by rewrite Eid).
    unfold total_of, records_of in *. cbn [List.filter]. by rewrite Er. }
  destruct (negb (is_file e)); [done|]. destruct (is_expired now e).
  { intros H. by apply IH in H. }
  intros H. apply IH in H as (k & -> & -> & Ht). exists (e :: k). rewrite <- app_assoc.
  assert (is_record e = true) as Er by (unfold is_record; by rewrite Eid).
  unfold total_of, records_of in *. cbn [List.filter]. rewrite Er.
  cbn [length fold_right]. split_and!; [done | lia |]. intros H. specialize (Ht H).
  unfold sat_add in Ht. lia.
Qed.

Lemma persist_records e dir :
  is_record e = true ->
  (length (records_of (persist e dir)) <= S (length (records_of dir)))%nat /\
  total_of (persist e dir) <= total_of dir + entry_len e.
Proof.
  intros He. unfold persist. rewrite total_of_app. unfold records_of. rewrite List.filter_app, length_app.
  unfold total_of at 2, records_of. cbn [List.filter]. rewrite He. cbn [length fold_right].
  induction dir as [|f dir IH]; [simpl; lia|]. unfold total_of, records_of in *. cbn [List.filter].
  destruct (negb (str_eqb (name f) (name e))); cbn [List.filter];
    destruct (is_record f); cbn [length fold_right]; lia.
Qed.

Lemma find_persist e dir : find_file (persist e dir) (name e) = Some e.
Proof.
  unfold find_file, persist. induction dir as [|f dir IH]; cbn [List.filter app List.find].
  - unfold str_eqb. by rewrite bool_decide_true.
  - destruct (str_eqb (name f) (name e)) eqn:E; simpl; [done|]. by rewrite E.
Qed.

(** A cursor names its snapshot and its offset. *)
Lemma cursor_parses id n :
  valid_id id = true -> n <= u64_max ->
  split_once (lit ":") (id ++ lit ":" ++ dec n) = Some (id, dec n).
Proof.
  intros Hid Hn. apply andb_true_iff in Hid as [_ Hid]. change (lit ":") with [58].
  induction id as [|c id IH]; cbn [app split_once strip_prefix].
  - done.
  - simpl in Hid. apply andb_true_iff in Hid as [Hc Hid].
    destruct (N.eqb_spec 58 c) as [<-|_]; [discriminate|].
    cbn [app] in IH. by rewrite IH.
Qed.

Lemma cursor_length id n :
  valid_id id = true -> n <= u64_max -> slen (id ++ lit ":" ++ dec n) <= 128.
Proof.
  intros Hid Hn. unfold valid_id, slen in *. apply andb_true_iff in Hid as [Hl _].
  apply N.eqb_eq in Hl. pose proof (dec_blen n Hn). rewrite !blen_app.
  change (blen (lit ":")) with 1%nat. lia.
Qed.

(** ** Pages *)

Section Pages.
Context {SearchHit SearchStrategy SearchFallbackCode : Type}.

Record SearchApiResponse := {
  page_ : option SearchPage;
  response_query : rstr;
  response_path : rstr;
  total_hits : N;
  shown_hits : N;
  scanned_files : N;
  skipped_large : N;
  skipped_binary : N;
  hits : list SearchHit;
  effective_mode : SearchMode;
  strategy : SearchStrategy;
  fallback_code : option SearchFallbackCode;
  index_generation : option rstr;
  fallback_reason : option rstr;
  next_step : option rstr;
}.

Record Snapshot := {
  version : N;
  snapshot_binding : rstr;
  expires_at_ms : N;
  response : SearchApiResponse;
}.

(** What a request is bound by. *)
Definition identity := (rstr * rstr * option rstr * N * SearchMode * bool)%type.

Definition request_identity (request : SearchApiRequest) : identity :=
  (workspace request, query request, path request, limit request, mode request,
   include_content request).

Context (digest : identity -> rstr).
Context (to_vec : Snapshot -> list N) (from_slice : list N -> option Snapshot).

Definition binding (request : SearchApiRequest) : rstr := digest (request_identity request).

Definition num_hits (l : list SearchHit) : N := N.of_nat (length l).

(** [.skip(offset).take(limit)]. *)
Definition slice_hits (offset limit : N) (l : list SearchHit) : list SearchHit :=
  take (N.to_nat limit) (drop (N.to_nat offset) l).

Definition page (snapshot : Snapshot) (id : rstr) (offset limit : N)
  : result ApiError SearchApiResponse :=
  if (limit =? 0) || (SNAPSHOT_HITS <? limit)
  then Err (bad_request (lit "search page size must be 1..100"))
  else
    let r := response snapshot in
    let available := num_hits (hits r) in
    let fin := N.min (sat_add u64_max offset limit) available in
    let next := if fin <? available then Some (id ++ lit ":" ++ dec fin) else None in
    let complete := total_hits r <=? available in
    let shown := slice_hits offset limit (hits r) in
    Ok {| page_ := Some {| snapshot_id := id; page_offset := offset; available_hits := available;
                           snapshot_complete := complete; next_cursor := next;
                           page_expires_at_ms := expires_at_ms snapshot |};
          response_query := response_query r; response_path := response_path r;
          total_hits := total_hits r; shown_hits := num_hits shown;
          scanned_files := scanned_files r; skipped_large := skipped_large r;
          skipped_binary := skipped_binary r; hits := shown; effective_mode := effective_mode r;
          strategy := strategy r; fallback_code := fallback_code r;
          index_generation := index_generation r; fallback_reason := fallback_reason r;
          next_step :=
            match next with
            | Some cursor => Some (lit "Continue this immutable snapshot with --cursor " ++ cursor
                ++ lit " and the same query, scope and options.")
            | None =>
                if complete then None
                else Some (lit "Snapshot exhausted at 100 hits; narrow the query/scope for additional matches. No automatic rescan occurred.")
            end |}.

(** The snapshot [publish_at] writes. *)
Definition new_snapshot (request : SearchApiRequest) (resp : SearchApiResponse) (now : N) : Snapshot :=
  {| version := 1; snapshot_binding := binding request;
     expires_at_ms := sat_add u64_max now TTL_MS; response := resp |}.

Definition publish_at (dir : Directory) (request : SearchApiRequest) (resp : SearchApiResponse)
    (now : N) (id : rstr) : Directory * result ApiError SearchApiResponse :=
  let snapshot := new_snapshot request resp now in
  let bytes := to_vec snapshot in
  let size := N.of_nat (length bytes) in
  if MAX_RECORD_BYTES <? size
  then (dir, Err (bad_request (lit "search snapshot exceeds 2 MiB; use a narrower scope or omit content")))
  else
    let '(dir, swept) := sweep now 0 dir [] 0 size in
    match swept with
    | Err e => (dir, Err e)
    | Ok (records, total) =>
        if (MAX_RECORDS <=? records) || (MAX_TOTAL_BYTES <? total) then (dir, Err cache_full)
        else
          (persist {| name := id ++ lit ".json"; is_file := true; modified := Some now;
                      content := bytes |} dir,
           page snapshot id 0 (limit request))
    end.

Definition unavailable : ApiError :=
  not_found (lit "search_snapshot_expired")
    (lit "search snapshot is unavailable or expired; explicitly start a new search").

(** [read_bounded_regular_file]. *)
Definition read_bounded (dir : Directory) (file_name : rstr) (max : N) : result ApiError (list N) :=
  match find_file dir file_name with
  | Some e => if is_file e && (entry_len e <=? max) then Ok (content e) else Err unavailable
  | None => Err unavailable
  end.

Definition read_at (dir : Directory) (request : SearchApiRequest) (now : N)
  : result ApiError SearchApiResponse :=
  cursor ← ok_or (cursor request) (bad_request (lit "search cursor is required"));
  '(id, offset) ← ok_or (split_once (lit ":") cursor) (bad_request (lit "malformed search cursor"));
  _ ← guard_err (negb (valid_id id) || (128 <? slen cursor)) (bad_request (lit "malformed search cursor"));
  offset ← ok_or (parse_unsigned u64_max offset) (bad_request (lit "malformed search cursor offset"));
  bytes ← read_bounded dir (id ++ lit ".json") MAX_RECORD_BYTES;
  snapshot ← ok_or (from_slice bytes) (bad_request (lit "search snapshot is invalid"));
  _ ← guard_err (negb (version snapshot =? 1) || (expires_at_ms snapshot <=? now))
        (not_found (lit "search_snapshot_expired")
           (lit "search snapshot expired; explicitly start a new search"));
  _ ← guard_err (negb (str_eqb (snapshot_binding snapshot) (binding request)))
        (bad_request (lit "search cursor does not match workspace/query/path/mode/content/page size"));
  _ ← guard_err (num_hits (hits (response snapshot)) <=? offset)
        (bad_request (lit "search cursor offset is outside the snapshot"));
  page snapshot id offset (limit request).

(** ** Reading a snapshot to its end *)

Definition at_cursor (request : SearchApiRequest) (c : rstr) : SearchApiRequest :=
  {| paginate := paginate request; cursor := Some c; workspace := workspace request;
     query := query request; path := path request; limit := limit request; mode := mode request;
     include_content := include_content request |}.

(** What a client that follows the cursors from a page on is shown: the pages,
    until one has no next cursor; [None] when a read fails or the fuel, one unit
    per read, does not reach the last page. *)
Fixpoint follow (fuel : nat) (dir : Directory) (request : SearchApiRequest) (now : N)
    (r : SearchApiResponse) : option (list (list SearchHit)) :=
  match page_ r with
  | Some {| next_cursor := Some c |} =>
      match fuel with
      | O => None
      | S fuel =>
          match read_at dir (at_cursor request c) now with
          | Ok r' => rest ← follow fuel dir request now r'; Some (hits r :: rest)
          | Err _ => None
          end
      end
  | _ => Some [hits r]
  end.

(** ** Lemmas *)

Lemma binding_at_cursor request c : binding (at_cursor request c) = binding request.
Proof. done. Qed.

Lemma page_Ok s id offset lim r :
  page s id offset lim = Ok r ->
  0 < lim <= SNAPSHOT_HITS /\ hits r = slice_hits offset lim (hits (response s)) /\
  page_ r = Some {| snapshot_id := id; page_offset := offset;
    available_hits := num_hits (hits (response s));
    snapshot_complete := total_hits (response s) <=? num_hits (hits (response s));
    next_cursor := (let fin := N.min (sat_add u64_max offset lim) (num_hits (hits (response s))) in
      if fin <? num_hits (hits (response s)) then Some (id ++ lit ":" ++ dec fin) else None);
    page_expires_at_ms := expires_at_ms s |}.
Proof.
  unfold page. destruct ((lim =? 0) || _) eqn:E; [done|]. intros [= <-]. bool_prop.
  split; [lia|]. done.
Qed.

(** A snapshot that is on disk, whole and alive. *)
Definition stored (dir : Directory) (id : rstr) (s : Snapshot) : Prop :=
  valid_id id = true /\ version s = 1 /\
  exists e, find_file dir (id ++ lit ".json") = Some e /\ is_file e = true /\
    entry_len e <= MAX_RECORD_BYTES /\ from_slice (content e) = Some s.

(** Reading a stored snapshot at a cursor inside it answers that page. *)
Lemma read_stored dir id s request now n :
  stored dir id s -> snapshot_binding s = binding request -> now < expires_at_ms s ->
  n < num_hits (hits (response s)) -> n <= u64_max ->
  read_at dir (at_cursor request (id ++ lit ":" ++ dec n)) now = page s id n (limit request).
Proof.
  intros (Hid & Hv & e & Hf & Hfile & Hlen & Hs) Hb Hnow Hn Hmax. unfold read_at.
  cbn [cursor at_cursor ok_or]. cbv [mbind result_bind].
  rewrite cursor_parses by done. cbn [ok_or].
  rewrite Hid. pose proof (cursor_length id n Hid Hmax) as Hl.
  destruct (N.ltb_spec 128 (slen (id ++ lit ":" ++ dec n))); [lia|]. cbn [negb orb guard_err].
  rewrite parse_dec by done. cbn [ok_or]. unfold read_bounded. rewrite Hf, Hfile.
  apply N.leb_le in Hlen as ->. cbn [andb]. rewrite Hs. cbn [ok_or].
  rewrite Hv. destruct (N.leb_spec (expires_at_ms s) now); [lia|].
  change (negb (1 =? 1) || false) with false. cbn [guard_err].
  rewrite binding_at_cursor. unfold str_eqb. rewrite bool_decide_true by done. cbn [negb guard_err].
  destruct (N.leb_spec (num_hits (hits (response s))) n); [lia|]. done.
Qed.

(** A page either ends the snapshot or its cursor is where it ends. *)
Lemma follow_page fuel dir s id request now n r :
  page s id n (limit request) = Ok r -> num_hits (hits (response s)) <= u64_max ->
  follow fuel dir request now r =
    if n + limit request <? num_hits (hits (response s)) then
      match fuel with
      | O => None
      | S fuel =>
          match read_at dir (at_cursor request (id ++ lit ":" ++ dec (n + limit request))) now with
          | Ok r' => rest ← follow fuel dir request now r'; Some (hits r :: rest)
          | Err _ => None
          end
      end
    else Some [hits r].
Proof.
  intros Hp Hmax. destruct (page_Ok _ _ _ _ _ Hp) as (Hlim & _ & Hpage).
  destruct (N.ltb_spec (n + limit request) (num_hits (hits (response s)))) as [Hf|Hf].
  - assert (N.min (sat_add u64_max n (limit request)) (num_hits (hits (response s))) = n + limit request) as E.
    { unfold sat_add. lia. }
    rewrite E in Hpage. apply N.ltb_lt in Hf. cbv zeta in Hpage. rewrite Hf in Hpage.
    destruct fuel; cbn [follow]; by rewrite Hpage.
  - assert (N.min (sat_add u64_max n (limit request)) (num_hits (hits (response s)))
      = num_hits (hits (response s))) as E by (unfold sat_add; lia).
    rewrite E in Hpage. cbv zeta in Hpage. rewrite N.ltb_irrefl in Hpage.
    destruct fuel; cbn [follow]; by rewrite Hpage.
Qed.

(** Following the cursors from offset [n] on shows everything behind it. *)
Lemma follow_stored dir id s request now :
  stored dir id s -> snapshot_binding s = binding request -> now < expires_at_ms s ->
  num_hits (hits (response s)) <= u64_max ->
  forall fuel n r, page s id n (limit request) = Ok r ->
  num_hits (hits (response s)) < N.of_nat fuel + n + limit request ->
  exists pages, follow fuel dir request now r = Some pages /\
    concat pages = drop (N.to_nat n) (hits (response s)) /\
    Forall (fun p => (length p <= N.to_nat (limit request))%nat) pages.
Proof.
  intros Hst Hb Hnow Hmax. induction fuel as [|fuel IH]; intros n r Hp Hfuel;
    destruct (page_Ok _ _ _ _ _ Hp) as (Hlim & Hh & _);
    rewrite (follow_page _ dir s id request now n r Hp Hmax);
    destruct (N.ltb_spec (n + limit request) (num_hits (hits (response s)))) as [Hf|Hf]; [lia| | |].
  1, 3: exists [hits r]; split; [done|]; simpl; rewrite app_nil_r, Hh; unfold slice_hits, num_hits in *;
    (split; [apply take_ge; rewrite length_drop; lia | constructor; [rewrite length_take; lia | done]]).
  rewrite (read_stored dir id s) by (done || lia).
  destruct (page s id (n + limit request) (limit request)) as [r'|e] eqn:Er; cycle 1.
  { exfalso. unfold page in Er, Hp. destruct ((limit request =? 0) || _); done. }
  destruct (IH _ r' Er) as (pages & -> & Hc & Hl); [unfold SNAPSHOT_HITS in *; lia|].
  exists (hits r :: pages). split; [done|]. simpl. rewrite Hc, Hh. unfold slice_hits. split.
  - rewrite N2Nat.inj_add, <- drop_drop. apply take_drop.
  - constructor; [rewrite length_take; lia | done].
Qed.

Lemma publish_Ok dir request resp now id dir' r :
  publish_at dir request resp now id = (dir', Ok r) ->
  exists swept records total,
    sweep now 0 dir [] 0 (N.of_nat (length (to_vec (new_snapshot request resp now)))) = (swept, Ok (records, total)) /\
    records < MAX_RECORDS /\ total <= MAX_TOTAL_BYTES /\
    N.of_nat (length (to_vec (new_snapshot request resp now))) <= MAX_RECORD_BYTES /\
    dir' = persist {| name := id ++ lit ".json"; is_file := true; modified := Some now;
                      content := to_vec (new_snapshot request resp now) |} swept /\
    page (new_snapshot request resp now) id 0 (limit request) = Ok r.
Proof.
  clear from_slice.
  unfold publish_at. destruct (N.ltb_spec MAX_RECORD_BYTES
    (N.of_nat (length (to_vec (new_snapshot request resp now))))) as [|Hs]; [done|].
  destruct (sweep now 0 dir [] 0 _) as [swept [[records total]|e]] eqn:Es; [|done].
  destruct ((MAX_RECORDS <=? records) || _) eqn:E; [done|]. intros [= <- Hp]. bool_prop.
  exists swept, records, total. split_and!; [done | lia | lia | lia | done | done].
Qed.

(** ** Properties *)

(** A published search is read to its end by following its cursors, as long
    as the snapshot lives: every read succeeds, the pages are no longer than
    asked for, and together they are exactly the hits that were published, each
    once and in order, with one read per hit at most. *)
Theorem pages_deliver_the_snapshot dir request resp now now' id dir' first fuel :
  from_slice (to_vec (new_snapshot request resp now)) = Some (new_snapshot request resp now) ->
  valid_id id = true -> num_hits (hits resp) <= u64_max ->
  publish_at dir request resp now id = (dir', Ok first) ->
  now' < sat_add u64_max now TTL_MS -> num_hits (hits resp) <= N.of_nat fuel ->
  exists pages, follow fuel dir' request now' first = Some pages /\
    concat pages = hits resp /\
    Forall (fun p => (length p <= N.to_nat (limit request))%nat) pages.
Proof.
  intros Hcodec Hid Hmax Hpub Hnow Hfuel.
  destruct (publish_Ok _ _ _ _ _ _ _ Hpub) as (swept & records & total & _ & _ & _ & Hsize & -> & Hp).
  destruct (page_Ok _ _ _ _ _ Hp) as (Hlim & _ & _).
  eapply (follow_stored _ id (new_snapshot request resp now) request now') in Hp; [exact Hp|..]; try done.
  - split; [done|]. split; [done|]. eexists. split; [apply find_persist|]. split_and!; [done..|exact Hcodec].
  - simpl. lia.
Qed.

(** A publication that succeeds leaves at most 128 snapshots of at most 64
    MiB in all in the directory. *)
Theorem store_stays_bounded dir request resp now id dir' r :
  valid_id id = true -> publish_at dir request resp now id = (dir', Ok r) ->
  N.of_nat (length (records_of dir')) <= MAX_RECORDS /\ total_of dir' <= MAX_TOTAL_BYTES.
Proof.
  clear from_slice. intros Hid Hpub.
  destruct (publish_Ok _ _ _ _ _ _ _ Hpub) as (swept & records & total & Hs & Hr & Ht & Hsize & -> & _).
  apply sweep_counts in Hs as (kept & -> & -> & Hb). simpl app in *.
  set (e := {| name := id ++ lit ".json"; is_file := true; modified := Some now; content := _ |}).
  assert (is_record e = true) as He.
  { unfold is_record, record_id, e. cbn [name].
    assert (strip_suffix (lit ".json") (id ++ lit ".json") = Some id) as -> by by apply strip_suffix_Some.
    by rewrite Hid. }
  destruct (persist_records e kept He) as [H1 H2].
  change (entry_len e) with (N.of_nat (length (to_vec (new_snapshot request resp now)))) in H2.
  unfold MAX_RECORDS, MAX_TOTAL_BYTES, MAX_RECORD_BYTES, u64_max in *. split; [lia|].
  destruct Hb as [Hb|Hb]; lia.
Qed.
End Pages.

Definition sample_request : SearchApiRequest :=
  {| paginate := true; cursor := None; workspace := lit "/w"; query := lit "q"; path := None; limit := 2;
     mode := Exact; include_content := false |}.

Definition sample_response : @SearchApiResponse N unit unit :=
  {| page_ := None; response_query := lit "q"; response_path := lit "."; total_hits := 5; shown_hits := 5;
     scanned_files := 5; skipped_large := 0; skipped_binary := 0; hits := [1; 2; 3; 4; 5];
     effective_mode := Exact; strategy := tt; fallback_code := None; index_generation := None;
     fallback_reason := None; next_step := None |}.

Definition sample_id : rstr := lit "0123456789abcdef0123456789abcdef".

Definition sample_digest (i : identity) : rstr := let '(_, q, _, _, _, _) := i in q.

Definition sample_decoded : Snapshot := new_snapshot sample_digest sample_request sample_response 1000.

Definition sample_publish :=
  publish_at sample_digest (fun _ => [7]) [] sample_request sample_response 1000 sample_id.

Lemma pages_deliver_the_snapshot_witness :
  exists first pages, sample_publish.2 = Ok first /\
    follow sample_digest (fun _ => Some sample_decoded) 5 sample_publish.1 sample_request 2000 first = Some pages /\
    concat pages = [1; 2; 3; 4; 5].
Proof.
  destruct sample_publish.2 as [first|] eqn:E; [|vm_compute in E; discriminate].
  destruct (pages_deliver_the_snapshot sample_digest (fun _ => [7]) (fun _ => Some sample_decoded) []
    sample_request sample_response 1000 2000 sample_id sample_publish.1 first 5)
    as (pages & H1 & H2 & _); [reflexivity | reflexivity | vm_compute; discriminate | | reflexivity
    | vm_compute; discriminate |].
  { fold sample_publish. rewrite <- E. by destruct sample_publish. }
  by exists first, pages.
Defined.

Lemma store_stays_bounded_witness :
  N.of_nat (length (records_of sample_publish.1)) <= MAX_RECORDS /\ total_of sample_publish.1 <= MAX_TOTAL_BYTES.
Proof.
  destruct sample_publish.2 as [first|] eqn:E; [|vm_compute in E; discriminate].
  apply (store_stays_bounded sample_digest (fun _ => [7]) [] sample_request sample_response 1000 sample_id
    sample_publish.1 first); [reflexivity|].
  fold sample_publish. rewrite <- E. by destruct sample_publish.
Defined.
End SearchPages.
