(* ===== verification/ReadCost.v ===== *)
(** Read costs ([crates/hzr-daemon/src/read_cost.rs]): which lines of a file an
    agent has been shown, what the reads cost, and what is still missing.

    A line range is a pair of [u64] line numbers, both included.  The episodes
    are a finite map from the digest of a file's identity; which of several
    equally old episodes a full map drops is the hash map's affair, the
    parameter [oldest].  The length of the serialized advice depends on its two
    counters only, the parameter [advice_len]. *)

From S2P Require Import Prelude RStr.
From Stdlib Require Import ZifyBool ZifyN.

Module ReadCost.

Definition MAX_EPISODES : N := 1024.
Definition MAX_SPANS : nat := 128.

Definition span := (N * N)%type.

Record Episode := {
  touched : N;
  requests : N;
  produced : N;
  repeated : N;
  spans : list span;
}.

(** ** Sizes *)

(** The bytes of a source character inside a JSON string. *)
Definition json_byte (byte : N) : N :=
  if existsb (N.eqb byte) [34; 92; 10; 13; 9; 8; 12] then 2
  else if byte <=? 31 then 6 else 1.

Definition source_json_bytes (source : rstr) : N :=
  fold_right (fun byte n => json_byte byte + n) 0 (utf8 source).

(** ** Coverage *)

(** The order of [sort_unstable] on pairs. *)
Definition span_le (a b : span) : Prop := a.1 < b.1 \/ a.1 = b.1 /\ a.2 <= b.2.

#[export] Instance span_le_dec a b : Decision (span_le a b).
Proof. unfold span_le. apply _. Defined.

(** One iteration of the merging loop; [merged] is kept last first. *)
Definition merge_step (merged : list span) (s : span) : list span :=
  match merged with
  | last :: rest =>
      if s.1 <=? sat_add u64_max last.2 1
      then (last.1, N.max last.2 s.2) :: rest
      else s :: merged
  | [] => [s]
  end.

Definition merge_spans (sorted : list span) : list span :=
  reverse (fold_left merge_step sorted []).

(** The coverage after a read of the lines [from] to [to]. *)
Definition add_span (covered : list span) (from to : N) : list span :=
  if from <=? to
  then take MAX_SPANS (merge_spans (merge_sort span_le (covered ++ [(from, to)])))
  else covered.

(** [while span_index < len && spans[span_index].1 < number]. *)
Fixpoint skip_spans (covered : list span) (number : N) : list span :=
  match covered with
  | s :: rest => if s.2 <? number then skip_spans rest number else covered
  | [] => []
  end.

(** The loop over the returned lines: the bytes of those already covered.
    [covered] are the spans from [span_index] on. *)
Fixpoint repeated_loop (covered : list span) (from index : N) (lines : list rstr) (bytes : N) : N :=
  match lines with
  | [] => bytes
  | line :: lines =>
      let number := sat_add u64_max from index in
      let covered := skip_spans covered number in
      let bytes :=
        match covered with
        | (a, b) :: _ => if (a <=? number) && (number <=? b) then sat_add u64_max bytes (slen line) else bytes
        | [] => bytes
        end in
      repeated_loop covered from (index + 1) lines bytes
  end.

(** The loop for the first line that is not covered. *)
Fixpoint missing_loop (covered : list span) (missing : N) : N :=
  match covered with
  | (from, to) :: rest =>
      if missing <? from then missing else missing_loop rest (N.max missing (sat_add u64_max to 1))
  | [] => missing
  end.

Definition next_missing_from (covered : list span) (total_lines : N) : option N :=
  let missing := missing_loop covered 1 in
  if missing <=? total_lines then Some missing else None.

Definition next_missing_to (covered : list span) (total_lines missing : N) : N :=
  match List.find (fun s : span => missing <? s.1) covered with
  | Some (from, _) => from - 1
  | None => total_lines
  end.

(** ** The advice *)

Record ReadCostAdvice := {
  method : rstr;
  advice_requests : N;
  produced_tokens_estimated : N;
  repeated_source_tokens_estimated : N;
  full_result_tokens_estimated : N;
  next_action : rstr;
  advice_missing_from : option N;
  advice_missing_to : option N;
}.

Record ReadFileResult := {
  cost_advice : option ReadCostAdvice;
  path : rstr;
  source_sha256 : rstr;
  source_bytes : N;
  total_lines : N;
  from_line : N;
  to_line : N;
  next_line : option N;
  complete : bool;
  content : rstr;
}.

Definition with_costs (a : ReadCostAdvice) (c : N * N) : ReadCostAdvice :=
  {| method := method a; advice_requests := advice_requests a; produced_tokens_estimated := c.1;
     repeated_source_tokens_estimated := repeated_source_tokens_estimated a;
     full_result_tokens_estimated := c.2; next_action := next_action a;
     advice_missing_from := advice_missing_from a; advice_missing_to := advice_missing_to a |}.

Definition with_action (a : ReadCostAdvice) (action : rstr) : ReadCostAdvice :=
  {| method := method a; advice_requests := advice_requests a;
     produced_tokens_estimated := produced_tokens_estimated a;
     repeated_source_tokens_estimated := repeated_source_tokens_estimated a;
     full_result_tokens_estimated := full_result_tokens_estimated a; next_action := action;
     advice_missing_from := advice_missing_from a; advice_missing_to := advice_missing_to a |}.

(** The whole file, as [observe] prices it: the same result without content. *)
Definition full_file (f : ReadFileResult) : ReadFileResult :=
  {| cost_advice := None; path := path f; source_sha256 := source_sha256 f; source_bytes := source_bytes f;
     total_lines := total_lines f; from_line := 1; to_line := total_lines f; next_line := None;
     complete := true; content := [] |}.

Section Observe.
(** The lengths of the serialized advice and result, the digest of an identity
    and the oldest of the episodes. *)
Context {Key : Type} `{Countable Key}.
Context (advice_len : ReadCostAdvice -> N) (file_len : ReadFileResult -> N).
Context (digest : list rstr -> Key) (oldest : gmap Key Episode -> option Key).

(** One iteration of the loop of [advice_costs]: both counters from the length
    of the advice that reports them. *)
Definition costs_step (a : ReadCostAdvice) (selected full envelope prior : N) (c : N * N) : N * N :=
  let overhead := advice_len (with_costs a c) + 15 + envelope in
  (sat_add u64_max prior (div_ceil (sat_add u64_max selected overhead) 4),
   div_ceil (sat_add u64_max full overhead) 4).

Fixpoint costs_loop (fuel : nat) (a : ReadCostAdvice) (selected full envelope prior : N) (c : N * N)
  : option (N * N) :=
  let c' := costs_step a selected full envelope prior c in
  if (c'.1 =? c.1) && (c'.2 =? c.2) then Some c
  else match fuel with
       | O => None
       | S fuel => costs_loop fuel a selected full envelope prior c'
       end.

(** Two counters of at most twenty digits: see [costs_loop_converges]. *)
Definition ADVICE_ROUNDS : nat := 40.

Definition advice_costs (a : ReadCostAdvice) (selected full envelope prior : N) : option ReadCostAdvice :=
  with_costs a <$> costs_loop ADVICE_ROUNDS a selected full envelope prior (0, 0).

Definition evict (episodes : gmap Key Episode) (key : Key) : gmap Key Episode :=
  if bool_decide (episodes !! key = None) && (MAX_EPISODES <=? N.of_nat (size episodes))
  then match oldest episodes with Some k => delete k episodes | None => episodes end
  else episodes.

Definition fresh_episode (now : N) : Episode :=
  {| touched := now; requests := 0; produced := 0; repeated := 0; spans := [] |}.

(** The episode after the read, before its costs are settled. *)
Definition observe_episode (e : Episode) (file : ReadFileResult) (now : N) : Episode :=
  {| touched := now; requests := sat_add u64_max (requests e) 1; produced := produced e;
     repeated := sat_add u64_max (repeated e)
       (div_ceil (repeated_loop (spans e) (from_line file) 0 (split_inclusive (content file)) 0) 4);
     spans := add_span (spans e) (from_line file) (to_line file) |}.

Definition advice_of (e : Episode) (file : ReadFileResult) : ReadCostAdvice :=
  let missing := next_missing_from (spans e) (total_lines file) in
  {| method := lit "produced_utf8_bytes_div_4_advisory_v2"; advice_requests := requests e;
     produced_tokens_estimated := 0; repeated_source_tokens_estimated := repeated e;
     full_result_tokens_estimated := 0;
     next_action := match missing with None => lit "complete" | Some _ => lit "read_remaining" end;
     advice_missing_from := missing;
     advice_missing_to := next_missing_to (spans e) (total_lines file) <$> missing |}.

Definition settle (e : Episode) (file : ReadFileResult) (selected full envelope : N) : option ReadCostAdvice :=
  advice ← advice_costs (advice_of e file) selected full envelope (produced e);
  if bool_decide (advice_missing_from advice <> None)
     && ((requests e <=? 1) || (produced_tokens_estimated advice <? full_result_tokens_estimated advice))
  then advice_costs (with_action advice (lit "continue_if_needed")) selected full envelope (produced e)
  else Some advice.

Definition set_produced (e : Episode) (p : N) : Episode :=
  {| touched := touched e; requests := requests e; produced := p; repeated := repeated e; spans := spans e |}.

(** [ReadCosts::observe]; [None] would be the loop of [advice_costs] running on. *)
Definition observe (episodes : gmap Key Episode) (who : list rstr) (file : ReadFileResult)
    (full_source_json_bytes envelope_bytes now : N) : option (gmap Key Episode * ReadCostAdvice) :=
  let full_bytes := sat_add u64_max (file_len (full_file file)) full_source_json_bytes in
  let key := digest (who ++ [source_sha256 file]) in
  let episodes := evict episodes key in
  let e := observe_episode (default (fresh_episode now) (episodes !! key)) file now in
  advice ← settle e file (file_len file) full_bytes envelope_bytes;
  Some (<[key := set_produced e (produced_tokens_estimated advice)]> episodes, advice).
End Observe.

(** ** Coverage is what was read *)

Definition covers (l : list span) (n : N) : Prop := exists s, s ∈ l /\ s.1 <= n <= s.2.

(** Spans in order, none empty, none touching the next. *)
Fixpoint gapped (lo : N) (l : list span) : Prop :=
  match l with
  | [] => True
  | s :: l => lo <= s.1 /\ s.1 <= s.2 /\ s.2 <= u64_max /\ gapped (s.2 + 2) l
  end.

Lemma covers_nil n : ~ covers [] n.
Proof. intros (s & Hs & _). by apply elem_of_nil in Hs. Qed.

Lemma covers_cons s l n : covers (s :: l) n <-> s.1 <= n <= s.2 \/ covers l n.
Proof.
  split.
  - intros (x & [->|Hx]%elem_of_cons & Hn); [by left|]. right. by exists x.
  - intros [Hn|(x & Hx & Hn)]; [exists s | exists x]; (split; [by constructor|done]).
Qed.

Lemma covers_app l l' n : covers (l ++ l') n <-> covers l n \/ covers l' n.
Proof.
  induction l as [|s l IH]; simpl.
  - split; [by right | by intros [[]%covers_nil|]].
  - rewrite !covers_cons, IH. tauto.
Qed.

Lemma covers_perm l l' n : l ≡ₚ l' -> covers l n <-> covers l' n.
Proof. intros Hp. unfold covers. by setoid_rewrite Hp. Qed.

Lemma gapped_weaken lo lo' l : lo <= lo' -> gapped lo' l -> gapped lo l.
Proof. destruct l; simpl; [done|]. intros ? (? & ?). split; [lia|done]. Qed.

Lemma gapped_lower lo l n : gapped lo l -> covers l n -> lo <= n.
Proof.
  revert lo. induction l as [|s l IH]; intros lo; simpl; [by intros _ ?%covers_nil|].
  intros (H1 & H2 & _ & H3). rewrite covers_cons. intros [Hn|Hn]; [lia|]. specialize (IH _ H3 Hn). lia.
Qed.

Lemma gapped_take lo k l : gapped lo l -> gapped lo (take k l).
Proof.
  revert lo k. induction l as [|s l IH]; intros lo [|k]; simpl; try done.
  intros (? & ? & ? & ?). split_and!; auto.
Qed.

(** [gapped], last span first, ending before [hi]. *)
Fixpoint rgapped (hi : N) (l : list span) : Prop :=
  match l with
  | [] => True
  | s :: l => s.1 <= s.2 /\ s.2 <= u64_max /\ s.2 + 2 <= hi /\ rgapped s.1 l
  end.

Lemma rgapped_reverse hi acc l : rgapped hi acc -> gapped hi l -> gapped 0 (reverse acc ++ l).
Proof.
  revert hi l. induction acc as [|s acc IH]; intros hi l; simpl.
  - intros _. apply gapped_weaken. lia.
  - intros (H1 & H2 & H3 & H4) Hl. rewrite reverse_cons, <- app_assoc. apply (IH s.1); [done|].
    simpl. split_and!; [lia | done | done |]. by eapply gapped_weaken.
Qed.

Definition proper (s : span) : Prop := s.1 <= s.2 /\ s.2 <= u64_max.

(** The merging loop: ranges in order of their starts. *)
Lemma merge_fold sorted : forall acc,
  Forall proper sorted -> StronglySorted span_le sorted ->
  rgapped (u64_max + 2) acc ->
  (forall s a, s ∈ sorted -> head acc = Some a -> a.1 <= s.1) ->
  rgapped (u64_max + 2) (fold_left merge_step sorted acc) /\
  (forall n, covers (fold_left merge_step sorted acc) n <-> covers acc n \/ covers sorted n).
Proof.
  induction sorted as [|s sorted IH]; intros acc Hp Hs Hacc Hlo; simpl.
  { split; [done|]. intros n. split; [by left | by intros [|?%covers_nil]]. }
  apply Forall_cons in Hp as [[Hs1 Hs2] Hp]. apply StronglySorted_inv in Hs as [Hs Hall].
  rewrite Forall_forall in Hall.
  assert (forall x, x ∈ sorted -> s.1 <= x.1) as Hstart.
  { intros x Hx. specialize (Hall x Hx). unfold span_le in Hall. lia. }
  assert (rgapped (u64_max + 2) (merge_step acc s) /\
    (forall n, covers (merge_step acc s) n <-> covers acc n \/ s.1 <= n <= s.2) /\
    (forall a, head (merge_step acc s) = Some a -> a.1 <= s.1)) as (H1 & H2 & H3).
  { unfold merge_step. destruct acc as [|a acc].
    - simpl. split_and!; try lia. { intros n. rewrite covers_cons. tauto. } intros a [= <-]. lia.
    - simpl in Hacc. destruct Hacc as (Ha1 & Ha2 & Ha3 & Ha4).
      specialize (Hlo s a ltac:(by constructor) eq_refl). unfold sat_add.
      destruct (N.leb_spec s.1 (N.min (a.2 + 1) u64_max)) as [Hm|Hm]; simpl.
      + split_and!; try lia; [done| |by intros ? [= <-]].
        intros n. rewrite !covers_cons. simpl. split.
        * intros [Hn|Hn]; [|by left; right]. destruct (N.le_gt_cases n a.2); [left; left | right]; lia.
        * intros [[Hn|Hn]|Hn]; [left | by right | left]; lia.
      + split_and!; try lia; [| |intros ? [= <-]; lia].
        * done.
        * intros n. rewrite !covers_cons. tauto. }
  destruct (IH (merge_step acc s) Hp Hs H1) as [IH1 IH2].
  { intros x a Hx Ha. specialize (H3 a Ha). specialize (Hstart x Hx). lia. }
  split; [done|]. intros n. rewrite IH2, H2, covers_cons. tauto.
Qed.

#[export] Instance span_le_total : Total span_le.
Proof. intros a b. unfold span_le. lia. Qed.

#[export] Instance span_le_trans : Transitive span_le.
Proof. intros a b c. unfold span_le. lia. Qed.

Lemma gapped_proper lo l : gapped lo l -> Forall proper l.
Proof.
  revert lo. induction l as [|s l IH]; intros lo; simpl; [constructor|].
  intros (_ & ? & ? & ?). constructor; [done|]. eauto.
Qed.

Lemma merge_step_length acc s : (length (merge_step acc s) <= S (length acc))%nat.
Proof. unfold merge_step. destruct acc as [|a acc]; [done|]. case_match; simpl; lia. Qed.

Lemma merge_fold_length sorted acc :
  (length (fold_left merge_step sorted acc) <= length sorted + length acc)%nat.
Proof.
  revert acc. induction sorted as [|s sorted IH]; intros acc; simpl; [lia|].
  specialize (IH (merge_step acc s)). pose proof (merge_step_length acc s). lia.
Qed.

(** A read adds its lines to the coverage, and nothing else; at most 128 ranges
    are kept, the first ones. *)
Lemma add_span_spec l from to :
  gapped 0 l -> to <= u64_max ->
  gapped 0 (add_span l from to) /\
  (forall n, covers (add_span l from to) n -> covers l n \/ from <= n <= to) /\
  ((length l < MAX_SPANS)%nat -> forall n, covers l n \/ from <= n <= to -> covers (add_span l from to) n).
Proof.
  intros Hl Hto. unfold add_span. destruct (N.leb_spec from to) as [Hft|Hft]; cycle 1.
  { split; [done|]. split; [by left|]. intros _ n [Hn|Hn]; [done|lia]. }
  set (sorted := merge_sort span_le (l ++ [(from, to)])).
  assert (sorted ≡ₚ l ++ [(from, to)]) as Hperm by apply merge_sort_Permutation.
  assert (Forall proper sorted) as Hp.
  { rewrite Hperm. apply Forall_app. split; [by eapply gapped_proper|]. repeat constructor; done. }
  assert (StronglySorted span_le sorted) as Hs by apply (StronglySorted_merge_sort span_le).
  destruct (merge_fold sorted [] Hp Hs I) as [Hg Hc]; [by intros|].
  assert (gapped 0 (merge_spans sorted)) as Hm.
  { unfold merge_spans. rewrite <- (app_nil_r (reverse _)). by eapply rgapped_reverse. }
  assert (forall n, covers (merge_spans sorted) n <-> covers l n \/ from <= n <= to) as Hcov.
  { intros n. unfold merge_spans. rewrite (covers_perm _ _ n (reverse_Permutation _)), Hc.
    rewrite (covers_perm _ _ n Hperm), covers_app, covers_cons. simpl.
    pose proof (covers_nil n). tauto. }
  split; [by apply gapped_take|]. split.
  - intros n (s & Hs' & Hn). apply Hcov. exists s. split; [|done].
    rewrite <- (take_drop MAX_SPANS). apply elem_of_app. by left.
  - intros Hlen n Hn. rewrite take_ge; [by apply Hcov|]. unfold merge_spans. rewrite length_reverse.
    etransitivity; [apply merge_fold_length|]. rewrite Hperm, length_app. simpl. lia.
Qed.

(** The first line that is not covered, from [m] on. *)
Lemma missing_loop_spec l : forall lo m,
  gapped lo l -> m < u64_max ->
  let r := missing_loop l m in
  m <= r /\ (forall n, m <= n < r -> covers l n) /\ (r < u64_max -> ~ covers l r) /\ r <= u64_max.
Proof.
  induction l as [|s l IH]; intros lo m; simpl.
  { intros _ Hm. split_and!; [lia | lia | intros _; apply covers_nil | lia]. }
  destruct s as [a b]. simpl. intros (H1 & H2 & H3 & H4) Hm.
  destruct (N.ltb_spec m a) as [Hma|Hma].
  { split_and!; [lia | lia | | lia]. intros _. rewrite covers_cons. simpl.
    intros [Hn|Hn]; [lia|]. apply (gapped_lower _ _ _ H4) in Hn. lia. }
  remember (N.max m (sat_add u64_max b 1)) as m' eqn:Em'.
  destruct (N.lt_ge_cases m' u64_max) as [Hm'|Hm'].
  - destruct (IH _ m' H4 Hm') as (I1 & I2 & I3 & I4). unfold sat_add in *. split_and!; [lia | | |done].
    + intros n Hn. rewrite covers_cons. simpl. destruct (N.le_gt_cases n b); [left; lia|].
      right. apply I2. lia.
    + intros Hr. rewrite covers_cons. simpl. intros [Hn|Hn]; [lia|]. by apply (I3 Hr).
  - assert (m' = u64_max) as -> by (unfold sat_add in *; lia).
    assert (b = u64_max \/ b = u64_max - 1) as Hb by (unfold sat_add in *; lia).
    assert (l = []) as ->.
    { destruct l as [|x l]; [done|]. simpl in H4. unfold u64_max in *. lia. }
    simpl. split_and!; [lia | | lia | done]. intros n Hn. rewrite covers_cons. simpl. left.
    unfold u64_max in *. lia.
Qed.

Lemma missing_find l lo m :
  gapped lo l -> ~ covers l m ->
  (forall n, m <= n -> (match List.find (fun s : span => m <? s.1) l with Some s => n < s.1 | None => True end) ->
    ~ covers l n) /\
  (forall s, List.find (fun s : span => m <? s.1) l = Some s -> m < s.1 /\ covers l s.1).
Proof.
  revert lo. induction l as [|s l IH]; intros lo; simpl.
  { intros _ _. split; [intros n _ _; apply covers_nil | done]. }
  intros (H1 & H2 & H3 & H4) Hm. rewrite covers_cons in Hm.
  destruct (N.ltb_spec m s.1) as [Hs|Hs].
  - split.
    + intros n Hn Hlt. rewrite covers_cons. intros [Hc|Hc]; [lia|].
      apply (gapped_lower _ _ _ H4) in Hc. lia.
    + intros s' [= <-]. split; [done|]. rewrite covers_cons. left. lia.
  - destruct (IH _ H4) as [I1 I2]; [tauto|]. split.
    + intros n Hn Hlt. rewrite covers_cons. intros [Hc|Hc]; [|by apply (I1 n)]. apply Hm. left. lia.
    + intros s' Hs'. destruct (I2 _ Hs'). split; [done|]. rewrite covers_cons. by right.
Qed.

(** ** Repeated lines *)

(** The bytes of the lines, numbered from [n] on, that are covered. *)
Fixpoint covered_bytes (l : list span) (n : N) (lines : list rstr) : N :=
  match lines with
  | [] => 0
  | line :: lines =>
      (if existsb (fun s : span => (s.1 <=? n) && (n <=? s.2)) l then slen line else 0)
      + covered_bytes l (n + 1) lines
  end.

Lemma existsb_covers l n :
  existsb (fun s : span => (s.1 <=? n) && (n <=? s.2)) l = true <-> covers l n.
Proof.
  rewrite existsb_exists. unfold covers. split; intros (s & Hs & Hn); exists s.
  - bool_prop. split; [by apply list_elem_of_In | done].
  - split; [by apply list_elem_of_In|]. apply andb_true_iff. split; apply N.leb_le; lia.
Qed.

Lemma skip_spans_covers l lo number :
  gapped lo l ->
  exists lo', gapped lo' (skip_spans l number) /\
    (forall n, number <= n -> covers (skip_spans l number) n <-> covers l n) /\
    (covers l number <-> match skip_spans l number with s :: _ => s.1 <= number <= s.2 | [] => False end).
Proof.
  revert lo. induction l as [|s l IH]; intros lo; simpl.
  { intros _. exists 0. split_and!; [done|done|]. split; [by intros ?%covers_nil|done]. }
  intros (H1 & H2 & H3 & H4). destruct (N.ltb_spec s.2 number) as [Hs|Hs].
  - destruct (IH _ H4) as (lo' & I1 & I2 & I3). exists lo'. split_and!; [done| |].
    + intros n Hn. rewrite I2 by done. rewrite covers_cons. split; [by right|]. intros [?|?]; [lia|done].
    + rewrite covers_cons, <- I3. split; [|by right]. intros [?|?]; [lia|done].
  - exists lo. split_and!; [done..|]. rewrite covers_cons. split; [|by left]. intros [?|Hc]; [done|].
    apply (gapped_lower _ _ _ H4) in Hc. lia.
Qed.

Lemma covered_bytes_ext l l' n lines :
  (forall k, n <= k -> covers l k <-> covers l' k) -> covered_bytes l n lines = covered_bytes l' n lines.
Proof.
  revert n. induction lines as [|line lines IH]; intros n Hc; simpl; [done|].
  rewrite (IH (n + 1)); [|intros k Hk; apply Hc; lia]. f_equal.
  specialize (Hc n ltac:(lia)). rewrite <- !existsb_covers in Hc.
  destruct (existsb _ l), (existsb _ l'); naive_solver.
Qed.

Lemma repeated_loop_spec lines : forall l lo from index bytes,
  gapped lo l -> from + index + N.of_nat (length lines) <= u64_max ->
  bytes + covered_bytes l (from + index) lines <= u64_max ->
  repeated_loop l from index lines bytes = bytes + covered_bytes l (from + index) lines.
Proof.
  induction lines as [|line lines IH]; intros l lo from index bytes Hl Hn Hb; simpl; [lia|].
  rewrite sat_add_exact by (simpl in Hn; lia).
  destruct (skip_spans_covers l lo (from + index) Hl) as (lo' & I1 & I2 & I3).
  simpl in Hb. replace (from + index + 1) with (from + (index + 1)) in * by lia.
  rewrite <- (covered_bytes_ext (skip_spans l (from + index)) l) in * by (intros k Hk; apply I2; lia).
  rewrite <- existsb_covers in I3.
  destruct (existsb _ l) eqn:E; destruct (skip_spans l (from + index)) as [|[a b] rest];
    simpl in I3, I1.
  - naive_solver.
  - destruct ((a <=? from + index) && (from + index <=? b)) eqn:E2.
    + rewrite sat_add_exact by lia. rewrite (IH _ lo'); simpl in *; try lia. done.
    + exfalso. assert (a <= from + index <= b) by naive_solver. lia.
  - rewrite (IH _ lo'); simpl in *; try lia; done.
  - destruct ((a <=? from + index) && (from + index <=? b)) eqn:E2.
    + exfalso. assert (false = true); [|done]. apply I3. lia.
    + rewrite (IH _ lo'); simpl in *; try lia; done.
Qed.

(** ** The loop of [advice_costs] *)

Definition digits (c : N * N) : N := slen (dec c.1) + slen (dec c.2).

Lemma digits_mono c c' : c.1 <= c'.1 -> c.2 <= c'.2 -> digits c <= digits c'.
Proof.
  intros H1 H2. apply dec_blen_mono in H1, H2. unfold digits, slen. lia.
Qed.

Lemma digits_bound c : c.1 <= u64_max -> c.2 <= u64_max -> digits c <= 40.
Proof.
  intros H1 H2. apply dec_blen in H1, H2. unfold digits, slen. lia.
Qed.

Lemma div_ceil_mono a b k : k <> 0 -> a <= b -> div_ceil a k <= div_ceil b k.
Proof.
  intros Hk Hab. pose proof (div_ceil_spec a k Hk). pose proof (div_ceil_spec b k Hk). nia.
Qed.

Lemma div_ceil_le a k : k <> 0 -> div_ceil a k <= a.
Proof. intros Hk. pose proof (div_ceil_spec a k Hk). nia. Qed.

Section Settled.
Context {Key : Type} `{Countable Key}.
Context (advice_len : ReadCostAdvice -> N) (file_len : ReadFileResult -> N).
Context (digest : list rstr -> Key) (oldest : gmap Key Episode -> option Key).

(** Serialized, each counter takes its decimal digits, and nothing else of the
    advice depends on them. *)
Definition counters_in_decimal : Prop :=
  forall a c, advice_len (with_costs a c) + 2 = advice_len (with_costs a (0, 0)) + digits c.

(** An unforced choice among the episodes of a map that is not empty. *)
Definition oldest_is_one : Prop :=
  forall m : gmap Key Episode, m <> ∅ -> exists k, oldest m = Some k /\ is_Some (m !! k).

Context (Hdec : counters_in_decimal).

Lemma costs_step_bound a selected full envelope prior c :
  (costs_step advice_len a selected full envelope prior c).1 <= u64_max /\
  (costs_step advice_len a selected full envelope prior c).2 <= u64_max.
Proof.
  unfold costs_step. simpl. split; [apply sat_add_le|].
  etransitivity; [apply div_ceil_le; lia | apply sat_add_le].
Qed.

Lemma costs_step_mono a selected full envelope prior c c' :
  digits c <= digits c' ->
  (costs_step advice_len a selected full envelope prior c).1 <= (costs_step advice_len a selected full envelope prior c').1 /\
  (costs_step advice_len a selected full envelope prior c).2 <= (costs_step advice_len a selected full envelope prior c').2.
Proof.
  intros Hd. pose proof (Hdec a c) as H1. pose proof (Hdec a c') as H2. unfold costs_step. simpl.
  split; unfold sat_add.
  - assert (forall x y, x <= y -> N.min (prior + x) u64_max <= N.min (prior + y) u64_max) as Hm by lia.
    apply Hm, div_ceil_mono; lia.
  - apply div_ceil_mono; lia.
Qed.

Lemma costs_step_digits a selected full envelope prior c c' :
  digits c = digits c' ->
  costs_step advice_len a selected full envelope prior c = costs_step advice_len a selected full envelope prior c'.
Proof.
  intros Hd. pose proof (Hdec a c) as H1. pose proof (Hdec a c') as H2. unfold costs_step.
  assert (advice_len (with_costs a c) = advice_len (with_costs a c')) as -> by lia. done.
Qed.

(** Counters that only grow settle before their digits run out. *)
Lemma costs_loop_converges a selected full envelope prior : forall fuel c,
  let step := costs_step advice_len a selected full envelope prior in
  c.1 <= u64_max -> c.2 <= u64_max -> c.1 <= (step c).1 -> c.2 <= (step c).2 ->
  41 <= digits c + N.of_nat fuel ->
  exists c', costs_loop advice_len fuel a selected full envelope prior c = Some c' /\ c' = step c'.
Proof.
  induction fuel as [|fuel IH]; intros c step Hc1 Hc2 Hs1 Hs2 Hf.
  { pose proof (digits_bound c Hc1 Hc2). lia. }
  destruct (costs_step_bound a selected full envelope prior c) as [Hb1 Hb2].
  cbn [costs_loop]. fold step in Hb1, Hb2 |- *.
  destruct (((step c).1 =? c.1) && ((step c).2 =? c.2)) eqn:E.
  { exists c. split; [done|]. destruct c, (step _) eqn:Es; simpl in *. f_equal; lia. }
  pose proof (digits_mono _ _ Hs1 Hs2) as Hd.
  destruct (N.eq_dec (digits c) (digits (step c))) as [He|He].
  - pose proof (costs_step_digits a selected full envelope prior _ _ He) as Hfix. fold step in Hfix.
    exists (step c). split; [|done].
    destruct fuel; cbn [costs_loop]; fold step; by rewrite <- Hfix, !N.eqb_refl.
  - destruct (costs_step_mono a selected full envelope prior _ _ Hd) as [Hm1 Hm2].
    apply IH; try done. lia.
Qed.

Lemma advice_costs_settled a selected full envelope prior :
  exists c, advice_costs advice_len a selected full envelope prior = Some (with_costs a c) /\
    c = costs_step advice_len a selected full envelope prior c.
Proof.
  destruct (costs_loop_converges a selected full envelope prior ADVICE_ROUNDS (0, 0)) as (c & Hc & Hs);
    [simpl; lia.. | | ].
  { unfold ADVICE_ROUNDS, digits. pose proof (dec_blen_pos 0). simpl fst. simpl snd. unfold slen. lia. }
  exists c. unfold advice_costs. by rewrite Hc.
Qed.
(** What an advice owes to the read it reports: its base, and costs that are
    those of the response that carries it. *)
Definition priced (e : Episode) (selected full envelope : N) (advice : ReadCostAdvice) : Prop :=
  let overhead := advice_len advice + 15 + envelope in
  produced_tokens_estimated advice = sat_add u64_max (produced e) (div_ceil (sat_add u64_max selected overhead) 4) /\
  full_result_tokens_estimated advice = div_ceil (sat_add u64_max full overhead) 4.

Lemma advice_costs_priced a e selected full envelope :
  exists advice, advice_costs advice_len a selected full envelope (produced e) = Some advice /\
    priced e selected full envelope advice /\
    advice_missing_from advice = advice_missing_from a /\ advice_missing_to advice = advice_missing_to a /\
    advice_requests advice = advice_requests a /\
    repeated_source_tokens_estimated advice = repeated_source_tokens_estimated a /\
    next_action advice = next_action a.
Proof.
  destruct (advice_costs_settled a selected full envelope (produced e)) as (c & Hc & Hs).
  exists (with_costs a c). split; [done|]. split; [|done].
  exact (conj (f_equal fst Hs) (f_equal snd Hs)).
Qed.

Lemma settle_priced e file selected full envelope :
  exists advice, settle advice_len e file selected full envelope = Some advice /\
    priced e selected full envelope advice /\
    advice_missing_from advice = next_missing_from (spans e) (total_lines file) /\
    advice_missing_to advice
      = next_missing_to (spans e) (total_lines file) <$> next_missing_from (spans e) (total_lines file) /\
    advice_requests advice = requests e /\ repeated_source_tokens_estimated advice = repeated e /\
    (next_missing_from (spans e) (total_lines file) = None -> next_action advice = lit "complete") /\
    (next_missing_from (spans e) (total_lines file) <> None ->
      next_action advice = lit "continue_if_needed" \/
      next_action advice = lit "read_remaining" /\ 1 < requests e /\
        full_result_tokens_estimated advice <= produced_tokens_estimated advice).
Proof.
  destruct (advice_costs_priced (advice_of e file) e selected full envelope)
    as (a1 & H1 & Hp1 & Hf1 & Ht1 & Hr1 & Hs1 & Ha1).
  destruct (advice_costs_priced (with_action a1 (lit "continue_if_needed")) e selected full envelope)
    as (a2 & H2 & Hp2 & Hf2 & Ht2 & Hr2 & Hs2 & Ha2).
  unfold settle. rewrite H1. cbn [mbind option_bind]. rewrite Hf1.
  cbn [with_action advice_missing_from advice_missing_to advice_requests
       repeated_source_tokens_estimated next_action] in *.
  destruct (_ && _) eqn:E; [exists a2 | exists a1].
  - rewrite H2. split_and!; [done | done | by rewrite Hf2, Hf1 | by rewrite Ht2, Ht1 | by rewrite Hr2, Hr1
      | by rewrite Hs2, Hs1 | | by left].
    intros HN. apply andb_true_iff in E as [E _]. apply bool_decide_eq_true in E.
    exfalso. exact (E HN).
  - split_and!; [done..| |].
    + intros HN. rewrite Ha1. simpl. by rewrite HN.
    + intros HN. right. rewrite Ha1. simpl. destruct (next_missing_from _ _) eqn:En; [|done].
      split; [done|]. apply andb_false_iff in E as [E|E].
      * apply bool_decide_eq_false in E. exfalso. apply E. simpl. by rewrite En.
      * apply orb_false_iff in E as [E1 E2]. apply N.leb_gt in E1. apply N.ltb_ge in E2. done.
Qed.
End Settled.

(** ** The episodes *)

Lemma slen_cons c s : slen (c :: s) = slen [c] + slen s.
Proof. unfold slen. simpl. lia. Qed.

(** The lines of a text are all of it. *)
Lemma covered_bytes_le l n lines : covered_bytes l n lines <= N.of_nat (sum_list_with blen lines).
Proof.
  revert n. induction lines as [|line lines IH]; intros n; simpl; [lia|].
  specialize (IH (n + 1)). unfold slen. case_match; lia.
Qed.

Section Episodes.
Context {Key : Type} `{Countable Key}.
Context (oldest : gmap Key Episode -> option Key).

Lemma evict_same episodes key : evict oldest episodes key !! key = episodes !! key.
Proof.
  unfold evict. destruct (_ && _) eqn:E; [|done]. apply andb_true_iff in E as [E _].
  apply bool_decide_eq_true in E. rewrite E. destruct (oldest episodes) as [k|]; [|done].
  destruct (decide (k = key)) as [->|Hk]; [apply lookup_delete_eq | by rewrite lookup_delete_ne].
Qed.

Lemma evict_subseteq episodes key : evict oldest episodes key ⊆ episodes.
Proof.
  unfold evict. destruct (_ && _); [|done]. destruct (oldest episodes); [apply delete_subseteq | done].
Qed.

(** Room for one more. *)
Lemma evict_size (Hold : oldest_is_one oldest) episodes key e :
  N.of_nat (size episodes) <= MAX_EPISODES ->
  N.of_nat (size (<[key := e]> (evict oldest episodes key))) <= MAX_EPISODES.
Proof.
  intros Hs. pose proof (evict_same episodes key) as Hsame.
  destruct (episodes !! key) as [e'|] eqn:Ek.
  - rewrite map_size_insert_Some by (by rewrite Hsame). unfold evict. by rewrite Ek.
  - rewrite map_size_insert_None by done. unfold evict in *. rewrite Ek in *.
    rewrite bool_decide_eq_true_2 in * by done. cbn [andb] in *.
    destruct (N.leb_spec MAX_EPISODES (N.of_nat (size episodes))) as [Hfull|Hfree]; [|cbn; lia].
    destruct (Hold episodes) as (k & Hk & [x Hx]).
    { intros ->. by rewrite map_size_empty in Hfull. }
    rewrite Hk, map_size_delete_Some by (by exists x).
    destruct (size episodes); [done | simpl; lia].
Qed.
End Episodes.

(** What an episode reports as the next range to read. *)
Definition reports_the_gap (l : list span) (total : N) (from to : option N) : Prop :=
  match from, to with
  | Some x, Some y =>
      1 <= x <= total /\ x <= y /\ (forall n, 1 <= n < x -> covers l n) /\
      (forall n, x <= n <= y -> ~ covers l n) /\ (y = total \/ covers l (y + 1))
  | None, None => forall n, 1 <= n <= total -> covers l n
  | _, _ => False
  end.

Lemma missing_reports_the_gap l total :
  gapped 0 l -> total < u64_max ->
  reports_the_gap l total (next_missing_from l total) (next_missing_to l total <$> next_missing_from l total).
Proof.
  intros Hl Ht. destruct (missing_loop_spec l 0 1 Hl ltac:(done)) as (M1 & M2 & M3 & M4).
  unfold next_missing_from. set (m := missing_loop l 1) in *.
  destruct (N.leb_spec m total) as [Hm|Hm]; cbn; [|intros n Hn; apply M2; lia].
  destruct (missing_find l 0 m Hl) as [F1 F2]; [apply M3; unfold u64_max in *; lia|]. unfold next_missing_to.
  destruct (List.find _ l) as [ [a b]|] eqn:E.
  - destruct (F2 _ eq_refl) as [Ha Hc]. simpl in *. split_and!; [lia | lia | lia | done | |].
    + intros n Hn. apply F1; lia.
    + right. by replace (a - 1 + 1) with a by lia.
  - split_and!; [lia | lia | lia | done | | by left]. intros n Hn. apply F1; [lia|done].
Qed.

(** ** Properties *)

(** The read of [file] is within the types' bounds. *)
Definition file_fits (file : ReadFileResult) : Prop :=
  total_lines file < u64_max /\ to_line file <= u64_max /\ slen (content file) <= u64_max /\
  from_line file + N.of_nat (length (split_inclusive (content file))) <= u64_max.

(** A successful read is accounted for, whatever was read before: the call
    returns, the episode's ranges stay sorted and apart and cover exactly what
    they covered and the lines just read, the bytes counted as repeated are
    those of returned lines that were covered already, and the advice names the
    first range of the file not yet read, or none when the file is read. *)
Theorem observe_accounts_for_the_read {Key : Type} `{Countable Key} advice_len file_len
    (digest : list rstr -> Key) oldest episodes who file full_bytes envelope now :
  counters_in_decimal advice_len -> file_fits file ->
  let key := digest (who ++ [source_sha256 file]) in
  let before := default (fresh_episode now) (episodes !! key) in
  gapped 0 (spans before) -> (length (spans before) < MAX_SPANS)%nat ->
  exists episodes' advice e,
    observe advice_len file_len digest oldest episodes who file full_bytes envelope now = Some (episodes', advice) /\
    episodes' !! key = Some e /\
    (forall k x, k <> key -> episodes' !! k = Some x -> episodes !! k = Some x) /\
    gapped 0 (spans e) /\
    (forall n, covers (spans e) n <-> covers (spans before) n \/ from_line file <= n <= to_line file) /\
    requests e = sat_add u64_max (requests before) 1 /\
    repeated e = sat_add u64_max (repeated before)
      (div_ceil (covered_bytes (spans before) (from_line file) (split_inclusive (content file))) 4) /\
    advice_requests advice = requests e /\ repeated_source_tokens_estimated advice = repeated e /\
    produced_tokens_estimated advice = produced e /\
    reports_the_gap (spans e) (total_lines file) (advice_missing_from advice) (advice_missing_to advice).
Proof.
  intros Hdec (Ht & Hto & Hc & Hn) key before Hg Hlen.
  destruct (add_span_spec (spans before) (from_line file) (to_line file) Hg Hto) as (A1 & A2 & A3).
  set (e := observe_episode before file now).
  destruct (settle_priced advice_len Hdec e file (file_len file)
    (sat_add u64_max (file_len (full_file file)) full_bytes) envelope)
    as (advice & Hs & _ & Hf & Hx & Hr & Hrep & _).
  eexists _, advice, (set_produced e (produced_tokens_estimated advice)). split_and!.
  - unfold observe. fold key. rewrite evict_same. fold before e. by rewrite Hs.
  - apply lookup_insert_eq.
  - intros k x Hk. rewrite lookup_insert_ne by done. intros Hx'.
    eapply lookup_weaken; [exact Hx' | apply evict_subseteq].
  - done.
  - intros n. simpl. split; [apply A2 | by apply A3].
  - done.
  - simpl. do 2 f_equal. rewrite (repeated_loop_spec _ _ 0); [by rewrite N.add_0_l, N.add_0_r | done | lia |].
    pose proof (covered_bytes_le (spans before) (from_line file + 0) (split_inclusive (content file))) as Hb.
    rewrite split_inclusive_bytes in Hb. unfold slen in Hc. lia.
  - done.
  - done.
  - done.
  - rewrite Hf, Hx. by apply missing_reports_the_gap.
Qed.

(** The advice prices the very response that carries it: the loop that sets
    its two counters, whose digits count towards what they report, stops with
    the cost of this response added to the earlier ones and the cost the whole
    file would have had; the agent is told to read on only when something is
    missing, and to prefer the whole rest only once the pieces cost no less. *)
Theorem advice_prices_its_own_response {Key : Type} `{Countable Key} advice_len file_len
    (digest : list rstr -> Key) oldest episodes who file full_bytes envelope now :
  counters_in_decimal advice_len ->
  let key := digest (who ++ [source_sha256 file]) in
  let before := default (fresh_episode now) (episodes !! key) in
  exists episodes' advice,
    observe advice_len file_len digest oldest episodes who file full_bytes envelope now = Some (episodes', advice) /\
    priced advice_len before (file_len file) (sat_add u64_max (file_len (full_file file)) full_bytes)
      envelope advice /\
    (advice_missing_from advice = None -> next_action advice = lit "complete") /\
    (advice_missing_from advice <> None ->
      next_action advice = lit "continue_if_needed" \/
      next_action advice = lit "read_remaining" /\ 1 < advice_requests advice /\
        full_result_tokens_estimated advice <= produced_tokens_estimated advice).
Proof.
  intros Hdec key before. set (e := observe_episode before file now).
  destruct (settle_priced advice_len Hdec e file (file_len file)
    (sat_add u64_max (file_len (full_file file)) full_bytes) envelope)
    as (advice & Hs & Hp & Hf & _ & Hr & _ & Hnone & Hsome).
  eexists _, advice. split_and!; [|exact Hp| |].
  - unfold observe. fold key. rewrite evict_same. fold before e. by rewrite Hs.
  - by rewrite Hf.
  - by rewrite Hf, Hr.
Qed.

(** However many files are read, at most 1024 episodes of at most 128
    sorted, separate ranges are kept: [observe] preserves both bounds. *)
Theorem read_costs_stay_bounded {Key : Type} `{Countable Key} advice_len file_len
    (digest : list rstr -> Key) oldest episodes who file full_bytes envelope now episodes' advice :
  oldest_is_one oldest -> to_line file <= u64_max ->
  let ok e := gapped 0 (spans e) /\ (length (spans e) <= MAX_SPANS)%nat in
  N.of_nat (size episodes) <= MAX_EPISODES -> map_Forall (fun _ => ok) episodes ->
  observe advice_len file_len digest oldest episodes who file full_bytes envelope now = Some (episodes', advice) ->
  N.of_nat (size episodes') <= MAX_EPISODES /\ map_Forall (fun _ => ok) episodes'.
Proof.
  intros Hold Hto ok Hsize Hok. unfold observe. rewrite evict_same. cbn [mbind option_bind].
  set (key := digest _). set (before := default (fresh_episode now) (episodes !! key)).
  destruct (settle _ _ _ _ _ _) as [a|]; [|done]. intros [= <- _].
  split; [by apply evict_size|]. apply map_Forall_insert_2; cycle 1.
  { intros k x Hx. apply (Hok k). eapply lookup_weaken; [exact Hx | apply evict_subseteq]. }
  assert (ok before) as [Hg Hl].
  { unfold before. destruct (episodes !! key) as [e|] eqn:E; [by apply (Hok key)|]. split; [done|]. simpl. unfold MAX_SPANS. lia. }
  split; simpl; [by apply add_span_spec|]. unfold add_span. destruct (_ <=? _); [|done].
  rewrite length_take. lia.
Qed.

(** A file of three lines, of which the last was read before the first two. *)
Definition sample_file (from to : N) (text : rstr) : ReadFileResult :=
  {| cost_advice := None; path := lit "source.rs"; source_sha256 := lit "a"; source_bytes := 12;
     total_lines := 3; from_line := from; to_line := to; next_line := None; complete := false; content := text |}.

Definition sample_advice_len (a : ReadCostAdvice) : N :=
  200 + digits (produced_tokens_estimated a, full_result_tokens_estimated a).

Lemma sample_in_decimal : counters_in_decimal sample_advice_len.
Proof.
  intros a c. unfold sample_advice_len, with_costs. cbn [produced_tokens_estimated full_result_tokens_estimated].
  change (digits (fst (0, 0), snd (0, 0))) with 2. destruct c as [p f]. cbn [fst snd].
  generalize (digits (p, f)). lia.
Qed.

Definition sample_oldest (m : gmap (list (list N)) Episode) : option (list (list N)) :=
  fst <$> head (map_to_list m).

Lemma sample_oldest_is_one : oldest_is_one sample_oldest.
Proof.
  intros m Hm. unfold sample_oldest. destruct (map_to_list m) as [|[k x] l] eqn:E.
  - by apply map_to_list_empty_iff in E.
  - exists k. split; [done|]. exists x. apply elem_of_map_to_list. rewrite E. by constructor.
Qed.

Definition sample_episode : Episode :=
  {| touched := 0; requests := 1; produced := 90; repeated := 0; spans := [(2, 3)] |}.

Lemma observe_accounts_for_the_read_witness :
  exists episodes' advice e,
    observe sample_advice_len (fun _ => 150) id sample_oldest {[ [lit "a"] := sample_episode ]} []
      (sample_file 3 3 (lit "end")) 15 80 7 = Some (episodes', advice) /\
    episodes' !! [lit "a"] = Some e /\ advice_missing_from advice = Some 1 /\ advice_missing_to advice = Some 1 /\
    repeated e = 1.
Proof.
  destruct (observe_accounts_for_the_read sample_advice_len (fun _ => 150) id sample_oldest
    {[ [lit "a"] := sample_episode ]} [] (sample_file 3 3 (lit "end")) 15 80 7)
    as (eps & adv & e & Ho & He & _ & _ & _ & _ & Hr & _ & _ & _ & _).
  - exact sample_in_decimal.
  - unfold file_fits, u64_max. simpl. repeat split; vm_compute; congruence.
  - vm_compute. repeat split; congruence.
  - unfold MAX_SPANS. vm_compute. lia.
  - exists eps, adv, e. split; [exact Ho|]. split; [exact He|].
    assert (advice_missing_from adv = Some 1 /\ advice_missing_to adv = Some 1) as [-> ->].
    { vm_compute in Ho. injection Ho as <- <-. done. }
    split; [done|]. split; [done|]. rewrite Hr. reflexivity.
Defined.

Lemma advice_prices_its_own_response_witness :
  exists episodes' advice,
    observe sample_advice_len (fun _ => 150) id sample_oldest ∅ [] (sample_file 1 1 (lit "one")) 15 80 7
      = Some (episodes', advice) /\
    produced_tokens_estimated advice = 113.
Proof.
  destruct (advice_prices_its_own_response sample_advice_len (fun _ => 150) id sample_oldest
    ∅ [] (sample_file 1 1 (lit "one")) 15 80 7 sample_in_decimal) as (eps & adv & Ho & Hp & _).
  exists eps, adv. split; [exact Ho|]. vm_compute in Ho. injection Ho as <- <-. reflexivity.
Defined.

Lemma read_costs_stay_bounded_witness :
  exists episodes' advice,
    observe sample_advice_len (fun _ => 150) id sample_oldest ∅ [] (sample_file 1 1 (lit "one")) 15 80 7
      = Some (episodes', advice) /\
    N.of_nat (size episodes') <= MAX_EPISODES.
Proof.
  eexists _, _. split; [vm_compute; reflexivity|].
  refine (proj1 (read_costs_stay_bounded sample_advice_len (fun _ => 150) id sample_oldest
    ∅ [] (sample_file 1 1 (lit "one")) 15 80 7 _ _ sample_oldest_is_one _ _ _ _)).
  - vm_compute. congruence.
  - vm_compute. congruence.
  - apply map_Forall_empty.
  - vm_compute. reflexivity.
Defined.

End ReadCost.
