(* ===== verification/Namespace.v ===== *)
(** Memory namespaces ([crates/hzr-memory/src/namespace.rs]): one memory
    database serves every repository and the user's own records, and the topic of
    a record says whose it is.

    A score is an [f32], kept as its 32 bits; of a record's fields those that no
    function here reads are one parameter, [Rest]. *)

From S2P Require Import Prelude RStr.
From Stdlib Require Import ZifyBool ZifyN.

Module Namespace.

Definition MAX_MEMORY_KIND_BYTES : N := 64.
Definition PROJECT_TOKEN_BYTES : N := 64.
Definition GLOBAL_SCOPE_TOKEN : rstr := lit "global".

Inductive MemoryNamespace := Project | Global | ProjectAndGlobal.

#[export] Instance MemoryNamespace_eq_dec : EqDecision MemoryNamespace.
Proof. solve_decision. Defined.

Inductive MemoryError := InvalidRequest (message : rstr).

(** ** Topics *)

Definition kind_end (byte : N) : bool := is_ascii_lowercase byte || is_ascii_digit byte.
Definition kind_byte (byte : N) : bool := kind_end byte || (byte =? ch "-").

(** [bytes.windows(2).any(|pair| pair == b"--")]. *)
Fixpoint double_hyphen (bytes : list N) : bool :=
  match bytes with
  | a :: (b :: _) as rest => (a =? ch "-") && (b =? ch "-") || double_hyphen rest
  | _ => false
  end.

Definition some_and {A} (f : A -> bool) (o : option A) : bool :=
  match o with Some a => f a | None => false end.

Definition validate_memory_kind (kind : rstr) : result MemoryError unit :=
  let bytes := utf8 kind in
  if is_nil bytes || (MAX_MEMORY_KIND_BYTES <? N.of_nat (length bytes))
  then Err (InvalidRequest (lit "memory topic kind must contain between 1 and "
              ++ dec MAX_MEMORY_KIND_BYTES ++ lit " bytes"))
  else if negb (forallb kind_byte bytes) || negb (some_and kind_end (head bytes))
          || negb (some_and kind_end (last bytes)) || double_hyphen bytes
  then Err (InvalidRequest (lit "memory topic kind must use lowercase ASCII letters, digits, and single interior hyphens"))
  else Ok tt.

Definition token_byte (byte : N) : bool := is_ascii_digit byte || between 97 102 byte.

Definition validate_project_token (project : rstr) : result MemoryError unit :=
  if negb (slen project =? PROJECT_TOKEN_BYTES) || negb (forallb token_byte (utf8 project))
  then Err (InvalidRequest (lit "memory project token must be a lowercase SHA-256 repository identity"))
  else Ok tt.

Definition namespaced_topic (kind project : rstr) : result MemoryError rstr :=
  _ ← validate_memory_kind kind;
  _ ← validate_project_token project;
  Ok (kind ++ lit "-" ++ project).

Definition global_topic (kind : rstr) : result MemoryError rstr :=
  _ ← validate_memory_kind kind;
  _ ← guard_err
        (negb (str_eqb kind (lit "preferences")) && negb (str_eqb kind (lit "architecture-global"))
         && match strip_prefix (lit "user-") kind with None => true | Some rest => is_empty rest end)
        (InvalidRequest (lit "global memory topic must be `preferences`, `architecture-global`, or start with `user-`"));
  Ok (kind ++ lit "-" ++ GLOBAL_SCOPE_TOKEN).

(** [topic.strip_suffix(token).and_then(|prefix| prefix.strip_suffix('-'))]. *)
Definition kind_before (token topic : rstr) : option rstr :=
  prefix ← strip_suffix token topic; strip_suffix (lit "-") prefix.

Definition topic_is_global (topic : rstr) : bool :=
  some_and (fun kind => is_ok (validate_memory_kind kind)) (kind_before GLOBAL_SCOPE_TOKEN topic).

Definition topic_belongs_to_project (topic project : rstr) : bool :=
  if negb (is_ok (validate_project_token project)) then false
  else some_and (fun kind => negb (str_eqb kind (lit "legacy-import")) && is_ok (validate_memory_kind kind))
         (kind_before project topic).

(** ** Records *)

Section Records.
Context {Rest : Type}.

Record MemoryRecord := {
  score : option N;
  id : rstr;
  updated_at : rstr;
  topic : rstr;
  rest : Rest;
}.

Definition reachable_in (namespace : MemoryNamespace) (project : rstr) (r : MemoryRecord) : bool :=
  match namespace with
  | Project => topic_belongs_to_project (topic r) project
  | Global => topic_is_global (topic r)
  | ProjectAndGlobal => topic_belongs_to_project (topic r) project || topic_is_global (topic r)
  end.

Definition exactly (exact_topic : option rstr) (r : MemoryRecord) : bool :=
  match exact_topic with None => true | Some t => str_eqb (topic r) t end.

Definition isolate_memories (records : list MemoryRecord) (project : rstr) (namespace : MemoryNamespace)
    (exact_topic : option rstr) (limit : nat) : list MemoryRecord :=
  take limit (List.filter (fun r => reachable_in namespace project r && exactly exact_topic r) records).

Definition isolate_project_memories (records : list MemoryRecord) (project : rstr)
    (exact_topic : option rstr) (limit : nat) : list MemoryRecord :=
  isolate_memories records project Project exact_topic limit.

(** The position of an [f32] in the order of [total_cmp]: its bits as a signed
    integer, those behind the sign inverted for a negative number. *)
Definition total_position (bits : N) : Z :=
  if bits <? 2 ^ 31 then Z.of_N bits else (-1 - Z.of_N (bits - 2 ^ 31))%Z.

Definition NEG_INFINITY : N := 0xFF800000.

(** [f32::total_cmp]. *)
Definition total_cmp (a b : N) : comparison := by_key total_position Z.compare a b.

Definition rank_score (r : MemoryRecord) : N := default NEG_INFINITY (score r).

Definition rank : MemoryRecord -> MemoryRecord -> comparison :=
  then_with (then_with (by_key_desc rank_score total_cmp) (by_key_desc updated_at str_cmp))
            (by_key id str_cmp).

(** [.filter(|record| seen.insert(record.id.clone()))]. *)
Fixpoint first_of_each_id (seen : gset rstr) (records : list MemoryRecord) : list MemoryRecord :=
  match records with
  | [] => []
  | r :: records =>
      if decide (id r ∈ seen) then first_of_each_id seen records
      else r :: first_of_each_id ({[ id r ]} ∪ seen) records
  end.

Definition merge_memories (project global : list MemoryRecord) (limit : nat) : list MemoryRecord :=
  take limit (first_of_each_id ∅ (sort_by rank (project ++ global))).
End Records.

(** How many ranked candidates a recall asks the engine for. *)
Definition recall_candidate_limit (requested : N) : N := N.min (N.min (requested * 10) u64_max) 100.

(** ** Topics name one scope *)

Lemma kind_before_Some token t kind :
  kind_before token t = Some kind <-> t = kind ++ lit "-" ++ token.
Proof.
  unfold kind_before. split.
  - intros (prefix & H1 & H2)%bind_Some. apply strip_suffix_Some in H1, H2. subst. by rewrite <- app_assoc.
  - intros ->. apply bind_Some. exists (kind ++ lit "-").
    split; apply strip_suffix_Some; [by rewrite <- app_assoc | done].
Qed.

Lemma is_ok_true {E} (r : result E unit) : is_ok r = true <-> r = Ok tt.
Proof. destruct r as [[]|]; naive_solver. Qed.

Lemma token_byte_ascii b : token_byte b = true -> b < 128.
Proof. unfold token_byte, is_ascii_digit, between. lia. Qed.

Lemma project_token_ok p :
  validate_project_token p = Ok tt -> length p = 64%nat /\ forallb token_byte p = true.
Proof.
  unfold validate_project_token. destruct (negb (slen p =? _) || _) eqn:E; [done|]. intros _.
  bool_prop. match goal with H : forallb _ _ = true |- _ => pose proof (utf8_forallb _ _ token_byte_ascii H) as [Hu Hp] end.
  split; [|done]. rewrite <- Hu, length_utf8. unfold slen, PROJECT_TOKEN_BYTES in *. lia.
Qed.

Lemma project_topics_apart k k' p p' :
  validate_project_token p = Ok tt -> validate_project_token p' = Ok tt ->
  k ++ lit "-" ++ p = k' ++ lit "-" ++ p' -> k = k' /\ p = p'.
Proof.
  intros [Hp _]%project_token_ok [Hp' _]%project_token_ok E.
  apply app_inj_2 in E as [-> E]; [|rewrite !length_app; lia]. split; [done|]. by apply app_inv_head in E.
Qed.

Lemma global_topic_apart k k' p :
  validate_project_token p = Ok tt -> k ++ lit "-" ++ GLOBAL_SCOPE_TOKEN <> k' ++ lit "-" ++ p.
Proof.
  intros [Hl Hp]%project_token_ok. destruct p as [|c p _] using rev_ind; [done|].
  rewrite forallb_app in Hp. simpl in Hp. intros E.
  change GLOBAL_SCOPE_TOKEN with (lit "globa" ++ lit "l") in E. rewrite !app_assoc in E.
  apply app_inj_tail in E as [_ <-]. by rewrite andb_false_r in Hp.
Qed.

Lemma topic_belongs_spec t p :
  topic_belongs_to_project t p = true <->
  validate_project_token p = Ok tt /\ exists kind, t = kind ++ lit "-" ++ p /\
    validate_memory_kind kind = Ok tt /\ kind <> lit "legacy-import".
Proof.
  unfold topic_belongs_to_project. destruct (validate_project_token p) as [[]|e]; simpl; [|naive_solver].
  unfold some_and. destruct (kind_before p t) as [kind|] eqn:E.
  - apply kind_before_Some in E as ->. unfold str_eqb. rewrite andb_true_iff, negb_true_iff, bool_decide_eq_false, is_ok_true.
    split; [intros [H1 H2]; eauto|]. intros (_ & k & H1 & H2 & H3). apply app_inj_2 in H1 as [-> _]; [|done].
    split; [exact H3 | exact H2].
  - split; [done|]. intros (_ & k & H1 & _). apply kind_before_Some in H1. by rewrite H1 in E.
Qed.

Lemma topic_is_global_spec t :
  topic_is_global t = true <->
  exists kind, t = kind ++ lit "-" ++ GLOBAL_SCOPE_TOKEN /\ validate_memory_kind kind = Ok tt.
Proof.
  unfold topic_is_global, some_and. destruct (kind_before GLOBAL_SCOPE_TOKEN t) as [kind|] eqn:E.
  - apply kind_before_Some in E as ->. rewrite is_ok_true. split; [eauto|].
    intros (k & H1 & H2). by apply app_inj_2 in H1 as [-> _].
  - split; [done|]. intros (k & H1 & _). apply kind_before_Some in H1. by rewrite H1 in E.
Qed.

Lemma namespaced_topic_Ok kind p t :
  namespaced_topic kind p = Ok t <->
  validate_memory_kind kind = Ok tt /\ validate_project_token p = Ok tt /\ t = kind ++ lit "-" ++ p.
Proof.
  unfold namespaced_topic. cbv [mbind result_bind].
  destruct (validate_memory_kind kind) as [[]|], (validate_project_token p) as [[]|]; naive_solver.
Qed.

Lemma global_topic_Ok kind t :
  global_topic kind = Ok t -> validate_memory_kind kind = Ok tt /\ t = kind ++ lit "-" ++ GLOBAL_SCOPE_TOKEN.
Proof.
  unfold global_topic. cbv [mbind result_bind guard_err].
  destruct (validate_memory_kind kind) as [[]|]; [|done].
  destruct (_ && _); [done|]. by intros [= <-].
Qed.

(** ** Merging *)

Section Merge.
Context {Rest : Type}.
Implicit Types r : @MemoryRecord Rest.

Lemma rank_ordering : Ordering (@rank Rest).
Proof. unfold rank, total_cmp. apply _. Qed.
#[local] Existing Instance rank_ordering.

Definition rank_le r r' : Prop := rank r r' <> Gt.

(** Ranked at least as well: a higher score, or the same and a later update, or
    both the same and an identifier that is not greater. *)
Definition no_worse r r' : Prop :=
  let p := total_position (rank_score r) in
  let p' := total_position (rank_score r') in
  (p' < p)%Z \/
  p = p' /\ (str_cmp (updated_at r') (updated_at r) = Lt \/
              updated_at r = updated_at r' /\ str_cmp (id r) (id r') <> Gt).

Lemma rank_le_no_worse r r' : rank_le r r' <-> no_worse r r'.
Proof.
  unfold rank_le, no_worse, rank, then_with, total_cmp, by_key, by_key_desc.
  destruct (Z.compare_spec (total_position (rank_score r')) (total_position (rank_score r))) as [E|E|E];
    [|naive_solver lia..].
  destruct (str_cmp (updated_at r') (updated_at r)) eqn:Eu.
  - apply str_cmp_eq in Eu. naive_solver lia.
  - naive_solver lia.
  - assert (updated_at r <> updated_at r') as Hne by (intros H; by rewrite H, str_cmp_refl in Eu).
    naive_solver lia.
Qed.

Lemma first_of_each_id_spec l : forall seen,
  StronglySorted rank_le l ->
  let out := first_of_each_id seen l in
  StronglySorted rank_le out /\ NoDup (map id out) /\
  (forall r, r ∈ out -> r ∈ l /\ id r ∉ seen) /\
  (forall r, r ∈ l -> id r ∉ seen -> exists r', r' ∈ out /\ id r' = id r /\ rank_le r' r).
Proof.
  induction l as [|x l IH]; intros seen Hs; simpl.
  { split_and!; [constructor | constructor | by intros r ?%elem_of_nil | by intros r ?%elem_of_nil]. }
  apply StronglySorted_inv in Hs as [Hs Hx]. rewrite Forall_forall in Hx. destruct (decide (id x ∈ seen)) as [Hin|Hin].
  - destruct (IH seen Hs) as (I1 & I2 & I3 & I4). split_and!; [done | done | |].
    + intros r Hr. destruct (I3 r Hr). split; [by right|done].
    + intros r [->|Hr]%elem_of_cons Hn; [done|by apply I4].
  - destruct (IH ({[ id x ]} ∪ seen) Hs) as (I1 & I2 & I3 & I4). split_and!.
    + constructor; [done|]. apply Forall_forall. intros r Hr. apply Hx. by apply I3.
    + constructor; [|done]. intros (r & E & Hr)%list_elem_of_fmap. destruct (I3 r Hr) as [_ Hn].
      apply Hn. rewrite <- E. set_solver.
    + intros r [->|Hr]%elem_of_cons; [split; [by left|done]|]. destruct (I3 r Hr) as [H1 H2].
      split; [by right|set_solver].
    + intros r [->|Hr]%elem_of_cons Hn.
      { exists x. split_and!; [by left|done|]. unfold rank_le. by rewrite cmp_refl by apply _. }
      destruct (decide (id r = id x)) as [E|E].
      * exists x. split_and!; [by left|done|by apply Hx].
      * destruct (I4 r Hr) as (r' & H1 & H2 & H3); [set_solver|]. exists r'. split_and!; [by right|done|done].
Qed.

Lemma ranked_no_worse (l : list (@MemoryRecord Rest)) :
  StronglySorted rank_le l -> StronglySorted no_worse l.
Proof.
  induction 1 as [|r l Hs IH Hr]; constructor; [done|].
  eapply Forall_impl; [exact Hr|]. intros r'. apply rank_le_no_worse.
Qed.

Lemma sorted_take_drop k (l : list (@MemoryRecord Rest)) r r' :
  StronglySorted rank_le l -> r ∈ take k l -> r' ∈ drop k l -> rank_le r r'.
Proof.
  revert k. induction l as [|x l IH]; intros [|k] Hs; simpl; try by (intros ?%elem_of_nil).
  apply StronglySorted_inv in Hs as [Hs Hx]. rewrite Forall_forall in Hx.
  intros [->|Hr]%elem_of_cons Hr'; [|by eapply IH].
  apply Hx. rewrite <- (take_drop k l). apply elem_of_app. by right.
Qed.
End Merge.

(** ** Properties *)

(** A recall reaches the records of its scope and no others: what it returns
    was stored under this project's namespace or the user's own, as far as the
    requested namespace goes, and never under another project's; and a record
    stored under either is returned, unless the limit cuts it off or it is an
    unclassified import. *)
Theorem recall_reaches_its_scope {Rest : Type} (records : list (@MemoryRecord Rest)) project namespace exact limit :
  validate_project_token project = Ok tt ->
  let out := isolate_memories records project namespace exact limit in
  (forall r, r ∈ out ->
    r ∈ records /\ (forall t, exact = Some t -> topic r = t) /\
    (namespace <> Global /\ (exists kind, namespaced_topic kind project = Ok (topic r)) \/
     namespace <> Project /\ (exists kind, validate_memory_kind kind = Ok tt /\
       topic r = kind ++ lit "-" ++ GLOBAL_SCOPE_TOKEN)) /\
    (forall kind other, namespaced_topic kind other = Ok (topic r) -> other = project)) /\
  (forall r, r ∈ records -> (length records <= limit)%nat -> (forall t, exact = Some t -> topic r = t) ->
    (namespace <> Global /\ (exists kind, kind <> lit "legacy-import" /\ namespaced_topic kind project = Ok (topic r)) \/
     namespace <> Project /\ (exists kind, global_topic kind = Ok (topic r))) ->
    r ∈ out).
Proof.
  intros Hp out. split.
  - intros r Hr. unfold out, isolate_memories in Hr.
    assert (r ∈ List.filter (fun r => reachable_in namespace project r && exactly exact r) records) as Hf.
    { rewrite <- (take_drop limit). apply elem_of_app. by left. }
    apply list_elem_of_In, List.filter_In in Hf as [Hin Hf]. apply andb_true_iff in Hf as [Hreach Hex].
    split_and!; [by apply list_elem_of_In | by intros t ->; apply bool_decide_eq_true in Hex | |].
    + destruct namespace; simpl in Hreach; [| |apply orb_true_iff in Hreach as [Hreach|Hreach] ];
        [left|right|left|right]; split; try done.
      1,3: apply topic_belongs_spec in Hreach as (_ & kind & ? & ? & _); exists kind; by apply namespaced_topic_Ok.
      all: apply topic_is_global_spec in Hreach as (kind & ? & ?); eauto.
    + intros kind other (_ & Ho & Et)%namespaced_topic_Ok.
      assert (topic_belongs_to_project (topic r) project = true \/ topic_is_global (topic r) = true) as [H|H].
      { destruct namespace; simpl in Hreach; [by left | by right | by apply orb_true_iff]. }
      * apply topic_belongs_spec in H as (_ & k & E & _). rewrite Et in E.
        by eapply project_topics_apart in E as [_ ->].
      * apply topic_is_global_spec in H as (k & E & _). rewrite Et in E. symmetry in E.
        by eapply global_topic_apart in E.
  - intros r Hr Hlen Hex Hscope. unfold out, isolate_memories. rewrite take_ge; cycle 1.
    { etransitivity; [apply List.filter_length_le | done]. }
    apply list_elem_of_In, List.filter_In. split; [by apply list_elem_of_In|]. apply andb_true_iff. split.
    + destruct Hscope as [(Hn & kind & Hk & (Hv & _ & Et)%namespaced_topic_Ok)|(Hn & kind & [Hv Et]%global_topic_Ok)].
      * assert (topic_belongs_to_project (topic r) project = true) as H by (apply topic_belongs_spec; eauto 10).
        destruct namespace; simpl; [done | done | by rewrite H].
      * assert (topic_is_global (topic r) = true) as H by (apply topic_is_global_spec; eauto).
        destruct namespace; simpl; [done | done | by rewrite H, orb_true_r].
    + unfold exactly. destruct exact as [t|]; [|done]. apply bool_decide_eq_true. by apply Hex.
Qed.

(** Merging the recalls of the two scopes keeps the best: what it returns is
    ranked, holds no record twice and nothing that was not recalled, and of every
    recalled record it holds one of the same id ranked at least as well, unless
    the limit is reached by records that all rank at least as well.  Neither
    scope can push the other's better records out. *)
Theorem merge_keeps_the_best {Rest : Type} (project global : list (@MemoryRecord Rest)) limit :
  let out := merge_memories project global limit in
  StronglySorted no_worse out /\ NoDup (map id out) /\ (length out <= limit)%nat /\
  (forall r, r ∈ out -> r ∈ project \/ r ∈ global) /\
  (forall r, r ∈ project \/ r ∈ global ->
    (exists r', r' ∈ out /\ id r' = id r /\ no_worse r' r) \/
    (length out = limit /\ forall r', r' ∈ out -> no_worse r' r)).
Proof.
  intros out. pose proof (@rank_ordering Rest) as Hrank.
  pose proof (sort_by_sorted (@rank Rest) (project ++ global)) as Hs.
  pose proof (sort_by_perm (@rank Rest) (project ++ global)) as Hp.
  destruct (first_of_each_id_spec _ ∅ Hs) as (I1 & I2 & I3 & I4).
  set (all := first_of_each_id ∅ _) in *. change out with (take limit all).
  rewrite <- (take_drop limit all) in I1, I2. rewrite fmap_app in I2. apply NoDup_app in I2 as (I2 & _).
  split_and!.
  - eapply ranked_no_worse, StronglySorted_app_1_l, I1.
  - done.
  - rewrite length_take. lia.
  - intros r Hr. apply elem_of_app. rewrite <- Hp. apply I3. rewrite <- (take_drop limit all).
    apply elem_of_app. by left.
  - intros r Hr. apply elem_of_app in Hr. rewrite <- Hp in Hr. destruct (I4 r Hr) as (r0 & H1 & H2 & H3); [set_solver|].
    rewrite <- (take_drop limit all) in H1. apply elem_of_app in H1 as [H1|H1].
    { left. exists r0. by rewrite <- rank_le_no_worse. }
    right. split.
    + rewrite length_take. enough (limit <= length all)%nat by lia.
      destruct (Nat.le_gt_cases limit (length all)); [done|]. rewrite drop_ge in H1 by lia.
      by apply elem_of_nil in H1.
    + intros r' Hr'. apply rank_le_no_worse. eapply cmp_trans; [|exact H3]. rewrite take_drop in I1. by eapply sorted_take_drop.
Qed.

Definition project_a : rstr := repeat (ch "a") 64.
Definition project_b : rstr := repeat (ch "b") 64.
Definition sample_record (t : rstr) : @MemoryRecord unit :=
  {| score := None; id := t; updated_at := []; topic := t; rest := tt |}.
Definition sample_records : list (@MemoryRecord unit) :=
  [sample_record (lit "preferences"); sample_record (lit "context-" ++ project_b);
   sample_record (lit "context-" ++ project_a); sample_record (lit "preferences-global")].

Lemma recall_reaches_its_scope_witness :
  sample_record (lit "context-" ++ project_a)
    ∈ isolate_memories sample_records project_a ProjectAndGlobal None 4 /\
  length (isolate_memories sample_records project_a ProjectAndGlobal None 4) = 2%nat.
Proof.
  split; [|vm_compute; reflexivity].
  destruct (recall_reaches_its_scope sample_records project_a ProjectAndGlobal None 4) as [_ H];
    [vm_compute; reflexivity|].
  apply H.
  - right. right. left.
  - vm_compute. lia.
  - discriminate.
  - left. split; [discriminate|]. exists (lit "context"). split; [vm_compute; discriminate | vm_compute; reflexivity].
Defined.

End Namespace.
