(* ===== verification/Approvals.v ===== *)
(** Pending approvals ([crates/hzr-daemon/src/approval.rs]): a command that needs
    its user's consent waits under a one-time identifier.

    Every operation holds the lock of the map for its whole body, so it is one
    function of the map and of the clock it reads; [insert] reads the clock once.
    Identifiers come from [Uuid::now_v7]: they are an argument, and the theorems
    ask that they differ.  Which of several equally old approvals a full map
    drops is the hash map's affair, the parameter [oldest].  What is approved is
    never looked into. *)

From S2P Require Import Prelude RStr.
From Stdlib Require Import ZifyBool ZifyN.

Module Approvals.

(** In milliseconds. *)
Definition APPROVAL_TTL : N := 5 * 60 * 1000.
Definition MAX_PENDING_APPROVALS : N := 128.

Section Store.
Context {PendingApproval : Type}.

Record StoredApproval := { created_at : N; pending : PendingApproval }.

Abbreviation ApprovalStore := (gmap rstr StoredApproval).

Definition is_fresh (now : N) (a : StoredApproval) : bool := sat_sub now (created_at a) <? APPROVAL_TTL.

Definition prune_expired (now : N) (approvals : ApprovalStore) : ApprovalStore :=
  filter (fun kv => is_fresh now kv.2 = true) approvals.

(** [min_by_key] over a map that is not empty. *)
Definition oldest_law (oldest : ApprovalStore -> option rstr) : Prop :=
  forall m, m <> ∅ -> exists k a, oldest m = Some k /\ m !! k = Some a /\
    forall k' a', m !! k' = Some a' -> created_at a <= created_at a'.

Context (oldest : ApprovalStore -> option rstr).

Definition drop_oldest (approvals : ApprovalStore) : ApprovalStore :=
  if MAX_PENDING_APPROVALS <=? N.of_nat (size approvals)
  then match oldest approvals with Some k => delete k approvals | None => approvals end
  else approvals.

(** [ApprovalStore::insert], whose result is [decision_id]. *)
Definition insert (now : N) (decision_id : rstr) (p : PendingApproval) (approvals : ApprovalStore)
  : ApprovalStore :=
  <[ decision_id := {| created_at := now; pending := p |} ]> (drop_oldest (prune_expired now approvals)).

Definition take (now : N) (decision_id : rstr) (approvals : ApprovalStore)
  : option PendingApproval * ApprovalStore :=
  let approvals := prune_expired now approvals in
  (pending <$> approvals !! decision_id, delete decision_id approvals).

(** [locked] is what [try_lock] meets. *)
Definition is_pending (locked : bool) (now : N) (decision_id : rstr) (approvals : ApprovalStore) : bool :=
  if locked then true
  else match approvals !! decision_id with Some a => is_fresh now a | None => false end.

(** ** Any sequence of operations *)

Inductive Op :=
| OInsert (now : N) (decision_id : rstr) (p : PendingApproval)
| OTake (now : N) (decision_id : rstr).

Definition step (approvals : ApprovalStore) (op : Op) : ApprovalStore :=
  match op with
  | OInsert now id p => insert now id p approvals
  | OTake now id => (take now id approvals).2
  end.

Definition run (approvals : ApprovalStore) (ops : list Op) : ApprovalStore := fold_left step ops approvals.

(** What a [take] answers after some operations. *)
Definition taken (ops : list Op) (now : N) (id : rstr) : option PendingApproval :=
  (take now id (run ∅ ops)).1.

Definition time (op : Op) : N := match op with OInsert now _ _ | OTake now _ => now end.

Definition inserted (ops : list Op) : list rstr :=
  omap (fun op => match op with OInsert _ id _ => Some id | OTake _ _ => None end) ops.

(** ** Lemmas *)

Lemma prune_lookup now m k a :
  prune_expired now m !! k = Some a <-> m !! k = Some a /\ is_fresh now a = true.
Proof. unfold prune_expired. rewrite map_lookup_filter_Some. done. Qed.

Lemma drop_oldest_subseteq m : drop_oldest m ⊆ m.
Proof. unfold drop_oldest. repeat case_match; [apply delete_subseteq|done..]. Qed.

(** A step only ever adds what it inserts, and a taken approval is gone. *)
Lemma step_lookup m op k a :
  step m op !! k = Some a ->
  m !! k = Some a \/ exists now p, op = OInsert now k p /\ a = {| created_at := now; pending := p |}.
Proof.
  destruct op as [now id p|now id]; simpl.
  - unfold insert. rewrite lookup_insert_Some. intros [ [-> <-]|[_ H] ]; [right; eauto|].
    eapply lookup_weaken in H; [|apply drop_oldest_subseteq]. apply prune_lookup in H. left. naive_solver.
  - rewrite lookup_delete_Some. intros [_ [H _]%prune_lookup]. by left.
Qed.

Lemma run_lookup ops m k a :
  run m ops !! k = Some a ->
  m !! k = Some a \/ exists now p, OInsert now k p ∈ ops /\ a = {| created_at := now; pending := p |}.
Proof.
  revert m. induction ops as [|op ops IH]; intros m; simpl; [by left|]. intros H.
  destruct (IH _ H) as [Hm|(now & p & Hin & ->)]; [|right; exists now, p; split; [by right|done] ].
  destruct (step_lookup _ _ _ _ Hm) as [?|(now & p & -> & ->)]; [by left|].
  right. exists now, p. split; [by left|done].
Qed.

Lemma inserted_elem ops now k p : OInsert now k p ∈ ops -> k ∈ inserted ops.
Proof. intros H. apply list_elem_of_omap. by exists (OInsert now k p). Qed.

Lemma take_absent now id m : m !! id = None -> (take now id m).1 = None.
Proof.
  intros Hm. unfold take. simpl. destruct (prune_expired now m !! id) as [a|] eqn:E; [|done].
  apply prune_lookup in E. naive_solver.
Qed.

Lemma run_app m ops ops' : run m (ops ++ ops') = run (run m ops) ops'.
Proof. apply fold_left_app. Qed.

Lemma drop_oldest_size (Hold : oldest_law oldest) m :
  N.of_nat (size m) <= MAX_PENDING_APPROVALS -> N.of_nat (size (drop_oldest m)) < MAX_PENDING_APPROVALS.
Proof.
  intros Hs. unfold drop_oldest. destruct (N.leb_spec MAX_PENDING_APPROVALS (N.of_nat (size m))) as [Hf|Hf]; [|done].
  destruct (Hold m) as (k & a & -> & Hk & _); [intros ->; by rewrite map_size_empty in Hf|].
  rewrite map_size_delete_Some by (by exists a). unfold MAX_PENDING_APPROVALS in *. lia.
Qed.

Lemma step_size (Hold : oldest_law oldest) m op :
  N.of_nat (size m) <= MAX_PENDING_APPROVALS -> N.of_nat (size (step m op)) <= MAX_PENDING_APPROVALS.
Proof.
  intros Hs. assert (forall now, (size (prune_expired now m) <= size m)%nat) as Hprune
    by (intros; apply map_subseteq_size, map_filter_subseteq).
  destruct op as [now id p|now id]; simpl.
  - specialize (Hprune now). pose proof (drop_oldest_size Hold (prune_expired now m) ltac:(lia)).
    unfold insert. rewrite map_size_insert. case_match; cbn; lia.
  - specialize (Hprune now). rewrite map_size_delete. case_match; cbn; lia.
Qed.

(** ** An approval younger than its rivals *)

Definition newer (t : N) (m : ApprovalStore) : ApprovalStore := filter (fun kv => t < created_at kv.2) m.

(** The approval [a] is stored under [k], and at most [n] others are newer. *)
Definition held (k : rstr) (a : StoredApproval) (n : N) (m : ApprovalStore) : Prop :=
  m !! k = Some a /\ N.of_nat (size (newer (created_at a) m)) <= n /\
  forall k' a', k' <> k -> m !! k' = Some a' -> created_at a' <> created_at a.

Lemma newer_mono t m m' : m ⊆ m' -> N.of_nat (size (newer t m)) <= N.of_nat (size (newer t m')).
Proof.
  intros Hm. assert (size (newer t m) <= size (newer t m'))%nat; [|lia].
  apply map_subseteq_size, map_filter_strong_subseteq_ext. intros k a. simpl.
  intros [Hk H]. split; [done|]. by eapply lookup_weaken.
Qed.

Lemma held_subseteq k a n m m' : m' ⊆ m -> m' !! k = Some a -> held k a n m -> held k a n m'.
Proof.
  intros Hm Hk (_ & Hn & Hd). split_and!; [done | |].
  - etransitivity; [by apply newer_mono | done].
  - intros k' a' Hne Hk'. eapply Hd; [done|]. by eapply lookup_weaken.
Qed.

Lemma held_prune now k a n m :
  is_fresh now a = true -> held k a n m -> held k a n (prune_expired now m).
Proof.
  intros Hf Hh. pose proof Hh as (Hk & _). apply (held_subseteq k a n m); [apply map_filter_subseteq | | done].
  by apply prune_lookup.
Qed.

Lemma held_drop (Hold : oldest_law oldest) k a n m :
  n <= 126 -> held k a n m -> held k a n (drop_oldest m).
Proof.
  intros Hn Hh. pose proof Hh as (Hk & Hc & Hd).
  apply (held_subseteq k a n m); [apply drop_oldest_subseteq | | done].
  unfold drop_oldest. destruct (N.leb_spec MAX_PENDING_APPROVALS (N.of_nat (size m))) as [Hfull|]; [|done].
  destruct (Hold m) as (o & b & -> & Ho & Hmin); [intros ->; by rewrite lookup_empty in Hk|].
  destruct (decide (o = k)) as [->|Hne]; [|by rewrite lookup_delete_ne]. exfalso.
  assert (b = a) as -> by congruence.
  assert (m ⊆ <[k := a]> (newer (created_at a) m)) as Hsub.
  { apply map_subseteq_spec. intros k' a' Hk'. destruct (decide (k' = k)) as [->|Hne].
    - rewrite lookup_insert_eq. congruence.
    - rewrite lookup_insert_ne by done. apply map_lookup_filter_Some. split; [done|]. simpl.
      specialize (Hmin _ _ Hk'). specialize (Hd _ _ Hne Hk'). lia. }
  apply map_subseteq_size in Hsub. rewrite map_size_insert in Hsub.
  unfold MAX_PENDING_APPROVALS in *. destruct (newer _ m !! k); cbn in Hsub; lia.
Qed.

Lemma held_insert k a n now id p m :
  id <> k -> now <> created_at a -> held k a n m ->
  held k a (n + 1) (<[ id := {| created_at := now; pending := p |} ]> m).
Proof.
  intros Hid Hnow (Hk & Hc & Hd). split_and!.
  - by rewrite lookup_insert_ne.
  - set (b := {| created_at := now; pending := p |}).
    assert (newer (created_at a) (<[id := b]> m) ⊆ <[id := b]> (newer (created_at a) m)) as Hsub.
    { apply map_subseteq_spec. intros k' a'. unfold newer. rewrite map_lookup_filter_Some, !lookup_insert_Some.
      rewrite map_lookup_filter_Some. naive_solver. }
    apply map_subseteq_size in Hsub. rewrite map_size_insert in Hsub. destruct (newer _ m !! id); cbn in Hsub; lia.
  - intros k' a' Hne. rewrite lookup_insert_Some. intros [ [_ <-]|[_ Hk'] ]; [done|by eapply Hd].
Qed.

(** An operation on other approvals, while [a] is fresh, leaves it held. *)
Definition spares (k : rstr) (t : N) (op : Op) : Prop :=
  match op with OInsert _ id _ | OTake _ id => id <> k end /\ t < time op < t + APPROVAL_TTL.

Lemma held_step (Hold : oldest_law oldest) k a n m op :
  spares k (created_at a) op -> n + N.of_nat (length (inserted [op])) <= 127 -> held k a n m ->
  held k a (n + N.of_nat (length (inserted [op]))) (step m op).
Proof.
  intros (Hne & Ht) Hn Hh. assert (is_fresh (time op) a = true) as Hf by (unfold is_fresh, sat_sub; lia).
  apply (held_prune (time op)) in Hh; [|done]. destruct op as [now id p|now id]; simpl in *.
  - apply held_insert; [done | lia |]. apply held_drop; [done | lia | done].
  - rewrite N.add_0_r. eapply held_subseteq; [apply delete_subseteq | | exact Hh].
    rewrite lookup_delete_ne by done. apply Hh.
Qed.

Lemma held_run (Hold : oldest_law oldest) k a ops : forall n m,
  Forall (spares k (created_at a)) ops -> n + N.of_nat (length (inserted ops)) <= 127 -> held k a n m ->
  run m ops !! k = Some a.
Proof.
  induction ops as [|op ops IH]; intros n m Hs Hn Hh; [apply Hh|].
  apply Forall_cons in Hs as [Hop Hs]. change (op :: ops) with ([op] ++ ops) in Hn |- *.
  unfold inserted in Hn. rewrite omap_app in Hn. fold (inserted [op]) (inserted ops) in Hn.
  rewrite length_app in Hn. rewrite run_app.
  apply (IH (n + N.of_nat (length (inserted [op])))); [done | lia |].
  apply held_step; [done | done | lia | done].
Qed.

(** ** Properties *)

(** Consent is given once and not late: an approval that [take] hands out
    was inserted under that identifier less than five minutes before, and the
    same identifier is never answered again, whatever follows. *)
Theorem approval_is_single_use ops now id p :
  taken ops now id = Some p ->
  (exists created, OInsert created id p ∈ ops /\ sat_sub now created < APPROVAL_TTL) /\
  (forall ops' now', id ∉ inserted ops' -> taken (ops ++ OTake now id :: ops') now' id = None).
Proof.
  unfold taken at 1, take. simpl. intros (a & Ha & Hp)%fmap_Some. apply prune_lookup in Ha as [Ha Hf].
  destruct (run_lookup _ _ _ _ Ha) as [H|(created & q & Hin & ->)]; [by rewrite lookup_empty in H|].
  simpl in Hp. subst q. split.
  - exists created. split; [done|]. unfold is_fresh in Hf. simpl in Hf. lia.
  - intros ops' now' Hnot. unfold taken. apply take_absent. rewrite run_app. simpl.
    destruct (run _ ops' !! id) as [b|] eqn:E; [|done].
    destruct (run_lookup _ _ _ _ E) as [H|(c & q & H%inserted_elem & _)]; [|done].
    unfold take in H. simpl in H. by rewrite lookup_delete_eq in H.
Qed.

(** C40: a pending approval is not lost: as long as fewer than 128 others are
    requested after it and nobody takes it, it is there for its five minutes,
    however many are pending: only older ones make room. *)
Theorem approval_is_kept ops t id p ops' now :
  oldest_law oldest ->
  Forall (fun op => time op < t) ops ->
  Forall (spares id t) ops' -> (length (inserted ops') <= 127)%nat ->
  now < t + APPROVAL_TTL ->
  taken (ops ++ OInsert t id p :: ops') now id = Some p.
Proof.
  intros Hold Hbefore Hafter Hlen Hnow. set (a := {| created_at := t; pending := p |}).
  assert (forall k b, run ∅ ops !! k = Some b -> created_at b < t) as Hold'.
  { intros k b Hb. destruct (run_lookup _ _ _ _ Hb) as [H|(c & q & Hin & ->)]; [by rewrite lookup_empty in H|].
    rewrite Forall_forall in Hbefore. exact (Hbefore _ Hin). }
  assert (drop_oldest (prune_expired t (run ∅ ops)) ⊆ run ∅ ops) as Hsub.
  { etransitivity; [apply drop_oldest_subseteq | apply map_filter_subseteq]. }
  assert (held id a 0 (run ∅ (ops ++ [OInsert t id p]))) as Hheld.
  { rewrite run_app. simpl. unfold insert. split_and!; [apply lookup_insert_eq | |].
    - set (m := drop_oldest _). change (N.of_nat (size (newer t (<[id := a]> m))) <= 0).
      assert (newer t (<[id := a]> m) = ∅) as ->; [|by rewrite map_size_empty].
      apply map_empty. intros k. apply map_lookup_filter_None. right. intros b Hb. simpl.
      apply lookup_insert_Some in Hb as [ [_ <-]|[_ Hb] ]; [simpl; lia|].
      eapply lookup_weaken in Hb; [|exact Hsub]. apply Hold' in Hb. lia.
    - intros k b Hne. rewrite lookup_insert_ne by done. intros Hb.
      eapply lookup_weaken in Hb; [|exact Hsub]. apply Hold' in Hb. simpl. lia. }
  replace (ops ++ OInsert t id p :: ops') with ((ops ++ [OInsert t id p]) ++ ops') by by rewrite <- app_assoc.
  unfold taken, take. simpl. rewrite run_app.
  assert (prune_expired now (run (run ∅ (ops ++ [OInsert t id p])) ops') !! id = Some a) as ->; [|done].
  apply prune_lookup. split; [|unfold is_fresh, sat_sub, APPROVAL_TTL in *; cbn [created_at a]; lia].
  apply (held_run Hold id a ops' 0); [exact Hafter | | exact Hheld]. lia.
Qed.
End Store.

(** An eldest approval, found by sorting. *)
Definition eldest (m : gmap rstr (@StoredApproval N)) : option rstr :=
  fst <$> head (sort_by (by_key (fun kv : rstr * StoredApproval => Z.of_N (created_at kv.2)) Z.compare) (map_to_list m)).

Lemma eldest_law : oldest_law eldest.
Proof.
  intros m Hm. unfold eldest. set (cmp := by_key _ _).
  pose proof (sort_by_perm cmp (map_to_list m)) as Hp. pose proof (sort_by_sorted cmp (map_to_list m)) as Hs.
  destruct (sort_by cmp (map_to_list m)) as [|[k a] l].
  - apply Permutation_nil, map_to_list_empty_iff in Hp. done.
  - apply StronglySorted_inv in Hs as [_ Hs]. rewrite Forall_forall in Hs. exists k, a. split_and!; [done | |].
    + apply elem_of_map_to_list. rewrite <- Hp. by left.
    + intros k' a' Hk'. apply elem_of_map_to_list in Hk'. rewrite <- Hp in Hk'.
      apply elem_of_cons in Hk' as [ [= -> ->]|Hk']; [done|]. apply Hs in Hk'.
      unfold le_by, cmp, by_key in Hk'. simpl in Hk'. rewrite Z.compare_le_iff in Hk'. by apply N2Z.inj_le.
Qed.

Lemma approval_is_single_use_witness :
  taken eldest [OInsert 5 (lit "a") 7; OTake 9 (lit "a")] 10 (lit "a") = None.
Proof.
  destruct (approval_is_single_use eldest [OInsert 5 (lit "a") 7] 9 (lit "a") 7) as [_ H].
  - vm_compute. reflexivity.
  - apply (H [] 10). vm_compute. apply not_elem_of_nil.
Defined.

Lemma approval_is_kept_witness :
  taken eldest [OInsert 5 (lit "a") 7; OInsert 6 (lit "b") 8; OTake 7 (lit "b")] 300004 (lit "a") = Some 7.
Proof.
  apply (approval_is_kept eldest [] 5 (lit "a") 7 [OInsert 6 (lit "b") 8; OTake 7 (lit "b")] 300004 eldest_law).
  - constructor.
  - repeat constructor; vm_compute; congruence.
  - vm_compute. lia.
  - vm_compute. reflexivity.
Defined.

End Approvals.
