(* ===== verification/Operation.v ===== *)
(** Recorded operations ([crates/hzr-core/src/operation.rs]): whether a command
    went through the optimizer, what of it may be shown, and whether a request
    for exact output is granted.

    The file system is the parameters [metadata] and [read_sample] of the
    preflight, over absolute paths; a relative path is joined to the working
    directory.  The words of a command are [shell_words], split at white space
    and not as a shell would. *)

From S2P Require Import Prelude RStr Contract.
From Stdlib Require Import ZifyBool ZifyN.

Module Operation.

Definition BYPASS_MARKERS : list rstr := [lit "raw"; lit "proxy"].

Definition BYPASS_PREFIXES : list rstr :=
  [lit "raw"; lit "proxy"; lit "rtk raw"; lit "rtk proxy"; lit "hzr raw"; lit "hzr proxy";
   lit "rtk -- raw"; lit "rtk -- proxy"; lit "hzr -- raw"; lit "hzr -- proxy";
   lit "hzr rtk raw"; lit "hzr rtk proxy"; lit "hzr rtk -- raw"; lit "hzr rtk -- proxy"].

Definition BYPASS_FALLBACK_PREFIXES : list rstr := [lit "rtk fallback"; lit "hzr fallback"].

Definition WRAPPERS : list rstr := [lit "rtk"; lit "hzr"; lit "--"].

Inductive OperationRoute := Optimized | Bypassed | NativeUnaccounted.

#[export] Instance OperationRoute_eq_dec : EqDecision OperationRoute.
Proof. solve_decision. Defined.

Inductive OperationSubsystem := Read | Search | Write | Memory | Codec | Execution | Bypass.

Record RawReplacement := { tool : rstr; suggestion : rstr; rationale : rstr }.

Inductive RawFidelityReason := Binary | Checksum | MachineProtocol | CompleteLog | FullPatch | VerbatimSource.

Inductive RawFidelityRequest :=
| NotRequested
| MissingReason
| InvalidReason
| Authorized (reason : RawFidelityReason) (payload : rstr).

Record FidelityBudget := { remaining_operations : N; remaining_tokens : N; exhausted : bool }.

Inductive FidelityPreflight :=
| PreflightNotRequested
| Allow (e : EvasionAttribution) (output_tokens_upper_bound : N)
| Ask (e : EvasionAttribution) (reason : rstr).

Record OperationClassification := {
  route : OperationRoute;
  subsystem : OperationSubsystem;
  operation_name : rstr;
  replacement : option RawReplacement;
}.

(** ** Words and wrappers *)

Definition is_blank (c : char) : bool := (c =? 32) || (c =? 9).
Definition is_quote (c : char) : bool := (c =? 39) || (c =? 34).

Definition shell_words (command : rstr) : list rstr :=
  map (trim_matches is_quote) (split_whitespace command).

Definition unambiguous_shell_command (command : rstr) : bool :=
  negb (existsb (fun c => existsb (N.eqb c)
    [39; 34; 92; 96; 36; 124; 38; 59; 60; 62; 42; 63; 91; 93; 40; 41; 123; 125; 33; 35; 10; 13]) command).

Fixpoint skip_words (f : rstr -> bool) (words : list rstr) : list rstr :=
  match words with
  | w :: rest => if f w then skip_words f rest else words
  | [] => []
  end.

Definition strip_wrappers (words : list rstr) : list rstr := skip_words (fun w => one_of w WRAPPERS) words.

(** The two words of a fallback prefix, against the first two words. *)
Definition is_fallback (words : list rstr) (prefix : rstr) : bool :=
  match words, split_char (N.eqb 32) prefix with
  | w0 :: w1 :: _, p0 :: p1 :: _ => str_eqb w0 p0 && str_eqb (trim_end_matches (N.eqb (ch ":")) w1) p1
  | _, _ => false
  end.

Definition strip_bypass_prefix (words : list rstr) : OperationRoute * list rstr :=
  if existsb (is_fallback words) BYPASS_FALLBACK_PREFIXES then (Bypassed, drop 2 words)
  else match strip_wrappers words with
       | w :: rest => if one_of w BYPASS_MARKERS then (Bypassed, rest) else (Optimized, words)
       | [] => (Optimized, words)
       end.

Definition is_assignment (word : rstr) : bool :=
  contains_char (ch "=") word && negb (starts_with (lit "=") word) && negb (starts_with (lit "-") word).

(** The loop of [strip_execution_wrappers]; every turn but the last drops a word. *)
Fixpoint strip_launchers (fuel : nat) (words : list rstr) : list rstr :=
  match fuel with
  | O => words
  | S fuel =>
      let words := skip_words is_assignment words in
      match words with
      | w :: rest =>
          if str_eqb w (lit "env") then
            strip_launchers fuel (skip_words (fun w => starts_with (lit "-") w || contains_char (ch "=") w) rest)
          else if one_of w [lit "command"; lit "nohup"; lit "sudo"] then strip_launchers fuel rest
          else if one_of w [lit "sh"; lit "bash"; lit "zsh"] then
            match rest with
            | c :: rest => if str_eqb c (lit "-c") then strip_launchers fuel rest else words
            | [] => words
            end
          else words
      | [] => words
      end
  end.

Definition strip_execution_wrappers (words : list rstr) : list rstr :=
  let words := strip_wrappers words in
  let words :=
    match words with
    | e :: r :: rest => if str_eqb e (lit "exec") && str_eqb r (lit "run") then rest else words
    | _ => words
    end in
  strip_launchers (S (length words)) words.

Definition operation_identity (head : rstr) : rstr :=
  let head := default head (file_name head) in
  let identity := take 32 (List.filter (fun c => is_ascii_alphanumeric c || (c =? ch "-") || (c =? ch "_")) head) in
  if is_empty identity then lit "operation" else identity.

Definition optimized_subsystem (head : rstr) : OperationSubsystem :=
  if one_of head [lit "read"; lit "cat"; lit "head"; lit "tail"; lit "nl"] then Read
  else if one_of head [lit "write"; lit "edit"; lit "patch"; lit "replace"] then Write
  else if one_of head [lit "grep"; lit "rg"; lit "rgai"; lit "search"; lit "find"; lit "glob"] then Search
  else if one_of head [lit "memory"; lit "recall"; lit "store"] then Memory
  else if str_eqb head (lit "codec") then Codec
  else Execution.

(** ** Requests for exact output *)

Definition parse_raw_fidelity_reason (value : rstr) : option RawFidelityReason :=
  if str_eqb value (lit "binary") then Some Binary
  else if str_eqb value (lit "checksum") then Some Checksum
  else if str_eqb value (lit "machine_protocol") then Some MachineProtocol
  else if str_eqb value (lit "complete_log") then Some CompleteLog
  else if str_eqb value (lit "full_patch") then Some FullPatch
  else if str_eqb value (lit "verbatim_source") then Some VerbatimSource
  else None.

(** [command.strip_prefix(word)], when a blank or nothing follows. *)
Definition command_suffix (command word : rstr) : option rstr :=
  match strip_prefix word command with
  | Some [] => Some []
  | Some (c :: suffix) => if is_blank c then Some (c :: suffix) else None
  | None => None
  end.

Definition exact_fidelity_command (command : rstr) : bool * rstr :=
  let command := trim_start_matches is_blank command in
  match strip_prefix (lit "HZR_EXACT_FIDELITY=") command with
  | None => (false, command)
  | Some remainder =>
      if existsb is_blank remainder then
        let '(value, payload) := span is_blank remainder in
        (str_eqb value (lit "1"), trim_start_matches is_blank payload)
      else (false, command)
  end.

Definition raw_payload_behind (command prefix : rstr) : option rstr :=
  match strip_prefix prefix command with
  | Some (c :: payload) => if is_blank c && negb (is_empty (trim payload)) then Some payload else None
  | _ => None
  end.

Definition managed_raw_payload (command : rstr) : option rstr :=
  let command := trim_start_matches is_blank command in
  head (omap (raw_payload_behind command) BYPASS_PREFIXES).

(** The loop over the leading marker words of [raw_fidelity_request]: what is
    left, whether exact output is requested, the reason and its validity. *)
Fixpoint fidelity_markers (fuel : nat) (rest : rstr) (requested : bool)
    (reason : option RawFidelityReason) (invalid : bool) : rstr * bool * option RawFidelityReason * bool :=
  match fuel with
  | O => (rest, requested, reason, invalid)
  | S fuel =>
      let '(word, behind) := span is_blank rest in
      let next := trim_start_matches is_blank behind in
      if str_eqb word (lit "HZR_RAW_FIDELITY=1") then fidelity_markers fuel next true reason invalid
      else match strip_prefix (lit "HZR_RAW_FIDELITY_REASON=") word with
           | Some value =>
               match parse_raw_fidelity_reason value, reason with
               | Some value, None => fidelity_markers fuel next requested (Some value) invalid
               | _, _ => fidelity_markers fuel next requested reason true
               end
           | None => (rest, requested, reason, invalid)
           end
  end.

Definition raw_fidelity_request (command : rstr) : RawFidelityRequest :=
  let rest := trim_start_matches is_blank command in
  let '(rest, requested, reason, invalid) := fidelity_markers (S (length rest)) rest false None false in
  match managed_raw_payload rest with
  | None => NotRequested
  | Some payload =>
      if negb requested then NotRequested
      else if invalid then InvalidReason
      else match reason with Some reason => Authorized reason payload | None => MissingReason end
  end.

Definition explicit_raw_fidelity (command : rstr) : bool :=
  match raw_fidelity_request command with Authorized _ _ => true | _ => false end.

Definition fidelity_preflight_required (command : rstr) : bool :=
  match raw_fidelity_request command with NotRequested => (exact_fidelity_command command).1 | _ => true end.

(** ** Replacements *)

Definition is_direct_hzr_command (command : rstr) : bool :=
  let '(_, command) := exact_fidelity_command command in
  bool_decide (is_Some (command_suffix (trim_start_matches is_blank command) (lit "hzr"))).

Definition direct_hzr_alias_replacement (command : rstr) : option RawReplacement :=
  let command := trim_start_matches is_blank command in
  let '(_, candidate) := exact_fidelity_command command in
  arguments ← command_suffix candidate (lit "hzr");
  let arguments := trim_start_matches is_blank arguments in
  if existsb (fun subcommand => bool_decide (is_Some (command_suffix arguments subcommand))) [lit "read"; lit "write"]
  then Some {| tool := lit "hzr"; suggestion := command;
               rationale := lit "the command already uses a typed top-level HZR file operation" |}
  else None.

Definition managed_hzr_replacement (command : rstr) : option RawReplacement :=
  payload ← match raw_fidelity_request command with
            | Authorized _ payload => Some payload
            | _ => managed_raw_payload command
            end;
  let payload := trim_start_matches is_blank payload in
  _ ← command_suffix payload (lit "hzr");
  match managed_raw_payload payload with
  | Some _ => None
  | None => Some {| tool := lit "hzr"; suggestion := payload;
                    rationale := lit "the payload is already a first-class HZR command and needs no raw proxy" |}
  end.

Definition first_class_replacement (command : rstr) : option RawReplacement :=
  match direct_hzr_alias_replacement command with
  | Some r => Some r
  | None => managed_hzr_replacement command
  end.

(** ** Classification *)

(** The words the classification looks at. *)
Definition payload_words (words : list rstr) : OperationRoute * list rstr :=
  let '(route, payload) := strip_bypass_prefix words in
  (route, match route with
          | Bypassed => strip_execution_wrappers payload
          | Optimized => strip_execution_wrappers (strip_wrappers payload)
          | NativeUnaccounted => payload
          end).

(** [NativeUnaccounted] is unreachable: see [payload_words_route]. *)
Definition classify_operation (command : rstr) : OperationClassification :=
  let '(route, payload) := payload_words (shell_words command) in
  let head := default [] (head payload) in
  {| route := route;
     subsystem := match route with Optimized => optimized_subsystem head | _ => Bypass end;
     operation_name := operation_identity head;
     replacement := match route with Optimized => None | _ => managed_hzr_replacement command end |}.

(** The fragment of SQL that selects the bypassed rows of a column, and its
    clauses. *)
Definition raw_route_clauses (column : rstr) : list rstr :=
  concat (map (fun prefix => [column ++ lit " = '" ++ prefix ++ lit "'";
                              column ++ lit " LIKE '" ++ prefix ++ lit " %'"]) BYPASS_PREFIXES)
  ++ map (fun prefix => column ++ lit " LIKE '" ++ prefix ++ lit "%'") BYPASS_FALLBACK_PREFIXES.

Definition raw_route_sql_predicate (column : rstr) : rstr := join (lit " OR ") (raw_route_clauses column).

(** ** What may be shown of a command *)

Definition SUBCOMMAND_TOOLS : list rstr :=
  [lit "hzr"; lit "rtk"; lit "git"; lit "gh"; lit "cargo"; lit "rustup"; lit "bun"; lit "npm"; lit "pnpm";
   lit "yarn"; lit "npx"; lit "bunx"; lit "docker"; lit "podman"; lit "kubectl"; lit "helm"; lit "go"; lit "pip";
   lit "pip3"; lit "uv"; lit "poetry"; lit "brew"; lit "apt"; lit "systemctl"; lit "launchctl"; lit "make";
   lit "just"; lit "task"; lit "gradle"; lit "mvn"; lit "dotnet"; lit "terraform"; lit "aws"; lit "gcloud";
   lit "az"; lit "flutter"; lit "swift"; lit "xcodebuild"; lit "icm"; lit "grepai"; lit "native"].

Definition COMMAND_SUMMARY_MAX_CHARS : nat := 64.
Definition COMMAND_SUMMARY_MAX_PARTS : nat := 6.

(** What follows the first [;] or [&&], whichever comes first. *)
Definition behind_separator (rest : rstr) : option rstr :=
  match split_once (lit ";") rest, split_once (lit "&&") rest with
  | Some (a, x), Some (b, y) => Some (if (blen b <? blen a)%nat then y else x)
  | Some (_, x), None => Some x
  | None, Some (_, y) => Some y
  | None, None => None
  end.

Fixpoint skip_cd_loop (fuel : nat) (rest : rstr) : rstr :=
  match fuel with
  | O => rest
  | S fuel =>
      if one_of (default [] (head (split_whitespace rest))) [lit "cd"; lit "pushd"] then
        match behind_separator rest with
        | None => rest
        | Some behind =>
            let rest := trim_start behind in
            if is_empty rest then rest else skip_cd_loop fuel rest
        end
      else rest
  end.

Definition skip_leading_cd (command : rstr) : rstr :=
  let rest := trim_start command in skip_cd_loop (S (length rest)) rest.

Definition subcommand_char (c : char) : bool := is_ascii_alphanumeric c || (c =? ch "-") || (c =? ch "_").

Definition is_subcommand_word (word : rstr) : bool :=
  negb (is_empty word) && (blen word <=? 20)%nat
  && match word with c :: _ => is_ascii_alphabetic c | [] => false end
  && forallb subcommand_char word.

Definition ends_the_command (word : rstr) : bool :=
  existsb (fun c => existsb (N.eqb c) [124; 59; 38; 60; 62; 96; 36]) word.

(** The name of a flag: what [split('=').next()] leaves, filtered and cut. *)
Definition flag_name (flag : rstr) : rstr :=
  take 24 (List.filter (fun c => is_ascii_alphanumeric c || (c =? ch "-"))
    (default [] (head (split_char (N.eqb (ch "=")) flag)))).

(** The loop over the words behind the program. *)
Fixpoint summary_parts (takes_subcommands : bool) (words parts : list rstr) (subcommands : nat) (seen_flag : bool)
  : list rstr :=
  match words with
  | [] => parts
  | word :: words =>
      if ends_the_command word then parts
      else
        let '(parts, subcommands, seen_flag) :=
          match strip_prefix (lit "-") word with
          | Some flag =>
              let flag := flag_name flag in
              (if is_empty flag then parts else parts ++ [lit "-" ++ flag], subcommands, true)
          | None =>
              if takes_subcommands && negb seen_flag && (subcommands <? 2)%nat && is_subcommand_word word
              then (parts ++ [word], S subcommands, seen_flag)
              else (parts, subcommands, seen_flag)
          end in
        if (COMMAND_SUMMARY_MAX_PARTS <=? length parts)%nat then parts
        else summary_parts takes_subcommands words parts subcommands seen_flag
  end.

Definition command_summary (command : rstr) : option rstr :=
  match (payload_words (shell_words (skip_leading_cd command))).2 with
  | [] => None
  | head :: words =>
      let program := operation_identity head in
      Some (take COMMAND_SUMMARY_MAX_CHARS
        (join (lit " ") (summary_parts (one_of program SUBCOMMAND_TOOLS) words [program] 0 false)))
  end.

(** ** The preflight of exact output *)

Definition protocol_fidelity_reason (reason : RawFidelityReason) : FidelityReason.t :=
  match reason with
  | Binary => FidelityReason.Binary
  | Checksum => FidelityReason.Checksum
  | MachineProtocol => FidelityReason.MachineProtocol
  | CompleteLog => FidelityReason.CompleteLog
  | FullPatch => FidelityReason.FullPatch
  | VerbatimSource => FidelityReason.VerbatimSource
  end.

Definition hatch_evasion (reason : option FidelityReason.t) (validation : FidelityValidation.t) (avoid : bool)
  : EvasionAttribution :=
  {| class := EvasionClass.E7FidelityHatch; wrapper_depth := 1; interpreter := None;
     path_form := EvasionPathForm.Bare; stage_count := 1; hatch_marker := true; avoidable := avoid;
     tier := EnforcementTier.T4HatchQuarantine; fidelity_reason := reason; fidelity_validation := validation |}.

Definition fidelity_evasion (reason : RawFidelityReason) (validation : FidelityValidation.t) (avoid : bool) :=
  hatch_evasion (Some (protocol_fidelity_reason reason)) validation avoid.

Definition fidelity_evasion_without_reason (validation : FidelityValidation.t) :=
  hatch_evasion None validation true.

Definition checksum_output_upper_bound (payload : rstr) : option N :=
  if negb (unambiguous_shell_command payload) then None
  else match strip_wrappers (shell_words payload) with
       | [] => None
       | _ :: arguments =>
           let targets := length (List.filter
             (fun word => negb (starts_with (lit "-") word) && negb (str_eqb word (lit "dgst"))) arguments) in
           Some (sat_add u64_max (slen payload) (N.min (N.max (N.of_nat targets) 1 * 160) u64_max))
       end.

(** The operands of a local reader: its byte cap and its one path. *)
Fixpoint reader_operands (tool : rstr) (fuel : nat) (words : list rstr) (byte_cap : option N) (path : option rstr)
  : option (option N * option rstr) :=
  match fuel, words with
  | S fuel, word :: rest =>
      if one_of word [lit "--level"; lit "--from"; lit "--to"] then reader_operands tool fuel (tail rest) byte_cap path
      else if str_eqb word (lit "-n") then
        reader_operands tool fuel (if one_of tool [lit "head"; lit "tail"] then tail rest else rest) byte_cap path
      else if one_of word [lit "-c"; lit "--bytes"] then
        match rest with
        | value :: rest => cap ← parse_unsigned u64_max value; reader_operands tool fuel rest (Some cap) path
        | [] => None
        end
      else match strip_prefix (lit "--bytes=") word with
           | Some value => cap ← parse_unsigned u64_max value; reader_operands tool fuel rest (Some cap) path
           | None =>
               if starts_with (lit "-") word then None
               else match path with
                    | Some _ => None
                    | None => reader_operands tool fuel rest byte_cap (Some word)
                    end
           end
  | _, _ => Some (byte_cap, path)
  end.

Definition absolute_path (cwd path : rstr) : rstr :=
  if starts_with (lit "/") path then path else path_join cwd path.

Section Preflight.
(** The length of the regular file at a path ([None] for anything else), and
    what one [read] of at most so many bytes gives. *)
Context (metadata : rstr -> option N) (read_sample : rstr -> N -> option (list N)).

Definition local_reader_bound (payload cwd : rstr) : option (rstr * N) :=
  if negb (unambiguous_shell_command payload) then None
  else match strip_wrappers (shell_words payload) with
       | [] => None
       | tool :: words =>
           if negb (one_of tool [lit "cat"; lit "read"; lit "head"; lit "tail"]) then None
           else
             '(byte_cap, path) ← reader_operands tool (length words) words None None;
             path ← path;
             let path := absolute_path cwd path in
             len ← metadata path;
             Some (path, match byte_cap with Some cap => N.min len cap | None => len end)
       end.

Definition local_reader_output_upper_bound (payload cwd : rstr) : option N := snd <$> local_reader_bound payload cwd.

Definition local_reader_is_binary (payload cwd : rstr) : bool :=
  match local_reader_bound payload cwd with
  | None => false
  | Some (path, bytes) =>
      match read_sample path (N.min bytes (8 * 1024)) with
      | Some sample => existsb (N.eqb 0) sample
      | None => false
      end
  end.

Definition raw_fidelity_reason_fits (reason : RawFidelityReason) (payload cwd : rstr) : bool :=
  let payload_words := strip_wrappers (shell_words payload) in
  let tool_is names := match payload_words with w :: _ => one_of w names | [] => false end in
  match reason with
  | Checksum =>
      unambiguous_shell_command payload
      && (tool_is [lit "sha256sum"; lit "sha512sum"; lit "shasum"; lit "md5sum"; lit "md5"; lit "b2sum"; lit "cksum"]
          || tool_is [lit "openssl"]
             && match payload_words with _ :: w :: _ => str_eqb w (lit "dgst") | _ => false end)
  | MachineProtocol =>
      existsb (fun w => one_of w [lit "--json"; lit "--csv"; lit "--porcelain"; lit "-0"; lit "--null"]) payload_words
  | CompleteLog => existsb (fun w => one_of w [lit "log"; lit "logs"]) payload_words
  | FullPatch => existsb (fun w => one_of w [lit "diff"; lit "patch"]) payload_words
  | Binary =>
      tool_is [lit "file"; lit "xxd"; lit "hexdump"; lit "base64"] || local_reader_is_binary payload cwd
  | VerbatimSource => bool_decide (is_Some (local_reader_output_upper_bound payload cwd))
  end.

Definition fidelity_output_tokens_upper_bound (reason : RawFidelityReason) (payload cwd : rstr) : option N :=
  bytes ← match reason with
          | Checksum => checksum_output_upper_bound payload
          | Binary | VerbatimSource => local_reader_output_upper_bound payload cwd
          | MachineProtocol | CompleteLog | FullPatch => None
          end;
  Some (sat_add u64_max bytes 3 / 4).

(** From the reason and the payload on: the common end of [fidelity_preflight]. *)
Definition preflight_of (reason : RawFidelityReason) (payload cwd : rstr) (budget : option FidelityBudget)
  : FidelityPreflight :=
  if negb (raw_fidelity_reason_fits reason payload cwd)
  then Ask (fidelity_evasion reason FidelityValidation.Contradicted true)
         (lit "T4 fidelity reason is contradicted by the requested command")
  else
    let evasion := fidelity_evasion reason FidelityValidation.Valid false in
    match fidelity_output_tokens_upper_bound reason payload cwd with
    | None => Ask evasion (lit "T4 exact output is remote, non-file, or otherwise not statically bounded")
    | Some bound =>
        match budget with
        | None => Ask evasion (lit "T4 fidelity preflight cannot audit the per-session allowance")
        | Some budget =>
            if exhausted budget || (remaining_operations budget =? 0) || (remaining_tokens budget <? bound)
            then Ask (fidelity_evasion reason FidelityValidation.BudgetExhausted true)
                   (lit "T4 exact output upper bound is " ++ dec bound ++ lit " tokens; remaining allowance is "
                    ++ dec (remaining_operations budget) ++ lit " operation(s) and "
                    ++ dec (remaining_tokens budget) ++ lit " tokens")
            else Allow evasion bound
        end
    end.

Definition fidelity_preflight (command cwd : rstr) (budget : option FidelityBudget) : FidelityPreflight :=
  match raw_fidelity_request command with
  | Authorized reason payload => preflight_of reason payload cwd budget
  | MissingReason =>
      Ask (fidelity_evasion_without_reason FidelityValidation.MissingReason)
        (lit "HZR_RAW_FIDELITY=1 requires a closed HZR_RAW_FIDELITY_REASON")
  | InvalidReason =>
      Ask (fidelity_evasion_without_reason FidelityValidation.InvalidReason)
        (lit "HZR_RAW_FIDELITY_REASON is not an allowed fidelity reason")
  | NotRequested =>
      let '(exact, payload) := exact_fidelity_command command in
      if exact then preflight_of VerbatimSource payload cwd budget else PreflightNotRequested
  end.
End Preflight.

(** ** Blanks and words *)

Lemma trim_blank_sub f s : exists w, s = w ++ trim_start_matches f s /\ forallb f w = true.
Proof. apply skip_while_suffix. Qed.

Lemma trim_start_idem f s : trim_start_matches f (trim_start_matches f s) = trim_start_matches f s.
Proof.
  unfold trim_start_matches. induction s as [|c s IH]; simpl; [done|].
  destruct (f c) eqn:E; [done|]. simpl. by rewrite E.
Qed.

Lemma trim_start_head f s c t : trim_start_matches f s = c :: t -> f c = false.
Proof.
  unfold trim_start_matches. induction s as [|d s IH]; simpl; [done|].
  destruct (f d) eqn:E; [done|]. by intros [= -> ->].
Qed.

Lemma trim_start_id f c t : f c = false -> trim_start_matches f (c :: t) = c :: t.
Proof. unfold trim_start_matches. simpl. by intros ->. Qed.

Lemma command_suffix_Some command word suffix :
  command_suffix command word = Some suffix <->
  command = word ++ suffix /\ (suffix = [] \/ exists c t, suffix = c :: t /\ is_blank c = true).
Proof.
  unfold command_suffix. destruct (strip_prefix word command) as [x|] eqn:E.
  - apply strip_prefix_Some in E as ->. destruct x as [|c x].
    + split; [intros [= <-]; eauto|]. intros [H _]. apply app_inv_head in H. by subst.
    + destruct (is_blank c) eqn:Ec.
      * split; [intros [= <-]; eauto 10|]. intros [H _]. apply app_inv_head in H. by subst.
      * split; [done|]. intros [H Hs]. apply app_inv_head in H. subst.
        destruct Hs as [?|(d & t & [= -> ->] & H)]; [done|congruence].
  - split; [done|]. intros [H _]. apply strip_prefix_Some in H. congruence.
Qed.

Lemma existsb_app_true {A} (f : A -> bool) x y : existsb f (x ++ y) = existsb f x || existsb f y.
Proof. apply List.existsb_app. Qed.

(** ** Summaries *)

Definition flag_char (c : char) : bool := is_ascii_alphanumeric c || (c =? ch "-").
Definition is_flag (part : rstr) : Prop :=
  exists flag, part = lit "-" ++ flag /\ flag <> [] /\ (length flag <= 24)%nat /\ forallb flag_char flag = true.

Lemma filter_forallb {A} (f : A -> bool) l : forallb f (List.filter f l) = true.
Proof. apply forallb_forall. intros x [_ H]%List.filter_In. exact H. Qed.

Lemma forallb_take {A} (f : A -> bool) n l : forallb f l = true -> forallb f (take n l) = true.
Proof.
  intros H. rewrite <- (take_drop n l), forallb_app in H. by apply andb_true_iff in H as [? _].
Qed.

Lemma flag_name_spec flag :
  (length (flag_name flag) <= 24)%nat /\ forallb flag_char (flag_name flag) = true.
Proof.
  unfold flag_name. rewrite length_take. split; [lia|]. apply forallb_take, (filter_forallb flag_char).
Qed.

Lemma operation_identity_spec head :
  operation_identity head <> [] /\ (length (operation_identity head) <= 32)%nat /\
  forallb subcommand_char (operation_identity head) = true.
Proof.
  unfold operation_identity. set (i := take 32 _).
  assert (length i <= 32)%nat by (unfold i; rewrite length_take; lia).
  assert (forallb subcommand_char i = true) by apply forallb_take, (filter_forallb subcommand_char).
  destruct i; simpl; [|done]. split_and!; [done | lia | done].
Qed.

(** The parts of a summary: the program, at most two subcommands, then flags. *)
Definition summary_shape (takes : bool) (program : rstr) (subs flags : list rstr) : Prop :=
  Forall (fun w => is_subcommand_word w = true) subs /\ (length subs <= 2)%nat /\
  (takes = false -> subs = []) /\ Forall is_flag flags /\ (length subs + length flags <= 5)%nat.

Lemma summary_parts_shape takes program words : forall subs flags seen,
  summary_shape takes program subs flags -> (seen = false -> flags = []) ->
  (length subs + length flags < 5)%nat ->
  exists subs' flags',
    summary_parts takes words (program :: subs ++ flags) (length subs) seen = program :: subs' ++ flags' /\
    summary_shape takes program subs' flags'.
Proof.
  induction words as [|word words IH]; intros subs flags seen Hs Hseen Hlen; cbn [summary_parts]; [eauto|].
  destruct (ends_the_command word); [eauto|]. destruct Hs as (H1 & H2 & H3 & H4 & H5).
  assert (forall x y : list rstr, (COMMAND_SUMMARY_MAX_PARTS <=? length (program :: x ++ y))%nat
    = negb (length x + length y <? 5)%nat) as Hfull.
  { intros x y. unfold COMMAND_SUMMARY_MAX_PARTS. cbn [length]. rewrite length_app. lia. }
  destruct (strip_prefix (lit "-") word) as [flag|].
  - destruct (flag_name_spec flag) as [Hl Hc]. destruct (flag_name flag) as [|c f] eqn:Ef; cbn [is_empty].
    + rewrite Hfull. destruct (Nat.ltb_spec (length subs + length flags) 5); [|lia]. simpl.
      apply IH; [split_and!; done | done | done].
    + change ((program :: subs ++ flags) ++ [lit "-" ++ c :: f]) with (program :: (subs ++ flags) ++ [lit "-" ++ c :: f]).
      rewrite <- app_assoc, Hfull, length_app.
      assert (summary_shape takes program subs (flags ++ [lit "-" ++ c :: f])) as Hs'.
      { split_and!; [done | done | done | | rewrite length_app; simpl; lia].
        apply Forall_app. split; [done|]. constructor; [|constructor]. by exists (c :: f). }
      destruct (Nat.ltb_spec (length subs + (length flags + length [lit "-" ++ c :: f])) 5) as [Hlt|]; cbn [negb]; [|eauto].
      apply IH; [done | done | rewrite length_app; exact Hlt].
  - destruct (takes && negb seen && (length subs <? 2)%nat && is_subcommand_word word) eqn:E.
    + apply andb_true_iff in E as [E Hw]. apply andb_true_iff in E as [E Hl2].
      apply andb_true_iff in E as [Ht Hsn]. apply negb_true_iff in Hsn. rewrite (Hseen Hsn) in *.
      rewrite !app_nil_r. change ((program :: subs) ++ [word]) with (program :: subs ++ [word]).
      pose proof (Hfull (subs ++ [word]) []) as Hf'. rewrite app_nil_r in Hf'. rewrite Hf'.
      apply Nat.ltb_lt in Hl2.
      assert (summary_shape takes program (subs ++ [word]) []) as Hs'.
      { rewrite Ht in *. split_and!; [by apply Forall_app; split; [|repeat constructor] | | done | done |];
          rewrite length_app; simpl in *; lia. }
      destruct (Nat.ltb_spec (length (subs ++ [word]) + length (@nil rstr)) 5); cbn [negb];
        [|exists (subs ++ [word]), []; by rewrite app_nil_r].
      replace (S (length subs)) with (length (subs ++ [word])) by (rewrite length_app; simpl; lia).
      specialize (IH (subs ++ [word]) [] seen). rewrite app_nil_r in IH. by apply IH.
    + rewrite Hfull. destruct (Nat.ltb_spec (length subs + length flags) 5); [|lia]. simpl.
      apply IH; [split_and!; done | done | done].
Qed.

Definition summary_char (c : char) : bool := subcommand_char c || (c =? 32).

Lemma join_chars f (ws : list rstr) sep :
  forallb f sep = true -> Forall (fun w => forallb f w = true) ws -> forallb f (join sep ws) = true.
Proof.
  intros Hsep. induction 1 as [|w ws Hw Hws IH]; [done|]. simpl. destruct ws; [done|].
  by rewrite !forallb_app, Hw, Hsep, IH.
Qed.

Lemma forallb_weaken {A} (f g : A -> bool) l :
  (forall x, f x = true -> g x = true) -> forallb f l = true -> forallb g l = true.
Proof. intros Hfg. rewrite !forallb_forall. eauto. Qed.

Lemma summary_shape_chars takes program subs flags :
  summary_shape takes program subs flags -> forallb subcommand_char program = true ->
  forallb summary_char (join (lit " ") (program :: subs ++ flags)) = true.
Proof.
  intros (H1 & _ & _ & H4 & _) Hp.
  assert (forall s, forallb subcommand_char s = true -> forallb summary_char s = true) as Hw.
  { intros s. apply forallb_weaken. intros c. unfold summary_char. lia. }
  apply join_chars; [done|]. constructor; [by apply Hw|]. apply Forall_app. split.
  - eapply Forall_impl; [exact H1|]. intros w Hs. apply Hw. unfold is_subcommand_word in Hs.
    by apply andb_true_iff in Hs as [_ ->].
  - eapply Forall_impl; [exact H4|]. intros w (flag & -> & _ & _ & Hc). apply Hw. rewrite forallb_app. simpl.
    revert Hc. apply forallb_weaken. intros c. unfold flag_char, subcommand_char. lia.
Qed.

(** ** Replacements *)

Lemma raw_payload_behind_Some command prefix payload :
  raw_payload_behind command prefix = Some payload ->
  exists c, command = prefix ++ c :: payload /\ is_blank c = true /\ trim payload <> [].
Proof.
  unfold raw_payload_behind. destruct (strip_prefix prefix command) as [ [|c rest]|] eqn:E; try done.
  destruct (is_blank c && _) eqn:Ec; [|done]. intros [= <-]. bool_prop. apply strip_prefix_Some in E.
  exists c. split_and!; [done | done |]. intros Ht. rewrite Ht in *. done.
Qed.

Lemma managed_raw_payload_Some command payload :
  managed_raw_payload command = Some payload ->
  exists w prefix c, command = w ++ prefix ++ c :: payload /\ forallb is_blank w = true /\
    prefix ∈ BYPASS_PREFIXES /\ is_blank c = true.
Proof.
  unfold managed_raw_payload. intros H.
  assert (payload ∈ omap (raw_payload_behind (trim_start_matches is_blank command)) BYPASS_PREFIXES) as Hin.
  { destruct (omap _ _) as [|x l]; [done|]. injection H as ->. by left. }
  apply list_elem_of_omap in Hin as (prefix & Hp & (c & Hc & Hb & _)%raw_payload_behind_Some).
  destruct (trim_blank_sub is_blank command) as (w & Hw & Hwb). exists w, prefix, c. by rewrite <- Hc.
Qed.

Lemma fidelity_markers_suffix fuel : forall rest requested reason invalid,
  exists w, rest = w ++ (fidelity_markers fuel rest requested reason invalid).1.1.1.
Proof.
  induction fuel as [|fuel IH]; intros rest requested reason invalid; cbn [fidelity_markers]; [by exists []|].
  destruct (RStr.span is_blank rest) as [word behind] eqn:Es. apply span_app in Es.
  destruct (trim_blank_sub is_blank behind) as (w & Hw & _).
  assert (forall q r i, exists w', rest = w' ++ (fidelity_markers fuel (trim_start_matches is_blank behind) q r i).1.1.1)
    as Hnext.
  { intros q r i. destruct (IH (trim_start_matches is_blank behind) q r i) as (w' & Hw').
    exists (word ++ w ++ w'). rewrite Es, Hw at 1. rewrite Hw' at 1. by rewrite <- !app_assoc. }
  destruct (str_eqb word _); [apply Hnext|]. destruct (strip_prefix _ word) as [value|]; [|by exists []].
  destruct (parse_raw_fidelity_reason value), reason; apply Hnext.
Qed.

Lemma raw_fidelity_request_payload command reason payload :
  raw_fidelity_request command = Authorized reason payload -> exists w, command = w ++ payload.
Proof.
  unfold raw_fidelity_request. destruct (trim_blank_sub is_blank command) as (w & Hw & _).
  set (rest0 := trim_start_matches is_blank command) in *.
  destruct (fidelity_markers_suffix (S (length rest0)) rest0 false None false) as (w1 & Hw1).
  destruct (fidelity_markers _ rest0 _ _ _) as [ [ [rest q] r] i]. simpl in Hw1.
  destruct (managed_raw_payload rest) as [p|] eqn:Em; [|done].
  destruct (negb q); [done|]. destruct i; [done|]. destruct r as [r|]; [|done]. intros [= -> ->].
  apply managed_raw_payload_Some in Em as (w2 & prefix & c & Em & _).
  exists (w ++ w1 ++ w2 ++ prefix ++ [c]). rewrite Hw, Hw1 at 1. rewrite Em at 1. by rewrite <- !app_assoc.
Qed.

Definition hzr_word (s : rstr) : Prop := is_Some (command_suffix s (lit "hzr")).

Lemma hzr_word_cons s : hzr_word s -> exists t, s = ch "h" :: ch "z" :: ch "r" :: t.
Proof. intros [suffix [-> _]%command_suffix_Some]. by exists suffix. Qed.

Lemma hzr_word_trimmed s : hzr_word s -> trim_start_matches is_blank s = s.
Proof. intros (t & ->)%hzr_word_cons. by apply trim_start_id. Qed.

(** A command that begins with [hzr] carries no marker. *)
Lemma hzr_word_exact s : hzr_word s -> exact_fidelity_command s = (false, s).
Proof.
  intros H. unfold exact_fidelity_command. rewrite (hzr_word_trimmed s H).
  by apply hzr_word_cons in H as (t & ->).
Qed.

Lemma span_prefix f c d e t : f c = false -> f d = false -> f e = false ->
  exists w, (RStr.span f (c :: d :: e :: t)).1 = c :: d :: e :: w.
Proof.
  intros Hc Hd He. cbn [RStr.span]. rewrite Hc, Hd, He. destruct (RStr.span f t) as [w b]. by exists w.
Qed.

Lemma hzr_word_request s : hzr_word s -> managed_raw_payload s = None -> raw_fidelity_request s = NotRequested.
Proof.
  intros H Hm. unfold raw_fidelity_request. rewrite (hzr_word_trimmed s H). cbn [fidelity_markers].
  apply hzr_word_cons in H as (t & ->).
  destruct (span_prefix is_blank (ch "h") (ch "z") (ch "r") t) as (w & Hw); [done..|].
  destruct (RStr.span is_blank _) as [word behind]. simpl in Hw. subst word.
  unfold str_eqb. rewrite bool_decide_eq_false_2 by done.
  change (strip_prefix (lit "HZR_RAW_FIDELITY_REASON=") (ch "h" :: ch "z" :: ch "r" :: w)) with (@None rstr).
  cbv beta iota zeta. by rewrite Hm.
Qed.

Lemma managed_raw_payload_None command :
  (forall prefix t, prefix ∈ BYPASS_PREFIXES -> trim_start_matches is_blank command <> prefix ++ t) ->
  managed_raw_payload command = None.
Proof.
  intros H. unfold managed_raw_payload. destruct (head _) as [payload|] eqn:E; [|done].
  assert (payload ∈ omap (raw_payload_behind (trim_start_matches is_blank command)) BYPASS_PREFIXES) as Hin.
  { destruct (omap _ _) as [|x l]; [done|]. injection E as ->. by left. }
  apply list_elem_of_omap in Hin as (prefix & Hp & (c & Hc & _)%raw_payload_behind_Some).
  by eapply H in Hp.
Qed.

(** [hzr read] and [hzr write] are no bypasses, however they are spaced. *)
Lemma typed_alias_not_managed s arguments sub :
  command_suffix s (lit "hzr") = Some arguments -> sub ∈ [lit "read"; lit "write"] ->
  is_Some (command_suffix (trim_start_matches is_blank arguments) sub) -> managed_raw_payload s = None.
Proof.
  intros Hs Hsub [rest Hrest]. apply managed_raw_payload_None. intros prefix t Hp.
  rewrite hzr_word_trimmed by (by exists arguments).
  apply command_suffix_Some in Hs as [-> _]. apply command_suffix_Some in Hrest as [Hrest _]. intros E.
  assert (forallb (fun p => match strip_prefix (lit "hzr ") p with
    | Some (c :: d :: _) => negb (is_blank c) && negb ((c =? ch "r") && (d =? ch "e")) && negb (c =? ch "w")
    | Some _ => false | None => negb (starts_with (lit "h") p) && negb (is_empty p) end) BYPASS_PREFIXES = true) as Hall
    by reflexivity.
  rewrite forallb_forall in Hall. specialize (Hall prefix ltac:(by apply list_elem_of_In)).
  destruct (strip_prefix (lit "hzr ") prefix) as [p2|] eqn:Ep.
  - apply strip_prefix_Some in Ep as ->. destruct p2 as [|c [|d p2] ]; try done. bool_prop.
    change ((lit "hzr " ++ c :: d :: p2) ++ t) with (lit "hzr" ++ 32 :: c :: d :: p2 ++ t) in E.
    apply app_inv_head in E as ->. change (trim_start_matches is_blank (32 :: ?x)) with (trim_start_matches is_blank x) in Hrest.
    rewrite trim_start_id in Hrest by done.
    repeat (apply elem_of_cons in Hsub as [->|Hsub]; [injection Hrest as -> -> _; done|]). by apply elem_of_nil in Hsub.
  - destruct prefix as [|c prefix]; [by rewrite andb_false_r in Hall|]. injection E as <- _.
    by apply andb_true_iff in Hall as [Hall _].
Qed.

(** ** Classification *)

Lemma shell_words_app a c b :
  is_whitespace c = true -> shell_words (a ++ c :: b) = shell_words a ++ shell_words b.
Proof.
  intros Hc. unfold shell_words, split_whitespace. by rewrite split_char_app, List.filter_app, map_app.
Qed.

Lemma blank_is_whitespace c : is_blank c = true -> is_whitespace c = true.
Proof. intros [->%N.eqb_eq | ->%N.eqb_eq]%orb_true_iff; reflexivity. Qed.

Lemma shell_words_blank w s : forallb is_blank w = true -> shell_words (w ++ s) = shell_words s.
Proof.
  induction w as [|c w IH]; simpl; [done|]. intros [Hc Hw]%andb_true_iff.
  change (c :: w ++ s) with ([] ++ c :: (w ++ s)). rewrite shell_words_app by by apply blank_is_whitespace.
  by rewrite IH.
Qed.

Lemma payload_words_route words : (payload_words words).1 = (strip_bypass_prefix words).1.
Proof. unfold payload_words. by destruct (strip_bypass_prefix words). Qed.

Lemma classify_route command :
  route (classify_operation command) = (strip_bypass_prefix (shell_words command)).1.
Proof.
  unfold classify_operation. rewrite <- payload_words_route. by destruct (payload_words (shell_words command)).
Qed.

Lemma strip_bypass_route words : (strip_bypass_prefix words).1 <> NativeUnaccounted.
Proof. unfold strip_bypass_prefix. repeat case_match; done. Qed.

Lemma bypass_prefix_words prefix words :
  prefix ∈ BYPASS_PREFIXES -> (strip_bypass_prefix (shell_words prefix ++ words)).1 = Bypassed.
Proof.
  intros Hp. unfold BYPASS_PREFIXES in Hp.
  repeat (apply elem_of_cons in Hp as [->|Hp]; [by destruct words|]). by apply elem_of_nil in Hp.
Qed.

Lemma prefix_is_bypassed w prefix t :
  forallb is_blank w = true -> prefix ∈ BYPASS_PREFIXES ->
  (t = [] \/ exists c u, t = c :: u /\ is_whitespace c = true) ->
  route (classify_operation (w ++ prefix ++ t)) = Bypassed.
Proof.
  intros Hw Hp Ht. rewrite classify_route, shell_words_blank by done.
  destruct Ht as [->|(c & u & -> & Hc)].
  - rewrite app_nil_r, <- (app_nil_r (shell_words prefix)). by apply bypass_prefix_words.
  - rewrite shell_words_app by done. by apply bypass_prefix_words.
Qed.

(** What a replacement owes to the command it replaces. *)
Definition keeps_the_command (command : rstr) (r : RawReplacement) : Prop :=
  (exists before, command = before ++ suggestion r) /\
  is_direct_hzr_command (suggestion r) = true /\ managed_raw_payload (suggestion r) = None /\
  (first_class_replacement (suggestion r) = None \/
   exists r', first_class_replacement (suggestion r) = Some r' /\ suggestion r' = suggestion r).

Lemma direct_alias_keeps command r :
  direct_hzr_alias_replacement command = Some r -> keeps_the_command command r.
Proof.
  intros Ed. unfold direct_hzr_alias_replacement in Ed.
  destruct (trim_blank_sub is_blank command) as (w & Hw & _). set (trimmed := trim_start_matches is_blank command) in *.
  destruct (exact_fidelity_command trimmed) as [exact candidate] eqn:Ec.
  apply bind_Some in Ed as (arguments & Ha & Ed). destruct (existsb _ _) eqn:Es; [|done]. injection Ed as <-.
  unfold keeps_the_command. cbn [suggestion]. assert (hzr_word candidate) as Hh by (by exists arguments).
  assert (trim_start_matches is_blank trimmed = trimmed) as Ht by apply trim_start_idem.
  split_and!; [by exists w | | |].
  - unfold is_direct_hzr_command. rewrite Ec, (hzr_word_trimmed _ Hh). by apply bool_decide_eq_true.
  - unfold exact_fidelity_command in Ec. rewrite Ht in Ec.
    destruct (strip_prefix (lit "HZR_EXACT_FIDELITY=") trimmed) as [rem|] eqn:Em.
    + apply managed_raw_payload_None. intros prefix t Hp. rewrite Ht. apply strip_prefix_Some in Em as ->.
      unfold BYPASS_PREFIXES in Hp.
      repeat (apply elem_of_cons in Hp as [->|Hp]; [done|]). by apply elem_of_nil in Hp.
    + injection Ec as <- <-. apply existsb_exists in Es as (sub & Hsub & Es). apply bool_decide_eq_true in Es.
      eapply typed_alias_not_managed; [exact Ha | by apply list_elem_of_In | exact Es].
  - right. eexists. split.
    + unfold first_class_replacement, direct_hzr_alias_replacement. rewrite Ht, Ec, Ha.
      cbn [mbind option_bind]. rewrite Es. reflexivity.
    + reflexivity.
Qed.

Lemma managed_replacement_keeps command r :
  managed_hzr_replacement command = Some r -> keeps_the_command command r.
Proof.
  intros Hm. unfold managed_hzr_replacement in Hm. apply bind_Some in Hm as (payload & Hp & Hm).
  apply bind_Some in Hm as (suffix & Hs & Hm). set (p := trim_start_matches is_blank payload) in *.
  destruct (managed_raw_payload p) eqn:Em; [done|]. injection Hm as <-. unfold keeps_the_command. cbn [suggestion].
  assert (hzr_word p) as Hh by (by exists suffix). split_and!.
  - assert (exists w, command = w ++ payload) as (w & ->).
    { assert (forall q, managed_raw_payload command = Some q -> exists w, command = w ++ q) as Hman.
      { intros q (w & prefix & c & -> & _)%managed_raw_payload_Some. exists (w ++ prefix ++ [c]).
        by rewrite <- !app_assoc. }
      destruct (raw_fidelity_request command) as [ | | |reason q] eqn:Er; try by apply Hman.
      injection Hp as ->. by eapply raw_fidelity_request_payload. }
    destruct (trim_blank_sub is_blank payload) as (w' & Hw' & _). exists (w ++ w').
    rewrite Hw' at 1. by rewrite <- app_assoc.
  - unfold is_direct_hzr_command. rewrite (hzr_word_exact _ Hh), (hzr_word_trimmed _ Hh). by apply bool_decide_eq_true.
  - done.
  - unfold first_class_replacement. destruct (direct_hzr_alias_replacement p) as [r'|] eqn:Er.
    + right. exists r'. split; [done|]. unfold direct_hzr_alias_replacement in Er.
      rewrite (hzr_word_trimmed _ Hh), (hzr_word_exact _ Hh) in Er. apply bind_Some in Er as (a & _ & Er).
      by destruct (existsb _ _); [injection Er as <-|].
    + left. unfold managed_hzr_replacement. by rewrite (hzr_word_request _ Hh Em), Em.
Qed.

(** ** Properties *)

(** The rows the ledger's predicate selects: [column = 'p'], [LIKE 'p %'] and
    [LIKE 'f%'], letter case aside. *)
Definition ledger_selects (command : rstr) : Prop :=
  (exists prefix, prefix ∈ BYPASS_PREFIXES /\ (command = prefix \/ exists t, command = prefix ++ lit " " ++ t)) \/
  (exists prefix t, prefix ∈ BYPASS_FALLBACK_PREFIXES /\ command = prefix ++ t).

(** A command that carries a bypass prefix of the shared list, as the ledger
    records it or behind blanks, is classified as bypassed and only then lands in
    the bypass bucket; so is every fallback fork-core records and every command
    whose payload the proxy would hand on. *)
Theorem bypasses_are_classified command :
  (forall w prefix t, command = w ++ prefix ++ t -> forallb is_blank w = true -> prefix ∈ BYPASS_PREFIXES ->
    (t = [] \/ exists c u, t = c :: u /\ is_whitespace c = true) -> route (classify_operation command) = Bypassed) /\
  (forall prefix t, prefix ∈ BYPASS_FALLBACK_PREFIXES -> command = prefix ++ lit ": " ++ t ->
    route (classify_operation command) = Bypassed) /\
  (forall payload, managed_raw_payload command = Some payload -> route (classify_operation command) = Bypassed) /\
  (subsystem (classify_operation command) = Bypass <-> route (classify_operation command) = Bypassed).
Proof.
  split_and!.
  - intros w prefix t -> Hw Hp Ht. by apply prefix_is_bypassed.
  - intros prefix t Hp ->. rewrite classify_route.
    change (prefix ++ lit ": " ++ t) with (prefix ++ [ch ":"] ++ 32 :: t). rewrite app_assoc, shell_words_app by done.
    unfold BYPASS_FALLBACK_PREFIXES in Hp.
    repeat (apply elem_of_cons in Hp as [->|Hp]; [by destruct (shell_words t)|]). by apply elem_of_nil in Hp.
  - intros payload (w & prefix & c & -> & Hw & Hp & Hc)%managed_raw_payload_Some.
    apply prefix_is_bypassed; [done | done |]. right. exists c, payload. split; [done|]. by apply blank_is_whitespace.
  - unfold classify_operation. pose proof (strip_bypass_route (shell_words command)) as Hr.
    rewrite <- payload_words_route in Hr. destruct (payload_words _) as [ [] payload]; simpl in *; try done.
    unfold optimized_subsystem. split; [|done]. by repeat case_match.
Qed.

(** The ledger's SQL predicate and the classifier do not agree: a second
    blank between the words of a prefix is a bypass to the classifier and not to
    the ledger, and a command that only starts like a fallback is one to the
    ledger and not to the classifier. *)
Theorem ledger_and_classifier_drift_apart :
  (route (classify_operation (lit "hzr  raw ls")) = Bypassed /\ ~ ledger_selects (lit "hzr  raw ls")) /\
  (ledger_selects (lit "rtk fallbacks ls") /\ route (classify_operation (lit "rtk fallbacks ls")) = Optimized).
Proof.
  split; split; [reflexivity | | | reflexivity].
  - unfold BYPASS_PREFIXES, ledger_selects. intros [(prefix & Hp & H)|(prefix & t & Hp & H)].
    + unfold BYPASS_PREFIXES in Hp.
      repeat (apply elem_of_cons in Hp as [->|Hp]; [by destruct H as [H|[t H] ]|]). by apply elem_of_nil in Hp.
    + unfold BYPASS_FALLBACK_PREFIXES in Hp.
      repeat (apply elem_of_cons in Hp as [->|Hp]; [done|]). by apply elem_of_nil in Hp.
  - right. exists (lit "rtk fallback"), (lit "s ls"). split; [by left|reflexivity].
Qed.

(** A summary shows the program's name, at most two short subcommand words
    of a tool known to have subcommands, and flag names, six parts and 64
    characters at most; no character of it could separate a path, quote a string
    or assign a value. *)
Theorem summary_shows_names_only command s :
  command_summary command = Some s ->
  exists program subs flags,
    s = take 64 (join (lit " ") (program :: subs ++ flags)) /\
    program <> [] /\ (length program <= 32)%nat /\ forallb subcommand_char program = true /\
    Forall (fun w => is_subcommand_word w = true) subs /\ (length subs <= 2)%nat /\
    (subs <> [] -> program ∈ SUBCOMMAND_TOOLS) /\ Forall is_flag flags /\ (length subs + length flags <= 5)%nat /\
    forallb summary_char s = true.
Proof.
  unfold command_summary. destruct (payload_words _).2 as [|head words]; [done|]. intros [= <-].
  destruct (operation_identity_spec head) as (Hne & Hlen & Hc). set (program := operation_identity head) in *.
  destruct (summary_parts_shape (one_of program SUBCOMMAND_TOOLS) program words [] [] false)
    as (subs & flags & Hparts & Hshape); [| done | simpl; lia |].
  { split_and!; [constructor | simpl; lia | done | constructor | simpl; lia]. }
  simpl in Hparts. rewrite Hparts. pose proof (summary_shape_chars _ _ _ _ Hshape Hc) as Hchars.
  destruct Hshape as (H1 & H2 & H3 & H4 & H5). exists program, subs, flags.
  split_and!; try done; [|by apply forallb_take].
  intros Hsubs. destruct (one_of program SUBCOMMAND_TOOLS) eqn:E; [|by rewrite H3 in Hsubs].
  unfold one_of in E. apply existsb_exists in E as (t & Ht & E). apply bool_decide_eq_true in E. subst t.
  by apply list_elem_of_In.
Qed.

(** A query and a password can still be shown: the word behind [grepai
    search] passes for a second subcommand, and a value written onto its flag for
    the flag's name. *)
Theorem summary_can_show_an_operand :
  command_summary (lit "grepai search 'hunter2'") = Some (lit "grepai search hunter2") /\
  command_summary (lit "mysql -phunter2 -u root") = Some (lit "mysql -phunter2 -u").
Proof. split; reflexivity. Qed.

(** A command offered in place of a wrapped one is the end of the wrapped
    one, byte for byte; the hook recognises it as a direct command, it asks for
    no bypass of its own, and offering again changes nothing. *)
Theorem replacement_keeps_the_command command r :
  first_class_replacement command = Some r ->
  (exists before, command = before ++ suggestion r) /\
  is_direct_hzr_command (suggestion r) = true /\ managed_raw_payload (suggestion r) = None /\
  (first_class_replacement (suggestion r) = None \/
   exists r', first_class_replacement (suggestion r) = Some r' /\ suggestion r' = suggestion r).
Proof.
  unfold first_class_replacement at 1. destruct (direct_hzr_alias_replacement command) as [r0|] eqn:Ed.
  - intros [= ->]. by apply direct_alias_keeps.
  - apply managed_replacement_keeps.
Qed.

Section PreflightProperties.
Context (metadata : rstr -> option N) (read_sample : rstr -> N -> option (list N)).

(** What a granted preflight rests on. *)
Definition granted (reason : RawFidelityReason) (payload cwd : rstr) (budget : option FidelityBudget)
    (e : EvasionAttribution) (bound : N) : Prop :=
  (exists b, budget = Some b /\ exhausted b = false /\ 0 < remaining_operations b /\ bound <= remaining_tokens b) /\
  raw_fidelity_reason_fits metadata read_sample reason payload cwd = true /\
  fidelity_output_tokens_upper_bound metadata reason payload cwd = Some bound /\
  e = fidelity_evasion reason FidelityValidation.Valid false.

Lemma preflight_of_Allow reason payload cwd budget e bound :
  preflight_of metadata read_sample reason payload cwd budget = Allow e bound ->
  granted reason payload cwd budget e bound.
Proof.
  unfold preflight_of, granted. destruct (raw_fidelity_reason_fits _ _ reason payload cwd) eqn:Ef; [|done].
  destruct (fidelity_output_tokens_upper_bound _ reason payload cwd) as [n|]; [|done].
  destruct budget as [b|]; [|done]. destruct (_ || _) eqn:Eb; [done|]. intros [= <- <-]. bool_prop.
  split_and!; [|done..]. exists b. split_and!; [done | done | lia | lia].
Qed.

Lemma preflight_of_requested reason payload cwd budget :
  preflight_of metadata read_sample reason payload cwd budget <> PreflightNotRequested.
Proof. unfold preflight_of. repeat case_match; done. Qed.

#[local] Arguments one_of : simpl never.

(** The operands of a local reader, as a grammar: options with a value, caps in bytes,
    and the words that are paths, in order. *)
Inductive operands (tool : rstr) : list rstr -> list N -> list rstr -> Prop :=
| operands_nil : operands tool [] [] []
| operands_valued w ws caps paths :
    w ∈ [lit "--level"; lit "--from"; lit "--to"] -> operands tool (tail ws) caps paths -> operands tool (w :: ws) caps paths
| operands_lines ws caps paths :
    tool ∈ [lit "head"; lit "tail"] -> operands tool (tail ws) caps paths -> operands tool (lit "-n" :: ws) caps paths
| operands_numbered ws caps paths :
    tool ∉ [lit "head"; lit "tail"] -> operands tool ws caps paths -> operands tool (lit "-n" :: ws) caps paths
| operands_cap w value cap ws caps paths :
    w ∈ [lit "-c"; lit "--bytes"] -> parse_unsigned u64_max value = Some cap ->
    operands tool ws caps paths -> operands tool (w :: value :: ws) (cap :: caps) paths
| operands_bytes value cap ws caps paths :
    parse_unsigned u64_max value = Some cap -> operands tool ws caps paths ->
    operands tool ((lit "--bytes=" ++ value) :: ws) (cap :: caps) paths
| operands_path w ws caps paths :
    starts_with (lit "-") w = false -> operands tool ws caps paths -> operands tool (w :: ws) caps (w :: paths).

Lemma one_of_elem w l : one_of w l = true <-> w ∈ l.
Proof.
  unfold one_of, str_eqb. rewrite existsb_exists. split.
  - intros (x & Hx & ->%bool_decide_eq_true). by apply list_elem_of_In.
  - intros H. exists w. rewrite bool_decide_eq_true. split; [by apply list_elem_of_In|done].
Qed.

Lemma last_cons_default {A} (x : A) l d : match last (x :: l) with Some y => Some y | None => d end = match last l with Some y => Some y | None => Some x end.
Proof. rewrite last_cons. by destruct (last l). Qed.

Lemma reader_operands_spec tool fuel : forall words cap path cap' path',
  (length words <= fuel)%nat -> reader_operands tool fuel words cap path = Some (cap', path') ->
  exists caps paths, operands tool words caps paths /\ cap' = match last caps with Some c => Some c | None => cap end /\
    option_list path ++ paths = option_list path'.
Proof.
  assert (forall ws : list rstr, (length (tail ws) <= length ws)%nat) as Htail by (intros []; simpl; lia).
  induction fuel as [|fuel IH]; intros [|word ws] cap path cap' path' Hlen H; simpl in Hlen; try lia; cbn [reader_operands] in H.
  1,2: injection H as <- <-; exists [], []; split_and!; [constructor|done|apply app_nil_r].
  destruct (one_of word [lit "--level"; lit "--from"; lit "--to"]) eqn:E1.
  { apply one_of_elem in E1. destruct (IH (tail ws) _ _ _ _ ltac:(specialize (Htail ws); lia) H) as (caps & paths & Ho & Hc).
    exists caps, paths. split; [by apply operands_valued|done]. }
  destruct (str_eqb word (lit "-n")) eqn:E2.
  { unfold str_eqb in E2. apply bool_decide_eq_true in E2 as ->. destruct (one_of tool _) eqn:Et.
    - apply one_of_elem in Et. destruct (IH (tail ws) _ _ _ _ ltac:(specialize (Htail ws); lia) H) as (caps & paths & Ho & Hc).
      exists caps, paths. split; [by apply operands_lines|done].
    - destruct (IH ws _ _ _ _ ltac:(lia) H) as (caps & paths & Ho & Hc). exists caps, paths.
      split; [|done]. apply operands_numbered; [|done]. intros Hin%one_of_elem. congruence. }
  assert (forall value rest cap0, parse_unsigned u64_max value = Some cap0 -> (length rest <= fuel)%nat ->
    reader_operands tool fuel rest (Some cap0) path = Some (cap', path') ->
    exists caps paths, operands tool rest caps paths /\
      cap' = match last (cap0 :: caps) with Some c => Some c | None => cap end /\ option_list path ++ paths = option_list path') as Hcap.
  { intros value rest cap0 Hv Hl Hr. destruct (IH _ _ _ _ _ Hl Hr) as (caps & paths & Ho & Hc & Hp).
    exists caps, paths. rewrite last_cons_default. done. }
  destruct (one_of word [lit "-c"; lit "--bytes"]) eqn:E3.
  { apply one_of_elem in E3. destruct ws as [|value rest]; [done|]. apply bind_Some in H as (cap0 & Hv & H).
    simpl in Hlen. destruct (Hcap value rest cap0 Hv ltac:(lia) H) as (caps & paths & Ho & Hc). exists (cap0 :: caps), paths.
    split; [by eapply operands_cap|done]. }
  destruct (strip_prefix (lit "--bytes=") word) as [value|] eqn:E4.
  { apply strip_prefix_Some in E4 as ->. apply bind_Some in H as (cap0 & Hv & H).
    destruct (Hcap value ws cap0 Hv ltac:(lia) H) as (caps & paths & Ho & Hc). exists (cap0 :: caps), paths.
    split; [by eapply operands_bytes|done]. }
  destruct (starts_with (lit "-") word) eqn:E5; [done|]. destruct path as [p|]; [done|].
  destruct (IH ws _ _ _ _ ltac:(lia) H) as (caps & paths & Ho & Hc & Hp). exists caps, (word :: paths).
  split; [by apply operands_path|]. split; [done|]. simpl in *. by rewrite Hp.
Qed.

(** A local reader prints its one file, up to its last cap. *)
Definition reads_file (payload cwd path : rstr) (bytes : N) : Prop :=
  exists tool words caps operand len,
    strip_wrappers (shell_words payload) = tool :: words /\ tool ∈ [lit "cat"; lit "read"; lit "head"; lit "tail"] /\
    operands tool words caps [operand] /\ path = absolute_path cwd operand /\ metadata path = Some len /\
    bytes = match last caps with Some cap => N.min len cap | None => len end.

Lemma local_reader_bound_spec payload cwd path bytes :
  local_reader_bound metadata payload cwd = Some (path, bytes) ->
  unambiguous_shell_command payload = true /\ reads_file payload cwd path bytes.
Proof.
  unfold local_reader_bound. destruct (unambiguous_shell_command payload); [|done]. simpl.
  destruct (strip_wrappers _) as [|tool words] eqn:Ew; [done|]. destruct (negb _) eqn:Et; [done|].
  apply negb_false_iff, one_of_elem in Et.
  intros ([cap p] & Hops & H)%bind_Some. apply bind_Some in H as (q & Hq & H). simpl in Hq. subst p.
  apply bind_Some in H as (len & Hm & [= <- <-]). split; [done|].
  destruct (reader_operands_spec _ _ _ _ _ _ _ (le_n _) Hops) as (caps & paths & Ho & Hc & Hp). simpl in Hp. subst paths.
  exists tool, words, caps, q, len. split_and!; try done. subst cap. by destruct (last caps).
Qed.

(** What a checksum tool prints: its command line and 160 characters for each target. *)
Definition prints_checksums (payload : rstr) (bytes : N) : Prop :=
  exists tool arguments,
    strip_wrappers (shell_words payload) = tool :: arguments /\
    bytes = sat_add u64_max (slen payload)
      (N.min (N.max (N.of_nat (length (filter (fun w => starts_with (lit "-") w = false /\ w <> lit "dgst") arguments))) 1 * 160) u64_max).

Lemma checksum_bound_spec payload bytes :
  checksum_output_upper_bound payload = Some bytes -> unambiguous_shell_command payload = true /\ prints_checksums payload bytes.
Proof.
  unfold checksum_output_upper_bound. destruct (unambiguous_shell_command payload); [|done]. simpl.
  destruct (strip_wrappers _) as [|tool arguments] eqn:Ew; [done|]. intros [= <-]. split; [done|]. exists tool, arguments.
  split; [done|]. do 5 f_equal. clear Ew. induction arguments as [|w l IH]; [done|]. simpl.
  rewrite filter_cons. unfold str_eqb. destruct (starts_with _ w).
  - rewrite decide_False by naive_solver. exact IH.
  - case_bool_decide; [rewrite decide_False by naive_solver; exact IH|rewrite decide_True by naive_solver].
    simpl. f_equal. exact IH.
Qed.

(** The bytes behind a bound. *)
Lemma bound_spec reason payload cwd bound :
  fidelity_output_tokens_upper_bound metadata reason payload cwd = Some bound ->
  unambiguous_shell_command payload = true /\
  exists bytes, bound = sat_add u64_max bytes 3 / 4 /\
    match reason with
    | Checksum => prints_checksums payload bytes
    | Binary | VerbatimSource => exists path, local_reader_bound metadata payload cwd = Some (path, bytes) /\ reads_file payload cwd path bytes
    | _ => False
    end.
Proof.
  unfold fidelity_output_tokens_upper_bound. intros (bytes & Hb & [= <-])%bind_Some.
  destruct reason; try done.
  1,3: apply fmap_Some in Hb as ([path n] & Hr & ->); destruct (local_reader_bound_spec _ _ _ _ Hr) as [Hu Hf]; eauto 10.
  destruct (checksum_bound_spec _ _ Hb) as [Hu Hf]. eauto.
Qed.

Lemma binary_fits payload cwd path bytes :
  local_reader_bound metadata payload cwd = Some (path, bytes) ->
  raw_fidelity_reason_fits metadata read_sample Binary payload cwd = true ->
  (exists tool words, strip_wrappers (shell_words payload) = tool :: words /\
      tool ∈ [lit "file"; lit "xxd"; lit "hexdump"; lit "base64"])
  \/ exists sample, read_sample path (N.min bytes (8 * 1024)) = Some sample /\ 0 ∈ sample.
Proof.
  intros Hb. unfold raw_fidelity_reason_fits, local_reader_is_binary. rewrite Hb. intros [H|H]%orb_true_iff.
  - destruct (strip_wrappers _) as [|tool words]; [done|]. left. exists tool, words. split; [done|]. by apply one_of_elem.
  - right. destruct (read_sample _ _) as [sample|]; [|done]. exists sample. split; [done|].
    apply existsb_exists in H as (x & Hin & ->%N.eqb_eq). by apply list_elem_of_In.
Qed.

Lemma checksum_fits payload cwd :
  raw_fidelity_reason_fits metadata read_sample Checksum payload cwd = true ->
  exists tool arguments, strip_wrappers (shell_words payload) = tool :: arguments /\
    (tool ∈ [lit "sha256sum"; lit "sha512sum"; lit "shasum"; lit "md5sum"; lit "md5"; lit "b2sum"; lit "cksum"]
     \/ tool = lit "openssl" /\ head arguments = Some (lit "dgst")).
Proof.
  unfold raw_fidelity_reason_fits. intros [_ [H|H]%orb_true_iff]%andb_true_iff; destruct (strip_wrappers _) as [|tool arguments]; try done.
  - exists tool, arguments. split; [done|]. left. by apply one_of_elem.
  - exists tool, arguments. split; [done|]. right. apply andb_true_iff in H as [Ht%one_of_elem Ha].
    apply list_elem_of_singleton in Ht. split; [done|]. destruct arguments as [|w l]; [done|]. simpl in *.
    unfold str_eqb in Ha. apply bool_decide_eq_true in Ha. by subst.
Qed.
End PreflightProperties.

(** The leading marker words of a command, split at blanks: how often exact output is
    asked for, the reasons that are given, and the rest. *)
Inductive marked : rstr -> nat -> list rstr -> rstr -> Prop :=
| marked_end s : marked s 0 [] s
| marked_request s behind n values rest :
    span is_blank s = (lit "HZR_RAW_FIDELITY=1", behind) -> marked (trim_start_matches is_blank behind) n values rest ->
    marked s (S n) values rest
| marked_reason s value behind n values rest :
    span is_blank s = (lit "HZR_RAW_FIDELITY_REASON=" ++ value, behind) ->
    marked (trim_start_matches is_blank behind) n values rest -> marked s n (value :: values) rest.

Lemma fidelity_markers_spec fuel : forall rest requested reason invalid rest' requested' reason',
  fidelity_markers fuel rest requested reason invalid = (rest', requested', reason', false) ->
  invalid = false /\ exists n values, marked rest n values rest' /\ requested' = requested || (0 <? N.of_nat n) /\
    match reason, values with
    | _, [] => reason' = reason
    | None, [value] => reason' = parse_raw_fidelity_reason value /\ is_Some reason'
    | _, _ => False
    end.
Proof.
  induction fuel as [|fuel IH]; intros rest requested reason invalid rest' requested' reason' H; cbn [fidelity_markers] in H.
  { injection H as <- <- <- ->. split; [done|]. exists 0%nat, []. split; [constructor|]. rewrite orb_false_r. by destruct reason. }
  destruct (span is_blank rest) as [word behind] eqn:Es. destruct (str_eqb word _) eqn:Ew.
  { unfold str_eqb in Ew. apply bool_decide_eq_true in Ew as ->.
    destruct (IH _ _ _ _ _ _ _ H) as (Hi & n & values & Hm & Hr & Hv). split; [done|]. exists (S n), values.
    split; [by eapply marked_request|]. split; [|done]. rewrite Hr, orb_true_l. destruct requested; simpl; lia. }
  destruct (strip_prefix _ word) as [value|] eqn:Ep.
  2: { injection H as <- <- <- ->. split; [done|]. exists 0%nat, []. split; [constructor|]. rewrite orb_false_r. by destruct reason. }
  apply strip_prefix_Some in Ep as ->. destruct (parse_raw_fidelity_reason value) as [r|] eqn:Ev, reason as [r0|];
    destruct (IH _ _ _ _ _ _ _ H) as (Hi & n & values & Hm & Hr & Hv); try done.
  split; [done|]. exists n, (value :: values). split; [by eapply marked_reason|]. split; [done|].
  destruct values; [|done]. subst reason'. rewrite Ev. split; [done|eauto].
Qed.

(** An authorized request asks for exact output, gives one reason, and wraps its payload
    in one of the raw prefixes. *)
Definition asks_with_reason (command payload : rstr) (reason : RawFidelityReason) : Prop :=
  exists n value prefix c,
    marked (trim_start_matches is_blank command) (S n) [value] (prefix ++ c :: payload)
    /\ parse_raw_fidelity_reason value = Some reason /\ prefix ∈ BYPASS_PREFIXES /\ is_blank c = true.

Lemma marked_trimmed s n values rest :
  marked s n values rest -> trim_start_matches is_blank s = s -> trim_start_matches is_blank rest = rest.
Proof. induction 1; intros Hs; [done| |]; apply IHmarked, trim_start_idem. Qed.

Lemma authorized_spec command reason payload :
  raw_fidelity_request command = Authorized reason payload -> asks_with_reason command payload reason.
Proof.
  unfold raw_fidelity_request. destruct (fidelity_markers _ _ _ _ _) as [[[rest requested] r] invalid] eqn:Em.
  destruct (managed_raw_payload rest) as [q|] eqn:Eq; [|done]. destruct requested; [|done]. destruct invalid; [done|].
  destruct r as [r|]; [|done]. intros [= <- <-]. destruct (fidelity_markers_spec _ _ _ _ _ _ _ _ Em) as (_ & n & values & Hm & Hn & Hv).
  destruct values as [|value [|]]; [done| |done]. destruct Hv as [Hv _]. destruct n as [|n]; [done|].
  unfold managed_raw_payload in Eq. rewrite (marked_trimmed _ _ _ _ Hm (trim_start_idem _ _)) in Eq.
  apply head_Some_elem_of, list_elem_of_omap in Eq as (prefix & Hin & Hp). unfold raw_payload_behind in Hp.
  destruct (strip_prefix prefix rest) as [[|c t]|] eqn:Ep; [done| |done]. apply strip_prefix_Some in Ep as ->.
  destruct (is_blank c) eqn:Eb; [|done]. simpl in Hp. destruct (is_empty _); [done|]. injection Hp as <-.
  exists n, value, prefix, c. done.
Qed.

(** C35: exact output is granted within the session's allowance only. The command asks
    for it with one reason, is one a shell reads as its plain words, and does what the
    reason says: it runs a checksum tool, or reads one file that exists, which for the
    reason [Binary] has a zero byte at its beginning. The tokens that are reserved are a
    quarter, rounded up, of the bytes: the length of the file, or the last cap of the
    command where that is less, taken as a number; or the command line and 160 for each
    target of the checksum tool. The budget was audited and has that many left. *)
Theorem exact_output_is_granted_within_budget metadata read_sample command cwd budget e bound :
  fidelity_preflight metadata read_sample command cwd budget = Allow e bound ->
  exists reason payload b bytes,
    (asks_with_reason command payload reason \/
     raw_fidelity_request command = NotRequested /\ exact_fidelity_command command = (true, payload) /\
       reason = VerbatimSource) /\
    unambiguous_shell_command payload = true /\
    match reason with
    | Checksum =>
        (exists tool arguments, strip_wrappers (shell_words payload) = tool :: arguments /\
           (tool ∈ [lit "sha256sum"; lit "sha512sum"; lit "shasum"; lit "md5sum"; lit "md5"; lit "b2sum"; lit "cksum"]
            \/ tool = lit "openssl" /\ head arguments = Some (lit "dgst"))) /\
        prints_checksums payload bytes
    | VerbatimSource => exists path, reads_file metadata payload cwd path bytes
    | Binary => exists path, reads_file metadata payload cwd path bytes /\
        ((exists tool words, strip_wrappers (shell_words payload) = tool :: words /\
            tool ∈ [lit "file"; lit "xxd"; lit "hexdump"; lit "base64"])
         \/ exists sample, read_sample path (N.min bytes (8 * 1024)) = Some sample /\ 0 ∈ sample)
    | _ => False
    end /\
    bound = sat_add u64_max bytes 3 / 4 /\
    budget = Some b /\ exhausted b = false /\ 0 < remaining_operations b /\ bound <= remaining_tokens b /\
    e = fidelity_evasion reason FidelityValidation.Valid false.
Proof.
  intros H.
  assert (exists reason payload,
    (raw_fidelity_request command = Authorized reason payload \/
     raw_fidelity_request command = NotRequested /\ exact_fidelity_command command = (true, payload) /\
       reason = VerbatimSource) /\
    granted metadata read_sample reason payload cwd budget e bound) as (reason & payload & Hreq & Hg).
  { unfold fidelity_preflight in H. destruct (raw_fidelity_request command) as [ | | |reason payload]; try done.
    - destruct (exact_fidelity_command command) as [ [] payload] eqn:Ee; [|done].
      exists VerbatimSource, payload. split; [by right|]. by apply preflight_of_Allow.
    - exists reason, payload. split; [by left|]. by apply preflight_of_Allow. }
  destruct Hg as ((b & Hb1 & Hb2 & Hb3 & Hb4) & Hfit & Hbound & ->).
  apply (bound_spec metadata read_sample) in Hbound as (Hu & bytes & Hbytes & Hsrc).
  exists reason, payload, b, bytes. split_and!; try done; [destruct Hreq as [Ha|Ha]; [left; by apply authorized_spec|by right]|].
  destruct reason; try done.
  - destruct Hsrc as (path & Hr & Hf). exists path. split; [done|]. eapply binary_fits; [exact Hr|exact Hfit].
  - split; [eapply checksum_fits; exact Hfit|done].
  - destruct Hsrc as (path & _ & Hf). eauto.
Qed.

(** Whatever the preflight answers, the attribution it answers with is one
    the engine contract accepts: of the fidelity hatch, quarantined, with a
    validation that says why, and blamed on the agent exactly when the agent is
    told to ask for a reason of its own making.  It answers nothing exactly when
    no preflight is due. *)
Theorem preflight_attributions_are_valid metadata read_sample command cwd budget :
  let answer := fidelity_preflight metadata read_sample command cwd budget in
  (answer = PreflightNotRequested <-> fidelity_preflight_required command = false) /\
  forall e, (exists n, answer = Allow e n) \/ (exists reason, answer = Ask e reason) ->
    evasion_is_valid e = true /\ class e = EvasionClass.E7FidelityHatch /\
    tier e = EnforcementTier.T4HatchQuarantine /\ hatch_marker e = true /\
    (avoidable e = false <-> fidelity_validation e = FidelityValidation.Valid) /\
    (fidelity_reason e = None <->
     fidelity_validation e = FidelityValidation.MissingReason \/ fidelity_validation e = FidelityValidation.InvalidReason).
Proof.
  intros answer. split.
  - unfold answer, fidelity_preflight, fidelity_preflight_required.
    destruct (raw_fidelity_request command) as [ | | |reason payload]; try (split; done).
    + destruct (exact_fidelity_command command) as [ [] payload]; [|done]. simpl.
      split; [|done]. intros H. by apply preflight_of_requested in H.
    + split; [|done]. intros H. by apply preflight_of_requested in H.
  - assert (forall reason payload e,
      (exists n, preflight_of metadata read_sample reason payload cwd budget = Allow e n) \/
      (exists r, preflight_of metadata read_sample reason payload cwd budget = Ask e r) ->
      exists v avoid, e = fidelity_evasion reason v avoid /\ (avoid = false <-> v = FidelityValidation.Valid) /\
        v <> FidelityValidation.MissingReason /\ v <> FidelityValidation.InvalidReason) as Hof.
    { intros reason payload e He. unfold preflight_of in He.
      destruct (negb _); [|destruct (fidelity_output_tokens_upper_bound _ _ _ _);
        [destruct budget as [b|]; [destruct (_ || _)|]|] ];
        destruct He as [ [? He]|[? He] ]; try done; injection He as <-; by eexists _, _. }
    intros e He. unfold answer, fidelity_preflight in He.
    destruct (raw_fidelity_request command) as [ | | |reason payload].
    + destruct (exact_fidelity_command command) as [ [] payload]; [|naive_solver].
      destruct (Hof _ _ _ He) as (v & avoid & -> & Ha & Hm & Hi). simpl. naive_solver.
    + destruct He as [ [n He]|[r He] ]; [done|]. injection He as <- _. simpl. naive_solver.
    + destruct He as [ [n He]|[r He] ]; [done|]. injection He as <- _. simpl. naive_solver.
    + destruct (Hof _ _ _ He) as (v & avoid & -> & Ha & Hm & Hi). simpl. naive_solver.
Qed.

Lemma summary_shows_names_only_witness :
  command_summary (lit "cd /srv && git commit -m 'secret words'") = Some (lit "git commit -m") /\
  forallb summary_char (lit "git commit -m") = true.
Proof.
  assert (command_summary (lit "cd /srv && git commit -m 'secret words'") = Some (lit "git commit -m")) as H
    by reflexivity.
  split; [exact H|]. destruct (summary_shows_names_only _ _ H) as (p & subs & flags & _ & _ & _ & _ & _ & _ & _ & _ & _ & Hc).
  exact Hc.
Defined.

Lemma replacement_keeps_the_command_witness :
  exists r, first_class_replacement (lit "rtk proxy hzr search 'a b'") = Some r /\
    suggestion r = lit "hzr search 'a b'" /\ is_direct_hzr_command (suggestion r) = true.
Proof.
  eexists. split; [reflexivity|]. split; [reflexivity|].
  exact (proj1 (proj2 (replacement_keeps_the_command (lit "rtk proxy hzr search 'a b'") _ eq_refl))).
Defined.

Definition sample_metadata (path : rstr) : option N :=
  if str_eqb path (lit "/srv/key.pem") then Some 1000 else None.
Definition sample_budget : FidelityBudget := {| remaining_operations := 1; remaining_tokens := 250; exhausted := false |}.
Definition sample_exact : rstr := lit "HZR_EXACT_FIDELITY=1 cat key.pem".

Lemma exact_output_is_granted_within_budget_witness :
  exists e bound,
    fidelity_preflight sample_metadata (fun _ _ => None) sample_exact (lit "/srv") (Some sample_budget) = Allow e bound /\
    bound <= 250.
Proof.
  eexists _, _. split; [reflexivity|].
  destruct (exact_output_is_granted_within_budget sample_metadata (fun _ _ => None) sample_exact (lit "/srv")
    (Some sample_budget) _ _ eq_refl) as (reason & payload & b & bytes & _ & _ & _ & _ & Hb & _ & _ & Hle & _).
  injection Hb as <-. exact Hle.
Defined.

(** A cap that begins with a plus sign is read as a number: [tail -c +1] prints the whole
    file, of four megabytes here, and is granted for one token. *)
Example offsets_are_taken_for_caps :
  exists e, fidelity_preflight (fun _ => Some 4194304) (fun _ _ => None) (lit "HZR_EXACT_FIDELITY=1 tail -c +1 big") (lit "/srv")
    (Some sample_budget) = Allow e 1.
Proof. eexists. vm_compute. reflexivity. Qed.

(** Numbered lines are bounded by the lines without their numbers: those of a file of a
    thousand line feeds are granted for 250 tokens, and are seven thousand bytes more. *)
Example numbered_lines_are_bounded_without_numbers :
  exists e, fidelity_preflight (fun _ => Some 1000) (fun _ _ => None) (lit "HZR_EXACT_FIDELITY=1 cat -n lines") (lit "/srv")
    (Some sample_budget) = Allow e 250.
Proof. eexists. vm_compute. reflexivity. Qed.

End Operation.
