(* ===== verification/F32.v ===== *)
(** Single precision floating point: Rust's [f32] as the IEEE 754 values and
    operations of [SpecFloat] with 24 bits of precision, rounding to nearest,
    ties to even.  A NaN has neither sign nor payload here. *)

From S2P Require Import Prelude.
From Stdlib Require Import SpecFloat.

Abbreviation f32 := spec_float (only parsing).

Module F32.

Definition add : f32 -> f32 -> f32 := SFadd 24 128.
Definition sub : f32 -> f32 -> f32 := SFsub 24 128.
Definition mul : f32 -> f32 -> f32 := SFmul 24 128.
Definition div : f32 -> f32 -> f32 := SFdiv 24 128.

Definition ltb : f32 -> f32 -> bool := SFltb.
Definition leb : f32 -> f32 -> bool := SFleb.

Definition zero : f32 := S754_zero false.
Definition neg_zero : f32 := S754_zero true.

(** [m * 2^e], for a literal. *)
Definition of_parts (m e : Z) : f32 := binary_normalize 24 128 m e false.
Definition one : f32 := of_parts 1 0.

(** [n as f32] of an unsigned integer. *)
Definition of_N (n : N) : f32 := of_parts (Z.of_N n) 0.

(** [x as u64]: towards zero, and into the range of the type. *)
Definition to_u64 (x : f32) : N :=
  match x with
  | S754_finite false m e => N.min (Z.to_N (Z.shiftl (Zpos m) e)) u64_max
  | S754_infinity false => u64_max
  | _ => 0
  end.

Definition is_nan (x : f32) : bool := match x with S754_nan => true | _ => false end.

Definition is_finite (x : f32) : bool :=
  match x with S754_nan | S754_infinity _ => false | _ => true end.

(** [f32::max]: the other operand of a NaN. *)
Definition max (a b : f32) : f32 :=
  if is_nan a then b else if is_nan b then a else if ltb a b then b else a.

(** [f32::clamp]: a NaN stays. *)
Definition clamp (x lo hi : f32) : f32 :=
  let x := if ltb x lo then lo else x in if ltb hi x then hi else x.

(** The magnitude's bits, which order like the magnitude. *)
Definition magnitude (x : f32) : Z :=
  match x with
  | S754_zero _ => 0
  | S754_finite _ m e => if (Zpos m <? 8388608)%Z then Zpos m else ((e + 150) * 8388608 + (Zpos m - 8388608))%Z
  | S754_infinity _ => 2139095040
  | S754_nan => 2143289344
  end.

Definition sign (x : f32) : bool :=
  match x with S754_zero s | S754_finite s _ _ | S754_infinity s => s | S754_nan => false end.

(** [f32::from_bits]. *)
Definition of_bits (bits : N) : f32 :=
  let s := 2 ^ 31 <=? bits in
  let e := (bits / 2 ^ 23) mod 2 ^ 8 in
  let m := bits mod 2 ^ 23 in
  if e =? 255 then if m =? 0 then S754_infinity s else S754_nan
  else if e =? 0 then match m with N0 => S754_zero s | Npos p => S754_finite s p (-149) end
  else match m + 2 ^ 23 with Npos p => S754_finite s p (Z.of_N e - 150) | N0 => S754_nan end.

(** [x as f32] of an [f64]. *)
Definition of_f64 (x : spec_float) : f32 :=
  match x with
  | S754_finite s m e => binary_normalize 24 128 (if s then Zneg m else Zpos m) e s
  | _ => x
  end.

Example bits : map of_bits [0x3F800000; 0x80000000; 0x00000001; 0xFF800000; 0x7FC00000]
  = [one; neg_zero; of_parts 1 (-149); S754_infinity true; S754_nan].
Proof. reflexivity. Qed.

(** The place of a value in the order of [f32::total_cmp]. *)
Definition position (x : f32) : Z := if sign x then (-1 - magnitude x)%Z else magnitude x.

Definition total_cmp : f32 -> f32 -> comparison := by_key position Z.compare.

#[export] Instance total_cmp_ordering : Ordering total_cmp.
Proof. unfold total_cmp. apply _. Qed.

Example product : mul (of_parts 3 0) (of_parts 1 (-1)) = of_parts 3 (-1).
Proof. reflexivity. Qed.

Example third : div one (of_N 3) = S754_finite false 11184811 (-25).
Proof. reflexivity. Qed.

Example order : map (position) [of_parts (-1) 0; neg_zero; zero; of_parts 1 (-149); one; S754_nan]
  = [-1065353217; -1; 0; 1; 1065353216; 2143289344]%Z.
Proof. reflexivity. Qed.

End F32.
