(* ===== verification/Budget.v ===== *)
(** Token budgets ([crates/hzr-core/src/budget.rs]): the evidence of several
    sources fused by content, ranked, and chosen under a hard token limit.

    The order in which the hash map of fused candidates is drained is the
    parameter [into_values].  Token counts are [u64] and add up wrapping, as in a
    release build.  Fields of a candidate that nothing here reads are one
    parameter, [Rest]. *)

From S2P Require Import Prelude RStr F32.
From Stdlib Require Import ZifyBool ZifyN.

Module Budget.

Definition MEMORY_BUDGET_SHARE : f32 := F32.of_parts 11744051 (-25).
Definition UNLOCATABLE_PENALTY : f32 := F32.of_parts 13421773 (-25).

Inductive TokenCountSource := Provider | ModelTokenizer | Estimate.

#[export] Instance TokenCountSource_eq_dec : EqDecision TokenCountSource.
Proof. solve_decision. Defined.

Record TokenCount := { value : N; count_source : TokenCountSource }.

Inductive CandidateSource := Exact | Index | Context | Memory.

#[export] Instance CandidateSource_eq_dec : EqDecision CandidateSource.
Proof. solve_decision. Defined.

Record CandidateDecision := { candidate_id : rstr; reason : rstr }.

Record RankingDiagnostic := { method : rstr; calibrated : bool }.

Definition uncalibrated_separation : RankingDiagnostic :=
  {| method := lit "top_candidate_separation_v1"; calibrated := false |}.

Record BudgetPlanner := { hard_limit : N; max_per_path : N; min_relevance : f32 }.

Definition new (hard : N) : BudgetPlanner :=
  {| hard_limit := hard; max_per_path := 2; min_relevance := F32.of_parts 13421773 (-28) |}.

Definition with_max_per_path (self : BudgetPlanner) (m : N) : BudgetPlanner :=
  {| hard_limit := hard_limit self; max_per_path := N.max m 1; min_relevance := min_relevance self |}.

Definition with_min_relevance (self : BudgetPlanner) (m : f32) : BudgetPlanner :=
  {| hard_limit := hard_limit self; max_per_path := max_per_path self;
     min_relevance := F32.clamp m F32.zero F32.one |}.

Section Plan.
Context {Rest : Type}.

Record ContextCandidate := {
  id : rstr;
  source : CandidateSource;
  content_ref : rstr;
  path : option rstr;
  symbol : option rstr;
  line_start : option N;
  line_end : option N;
  source_rank : N;
  relevance : f32;
  tokens : TokenCount;
  rest : Rest;
}.

Definition with_relevance (c : ContextCandidate) (score : f32) : ContextCandidate :=
  {| id := id c; source := source c; content_ref := content_ref c; path := path c; symbol := symbol c;
     line_start := line_start c; line_end := line_end c; source_rank := source_rank c; relevance := score;
     tokens := tokens c; rest := rest c |}.

Record FusionInput := { source_weight : f32; input_candidates : list ContextCandidate }.

Record ContextPack := {
  selected : list ContextCandidate;
  rejected : list CandidateDecision;
  used : TokenCount;
  pack_hard_limit : N;
  pack_coverage : f32;
  pack_confidence : f32;
  ranking : RankingDiagnostic;
  budget_exceeded : bool;
}.

(** ** Scores *)

Definition is_locatable (c : ContextCandidate) : bool :=
  bool_decide (source c = Memory) || bool_decide (symbol c <> None)
  || bool_decide (line_start c <> None) || bool_decide (line_end c <> None).

Definition utility (c : ContextCandidate) : f32 :=
  let source_boost :=
    match source c with
    | Exact => F32.of_parts 3 (-1)
    | Context => F32.of_parts 10066330 (-23)
    | Index => F32.one
    | Memory => F32.of_parts 15099494 (-24)
    end in
  let locatable := if is_locatable c then F32.one else UNLOCATABLE_PENALTY in
  F32.mul (F32.mul source_boost (relevance c)) locatable.

Definition aggregate_token_source (candidates : list ContextCandidate) : TokenCountSource :=
  match candidates with
  | [] => Estimate
  | first :: _ =>
      if existsb (fun c => bool_decide (count_source (tokens c) = Estimate)) candidates then Estimate
      else if forallb (fun c => bool_decide (count_source (tokens c) = count_source (tokens first))) candidates
      then count_source (tokens first)
      else ModelTokenizer
  end.

Definition coverage (candidates : list ContextCandidate) : f32 :=
  match candidates with
  | [] => F32.zero
  | _ => F32.div (F32.of_N (N.of_nat (length (List.filter is_locatable candidates))))
           (F32.of_N (N.of_nat (length candidates)))
  end.

Definition confidence (candidates : list ContextCandidate) : f32 :=
  match candidates with
  | [] => F32.zero
  | [top] => if is_locatable top then F32.one else F32.zero
  | top :: others =>
      let best := utility top in
      if F32.leb best F32.zero then F32.zero
      else
        let mean_rest := F32.div (fold_left F32.add (map utility others) F32.neg_zero)
                           (F32.of_N (N.of_nat (length others))) in
        F32.clamp (F32.div (F32.sub best mean_rest) best) F32.zero F32.one
  end.

Definition refresh_selection_diagnostics (pack : ContextPack) : ContextPack :=
  {| selected := selected pack; rejected := rejected pack; used := used pack;
     pack_hard_limit := pack_hard_limit pack; pack_coverage := coverage (selected pack);
     pack_confidence := confidence (selected pack); ranking := ranking pack;
     budget_exceeded := budget_exceeded pack |}.

(** ** Fusion *)

Definition best_score (candidates : list ContextCandidate) : f32 :=
  fold_left F32.max
    (List.filter (fun score => F32.is_finite score && F32.ltb F32.zero score) (map relevance candidates)) F32.zero.

Definition contribution (weight best : f32) (c : ContextCandidate) : f32 :=
  let normalized :=
    if F32.ltb F32.zero best
    then F32.clamp (F32.div (F32.max (relevance c) F32.zero) best) F32.zero F32.one
    else F32.div F32.one (F32.of_N (N.max (source_rank c) 1)) in
  F32.mul weight normalized.

Abbreviation Fused := (gmap rstr (ContextCandidate * f32)).

(** [fused.entry(content_ref).and_modify(..).or_insert(..)]. *)
Definition fuse_one (weight best : f32) (fused : Fused) (c : ContextCandidate) : Fused :=
  let s := contribution weight best c in
  match fused !! content_ref c with
  | Some (first, score) => <[ content_ref c := (first, F32.add score s) ]> fused
  | None => <[ content_ref c := (c, s) ]> fused
  end.

Definition fuse_source (fused : Fused) (input : FusionInput) : Fused :=
  fold_left (fuse_one (source_weight input) (best_score (input_candidates input))) (input_candidates input) fused.

Definition fuse (sources : list FusionInput) : Fused := fold_left fuse_source sources ∅.

Definition rank : ContextCandidate -> ContextCandidate -> comparison :=
  then_with (by_key_desc utility F32.total_cmp) (by_key content_ref str_cmp).

(** ** Filling the budget *)

Definition wrap_add (a b : N) : N := (a + b) mod (u64_max + 1).

Definition memory_limit (self : BudgetPlanner) : N :=
  F32.to_u64 (F32.mul (F32.of_N (hard_limit self)) MEMORY_BUDGET_SHARE).

Record FillState := {
  fs_selected : list ContextCandidate;
  fs_rejected : list CandidateDecision;
  fs_used : N;
  fs_memory_used : N;
  fs_paths : gmap rstr N;
}.

Definition reject (s : FillState) (c : ContextCandidate) (why : rstr) : FillState :=
  {| fs_selected := fs_selected s; fs_rejected := fs_rejected s ++ [{| candidate_id := id c; reason := why |}];
     fs_used := fs_used s; fs_memory_used := fs_memory_used s; fs_paths := fs_paths s |}.

Definition select (s : FillState) (c : ContextCandidate) : FillState :=
  let path := default [] (path c) in
  {| fs_selected := fs_selected s ++ [c]; fs_rejected := fs_rejected s;
     fs_used := wrap_add (fs_used s) (value (tokens c));
     fs_memory_used :=
       if bool_decide (source c = Memory) then wrap_add (fs_memory_used s) (value (tokens c)) else fs_memory_used s;
     fs_paths := if is_empty path then fs_paths s else <[ path := default 0 (fs_paths s !! path) + 1 ]> (fs_paths s) |}.

(** One iteration of the loop over the ranked candidates. *)
Definition fill_step (self : BudgetPlanner) (s : FillState) (c : ContextCandidate) : FillState :=
  let path := default [] (path c) in
  if F32.ltb (relevance c) (min_relevance self) then reject s c (lit "relevance_floor")
  else if negb (is_empty path) && (max_per_path self <=? default 0 (fs_paths s !! path))
  then reject s c (lit "path_diversity_limit")
  else if bool_decide (source c = Memory)
          && (memory_limit self <? wrap_add (fs_memory_used s) (value (tokens c)))
  then reject s c (lit "memory_budget_share")
  else if hard_limit self <? wrap_add (fs_used s) (value (tokens c)) then reject s c (lit "hard_token_budget")
  else select s c.

Definition fill_init : FillState :=
  {| fs_selected := []; fs_rejected := []; fs_used := 0; fs_memory_used := 0; fs_paths := ∅ |}.

Section Drain.
Context (into_values : Fused -> list (ContextCandidate * f32)).

Definition ranked (sources : list FusionInput) : list ContextCandidate :=
  sort_by rank (map (fun cs => with_relevance cs.1 cs.2) (into_values (fuse sources))).

Definition plan (self : BudgetPlanner) (sources : list FusionInput) : ContextPack :=
  let s := fold_left (fill_step self) (ranked sources) fill_init in
  {| selected := fs_selected s; rejected := fs_rejected s;
     used := {| value := fs_used s; count_source := aggregate_token_source (fs_selected s) |};
     pack_hard_limit := hard_limit self; pack_coverage := coverage (fs_selected s);
     pack_confidence := confidence (fs_selected s); ranking := uncalibrated_separation;
     budget_exceeded := existsb (fun d => str_eqb (reason d) (lit "hard_token_budget")) (fs_rejected s) |}.
End Drain.

(** ** The greedy choice, without counters *)

Definition tokens_of (l : list ContextCandidate) : N := fold_right (fun c n => value (tokens c) + n) 0 l.

Definition memory_of (l : list ContextCandidate) : N :=
  tokens_of (List.filter (fun c => bool_decide (source c = Memory)) l).

Definition on_path (p : rstr) (l : list ContextCandidate) : N :=
  N.of_nat (length (List.filter (fun c => str_eqb (default [] (path c)) p) l)).

(** Why a candidate is left out, given those chosen before it; [None] chooses it. *)
Definition verdict (self : BudgetPlanner) (chosen : list ContextCandidate) (c : ContextCandidate) : option rstr :=
  let p := default [] (path c) in
  if F32.ltb (relevance c) (min_relevance self) then Some (lit "relevance_floor")
  else if negb (is_empty p) && (max_per_path self <=? on_path p chosen) then Some (lit "path_diversity_limit")
  else if bool_decide (source c = Memory) && (memory_limit self <? memory_of chosen + value (tokens c))
  then Some (lit "memory_budget_share")
  else if hard_limit self <? tokens_of chosen + value (tokens c) then Some (lit "hard_token_budget")
  else None.

Inductive greedy (self : BudgetPlanner) :
  list ContextCandidate -> list ContextCandidate -> list ContextCandidate -> list CandidateDecision -> Prop :=
| greedy_done chosen : greedy self chosen [] [] []
| greedy_select chosen c todo sel rej :
    verdict self chosen c = None -> greedy self (chosen ++ [c]) todo sel rej ->
    greedy self chosen (c :: todo) (c :: sel) rej
| greedy_reject chosen c todo sel rej why :
    verdict self chosen c = Some why -> greedy self chosen todo sel rej ->
    greedy self chosen (c :: todo) sel ({| candidate_id := id c; reason := why |} :: rej).

Lemma tokens_of_app l l' : tokens_of (l ++ l') = tokens_of l + tokens_of l'.
Proof. induction l as [|c l IH]; simpl; [done|]. rewrite IH. lia. Qed.

Lemma tokens_of_perm l l' : l ≡ₚ l' -> tokens_of l = tokens_of l'.
Proof. induction 1; simpl; lia. Qed.

Lemma memory_of_app l l' : memory_of (l ++ l') = memory_of l + memory_of l'.
Proof. unfold memory_of. by rewrite List.filter_app, tokens_of_app. Qed.

Lemma memory_of_le l : memory_of l <= tokens_of l.
Proof.
  unfold memory_of. induction l as [|c l IH]; simpl; [done|].
  destruct (bool_decide _); simpl; lia.
Qed.

Lemma on_path_app p l l' : on_path p (l ++ l') = on_path p l + on_path p l'.
Proof. unfold on_path. rewrite List.filter_app, length_app. lia. Qed.

(** What a choice within the limits respects. *)
Definition within (self : BudgetPlanner) (l : list ContextCandidate) : Prop :=
  tokens_of l <= hard_limit self /\ memory_of l <= memory_limit self /\
  (forall p, p <> [] -> on_path p l <= max_per_path self) /\
  Forall (fun c => F32.ltb (relevance c) (min_relevance self) = false) l.

Lemma verdict_within self chosen c :
  within self chosen -> verdict self chosen c = None -> within self (chosen ++ [c]).
Proof.
  intros (H1 & H2 & H3 & H4). unfold verdict. destruct (F32.ltb _ _) eqn:Er; [done|].
  destruct (negb (is_empty _) && _) eqn:Ep; [done|]. destruct (bool_decide (source c = Memory) && _) eqn:Em; [done|].
  destruct (hard_limit self <? _) eqn:Eh; [done|]. intros _. unfold within.
  rewrite tokens_of_app, memory_of_app. split_and!.
  - simpl. lia.
  - unfold memory_of at 2. simpl. destruct (bool_decide (source c = Memory)); simpl in *; lia.
  - intros p Hp. rewrite on_path_app. unfold on_path at 2. simpl. unfold str_eqb.
    destruct (bool_decide_reflect (default [] (path c) = p)) as [E|_]; simpl; [|specialize (H3 p Hp); lia].
    rewrite E in Ep. destruct p as [|x p]; [done|]. simpl in Ep. lia.
  - apply Forall_app. split; [done|]. by repeat constructor.
Qed.

Lemma greedy_within self chosen todo sel rej :
  greedy self chosen todo sel rej -> within self chosen -> within self (chosen ++ sel).
Proof.
  induction 1 as [|chosen c todo sel rej Hv _ IH|chosen c todo sel rej why Hv _ IH]; intros Hw.
  - by rewrite app_nil_r.
  - change (c :: sel) with ([c] ++ sel). rewrite app_assoc. by apply IH, verdict_within.
  - by apply IH.
Qed.

Lemma greedy_decides self chosen todo sel rej :
  greedy self chosen todo sel rej ->
  map id todo ≡ₚ map id sel ++ map candidate_id rej /\ sel `sublist_of` todo.
Proof.
  induction 1 as [|chosen c todo sel rej Hv _ [IH1 IH2]|chosen c todo sel rej why Hv _ [IH1 IH2] ]; simpl.
  - split; [done|constructor].
  - split; [by rewrite IH1 | by constructor].
  - split; [by rewrite IH1, <- Permutation_middle | by constructor].
Qed.

(** ** The counters *)

(** The state of the loop counts what was chosen. *)
Definition counts (s : FillState) (chosen : list ContextCandidate) : Prop :=
  fs_used s = tokens_of chosen /\ fs_memory_used s = memory_of chosen /\
  forall p, p <> [] -> default 0 (fs_paths s !! p) = on_path p chosen.

Lemma wrap_add_exact a b : a + b <= u64_max -> wrap_add a b = a + b.
Proof. intros H. unfold wrap_add. apply N.mod_small. lia. Qed.

Lemma counts_select s chosen c :
  counts s chosen -> tokens_of chosen + value (tokens c) <= u64_max -> counts (select s c) (chosen ++ [c]).
Proof.
  intros (H1 & H2 & H3) Hb. pose proof (memory_of_le chosen). unfold counts, select. cbn [fs_used fs_memory_used fs_paths].
  rewrite tokens_of_app, memory_of_app. split_and!.
  - rewrite H1, wrap_add_exact by done. simpl. lia.
  - unfold memory_of at 2. simpl. destruct (bool_decide (source c = Memory)); simpl; [|lia].
    rewrite H2, wrap_add_exact by lia. lia.
  - intros p Hp. rewrite on_path_app. unfold on_path at 2. simpl. unfold str_eqb.
    destruct (bool_decide_reflect (default [] (path c) = p)) as [E|E]; simpl.
    + rewrite E. destruct p as [|x p]; [done|]. cbn [is_empty]. rewrite lookup_insert_eq. simpl. by rewrite H3.
    + rewrite N.add_0_r. destruct (is_empty _); [by apply H3|]. rewrite lookup_insert_ne by done. by apply H3.
Qed.

Lemma fill_step_verdict self s chosen c :
  counts s chosen -> tokens_of chosen + value (tokens c) <= u64_max ->
  fill_step self s c = match verdict self chosen c with Some why => reject s c why | None => select s c end.
Proof.
  intros (H1 & H2 & H3) Hb. pose proof (memory_of_le chosen). unfold fill_step, verdict.
  destruct (F32.ltb _ _); [done|]. rewrite H1, H2, !wrap_add_exact by lia.
  assert (negb (is_empty (default [] (path c))) && (max_per_path self <=? default 0 (fs_paths s !! default [] (path c)))
    = negb (is_empty (default [] (path c))) && (max_per_path self <=? on_path (default [] (path c)) chosen)) as ->.
  { destruct (default [] (path c)) as [|x p] eqn:E; [done|]. by rewrite H3. }
  by repeat case_match.
Qed.

Lemma fill_greedy self todo : forall s chosen,
  counts s chosen -> tokens_of chosen + tokens_of todo <= u64_max ->
  let s' := fold_left (fill_step self) todo s in
  exists sel rej, greedy self chosen todo sel rej /\
    fs_selected s' = fs_selected s ++ sel /\ fs_rejected s' = fs_rejected s ++ rej /\ counts s' (chosen ++ sel).
Proof.
  induction todo as [|c todo IH]; intros s chosen Hc Hb; simpl in *.
  { exists [], []. rewrite !app_nil_r. split_and!; [constructor | done | done | done]. }
  rewrite (fill_step_verdict _ _ chosen) by (done || lia). destruct (verdict self chosen c) as [why|] eqn:Ev.
  - destruct (IH (reject s c why) chosen) as (sel & rej & Hg & Hs & Hr & Hc'); [exact Hc | lia |].
    exists sel, ({| candidate_id := id c; reason := why |} :: rej). split_and!; [by constructor | done | | done].
    rewrite Hr. simpl. by rewrite <- app_assoc.
  - destruct (IH (select s c) (chosen ++ [c])) as (sel & rej & Hg & Hs & Hr & Hc').
    { apply counts_select; [done | lia]. }
    { rewrite tokens_of_app. simpl. lia. }
    exists (c :: sel), rej. split_and!; [by constructor | | done |].
    + rewrite Hs. simpl. by rewrite <- app_assoc.
    + by rewrite <- app_assoc in Hc'.
Qed.

(** ** Fusion *)

Definition all_candidates (sources : list FusionInput) : list ContextCandidate := concat (map input_candidates sources).

(** Each value of the map is filed under its own content. *)
Definition filed (m : Fused) : Prop := map_Forall (fun k cs => content_ref cs.1 = k) m.

Definition fused_tokens (m : Fused) : N := tokens_of (map (fun kv => kv.2.1) (map_to_list m)).

Lemma fused_tokens_insert m k cs :
  m !! k = None -> fused_tokens (<[k := cs]> m) = value (tokens cs.1) + fused_tokens m.
Proof.
  intros Hk. unfold fused_tokens.
  rewrite (tokens_of_perm _ (map (fun kv : rstr * (ContextCandidate * f32) => kv.2.1) ((k, cs) :: map_to_list m)));
    [done|]. apply Permutation_map. by apply map_to_list_insert.
Qed.

Lemma fused_tokens_update m k c s s' :
  m !! k = Some (c, s) -> fused_tokens (<[k := (c, s')]> m) = fused_tokens m.
Proof.
  intros Hk. rewrite <- (insert_delete_id m k (c, s) Hk) at 2. rewrite <- insert_delete_eq.
  rewrite !fused_tokens_insert by apply lookup_delete_eq. done.
Qed.

(** What fusing some candidates into a map does to it. *)
Definition fused_with (l : list ContextCandidate) (m m' : Fused) : Prop :=
  (filed m -> filed m') /\ fused_tokens m' <= fused_tokens m + tokens_of l /\
  (forall k, is_Some (m' !! k) <-> is_Some (m !! k) \/ k ∈ map content_ref l).

Lemma fused_with_trans l l' m m1 m2 : fused_with l m m1 -> fused_with l' m1 m2 -> fused_with (l ++ l') m m2.
Proof.
  intros (A1 & A2 & A3) (B1 & B2 & B3). split_and!; [tauto | rewrite tokens_of_app; lia |].
  intros k. rewrite B3, A3, map_app, elem_of_app. tauto.
Qed.

Lemma fuse_one_with w b m c : fused_with [c] m (fuse_one w b m c).
Proof.
  unfold fuse_one. destruct (m !! content_ref c) as [ [first score]|] eqn:E.
  - split_and!.
    + intros Hf. apply map_Forall_insert_2; [|done]. by apply (Hf _ _ E).
    + rewrite (fused_tokens_update _ _ _ _ _ E). simpl. lia.
    + intros k. rewrite lookup_insert_is_Some. simpl. rewrite list_elem_of_singleton. split.
      * intros [->|[_ ?] ]; [by right | by left].
      * intros [?| ->]; [|by left]. destruct (decide (content_ref c = k)); [by left | by right].
  - split_and!.
    + intros Hf. by apply map_Forall_insert_2.
    + rewrite fused_tokens_insert by done. simpl. lia.
    + intros k. rewrite lookup_insert_is_Some. simpl. rewrite list_elem_of_singleton. split.
      * intros [->|[_ ?] ]; [by right | by left].
      * intros [?| ->]; [|by left]. destruct (decide (content_ref c = k)); [by left | by right].
Qed.

Lemma fused_with_refl m : fused_with [] m m.
Proof.
  split_and!; [done | simpl; lia |]. intros k. split; [by left|]. intros [?|Hk]; [done|]. by apply elem_of_nil in Hk.
Qed.

Lemma fuse_all_with w b l : forall m, fused_with l m (fold_left (fuse_one w b) l m).
Proof.
  induction l as [|c l IH]; intros m; simpl; [apply fused_with_refl|].
  apply (fused_with_trans [c] l _ (fuse_one w b m c)); [apply fuse_one_with | apply IH].
Qed.

Lemma fuse_sources_with sources : forall m, fused_with (all_candidates sources) m (fold_left fuse_source sources m).
Proof.
  induction sources as [|input sources IH]; intros m; simpl; [apply fused_with_refl|].
  eapply fused_with_trans; [apply fuse_all_with | apply IH].
Qed.

Lemma fuse_spec sources :
  filed (fuse sources) /\ fused_tokens (fuse sources) <= tokens_of (all_candidates sources) /\
  (forall k, is_Some (fuse sources !! k) <-> k ∈ map content_ref (all_candidates sources)).
Proof.
  destruct (fuse_sources_with sources ∅) as (H1 & H2 & H3). split_and!.
  - apply H1. apply map_Forall_empty.
  - unfold fuse. etransitivity; [exact H2|]. unfold fused_tokens at 1. rewrite map_to_list_empty. simpl. lia.
  - intros k. unfold fuse. rewrite H3, lookup_empty. split; [|by right]. intros [ [? ?]|?]; done.
Qed.

Section Ranked.
(** A hash map is drained in some order. *)
Definition drains (into_values : Fused -> list (ContextCandidate * f32)) : Prop :=
  forall m, into_values m ≡ₚ map snd (map_to_list m).

Context (into_values : Fused -> list (ContextCandidate * f32)) (Hdrain : drains into_values).

Lemma ranked_perm sources :
  ranked into_values sources ≡ₚ map (fun cs => with_relevance cs.1 cs.2) (map snd (map_to_list (fuse sources))).
Proof. unfold ranked. rewrite sort_by_perm. apply Permutation_map, Hdrain. Qed.

Lemma ranked_sorted sources : StronglySorted (le_by rank) (ranked into_values sources).
Proof. apply sort_by_sorted. unfold rank. apply _. Qed.

Lemma ranked_refs sources :
  map content_ref (ranked into_values sources) ≡ₚ map fst (map_to_list (fuse sources)).
Proof.
  rewrite (Permutation_map content_ref (ranked_perm sources)), !map_map.
  destruct (fuse_spec sources) as (Hf & _). apply reflexive_eq.
  apply map_ext_in. intros [k cs] Hin. apply list_elem_of_In, elem_of_map_to_list in Hin. exact (Hf _ _ Hin).
Qed.

Lemma ranked_nodup sources : NoDup (map content_ref (ranked into_values sources)).
Proof. rewrite ranked_refs. apply NoDup_fst_map_to_list. Qed.

Lemma ranked_tokens sources : tokens_of (ranked into_values sources) <= tokens_of (all_candidates sources).
Proof.
  destruct (fuse_spec sources) as (_ & Ht & _). rewrite (tokens_of_perm _ _ (ranked_perm sources)).
  etransitivity; [|exact Ht]. apply N.eq_le_incl. unfold fused_tokens.
  generalize (map_to_list (fuse sources)). intros l. induction l as [|kv l IH]; simpl; [done|]. by rewrite IH.
Qed.
End Ranked.

Lemma rank_eq_ref a b : rank a b <> Gt -> rank b a <> Gt -> content_ref a = content_ref b.
Proof.
  assert (Ordering (@rank)) as Hr by (unfold rank; apply _). intros Hab Hba.
  rewrite (cmp_antisym a b) in Hba. destruct (rank a b) eqn:E; [|done..]. unfold rank, then_with in E.
  destruct (by_key_desc utility F32.total_cmp a b); [|done..]. by apply str_cmp_eq in E.
Qed.

(** What is chosen is a part of the ranking, in its order, whatever the counters say. *)
Lemma fill_sublist self todo : forall s,
  exists sel, fs_selected (fold_left (fill_step self) todo s) = fs_selected s ++ sel /\ sel `sublist_of` todo.
Proof.
  induction todo as [|c todo IH]; intros s; cbn [fold_left].
  - exists []. by rewrite app_nil_r.
  - destruct (IH (fill_step self s c)) as (sel & Hs & Hsub).
    assert (fs_selected (fill_step self s c) = fs_selected s \/ fs_selected (fill_step self s c) = fs_selected s ++ [c]) as [E|E].
    { unfold fill_step. split_cases; auto. }
    + exists sel. rewrite Hs, E. split; [done|by constructor].
    + exists (c :: sel). rewrite Hs, E, <- app_assoc. split; [done|by constructor].
Qed.

Lemma chosen_refs into_values self sources : drains into_values ->
  NoDup (map content_ref (selected (plan into_values self sources)))
  /\ (forall r, r ∈ map content_ref (selected (plan into_values self sources)) -> r ∈ map content_ref (all_candidates sources)).
Proof.
  intros Hd. destruct (fill_sublist self (ranked into_values sources) fill_init) as (sel & Hs & Hsub).
  unfold plan. cbn [selected]. rewrite Hs. cbn [fs_selected fill_init app]. apply (fmap_sublist content_ref) in Hsub. split.
  - eapply sublist_NoDup; [by apply ranked_nodup|exact Hsub].
  - intros r Hr. eapply sublist_subseteq in Hr; [|exact Hsub]. change (r ∈ map content_ref (ranked into_values sources)) in Hr.
    rewrite (ranked_refs into_values Hd) in Hr. apply list_elem_of_fmap in Hr as ([k cs] & -> & Hin). apply elem_of_map_to_list in Hin.
    destruct (fuse_spec sources) as (_ & _ & Hk). apply Hk. by exists cs.
Qed.

(** ** Properties *)

(** C36: the plan is the greedy choice from the ranked evidence: each piece of
    content appears once, in decreasing utility; going down the list a candidate
    is chosen unless it is irrelevant, its path is exhausted, or its tokens no
    longer fit the memory share or the hard limit beside those already chosen,
    and the plan's token count is the sum of the chosen. *)
Theorem plan_refines_greedy_choice into_values self sources :
  drains into_values -> tokens_of (all_candidates sources) <= u64_max ->
  let p := plan into_values self sources in
  exists cs,
    cs ≡ₚ map (fun cs => with_relevance cs.1 cs.2) (map snd (map_to_list (fuse sources))) /\
    StronglySorted (le_by rank) cs /\ NoDup (map content_ref cs) /\
    (forall r, r ∈ map content_ref cs <-> r ∈ map content_ref (all_candidates sources)) /\
    greedy self [] cs (selected p) (rejected p) /\ value (used p) = tokens_of (selected p).
Proof.
  intros Hd Ht p. exists (ranked into_values sources). split_and!.
  - by apply ranked_perm.
  - apply ranked_sorted.
  - by apply ranked_nodup.
  - intros r. rewrite (ranked_refs into_values Hd). destruct (fuse_spec sources) as (_ & _ & Hk). rewrite <- Hk.
    rewrite list_elem_of_fmap. split.
    + intros ([k cs] & -> & Hin). apply elem_of_map_to_list in Hin. eauto.
    + intros [cs Hcs]. exists (r, cs). split; [done|]. by apply elem_of_map_to_list.
  - destruct (fill_greedy self (ranked into_values sources) fill_init []) as (sel & rej & Hg & Hs & Hr & _);
      [by split_and! | pose proof (ranked_tokens into_values Hd sources); simpl; lia |].
    unfold p, plan. cbn [selected rejected]. by rewrite Hs, Hr.
  - destruct (fill_greedy self (ranked into_values sources) fill_init []) as (sel & rej & _ & Hs & _ & Hc & _);
      [by split_and! | pose proof (ranked_tokens into_values Hd sources); simpl; lia |].
    unfold p, plan. cbn [selected used value]. by rewrite Hs.
Qed.

(** Whatever was retrieved, the chosen evidence stays within the hard token
    limit, durable memory within its share of it, and no path takes more than its
    allotted places; nothing irrelevant is chosen, and every piece of content is
    either chosen or turned down for a reason, once. *)
Theorem plan_stays_in_budget into_values self sources :
  drains into_values -> tokens_of (all_candidates sources) <= u64_max ->
  let p := plan into_values self sources in
  value (used p) = tokens_of (selected p) /\ tokens_of (selected p) <= hard_limit self /\
  memory_of (selected p) <= memory_limit self /\
  (forall path, path <> [] -> on_path path (selected p) <= max_per_path self) /\
  Forall (fun c => F32.ltb (relevance c) (min_relevance self) = false) (selected p) /\
  map id (selected p) ++ map candidate_id (rejected p)
    ≡ₚ map (fun kv => id kv.2.1) (map_to_list (fuse sources)).
Proof.
  intros Hd Ht p.
  destruct (fill_greedy self (ranked into_values sources) fill_init []) as (sel & rej & Hg & Hs & Hr & Hc & _);
    [by split_and! | pose proof (ranked_tokens into_values Hd sources); simpl; lia |].
  assert (selected p = sel) as Es by (unfold p, plan; cbn [selected]; by rewrite Hs).
  assert (rejected p = rej) as Er by (unfold p, plan; cbn [rejected]; by rewrite Hr).
  destruct (greedy_within _ _ _ _ _ Hg) as (W1 & W2 & W3 & W4).
  { split_and!; [simpl; lia | unfold memory_of; simpl; lia | intros q _; unfold on_path; simpl; lia | constructor]. }
  destruct (greedy_decides _ _ _ _ _ Hg) as [Hids _]. rewrite Es, Er. simpl in *. split_and!; try done.
  rewrite <- Hids, (Permutation_map id (ranked_perm into_values Hd sources)), !map_map. done.
Qed.

(** The plan does not depend on the order in which the hash map of fused
    candidates is drained. *)
Theorem plan_is_deterministic into_values into_values' self sources :
  drains into_values -> drains into_values' ->
  plan into_values self sources = plan into_values' self sources.
Proof.
  intros Hd Hd'. assert (ranked into_values sources = ranked into_values' sources) as E; [|unfold plan; by rewrite E].
  apply (StronglySorted_unique_strong (le_by rank)).
  - intros a b Ha Hb Hab Hba. pose proof (rank_eq_ref a b Hab Hba) as Hr.
    pose proof (ranked_nodup into_values Hd sources) as Hn.
    assert (b ∈ ranked into_values sources) as Hb' by (by rewrite ranked_perm, <- (ranked_perm into_values' Hd')).
    apply list_elem_of_lookup in Ha as [i Hi]. apply list_elem_of_lookup in Hb' as [j Hj].
    assert (i = j) as ->; [|congruence].
    assert (forall k x, ranked into_values sources !! k = Some x ->
      map content_ref (ranked into_values sources) !! k = Some (content_ref x)) as Hmap.
    { intros k x Hk. change (map content_ref ?l) with (content_ref <$> l). by rewrite list_lookup_fmap, Hk. }
    eapply NoDup_lookup; [exact Hn | by apply Hmap |]. rewrite Hr. by apply Hmap.
  - apply ranked_sorted.
  - apply ranked_sorted.
  - by rewrite !ranked_perm.
Qed.
End Plan.

Definition sample_candidate (name : rstr) (s : CandidateSource) (n : N) (score : f32) : @ContextCandidate unit :=
  {| id := name; source := s; content_ref := name; path := Some (lit "src/lib.rs"); symbol := None;
     line_start := Some 1; line_end := Some 9; source_rank := 1; relevance := score;
     tokens := {| value := n; count_source := Estimate |}; rest := tt |}.

(** A code hit, one seen by two sources, and a memory too long for its share. *)
Definition sample_sources : list (@FusionInput unit) :=
  [{| source_weight := F32.one;
      input_candidates := [sample_candidate (lit "a") Index 40 (F32.of_parts 1 (-1));
                           sample_candidate (lit "b") Index 50 (F32.of_parts 1 (-2))] |};
   {| source_weight := F32.one; input_candidates := [sample_candidate (lit "b") Exact 50 F32.one] |};
   {| source_weight := F32.of_parts 1 (-1); input_candidates := [sample_candidate (lit "m") Memory 60 F32.one] |}].

Definition sample_drain (m : gmap rstr (@ContextCandidate unit * f32)) := map snd (map_to_list m).

Definition sample_plan := plan sample_drain (with_max_per_path (new 100) 3) sample_sources.

Example sample_plan_chooses :
  map id (selected sample_plan) = [lit "b"; lit "a"] /\ value (used sample_plan) = 90 /\
  rejected sample_plan = [{| candidate_id := lit "m"; reason := lit "memory_budget_share" |}].
Proof. vm_compute. done. Qed.

Lemma plan_refines_greedy_choice_witness :
  exists cs, greedy (with_max_per_path (new 100) 3) [] cs (selected sample_plan) (rejected sample_plan) /\
    NoDup (map content_ref cs).
Proof.
  destruct (plan_refines_greedy_choice sample_drain (with_max_per_path (new 100) 3) sample_sources)
    as (cs & _ & _ & Hn & _ & Hg & _).
  - intros m. reflexivity.
  - vm_compute. congruence.
  - exists cs. split; [exact Hg | exact Hn].
Defined.

Lemma plan_stays_in_budget_witness : value (used sample_plan) <= 100.
Proof.
  destruct (plan_stays_in_budget sample_drain (with_max_per_path (new 100) 3) sample_sources) as (Hu & Hl & _).
  - intros m. reflexivity.
  - vm_compute. congruence.
  - change (value (used sample_plan) <= 100). etransitivity; [apply N.eq_le_incl; exact Hu | exact Hl].
Defined.

Lemma plan_is_deterministic_witness :
  sample_plan = plan (fun m => reverse (sample_drain m)) (with_max_per_path (new 100) 3) sample_sources.
Proof.
  apply (plan_is_deterministic sample_drain (fun m => reverse (sample_drain m))).
  - intros m. reflexivity.
  - intros m. apply reverse_Permutation.
Defined.

End Budget.
