(* ===== verification/Json.v ===== *)
(** JSON values, as [serde_json] with [preserve_order] keeps them: an object is
    an association list without repeated keys, in the order of insertion, and
    two objects are equal whatever their orders.

    A number is opaque: [Num] with its equality [number_eqb]. *)

From S2P Require Import Prelude RStr.
From Stdlib Require Import ZifyBool ZifyN.

Module Json.

Inductive Value {Num : Type} :=
| Null
| Bool (b : bool)
| Number (n : Num)
| String (s : rstr)
| Array (l : list Value)
| Object (m : list (rstr * Value)).
Arguments Value Num : clear implicits.

Abbreviation Map Num := (list (rstr * Value Num)) (only parsing).

(** ** Maps *)

Section Map.
Context {V : Type}.
Implicit Types m : list (rstr * V).

(** [Map::get] and [Map::insert]: the position of a key already there is kept. *)
Fixpoint get m (k : rstr) : option V :=
  match m with
  | [] => None
  | (k', v) :: m => if str_eqb k' k then Some v else get m k
  end.

Fixpoint insert m (k : rstr) (v : V) : list (rstr * V) :=
  match m with
  | [] => [(k, v)]
  | (k', w) :: m => if str_eqb k' k then (k, v) :: m else (k', w) :: insert m k v
  end.

(** [iter.collect::<Map<_, _>>()]. *)
Definition collect (l : list (rstr * V)) : list (rstr * V) := fold_left (fun m kv => insert m kv.1 kv.2) l [].

Definition keys m : list rstr := map fst m.

Lemma get_Some_in m k v : get m k = Some v -> (k, v) ∈ m.
Proof.
  induction m as [|[k' w] m IH]; simpl; [done|]. unfold str_eqb.
  case_bool_decide; [intros [= ->]; subst; by left|]. right. by apply IH.
Qed.

Lemma get_in m k v : NoDup (keys m) -> (k, v) ∈ m -> get m k = Some v.
Proof.
  induction m as [|[k' w] m IH]; simpl; intros Hn Hin; [by apply elem_of_nil in Hin|].
  apply NoDup_cons in Hn as [Hk Hn]. unfold str_eqb. case_bool_decide as E.
  - subst. apply elem_of_cons in Hin as [ [= ->]|Hin]; [done|].
    destruct Hk. apply list_elem_of_fmap. by exists (k, v).
  - apply elem_of_cons in Hin as [ [= -> ->]|Hin]; [done|]. by apply IH.
Qed.

Lemma get_None m k : get m k = None <-> k ∉ keys m.
Proof.
  induction m as [|[k' w] m IH]; simpl; [split; [intros _; apply not_elem_of_nil | done]|].
  rewrite not_elem_of_cons. unfold str_eqb. case_bool_decide as E; [split; [done|]; by intros [H _]; destruct H|].
  rewrite IH. split; [by split | by intros [_ ?] ].
Qed.

Lemma get_is_Some m k : is_Some (get m k) <-> k ∈ keys m.
Proof.
  destruct (get m k) eqn:E.
  - split; [|by eexists]. intros _. apply get_Some_in in E. apply list_elem_of_fmap. eexists. split; [|exact E]. done.
  - apply get_None in E. split; [by intros [? ?] | done].
Qed.

Lemma get_insert m k v k' : get (insert m k v) k' = if str_eqb k k' then Some v else get m k'.
Proof.
  unfold str_eqb. induction m as [|[j w] m IH]; simpl; unfold str_eqb in *; [done|].
  destruct (bool_decide_reflect (j = k)) as [->|E]; simpl; unfold str_eqb; [by destruct (bool_decide (k = k'))|].
  rewrite IH. destruct (bool_decide_reflect (k = k')) as [->|]; [|done]. by rewrite bool_decide_eq_false_2.
Qed.

Lemma get_insert_eq m k v : get (insert m k v) k = Some v.
Proof. rewrite get_insert. unfold str_eqb. by rewrite bool_decide_eq_true_2. Qed.

Lemma get_insert_ne m k v k' : k' <> k -> get (insert m k v) k' = get m k'.
Proof. intros H. rewrite get_insert. unfold str_eqb. by rewrite bool_decide_eq_false_2 by done. Qed.

Lemma keys_insert m k v : keys (insert m k v) = if bool_decide (k ∈ keys m) then keys m else keys m ++ [k].
Proof.
  induction m as [|[j w] m IH]; simpl; [done|]. unfold str_eqb. destruct (bool_decide_reflect (j = k)) as [->|E]; simpl.
  - by rewrite bool_decide_eq_true_2 by (by left).
  - rewrite IH. destruct (decide (k ∈ keys m)) as [Hin|Hin].
    + rewrite !bool_decide_eq_true_2 by (done || by right). done.
    + rewrite !bool_decide_eq_false_2; [done | | done]. rewrite not_elem_of_cons. naive_solver.
Qed.

Lemma insert_nodup m k v : NoDup (keys m) -> NoDup (keys (insert m k v)).
Proof.
  intros Hn. rewrite keys_insert. case_bool_decide; [done|].
  apply NoDup_app. split_and!; [done | | apply NoDup_singleton].
  intros x Hx ->%list_elem_of_singleton. done.
Qed.

Lemma insert_fresh m k v : k ∉ keys m -> insert m k v = m ++ [(k, v)].
Proof.
  induction m as [|[j w] m IH]; simpl; [done|]. rewrite not_elem_of_cons. intros [Hk Hm].
  unfold str_eqb. rewrite bool_decide_eq_false_2 by done. by rewrite IH.
Qed.

Lemma collect_from_nodup l : forall m, NoDup (keys (m ++ l)) ->
  fold_left (fun m kv => insert m kv.1 kv.2) l m = m ++ l.
Proof.
  induction l as [|[k v] l IH]; intros m Hn; simpl; [by rewrite app_nil_r|].
  rewrite insert_fresh.
  - rewrite IH; rewrite <- app_assoc; done.
  - unfold keys in *. rewrite map_app in Hn. apply NoDup_app in Hn as (_ & Hd & _). intros Hk. destruct (Hd k Hk). by left.
Qed.

(** Collecting entries with distinct keys keeps them as they are. *)
Lemma collect_nodup l : NoDup (keys l) -> collect l = l.
Proof. apply (collect_from_nodup l []). Qed.
End Map.

(** ** Values *)

Section Value.
Context {Num : Type} (number_eqb : Num -> Num -> bool).
Abbreviation value := (Value Num).

Section Ind.
Context (P : value -> Prop)
  (HNull : P Null) (HBool : forall b, P (Bool b)) (HNumber : forall n, P (Number n))
  (HString : forall s, P (String s)) (HArray : forall l, Forall P l -> P (Array l))
  (HObject : forall m, Forall (fun kv => P kv.2) m -> P (Object m)).

(** Induction with the hypothesis for every element and every member. *)
Fixpoint value_ind (v : value) : P v :=
  match v with
  | Null => HNull
  | Bool b => HBool b
  | Number n => HNumber n
  | String s => HString s
  | Array l =>
      HArray l ((fix go l := match l return Forall P l with
                             | [] => Forall_nil_2 P
                             | x :: l => Forall_cons_2 P x l (value_ind x) (go l)
                             end) l)
  | Object m =>
      HObject m ((fix go m := match m return Forall (fun kv => P kv.2) m with
                              | [] => Forall_nil_2 _
                              | kv :: m => Forall_cons_2 (fun kv => P kv.2) kv m (value_ind kv.2) (go m)
                              end) m)
  end.
End Ind.

Definition as_object (v : value) : option (Map Num) := match v with Object m => Some m | _ => None end.
Definition is_object (v : value) : bool := match v with Object _ => true | _ => false end.

(** [Value]'s equality. *)
Fixpoint value_eqb (a b : value) {struct a} : bool :=
  match a, b with
  | Null, Null => true
  | Bool x, Bool y => eqb x y
  | Number x, Number y => number_eqb x y
  | String s, String t => str_eqb s t
  | Array l, Array l' =>
      (fix go l l' := match l, l' with
                      | [], [] => true
                      | x :: l, y :: l' => value_eqb x y && go l l'
                      | _, _ => false
                      end) l l'
  | Object m, Object m' =>
      (length m =? length m')%nat
      && forallb (fun kv => match get m' kv.1 with Some v => value_eqb kv.2 v | None => false end) m
  | _, _ => false
  end.

Definition list_eqb (l l' : list value) : bool := value_eqb (Array l) (Array l').

(** No object, at any depth, repeats a key: every parsed value. *)
Fixpoint wf (v : value) : bool :=
  match v with
  | Array l => forallb wf l
  | Object m => bool_decide (NoDup (keys m)) && forallb (fun kv => wf kv.2) m
  | _ => true
  end.

(** How deep containers nest. *)
Fixpoint depth (v : value) : nat :=
  match v with
  | Array l => S (list_max (map depth l))
  | Object m => S (list_max (map (fun kv => depth kv.2) m))
  | _ => O
  end.

Lemma wf_object m : wf (Object m) = true <-> NoDup (keys m) /\ (forall k v, (k, v) ∈ m -> wf v = true).
Proof.
  cbn [wf]. rewrite andb_true_iff, bool_decide_eq_true, forallb_forall. split; intros [Hn H]; split; [done | | done |].
  - intros k v Hin. apply (H (k, v)). by apply list_elem_of_In.
  - intros [k v] Hin. apply (H k v). by apply list_elem_of_In.
Qed.

Lemma wf_array l : wf (Array l) = true <-> Forall (fun v => wf v = true) l.
Proof. cbn [wf]. rewrite forallb_forall, Forall_forall. setoid_rewrite list_elem_of_In. done. Qed.

Lemma list_eqb_Forall2 l l' : list_eqb l l' = true <-> Forall2 (fun x y => value_eqb x y = true) l l'.
Proof.
  unfold list_eqb. revert l'. induction l as [|x l IH]; intros [|y l']; simpl.
  - split; [constructor | done].
  - split; [done | intros H; inversion H].
  - split; [done | intros H; inversion H].
  - rewrite andb_true_iff. specialize (IH l'). simpl in IH. rewrite IH. split.
    + intros [? ?]. by constructor.
    + intros H. inversion H; by subst.
Qed.

Lemma object_eqb m m' :
  value_eqb (Object m) (Object m') = true <->
  length m = length m' /\ forall k v, (k, v) ∈ m -> exists v', get m' k = Some v' /\ value_eqb v v' = true.
Proof.
  cbn [value_eqb]. rewrite andb_true_iff, Nat.eqb_eq, forallb_forall.
  split; intros [Hl H]; split; [done | | done |].
  - intros k v Hin. specialize (H (k, v)). rewrite list_elem_of_In in Hin. specialize (H Hin). simpl in H.
    destruct (get m' k) as [v'|]; [by exists v' | done].
  - intros [k v] Hin. rewrite <- list_elem_of_In in Hin. destruct (H k v Hin) as (v' & Hg & Hv). simpl. by rewrite Hg.
Qed.

Context (Hrefl : forall n, number_eqb n n = true).

Lemma value_eqb_refl v : wf v = true -> value_eqb v v = true.
Proof.
  induction v as [ | | | |l IH|m IH] using value_ind; intros Hw; simpl; try done.
  - by destruct b.
  - unfold str_eqb. by apply bool_decide_eq_true.
  - apply list_eqb_Forall2. apply wf_array in Hw. induction l as [|x l IHl]; constructor.
    + apply Forall_cons in IH as [IH _]. apply Forall_cons in Hw as [Hw _]. auto.
    + apply Forall_cons in IH as [_ IH]. apply Forall_cons in Hw as [_ Hw]. auto.
  - apply (object_eqb m m). apply wf_object in Hw as [Hn Hw]. split; [done|]. intros k v Hin. exists v.
    split; [by apply get_in|]. rewrite Forall_forall in IH. apply (IH (k, v)); [done|]. by apply (Hw k).
Qed.
End Value.
End Json.
