(* ===== verification/JsonPack.v ===== *)
(** Re-encoding of JSON ([fork-core/rtk/src/jsonpack.rs]): the field names that
    every row of an array repeats are written once, as the header of a table.

    [serde_json] is the parameters [from_str] and [to_string] (its parser and
    its compact printer), [number_eqb] and [is_int].  A panic of the decoder is
    the error [Panic].  Memory is not modelled: a declared row count reserves
    nothing. *)

From S2P Require Import Prelude RStr Json.
From Stdlib Require Import ZifyBool ZifyN.

Module JsonPack.
Export Json.

Definition MAX_COLUMNS : nat := 512.
Definition COLS_KEY : rstr := lit "_cols".
Definition ROWS_KEY : rstr := lit "_rows".
Definition FLAT_KEY : rstr := lit "_flat".
Definition MIN_TABLE_ROWS : nat := 2.

Module ColumnKind.
Inductive t := Int | Float | Bool | String | Json.

#[export] Instance t_eq_dec : EqDecision t.
Proof. solve_decision. Defined.

Definition as_str (k : t) : rstr :=
  match k with
  | Int => lit "int" | Float => lit "float" | Bool => lit "bool" | String => lit "string" | Json => lit "json"
  end.

Definition from_str (text : rstr) : option t :=
  if str_eqb text (lit "int") then Some Int
  else if str_eqb text (lit "float") then Some Float
  else if str_eqb text (lit "bool") then Some Bool
  else if str_eqb text (lit "string") then Some String
  else if str_eqb text (lit "json") then Some Json
  else None.

Definition merge (self other : t) : t :=
  if bool_decide (self = other) then self
  else match self, other with
       | Int, Float | Float, Int => Float
       | _, _ => Json
       end.
End ColumnKind.

Record Column := {
  name : rstr;
  path : list rstr;
  kind : ColumnKind.t;
  nullable : bool;
  present_rows : nat;
}.

Inductive Cell := Absent | Quoted (text : rstr) | Bare (text : rstr).

(** How decoding fails: with a message, or by a panic. *)
Inductive UnpackError := Message (m : rstr) | Panic.

(** A loop that stops at the first [None]. *)
Definition try_fold {A S} (f : S -> A -> option S) : list A -> S -> option S :=
  fix go l s := match l with [] => Some s | x :: l => s ← f s x; go l s end.

Section Pack.
Context {Num : Type} (number_eqb : Num -> Num -> bool) (is_int : Num -> bool).
Context (from_str : rstr -> result rstr (Value Num)) (to_string : Value Num -> rstr).
Abbreviation value := (Value Num).
Abbreviation map_ := (list (rstr * value)).

(** ** Columns *)

Definition kind_of (v : value) : ColumnKind.t :=
  match v with
  | Bool _ => ColumnKind.Bool
  | Number n => if is_int n then ColumnKind.Int else ColumnKind.Float
  | String _ => ColumnKind.String
  | _ => ColumnKind.Json
  end.

Definition is_null (v : value) : bool := match v with Null => true | _ => false end.

(** The columns found, and where each name is among them. *)
Record Found := { columns : list Column; index : gmap rstr nat }.

Definition merge_column (v : value) (existing : Column) : Column :=
  {| name := name existing; path := path existing; kind := ColumnKind.merge (kind existing) (kind_of v);
     nullable := nullable existing || is_null v; present_rows := S (present_rows existing) |}.

(** A value that is no object, or an empty one.  A position in the index is
    always in range. *)
Definition collect_leaf (prefix : list rstr) (v : value) (found : Found) : option Found :=
  let name := join (lit ".") prefix in
  match index found !! name with
  | Some position =>
      Some {| columns := alter (merge_column v) position (columns found); index := index found |}
  | None =>
      let columns' := columns found ++ [{| name := name; path := prefix; kind := kind_of v;
                                           nullable := is_null v; present_rows := 1 |}] in
      if (MAX_COLUMNS <? length columns')%nat then None
      else Some {| columns := columns'; index := <[name := length (columns found)]> (index found) |}
  end.

Definition ambiguous_key (key : rstr) : bool :=
  contains_char (ch ".") key || contains_char (ch ",") key || starts_with (lit "_") key.

Fixpoint collect_value (prefix : list rstr) (v : value) (found : Found) {struct v} : option Found :=
  match v with
  | Object ((_ :: _) as inner) =>
      try_fold (fun found kv =>
        if ambiguous_key kv.1 then None else collect_value (prefix ++ [kv.1]) kv.2 found) inner found
  | _ => collect_leaf prefix v found
  end.

Definition collect_from (object : map_) (prefix : list rstr) (found : Found) : option Found :=
  try_fold (fun found kv =>
    if ambiguous_key kv.1 then None else collect_value (prefix ++ [kv.1]) kv.2 found) object found.

Definition finish_column (rows : nat) (c : Column) : Column :=
  {| name := name c; path := path c; kind := kind c; nullable := nullable c || (present_rows c <? rows)%nat;
     present_rows := present_rows c |}.

Definition collect_columns (objects : list map_) : option (list Column) :=
  found ← try_fold (fun found object => collect_from object [] found) objects {| columns := []; index := ∅ |};
  Some (map (finish_column (length objects)) (columns found)).

Fixpoint lookup (object : map_) (path : list rstr) : option value :=
  match path with
  | [] => None
  | [segment] => get object segment
  | segment :: path => v ← get object segment; m ← as_object v; lookup m path
  end.

(** ** Encoding a table *)

Definition needs_quote (text : rstr) : bool :=
  is_empty text || str_eqb text (lit "null") || contains_char (ch ",") text || contains_char 34 text
  || contains_char 10 text || contains_char 13 text || starts_with (lit " ") text || ends_with (lit " ") text.

Definition csv_quote (text : rstr) : rstr :=
  if needs_quote text
  then [34] ++ concat (map (fun c => if c =? 34 then [34; c] else [c]) text) ++ [34]
  else text.

Definition encode_cell (object : map_) (column : Column) : rstr :=
  match lookup object (path column) with
  | None => []
  | Some v =>
      match v, kind column with
      | Null, _ => lit "null"
      | String text, ColumnKind.String => csv_quote text
      | _, _ => csv_quote (to_string v)
      end
  end.

Definition column_spec (c : Column) : rstr :=
  name c ++ lit ":" ++ ColumnKind.as_str (kind c) ++ (if nullable c then lit "?" else []).

Definition encode_row (columns : list Column) (object : map_) : rstr :=
  join (lit ",") (map (encode_cell object) columns) ++ [10].

Definition pack_top_level_array (rows : list value) : option rstr :=
  if (length rows <? MIN_TABLE_ROWS)%nat then None
  else
    objects ← mapM as_object rows;
    columns ← collect_columns objects;
    if is_nil columns then None
    else Some (lit "[" ++ dec (N.of_nat (length rows)) ++ lit "]{" ++ join (lit ",") (map column_spec columns)
               ++ lit "}" ++ [10] ++ concat (map (encode_row columns) objects)).

(** ** Decoding a table *)

Fixpoint read_quoted (s : rstr) : option (rstr * rstr) :=
  match s with
  | [] => None
  | c :: s =>
      if c =? 34 then
        match s with
        | d :: s' => if d =? 34 then '(text, rest) ← read_quoted s'; Some (34 :: text, rest) else Some ([], s)
        | [] => Some ([], [])
        end
      else '(text, rest) ← read_quoted s; Some (c :: text, rest)
  end.

Definition read_cell (s : rstr) : option (Cell * rstr) :=
  match s with
  | c :: s' =>
      if c =? 34 then '(text, rest) ← read_quoted s'; Some (Quoted text, rest)
      else let '(text, rest) := span (N.eqb (ch ",")) s in Some (if is_empty text then Absent else Bare text, rest)
  | [] => Some (Absent, [])
  end.

(** The loop over the cells of a line: every turn but the last eats a comma. *)
Fixpoint read_cells (fuel : nat) (s : rstr) : result UnpackError (list Cell) :=
  match fuel with
  | O => Err (Message [])
  | S fuel =>
      match read_cell s with
      | None => Err (Message (lit "unterminated quoted cell"))
      | Some (cell, []) => Ok [cell]
      | Some (cell, c :: rest) =>
          if c =? ch "," then cells ← read_cells fuel rest; Ok (cell :: cells)
          else Err (Message (lit "unexpected character '" ++ [c] ++ lit "' after cell"))
      end
  end.

Definition split_csv_row (line : rstr) (expected : nat) : result UnpackError (list Cell) :=
  cells ← read_cells (S (length line)) line;
  if (length cells =? expected)%nat then Ok cells
  else Err (Message (lit "expected " ++ dec (N.of_nat expected) ++ lit " cells, found " ++ dec (N.of_nat (length cells)))).

Definition json (text : rstr) : result UnpackError value :=
  match from_str text with Ok v => Ok v | Err message => Err (Message message) end.

Definition decode_cell (cell : Cell) (column : Column) : result UnpackError (option value) :=
  match cell with
  | Absent => Ok None
  | Bare text =>
      if str_eqb text (lit "null") then Ok (Some Null)
      else match kind column with
           | ColumnKind.String => Ok (Some (String text))
           | _ => v ← json text; Ok (Some v)
           end
  | Quoted text =>
      match kind column with
      | ColumnKind.String => Ok (Some (String text))
      | _ => v ← json text; Ok (Some v)
      end
  end.

(** [None] is the panic of [as_object_mut().expect(..)]. *)
Fixpoint insert_path (object : map_) (path : list rstr) (v : value) : option map_ :=
  match path with
  | [] => Some object
  | [last] => Some (insert object last v)
  | segment :: path =>
      match default (Object []) (get object segment) with
      | Object inner => inner ← insert_path inner path v; Some (insert object segment (Object inner))
      | _ => None
      end
  end.

Fixpoint decode_row (columns : list Column) (cells : list Cell) (object : map_) : result UnpackError map_ :=
  match columns, cells with
  | column :: columns, cell :: cells =>
      v ← decode_cell cell column;
      match v with
      | None => decode_row columns cells object
      | Some v => object ← ok_or (insert_path object (path column) v) Panic; decode_row columns cells object
      end
  | _, _ => Ok object
  end.

Definition read_column (spec : rstr) : result UnpackError Column :=
  '(name, kind_text) ← ok_or (rsplit_once (lit ":") spec) (Message (lit "column '" ++ spec ++ lit "' has no type"));
  let '(kind_text, nullable) :=
    match strip_suffix (lit "?") kind_text with Some stripped => (stripped, true) | None => (kind_text, false) end in
  kind ← ok_or (ColumnKind.from_str kind_text) (Message (lit "unknown column type '" ++ kind_text ++ lit "'"));
  Ok {| name := name; path := split_char (N.eqb (ch ".")) name; kind := kind; nullable := nullable; present_rows := 0 |}.

Definition decode_line (columns : list Column) (line : rstr) : result UnpackError value :=
  cells ← split_csv_row line (length columns);
  object ← decode_row columns cells [];
  Ok (Object object).

(** A loop that collects its results, or stops at the first error. *)
Fixpoint collect_results {A B} (f : A -> result UnpackError B) (l : list A) : result UnpackError (list B) :=
  match l with
  | [] => Ok []
  | x :: l => y ← f x; ys ← collect_results f l; Ok (y :: ys)
  end.

Definition unpack_table (rest : rstr) : result UnpackError value :=
  '(count_text, after_count) ← ok_or (split_once (lit "]") rest) (Message (lit "missing row-count terminator"));
  declared ← ok_or (parse_unsigned u64_max count_text) (Message (lit "row count is not a number"));
  after_count ← ok_or (strip_prefix (lit "{") after_count) (Message (lit "missing column declaration"));
  '(header, body) ← ok_or (split_once (lit "}" ++ [10]) after_count) (Message (lit "unterminated column declaration"));
  columns ← collect_results read_column (split_char (N.eqb (ch ",")) header);
  rows ← collect_results (decode_line columns) (lines body);
  if N.of_nat (length rows) =? declared then Ok (Array rows)
  else Err (Message (lit "declared " ++ dec declared ++ lit " rows, decoded " ++ dec (N.of_nat (length rows)))).

(** ** Envelopes *)

Fixpoint contains_marker_keys (v : value) : bool :=
  match v with
  | Object m =>
      existsb (fun kv => one_of kv.1 [COLS_KEY; ROWS_KEY; FLAT_KEY]) m
      || existsb (fun kv => contains_marker_keys kv.2) m
  | Array items => existsb contains_marker_keys items
  | _ => false
  end.

(** The columns of a table form, [None] when there are too many or a key could
    be taken for a marker. *)
Definition table_column (columns : list rstr) (key : rstr) : option (list rstr) :=
  if starts_with (lit "_") key then None
  else if one_of key columns then Some columns
  else if (MAX_COLUMNS <? S (length columns))%nat then None
  else Some (columns ++ [key]).

(** [object[column]] is there: the objects have as many keys as there are
    columns, and no others. *)
Definition table_form (items : list value) : option value :=
  if (length items <? MIN_TABLE_ROWS)%nat then None
  else
    objects ← mapM as_object items;
    if existsb (fun object => existsb (fun kv => is_object kv.2) object) objects then None
    else
      columns ← try_fold (fun columns object => try_fold table_column (keys object) columns) objects [];
      if existsb (fun object => negb (length object =? length columns)%nat) objects then None
      else
        let rows := map (fun object => Array (map (fun column => default Null (get object column)) columns)) objects in
        Some (Object [(COLS_KEY, Array (map String columns)); (ROWS_KEY, Array rows)]).

Fixpoint tabulate (v : value) : option value :=
  match v with
  | Object m => out ← mapM (fun kv => v ← tabulate kv.2; Some (kv.1, v)) m; Some (Object (collect out))
  | Array items =>
      match table_form items with
      | Some table => Some table
      | None => out ← mapM tabulate items; Some (Array out)
      end
  | other => Some other
  end.

Definition pack_envelope (v : value) : option rstr :=
  if contains_marker_keys v then None
  else
    tabulated ← tabulate v;
    if value_eqb number_eqb tabulated v then Some (to_string v) else Some (to_string tabulated).

Definition as_str (v : value) : option rstr := match v with String s => Some s | _ => None end.

(** One row of a table, back into an object. *)
Definition untabulate_row (detabulate : value -> value) (names : list rstr) (row : value) : value :=
  Object (match row with
          | Array cells => collect (zip_with (fun name cell => (name, detabulate cell)) names cells)
          | _ => []
          end).

(** The recursion goes down the containers; [fuel] is more than their depth. *)
Fixpoint detabulate_fuel (fuel : nat) (v : value) : value :=
  match fuel with
  | O => v
  | S fuel =>
      match v with
      | Object m =>
          let members := Object (collect (map (fun kv => (kv.1, detabulate_fuel fuel kv.2)) m)) in
          match get m COLS_KEY, get m ROWS_KEY with
          | Some (Array cols), Some (Array rows) =>
              if (length m =? 2)%nat
              then match mapM as_str cols with
                   | Some names => Array (map (untabulate_row (detabulate_fuel fuel) names) rows)
                   | None => members
                   end
              else members
          | _, _ => members
          end
      | Array items => Array (map (detabulate_fuel fuel) items)
      | other => other
      end
  end.

Definition detabulate (v : value) : value := detabulate_fuel (S (depth v)) v.

(** ** Packing *)

Definition unpack (packed : rstr) : result UnpackError value :=
  match strip_prefix (lit "[") packed with
  | Some rest => unpack_table rest
  | None => v ← json packed; Ok (detabulate v)
  end.

(** [None] is a panic. *)
Definition pack (input : rstr) : option (option rstr) :=
  match from_str input with
  | Err _ => Some None
  | Ok parsed =>
      match match parsed with
            | Array rows => pack_top_level_array rows
            | Object _ => pack_envelope parsed
            | _ => None
            end with
      | None => Some None
      | Some packed =>
          match unpack packed with
          | Err Panic => None
          | Err (Message _) => Some None
          | Ok decoded =>
              if negb (value_eqb number_eqb decoded parsed) then Some None
              else if (blen input <=? blen packed)%nat then Some None
              else Some (Some packed)
          end
      end
  end.

(** ** What the JSON library promises *)

(** A parsed value repeats no key and nests no deeper than the parser's
    recursion limit; up to there a printed value parses back; the printer is
    compact, so it writes no line feeds. *)
Record JsonLaws : Prop := {
  number_refl n : number_eqb n n = true;
  parse_wf text v : from_str text = Ok v -> wf v = true /\ (depth v <= 127)%nat;
  parse_print v : wf v = true -> (depth v <= 127)%nat -> from_str (to_string v) = Ok v;
  print_object m : exists text, to_string (Object m) = lit "{" ++ text;
  print_line v : contains_char 10 (to_string v) = false;
}.

(** ** Loops *)

Lemma try_fold_cons {A S} (f : S -> A -> option S) x l s : try_fold f (x :: l) s = f s x ≫= try_fold f l.
Proof. done. Qed.

Lemma try_fold_invariant {A S} (f : S -> A -> option S) (P : S -> Prop) l : forall s s',
  (forall s x s', x ∈ l -> P s -> f s x = Some s' -> P s') -> P s -> try_fold f l s = Some s' -> P s'.
Proof.
  induction l as [|x l IH]; intros s s' Hstep Hs; [by intros [= <-]|].
  rewrite try_fold_cons. destruct (f s x) as [s1|] eqn:E; [|done]. cbn. intros Hrest. apply (IH s1); [ | | exact Hrest].
  - intros a y b Hy. apply Hstep. by right.
  - apply (Hstep s x); [by left | done | done].
Qed.

Lemma try_fold_app {A S} (f : S -> A -> option S) l l' s :
  try_fold f (l ++ l') s = try_fold f l s ≫= try_fold f l'.
Proof.
  revert s. induction l as [|x l IH]; intros s; [done|]. simpl app. rewrite !try_fold_cons. destruct (f s x); [|done]. cbn. apply IH.
Qed.

Lemma one_of_true k l : one_of k l = true <-> k ∈ l.
Proof.
  unfold one_of, str_eqb. rewrite existsb_exists. setoid_rewrite bool_decide_eq_true. setoid_rewrite list_elem_of_In.
  split; [by intros (x & ? & ->) | eauto].
Qed.

Lemma mapM_exists {A B} (f : A -> option B) (R : A -> B -> Prop) l :
  Forall (fun x => exists y, f x = Some y /\ R x y) l -> exists ys, mapM f l = Some ys /\ Forall2 R l ys.
Proof.
  induction 1 as [|x l (y & Hy & Hr) _ (ys & Hys & Hrs)]; [exists []; by split; [|constructor]|].
  exists (y :: ys). split; [|by constructor]. simpl. rewrite Hy. simpl. by rewrite Hys.
Qed.

(** From the elements of one list to those of another, mapped. *)
Lemma Forall2_back {A B C} (f : B -> C) (R : A -> B -> Prop) (Q : B -> Prop) (S : C -> A -> Prop) l k :
  Forall2 R l k -> Forall Q k -> (forall x y, R x y -> Q y -> S (f y) x) -> Forall2 S (map f k) l.
Proof.
  intros H. induction H as [|x y l k Hxy _ IH]; intros Hq Hs; simpl; [constructor|].
  apply Forall_cons in Hq as [Hy Hq]. constructor; [by apply Hs | by apply IH].
Qed.

Lemma list_max_map {A} (f : A -> nat) l n : (list_max (map f l) < n)%nat <-> (0 < n)%nat /\ Forall (fun x => (f x < n)%nat) l.
Proof.
  induction l as [|x l IH].
  - simpl. split; [by split|]. by intros [? _].
  - simpl. rewrite Forall_cons, Nat.max_lub_lt_iff, IH. tauto.
Qed.

(** ** Envelopes *)

Section Envelope.
Context (laws : JsonLaws).

Abbreviation eqv a b := (value_eqb number_eqb a b = true).

Lemma no_markers_object m :
  contains_marker_keys (Object m) = false ->
  get m COLS_KEY = None /\ Forall (fun kv => contains_marker_keys kv.2 = false) m.
Proof.
  cbn [contains_marker_keys]. intros H. bool_prop. split.
  - apply get_None. intros Hin. apply list_elem_of_fmap in Hin as ([k v] & Hk & Hin). simpl in Hk. subst.
    assert (existsb (fun kv : rstr * value => one_of kv.1 [COLS_KEY; ROWS_KEY; FLAT_KEY]) m = true) as Ht; [|congruence].
    apply existsb_exists. exists (COLS_KEY, v). by rewrite <- list_elem_of_In.
  - apply Forall_forall. intros [k v] Hin. destruct (contains_marker_keys v) eqn:E; [|done].
    assert (existsb (fun kv : rstr * value => contains_marker_keys kv.2) m = true) as Ht; [|congruence].
    apply existsb_exists. exists (k, v). by rewrite <- list_elem_of_In.
Qed.

Lemma no_markers_array l :
  contains_marker_keys (Array l) = false -> Forall (fun v => contains_marker_keys v = false) l.
Proof.
  cbn [contains_marker_keys]. intros H. apply Forall_forall. intros v Hin. destruct (contains_marker_keys v) eqn:E; [|done].
  assert (existsb contains_marker_keys l = true) as Ht; [|congruence].
  apply existsb_exists. exists v. by rewrite <- list_elem_of_In.
Qed.

Lemma depth_array l n :
  (depth (Array l) < S n)%nat <-> (0 < n)%nat /\ Forall (fun v => depth (Num := Num) v < n)%nat l.
Proof. cbn [depth]. by rewrite <- Nat.succ_lt_mono, list_max_map. Qed.

Lemma depth_object m n :
  (depth (Object m) < S n)%nat <-> (0 < n)%nat /\ Forall (fun kv => depth (Num := Num) kv.2 < n)%nat m.
Proof. cbn [depth]. by rewrite <- Nat.succ_lt_mono, list_max_map. Qed.

Lemma map_members_id (f : value -> value) (m : map_) :
  Forall (fun kv => f kv.2 = kv.2) m -> map (fun kv => (kv.1, f kv.2)) m = m.
Proof. induction 1 as [|[k v] m Hv _ IH]; simpl; [done|]. simpl in Hv. by rewrite Hv, IH. Qed.

Lemma map_id_Forall {A} (f : A -> A) l : Forall (fun x => f x = x) l -> map f l = l.
Proof. induction 1 as [|x l Hx _ IH]; simpl; [done|]. by rewrite Hx, IH. Qed.

(** Payload data without the markers is left as it is. *)
Lemma detabulate_plain v : wf v = true -> contains_marker_keys v = false ->
  forall fuel, (depth v < fuel)%nat -> detabulate_fuel fuel v = v.
Proof.
  induction v as [ | | | |l IH|m IH] using value_ind; intros Hw Hm [|fuel] Hd; try done.
  - cbn [detabulate_fuel]. f_equal. apply map_id_Forall. apply wf_array in Hw. apply no_markers_array in Hm.
    apply depth_array in Hd as [_ Hd]. rewrite Forall_forall in *. auto.
  - cbn [detabulate_fuel]. apply wf_object in Hw as [Hn Hw]. apply no_markers_object in Hm as [-> Hm].
    apply depth_object in Hd as [_ Hd]. rewrite map_members_id; [by rewrite collect_nodup|].
    rewrite Forall_forall in *. intros [k v] Hin. simpl. apply (IH (k, v)); [done | by apply (Hw k) | by apply (Hm (k, v)) |].
    by apply (Hd (k, v)).
Qed.

Lemma eqv_array l l' : Forall2 (fun x y => eqv x y) l l' -> eqv (Array l) (Array l').
Proof. apply list_eqb_Forall2. Qed.

(** Members equal under each key, in the same order. *)
Lemma eqv_object m m' :
  NoDup (keys m') -> Forall2 (fun kv kv' => kv.1 = kv'.1 /\ eqv kv.2 kv'.2) m m' -> eqv (Object m) (Object m').
Proof.
  intros Hn H. apply object_eqb. split; [by eapply Forall2_length|]. intros k v Hin.
  apply list_elem_of_lookup in Hin as [i Hi]. destruct (Forall2_lookup_l _ _ _ _ _ H Hi) as ([k' v'] & Hi' & Hk & Hv).
  simpl in *. subst. exists v'. split; [|done]. apply get_in; [done|]. by eapply list_elem_of_lookup_2.
Qed.

(** *** Tables *)

Lemma table_columns_spec ks : forall cols cols',
  try_fold table_column ks cols = Some cols' -> NoDup cols ->
  NoDup cols' /\ (forall k, k ∈ cols \/ k ∈ ks -> k ∈ cols').
Proof.
  induction ks as [|k ks IH]; intros cols cols'; rewrite ?try_fold_cons.
  - intros [= <-] Hn. split; [done|]. intros k [?|H]; [done|]. by apply elem_of_nil in H.
  - destruct (table_column cols k) as [c1|] eqn:Ec; [|done]. cbn. intros H Hn.
    assert (NoDup c1 /\ (forall x, x = k \/ x ∈ cols -> x ∈ c1)) as [Hn1 H1].
    { unfold table_column in Ec. destruct (starts_with _ k); [done|]. destruct (one_of k cols) eqn:Ek.
      - injection Ec as <-. split; [done|]. intros x [->|?]; [|done]. by apply one_of_true.
      - destruct (_ <? _)%nat; [done|]. injection Ec as <-. split.
        + apply NoDup_app. split_and!; [done | | apply NoDup_singleton].
          intros x Hx ->%list_elem_of_singleton. apply one_of_true in Hx. congruence.
        + intros x [->|?]; apply elem_of_app; [right; by apply list_elem_of_singleton | by left]. }
    destruct (IH _ _ H Hn1) as [Hn' Hin]. split; [done|]. setoid_rewrite elem_of_cons. naive_solver.
Qed.

Lemma table_columns_all objects : forall cols cols',
  try_fold (fun cols object => try_fold table_column (keys (V := value) object) cols) objects cols = Some cols' ->
  NoDup cols -> NoDup cols' /\ (forall k, k ∈ cols -> k ∈ cols') /\
  Forall (fun object => forall k, k ∈ keys object -> k ∈ cols') objects.
Proof.
  induction objects as [|o os IH]; intros cols cols'; rewrite ?try_fold_cons.
  - intros [= <-] Hn. split_and!; [done | done | constructor].
  - destruct (try_fold table_column (keys o) cols) as [c1|] eqn:E; [|done]. cbn. intros H Hn.
    destruct (table_columns_spec _ _ _ E Hn) as [Hn1 H1]. destruct (IH _ _ H Hn1) as (Hn' & H2 & H3).
    split_and!; [done | by auto |]. constructor; [by auto | done].
Qed.

(** One object as a row of its columns, and back. *)
Lemma untabulate_row_spec f (columns : list rstr) (o : map_) :
  NoDup columns -> NoDup (keys o) -> length o = length columns -> (forall k, k ∈ keys o -> k ∈ columns) ->
  Forall (fun kv => f kv.2 = kv.2 /\ wf kv.2 = true) o ->
  eqv (untabulate_row f columns (Array (map (fun column => default Null (get o column)) columns))) (Object o).
Proof.
  intros Hc Ho Hl Hsub Hf. unfold untabulate_row.
  assert (keys o ≡ₚ columns) as Hp.
  { apply submseteq_length_Permutation; [|unfold keys; rewrite length_map; lia]. by apply NoDup_submseteq. }
  set (m := zip_with _ _ _).
  assert (m = map (fun c => (c, f (default Null (get o c)))) columns) as Hm.
  { unfold m. clear. induction columns as [|c cs IH]; simpl; [done|]. by rewrite IH. }
  assert (keys m = columns) as Hk by (rewrite Hm; unfold keys; rewrite map_map; apply map_id).
  rewrite collect_nodup by (by rewrite Hk). apply object_eqb. split; [rewrite Hm, length_map; lia|].
  intros k v Hin. rewrite Hm in Hin. apply list_elem_of_fmap in Hin as (c & [= -> ->] & Hin).
  rewrite <- Hp in Hin. apply get_is_Some in Hin as [w Hw]. exists w. split; [done|]. rewrite Hw. simpl.
  pose proof (get_Some_in _ _ _ Hw) as Hin. rewrite Forall_forall in Hf. destruct (Hf _ Hin) as [Hfw Hww]. simpl in *.
  rewrite Hfw. apply value_eqb_refl; [apply (number_refl laws) | done].
Qed.

Lemma objects_of (items : list value) objects : mapM as_object items = Some objects -> items = map Object objects.
Proof.
  intros H%mapM_Some. induction H as [|v o items os Hv _ IH]; [done|]. simpl. rewrite IH. by destruct v; simplify_eq/=.
Qed.

Lemma objects_back (objects : list map_) : mapM as_object (map Object objects) = Some objects.
Proof. induction objects as [|o os IH]; [done|]. cbn. by rewrite IH. Qed.

Lemma strings_of names : mapM as_str (map String names) = Some names.
Proof. induction names as [|n ns IH]; simpl; [done|]. by rewrite IH. Qed.

(** What a table form decodes to, and how much deeper it is. *)
Lemma table_form_spec items t :
  table_form items = Some t -> wf (Array items) = true -> contains_marker_keys (Array items) = false ->
  wf t = true /\ (depth t <= S (depth (Array items)))%nat /\
  forall fuel, (depth t < fuel)%nat -> eqv (detabulate_fuel fuel t) (Array items).
Proof.
  unfold table_form. destruct (_ <? _)%nat eqn:El; [done|].
  destruct (mapM as_object items) as [objects|] eqn:Eo; [|done]. cbn [mbind option_bind].
  apply objects_of in Eo. subst items. destruct (existsb _ objects) eqn:Eflat; [done|].
  destruct (try_fold _ objects []) as [columns|] eqn:Ec; [|done]. cbn [mbind option_bind].
  destruct (existsb (fun object : map_ => negb (length object =? length columns)%nat) objects) eqn:Elen; [done|].
  intros [= <-] Hw Hm.
  destruct (table_columns_all _ _ _ Ec (NoDup_nil_2)) as (Hn & _ & Hsub).
  rewrite wf_array, Forall_map in Hw. apply no_markers_array in Hm. rewrite Forall_map in Hm.
  assert (Forall (fun o => NoDup (keys o) /\ length o = length columns /\ (forall k, k ∈ keys o -> k ∈ columns) /\
            Forall (fun kv => wf kv.2 = true /\ contains_marker_keys kv.2 = false) o) objects) as Hobj.
  { apply Forall_forall. intros o Ho. rewrite Forall_forall in Hw, Hm, Hsub. specialize (Hw o Ho). specialize (Hm o Ho).
    apply wf_object in Hw as [Hno Hw]. apply no_markers_object in Hm as [_ Hm]. split_and!; [done | | by apply Hsub |].
    - destruct (length o =? length columns)%nat eqn:E; [by apply Nat.eqb_eq|].
      assert (existsb (fun object : map_ => negb (length object =? length columns)%nat) objects = true); [|congruence].
      apply existsb_exists. exists o. rewrite <- list_elem_of_In, E. done.
    - rewrite Forall_forall in Hm |- *. intros [k v] Hin. split; [by apply (Hw k) | by apply (Hm (k, v))]. }
  set (row := fun object : map_ => Array (map (fun column => default Null (get object column)) columns)).
  assert (forall (P : value -> Prop) o, P Null -> Forall (fun kv => P kv.2) o ->
            Forall P (map (fun column => default Null (get o column)) columns)) as Hcells.
  { intros P o HN HP. apply Forall_map, Forall_forall. intros c _. destruct (get o c) as [v|] eqn:E; [|done].
    apply get_Some_in in E. rewrite Forall_forall in HP. by apply (HP (c, v)). }
  split_and!.
  - apply wf_object. split; [cbn; by repeat constructor; rewrite ?elem_of_cons, ?elem_of_nil; intuition discriminate|].
    intros k v Hin. rewrite !elem_of_cons, elem_of_nil in Hin. destruct Hin as [ [= -> ->]|[ [= -> ->]|[] ] ].
    + apply wf_array, Forall_map, Forall_forall. done.
    + apply wf_array, Forall_map. eapply Forall_impl; [exact Hobj|]. intros o (_ & _ & _ & Ho). apply wf_array.
      apply Hcells; [done|]. eapply Forall_impl; [exact Ho|]. by intros kv [? _].
  - set (D := depth (Array (map Object objects))). assert (D < S D)%nat as HD by lia. unfold D at 1 in HD.
    apply depth_array in HD as [H0 HD]. rewrite Forall_map in HD.
    assert (Forall (fun o => Forall (fun kv => depth kv.2 < pred D)%nat o /\ (0 < pred D)%nat) objects) as Hd.
    { eapply Forall_impl; [exact HD|]. intros o Ho. destruct D as [|D]; [lia|]. by apply depth_object in Ho as [? ?]. }
    assert (2 <= D)%nat as H2.
    { destruct objects as [|o os]; [done|]. apply Forall_cons in Hd as [ [_ Hd] _]. lia. }
    apply (proj1 (Nat.lt_succ_r _ _)). destruct D as [|[|D] ]; [lia..|]. apply depth_object. split; [lia|].
    apply Forall_cons; split; [|apply Forall_cons; split; [|constructor] ]; cbn [snd].
    + apply depth_array. split; [lia|]. apply Forall_map, Forall_forall. intros; simpl; lia.
    + apply depth_array. split; [lia|]. apply Forall_map. eapply Forall_impl; [exact Hd|]. intros o [Ho _].
      apply depth_array. split; [lia|]. apply Hcells; [simpl; lia | exact Ho].
  - intros [|fuel] Hf; [lia|]. apply depth_object in Hf as [H0 Hf]. apply Forall_cons in Hf as [_ Hf].
    apply Forall_cons in Hf as [Hf _]. simpl in Hf. destruct fuel as [|fuel]; [lia|]. apply depth_array in Hf as [_ Hf].
    rewrite Forall_map in Hf. remember (S fuel) as f eqn:Ef. cbn [detabulate_fuel].
    change (get [(COLS_KEY, Array (map String columns)); (ROWS_KEY, Array (map row objects))] COLS_KEY)
      with (Some (Array (map (@String Num) columns))).
    change (get [(COLS_KEY, Array (map String columns)); (ROWS_KEY, Array (map row objects))] ROWS_KEY)
      with (Some (Array (map row objects))).
    cbv iota zeta. cbn [length Nat.eqb]. rewrite strings_of, map_map. apply eqv_array.
    rewrite Forall2_fmap. apply Forall_Forall2_diag. rewrite Forall_forall in *. intros o Ho.
    destruct (Hobj o Ho) as (Hno & Hlen & Hs & Hwm). apply untabulate_row_spec; [done..|].
    specialize (Hf o Ho). destruct fuel as [|fuel]; [simpl in Hf; lia|]. apply depth_array in Hf as [_ Hf].
    rewrite Forall_forall in *. intros [k v] Hin. destruct (Hwm _ Hin) as [Hwv Hmv]. simpl in *. split; [|done].
    apply detabulate_plain; [done..|]. assert (k ∈ columns) as Hk by (apply Hs, list_elem_of_fmap; by exists (k, v)).
    assert (depth v < fuel)%nat; [|lia]. rewrite Forall_forall in Hf. apply Hf. apply list_elem_of_fmap. exists k.
    by rewrite (get_in o k v).
Qed.

(** Folding the tables into a value, and back. *)
Lemma tabulate_spec v : wf v = true -> contains_marker_keys v = false ->
  exists t, tabulate v = Some t /\ wf t = true /\ (depth t <= S (depth v))%nat /\
    forall fuel, (depth t < fuel)%nat -> eqv (detabulate_fuel fuel t) v.
Proof.
  induction v as [ |b|n|s|l IH|m IH] using value_ind; intros Hw Hm;
    try (eexists; split_and!; [done | done | simpl; lia |]; intros [|fuel] Hf; [lia|]; cbn [detabulate_fuel];
         apply value_eqb_refl; [apply (number_refl laws) | done]; fail).
  - cbn [tabulate]. destruct (table_form l) as [t|] eqn:Et.
    + exists t. split; [done|]. by apply table_form_spec.
    + pose proof (proj1 (wf_array l) Hw) as Hw'. pose proof (no_markers_array _ Hm) as Hm'.
      destruct (mapM_exists tabulate (fun v t => wf t = true /\ (depth t <= S (depth v))%nat /\
        forall fuel, (depth t < fuel)%nat -> eqv (detabulate_fuel fuel t) v) l) as (ts & -> & Hts).
      { rewrite Forall_forall in *. auto. }
      exists (Array ts). split_and!; [done | | |].
      * apply wf_array. eapply Forall2_Forall_r; [exact Hts|]. apply Forall_forall. tauto.
      * apply (proj1 (Nat.lt_succ_r _ _)), depth_array. split; [lia|]. assert (depth (Array l) < S (depth (Array l)))%nat as HD by lia.
        apply depth_array in HD as [_ HD]. eapply Forall2_Forall_r; [exact Hts|].
        eapply Forall_impl; [exact HD|]. simpl. intros v Hv t (_ & Ht & _). lia.
      * intros [|fuel] Hf; [lia|]. apply depth_array in Hf as [_ Hf]. cbn [detabulate_fuel]. apply eqv_array.
        apply (Forall2_back _ _ _ _ _ _ Hts Hf). intros v t (_ & _ & Ht) Hlt. by apply Ht.
  - cbn [tabulate]. destruct (proj1 (wf_object m) Hw) as [Hn Hw']. destruct (no_markers_object _ Hm) as [Hcols Hm'].
    destruct (mapM_exists (fun kv => v ← tabulate kv.2; Some (kv.1, v)) (fun kv kt => kv.1 = kt.1 /\ wf kt.2 = true /\
      (depth kt.2 <= S (depth kv.2))%nat /\ forall fuel, (depth kt.2 < fuel)%nat -> eqv (detabulate_fuel fuel kt.2) kv.2) m)
      as (ts & -> & Hts).
    { rewrite Forall_forall in *. intros [k v] Hin. destruct (IH _ Hin (Hw' k v Hin) (Hm' _ Hin)) as (t & Ht & Hr).
      exists (k, t). simpl in *. by rewrite Ht. }
    assert (keys ts = keys m) as Hk.
    { clear -Hts. induction Hts as [|[k v] [k' t] m ts [Hk _] _ IH]; simpl in *; [done|]. by rewrite Hk, IH. }
    cbn [mbind option_bind]. rewrite collect_nodup by (by rewrite Hk). exists (Object ts). split_and!; [done | | |].
    + apply wf_object. rewrite Hk. split; [done|]. intros k t Hin. apply list_elem_of_lookup in Hin as [i Hi].
      destruct (Forall2_lookup_r _ _ _ _ _ Hts Hi) as (kv & _ & _ & Hwt & _). done.
    + apply (proj1 (Nat.lt_succ_r _ _)), depth_object. split; [lia|]. assert (depth (Object m) < S (depth (Object m)))%nat as HD by lia.
      apply depth_object in HD as [_ HD]. eapply Forall2_Forall_r; [exact Hts|].
      eapply Forall_impl; [exact HD|]. simpl. intros v Hv t (_ & _ & Ht & _). lia.
    + intros [|fuel] Hf; [lia|]. apply depth_object in Hf as [_ Hf]. cbn [detabulate_fuel].
      assert (get ts COLS_KEY = None) as -> by (apply get_None; rewrite Hk; by apply get_None).
      rewrite collect_nodup by (unfold keys; rewrite map_map; cbn; by rewrite <- Hk in Hn).
      apply eqv_object; [done|]. apply (Forall2_back _ _ _ _ _ _ Hts Hf). simpl. intros v t (? & _ & _ & Ht) Hlt. split; [done | by apply Ht].
Qed.
End Envelope.

(** ** The text of a table *)

Definition cell_end (rest : rstr) : Prop := rest = [] \/ exists t, rest = ch "," :: t.

Lemma read_quoted_escape s rest : head rest <> Some 34 ->
  read_quoted (concat (map (fun c => if c =? 34 then [34; c] else [c]) s) ++ 34 :: rest) = Some (s, rest).
Proof.
  intros Hr. induction s as [|c s IH]; simpl.
  - destruct rest as [|d rest]; [done|]. destruct (N.eqb_spec d 34); [by subst | done].
  - destruct (N.eqb_spec c 34) as [->|Hc]; simpl; [by rewrite IH|].
    destruct (N.eqb_spec c 34); [done|]. by rewrite IH.
Qed.

Lemma span_cell t rest : contains_char (ch ",") t = false -> cell_end rest ->
  RStr.span (N.eqb (ch ",")) (t ++ rest) = (t, rest).
Proof.
  intros Ht Hr. induction t as [|c t IH]; simpl.
  - by destruct Hr as [->|[r ->] ].
  - simpl in Ht. apply orb_false_iff in Ht as [Hc Ht]. by rewrite Hc, IH.
Qed.

(** What a cell's text is read as, whatever cell follows. *)
Definition reads_as (t : rstr) (cell : Cell) : Prop :=
  forall rest, cell_end rest -> read_cell (t ++ rest) = Some (cell, rest).

Lemma reads_absent : reads_as [] Absent.
Proof. by intros rest [->|[t ->] ]. Qed.

Lemma reads_bare t : t <> [] -> contains_char (ch ",") t = false -> contains_char 34 t = false -> reads_as t (Bare t).
Proof.
  intros Hne Hc Hq rest Hr. destruct t as [|c t]; [done|].
  apply (orb_false_iff (34 =? c)) in Hq as [Hq _]. rewrite N.eqb_sym in Hq. unfold read_cell. cbn [app]. rewrite Hq.
  change (c :: t ++ rest) with ((c :: t) ++ rest). by rewrite span_cell.
Qed.

Lemma reads_csv text : reads_as (csv_quote text) (if needs_quote text then Quoted text else Bare text).
Proof.
  unfold csv_quote. destruct (needs_quote text) eqn:E.
  - intros rest Hr. rewrite <- !app_assoc. simpl. rewrite read_quoted_escape; [done|]. by destruct Hr as [->|[t ->] ].
  - unfold needs_quote in E. bool_prop. apply reads_bare; [by intros -> | done | done].
Qed.

Lemma read_cells_join ts cells : Forall2 reads_as ts cells -> ts <> [] ->
  forall fuel, (length (join (lit ",") ts) < fuel)%nat -> read_cells fuel (join (lit ",") ts) = Ok cells.
Proof.
  induction 1 as [|t cell ts cells Ht Hts IH]; [done|]. intros _ fuel Hf. destruct fuel as [|fuel]; [lia|].
  destruct ts as [|t' ts].
  - inversion Hts; subst. simpl join. cbn [read_cells]. specialize (Ht [] (or_introl eq_refl)). rewrite app_nil_r in Ht.
    by rewrite Ht.
  - change (join (lit ",") (t :: t' :: ts)) with (t ++ ch "," :: join (lit ",") (t' :: ts)) in *.
    cbn [read_cells]. rewrite Ht by (right; eauto). simpl (ch "," =? ch ","). cbv iota.
    rewrite IH; [done | done |]. rewrite length_app in Hf. cbn [length] in Hf. lia.
Qed.

Lemma split_row ts cells : Forall2 reads_as ts cells -> ts <> [] ->
  split_csv_row (join (lit ",") ts) (length cells) = Ok cells.
Proof.
  intros H Hne. unfold split_csv_row. rewrite (read_cells_join _ _ H Hne) by lia. cbn. by rewrite Nat.eqb_refl.
Qed.

(** The parsed cell of an encoded one. *)
Definition cell_of (object : map_) (column : Column) : Cell :=
  match lookup object (path column) with
  | None => Absent
  | Some v =>
      match v, kind column with
      | Null, _ => Bare (lit "null")
      | String text, ColumnKind.String => if needs_quote text then Quoted text else Bare text
      | _, _ => if needs_quote (to_string v) then Quoted (to_string v) else Bare (to_string v)
      end
  end.

Lemma encode_reads object column : reads_as (encode_cell object column) (cell_of object column).
Proof.
  unfold encode_cell, cell_of. destruct (lookup object (path column)) as [v|]; [|apply reads_absent].
  destruct v; try apply reads_csv; [by apply reads_bare|]. destruct (kind column); apply reads_csv.
Qed.

(** A column of strings holds nothing but strings, on one line each. *)
Definition single_line (object : map_) (column : Column) : bool :=
  match kind column with
  | ColumnKind.String =>
      match lookup object (path column) with
      | None => true
      | Some (String text) => negb (contains_char 10 text)
      | Some _ => false
      end
  | _ => true
  end.

Lemma not_null text : needs_quote text = false -> str_eqb text (lit "null") = false.
Proof. unfold needs_quote. intros H. by bool_prop. Qed.

Section Laws.
Context (laws : JsonLaws).

Lemma lookup_depth path : forall (object : map_) (v : value), lookup object path = Some v -> wf (Object object) = true ->
  wf v = true /\ (depth v <= depth (Object object))%nat.
Proof.
  assert (forall (object : map_) k (v : value), get object k = Some v -> wf (Object object) = true ->
    wf v = true /\ (depth v < depth (Object object))%nat) as Hget.
  { intros object k v Hk%get_Some_in Hw. apply wf_object in Hw as [_ Hw]. split; [by apply (Hw k)|].
    assert (depth (Object object) < S (depth (Object object)))%nat as Hd by lia. apply depth_object in Hd as [_ Hd].
    rewrite Forall_forall in Hd. apply (Hd (k, v) Hk). }
  induction path as [|k path IH]; intros object v; [done|]. destruct path as [|k' path].
  - intros Hk Hw. destruct (Hget _ _ _ Hk Hw). split; [done|lia].
  - change (lookup object (k :: k' :: path)) with (w ← get object k; m ← as_object w; lookup m (k' :: path)).
    destruct (get object k) as [w|] eqn:Ek; [|done]. cbn [mbind option_bind]. destruct w as [ | | | | |m]; try done.
    cbn [as_object mbind option_bind]. intros Hv Hw. destruct (Hget _ _ _ Ek Hw) as [Hwm Hdm].
    destruct (IH _ _ Hv Hwm). split; [done|lia].
Qed.

Lemma decode_encoded object column :
  wf (Object object) = true -> (depth (Object object) <= 127)%nat -> single_line object column = true ->
  decode_cell (cell_of object column) column = Ok (lookup object (path column)).
Proof.
  intros Hw Hd Hs. unfold cell_of, single_line in *. destruct (lookup object (path column)) as [v|] eqn:El; [|done].
  destruct (lookup_depth _ _ _ El Hw) as [Hwv Hdv].
  assert (forall column', kind column' <> ColumnKind.String ->
    decode_cell (if needs_quote (to_string v) then Quoted (to_string v) else Bare (to_string v)) column' = Ok (Some v)) as Hjson.
  { intros c Hc. assert (json (to_string v) = Ok v) as Hj.
    { unfold json. by rewrite (parse_print laws) by (done || lia). }
    destruct (needs_quote _) eqn:E; cbn [decode_cell]; [|rewrite not_null by done]; rewrite Hj; by destruct (kind c). }
  destruct (kind column) eqn:Ek; destruct v; try done; try (apply Hjson; by rewrite Ek).
  destruct (needs_quote s) eqn:E; cbn [decode_cell]; [by rewrite Ek|]. by rewrite not_null, Ek.
Qed.

(** A cell writes no line feed. *)
Lemma csv_quote_line c text : c <> 34 -> contains_char c text = false -> contains_char c (csv_quote text) = false.
Proof.
  intros Hc Ht. unfold csv_quote. destruct (needs_quote text); [|done]. rewrite !contains_char_app.
  assert (contains_char c [34] = false) as H34 by (simpl; apply N.eqb_neq in Hc; by rewrite Hc). rewrite H34, orb_false_r. simpl.
  induction text as [|d text IH]; [done|]. simpl in *. apply orb_false_iff in Ht as [Hd Ht].
  destruct (d =? 34); simpl; rewrite ?Hd, IH by done; [|done]. apply N.eqb_neq in Hc. by rewrite Hc.
Qed.

Lemma encode_cell_line object column : single_line object column = true -> contains_char 10 (encode_cell object column) = false.
Proof.
  intros Hs. unfold encode_cell, single_line in *. destruct (lookup object (path column)) as [v|]; [|done].
  assert (contains_char 10 (csv_quote (to_string v)) = false) as Hj by (by apply csv_quote_line; [|apply (print_line laws)]).
  destruct v, (kind column); try done. apply csv_quote_line; [done|]. by apply negb_true_iff in Hs.
Qed.

Lemma csv_quote_end text : last (csv_quote text) <> Some 13.
Proof.
  unfold csv_quote. destruct (needs_quote text) eqn:E; [by rewrite app_assoc, last_snoc|].
  unfold needs_quote in E. bool_prop. intros Hl. apply last_Some in Hl as [t ->].
  rewrite contains_char_app in *. simpl in *. bool_prop. done.
Qed.

(** ** The header *)

(** A column's name spells its path. *)
Definition column_ok (c : Column) : Prop :=
  name c = join (lit ".") (path c) /\ path c <> [] /\
  Forall (fun k => contains_char (ch ".") k = false /\ contains_char (ch ",") k = false) (path c).

Definition declared (c : Column) : Column :=
  {| name := name c; path := path c; kind := kind c; nullable := nullable c; present_rows := 0 |}.

Lemma column_path c : column_ok c -> split_char (N.eqb (ch ".")) (name c) = path c.
Proof.
  intros (-> & Hne & Hp). apply (split_join (ch ".")); [done|]. eapply Forall_impl; [exact Hp|]. by intros k [? _].
Qed.

Lemma column_spec_comma c : column_ok c -> contains_char (ch ",") (column_spec c) = false.
Proof.
  intros (Hn & Hne & Hp). unfold column_spec. rewrite contains_char_app, Hn, contains_char_join.
  - by destruct (kind c), (nullable c).
  - done.
  - eapply Forall_impl; [exact Hp|]. by intros k [_ ?].
Qed.

Lemma read_column_spec c : column_ok c -> read_column (column_spec c) = Ok (declared c).
Proof.
  intros Hc. unfold read_column, column_spec. change (lit ":") with [ch ":"].
  change ([ch ":"] ++ ?x) with (ch ":" :: x). rewrite rsplit_once_char by (by destruct (kind c), (nullable c)).
  cbn [ok_or mbind result_bind]. rewrite column_path by done.
  assert (match strip_suffix (lit "?") (ColumnKind.as_str (kind c) ++ (if nullable c then lit "?" else [])) with
          | Some stripped => (stripped, true)
          | None => (ColumnKind.as_str (kind c) ++ (if nullable c then lit "?" else []), false)
          end = (ColumnKind.as_str (kind c), nullable c)) as -> by (by destruct (kind c), (nullable c)).
  assert (ColumnKind.from_str (ColumnKind.as_str (kind c)) = Some (kind c)) as -> by (by destruct (kind c)). done.
Qed.

Lemma collect_results_Forall2 {A B} (f : A -> result UnpackError B) l ys :
  Forall2 (fun x y => f x = Ok y) l ys -> collect_results f l = Ok ys.
Proof. induction 1 as [|x y l ys Hx _ IH]; [done|]. cbn [collect_results]. by rewrite Hx, IH. Qed.

Lemma collect_results_length {A B} (f : A -> result UnpackError B) l : forall ys,
  collect_results f l = Ok ys -> length ys = length l.
Proof.
  induction l as [|x l IH]; intros ys; cbn [collect_results]; [by intros [= <-]|].
  intros H. inv_ok. simpl. by rewrite (IH _ H0).
Qed.

Lemma read_header cols : cols <> [] -> Forall column_ok cols ->
  collect_results read_column (split_char (N.eqb (ch ",")) (join (lit ",") (map column_spec cols))) = Ok (map declared cols).
Proof.
  intros Hne H. change (lit ",") with [ch ","]. rewrite split_join.
  - apply collect_results_Forall2. rewrite Forall2_fmap. apply Forall_Forall2_diag. eapply Forall_impl; [exact H|].
    apply read_column_spec.
  - by destruct cols.
  - apply Forall_map. eapply Forall_impl; [exact H|]. apply column_spec_comma.
Qed.

Lemma column_spec_line c : contains_char 10 (name c) = false -> contains_char 10 (column_spec c) = false.
Proof. intros H. unfold column_spec. rewrite contains_char_app, H. by destruct (kind c), (nullable c). Qed.

(** A closing brace before a line feed, behind text without line feeds. *)
Lemma split_once_header h body : contains_char 10 h = false ->
  split_once (lit "}" ++ [10]) (h ++ lit "}" ++ [10] ++ body) = Some (h, body).
Proof.
  change (lit "}" ++ [10]) with [125; 10]. change (lit "}" ++ [10] ++ body) with (125 :: 10 :: body).
  induction h as [|c h IH]; [done|]. intros H. apply (orb_false_iff (10 =? c)) in H as [Hc H].
  cbn [split_once app]. assert (strip_prefix [125; 10] (c :: h ++ 125 :: 10 :: body) = None) as ->; [|by rewrite IH].
  cbn [strip_prefix]. destruct (125 =? c); [|done]. destruct h as [|d h]; [done|].
  cbn [app]. by apply (orb_false_iff (10 =? d)) in H as [-> _].
Qed.

Lemma dec_digits_only n c : is_ascii_digit c = false -> contains_char c (dec n) = false.
Proof.
  intros Hc. destruct (contains_char c (dec n)) eqn:E; [|done]. apply existsb_exists in E as (d & Hd & Ed).
  apply N.eqb_eq in Ed. subst d.
  pose proof (dec_digits_digits (S (N.size_nat n)) n [] eq_refl) as H. rewrite forallb_forall in H.
  specialize (H c Hd). congruence.
Qed.

Definition table_text (n : N) (cols : list Column) (body : rstr) : rstr :=
  dec n ++ lit "]{" ++ join (lit ",") (map column_spec cols) ++ lit "}" ++ [10] ++ body.

Lemma unpack_table_text n cols body :
  n <= u64_max -> cols <> [] -> Forall column_ok cols -> Forall (fun c => contains_char 10 (name c) = false) cols ->
  unpack_table (table_text n cols body) =
    (rows ← collect_results (decode_line (map declared cols)) (lines body);
     if N.of_nat (length rows) =? n then Ok (Array rows)
     else Err (Message (lit "declared " ++ dec n ++ lit " rows, decoded " ++ dec (N.of_nat (length rows))))).
Proof.
  intros Hn Hne Hok Hline. unfold unpack_table, table_text.
  change (lit "]{" ++ ?x) with (ch "]" :: ch "{" :: x). change (lit "]") with [ch "]"].
  rewrite split_once_char by (by apply dec_digits_only). cbn [ok_or mbind result_bind].
  rewrite parse_dec by done. cbn [ok_or mbind result_bind].
  change (strip_prefix (lit "{") (ch "{" :: ?x)) with (Some x). cbn [ok_or mbind result_bind].
  rewrite split_once_header.
  - cbn [ok_or mbind result_bind]. by rewrite read_header.
  - apply contains_char_join; [done|]. apply Forall_map. eapply Forall_impl; [exact Hline|]. apply column_spec_line.
Qed.

(** ** The columns cover the rows *)

Definition is_leaf (v : value) : bool := match v with Object (_ :: _) => false | _ => true end.

(** The leaves of a value, with their paths. *)
Inductive leaf : value -> list rstr -> value -> Prop :=
| leaf_here v : is_leaf v = true -> leaf v [] v
| leaf_member m k v p w : (k, v) ∈ m -> leaf v p w -> leaf (Object m) (k :: p) w.

(** A column for a path, whose kind is that of strings for strings only. *)
Definition covered (found : Found) (p : list rstr) (v : value) : Prop :=
  exists c, c ∈ columns found /\ path c = p /\ (kind c = ColumnKind.String -> exists s, v = String s).

Definition found_ok (found : Found) : Prop :=
  Forall column_ok (columns found) /\
  forall n i, index found !! n = Some i -> exists c, columns found !! i = Some c /\ name c = n.

(** What was covered stays covered. *)
Definition grows (found found' : Found) : Prop := forall p v, covered found p v -> covered found' p v.

Lemma merge_string k k' : ColumnKind.merge k k' = ColumnKind.String -> k = ColumnKind.String /\ k' = ColumnKind.String.
Proof. by destruct k, k'. Qed.

Lemma kind_of_string v : kind_of v = ColumnKind.String -> exists s, v = String s.
Proof. destruct v as [ | |n|s| |]; simpl; try done; [by destruct (is_int n) | eauto]. Qed.

Definition good_key (k : rstr) : Prop := contains_char (ch ".") k = false /\ contains_char (ch ",") k = false.

Lemma ambiguous_good k : ambiguous_key k = false -> good_key k.
Proof. unfold ambiguous_key. intros H. by bool_prop. Qed.

Lemma collect_leaf_spec prefix v found found' :
  prefix <> [] -> Forall good_key prefix -> found_ok found -> collect_leaf prefix v found = Some found' ->
  found_ok found' /\ grows found found' /\ covered found' prefix v.
Proof.
  intros Hne Hp [Hok Hix]. unfold collect_leaf. set (n := join (lit ".") prefix).
  destruct (index found !! n) as [i|] eqn:Ei.
  - intros [= <-]. destruct (Hix _ _ Ei) as (c0 & Hc0 & Hn0).
    assert (forall j c, columns found !! j = Some c -> exists c', alter (merge_column v) i (columns found) !! j = Some c' /\
      name c' = name c /\ path c' = path c /\ (kind c' = ColumnKind.String -> kind c = ColumnKind.String)) as Halter.
    { intros j c Hj. destruct (decide (i = j)) as [->|Hij].
      - exists (merge_column v c). rewrite list_lookup_alter_eq, Hj. split_and!; [done..|]. by intros [? _]%merge_string.
      - exists c. by rewrite list_lookup_alter_ne. }
    split_and!; [split| |].
    + apply Forall_forall. cbn [columns]. intros c (j & Hj)%list_elem_of_lookup. rewrite list_lookup_alter in Hj.
      rewrite Forall_lookup in Hok. case_decide; [|by apply (Hok j)]. apply fmap_Some in Hj as (c1 & Hc1 & ->).
      exact (Hok _ _ Hc1).
    + intros m j Hm. destruct (Hix _ _ Hm) as (c & Hc & Hn). destruct (Halter _ _ Hc) as (c' & Hc' & Hn' & _).
      exists c'. split; [done|]. by rewrite Hn'.
    + intros p w (c & (j & Hj)%list_elem_of_lookup & Hpc & Hk). destruct (Halter _ _ Hj) as (c' & Hc' & _ & Hp' & Hk').
      exists c'. split; [by eapply list_elem_of_lookup_2 | split; [congruence | eauto] ].
    + exists (merge_column v c0). split_and!.
      * cbn [columns]. apply (list_elem_of_lookup_2 _ i). by rewrite list_lookup_alter_eq, Hc0.
      * change (path c0 = prefix). rewrite Forall_lookup in Hok. destruct (Hok _ _ Hc0) as (Hn & Hne0 & Hp0).
        rewrite <- (column_path c0) by (by apply (Hok i)). rewrite Hn0. unfold n. change (lit ".") with [ch "."].
        apply split_join; [done|]. eapply Forall_impl; [exact Hp|]. by intros k [? _].
      * intros [_ Hk]%merge_string. by apply kind_of_string.
  - destruct (_ <? _)%nat; [done|]. intros [= <-]. split_and!; [split| |].
    + cbn [columns]. apply Forall_app. split; [done|]. constructor; [|constructor]. by split_and!.
    + cbn [columns index]. intros m j Hm. apply lookup_insert_Some in Hm as [ [<- <-]|[_ Hm] ].
      * eexists. rewrite lookup_app_r, Nat.sub_diag by done. by split.
      * destruct (Hix _ _ Hm) as (c & Hc & Hn). exists c. split; [|done]. by apply lookup_app_l_Some.
    + intros p w (c & Hc & Hr). exists c. split; [|done]. cbn [columns]. apply elem_of_app. by left.
    + eexists. split_and!; [cbn [columns]; apply elem_of_app; right; by apply list_elem_of_singleton | done |].
      cbn [kind]. apply kind_of_string.
Qed.

(** The loop over the members of an object. *)
Lemma collect_members prefix (m : map_) : forall found found',
  (forall k v found found', (k, v) ∈ m -> found_ok found -> good_key k ->
     collect_value (prefix ++ [k]) v found = Some found' ->
     found_ok found' /\ grows found found' /\ forall p w, leaf v p w -> covered found' (prefix ++ k :: p) w) ->
  found_ok found -> collect_from m prefix found = Some found' ->
  found_ok found' /\ grows found found' /\ forall k v p w, (k, v) ∈ m -> leaf v p w -> covered found' (prefix ++ k :: p) w.
Proof.
  induction m as [|[k v] m IH]; intros found found' Hstep Hok; unfold collect_from.
  - intros [= <-]. split_and!; [done | by intros p w ? |]. intros k v p w Hin. by apply elem_of_nil in Hin.
  - rewrite try_fold_cons. cbn [fst snd]. destruct (ambiguous_key k) eqn:Ek; [done|].
    destruct (collect_value (prefix ++ [k]) v found) as [f1|] eqn:E1; [|done]. cbn [mbind option_bind]. intros Hrest.
    destruct (Hstep k v found f1) as (Hok1 & Hg1 & Hc1); [by left | done | by apply ambiguous_good | done |].
    destruct (IH f1 found') as (Hok' & Hg' & Hc'); [| done | exact Hrest |].
    { intros k' v' f f' Hin. apply Hstep. by right. }
    split_and!; [done | by intros p w ?; apply Hg', Hg1 |].
    intros k' v' p w [ [= -> ->]|Hin]%elem_of_cons Hl; [by apply Hg', Hc1 | by eapply Hc'].
Qed.

Lemma collect_value_object prefix kv (m : map_) found :
  collect_value prefix (Object (kv :: m)) found = collect_from (kv :: m) prefix found.
Proof. reflexivity. Qed.

Lemma collect_value_leaf prefix v found : is_leaf v = true -> collect_value prefix v found = collect_leaf prefix v found.
Proof. by destruct v as [ | | | | |[|? ?] ]. Qed.

Lemma leaf_of_leaf v p w : is_leaf v = true -> leaf v p w -> p = [] /\ w = v.
Proof.
  intros Hl H. inversion H as [|m k u q ? Hin]; subst; [done|]. destruct m; [|done]. by apply elem_of_nil in Hin.
Qed.

Lemma collect_value_spec v : forall prefix found found',
  prefix <> [] -> Forall good_key prefix -> found_ok found -> collect_value prefix v found = Some found' ->
  found_ok found' /\ grows found found' /\ forall p w, leaf v p w -> covered found' (prefix ++ p) w.
Proof.
  assert (forall v prefix found found', is_leaf v = true ->
    prefix <> [] -> Forall good_key prefix -> found_ok found -> collect_value prefix v found = Some found' ->
    found_ok found' /\ grows found found' /\ forall p w, leaf v p w -> covered found' (prefix ++ p) w) as Hleaf.
  { intros u prefix found found' Hl Hne Hp Hok. rewrite collect_value_leaf by done. intros H.
    destruct (collect_leaf_spec _ _ _ _ Hne Hp Hok H) as (? & ? & ?). split_and!; [done..|].
    intros p w Hlw. destruct (leaf_of_leaf _ _ _ Hl Hlw) as [-> ->]. by rewrite app_nil_r. }
  induction v as [ | | | |l _|m IH] using value_ind; intros prefix found found'; try by apply Hleaf.
  destruct m as [|kv m]; [by apply Hleaf|]. intros Hne Hp Hok. rewrite collect_value_object. intros H.
  destruct (collect_members prefix (kv :: m) found found') as (H1 & H2 & H3); [|done|done|].
  { intros k v f f' Hin Hf Hk Hv. rewrite Forall_forall in IH.
    destruct (IH (k, v) Hin (prefix ++ [k]) f f') as (G1 & G2 & G3); [by destruct prefix | | done | done |].
    - apply Forall_app. split; [done|]. by constructor.
    - split_and!; [done..|]. intros p w Hl. apply (G3 p w) in Hl. by rewrite <- app_assoc in Hl. }
  split_and!; [done..|]. intros p w Hl. inversion Hl as [|m' k v q ? Hin Hlv]; subst; [done|]. by eapply H3.
Qed.

Lemma collect_objects objects : forall found found',
  found_ok found -> try_fold (fun found object => collect_from object [] found) objects found = Some found' ->
  found_ok found' /\ grows found found' /\
  forall o p w, o ∈ objects -> p <> [] -> leaf (Object o) p w -> covered found' p w.
Proof.
  induction objects as [|o os IH]; intros found found' Hok; rewrite ?try_fold_cons.
  - intros [= <-]. split_and!; [done | by intros p w ? |]. intros o p w Hin. by apply elem_of_nil in Hin.
  - destruct (collect_from o [] found) as [f1|] eqn:E; [|done]. cbn [mbind option_bind]. intros Hrest.
    destruct (collect_members [] o found f1) as (Hok1 & Hg1 & Hc1); [|done|done|].
    { intros k v f f' Hin Hf Hk Hv. destruct (collect_value_spec v [k] f f') as (G1 & G2 & G3); [done | | done | done |].
      - by constructor.
      - by split_and!. }
    destruct (IH f1 found' Hok1 Hrest) as (Hok' & Hg' & Hc').
    split_and!; [done | by intros p w ?; apply Hg', Hg1 |].
    intros o' p w [->|Hin]%elem_of_cons Hne Hl; [|by eapply Hc'].
    inversion Hl as [|m k v q ? Hin Hlv]; subst; [done|]. apply Hg'. by eapply (Hc1 k).
Qed.

Lemma collect_columns_spec objects cols : collect_columns objects = Some cols ->
  Forall column_ok cols /\
  forall o p w, o ∈ objects -> p <> [] -> leaf (Object o) p w ->
    exists c, c ∈ cols /\ path c = p /\ (kind c = ColumnKind.String -> exists s, w = String s).
Proof.
  unfold collect_columns. destruct (try_fold _ objects _) as [found|] eqn:E; [|done].
  cbn [mbind option_bind]. intros [= <-].
  assert (found_ok {| columns := []; index := ∅ |}) as H0 by (split; [constructor | done]).
  destruct (collect_objects objects _ _ H0 E) as ([Hok _] & _ & Hc). split.
  - apply Forall_map. eapply Forall_impl; [exact Hok|]. done.
  - intros o p w Ho Hne Hl. destruct (Hc o p w Ho Hne Hl) as (c & Hin & Hp & Hk).
    exists (finish_column (length objects) c). split; [|done]. apply list_elem_of_fmap. by exists c.
Qed.

(** ** Putting the leaves back *)

Definition has (m : map_) (p : list rstr) : Prop := is_Some (lookup m p).

(** A value rebuilt in part: its members are members of the whole. *)
Inductive vpart : value -> value -> Prop :=
| vpart_same v : wf v = true -> vpart v v
| vpart_object m m' :
    NoDup (keys m) -> (forall k v, get m k = Some v -> exists w, get m' k = Some w /\ vpart v w) ->
    vpart (Object m) (Object m').

Definition part (m m' : map_) : Prop :=
  NoDup (keys m) /\ forall k v, get m k = Some v -> exists w, get m' k = Some w /\ vpart v w.

Lemma part_object m m' : vpart (Object m) (Object m') <-> part m m'.
Proof.
  split; [|intros [? ?]; by constructor]. intros H. inversion H as [v Hw|? ? Hn Hk]; subst; [|by split].
  apply wf_object in Hw as [Hn Hw]. split; [done|]. intros k v Hv. exists v. split; [done|].
  apply vpart_same, (Hw k). by apply get_Some_in.
Qed.

Lemma vpart_of_object v m' : vpart v (Object m') -> exists m, v = Object m /\ part m m'.
Proof.
  intros H. assert (exists m, v = Object m) as [m ->] by (inversion H; eauto).
  exists m. split; [done|]. by apply part_object.
Qed.

Lemma vpart_object_of m w : vpart (Object m) w -> exists m', w = Object m' /\ part m m'.
Proof.
  intros H. assert (exists m', w = Object m') as [m' ->] by (inversion H; eauto).
  exists m'. split; [done|]. by apply part_object.
Qed.

Lemma lookup_cons (m : map_) k p : p <> [] -> lookup m (k :: p) = (v ← get m k; m' ← as_object v; lookup m' p).
Proof. by destruct p. Qed.

Lemma insert_path_cons (m : map_) k p v : p <> [] ->
  insert_path m (k :: p) v =
    match default (Object []) (get m k) with
    | Object inner => inner ← insert_path inner p v; Some (insert m k (Object inner))
    | _ => None
    end.
Proof. by destruct p. Qed.

Lemma has_cons (m : map_) k p : p <> [] -> has m (k :: p) <-> exists m', get m k = Some (Object m') /\ has m' p.
Proof.
  intros Hp. unfold has. rewrite lookup_cons by done. split.
  - destruct (get m k) as [v|]; [|by intros [? ?] ]. destruct v; cbn; try by intros [? ?]. eauto.
  - intros (m' & -> & H). exact H.
Qed.

Lemma has_one (m : map_) k : has m [k] <-> is_Some (get m k).
Proof. done. Qed.

Lemma part_has p : forall m m', part m m' -> has m p -> has m' p.
Proof.
  induction p as [|k p IH]; intros m m' [_ Hpart]; [by intros [? ?] |]. destruct (decide (p = [])) as [->|Hp].
  - intros [v Hv]. destruct (Hpart k v Hv) as (w & Hw & _). by exists w.
  - rewrite !has_cons by done. intros (m1 & Hm1 & H1). destruct (Hpart k _ Hm1) as (w & Hw & Hv).
    apply vpart_object_of in Hv as (m2 & -> & H2). exists m2. split; [done|]. by eapply IH.
Qed.

Lemma part_insert r o k v w : part r o -> get o k = Some w -> vpart v w -> part (insert r k v) o.
Proof.
  intros [Hn Hk] Hw Hv. split; [by apply insert_nodup|]. intros k' v'. destruct (decide (k' = k)) as [->|Hne].
  - rewrite get_insert_eq. intros [= <-]. eauto.
  - rewrite get_insert_ne by done. apply Hk.
Qed.

Lemma has_insert_ne m k v k' q : k' <> k -> has m (k' :: q) -> has (insert m k v) (k' :: q).
Proof.
  intros Hne. destruct (decide (q = [])) as [->|Hq].
  - rewrite !has_one. by rewrite get_insert_ne.
  - rewrite !has_cons by done. by rewrite get_insert_ne.
Qed.

(** Inserting under a key keeps every path, when those below it are kept. *)
Lemma has_insert m k v q :
  (forall p, p <> [] -> has m (k :: p) -> exists m', v = Object m' /\ has m' p) -> has m q -> has (insert m k v) q.
Proof.
  intros Hk. destruct q as [|k' q]; [by intros [? ?] |]. destruct (decide (k' = k)) as [->|Hne]; [|by apply has_insert_ne].
  destruct (decide (q = [])) as [->|Hq].
  - intros _. apply has_one. by rewrite get_insert_eq.
  - intros H. destruct (Hk q Hq H) as (m' & -> & Hm'). apply has_cons; [done|]. exists m'. by rewrite get_insert_eq.
Qed.

(** What is below a key of the part, or a fresh object there. *)
Lemma part_below r o k o' : part r o -> get o k = Some (Object o') ->
  exists inner, default (Object []) (get r k) = Object inner /\ part inner o' /\
    forall q, q <> [] -> has r (k :: q) -> has inner q.
Proof.
  intros [_ Hk] Ho. destruct (get r k) as [x|] eqn:Er.
  - destruct (Hk k x Er) as (w & Hw & Hx). rewrite Ho in Hw. injection Hw as <-.
    apply vpart_of_object in Hx as (m & -> & Hm). exists m. split_and!; [done | done |].
    intros q Hq. rewrite has_cons by done. intros (m' & Hm' & H). rewrite Er in Hm'. by injection Hm' as <-.
  - exists []. split_and!; [done | split; [constructor | done] |]. intros q Hq. rewrite has_cons by done.
    intros (m' & Hm' & _). congruence.
Qed.

(** Inserting what the whole has at a path neither panics nor loses a path. *)
Lemma insert_path_spec p : forall r o v,
  wf (Object o) = true -> part r o -> lookup o p = Some v ->
  exists r', insert_path r p v = Some r' /\ part r' o /\ has r' p /\ forall q, has r q -> has r' q.
Proof.
  induction p as [|k p IH]; intros r o v Hw Hpart; [done|].
  pose proof (proj1 (wf_object o) Hw) as [_ Hwo]. destruct (decide (p = [])) as [->|Hp].
  - intros Hv. change (get o k = Some v) in Hv. exists (insert r k v). split_and!; [done | | |].
    + eapply part_insert; [done | exact Hv|]. apply vpart_same, (Hwo k). by apply get_Some_in.
    + apply has_one. by rewrite get_insert_eq.
    + intros q. apply has_insert. intros p Hp H%(part_has _ _ _ Hpart). apply has_cons in H as (m' & Hm' & H); [|done].
      exists m'. split; [congruence | done].
  - rewrite lookup_cons, insert_path_cons by done. destruct (get o k) as [w|] eqn:Eo; [|done]. cbn [mbind option_bind].
    destruct w as [ | | | | |o']; try done. cbn [as_object mbind option_bind]. intros Hv.
    destruct (part_below r o k o' Hpart Eo) as (inner & -> & Hi & Hq).
    assert (wf (Object o') = true) as Hwo' by (apply (Hwo k); by apply get_Some_in).
    destruct (IH inner o' v Hwo' Hi Hv) as (inner' & -> & Hpart' & Hhas' & Hmono).
    cbn [mbind option_bind]. exists (insert r k (Object inner')). split_and!; [done | | |].
    + eapply part_insert; [done | exact Eo|]. by apply part_object.
    + apply has_cons; [done|]. exists inner'. by rewrite get_insert_eq.
    + intros q. apply has_insert. intros q' Hq' H. exists inner'. split; [done|]. by apply Hmono, Hq.
Qed.

(** A row, decoded: every column the row has is put back. *)
Lemma decode_row_spec o cols : wf (Object o) = true -> (depth (Object o) <= 127)%nat ->
  Forall (fun c => single_line o c = true) cols -> forall r, part r o ->
  exists r', decode_row (map declared cols) (map (cell_of o) cols) r = Ok r' /\ part r' o /\
    (forall q, has r q -> has r' q) /\ Forall (fun c => has o (path c) -> has r' (path c)) cols.
Proof.
  intros Hw Hd. induction 1 as [|c cols Hc _ IH]; intros r Hpart.
  { exists r. split_and!; [done | done | done | constructor]. }
  cbn [map decode_row]. assert (decode_cell (cell_of o c) (declared c) = Ok (lookup o (path c))) as ->.
  { rewrite <- (decode_encoded o c Hw Hd Hc). by destruct (cell_of o c), c. }
  cbn [mbind result_bind]. destruct (lookup o (path c)) as [v|] eqn:Ev.
  - change (path (declared c)) with (path c).
    destruct (insert_path_spec (path c) r o v Hw Hpart Ev) as (r1 & -> & Hp1 & Hh1 & Hm1).
    cbn [ok_or mbind result_bind]. destruct (IH r1 Hp1) as (r' & -> & Hp' & Hm' & Hall). exists r'. split_and!; [done | done | by auto |].
    constructor; [by intros _; apply Hm' | done].
  - destruct (IH r Hpart) as (r' & -> & Hp' & Hm' & Hall). exists r'. split_and!; [done | done | done |].
    constructor; [|done]. intros [? ?]. congruence.
Qed.

(** Every value has a leaf, and an object has what lies at its leaves. *)
Lemma leaf_exists v : exists p w, leaf v p w.
Proof.
  induction v as [ | | | |l _|m IH] using value_ind; try by (eexists [], _; by constructor).
  destruct m as [|[k v] m]; [by (eexists [], _; constructor)|]. apply Forall_cons in IH as [(p & w & H) _].
  exists (k :: p), w. eapply leaf_member; [by left | exact H].
Qed.

Lemma leaf_has v p w : leaf v p w -> wf v = true -> p <> [] -> exists m, v = Object m /\ has m p.
Proof.
  induction 1 as [|m k v p w Hin Hl IH]; intros Hw Hne; [done|]. exists m. split; [done|].
  apply wf_object in Hw as [Hn Hw]. pose proof (get_in m k v Hn Hin) as Hg.
  destruct (decide (p = [])) as [->|Hp]; [by eexists|]. apply has_cons; [done|].
  destruct (IH (Hw k v Hin) Hp) as (m' & -> & H). by exists m'.
Qed.

(** A part that has every leaf is the whole. *)
Lemma part_whole w : forall v, wf w = true -> vpart v w ->
  (forall p u, leaf w p u -> p <> [] -> exists m, v = Object m /\ has m p) -> value_eqb number_eqb v w = true.
Proof.
  induction w as [ | | | |l _|o IH] using value_ind; intros v Hw Hv Hleaf;
    try (inversion Hv; subst; apply (value_eqb_refl number_eqb (number_refl laws)); done).
  apply vpart_of_object in Hv as (m & -> & [Hn Hk]). apply wf_object in Hw as [Hno Hwo].
  assert (forall k w, (k, w) ∈ o -> exists v, get m k = Some v /\
    forall p u, leaf w p u -> p <> [] -> exists m', v = Object m' /\ has m' p) as Hback.
  { intros k w Hin. destruct (leaf_exists w) as (p0 & u0 & Hl0).
    destruct (Hleaf (k :: p0) u0) as (m1 & [= <-] & H0); [by eapply leaf_member | done |].
    assert (is_Some (get m k)) as [v Hv].
    { destruct (decide (p0 = [])) as [->|Hp0]; [exact H0|]. apply has_cons in H0 as (? & ? & _); eauto. }
    exists v. split; [done|]. intros p u Hl Hp.
    destruct (Hleaf (k :: p) u) as (m2 & [= <-] & H); [by eapply leaf_member | done |].
    apply has_cons in H as (m' & Hm' & H); [|done]. exists m'. split; [congruence | done]. }
  apply object_eqb. split.
  - assert (keys m ≡ₚ keys o) as Hp; [|apply Permutation_length in Hp; unfold keys in Hp; by rewrite !length_map in Hp].
    apply NoDup_Permutation; [done..|]. intros k. rewrite <- !get_is_Some. split.
    + intros [v Hv]. destruct (Hk k v Hv) as (w & Hw & _). by exists w.
    + intros [w Hw%get_Some_in]. destruct (Hback k w Hw) as (v & Hv & _). by exists v.
  - intros k v Hin%(get_in m k v Hn). destruct (Hk k v Hin) as (w & Hw & Hv). exists w. split; [done|].
    apply get_Some_in in Hw. rewrite Forall_forall in IH. apply (IH (k, w) Hw); [by apply (Hwo k) | done |].
    destruct (Hback k w Hw) as (v' & Hv' & Hl). rewrite Hin in Hv'. by injection Hv' as <-.
Qed.

(** ** Whole tables *)

(** No column name and no string of a column of strings holds a line feed, and
    a column of strings holds nothing else. *)
Definition clean (cols : list Column) (objects : list map_) : bool :=
  forallb (fun c => negb (contains_char 10 (name c)) && forallb (fun o => single_line o c) objects) cols.

Lemma clean_spec cols objects : clean cols objects = true ->
  Forall (fun c => contains_char 10 (name c) = false) cols /\
  Forall (fun o => Forall (fun c => single_line o c = true) cols) objects.
Proof.
  unfold clean. rewrite forallb_forall. intros H. split.
  - apply Forall_forall. intros c Hc%list_elem_of_In. specialize (H c Hc). by apply andb_true_iff in H as [?%negb_true_iff _].
  - apply Forall_forall. intros o Ho%list_elem_of_In. apply Forall_forall. intros c Hc%list_elem_of_In.
    specialize (H c Hc). apply andb_true_iff in H as [_ H]. rewrite forallb_forall in H. by apply H.
Qed.

Lemma last_join c sep ws : last sep <> Some c -> sep <> [] ->
  Forall (fun w => last w <> Some c) ws -> last (join sep ws) <> Some c.
Proof.
  intros Hsep Hne. induction 1 as [|w ws Hw Hws IH]; [done|]. destruct ws as [|w' ws]; [done|].
  change (join sep (w :: w' :: ws)) with (w ++ sep ++ join sep (w' :: ws)). rewrite !last_app.
  destruct (last (join sep (w' :: ws))); [done|]. by destruct (last sep).
Qed.

Lemma encode_cell_end object column : last (encode_cell object column) <> Some 13.
Proof.
  unfold encode_cell. destruct (lookup object (path column)) as [v|]; [|done].
  destruct v, (kind column); try done; apply csv_quote_end.
Qed.

Definition row_text (cols : list Column) (o : map_) : rstr := join (lit ",") (map (encode_cell o) cols).

Lemma row_text_line cols o : Forall (fun c => single_line o c = true) cols ->
  contains_char 10 (row_text cols o) = false /\ last (row_text cols o) <> Some 13.
Proof.
  intros H. split.
  - apply contains_char_join; [done|]. apply Forall_map. eapply Forall_impl; [exact H|]. apply encode_cell_line.
  - apply last_join; [done | done |]. apply Forall_map, Forall_forall. intros c _. apply encode_cell_end.
Qed.

(** A row of the table decodes to the object it was made of. *)
Lemma decode_line_spec cols o : cols <> [] -> wf (Object o) = true -> (depth (Object o) <= 127)%nat ->
  Forall (fun c => single_line o c = true) cols ->
  (forall p w, p <> [] -> leaf (Object o) p w -> exists c, c ∈ cols /\ path c = p) ->
  exists d, decode_line (map declared cols) (row_text cols o) = Ok d /\ value_eqb number_eqb d (Object o) = true.
Proof.
  intros Hne Hw Hd Hs Hcov. unfold decode_line, row_text.
  assert (length (map declared cols) = length (map (cell_of o) cols)) as -> by (by rewrite !length_map).
  rewrite split_row; [| | by destruct cols].
  2: { apply Forall2_fmap, Forall_Forall2_diag, Forall_forall. intros c _. apply encode_reads. }
  cbn [mbind result_bind].
  destruct (decode_row_spec o cols Hw Hd Hs []) as (r & -> & Hpart & _ & Hall); [by split; [constructor|]|].
  cbn [mbind result_bind]. exists (Object r). split; [done|]. apply part_whole; [done | by apply part_object |].
  intros p w Hl Hp. exists r. split; [done|]. destruct (Hcov p w Hp Hl) as (c & Hc & <-).
  rewrite Forall_forall in Hall. apply Hall; [done|]. destruct (leaf_has _ _ _ Hl Hw Hp) as (m & [= <-] & H). exact H.
Qed.

Lemma decode_lines objects cols : cols <> [] -> collect_columns objects = Some cols -> clean cols objects = true ->
  Forall (fun o => wf (Object o) = true /\ (depth (Object o) <= 127)%nat) objects ->
  exists ds, collect_results (decode_line (map declared cols)) (lines (concat (map (encode_row cols) objects))) = Ok ds /\
    Forall2 (fun d o => value_eqb number_eqb d (Object o) = true) ds objects.
Proof.
  intros Hne Hc Hclean Hw. destruct (clean_spec _ _ Hclean) as [_ Hs]. destruct (collect_columns_spec _ _ Hc) as [_ Hcov].
  assert (lines (concat (map (encode_row cols) objects)) = map (row_text cols) objects) as ->.
  { rewrite <- (lines_concat (map (row_text cols) objects)); [by rewrite map_map|].
    apply Forall_map. eapply Forall_impl; [exact Hs|]. apply row_text_line. }
  assert (Forall (fun o => exists d, decode_line (map declared cols) (row_text cols o) = Ok d /\
    value_eqb number_eqb d (Object o) = true) objects) as H.
  { rewrite Forall_forall in *. intros o Ho. destruct (Hw o Ho) as [Hwo Hdo]. apply decode_line_spec; [done..| by apply Hs |].
    intros p w Hp Hl. destruct (Hcov o p w Ho Hp Hl) as (c & ? & ? & _). eauto. }
  clear -H. induction H as [|o os (d & Hd & Heq) _ (ds & Hds & Hall)]; [by exists []|].
  exists (d :: ds). cbn [map collect_results]. rewrite Hd. cbn [mbind result_bind]. rewrite Hds. by split; [|constructor].
Qed.

Lemma pack_array_text objects cols : collect_columns objects = Some cols ->
  (2 <= length objects)%nat -> cols <> [] ->
  pack_top_level_array (map Object objects) =
    Some (lit "[" ++ table_text (N.of_nat (length objects)) cols (concat (map (encode_row cols) objects))).
Proof.
  intros Hc Hlen Hne. unfold pack_top_level_array. rewrite length_map.
  assert ((length objects <? MIN_TABLE_ROWS)%nat = false) as -> by (unfold MIN_TABLE_ROWS; lia).
  rewrite objects_back. cbn [mbind option_bind]. rewrite Hc. cbn [mbind option_bind]. by destruct cols.
Qed.

Lemma unpack_array objects cols : collect_columns objects = Some cols -> cols <> [] ->
  clean cols objects = true -> N.of_nat (length objects) <= u64_max ->
  wf (Array (map Object objects)) = true -> (depth (Array (map Object objects)) <= 127)%nat ->
  exists d, unpack (lit "[" ++ table_text (N.of_nat (length objects)) cols (concat (map (encode_row cols) objects))) = Ok d /\
    value_eqb number_eqb d (Array (map Object objects)) = true.
Proof.
  intros Hc Hne Hclean Hlen Hw Hd. unfold unpack.
  change (strip_prefix (lit "[") (lit "[" ++ ?x)) with (Some x). cbv iota.
  destruct (clean_spec _ _ Hclean) as [Hnames _]. destruct (collect_columns_spec _ _ Hc) as [Hok _].
  rewrite unpack_table_text by done.
  destruct (decode_lines objects cols Hne Hc Hclean) as (ds & -> & Hds).
  { apply wf_array in Hw. rewrite Forall_map in Hw. assert (depth (Array (map Object objects)) < 128)%nat as Hd' by lia.
    apply depth_array in Hd' as [_ Hd']. rewrite Forall_map in Hd'. rewrite Forall_forall in *. intros o Ho.
    split; [by apply Hw|]. specialize (Hd' o Ho). simpl in *. lia. }
  cbn [mbind result_bind]. rewrite (Forall2_length _ _ _ Hds), N.eqb_refl. exists (Array ds). split; [done|].
  apply eqv_array. by apply Forall2_fmap_r.
Qed.
End Laws.

(** ** Line feeds *)

Lemma contains_char_in c s : contains_char c s = true <-> c ∈ s.
Proof.
  unfold contains_char. rewrite existsb_exists, list_elem_of_In. split; [|by exists c; rewrite N.eqb_refl].
  by intros (x & Hx & <-%N.eqb_eq).
Qed.

Lemma csv_quote_keeps c text : contains_char c text = true -> contains_char c (csv_quote text) = true.
Proof.
  rewrite !contains_char_in. intros Hc. unfold csv_quote. destruct (needs_quote text); [|done].
  rewrite !elem_of_app. right. left. apply list_elem_of_In, in_concat. exists (if c =? 34 then [34; c] else [c]). split.
  - apply in_map_iff. exists c. by rewrite <- list_elem_of_In.
  - destruct (c =? 34); [by right; left | by left].
Qed.

Lemma join_keeps c sep w ws : w ∈ ws -> contains_char c w = true -> contains_char c (join sep ws) = true.
Proof.
  intros Hw Hc. induction ws as [|x ws IH]; [by apply elem_of_nil in Hw|]. destruct ws as [|y ws].
  - by apply list_elem_of_singleton in Hw as <-.
  - change (join sep (x :: y :: ws)) with (x ++ sep ++ join sep (y :: ws)). rewrite !contains_char_app.
    apply elem_of_cons in Hw as [<-|Hw]; [by rewrite Hc|]. rewrite IH by done. by rewrite !orb_true_r.
Qed.

(** Each row ends a line, and a row with a line feed inside ends two. *)
Lemma count_rows cols objects o : o ∈ objects -> contains_char 10 (row_text cols o) = true ->
  (length objects < count_char 10 (concat (map (encode_row cols) objects)))%nat.
Proof.
  intros Hin Ho.
  assert (forall o, count_char 10 (encode_row cols o) = S (count_char 10 (row_text cols o))) as Hrow.
  { intros o'. unfold encode_row. fold (row_text cols o'). rewrite count_char_app. change (count_char 10 [10]) with 1%nat. lia. }
  assert (forall os, (length os <= count_char 10 (concat (map (encode_row cols) os)))%nat) as Hall.
  { induction os as [|o' os IH]; [done|]. simpl. rewrite count_char_app, Hrow. lia. }
  apply list_elem_of_split in Hin as (l1 & l2 & ->). rewrite map_app, concat_app. simpl.
  rewrite !count_char_app, Hrow, length_app. simpl. pose proof (Hall l1). pose proof (Hall l2).
  apply contains_count in Ho. lia.
Qed.

(** Wherever the header is cut off, what is left has every row. *)
Lemma body_rows header rows h body : split_once (lit "}" ++ [10]) (header ++ lit "}" ++ [10] ++ rows) = Some (h, body) ->
  (count_char 10 rows <= count_char 10 body)%nat.
Proof.
  intros H. pose proof H as Hl. rewrite (app_assoc (lit "}")) in Hl. apply split_once_leftmost in Hl. simpl in Hl.
  apply split_once_Some in H. rewrite (app_assoc (lit "}")) in H.
  assert (exists z, header = h ++ z) as [z ->].
  { exists (drop (length h) header). rewrite <- (take_drop (length h) header) at 1. f_equal.
    apply (f_equal (take (length h))) in H. rewrite take_app_le, take_app_length in H by done. done. }
  rewrite <- app_assoc in H. apply app_inv_head in H. apply (f_equal (count_char 10)) in H.
  rewrite !count_char_app in H. change (count_char 10 (lit "}")) with 0%nat in H. change (count_char 10 [10]) with 1%nat in H. lia.
Qed.

(** ** Line feeds in tables *)

Lemma array_text objects cols out : collect_columns objects = Some cols ->
  pack_top_level_array (map Object objects) = Some out ->
  out = lit "[" ++ table_text (N.of_nat (length objects)) cols (concat (map (encode_row cols) objects)).
Proof.
  intros Hc. unfold pack_top_level_array. rewrite length_map, objects_back.
  destruct (_ <? _)%nat; [done|]. cbn [mbind option_bind]. rewrite Hc. cbn [mbind option_bind].
  destruct cols; [done|]. by intros [= <-].
Qed.

(** A table that decodes has no more line feeds in its rows than rows. *)
Lemma table_line_feeds n cols rows d : unpack_table (table_text n cols rows) = Ok d -> (count_char 10 rows <= N.to_nat n)%nat.
Proof.
  unfold unpack_table, table_text. change (lit "]{" ++ ?x) with (ch "]" :: ch "{" :: x). change (lit "]") with [ch "]"].
  rewrite split_once_char by (by apply dec_digits_only). cbn [ok_or mbind result_bind]. rewrite parse_dec_eq.
  destruct (n <=? u64_max); [|done]. cbn [ok_or mbind result_bind].
  change (strip_prefix (lit "{") (ch "{" :: ?x)) with (Some x). cbn [ok_or mbind result_bind].
  destruct (split_once _ _) as [ [h body]|] eqn:Es; [|done]. cbn [ok_or mbind result_bind]. apply body_rows in Es.
  intros H. inv_ok. destruct (_ =? _) eqn:El; [|done]. apply N.eqb_eq in El.
  apply collect_results_length in H0. pose proof (lines_length body). lia.
Qed.

(** ** Properties *)

Lemma pack_verified input parsed packed : from_str input = Ok parsed ->
  match parsed with
  | Array rows => pack_top_level_array rows
  | Object _ => pack_envelope parsed
  | _ => None
  end = Some packed ->
  (exists d, unpack packed = Ok d /\ value_eqb number_eqb d parsed = true) ->
  pack input = Some (if (blen packed <? blen input)%nat then Some packed else None).
Proof.
  intros Hp Hs (d & Hd & He). unfold pack. rewrite Hp, Hs, Hd, He. cbn [negb].
  rewrite Nat.leb_antisym. by destruct (blen packed <? blen input)%nat.
Qed.

(** Whatever is packed decodes to the value the input parses to, and is
    shorter than the input; nothing is assumed of the JSON library. *)
Theorem packed_output_is_lossless input packed : pack input = Some (Some packed) ->
  exists v d, from_str input = Ok v /\ unpack packed = Ok d /\ value_eqb number_eqb d v = true /\
    (blen packed < blen input)%nat.
Proof.
  unfold pack. destruct (from_str input) as [v|] eqn:Ep; [|done].
  destruct (match v with Array rows => _ | Object _ => _ | _ => _ end) as [text|]; [|done].
  destruct (unpack text) as [d|[m|] ] eqn:Eu; [|done..]. destruct (value_eqb number_eqb d v) eqn:Ee; [|done]. cbn [negb].
  destruct (Nat.leb_spec (blen input) (blen text)); [done|]. intros [= <-]. by exists v, d.
Qed.

(** An object is packed whenever that makes it shorter: unless it uses the
    marker keys itself, folding its arrays of objects into tables always decodes
    back to it, so the check before emitting never turns the result down. *)
Theorem envelopes_pack_when_shorter input m :
  JsonLaws -> from_str input = Ok (Object m) -> (depth (Object m) <= 126)%nat ->
  contains_marker_keys (Object m) = false ->
  exists packed, pack_envelope (Object m) = Some packed /\
    pack input = Some (if (blen packed <? blen input)%nat then Some packed else None).
Proof.
  intros laws Hp Hd Hm. destruct (parse_wf laws _ _ Hp) as [Hw _].
  destruct (tabulate_spec laws _ Hw Hm) as (t & Ht & Hwt & Hdt & Hback).
  assert (exists m', t = Object m') as [m' ->].
  { cbn [tabulate] in Ht. destruct (mapM _ m) as [out|]; [|done]. injection Ht as <-. eauto. }
  assert (forall o, wf (Object o) = true -> (depth (Object o) <= 127)%nat ->
    unpack (to_string (Object o)) = Ok (detabulate (Object o))) as Hun.
  { intros o Hwo Hdo. unfold unpack, json. destruct (print_object laws o) as [text Htext].
    assert (strip_prefix (lit "[") (to_string (Object o)) = None) as -> by (by rewrite Htext).
    by rewrite (parse_print laws) by done. }
  unfold pack_envelope. rewrite Hm, Ht. cbn [mbind option_bind]. destruct (value_eqb number_eqb (Object m') (Object m)) eqn:Ee.
  - exists (to_string (Object m)). split; [done|]. eapply pack_verified; [exact Hp| |].
    + unfold pack_envelope. rewrite Hm, Ht. cbn [mbind option_bind]. by rewrite Ee.
    + rewrite Hun by (done || lia). eexists. split; [done|]. unfold detabulate. rewrite detabulate_plain by (done || lia).
      by apply (value_eqb_refl number_eqb (number_refl laws)).
  - exists (to_string (Object m')). split; [done|]. eapply pack_verified; [exact Hp| |].
    + unfold pack_envelope. rewrite Hm, Ht. cbn [mbind option_bind]. by rewrite Ee.
    + rewrite Hun by (done || lia). eexists. split; [done|]. apply Hback. lia.
Qed.

(** An array of two objects or more is packed whenever that makes it
    shorter, if no column name holds a line feed and the columns of strings hold
    single-line strings only: every cell decodes to what it was, absent and null
    and text that looks like another type apart, and the rows are rebuilt from
    their dotted paths. *)
Theorem clean_tables_pack_when_shorter input objects cols :
  JsonLaws -> from_str input = Ok (Array (map Object objects)) ->
  (2 <= length objects)%nat -> N.of_nat (length objects) <= u64_max ->
  collect_columns objects = Some cols -> cols <> [] -> clean cols objects = true ->
  exists packed, pack_top_level_array (map Object objects) = Some packed /\
    pack input = Some (if (blen packed <? blen input)%nat then Some packed else None).
Proof.
  intros laws Hp Hlen Hmax Hc Hne Hclean. destruct (parse_wf laws _ _ Hp) as [Hw Hd].
  pose proof (pack_array_text objects cols Hc Hlen Hne) as Htext. eexists. split; [exact Htext|].
  eapply pack_verified; [exact Hp | exact Htext |]. by apply unpack_array.
Qed.

(** An array with a line feed in a column of strings is never packed: cells
    are quoted for their line feeds, but the decoder cuts the body into lines
    before it looks at quotes, and finds more lines than rows. *)
Theorem line_feed_in_a_cell_prevents_packing input objects cols o c text :
  from_str input = Ok (Array (map Object objects)) -> collect_columns objects = Some cols ->
  o ∈ objects -> c ∈ cols -> kind c = ColumnKind.String ->
  lookup o (path c) = Some (String text) -> contains_char 10 text = true ->
  forall packed, pack input <> Some (Some packed).
Proof.
  intros Hp Hc Ho Hcin Hk Hl Ht packed. unfold pack. rewrite Hp.
  destruct (pack_top_level_array _) as [out|] eqn:Eout; [|done]. apply (array_text objects cols) in Eout as ->; [|done].
  assert (length objects < count_char 10 (concat (map (encode_row cols) objects)))%nat as Hcount.
  { apply (count_rows cols objects o Ho). apply (join_keeps _ _ (encode_cell o c)).
    - apply list_elem_of_fmap. by exists c.
    - unfold encode_cell. rewrite Hl, Hk. by apply csv_quote_keeps. }
  destruct (unpack _) as [d|[?|] ] eqn:Eu; [|done..]. unfold unpack in Eu.
  change (strip_prefix (lit "[") (lit "[" ++ ?x)) with (Some x) in Eu. cbv iota in Eu.
  apply table_line_feeds in Eu. lia.
Qed.
End Pack.

(** ** A JSON library *)

Module Sample.
(** Numbers are unsigned integers.  [print] writes compact JSON; [parse_of]
    parses the text of one value, and integers. *)
Abbreviation value := (Value N).

Definition quote (s : rstr) : rstr :=
  [34] ++ concat (map (fun c => if (c =? 34) || (c =? 92) then [92; c] else if c =? 10 then lit "\n" else [c]) s) ++ [34].

Fixpoint print (v : value) : rstr :=
  match v with
  | Null => lit "null"
  | Bool b => if b then lit "true" else lit "false"
  | Number n => dec n
  | String s => quote s
  | Array l => lit "[" ++ join (lit ",") (map print l) ++ lit "]"
  | Object m => lit "{" ++ join (lit ",") (map (fun kv => quote kv.1 ++ lit ":" ++ print kv.2) m) ++ lit "}"
  end.

Definition parse_of (v : value) (text : rstr) : result rstr value :=
  if str_eqb text (print v) then Ok v
  else match parse_unsigned u64_max text with Some n => Ok (Number n) | None => Err (lit "expected value") end.

Definition pack_of (v : value) : option (option rstr) :=
  pack N.eqb (fun _ => true) (parse_of v) print (print v).

Definition row (name : rstr) (age : N) : list (rstr * value) := [(lit "name", String name); (lit "age", Number age)].

Definition people : value := Array [Object (row (lit "alice, of B") 41); Object (row (lit "bob") 7)].

Example people_are_packed :
  pack_of people = Some (Some (lit "[2]{name:string,age:int}" ++ [10; 34] ++ lit "alice, of B" ++ [34] ++ lit ",41" ++ [10]
    ++ lit "bob,7" ++ [10])).
Proof. vm_compute. reflexivity. Qed.

(** A codec that keeps every value: the text is a number that encodes it. *)
Fixpoint tree (v : value) : gen_tree (bool + N + rstr) :=
  match v with
  | Null => GenNode 0 []
  | Bool b => GenLeaf (inl (inl b))
  | Number n => GenLeaf (inl (inr n))
  | String s => GenLeaf (inr s)
  | Array l => GenNode 1 (map tree l)
  | Object m => GenNode 2 (map (fun kv => GenNode 0 [GenLeaf (inr kv.1); tree kv.2]) m)
  end.

Fixpoint untree (t : gen_tree (bool + N + rstr)) : value :=
  match t with
  | GenLeaf (inl (inl b)) => Bool b
  | GenLeaf (inl (inr n)) => Number n
  | GenLeaf (inr s) => String s
  | GenNode 1 l => Array (map untree l)
  | GenNode 2 l => Object (map (fun t => match t with GenNode _ [GenLeaf (inr k); u] => (k, untree u) | _ => ([], Null) end) l)
  | GenNode _ _ => Null
  end.

Lemma untree_tree v : untree (tree v) = v.
Proof.
  induction v as [ | | | |l IH|m IH] using value_ind; [done..| |]; simpl; rewrite map_map; f_equal.
  - by apply map_id_Forall.
  - apply map_id_Forall. eapply Forall_impl; [exact IH|]. intros [k v] Hv. simpl in *. by rewrite Hv.
Qed.

Definition number_of (v : value) : N := N.pos (encode (tree v)).

Definition to_string (v : value) : rstr := (if is_object v then lit "{" else lit "#") ++ dec (number_of v).

Definition from_str (text : rstr) : result rstr value :=
  match parse_unsigned (dec_value (tail text)) (tail text) with
  | Some (N.pos p) =>
      match decode p with
      | Some t => let v := untree t in if wf v && (depth v <=? 127)%nat then Ok v else Err []
      | None => Err []
      end
  | _ => Err []
  end.

Lemma laws : JsonLaws N.eqb from_str to_string.
Proof.
  split.
  - apply N.eqb_refl.
  - intros text v. unfold from_str. destruct (parse_unsigned _ _) as [ [|p]|]; try done. destruct (decode p) as [t|]; [|done].
    destruct (wf (untree t) && _) eqn:E; [|done]. intros [= <-]. bool_prop. by split; [|apply Nat.leb_le].
  - intros v Hw Hd. unfold from_str, to_string. assert (tail ((if is_object v then lit "{" else lit "#") ++ dec (number_of v))
      = dec (number_of v)) as -> by (by destruct (is_object v)).
    rewrite parse_dec_eq, dec_value_dec, N.leb_refl. unfold number_of. rewrite decode_encode, untree_tree, Hw.
    by apply Nat.leb_le in Hd as ->.
  - intros m. by eexists.
  - intros v. unfold to_string. rewrite contains_char_app, dec_digits_only by done. by destruct (is_object v).
Qed.

Definition team : list (rstr * value) :=
  [(lit "count", Number 2); (lit "members", Array [Object (row (lit "ann") 1); Object (row (lit "bo") 2)])].
End Sample.

(** Packing can panic: a key with a closing brace and a line feed cuts the
    header short, so the rest of the header is read as the first row, in which a
    column holds text where a later column expects an object; the panic escapes
    the check that was to fall back on the raw bytes. *)
Theorem packing_can_panic :
  let bad_key := lit "c:string}" ++ [10] ++ lit "foo" in
  Sample.pack_of (Array
    [Object [(lit "a", String (lit "s"))];
     Object [(lit "a", Object [(lit "b", String (lit "t"))]); (bad_key, String (lit "x"));
             (lit "k", String (lit "y")); (lit "m", String (lit "z"))]]) = None.
Proof. vm_compute. reflexivity. Qed.

Lemma packed_output_is_lossless_witness :
  exists d, unpack (Sample.parse_of Sample.people)
    (default [] (mjoin (Sample.pack_of Sample.people))) = Ok d /\ value_eqb N.eqb d Sample.people = true.
Proof.
  destruct (packed_output_is_lossless N.eqb (fun _ => true) (Sample.parse_of Sample.people) Sample.print
    (Sample.print Sample.people) (default [] (mjoin (Sample.pack_of Sample.people)))) as (v & d & Hv & Hd & He & _).
  - vm_compute. reflexivity.
  - exists d. split; [exact Hd|]. assert (v = Sample.people) as E by (vm_compute in Hv; injection Hv as <-; reflexivity). by rewrite <- E.
Defined.

Lemma envelopes_pack_when_shorter_witness :
  exists packed, pack_envelope N.eqb Sample.to_string (Object Sample.team) = Some packed /\
    pack N.eqb (fun _ => true) Sample.from_str Sample.to_string (Sample.to_string (Object Sample.team)) =
      Some (if (blen packed <? blen (Sample.to_string (Object Sample.team)))%nat then Some packed else None).
Proof.
  apply (envelopes_pack_when_shorter N.eqb (fun _ => true) Sample.from_str Sample.to_string).
  - exact Sample.laws.
  - apply (parse_print _ _ _ Sample.laws); [vm_compute; reflexivity | vm_compute; lia].
  - vm_compute. lia.
  - vm_compute. reflexivity.
Defined.

Definition sample_rows : list (list (rstr * Value N)) :=
  [Sample.row (lit "null") 1; Sample.row (lit " padded, quoted ") 2; [(lit "age", Object [(lit "years", Number 3)])]].

Definition sample_columns : list Column := default [] (collect_columns (fun _ => true) sample_rows).

Lemma clean_tables_pack_when_shorter_witness :
  exists packed, pack_top_level_array (fun _ => true) Sample.to_string (map Object sample_rows) = Some packed /\
    pack N.eqb (fun _ => true) Sample.from_str Sample.to_string (Sample.to_string (Array (map Object sample_rows))) =
      Some (if (blen packed <? blen (Sample.to_string (Array (map Object sample_rows))))%nat then Some packed else None).
Proof.
  apply (clean_tables_pack_when_shorter N.eqb (fun _ => true) Sample.from_str Sample.to_string _ _ sample_columns).
  - exact Sample.laws.
  - apply (parse_print _ _ _ Sample.laws); [vm_compute; reflexivity | vm_compute; lia].
  - vm_compute. lia.
  - vm_compute. congruence.
  - vm_compute. reflexivity.
  - vm_compute. congruence.
  - vm_compute. reflexivity.
Defined.

Definition sample_notes : list (list (rstr * Value N)) :=
  [Sample.row (lit "one" ++ [10] ++ lit "two") 1; Sample.row (lit "three") 2].

Lemma line_feed_in_a_cell_prevents_packing_witness :
  forall packed, Sample.pack_of (Array (map Object sample_notes)) <> Some (Some packed).
Proof.
  apply (line_feed_in_a_cell_prevents_packing N.eqb (fun _ => true) (Sample.parse_of (Array (map Object sample_notes)))
    Sample.print _ sample_notes
    [{| name := lit "name"; path := [lit "name"]; kind := ColumnKind.String; nullable := false; present_rows := 2 |};
     {| name := lit "age"; path := [lit "age"]; kind := ColumnKind.Int; nullable := false; present_rows := 2 |}]
    (Sample.row (lit "one" ++ [10] ++ lit "two") 1)
    {| name := lit "name"; path := [lit "name"]; kind := ColumnKind.String; nullable := false; present_rows := 2 |}
    (lit "one" ++ [10] ++ lit "two")).
  - vm_compute. reflexivity.
  - vm_compute. reflexivity.
  - by left.
  - by left.
  - reflexivity.
  - vm_compute. reflexivity.
  - vm_compute. reflexivity.
Defined.

End JsonPack.
 
