(* ===== verification/Utf8.v ===== *)
(** [core::str::from_utf8]: decoding bytes, with the error the standard library
    reports, and that it inverts the encoding of [RStr]. *)

From S2P Require Import Prelude RStr.
From Stdlib Require Import ZifyBool ZifyN ZifyNat.

Module Utf8.

Definition is_continuation (b : N) : bool := between 128 191 b.

Definition second_of_three (b0 b1 : N) : bool :=
  (b0 =? 224) && between 160 191 b1 || between 225 236 b0 && is_continuation b1
  || (b0 =? 237) && between 128 159 b1 || between 238 239 b0 && is_continuation b1.

Definition second_of_four (b0 b1 : N) : bool :=
  (b0 =? 240) && between 144 191 b1 || between 241 243 b0 && is_continuation b1 || (b0 =? 244) && between 128 143 b1.

(** The first character and what follows it, or the error: [None] when the bytes
    end within a character, else the length of the bad sequence
    ([Utf8Error::error_len]). *)
Definition next_char (s : list N) : result (option N) (char * list N) :=
  match s with
  | [] => Err None
  | b0 :: s1 =>
      if b0 <? 128 then Ok (b0, s1)
      else if between 194 223 b0 then
        match s1 with
        | [] => Err None
        | b1 :: s2 => if is_continuation b1 then Ok ((b0 - 192) * 64 + (b1 - 128), s2) else Err (Some 1)
        end
      else if between 224 239 b0 then
        match s1 with
        | [] => Err None
        | b1 :: s2 =>
            if second_of_three b0 b1 then
              match s2 with
              | [] => Err None
              | b2 :: s3 =>
                  if is_continuation b2 then Ok ((b0 - 224) * 4096 + (b1 - 128) * 64 + (b2 - 128), s3) else Err (Some 2)
              end
            else Err (Some 1)
        end
      else if between 240 244 b0 then
        match s1 with
        | [] => Err None
        | b1 :: s2 =>
            if second_of_four b0 b1 then
              match s2 with
              | [] => Err None
              | b2 :: s3 =>
                  if is_continuation b2 then
                    match s3 with
                    | [] => Err None
                    | b3 :: s4 =>
                        if is_continuation b3
                        then Ok ((b0 - 240) * 262144 + (b1 - 128) * 4096 + (b2 - 128) * 64 + (b3 - 128), s4)
                        else Err (Some 3)
                    end
                  else Err (Some 2)
              end
            else Err (Some 1)
        end
      else Err (Some 1)
  end.

(** The characters decoded, the bytes left, and the error that left them. *)
Record Decoded := { chars : rstr; undecoded : list N; error_len : option (option N) }.

Fixpoint decode_fuel (fuel : nat) (s : list N) : Decoded :=
  match s, fuel with
  | [], _ => {| chars := []; undecoded := []; error_len := None |}
  | _, O => {| chars := []; undecoded := s; error_len := Some None |}
  | _, S fuel =>
      match next_char s with
      | Ok (c, rest) =>
          let d := decode_fuel fuel rest in {| chars := c :: chars d; undecoded := undecoded d; error_len := error_len d |}
      | Err e => {| chars := []; undecoded := s; error_len := Some e |}
      end
  end.

(** Every character takes a byte. *)
Definition decode (s : list N) : Decoded := decode_fuel (length s) s.

Definition from_utf8 (s : list N) : option rstr :=
  match error_len (decode s) with None => Some (chars (decode s)) | Some _ => None end.

(** [Utf8Error::valid_up_to]. *)
Definition valid_up_to (s : list N) : nat := length s - length (undecoded (decode s)).

(** ** Lemmas *)

Ltac bytes := unfold second_of_three, second_of_four, is_continuation, between in *.

(** Digits to the base 64. *)
Lemma base64 q d : d < 64 -> (q * 64 + d) / 64 = q /\ (q * 64 + d) mod 64 = d.
Proof.
  intros H. split; [rewrite N.div_add_l, (N.div_small d) by lia; lia|].
  rewrite N.add_comm, N.Div0.mod_add, N.mod_small by lia. done.
Qed.

Lemma utf8_two b0 b1 : between 194 223 b0 = true -> is_continuation b1 = true ->
  utf8_char ((b0 - 192) * 64 + (b1 - 128)) = [b0; b1].
Proof.
  intros H0 H1. bytes. unfold utf8_char.
  rewrite (proj2 (N.ltb_ge _ 128)), (proj2 (N.ltb_lt _ 2048)) by lia.
  destruct (base64 (b0 - 192) (b1 - 128)) as [-> ->]; [lia|]. repeat f_equal; lia.
Qed.

Lemma utf8_three b0 b1 b2 : between 224 239 b0 = true -> second_of_three b0 b1 = true -> is_continuation b2 = true ->
  utf8_char ((b0 - 224) * 4096 + (b1 - 128) * 64 + (b2 - 128)) = [b0; b1; b2].
Proof.
  intros H0 H1 H2. bytes. unfold utf8_char.
  rewrite (proj2 (N.ltb_ge _ 128)), (proj2 (N.ltb_ge _ 2048)), (proj2 (N.ltb_lt _ 65536)) by lia.
  replace ((b0 - 224) * 4096 + (b1 - 128) * 64 + (b2 - 128)) with (((b0 - 224) * 64 + (b1 - 128)) * 64 + (b2 - 128)) by lia.
  change 4096 with (64 * 64). rewrite <- N.Div0.div_div.
  destruct (base64 ((b0 - 224) * 64 + (b1 - 128)) (b2 - 128)) as [-> ->]; [lia|].
  destruct (base64 (b0 - 224) (b1 - 128)) as [-> ->]; [lia|]. repeat f_equal; lia.
Qed.

Lemma utf8_four b0 b1 b2 b3 : between 240 244 b0 = true -> second_of_four b0 b1 = true ->
  is_continuation b2 = true -> is_continuation b3 = true ->
  utf8_char ((b0 - 240) * 262144 + (b1 - 128) * 4096 + (b2 - 128) * 64 + (b3 - 128)) = [b0; b1; b2; b3].
Proof.
  intros H0 H1 H2 H3. bytes. unfold utf8_char.
  rewrite (proj2 (N.ltb_ge _ 128)), (proj2 (N.ltb_ge _ 2048)), (proj2 (N.ltb_ge _ 65536)) by lia.
  replace ((b0 - 240) * 262144 + (b1 - 128) * 4096 + (b2 - 128) * 64 + (b3 - 128))
    with ((((b0 - 240) * 64 + (b1 - 128)) * 64 + (b2 - 128)) * 64 + (b3 - 128)) by lia.
  change 262144 with (64 * (64 * 64)). change 4096 with (64 * 64). rewrite <- !N.Div0.div_div.
  destruct (base64 (((b0 - 240) * 64 + (b1 - 128)) * 64 + (b2 - 128)) (b3 - 128)) as [-> ->]; [lia|].
  destruct (base64 ((b0 - 240) * 64 + (b1 - 128)) (b2 - 128)) as [-> ->]; [lia|].
  destruct (base64 (b0 - 240) (b1 - 128)) as [-> ->]; [lia|]. repeat f_equal; lia.
Qed.

(** A character that was decoded encodes to the bytes it came from, and decodes
    from them whatever follows. *)
Lemma next_char_Ok s c r : next_char s = Ok (c, r) ->
  s = utf8_char c ++ r /\ forall r', next_char (utf8_char c ++ r') = Ok (c, r').
Proof.
  unfold next_char at 1. destruct s as [|b0 s1]; [done|].
  destruct (b0 <? 128) eqn:E.
  { intros [= -> ->]. unfold utf8_char. rewrite E. split; [done|]. intros r'. cbn. by rewrite E. }
  destruct (between 194 223 b0) eqn:E2; [|destruct (between 224 239 b0) eqn:E3; [|destruct (between 240 244 b0) eqn:E4; [|done] ] ].
  - destruct s1 as [|b1 s2]; [done|]. destruct (is_continuation b1) eqn:C1; [|done]. intros [= <- ->].
    rewrite utf8_two by done. split; [done|]. intros r'. cbn. by rewrite E, E2, C1.
  - destruct s1 as [|b1 s2]; [done|]. destruct (second_of_three b0 b1) eqn:C1; [|done]. destruct s2 as [|b2 s3]; [done|].
    destruct (is_continuation b2) eqn:C2; [|done]. intros [= <- ->].
    rewrite utf8_three by done. split; [done|]. intros r'. cbn. by rewrite E, E2, E3, C1, C2.
  - destruct s1 as [|b1 s2]; [done|]. destruct (second_of_four b0 b1) eqn:C1; [|done]. destruct s2 as [|b2 s3]; [done|].
    destruct (is_continuation b2) eqn:C2; [|done]. destruct s3 as [|b3 s4]; [done|].
    destruct (is_continuation b3) eqn:C3; [|done]. intros [= <- ->].
    rewrite utf8_four by done. split; [done|]. intros r'. cbn. by rewrite E, E2, E3, E4, C1, C2, C3.
Qed.

Lemma utf8_char_ne c : exists b t, utf8_char c = b :: t.
Proof. unfold utf8_char. repeat case_match; eauto. Qed.

(** Fuel beyond the length of the bytes changes nothing. *)
Lemma decode_fuel_enough s : forall n m, (length s <= n)%nat -> (length s <= m)%nat -> decode_fuel n s = decode_fuel m s.
Proof.
  remember (length s) as k eqn:Hk. revert s Hk. induction (lt_wf k) as [k _ IH]. intros s -> n m Hn Hm.
  destruct s as [|b s]; [by destruct n, m|]. destruct n as [|n], m as [|m]; cbn [length] in *; [lia..|].
  cbn [decode_fuel]. destruct (next_char (b :: s)) as [ [c r]|e] eqn:E; [|done]. apply next_char_Ok in E as [E _].
  assert (length r <= length s)%nat.
  { destruct (utf8_char_ne c) as (b' & t & Hc). rewrite Hc in E. injection E as _ ->. rewrite length_app. lia. }
  by rewrite (IH (length r)) with (n := n) (m := m) by (cbn [length]; lia).
Qed.

Lemma decode_cons s : s <> [] ->
  decode s = match next_char s with
             | Ok (c, rest) =>
                 {| chars := c :: chars (decode rest); undecoded := undecoded (decode rest); error_len := error_len (decode rest) |}
             | Err e => {| chars := []; undecoded := s; error_len := Some e |}
             end.
Proof.
  destruct s as [|b s]; [done|]. intros _. unfold decode at 1. cbn [length decode_fuel].
  destruct (next_char (b :: s)) as [ [c r]|e] eqn:E; [|done]. apply next_char_Ok in E as [E _].
  assert (length r <= length s)%nat.
  { destruct (utf8_char_ne c) as (b' & t & Hc). rewrite Hc in E. injection E as _ ->. rewrite length_app. lia. }
  unfold decode. by rewrite (decode_fuel_enough r (length s) (length r)) by lia.
Qed.

(** Decoding splits the bytes: what was decoded encodes back to its bytes, which
    are a valid text of their own. *)
Lemma decode_splits s :
  s = utf8 (chars (decode s)) ++ undecoded (decode s) /\
  decode (utf8 (chars (decode s))) = {| chars := chars (decode s); undecoded := []; error_len := None |} /\
  (error_len (decode s) = None -> undecoded (decode s) = []).
Proof.
  remember (length s) as k eqn:Hk. revert s Hk. induction (lt_wf k) as [k _ IH]. intros s ->.
  destruct (decide (s = [])) as [->|Hne]; [done|]. rewrite (decode_cons s Hne).
  destruct (next_char s) as [ [c r]|e] eqn:E; [|done]. apply next_char_Ok in E as [-> Hn]. cbn [chars undecoded error_len].
  destruct (utf8_char_ne c) as (b & t & Hc).
  destruct (IH (length r)) with (s := r) as (H1 & H2 & H3); [rewrite Hc; cbn; rewrite length_app; lia | done |].
  split_and!; [by rewrite H1 at 1; rewrite (app_assoc _ _ (undecoded _)) | | exact H3].
  change (utf8 (c :: ?s)) with (utf8_char c ++ utf8 s). rewrite decode_cons by (by rewrite Hc). rewrite Hn. by rewrite H2.
Qed.

Lemma from_utf8_Some s t : from_utf8 s = Some t -> utf8 t = s.
Proof.
  unfold from_utf8. destruct (decode_splits s) as (H1 & _ & H3). destruct (error_len (decode s)); [done|]. intros [= <-].
  rewrite H3, app_nil_r in H1 by done. by symmetry.
Qed.

(** The valid prefix. *)
Lemma valid_prefix s : take (valid_up_to s) s = utf8 (chars (decode s)) /\
  from_utf8 (take (valid_up_to s) s) = Some (chars (decode s)).
Proof.
  destruct (decode_splits s) as (H1 & H2 & _).
  assert (take (valid_up_to s) s = utf8 (chars (decode s))) as E.
  { unfold valid_up_to. apply (f_equal length) in H1 as Hl. rewrite length_app in Hl.
    replace (length s - length (undecoded (decode s)))%nat with (length (utf8 (chars (decode s)))) by lia.
    rewrite H1 at 2. apply take_app_length. }
  split; [exact E|]. rewrite E. unfold from_utf8. by rewrite H2.
Qed.

(** A Unicode scalar value. *)
Definition is_scalar (c : char) : bool := (c <? 55296) || between 57344 1114111 c.

Lemma next_char_utf8 c r : is_scalar c = true -> next_char (utf8_char c ++ r) = Ok (c, r).
Proof.
  unfold is_scalar, between. intros H. unfold utf8_char.
  pose proof (N.div_mod c 64 ltac:(lia)) as D1. pose proof (N.mod_lt c 64 ltac:(lia)) as M1.
  pose proof (N.div_mod (c / 64) 64 ltac:(lia)) as D2. pose proof (N.mod_lt (c / 64) 64 ltac:(lia)) as M2.
  pose proof (N.div_mod (c / 64 / 64) 64 ltac:(lia)) as D3. pose proof (N.mod_lt (c / 64 / 64) 64 ltac:(lia)) as M3.
  replace (c / 4096) with (c / 64 / 64) by (by rewrite N.Div0.div_div).
  replace (c / 262144) with (c / 64 / 64 / 64) by (by rewrite !N.Div0.div_div).
  revert D1 M1 D2 M2 D3 M3. generalize (c mod 64) (c / 64 mod 64) (c / 64 / 64 mod 64) (c / 64 / 64 / 64).
  generalize (c / 64 / 64). generalize (c / 64). intros q1 q2 m1 m2 m3 q3 D1 M1 D2 M2 D3 M3.
  destruct (N.ltb_spec c 128) as [E|E]; [cbn; by rewrite (proj2 (N.ltb_lt _ _) E)|].
  destruct (N.ltb_spec c 2048) as [E2|E2]; [|destruct (N.ltb_spec c 65536) as [E3|E3] ]; cbn [app next_char].
  - rewrite (proj2 (N.ltb_ge _ 128)) by lia. replace (between 194 223 _) with true by (bytes; lia).
    replace (is_continuation _) with true by (bytes; lia). do 2 f_equal. lia.
  - rewrite (proj2 (N.ltb_ge _ 128)) by lia. replace (between 194 223 _) with false by (bytes; lia).
    replace (between 224 239 _) with true by (bytes; lia). replace (second_of_three _ _) with true by (bytes; lia).
    replace (is_continuation _) with true by (bytes; lia). do 2 f_equal. lia.
  - rewrite (proj2 (N.ltb_ge _ 128)) by lia. replace (between 194 223 _) with false by (bytes; lia).
    replace (between 224 239 _) with false by (bytes; lia). replace (between 240 244 _) with true by (bytes; lia).
    replace (second_of_four _ _) with true by (bytes; lia).
    replace (is_continuation (128 + m2)) with true by (bytes; lia). replace (is_continuation (128 + m1)) with true by (bytes; lia).
    do 2 f_equal. lia.
Qed.

(** Decoding the encoding of a string gives it back. *)
Lemma from_utf8_utf8 s : forallb is_scalar s = true -> from_utf8 (utf8 s) = Some s.
Proof.
  intros H. enough (decode (utf8 s) = {| chars := s; undecoded := []; error_len := None |}) as E by (unfold from_utf8; by rewrite E).
  induction s as [|c s IH]; [done|]. cbn [forallb] in H. apply andb_true_iff in H as [Hc Hs].
  change (utf8 (c :: s)) with (utf8_char c ++ utf8 s). destruct (utf8_char_ne c) as (b & t & Hb).
  rewrite decode_cons by (by rewrite Hb). by rewrite next_char_utf8, IH by done.
Qed.
End Utf8.
