(* ===== verification/Exec.v ===== *)
(** Executions ([crates/hzr-exec/src/model.rs], [capture.rs] and the capture
    loop of [executor.rs]): commands and the decisions about them, and the
    capture of a stream in memory or in a spill file.

    [sha256] is a parameter.  What the file system answers to a push is the
    argument [SpillIo]; the bytes written to a spill file are part of the writer's
    state.  A path, and the text of an I/O error, is a string. *)

From S2P Require Import Prelude RStr.
From Stdlib Require Import ZifyBool ZifyN ZifyNat.

Module Exec.

Inductive ExecError :=
| EmptyProgram
| EmptyShell
| InvalidMemoryLimit
| InvalidCaptureLimit
| MemoryLimitExceedsCaptureLimit
| InvalidEventBuffer
| CreateSpillDirectory (path source : rstr)
| OpenSpill (path source : rstr)
| WriteSpill (path source : rstr)
| FlushSpill (path source : rstr)
| MissingSpillState
| Wait (program source : rstr).

(** ** Commands and decisions *)

Inductive CanonicalCommand :=
| Argv (program : rstr) (args : list rstr)
| Shell (shell command : rstr).

Definition argv (program : rstr) (args : list rstr) : result ExecError CanonicalCommand :=
  if is_empty program then Err EmptyProgram else Ok (Argv program args).

Definition with_shell (shell command : rstr) : result ExecError CanonicalCommand :=
  if is_empty shell then Err EmptyShell else Ok (Shell shell command).

Definition program (self : CanonicalCommand) : rstr :=
  match self with Argv program _ => program | Shell shell _ => shell end.

Definition default_shell : rstr := lit "/bin/sh".

Definition shell (command : rstr) : CanonicalCommand := Shell default_shell command.

(** [shell_env] is [$SHELL]; [exists_] asks for a regular file. *)
Definition host_shell_from (shell_env : option rstr) (exists_ : rstr -> bool) : rstr :=
  let from_env :=
    match shell_env with
    | Some shell =>
        let supported := match file_name shell with Some name => one_of name [lit "bash"; lit "zsh"] | None => false end in
        if starts_with (lit "/") shell && supported && exists_ shell then Some shell else None
    | None => None
    end in
  match from_env with
  | Some path => path
  | None => default default_shell (List.find exists_ [lit "/bin/bash"; lit "/usr/bin/bash"])
  end.

Inductive RtkRewriteRoute := Optimized | Proxy.

Inductive RewriteSource := HzrPolicy | Rtk (version : rstr) (route : RtkRewriteRoute).

Inductive RewriteDecision :=
| AllowRaw (reason : rstr)
| AllowRewrite (command : CanonicalCommand) (source : RewriteSource) (reason : rstr)
| Ask (proposed : option CanonicalCommand) (reason : rstr)
| Deny (reason : rstr).

Definition GRANT_APPLIED_REASON : rstr :=
  lit "host permission mode grants execution, so HZR recorded it instead of prompting".

Definition reconcile_host_grant (decision : RewriteDecision) (granted : bool) : RewriteDecision :=
  if negb granted then decision
  else match decision with
       | Ask (Some command) reason => AllowRewrite command HzrPolicy (reason ++ lit "; " ++ GRANT_APPLIED_REASON)
       | Ask None reason => AllowRaw (reason ++ lit "; " ++ GRANT_APPLIED_REASON)
       | _ => decision
       end.

Definition host_grant_applied (decision : RewriteDecision) : bool :=
  match decision with
  | AllowRaw reason | AllowRewrite _ _ reason => ends_with GRANT_APPLIED_REASON reason
  | Ask _ _ | Deny _ => false
  end.

(** ** Captures *)

Inductive CaptureOverflow := Spill (directory : rstr) | Truncate.

Record CaptureConfig := {
  memory_limit_bytes : N;
  max_capture_bytes : N;
  overflow : CaptureOverflow;
  event_buffer : N;
}.

Definition validate (self : CaptureConfig) : result ExecError unit :=
  _ ← guard_err (memory_limit_bytes self =? 0) InvalidMemoryLimit;
  _ ← guard_err (max_capture_bytes self =? 0) InvalidCaptureLimit;
  _ ← guard_err (max_capture_bytes self <? memory_limit_bytes self) MemoryLimitExceedsCaptureLimit;
  _ ← guard_err (event_buffer self =? 0) InvalidEventBuffer;
  Ok tt.

Inductive ExecutionStream := Stdout | Stderr.

Inductive CapturedContent := Inline (bytes : list N) | Spilled (path : rstr).

Record CapturedStream := {
  content : CapturedContent;
  total_bytes : N;
  stored_bytes : N;
  sha256_hex : rstr;
  truncated : bool;
  dropped_event_bytes : N;
}.

Definition is_exact (self : CapturedStream) : bool :=
  negb (truncated self) && (total_bytes self =? stored_bytes self).

(** The hasher is what it was fed; a spill is its path and what was written to it. *)
Record CaptureWriter := {
  config : CaptureConfig;
  stream : ExecutionStream;
  inline : list N;
  spill : option (rstr * list N);
  hashed : list N;
  cw_total : N;
  cw_stored : N;
  cw_dropped : N;
}.

Definition new_writer (config : CaptureConfig) (stream : ExecutionStream) : CaptureWriter :=
  {| config := config; stream := stream; inline := []; spill := None; hashed := []; cw_total := 0; cw_stored := 0;
     cw_dropped := 0 |}.

Definition record_dropped_event (self : CaptureWriter) (bytes : N) : CaptureWriter :=
  {| config := config self; stream := stream self; inline := inline self; spill := spill self; hashed := hashed self;
     cw_total := cw_total self; cw_stored := cw_stored self; cw_dropped := sat_add u64_max (cw_dropped self) bytes |}.

(** The name a new spill file gets, and the errors its calls run into. *)
Record SpillIo := {
  spill_name : rstr;
  create_error : option rstr;
  open_error : option rstr;
  inline_error : option rstr;
  write_error : option rstr;
}.

Definition io {E} (outcome : option rstr) (error : rstr -> E) : result E unit :=
  match outcome with None => Ok tt | Some source => Err (error source) end.

(** [ensure_spill]: the spill, and what is left in memory. *)
Definition ensure_spill (self : CaptureWriter) (directory : rstr) (fs : SpillIo)
  : result ExecError (rstr * list N * list N) :=
  match spill self with
  | Some (path, file) => Ok (path, file, inline self)
  | None =>
      let path := path_join directory (spill_name fs) in
      _ ← io (create_error fs) (CreateSpillDirectory directory);
      _ ← io (open_error fs) (OpenSpill path);
      _ ← io (inline_error fs) (WriteSpill path);
      Ok (path, inline self, [])
  end.

Definition llen (l : list N) : N := N.of_nat (length l).

Definition storage_limit (c : CaptureConfig) : N :=
  match overflow c with
  | Spill _ => max_capture_bytes c
  | Truncate => N.min (memory_limit_bytes c) (max_capture_bytes c)
  end.

Definition push (self : CaptureWriter) (bytes : list N) (fs : SpillIo) : result ExecError CaptureWriter :=
  let hashed' := hashed self ++ bytes in
  let total' := sat_add u64_max (cw_total self) (llen bytes) in
  let storable := N.min (llen bytes) (sat_sub (storage_limit (config self)) (cw_stored self)) in
  let store inline spill stored :=
    {| config := config self; stream := stream self; inline := inline; spill := spill; hashed := hashed';
       cw_total := total'; cw_stored := stored; cw_dropped := cw_dropped self |} in
  if storable =? 0 then Ok (store (inline self) (spill self) (cw_stored self))
  else
    let bytes := take (N.to_nat storable) bytes in
    let stored' := sat_add u64_max (cw_stored self) storable in
    match overflow (config self) with
    | Spill directory =>
        if bool_decide (is_Some (spill self))
           || (memory_limit_bytes (config self) <? sat_add u64_max (llen (inline self)) (llen bytes))
        then
          '(path, file, inline) ← ensure_spill self directory fs;
          _ ← io (write_error fs) (WriteSpill path);
          Ok (store inline (Some (path, file ++ bytes)) stored')
        else Ok (store (inline self ++ bytes) (spill self) stored')
    | Truncate => Ok (store (inline self ++ bytes) (spill self) stored')
    end.

Inductive NotStarted :=
| ApprovalRequired (decision_id : option rstr) (requested : CanonicalCommand) (proposed : option CanonicalCommand)
    (reason : rstr)
| Denied (requested : CanonicalCommand) (reason : rstr).

Inductive TerminationCause := Exited | Signaled | TimedOut | Cancelled.

Record Termination := { cause : TerminationCause; exit_code : option Z; signal : option Z }.

Record ExecutionResult := {
  requested : CanonicalCommand;
  executed : CanonicalCommand;
  decision : RewriteDecision;
  raw_fallback : bool;
  stdout : CapturedStream;
  stderr : CapturedStream;
  termination : Termination;
  duration_ms : N;
}.

Record AccountingIncomplete := { code : rstr; retryable : bool; incident_persisted : bool }.

Inductive ExecutionOutcome :=
| Completed (result : ExecutionResult)
| ExecutedAccountingIncomplete (result : ExecutionResult) (accounting : AccountingIncomplete)
| NotStartedOutcome (disposition : NotStarted).

Lemma llen_app a b : llen (a ++ b) = llen a + llen b.
Proof. unfold llen. rewrite length_app. lia. Qed.

Lemma llen_take n l : llen (take (N.to_nat n) l) = N.min n (llen l).
Proof. unfold llen. rewrite length_take. lia. Qed.

(** Taking from a longer list: what was taken and as much as is missing. *)
Lemma take_more n (a b : list N) :
  take (N.to_nat n) (a ++ b) = take (N.to_nat n) a ++ take (N.to_nat (N.min (llen b) (n - llen (take (N.to_nat n) a)))) b.
Proof.
  rewrite take_app. f_equal. rewrite llen_take. unfold llen.
  destruct (decide (N.to_nat n <= length a)%nat) as [H|H].
  - replace (N.to_nat n - length a)%nat with 0%nat by lia.
    replace (N.to_nat (N.min (N.of_nat (length b)) (n - N.min n (N.of_nat (length a))))) with 0%nat by lia. done.
  - replace (N.to_nat (N.min (N.of_nat (length b)) (n - N.min n (N.of_nat (length a)))))
      with (Nat.min (length b) (N.to_nat n - length a)) by lia.
    destruct (Nat.min_spec (length b) (N.to_nat n - length a)) as [ [? ->]|[? ->] ]; [|done]. by rewrite !take_ge by lia.
Qed.

Section Capture.
Context (sha256 : list N -> rstr).

Definition finish (self : CaptureWriter) (flush_error : option rstr) : result ExecError CapturedStream :=
  content ← match spill self with
            | Some (path, _) => _ ← io flush_error (FlushSpill path); Ok (Spilled path)
            | None => Ok (Inline (inline self))
            end;
  Ok {| content := content; total_bytes := cw_total self; stored_bytes := cw_stored self;
        sha256_hex := sha256 (hashed self); truncated := negb (cw_total self =? cw_stored self);
        dropped_event_bytes := cw_dropped self |}.

(** One turn of the reading loop: an error, or bytes, with whether the event
    channel was full and what the file system answers. *)
Inductive StreamRead :=
| ReadError (source : rstr)
| ReadBytes (bytes : list N) (channel_full : bool) (fs : SpillIo).

Fixpoint capture_loop (capture : CaptureWriter) (reads : list StreamRead) : result ExecError CaptureWriter :=
  match reads with
  | [] => Ok capture
  | ReadError source :: _ =>
      Err (Wait (match stream capture with Stdout => lit "Stdout" | Stderr => lit "Stderr" end ++ lit " capture") source)
  | ReadBytes [] _ _ :: _ => Ok capture
  | ReadBytes bytes channel_full fs :: reads =>
      let capture := if channel_full then record_dropped_event capture (llen bytes) else capture in
      capture ← push capture bytes fs;
      capture_loop capture reads
  end.

(** The captured stream, and the spill file next to it. *)
Definition capture_stream (config : CaptureConfig) (stream : ExecutionStream) (reads : list StreamRead)
    (flush_error : option rstr) : result ExecError (CapturedStream * option (list N)) :=
  capture ← capture_loop (new_writer config stream) reads;
  captured ← finish capture flush_error;
  Ok (captured, snd <$> spill capture).

(** ** Lemmas *)

(** What the reads deliver up to the end of the stream. *)
Fixpoint delivered (reads : list StreamRead) : list N :=
  match reads with
  | ReadBytes (b :: bytes) _ _ :: reads => (b :: bytes) ++ delivered reads
  | _ => []
  end.

Definition stored_content (w : CaptureWriter) : list N := match spill w with Some (_, file) => file | None => inline w end.

(** The state after [all] has been pushed, in whatever pieces. *)
Record captured_all (c : CaptureConfig) (w : CaptureWriter) (all : list N) : Prop := {
  ca_config : config w = c;
  ca_hashed : hashed w = all;
  ca_total : cw_total w = N.min (llen all) u64_max;
  ca_content : stored_content w = take (N.to_nat (storage_limit c)) all;
  ca_stored : cw_stored w = llen (stored_content w);
  ca_inline : spill w = None -> match overflow c with Spill _ => llen (inline w) <= memory_limit_bytes c | Truncate => True end;
  ca_spill : is_Some (spill w) -> memory_limit_bytes c < llen (stored_content w) /\ inline w = [] /\ overflow c <> Truncate;
}.

Lemma push_captures c w all bytes fs w' : storage_limit c <= u64_max -> captured_all c w all ->
  push w bytes fs = Ok w' -> captured_all c w' (all ++ bytes).
Proof.
  intros Hlim [Hc Hh Ht Hcon Hst Hin Hsp]. unfold push. rewrite Hc.
  pose proof (take_more (storage_limit c) all bytes) as Htake. rewrite <- Hcon, <- Hst in Htake.
  set (n := N.min (llen bytes) (storage_limit c - cw_stored w)) in *.
  assert (cw_stored w <= storage_limit c) as Hle by (rewrite Hst, Hcon, llen_take; lia).
  assert (sat_add u64_max (cw_total w) (llen bytes) = N.min (llen (all ++ bytes)) u64_max) as Htot.
  { rewrite Ht, llen_app. unfold sat_add. lia. }
  change (sat_sub (storage_limit c) (cw_stored w)) with (storage_limit c - cw_stored w). fold n.
  destruct (N.eqb_spec n 0) as [E|E].
  { intros [= <-]. rewrite E in Htake. simpl in Htake. rewrite app_nil_r in Htake.
    split; cbn [config hashed cw_total cw_stored spill inline]; first [done | by rewrite Hh | by rewrite Htake]. }
  assert (llen (take (N.to_nat n) bytes) = n) as Hn by (rewrite llen_take; lia).
  assert (sat_add u64_max (cw_stored w) n = cw_stored w + n) as Hsat by (apply sat_add_exact; lia). rewrite Hsat.
  assert (forall inl sp, match sp with Some (_, file) => file | None => inl end = stored_content w ++ take (N.to_nat n) bytes ->
    (sp = None -> match overflow c with Spill _ => llen inl <= memory_limit_bytes c | Truncate => True end) ->
    (is_Some sp -> memory_limit_bytes c < cw_stored w + n /\ inl = [] /\ overflow c <> Truncate) ->
    captured_all c {| config := c; stream := stream w; inline := inl; spill := sp; hashed := hashed w ++ bytes;
      cw_total := sat_add u64_max (cw_total w) (llen bytes); cw_stored := cw_stored w + n; cw_dropped := cw_dropped w |}
      (all ++ bytes)) as Hmk.
  { intros inl sp Hcont Hi Hs. split; cbn [config hashed cw_total cw_stored spill inline]; try done; [by rewrite Hh | | |].
    - unfold stored_content at 1. cbn [spill inline]. by rewrite Hcont, Htake.
    - unfold stored_content at 1. cbn [spill inline]. rewrite Hcont, llen_app. lia.
    - unfold stored_content at 1. cbn [spill inline]. rewrite Hcont, llen_app, Hn, <- Hst. exact Hs. }
  destruct (overflow c) as [directory|] eqn:Eo.
  - destruct (bool_decide (is_Some (spill w)) || _) eqn:Eb.
    + unfold ensure_spill. destruct (spill w) as [ [path file]|] eqn:Es; intros H; inv_ok.
      * apply Hmk; [by unfold stored_content; rewrite Es | done |]. intros _. destruct Hsp as (H1 & H2 & H3); [eauto|].
        split_and!; [lia | done | done].
      * destruct (io (write_error fs) _); [|done]. cbn [mbind result_bind] in *. simplify_eq.
        apply Hmk; [by unfold stored_content; rewrite Es | done |]. intros _. split_and!; [|done | done].
        bool_prop. destruct Eb as [Eb|Eb]; bool_prop; [by destruct Eb|]. unfold sat_add in Eb.
        unfold stored_content in Hst. rewrite Es in Hst. rewrite Hn in Eb. lia.
    + intros [= <-]. bool_prop. apply Hmk; [unfold stored_content; destruct (spill w) as [ [? ?]|] eqn:Es | |].
      * destruct H. eauto.
      * done.
      * intros Hs. rewrite llen_app, Hn. unfold sat_add in H0. rewrite Hn in H0. unfold stored_content in Hst. rewrite Hs in Hst. lia.
      * intros Hs. destruct H. exact Hs.
  - intros [= <-]. apply Hmk; [|done|].
    + unfold stored_content. destruct (spill w) as [ [? ?]|] eqn:Es; [|done]. destruct Hsp as (_ & _ & Hs); [eauto|]. done.
    + intros Hs. destruct (Hsp Hs) as (_ & _ & ?). done.
Qed.

Lemma capture_loop_captures c reads : storage_limit c <= u64_max -> forall w all w',
  captured_all c w all -> capture_loop w reads = Ok w' -> captured_all c w' (all ++ delivered reads).
Proof.
  intros Hlim. induction reads as [|[source|[|b bytes] full fs] reads IH]; intros w all w' Hw; simpl.
  - intros [= <-]. by rewrite app_nil_r.
  - done.
  - intros [= <-]. by rewrite app_nil_r.
  - intros H. inv_ok. match goal with H : push ?w0 _ _ = Ok ?x |- _ => assert (captured_all c w0 all) as Hw0 end.
    { by destruct full; [destruct Hw; split|]. }
    match goal with H : push _ _ _ = Ok ?x, H' : capture_loop ?x _ = _ |- _ =>
      specialize (IH x (all ++ b :: bytes) w' (push_captures _ _ _ _ _ _ Hlim Hw0 H) H') end.
    by rewrite <- app_assoc in IH.
Qed.

Lemma new_writer_captures c s : captured_all c (new_writer c s) [].
Proof.
  split; unfold new_writer, stored_content; cbn; try done.
  - by rewrite take_nil.
  - intros _. destruct (overflow c); unfold llen; simpl; lia.
Qed.

(** ** Properties *)

(** However the output arrives in pieces, a capture keeps exactly its first
    bytes up to the limit, in memory or in the spill file, counts all of it,
    hashes all of it, and says whether anything was cut; in memory a spilling
    capture keeps no more than its memory limit. *)
Theorem capture_keeps_a_prefix c s reads flush captured file :
  storage_limit c <= u64_max -> llen (delivered reads) <= u64_max ->
  capture_stream c s reads flush = Ok (captured, file) ->
  let kept := take (N.to_nat (storage_limit c)) (delivered reads) in
  match content captured with
  | Inline bytes => bytes = kept /\ file = None /\
      match overflow c with Spill _ => llen bytes <= memory_limit_bytes c | Truncate => True end
  | Spilled _ => file = Some kept /\ memory_limit_bytes c < llen kept
  end /\
  total_bytes captured = llen (delivered reads) /\ stored_bytes captured = llen kept /\
  sha256_hex captured = sha256 (delivered reads) /\
  truncated captured = (storage_limit c <? llen (delivered reads)) /\ is_exact captured = negb (truncated captured).
Proof.
  intros Hlim Hall. unfold capture_stream. intros H. inv_ok. rename x into w.
  match goal with H : capture_loop _ _ = _ |- _ => apply (capture_loop_captures c reads Hlim _ [] w (new_writer_captures c s)) in H;
    destruct H as [Hc Hh Ht Hcon Hst Hin Hsp] end. simpl in *.
  rewrite <- Hcon. assert (cw_stored w = N.min (storage_limit c) (llen (delivered reads))) as Hst'
    by (by rewrite Hst, Hcon, llen_take).
  assert (negb (cw_total w =? cw_stored w) = (storage_limit c <? llen (delivered reads))) as Htr by lia.
  unfold finish in *. destruct (spill w) as [ [path spilled]|] eqn:Es; inv_ok; unfold stored_content in *; rewrite Es in *;
    cbn [content total_bytes stored_bytes sha256_hex truncated is_exact fmap option_fmap option_map snd].
  - destruct Hsp as (H1 & H2 & H3); [eauto|]. unfold is_exact. cbn [truncated total_bytes stored_bytes].
    split_and!; try done; [lia | by rewrite Hh |]. lia.
  - unfold is_exact. cbn [truncated total_bytes stored_bytes].
    split_and!; try done; [by apply Hin | lia | by rewrite Hh |]. lia.
Qed.
End Capture.

(** A host's grant removes the prompt and nothing else: without it the
    decision stands; with it a question becomes the command that was proposed, or
    the raw one, marked as granted, while denials and allowances stay as they
    are; granting again changes nothing. *)
Theorem a_grant_removes_only_the_prompt decision :
  reconcile_host_grant decision false = decision /\
  match decision with
  | Ask proposed reason =>
      host_grant_applied (reconcile_host_grant decision true) = true /\
      match proposed with
      | Some command => exists s r, reconcile_host_grant decision true = AllowRewrite command s r
      | None => exists r, reconcile_host_grant decision true = AllowRaw r
      end
  | _ => reconcile_host_grant decision true = decision
  end /\
  reconcile_host_grant (reconcile_host_grant decision true) true = reconcile_host_grant decision true.
Proof.
  assert (forall r, ends_with GRANT_APPLIED_REASON (r ++ lit "; " ++ GRANT_APPLIED_REASON) = true) as Hends.
  { intros r. apply ends_with_true. exists (r ++ lit "; "). by rewrite <- app_assoc. }
  destruct decision as [r|c s r|[c|] r|r]; (split; [done|split]); try done; (split; [apply Hends | simpl; eauto]).
Qed.

(** Two chunks that overflow four bytes of memory. *)
Definition sample_config : CaptureConfig :=
  {| memory_limit_bytes := 4; max_capture_bytes := 8; overflow := Spill (lit "/tmp/op.output"); event_buffer := 1 |}.
Definition sample_fs : SpillIo :=
  {| spill_name := lit "hzr-exec-1-stdout.bin"; create_error := None; open_error := None; inline_error := None;
     write_error := None |}.
Definition sample_reads : list StreamRead :=
  [ReadBytes (lit "hello") false sample_fs; ReadBytes (lit " world") true sample_fs].

Lemma capture_keeps_a_prefix_witness :
  exists captured file, capture_stream (fun l => l) sample_config Stdout sample_reads None = Ok (captured, file) /\
    file = Some (lit "hello wo") /\ truncated captured = true.
Proof.
  destruct (capture_stream (fun l => l) sample_config Stdout sample_reads None) as [ [captured file]|] eqn:E; [|by vm_compute in E].
  exists captured, file. split; [done|].
  destruct (capture_keeps_a_prefix (fun l => l) sample_config Stdout sample_reads None captured file)
    as (H1 & _ & _ & _ & H2 & _); [vm_compute; congruence | vm_compute; congruence | exact E |].
  vm_compute in E. injection E as <- <-. vm_compute in H1, H2. destruct H1 as [H1 _]. split; [exact H1 | exact H2].
Defined.

End Exec.
