(* ===== verification/Api.v ===== *)
(** The daemon's errors ([crates/hzr-daemon/src/error.rs]) and what a client sees
    of them.  The details of a response, always null, are left out. *)

From S2P Require Import Prelude RStr.

Module Api.

Record ApiError := { status : N; code : rstr; message : rstr; recoverable : bool }.

Definition bad_request (message : rstr) : ApiError :=
  {| status := 400; code := lit "invalid_request"; message := message; recoverable := true |}.

Definition not_found (code message : rstr) : ApiError :=
  {| status := 404; code := code; message := message; recoverable := true |}.

Definition gone (code message : rstr) : ApiError :=
  {| status := 410; code := code; message := message; recoverable := false |}.

Definition service (code message : rstr) (recoverable : bool) : ApiError :=
  {| status := 503; code := code; message := message; recoverable := recoverable |}.

Definition internal (message : rstr) : ApiError :=
  {| status := 500; code := lit "internal_error"; message := message; recoverable := false |}.

Record ErrorResponse := { trace_id : option rstr; er_code : rstr; er_message : rstr; er_recoverable : bool }.

Definition payload (self : ApiError) : ErrorResponse :=
  {| trace_id := None; er_code := code self; er_message := message self; er_recoverable := recoverable self |}.
End Api.
