(* ===== verification/ExecJobs.v ===== *)
(** Execution jobs ([crates/hzr-daemon/src/exec_jobs.rs], its [retention.rs] and
    [receipts.rs]): commands that run under an operation identifier, whose
    records outlive the daemon.

    Every handler holds the lock of the active jobs while it reads and writes
    records, so it is one step of a transition system; a running command is a
    task that takes its completion step later, or never when the daemon dies.
    Parameters: [canonical_uuid] (the uuid crate), [privacy_hash] of a request,
    and the lengths of the JSON encodings, [outcome_len] and [record_len].  The
    environment of a step, [Env], holds what the file system, SQLite and the
    clock answer; a write can fail before or after the new record is in place.
    The receipt database is a map; an output directory is its size, and is
    removed as a whole. *)

From S2P Require Import Prelude RStr Api Exec.
From Stdlib Require Import ZifyBool ZifyN ZifyNat.

Module ExecJobs.
Import Api.

Definition MAX_JOB_MS : N := 30 * 60 * 1000.
Definition DEFAULT_JOB_MS : N := 30 * 60 * 1000.
Definition MAX_ACTIVE_JOBS : N := 32.
Definition MAX_RECORD_BYTES : N := 8 * 1024 * 1024.
Definition MAX_STORE_BYTES : N := 2 * 1024 * 1024 * 1024.
Definition MAX_JOB_OUTPUT_BYTES : N := 2 * 64 * 1024 * 1024.
Definition MAX_RECORDS : N := 20000.
Definition DEFAULT_OUTPUT_BYTES : N := 64 * 1024.
Definition MAX_RECEIPT_RECORD_BYTES : N := 16 * 1024.
Definition KEEP_RECENT_RECORDS : N := 1000.
(** In milliseconds. *)
Definition RESULT_GRACE : N := 60 * 60 * 1000.
Definition COMPACTION_BATCH : nat := 256.

Inductive ExecJobState := Running | Completed | Cancelled | Interrupted | Failed.

#[export] Instance ExecJobState_eq_dec : EqDecision ExecJobState.
Proof. solve_decision. Defined.

Record ExecJobDelivery := { unchanged : bool; output_omitted : bool; required_bytes : N }.

Record ExecJobSnapshot := {
  delivery : option ExecJobDelivery;
  operation_id : rstr;
  state : ExecJobState;
  revision : N;
  outcome : option Exec.ExecutionOutcome;
  error : option ErrorResponse;
}.

Record JobRecord := { workspace : rstr; request_hash : rstr; snapshot : ExecJobSnapshot }.

Definition with_snapshot (r : JobRecord) (s : ExecJobSnapshot) : JobRecord :=
  {| workspace := workspace r; request_hash := request_hash r; snapshot := s |}.

(** The next revision of a record. *)
Definition advance (r : JobRecord) (st : ExecJobState) (revision : N) (out : option Exec.ExecutionOutcome)
    (err : option ErrorResponse) : JobRecord :=
  with_snapshot r {| delivery := delivery (snapshot r); operation_id := operation_id (snapshot r); state := st;
    revision := revision; outcome := out; error := err |}.

(** ** The store *)

(** A file of the store: its record, unless it does not decode. *)
Record FileEntry := { file_record : option JobRecord; file_size : N; modified : N }.

(** A dispatched command: the record it will complete, and its cancellation flag. *)
Record Task := { task_record : JobRecord; cancelled : bool }.

(** [dispatched] lists the commands that were ever started, oldest first. *)
Record State := {
  files : gmap rstr FileEntry;
  outputs : gmap rstr N;
  receipts : gmap rstr JobRecord;
  active : gmap rstr Task;
  dispatched : list rstr;
}.

Inductive WriteOutcome := Written | NotWritten | WrittenUnsynced.

(** How far a compaction gets: whether the receipts are committed, and how many
    removals then succeed. *)
Record CompactIo := { commits : bool; removals : nat }.

Record Env := {
  resolved : option rstr;
  is_dir : bool;
  io_text : rstr;
  writes : rstr -> WriteOutcome;
  receipts_readable : bool;
  usage_readable : nat -> bool;
  other_bytes : nat -> N;
  compactions : nat -> CompactIo;
  now : N;
  is_pending : rstr -> bool;
  removable : rstr -> bool;
}.

Record ExecApiRequest := { cwd : rstr; command : rstr; timeout_ms : option N; request_rest : rstr }.
Record ExecStartApiRequest := { start_operation_id : rstr; request : ExecApiRequest }.
Record ExecJobApiRequest := {
  job_operation_id : rstr;
  job_cwd : rstr;
  wait_ms : option N;
  after_revision : option N;
  max_output_bytes : option N;
}.

(** A handler reads and changes the state, and answers or fails. *)
Definition M (A : Type) : Type := State -> result ApiError A * State.
Definition ret {A} (a : A) : M A := fun st => (Ok a, st).
Definition fail {A} (e : ApiError) : M A := fun st => (Err e, st).
Definition bind {A B} (m : M A) (k : A -> M B) : M B :=
  fun st => match m st with (Ok a, st) => k a st | (Err e, st) => (Err e, st) end.
Definition get : M State := fun st => (Ok st, st).
Definition lift {A} (r : result ApiError A) : M A := fun st => (r, st).
Notation "x ←' m ; k" := (bind m (fun x => k)) (at level 20, m at level 100, k at level 200, right associativity).
Notation "' p ←' m ; k" := (bind m (fun x => match x with p => k end))
  (at level 20, p pattern, m at level 100, k at level 200, right associativity).

Inductive IoError := IoNotFound | IoOther.

Section Jobs.
Context (canonical_uuid : rstr -> bool) (privacy_hash : ExecApiRequest -> rstr).
Context (outcome_len : Exec.ExecutionOutcome -> N) (record_len : JobRecord -> N).

(** [ExecJobs::path]: the identifier itself names the file. *)
Definition path (id : rstr) : result ApiError rstr :=
  if canonical_uuid id then Ok id else Err (bad_request (lit "operation_id must be a canonical UUID")).

(** *** Receipts *)

Definition expired_code : rstr := lit "execution_result_expired".

(** [ReceiptStore::read]. *)
Definition receipts_read (env : Env) (st : State) (id : rstr) : result IoError (option JobRecord) :=
  if negb (receipts_readable env) then Err IoOther
  else match receipts st !! id with
       | None => Ok None
       | Some record =>
           let s := snapshot record in
           if (MAX_RECEIPT_RECORD_BYTES <? record_len record) || negb (str_eqb (operation_id s) id)
              || bool_decide (state s = Running) || bool_decide (is_Some (outcome s))
              || match error s with Some e => negb (str_eqb (er_code e) expired_code) | None => true end
           then Err IoOther else Ok (Some record)
       end.

(** One record of [ReceiptStore::store]: [INSERT OR IGNORE], then the row is
    compared with the record. *)
Definition store_receipt (rs : gmap rstr JobRecord) (record : JobRecord) : option (gmap rstr JobRecord) :=
  let id := operation_id (snapshot record) in
  if MAX_RECEIPT_RECORD_BYTES <? record_len record then None
  else
    let stored := default record (rs !! id) in
    if bool_decide (workspace stored = workspace record) && bool_decide (request_hash stored = request_hash record)
       && bool_decide (operation_id (snapshot stored) = id)
       && bool_decide (state (snapshot stored) = state (snapshot record))
       && (revision (snapshot stored) =? revision (snapshot record))
    then Some (<[id := stored]> rs) else None.

Fixpoint store_receipts (rs : gmap rstr JobRecord) (records : list JobRecord) : option (gmap rstr JobRecord) :=
  match records with
  | [] => Some rs
  | record :: records => rs ← store_receipt rs record; store_receipts rs records
  end.

(** *** Records *)

Definition read_full_record (st : State) (id : rstr) : result IoError JobRecord :=
  match files st !! id with
  | None => Err IoNotFound
  | Some f =>
      if MAX_RECORD_BYTES <? file_size f then Err IoOther
      else match file_record f with
           | Some record =>
               let found := operation_id (snapshot record) in
               if canonical_uuid found && str_eqb found id then Ok record else Err IoOther
           | None => Err IoOther
           end
  end.

Definition read_record (env : Env) (st : State) (id : rstr) : result IoError JobRecord :=
  match read_full_record st id with
  | Ok record =>
      receipt ← receipts_read env st (operation_id (snapshot record));
      match receipt with
      | Some receipt =>
          if negb (str_eqb (workspace record) (workspace receipt)) || negb (str_eqb (request_hash record) (request_hash receipt))
          then Err IoOther else Ok record
      | None => Ok record
      end
  | Err IoNotFound =>
      if negb (canonical_uuid id) then Err IoOther
      else receipt ← receipts_read env st id; ok_or receipt IoNotFound
  | Err IoOther => Err IoOther
  end.

Definition set_files (st : State) (fs : gmap rstr FileEntry) : State :=
  {| files := fs; outputs := outputs st; receipts := receipts st; active := active st; dispatched := dispatched st |}.

(** [write_record]: whether it succeeded. *)
Definition write_record (env : Env) (record : JobRecord) (st : State) : bool * State :=
  let id := operation_id (snapshot record) in
  let st' := set_files st
    (<[id := {| file_record := Some record; file_size := record_len record + 1; modified := now env |}]> (files st)) in
  if MAX_RECORD_BYTES <=? record_len record then (false, st)
  else match writes env id with
       | Written => (true, st')
       | NotWritten => (false, st)
       | WrittenUnsynced => (false, st')
       end.

(** *** Retention *)

Record Usage := { bytes : N; records : list (N * rstr) }.

Definition total (sizes : list N) : N := fold_left (sat_add u64_max) sizes 0.

(** The [n]-th look at the store of a step; the files come in some order. *)
Definition usage (env : Env) (st : State) (n : nat) : option Usage :=
  if usage_readable env n
  then Some {| bytes := total (other_bytes env n :: map (fun kv => file_size kv.2) (map_to_list (files st))
                                 ++ map snd (map_to_list (outputs st)));
               records := map (fun kv => (modified kv.2, kv.1)) (map_to_list (files st)) |}
  else None.

Definition fits (u : Usage) (reserved : N) : bool :=
  (N.of_nat (length (records u)) <? MAX_RECORDS) && (sat_add u64_max (bytes u) reserved <=? MAX_STORE_BYTES).

Definition remove_file (id : rstr) (st : State) : State := set_files st (delete id (files st)).
Definition remove_output (id : rstr) (st : State) : State :=
  {| files := files st; outputs := delete id (outputs st); receipts := receipts st; active := active st;
     dispatched := dispatched st |}.

(** The removals of a compaction, in order. *)
Definition removals_of (records : list JobRecord) : list (State -> State) :=
  concat (map (fun r => let id := operation_id (snapshot r) in [remove_file id; remove_output id]) records).

Definition set_receipts (st : State) (rs : gmap rstr JobRecord) : State :=
  {| files := files st; outputs := outputs st; receipts := rs; active := active st; dispatched := dispatched st |}.

Definition compact (io : CompactIo) (records : list JobRecord) (st : State) : bool * State :=
  match (if commits io then store_receipts (receipts st) records else None) with
  | None => (false, st)
  | Some rs =>
      let ops := removals_of records in
      ((length ops <=? removals io)%nat, fold_left (fun st op => op st) (take (removals io) ops) (set_receipts st rs))
  end.

Definition receipt_storage_error (env : Env) : ApiError :=
  service (lit "execution_receipt_storage") (lit "execution receipts could not be retained safely: " ++ io_text env) false.

Definition compact_batch (env : Env) (n : nat) (records : list JobRecord) : M unit := fun st =>
  let '(ok, st) := compact (compactions env n) records st in
  (if ok then Ok tt else Err (receipt_storage_error env), st).

Definition get_usage (env : Env) (n : nat) : M Usage := fun st =>
  (ok_or (usage env st n) (internal (io_text env)), st).

Definition expire (r : JobRecord) : JobRecord :=
  with_snapshot r {| delivery := None; operation_id := operation_id (snapshot r); state := state (snapshot r);
    revision := sat_add u64_max (revision (snapshot r)) 1; outcome := None;
    error := Some (payload (service expired_code
      (lit "old execution result was reclaimed; this operation ID remains bound and will not execute again") false)) |}.

(** Whether the result still awaits an approval. *)
Definition awaits_approval (env : Env) (r : JobRecord) : bool :=
  match outcome (snapshot r) with
  | Some (Exec.NotStartedOutcome (Exec.ApprovalRequired (Some id) _ _ _)) => is_pending env id
  | _ => false
  end.

(** The loop over the oldest records: [n] batches are compacted so far. *)
Fixpoint reclaim (env : Env) (byte_pressure : bool) (reserved oldest : N) (todo : list (N * rstr))
    (batch : list JobRecord) (n : nat) : M (list JobRecord * nat) :=
  match todo with
  | [] => ret (batch, n)
  | (modified, id) :: todo =>
      if oldest <? modified then ret (batch, n)
      else
        st ←' get;
        match read_full_record st id with
        | Err _ => fail (internal (io_text env))
        | Ok record =>
            if bool_decide (state (snapshot record) = Running) || awaits_approval env record
            then reclaim env byte_pressure reserved oldest todo batch n
            else
              let batch := batch ++ [expire record] in
              if (length batch =? COMPACTION_BATCH)%nat then
                _ ←' compact_batch env n batch;
                if byte_pressure then
                  u ←' get_usage env (S n);
                  if fits u reserved then ret ([], S n)
                  else reclaim env byte_pressure reserved oldest todo [] (S n)
                else reclaim env byte_pressure reserved oldest todo [] (S n)
              else reclaim env byte_pressure reserved oldest todo batch n
        end
  end.

(** The paths of the records differ in their last component. *)
Definition oldest_first : N * rstr -> N * rstr -> comparison :=
  then_with (by_key fst N.compare) (by_key (fun r => snd r ++ lit ".json") str_cmp).

Definition reserve_record_capacity (env : Env) (active_count : N) : M unit :=
  let reserved := N.min ((active_count + 1) * (MAX_RECORD_BYTES + MAX_JOB_OUTPUT_BYTES)) u64_max in
  u ←' get_usage env 0;
  if fits u reserved then ret tt
  else
    let sorted := sort_by oldest_first (records u) in
    let byte_pressure := MAX_STORE_BYTES <? sat_add u64_max (bytes u) reserved in
    let count := N.of_nat (length sorted) in
    let retain := if byte_pressure then count else sat_sub count KEEP_RECENT_RECORDS in
    let oldest := sat_sub (now env) RESULT_GRACE in
    '(batch, n) ←' reclaim env byte_pressure reserved oldest (take (N.to_nat retain) sorted) [] 0;
    _ ←' (if is_nil batch then ret tt else compact_batch env n batch);
    u ←' get_usage env (S (S n));
    if fits u reserved then ret tt
    else fail (service (lit "execution_store_capacity")
      (lit "execution storage is reserved by active or recent results; retry after the one-hour result grace period; replay receipts are never discarded")
      true).

(** *** Snapshots *)

Definition completion_unknown : ApiError :=
  service (lit "execution_completion_unknown")
    (lit "execution stopped without a durable completion; inspect side effects before any new operation") false.

(** A failed write is logged only. *)
Definition inactive_snapshot (env : Env) (record : JobRecord) (is_active : bool) (st : State) : ExecJobSnapshot * State :=
  if bool_decide (state (snapshot record) = Running) && negb is_active then
    let record := advance record Interrupted (revision (snapshot record) + 1) (outcome (snapshot record))
                    (Some (payload completion_unknown)) in
    let '(_, st) := write_record env record st in
    (snapshot record, st)
  else (snapshot record, st).

Definition deliver (s : ExecJobSnapshot) (after : option N) (max_output : option N) : result ApiError ExecJobSnapshot :=
  let limit := default DEFAULT_OUTPUT_BYTES max_output in
  _ ← guard_err ((limit <? 1024) || (MAX_RECORD_BYTES <? limit))
        (bad_request (lit "max_output_bytes must be between 1024 and 8388608"));
  _ ← guard_err (match after with Some r => revision s <? r | None => false end)
        (bad_request (lit "after_revision exceeds the current revision"));
  let required := match outcome s with Some o => outcome_len o | None => 0 end in
  let unchanged := bool_decide (after = Some (revision s)) in
  let omitted := bool_decide (is_Some (outcome s)) && (unchanged || (limit <? required)) in
  Ok {| delivery := Some {| unchanged := unchanged; output_omitted := omitted; required_bytes := required |};
        operation_id := operation_id s; state := state s; revision := revision s;
        outcome := if omitted then None else outcome s; error := error s |}.

Definition invalid_workspace (env : Env) : ApiError := bad_request (lit "invalid workspace: " ++ io_text env).

Definition unknown_execution : ApiError := not_found (lit "execution_not_found") (lit "execution operation is unknown").

(** *** Handlers *)

Definition record_of_start (ws hash id : rstr) : JobRecord :=
  {| workspace := ws; request_hash := hash;
     snapshot := {| delivery := None; operation_id := id; state := Running; revision := 1; outcome := None; error := None |} |}.

(** The end of [start]: the record is durable before the command is spawned. *)
Definition dispatch (env : Env) (record : JobRecord) : M ExecJobSnapshot := fun st =>
  let id := operation_id (snapshot record) in
  match write_record env record st with
  | (false, st) => (Err (internal (lit "persist execution before dispatch: " ++ io_text env)), st)
  | (true, st) =>
      (Ok (snapshot record),
       {| files := files st; outputs := outputs st; receipts := receipts st;
          active := <[id := {| task_record := record; cancelled := false |}]> (active st);
          dispatched := dispatched st ++ [id] |})
  end.

Definition start (env : Env) (req : ExecStartApiRequest) : M ExecJobSnapshot :=
  let id := start_operation_id req in
  _ ←' lift (path id);
  ws ←' lift (ok_or (resolved env) (invalid_workspace env));
  _ ←' lift (guard_err (negb (is_dir env) || is_empty (trim (command (request req))))
              (bad_request (lit "execution requires a workspace directory and command")));
  let timeout := default DEFAULT_JOB_MS (timeout_ms (request req)) in
  _ ←' lift (guard_err ((timeout =? 0) || (MAX_JOB_MS <? timeout))
              (bad_request (lit "execution timeout must be between 1 and 1800000 milliseconds")));
  let hash := privacy_hash (request req) in
  st ←' get;
  match read_record env st id with
  | Ok record =>
      if negb (str_eqb (workspace record) ws)
         || (negb (is_empty (request_hash record)) && negb (str_eqb (request_hash record) hash))
      then fail (bad_request (lit "operation_id is already bound to a different request"))
      else
        s ←' (fun st => let '(s, st) := inactive_snapshot env record (bool_decide (is_Some (active st !! id))) st in (Ok s, st));
        lift (deliver s None None)
  | Err IoOther => fail (internal (lit "read execution record: " ++ io_text env))
  | Err IoNotFound =>
      _ ←' lift (guard_err (MAX_ACTIVE_JOBS <=? N.of_nat (size (active st)))
                  (service (lit "execution_capacity") (lit "32 execution jobs are already active") true));
      _ ←' reserve_record_capacity env (N.of_nat (size (active st)));
      dispatch env (record_of_start ws hash id)
  end.

(** The end of the task of a command. *)
Definition complete (env : Env) (id : rstr) (result : result ApiError Exec.ExecutionOutcome) (st : State) : State :=
  match active st !! id with
  | None => st
  | Some task =>
      let r := task_record task in
      let next := revision (snapshot r) + 1 in
      let record :=
        match result with
        | Ok o => advance r (if cancelled task then Cancelled else Completed) next (Some o) (error (snapshot r))
        | Err e => advance r Failed next (outcome (snapshot r)) (Some (payload e))
        end in
      let '(_, st) := write_record env record st in
      {| files := files st; outputs := outputs st; receipts := receipts st; active := delete id (active st);
         dispatched := dispatched st |}
  end.

Definition scoped_record (env : Env) (req : ExecJobApiRequest) : M JobRecord :=
  ws ←' lift (ok_or (resolved env) (invalid_workspace env));
  id ←' lift (path (job_operation_id req));
  st ←' get;
  match read_record env st id with
  | Err IoNotFound => fail unknown_execution
  | Err IoOther => fail (internal (lit "read execution record: " ++ io_text env))
  | Ok record => if str_eqb (workspace record) ws then ret record else fail unknown_execution
  end.

(** One turn of [wait]: [None] goes on waiting. *)
Definition wait (env : Env) (req : ExecJobApiRequest) (deadline : bool) : M (option ExecJobSnapshot) :=
  _ ←' lift (guard_err (10000 <? default 0 (wait_ms req)) (bad_request (lit "wait_ms must not exceed 10000")));
  record ←' scoped_record env req;
  s ←' (fun st =>
    let '(s, st) := inactive_snapshot env record (bool_decide (is_Some (active st !! job_operation_id req))) st in (Ok s, st));
  if negb (bool_decide (state s = Running)) || deadline
  then d ←' lift (deliver s (after_revision req) (max_output_bytes req)); ret (Some d)
  else ret None.

Definition set_active (st : State) (a : gmap rstr Task) : State :=
  {| files := files st; outputs := outputs st; receipts := receipts st; active := a; dispatched := dispatched st |}.

Definition cancel_task (t : Task) : Task := {| task_record := task_record t; cancelled := true |}.

Definition cancelled_before_dispatch : ApiError :=
  service (lit "execution_cancelled_before_dispatch")
    (lit "operation was cancelled before dispatch; no command was started") false.

(** Up to the [wait] it ends with. *)
Definition cancel (env : Env) (req : ExecJobApiRequest) : M unit :=
  let id := job_operation_id req in
  _ ←' lift (path id);
  ws ←' lift (ok_or (resolved env) (invalid_workspace env));
  _ ←' lift (guard_err (negb (is_dir env)) (bad_request (lit "workspace must be a directory")));
  st ←' get;
  match read_record env st id with
  | Ok record =>
      if negb (str_eqb (workspace record) ws) then fail unknown_execution
      else fun st => (Ok tt, set_active st (alter cancel_task id (active st)))
  | Err IoNotFound =>
      _ ←' reserve_record_capacity env (N.of_nat (size (active st)));
      let record :=
        {| workspace := ws; request_hash := [];
           snapshot := {| delivery := None; operation_id := id; state := Cancelled; revision := 1; outcome := None;
                          error := Some (payload cancelled_before_dispatch) |} |} in
      fun st => let '(ok, st) := write_record env record st in (if ok then Ok tt else Err (internal (io_text env)), st)
  | Err IoOther => fail (internal (io_text env))
  end.

Definition shutdown (st : State) : State := set_active st (cancel_task <$> active st).

(** [ExecJobs::new] over the store that a daemon left: [ids] lists its records
    as the directory does.  An error stops it. *)
Fixpoint interrupt_running (env : Env) (ids : list rstr) (st : State) : bool * State :=
  match ids with
  | [] => (true, st)
  | id :: ids =>
      match read_full_record st id with
      | Err _ => (false, st)
      | Ok record =>
          if bool_decide (state (snapshot record) = Running) then
            match write_record env
                    (advance record Interrupted (revision (snapshot record) + 1) (outcome (snapshot record)) (error (snapshot record)))
                    st with
            | (true, st) => interrupt_running env ids st
            | (false, st) => (false, st)
            end
          else interrupt_running env ids st
      end
  end.

(** Outputs whose record is gone go when the receipt is there: [outs] lists the
    output directories. *)
Fixpoint recover_compaction (env : Env) (outs : list rstr) (st : State) : bool * State :=
  match outs with
  | [] => (true, st)
  | id :: outs =>
      if negb (canonical_uuid id) then (false, st)
      else match files st !! id with
           | Some _ => recover_compaction env outs st
           | None =>
               match receipts_read env st id with
               | Err _ => (false, st)
               | Ok None => recover_compaction env outs st
               | Ok (Some _) => if removable env id then recover_compaction env outs (remove_output id st) else (false, st)
               end
           end
  end.

(** The tasks of the daemon before are gone. *)
Definition new (env : Env) (ids outs : list rstr) (st : State) : bool * State :=
  match interrupt_running env ids (set_active st ∅) with
  | (true, st) => recover_compaction env outs st
  | (false, st) => (false, st)
  end.

(** *** Steps *)

(** A failed restart leaves a daemon that answers nothing; letting it answer
    only adds behaviours. *)
Inductive Event :=
| EStart (env : Env) (req : ExecStartApiRequest)
| EComplete (env : Env) (id : rstr) (result : result ApiError Exec.ExecutionOutcome)
| EWait (env : Env) (req : ExecJobApiRequest) (deadline : bool)
| ECancel (env : Env) (req : ExecJobApiRequest)
| EShutdown
| ERestart (env : Env) (ids outs : list rstr)
| EOutput (id : rstr) (bytes : N).

Definition set_outputs (st : State) (o : gmap rstr N) : State :=
  {| files := files st; outputs := o; receipts := receipts st; active := active st; dispatched := dispatched st |}.

Definition step (st : State) (e : Event) : State :=
  match e with
  | EStart env req => (start env req st).2
  | EComplete env id result => complete env id result st
  | EWait env req deadline => (wait env req deadline st).2
  | ECancel env req => (cancel env req st).2
  | EShutdown => shutdown st
  | ERestart env ids outs => (new env ids outs st).2
  | EOutput id bytes => set_outputs st (<[id := bytes]> (outputs st))
  end.

(** A store found on disk, whatever its files hold, before any command. *)
Definition initial (st : State) : Prop := active st = ∅ /\ dispatched st = [].

Definition after (st : State) (events : list Event) : State := fold_left step events st.

(** ** The protocol

    What the store promises about an identifier: once bound, it stays bound; only
    an unbound one is started, and bound by that; a bound job runs, ends, and
    then only its revision moves. *)

Record View := { v_workspace : rstr; v_hash : rstr; v_state : ExecJobState; v_revision : N }.

Definition view (r : JobRecord) : View :=
  {| v_workspace := workspace r; v_hash := request_hash r; v_state := state (snapshot r);
     v_revision := revision (snapshot r) |}.

(** A binding that cannot be read is [None]. *)
Record Spec := { bound : gmap rstr (option View); running : gset rstr; started : list rstr }.

Inductive spec_step : Spec -> Spec -> Prop :=
| spec_bind s id v :
    bound s !! id = None ->
    spec_step s {| bound := <[id := Some v]> (bound s); running := running s; started := started s |}
| spec_start s id v :
    bound s !! id = None -> v_state v = Running ->
    spec_step s {| bound := <[id := Some v]> (bound s); running := {[id]} ∪ running s; started := started s ++ [id] |}
| spec_finish s id v v' :
    id ∈ running s -> bound s !! id = Some (Some v) -> v_workspace v' = v_workspace v -> v_hash v' = v_hash v ->
    v_state v' <> Running -> v_revision v' = v_revision v + 1 ->
    spec_step s {| bound := <[id := Some v']> (bound s); running := running s ∖ {[id]}; started := started s |}
| spec_lose s ids :
    spec_step s {| bound := bound s; running := running s ∖ ids; started := started s |}
| spec_interrupt s id v v' :
    id ∉ running s -> bound s !! id = Some (Some v) -> v_state v = Running ->
    v' = {| v_workspace := v_workspace v; v_hash := v_hash v; v_state := Interrupted; v_revision := v_revision v + 1 |} ->
    spec_step s {| bound := <[id := Some v']> (bound s); running := running s; started := started s |}
| spec_expire s id v v' :
    bound s !! id = Some (Some v) -> v_state v <> Running -> v_workspace v' = v_workspace v -> v_hash v' = v_hash v ->
    v_state v' = v_state v -> N.min (v_revision v) u64_max <= v_revision v' ->
    spec_step s {| bound := <[id := Some v']> (bound s); running := running s; started := started s |}.

(** What holds along the protocol. *)
Definition spec_ok (s : Spec) : Prop :=
  NoDup (started s) /\ (forall id, id ∈ started s -> is_Some (bound s !! id)) /\
  (forall id, id ∈ running s -> exists v, bound s !! id = Some (Some v) /\ v_state v = Running).

Lemma spec_bound_kept s s' id : spec_step s s' -> is_Some (bound s !! id) -> is_Some (bound s' !! id).
Proof. intros H Hb. destruct H; cbn [bound]; try done; rewrite lookup_insert_is_Some'; by right. Qed.

Lemma spec_step_ok s s' : spec_step s s' -> spec_ok s -> spec_ok s'.
Proof.
  intros Hs (Hn & Hb & Hr).
  assert (forall id, id ∈ started s -> is_Some (bound s' !! id)) as Hb' by (intros id ?; eapply spec_bound_kept; eauto).
  destruct Hs as [s id v Hid|s id v Hid Hv|s id v v' Hid Hv _ _ _ _|s ids|s id v v' Hid Hv Hst _|s id v v' Hv Hst _ _ Hst' _];
    cbn [bound started running] in *; (split; [|split]); cbn [bound started running]; try done.
  - intros id' Hr'. destruct (Hr id' Hr') as (w & Hw & ?). exists w. rewrite lookup_insert_ne by congruence. done.
  - apply NoDup_app. split_and!; [done | | apply NoDup_singleton]. intros x Hx ->%list_elem_of_singleton.
    destruct (Hb id Hx) as [? ?]. congruence.
  - intros id' [Hx| ->%list_elem_of_singleton]%elem_of_app; [by apply Hb'|]. rewrite lookup_insert_eq. eauto.
  - intros id' [->%elem_of_singleton|Hr']%elem_of_union; [exists v; by rewrite lookup_insert_eq|].
    destruct (Hr id' Hr') as (w & Hw & ?). exists w. rewrite lookup_insert_ne by congruence. done.
  - intros id' [Hr' Hne%not_elem_of_singleton]%elem_of_difference. destruct (Hr id' Hr') as (w & Hw & ?).
    exists w. by rewrite lookup_insert_ne by congruence.
  - intros id' [Hr' _]%elem_of_difference. by apply Hr.
  - intros id' Hr'. destruct (Hr id' Hr') as (w & Hw & ?). exists w. rewrite lookup_insert_ne by congruence. done.
  - intros id' Hr'. destruct (Hr id' Hr') as (w & Hw & Hst2). destruct (decide (id = id')) as [<-|Hne].
    + congruence.
    + exists w. by rewrite lookup_insert_ne.
Qed.

(** A bound identifier that was never started never is. *)
Lemma spec_not_started s s' id : spec_step s s' -> is_Some (bound s !! id) -> id ∉ started s -> id ∉ started s'.
Proof.
  intros H [v Hv] Hn. destruct H; cbn [started bound] in *; try done.
  intros [?| ->%list_elem_of_singleton]%elem_of_app; [done|congruence].
Qed.

(** An ended job stays as it ended. *)
Definition settled (s : Spec) (id : rstr) (v : View) : Prop :=
  exists v', bound s !! id = Some (Some v') /\ v_workspace v' = v_workspace v /\ v_hash v' = v_hash v /\
    v_state v' = v_state v /\ N.min (v_revision v) u64_max <= v_revision v'.

Lemma spec_settled s s' id v : spec_step s s' -> spec_ok s -> v_state v <> Running -> settled s id v -> settled s' id v.
Proof.
  intros Hs (_ & _ & Hr) Hv (v0 & H0 & H1 & H2 & H3 & H4).
  destruct Hs as [s j w Hid|s j w Hid Hw|s j w w' Hid Hw _ _ _ _|s ids|s j w w' Hid Hw Hst _|s j w w' Hw Hst Hws Hwh Hst' Hrev];
    unfold settled; cbn [bound] in *.
  1,2: exists v0; rewrite lookup_insert_ne by congruence; done.
  - exists v0. destruct (Hr j Hid) as (x & Hx & Hxs). rewrite lookup_insert_ne; [done|]. intros ->.
    rewrite H0 in Hx. injection Hx as <-. congruence.
  - by exists v0.
  - exists v0. rewrite lookup_insert_ne; [done|]. intros ->. rewrite H0 in Hw. injection Hw as <-. congruence.
  - destruct (decide (j = id)) as [->|Hne]; [|exists v0; by rewrite lookup_insert_ne].
    rewrite H0 in Hw. injection Hw as <-. exists w'. rewrite lookup_insert_eq. split_and!; [done | congruence.. | lia].
Qed.

(** ** The handlers follow the protocol *)

Definition bind_view (f : option FileEntry) (r : option JobRecord) : option (option View) :=
  match f with
  | Some f => Some (view <$> file_record f)
  | None => match r with Some r => Some (Some (view r)) | None => None end
  end.

(** A record in the store shadows its receipt. *)
Definition abs (st : State) : Spec :=
  {| bound := merge bind_view (files st) (receipts st); running := dom (active st); started := dispatched st |}.

Lemma abs_lookup st id : bound (abs st) !! id = bind_view (files st !! id) (receipts st !! id).
Proof. cbn. rewrite lookup_merge. by destruct (files st !! id), (receipts st !! id). Qed.

(** The record of every task is the one in the store, and it says running. *)
Definition coupled (st : State) : Prop :=
  forall id t, active st !! id = Some t ->
    operation_id (snapshot (task_record t)) = id /\ state (snapshot (task_record t)) = Running /\
    exists f, files st !! id = Some f /\ file_record f = Some (task_record t).

(** What a step does, seen from the protocol. *)
Definition follows (st st' : State) : Prop := rtc spec_step (abs st) (abs st') /\ (coupled st -> coupled st').

Lemma follows_refl st : follows st st.
Proof. by split; [constructor|]. Qed.

Lemma follows_trans st1 st2 st3 : follows st1 st2 -> follows st2 st3 -> follows st1 st3.
Proof. intros [H1 C1] [H2 C2]. split; [by etransitivity | auto]. Qed.

Definition file_of (env : Env) (r : JobRecord) : FileEntry :=
  {| file_record := Some r; file_size := record_len r + 1; modified := now env |}.

Lemma abs_write st id f r : file_record f = Some r ->
  abs (set_files st (<[id := f]> (files st))) =
    {| bound := <[id := Some (view r)]> (bound (abs st)); running := running (abs st); started := started (abs st) |}.
Proof.
  intros Hf. unfold abs at 1. cbn [files receipts active dispatched set_files]. f_equal. apply map_eq. intros j.
  rewrite lookup_merge. destruct (decide (id = j)) as [->|Hne].
  - rewrite !lookup_insert_eq. cbn. rewrite Hf. by destruct (receipts st !! j).
  - rewrite !lookup_insert_ne by done. rewrite abs_lookup. by destruct (files st !! j), (receipts st !! j).
Qed.

(** The outcomes of a write: nothing, or the file of the record. *)
Lemma write_record_cases env r st :
  (write_record env r st).2 = st /\ (write_record env r st).1 = false \/
  (write_record env r st).2 = set_files st (<[operation_id (snapshot r) := file_of env r]> (files st)).
Proof. unfold write_record. destruct (_ <=? _); [by left|]. destruct (writes env _); [by right | by left | by right]. Qed.

Lemma read_full_record_Ok st id r : read_full_record st id = Ok r ->
  operation_id (snapshot r) = id /\ exists f, files st !! id = Some f /\ file_record f = Some r.
Proof.
  unfold read_full_record. destruct (files st !! id) as [f|]; [|done]. destruct (_ <? _); [done|].
  destruct (file_record f) as [r'|] eqn:Ef; [|done]. destruct (_ && _) eqn:E; [|done]. intros [= ->].
  apply andb_true_iff in E as [_ E]. unfold str_eqb in E. apply bool_decide_eq_true in E. eauto.
Qed.

Lemma receipts_read_Ok env st id o : receipts_read env st id = Ok o ->
  o = receipts st !! id /\ forall r, o = Some r -> operation_id (snapshot r) = id /\ state (snapshot r) <> Running.
Proof.
  unfold receipts_read. destruct (negb _); [done|]. destruct (receipts st !! id) as [r|]; [|by intros [= <-]].
  destruct (_ || _) eqn:E; [done|]. intros [= <-]. split; [done|]. intros r' [= <-].
  apply orb_false_iff in E as [E _]. apply orb_false_iff in E as [E _]. apply orb_false_iff in E as [E Hs].
  apply orb_false_iff in E as [_ Hid]. unfold str_eqb in Hid. by bool_prop.
Qed.

(** What reading a record says about its binding. *)
Lemma read_record_Ok env st id r : read_record env st id = Ok r ->
  operation_id (snapshot r) = id /\ bound (abs st) !! id = Some (Some (view r)) /\
  (state (snapshot r) = Running -> exists f, files st !! id = Some f /\ file_record f = Some r).
Proof.
  unfold read_record. rewrite abs_lookup. destruct (read_full_record st id) as [r'|[|] ] eqn:E; [| |done].
  - apply read_full_record_Ok in E as (Hid & f & Hf & Hr). intros H. inv_ok.
    assert (r' = r) as ->.
    { destruct x as [receipt|]; [|by inv_ok]. destruct (_ || _); [done|]. by inv_ok. }
    rewrite Hf. cbn. rewrite Hr. split_and!; [done | done | eauto].
  - assert (files st !! id = None) as Hf.
    { unfold read_full_record in E. destruct (files st !! id) as [f|]; [|done]. destruct (_ <? _); [done|].
      destruct (file_record f); [|done]. by destruct (_ && _). }
    destruct (negb _); [done|]. intros H. inv_ok. apply receipts_read_Ok in H as [-> Hx].
    destruct (Hx r H0) as [Hid Hs]. rewrite Hf, H0. split_and!; [done | done | done].
Qed.

Lemma read_record_unbound env st id : read_record env st id = Err IoNotFound -> bound (abs st) !! id = None.
Proof.
  unfold read_record. rewrite abs_lookup. destruct (read_full_record st id) as [r'|[|] ] eqn:E; [| |done].
  - intros H. apply bind_Err in H as [H|(x & _ & H)].
    + unfold receipts_read in H. destruct (negb _); [done|]. destruct (receipts st !! _); [|done]. by destruct (_ || _).
    + destruct x; [|done]. by destruct (_ || _).
  - assert (files st !! id = None) as ->.
    { unfold read_full_record in E. destruct (files st !! id) as [f|]; [|done]. destruct (_ <? _); [done|].
      destruct (file_record f); [|done]. by destruct (_ && _). }
    destruct (negb _); [done|]. intros H. apply bind_Err in H as [H|(x & H & Hx)].
    + unfold receipts_read in H. destruct (negb _); [done|]. destruct (receipts st !! _); [|done]. by destruct (_ || _).
    + apply receipts_read_Ok in H as [-> _]. destruct (receipts st !! id); [done|]. done.
Qed.

(** *** Writes *)

Lemma coupled_write st id f : coupled st -> active st !! id = None -> coupled (set_files st (<[id := f]> (files st))).
Proof.
  intros Hc Hn j t Hj. destruct (Hc j t Hj) as (H1 & H2 & g & Hg & Hr). split_and!; [done | done |].
  exists g. cbn [files set_files]. rewrite lookup_insert_ne; [done|]. intros ->.
  change (active st !! j = Some t) in Hj. congruence.
Qed.

Lemma interrupt_follows env st id r err :
  active st !! id = None -> operation_id (snapshot r) = id -> state (snapshot r) = Running ->
  bound (abs st) !! id = Some (Some (view r)) ->
  follows st (write_record env (advance r Interrupted (revision (snapshot r) + 1) (outcome (snapshot r)) err) st).2.
Proof.
  intros Ha Hid Hst Hb. set (r1 := advance r Interrupted _ _ err).
  destruct (write_record_cases env r1 st) as [ [-> _]| ->]; [apply follows_refl|].
  change (operation_id (snapshot r1)) with (operation_id (snapshot r)). rewrite Hid.
  split; [|intros Hc; by apply coupled_write]. rewrite (abs_write st id (file_of env r1) r1 eq_refl).
  apply rtc_once. eapply spec_interrupt; [| exact Hb | exact Hst | done]. cbn. by apply not_elem_of_dom.
Qed.

Lemma inactive_snapshot_follows env st id r :
  operation_id (snapshot r) = id -> bound (abs st) !! id = Some (Some (view r)) ->
  follows st (inactive_snapshot env r (bool_decide (is_Some (active st !! id))) st).2.
Proof.
  intros Hid Hb. unfold inactive_snapshot. destruct (_ && _) eqn:E; [|apply follows_refl].
  apply andb_true_iff in E as [Hs Ha]. apply bool_decide_eq_true in Hs. apply negb_true_iff, bool_decide_eq_false in Ha.
  apply eq_None_not_Some in Ha.
  pose proof (interrupt_follows env st id r (Some (payload completion_unknown)) Ha Hid Hs Hb) as H.
  by destruct (write_record _ _ _).
Qed.

(** *** Compaction *)

(** A record to be reclaimed: what is in the store, expired. *)
Definition reclaimable (st : State) (r : JobRecord) : Prop :=
  exists f old, files st !! operation_id (snapshot r) = Some f /\ file_record f = Some old /\
    r = expire old /\ state (snapshot old) <> Running.

Definition same_job (a b : JobRecord) : Prop :=
  workspace a = workspace b /\ request_hash a = request_hash b /\ state (snapshot a) = state (snapshot b) /\
  revision (snapshot a) = revision (snapshot b).

Lemma store_receipt_Some rs r rs' : store_receipt rs r = Some rs' ->
  rs ⊆ rs' /\ (exists s, rs' !! operation_id (snapshot r) = Some s /\ same_job s r) /\
  forall id, id <> operation_id (snapshot r) -> rs' !! id = rs !! id.
Proof.
  unfold store_receipt. destruct (_ <? _); [done|]. set (id := operation_id (snapshot r)).
  destruct (_ && _) eqn:E; [|done]. intros [= <-]. bool_prop. split_and!.
  - destruct (rs !! id) as [s|] eqn:Es; simpl; [|by apply insert_subseteq]. by rewrite insert_id.
  - eexists. rewrite lookup_insert_eq. split; [done|]. by split_and!.
  - intros j Hj. by rewrite lookup_insert_ne.
Qed.

Lemma store_receipts_Some records : forall rs rs', store_receipts rs records = Some rs' ->
  rs ⊆ rs' /\ Forall (fun r => exists s, rs' !! operation_id (snapshot r) = Some s /\ same_job s r) records /\
  forall id, id ∉ map (fun r => operation_id (snapshot r)) records -> rs' !! id = rs !! id.
Proof.
  induction records as [|r records IH]; intros rs rs'; cbn [store_receipts].
  - intros [= <-]. by split_and!; [|constructor|].
  - destruct (store_receipt rs r) as [rs1|] eqn:E; [|done]. cbn [mbind option_bind]. intros H.
    destruct (store_receipt_Some _ _ _ E) as (Hsub & (s & Hs & Hsame) & Hother). destruct (IH _ _ H) as (Hsub' & Hall & Hrest).
    split_and!; [by etransitivity | | ].
    + constructor; [|done]. exists s. split; [|done]. by eapply lookup_weaken.
    + intros id Hid. apply not_elem_of_cons in Hid as [H1 H2]. rewrite Hrest by done. by apply Hother.
Qed.

(** After the commit: each record of the batch has its receipt, and its file is
    as it was or gone. *)
Definition committed (st : State) (r : JobRecord) : Prop :=
  (exists s, receipts st !! operation_id (snapshot r) = Some s /\ same_job s r) /\
  (files st !! operation_id (snapshot r) = None \/ reclaimable st r).

Lemma remove_file_follows st r : coupled st -> committed st r -> follows st (remove_file (operation_id (snapshot r)) st).
Proof.
  intros Hc [(s & Hs & Hw & Hh & Hst & Hrev) Hf]. remember (operation_id (snapshot r)) as id eqn:Hid.
  destruct Hf as [Hf|(f & old & Hf & Hold & Hr & Hterm)]; [|rewrite <- Hid in Hf; subst r].
  { unfold remove_file, set_files. rewrite delete_id by done. by destruct st; apply follows_refl. }
  assert (abs (remove_file id st) = {| bound := <[id := Some (view s)]> (bound (abs st)); running := running (abs st);
    started := started (abs st) |}) as E.
  { unfold abs at 1. cbn [files receipts active dispatched set_files remove_file]. f_equal. apply map_eq. intros j.
    rewrite lookup_merge. destruct (decide (id = j)) as [<-|Hne].
    - rewrite lookup_insert_eq, lookup_delete_eq, Hs. done.
    - rewrite lookup_insert_ne, lookup_delete_ne, abs_lookup by done. by destruct (files st !! j), (receipts st !! j). }
  split.
  - rewrite E. apply rtc_once. apply (spec_expire _ id (view old)).
    + rewrite abs_lookup, Hf. cbn. by rewrite Hold.
    + exact Hterm.
    + exact Hw.
    + exact Hh.
    + exact Hst.
    + cbn. rewrite Hrev. cbn. unfold sat_add. lia.
  - intros _ j t Hj. destruct (Hc j t Hj) as (H1 & H2 & g & Hg & Hgr). split_and!; [done | done |].
    exists g. cbn [files set_files remove_file]. rewrite lookup_delete_ne; [done|]. intros ->.
    rewrite Hf in Hg. injection Hg as <-. rewrite Hold in Hgr. injection Hgr as ->. congruence.
Qed.

(** A step that starts nothing and binds nothing. *)
Definition quiet (st st' : State) : Prop :=
  (coupled st -> follows st st') /\ active st' = active st /\ dispatched st' = dispatched st /\
  forall id, bound (abs st) !! id = None -> bound (abs st') !! id = None.

Lemma quiet_refl st : quiet st st.
Proof. split_and!; [by intros; apply follows_refl | done..]. Qed.

Lemma quiet_trans st1 st2 st3 : quiet st1 st2 -> quiet st2 st3 -> quiet st1 st3.
Proof.
  intros (F1 & A1 & D1 & B1) (F2 & A2 & D2 & B2). split_and!; [|congruence | congruence | auto].
  intros Hc. eapply follows_trans; [by apply F1|]. apply F2. by apply F1.
Qed.

Inductive removal (records : list JobRecord) : (State -> State) -> Prop :=
| removal_file r : r ∈ records -> removal records (remove_file (operation_id (snapshot r)))
| removal_output id : removal records (remove_output id).

Lemma removals_of_removal records : Forall (removal records) (removals_of records).
Proof.
  unfold removals_of. apply Forall_concat, Forall_map, Forall_forall. intros r Hr.
  apply Forall_cons. split; [by apply removal_file|]. apply Forall_singleton. apply removal_output.
Qed.

Lemma remove_output_abs id st : abs (remove_output id st) = abs st.
Proof. done. Qed.

Lemma committed_removed st r op records : removal records op -> committed st r -> committed (op st) r.
Proof.
  intros [x _|id]; [|done]. intros [Hs Hf]. split; [exact Hs|]. cbn [files remove_file set_files].
  destruct (decide (operation_id (snapshot x) = operation_id (snapshot r))) as [E|E].
  - left. by rewrite E, lookup_delete_eq.
  - rewrite lookup_delete_ne by done. destruct Hf as [Hf|(f & old & Hf & Hr)]; [by left|right].
    exists f, old. split; [|exact Hr]. cbn [files remove_file set_files]. by rewrite lookup_delete_ne.
Qed.

Lemma removal_quiet records op st : removal records op -> Forall (committed st) records -> quiet st (op st).
Proof.
  intros [r Hr|id] Hall; [|split_and!; [by intros; split; [constructor|] | done..] ].
  rewrite Forall_forall in Hall. specialize (Hall r Hr). split_and!; [|done|done|].
  - intros Hc. by apply remove_file_follows.
  - intros j. rewrite !abs_lookup. cbn [files receipts remove_file set_files].
    destruct (decide (operation_id (snapshot r) = j)) as [<-|Hne]; [|by rewrite lookup_delete_ne].
    destruct Hall as [ (s & Hs & _) _]. rewrite Hs. by destruct (files st !! _).
Qed.

Lemma removals_quiet records ops : Forall (removal records) ops -> forall st,
  Forall (committed st) records -> quiet st (fold_left (fun st op => op st) ops st).
Proof.
  induction 1 as [|op ops Hop _ IH]; intros st Hall; [apply quiet_refl|]. cbn [fold_left].
  eapply quiet_trans; [by eapply removal_quiet|]. apply IH. eapply Forall_impl; [exact Hall|].
  intros r Hr. by eapply committed_removed.
Qed.

Lemma set_receipts_abs st rs : receipts st ⊆ rs ->
  (forall id, rs !! id = receipts st !! id \/ is_Some (files st !! id)) -> abs (set_receipts st rs) = abs st.
Proof.
  intros Hsub Hfiles. unfold abs. cbn [files receipts set_receipts active dispatched]. f_equal. apply map_eq. intros id.
  rewrite !lookup_merge. destruct (files st !! id) as [f|] eqn:Ef; [by destruct (rs !! id), (receipts st !! id)|].
  destruct (Hfiles id) as [->|[? ?] ]; [done | congruence].
Qed.

Lemma compact_quiet io records st : Forall (reclaimable st) records -> quiet st (compact io records st).2.
Proof.
  intros Hall. unfold compact. destruct (if commits io then _ else _) as [rs|] eqn:E; [|apply quiet_refl].
  destruct (commits io); [|done]. destruct (store_receipts_Some _ _ _ E) as (Hsub & Hstored & Hother). cbn [snd].
  assert (abs (set_receipts st rs) = abs st) as Habs.
  { apply set_receipts_abs; [done|]. intros id. destruct (decide (id ∈ map (fun r => operation_id (snapshot r)) records)) as [Hin|Hin].
    - right. apply list_elem_of_fmap in Hin as (r & -> & Hr). rewrite Forall_forall in Hall. destruct (Hall r Hr) as (f & _ & Hf & _). eauto.
    - left. by apply Hother. }
  eapply quiet_trans; [|eapply removals_quiet].
  - split_and!; [|done|done|by rewrite Habs]. intros Hc. split; [by rewrite Habs; constructor|].
    intros _ id t Ht. destruct (Hc id t Ht) as (H1 & H2 & H3). by split_and!.
  - apply Forall_take, removals_of_removal.
  - rewrite Forall_forall in *. intros r Hr. split; [by apply Hstored|]. right. by apply Hall.
Qed.

(** *** Reserving capacity *)

(** What a handler's computation may do. *)
Definition stays_quiet {A} (m : M A) : Prop := forall st, quiet st (m st).2.

Lemma stays_bind {A B} (m : M A) (k : A -> M B) : stays_quiet m -> (forall a, stays_quiet (k a)) -> stays_quiet (bind m k).
Proof.
  intros Hm Hk st. unfold bind. specialize (Hm st). destruct (m st) as [ [a|e] st'] eqn:E; cbn [snd] in *; [|done].
  by eapply quiet_trans; [|apply Hk].
Qed.

Lemma stays_ret {A} (a : A) : stays_quiet (ret a).
Proof. intros st. apply quiet_refl. Qed.

Lemma stays_fail {A} e : stays_quiet (@fail A e).
Proof. intros st. apply quiet_refl. Qed.

Lemma stays_usage env n : stays_quiet (get_usage env n).
Proof. intros st. apply quiet_refl. Qed.

Lemma reclaimable_expire st id r : read_full_record st id = Ok r -> state (snapshot r) <> Running -> reclaimable st (expire r).
Proof.
  intros H Hs. apply read_full_record_Ok in H as (Hid & f & Hf & Hr). exists f, r. cbn. by rewrite Hid.
Qed.

Lemma compact_batch_quiet env n records st : Forall (reclaimable st) records -> quiet st (compact_batch env n records st).2.
Proof.
  intros H. unfold compact_batch. pose proof (compact_quiet (compactions env n) records st H) as Hq.
  by destruct (compact _ _ _).
Qed.

Lemma reclaim_quiet env pressure reserved oldest todo : forall batch n st, Forall (reclaimable st) batch ->
  let '(r, st') := reclaim env pressure reserved oldest todo batch n st in
  quiet st st' /\ match r with Ok (batch', _) => Forall (reclaimable st') batch' | Err _ => True end.
Proof.
  induction todo as [|[modified id] todo IH]; intros batch n st Hb; cbn [reclaim]; [by split; [apply quiet_refl|]|].
  destruct (oldest <? modified); [by split; [apply quiet_refl|]|]. unfold bind at 1, get.
  destruct (read_full_record st id) as [record|] eqn:E; [|by split; [apply quiet_refl|]].
  destruct (bool_decide _ || _) eqn:Es; [by apply IH|]. apply orb_false_iff in Es as [Es _].
  apply bool_decide_eq_false in Es.
  assert (Forall (reclaimable st) (batch ++ [expire record])) as Hb'.
  { apply Forall_app. split; [done|]. constructor; [|constructor]. by eapply reclaimable_expire. }
  destruct (_ =? _)%nat; [|by apply IH]. unfold bind at 1.
  pose proof (compact_batch_quiet env n _ st Hb') as Hq.
  destruct (compact_batch env n (batch ++ [expire record]) st) as [ [?|?] st1]; cbn [snd] in Hq; [|by split].
  assert (forall m : M (list JobRecord * nat),
    (let '(r, st') := m st1 in quiet st1 st' /\ match r with Ok (batch', _) => Forall (reclaimable st') batch' | Err _ => True end) ->
    let '(r, st') := m st1 in quiet st st' /\ match r with Ok (batch', _) => Forall (reclaimable st') batch' | Err _ => True end) as Hgo.
  { intros m. destruct (m st1) as [r st']. intros [H1 H2]. split; [by eapply quiet_trans | done]. }
  destruct pressure.
  - apply Hgo. unfold bind, get_usage. destruct (ok_or _ _) as [u|e]; [|by split; [apply quiet_refl|]].
    destruct (fits u reserved); [split; [apply quiet_refl | constructor] | by apply IH].
  - apply Hgo. by apply IH.
Qed.

Lemma reserve_quiet env n : stays_quiet (reserve_record_capacity env n).
Proof.
  unfold reserve_record_capacity. apply stays_bind; [apply stays_usage|]. intros u. destruct (fits u _); [apply stays_ret|].
  intros st. unfold bind at 1. set (todo := take _ _). set (p := MAX_STORE_BYTES <? _). set (reserved := N.min _ _).
  pose proof (reclaim_quiet env p reserved (sat_sub (now env) RESULT_GRACE) todo [] 0 st (Forall_nil_2 _)) as H.
  destruct (reclaim _ _ _ _ _ _ _ st) as [ [ [batch k]|e] st1]; destruct H as [Hq Hb]; [|done].
  eapply quiet_trans; [exact Hq|]. unfold bind at 1.
  assert (quiet st1 ((if is_nil batch then ret tt else compact_batch env k batch) st1).2) as Hq2.
  { destruct (is_nil batch); [apply quiet_refl | by apply compact_batch_quiet]. }
  destruct ((if is_nil batch then ret tt else compact_batch env k batch) st1) as [ [?|?] st2]; cbn [snd] in Hq2; [|done].
  eapply quiet_trans; [exact Hq2|].
  apply (stays_bind _ _ (stays_usage env (S (S k)))). intros u'. destruct (fits u' reserved); [apply stays_ret | apply stays_fail].
Qed.

(** *** The handlers *)

Lemma follows_lift {A B} (r : result ApiError A) (k : A -> M B) st :
  (forall a, r = Ok a -> follows st (k a st).2) -> follows st (bind (lift r) k st).2.
Proof. intros H. unfold bind, lift. destruct r; [by apply H | apply follows_refl]. Qed.

Lemma unbound_inactive st id : coupled st -> bound (abs st) !! id = None -> active st !! id = None.
Proof.
  intros Hc Hb. destruct (active st !! id) as [t|] eqn:E; [|done]. destruct (Hc id t E) as (_ & _ & f & Hf & _).
  rewrite abs_lookup, Hf in Hb. done.
Qed.

Lemma write_binds env r st :
  coupled st -> bound (abs st) !! operation_id (snapshot r) = None -> follows st (write_record env r st).2.
Proof.
  intros Hc Hb. destruct (write_record_cases env r st) as [ [-> _]| ->]; [apply follows_refl|].
  split; [|intros _; apply coupled_write; [done | by apply unbound_inactive] ].
  rewrite (abs_write st _ (file_of env r) r eq_refl). by apply rtc_once, spec_bind.
Qed.

Lemma dispatch_follows env r st :
  coupled st -> bound (abs st) !! operation_id (snapshot r) = None -> state (snapshot r) = Running ->
  follows st (dispatch env r st).2.
Proof.
  intros Hc Hb Hr. unfold dispatch. pose proof (write_binds env r st Hc Hb) as Hw.
  destruct (write_record_cases env r st) as [ [E1 E2]|E].
  - destruct (write_record env r st) as [ok st1]. cbn in E1, E2. by subst.
  - destruct (write_record env r st) as [ok st1]. cbn [snd] in E, Hw. destruct ok; [|exact Hw]. subst st1. cbn [snd].
    set (id := operation_id (snapshot r)) in *. split.
    + apply rtc_once.
      assert (forall s, s = {| bound := <[id := Some (view r)]> (bound (abs st)); running := {[id]} ∪ running (abs st);
                               started := started (abs st) ++ [id] |} -> spec_step (abs st) s) as H.
      { intros s ->. by apply spec_start. }
      apply H. pose proof (abs_write st id (file_of env r) r eq_refl) as Ha. apply (f_equal bound) in Ha. cbn [bound] in Ha.
      unfold abs at 1. f_equal; [exact Ha|]. cbn. by rewrite dom_insert_L.
    + intros _ j t. cbn [active files set_files]. destruct (decide (id = j)) as [<-|Hne].
      * rewrite !lookup_insert_eq. intros [= <-]. split_and!; [done | done |]. by exists (file_of env r).
      * rewrite !lookup_insert_ne by done. apply Hc.
Qed.

Lemma follows_snapshot {B} env st id r (k : ExecJobSnapshot -> M B) :
  read_record env st id = Ok r -> (forall s st, (k s st).2 = st) ->
  follows st (bind (fun st => let '(s, st) := inactive_snapshot env r (bool_decide (is_Some (active st !! id))) st in (Ok s, st)) k st).2.
Proof.
  intros H Hk. apply read_record_Ok in H as (Hid & Hb & _). pose proof (inactive_snapshot_follows env st id r Hid Hb) as Hf.
  unfold bind. destruct (inactive_snapshot _ _ _ st). by rewrite Hk.
Qed.

Lemma start_follows env req st : coupled st -> follows st (start env req st).2.
Proof.
  intros Hc. unfold start. do 4 (apply follows_lift; intros ? _). unfold bind at 1, get.
  destruct (read_record env st _) as [r|[|] ] eqn:E; [| |apply follows_refl].
  - destruct (_ || _); [apply follows_refl|]. by apply follows_snapshot.
  - apply follows_lift. intros _ _. apply read_record_unbound in E.
    pose proof (reserve_quiet env (N.of_nat (size (active st))) st) as (Hf & _ & _ & Hb). unfold bind.
    destruct (reserve_record_capacity _ _ st) as [ [?|?] st1]; cbn [snd] in *; [|by apply Hf].
    eapply follows_trans; [by apply Hf|]. apply dispatch_follows; [by apply Hf | by apply Hb | done].
Qed.

Lemma complete_follows env id result st : coupled st -> follows st (complete env id result st).
Proof.
  intros Hc. unfold complete. destruct (active st !! id) as [t|] eqn:Ea; [|apply follows_refl].
  destruct (Hc id t Ea) as (Hid & Hst & f & Hf & Hr). 
  set (record := match result with
    | Ok o =>
        advance (task_record t) (if cancelled t then Cancelled else Completed) (revision (snapshot (task_record t)) + 1)
          (Some o) (error (snapshot (task_record t)))
    | Err e =>
        advance (task_record t) Failed (revision (snapshot (task_record t)) + 1) (outcome (snapshot (task_record t))) (Some (payload e))
    end).
  assert (operation_id (snapshot record) = id /\ workspace record = workspace (task_record t) /\
    request_hash record = request_hash (task_record t) /\ state (snapshot record) <> Running /\
    revision (snapshot record) = revision (snapshot (task_record t)) + 1) as (H1 & H2 & H3 & H4 & H5).
  { unfold record. destruct result; cbn; [destruct (cancelled t)|]; by split_and!. }
  pose (finish := fun st1 : State => {| files := files st1; outputs := outputs st1; receipts := receipts st1;
    active := delete id (active st1); dispatched := dispatched st1 |}).
  assert (follows st (finish (write_record env record st).2)) as Hgoal; [|by destruct (write_record env record st)].
  assert (forall fs, (forall j, j <> id -> fs !! j = files st !! j) -> coupled st -> coupled (finish (set_files st fs))) as Hcf.
  { intros fs Hfs _ j u. cbn [active files set_files finish]. destruct (decide (id = j)) as [<-|Hne].
    - by rewrite lookup_delete_eq.
    - rewrite lookup_delete_ne, Hfs by congruence. apply Hc. }
  destruct (write_record_cases env record st) as [ [-> _]| ->].
  - split; [|intros _; by destruct st; apply (Hcf files0)]. apply rtc_once.
    assert (abs (finish st) = {| bound := bound (abs st); running := running (abs st) ∖ {[id]}; started := started (abs st) |}) as ->.
    { unfold abs, finish. cbn. by rewrite dom_delete_L. }
    apply spec_lose.
  - rewrite H1. split; [|apply Hcf; intros j Hj; by rewrite lookup_insert_ne by congruence]. apply rtc_once.
    pose proof (abs_write st id (file_of env record) record eq_refl) as Ha. apply (f_equal bound) in Ha. cbn [bound] in Ha.
    assert (abs (finish (set_files st (<[id := file_of env record]> (files st)))) =
      {| bound := <[id := Some (view record)]> (bound (abs st)); running := running (abs st) ∖ {[id]};
         started := started (abs st) |}) as ->.
    { unfold abs at 1. f_equal; [exact Ha|]. cbn. by rewrite dom_delete_L. }
    apply (spec_finish _ id (view (task_record t))); try done.
    + cbn. apply elem_of_dom. by exists t.
    + rewrite abs_lookup, Hf. cbn. by rewrite Hr.
Qed.

Lemma scoped_record_Ok env req st r st' : scoped_record env req st = (Ok r, st') ->
  st' = st /\ read_record env st (job_operation_id req) = Ok r.
Proof.
  unfold scoped_record, bind, lift, get. destruct (ok_or _ _); [|done]. unfold path.
  destruct (canonical_uuid _); [|done]. destruct (read_record _ _ _) as [r'|[|] ]; [|done..].
  destruct (str_eqb _ _); [|done]. by intros [= -> ->].
Qed.

Lemma scoped_record_state env req st : (scoped_record env req st).2 = st.
Proof.
  unfold scoped_record, bind, lift, get. destruct (ok_or _ _); [|done]. destruct (path _); [|done].
  destruct (read_record _ _ _) as [r'|[|] ]; [|done..]. by destruct (str_eqb _ _).
Qed.

Lemma wait_follows env req deadline st : follows st (wait env req deadline st).2.
Proof.
  unfold wait. apply follows_lift. intros _ _. unfold bind at 1. pose proof (scoped_record_state env req st) as Hs.
  destruct (scoped_record env req st) as [ [r|e] st1] eqn:E; cbn [snd] in Hs; subst st1; [|apply follows_refl].
  apply scoped_record_Ok in E as [_ E]. apply (follows_snapshot _ _ _ _ _ E).
  intros s st'. destruct (_ || _); [|done]. unfold bind, lift. by destruct (deliver _ _ _).
Qed.

Lemma follows_tasks (st : State) (a : gmap rstr Task) :
  dom a = dom (active st) ->
  (forall id t, a !! id = Some t -> exists t', active st !! id = Some t' /\ task_record t = task_record t') ->
  follows st (set_active st a).
Proof.
  intros Hd Ha. assert (abs (set_active st a) = abs st) as E by (unfold abs; cbn; by rewrite Hd).
  split; [by rewrite E|]. intros Hc id t Ht. destruct (Ha id t Ht) as (t' & Ht' & ->). by apply Hc.
Qed.

Lemma cancel_follows env req st : coupled st -> follows st (cancel env req st).2.
Proof.
  intros Hc. unfold cancel. do 3 (apply follows_lift; intros ? _). unfold bind at 1, get.
  destruct (read_record env st _) as [r|[|] ] eqn:E; [| |apply follows_refl].
  - destruct (negb _); [apply follows_refl|]. apply follows_tasks; [apply dom_alter_L|].
    intros id t. destruct (decide (job_operation_id req = id)) as [->|Hne].
    + rewrite lookup_alter_eq. destruct (active st !! id) as [u|]; [|done]. intros [= <-]. by exists u.
    + rewrite lookup_alter_ne by done. eauto.
  - apply read_record_unbound in E. pose proof (reserve_quiet env (N.of_nat (size (active st))) st) as (Hf & _ & _ & Hb).
    unfold bind. destruct (reserve_record_capacity _ _ st) as [ [?|?] st1]; cbn [snd] in *; [|by apply Hf].
    eapply follows_trans; [by apply Hf|]. set (r := {| workspace := _ |}).
    pose proof (write_binds env r st1 (proj2 (Hf Hc) Hc) (Hb _ E)) as Hw. by destruct (write_record env r st1).
Qed.

Lemma shutdown_follows st : follows st (shutdown st).
Proof.
  apply follows_tasks; [apply dom_fmap_L|]. intros id t. rewrite lookup_fmap.
  destruct (active st !! id) as [u|]; [|done]. intros [= <-]. by exists u.
Qed.

Lemma interrupt_running_follows env ids : forall st, active st = ∅ -> follows st (interrupt_running env ids st).2.
Proof.
  induction ids as [|id ids IH]; intros st Ha; [apply follows_refl|]. cbn [interrupt_running].
  destruct (read_full_record st id) as [r|] eqn:E; [|apply follows_refl].
  destruct (bool_decide_reflect (state (snapshot r) = Running)) as [Hr|]; [|by apply IH].
  apply read_full_record_Ok in E as (Hid & f & Hf & Hfr).
  assert (bound (abs st) !! id = Some (Some (view r))) as Hb by (rewrite abs_lookup, Hf; cbn; by rewrite Hfr).
  assert (active st !! id = None) as Hn by (by rewrite Ha).
  pose proof (interrupt_follows env st id r (error (snapshot r)) Hn Hid Hr Hb) as Hi.
  destruct (write_record_cases env (advance r Interrupted (revision (snapshot r) + 1) (outcome (snapshot r)) (error (snapshot r))) st)
    as [ [E _]|E]; destruct (write_record env _ st) as [ok st1]; cbn [snd] in *; subst st1.
  - destruct ok; [by apply IH | done].
  - destruct ok; [|done]. eapply follows_trans; [exact Hi|]. by apply IH.
Qed.

Lemma recover_compaction_keeps env outs : forall st, abs (recover_compaction env outs st).2 = abs st /\
  active (recover_compaction env outs st).2 = active st /\ files (recover_compaction env outs st).2 = files st.
Proof.
  induction outs as [|id outs IH]; intros st; cbn [recover_compaction]; [done|]. destruct (negb _); [done|].
  destruct (files st !! id); [apply IH|]. destruct (receipts_read env st id) as [ [r|]|]; [|apply IH|done].
  destruct (removable env id); [|done]. apply (IH (remove_output id st)).
Qed.

Lemma new_follows env ids outs st : follows st (new env ids outs st).2.
Proof.
  unfold new. assert (follows st (set_active st ∅)) as H0.
  { split; [|by intros _ ? ?]. apply rtc_once.
    assert (abs (set_active st ∅) = {| bound := bound (abs st); running := running (abs st) ∖ dom (active st);
      started := started (abs st) |}) as ->; [|apply spec_lose].
    unfold abs at 1. cbn. f_equal. set_solver. }
  eapply follows_trans; [exact H0|]. pose proof (interrupt_running_follows env ids (set_active st ∅) eq_refl) as H.
  destruct (interrupt_running _ _ _) as [ [|] st1]; cbn [snd] in *; [|done]. eapply follows_trans; [exact H|].
  destruct (recover_compaction_keeps env outs st1) as (Ha & Hact & Hf). split; [by rewrite Ha|].
  intros Hc. unfold coupled. by rewrite Hact, Hf.
Qed.

Lemma step_follows st e : coupled st -> follows st (step st e).
Proof.
  intros Hc. destruct e; cbn [step].
  - by apply start_follows.
  - by apply complete_follows.
  - apply wait_follows.
  - by apply cancel_follows.
  - apply shutdown_follows.
  - apply new_follows.
  - by split; [constructor|].
Qed.

Lemma after_follows events : forall st, coupled st -> follows st (after st events).
Proof.
  induction events as [|e events IH]; intros st Hc; [apply follows_refl|]. cbn [after fold_left].
  eapply follows_trans; [by apply step_follows|]. apply IH. by apply step_follows.
Qed.

Lemma initial_coupled st : initial st -> coupled st.
Proof. intros [H _] id t. by rewrite H. Qed.

Lemma initial_ok st : initial st -> spec_ok (abs st).
Proof. intros [Ha Hd]. unfold spec_ok, abs. cbn. rewrite Ha, Hd. split_and!; [constructor | set_solver | set_solver]. Qed.

Lemma rtc_keeps (P : Spec -> Prop) s s' : (forall a b, spec_step a b -> P a -> P b) -> rtc spec_step s s' -> P s -> P s'.
Proof. intros H. induction 1; eauto. Qed.

Lemma after_ok st events : initial st -> spec_ok (abs (after st events)) /\ coupled (after st events).
Proof.
  intros Hi. pose proof (initial_coupled st Hi) as Hc. destruct (after_follows events st Hc) as [H Hc']. split; [|auto].
  eapply rtc_keeps; [apply spec_step_ok | exact H | by apply initial_ok].
Qed.

(** ** Properties *)

(** C2: Every transition of a daemon that starts from any store is a transition
    of the protocol, whatever fails on the way, restarts included: a binding is
    never dropped, only an unbound identifier is started, and a job that ended
    keeps its end; each running task stays the owner of the record it started
    with. *)
Theorem jobs_refine_protocol st events e :
  initial st ->
  rtc spec_step (abs (after st events)) (abs (step (after st events) e)) /\ coupled (step (after st events) e).
Proof.
  intros Hi. destruct (after_ok st events Hi) as [_ Hc]. destruct (step_follows _ e Hc) as [H Hc']. auto.
Qed.

(** C17: No operation runs twice: along any history of requests, completions,
    failures and restarts, each identifier is dispatched at most once, and the
    one of a dispatched command is bound ever after. *)
Theorem no_operation_runs_twice st events :
  initial st ->
  NoDup (dispatched (after st events)) /\
  forall id, id ∈ dispatched (after st events) -> forall events', is_Some (bound (abs (after (after st events) events')) !! id).
Proof.
  intros Hi. destruct (after_ok st events Hi) as [ (Hn & Hb & _) Hc]. split; [exact Hn|]. intros id Hid events'.
  destruct (after_follows events' _ Hc) as [H _].
  eapply (rtc_keeps (fun s => is_Some (bound s !! id))); [intros a b Hs; by apply spec_bound_kept | exact H | by apply Hb].
Qed.

Lemma write_record_dispatched env r st : dispatched (write_record env r st).2 = dispatched st.
Proof. destruct (write_record_cases env r st) as [ [-> _]| ->]; done. Qed.

Lemma cancel_binds env req st st' :
  cancel env req st = (Ok tt, st') ->
  is_Some (bound (abs st') !! job_operation_id req) /\ dispatched st' = dispatched st.
Proof.
  unfold cancel. unfold bind, lift, get. destruct (path _); [|done]. destruct (ok_or _ _); [|done].
  destruct (guard_err _ _); [|done]. destruct (read_record env st _) as [r|[|] ] eqn:E; [| |done].
  - destruct (negb _); [done|]. intros [= <-]. split; [|done]. apply read_record_Ok in E as (_ & H & _).
    change (bound (abs (set_active st _))) with (bound (abs st)). rewrite H. eauto.
  - pose proof (reserve_quiet env (N.of_nat (size (active st))) st) as (_ & _ & Hd & _).
    destruct (reserve_record_capacity _ _ st) as [ [?|?] st1]; [|done]. cbn [snd] in Hd. set (r := {| workspace := _ |}).
    pose proof (write_record_dispatched env r st1) as Hd'. pose proof (write_record_cases env r st1) as Hw.
    destruct (write_record env r st1) as [ [|] st2]; cbn [snd fst] in *; [|done]. intros [= <-].
    destruct Hw as [ [_ ?]| ->]; [done|]. split; [|congruence].
    rewrite (abs_write st1 _ (file_of env r) r eq_refl). cbn [bound]. rewrite lookup_insert_eq. eauto.
Qed.

(** A cancellation that was accepted before the operation was dispatched
    settles it: no later request, retry or restart ever dispatches it. *)
Theorem cancelled_before_dispatch_never_runs env req st events st' events' :
  initial st -> cancel env req (after st events) = (Ok tt, st') -> job_operation_id req ∉ dispatched (after st events) ->
  job_operation_id req ∉ dispatched (after st' events').
Proof.
  intros Hi H Hn. destruct (after_ok st events Hi) as [_ Hc]. destruct (cancel_binds _ _ _ _ H) as [Hb Hd].
  pose proof (cancel_follows env req _ Hc) as [_ Hc']. rewrite H in Hc'. cbn [snd] in Hc'.
  destruct (after_follows events' st' (Hc' Hc)) as [Hr _].
  apply (rtc_keeps (fun s => is_Some (bound s !! job_operation_id req) /\ job_operation_id req ∉ started s) _ _) in Hr.
  - apply Hr.
  - intros a b Hs [H1 H2]. split; [by eapply spec_bound_kept | by eapply spec_not_started].
  - split; [exact Hb|]. change (started (abs st')) with (dispatched st'). by rewrite Hd.
Qed.

(** An ended job stays as it ended: whatever requests, reclaims and restarts
    follow, its binding keeps its workspace, its request and its final state, and
    its revision never goes back. *)
Theorem finished_jobs_stay_finished st events events' id v :
  initial st -> bound (abs (after st events)) !! id = Some (Some v) -> v_state v <> Running ->
  settled (abs (after (after st events) events')) id v.
Proof.
  intros Hi Hb Hv. destruct (after_ok st events Hi) as [Hok Hc]. destruct (after_follows events' _ Hc) as [H _].
  apply (rtc_keeps (fun s => spec_ok s /\ settled s id v) _ _) in H; [apply H | |].
  - intros a b Hs [H1 H2]. split; [by eapply spec_step_ok | by eapply spec_settled].
  - split; [exact Hok|]. exists v. split_and!; try done. lia.
Qed.

(** *** The bound on active jobs *)

Lemma dispatch_active env r st : (size (active (dispatch env r st).2) <= S (size (active st)))%nat.
Proof.
  unfold dispatch. pose proof (write_record_cases env r st) as Hw. destruct (write_record env r st) as [ok st1].
  cbn [fst snd] in Hw. assert (active st1 = active st) as Ha by (by destruct Hw as [ [-> _]| ->]).
  destruct ok; cbn [snd active]; rewrite Ha; [|lia]. destruct (active st !! operation_id (snapshot r)) as [t|] eqn:E.
  - rewrite map_size_insert_Some by eauto. lia.
  - by rewrite map_size_insert_None.
Qed.

Lemma reserve_fits env n st st' : reserve_record_capacity env n st = (Ok tt, st') -> n + 1 <= 15.
Proof.
  assert (forall u, fits u (N.min ((n + 1) * (MAX_RECORD_BYTES + MAX_JOB_OUTPUT_BYTES)) u64_max) = true -> n + 1 <= 15) as Hfit.
  { intros u. unfold fits. intros [_ H]%andb_true_iff. revert H.
    unfold sat_add, MAX_RECORD_BYTES, MAX_JOB_OUTPUT_BYTES, MAX_STORE_BYTES, u64_max. lia. }
  unfold reserve_record_capacity. intros H. unfold bind at 1, get_usage at 1 in H. destruct (ok_or _ _) as [u|]; [|done].
  destruct (fits u _) eqn:E; [by eapply Hfit|]. unfold bind at 1 in H.
  destruct (reclaim _ _ _ _ _ _ _ _) as [ [ [batch k]|] st1]; [|done]. unfold bind at 1 in H.
  destruct ((if is_nil batch then ret tt else compact_batch env k batch) st1) as [ [ [] |] st2]; [|done]. unfold bind, get_usage in H.
  destruct (ok_or _ _) as [u'|]; [|done]. destruct (fits u' _) eqn:E'; [by eapply Hfit | done].
Qed.

Lemma snapshot_active env r b st : active (inactive_snapshot env r b st).2 = active st.
Proof.
  unfold inactive_snapshot. destruct (_ && _); [|done].
  match goal with |- context [write_record env ?x st] => pose proof (write_record_cases env x st) as H end.
  destruct (write_record _ _ _). cbn [snd] in *. by destruct H as [ [-> _]| ->].
Qed.

Lemma start_active env req st :
  (size (active st) <= 15)%nat -> (size (active (start env req st).2) <= 15)%nat.
Proof.
  intros Hs. unfold start, bind, lift, get. destruct (path _); [|done]. destruct (ok_or _ _); [|done].
  destruct (guard_err _ _); [|done]. destruct (guard_err _ _); [|done]. destruct (read_record _ _ _) as [r|[|] ]; [| |done].
  - destruct (_ || _); [done|]. pose proof (snapshot_active env r (bool_decide (is_Some (active st !! start_operation_id req))) st) as H.
    destruct (inactive_snapshot _ _ _ st). cbn [snd] in H. destruct (deliver _ _ _); cbn [snd]; by rewrite H.
  - destruct (guard_err _ _); [|done]. pose proof (reserve_quiet env (N.of_nat (size (active st))) st) as (_ & Ha & _).
    destruct (reserve_record_capacity _ _ st) as [ [ [] |] st1] eqn:E; cbn [snd] in *; [|by rewrite Ha].
    apply reserve_fits in E. pose proof (dispatch_active env (record_of_start a0 (privacy_hash (request req)) (start_operation_id req)) st1) as H.
    rewrite Ha in H. lia.
Qed.

Lemma wait_active env req deadline st : active (wait env req deadline st).2 = active st.
Proof.
  unfold wait, bind at 1, lift at 1. destruct (guard_err _ _); [|done]. unfold bind at 1.
  pose proof (scoped_record_state env req st) as Hs. destruct (scoped_record env req st) as [ [r|] st1]; cbn [snd] in Hs; subst; [|done].
  unfold bind. pose proof (snapshot_active env r (bool_decide (is_Some (active st !! job_operation_id req))) st) as H.
  destruct (inactive_snapshot _ _ _ st). cbn [snd] in H. destruct (_ || _); [|done]. unfold lift. by destruct (deliver _ _ _).
Qed.

Lemma cancel_active env req st : size (active (cancel env req st).2) = size (active st).
Proof.
  unfold cancel, bind, lift, get. destruct (path _); [|done]. destruct (ok_or _ _); [|done].
  destruct (guard_err _ _); [|done]. destruct (read_record _ _ _) as [r|[|] ]; [| |done].
  - destruct (negb _); [done|]. cbn. rewrite <- !size_dom. by rewrite dom_alter_L.
  - pose proof (reserve_quiet env (N.of_nat (size (active st))) st) as (_ & Ha & _).
    destruct (reserve_record_capacity _ _ st) as [ [?|] st1]; cbn [snd] in *; [|by rewrite Ha].
    set (r := {| workspace := _ |}). pose proof (write_record_cases env r st1) as Hw. destruct (write_record env r st1).
    cbn [snd] in *. rewrite <- Ha. by destruct Hw as [ [-> _]| ->].
Qed.

Lemma complete_active env id result st : (size (active (complete env id result st)) <= size (active st))%nat.
Proof.
  unfold complete. destruct (active st !! id) as [t|] eqn:E; [|done].
  match goal with |- context [write_record env ?x st] => pose proof (write_record_cases env x st) as H end.
  destruct (write_record _ _ _). cbn [snd active] in *. rewrite map_size_delete.
  destruct H as [ [-> _]| ->]; cbn [active set_files]; rewrite E; lia.
Qed.

Lemma interrupt_active env ids : forall st, active (interrupt_running env ids st).2 = active st.
Proof.
  induction ids as [|id ids IH]; intros st; [done|]. cbn [interrupt_running]. destruct (read_full_record st id) as [r|]; [|done].
  destruct (bool_decide _); [|done].
  match goal with |- context [write_record env ?x st] => pose proof (write_record_cases env x st) as H end.
  destruct (write_record _ _ _) as [ [|] st1]; cbn [snd] in *; [rewrite IH|]; by destruct H as [ [-> _]| ->].
Qed.

(** At most fifteen commands are ever active at once: every dispatch
    reserves a full record and a full output for each of them, and sixteen do
    not fit in the store. *)
Theorem active_jobs_bounded st events : initial st -> (size (active (after st events)) <= 15)%nat.
Proof.
  intros [Ha _]. assert (size (active st) <= 15)%nat as Hs by (rewrite Ha, map_size_empty; lia). clear Ha. revert st Hs.
  induction events as [|e events IH]; intros st Hs; [exact Hs|]. cbn [after fold_left]. apply IH. destruct e; cbn [step].
  - by apply start_active.
  - pose proof (complete_active env id result st). lia.
  - by rewrite wait_active.
  - by rewrite cancel_active.
  - unfold shutdown. cbn. by rewrite map_size_fmap.
  - unfold new. pose proof (interrupt_active env ids (set_active st ∅)) as H. destruct (interrupt_running _ _ _) as [ [|] st1];
      cbn [snd] in *; rewrite ?(proj1 (proj2 (recover_compaction_keeps _ _ _))), H; cbn; rewrite map_size_empty; lia.
  - exact Hs.
Qed.

(** *** Answers *)

Lemma inactive_running env r b st : state (inactive_snapshot env r b st).1 = Running -> b = true.
Proof.
  unfold inactive_snapshot. destruct (bool_decide_reflect (state (snapshot r) = Running)), b; cbn [andb negb fst]; try done.
  destruct (write_record _ _ _); cbn; discriminate.
Qed.

Lemma deliver_state s a m d : deliver s a m = Ok d -> state d = state s.
Proof. unfold deliver. intros H. by inv_ok. Qed.

(** A poll that answers that a job is running is backed by a running task:
    a job whose daemon died answers as interrupted, even when that cannot be
    written down. *)
Theorem poll_never_reports_orphans_running env req deadline st s st' :
  wait env req deadline st = (Ok (Some s), st') -> state s = Running ->
  exists task, active st !! job_operation_id req = Some task.
Proof.
  unfold wait. intros H Hs. unfold bind at 1, lift at 1 in H. destruct (guard_err _ _); [|done]. unfold bind at 1 in H.
  destruct (scoped_record env req st) as [ [r|] st1] eqn:E; [|done]. apply scoped_record_Ok in E as [-> _]. unfold bind in H.
  pose proof (inactive_running env r (bool_decide (is_Some (active st !! job_operation_id req))) st) as Hr.
  destruct (inactive_snapshot _ _ _ st) as [s0 st2]. cbn [fst] in Hr. destruct (_ || _); [|done]. unfold lift in H.
  destruct (deliver s0 _ _) as [d|] eqn:Ed; [|done]. injection H as <- <-. apply deliver_state in Ed.
  rewrite <- Ed in Hr. specialize (Hr Hs). by apply bool_decide_eq_true in Hr.
Qed.

(** *** Retries *)

Lemma start_new env req st s st1 :
  coupled st -> start env req st = (Ok s, st1) -> bound (abs st) !! start_operation_id req = None ->
  exists ws st0, resolved env = Some ws /\ canonical_uuid (start_operation_id req) = true /\
    bound (abs st0) !! start_operation_id req = None /\
    dispatch env (record_of_start ws (privacy_hash (request req)) (start_operation_id req)) st0 = (Ok s, st1).
Proof.
  intros Hc H Hb. unfold start, bind, lift, get, path in H. destruct (canonical_uuid _) eqn:Eu; [|done].
  destruct (resolved env) as [ws|]; [|done]. cbn [ok_or] in H. destruct (guard_err _ _); [|done]. destruct (guard_err _ _); [|done].
  destruct (read_record _ _ _) as [r|[|] ] eqn:E; [| |done].
  - apply read_record_Ok in E as (_ & E & _). congruence.
  - destruct (guard_err _ _); [|done]. pose proof (reserve_quiet env (N.of_nat (size (active st))) st) as (_ & _ & _ & Hq).
    destruct (reserve_record_capacity _ _ st) as [ [ [] |] st0]; [|done]. exists ws, st0. split_and!; auto.
Qed.

(** What a successful dispatch leaves behind. *)
Lemma dispatch_Ok env r st s st1 :
  bound (abs st) !! operation_id (snapshot r) = None -> dispatch env r st = (Ok s, st1) ->
  active st1 !! operation_id (snapshot r) = Some {| task_record := r; cancelled := false |} /\
  receipts st1 !! operation_id (snapshot r) = None.
Proof.
  intros Hb H. unfold dispatch in H. pose proof (write_record_cases env r st) as Hw. rewrite abs_lookup in Hb.
  destruct (write_record env r st) as [ [|] st0]; [|done]. injection H as _ <-. cbn [active receipts fst snd] in *.
  rewrite lookup_insert_eq. split; [done|]. destruct Hw as [ [_ ?]| ->]; [done|]. cbn [receipts set_files].
  destruct (files st !! _); [done|]. by destruct (receipts st !! _).
Qed.

(** A retry replays: when a request was accepted for a fresh identifier and
    its command ended with an outcome that could be written down, the same request
    again runs nothing and changes nothing, and answers with that outcome. *)
Theorem retry_replays_the_outcome env env' env'' req st s st1 o :
  coupled st -> bound (abs st) !! start_operation_id req = None -> start env req st = (Ok s, st1) ->
  writes env' (start_operation_id req) = Written ->
  (forall ws, record_len (advance (record_of_start ws (privacy_hash (request req)) (start_operation_id req)) Completed 2
                            (Some o) None) < MAX_RECORD_BYTES) ->
  resolved env'' = resolved env -> is_dir env'' = is_dir env -> receipts_readable env'' = true ->
  start env'' req (complete env' (start_operation_id req) (Ok o) st1) =
    (deliver {| delivery := None; operation_id := start_operation_id req; state := Completed; revision := 2;
                outcome := Some o; error := None |} None None,
     complete env' (start_operation_id req) (Ok o) st1).
Proof.
  intros Hc Hb H Hw Hlen He Hd Hread. destruct (start_new _ _ _ _ _ Hc H Hb) as (ws & st0 & Hws & Hu & Hb0 & Hdis).
  set (id := start_operation_id req) in *. apply (dispatch_Ok env (record_of_start ws (privacy_hash (request req)) id) st0 s st1 Hb0) in Hdis as [Hact Hrec].
  unfold complete. change (operation_id (snapshot (record_of_start ws (privacy_hash (request req)) id))) with id in *.
  rewrite Hact. cbn [task_record cancelled]. set (r := advance _ _ _ _ _). unfold write_record.
  specialize (Hlen ws). change (record_len r < MAX_RECORD_BYTES) in Hlen. replace (MAX_RECORD_BYTES <=? record_len r) with false by lia.
  change (operation_id (snapshot r)) with id. rewrite Hw. set (st2 := {| files := _ |}).
  assert (read_record env'' st2 id = Ok r) as Hr.
  { unfold read_record, read_full_record. cbn [st2 files set_files]. rewrite lookup_insert_eq. cbn [file_size file_record].
    replace (MAX_RECORD_BYTES <? record_len r + 1) with false by lia. change (operation_id (snapshot r)) with id.
    rewrite Hu. unfold str_eqb. rewrite bool_decide_true by done. cbn [andb]. unfold receipts_read. rewrite Hread.
    cbn [negb st2 receipts set_files]. change (operation_id (snapshot r)) with id. by rewrite Hrec. }
  clearbody st2. revert H. unfold start, bind, lift, get. unfold path. fold id. rewrite Hu, He, Hd, Hws. cbn [ok_or].
  destruct (guard_err _ _); [|done]. destruct (guard_err _ _); [|done]. intros _. rewrite Hr. cbn [workspace request_hash r advance with_snapshot record_of_start].
  unfold str_eqb. rewrite !bool_decide_true by done. cbn [negb orb]. rewrite andb_false_r.
  reflexivity.
Qed.
End Jobs.

(** *** A history *)

Definition sample_outcome : Exec.ExecutionOutcome :=
  Exec.NotStartedOutcome (Exec.Denied (Exec.shell (lit "make")) (lit "no")).
Definition sample_env : Env :=
  {| resolved := Some (lit "/w"); is_dir := true; io_text := lit "io"; writes := fun _ => Written; receipts_readable := true;
     usage_readable := fun _ => true; other_bytes := fun _ => 0; compactions := fun _ => {| commits := true; removals := 9 |};
     now := 7; is_pending := fun _ => false; removable := fun _ => true |}.
Definition sample_store : State := {| files := ∅; outputs := ∅; receipts := ∅; active := ∅; dispatched := [] |}.
Definition sample_id : rstr := lit "6f0c".
Definition sample_start : ExecStartApiRequest :=
  {| start_operation_id := sample_id;
     request := {| cwd := lit "."; command := lit "make"; timeout_ms := None; request_rest := [] |} |}.
Definition sample_poll : ExecJobApiRequest :=
  {| job_operation_id := sample_id; job_cwd := lit "."; wait_ms := None; after_revision := None; max_output_bytes := None |}.
Definition uuid (_ : rstr) : bool := true.
Definition hash (r : ExecApiRequest) : rstr := command r.
Definition olen (_ : Exec.ExecutionOutcome) : N := 10.
Definition rlen (_ : JobRecord) : N := 100.

Definition sample_after := after uuid hash olen rlen sample_store.
Definition sample_dispatch : list Event := [EStart sample_env sample_start].
Definition sample_run : list Event := sample_dispatch ++ [EComplete sample_env sample_id (Ok sample_outcome)].
Definition sample_again : list Event := [ERestart sample_env [sample_id] []; EStart sample_env sample_start].

Lemma sample_initial : initial sample_store.
Proof. by split. Qed.

Lemma jobs_refine_protocol_witness :
  dispatched (step uuid hash olen rlen (sample_after []) (EStart sample_env sample_start)) = [sample_id] /\
  rtc spec_step (abs (sample_after [])) (abs (step uuid hash olen rlen (sample_after []) (EStart sample_env sample_start))).
Proof.
  split; [by vm_compute|].
  exact (proj1 (jobs_refine_protocol uuid hash olen rlen sample_store [] (EStart sample_env sample_start) sample_initial)).
Defined.

Lemma no_operation_runs_twice_witness :
  dispatched (sample_after sample_run) = [sample_id] /\
  is_Some (bound (abs (after uuid hash olen rlen (sample_after sample_run) sample_again)) !! sample_id).
Proof.
  split; [by vm_compute|].
  apply (no_operation_runs_twice uuid hash olen rlen sample_store sample_run sample_initial). vm_compute. apply list_elem_of_here.
Defined.

Lemma cancelled_before_dispatch_never_runs_witness :
  exists st', cancel uuid rlen sample_env sample_poll (sample_after []) = (Ok tt, st') /\
    sample_id ∉ dispatched (after uuid hash olen rlen st' sample_again).
Proof.
  destruct (cancel uuid rlen sample_env sample_poll (sample_after [])) as [r st'] eqn:E. exists st'.
  assert (r = Ok tt) as -> by (apply (f_equal fst) in E; vm_compute in E; by symmetry). split; [done|].
  apply (cancelled_before_dispatch_never_runs uuid hash olen rlen sample_env sample_poll sample_store [] st' sample_again
           sample_initial E).
  apply not_elem_of_nil.
Defined.

Lemma finished_jobs_stay_finished_witness :
  exists v, v_state v = Completed /\ v_revision v = 2 /\
    settled (abs (after uuid hash olen rlen (sample_after sample_run) sample_again)) sample_id v.
Proof.
  exists {| v_workspace := lit "/w"; v_hash := lit "make"; v_state := Completed; v_revision := 2 |}. split; [done|]. split; [done|].
  apply (finished_jobs_stay_finished uuid hash olen rlen sample_store sample_run sample_again sample_id).
  - exact sample_initial.
  - by vm_compute.
  - done.
Defined.

Lemma active_jobs_bounded_witness :
  size (active (sample_after sample_dispatch)) = 1%nat /\ (size (active (sample_after sample_dispatch)) <= 15)%nat.
Proof.
  split; [by vm_compute|]. exact (active_jobs_bounded uuid hash olen rlen sample_store sample_dispatch sample_initial).
Defined.

Lemma poll_never_reports_orphans_running_witness :
  exists s task, (wait uuid olen rlen sample_env sample_poll true (sample_after sample_dispatch)).1 = Ok (Some s) /\
    active (sample_after sample_dispatch) !! sample_id = Some task.
Proof.
  destruct (wait uuid olen rlen sample_env sample_poll true (sample_after sample_dispatch)) as [r st'] eqn:E.
  pose proof (f_equal fst E) as E1. vm_compute in E1. destruct r as [ [s|]|]; [|done|done].
  destruct (poll_never_reports_orphans_running uuid olen rlen sample_env sample_poll true _ s st' E) as [task Ht].
  - injection E1 as <-. done.
  - by exists s, task.
Defined.

Lemma retry_replays_the_outcome_witness :
  exists s st1, start uuid hash olen rlen sample_env sample_start sample_store = (Ok s, st1) /\
    exists d st2, start uuid hash olen rlen sample_env sample_start (complete rlen sample_env sample_id (Ok sample_outcome) st1) =
      (Ok d, st2) /\ outcome d = Some sample_outcome.
Proof.
  destruct (start uuid hash olen rlen sample_env sample_start sample_store) as [r st1] eqn:E.
  pose proof (f_equal fst E) as E1. vm_compute in E1. destruct r as [s|]; [|done]. exists s, st1. split; [done|].
  pose proof (retry_replays_the_outcome uuid hash olen rlen sample_env sample_env sample_env sample_start sample_store s st1
             sample_outcome (initial_coupled _ sample_initial) eq_refl E eq_refl (fun _ => eq_refl) eq_refl eq_refl eq_refl) as H.
  change (start_operation_id sample_start) with sample_id in H. rewrite H.
  eexists _, _. split; [by vm_compute | done].
Defined.

End ExecJobs.
