(* ===== verification/ExecOutput.v ===== *)
(** Reading captured output ([crates/hzr-daemon/src/exec_jobs/output.rs]): pages
    of a stream that was captured in memory or in a spill file, as text where the
    bytes are text and as hexadecimal digits otherwise.

    [sha256] gives the hexadecimal digest and [hex] is [hex::encode], both of
    third-party crates.  What the file system answers while a page is read is
    [OutputIo]; its paths are canonical. *)

From S2P Require Import Prelude RStr Utf8 Api Exec ExecJobs.
From Stdlib Require Import ZifyBool ZifyN ZifyNat.

Module ExecOutput.
Import Api.
Import ExecJobs.

#[local] Abbreviation llen := Exec.llen.

Definition DEFAULT_BYTES : N := 32 * 1024.
Definition MAX_BYTES : N := 256 * 1024.

Inductive ExecOutputStream := Stdout | Stderr.

Record ExecOutputApiRequest := {
  rq_operation_id : rstr;
  rq_cwd : rstr;
  rq_stream : ExecOutputStream;
  rq_offset : N;
  rq_max_bytes : option N;
  expected_sha256 : option rstr;
}.

Record ExecOutputApiResponse := {
  rs_operation_id : rstr;
  rs_revision : N;
  rs_stream : ExecOutputStream;
  rs_offset : N;
  next_offset : option N;
  rs_total_bytes : N;
  rs_stored_bytes : N;
  source_sha256 : rstr;
  capture_truncated : bool;
  complete_output : bool;
  encoding : rstr;
  rs_content : rstr;
}.

(** An open file: its metadata, what its reads give, its metadata afterwards. *)
Record FileMeta := { is_file : bool; file_len : N; file_modified : option N }.
Record OpenFile := { meta : result rstr FileMeta; chunks : list (result rstr (list N)); meta_after : result rstr FileMeta }.

Record OutputIo := {
  owned_directory : result rstr rstr;
  canonical_root : result rstr rstr;
  canonical_path : rstr -> result rstr rstr;
  open_file : rstr -> result rstr OpenFile;
}.

(** [bytes[a..b]]. *)
Definition sub (bytes : list N) (a b : N) : list N := take (N.to_nat (b - a)) (drop (N.to_nat a) bytes).

(** [Path::parent] of a canonical path. *)
Definition parent (path : rstr) : option rstr :=
  match rsplit_once (lit "/") path with
  | Some (dir, name) => if is_empty name then None else Some (if is_empty dir then lit "/" else dir)
  | None => None
  end.

(** [map_err] to an internal error. *)
Definition io {A} (r : result rstr A) (context : rstr) : result ApiError A :=
  match r with Ok a => Ok a | Err e => Err (internal (context ++ e)) end.

(** The loop over the chunks of a spill file; an empty chunk is its end. *)
Fixpoint read_chunks (chunks : list (result rstr (list N))) (stored offset length position : N) (bytes digest : list N)
    : result ApiError (N * list N * list N) :=
  match chunks with
  | [] => Ok (position, bytes, digest)
  | Err e :: _ => Err (internal e)
  | Ok [] :: _ => Ok (position, bytes, digest)
  | Ok buffer :: chunks =>
      let count := llen buffer in
      let end_ := position + count in
      if stored <? end_ then Err (internal (lit "captured output grew during retrieval"))
      else
        let start_in_chunk := N.min (sat_sub offset position) count in
        let end_in_chunk := N.min (sat_sub (offset + length) position) count in
        let bytes := if start_in_chunk <? end_in_chunk then bytes ++ sub buffer start_in_chunk end_in_chunk else bytes in
        read_chunks chunks stored offset length end_ bytes (digest ++ buffer)
  end.

Definition read_spill (fs : OutputIo) (id path : rstr) (stored offset length : N) : result ApiError (list N * list N) :=
  let name := id ++ lit ".output" in
  expected_directory ← io (owned_directory fs) (lit "owned output directory unavailable: ");
  root ← io (canonical_root fs) [];
  _ ← guard_err (negb (str_eqb expected_directory (path_join root name)))
        (internal (lit "operation output directory is not owned by this job"));
  canonical ← io (canonical_path fs path) (lit "captured output unavailable: ");
  _ ← guard_err (negb (bool_decide (parent canonical = Some expected_directory)))
        (internal (lit "captured output is outside its operation directory"));
  file ← io (open_file fs path) (lit "open captured output: ");
  metadata ← io (meta file) [];
  _ ← guard_err (negb (is_file metadata) || negb (file_len metadata =? stored))
        (internal (lit "captured output length does not match its receipt"));
  '(position, bytes, digest) ← read_chunks (chunks file) stored offset length 0 [] [];
  after ← io (meta_after file) [];
  _ ← guard_err (negb (position =? stored) || negb (llen bytes =? length) || negb (file_len after =? file_len metadata)
                 || negb (bool_decide (file_modified after = file_modified metadata)))
        (internal (lit "captured output changed during retrieval"));
  Ok (bytes, digest).

Section Output.
Context (sha256 hex : list N -> rstr).

(** The result whose output is asked for. *)
Definition captured_result (record : JobRecord) : result ApiError Exec.ExecutionResult :=
  let s := snapshot record in
  _ ← guard_err (bool_decide (state s = Running))
        (service (lit "execution_output_pending") (lit "wait for command completion before reading captured output") true);
  _ ← guard_err (match error s with Some e => str_eqb (er_code e) expired_code | None => false end)
        (gone expired_code
          (lit "captured output was reclaimed; this operation ID remains bound and will not execute again"));
  match outcome s with
  | Some (Exec.Completed result) | Some (Exec.ExecutedAccountingIncomplete result _) => Ok result
  | _ => Err (not_found (lit "execution_output_unavailable") (lit "this operation has no captured output"))
  end.

(** Bytes up to a character that the page cuts, when there is something before it. *)
Definition whole_characters (bytes : list N) : list N :=
  match Utf8.error_len (Utf8.decode bytes) with
  | Some None => if (0 <? Utf8.valid_up_to bytes)%nat then take (Utf8.valid_up_to bytes) bytes else bytes
  | _ => bytes
  end.

Definition page (fs : OutputIo) (req : ExecOutputApiRequest) (limit : N) (record : JobRecord)
    : result ApiError ExecOutputApiResponse :=
  result ← captured_result record;
  let stream := match rq_stream req with Stdout => Exec.stdout result | Stderr => Exec.stderr result end in
  let stored := Exec.stored_bytes stream in
  let offset := rq_offset req in
  _ ← guard_err (64 * 1024 * 1024 <? stored) (internal (lit "stored output exceeds the capture limit"));
  _ ← guard_err (stored <? offset) (bad_request (lit "offset exceeds captured output"));
  let length := N.min limit (stored - offset) in
  '(bytes, digest) ←
    match Exec.content stream with
    | Exec.Inline content =>
        _ ← guard_err (negb (llen content =? stored)) (internal (lit "inline output length does not match its receipt"));
        Ok (sub content offset (offset + length), content)
    | Exec.Spilled path => read_spill fs (rq_operation_id req) path stored offset length
    end;
  let source := sha256 digest in
  _ ← guard_err (negb (Exec.truncated stream) && negb (str_eqb source (Exec.sha256_hex stream))
                 || match expected_sha256 req with Some hash => negb (str_eqb hash source) | None => false end)
        (service (lit "execution_output_changed") (lit "captured output hash does not match the requested result") false);
  let bytes := whole_characters bytes in
  let next := offset + llen bytes in
  let '(encoding, content) :=
    match Utf8.from_utf8 bytes with Some text => (lit "utf8", text) | None => (lit "hex", hex bytes) end in
  Ok {| rs_operation_id := rq_operation_id req; rs_revision := revision (snapshot record); rs_stream := rq_stream req;
        rs_offset := offset; next_offset := if next <? stored then Some next else None;
        rs_total_bytes := Exec.total_bytes stream; rs_stored_bytes := stored; source_sha256 := source;
        capture_truncated := Exec.truncated stream;
        complete_output := (offset =? 0) && (next =? stored) && negb (Exec.truncated stream);
        encoding := encoding; rs_content := content |}.

Context (canonical_uuid : rstr -> bool) (record_len : JobRecord -> N).

Definition read_page (env : Env) (fs : OutputIo) (req : ExecOutputApiRequest) : M ExecOutputApiResponse :=
  let limit := default DEFAULT_BYTES (rq_max_bytes req) in
  _ ←' lift (guard_err (negb (between 1 MAX_BYTES limit)) (bad_request (lit "max_bytes must be between 1 and 262144")));
  record ←' scoped_record canonical_uuid record_len env
    {| job_operation_id := rq_operation_id req; job_cwd := rq_cwd req; wait_ms := None; after_revision := None;
       max_output_bytes := None |};
  lift (page fs req limit record).

(** ** Lemmas *)

(** A window of two pieces is what it shows of each. *)
Lemma sub_app a b o e : o <= e ->
  sub (a ++ b) o e = sub a o e ++ sub b (N.min (sat_sub o (llen a)) (llen b)) (N.min (sat_sub e (llen a)) (llen b)).
Proof.
  intros H. unfold sub, Exec.llen, sat_sub. rewrite drop_app, take_app, length_drop. f_equal.
  destruct (decide (N.to_nat o <= length a)%nat) as [Ho|Ho].
  - replace (N.to_nat o - length a)%nat with 0%nat by lia.
    replace (N.to_nat (N.min (o - N.of_nat (length a)) (N.of_nat (length b)))) with 0%nat by lia. rewrite !drop_0.
    destruct (decide (N.to_nat (e - N.of_nat (length a)) <= length b)%nat).
    + f_equal. lia.
    + rewrite !take_ge by lia. done.
  - destruct (decide (N.to_nat o - length a <= length b)%nat) as [Hb|Hb].
    + replace (N.to_nat (N.min (o - N.of_nat (length a)) (N.of_nat (length b)))) with (N.to_nat o - length a)%nat by lia.
      destruct (decide (N.to_nat e - length a <= length b)%nat).
      * f_equal. lia.
      * rewrite !take_ge; [done| |]; rewrite length_drop; lia.
    + rewrite !drop_ge by lia. by rewrite !take_nil.
Qed.

Lemma sub_nil a o e : e <= o -> sub a o e = [].
Proof. intros H. unfold sub. replace (N.to_nat (e - o)) with 0%nat by lia. done. Qed.

Lemma llen_sub a o e : llen (sub a o e) = N.min (e - o) (llen a - o).
Proof. unfold sub, Exec.llen. rewrite length_take, length_drop. lia. Qed.

(** A shorter window. *)
Lemma take_sub a o e n : (n <= length (sub a o e))%nat -> take n (sub a o e) = sub a o (o + N.of_nat n).
Proof.
  intros H. pose proof (llen_sub a o e) as Hl. unfold Exec.llen in Hl. unfold sub. rewrite take_take. f_equal. lia.
Qed.

(** What the chunks hold up to their end; [None] when one cannot be read. *)
Fixpoint read_all (chunks : list (result rstr (list N))) : option (list N) :=
  match chunks with
  | [] | Ok [] :: _ => Some []
  | Err _ :: _ => None
  | Ok bytes :: chunks => rest ← read_all chunks; Some (bytes ++ rest)
  end.

(** The window that the loop over the chunks collects. *)
Lemma read_chunks_window chunks stored o n : forall digest r,
  read_chunks chunks stored o n (llen digest) (sub digest o (o + n)) digest = Ok r ->
  exists all, read_all chunks = Some all /\
    r = (llen (digest ++ all), sub (digest ++ all) o (o + n), digest ++ all).
Proof.
  induction chunks as [|[ [|x buffer]|e] chunks IH]; intros digest r; cbn [read_chunks read_all].
  - intros [= <-]. exists []. by rewrite app_nil_r.
  - intros [= <-]. exists []. by rewrite app_nil_r.
  - remember (x :: buffer) as b eqn:Hb. destruct (stored <? _); [done|]. intros H.
    assert (sub (digest ++ b) o (o + n) = (if N.min (sat_sub o (llen digest)) (llen b) <? N.min (sat_sub (o + n) (llen digest)) (llen b)
      then sub digest o (o + n) ++ sub b (N.min (sat_sub o (llen digest)) (llen b)) (N.min (sat_sub (o + n) (llen digest)) (llen b))
      else sub digest o (o + n))) as E.
    { rewrite sub_app by lia. destruct (_ <? _) eqn:E; [done|]. rewrite (sub_nil b) by lia. by rewrite app_nil_r. }
    rewrite <- E in H. rewrite <- Exec.llen_app in H. apply IH in H as (all & Ha & ->).
    exists (b ++ all). rewrite Ha, !app_assoc. done.
  - done.
Qed.

Lemma read_chunks_start chunks stored o n r : read_chunks chunks stored o n 0 [] [] = Ok r ->
  exists all, read_all chunks = Some all /\ r = (llen all, sub all o (o + n), all).
Proof.
  assert (sub [] o (o + n) = []) as E by (unfold sub; by rewrite drop_nil, take_nil).
  pose proof (read_chunks_window chunks stored o n [] r) as H. by rewrite E in H.
Qed.

Lemma read_chunks_reads chunks stored o n all : read_all chunks = Some all -> forall digest bytes,
  llen (digest ++ all) <= stored -> exists r, read_chunks chunks stored o n (llen digest) bytes digest = Ok r.
Proof.
  revert all. induction chunks as [|[ [|x buffer]|e] chunks IH]; intros all; cbn [read_all read_chunks]; [eauto | eauto | | done].
  remember (x :: buffer) as b eqn:Hb. destruct (read_all chunks) as [rest|] eqn:E; [|done]. intros [= <-] digest bytes Hle.
  rewrite app_assoc in Hle. pose proof Hle as Hle'. rewrite Exec.llen_app in Hle'.
  rewrite <- Exec.llen_app. replace (stored <? llen (digest ++ b)) with false by lia. by apply (IH rest).
Qed.

Lemma read_spill_Ok fs id path stored o n bytes digest :
  read_spill fs id path stored o n = Ok (bytes, digest) ->
  llen digest = stored /\ bytes = sub digest o (o + n) /\
  exists file, open_file fs path = Ok file /\ read_all (chunks file) = Some digest.
Proof.
  unfold read_spill. intros H. inv_ok.
  match goal with H : read_chunks _ _ _ _ _ _ _ = Ok _ |- _ =>
    apply read_chunks_start in H as (all & Hall & ->) end.
  simpl in *. inv_ok. bool_prop. split_and!; [lia | done |].
  match goal with H : io (open_file fs path) _ = Ok ?f |- _ =>
    exists f; split; [by destruct (open_file fs path); [injection H as ->|] | done] end.
Qed.

(** A page drops the end of a character that it cuts, and never everything. *)
Lemma whole_characters_prefix bytes : exists n,
  whole_characters bytes = take n bytes /\ (n <= length bytes)%nat /\ (bytes <> [] -> (0 < n)%nat).
Proof.
  assert (exists n, bytes = take n bytes /\ (n <= length bytes)%nat /\ (bytes <> [] -> (0 < n)%nat)) as Hall.
  { exists (length bytes). rewrite take_ge by lia. split_and!; [done | lia |]. by destruct bytes; [|cbn; lia]. }
  unfold whole_characters. destruct (Utf8.error_len _) as [ [k|]|]; [exact Hall | | exact Hall].
  destruct (0 <? Utf8.valid_up_to bytes)%nat eqn:E; [|exact Hall]. exists (Utf8.valid_up_to bytes).
  split_and!; [done | | lia]. unfold Utf8.valid_up_to. lia.
Qed.

(** The digits stand for the bytes. *)
Context (unhex : rstr -> list N) (Hhex : forall bytes, unhex (hex bytes) = bytes).

(** The bytes that a page shows. *)
Definition page_bytes (r : ExecOutputApiResponse) : list N :=
  if str_eqb (encoding r) (lit "utf8") then utf8 (rs_content r) else unhex (rs_content r).

Definition stream_of (req : ExecOutputApiRequest) (result : Exec.ExecutionResult) : Exec.CapturedStream :=
  match rq_stream req with Stdout => Exec.stdout result | Stderr => Exec.stderr result end.

(** What a page shows: a window of content that has the digest it names. *)
Record shows (fs : OutputIo) (req : ExecOutputApiRequest) (limit : N) (stream : Exec.CapturedStream) (digest : list N)
    (r : ExecOutputApiResponse) : Prop := {
  sh_stored : llen digest = Exec.stored_bytes stream;
  sh_inline : forall content, Exec.content stream = Exec.Inline content -> digest = content;
  sh_file : forall path, Exec.content stream = Exec.Spilled path ->
    exists file, open_file fs path = Ok file /\ read_all (chunks file) = Some digest;
  sh_source : source_sha256 r = sha256 digest;
  sh_hash : Exec.truncated stream = false -> sha256 digest = Exec.sha256_hex stream;
  sh_expected : forall hash, expected_sha256 req = Some hash -> hash = sha256 digest;
  sh_truncated : capture_truncated r = Exec.truncated stream;
  sh_window : page_bytes r = sub digest (rq_offset req) (rq_offset req + llen (page_bytes r));
  sh_limit : llen (page_bytes r) <= limit;
  sh_end : rq_offset req + llen (page_bytes r) <= llen digest;
  sh_progress : 0 < limit -> rq_offset req < llen digest -> 0 < llen (page_bytes r);
  sh_next : next_offset r =
    if rq_offset req + llen (page_bytes r) <? llen digest then Some (rq_offset req + llen (page_bytes r)) else None;
}.

Lemma output_page_Ok fs req limit record r : page fs req limit record = Ok r ->
  exists result digest, captured_result record = Ok result /\ shows fs req limit (stream_of req result) digest r.
Proof.
  unfold page. fold (stream_of req). intros H. apply bind_Ok in H as (result & Hres & H).
  change (match rq_stream req with Stdout => Exec.stdout result | Stderr => Exec.stderr result end)
    with (stream_of req result) in H.
  remember (stream_of req result) as stream eqn:Hstream. remember (rq_offset req) as o eqn:Ho.
  apply bind_Ok in H as (? & Hlimit & H). apply bind_Ok in H as (? & Hoff & H). inv_ok.
  set (len := N.min limit (Exec.stored_bytes stream - o)) in *.
  destruct x1 as [bytes digest].
  assert (llen digest = Exec.stored_bytes stream /\ bytes = sub digest o (o + len) /\
    (forall content, Exec.content stream = Exec.Inline content -> digest = content) /\
    (forall path, Exec.content stream = Exec.Spilled path ->
      exists file, open_file fs path = Ok file /\ read_all (chunks file) = Some digest)) as (Hlen & Hbytes & Hin & Hfile).
  { destruct (Exec.content stream) as [content|path]; inv_ok.
    - bool_prop. split_and!; [lia | done | by intros ? [= ->] | done].
    - match goal with H : read_spill _ _ _ _ _ _ = Ok _ |- _ => apply read_spill_Ok in H as (? & ? & ?) end.
      split_and!; [done | done | done | by intros ? [= <-] ]. }
  inv_ok. exists result, digest. split; [exact Hres|]. rewrite <- Hstream. bool_prop.
  destruct (whole_characters_prefix bytes) as (n & Hn & Hle & Hpos).
  set (shown := whole_characters bytes) in *.
  assert (page_bytes r = shown /\ source_sha256 r = sha256 digest /\ capture_truncated r = Exec.truncated stream /\
    next_offset r = if o + llen shown <? Exec.stored_bytes stream then Some (o + llen shown) else None) as (Hp & Hsrc & Htr & Hnext).
  { unfold page_bytes. destruct (Utf8.from_utf8 shown) as [text|] eqn:E; inv_ok; cbn [encoding rs_content].
    - apply Utf8.from_utf8_Some in E. by split_and!.
    - split_and!; [apply Hhex | done..]. }
  assert (llen bytes = len) as Hlb by (rewrite Hbytes, llen_sub; lia).
  assert (shown = sub digest o (o + llen shown)) as Hw.
  { rewrite Hn. rewrite Hbytes at 1. rewrite take_sub by (by rewrite <- Hbytes). unfold Exec.llen.
    rewrite length_take, Nat.min_l by done. done. }
  assert (llen shown <= llen bytes) as Hshort by (rewrite Hn; unfold Exec.llen; rewrite length_take; lia).
  split; rewrite ?Hp; subst o; try done.
  - intros Ht. unfold str_eqb in *. rewrite Ht in *. cbn [negb andb] in *. bool_prop. done.
  - intros hash Hh. rewrite Hh in *. unfold str_eqb in *. bool_prop. done.
  - lia.
  - lia.
  - intros Hl Ho. assert (bytes <> []) as Hne by (intros ->; unfold Exec.llen in Hlb; cbn in Hlb; lia).
    specialize (Hpos Hne). rewrite Hn. unfold Exec.llen. rewrite length_take. lia.
  - by rewrite Hlen.
Qed.

(** *** Fetching *)

(** The file system still holds a spill file as it was written, in the directory
    of the operation. *)
Definition serves (fs : OutputIo) (id path : rstr) (content : list N) : Prop :=
  exists root canonical file m m',
    canonical_root fs = Ok root /\ owned_directory fs = Ok (path_join root (id ++ lit ".output")) /\
    canonical_path fs path = Ok canonical /\ parent canonical = Some (path_join root (id ++ lit ".output")) /\
    open_file fs path = Ok file /\ meta file = Ok m /\ meta_after file = Ok m' /\
    is_file m = true /\ file_len m = llen content /\ file_len m' = llen content /\ file_modified m' = file_modified m /\
    read_all (chunks file) = Some content.

Lemma read_spill_serves fs id path content o n :
  serves fs id path content -> o + n <= llen content ->
  exists bytes, read_spill fs id path (llen content) o n = Ok (bytes, content).
Proof.
  intros (root & canonical & file & m & m' & H1 & H2 & H3 & H4 & H5 & H6 & H7 & H8 & H9 & H10 & H11 & H12) Hn.
  destruct (read_chunks_reads (chunks file) (llen content) o n content H12 [] []) as [r Hr]; [done|].
  change (llen []) with 0 in Hr. pose proof (read_chunks_start _ _ _ _ _ Hr) as (all & Ha & ->).
  rewrite H12 in Ha. injection Ha as <-.
  unfold read_spill, str_eqb, guard_err, mbind, result_bind. rewrite H2, H1. cbn [io]. rewrite bool_decide_true by done. cbn [negb].
  rewrite H3. cbn [io]. rewrite H4, bool_decide_true by done. cbn [negb]. rewrite H5. cbn [io]. rewrite H6. cbn [io].
  rewrite H8, H9, N.eqb_refl. cbn [negb orb]. rewrite Hr, H7. cbn [io]. rewrite H10, H11, bool_decide_true, !N.eqb_refl by done.
  rewrite llen_sub. replace (N.min (o + n - o) (llen content - o) =? n) with true by lia. cbn [negb orb]. eauto.
Qed.

(** The captured content can be had. *)
Record available (fs : OutputIo) (id : rstr) (stream : Exec.CapturedStream) (content : list N) : Prop := {
  av_content : match Exec.content stream with Exec.Inline b => b = content | Exec.Spilled path => serves fs id path content end;
  av_stored : Exec.stored_bytes stream = llen content;
  av_limit : llen content <= 64 * 1024 * 1024;
  av_hash : Exec.truncated stream = false -> Exec.sha256_hex stream = sha256 content;
}.

Lemma page_succeeds fs req limit record result content :
  captured_result record = Ok result -> available fs (rq_operation_id req) (stream_of req result) content ->
  rq_offset req <= llen content -> (forall hash, expected_sha256 req = Some hash -> hash = sha256 content) ->
  exists r, page fs req limit record = Ok r /\ shows fs req limit (stream_of req result) content r.
Proof.
  intros Hres [Hcontent Hstored Hlim Hhash] Ho Hexp.
  enough (exists r, page fs req limit record = Ok r) as [r Hr].
  { exists r. split; [exact Hr|]. apply output_page_Ok in Hr as (result' & digest & Hres' & Hs). rewrite Hres in Hres'.
    injection Hres' as <-. replace content with digest; [exact Hs|]. destruct (Exec.content _) as [b|path] eqn:E.
    - rewrite (sh_inline _ _ _ _ _ _ Hs _ E). done.
    - destruct (sh_file _ _ _ _ _ _ Hs _ E) as (file & Hf & Hall).
      destruct Hcontent as (? & ? & file' & ? & ? & _ & _ & _ & _ & Hf' & _ & _ & _ & _ & _ & _ & Hall').
      congruence. }
  unfold page. rewrite Hres. unfold guard_err, mbind, result_bind, str_eqb. fold (stream_of req result).
  change (match rq_stream req with Stdout => Exec.stdout result | Stderr => Exec.stderr result end) with (stream_of req result).
  rewrite Hstored. rewrite (proj2 (N.ltb_ge _ _)) by done. rewrite (proj2 (N.ltb_ge _ _)) by done.
  set (n := N.min limit (llen content - rq_offset req)).
  assert (exists bytes, match Exec.content (stream_of req result) with
      | Exec.Inline c => if negb (llen c =? llen content) then Err (internal (lit "inline output length does not match its receipt"))
                         else Ok (sub c (rq_offset req) (rq_offset req + n), c)
      | Exec.Spilled path => read_spill fs (rq_operation_id req) path (llen content) (rq_offset req) n
      end = Ok (bytes, content)) as [bytes Hbytes].
  { destruct (Exec.content (stream_of req result)) as [b|path].
    - subst b. rewrite N.eqb_refl. cbn [negb]. eauto.
    - apply read_spill_serves; [exact Hcontent|]. unfold n. lia. }
  assert (negb (Exec.truncated (stream_of req result)) && negb (bool_decide (sha256 content = Exec.sha256_hex (stream_of req result)))
    || match expected_sha256 req with Some hash => negb (bool_decide (hash = sha256 content)) | None => false end = false) as Hok.
  { apply orb_false_iff. split.
    - destruct (Exec.truncated _) eqn:Et; [done|]. by rewrite Hhash, bool_decide_true by done.
    - destruct (expected_sha256 req) as [h|]; [|done]. by rewrite (Hexp h eq_refl), bool_decide_true by done. }
  destruct (Exec.content (stream_of req result)) as [b|path]; rewrite ?Hbytes.
  - destruct (negb _); [done|]. injection Hbytes as -> ->. rewrite Hok. destruct (Utf8.from_utf8 _); eauto.
  - rewrite Hok. destruct (Utf8.from_utf8 _); eauto.
Qed.

(** A client that asks for the page behind each page: [sizes] and [fs] are what it
    asks for and what it meets at each offset. *)
Definition at_offset (req : ExecOutputApiRequest) (sizes : N -> option N) (offset : N) : ExecOutputApiRequest :=
  {| rq_operation_id := rq_operation_id req; rq_cwd := rq_cwd req; rq_stream := rq_stream req; rq_offset := offset;
     rq_max_bytes := sizes offset; expected_sha256 := expected_sha256 req |}.

Fixpoint fetch (fuel : nat) (env : Env) (fs : N -> OutputIo) (sizes : N -> option N) (req : ExecOutputApiRequest)
    (offset : N) (st : State) : option (result ApiError (list ExecOutputApiResponse)) :=
  match fuel with
  | O => None
  | S fuel =>
      match read_page env (fs offset) (at_offset req sizes offset) st with
      | (Err e, _) => Some (Err e)
      | (Ok r, st) =>
          match next_offset r with
          | None => Some (Ok [r])
          | Some next =>
              match fetch fuel env fs sizes req next st with
              | Some (Ok rs) => Some (Ok (r :: rs))
              | answer => answer
              end
          end
      end
  end.

(** The request a page resolves its record with. *)
Definition job_of (req : ExecOutputApiRequest) : ExecJobApiRequest :=
  {| job_operation_id := rq_operation_id req; job_cwd := rq_cwd req; wait_ms := None; after_revision := None;
     max_output_bytes := None |}.

Lemma read_page_record env fs req st record :
  between 1 MAX_BYTES (default DEFAULT_BYTES (rq_max_bytes req)) = true ->
  scoped_record canonical_uuid record_len env (job_of req) st = (Ok record, st) ->
  read_page env fs req st = (page fs req (default DEFAULT_BYTES (rq_max_bytes req)) record, st).
Proof.
  intros Hl Hs. unfold read_page, bind, lift. rewrite Hl. cbn [negb guard_err]. unfold job_of in Hs. by rewrite Hs.
Qed.

Lemma fetch_window env fs sizes req st record result content :
  scoped_record canonical_uuid record_len env (job_of req) st = (Ok record, st) -> captured_result record = Ok result ->
  (forall o, between 1 MAX_BYTES (default DEFAULT_BYTES (sizes o)) = true) ->
  (forall o, available (fs o) (rq_operation_id req) (stream_of req result) content) ->
  (forall hash, expected_sha256 req = Some hash -> hash = sha256 content) ->
  forall fuel offset, offset <= llen content -> (length content - N.to_nat offset < fuel)%nat ->
  exists pages, fetch fuel env fs sizes req offset st = Some (Ok pages) /\
    concat (map page_bytes pages) = drop (N.to_nat offset) content /\
    Forall (fun r => source_sha256 r = sha256 content /\ capture_truncated r = Exec.truncated (stream_of req result)) pages.
Proof.
  intros Hrec Hres Hsizes Hav Hexp. induction fuel as [|fuel IH]; intros o Ho Hf; [lia|]. cbn [fetch].
  rewrite (read_page_record env (fs o) (at_offset req sizes o) st record (Hsizes o) Hrec).
  destruct (page_succeeds (fs o) (at_offset req sizes o) (default DEFAULT_BYTES (rq_max_bytes (at_offset req sizes o))) record
              result content Hres (Hav o) Ho Hexp) as (r & -> & Hs). pose proof (Hsizes o) as Hlim.
  change (rq_max_bytes (at_offset req sizes o)) with (sizes o) in Hs.
  destruct Hs as [_ _ _ Hsrc _ _ Htr Hwin Hle Hend Hpos Hnext]. cbn [rq_offset at_offset] in *.
  remember (llen (page_bytes r)) as n eqn:Hn.
  assert (drop (N.to_nat o) content = page_bytes r ++ drop (N.to_nat (o + n)) content) as Hsplit.
  { rewrite Hwin. unfold sub. replace (N.to_nat (o + n)) with (N.to_nat o + N.to_nat n)%nat by lia. rewrite <- drop_drop.
    replace (o + n - o) with n by lia. by rewrite take_drop. }
  rewrite Hnext. destruct (N.ltb_spec (o + n) (llen content)) as [Hlt|Hge].
  - assert (0 < n) as Hn0 by (apply Hpos; unfold between in Hlim; lia).
    destruct (IH (o + n)) as (pages & -> & Hcat & Hall); [lia | unfold Exec.llen in *; lia |].
    exists (r :: pages). split_and!; [done | by cbn; rewrite Hcat, Hsplit | by constructor].
  - exists [r]. split_and!; [done | | by constructor]. cbn. rewrite app_nil_r, Hsplit, (drop_ge content); [by rewrite app_nil_r|].
    unfold Exec.llen in *. lia.
Qed.

(** ** Properties *)

(** C16: What a command wrote is what a client reads back: whatever the pieces in
    which the output was captured and wherever it was kept, following the pages
    of the stream from its start, with any page sizes, ends, and the pages put
    together are exactly the captured bytes, each page naming their digest. *)
Theorem captured_output_is_delivered env fs sizes req st record result c s reads flush captured file :
  Exec.capture_stream sha256 c s reads flush = Ok (captured, file) ->
  Exec.storage_limit c <= 64 * 1024 * 1024 -> llen (Exec.delivered reads) <= u64_max ->
  scoped_record canonical_uuid record_len env (job_of req) st = (Ok record, st) -> captured_result record = Ok result ->
  stream_of req result = captured -> expected_sha256 req = None ->
  (forall o, between 1 MAX_BYTES (default DEFAULT_BYTES (sizes o)) = true) ->
  (forall o path content, Exec.content captured = Exec.Spilled path -> file = Some content ->
    serves (fs o) (rq_operation_id req) path content) ->
  let kept := take (N.to_nat (Exec.storage_limit c)) (Exec.delivered reads) in
  exists pages, fetch (S (length kept)) env fs sizes req 0 st = Some (Ok pages) /\
    concat (map page_bytes pages) = kept /\
    Forall (fun r => source_sha256 r = sha256 kept /\
      capture_truncated r = (Exec.storage_limit c <? llen (Exec.delivered reads))) pages.
Proof.
  intros Hcap Hlim Hall Hrec Hres Hstream Hexp Hsizes Hserves kept.
  destruct (Exec.capture_keeps_a_prefix sha256 c s reads flush captured file) as (Hcon & _ & Hst & Hsha & Htr & _);
    [unfold u64_max; lia | done | done |]. fold kept in Hcon, Hst.
  assert (forall o, available (fs o) (rq_operation_id req) (stream_of req result) kept) as Hav.
  { intros o. rewrite Hstream. split.
    - destruct (Exec.content captured) as [b|path] eqn:E; [by destruct Hcon as [-> _]|].
      destruct Hcon as [-> _]. by apply (Hserves o path).
    - exact Hst.
    - unfold kept. rewrite Exec.llen_take. lia.
    - rewrite Htr, Hsha. intros Hle. f_equal. unfold kept. rewrite take_ge; [done|]. unfold Exec.llen in Hle. lia. }
  destruct (fetch_window env fs sizes req st record result kept Hrec Hres Hsizes Hav) with (fuel := S (length kept)) (offset := 0)
    as (pages & H1 & H2 & H3); [by rewrite Hexp | lia | lia |].
  exists pages. rewrite Hstream, Htr in H3. by split_and!.
Qed.

(** A page never shows other content than it names: the bytes of an answered
    page are a window, at the offset asked for and not larger, of content that
    has the digest in the answer and, unless the capture was cut, in the receipt;
    the content is the one kept in memory or in the spill file, the digest the
    client expected is that one, and only at the end of the content is a page
    empty or the last. *)
Theorem pages_show_what_they_name env fs req st r st' :
  read_page env fs req st = (Ok r, st') ->
  st' = st /\
  exists record result digest, read_record canonical_uuid record_len env st (rq_operation_id req) = Ok record /\
    captured_result record = Ok result /\
    shows fs req (default DEFAULT_BYTES (rq_max_bytes req)) (stream_of req result) digest r.
Proof.
  intros H. unfold read_page, bind, lift in H. destruct (guard_err _ _); [|done]. fold (job_of req) in H.
  destruct (scoped_record _ _ _ _ st) as [ [record|] st1] eqn:E; [|done]. apply scoped_record_Ok in E as [-> E].
  destruct (page _ _ _ record) as [r'|] eqn:Ep; [|done]. injection H as <- <-. split; [done|].
  apply output_page_Ok in Ep as (result & digest & H1 & H2). by exists record, result, digest.
Qed.
End Output.

(** *** A capture that spilled, read back in pages of three bytes *)

Definition sample_captured : Exec.CapturedStream :=
  {| Exec.content := Exec.Spilled (lit "/tmp/op.output/hzr-exec-1-stdout.bin"); Exec.total_bytes := 11;
     Exec.stored_bytes := 8; Exec.sha256_hex := lit "hello world"; Exec.truncated := true; Exec.dropped_event_bytes := 6 |}.
Definition sample_result : Exec.ExecutionResult :=
  {| Exec.requested := Exec.shell (lit "make"); Exec.executed := Exec.shell (lit "make");
     Exec.decision := Exec.AllowRaw (lit "ok"); Exec.raw_fallback := false; Exec.stdout := sample_captured;
     Exec.stderr := sample_captured;
     Exec.termination := {| Exec.cause := Exec.Exited; Exec.exit_code := Some 0%Z; Exec.signal := None |};
     Exec.duration_ms := 1 |}.
Definition sample_record : JobRecord :=
  advance (record_of_start (lit "/w") [] (lit "op")) Completed 2 (Some (Exec.Completed sample_result)) None.
Definition sample_state : State :=
  set_files sample_store {[ lit "op" := {| file_record := Some sample_record; file_size := 9; modified := 7 |} ]}.
Definition sample_meta : FileMeta := {| is_file := true; file_len := 8; file_modified := Some 7 |}.
Definition sample_fs (_ : N) : OutputIo :=
  {| owned_directory := Ok (lit "/tmp/op.output"); canonical_root := Ok (lit "/tmp"); canonical_path := Ok;
     open_file := fun _ => Ok {| meta := Ok sample_meta; chunks := [Ok (lit "hello"); Ok (lit " wo")]; meta_after := Ok sample_meta |} |}.
Definition sample_request : ExecOutputApiRequest :=
  {| rq_operation_id := lit "op"; rq_cwd := lit "."; rq_stream := Stdout; rq_offset := 0; rq_max_bytes := Some 3;
     expected_sha256 := None |}.
Definition same (l : list N) : list N := l.

Lemma captured_output_is_delivered_witness :
  exists pages, fetch same same uuid rlen 9 sample_env sample_fs (fun _ => Some 3) sample_request 0 sample_state = Some (Ok pages) /\
    concat (map (page_bytes same) pages) = lit "hello wo".
Proof.
  destruct (captured_output_is_delivered same same uuid rlen same (fun _ => eq_refl) sample_env sample_fs (fun _ => Some 3)
              sample_request sample_state sample_record sample_result Exec.sample_config Exec.Stdout Exec.sample_reads None
              sample_captured (Some (lit "hello wo"))) as (pages & H1 & H2 & _).
  - by vm_compute.
  - by vm_compute.
  - by vm_compute.
  - by vm_compute.
  - done.
  - done.
  - done.
  - done.
  - intros o path content [= <-] [= <-]. unfold serves.
    exists (lit "/tmp"), (lit "/tmp/op.output/hzr-exec-1-stdout.bin"). eexists _, sample_meta, sample_meta.
    do 11 (split; [by vm_compute|]). by vm_compute.
  - exists pages. split; [exact H1 | exact H2].
Defined.

Lemma pages_show_what_they_name_witness :
  exists r st', read_page same same uuid rlen sample_env (sample_fs 0) sample_request sample_state = (Ok r, st') /\ st' = sample_state.
Proof.
  destruct (read_page same same uuid rlen sample_env (sample_fs 0) sample_request sample_state) as [a st'] eqn:E.
  pose proof (f_equal fst E) as E1. vm_compute in E1. destruct a as [r|]; [|done]. exists r, st'. split; [done|].
  exact (proj1 (pages_show_what_they_name same same uuid rlen same (fun _ => eq_refl) sample_env (sample_fs 0) sample_request
                  sample_state r st' E)).
Defined.

End ExecOutput.
