(* ===== verification/Codec.v ===== *)
(** The response codec ([crates/hzr-codec/src/lib.rs]): repeated paragraphs are
    dropped from text whose fidelity allows it, when every protected value keeps
    its number of occurrences.

    The regex crate is a parameter: [find_iter] lists the matches of the
    protected-span expression, none of which is empty. *)

From S2P Require Import Prelude RStr.
From Stdlib Require Import SpecFloat.

Module Codec.

Inductive Density := Normal | Concise | DenseStructured.

Definition contract (self : Density) : rstr :=
  match self with
  | Normal =>
      lit "Answer at the detail level required for correctness. Preserve code, commands, paths, identifiers, errors, numbers, caveats, and causality."
  | Concise =>
      lit "Be concise. Lead with the result. Omit greetings, request restatement, tool recap, and unchosen alternatives. Preserve evidence, caveats, and exact technical artifacts."
  | DenseStructured =>
      lit "Return dense structured fields: status, evidence, changed_files, verification, risks, next_action. Preserve exact code, commands, paths, identifiers, errors, and numbers."
  end.

(** ** The economics, in double precision *)

Abbreviation f64 := spec_float (only parsing).
Definition f64_add : f64 -> f64 -> f64 := SFadd 53 1024.
Definition f64_sub : f64 -> f64 -> f64 := SFsub 53 1024.
Definition f64_mul : f64 -> f64 -> f64 := SFmul 53 1024.
Definition f64_div : f64 -> f64 -> f64 := SFdiv 53 1024.
Definition f64_of (n : N) : f64 := binary_normalize 53 1024 (Z.of_N n) 0 false.

Record EconomicInput := {
  expected_input_saved : N;
  expected_output_saved : N;
  added_instruction_tokens : N;
  input_price_per_million : f64;
  output_price_per_million : f64;
  retry_probability_delta : f64;
  expected_retry_cost : f64;
  minimum_margin : f64;
}.

Definition expected_value (self : EconomicInput) : f64 :=
  let cost tokens price := f64_div (f64_mul (f64_of tokens) price) (f64_of 1000000) in
  let input := cost (expected_input_saved self) (input_price_per_million self) in
  let output := cost (expected_output_saved self) (output_price_per_million self) in
  let overhead := cost (added_instruction_tokens self) (input_price_per_million self) in
  f64_sub (f64_sub (f64_add input output) overhead) (f64_mul (retry_probability_delta self) (expected_retry_cost self)).

Definition is_profitable (self : EconomicInput) : bool := SFltb (minimum_margin self) (expected_value self).

(** ** Types *)

Inductive FidelityClass := Exact | LosslessStructural | Semantic | Summary.
Inductive RiskClass := Low | Medium | High | Irreversible.
Inductive CodecProfile := Off | Safe | Adaptive | Compact | Shadow.
Inductive ResponseCodecCoverageState := Applied | ShadowMeasured | Instructed | Unavailable.

#[export] Instance FidelityClass_eq_dec : EqDecision FidelityClass.
Proof. solve_decision. Defined.
#[export] Instance CodecProfile_eq_dec : EqDecision CodecProfile.
Proof. solve_decision. Defined.

Record ProtectedSpan := { start : N; end_ : N; kind : rstr }.

Record CounterfactualSize := { input_bytes : N; output_bytes : N; saved_bytes : N; would_change : bool }.

Record Transform := {
  content : rstr;
  changed : bool;
  profile : CodecProfile;
  protected_spans_ : list ProtectedSpan;
  counterfactual : option CounterfactualSize;
  coverage_state : ResponseCodecCoverageState;
  global_response_replacement_confirmed : bool;
  estimated_token_credit_eligible : bool;
}.

Inductive CodecError := ProtectedContentChanged.

Definition is_risky (risk : RiskClass) : bool := match risk with High | Irreversible => true | Low | Medium => false end.

Definition choose_density (profile : CodecProfile) (risk : RiskClass) (expected_output_tokens : N) (profitable : bool) : Density :=
  if is_risky risk then Normal
  else match profile with
       | Off | Shadow => Normal
       | Safe => Concise
       | Adaptive => if profitable && (600 <=? expected_output_tokens) then Concise else Normal
       | Compact => if 300 <=? expected_output_tokens then DenseStructured else Normal
       end.

Definition tick : rstr := [96].

Definition classify (value : rstr) : rstr :=
  if starts_with (tick ++ tick ++ tick) value || starts_with (lit "~~~") value || starts_with tick value then lit "code"
  else if starts_with (lit "http") value then lit "url"
  else if starts_with (lit "-") (trim_start value) then lit "flag"
  else if contains_char (ch "/") value then lit "path"
  else if starts_with (lit "{") value || starts_with (lit "[") value then lit "structured"
  else if contains_char (ch "_") value
          && forallb (fun c => is_ascii_uppercase c || is_ascii_digit c || (c =? ch "_")) value then lit "enum"
  else if contains_char (ch "_") value then lit "identifier"
  else lit "literal".

(** ** Dropping repeated paragraphs *)

Definition blank_line : rstr := [10; 10].

Definition trailing_newlines (s : rstr) : nat := length s - length (trim_end_matches (N.eqb 10) s).

(** [filter(|paragraph| seen.insert(paragraph.trim()))]. *)
Fixpoint first_paragraphs (seen : list rstr) (paragraphs : list rstr) : list rstr :=
  match paragraphs with
  | [] => []
  | p :: paragraphs =>
      if one_of (trim p) seen then first_paragraphs seen paragraphs
      else p :: first_paragraphs (trim p :: seen) paragraphs
  end.

Definition deduplicate_paragraphs (input : rstr) : rstr :=
  let output := join blank_line (first_paragraphs [] (split_str blank_line input)) in
  output ++ replicate (trailing_newlines input - trailing_newlines output) 10.

Record Match := { match_start : N; match_text : rstr }.

Section Codec.
Context (find_iter : rstr -> list Match).

Definition protected_spans (input : rstr) : list ProtectedSpan :=
  map (fun m => {| start := match_start m; end_ := match_start m + slen (match_text m); kind := classify (match_text m) |})
      (find_iter input).

Definition protected_values (input : rstr) : list rstr := map match_text (find_iter input).

Definition validate_protected (original transformed : rstr) : result CodecError unit :=
  if forallb (fun value => count_matches value transformed =? count_matches value original)%nat (protected_values original)
  then Ok tt else Err ProtectedContentChanged.

Definition candidate_transform (input : rstr) (fidelity : FidelityClass) : rstr :=
  if bool_decide (fidelity = Exact) then input
  else
    let candidate := deduplicate_paragraphs input in
    match validate_protected input candidate with Ok _ => candidate | Err _ => input end.

Definition transform (input : rstr) (fidelity : FidelityClass) (profile : CodecProfile) : result CodecError Transform :=
  let spans := protected_spans input in
  if bool_decide (profile = Shadow) then
    let candidate := candidate_transform input fidelity in
    Ok {| content := input; changed := false; profile := profile; protected_spans_ := spans;
          counterfactual := Some {| input_bytes := slen input; output_bytes := slen candidate;
                                    saved_bytes := sat_sub (slen input) (slen candidate);
                                    would_change := negb (str_eqb candidate input) |};
          coverage_state := ShadowMeasured; global_response_replacement_confirmed := false;
          estimated_token_credit_eligible := false |}
  else if bool_decide (fidelity = Exact) || bool_decide (profile = Off) then
    Ok {| content := input; changed := false; profile := profile; protected_spans_ := spans; counterfactual := None;
          coverage_state := Applied; global_response_replacement_confirmed := false;
          estimated_token_credit_eligible := false |}
  else
    let content := candidate_transform input fidelity in
    let changed := negb (str_eqb content input) in
    Ok {| content := content; changed := changed; profile := profile; protected_spans_ := spans; counterfactual := None;
          coverage_state := Applied; global_response_replacement_confirmed := false;
          estimated_token_credit_eligible := changed |}.

Definition transform_for_risk (input : rstr) (fidelity : FidelityClass) (profile : CodecProfile) (risk : RiskClass)
    : result CodecError Transform :=
  transform input (if is_risky risk then Exact else fidelity) profile.

Definition compact_catalog_description (input : rstr) : result CodecError Transform :=
  transform input LosslessStructural Safe.
End Codec.

(** ** The paragraphs of a text *)

(** What a reader takes for its paragraphs: the pieces between blank lines,
    without white space around them, except the empty ones. *)
Definition nonblank (texts : list rstr) : list rstr := List.filter (fun t => negb (is_empty t)) texts.

Definition paragraphs (s : rstr) : list rstr := nonblank (map trim (split_str blank_line s)).

(** The first of each. *)
Fixpoint first_of_each (texts : list rstr) : list rstr :=
  match texts with
  | [] => []
  | t :: texts => t :: List.filter (fun u => negb (str_eqb t u)) (first_of_each texts)
  end.

(** *** White space at the end *)

Lemma trim_newline s : trim (s ++ [10]) = trim s.
Proof.
  assert (forall t, trim_end (t ++ [10]) = trim_end t) as He.
  { intros t. unfold trim_end, trim_end_matches. by rewrite reverse_app. }
  unfold trim, trim_start. rewrite skip_while_app. destruct (skip_while is_whitespace s) as [|c r]; [done|]. apply He.
Qed.

Lemma paragraphs_eq s : paragraphs s =
  match split_once blank_line s with
  | Some (a, b) => nonblank [trim a] ++ paragraphs b
  | None => nonblank [trim s]
  end.
Proof.
  unfold paragraphs at 1. rewrite split_str_eq by done. destruct (split_once blank_line s) as [ [a b]|]; [|done].
  cbn [map]. unfold nonblank. cbn [List.filter]. by destruct (negb _).
Qed.

Lemma no_blank_line s : split_once blank_line s = None -> forall a b, s <> a ++ blank_line ++ b.
Proof. intros H a b ->. destruct (split_once_complete blank_line a b) as [x Hx]. congruence. Qed.

Lemma paragraphs_newline s : paragraphs (s ++ [10]) = paragraphs s.
Proof.
  remember (length s) as n eqn:Hn. revert s Hn. induction (lt_wf n) as [n _ IH]. intros s ->.
  rewrite (paragraphs_eq s). destruct (split_once blank_line s) as [ [a b]|] eqn:E.
  - rewrite paragraphs_eq, (split_once_app _ _ _ _ [10] E). f_equal.
    apply (IH (length b)); [|done]. by apply split_once_shorter in E.
  - rewrite paragraphs_eq. destruct (split_once blank_line (s ++ [10])) as [ [a b]|] eqn:E2; [|by rewrite trim_newline].
    apply split_once_Some in E2. destruct b as [|x b] using rev_ind.
    + rewrite app_nil_r in E2. change blank_line with ([10] ++ [10]) in E2. rewrite app_assoc in E2.
      apply app_inj_tail in E2 as [-> _]. rewrite trim_newline. cbn. by rewrite app_nil_r.
    + rewrite !app_assoc in E2. apply app_inj_tail in E2 as [-> _]. rewrite <- app_assoc in E.
      by destruct (no_blank_line _ E a b).
Qed.

Lemma paragraphs_newlines k : forall s, paragraphs (s ++ replicate k 10) = paragraphs s.
Proof.
  induction k as [|k IH]; intros s; [by rewrite app_nil_r|]. cbn [replicate].
  replace (s ++ 10 :: replicate k 10) with ((s ++ [10]) ++ replicate k 10) by (by rewrite <- app_assoc).
  by rewrite IH, paragraphs_newline.
Qed.

(** *** Pieces *)

(** A piece that a blank line behind it ends. *)
Definition leads (a : rstr) : Prop := forall r, split_once blank_line (a ++ blank_line ++ r) = Some (a, r).

Lemma split_leads s a b : split_once blank_line s = Some (a, b) -> leads a.
Proof.
  intros H r. pose proof (split_once_Some _ _ _ _ H) as ->. revert H.
  induction a as [|c a IH]; intros H; [done|]. cbn [app split_once] in *.
  assert (forall r, strip_prefix blank_line (c :: a ++ blank_line ++ r) = None) as Hn.
  { intros r'. destruct (strip_prefix blank_line (c :: a ++ blank_line ++ b)) eqn:E; [done|]. revert E.
    unfold blank_line. cbn [strip_prefix]. destruct (10 =? c); [|done]. destruct a as [|d a]; cbn [app]; [done|].
    by destruct (10 =? d). }
  rewrite Hn in *. destruct (split_once blank_line (a ++ blank_line ++ b)) as [ [x y]|] eqn:E; [|done].
  injection H as -> ->. by rewrite (IH eq_refl).
Qed.

Lemma leads_whole a : leads a -> split_once blank_line a = None.
Proof.
  intros H. destruct (split_once blank_line a) as [ [x y]|] eqn:E; [|done].
  pose proof (split_once_app _ _ _ _ (blank_line ++ []) E) as E'. rewrite H in E'. injection E' as Hx _. subst x.
  apply split_once_Some in E. apply (f_equal length) in E. rewrite !length_app in E. cbn in E. lia.
Qed.

Lemma split_pieces s : exists init l, split_str blank_line s = init ++ [l] /\ Forall leads init /\ split_once blank_line l = None.
Proof.
  remember (length s) as n eqn:Hn. revert s Hn. induction (lt_wf n) as [n _ IH]. intros s ->. rewrite split_str_eq by done.
  destruct (split_once blank_line s) as [ [a b]|] eqn:E; [|by exists [], s].
  destruct (IH (length b)) with (s := b) as (init & l & -> & Hi & Hl); [by apply split_once_shorter in E | done |].
  exists (a :: init), l. split_and!; [done | constructor; [by eapply split_leads | done] | done].
Qed.

Lemma split_pieces_join init l : Forall leads init -> split_once blank_line l = None ->
  split_str blank_line (join blank_line (init ++ [l])) = init ++ [l].
Proof.
  intros Hi Hl. induction Hi as [|a init Ha Hi IH]; cbn [app join]; [by rewrite split_str_eq, Hl by done|].
  destruct (init ++ [l]) as [|w ws] eqn:E; [by destruct init|]. rewrite <- E in *. rewrite split_str_eq, Ha by done. by rewrite IH.
Qed.

(** Dropping pieces leaves pieces. *)
Lemma first_paragraphs_pieces init l : Forall leads init -> split_once blank_line l = None -> forall seen,
  first_paragraphs seen (init ++ [l]) = [] \/
  exists init' l', first_paragraphs seen (init ++ [l]) = init' ++ [l'] /\ Forall leads init' /\ split_once blank_line l' = None.
Proof.
  intros Hi Hl. induction Hi as [|a init Ha Hi IH]; intros seen; cbn [app first_paragraphs].
  - destruct (one_of _ _); [by left|]. right. by exists [], l.
  - destruct (one_of _ _); [apply IH|]. right. destruct (IH (trim a :: seen)) as [->|(i & l' & -> & H1 & H2)].
    + exists [], a. split_and!; [done | done | by apply leads_whole].
    + exists (a :: i), l'. split_and!; [done | by constructor | done].
Qed.

(** *** The first of each *)

Lemma one_of_In t l : one_of t l = true <-> t ∈ l.
Proof.
  unfold one_of, str_eqb. rewrite existsb_exists, list_elem_of_In. split.
  - intros (x & Hx & E). apply bool_decide_eq_true in E as ->. done.
  - intros H. exists t. split; [done|]. by apply bool_decide_eq_true.
Qed.

Lemma filter_filter_comm {A} (f g : A -> bool) l : List.filter f (List.filter g l) = List.filter g (List.filter f l).
Proof. induction l as [|x l IH]; [done|]. simpl. destruct (g x) eqn:Eg, (f x) eqn:Ef; simpl; rewrite ?Eg, ?Ef, ?IH; done. Qed.

Lemma first_of_each_filter f l : first_of_each (List.filter f l) = List.filter f (first_of_each l).
Proof.
  induction l as [|t l IH]; [done|]. cbn [List.filter first_of_each]. destruct (f t) eqn:Ef; cbn [first_of_each]; rewrite IH.
  - by rewrite filter_filter_comm.
  - clear IH. induction (first_of_each l) as [|u us IH]; [done|]. cbn [List.filter]. destruct (f u) eqn:Eu.
    + destruct (str_eqb t u) eqn:Et.
      * unfold str_eqb in Et. apply bool_decide_eq_true in Et as ->. congruence.
      * cbn [negb List.filter]. by rewrite Eu, IH.
    + destruct (negb _); cbn [List.filter]; rewrite ?Eu; exact IH.
Qed.

Lemma first_paragraphs_spec ps : forall seen,
  map trim (first_paragraphs seen ps) = List.filter (fun t => negb (one_of t seen)) (first_of_each (map trim ps)).
Proof.
  induction ps as [|p ps IH]; intros seen; [done|]. cbn [first_paragraphs map first_of_each List.filter].
  assert (forall l, List.filter (fun t => negb (one_of t seen)) (List.filter (fun u => negb (str_eqb (trim p) u)) l)
    = List.filter (fun t => negb (one_of t (trim p :: seen))) l) as Hboth.
  { induction l as [|u l IHl]; [done|]. cbn [List.filter].
    change (one_of u (trim p :: seen)) with (str_eqb u (trim p) || one_of u seen).
    replace (str_eqb (trim p) u) with (str_eqb u (trim p)) by (apply bool_decide_ext; split; congruence).
    destruct (str_eqb u (trim p)); cbn [negb orb List.filter]; [exact IHl|]. destruct (negb (one_of u seen)); by rewrite IHl. }
  destruct (one_of (trim p) seen) eqn:E; cbn [negb map].
  - rewrite IH, Hboth. clear IH. induction (first_of_each (map trim ps)) as [|u l IHl]; [done|]. cbn [List.filter].
    assert (one_of u (trim p :: seen) = one_of u seen) as ->; [|by destruct (negb _); rewrite IHl].
    apply eq_true_iff_eq. rewrite !one_of_In, elem_of_cons. apply one_of_In in E. naive_solver.
  - by rewrite IH, Hboth.
Qed.

Lemma deduplicate_paragraphs_spec s : paragraphs (deduplicate_paragraphs s) = first_of_each (paragraphs s).
Proof.
  unfold deduplicate_paragraphs. rewrite paragraphs_newlines. unfold paragraphs at 2, nonblank. rewrite first_of_each_filter.
  destruct (split_pieces s) as (init & l & -> & Hi & Hl). pose proof (first_paragraphs_spec (init ++ [l]) []) as Hspec.
  assert (forall us, List.filter (fun t => negb (one_of t [])) us = us) as Hall by (intros us; induction us as [|u us IH]; [done|]; exact (f_equal (cons u) IH)).
  rewrite Hall in Hspec. rewrite <- Hspec. destruct (first_paragraphs_pieces init l Hi Hl []) as [->|(i & l' & -> & H1 & H2)]; [done|].
  unfold paragraphs. by rewrite split_pieces_join.
Qed.

(** ** Properties *)

(** The codec only drops repeated paragraphs: it never fails, and what it
    returns is the text itself or a text whose paragraphs are the first of each
    of the input's, in their order; every protected value of the input occurs in
    it as often as in the input; credit is claimed exactly when something
    changed; and risky, exact, shadowed and switched off text is untouched. *)
Theorem codec_drops_only_repeats find_iter input fidelity profile risk :
  exists t, transform_for_risk find_iter input fidelity profile risk = Ok t /\
    (content t = input \/ paragraphs (content t) = first_of_each (paragraphs input)) /\
    Forall (fun value => count_matches value (content t) = count_matches value input) (protected_values find_iter input) /\
    (changed t = true <-> content t <> input) /\ estimated_token_credit_eligible t = changed t /\
    ((is_risky risk = true \/ fidelity = Exact \/ profile = Shadow \/ profile = Off) -> content t = input).
Proof.
  unfold transform_for_risk. set (f := if is_risky risk then Exact else fidelity).
  assert ((is_risky risk = true \/ fidelity = Exact) -> f = Exact) as Hf by (unfold f; intros [->| ->]; [done | by destruct (is_risky risk)]).
  assert (candidate_transform find_iter input f = input \/
    paragraphs (candidate_transform find_iter input f) = first_of_each (paragraphs input)) as Hp.
  { unfold candidate_transform. destruct (bool_decide _); [by left|]. destruct (validate_protected _ _ _); [|by left].
    right. apply deduplicate_paragraphs_spec. }
  assert (Forall (fun value => count_matches value (candidate_transform find_iter input f) = count_matches value input)
            (protected_values find_iter input)) as Hv.
  { unfold candidate_transform. destruct (bool_decide _); [by apply Forall_true|].
    unfold validate_protected. destruct (forallb _ _) eqn:E; [|by apply Forall_true].
    rewrite forallb_forall in E. apply Forall_forall. intros v Hv. apply Nat.eqb_eq, E. by apply list_elem_of_In. }
  assert (Forall (fun value => count_matches value input = count_matches value input) (protected_values find_iter input))
    as Hsame by (by apply Forall_true).
  unfold transform. destruct (bool_decide_reflect (profile = Shadow)) as [->|Hs]; [eexists; split; [done|]; by split_and!; [left| | | |]|].
  destruct (bool_decide_reflect (f = Exact)) as [->|Hfe]; [eexists; split; [done|]; by split_and!; [left| | | |]|].
  destruct (bool_decide_reflect (profile = Off)) as [->|Ho]; [eexists; split; [done|]; by split_and!; [left| | | |]|].
  eexists. split; [done|]. cbn [content changed estimated_token_credit_eligible]. split_and!; [exact Hp | exact Hv | | done |].
  - unfold str_eqb. rewrite negb_true_iff. apply bool_decide_eq_false.
  - naive_solver.
Qed.

(** *** The examples of the source *)

Example economic_gate : is_profitable
  {| expected_input_saved := 0; expected_output_saved := 500; added_instruction_tokens := 1500;
     input_price_per_million := f64_of 10; output_price_per_million := f64_of 20;
     retry_probability_delta := f64_div (f64_of 1) (f64_of 100); expected_retry_cost := f64_of 1;
     minimum_margin := f64_of 0 |} = false.
Proof. by vm_compute. Qed.

Example catalog_description :
  content <$> match compact_catalog_description (fun _ => []) (lit "Keep" ++ blank_line ++ lit "Repeat me." ++ blank_line ++ lit "Repeat me.")
              with Ok t => Some t | Err _ => None end
  = Some (lit "Keep" ++ blank_line ++ lit "Repeat me.").
Proof. by vm_compute. Qed.

Example trailing_newline_stays :
  deduplicate_paragraphs (lit "First" ++ blank_line ++ lit "Second" ++ blank_line ++ lit "First" ++ [10])
  = lit "First" ++ blank_line ++ lit "Second" ++ [10].
Proof. by vm_compute. Qed.

Example adaptive_density : choose_density Adaptive Low 1000 true = Concise /\ choose_density Adaptive Low 200 true = Normal /\
  choose_density Compact Irreversible 2000 true = Normal.
Proof. done. Qed.
End Codec.
