(* ===== verification/ReadWindow.v ===== *)
(** Reading lines exactly ([fork-core/rtk/src/read.rs], the windows, and
    [read_source.rs], the line ranges): the first or the last lines of a file and
    ranges of lines, as bytes.

    A byte is a number below 256.  A reader is the list of what its successive
    reads return, interrupted ones left out; an empty read is the end.  A regular
    file is its bytes, and a failing read is the error text. *)

From S2P Require Import Prelude RStr Utf8.
From Stdlib Require Import ZifyBool ZifyN ZifyNat.

Module ReadWindow.

Inductive Window := Head (n : nat) | Tail (n : nat).

Definition WINDOW_CHUNK : nat := N.to_nat (64 * 1024).

Abbreviation byte := N (only parsing).
Definition LF : byte := 10.

(** What one read returns. *)
Definition Read : Type := result rstr (list byte).

(** The probe for one more byte. *)
Definition probe (reader : list Read) : result rstr bool :=
  match reader with
  | [] => Ok false
  | Ok bytes :: _ => Ok (negb (is_nil bytes))
  | Err e :: _ => Err e
  end.

(** The search in a chunk for the line feed that makes [n], [seen] so far: the
    bytes up to it and those behind it, or the line feeds seen. *)
Fixpoint find_line_feed (n seen : nat) (chunk : list byte) : (list byte * list byte) + nat :=
  match chunk with
  | [] => inr seen
  | b :: chunk =>
      let seen := if b =? LF then S seen else seen in
      if (b =? LF) && (seen =? n)%nat then inl ([b], chunk)
      else match find_line_feed n seen chunk with
           | inl (before, behind) => inl (b :: before, behind)
           | inr seen => inr seen
           end
  end.

Fixpoint head_loop (n seen : nat) (out : list byte) (reader : list Read) : result rstr (list byte * bool) :=
  match reader with
  | [] => Ok (out, false)
  | Err e :: _ => Err e
  | Ok [] :: _ => Ok (out, false)
  | Ok chunk :: reader =>
      match find_line_feed n seen chunk with
      | inl (before, behind) =>
          more ← (if is_nil behind then probe reader else Ok true);
          Ok (out ++ before, more)
      | inr seen => head_loop n seen (out ++ chunk) reader
      end
  end.

Definition head_window (reader : list Read) (n : nat) : result rstr (list byte * bool) :=
  if (n =? 0)%nat then more ← probe reader; Ok ([], more) else head_loop n 0 [] reader.

(** The loop from the end: [rest] is reversed, so its head is at [length rest]
    minus one. *)
Fixpoint tail_scan (n seen : nat) (rest : list byte) : nat :=
  match rest with
  | [] => 0
  | b :: before =>
      let seen := if b =? LF then S seen else seen in
      if (b =? LF) && (seen =? n)%nat then S (length before) else tail_scan n seen before
  end.

Definition strip_line_feed (bytes : list byte) : list byte :=
  match reverse bytes with b :: r => if b =? LF then reverse r else bytes | [] => bytes end.

Definition tail_start (bytes : list byte) (n : nat) : nat :=
  if (n =? 0)%nat then length bytes else tail_scan n 0 (reverse (strip_line_feed bytes)).

(** The loop of [tail_window_seek]: every turn reads a chunk, so [fuel] more than
    the length of the file is enough. *)
Fixpoint seek_loop (fuel n : nat) (file tail : list byte) (pos : nat) : option (list byte * bool) :=
  match fuel with
  | O => None
  | S fuel =>
      let start := tail_start tail n in
      if (0 <? start)%nat || (pos =? 0)%nat then Some (drop start tail, (0 <? start)%nat)
      else
        let size := Nat.min WINDOW_CHUNK pos in
        let pos := (pos - size)%nat in
        seek_loop fuel n file (take size (drop pos file) ++ tail) pos
  end.

Definition tail_window_seek (file : list byte) (n : nat) : option (list byte * bool) :=
  let len := length file in
  if (n =? 0)%nat then Some ([], (0 <? len)%nat) else seek_loop (S len) n file [] len.

(** ** Line ranges *)

Definition invalid_range : rstr := lit "Invalid range".

Definition normalize_line_range (from to : option nat) : result rstr (nat * option nat) :=
  let start := default 1%nat from in
  if (start =? 0)%nat then Err (lit "--from must be >= 1")
  else match to with
       | Some end_ =>
           if (end_ =? 0)%nat then Err (lit "--to must be >= 1")
           else if (end_ <? start)%nat
           then Err (lit "Invalid range: --from (" ++ dec (N.of_nat start) ++ lit ") is greater than --to ("
                       ++ dec (N.of_nat end_) ++ lit ")")
           else Ok (start, to)
       | None => Ok (start, to)
       end.

(** [read_until]: the bytes through the next line feed, or to the end. *)
Fixpoint read_until (input : list byte) : list byte * list byte :=
  match input with
  | [] => ([], [])
  | b :: input => if b =? LF then ([b], input) else let '(line, rest) := read_until input in (b :: line, rest)
  end.

(** The loop of [read_file_bytes]. *)
Fixpoint select_lines (fuel : nat) (start : nat) (end_ : option nat) (line_no : nat) (selected input : list byte) : list byte :=
  match fuel with
  | O => selected
  | S fuel =>
      let '(line, rest) := read_until input in
      if is_nil line then selected
      else
        let line_no := S line_no in
        if (line_no <? start)%nat then select_lines fuel start end_ line_no selected rest
        else if match end_ with Some e => (e <? line_no)%nat | None => false end then selected
        else select_lines fuel start end_ line_no (selected ++ line) rest
  end.

Definition read_file_bytes (file : list byte) (from to : option nat) : result rstr (list byte) :=
  '(start, end_) ← normalize_line_range from to;
  match from, to with
  | None, None => Ok file
  | _, _ => Ok (select_lines (S (length file)) start end_ 0 [] file)
  end.

Fixpoint head_lines (lines : nat) (selected input : list byte) : list byte :=
  match lines with
  | O => selected
  | S lines =>
      let '(line, rest) := read_until input in
      if is_nil line then selected else head_lines lines (selected ++ line) rest
  end.

Definition read_head_lines (file : list byte) (lines : nat) : list byte := head_lines lines [] file.

Definition count_line_feeds (bytes : list byte) : nat := length (List.filter (N.eqb LF) bytes).

Definition ends_unterminated (bytes : list byte) : bool :=
  match last bytes with Some b => negb (b =? LF) | None => false end.

Definition count_lines_in (bytes : list byte) : nat :=
  count_line_feeds bytes + (if ends_unterminated bytes then 1 else 0).

(** The loop of [count_lines] over the buffers of the reader. *)
Fixpoint count_chunks (total : nat) (last_byte : option byte) (reader : list Read) : result rstr (nat * option byte) :=
  match reader with
  | [] => Ok (total, last_byte)
  | Err e :: _ => Err e
  | Ok [] :: _ => Ok (total, last_byte)
  | Ok chunk :: reader => count_chunks (total + count_line_feeds chunk) (last chunk) reader
  end.

Definition count_lines (reader : list Read) : result rstr nat :=
  '(total, last_byte) ← count_chunks 0 None reader;
  Ok (total + (if match last_byte with Some b => negb (b =? LF)%N | None => false end then 1 else 0))%nat.

(** The loop of [apply_line_range_bytes]: [end_idx] ends behind the line feed. *)
Fixpoint range_bytes (fuel : nat) (start : nat) (end_ : option nat) (line_no idx : nat) (out input : list byte) : list byte :=
  match fuel with
  | O => out
  | S fuel =>
      if (idx <? length input)%nat then
        let line_no := S line_no in
        let line := (read_until (drop idx input)).1 in
        let end_idx := (idx + length line)%nat in
        if (start <=? line_no)%nat then
          if match end_ with Some e => (e <? line_no)%nat | None => false end then out
          else range_bytes fuel start end_ line_no end_idx (out ++ take (end_idx - idx) (drop idx input)) input
        else range_bytes fuel start end_ line_no end_idx out input
      else out
  end.

Definition apply_line_range_bytes (input : list byte) (from to : option nat) : result rstr (list byte) :=
  match from, to with
  | None, None => Ok input
  | _, _ =>
      '(start, end_) ← normalize_line_range from to;
      Ok (range_bytes (S (length input)) start end_ 0 0 [] input)
  end.

(** ** Windows of a source *)

(** [read_to_end]. *)
Fixpoint read_to_end (reader : list Read) : result rstr (list byte) :=
  match reader with
  | [] | Ok [] :: _ => Ok []
  | Err e :: _ => Err e
  | Ok bytes :: reader => rest ← read_to_end reader; Ok (bytes ++ rest)
  end.

(** Where a window is read: what its reads return and, of a regular file, its
    bytes. *)
Record Source := { is_stdin : bool; regular : bool; reads : list Read; file_bytes : list byte }.

(** The bytes and whether anything is cut. *)
Definition run_window_bytes (s : Source) (window : Window) : result rstr (list byte * bool) :=
  match window with
  | Head n => head_window (reads s) n
  | Tail n =>
      if negb (is_stdin s) && regular s then ok_or (tail_window_seek (file_bytes s) n) []
      else
        all ← read_to_end (reads s);
        let start := tail_start all n in
        Ok (drop start all, (0 <? start)%nat)
  end.

(** ** Lines *)

(** The reference: the lines of a text, each with its line feed. *)
Fixpoint lines_of (bytes : list byte) : list (list byte) :=
  match bytes with
  | [] => []
  | b :: bytes =>
      if b =? LF then [b] :: lines_of bytes
      else match lines_of bytes with [] => [ [b] ] | line :: lines => (b :: line) :: lines end
  end.

(** What [head -n n] and [tail -n n] print. *)
Definition native (window : Window) (bytes : list byte) : list byte :=
  let lines := lines_of bytes in
  match window with
  | Head n => concat (take n lines)
  | Tail n => concat (drop (length lines - n) lines)
  end.

(** What [sed -n 'a,bp'] prints, or [sed -n 'a,$p']. *)
Definition native_range (from : nat) (to : option nat) (bytes : list byte) : list byte :=
  concat (drop (from - 1) (match to with Some to => take to (lines_of bytes) | None => lines_of bytes end)).

Lemma lines_of_concat bytes : concat (lines_of bytes) = bytes.
Proof.
  induction bytes as [|b bytes IH]; [done|]. cbn [lines_of]. destruct (b =? LF); [cbn; by rewrite IH|].
  destruct (lines_of bytes) as [|l ls]; cbn in *; by rewrite <- IH.
Qed.

Lemma lines_of_cons b bytes : lines_of (b :: bytes) <> [].
Proof. cbn [lines_of]. destruct (b =? LF); [done|]. by destruct (lines_of bytes). Qed.

Lemma read_until_lines bytes line rest : bytes <> [] -> read_until bytes = (line, rest) ->
  lines_of bytes = line :: lines_of rest /\ bytes = line ++ rest /\ line <> [].
Proof.
  revert line rest. induction bytes as [|b bytes IH]; intros line rest Hne; [done|]. cbn [read_until lines_of].
  destruct (b =? LF) eqn:E; [by intros [= <- <-]|]. destruct (read_until bytes) as [l r] eqn:El. intros [= <- <-].
  destruct bytes as [|c bytes]; [injection El as <- <-; done|]. destruct (IH l r ltac:(done) eq_refl) as (-> & -> & _). done.
Qed.

(** *** The first lines *)

Lemma find_line_feed_app n b : forall a seen,
  find_line_feed n seen (a ++ b) =
    match find_line_feed n seen a with
    | inl (x, y) => inl (x, y ++ b)
    | inr k => match find_line_feed n k b with inl (x, y) => inl (a ++ x, y) | inr k => inr k end
    end.
Proof.
  induction a as [|c a IH]; intros seen; cbn [find_line_feed app].
  - by destruct (find_line_feed n seen b) as [ [x y]|].
  - destruct (_ && _); [done|]. rewrite IH. destruct (find_line_feed n _ a) as [ [x y]|k]; [done|].
    by destruct (find_line_feed n k b) as [ [x y]|].
Qed.

(** Finding the line feed cuts the text behind its first lines. *)
Lemma find_line_feed_lines n s : forall seen, (seen < n)%nat ->
  match find_line_feed n seen s with
  | inl (x, y) => x = concat (take (n - seen) (lines_of s)) /\ y = concat (drop (n - seen) (lines_of s))
  | inr _ => concat (take (n - seen) (lines_of s)) = s
  end.
Proof.
  induction s as [|b s IH]; intros seen Hs; cbn [find_line_feed lines_of]; [by rewrite take_nil|].
  destruct (b =? LF) eqn:E; cbn [andb].
  - destruct (S seen =? n)%nat eqn:En.
    + replace (n - seen)%nat with 1%nat by lia. apply N.eqb_eq in E as ->. cbn [take drop concat]. by rewrite take_0, drop_0, lines_of_concat.
    + replace (n - seen)%nat with (S (n - S seen)) by lia. specialize (IH (S seen) ltac:(lia)). cbn [take drop concat].
      destruct (find_line_feed n (S seen) s) as [ [x y]|]; [destruct IH as [-> ->]; done | by rewrite IH].
  - specialize (IH seen Hs). destruct (n - seen)%nat as [|k] eqn:Ek; [lia|].
    destruct (find_line_feed n seen s) as [ [x y]|]; destruct (lines_of s) as [|l ls] eqn:El; cbn [take drop concat] in *.
    + destruct IH as [-> ->]. by rewrite !take_nil, !drop_nil.
    + destruct IH as [-> ->]. done.
    + pose proof (lines_of_concat s) as Hc. rewrite El in Hc. cbn in Hc. subst s. by rewrite take_nil.
    + by rewrite <- IH.
Qed.

Lemma probe_rest reader rest : read_to_end reader = Ok rest -> probe reader = Ok (negb (is_nil rest)).
Proof.
  destruct reader as [|[ [|b bytes]|e] reader]; cbn; try (by intros [= <-]). intros H. inv_ok. done.
Qed.

Lemma head_loop_spec n reader : forall seen out all,
  (0 < n)%nat -> find_line_feed n 0 out = inr seen -> read_to_end reader = Ok all ->
  head_loop n seen out reader =
    Ok (match find_line_feed n 0 (out ++ all) with inl (x, y) => (x, negb (is_nil y)) | inr _ => (out ++ all, false) end).
Proof.
  induction reader as [|[ [|b bytes]|e] reader IH]; intros seen out all Hn Hf; cbn [head_loop read_to_end].
  - intros [= <-]. rewrite app_nil_r, Hf. done.
  - intros [= <-]. rewrite app_nil_r, Hf. done.
  - remember (b :: bytes) as chunk eqn:Hc. intros H. apply bind_Ok in H as (rest & H & H'). injection H' as <-.
    rewrite find_line_feed_app, Hf, find_line_feed_app.
    destruct (find_line_feed n seen chunk) as [ [x y]|k] eqn:E.
    + rewrite (probe_rest reader rest) by done. destruct y; [|done]. cbn [is_nil app]. done.
    + assert (find_line_feed n 0 (out ++ chunk) = inr k) as E' by (by rewrite find_line_feed_app, Hf, E).
      rewrite (IH k (out ++ chunk) rest Hn E' H), find_line_feed_app, E'.
      destruct (find_line_feed n k rest) as [ [x y]|]; by rewrite <- !app_assoc.
  - done.
Qed.

(** In whatever pieces the text comes, the window is its first lines. *)
Lemma head_window_native reader n all : read_to_end reader = Ok all ->
  head_window reader n = Ok (native (Head n) all, negb (is_nil (concat (drop n (lines_of all))))).
Proof.
  intros H. unfold head_window, native. destruct (Nat.eqb_spec n 0) as [->|Hn].
  - rewrite (probe_rest reader all H). cbn. by rewrite drop_0, take_0, lines_of_concat.
  - rewrite (head_loop_spec n reader 0 [] all) by (try done; lia). cbn [app].
    pose proof (find_line_feed_lines n all 0 ltac:(lia)) as Hf. rewrite Nat.sub_0_r in Hf.
    destruct (find_line_feed n 0 all) as [ [x y]|k]; [by destruct Hf as [-> ->]|]. rewrite Hf.
    pose proof (lines_of_concat all) as Hc. rewrite <- (take_drop n (lines_of all)) in Hc. rewrite concat_app, Hf in Hc.
    apply (f_equal length) in Hc. rewrite length_app in Hc. destruct (concat (drop n (lines_of all))); [done | cbn in Hc; lia].
Qed.

(** *** The last lines *)

Definition unbroken (l : list byte) : Prop := Forall (fun b => b <> LF) l.
Definition terminated (l : list byte) : list byte := l ++ [LF].

(** A text that is not empty: lines that end, and a last one that may not. *)
Lemma lines_shape bytes : bytes <> [] -> exists ts t (ended : bool),
  Forall unbroken ts /\ unbroken t /\ lines_of bytes = map terminated ts ++ [if ended then terminated t else t] /\
  (ended = false -> t <> []).
Proof.
  induction bytes as [|b bytes IH]; [done|]. intros _. cbn [lines_of]. destruct (b =? LF) eqn:E.
  - apply N.eqb_eq in E as ->. destruct bytes as [|c bytes].
    + exists [], [], true. split_and!; [constructor | constructor | done | done].
    + destruct IH as (ts & t & e & H1 & H2 & -> & H4); [done|]. exists ([] :: ts), t, e. split_and!; [constructor; [constructor | done] | done..].
  - apply N.eqb_neq in E. destruct bytes as [|c bytes].
    + exists [], [b], false. split_and!; [constructor | apply Forall_singleton; done | done | done].
    + destruct IH as (ts & t & e & H1 & H2 & -> & H4); [done|]. destruct ts as [|u ts]; cbn [map app].
      * exists [], (b :: t), e. split_and!; [constructor | constructor; done | by destruct e | done].
      * exists ((b :: u) :: ts), t, e. inversion H1. split_and!; [constructor; [by constructor | done] | done..].
Qed.

Lemma tail_scan_unbroken n seen l rest : unbroken l -> tail_scan n seen (reverse l ++ rest) = tail_scan n seen rest.
Proof.
  revert rest. induction l as [|b l IH]; intros rest Hl; [done|]. inversion Hl as [|? ? Hb Hl']; subst.
  rewrite reverse_cons, <- app_assoc, IH by done. cbn. by rewrite (proj2 (N.eqb_neq _ _) Hb).
Qed.

Lemma tail_scan_lines n ts : Forall unbroken ts -> forall seen, (seen < n)%nat ->
  tail_scan n seen (reverse (concat (map terminated ts))) = length (concat (take (S (length ts) - (n - seen)) (map terminated ts))).
Proof.
  induction ts as [|t ts IH] using rev_ind; intros Hts seen Hs; [cbn [map concat]; by rewrite take_nil|].
  apply Forall_app in Hts as [Hts Ht]. rewrite Forall_singleton in Ht.
  rewrite map_app, concat_app. cbn [map concat]. rewrite app_nil_r. unfold terminated at 2.
  rewrite app_assoc, reverse_app. cbn [app reverse rev_append]. rewrite reverse_app.
  change (reverse [LF] ++ reverse t ++ reverse (concat (map terminated ts)))
    with (LF :: reverse t ++ reverse (concat (map terminated ts))).
  cbn [tail_scan]. rewrite N.eqb_refl. cbn [andb]. rewrite !length_app. cbn [length].
  destruct (Nat.eqb_spec (S seen) n) as [E|E].
  - replace (S (length ts + 1) - (n - seen))%nat with (length (map terminated ts ++ [terminated t]))
      by (rewrite length_app, length_map; cbn; lia).
    rewrite take_ge by lia. rewrite concat_app. cbn. unfold terminated. rewrite !length_app, !length_reverse. cbn. lia.
  - rewrite tail_scan_unbroken, (IH Hts (S seen)) by (try done; lia).
    rewrite take_app_le by (rewrite length_map; lia). do 3 f_equal. lia.
Qed.

Lemma strip_line_feed_app a b : strip_line_feed (a ++ [b]) = if b =? LF then a else a ++ [b].
Proof.
  unfold strip_line_feed. rewrite reverse_app. change (reverse [b] ++ reverse a) with (b :: reverse a). cbv iota beta.
  destruct (b =? LF); [by rewrite reverse_involutive | done].
Qed.

Lemma tail_start_lines bytes n :
  tail_start bytes n = length (concat (take (length (lines_of bytes) - n) (lines_of bytes))).
Proof.
  unfold tail_start. destruct (Nat.eqb_spec n 0) as [->|Hn]; [by rewrite Nat.sub_0_r, take_ge, lines_of_concat by lia|].
  destruct (decide (bytes = [])) as [->|Hne]; [done|].
  destruct (lines_shape bytes Hne) as (ts & t & e & H1 & H2 & H3 & H4).
  pose proof (lines_of_concat bytes) as Hc. rewrite H3, concat_app in Hc. cbn [concat] in Hc. rewrite app_nil_r in Hc.
  assert (strip_line_feed bytes = concat (map terminated ts) ++ t) as ->.
  { rewrite <- Hc. destruct e; [unfold terminated; by rewrite app_assoc, strip_line_feed_app|].
    destruct t as [|x t _] using rev_ind; [by destruct H4|]. rewrite app_assoc, strip_line_feed_app.
    apply Forall_app in H2 as [_ H2]. rewrite Forall_singleton in H2. by rewrite (proj2 (N.eqb_neq _ _) H2). }
  rewrite reverse_app, tail_scan_unbroken, tail_scan_lines by (try done; lia). rewrite Nat.sub_0_r, H3.
  rewrite length_app, length_map. cbn [length]. rewrite take_app_le by (rewrite length_map; lia). do 3 f_equal. lia.
Qed.

Lemma drop_tail_start bytes n : drop (tail_start bytes n) bytes = native (Tail n) bytes.
Proof.
  rewrite tail_start_lines. unfold native. set (k := (length (lines_of bytes) - n)%nat).
  rewrite <- (lines_of_concat bytes) at 2. rewrite <- (take_drop k (lines_of bytes)) at 2. rewrite concat_app.
  apply drop_app_length.
Qed.

Lemma tail_scan_app n y : forall x seen, (0 < tail_scan n seen x)%nat ->
  tail_scan n seen (x ++ y) = (tail_scan n seen x + length y)%nat.
Proof.
  induction x as [|b x IH]; intros seen H; [cbn in H; lia|]. cbn [tail_scan app] in *. destruct (_ && _).
  - rewrite length_app. lia.
  - by apply IH.
Qed.

(** What the end of a file says about its last lines holds of the file. *)
Lemma tail_start_app a b n : (0 < n)%nat -> (0 < tail_start b n)%nat -> tail_start (a ++ b) n = (length a + tail_start b n)%nat.
Proof.
  intros Hn. unfold tail_start. rewrite (proj2 (Nat.eqb_neq n 0)) by lia.
  destruct b as [|x b _] using rev_ind; [cbn; lia|]. rewrite app_assoc, !strip_line_feed_app.
  replace (if x =? LF then a ++ b else (a ++ b) ++ [x]) with (a ++ (if x =? LF then b else b ++ [x]))
    by (destruct (x =? LF); by rewrite ?app_assoc).
  intros H. rewrite reverse_app, tail_scan_app by done. rewrite length_reverse. lia.
Qed.

Lemma seek_loop_native n file : (0 < n)%nat -> forall fuel pos, (pos <= length file)%nat -> (pos < fuel)%nat ->
  seek_loop fuel n file (drop pos file) pos = Some (native (Tail n) file, (0 <? tail_start file n)%nat).
Proof.
  intros Hn. induction fuel as [|fuel IH]; intros pos Hpos Hf; [lia|]. cbn [seek_loop].
  destruct (0 <? tail_start (drop pos file) n)%nat eqn:E; cbn [orb].
  - apply Nat.ltb_lt in E. pose proof (tail_start_app (take pos file) (drop pos file) n Hn E) as H. rewrite take_drop in H.
    rewrite length_take, Nat.min_l in H by done. rewrite drop_drop, <- H, drop_tail_start. do 2 f_equal.
    symmetry. apply Nat.ltb_lt. lia.
  - destruct (Nat.eqb_spec pos 0) as [->|Hp].
    + rewrite !drop_0 in *. by rewrite drop_tail_start, E.
    + set (size := Nat.min WINDOW_CHUNK pos).
      assert (0 < size <= pos)%nat as Hsize by (unfold size, WINDOW_CHUNK; lia).
      replace (take size (drop (pos - size) file) ++ drop pos file) with (drop (pos - size) file); [apply IH; lia|].
      rewrite <- (take_drop size (drop (pos - size) file)) at 1. rewrite drop_drop. do 2 f_equal. lia.
Qed.

Lemma tail_window_seek_native file n :
  tail_window_seek file n = Some (native (Tail n) file, (0 <? tail_start file n)%nat).
Proof.
  unfold tail_window_seek. destruct (Nat.eqb_spec n 0) as [->|Hn].
  - unfold native. rewrite Nat.sub_0_r, drop_ge by lia. done.
  - pose proof (seek_loop_native n file ltac:(lia) (S (length file)) (length file) ltac:(lia) ltac:(lia)) as H.
    by rewrite drop_ge in H by lia.
Qed.

(** A window that starts behind the beginning omits something. *)
Lemma tail_cut bytes n : (0 <? tail_start bytes n)%nat = (length (native (Tail n) bytes) <? length bytes)%nat.
Proof.
  rewrite <- drop_tail_start, length_drop. pose proof (tail_start_lines bytes n) as H.
  assert (tail_start bytes n <= length bytes)%nat as Hle.
  { rewrite H. rewrite <- (lines_of_concat bytes) at 3.
    rewrite <- (take_drop (length (lines_of bytes) - n) (lines_of bytes)) at 3. rewrite concat_app, length_app. lia. }
  apply eq_true_iff_eq. rewrite !Nat.ltb_lt. lia.
Qed.

Lemma head_cut bytes n : negb (is_nil (concat (drop n (lines_of bytes)))) = (length (native (Head n) bytes) <? length bytes)%nat.
Proof.
  unfold native. rewrite <- (lines_of_concat bytes) at 3. rewrite <- (take_drop n (lines_of bytes)) at 3.
  rewrite concat_app, length_app. destruct (concat (drop n (lines_of bytes))); cbn [is_nil negb length].
  - symmetry. apply Nat.ltb_ge. lia.
  - symmetry. apply Nat.ltb_lt. lia.
Qed.

(** *** Ranges *)

(** Lines [start] to [end_], of which [line_no] are behind. *)
Definition numbered (start : nat) (end_ : option nat) (line_no : nat) (lines : list (list byte)) : list (list byte) :=
  drop (start - 1 - line_no) (match end_ with Some e => take (e - line_no) lines | None => lines end).

Lemma select_lines_spec start end_ fuel : (0 < start)%nat -> match end_ with Some e => (start <= e)%nat | None => True end ->
  forall line_no selected input, (length input < fuel)%nat ->
  select_lines fuel start end_ line_no selected input = selected ++ concat (numbered start end_ line_no (lines_of input)).
Proof.
  intros Hs He. induction fuel as [|fuel IH]; intros ln sel input Hf; [lia|]. cbn [select_lines].
  destruct (decide (input = [])) as [->|Hne].
  { unfold numbered. cbn. destruct end_; rewrite ?take_nil, drop_nil; cbn; by rewrite app_nil_r. }
  destruct (read_until input) as [line rest] eqn:E. destruct (read_until_lines _ _ _ Hne E) as (-> & -> & Hl).
  destruct line as [|b line]; [done|]. cbn [is_nil]. rewrite length_app in Hf. cbn [length] in Hf.
  destruct (S ln <? start)%nat eqn:Es.
  - apply Nat.ltb_lt in Es. rewrite IH by lia. f_equal. f_equal. unfold numbered.
    replace (start - 1 - ln)%nat with (S (start - 1 - S ln)) by lia.
    destruct end_ as [e|]; [replace (e - ln)%nat with (S (e - S ln)) by lia|]; done.
  - apply Nat.ltb_ge in Es. unfold numbered at 1. replace (start - 1 - ln)%nat with 0%nat by lia.
    assert (forall e', end_ = e' -> match e' with Some e => (S ln <= e)%nat | None => True end ->
      select_lines fuel start end_ (S ln) (sel ++ b :: line) rest
      = sel ++ concat (drop 0 match end_ with Some e => take (e - ln) ((b :: line) :: lines_of rest) | None => (b :: line) :: lines_of rest end))
      as Hgo.
    { intros e' <- He'. rewrite IH by lia. rewrite <- app_assoc. f_equal. unfold numbered.
      replace (start - 1 - S ln)%nat with 0%nat by lia. rewrite !drop_0.
      destruct end_ as [e|]; [replace (e - ln)%nat with (S (e - S ln)) by lia|]; done. }
    destruct end_ as [e|] eqn:Ee; [|by apply (Hgo None)].
    destruct (Nat.ltb_spec e (S ln)) as [Hlt|Hge]; [|by apply (Hgo (Some e))].
    replace (e - ln)%nat with 0%nat by lia. cbn. by rewrite app_nil_r.
Qed.

Lemma head_lines_spec n : forall selected input, head_lines n selected input = selected ++ native (Head n) input.
Proof.
  unfold native. induction n as [|n IH]; intros sel input; cbn [head_lines]; [cbn; by rewrite take_0, app_nil_r|].
  destruct (decide (input = [])) as [->|Hne]; [cbn; by rewrite app_nil_r|].
  destruct (read_until input) as [line rest] eqn:E. destruct (read_until_lines _ _ _ Hne E) as (-> & _ & Hl).
  destruct line as [|b line]; [done|]. cbn [is_nil]. by rewrite IH, <- app_assoc.
Qed.

(** Walking over loaded bytes selects what reading line by line does. *)
Lemma range_bytes_select fuel start end_ input : forall line_no idx out,
  range_bytes fuel start end_ line_no idx out input = select_lines fuel start end_ line_no out (drop idx input).
Proof.
  induction fuel as [|fuel IH]; intros ln idx out; [done|]. cbn [range_bytes select_lines].
  destruct (Nat.ltb_spec idx (length input)) as [Hi|Hi]; [|by rewrite drop_ge by lia].
  assert (drop idx input <> []) as Hne by (intros H; apply (f_equal length) in H; rewrite length_drop in H; cbn in H; lia).
  destruct (read_until (drop idx input)) as [line rest] eqn:E. cbn [fst].
  destruct (read_until_lines _ _ _ Hne E) as (_ & Hsplit & Hl). destruct line as [|b line]; [done|]. cbn [is_nil].
  assert (drop (idx + length (b :: line)) input = rest) as Hrest by (rewrite <- drop_drop, Hsplit; by rewrite drop_app_length).
  assert (take (idx + length (b :: line) - idx) (drop idx input) = b :: line) as Htake.
  { replace (idx + length (b :: line) - idx)%nat with (length (b :: line)) by lia. rewrite Hsplit. by rewrite take_app_length. }
  rewrite !IH, Hrest, Htake. destruct (Nat.leb_spec start (S ln)), (Nat.ltb_spec (S ln) start); (done || lia).
Qed.

(** *** Counting *)

Lemma count_lines_in_lines bytes : count_lines_in bytes = length (lines_of bytes).
Proof.
  unfold count_lines_in, count_line_feeds. induction bytes as [|b bytes IH]; [done|].
  cbn [List.filter lines_of]. rewrite (N.eqb_sym LF b).
  assert (bytes <> [] -> ends_unterminated (b :: bytes) = ends_unterminated bytes) as He by (by destruct bytes).
  destruct (b =? LF) eqn:E; cbn [length].
  - destruct bytes as [|c bytes]; [by apply N.eqb_eq in E as ->|]. rewrite He by done. lia.
  - destruct bytes as [|c bytes]; [cbn; unfold ends_unterminated; cbn; by rewrite E|]. rewrite He by done. rewrite IH.
    pose proof (lines_of_cons c bytes) as Hn. by destruct (lines_of (c :: bytes)).
Qed.

Lemma count_chunks_spec reader all : read_to_end reader = Ok all -> forall total before,
  count_chunks total (last before) reader = Ok ((total + count_line_feeds all)%nat, last (before ++ all)).
Proof.
  revert all. induction reader as [|[ [|b bytes]|e] reader IH]; intros all; cbn [read_to_end count_chunks].
  - intros [= <-] t a. by rewrite Nat.add_0_r, app_nil_r.
  - intros [= <-] t a. by rewrite Nat.add_0_r, app_nil_r.
  - remember (b :: bytes) as chunk eqn:Hc. intros H t a. apply bind_Ok in H as (rest & H & H'). injection H' as <-.
    replace (last chunk) with (last (a ++ chunk)) by (subst chunk; by rewrite last_app; destruct (last (b :: bytes)) eqn:El; [|apply last_None in El]).
    rewrite (IH rest H). unfold count_line_feeds. rewrite List.filter_app, length_app, <- app_assoc. do 2 f_equal. lia.
  - done.
Qed.

Lemma count_lines_streams reader all : read_to_end reader = Ok all -> count_lines reader = Ok (count_lines_in all).
Proof.
  intros H. unfold count_lines. pose proof (count_chunks_spec reader all H 0 []) as Hc. cbn [last app] in Hc.
  change (@last N []) with (@None N) in Hc. rewrite Hc. done.
Qed.

(** ** Properties *)

(** A window is what the native tool prints: in whatever pieces the source
    delivers its bytes, and although the end of a regular file is read backwards
    in chunks, the first or last lines are byte for byte those of the text, and
    the note that something was cut is given exactly when something was. *)
Lemma run_window_native s window all :
  read_to_end (reads s) = Ok all -> (is_stdin s = false -> regular s = true -> file_bytes s = all) ->
  run_window_bytes s window = Ok (native window all, (length (native window all) <? length all)%nat).
Proof.
  intros Hr Hf. destruct window as [n|n]; cbn [run_window_bytes].
  - by rewrite (head_window_native _ n all Hr), head_cut.
  - destruct (negb (is_stdin s) && regular s) eqn:E.
    + apply andb_true_iff in E as [E1 E2]. apply negb_true_iff in E1. rewrite (Hf E1 E2), tail_window_seek_native.
      cbn [ok_or]. by rewrite tail_cut.
    + rewrite Hr. cbn [mbind result_bind]. by rewrite drop_tail_start, tail_cut.
Qed.

Lemma read_range_native file from to :
  (0 < default 1 from)%nat -> match to with Some e => (default 1 from <= e)%nat | None => True end ->
  read_file_bytes file from to = Ok (native_range (default 1%nat from) to file).
Proof.
  intros Hs He. unfold read_file_bytes, normalize_line_range. rewrite (proj2 (Nat.eqb_neq _ _)) by lia.
  assert (forall e, match e with Some e => (default 1 from <= e)%nat | None => True end ->
    select_lines (S (length file)) (default 1%nat from) e 0 [] file = native_range (default 1%nat from) e file) as Hsel.
  { intros e He'. rewrite select_lines_spec by (done || lia). unfold numbered, native_range. cbn [app]. rewrite Nat.sub_0_r.
    destruct e; by rewrite ?Nat.sub_0_r. }
  destruct to as [e|].
  + rewrite (proj2 (Nat.eqb_neq e 0)), (proj2 (Nat.ltb_ge _ _)) by lia. cbv [mbind result_bind]. rewrite !Hsel by done. by destruct from.
  + cbv [mbind result_bind]. rewrite !Hsel by done. destruct from; [done|]. unfold native_range. by rewrite drop_0, lines_of_concat.
Qed.

(** Every way of reading a range of lines gives those lines: the file reader
    and the walk over loaded bytes agree on every range, a range is refused
    exactly when a bound is zero or they are out of order, and the bounded reader
    and the line counts, in memory or streamed, agree with the lines. *)
Theorem line_ranges_agree file from to :
  apply_line_range_bytes file from to = read_file_bytes file from to /\
  ((0 < default 1 from)%nat -> match to with Some e => (default 1 from <= e)%nat | None => True end ->
   read_file_bytes file from to = Ok (native_range (default 1%nat from) to file)) /\
  (default 1%nat from = 0%nat \/ match to with Some e => (e < default 1 from)%nat | None => False end ->
   exists e, read_file_bytes file from to = Err e) /\
  (forall n, read_head_lines file n = native (Head n) file) /\
  (forall reader, read_to_end reader = Ok file -> count_lines reader = Ok (length (lines_of file))).
Proof.
  assert (forall s e, range_bytes (S (length file)) s e 0 0 [] file = select_lines (S (length file)) s e 0 [] file) as Hsame
    by (intros s e; by rewrite range_bytes_select, drop_0).
  split; [|split; [|split; [|split] ] ].
  - unfold apply_line_range_bytes, read_file_bytes.
    destruct from, to; [| | |reflexivity]; (destruct (normalize_line_range _ _) as [ [s e]|]; [|reflexivity]);
      cbv [mbind result_bind]; by rewrite Hsame.
  - apply read_range_native.
  - unfold read_file_bytes, normalize_line_range. intros H. destruct (Nat.eqb_spec (default 1%nat from) 0) as [E|E]; [cbn; eauto|].
    destruct to as [e|]; [|lia]. destruct (Nat.eqb_spec e 0); [cbn; eauto|]. rewrite (proj2 (Nat.ltb_lt _ _)) by lia. cbn. eauto.
  - intros n. unfold read_head_lines. by rewrite head_lines_spec.
  - intros reader H. by rewrite (count_lines_streams reader file H), count_lines_in_lines.
Qed.

(** *** A file of three lines, the last without a line feed *)

Definition sample_text : list byte := lit "one" ++ [LF] ++ lit "two" ++ [LF] ++ lit "three".
Definition sample_source : Source :=
  {| is_stdin := false; regular := true; reads := [Ok (lit "one" ++ [LF] ++ lit "t"); Ok (lit "wo" ++ [LF]); Ok (lit "three"); Ok []];
     file_bytes := sample_text |}.

Example last_line : run_window_bytes sample_source (Tail 1) = Ok (lit "three", true).
Proof. by vm_compute. Qed.
End ReadWindow.
