(* ===== verification/Rewrite.v ===== *)
(** Command rewriting ([fork-core/rtk/src/discover/registry.rs], with
    [shell_split] of [lexer.rs]): how a command line is taken apart, its segments
    rewritten and put together again, and the reads of whole files and windows.

    [segment] is [rewrite_segment_inner] at depth zero, the rule table behind it
    included, and [None] when it panics; the theorems about the layout hold for
    every such function.  The regex crate is the parameter [strip_env]
    ([ENV_PREFIX.replace]), and [on_path] says whether an absolute path is the
    executable that its name resolves to.  A slice that would panic is [None], so
    an operation that slices answers an [option]. *)

From S2P Require Import Prelude RStr Lexer Segments Permissions ReadWindow.
From Stdlib Require Import ZifyBool ZifyN ZifyNat.

Module Rewrite.
Import Lexer Segments.

(** ** Words *)

(** The loop of [shell_split]: the word so far and whether it is in single or in
    double quotes. *)
Fixpoint split_words (s : rstr) (current : rstr) (in_single in_double : bool) : list rstr :=
  match s with
  | [] => if is_empty current then [] else [current]
  | c :: s =>
      if (c =? BACKSLASH) && negb in_single then
        match s with
        | [] => if is_empty current then [] else [current]
        | next :: s => split_words s (current ++ [next]) in_single in_double
        end
      else if (c =? SQUOTE) && negb in_double then split_words s current (negb in_single) in_double
      else if (c =? DQUOTE) && negb in_single then split_words s current in_single (negb in_double)
      else if ((c =? 32) || (c =? 9)) && negb in_single && negb in_double then
        if is_empty current then split_words s [] in_single in_double
        else current :: split_words s [] in_single in_double
      else split_words s (current ++ [c]) in_single in_double
  end.

Definition shell_split (input : rstr) : list rstr := split_words input [] false false.

(** ** Reading a file, or a window of it *)

Definition decimal_line_count (value : rstr) : option rstr :=
  if negb (is_empty value) && forallb is_ascii_digit value then Some value else None.

Definition parse_line_count (flag : rstr) : option rstr :=
  count ← match strip_prefix (lit "--lines=") flag with Some c => Some c | None => strip_prefix (lit "-") flag end;
  decimal_line_count count.

Definition quoted_literal (q : char) (word : rstr) : bool :=
  (2 <=? length word)%nat && starts_with [q] word && ends_with [q] word && negb (contains_char q (removelast (tail word))).

Definition is_operand_char (c : char) : bool :=
  is_ascii_alphanumeric c || existsb (N.eqb c) (lit "._/-~+@:,=") || negb (is_ascii c).

(** The loop of [is_single_file_operand]; every turn takes a character. *)
Fixpoint operand_chars (fuel : nat) (word : rstr) : bool :=
  match fuel, word with
  | _, [] => true
  | O, _ => false
  | S fuel, c :: rest =>
      if c =? ch "$" then
        match rest with
        | d :: rest' =>
            if d =? ch "{" then
              match split_once (lit "}") rest' with
              | Some (name, rest) => negb (is_empty name) && forallb is_name_char name && operand_chars fuel rest
              | None => false
              end
            else operand_chars fuel rest
        | [] => true
        end
      else is_operand_char c && operand_chars fuel rest
  end.

Definition is_single_file_operand (word : rstr) : bool :=
  if is_empty word || starts_with (lit "-") word || starts_with (lit "#") word then false
  else if quoted_literal SQUOTE word then true
  else if quoted_literal DQUOTE word then negb (contains_char BACKSLASH (removelast (tail word)))
  else operand_chars (length word) word.

Definition head_flag : rstr := lit "--head-lines".
Definition tail_flag : rstr := lit "--tail-lines".

(** [format!("rtk read {operand} {window} {lines}")]. *)
Definition rtk_read (operand window lines : rstr) : rstr :=
  lit "rtk read " ++ operand ++ lit " " ++ window ++ lit " " ++ lines.

Definition rewrite_head_tail (words : list rstr) (path : option rstr) : option rstr :=
  match words with
  | [] => None
  | tool :: rest =>
      window ← (if str_eqb tool (lit "head") then Some head_flag
                else if str_eqb tool (lit "tail") then Some tail_flag else None);
      '(lines, file) ←
        match rest with
        | [file] => Some (lit "10", file)
        | [flag; file] =>
            count ← match strip_prefix (lit "--lines=") flag with
                    | Some c => Some c
                    | None => match strip_prefix (lit "-n") flag with Some c => Some c | None => strip_prefix (lit "-") flag end
                    end;
            count ← decimal_line_count count;
            Some (count, file)
        | [flag; count; file] =>
            if one_of flag [lit "-n"; lit "--lines"] then count ← decimal_line_count count; Some (count, file) else None
        | _ => None
        end;
      let operand := default file path in
      if is_single_file_operand operand then Some (rtk_read operand window lines) else None
  end.

Definition parse_sed_read_span (value : rstr) : option (rstr * rstr) :=
  value ← strip_suffix (lit "p") value;
  '(from, to) ← split_once (lit ",") value;
  from_line ← parse_unsigned u64_max from;
  to_line ← parse_unsigned u64_max to;
  if (0 <? from_line) && (from_line <=? to_line) then Some (from, to) else None.

(** [shell_word_spans(cmd).last().map(|span| &cmd[span])]. *)
Definition last_word (cmd : rstr) : option (option rstr) :=
  match last (shell_word_spans cmd) with
  | Some (a, b) => word ← slice a b cmd; Some (Some word)
  | None => Some None
  end.

Definition is_plain (t : ParsedToken) : bool :=
  bool_decide (kind t = Arg)
  || bool_decide (kind t = Shellism) && starts_with (lit "$") (value t) && negb (starts_with (lit "$(") (value t)).

Definition rewrite_line_range (cmd : rstr) : option (option rstr) :=
  let tokens := tokenize cmd in
  if starts_with (lit "head") cmd || starts_with (lit "tail") cmd then
    if negb (forallb is_plain tokens) then Some None
    else
      path ← last_word cmd;
      Some (rewrite_head_tail (shell_split cmd) path)
  else if forallb (fun t => bool_decide (kind t = Arg)) tokens then
    path ← last_word cmd;
    Some (match shell_split cmd with
          | [tool; flag; span; file] =>
              if str_eqb tool (lit "sed") && str_eqb flag (lit "-n") then
                '(from, to) ← parse_sed_read_span span;
                Some (lit "rtk read " ++ default file path ++ lit " --from " ++ from ++ lit " --to " ++ to)
              else None
          | [tool; flag; file] =>
              if str_eqb tool (lit "nl") && str_eqb flag (lit "-ba")
              then Some (lit "rtk read " ++ default file path ++ lit " -n") else None
          | _ => None
          end)
  else Some None.

Section Rewrite.
Context (on_path : rstr -> rstr -> bool) (strip_env : rstr -> rstr).

Definition strip_absolute_path (cmd : rstr) : rstr :=
  let '(first_word, behind) := span (N.eqb 32) cmd in
  if starts_with (lit "/") first_word then
    let basename := rsplit_next (ch "/") first_word in
    if is_empty basename || negb (on_path first_word basename) then cmd else basename ++ behind
  else cmd.

Definition is_stdout_pipe (t : ParsedToken) : bool := bool_decide (kind t = Pipe Stdout).

(** [cat FILE | head], and the like. *)
Definition rewrite_bounded_read_pipeline (command : rstr) : option (option rstr) :=
  let tokens := tokenize command in
  match List.filter is_stdout_pipe tokens with
  | [pipe] =>
      if existsb (fun t => match kind t with Operator | Redirect | Pipe StdoutAndStderr => true | _ => false end) tokens
      then Some None
      else
        before ← slice_to (offset pipe) command;
        behind ← slice_from (tok_end pipe) command;
        let producer := trim before in
        let consumer := trim behind in
        match shell_split (strip_absolute_path producer) with
        | [tool; operand] =>
            if negb (str_eqb tool (lit "cat")) || str_eqb operand (lit "-") then Some None
            else match nth_error (shell_word_spans producer) 1 with
                 | None => Some None
                 | Some (a, b) =>
                     file ← slice a b producer;
                     if negb (is_single_file_operand file) then Some None
                     else
                       let window flag lines := lines ← lines; Some (rtk_read file flag lines) in
                       Some (match shell_split (strip_absolute_path consumer) with
                             | [tool] => if str_eqb tool (lit "cat") then Some (lit "rtk read " ++ file) else None
                             | [tool; flag] =>
                                 if str_eqb tool (lit "head") then window head_flag (parse_line_count flag)
                                 else if str_eqb tool (lit "tail") then window tail_flag (parse_line_count flag) else None
                             | [tool; flag; lines] =>
                                 let counted := one_of flag [lit "-n"; lit "--lines"] in
                                 if str_eqb tool (lit "head") && counted then window head_flag (decimal_line_count lines)
                                 else if str_eqb tool (lit "tail") && counted then window tail_flag (decimal_line_count lines)
                                 else None
                             | _ => None
                             end)
                 end
        | _ => Some None
        end
  | _ => Some None
  end.

(** ** Compound commands *)

Inductive RewriteContext := Normal | PipelineFinal | PipelineProducer.

Context (segment : RewriteContext -> rstr -> option (option rstr)).

(** [rewrite_segment]. *)
Definition rewrite_segment (seg : rstr) : option (option rstr) := segment Normal seg.

Record PipelineAnalysis := {
  end_offset : nat;
  next_clause_offset : option nat;
  final_stage_start : option nat;
  all_consumers_safe : bool;
}.

Definition SAFE_PIPE_CONSUMERS : list rstr := [lit "head"; lit "tail"; lit "cat"].

Definition is_safe_pipe_consumer (stage : rstr) : bool :=
  match split_whitespace stage with head :: _ => one_of head SAFE_PIPE_CONSUMERS | [] => false end.

(** What the loop of [analyze_pipeline] carries along. *)
Record Stages := { stage_start : nat; final_start : option nat; supported : bool; consumers_safe : bool }.

Definition is_ampersand (t : ParsedToken) : bool := bool_decide (kind t = Shellism) && str_eqb (value t) (lit "&").

(** A token that ends a pipeline. *)
Definition ends_clause (t : ParsedToken) : bool := bool_decide (kind t = Operator) || is_ampersand t.

Fixpoint stages (cmd : rstr) (first_pipe fin : nat) (tokens : list ParsedToken) (st : Stages) : option Stages :=
  match tokens with
  | [] => Some st
  | t :: tokens =>
      if (fin <=? offset t)%nat then Some st
      else if (offset t <? first_pipe)%nat then stages cmd first_pipe fin tokens st
      else match kind t with
           | Redirect =>
               stages cmd first_pipe fin tokens
                 {| stage_start := stage_start st; final_start := final_start st; supported := supported st; consumers_safe := false |}
           | Pipe k =>
               stage ← slice (stage_start st) (offset t) cmd;
               stages cmd first_pipe fin tokens
                 {| stage_start := tok_end t; final_start := Some (tok_end t);
                    supported := if is_empty (trim stage) || bool_decide (k = StdoutAndStderr) then false else supported st;
                    consumers_safe := if (first_pipe <? offset t)%nat && negb (is_safe_pipe_consumer (trim stage))
                                      then false else consumers_safe st |}
           | _ => stages cmd first_pipe fin tokens st
           end
  end.

Definition analyze_pipeline (cmd : rstr) (tokens : list ParsedToken) (segment_start first_pipe : nat) : option PipelineAnalysis :=
  let next := offset <$> List.find (fun t => (first_pipe <? offset t)%nat && ends_clause t) tokens in
  let fin := default (blen cmd) next in
  st ← stages cmd first_pipe fin tokens
    {| stage_start := segment_start; final_start := None; supported := true; consumers_safe := true |};
  last_stage ← slice (stage_start st) fin cmd;
  let supported' := supported st && negb (is_empty (trim last_stage)) in
  let safe := if is_empty (trim last_stage) then consumers_safe st
              else consumers_safe st && is_safe_pipe_consumer (trim last_stage) in
  Some {| end_offset := fin; next_clause_offset := next;
          final_stage_start := if supported' then final_start st else None;
          all_consumers_safe := supported' && safe |}.

(** [cmd[start..end]] with its text replaced and its white space kept. *)
Definition splice (cmd : rstr) (start fin : nat) (rewritten : rstr) : option rstr :=
  region ← slice start fin cmd;
  let lead := (blen region - blen (trim_start region))%nat in
  let body_end := Nat.max (blen (trim_end region)) lead in
  a ← slice_to lead region;
  b ← slice_from body_end region;
  Some (a ++ rewritten ++ b).

(** [.filter(|rewritten| rewritten != text)]. *)
Definition changed (text : rstr) (rewritten : option rstr) : option rstr :=
  match rewritten with Some r => if str_eqb r text then None else Some r | None => None end.

Definition rewrite_pipeline_final_stage (cmd : rstr) (segment_start : nat) (analysis : PipelineAnalysis) : option (option rstr) :=
  match final_stage_start analysis with
  | None => Some None
  | Some start =>
      region ← slice start (end_offset analysis) cmd;
      let final_stage := trim region in
      rewritten ← segment PipelineFinal final_stage;
      match changed final_stage rewritten with
      | None => Some None
      | Some rewritten =>
          producers ← slice segment_start start cmd;
          spliced ← splice cmd start (end_offset analysis) rewritten;
          Some (Some (producers ++ spliced))
      end
  end.

Definition unordered_producers : list rstr :=
  [lit "ls"; lit "find"; lit "tree"; lit "wc"; lit "grep"; lit "rg"; lit "du"].

Definition rewrite_pipeline_producer (cmd : rstr) (segment_start first_pipe : nat) (analysis : PipelineAnalysis)
    : option (option rstr) :=
  if negb (all_consumers_safe analysis) then Some None
  else
    region ← slice segment_start first_pipe cmd;
    let producer := trim region in
    let program := match shell_split (trim (strip_env producer)) with
                   | word :: _ => Permissions.executable_name on_path word
                   | [] => []
                   end in
    if one_of program unordered_producers then Some None
    else
      rewritten ← segment PipelineProducer producer;
      match changed producer rewritten with
      | None => Some None
      | Some rewritten =>
          spliced ← splice cmd segment_start first_pipe rewritten;
          consumers ← slice first_pipe (end_offset analysis) cmd;
          Some (Some (spliced ++ consumers))
      end.

(** What [rewrite_compound] has written, whether anything changed, and where the
    text goes on. *)
Record Compound := { result_ : rstr; any_changed : bool; seg_start : nat }.

(** A segment up to [fin], rewritten if it can be, and what ends it. *)
Definition emit_segment (cmd : rstr) (fin : nat) (separator : rstr) (next : nat) (st : Compound) : option Compound :=
  region ← slice (seg_start st) fin cmd;
  let seg := trim region in
  rewritten ← rewrite_segment seg;
  let rewritten := default seg rewritten in
  spliced ← splice cmd (seg_start st) fin rewritten;
  Some {| result_ := result_ st ++ spliced ++ separator; any_changed := any_changed st || negb (str_eqb rewritten seg);
          seg_start := next |}.

(** The pipeline that starts at [seg_start] and has its first pipe at [t]. *)
Definition emit_pipeline (cmd : rstr) (tokens : list ParsedToken) (t : ParsedToken) (st : Compound)
    : option (PipelineAnalysis * Compound) :=
  analysis ← analyze_pipeline cmd tokens (seg_start st) (offset t);
  final ← rewrite_pipeline_final_stage cmd (seg_start st) analysis;
  rewritten ← match final with
              | Some r => Some (Some r)
              | None => rewrite_pipeline_producer cmd (seg_start st) (offset t) analysis
              end;
  text ← match rewritten with Some r => Some r | None => slice (seg_start st) (end_offset analysis) cmd end;
  Some (analysis,
        {| result_ := result_ st ++ text; any_changed := any_changed st || bool_decide (is_Some rewritten);
           seg_start := default (end_offset analysis) (next_clause_offset analysis) |}).

Definition then_some (st : Compound) : option rstr := if any_changed st then Some (result_ st) else None.

(** The loop; [inl] goes on to the last segment, [inr] returned from within. *)
Fixpoint compound_loop (cmd : rstr) (all tokens : list ParsedToken) (st : Compound) : option (Compound + option rstr) :=
  match tokens with
  | [] => Some (inl st)
  | t :: tokens =>
      if (offset t <? seg_start st)%nat then compound_loop cmd all tokens st
      else match kind t with
           | Pipe _ =>
               '(analysis, st) ← emit_pipeline cmd all t st;
               match next_clause_offset analysis with
               | Some _ => compound_loop cmd all tokens st
               | None => Some (inr (then_some st))
               end
           | _ =>
               if ends_clause t then
                 st ← emit_segment cmd (offset t) (value t) (tok_end t) st;
                 compound_loop cmd all tokens st
               else compound_loop cmd all tokens st
           end
  end.

Definition is_grouping (t : ParsedToken) : bool :=
  bool_decide (kind t = Shellism) && one_of (value t) [lit "("; lit ")"; lit "{"; lit "}"].

Definition is_pipe (t : ParsedToken) : bool := match kind t with Pipe _ => true | _ => false end.

Definition rewrite_compound (cmd : rstr) : option (option rstr) :=
  let tokens := tokenize cmd in
  if existsb is_pipe tokens && existsb is_grouping tokens then Some None
  else
    outcome ← compound_loop cmd tokens tokens {| result_ := []; any_changed := false; seg_start := 0 |};
    match outcome with
    | inr answer => Some answer
    | inl st => st ← emit_segment cmd (blen cmd) [] (blen cmd) st; Some (then_some st)
    end.

Definition rewrite_single (trimmed : rstr) : option (option rstr) :=
  let has_compound := contains (lit "&&") trimmed || contains (lit "||") trimmed || contains (lit ";") trimmed
                      || contains (lit "|") trimmed || contains (lit " & ") trimmed in
  if negb has_compound && (starts_with (lit "rtk ") trimmed || str_eqb trimmed (lit "rtk")) then Some (Some trimmed)
  else
    read ← rewrite_bounded_read_pipeline trimmed;
    match read with Some r => Some (Some r) | None => rewrite_compound trimmed end.
End Rewrite.


(** ** The layout of the answer *)

Definition separates (t : ParsedToken) : bool := ends_clause t || is_pipe t.

(** A region of a command starts and ends at its ends or at a token that
    separates commands. *)
Definition starts_at (cmd : rstr) (n : nat) : Prop :=
  n = 0%nat \/ exists t, t ∈ tokenize cmd /\ separates t = true /\ tok_end t = n.
Definition ends_at (cmd : rstr) (n : nat) : Prop :=
  n = blen cmd \/ exists t, t ∈ tokenize cmd /\ separates t = true /\ offset t = n.

(** *** The tokens in order *)

Fixpoint in_order (cmd : rstr) (n : nat) (tokens : list ParsedToken) : Prop :=
  match tokens with
  | [] => True
  | t :: tokens =>
      (n <= offset t)%nat /\ (offset t < tok_end t)%nat /\ boundary (offset t) cmd /\ boundary (tok_end t) cmd /\
      (ends_clause t = true -> slice (offset t) (tok_end t) cmd = Some (value t)) /\ in_order cmd (tok_end t) tokens
  end.

(** No operator of [tokenize] is a line feed. *)
Definition inline (t : ParsedToken) : Prop := kind t = Operator -> value t <> [LF].

Lemma flush_inline ts current start : Forall inline ts -> Forall inline (flush_arg ts current start).
Proof. intros H. unfold flush_arg. case_match; [done|]. apply Forall_app. split; [done|]. by apply Forall_singleton. Qed.

Lemma pushed_inline st ts t : Forall inline ts -> inline t -> Forall inline (Lexer.tokens (pushed st ts t)).
Proof. intros. cbn. apply Forall_app. split; [done|]. by apply Forall_singleton. Qed.

Lemma tok_step_inline st c rest : Forall inline (Lexer.tokens st) -> Forall inline (Lexer.tokens (tok_step false st c rest).1).
Proof.
  intros H. unfold tok_step, step_dollar, step_pipe, step_amp, step_greater, step_less.
  assert (Forall inline (flushed st)) as Hf by by apply flush_inline.
  repeat case_match; simplify_eq; cbn [fst andb] in *; try done;
    (apply pushed_inline; [by repeat case_match | done]).
Qed.

Lemma tok_loop_inline fuel : forall st input, Forall inline (Lexer.tokens st) ->
  Forall inline (Lexer.tokens (tok_loop false fuel st input).1).
Proof.
  induction fuel as [|fuel IH]; intros st [|c rest] H; try done. cbn [tok_loop].
  pose proof (tok_step_inline st c rest H). destruct (tok_step false st c rest) as [st' rest']. by apply IH.
Qed.

Lemma tokenize_inline cmd : Forall inline (tokenize cmd).
Proof. unfold tokenize, tokenize_inner, tok_finish. apply flush_inline, tok_loop_inline. constructor. Qed.

Lemma ahead_in_order n ts s : ahead false n ts s -> Forall inline ts -> forall pre, n = blen pre -> in_order (pre ++ s) n ts.
Proof.
  induction 1 as [n|n ts c s Hw Hn H IH|n t ts src s Ho Hne Ht Hs H IH]; intros Hin pre ->; [done| |].
  - assert (in_order ((pre ++ [c]) ++ s) (blen pre + len_utf8 c) ts) as Hi
      by (apply IH; [done | rewrite blen_app; simpl; lia]).
    rewrite <- app_assoc in Hi. destruct ts as [|t ts]; [done|]. cbn in *. destruct Hi as (? & ? & ? & ? & ? & ?). split_and!; try done. lia.
  - inversion Hin as [|? ? Ht' Hin']; subst. pose proof (tok_text_blen _ _ Ht) as Hb.
    assert (tok_end t = blen (pre ++ src)) as He by (unfold tok_end; by rewrite Ho, blen_app, Hb).
    cbn [in_order]. rewrite He, Ho. split_and!; [done | | by exists pre, (src ++ s) | by exists (pre ++ src), s; rewrite <- app_assoc | |].
    + rewrite blen_app. destruct src as [|c src]; [done|]. cbn. pose proof (len_utf8_pos c). lia.
    + intros Hc. assert (value t = src) as ->.
      { unfold tok_text in Ht. unfold ends_clause, is_ampersand in Hc. unfold inline in Ht'.
        destruct (kind t); try done; [|by destruct Ht]. destruct Ht as [ [-> _]|[_ Ht] ]; [done|]. by destruct Ht'. }
      apply (slice_parts _ pre src s); done.
    + rewrite app_assoc, blen_app. apply IH; [done|]. by rewrite blen_app.
Qed.

Lemma tokenize_in_order cmd : in_order cmd 0 (tokenize cmd).
Proof. apply (ahead_in_order 0 (tokenize cmd) cmd (tokenize_ahead cmd false) (tokenize_inline cmd) []). done. Qed.

(** *** Splicing *)

Lemma slice_inv a b s t : slice a b s = Some t -> exists x z, s = x ++ t ++ z /\ a = blen x /\ b = blen (x ++ t).
Proof.
  unfold slice, slice_from, slice_to. destruct (Nat.leb_spec a b) as [Hle|]; [|done].
  destruct (split_at a s) as [ [x y]|] eqn:E; [|done]. apply split_at_Some in E as [-> <-]. cbn.
  destruct (split_at _ y) as [ [u v]|] eqn:E'; [|done]. apply split_at_Some in E' as [-> Hb]. cbn. intros [= ->].
  exists x, v. rewrite blen_app. split_and!; [done | done | lia].
Qed.

Lemma trim_split s : exists w w', s = w ++ trim s ++ w' /\ forallb is_whitespace w = true /\ forallb is_whitespace w' = true /\
  trim_start s = trim s ++ w' /\ (trim s <> [] -> trim_end s = w ++ trim s).
Proof.
  unfold trim. destruct (skip_while_suffix is_whitespace s) as (w & Hs & Hw).
  destruct (trim_end_split (trim_start s)) as (w' & H1 & H2). exists w, w'. split_and!; try done.
  - rewrite <- H1. done.
  - intros Hne. unfold trim_start in *. set (u := skip_while is_whitespace s) in *. rewrite Hs at 1. rewrite H1 at 1. clear - H2 Hne.
    unfold trim_end at 1, trim_end_matches. rewrite !reverse_app, <- app_assoc.
    assert (forall v x, forallb is_whitespace v = true -> skip_while is_whitespace (v ++ x) = skip_while is_whitespace x) as Hskip.
    { clear. induction v as [|c v IH]; intros x; cbn; [done|]. intros H. apply andb_true_iff in H as [-> H]. by apply IH. }
    rewrite Hskip.
    + unfold trim_end, trim_end_matches in *. rewrite reverse_involutive.
      set (x := skip_while is_whitespace (reverse u)) in *.
      assert (exists c r, x = c :: r /\ is_whitespace c = false) as (c & r & Hx & Hc).
      { clear - Hne. subst x. revert Hne. induction (reverse u) as [|c l IH]; cbn; [done|]. destruct (is_whitespace c) eqn:E; [done|]. eauto. }
      rewrite Hx. cbn [skip_while app]. rewrite Hc, <- Hx. change (c :: r ++ reverse w) with ((c :: r) ++ reverse w). rewrite <- Hx.
      by rewrite reverse_app, reverse_involutive.
    + apply forallb_forall. intros y. rewrite <- list_elem_of_In, elem_of_reverse, list_elem_of_In. by apply forallb_forall.
Qed.

Lemma trim_blank w : forallb is_whitespace w = true -> trim w = [].
Proof.
  intros H. destruct (trim_split w) as (a & b & Hs & _ & _ & Hst & _). unfold trim, trim_start.
  assert (skip_while is_whitespace w = []) as ->; [|done]. clear - H. induction w as [|c w IH]; cbn in *; [done|].
  apply andb_true_iff in H as [-> H]. auto.
Qed.

(** Splicing keeps the white space around the trimmed region. *)
Lemma splice_ok cmd n m region : slice n m cmd = Some region -> exists w w',
  region = w ++ trim region ++ w' /\ forallb is_whitespace w = true /\ forallb is_whitespace w' = true /\
  forall r, splice cmd n m r = Some (w ++ r ++ w').
Proof.
  intros H. destruct (trim_split region) as (w & w' & Hs & Hw & Hw' & Hst & Hen).
  unfold splice. rewrite H. cbv [mbind option_bind].
  assert (blen region - blen (trim_start region) = blen w)%nat as -> by (rewrite Hst, Hs at 1; rewrite !blen_app; lia).
  destruct (decide (trim region = [])) as [E|E].
  - assert (trim_start region = []) as Hts.
    { rewrite Hst, E. cbn. destruct w' as [|c w']; [done|]. exfalso. rewrite E in Hst. cbn [app] in *. cbn in Hw'.
      apply andb_true_iff in Hw' as [Hc _]. unfold trim_start in Hst. clear - Hst Hc.
      induction region as [|d region IH]; cbn in Hst; [done|]. destruct (is_whitespace d) eqn:Ed; [auto|].
      injection Hst as <- _. congruence. }
    exists w, []. assert (w' = []) as -> by (rewrite Hst, E in Hts; done). split_and!; try done. intros r.
    rewrite E in Hs. cbn [app] in Hs. rewrite app_nil_r in Hs. subst region. rewrite Nat.max_r.
    + assert (slice_to (blen w) w = Some w) as -> by (rewrite <- (app_nil_r w) at 2; apply slice_to_app).
      assert (slice_from (blen w) w = Some []) as -> by (rewrite <- (app_nil_r w) at 2; apply slice_from_app). done.
    + clear. destruct (trim_split w) as (a & b & Hs & _). unfold trim_end, trim_end_matches.
      destruct (skip_while_suffix is_whitespace (reverse w)) as (v & Hv & _). apply (f_equal reverse) in Hv.
      rewrite reverse_involutive, reverse_app in Hv. rewrite Hv at 2. rewrite blen_app. lia.
  - exists w, w'. split_and!; try done. intros r. rewrite (Hen E), Nat.max_l by (rewrite blen_app; lia).
    assert (slice_to (blen w) region = Some w) as -> by (rewrite Hs; apply slice_to_app).
    assert (slice_from (blen (w ++ trim region)) region = Some w') as ->; [|done].
    rewrite Hs at 2. rewrite app_assoc. apply slice_from_app.
Qed.
(** *** Pipelines *)

Lemma in_order_in cmd n ts t : in_order cmd n ts -> t ∈ ts ->
  (n <= offset t)%nat /\ (offset t < tok_end t)%nat /\ boundary (offset t) cmd /\ boundary (tok_end t) cmd.
Proof.
  revert n. induction ts as [|u ts IH]; intros n H Hin; [by apply elem_of_nil in Hin|].
  destruct H as (H1 & H2 & H3 & H4 & _ & H5). apply elem_of_cons in Hin as [->|Hin]; [done|].
  destruct (IH _ H5 Hin) as (? & ? & ? & ?). split_and!; try done. lia.
Qed.

Lemma boundary_end cmd : boundary (blen cmd) cmd.
Proof. exists cmd, []. by rewrite app_nil_r. Qed.

Lemma boundary_le cmd n : boundary n cmd -> (n <= blen cmd)%nat.
Proof. intros (x & z & -> & ->). rewrite blen_app. lia. Qed.

(** A token of the command that starts before another ends before it. *)
Lemma in_order_before cmd n ts t u : in_order cmd n ts -> t ∈ ts -> u ∈ ts -> (offset t < offset u)%nat -> (tok_end t <= offset u)%nat.
Proof.
  revert n. induction ts as [|v ts IH]; intros n H Ht Hu Hlt; [by apply elem_of_nil in Ht|].
  destruct H as (H1 & H2 & _ & _ & _ & H5). apply elem_of_cons in Ht as [->|Ht]; apply elem_of_cons in Hu as [->|Hu]; [lia | | |].
  - apply (in_order_in _ _ _ _ H5) in Hu. lia.
  - apply (in_order_in _ _ _ _ H5) in Ht. lia.
  - by apply (IH _ H5).
Qed.

Definition stage_ok (cmd : rstr) (fin : nat) (st : Stages) : Prop :=
  boundary (stage_start st) cmd /\ (stage_start st <= fin)%nat /\
  forall n, final_start st = Some n -> n = stage_start st /\ starts_at cmd n.

Lemma stages_ok cmd first_pipe fin tokens :
  (forall t, t ∈ tokens -> t ∈ tokenize cmd /\ ((offset t < fin)%nat -> (tok_end t <= fin)%nat)) -> forall n st,
  in_order cmd n tokens -> stage_ok cmd fin st -> (stage_start st <= Nat.max n first_pipe)%nat ->
  exists st', stages cmd first_pipe fin tokens st = Some st' /\ stage_ok cmd fin st' /\ (stage_start st <= stage_start st')%nat.
Proof.
  induction tokens as [|t tokens IH]; intros Hin n st Ho Hst Hle; [by exists st|].
  destruct Ho as (H1 & H2 & H3 & H4 & _ & H5). cbn [stages].
  destruct (Hin t ltac:(left)) as [Htok Hfin]. assert (forall t, t ∈ tokens -> t ∈ tokenize cmd /\ ((offset t < fin)%nat -> (tok_end t <= fin)%nat)) as Hin'
    by (intros u Hu; apply Hin; by right). specialize (IH Hin' (tok_end t)).
  destruct (Nat.leb_spec fin (offset t)); [by exists st|].
  destruct (Nat.ltb_spec (offset t) first_pipe); [apply IH; [done..|lia]|].
  destruct Hst as (Hb & Hf & Hn). destruct (kind t) eqn:Ek; [apply IH; [done..|lia]| apply IH; [done..|lia]| | | apply IH; [done..|lia]].
  - destruct (boundary_slice _ _ _ Hb H3 ltac:(lia)) as (stage & -> & _). cbv [mbind option_bind].
    edestruct IH as (st' & Hs & Hok & Hle'); [done| | |exists st'; split; [exact Hs|split; [done|] ] ]; cbn [stage_start final_start] in *; [|lia|lia].
    split_and!; cbn; [done | by apply Hfin |]. intros n' [= <-]. split; [done|]. right. exists t. unfold separates, is_pipe. rewrite Ek. by rewrite orb_true_r.
  - edestruct IH as (st' & Hs & Hok & Hle'); [done| | |exists st'; split; [exact Hs|split; [done|] ] ]; cbn [stage_start final_start] in *; [done|lia|lia].
Qed.

(** Where the pipeline that has its first pipe at [t] ends. *)
Lemma analyze_pipeline_ok cmd start t : t ∈ tokenize cmd -> is_pipe t = true -> boundary start cmd -> (start <= offset t)%nat ->
  exists a, analyze_pipeline cmd (tokenize cmd) start (offset t) = Some a /\
    boundary (end_offset a) cmd /\ (tok_end t <= end_offset a)%nat /\ ends_at cmd (end_offset a) /\
    match next_clause_offset a with
    | Some n => n = end_offset a /\ exists u, u ∈ tokenize cmd /\ ends_clause u = true /\ offset u = n
    | None => end_offset a = blen cmd
    end /\
    forall n, final_stage_start a = Some n -> starts_at cmd n /\ boundary n cmd /\ (start <= n <= end_offset a)%nat.
Proof.
  intros Ht Hp Hb Hle. pose proof (tokenize_in_order cmd) as Hord.
  destruct (in_order_in _ _ _ _ Hord Ht) as (_ & Hlt & Hbo & Hbe). unfold analyze_pipeline.
  remember (List.find (fun u => (offset t <? offset u)%nat && ends_clause u) (tokenize cmd)) as found eqn:Eu. symmetry in Eu.
  remember (default (blen cmd) (offset <$> found)) as fin eqn:Efin.
  assert (boundary fin cmd /\ (tok_end t <= fin)%nat /\ ends_at cmd fin /\
    (forall v, v ∈ tokenize cmd -> (offset v < fin)%nat -> (tok_end v <= fin)%nat) /\
    match offset <$> found with
    | Some n => n = fin /\ exists u, u ∈ tokenize cmd /\ ends_clause u = true /\ offset u = n
    | None => fin = blen cmd
    end) as (Hub & Hte & Hend & Hin & Hnext).
  { destruct found as [u|]; cbn in Efin; subst fin.
    - apply List.find_some in Eu as [Hu Eu]. apply list_elem_of_In in Hu. apply andb_true_iff in Eu as [Eo Ec]. apply Nat.ltb_lt in Eo.
      split_and!; [by apply (in_order_in _ _ _ _ Hord Hu) | by apply (in_order_before _ _ _ _ _ Hord) | | |].
      + right. exists u. unfold separates. by rewrite Ec.
      + intros v Hv. by apply (in_order_before _ _ _ _ _ Hord).
      + cbn. split; [done|]. by exists u.
    - split_and!; [apply boundary_end | by apply boundary_le | by left | | done].
      intros v Hv _. apply boundary_le. by apply (in_order_in _ _ _ _ Hord Hv). }
  clear Efin Eu.
  destruct (stages_ok cmd (offset t) fin (tokenize cmd) ltac:(intros v Hv; split; [done | by apply Hin]) 0
    {| stage_start := start; final_start := None; supported := true; consumers_safe := true |} Hord)
    as (st & Hs & (Hsb & Hsf & Hsn) & Hmono); [by split_and!; cbn; [|lia|] | cbn; lia |].
  rewrite Hs. cbv [mbind option_bind]. destruct (boundary_slice _ _ _ Hsb Hub Hsf) as (stage & -> & _).
  eexists. split; [done|]. cbn [end_offset next_clause_offset final_stage_start stage_start] in *.
  split_and!; [done..|]. intros n. destruct (supported st && negb (is_empty (trim stage))); [|done]. intros Hn.
  destruct (Hsn _ Hn) as [-> ?]. split_and!; done.
Qed.

(** *** The pieces of a compound command *)

(** [relaid rewrites cmd n m b out]: [out] is the command from byte [n] to byte [m],
    copied except for whole regions, whose trimmed text is rewritten; [b] says
    whether there is one. *)
Inductive relaid (rewrites : RewriteContext -> rstr -> rstr -> Prop) (cmd : rstr) : nat -> nat -> bool -> rstr -> Prop :=
| relaid_copy n m s : slice n m cmd = Some s -> relaid rewrites cmd n m false s
| relaid_rewrite ctx n m w seg w' r :
    starts_at cmd n -> ends_at cmd m -> slice n m cmd = Some (w ++ seg ++ w') ->
    forallb is_whitespace w = true -> forallb is_whitespace w' = true -> seg = trim (w ++ seg ++ w') ->
    rewrites ctx seg r -> r <> seg -> relaid rewrites cmd n m true (w ++ r ++ w')
| relaid_app n k m b b' s s' : relaid rewrites cmd n k b s -> relaid rewrites cmd k m b' s' -> relaid rewrites cmd n m (b || b') (s ++ s').

Lemma relaid_impl (R R' : RewriteContext -> rstr -> rstr -> Prop) cmd n m b out :
  (forall ctx seg r, R ctx seg r -> R' ctx seg r) -> relaid R cmd n m b out -> relaid R' cmd n m b out.
Proof.
  intros H. induction 1; [by apply relaid_copy | eapply relaid_rewrite; eauto | by eapply relaid_app].
Qed.

Lemma relaid_back R cmd n k m b s s' : relaid R cmd n k b s -> slice k m cmd = Some s' -> relaid R cmd n m b (s ++ s').
Proof. intros H Hs. rewrite <- (orb_false_r b). eapply relaid_app; [done|]. by apply relaid_copy. Qed.

(** The rewriting that a function answers. *)
Definition answers (segment : RewriteContext -> rstr -> option (option rstr)) (ctx : RewriteContext) (seg r : rstr) : Prop :=
  segment ctx seg = Some (Some r).

Section Layout.
Context (on_path : rstr -> rstr -> bool) (strip_env : rstr -> rstr).
Context (segment : RewriteContext -> rstr -> option (option rstr)).
Context (never_panics : forall ctx s, segment ctx s <> None) (leaves_nothing : forall ctx, segment ctx [] = Some None).

(** A region rewritten in a context: how the text goes on. *)
Lemma rewritten_region ctx cmd n m region : slice n m cmd = Some region -> starts_at cmd n \/ n = m -> ends_at cmd m ->
  exists a, segment ctx (trim region) = Some a /\
  exists out, splice cmd n m (default (trim region) a) = Some out /\
    relaid (answers segment) cmd n m (negb (str_eqb (default (trim region) a) (trim region))) out.
Proof.
  intros Hr Hs He. destruct (segment ctx (trim region)) as [a|] eqn:Ea; [|by apply never_panics in Ea].
  destruct (splice_ok cmd n m region Hr) as (w & w' & Hreg & Hw & Hw' & Hsp).
  exists a. split; [done|]. eexists. split; [apply Hsp|].
  destruct (str_eqb (default (trim region) a) (trim region)) eqn:E; cbn [negb].
  - apply bool_decide_eq_true in E. rewrite E, <- Hreg. by apply relaid_copy.
  - assert (default (trim region) a <> trim region) as Hne by by by apply bool_decide_eq_false in E.
    destruct a as [r|]; [|done]. cbn [default from_option id] in *.
    eapply (relaid_rewrite _ cmd ctx); [ | done | by rewrite <- Hreg | done | done | by rewrite <- Hreg | done | done].
    destruct Hs as [Hs| ->]; [done|]. exfalso. apply slice_inv in Hr as (x & z & Hx & Hn & Hm). rewrite Hn, blen_app in Hm.
    destruct region as [|c region]; [by rewrite leaves_nothing in Ea|]. cbn in Hm. pose proof (len_utf8_pos c). lia.
Qed.

(** What has been written so far, and where it goes on. *)
Definition written (cmd : rstr) (st : Compound) : Prop :=
  relaid (answers segment) cmd 0 (seg_start st) (any_changed st) (result_ st) /\ boundary (seg_start st) cmd.

Lemma emit_segment_written cmd st fin separator next :
  written cmd st -> starts_at cmd (seg_start st) \/ seg_start st = fin -> ends_at cmd fin ->
  boundary fin cmd -> (seg_start st <= fin)%nat -> slice fin next cmd = Some separator ->
  exists st', emit_segment segment cmd fin separator next st = Some st' /\ seg_start st' = next /\ written cmd st'.
Proof.
  intros [Hl Hb] Hs He Hf Hle Hsep. destruct (boundary_slice _ _ _ Hb Hf Hle) as (region & Hr & _).
  destruct (rewritten_region Normal cmd _ _ region Hr Hs He) as (a & Ha & out & Ho & Hlay).
  unfold emit_segment, rewrite_segment. rewrite Hr. cbv [mbind option_bind]. rewrite Ha, Ho. eexists. split; [done|].
  split; [done|]. split; cbn [seg_start any_changed result_].
  - rewrite app_assoc. eapply relaid_back; [|done]. by eapply relaid_app.
  - apply slice_inv in Hsep as (x & z & -> & _ & ->). exists (x ++ separator), z. by rewrite <- app_assoc.
Qed.

(** The pipeline is copied, but for its last stage or its producer. *)
Lemma emit_pipeline_written cmd st t :
  t ∈ tokenize cmd -> is_pipe t = true -> written cmd st -> starts_at cmd (seg_start st) -> (seg_start st <= offset t)%nat ->
  exists a st', emit_pipeline on_path strip_env segment cmd (tokenize cmd) t st = Some (a, st') /\ written cmd st' /\ (offset t < seg_start st')%nat /\
    match next_clause_offset a with
    | Some n => seg_start st' = n /\ exists u, u ∈ tokenize cmd /\ ends_clause u = true /\ offset u = n
    | None => seg_start st' = blen cmd
    end.
Proof.
  intros Ht Hp [Hl Hb] Hst Hle. destruct (analyze_pipeline_ok cmd _ t Ht Hp Hb Hle) as (a & Ha & Hab & Hte & Hend & Hnext & Hfin).
  destruct (in_order_in _ _ _ _ (tokenize_in_order cmd) Ht) as (_ & Hlt & Hbo & _).
  assert (default (end_offset a) (next_clause_offset a) = end_offset a) as Hgo
    by (destruct (next_clause_offset a); [by destruct Hnext as [-> _] | done]).
  assert (exists b text, rewrite_pipeline_final_stage segment cmd (seg_start st) a = Some b /\
    (b = Some text -> relaid (answers segment) cmd (seg_start st) (end_offset a) true text) /\ (b = None \/ b = Some text)) as (b & text & Hf & Hft & Hb').
  { unfold rewrite_pipeline_final_stage. destruct (final_stage_start a) as [n|]; [|exists None, []; naive_solver].
    destruct (Hfin n eq_refl) as (Hn & Hnb & Hn1 & Hn2). destruct (boundary_slice _ _ _ Hnb Hab Hn2) as (region & Hr & _).
    destruct (boundary_slice _ _ _ Hb Hnb Hn1) as (front & Hfront & _).
    destruct (rewritten_region PipelineFinal cmd _ _ region Hr (or_introl Hn) Hend) as (r & Hr' & out & Hout & Hlay).
    rewrite Hr. cbv [mbind option_bind]. rewrite Hr'. destruct r as [r|]; [|exists None, []; naive_solver]. cbn [changed default from_option id] in *.
    destruct (str_eqb r (trim region)) eqn:E; [exists None, []; naive_solver|]. rewrite Hfront, Hout. exists (Some (front ++ out)), (front ++ out).
    split_and!; [done | intros _ | by right]. rewrite <- (orb_false_l true). eapply relaid_app; [by apply relaid_copy|done]. }
  assert (b = None -> exists b text, rewrite_pipeline_producer on_path strip_env segment cmd (seg_start st) (offset t) a = Some b /\
    (b = Some text -> relaid (answers segment) cmd (seg_start st) (end_offset a) true text) /\ (b = None \/ b = Some text)) as Hprod.
  { intros _. unfold rewrite_pipeline_producer. destruct (negb _); [exists None, []; naive_solver|].
    destruct (boundary_slice _ _ _ Hb Hbo Hle) as (region & Hr & _). rewrite Hr. cbv [mbind option_bind].
    destruct (one_of _ _); [exists None, []; naive_solver|].
    assert (ends_at cmd (offset t)) as Hpe by (right; exists t; unfold separates; by rewrite Hp, orb_true_r).
    destruct (rewritten_region PipelineProducer cmd _ _ region Hr (or_introl Hst) Hpe) as (r & Hr' & out & Hout & Hlay).
    rewrite Hr'. destruct r as [r|]; [|exists None, []; naive_solver]. cbn [changed default from_option id] in *.
    destruct (str_eqb r (trim region)) eqn:E; [exists None, []; naive_solver|]. rewrite Hout.
    destruct (boundary_slice _ _ _ Hbo Hab ltac:(lia)) as (back & Hback & _). rewrite Hback. exists (Some (out ++ back)), (out ++ back).
    split_and!; [done | intros _ | by right]. by eapply relaid_back. }
  assert (exists b text, emit_pipeline on_path strip_env segment cmd (tokenize cmd) t st = Some (a,
      {| result_ := result_ st ++ text; any_changed := any_changed st || b; seg_start := end_offset a |}) /\
    relaid (answers segment) cmd (seg_start st) (end_offset a) b text) as (b' & text' & He & Hlay).
  { unfold emit_pipeline. rewrite Ha. cbv [mbind option_bind]. rewrite Hf, Hgo.
    destruct Hb' as [-> | ->].
    - destruct (Hprod eq_refl) as (b & text' & -> & Hp' & [-> | ->]).
      + destruct (boundary_slice _ _ _ Hb Hab ltac:(lia)) as (region & Hr & _). rewrite Hr. exists false, region. split; [done|]. by apply relaid_copy.
      + exists true, text'. auto.
    - exists true, text. auto. }
  exists a. eexists. split; [exact He|]. cbn [seg_start]. split_and!; [ | lia |].
  - split; cbn; [by eapply relaid_app | done].
  - destruct (next_clause_offset a); [by destruct Hnext as [-> ?] | done].
Qed.


(** Nothing unread starts a command: the text goes on behind a separator, or at
    one still to come. *)
Definition next_ok (cmd : rstr) (tokens : list ParsedToken) (st : Compound) : Prop :=
  starts_at cmd (seg_start st) \/ exists u, u ∈ tokens /\ ends_clause u = true /\ offset u = seg_start st.

Lemma next_ok_cons cmd n t tokens st : in_order cmd n (t :: tokens) -> next_ok cmd (t :: tokens) st ->
  ((offset t < seg_start st)%nat -> next_ok cmd tokens st) /\
  ((seg_start st <= offset t)%nat -> starts_at cmd (seg_start st) \/ (seg_start st = offset t /\ ends_clause t = true)).
Proof.
  intros (_ & Hlt & _ & _ & _ & Ho) [Hs|(u & Hu & Hc & Hn)]; [by split; left|]. apply elem_of_cons in Hu as [->|Hu].
  - split; [lia | by right].
  - apply (in_order_in _ _ _ _ Ho) in Hu as Hu'. split; [intros _; right; by exists u | lia].
Qed.

Lemma compound_loop_written cmd tokens : forall n st,
  in_order cmd n tokens -> (forall t, t ∈ tokens -> t ∈ tokenize cmd) ->
  (forall t, t ∈ tokenize cmd -> t ∈ tokens \/ (tok_end t <= n)%nat) ->
  written cmd st -> next_ok cmd tokens st ->
  exists outcome, compound_loop on_path strip_env segment cmd (tokenize cmd) tokens st = Some outcome /\
    match outcome with
    | inl st' => written cmd st' /\ starts_at cmd (seg_start st')
    | inr answer => forall out, answer = Some out -> relaid (answers segment) cmd 0 (blen cmd) true out
    end.
Proof.
  induction tokens as [|t tokens IH]; intros n st Ho Hin Hall Hw Hn.
  { exists (inl st). split; [done|]. split; [done|]. destruct Hn as [?|(u & Hu & _)]; [done | by apply elem_of_nil in Hu]. }
  destruct (next_ok_cons _ _ _ _ _ Ho Hn) as [Hskip Hgo]. destruct Ho as (H1 & H2 & H3 & H4 & Hval & Ho). cbn [compound_loop].
  specialize (Hin t ltac:(left)) as Htok. assert (forall u, u ∈ tokens -> u ∈ tokenize cmd) as Hin' by (intros u Hu; apply Hin; by right).
  assert (forall u, u ∈ tokenize cmd -> u ∈ tokens \/ (tok_end u <= tok_end t)%nat) as Hall'.
  { intros u Hu. destruct (Hall u Hu) as [Hu'|]; [|right; lia]. apply elem_of_cons in Hu' as [->|?]; [by right | by left]. }
  specialize (IH (tok_end t)). destruct (Nat.ltb_spec (offset t) (seg_start st)) as [Hlt|Hle]; [by apply IH; auto|].
  specialize (Hgo Hle). destruct (kind t) eqn:Ek.
  3: { destruct (emit_pipeline_written cmd st t Htok) as (a & st' & -> & Hw' & Hlt & Hnext); [unfold is_pipe; by rewrite Ek | done | | done |].
    { destruct Hgo as [?|[_ Hc] ]; [done|]. unfold ends_clause, is_ampersand in Hc. by rewrite Ek in Hc. }
    cbv [mbind option_bind]. destruct (next_clause_offset a) as [m|].
    - apply IH; [done..|]. destruct Hnext as (Hm & u & Hu & Hc & Hou). right. exists u. split; [|split; [done | congruence] ].
      destruct (Hall' u Hu) as [?|Hu']; [done|]. exfalso.
      destruct (Hall u Hu) as [Hu''|Hu'']; [apply elem_of_cons in Hu'' as [->|Hu'']|].
      + lia.
      + apply (in_order_in _ _ _ _ Ho) in Hu''. lia.
      + apply (in_order_in _ _ _ _ (tokenize_in_order cmd)) in Hu. lia.
    - eexists. split; [done|]. cbv beta iota. intros out. unfold then_some. destruct Hw' as [Hl _]. rewrite Hnext in Hl.
      destruct (any_changed st'); [|done]. by intros [= <-]. }
  all: destruct (ends_clause t) eqn:Ec; [|apply IH; try done; destruct Hgo as [?|[_ ?] ]; [by left | done] ].
  all: destruct (emit_segment_written cmd st (offset t) (value t) (tok_end t) Hw) as (st' & -> & Hs' & Hw');
    [by destruct Hgo as [?|[? _] ]; [left|right] | right; exists t; unfold separates; by rewrite Ec | done | done | by apply Hval |].
  all: cbv [mbind option_bind]; apply IH; try done; left; right; exists t; unfold separates; by rewrite Ec, Hs'.
Qed.

End Layout.

Lemma rewrite_compound_relaid on_path strip_env segment cmd :
  (forall ctx s, segment ctx s <> None) -> (forall ctx, segment ctx [] = Some None) ->
  exists answer, rewrite_compound on_path strip_env segment cmd = Some answer /\
    forall out, answer = Some out -> relaid (answers segment) cmd 0 (blen cmd) true out.
Proof.
  intros Htot Hnil. unfold rewrite_compound. destruct (_ && _); [by exists None|].
  destruct (compound_loop_written on_path strip_env segment Htot Hnil cmd (tokenize cmd) 0
    {| result_ := []; any_changed := false; seg_start := 0 |}) as (outcome & -> & Hout).
  - apply tokenize_in_order.
  - done.
  - intros t Ht. by left.
  - split; [apply relaid_copy; by destruct cmd | by exists [], cmd].
  - by left; left.
  - cbv [mbind option_bind]. destruct outcome as [st|answer]; [|by exists answer]. destruct Hout as [Hw Hs].
    destruct (emit_segment_written on_path strip_env segment Htot Hnil cmd st (blen cmd) [] (blen cmd) Hw) as (st' & -> & Hs' & Hw' & _);
      [by left | by left | apply boundary_end | by apply boundary_le, Hw | |].
    + apply (slice_parts _ cmd [] []); by rewrite ?app_nil_r.
    + eexists. split; [done|]. intros out. unfold then_some. rewrite Hs' in Hw'. destruct (any_changed st'); [|done]. cbn in Hw'. by intros [= <-].
Qed.

(** Rewriting a compound command never slices outside it or inside a
    character, and the command is copied into the answer, white space and
    separators included, except for whole stages between separators, of which at
    least one is replaced by what the segment's rewriter answers for its trimmed
    text. *)
Theorem compound_rewrites_keep_the_rest on_path strip_env segment cmd :
  (forall ctx s, segment ctx s <> None) -> (forall ctx, segment ctx [] = Some None) ->
  exists answer, rewrite_compound on_path strip_env segment cmd = Some answer /\
    forall out, answer = Some out -> relaid (answers segment) cmd 0 (blen cmd) true out.
Proof. apply rewrite_compound_relaid. Qed.

(** ** Rewritten reads

    What a command prints, and what the call of [rtk read] that replaces it
    selects. *)

Inductive Printed := Lines (w : ReadWindow.Window) | Span (from to : nat) | Numbered.

(** The bytes of the file that are printed; numbering leaves them all. *)
Definition shown (p : Printed) (bytes : list N) : list N :=
  match p with
  | Lines w => ReadWindow.native w bytes
  | Span from to => ReadWindow.native_range from (Some to) bytes
  | Numbered => bytes
  end.

(** [digits] is a decimal number [n]. *)
Definition decimal (digits : rstr) (n : nat) : Prop :=
  digits <> [] /\ forallb is_ascii_digit digits = true /\ n = N.to_nat (dec_value digits).

(** The calls of [head], [tail], [sed -n] and [nl] that name one file. *)
Definition window_tool (tool : rstr) (w : nat -> ReadWindow.Window) : Prop :=
  (tool = lit "head" /\ w = ReadWindow.Head) \/ (tool = lit "tail" /\ w = ReadWindow.Tail).

Inductive native_call : list rstr -> rstr -> Printed -> Prop :=
| call_default tool w file : window_tool tool w -> native_call [tool; file] file (Lines (w 10%nat))
| call_joined tool w flag digits n file : window_tool tool w -> flag ∈ [lit "--lines="; lit "-n"; lit "-"] ->
    decimal digits n -> native_call [tool; flag ++ digits; file] file (Lines (w n))
| call_split tool w flag digits n file : window_tool tool w -> flag ∈ [lit "-n"; lit "--lines"] ->
    decimal digits n -> native_call [tool; flag; digits; file] file (Lines (w n))
| call_sed from to a b file : decimal from a -> decimal to b -> (0 < a <= b)%nat ->
    native_call [lit "sed"; lit "-n"; from ++ lit "," ++ to ++ lit "p"; file] file (Span a b)
| call_nl file : native_call [lit "nl"; lit "-ba"; file] file Numbered.

(** The calls of [rtk read]. *)
Inductive rtk_call : rstr -> Printed -> rstr -> Prop :=
| rtk_head operand digits n : decimal digits n -> rtk_call operand (Lines (ReadWindow.Head n)) (rtk_read operand head_flag digits)
| rtk_tail operand digits n : decimal digits n -> rtk_call operand (Lines (ReadWindow.Tail n)) (rtk_read operand tail_flag digits)
| rtk_range operand from to a b : decimal from a -> decimal to b ->
    rtk_call operand (Span a b) (lit "rtk read " ++ operand ++ lit " --from " ++ from ++ lit " --to " ++ to)
| rtk_numbers operand : rtk_call operand Numbered (lit "rtk read " ++ operand ++ lit " -n").

(** What [rtk read] selects of a source. *)
Definition selected (p : Printed) (s : ReadWindow.Source) : result rstr (list N) :=
  match p with
  | Lines w => '(bytes, _) ← ReadWindow.run_window_bytes s w; Ok bytes
  | Span from to => ReadWindow.read_file_bytes (ReadWindow.file_bytes s) (Some from) (Some to)
  | Numbered => ReadWindow.read_file_bytes (ReadWindow.file_bytes s) None None
  end.

Lemma decimal_count value digits : decimal_line_count value = Some digits -> value = digits /\ decimal digits (N.to_nat (dec_value digits)).
Proof.
  unfold decimal_line_count. destruct (_ && _) eqn:E; [|done]. intros [= ->]. apply andb_true_iff in E as [E1 E2].
  split; [done|]. split_and!; [by destruct digits | done | done].
Qed.

Lemma flag_count flag count digits :
  match strip_prefix (lit "--lines=") flag with
  | Some c => Some c
  | None => match strip_prefix (lit "-n") flag with Some c => Some c | None => strip_prefix (lit "-") flag end
  end = Some count -> decimal_line_count count = Some digits ->
  exists prefix, prefix ∈ [lit "--lines="; lit "-n"; lit "-"] /\ flag = prefix ++ digits /\ decimal digits (N.to_nat (dec_value digits)).
Proof.
  intros Hf Hd. apply decimal_count in Hd as [-> Hd].
  repeat (destruct (strip_prefix _ flag) eqn:E in Hf; [injection Hf as ->; apply strip_prefix_Some in E; eexists; split; [|by eauto]; set_solver|]; clear E).
  done.
Qed.

Lemma head_tail_call words path out : rewrite_head_tail words path = Some out ->
  exists file p, native_call words file p /\ rtk_call (default file path) p out /\ is_single_file_operand (default file path) = true.
Proof.
  unfold rewrite_head_tail. destruct words as [|tool rest]; [done|]. intros H.
  assert (exists window w, (if str_eqb tool (lit "head") then Some head_flag else if str_eqb tool (lit "tail") then Some tail_flag else None) = Some window /\
    window_tool tool w /\ forall operand digits n, decimal digits n -> rtk_call operand (Lines (w n)) (rtk_read operand window digits))
    as (window & w & Hw & Ht & Hcall).
  { unfold str_eqb in *. destruct (bool_decide_reflect (tool = lit "head")) as [->|]; [|destruct (bool_decide_reflect (tool = lit "tail")) as [->|]; [|done] ].
    - exists head_flag, ReadWindow.Head. split_and!; [done | by left | by constructor].
    - exists tail_flag, ReadWindow.Tail. split_and!; [done | by right | by constructor]. }
  rewrite Hw in H. cbv [mbind option_bind] in H. clear Hw.
  destruct rest as [|a [|b [|c [|d rest] ] ] ]; [done| | | |done].
  - destruct (is_single_file_operand _) eqn:E; [|done]. injection H as <-. exists a, (Lines (w 10%nat)).
    split_and!; [by constructor | apply Hcall; by split_and! | done].
  - destruct (match strip_prefix _ a with Some _ => _ | None => _ end) as [count|] eqn:Ec; [|done].
    destruct (decimal_line_count count) as [digits|] eqn:Ed; [|done].
    destruct (is_single_file_operand _) eqn:E; [|done]. injection H as <-.
    destruct (flag_count a count digits Ec Ed) as (prefix & Hp & -> & Hd). exists b, (Lines (w (N.to_nat (dec_value digits)))).
    split_and!; [by econstructor | by apply Hcall | done].
  - destruct (one_of a _) eqn:Ef; [|done]. destruct (decimal_line_count b) as [digits|] eqn:Ed; [|done].
    destruct (is_single_file_operand _) eqn:E; [|done]. injection H as <-. apply decimal_count in Ed as [-> Hd].
    exists c, (Lines (w (N.to_nat (dec_value digits)))). split_and!; [|by apply Hcall | done]. econstructor; [done | | done].
    unfold one_of in Ef. apply existsb_exists in Ef as (x & Hx & Hx'). apply bool_decide_eq_true in Hx' as ->. by apply list_elem_of_In.
Qed.

Lemma unsigned_decimal max digits n : contains_char (ch "+") digits = false -> parse_unsigned max digits = Some n -> decimal digits (N.to_nat n).
Proof.
  unfold parse_unsigned. intros Hp. destruct digits as [|c d]; [done|]. cbn [contains_char existsb] in Hp. apply orb_false_iff in Hp as [Hc _].
  rewrite N.eqb_sym in Hc. rewrite Hc. destruct (_ && _) eqn:E; [|done]. intros [= <-]. apply andb_true_iff in E as [E _].
  apply andb_true_iff in E as [_ E]. done.
Qed.

Lemma sed_span_call value from to : contains_char (ch "+") value = false -> parse_sed_read_span value = Some (from, to) ->
  exists a b, value = from ++ lit "," ++ to ++ lit "p" /\ decimal from a /\ decimal to b /\ (0 < a <= b)%nat.
Proof.
  unfold parse_sed_read_span. intros Hp H. destruct (strip_suffix _ value) as [v|] eqn:Ev; [|done]. apply strip_suffix_Some in Ev as ->.
  cbv [mbind option_bind] in H. destruct (split_once _ v) as [ [f t]|] eqn:Es; [|done]. apply split_once_Some in Es as ->.
  assert (contains_char (ch "+") f = false /\ contains_char (ch "+") t = false) as [Hf Ht].
  { unfold contains_char in *. rewrite !existsb_app in Hp. rewrite !orb_false_iff in Hp. tauto. }
  destruct (parse_unsigned _ f) as [a|] eqn:Ea; [|done]. destruct (parse_unsigned _ t) as [b|] eqn:Eb; [|done].
  destruct (_ && _) eqn:E; [|done]. injection H as <- <-. exists (N.to_nat a), (N.to_nat b).
  split_and!; [by rewrite <- !app_assoc | by eapply unsigned_decimal | by eapply unsigned_decimal | lia | lia].
Qed.

(** What [rtk read] selects is what the command prints. *)
Lemma selected_shown p s all : ReadWindow.read_to_end (ReadWindow.reads s) = Ok all -> ReadWindow.file_bytes s = all ->
  match p with Span a b => (0 < a <= b)%nat | _ => True end -> selected p s = Ok (shown p all).
Proof.
  intros Hr Hf Hp. destruct p as [w|a b|]; cbn [selected shown].
  - by rewrite (ReadWindow.run_window_native s w all Hr ltac:(done)).
  - rewrite Hf. apply (ReadWindow.read_range_native all (Some a) (Some b)); cbn; lia.
  - rewrite Hf. done.
Qed.

Lemma span_in_order words file p : native_call words file p -> match p with Span a b => (0 < a <= b)%nat | _ => True end.
Proof. by destruct 1. Qed.

(** A rewritten call names the file by its last word. *)
Lemma line_range_call cmd out : rewrite_line_range cmd = Some (Some out) ->
  (forall span, nth_error (shell_split cmd) 2 = Some span -> contains_char (ch "+") span = false) ->
  exists file p path, native_call (shell_split cmd) file p /\ last_word cmd = Some path /\ rtk_call (default file path) p out.
Proof.
  unfold rewrite_line_range. intros H Hplus. destruct (_ || _).
  - destruct (negb _); [done|]. destruct (last_word cmd) as [path|] eqn:El; [|done]. cbv [mbind option_bind] in H. injection H as H.
    destruct (head_tail_call _ _ _ H) as (file & p & ? & ? & _). by exists file, p, path.
  - destruct (forallb _ _); [|done]. destruct (last_word cmd) as [path|] eqn:El; [|done]. cbv [mbind option_bind] in H. injection H as H.
    destruct (shell_split cmd) as [|tool [|flag [|x [|file [|y l] ] ] ] ] eqn:Ew; try done.
    + destruct (str_eqb tool (lit "nl") && _) eqn:E; [|done]. injection H as <-. apply andb_true_iff in E as [E1 E2].
      apply bool_decide_eq_true in E1 as ->, E2 as ->. exists x, Numbered, path. split_and!; [constructor | done | constructor].
    + destruct (str_eqb tool (lit "sed") && _) eqn:E; [|done]. apply andb_true_iff in E as [E1 E2].
      apply bool_decide_eq_true in E1 as ->, E2 as ->. destruct (parse_sed_read_span x) as [ [from to]|] eqn:Es; [|done]. injection H as <-.
      destruct (sed_span_call x from to (Hplus x eq_refl) Es) as (a & b & -> & Ha & Hb & Hab).
      exists file, (Span a b), path. split_and!; [by constructor | done | by constructor].
Qed.

(** A call of [head], [tail], [sed -n] or [nl -ba] that is rewritten is one of
    a single file, and the call of [rtk read] that replaces it asks, for the last
    word of the command, exactly for the lines that the call prints, provided the
    span has no relative address; what is selected of any file are those lines. *)
Theorem rewritten_reads_show_the_same cmd out : rewrite_line_range cmd = Some (Some out) ->
  (forall span, nth_error (shell_split cmd) 2 = Some span -> contains_char (ch "+") span = false) ->
  exists file p path, native_call (shell_split cmd) file p /\ last_word cmd = Some path /\ rtk_call (default file path) p out /\
    forall s all, ReadWindow.read_to_end (ReadWindow.reads s) = Ok all -> ReadWindow.file_bytes s = all ->
      selected p s = Ok (shown p all).
Proof.
  intros H Hplus. destruct (line_range_call cmd out H Hplus) as (file & p & path & Hc & Hl & Hr). exists file, p, path.
  split_and!; [done..|]. intros s all Hread Hf. apply selected_shown; [done..|]. by eapply span_in_order.
Qed.

(** Seven lines of one character. *)
Definition seven_lines : list N := concat (map (fun c => [c; ReadWindow.LF]) (lit "1234567")).

(** [sed -n 2,+5p FILE] prints the line 2 and the five behind it.  It is taken
    for the lines 2 to 5, since a number may have a plus sign, and rewritten. *)
Theorem relative_sed_spans_are_cut_short :
  rewrite_line_range (lit "sed -n 2,+5p notes.txt") = Some (Some (lit "rtk read notes.txt --from 2 --to +5")) /\
  parse_unsigned u64_max (lit "+5") = Some 5%N /\
  exists shown rest, ReadWindow.read_file_bytes seven_lines (Some 2%nat) (Some 5%nat) = Ok shown /\
    ReadWindow.native_range 2 (Some (2 + 5)%nat) seven_lines = shown ++ rest /\ rest <> [].
Proof.
  split; [by vm_compute|]. split; [by vm_compute|]. exists (ReadWindow.native_range 2 (Some 5%nat) seven_lines), (ReadWindow.native_range 6 (Some 7%nat) seven_lines).
  split_and!; [by vm_compute | by vm_compute | done].
Qed.

(** *** Witnesses *)

(** A rewriter that knows one command. *)
Definition git_status_only (ctx : RewriteContext) (s : rstr) : option (option rstr) :=
  Some (if str_eqb s (lit "git status") then Some (lit "rtk git status") else None).

Lemma compound_rewrites_keep_the_rest_witness :
  rewrite_compound (fun _ _ => false) (fun s => s) git_status_only (lit "cd src  && git status; ls | cat") =
    Some (Some (lit "cd src  && rtk git status; ls | cat")) /\
  exists answer, rewrite_compound (fun _ _ => false) (fun s => s) git_status_only (lit "cd src  && git status; ls | cat") = Some answer /\
    forall out, answer = Some out -> relaid (answers git_status_only) (lit "cd src  && git status; ls | cat") 0 31 true out.
Proof.
  split; [by vm_compute|].
  apply (compound_rewrites_keep_the_rest (fun _ _ => false) (fun s => s) git_status_only (lit "cd src  && git status; ls | cat")); [done | by intros []].
Defined.

Lemma rewritten_reads_show_the_same_witness :
  exists file p path, native_call (shell_split (lit "head -n2 notes.txt")) file p /\ last_word (lit "head -n2 notes.txt") = Some path /\
    rtk_call (default file path) p (lit "rtk read notes.txt --head-lines 2") /\
    forall s all, ReadWindow.read_to_end (ReadWindow.reads s) = Ok all -> ReadWindow.file_bytes s = all ->
      selected p s = Ok (shown p all).
Proof. apply (rewritten_reads_show_the_same (lit "head -n2 notes.txt")); [by vm_compute | intros span [= <-]; by vm_compute]. Defined.

End Rewrite.
