(* ===== verification/Rules.v ===== *)
(** The rule table of the rewriter ([fork-core/rtk/src/discover/rules.rs]).

    The table is the source's, rule for rule, comments left out.  A pattern is the
    text of a regular expression; savings are whole percents. *)

From S2P Require Import Prelude RStr.

Module Rules.

Inductive RtkStatus := Existing | Passthrough | NotSupported.

#[export] Instance RtkStatus_eq_dec : EqDecision RtkStatus.
Proof. solve_decision. Defined.

Record RtkRule := {
  pattern : rstr;
  rtk_cmd : rstr;
  rewrite_prefixes : list rstr;
  category : rstr;
  savings_pct : N;
  subcmd_savings : list (rstr * N);
  subcmd_status : list (rstr * RtkStatus);
}.

Definition RULES_1 : list RtkRule := [
  {| pattern := lit "^(?:git|yadm)\s+(?:(?:-[Cc])\s+[^[:space:]]+\s+|--[a-z-]+(?:=[^[:space:]]+)?\s+)*(status|log|diff|show|blame|add|commit|push|pull|branch|fetch|stash|worktree|checkout|cherry-pick|remote|merge-base|rev-parse|ls-files|merge|rebase|rm)(\s|$)";
     rtk_cmd := lit "rtk git"; rewrite_prefixes := [lit "git"; lit "yadm"];
     category := lit "Git"; savings_pct := 70;
     subcmd_savings := [(lit "diff", 80); (lit "show", 80); (lit "blame", 80); (lit "add", 59); (lit "commit", 59); (lit "checkout", 0); (lit "cherry-pick", 0); (lit "remote", 0); (lit "merge-base", 0); (lit "rev-parse", 0); (lit "ls-files", 0); (lit "merge", 0); (lit "rebase", 0); (lit "rm", 0)];
     subcmd_status := [(lit "checkout", Passthrough); (lit "cherry-pick", Passthrough); (lit "remote", Passthrough); (lit "merge-base", Passthrough); (lit "rev-parse", Passthrough); (lit "ls-files", Passthrough); (lit "merge", Passthrough); (lit "rebase", Passthrough); (lit "rm", Passthrough)] |};
  {| pattern := lit "^gh\s+(pr|issue|run|repo|api|release)(\s|$)";
     rtk_cmd := lit "rtk gh"; rewrite_prefixes := [lit "gh"];
     category := lit "GitHub"; savings_pct := 82;
     subcmd_savings := [(lit "pr", 87); (lit "run", 82); (lit "issue", 80)];
     subcmd_status := [] |};
  {| pattern := lit "^glab\s+(mr|issue|ci|pipeline|api|release)(\s|$)";
     rtk_cmd := lit "rtk glab"; rewrite_prefixes := [lit "glab"];
     category := lit "GitLab"; savings_pct := 82;
     subcmd_savings := [(lit "mr", 87); (lit "ci", 82); (lit "issue", 80)];
     subcmd_status := [] |};
  {| pattern := lit "^(?:[^[:space:]]+/)?cargo\s+(?:\+[^[:space:]]+\s+)?(build|test|clippy|check|fmt|install|nextest|run)(\s|$)";
     rtk_cmd := lit "rtk cargo"; rewrite_prefixes := [lit "cargo"];
     category := lit "Cargo"; savings_pct := 80;
     subcmd_savings := [(lit "test", 90); (lit "check", 80); (lit "run", 0)];
     subcmd_status := [(lit "fmt", Passthrough)] |};
  {| pattern := lit "^pnpm\s+(?:(?:--filter|-F|--dir|-C)(?:=\S+|\s+\S+)\s+|(?:-r|--recursive|-w|--workspace-root)\s+)*(exec|i|install|list|ls|outdated|run|run-script|test)(\s|$)";
     rtk_cmd := lit "rtk pnpm"; rewrite_prefixes := [lit "pnpm"];
     category := lit "PackageManager"; savings_pct := 80;
     subcmd_savings := [];
     subcmd_status := [] |};
  {| pattern := lit "^npm\s+(run|run-script|rum|urn|test)(\s|$)";
     rtk_cmd := lit "rtk npm"; rewrite_prefixes := [lit "npm run-script"; lit "npm run"; lit "npm rum"; lit "npm urn"; lit "npm"];
     category := lit "PackageManager"; savings_pct := 70;
     subcmd_savings := [];
     subcmd_status := [] |};
  {| pattern := lit "^npx\s+";
     rtk_cmd := lit "rtk npx"; rewrite_prefixes := [lit "npx"];
     category := lit "PackageManager"; savings_pct := 70;
     subcmd_savings := [];
     subcmd_status := [] |};
  {| pattern := lit "^bun\s+([^\s]+)(\s|$)";
     rtk_cmd := lit "rtk bun"; rewrite_prefixes := [lit "bun"];
     category := lit "PackageManager"; savings_pct := 70;
     subcmd_savings := [(lit "--version", 0); (lit "-v", 0); (lit "install", 0); (lit "add", 0); (lit "remove", 0); (lit "update", 0); (lit "upgrade", 0); (lit "pm", 0)];
     subcmd_status := [(lit "--version", Passthrough); (lit "-v", Passthrough); (lit "install", Passthrough); (lit "add", Passthrough); (lit "remove", Passthrough); (lit "update", Passthrough); (lit "upgrade", Passthrough); (lit "pm", Passthrough)] |};
  {| pattern := lit "^(cat|head|tail)\s+";
     rtk_cmd := lit "rtk read"; rewrite_prefixes := [lit "cat"; lit "head"; lit "tail"];
     category := lit "Files"; savings_pct := 60;
     subcmd_savings := [];
     subcmd_status := [] |};
  {| pattern := lit "^(?:[^[:space:]]+/)?(grepai|rgai)\s+search(\s|$)";
     rtk_cmd := lit "rtk rgai"; rewrite_prefixes := [lit "grepai search"; lit "rgai search"];
     category := lit "Files"; savings_pct := 85;
     subcmd_savings := [];
     subcmd_status := [] |};
  {| pattern := lit "^(?:[^[:space:]]+/)?rgai\s+";
     rtk_cmd := lit "rtk rgai"; rewrite_prefixes := [lit "rgai"];
     category := lit "Files"; savings_pct := 85;
     subcmd_savings := [];
     subcmd_status := [] |}
].

Definition RULES_2 : list RtkRule := [
  {| pattern := lit "^(?:[^[:space:]]+/)?grep\s+";
     rtk_cmd := lit "rtk grep"; rewrite_prefixes := [lit "grep"];
     category := lit "Files"; savings_pct := 75;
     subcmd_savings := [];
     subcmd_status := [] |};
  {| pattern := lit "^(?:[^[:space:]]+/)?rg\s+";
     rtk_cmd := lit "rtk rg"; rewrite_prefixes := [lit "rg"];
     category := lit "Files"; savings_pct := 75;
     subcmd_savings := [];
     subcmd_status := [] |};
  {| pattern := lit "^ls(\s|$)";
     rtk_cmd := lit "rtk ls"; rewrite_prefixes := [lit "ls"];
     category := lit "Files"; savings_pct := 65;
     subcmd_savings := [];
     subcmd_status := [] |};
  {| pattern := lit "^tree(\s|$)";
     rtk_cmd := lit "rtk tree"; rewrite_prefixes := [lit "tree"];
     category := lit "Files"; savings_pct := 65;
     subcmd_savings := [];
     subcmd_status := [] |};
  {| pattern := lit "^find\s+";
     rtk_cmd := lit "rtk find"; rewrite_prefixes := [lit "find"];
     category := lit "Files"; savings_pct := 70;
     subcmd_savings := [];
     subcmd_status := [] |};
  {| pattern := lit "^(((npx|bunx)\s+)?vue-tsc|vue\s+tsc)(\s|$)";
     rtk_cmd := lit "rtk npx vue-tsc"; rewrite_prefixes := [lit "npx vue-tsc"; lit "bunx vue-tsc"; lit "vue-tsc"];
     category := lit "Build"; savings_pct := 83;
     subcmd_savings := [];
     subcmd_status := [] |};
  {| pattern := lit "^((p?np(m|x)|bunx|p?npm\s+(exec|run|run-script)|npm\s+(rum|urn|x)|pnpm\s+dlx|bun\s+x)\s+)?tsc(\s|$)";
     rtk_cmd := lit "rtk tsc"; rewrite_prefixes := [lit "npm exec tsc"; lit "npm rum tsc"; lit "npm run tsc"; lit "npm run-script tsc"; lit "npm tsc"; lit "npm urn tsc"; lit "npm x tsc"; lit "npx tsc"; lit "pnpm dlx tsc"; lit "pnpm exec tsc"; lit "pnpm run tsc"; lit "pnpm run-script tsc"; lit "pnpm tsc"; lit "pnpx tsc"; lit "tsc"; lit "bunx tsc"; lit "bun x tsc"];
     category := lit "Build"; savings_pct := 83;
     subcmd_savings := [];
     subcmd_status := [] |};
  {| pattern := lit "^((p?np(m|x)|bunx|p?npm\s+(exec|run|run-script)|npm\s+(rum|urn|x)|pnpm\s+dlx|bun\s+x)\s+)?(biome|eslint|lint)(\s|$)";
     rtk_cmd := lit "rtk lint"; rewrite_prefixes := [lit "biome"; lit "eslint"; lit "lint"; lit "npm biome"; lit "npm eslint"; lit "npm exec biome"; lit "npm exec eslint"; lit "npm lint"; lit "npm rum biome"; lit "npm rum eslint"; lit "npm rum lint"; lit "npm run biome"; lit "npm run eslint"; lit "npm run lint"; lit "npm run-script biome"; lit "npm run-script eslint"; lit "npm run-script lint"; lit "npm urn biome"; lit "npm urn eslint"; lit "npm urn lint"; lit "npm x biome"; lit "npm x eslint"; lit "npx biome"; lit "npx eslint"; lit "npx lint"; lit "pnpm biome"; lit "pnpm dlx biome"; lit "pnpm dlx eslint"; lit "pnpm eslint"; lit "pnpm exec biome"; lit "pnpm exec eslint"; lit "pnpm lint"; lit "pnpm run biome"; lit "pnpm run eslint"; lit "pnpm run lint"; lit "pnpm run-script biome"; lit "pnpm run-script eslint"; lit "pnpm run-script lint"; lit "pnpx biome"; lit "pnpx eslint"; lit "pnpx lint"; lit "bunx eslint"; lit "bun x eslint"; lit "bunx biome"; lit "bun x biome"];
     category := lit "Build"; savings_pct := 84;
     subcmd_savings := [];
     subcmd_status := [] |}
].

Definition RULES_3 : list RtkRule := [
  {| pattern := lit "^((p?np(m|x)|bunx|p?npm\s+(exec|run|run-script)|npm\s+(rum|urn|x)|pnpm\s+dlx|bun\s+x)\s+)?prettier(\s|$)";
     rtk_cmd := lit "rtk prettier"; rewrite_prefixes := [lit "npm exec prettier"; lit "npm prettier"; lit "npm rum prettier"; lit "npm run prettier"; lit "npm run-script prettier"; lit "npm urn prettier"; lit "npm x prettier"; lit "npx prettier"; lit "pnpm dlx prettier"; lit "pnpm exec prettier"; lit "pnpm prettier"; lit "pnpm run prettier"; lit "pnpm run-script prettier"; lit "pnpx prettier"; lit "prettier"; lit "bunx prettier"; lit "bun x prettier"];
     category := lit "Build"; savings_pct := 70;
     subcmd_savings := [];
     subcmd_status := [] |};
  {| pattern := lit "^((p?np(m|x)|bunx|p?npm\s+(exec|run|run-script)|npm\s+(rum|urn|x)|pnpm\s+dlx|bun\s+x)\s+)?next\s+build(\s|$)";
     rtk_cmd := lit "rtk next"; rewrite_prefixes := [lit "next build"; lit "npm exec next build"; lit "npm next build"; lit "npm rum next build"; lit "npm run next build"; lit "npm run-script next build"; lit "npm urn next build"; lit "npm x next build"; lit "npx next build"; lit "pnpm dlx next build"; lit "pnpm exec next build"; lit "pnpm next build"; lit "pnpm run next build"; lit "pnpm run-script next build"; lit "pnpx next build"];
     category := lit "Build"; savings_pct := 87;
     subcmd_savings := [];
     subcmd_status := [] |};
  {| pattern := lit "^((p?np(m|x)|bunx|p?npm\s+(exec|run|run-script)|npm\s+(rum|urn|x)|pnpm\s+dlx|bun\s+x)\s+)?jest(\s+run)?(\s|$)";
     rtk_cmd := lit "rtk jest"; rewrite_prefixes := [lit "jest run"; lit "jest"; lit "npm exec jest run"; lit "npm exec jest"; lit "npm jest run"; lit "npm jest"; lit "npm rum jest run"; lit "npm rum jest"; lit "npm run jest run"; lit "npm run jest"; lit "npm run-script jest run"; lit "npm run-script jest"; lit "npm urn jest run"; lit "npm urn jest"; lit "npm x jest run"; lit "npm x jest"; lit "npx jest run"; lit "npx jest"; lit "pnpm dlx jest run"; lit "pnpm dlx jest"; lit "pnpm exec jest run"; lit "pnpm exec jest"; lit "pnpm jest run"; lit "pnpm jest"; lit "pnpm run jest run"; lit "pnpm run jest"; lit "pnpm run-script jest run"; lit "pnpm run-script jest"; lit "pnpx jest run"; lit "pnpx jest"; lit "bunx jest"; lit "bun x jest"];
     category := lit "Tests"; savings_pct := 99;
     subcmd_savings := [];
     subcmd_status := [] |};
  {| pattern := lit "^((p?np(m|x)|bunx|p?npm\s+(exec|run|run-script)|npm\s+(rum|urn|x)|pnpm\s+dlx|bun\s+x)\s+)?vitest(\s+run)?(\s|$)";
     rtk_cmd := lit "rtk vitest"; rewrite_prefixes := [lit "npm exec vitest run"; lit "npm exec vitest"; lit "npm rum vitest run"; lit "npm rum vitest"; lit "npm run vitest run"; lit "npm run vitest"; lit "npm run-script vitest run"; lit "npm run-script vitest"; lit "npm urn vitest run"; lit "npm urn vitest"; lit "npm vitest run"; lit "npm vitest"; lit "npm x vitest run"; lit "npm x vitest"; lit "npx vitest run"; lit "npx vitest"; lit "pnpm dlx vitest run"; lit "pnpm dlx vitest"; lit "pnpm exec vitest run"; lit "pnpm exec vitest"; lit "pnpm run vitest run"; lit "pnpm run vitest"; lit "pnpm run-script vitest run"; lit "pnpm run-script vitest"; lit "pnpm vitest run"; lit "pnpm vitest"; lit "pnpx vitest run"; lit "pnpx vitest"; lit "vitest run"; lit "vitest"; lit "bunx vitest"; lit "bun x vitest"];
     category := lit "Tests"; savings_pct := 99;
     subcmd_savings := [];
     subcmd_status := [] |}
].

Definition RULES_4 : list RtkRule := [
  {| pattern := lit "^((p?np(m|x)|bunx|p?npm\s+(exec|run|run-script)|npm\s+(rum|urn|x)|pnpm\s+dlx|bun\s+x)\s+)?playwright(\s|$)";
     rtk_cmd := lit "rtk playwright"; rewrite_prefixes := [lit "npm exec playwright"; lit "npm playwright"; lit "npm rum playwright"; lit "npm run playwright"; lit "npm run-script playwright"; lit "npm urn playwright"; lit "npm x playwright"; lit "npx playwright"; lit "playwright"; lit "pnpm dlx playwright"; lit "pnpm exec playwright"; lit "pnpm playwright"; lit "pnpm run playwright"; lit "pnpm run-script playwright"; lit "pnpx playwright"; lit "bunx playwright"; lit "bun x playwright"];
     category := lit "Tests"; savings_pct := 94;
     subcmd_savings := [];
     subcmd_status := [] |};
  {| pattern := lit "^((p?np(m|x)|bunx|p?npm\s+(exec|run|run-script)|npm\s+(rum|urn|x)|pnpm\s+dlx|bun\s+x)\s+)?prisma(\s|$)";
     rtk_cmd := lit "rtk prisma"; rewrite_prefixes := [lit "npm exec prisma"; lit "npm prisma"; lit "npm rum prisma"; lit "npm run prisma"; lit "npm run-script prisma"; lit "npm urn prisma"; lit "npm x prisma"; lit "npx prisma"; lit "pnpm dlx prisma"; lit "pnpm exec prisma"; lit "pnpm prisma"; lit "pnpm run prisma"; lit "pnpm run-script prisma"; lit "pnpx prisma"; lit "prisma"; lit "bunx prisma"; lit "bun x prisma"];
     category := lit "Build"; savings_pct := 88;
     subcmd_savings := [];
     subcmd_status := [] |};
  {| pattern := lit "^docker\s+(ps|images|logs|run|exec|build|compose\s+(ps|logs|build))(\s|$)";
     rtk_cmd := lit "rtk docker"; rewrite_prefixes := [lit "docker"];
     category := lit "Infra"; savings_pct := 85;
     subcmd_savings := [];
     subcmd_status := [] |};
  {| pattern := lit "^kubectl\s+(get|logs|describe|apply)(\s|$)";
     rtk_cmd := lit "rtk kubectl"; rewrite_prefixes := [lit "kubectl"];
     category := lit "Infra"; savings_pct := 85;
     subcmd_savings := [];
     subcmd_status := [] |};
  {| pattern := lit "^oc\s+(get|logs|describe|apply|status|adm)(\s|$)";
     rtk_cmd := lit "rtk oc"; rewrite_prefixes := [lit "oc"];
     category := lit "Infra"; savings_pct := 85;
     subcmd_savings := [];
     subcmd_status := [] |};
  {| pattern := lit "^tree(\s|$)";
     rtk_cmd := lit "rtk tree"; rewrite_prefixes := [lit "tree"];
     category := lit "Files"; savings_pct := 70;
     subcmd_savings := [];
     subcmd_status := [] |};
  {| pattern := lit "^deno\s+(lint|check|test)(\s|$)";
     rtk_cmd := lit "rtk deno"; rewrite_prefixes := [lit "deno"];
     category := lit "Build"; savings_pct := 60;
     subcmd_savings := [];
     subcmd_status := [] |};
  {| pattern := lit "^diff\s+";
     rtk_cmd := lit "rtk diff"; rewrite_prefixes := [lit "diff"];
     category := lit "Files"; savings_pct := 60;
     subcmd_savings := [];
     subcmd_status := [] |};
  {| pattern := lit "^curl\s+";
     rtk_cmd := lit "rtk curl"; rewrite_prefixes := [lit "curl"];
     category := lit "Network"; savings_pct := 70;
     subcmd_savings := [];
     subcmd_status := [] |};
  {| pattern := lit "^ssh\s+";
     rtk_cmd := lit "rtk ssh"; rewrite_prefixes := [lit "ssh"];
     category := lit "Network"; savings_pct := 75;
     subcmd_savings := [];
     subcmd_status := [] |};
  {| pattern := lit "^lsof(\s|$)";
     rtk_cmd := lit "rtk lsof"; rewrite_prefixes := [lit "lsof"];
     category := lit "Network"; savings_pct := 90;
     subcmd_savings := [];
     subcmd_status := [] |};
  {| pattern := lit "^diff\s+";
     rtk_cmd := lit "rtk diff"; rewrite_prefixes := [lit "diff"];
     category := lit "Files"; savings_pct := 70;
     subcmd_savings := [];
     subcmd_status := [] |}
].

Definition RULES_5 : list RtkRule := [
  {| pattern := lit "^wget\s+";
     rtk_cmd := lit "rtk wget"; rewrite_prefixes := [lit "wget"];
     category := lit "Network"; savings_pct := 65;
     subcmd_savings := [];
     subcmd_status := [] |};
  {| pattern := lit "^(python3?\s+-m\s+)?mypy(\s|$)";
     rtk_cmd := lit "rtk mypy"; rewrite_prefixes := [lit "python3 -m mypy"; lit "python -m mypy"; lit "mypy"];
     category := lit "Build"; savings_pct := 80;
     subcmd_savings := [];
     subcmd_status := [] |};
  {| pattern := lit "^ruff\s+(check|format)(\s|$)";
     rtk_cmd := lit "rtk ruff"; rewrite_prefixes := [lit "ruff"];
     category := lit "Python"; savings_pct := 80;
     subcmd_savings := [(lit "check", 80); (lit "format", 75)];
     subcmd_status := [] |};
  {| pattern := lit "^(python[0-9.]*\s+-m\s+)?pytest(\s|$)";
     rtk_cmd := lit "rtk pytest"; rewrite_prefixes := [lit "python3 -m pytest"; lit "python -m pytest"; lit "pytest"];
     category := lit "Python"; savings_pct := 90;
     subcmd_savings := [];
     subcmd_status := [] |};
  {| pattern := lit "^(?:[^[:space:]]+/)?(pip3?|uv\s+pip)\s+(list|outdated|install|show|uninstall)(\s|$)";
     rtk_cmd := lit "rtk pip"; rewrite_prefixes := [lit "pip3"; lit "pip"; lit "uv pip"];
     category := lit "Python"; savings_pct := 75;
     subcmd_savings := [(lit "list", 75); (lit "outdated", 80)];
     subcmd_status := [] |};
  {| pattern := lit "^go\s+(test|build|vet)(\s|$)";
     rtk_cmd := lit "rtk go"; rewrite_prefixes := [lit "go"];
     category := lit "Go"; savings_pct := 85;
     subcmd_savings := [(lit "test", 90); (lit "build", 80); (lit "vet", 75)];
     subcmd_status := [] |};
  {| pattern := lit "^(?:golangci-lint|golangci)\s+(run)(?:\s|$)";
     rtk_cmd := lit "rtk golangci-lint run"; rewrite_prefixes := [lit "golangci-lint run"; lit "golangci run"];
     category := lit "Go"; savings_pct := 85;
     subcmd_savings := [];
     subcmd_status := [] |};
  {| pattern := lit "^bundle\s+(install|update)\b";
     rtk_cmd := lit "rtk bundle"; rewrite_prefixes := [lit "bundle"];
     category := lit "Ruby"; savings_pct := 70;
     subcmd_savings := [];
     subcmd_status := [] |};
  {| pattern := lit "^(?:bundle\s+exec\s+)?(?:bin/)?(?:rake|rails)\s+test(\s|$)";
     rtk_cmd := lit "rtk rake"; rewrite_prefixes := [lit "bundle exec rails"; lit "bundle exec rake"; lit "bin/rails"; lit "rails"; lit "rake"];
     category := lit "Ruby"; savings_pct := 85;
     subcmd_savings := [(lit "test", 90)];
     subcmd_status := [] |};
  {| pattern := lit "^(?:bundle\s+exec\s+)?rspec(?:\s|$)";
     rtk_cmd := lit "rtk rspec"; rewrite_prefixes := [lit "bundle exec rspec"; lit "bin/rspec"; lit "rspec"];
     category := lit "Tests"; savings_pct := 65;
     subcmd_savings := [];
     subcmd_status := [] |};
  {| pattern := lit "^(?:bundle\s+exec\s+)?rubocop(?:\s|$)";
     rtk_cmd := lit "rtk rubocop"; rewrite_prefixes := [lit "bundle exec rubocop"; lit "rubocop"];
     category := lit "Build"; savings_pct := 65;
     subcmd_savings := [];
     subcmd_status := [] |};
  {| pattern := lit "^aws\s+";
     rtk_cmd := lit "rtk aws"; rewrite_prefixes := [lit "aws"];
     category := lit "Infra"; savings_pct := 80;
     subcmd_savings := [(lit "sts", 80); (lit "s3", 60); (lit "ec2", 85); (lit "ecs", 90); (lit "rds", 80); (lit "cloudformation", 90); (lit "logs", 88); (lit "lambda", 90); (lit "iam", 85); (lit "dynamodb", 70); (lit "s3api", 75); (lit "eks", 87); (lit "sqs", 78); (lit "secretsmanager", 75)];
     subcmd_status := [] |};
  {| pattern := lit "^psql(\s|$)";
     rtk_cmd := lit "rtk psql"; rewrite_prefixes := [lit "psql"];
     category := lit "Infra"; savings_pct := 75;
     subcmd_savings := [];
     subcmd_status := [] |};
  {| pattern := lit "^ansible-playbook\b";
     rtk_cmd := lit "rtk ansible-playbook"; rewrite_prefixes := [lit "ansible-playbook"];
     category := lit "Infra"; savings_pct := 70;
     subcmd_savings := [];
     subcmd_status := [] |}
].

Definition RULES_6 : list RtkRule := [
  {| pattern := lit "^brew\s+(install|upgrade)\b";
     rtk_cmd := lit "rtk brew"; rewrite_prefixes := [lit "brew"];
     category := lit "PackageManager"; savings_pct := 65;
     subcmd_savings := [];
     subcmd_status := [] |};
  {| pattern := lit "^composer\s+(install|update|require)\b";
     rtk_cmd := lit "rtk composer"; rewrite_prefixes := [lit "composer"];
     category := lit "PackageManager"; savings_pct := 65;
     subcmd_savings := [];
     subcmd_status := [] |};
  {| pattern := lit "^df(\s|$)";
     rtk_cmd := lit "rtk df"; rewrite_prefixes := [lit "df"];
     category := lit "System"; savings_pct := 60;
     subcmd_savings := [];
     subcmd_status := [] |};
  {| pattern := lit "^dotnet\s+build\b";
     rtk_cmd := lit "rtk dotnet"; rewrite_prefixes := [lit "dotnet"];
     category := lit "Build"; savings_pct := 70;
     subcmd_savings := [];
     subcmd_status := [] |};
  {| pattern := lit "^du\b";
     rtk_cmd := lit "rtk du"; rewrite_prefixes := [lit "du"];
     category := lit "System"; savings_pct := 60;
     subcmd_savings := [];
     subcmd_status := [] |};
  {| pattern := lit "^fail2ban-client\b";
     rtk_cmd := lit "rtk fail2ban-client"; rewrite_prefixes := [lit "fail2ban-client"];
     category := lit "Infra"; savings_pct := 60;
     subcmd_savings := [];
     subcmd_status := [] |};
  {| pattern := lit "^gcloud\b";
     rtk_cmd := lit "rtk gcloud"; rewrite_prefixes := [lit "gcloud"];
     category := lit "Infra"; savings_pct := 65;
     subcmd_savings := [];
     subcmd_status := [] |};
  {| pattern := lit "^(?:\./gradlew|gradlew\.bat|gradlew|gradle)(?:\s+(test|build|clean|assemble\w*|install\w*|check|lint\w*|dependencies))?(\s|$)";
     rtk_cmd := lit "rtk gradlew"; rewrite_prefixes := [lit "./gradlew"; lit "gradlew.bat"; lit "gradlew"; lit "gradle"];
     category := lit "Build"; savings_pct := 75;
     subcmd_savings := [(lit "test", 90); (lit "build", 80); (lit "check", 80)];
     subcmd_status := [] |};
  {| pattern := lit "^hadolint\b";
     rtk_cmd := lit "rtk hadolint"; rewrite_prefixes := [lit "hadolint"];
     category := lit "Build"; savings_pct := 65;
     subcmd_savings := [];
     subcmd_status := [] |};
  {| pattern := lit "^helm\b";
     rtk_cmd := lit "rtk helm"; rewrite_prefixes := [lit "helm"];
     category := lit "Infra"; savings_pct := 65;
     subcmd_savings := [];
     subcmd_status := [] |};
  {| pattern := lit "^iptables\b";
     rtk_cmd := lit "rtk iptables"; rewrite_prefixes := [lit "iptables"];
     category := lit "Infra"; savings_pct := 60;
     subcmd_savings := [];
     subcmd_status := [] |};
  {| pattern := lit "^make\b";
     rtk_cmd := lit "rtk make"; rewrite_prefixes := [lit "make"];
     category := lit "Build"; savings_pct := 65;
     subcmd_savings := [];
     subcmd_status := [] |};
  {| pattern := lit "^markdownlint\b";
     rtk_cmd := lit "rtk markdownlint"; rewrite_prefixes := [lit "markdownlint"];
     category := lit "Build"; savings_pct := 65;
     subcmd_savings := [];
     subcmd_status := [] |};
  {| pattern := lit "^mix\s+(compile|format)(\s|$)";
     rtk_cmd := lit "rtk mix"; rewrite_prefixes := [lit "mix"];
     category := lit "Build"; savings_pct := 65;
     subcmd_savings := [];
     subcmd_status := [] |};
  {| pattern := lit "^(?:\./mvnw|mvnw\.cmd|mvnw|mvn)\b(?:\s+\S+)*?\s+(compile|test|integration-test|package|install|verify|deploy)\b";
     rtk_cmd := lit "rtk mvn"; rewrite_prefixes := [lit "./mvnw"; lit "mvnw.cmd"; lit "mvnw"; lit "mvn"];
     category := lit "Build"; savings_pct := 82;
     subcmd_savings := [];
     subcmd_status := [] |};
  {| pattern := lit "^ping\b";
     rtk_cmd := lit "rtk ping"; rewrite_prefixes := [lit "ping"];
     category := lit "Network"; savings_pct := 60;
     subcmd_savings := [];
     subcmd_status := [] |}
].

Definition RULES_7 : list RtkRule := [
  {| pattern := lit "^pio\s+run(\s|$)";
     rtk_cmd := lit "rtk pio"; rewrite_prefixes := [lit "pio"];
     category := lit "Build"; savings_pct := 65;
     subcmd_savings := [];
     subcmd_status := [] |};
  {| pattern := lit "^poetry\s+(install|lock|update)\b";
     rtk_cmd := lit "rtk poetry"; rewrite_prefixes := [lit "poetry"];
     category := lit "Python"; savings_pct := 65;
     subcmd_savings := [];
     subcmd_status := [] |};
  {| pattern := lit "^pre-commit\b";
     rtk_cmd := lit "rtk pre-commit"; rewrite_prefixes := [lit "pre-commit"];
     category := lit "Build"; savings_pct := 65;
     subcmd_savings := [];
     subcmd_status := [] |};
  {| pattern := lit "^ps(\s|$)";
     rtk_cmd := lit "rtk ps"; rewrite_prefixes := [lit "ps"];
     category := lit "System"; savings_pct := 60;
     subcmd_savings := [];
     subcmd_status := [] |};
  {| pattern := lit "^quarto\s+render(\s|$)";
     rtk_cmd := lit "rtk quarto"; rewrite_prefixes := [lit "quarto"];
     category := lit "Build"; savings_pct := 65;
     subcmd_savings := [];
     subcmd_status := [] |};
  {| pattern := lit "^rsync\b";
     rtk_cmd := lit "rtk rsync"; rewrite_prefixes := [lit "rsync"];
     category := lit "Network"; savings_pct := 65;
     subcmd_savings := [];
     subcmd_status := [] |};
  {| pattern := lit "^shellcheck\b";
     rtk_cmd := lit "rtk shellcheck"; rewrite_prefixes := [lit "shellcheck"];
     category := lit "Build"; savings_pct := 65;
     subcmd_savings := [];
     subcmd_status := [] |};
  {| pattern := lit "^shopify\s+theme\s+(push|pull)(\s|$)";
     rtk_cmd := lit "rtk shopify"; rewrite_prefixes := [lit "shopify"];
     category := lit "Build"; savings_pct := 65;
     subcmd_savings := [];
     subcmd_status := [] |};
  {| pattern := lit "^sops\b";
     rtk_cmd := lit "rtk sops"; rewrite_prefixes := [lit "sops"];
     category := lit "Infra"; savings_pct := 60;
     subcmd_savings := [];
     subcmd_status := [] |};
  {| pattern := lit "^swift\s+(build|test)\b";
     rtk_cmd := lit "rtk swift"; rewrite_prefixes := [lit "swift"];
     category := lit "Build"; savings_pct := 65;
     subcmd_savings := [(lit "test", 90)];
     subcmd_status := [] |};
  {| pattern := lit "^systemctl\s+status\b";
     rtk_cmd := lit "rtk systemctl"; rewrite_prefixes := [lit "systemctl"];
     category := lit "System"; savings_pct := 65;
     subcmd_savings := [];
     subcmd_status := [] |};
  {| pattern := lit "^terraform\s+plan(\s|$)";
     rtk_cmd := lit "rtk terraform"; rewrite_prefixes := [lit "terraform"];
     category := lit "Infra"; savings_pct := 70;
     subcmd_savings := [];
     subcmd_status := [] |};
  {| pattern := lit "^tofu\s+(fmt|init|plan|validate)(\s|$)";
     rtk_cmd := lit "rtk tofu"; rewrite_prefixes := [lit "tofu"];
     category := lit "Infra"; savings_pct := 70;
     subcmd_savings := [];
     subcmd_status := [] |};
  {| pattern := lit "^trunk\s+build(\s|$)";
     rtk_cmd := lit "rtk trunk"; rewrite_prefixes := [lit "trunk"];
     category := lit "Build"; savings_pct := 65;
     subcmd_savings := [];
     subcmd_status := [] |};
  {| pattern := lit "^uv\s+(sync|pip\s+install)\b";
     rtk_cmd := lit "rtk uv"; rewrite_prefixes := [lit "uv"];
     category := lit "Python"; savings_pct := 65;
     subcmd_savings := [];
     subcmd_status := [] |};
  {| pattern := lit "^yamllint\b";
     rtk_cmd := lit "rtk yamllint"; rewrite_prefixes := [lit "yamllint"];
     category := lit "Build"; savings_pct := 65;
     subcmd_savings := [];
     subcmd_status := [] |}
].

Definition RULES_8 : list RtkRule := [
  {| pattern := lit "^wc(\s|$)";
     rtk_cmd := lit "rtk wc"; rewrite_prefixes := [lit "wc"];
     category := lit "Files"; savings_pct := 60;
     subcmd_savings := [];
     subcmd_status := [] |};
  {| pattern := lit "^gt\s+";
     rtk_cmd := lit "rtk gt"; rewrite_prefixes := [lit "gt"];
     category := lit "Git"; savings_pct := 70;
     subcmd_savings := [];
     subcmd_status := [] |};
  {| pattern := lit "^liquibase(?:\s|$)";
     rtk_cmd := lit "rtk liquibase"; rewrite_prefixes := [lit "liquibase"];
     category := lit "Infra"; savings_pct := 65;
     subcmd_savings := [];
     subcmd_status := [] |}
].

Definition RULES : list RtkRule := RULES_1 ++ RULES_2 ++ RULES_3 ++ RULES_4 ++ RULES_5 ++ RULES_6 ++ RULES_7 ++ RULES_8.

Definition IGNORED_PREFIXES : list rstr := [
  lit "#"; lit "cd "; lit "cd" ++ [9]; lit "echo "; lit "printf "; lit "export "; lit "source "; lit "mkdir "; lit "rm "; lit "mv "; lit "cp "; lit "chmod "; lit "chown "; lit "touch "; lit "which "; lit "type "; lit "test "; lit "true"; lit "false"; lit "sleep "; lit "wait"; lit "kill "; lit "set "; lit "unset "; lit "sort "; lit "uniq "; lit "tr "; lit "cut "; lit "awk "; lit "sed "; lit "python3 -c"; lit "python -c"; lit "node -e"; lit "ruby -e"; lit "rtk "; lit "pwd"; lit "bash "; lit "sh "; lit "then" ++ [10]; lit "then "; lit "else" ++ [10]; lit "else "; lit "do" ++ [10]; lit "do "; lit "for "; lit "while "; lit "if "; lit "case "
].

Definition IGNORED_EXACT : list rstr := [
  lit "cd"; lit "echo"; lit "true"; lit "false"; lit "wait"; lit "pwd"; lit "bash"; lit "sh"; lit "fi"; lit "done"
].

(** ** What the table keeps *)

(** The tool behind [rtk]. *)
Definition rtk_tool (r : RtkRule) : option rstr := strip_prefix (lit "rtk ") (rtk_cmd r).

(** Every rule calls a tool of the engine and can rewrite something, and no prefix
    hides a longer one behind it. *)
Definition hides (p q : rstr) : bool := starts_with (p ++ lit " ") q.

Fixpoint longest_first (prefixes : list rstr) : bool :=
  match prefixes with [] => true | p :: ps => negb (existsb (hides p) ps) && longest_first ps end.

Definition rule_ok (r : RtkRule) : bool :=
  match rtk_tool r with Some t => negb (is_empty t) | None => false end
  && negb (is_nil (rewrite_prefixes r)) && forallb (fun p => negb (is_empty p)) (rewrite_prefixes r)
  && longest_first (rewrite_prefixes r).

Lemma rules_ok : forallb rule_ok RULES = true.
Proof. vm_compute. reflexivity. Qed.

(** The rule that the rewriter finds by its command. *)
Definition find_rule (cmd : rstr) : option RtkRule := List.find (fun r => str_eqb (rtk_cmd r) cmd) RULES.

(** Three commands have two rules, of which only the first is ever found. *)
Definition second_rules : list RtkRule :=
  List.filter (fun r => match find_rule (rtk_cmd r) with Some f => negb (str_eqb (pattern f) (pattern r)) || negb (savings_pct f =? savings_pct r) | None => false end) RULES.

Lemma three_rules_are_not_found :
  map (fun r => (rtk_cmd r, rewrite_prefixes r)) second_rules =
    [(lit "rtk rgai", [lit "rgai"]); (lit "rtk tree", [lit "tree"]); (lit "rtk diff", [lit "diff"])].
Proof. vm_compute. reflexivity. Qed.

End Rules.
