(* ===== verification/RewriteSegment.v ===== *)
(** Rewriting one command ([fork-core/rtk/src/discover/registry.rs]): its
    classification by the rule table, the prefixes and redirections it keeps, the
    exclusions, and the calls of sqlite3, tar and ssh that are checked word by word
    ([sqlite_cmd.rs], [tar_cmd.rs], [remote_logs_cmd.rs]).

    [Outside] holds what the code asks outside itself: the regex crate, the
    executables of the machine and the user's settings.  As in [Rewrite], [None] is
    a panic of the source, and an answer is [Some]. *)

From S2P Require Import Prelude RStr Lexer Segments Permissions ReadWindow Rewrite Rules.
From Stdlib Require Import ZifyBool ZifyN ZifyNat.

Module RewriteSegment.
Import Lexer Segments Rewrite Rules.

(** What the code asks outside itself. *)
Record Outside := {
  on_path : rstr -> rstr -> bool;                      (** an absolute path is the executable of that name *)
  strip_env : rstr -> rstr;                            (** [ENV_PREFIX.replace(_, "")] *)
  git_global_opt : rstr -> rstr;                       (** [GIT_GLOBAL_OPT.replace(_, "")] *)
  captures : rstr -> rstr -> option (option rstr);     (** a pattern on a text: a match and its first group *)
  regex_new : rstr -> option (rstr -> bool);           (** [Regex::new], with [is_match] *)
  escape : rstr -> rstr;                               (** [regex::escape] *)
  toml_disabled : bool;
  command_matches_filter : rstr -> bool;
  gh_pack_json : bool;
}.

(** ** Text *)

Definition ascii_lower (c : char) : char := if is_ascii_uppercase c then c + 32 else c.
Definition to_ascii_lowercase (s : rstr) : rstr := map ascii_lower s.

(** [split_ascii_whitespace().next()]. *)
Definition is_ascii_whitespace (c : char) : bool := existsb (N.eqb c) [32; 9; 10; 12; 13].
Definition split_ascii_whitespace (s : rstr) : list rstr :=
  List.filter (fun w => negb (is_empty w)) (split_char is_ascii_whitespace s).

(** The first word, the white space behind it and the rest. *)
Definition first_word (s : rstr) : rstr := (span is_whitespace s).1.

(** ** Classification *)

Inductive Classification :=
| Supported (rtk_equivalent category : rstr) (estimated_savings_pct : N) (status : RtkStatus)
| Unsupported (base_command : rstr)
| Ignored.

(** The first word, or the first two if the second looks like a subcommand: the
    text in front of the white space behind the second. *)
Definition extract_base_command (cmd : rstr) : rstr :=
  match span is_whitespace cmd with
  | (first, []) => cmd
  | (first, w :: rest) =>
      let second := (span is_whitespace rest).1 in
      if negb (starts_with (lit "-") second) && negb (contains_char (ch "/") second) && negb (contains_char (ch ".") second)
      then
        let trimmed := trim_start rest in
        first ++ take (length (w :: rest) - length trimmed) (w :: rest) ++ (span is_whitespace trimmed).1
      else first
  end.

Definition GOLANGCI_GLOBAL_OPT_WITH_VALUE : list rstr :=
  [lit "-c"; lit "--color"; lit "--config"; lit "--cpu-profile-path"; lit "--mem-profile-path"; lit "--trace-path"].

(** The words with their byte positions; [start] is the word that is being read. *)
Fixpoint token_spans (s : rstr) (pos : nat) (start : option (rstr * nat)) : list (rstr * nat * nat) :=
  match s with
  | [] => match start with Some (w, a) => [(w, a, pos)] | None => [] end
  | c :: s =>
      if is_whitespace c then
        match start with
        | Some (w, a) => (w, a, pos) :: token_spans s (pos + len_utf8 c) None
        | None => token_spans s (pos + len_utf8 c) None
        end
      else token_spans s (pos + len_utf8 c) (match start with Some (w, a) => Some (w ++ [c], a) | None => Some ([c], pos) end)
  end.

Definition split_token_spans (cmd : rstr) : list (rstr * nat * nat) := token_spans cmd 0 None.

Definition split_golangci_flag_name (arg : rstr) : option rstr :=
  if starts_with (lit "--") arg then Some (match split_once (lit "=") arg with Some (flag, _) => flag | None => arg end)
  else if starts_with (lit "-") arg then Some arg else None.

Definition golangci_flag_takes_separate_value (arg flag : rstr) : bool :=
  if negb (one_of flag GOLANGCI_GLOBAL_OPT_WITH_VALUE) then false
  else negb (starts_with (lit "--") arg && contains (lit "=") arg).

Record GolangciRunParts := { global_segment : rstr; run_segment : rstr }.

(** The loop over the words behind the first; [global] is where the options start. *)
Fixpoint golangci_loop (cmd : rstr) (global : option nat) (tokens : list (rstr * nat * nat)) : option (option GolangciRunParts) :=
  match tokens with
  | [] => Some None
  | (token, start, _) :: rest =>
      if str_eqb token (lit "--") then Some None
      else if negb (starts_with (lit "-") token) then
        if str_eqb token (lit "run") then
          global_segment ← match global with Some g => text ← slice g start cmd; Some (trim text) | None => Some [] end;
          run ← slice_from start cmd;
          Some (Some {| global_segment := global_segment; run_segment := trim run |})
        else Some None
      else
        let global := Some (default start global) in
        match split_golangci_flag_name token with
        | Some flag =>
            if golangci_flag_takes_separate_value token flag
            then match rest with [] => Some None | _ :: rest => golangci_loop cmd global rest end
            else golangci_loop cmd global rest
        | None => golangci_loop cmd global rest
        end
  end.

Definition parse_golangci_run_parts (cmd : rstr) : option (option GolangciRunParts) :=
  match split_token_spans cmd with
  | [] => Some None
  | (first, _, _) :: rest =>
      if one_of first [lit "golangci-lint"; lit "golangci"] then golangci_loop cmd None rest else Some None
  end.

Definition strip_golangci_global_opts (cmd : rstr) : option rstr :=
  parts ← parse_golangci_run_parts cmd;
  Some (match parts with Some parts => lit "golangci-lint " ++ run_segment parts | None => cmd end).

Section Classify.
Context (o : Outside).

Definition strip_git_global_opts (cmd : rstr) : rstr :=
  match strip_prefix (lit "git ") cmd with
  | None => cmd
  | Some after_git => lit "git " ++ trim (git_global_opt o after_git)
  end.

(** [redirect operators] among the words behind the first. *)
Definition reads_by_redirect (cmd : rstr) : bool :=
  (starts_with (lit "cat ") cmd || starts_with (lit "head ") cmd || starts_with (lit "tail ") cmd)
  && existsb (fun t => starts_with (lit ">") t || str_eqb t (lit "<") || starts_with (lit ">>") t) (tail (split_whitespace cmd)).

(** The last rule whose pattern matches, with the first group of its match. *)
Definition last_match (cmd : rstr) : option (RtkRule * option rstr) :=
  last (omap (fun r => group ← captures o (pattern r) cmd; Some (r, group)) RULES).

Definition assoc {A} (key : rstr) (l : list (rstr * A)) (otherwise : A) : A :=
  match List.find (fun kv => str_eqb kv.1 key) l with Some kv => kv.2 | None => otherwise end.

Definition supported_by (rule : RtkRule) (group : option rstr) : Classification :=
  let '(savings, status) :=
    match group with
    | Some subcmd => (assoc subcmd (subcmd_savings rule) (savings_pct rule), assoc subcmd (subcmd_status rule) Existing)
    | None => (savings_pct rule, Existing)
    end in
  Supported (rtk_cmd rule) (category rule) savings status.

Definition classify_command (cmd : rstr) : option Classification :=
  let trimmed := trim cmd in
  if is_empty trimmed then Some Ignored
  else if one_of trimmed IGNORED_EXACT then Some Ignored
  else if existsb (fun prefix => starts_with prefix trimmed) IGNORED_PREFIXES then Some Ignored
  else
    let cmd_clean := trim (strip_env o trimmed) in
    if is_empty cmd_clean then Some Ignored
    else
      cmd_clean ← strip_golangci_global_opts (strip_git_global_opts (strip_absolute_path (on_path o) cmd_clean));
      if reads_by_redirect cmd_clean then Some (Unsupported (default (lit "cat") (head (split_whitespace cmd_clean))))
      else
        match last_match cmd_clean with
        | Some (rule, group) => Some (supported_by rule group)
        | None =>
            let base := extract_base_command cmd_clean in
            Some (if is_empty base then Ignored else Unsupported base)
        end.

Definition existing_route (cmd : rstr) : option (option (rstr * rstr)) :=
  c ← classify_command cmd;
  Some (match c with
        | Supported rtk_equivalent category _ status => if decide (status = Existing) then Some (rtk_equivalent, category) else None
        | _ => None
        end).

Definition has_existing_route (cmd : rstr) : option bool :=
  route ← existing_route cmd; Some (bool_decide (is_Some route)).
End Classify.

(** ** Calls that are checked word by word *)

(** The loop over [match_indices]: [before] is the text in front of [query], and
    every turn takes an occurrence. *)
Fixpoint function_called (fuel : nat) (before query function : rstr) : bool :=
  match fuel with
  | O => false
  | S fuel =>
      match split_once function query with
      | None => false
      | Some (a, after) =>
          let before_is_identifier :=
            match last (before ++ a) with Some c => (c =? ch "_") || is_ascii_alphanumeric c | None => false end in
          negb before_is_identifier && starts_with (lit "(") (trim_start after)
          || function_called fuel (before ++ a ++ function) after function
      end
  end.

Definition contains_function_call (query function : rstr) : bool := function_called (S (length query)) [] query function.

Definition rejected_functions : list rstr :=
  [lit "load_extension"; lit "writefile"; lit "readfile"; lit "fts3_tokenizer"; lit "zipfile"; lit "fsdir"; lit "edit"].

Definition validate_single_select (query : rstr) : result rstr rstr :=
  let query := trim query in
  let query := trim_end (default query (strip_suffix (lit ";") query)) in
  if is_empty query || contains (lit ";") query then Err (lit "sqlite3 route accepts exactly one SELECT statement")
  else
    match split_ascii_whitespace query with
    | [] => Err (lit "sqlite3 route accepts exactly one SELECT statement")
    | first :: _ =>
        if negb (str_eqb (to_ascii_lowercase first) (lit "select"))
        then Err (lit "sqlite3 route is read-only and accepts SELECT statements only")
        else
          let lowercase := to_ascii_lowercase query in
          if contains (lit "--") lowercase || contains (lit "/*") lowercase
          then Err (lit "sqlite3 route rejects SQL comments; submit one explicit SELECT")
          else if existsb (contains_function_call lowercase) rejected_functions
          then Err (lit "sqlite3 route rejects filesystem, extension, and process-capable SQL functions")
          else Ok query
    end.

Definition valid_short_cluster (flags : rstr) : bool := forallb (fun flag => existsb (N.eqb flag) (lit "tzvf")) flags.

Definition listing_only_error : result rstr unit :=
  Err (lit "tar mutation, extraction, or non-list options remain Ask/E10; use only -t/-tzf/--list with an archive").

(** An archive that an option names: the next word. *)
Definition names_archive (args : list rstr) : bool := match args with value :: _ => negb (starts_with (lit "-") value) | [] => false end.

(** The loop over the words; the first may be a cluster of letters without a dash. *)
Fixpoint listing_loop (first lists archive : bool) (args : list rstr) : result rstr unit :=
  match args with
  | [] => if negb lists || negb archive then listing_only_error else Ok tt
  | arg :: args =>
      let cluster flags :=
        if negb (valid_short_cluster flags) then listing_only_error
        else
          let lists := lists || contains_char (ch "t") flags in
          if contains_char (ch "f") flags then
            match args with
            | _ :: rest => if names_archive args then listing_loop false lists true rest else listing_only_error
            | [] => listing_only_error
            end
          else listing_loop false lists archive args in
      if first && negb (starts_with (lit "-") arg) then cluster arg
      else if str_eqb arg (lit "--list") then listing_loop false true archive args
      else if one_of arg [lit "--gzip"; lit "--verbose"] then listing_loop false lists archive args
      else
        match strip_prefix (lit "--file=") arg with
        | Some path => listing_loop false lists (negb (is_empty path)) args
        | None =>
            if str_eqb arg (lit "--file") then
              match args with
              | _ :: rest => if names_archive args then listing_loop false lists true rest else listing_only_error
              | [] => listing_only_error
              end
            else
              match strip_prefix (lit "-") arg with
              | Some flags => if is_empty flags then listing_only_error else cluster flags
              | None => if negb archive then listing_only_error else listing_loop false lists archive args
              end
        end
  end.

Definition validate_listing (args : list rstr) : result rstr unit :=
  if is_nil args then Err (lit "tar route requires a bounded -t/--list invocation") else listing_loop true false false args.

Definition validate_safe_value (label value punctuation : rstr) : result rstr unit :=
  if is_empty value || starts_with (lit "-") value
     || negb (forallb (fun c => is_ascii_alphanumeric c || contains_char c punctuation) value)
  then Err (lit "invalid " ++ label ++ lit ": typed remote logs reject shell syntax")
  else Ok tt.

Section Gaps.
Context (o : Outside).

Definition runs (tool : rstr) (words : list rstr) : bool :=
  match words with program :: _ => str_eqb (Permissions.executable_name (on_path o) program) tool | [] => false end.

(** [command.get(range)]. *)
Definition get_span (command : rstr) (r : range) : option rstr := slice r.1 r.2 command.

Definition rewrite_sqlite_select (command : rstr) : option rstr :=
  let words := shell_split command in
  if negb (runs (lit "sqlite3") words) then None
  else
    let database_index := if bool_decide (words !! 1%nat = Some (lit "-readonly")) then 2%nat else 1%nat in
    match words !! database_index, words !! S database_index with
    | Some database, Some query =>
        if negb (length words =? database_index + 2)%nat || is_empty database || starts_with (lit "-") database
           || negb (is_ok (validate_single_select query))
        then None
        else
          let spans := shell_word_spans command in
          database ← spans !! database_index ≫= get_span command;
          query ← spans !! S database_index ≫= get_span command;
          Some (lit "rtk sqlite3 " ++ database ++ lit " " ++ query ++ lit " --max-rows 50 --max-tokens 2048")
    | _, _ => None
    end.

Definition rewrite_tar_listing (command : rstr) : option rstr :=
  let words := shell_split command in
  if (length words <? 3)%nat || negb (runs (lit "tar") words) || negb (is_ok (validate_listing (tail words))) then None
  else
    arg ← List.filter is_arg (tokenize command) !! 1%nat;
    suffix ← slice_from (offset arg) command;
    Some (lit "rtk tar --max-entries 100 " ++ trim suffix).

(** The options of [docker logs], as the loop collects them. *)
Record LogOptions := { log_tail : option rstr; since : option rstr; timestamps : bool }.

(** The loop while a word follows; it ends in front of the last. *)
Fixpoint log_options (words : list rstr) (opts : LogOptions) : option (LogOptions * list rstr) :=
  match words with
  | [] | [_] => Some (opts, words)
  | word :: ((next :: rest') as rest) =>
      let with_tail t := {| log_tail := Some t; since := since opts; timestamps := timestamps opts |} in
      let with_since s := {| log_tail := log_tail opts; since := Some s; timestamps := timestamps opts |} in
      let no_tail := bool_decide (log_tail opts = None) in
      let no_since := bool_decide (since opts = None) in
      if one_of word [lit "--tail"; lit "-n"] && no_tail then log_options rest' (with_tail next)
      else if starts_with (lit "--tail=") word && no_tail then t ← strip_prefix (lit "--tail=") word; log_options rest (with_tail t)
      else if str_eqb word (lit "--since") && no_since then log_options rest' (with_since next)
      else if starts_with (lit "--since=") word && no_since then s ← strip_prefix (lit "--since=") word; log_options rest (with_since s)
      else if one_of word [lit "--timestamps"; lit "-t"] && negb (timestamps opts)
      then log_options rest {| log_tail := log_tail opts; since := since opts; timestamps := true |}
      else None
  end.

Definition rewrite_remote_docker_logs (command : rstr) : option rstr :=
  match shell_split command with
  | program :: host :: docker :: logs :: rest =>
      if (length rest <? 1)%nat || negb (runs (lit "ssh") [program]) || negb (str_eqb docker (lit "docker")) || negb (str_eqb logs (lit "logs"))
         || negb (is_ok (validate_safe_value (lit "host") host (lit "._@:-")))
      then None
      else
        '(opts, rest) ← log_options rest {| log_tail := None; since := None; timestamps := false |};
        match rest with
        | [container] =>
            let tail_ := default (lit "100") (log_tail opts) in
            if negb (match parse_unsigned u64_max tail_ with Some n => (1 <=? n) && (n <=? 1000) | None => false end) then None
            else if negb (is_ok (validate_safe_value (lit "container") container (lit "_.-")))
                 || match since opts with Some s => negb (is_ok (validate_safe_value (lit "since") s (lit "_.:+-TZ"))) | None => false end
            then None
            else Some (lit "rtk logs " ++ host ++ lit " " ++ container ++ lit " --tail " ++ tail_
                       ++ match since opts with Some s => lit " --since " ++ s | None => [] end
                       ++ (if timestamps opts then lit " --timestamps" else []))
        | _ => None
        end
  | _ => None
  end.

Definition rewrite_typed_gap (command : rstr) : option rstr :=
  match rewrite_sqlite_select command with
  | Some r => Some r
  | None => match rewrite_tar_listing command with Some r => Some r | None => rewrite_remote_docker_logs command end
  end.
End Gaps.

(** ** Prefixes, exclusions and redirections *)

Definition ELEVATORS : list rstr := [lit "sudo"; lit "doas"; lit "pkexec"].

Definition is_assignment (word : rstr) : bool :=
  match split_once (lit "=") word with Some (name, _) => negb (is_empty name) && negb (existsb is_whitespace name) | None => false end.

Fixpoint elevator (words : list rstr) : option rstr :=
  match words with
  | [] => None
  | word :: words =>
      let base := rsplit_next (ch "/") word in
      if one_of base ELEVATORS then Some base
      else if is_assignment word || str_eqb base (lit "env") then elevator words else None
  end.

Definition privilege_prefix (cmd : rstr) : option rstr := elevator (split_whitespace cmd).

Inductive ExcludePattern := Regex (is_match : rstr -> bool) | Prefix (prefix : rstr).

Definition is_excluded (cmd : rstr) (excluded : list ExcludePattern) : bool :=
  existsb (fun pat => match pat with Regex is_match => is_match cmd | Prefix prefix => starts_with prefix cmd end) excluded.

Definition search_uses_pattern_file (cmd : rstr) : bool :=
  let args := tail (shell_split cmd) in
  existsb (fun arg => str_eqb arg (lit "--file") || starts_with (lit "--file=") arg
                      || match strip_prefix (lit "-") arg with
                         | Some flags => negb (starts_with (lit "-") flags) && contains_char (ch "f") flags
                         | None => false
                         end)
    (match list_find (fun arg => arg = lit "--") args with Some (i, _) => take i args | None => args end).

Definition rule_pipeline_final_safe (rtk_cmd : rstr) : bool := one_of rtk_cmd [lit "rtk grep"; lit "rtk rg"].

Definition pipeline_final_command_is_safe (rtk_cmd cmd : rstr) : bool :=
  negb (one_of rtk_cmd [lit "rtk grep"; lit "rtk rg"]) || negb (search_uses_pattern_file cmd).

(** The walk back over the redirections at the end: the first of them. *)
Fixpoint redirect_start (behind_first : list ParsedToken) (boundary : option ParsedToken) : option ParsedToken :=
  match behind_first with
  | [] => boundary
  | t :: rest =>
      match kind t with
      | Redirect => redirect_start rest (Some t)
      | Arg =>
          match rest with
          | r :: rest' => if is_redirect r then redirect_start rest' (Some r) else boundary
          | [] => boundary
          end
      | _ => boundary
      end
  end.

Definition strip_trailing_redirects (cmd : rstr) : option (rstr * rstr) :=
  match redirect_start (rev (tokenize cmd)) None with
  | None => Some (cmd, [])
  | Some t =>
      before ← slice_to (offset t) cmd;
      let cmd_part := trim_end before in
      redir_part ← slice_from (blen cmd_part) cmd;
      Some (cmd_part, redir_part)
  end.

(** The first prefix that a command starts with, and the rest. *)
Fixpoint strip_first (cmd : rstr) (prefixes : list rstr) : option (rstr * rstr) :=
  match prefixes with
  | [] => None
  | p :: prefixes => match Permissions.strip_word_prefix cmd p with Some rest => Some (p, rest) | None => strip_first cmd prefixes end
  end.

Definition RTK_META_COMMANDS : list rstr :=
  [lit "gain"; lit "discover"; lit "learn"; lit "init"; lit "config"; lit "proxy"; lit "hook-audit"; lit "cc-economics"; lit "write";
   lit "read"; lit "rgai"; lit "memory"; lit "smart"; lit "summary"; lit "rewrite"; lit "pipe"; lit "trust"; lit "untrust"; lit "verify"].

Definition is_rtk_reserved_command (command : rstr) : bool := one_of command RTK_META_COMMANDS.

Definition MAX_PREFIX_DEPTH : nat := 10.

#[export] Instance RewriteContext_eq_dec : EqDecision RewriteContext.
Proof. solve_decision. Defined.

Section Segment.
Context (o : Outside) (excluded : list ExcludePattern) (transparent_prefixes : list rstr).

Definition strip_disabled_prefix (cmd : rstr) : option (rstr * rstr) :=
  let trimmed := trim cmd in
  let stripped := strip_env o trimmed in
  if (blen trimmed <? blen stripped)%nat then None
  else
    let prefix_len := (blen trimmed - blen stripped)%nat in
    prefix_part ← slice_to prefix_len trimmed;
    rest ← slice_from prefix_len trimmed;
    Some (prefix_part, trim rest).

Definition prefix_contains_rtk_disabled (prefix_part : rstr) : bool := contains (lit "RTK_DISABLED=") prefix_part.

Definition cmd_has_rtk_disabled_prefix (cmd : rstr) : option bool :=
  '(prefix_part, _) ← strip_disabled_prefix cmd; Some (prefix_contains_rtk_disabled prefix_part).

(** A rule's prefixes, the longest first. *)
Fixpoint rewrite_by_prefix (rule : RtkRule) (prefixes : list rstr) (cmd_part redirect_suffix : rstr) : option rstr :=
  match prefixes with
  | [] => None
  | prefix :: prefixes =>
      match Permissions.strip_word_prefix cmd_part prefix with
      | Some rest =>
          let rtk_cmd :=
            match strip_prefix (lit "rtk ") (rtk_cmd rule) with
            | Some tool => if starts_with (lit "bunx ") prefix || starts_with (lit "bun x ") prefix
                           then lit "rtk --js-runner bunx " ++ tool else rtk_cmd rule
            | None => rtk_cmd rule
            end in
          Some (if is_empty rest then rtk_cmd ++ redirect_suffix else rtk_cmd ++ lit " " ++ rest ++ redirect_suffix)
      | None => rewrite_by_prefix rule prefixes cmd_part redirect_suffix
      end
  end.

(** [gh] with an output of the caller's own. The source lowers all letters; only ASCII
    letters become letters of these options. *)
Definition gh_is_exact (cmd_part : rstr) : bool :=
  let args_lower := to_ascii_lowercase cmd_part in
  contains (lit "--jq") args_lower || contains (lit "--template") args_lower
  || contains (lit "--json") args_lower && (negb (gh_pack_json o) || contains (lit ">") cmd_part).

(** Whether a rule may be used where the command stands. *)
Definition context_allows (context : RewriteContext) (rule : RtkRule) (cmd_part : rstr) : bool :=
  match context with
  | PipelineFinal => rule_pipeline_final_safe (rtk_cmd rule) && pipeline_final_command_is_safe (rtk_cmd rule) cmd_part
  | PipelineProducer => negb (str_eqb (rtk_cmd rule) (lit "rtk read"))
  | Normal => true
  end.

(** What a rule makes of a command. *)
Definition rewrite_by_rule (context : RewriteContext) (rule : RtkRule) (cmd_part redirect_suffix : rstr) : option (option rstr) :=
  if negb (context_allows context rule cmd_part) then Some None
  else
    parts ← parse_golangci_run_parts cmd_part;
    match parts with
    | Some parts =>
        Some (Some (if is_empty (global_segment parts) then lit "rtk golangci-lint " ++ run_segment parts
                    else lit "rtk golangci-lint " ++ global_segment parts ++ lit " " ++ run_segment parts))
    | None =>
        if str_eqb (rtk_cmd rule) (lit "rtk gh") && gh_is_exact cmd_part then Some None
        else Some (rewrite_by_prefix rule (rewrite_prefixes rule) cmd_part redirect_suffix)
    end.

(** [cat] with options that [rtk read] lacks, or with several files. *)
Definition cat_stays (cmd_part : rstr) : option bool :=
  match strip_prefix (lit "cat ") cmd_part with
  | None => Some false
  | Some cmd_args =>
      let args := trim_start cmd_args in
      if starts_with (lit "-") args && negb (starts_with (lit "-n ") args) && negb (starts_with (lit "-n" ++ [9]) args) then Some true
      else
        words ← mapM (fun span => slice span.1 span.2 args) (shell_word_spans args);
        Some (negb (length (List.filter (fun w => negb (str_eqb w (lit "-n"))) words) =? 1)%nat)
  end.

(** From the generic rule table on. *)
Definition rewrite_classified (context : RewriteContext) (cmd_part redirect_suffix : rstr) : option (option rstr) :=
  class ← classify_command o cmd_part;
  match class with
  | Supported rtk_equivalent _ _ _ =>
      if is_excluded (trim (strip_env o cmd_part)) excluded then Some None
      else match find_rule rtk_equivalent with
           | Some rule => rewrite_by_rule context rule cmd_part redirect_suffix
           | None => Some None
           end
  | Unsupported _ =>
      if bool_decide (context = PipelineFinal) || toml_disabled o then Some None
      else
        let normalized := strip_absolute_path (on_path o) (trim cmd_part) in
        if is_excluded normalized excluded then Some None
        else if is_rtk_reserved_command (default [] (head (split_whitespace normalized))) then Some None
        else if command_matches_filter o normalized then Some (Some (lit "rtk " ++ cmd_part ++ redirect_suffix))
        else Some None
  | Ignored => Some None
  end.

Definition is_window_call (cmd_part : rstr) : bool :=
  existsb (fun p => starts_with p cmd_part) [lit "head "; lit "tail "; lit "sed -n "; lit "nl -ba "].

(** A command without prefixes and wrappers; its trailing redirections are apart. *)
Definition rewrite_plain (context : RewriteContext) (trimmed cmd_part redirect_suffix : rstr) : option (option rstr) :=
  if starts_with (lit "rtk ") cmd_part || str_eqb cmd_part (lit "rtk") then Some (Some trimmed)
  else
    let cmd_part := strip_absolute_path (on_path o) cmd_part in
    match rewrite_typed_gap o cmd_part with
    | Some rewritten => Some (Some (rewritten ++ redirect_suffix))
    | None =>
        if bool_decide (context = Normal) && is_window_call cmd_part then
          if is_excluded (trim cmd_part) excluded then Some None
          else option_map (option_map (fun r => r ++ redirect_suffix)) (rewrite_line_range cmd_part)
        else
          stays ← cat_stays cmd_part;
          if (stays : bool) then Some None else rewrite_classified context cmd_part redirect_suffix
    end.

(** A rewriting of the rest, behind what was in front of it. *)
Definition behind (prefix : rstr) (answer : option (option rstr)) : option (option rstr) :=
  option_map (option_map (fun r => prefix ++ r)) answer.

(** The body of [rewrite_segment_inner], over the function it calls again. *)
Definition segment_step (again : RewriteContext -> nat -> rstr -> option (option rstr)) (context : RewriteContext) (depth : nat) (seg : rstr)
    : option (option rstr) :=
  let trimmed := trim seg in
  if is_empty trimmed then Some None
  else if (MAX_PREFIX_DEPTH <=? depth)%nat then Some None
  else if bool_decide (is_Some (privilege_prefix trimmed)) then Some None
  else
    '(env_prefix, rest_after_env) ← strip_disabled_prefix trimmed;
    if negb (is_empty env_prefix) then
      if contains (lit "RTK_DISABLED=") env_prefix then Some None
      else behind env_prefix (again context (S depth) rest_after_env)
    else
      wrapped ← Permissions.execution_prefix (on_path o) trimmed;
      match wrapped with
      | Some (prefix, rest) => behind (prefix ++ lit " ") (again context (S depth) rest)
      | None =>
          match strip_first trimmed (Permissions.BUILTIN_TRANSPARENT_PREFIXES ++ transparent_prefixes) with
          | Some (prefix, rest) =>
              if is_empty rest then Some None
              else behind (prefix ++ lit " ") (again context (S depth) rest)
          | None =>
              '(cmd_part, redirect_suffix) ← strip_trailing_redirects trimmed;
              wrapper ← parse_shell_command_wrapper cmd_part;
              match wrapper with
              | Parsed payload =>
                  rewritten ← rewrite_single (on_path o) (strip_env o) (fun ctx s => again ctx 0%nat s) (command payload);
                  match rewritten with
                  | None => Some None
                  | Some rewritten =>
                      replaced ← replace_in payload cmd_part rewritten;
                      Some (Some (replaced ++ redirect_suffix))
                  end
              | Ambiguous => Some None
              | NotWrapper => rewrite_plain context trimmed cmd_part redirect_suffix
              end
          end
      end.

(** [fuel] has only to exceed the characters of the segment: every prefix and
    every shell wrapper leaves fewer. *)
Fixpoint rewrite_segment_inner (fuel : nat) (context : RewriteContext) (depth : nat) (seg : rstr) : option (option rstr) :=
  match fuel with
  | O => None
  | S fuel => segment_step (rewrite_segment_inner fuel) context depth seg
  end.

Definition rewrite_segment (context : RewriteContext) (seg : rstr) : option (option rstr) :=
  rewrite_segment_inner (S (length seg)) context 0 seg.
End Segment.

Section Exclude.
Context (o : Outside).

Definition compile_exclude_pattern (pattern : rstr) : option ExcludePattern :=
  let trimmed := trim pattern in
  if is_empty trimmed || str_eqb trimmed (lit "^") then None
  else
    let anchored := if starts_with (lit "^") trimmed then trimmed else lit "^" ++ escape o trimmed ++ lit "($|\s)" in
    Some (match regex_new o anchored with Some is_match => Regex is_match | None => Prefix trimmed end).

Definition compile_exclude_patterns (patterns : list rstr) : list ExcludePattern := omap compile_exclude_pattern patterns.
End Exclude.

(** ** The fuel is enough

    Every prefix, and every shell wrapper, leaves a shorter text. *)

Lemma trim_length s : (length (trim s) <= length s)%nat.
Proof. destruct (trim_split s) as (w & w' & H & _). rewrite H at 2. rewrite !length_app. lia. Qed.

Lemma trim_start_length s : (length (trim_start s) <= length s)%nat.
Proof. unfold trim_start. destruct (skip_while_suffix is_whitespace s) as (w & H & _). rewrite H at 2. rewrite length_app. lia. Qed.

Lemma slice_length a b s t : slice a b s = Some t -> (length t <= length s)%nat.
Proof. intros H. apply slice_inv in H as (x & z & -> & _). rewrite !length_app. lia. Qed.

Lemma blen_nil s : blen s = 0%nat -> s = [].
Proof. destruct s as [|c s]; [done|]. cbn. pose proof (len_utf8_pos c). lia. Qed.

Lemma slice_from_shorter n s t : (0 < n)%nat -> slice_from n s = Some t -> (length t < length s)%nat.
Proof. intros Hn H. apply slice_from_inv in H as (x & -> & <-). rewrite length_app. destruct x; [cbn in Hn; lia | cbn; lia]. Qed.

Lemma slice_shorter a b s t : (0 < a)%nat -> slice a b s = Some t -> (length t < length s)%nat.
Proof. intros Hn H. apply slice_inv in H as (x & z & -> & -> & _). rewrite !length_app. destruct x; [cbn in Hn; lia | cbn; lia]. Qed.

(** *** Rewriting a line asks only for texts of its length *)

Section Mono.
Context (on_path : rstr -> rstr -> bool) (strip_env : rstr -> rstr) (seg1 seg2 : RewriteContext -> rstr -> option (option rstr)) (cmd : rstr).
Context (agree : forall ctx s r, (length s <= length cmd)%nat -> seg1 ctx s = Some r -> seg2 ctx s = Some r).

Lemma agree_on_region ctx a b region r : slice a b cmd = Some region -> seg1 ctx (trim region) = Some r -> seg2 ctx (trim region) = Some r.
Proof. intros H. apply agree. pose proof (trim_length region). apply slice_length in H. lia. Qed.

Lemma emit_segment_mono fin separator next st st' :
  emit_segment seg1 cmd fin separator next st = Some st' -> emit_segment seg2 cmd fin separator next st = Some st'.
Proof.
  unfold emit_segment, Rewrite.rewrite_segment. destruct (slice _ _ _) as [region|] eqn:E; [|done]. cbv [mbind option_bind].
  destruct (seg1 Normal (trim region)) as [r|] eqn:Er; [|done]. by rewrite (agree_on_region _ _ _ _ _ E Er).
Qed.

Lemma emit_pipeline_mono tokens t st r :
  emit_pipeline on_path strip_env seg1 cmd tokens t st = Some r -> emit_pipeline on_path strip_env seg2 cmd tokens t st = Some r.
Proof.
  unfold emit_pipeline. destruct (analyze_pipeline _ _ _ _) as [a|]; [|done]. cbv [mbind option_bind].
  assert (forall x, rewrite_pipeline_final_stage seg1 cmd (seg_start st) a = Some x -> rewrite_pipeline_final_stage seg2 cmd (seg_start st) a = Some x) as Hf.
  { unfold rewrite_pipeline_final_stage. destruct (final_stage_start a) as [start|]; [|done].
    destruct (slice start (end_offset a) cmd) as [region|] eqn:E; [|done]. cbv [mbind option_bind].
    destruct (seg1 PipelineFinal (trim region)) as [x|] eqn:Ex; [|done]. by rewrite (agree_on_region _ _ _ _ _ E Ex). }
  assert (forall x, rewrite_pipeline_producer on_path strip_env seg1 cmd (seg_start st) (offset t) a = Some x ->
                    rewrite_pipeline_producer on_path strip_env seg2 cmd (seg_start st) (offset t) a = Some x) as Hp.
  { unfold rewrite_pipeline_producer. destruct (negb _); [done|]. destruct (slice (seg_start st) (offset t) cmd) as [region|] eqn:E; [|done].
    cbv [mbind option_bind]. destruct (one_of _ _); [done|].
    destruct (seg1 PipelineProducer (trim region)) as [x|] eqn:Ex; [|done]. by rewrite (agree_on_region _ _ _ _ _ E Ex). }
  destruct (rewrite_pipeline_final_stage seg1 _ _ _) as [ [x|]|]; [by rewrite (Hf _ eq_refl)| |done]. rewrite (Hf _ eq_refl).
  destruct (rewrite_pipeline_producer _ _ seg1 _ _ _ _) as [x|]; [by rewrite (Hp _ eq_refl) | done].
Qed.

Lemma compound_loop_mono all tokens : forall st r,
  compound_loop on_path strip_env seg1 cmd all tokens st = Some r -> compound_loop on_path strip_env seg2 cmd all tokens st = Some r.
Proof.
  induction tokens as [|t tokens IH]; intros st r; [done|]. cbn [compound_loop]. destruct (_ <? _)%nat; [apply IH|].
  assert (forall x, (x' ← emit_segment seg1 cmd (offset t) (value t) (tok_end t) st; compound_loop on_path strip_env seg1 cmd all tokens x') = Some x ->
    (x' ← emit_segment seg2 cmd (offset t) (value t) (tok_end t) st; compound_loop on_path strip_env seg2 cmd all tokens x') = Some x) as Hseg.
  { intros x. cbv [mbind option_bind]. destruct (emit_segment seg1 _ _ _ _ _) as [st'|] eqn:E; [|done].
    rewrite (emit_segment_mono _ _ _ _ _ E). apply IH. }
  destruct (kind t); try (destruct (ends_clause t); [apply Hseg | apply IH]).
  cbv [mbind option_bind]. destruct (emit_pipeline _ _ seg1 _ _ _ _) as [ [a st']|] eqn:E; [|done].
  rewrite (emit_pipeline_mono _ _ _ _ E). destruct (next_clause_offset a); [apply IH | done].
Qed.

Lemma rewrite_compound_mono r : rewrite_compound on_path strip_env seg1 cmd = Some r -> rewrite_compound on_path strip_env seg2 cmd = Some r.
Proof.
  unfold rewrite_compound. destruct (_ && _); [done|]. cbv [mbind option_bind].
  destruct (compound_loop _ _ seg1 _ _ _ _) as [ [st|answer]|] eqn:E; [|by rewrite (compound_loop_mono _ _ _ _ E)|done].
  rewrite (compound_loop_mono _ _ _ _ E). destruct (emit_segment seg1 _ _ _ _ _) as [st'|] eqn:Es; [|done].
  by rewrite (emit_segment_mono _ _ _ _ _ Es).
Qed.

Lemma rewrite_single_mono r : rewrite_single on_path strip_env seg1 cmd = Some r -> rewrite_single on_path strip_env seg2 cmd = Some r.
Proof.
  unfold rewrite_single. destruct (_ && _); [done|]. destruct (rewrite_bounded_read_pipeline _ _) as [ [x|]|]; [done| |done].
  cbv [mbind option_bind]. apply rewrite_compound_mono.
Qed.
End Mono.

Lemma rewrite_single_ext on_path strip_env seg1 seg2 cmd : (forall ctx s, (length s <= length cmd)%nat -> seg1 ctx s = seg2 ctx s) ->
  rewrite_single on_path strip_env seg1 cmd = rewrite_single on_path strip_env seg2 cmd.
Proof.
  intros H. apply option_eq. intros r. split; apply rewrite_single_mono; intros ctx s x Hl Hx; [by rewrite <- H | by rewrite H].
Qed.

(** *** What a turn leaves *)

Lemma filter_in_order cmd f n ts : in_order cmd n ts -> in_order cmd n (List.filter f ts).
Proof.
  revert n. induction ts as [|t ts IH]; intros n; [done|]. cbn [in_order List.filter]. intros (H1 & H2 & H3 & H4 & H5 & H6).
  assert (forall m ts', (m <= n)%nat -> in_order cmd n ts' -> in_order cmd m ts') as Hweak.
  { intros m [|t' ts'] Hm; [done|]. cbn. intros (? & ? & ? & ? & ? & ?). split_and!; try done. lia. }
  destruct (f t); [cbn [in_order]; split_and!; auto|]. apply IH. destruct ts as [|t' ts]; [done|]. cbn in *. destruct H6 as (? & ? & ? & ? & ? & ?).
  split_and!; try done. lia.
Qed.

Lemma later_token cmd t ts u : in_order cmd 0 (t :: ts) -> u ∈ ts -> (0 < offset u)%nat.
Proof. intros (_ & H & _ & _ & _ & Ho) Hu. apply (in_order_in _ _ _ _ Ho) in Hu. lia. Qed.

Lemma execution_prefix_shorter on_path s p r : Permissions.execution_prefix on_path s = Some (Some (p, r)) -> (length r < length s)%nat.
Proof.
  unfold Permissions.execution_prefix. pose proof (filter_in_order s is_arg 0 _ (tokenize_in_order s)) as Ho.
  destruct (List.filter is_arg (tokenize s)) as [|program args]; [done|].
  destruct (Permissions.wrapped_args _ args) as [ [|child rest]|] eqn:E; [done| |done].
  apply (Permissions.wrapped_args_sub on_path) in E. pose proof (later_token _ _ _ child Ho ltac:(set_solver)) as Hc.
  destruct (slice_to _ s); [|done]. cbv [mbind option_bind]. destruct (slice_from _ s) as [z|] eqn:Ez; [|done]. intros [= _ <-].
  apply slice_from_shorter in Ez; [|done]. pose proof (trim_start_length z). lia.
Qed.

Lemma strip_word_prefix_shorter s p r : s <> [] -> Permissions.strip_word_prefix s p = Some r -> (length r < length s)%nat.
Proof.
  intros Hs. unfold Permissions.strip_word_prefix. destruct (str_eqb s p); [intros [= <-]; destruct s; [done | cbn; lia]|].
  destruct (strip_prefix p s) as [ [|c u]|] eqn:E; [done| |done]. destruct (c =? ch " "); [|done]. intros [= <-].
  apply strip_prefix_Some in E as ->. rewrite length_app. cbn. pose proof (trim_start_length u). lia.
Qed.

Lemma strip_first_spec s ps p r : strip_first s ps = Some (p, r) -> p ∈ ps /\ Permissions.strip_word_prefix s p = Some r.
Proof.
  induction ps as [|q ps IH]; cbn [strip_first]; [done|]. destruct (Permissions.strip_word_prefix s q) eqn:E.
  - intros [= <- <-]. split; [by left | done].
  - intros H. destruct (IH H) as [? ?]. split; [by right | done].
Qed.

Lemma strip_disabled_spec o s p r : strip_disabled_prefix o s = Some (p, r) ->
  exists w, trim s = p ++ w /\ r = trim w.
Proof.
  unfold strip_disabled_prefix, slice_to, slice_from. destruct (_ <? _)%nat; [done|].
  destruct (split_at _ (trim s)) as [ [x y]|] eqn:E; [|done]. cbn. intros [= <- <-]. apply split_at_Some in E as [-> _]. by exists y.
Qed.

Lemma find_command_flag_cases ts r : find_command_flag ts = Some r ->
  match r with FlagBefore rest => rest ⊆ ts | Answer a => forall p, a <> Parsed p end.
Proof.
  revert r. induction ts as [ts IH] using (induction_ltof1 _ (@length ParsedToken)). unfold ltof in IH. intros r.
  destruct ts as [|t rest]; cbn [find_command_flag]; [by intros [= <-]|].
  destruct (unquote_word (value t)) as [ [w|]|]; cbv [mbind option_bind]; [|by intros [= <-]|done].
  destruct (has_command_flag w); [intros [= <-]; set_solver|].
  assert (forall l, (length l < S (length rest))%nat -> l ⊆ rest -> find_command_flag l = Some r ->
    match r with FlagBefore rest' => rest' ⊆ t :: rest | Answer a => forall p, a <> Parsed p end) as Hrec.
  { intros l Hl Hs H. apply (IH l Hl) in H. destruct r; [set_solver | done]. }
  destruct (bool_decide _).
  - destruct rest as [|t' rest']; [by intros [= <-]|]. apply Hrec; [cbn; lia | set_solver].
  - destruct (_ || _); [|apply Hrec; [lia | done]]. destruct (later_command_flag rest) as [b|]; [|done].
    intros [= <-]. by destruct b.
Qed.

Lemma read_payload_range raw r p : read_payload raw r = Some (Parsed p) -> payload_range p = r.
Proof.
  unfold read_payload. destruct (head raw), (last raw); [|by intros [= <-]..].
  destruct (_ && _); [destruct (slice _ _ _); [by intros [= <-] | done]|]. destruct (_ || _); [done | by intros [= <-]].
Qed.

Lemma payload_later input p : parse_shell_command_wrapper input = Some (Parsed p) -> (0 < (payload_range p).1)%nat.
Proof.
  unfold parse_shell_command_wrapper. pose proof (tokenize_in_order input) as Ho.
  destruct (tokenize input) as [|program rest]; [done|]. destruct (negb _); [done|]. destruct (is_shell_program _) as [sh|]; [|done].
  cbv [mbind option_bind]. destruct (negb sh); [done|]. destruct (_ || _); [done|].
  destruct (find_command_flag rest) as [r|] eqn:Ef; [|done]. apply find_command_flag_cases in Ef.
  destruct r as [ [|payload l]|]; [done| |intros [= ->]; by destruct (Ef p)].
  destruct (slice _ _ input) as [raw|]; [|done]. intros H. apply read_payload_range in H as ->. cbn.
  apply (later_token _ _ _ payload Ho). set_solver.
Qed.

Lemma payload_shorter input p : parse_shell_command_wrapper input = Some (Parsed p) -> (length (command p) < length input)%nat.
Proof.
  intros H. pose proof (payload_later _ _ H) as Hpos. destruct (parse_wrapper_cases input) as [Hq|(a & Ha & Hp)].
  { apply wrapper_parse_panics_iff_lone_quote in Hq. congruence. }
  assert (a = Parsed p) as -> by congruence. destruct (Hp p eq_refl) as (before & after & Hr & ->). rewrite Hr in Hpos. cbn in Hpos.
  assert (0 < length before)%nat by (destruct before; [cbn in Hpos; lia | cbn; lia]).
  rewrite !length_app. destruct (payload_quote p); [cbn [length]; rewrite length_app|]; lia.
Qed.

(** *** The step asks for shorter texts only *)

Lemma redirects_split s a b : strip_trailing_redirects s = Some (a, b) -> s = a ++ b.
Proof.
  unfold strip_trailing_redirects. destruct (redirect_start _ _) as [t|]; [|intros [= <- <-]; by rewrite app_nil_r].
  destruct (slice_to _ s) as [x|] eqn:Ex; [|done]. cbv [mbind option_bind]. destruct (slice_from _ s) as [y|] eqn:Ey; [|done].
  intros [= <- <-]. apply slice_to_inv in Ex as (u & -> & _). destruct (trim_end_split x) as (w & Hx & _).
  assert (x ++ u = trim_end x ++ w ++ u) as Hxu by (rewrite Hx at 1; by rewrite <- app_assoc).
  unfold slice_from in Ey. rewrite Hxu in Ey. rewrite split_at_app in Ey. by injection Ey as <-.
Qed.

Section Step.
Context (o : Outside) (excluded : list ExcludePattern) (transparent_prefixes : list rstr).
Implicit Types again : RewriteContext -> nat -> rstr -> option (option rstr).

Lemma segment_step_ext again again' ctx depth seg : (forall ctx d s, (length s < length seg)%nat -> again ctx d s = again' ctx d s) ->
  segment_step o excluded transparent_prefixes again ctx depth seg = segment_step o excluded transparent_prefixes again' ctx depth seg.
Proof.
  intros H. unfold segment_step. destruct (is_empty (trim seg)) eqn:Hne; [done|]. destruct (_ <=? _)%nat; [done|].
  destruct (bool_decide _); [done|]. pose proof (trim_length seg) as Hlen.
  destruct (strip_disabled_prefix _ _) as [ [p r]|] eqn:Ed; [|done]. cbv [mbind option_bind].
  destruct (negb (is_empty p)) eqn:Hp.
  { destruct (contains _ _); [done|]. rewrite H; [done|]. apply strip_disabled_spec in Ed as (w & Hw & ->).
    pose proof (trim_length w). pose proof (trim_length (trim seg)). rewrite Hw, length_app in *. destruct p; [done|]. cbn in *. lia. }
  destruct (Permissions.execution_prefix _ _) as [ [ [p' r']|]|] eqn:Ee; [|clear Ee|done].
  { rewrite H; [done|]. apply execution_prefix_shorter in Ee. lia. }
  destruct (strip_first _ _) as [ [p' r']|] eqn:Ef.
  { apply strip_first_spec in Ef as [_ Ef]. destruct (is_empty r'); [done|]. rewrite H; [done|].
    apply strip_word_prefix_shorter in Ef; [lia|]. by destruct (trim seg). }
  destruct (strip_trailing_redirects _) as [ [cmd_part redirections]|] eqn:Er; [|done].
  destruct (parse_shell_command_wrapper cmd_part) as [ [|payload|]|] eqn:Ew; try done.
  rewrite (rewrite_single_ext _ _ _ (fun ctx s => again' ctx 0%nat s)); [done|].
  intros ctx' s Hs. apply H. apply payload_shorter in Ew. apply redirects_split in Er. rewrite Er, length_app in Hlen. lia.
Qed.

Lemma rewrite_segment_fuel fuel : forall fuel' ctx depth seg, (length seg < fuel)%nat -> (length seg < fuel')%nat ->
  rewrite_segment_inner o excluded transparent_prefixes fuel ctx depth seg = rewrite_segment_inner o excluded transparent_prefixes fuel' ctx depth seg.
Proof.
  induction fuel as [|fuel IH]; intros [|fuel'] ctx depth seg H H'; try lia. cbn [rewrite_segment_inner].
  apply segment_step_ext. intros ctx' d s Hs. apply IH; lia.
Qed.
End Step.

(** ** What a rewriting keeps *)

Definition blank (s : rstr) : Prop := forallb is_whitespace s = true.

(** A call of rtk for a command, by a rule of the table: the prefix that the rule
    names is replaced, what follows it is kept. *)
Inductive ruled (o : Outside) (excluded : list ExcludePattern) (context : RewriteContext) (cmd : rstr) : rstr -> Prop :=
| ruled_call rule prefix tool rest w call :
    rule ∈ RULES -> context_allows context rule cmd = true -> prefix ∈ rewrite_prefixes rule ->
    is_excluded (trim (strip_env o cmd)) excluded = false ->
    (rtk_cmd rule = lit "rtk gh" -> gh_is_exact o cmd = false) ->
    tool = rtk_cmd rule \/ (exists t, rtk_cmd rule = lit "rtk " ++ t /\ tool = lit "rtk --js-runner bunx " ++ t) ->
    (cmd = prefix /\ rest = [] \/ cmd = prefix ++ lit " " ++ w ++ rest) -> blank w ->
    call = (if is_empty rest then tool else tool ++ lit " " ++ rest) -> ruled o excluded context cmd call
| ruled_filter : command_matches_filter o (strip_absolute_path (on_path o) (trim cmd)) = true -> context <> PipelineFinal ->
    is_excluded (strip_absolute_path (on_path o) (trim cmd)) excluded = false ->
    ruled o excluded context cmd (lit "rtk " ++ cmd).

(** What stands for a command and the redirections behind it. *)
Inductive called (o : Outside) (excluded : list ExcludePattern) (context : RewriteContext) (cmd redirects : rstr) : rstr -> Prop :=
| called_rtk : starts_with (lit "rtk ") cmd = true \/ cmd = lit "rtk" -> called o excluded context cmd redirects (cmd ++ redirects)
| called_typed call : rewrite_typed_gap o (strip_absolute_path (on_path o) cmd) = Some call ->
    called o excluded context cmd redirects (call ++ redirects)
| called_window call : context = Normal -> rewrite_line_range (strip_absolute_path (on_path o) cmd) = Some (Some call) ->
    is_excluded (trim (strip_absolute_path (on_path o) cmd)) excluded = false ->
    called o excluded context cmd redirects (call ++ redirects)
| called_ruled call : ruled o excluded context (strip_absolute_path (on_path o) cmd) call -> called o excluded context cmd redirects (call ++ redirects)
| called_golangci parts : parse_golangci_run_parts (strip_absolute_path (on_path o) cmd) = Some (Some parts) ->
    is_excluded (trim (strip_env o (strip_absolute_path (on_path o) cmd))) excluded = false ->
    called o excluded context cmd redirects
      (lit "rtk golangci-lint " ++ (if is_empty (global_segment parts) then [] else global_segment parts ++ lit " ") ++ run_segment parts).

Section Kept.
Context (o : Outside) (excluded : list ExcludePattern) (transparent_prefixes : list rstr).

(** [respelled context seg out]: [out] is the segment with what is in front of its
    command copied, and its command replaced; an elevator is nowhere in front of it. *)
Inductive respelled (context : RewriteContext) (seg : rstr) : rstr -> Prop :=
| respelled_environment p rest out :
    privilege_prefix (trim seg) = None -> trim seg = p ++ rest -> p <> [] -> contains (lit "RTK_DISABLED=") p = false ->
    respelled context rest out -> respelled context seg (p ++ out)
| respelled_prefix p w rest out :
    privilege_prefix (trim seg) = None -> trim seg = p ++ w ++ rest -> blank w ->
    Permissions.execution_prefix (on_path o) (trim seg) = Some (Some (p, rest)) \/ p ∈ Permissions.BUILTIN_TRANSPARENT_PREFIXES ++ transparent_prefixes ->
    respelled context rest out -> respelled context seg (p ++ lit " " ++ out)
| respelled_payload cmd redirects payload line out :
    privilege_prefix (trim seg) = None -> trim seg = cmd ++ redirects -> parse_shell_command_wrapper cmd = Some (Parsed payload) ->
    rewrite_single (on_path o) (strip_env o) (rewrite_segment o excluded transparent_prefixes) (command payload) = Some (Some line) ->
    replace_in payload cmd line = Some out -> respelled context seg (out ++ redirects)
| respelled_call cmd redirects out :
    privilege_prefix (trim seg) = None -> trim seg = cmd ++ redirects -> called o excluded context cmd redirects out -> respelled context seg out.
End Kept.

(** *** The command *)

Lemma blank_app w w' : blank w -> blank w' -> blank (w ++ w').
Proof. unfold blank. intros H H'. by rewrite forallb_app, H, H'. Qed.

Lemma strip_word_prefix_inv s p r : Permissions.strip_word_prefix s p = Some r ->
  s = p /\ r = [] \/ exists w, s = p ++ lit " " ++ w ++ r /\ blank w.
Proof.
  unfold Permissions.strip_word_prefix. destruct (str_eqb s p) eqn:E; [apply bool_decide_eq_true in E; intros [= <-]; by left|].
  destruct (strip_prefix p s) as [ [|c u]|] eqn:Ep; [done| |done]. destruct (c =? ch " ") eqn:Ec; [|done]. intros [= <-].
  apply N.eqb_eq in Ec as ->. apply strip_prefix_Some in Ep as ->. right. destruct (trim_start_split u) as (w & Hu & Hw).
  exists w. split; [|done]. by rewrite <- Hu.
Qed.

Lemma find_rule_in name rule : find_rule name = Some rule -> rule ∈ RULES.
Proof. intros H. apply find_some in H as [H _]. by apply list_elem_of_In. Qed.

Section Called.
Context (o : Outside) (excluded : list ExcludePattern).

Lemma rewrite_by_prefix_call rule prefixes cmd redirects out : rewrite_by_prefix rule prefixes cmd redirects = Some out ->
  exists prefix tool rest w, prefix ∈ prefixes /\
    (tool = rtk_cmd rule \/ exists t, rtk_cmd rule = lit "rtk " ++ t /\ tool = lit "rtk --js-runner bunx " ++ t) /\
    (cmd = prefix /\ rest = [] \/ cmd = prefix ++ lit " " ++ w ++ rest) /\ blank w /\
    out = (if is_empty rest then tool else tool ++ lit " " ++ rest) ++ redirects.
Proof.
  induction prefixes as [|prefix prefixes IH]; [done|]. cbn [rewrite_by_prefix].
  destruct (Permissions.strip_word_prefix cmd prefix) as [rest|] eqn:E.
  2:{ intros H. destruct (IH H) as (p & t & r & w & Hp & ?). exists p, t, r, w. split; [by right | done]. }
  set (tool := match strip_prefix (lit "rtk ") (rtk_cmd rule) with Some t => _ | None => _ end). intros [= <-].
  assert (exists w, (cmd = prefix /\ rest = [] \/ cmd = prefix ++ lit " " ++ w ++ rest) /\ blank w) as (w & Hc & Hw).
  { destruct (strip_word_prefix_inv _ _ _ E) as [H|(w & H & Hw)]; [exists []; split; [by left | done] | exists w; split; [by right | done] ]. }
  exists prefix, tool, rest, w. split_and!; [by left| |done|done|].
  - unfold tool. destruct (strip_prefix _ _) as [t|] eqn:Et; [|by left]. destruct (_ || _); [right | by left].
    exists t. split; [|done]. by apply strip_prefix_Some.
  - destruct (is_empty rest); [done|]. by rewrite <- !app_assoc.
Qed.

Lemma rewrite_by_rule_called context rule cmd redirects out :
  rule ∈ RULES -> is_excluded (trim (strip_env o cmd)) excluded = false ->
  rewrite_by_rule o context rule cmd redirects = Some (Some out) ->
  (exists call, ruled o excluded context cmd call /\ out = call ++ redirects) \/
  (exists parts, parse_golangci_run_parts cmd = Some (Some parts) /\
    out = lit "rtk golangci-lint " ++ (if is_empty (global_segment parts) then [] else global_segment parts ++ lit " ") ++ run_segment parts).
Proof.
  intros Hr He. unfold rewrite_by_rule. destruct (context_allows _ _ _) eqn:Hc; [|done]. cbn [negb].
  destruct (parse_golangci_run_parts cmd) as [ [parts|]|] eqn:Ep; [| |done]; cbv [mbind option_bind].
  { intros [= <-]. right. exists parts. split; [done|]. destruct (is_empty _); [done|]. by rewrite <- !app_assoc. }
  destruct (str_eqb _ _ && _) eqn:Hg; [done|]. intros [= H]. left.
  destruct (rewrite_by_prefix_call _ _ _ _ _ H) as (prefix & tool & rest & w & Hp & Ht & Hcmd & Hw & ->). eexists. split; [|done].
  eapply (ruled_call o excluded context cmd rule); [done..| |done|done|done|done].
  intros Hgh. apply andb_false_iff in Hg as [Hg|Hg]; [|done]. by apply bool_decide_eq_false in Hg.
Qed.

Lemma rewrite_plain_called context trimmed cmd redirects out : trimmed = cmd ++ redirects ->
  rewrite_plain o excluded context trimmed cmd redirects = Some (Some out) -> called o excluded context cmd redirects out.
Proof.
  intros Ht. unfold rewrite_plain. destruct (_ || _) eqn:Hrtk.
  { intros [= <-]. rewrite Ht. apply called_rtk. apply orb_true_iff in Hrtk as [?|Hrtk]; [by left|]. apply bool_decide_eq_true in Hrtk. by right. }
  destruct (rewrite_typed_gap _ _) as [g|] eqn:Eg; [intros [= <-]; by apply called_typed|].
  set (bare := strip_absolute_path (on_path o) cmd) in *.
  destruct (bool_decide (context = Normal) && _) eqn:Hn.
  { apply andb_true_iff in Hn as [Hn _]. apply bool_decide_eq_true in Hn. destruct (is_excluded _ _) eqn:He; [done|].
    destruct (rewrite_line_range bare) as [ [r|]|] eqn:El; [|done..]. cbn. intros [= <-]. by apply called_window. }
  destruct (cat_stays bare) as [ [|]|]; [done| |done]. cbv [mbind option_bind]. unfold rewrite_classified.
  destruct (classify_command _ _) as [ [equivalent c pct status|base|]|]; [| |done..]; cbv [mbind option_bind].
  - destruct (is_excluded _ _) eqn:He; [done|]. destruct (find_rule equivalent) as [rule|] eqn:Ef; [|done]. apply find_rule_in in Ef.
    intros H. destruct (rewrite_by_rule_called _ _ _ _ _ Ef He H) as [(call & Hc & ->)|(parts & Hp & ->)]; [by apply called_ruled | by apply called_golangci].
  - destruct (bool_decide _ || _) eqn:Hx; [done|]. apply orb_false_iff in Hx as [Hx _]. apply bool_decide_eq_false in Hx.
    destruct (is_excluded _ _) eqn:He; [done|]. destruct (is_rtk_reserved_command _); [done|].
    destruct (command_matches_filter _ _) eqn:Hm; [|done]. intros [= <-].
    change (called o excluded context cmd redirects ((lit "rtk " ++ bare) ++ redirects)). apply called_ruled. by apply ruled_filter.
Qed.
End Called.

(** *** The whole segment *)

Section Keeps.
Context (o : Outside) (excluded : list ExcludePattern) (transparent_prefixes : list rstr).

Abbreviation kept := (respelled o excluded transparent_prefixes).

Lemma respelled_trim context seg out : kept context (trim seg) out -> kept context seg out.
Proof.
  assert (forall t, kept context t out -> forall s, t = trim s -> kept context s out) as H; [|intros Hk; by apply (H _ Hk)].
  intros t Ht. induction Ht; intros s ->; rewrite trim_trim in *;
    [eapply respelled_environment | eapply respelled_prefix | eapply respelled_payload | eapply respelled_call]; eauto.
Qed.

Lemma behind_Some p a out : behind p a = Some (Some out) -> exists r, a = Some (Some r) /\ out = p ++ r.
Proof. destruct a as [ [r|]|]; [|done..]. intros [= <-]. by exists r. Qed.

Lemma execution_prefix_split s p r : Permissions.execution_prefix (on_path o) s = Some (Some (p, r)) ->
  exists w, s = p ++ w ++ r /\ blank w.
Proof.
  unfold Permissions.execution_prefix, slice_to, slice_from. destruct (List.filter _ _) as [|program args]; [done|].
  destruct (Permissions.wrapped_args _ _) as [ [|child l]|]; [done| |done].
  destruct (split_at (offset child) s) as [ [x y]|] eqn:E; [|done]. cbn. intros [= <- <-]. apply split_at_Some in E as [-> _].
  destruct (trim_end_split x) as (w & Hx & Hw). destruct (trim_start_split y) as (w' & Hy & Hw').
  exists (w ++ w'). split; [|by apply blank_app]. rewrite Hx at 1. rewrite Hy at 1. by rewrite <- !app_assoc.
Qed.

Lemma rewrite_segment_inner_kept fuel : forall context depth seg out, (length seg < fuel)%nat ->
  rewrite_segment_inner o excluded transparent_prefixes fuel context depth seg = Some (Some out) -> kept context seg out.
Proof.
  induction fuel as [|fuel IH]; intros context depth seg out Hfuel; [done|]. cbn [rewrite_segment_inner]. unfold segment_step.
  destruct (is_empty (trim seg)) eqn:Hne; [done|]. destruct (_ <=? _)%nat; [done|]. pose proof (trim_length seg) as Hlen.
  destruct (privilege_prefix (trim seg)) as [e|] eqn:Hel; [by rewrite bool_decide_true by eauto|].
  rewrite bool_decide_false by (by intros [? ?]).
  destruct (strip_disabled_prefix _ _) as [ [p r]|] eqn:Ed; [|done]. cbv [mbind option_bind].
  destruct (negb (is_empty p)) eqn:Hp.
  { destruct (contains _ p) eqn:Hc; [done|]. intros H. apply behind_Some in H as (t & H & ->).
    apply strip_disabled_spec in Ed as (w & Hw & ->). rewrite trim_trim in Hw. apply IH in H.
    - eapply respelled_environment; [done|exact Hw|by destruct p|done|]. by apply respelled_trim.
    - pose proof (trim_length w). rewrite Hw, length_app in Hlen. destruct p; [done|]. cbn in *. lia. }
  destruct (Permissions.execution_prefix _ _) as [ [ [p' r']|]|] eqn:Ee; [|clear Ee|done].
  { intros H. apply behind_Some in H as (t & H & ->). apply IH in H; [|apply execution_prefix_shorter in Ee; lia].
    destruct (execution_prefix_split _ _ _ Ee) as (w & Hw & Hb). rewrite <- app_assoc. eapply respelled_prefix; eauto. }
  destruct (strip_first _ _) as [ [p' r']|] eqn:Ef.
  { apply strip_first_spec in Ef as [Hin Ef]. destruct (is_empty r') eqn:Hr; [done|]. intros H. apply behind_Some in H as (t & H & ->).
    apply IH in H; [|apply strip_word_prefix_shorter in Ef; [lia | by destruct (trim seg)] ]. rewrite <- app_assoc.
    destruct (strip_word_prefix_inv _ _ _ Ef) as [ [_ ->]|(w & Hw & Hb)]; [done|]. rewrite app_assoc in Hw.
    eapply (respelled_prefix _ _ _ _ _ p' (lit " " ++ w)); [done | | apply blank_app; [by vm_compute | done] | by right | done]. by rewrite Hw, <- !app_assoc. }
  destruct (strip_trailing_redirects _) as [ [cmd redirects]|] eqn:Er; [|done]. pose proof (redirects_split _ _ _ Er) as Hsplit.
  destruct (parse_shell_command_wrapper cmd) as [ [|payload|]|] eqn:Ew; [| |done..].
  { intros H. eapply respelled_call; [done..|]. by eapply rewrite_plain_called. }
  intros H. destruct (rewrite_single _ _ _ _) as [ [line|]|] eqn:El; [|done..].
  destruct (replace_in payload cmd line) as [text|] eqn:Et; [|done]. injection H as <-.
  eapply respelled_payload; [done..| |done]. rewrite <- El. apply rewrite_single_ext. intros ctx s Hs. unfold rewrite_segment.
  apply rewrite_segment_fuel; [lia|]. apply payload_shorter in Ew. rewrite Hsplit, length_app in Hlen. lia.
Qed.

(** The rewriter of a segment calls itself for shorter texts only: its fuel is
    never used up, and it is the function that the source's recursion defines. *)
Definition rewrite_at (context : RewriteContext) (depth : nat) (seg : rstr) : option (option rstr) :=
  rewrite_segment_inner o excluded transparent_prefixes (S (length seg)) context depth seg.
End Keeps.

(** ** Properties *)

(** Rewriting a segment terminates: the prefixes that are taken off and the
    shell wrappers that are opened leave shorter texts, so that the answer is the
    one of the source's recursion, whatever the segment, and no greater fuel
    changes it. *)
Theorem segments_are_rewritten_by_recursion o excluded transparent_prefixes context depth seg :
  rewrite_at o excluded transparent_prefixes context depth seg =
    segment_step o excluded transparent_prefixes (rewrite_at o excluded transparent_prefixes) context depth seg /\
  forall fuel, (length seg < fuel)%nat ->
    rewrite_segment_inner o excluded transparent_prefixes fuel context depth seg = rewrite_at o excluded transparent_prefixes context depth seg.
Proof.
  split.
  - unfold rewrite_at at 1. cbn [rewrite_segment_inner]. apply segment_step_ext. intros ctx d s Hs. unfold rewrite_at. apply rewrite_segment_fuel; lia.
  - intros fuel H. apply rewrite_segment_fuel; lia.
Qed.

(** A rewritten segment keeps what is not the call of a covered command. The
    assignments, the execution prefixes and the transparent prefixes in front are
    copied; a shell wrapper keeps everything but its payload; the call is replaced
    by a rule's rtk command, which takes over the arguments behind the rule's
    prefix, or by a typed call, and the redirections behind it are copied, but for
    [golangci-lint run]. No part behind an elevator, behind [RTK_DISABLED=] or, for
    a rule, matched by an exclusion is rewritten. *)
Theorem rewritten_segments_keep_their_surroundings o excluded transparent_prefixes context seg out :
  rewrite_segment o excluded transparent_prefixes context seg = Some (Some out) -> respelled o excluded transparent_prefixes context seg out.
Proof. unfold rewrite_segment. apply rewrite_segment_inner_kept. lia. Qed.

(** A machine without rtk: no path is known, and the environment prefix is one word
    with [=]. *)
Definition strip_one_assignment (s : rstr) : rstr :=
  match span is_whitespace s with
  | (word, w :: rest) => if contains (lit "=") word then trim_start rest else s
  | _ => s
  end.

(** Patterns that start with [rule] match the calls of [program]. *)
Definition machine (program rule : rstr) : Outside := {|
  on_path := fun _ _ => false;
  strip_env := strip_one_assignment;
  git_global_opt := fun s => s;
  captures := fun pattern s =>
    if starts_with program s && starts_with rule pattern then Some (Some (default [] (head (tail (split_whitespace s))))) else None;
  regex_new := fun _ => None;
  escape := fun s => s;
  toml_disabled := false;
  command_matches_filter := fun _ => false;
  gh_pack_json := false;
|}.

Definition git_only : Outside := machine (lit "git ") (lit "^(?:git|yadm)").

Lemma rewritten_segments_keep_their_surroundings_witness :
  respelled git_only [] [] Normal (lit " LANG=C timeout 5 git status  2>&1") (lit "LANG=C timeout 5 rtk git status  2>&1").
Proof. apply rewritten_segments_keep_their_surroundings. vm_compute. reflexivity. Defined.

Example elevated_segments_are_kept : rewrite_segment git_only [] [] Normal (lit "A=1 /usr/bin/sudo git status") = Some None.
Proof. vm_compute. reflexivity. Qed.

Example payloads_are_rewritten :
  rewrite_segment git_only [] [] Normal (lit "bash -c 'cd x && git status' >log") = Some (Some (lit "bash -c 'cd x && rtk git status' >log")).
Proof. vm_compute. reflexivity. Qed.

(** The redirections behind [golangci-lint run] are lost. *)
Example golangci_loses_its_redirections :
  rewrite_segment (machine (lit "golangci-lint ") (lit "^(?:golangci-lint|")) [] [] Normal (lit "golangci-lint run ./... 2>&1")
  = Some (Some (lit "rtk golangci-lint run ./...")).
Proof. vm_compute. reflexivity. Qed.

(** The exclusions are not asked for calls that are checked word by word. *)
Example typed_calls_ignore_exclusions :
  rewrite_segment git_only [Prefix (lit "tar")] [] Normal (lit "tar -tzf a.tgz") = Some (Some (lit "rtk tar --max-entries 100 -tzf a.tgz")).
Proof. vm_compute. reflexivity. Qed.
End RewriteSegment.
