(* ===== verification/RewriteBlock.v ===== *)
(** Blocks of several lines ([fork-core/rtk/src/discover/registry.rs]): the walk
    over quotes, the roles of lines, the units that are rewritten on their own, and
    the entry that normalises a command and rewrites it.

    As in [Rewrite], [None] is a panic of the source, and an answer is [Some].  A
    byte is a number; positions are byte offsets. *)

From S2P Require Import Prelude RStr Lexer Segments Permissions Rewrite.
From Stdlib Require Import ZifyBool ZifyN ZifyNat.

Module RewriteBlock.
Import Lexer Segments Rewrite.

(** ** The walk over quotes *)

(** What [QuoteScan] yields: a byte, where it is, and the flags in front of it. *)
Record QuoteItem := { at_ : nat; byte : N; in_single : bool; in_double : bool }.

(** All that the iterator yields, and whether no quote is open at its end. *)
Fixpoint quote_scan (bytes : list N) (i : nat) (single double : bool) : list QuoteItem * bool :=
  match bytes with
  | [] => ([], negb single && negb double)
  | b :: rest =>
      if (b =? BACKSLASH) && negb single then
        match rest with
        | [] => ([], negb single && negb double)
        | _ :: rest => quote_scan rest (S (S i)) single double
        end
      else
        let single' := if (b =? SQUOTE) && negb double then negb single else single in
        let double' := if (b =? DQUOTE) && negb single then negb double else double in
        let '(items, balanced) := quote_scan rest (S i) single' double' in
        ({| at_ := i; byte := b; in_single := single; in_double := double |} :: items, balanced)
  end.

Definition QuoteScan (s : rstr) : list QuoteItem := (quote_scan (utf8 s) 0 false false).1.
Definition quotes_balanced (cmd : rstr) : bool := (quote_scan (utf8 cmd) 0 false false).2.

Definition is_quoted (item : QuoteItem) : bool := in_single item || in_double item.

Definition is_ascii_whitespace (b : N) : bool := existsb (N.eqb b) [32; 9; 10; 12; 13].

(** A byte of the line that is white space, or outside it. *)
Definition white_at (bytes : list N) (i : nat) : bool := match bytes !! i with Some b => is_ascii_whitespace b | None => true end.

Definition white_before (bytes : list N) (i : nat) : bool := match i with O => true | S i => white_at bytes i end.

Definition comment_start (line : rstr) : option nat :=
  let bytes := utf8 line in
  let starts_word i := white_before bytes i || existsb (fun c => bool_decide (bytes !! (i - 1)%nat = Some c)) (lit "|&;()") in
  option_map at_ (List.find (fun item => (byte item =? ch "#") && negb (is_quoted item) && starts_word (at_ item)) (QuoteScan line)).

(** The counts of one kind of bracket: below zero at once, or not zero at the end. *)
Fixpoint grouping_loop (items : list QuoteItem) (paren brace : Z) : bool :=
  match items with
  | [] => negb (paren =? 0)%Z || negb (brace =? 0)%Z
  | item :: items =>
      if is_quoted item then grouping_loop items paren brace
      else
        let here c := N.eqb (byte item) c in
        let paren := (if here (ch "(") then paren + 1 else if here (ch ")") then paren - 1 else paren)%Z in
        let brace := (if here (ch "{") then brace + 1 else if here (ch "}") then brace - 1 else brace)%Z in
        if (paren <? 0)%Z || (brace <? 0)%Z then true else grouping_loop items paren brace
  end.

Definition line_has_unbalanced_grouping (code : rstr) : bool := grouping_loop (QuoteScan code) 0 0.

Fixpoint brackets_loop (bytes : list N) (items : list QuoteItem) (depth : Z) : bool :=
  match items with
  | [] => negb (depth =? 0)%Z
  | item :: items =>
      let i := at_ item in
      if is_quoted item || negb (existsb (N.eqb (byte item)) (lit "[]")) then brackets_loop bytes items depth
      else if bool_decide (bytes !! S i = Some (byte item)) && white_before bytes i && white_at bytes (i + 2) then
        let depth := (if N.eqb (byte item) (ch "[") then depth + 1 else depth - 1)%Z in
        if (depth <? 0)%Z then true else brackets_loop bytes items depth
      else brackets_loop bytes items depth
  end.

Definition line_has_unbalanced_test_brackets (code : rstr) : bool := brackets_loop (utf8 code) (QuoteScan code) 0.

(** ** The roles of lines *)

Inductive LineRole := Passive | Independent | ContinuesNext | Unsafe.

#[export] Instance LineRole_eq_dec : EqDecision LineRole.
Proof. solve_decision. Defined.

Definition BLOCK_KEYWORDS : list rstr :=
  [lit "for"; lit "while"; lit "until"; lit "if"; lit "then"; lit "else"; lit "elif"; lit "fi"; lit "do"; lit "done"; lit "case";
   lit "esac"; lit "select"; lit "function"; lit "coproc"; lit "{"; lit "}"; lit "("; lit ")"].

Definition CONTINUATION_OPS : list rstr := [lit "&&"; lit "||"; lit "|&"; lit "|"].

Definition classify_line (line : rstr) : option LineRole :=
  if is_empty line || starts_with (lit "#") line then Some Passive
  else
    let comment := comment_start line in
    code ← match comment with Some i => text ← slice_to i line; Some (trim_end text) | None => Some line end;
    let first := default [] (head (split_whitespace code)) in
    if one_of first BLOCK_KEYWORDS then Some Unsafe
    else if existsb (fun op => starts_with op code) CONTINUATION_OPS || starts_with (lit "((") code || ends_with (lit "))") code
            || line_has_unbalanced_grouping code || line_has_unbalanced_test_brackets code
    then Some Unsafe
    else if existsb (fun op => ends_with op code) CONTINUATION_OPS then
      Some (if bool_decide (is_Some comment) then Unsafe else ContinuesNext)
    else Some Independent.

(** ** Blocks *)

(** A line of the block: where it starts, its text and its role. *)
Record Line := { start : nat; text : rstr; role : LineRole }.

Definition is_newline (t : ParsedToken) : bool := bool_decide (kind t = Operator) && str_eqb (value t) [LF].

Definition newline_offsets (cmd : rstr) : list nat := map offset (List.filter is_newline (tokenize_with_newlines cmd)).

(** Each line feed, and each carriage return in front of one. *)
Fixpoint raw_breaks (bytes : list N) : nat :=
  match bytes with
  | [] => 0
  | b :: rest => (if (b =? LF) || (b =? CR) && bool_decide (head rest = Some LF) then 1 else 0) + raw_breaks rest
  end.

(** The text between the offsets. *)
Fixpoint segments (cmd : rstr) (start : nat) (offsets : list nat) : option (list (nat * rstr)) :=
  match offsets with
  | [] => text ← slice_from start cmd; Some [(start, text)]
  | offset :: offsets =>
      text ← slice start offset cmd;
      rest ← segments cmd (S offset) offsets;
      Some ((start, text) :: rest)
  end.

Definition classified (segment : nat * rstr) : option Line :=
  role ← classify_line (trim segment.2); Some {| start := segment.1; text := segment.2; role := role |}.

(** The last line of the unit and the lines behind it; [stop] is what follows
    [last].  [None] is the early return at a passive line. *)
Fixpoint unit_end (last : Line) (stop rest : list Line) : option (Line * list Line) :=
  if bool_decide (role last = ContinuesNext) then
    match rest with
    | [] => Some (last, stop)
    | next :: rest =>
        if is_empty (trim (text next)) then unit_end last stop rest
        else if bool_decide (role next = Passive) then None
        else unit_end next rest rest
    end
  else Some (last, stop).

Section Block.
Context (rewrite_single : rstr -> option (option rstr)).

(** What is written for a unit, and whether it is changed. *)
Definition write_unit (segment unit : rstr) : option (rstr * bool) :=
  let line := trim unit in
  answer ← rewrite_single line;
  match answer with
  | Some rewritten =>
      if str_eqb rewritten line then Some (unit, false)
      else
        indent ← slice_to (blen segment - blen (trim_start segment)) segment;
        Some (indent ++ rewritten, true)
  | None => Some (unit, false)
  end.

(** The loop over the lines; [fuel] has to be their number. The inner [None] is
    the early return. *)
Fixpoint block_loop (fuel : nat) (cmd : rstr) (lines : list Line) (result : rstr) (any_changed : bool) : option (option (rstr * bool)) :=
  match fuel, lines with
  | S fuel, line :: rest =>
      break ← (if (0 <? start line)%nat then slice (start line - 1) (start line) cmd else Some []);
      let result := result ++ break in
      if bool_decide (role line = Passive) then block_loop fuel cmd rest (result ++ text line) any_changed
      else
        match unit_end line rest rest with
        | None => Some None
        | Some (last, rest) =>
            unit ← (if (start last =? start line)%nat then Some (text line)
                    else slice (start line) (start last + blen (text last)) cmd);
            '(written, changed) ← write_unit (text line) unit;
            block_loop fuel cmd rest (result ++ written) (any_changed || changed)
        end
  | _, _ => Some (Some (result, any_changed))
  end.

Definition rewrite_multiline_block (cmd : rstr) : option (option rstr) :=
  let newline_offsets := newline_offsets cmd in
  if Permissions.ansi_c_quote_defeats_lexer cmd then Some None
  else if negb (raw_breaks (utf8 cmd) =? length newline_offsets)%nat then
    if is_nil newline_offsets && quotes_balanced cmd then rewrite_single cmd else Some None
  else
    segments ← segments cmd 0 newline_offsets;
    lines ← mapM classified segments;
    if existsb (fun l => bool_decide (role l = Unsafe)) lines then Some None
    else
      outcome ← block_loop (length lines) cmd lines [] false;
      Some (match outcome with
            | Some (result, true) => Some result
            | _ => None
            end).
End Block.

(** ** The entry *)

(** [BASH_JOIN_RE.replace_all(_, "")]: a backslash and a line break. *)
Fixpoint bash_join (s : rstr) : rstr :=
  match s with
  | [] => []
  | c :: rest =>
      if c =? BACKSLASH then
        match rest with
        | d :: rest' =>
            if d =? LF then bash_join rest'
            else if d =? CR then
              match rest' with
              | e :: rest'' => if e =? LF then bash_join rest'' else c :: bash_join rest
              | [] => c :: bash_join rest
              end
            else c :: bash_join rest
        | [] => [c]
        end
      else c :: bash_join rest
  end.

Definition is_horizontal (c : char) : bool := existsb (N.eqb c) [32; 9; 11; 12].

(** A line continuation at the start of the text, and what is behind it. *)
Definition continuation (s : rstr) : option rstr :=
  match skip_while is_horizontal s with
  | b :: d :: rest =>
      if b =? BACKSLASH then
        if d =? LF then Some (skip_while is_horizontal rest)
        else match rest with
             | e :: rest => if (d =? CR) && (e =? LF) then Some (skip_while is_horizontal rest) else None
             | [] => None
             end
      else None
  | _ => None
  end.

(** [LINE_CONTINUATION_RE.replace_all(_, " ")]; [fuel] has to be the length. *)
Fixpoint collapse (fuel : nat) (s : rstr) : rstr :=
  match fuel, s with
  | S fuel, c :: rest => match continuation s with Some behind => ch " " :: collapse fuel behind | None => c :: collapse fuel rest end
  | _, _ => s
  end.

Definition collapse_line_continuations (s : rstr) : rstr := collapse (length s) s.

Definition has_heredoc (cmd : rstr) : bool :=
  existsb (fun t => bool_decide (kind t = Redirect) && starts_with (lit "<<") (value t)) (tokenize cmd).

Definition split_command_chain (cmd : rstr) : option (list rstr) :=
  let trimmed := trim cmd in
  if is_empty trimmed then Some []
  else if has_heredoc trimmed || contains (lit "$((") trimmed then Some [trimmed]
  else split_on_operators trimmed true.

Section Entry.
Context (rewrite_single : rstr -> option (option rstr)).

(** [rewrite_command_impl], with the compiled exclusions and the normalised
    prefixes inside [rewrite_single]. *)
Definition rewrite_command_impl (cmd : rstr) : option (option rstr) :=
  if contains_char BACKSLASH cmd && (has_heredoc (bash_join cmd) || contains (lit "$((") (bash_join cmd)) then Some None
  else
    let trimmed := trim (collapse_line_continuations cmd) in
    if is_empty trimmed then Some None
    else if has_heredoc trimmed || contains (lit "$((") trimmed then Some None
    else if has_stdout_file_redirect trimmed then Some None
    else if contains_char LF trimmed then rewrite_multiline_block rewrite_single trimmed
    else rewrite_single trimmed.
End Entry.

(** ** Lemmas *)

(** An ASCII byte is a character. *)
Lemma utf8_ascii_at s i b : utf8 s !! i = Some b -> b < 128 -> exists x y, s = x ++ b :: y /\ i = blen x.
Proof.
  revert i. induction s as [|c s IH]; intros i; [done|]. rewrite utf8_cons, lookup_app. destruct (utf8_char c !! i) as [d|] eqn:E.
  - intros [= ->] Hb. destruct (utf8_char_cases c) as [ [Hc Hu]|(Hc & _ & Hu)]; rewrite ?Hu in E.
    + destruct i; [|done]. injection E as ->. by exists [], s.
    + rewrite forallb_forall in Hu. apply list_elem_of_lookup_2, list_elem_of_In, Hu in E. lia.
  - intros H Hb. apply lookup_ge_None in E. rewrite length_utf8_char in *. destruct (IH _ H Hb) as (x & y & -> & Hi). exists (c :: x), y.
    split; [done|]. cbn. lia.
Qed.

Lemma quote_scan_at bytes : forall i single double item, item ∈ (quote_scan bytes i single double).1 ->
  (i <= at_ item)%nat /\ bytes !! (at_ item - i)%nat = Some (byte item).
Proof.
  induction bytes as [bytes IH] using (induction_ltof1 _ (@length N)). unfold ltof in IH. intros i single double item.
  destruct bytes as [|b rest]; [by intros H%not_elem_of_nil|]. cbn [quote_scan]. destruct (_ && _).
  - destruct rest as [|c rest]; [by intros H%not_elem_of_nil|]. intros H. destruct (IH rest ltac:(cbn; lia) _ _ _ _ H) as [Hi Hl].
    split; [lia|]. by replace (at_ item - i)%nat with (S (S (at_ item - S (S i)))) by lia.
  - destruct (quote_scan rest (S i) _ _) as [items balanced] eqn:E. cbn [fst]. intros [->|H]%elem_of_cons; cbn.
    + split; [lia|]. by rewrite Nat.sub_diag.
    + assert (item ∈ (items, balanced).1) as H' by done. rewrite <- E in H'. destruct (IH rest ltac:(cbn; lia) _ _ _ _ H') as [Hi Hl].
      split; [lia|]. by replace (at_ item - i)%nat with (S (at_ item - S i)) by lia.
Qed.

Lemma comment_start_cuts line i : comment_start line = Some i -> exists code comment, line = code ++ ch "#" :: comment /\ i = blen code.
Proof.
  unfold comment_start. destruct (List.find _ _) as [item|] eqn:E; [|done]. cbn. intros [= <-]. apply find_some in E as [Hin Hb].
  apply list_elem_of_In, quote_scan_at in Hin as [_ Hin]. rewrite Nat.sub_0_r in Hin. apply andb_true_iff in Hb as [Hb _].
  apply andb_true_iff in Hb as [Hb _]. apply N.eqb_eq in Hb. rewrite Hb in Hin. by apply utf8_ascii_at.
Qed.

Lemma classify_line_total line : exists role, classify_line line = Some role.
Proof.
  unfold classify_line. destruct (_ || _); [by eexists|]. destruct (comment_start line) as [i|] eqn:E.
  - destruct (comment_start_cuts _ _ E) as (code & comment & -> & ->). rewrite slice_to_app. cbv [mbind option_bind]. repeat case_match; by eexists.
  - cbv [mbind option_bind]. repeat case_match; by eexists.
Qed.

(** *** Lines *)

Definition is_line_break (c : char) : Prop := c = LF \/ c = CR.

(** The text from byte [n] on, the end of a line, is the lines behind that line, each
    with a break in front of it; no quote and no escape is open at a break. *)
Fixpoint following (s : rstr) (n : nat) (lines : list (nat * rstr)) : Prop :=
  match lines with
  | [] => s = []
  | (a, t) :: lines =>
      exists c s', s = c :: t ++ s' /\ is_line_break c /\ a = S n /\ (s' = [] \/ scan t = bare) /\ following s' (a + blen t) lines
  end.

Lemma newline_text src t : tok_text src t -> is_newline t = true -> exists c, src = [c] /\ is_line_break c.
Proof.
  unfold is_newline, tok_text. intros Ht H. apply andb_true_iff in H as [Hk Hv]. apply bool_decide_eq_true in Hk, Hv. rewrite Hk, Hv in Ht.
  destruct Ht as [ [-> _]|[-> _] ]; eexists; (split; [done|]); [by left | by right].
Qed.

Lemma line_break_len c : is_line_break c -> len_utf8 c = 1%nat.
Proof. intros [-> | ->]; by apply len_utf8_ascii. Qed.

Lemma segments_lines ts : forall pre mid s, ahead true (blen (pre ++ mid)) ts s -> s = [] \/ scan mid = bare ->
  exists t s' lines, segments (pre ++ mid ++ s) (blen pre) (map offset (List.filter is_newline ts)) = Some ((blen pre, t) :: lines) /\
    mid ++ s = t ++ s' /\ (s' = [] \/ scan t = bare) /\ following s' (blen pre + blen t) lines.
Proof.
  induction ts as [|t ts IHts]; intros pre mid s H Hs.
  - exists (mid ++ s), [], []. cbn. rewrite slice_from_app, app_nil_r. split_and!; try done. by left.
  - apply ahead_cons in H as (w & src & s' & -> & Hw & _ & Ho & Hne & Ht & Hsrc & Ha).
    assert (scan mid = bare) as Hmid by (destruct Hs as [Hs|]; [by destruct w, src | done]).
    assert (scan (mid ++ w) = bare) as Hmw.
    { rewrite scan_app by done. apply scan_inert. apply forallb_forall. intros c Hc. apply white_inert. rewrite forallb_forall in Hw. by apply Hw. }
    cbn [List.filter]. destruct (is_newline t) eqn:Hnl.
    + destruct (newline_text _ _ Ht Hnl) as (c & -> & Hc). cbn [map segments]. rewrite Ho, blen_app.
      pose proof (line_break_len c Hc) as Hl.
      replace (pre ++ mid ++ w ++ [c] ++ s') with (pre ++ (mid ++ w) ++ ([c] ++ s')) by by rewrite <- !app_assoc.
      rewrite <- Nat.add_assoc, <- (blen_app mid w), slice_app. cbv [mbind option_bind].
      destruct (IHts (pre ++ (mid ++ w) ++ [c]) [] s') as (t' & s'' & lines & Hl' & Htext & Hscan & Hlaid).
      { rewrite app_nil_r, !blen_app in *. cbn [blen] in *. by rewrite !Nat.add_assoc in *. }
      { by right. }
      assert (blen (pre ++ (mid ++ w) ++ [c]) = S (blen pre + blen (mid ++ w))) as Hb by (rewrite !blen_app; cbn [blen]; lia).
      assert (pre ++ (mid ++ w) ++ [c] ++ s' = (pre ++ (mid ++ w) ++ [c]) ++ [] ++ s') as -> by (cbn [app]; by rewrite <- !app_assoc).
      rewrite <- Hb, Hl'. exists (mid ++ w), (c :: s'), ((blen (pre ++ (mid ++ w) ++ [c]), t') :: lines).
      split_and!; [done | by rewrite <- app_assoc | by right|]. exists c, s''. split_and!; [by rewrite <- Htext|done..].
    + destruct (IHts pre (mid ++ w ++ src) s') as (t' & s'' & lines & Hl & Htext & Hrest).
      { rewrite !blen_app in *. by rewrite !Nat.add_assoc in *. }
      { destruct Hsrc as [->|Hsrc]; [by left|]. right. by rewrite app_assoc, scan_app. }
      exists t', s'', lines. by rewrite <- !app_assoc in *.
Qed.

Definition place (l : Line) : nat * rstr := (start l, text l).

(** Lines that are not passive are not blank. *)
Definition nonblank (l : Line) : Prop := role l = Passive \/ trim (text l) <> [].

Lemma classified_lines segs : exists lines, mapM classified segs = Some lines /\ map place lines = segs /\ Forall nonblank lines.
Proof.
  induction segs as [|[a t] segs (lines & H & Hp & Hn)]; [by exists []|].
  destruct (classify_line_total (trim t)) as [r Hr].
  assert (classified (a, t) = Some {| start := a; text := t; role := r |}) as Hc by (unfold classified; cbn [fst snd]; by rewrite Hr).
  eexists. split; [apply mapM_Some; constructor; [exact Hc | by apply mapM_Some]|]. split; [cbn; by rewrite Hp|]. constructor; [|done]. unfold nonblank. cbn [role text].
  destruct (trim t) as [|c u] eqn:E; [|by right]. left. cbn in Hr. by injection Hr as <-.
Qed.

Lemma unit_end_text rest : forall last stop gap s s2 m last' rest',
  unit_end last stop rest = Some (last', rest') -> (start last + blen (text last) = m)%nat ->
  s = gap ++ s2 -> s2 = [] \/ scan gap = bare -> following s m (map place stop) -> following s2 (m + blen gap) (map place rest) -> rest `suffix_of` stop ->
  exists more s', s = more ++ s' /\ following s' (m + blen more) (map place rest') /\ (start last' + blen (text last') = m + blen more)%nat /\
    (more = [] /\ last' = last \/ start last < start last')%nat /\ (s' = [] \/ scan more = bare) /\
    rest' `suffix_of` stop.
Proof.
  induction rest as [|next rest IH]; intros last stop gap s s2 m last' rest' H Hm Hs Hg Hstop Hrest Hsub; cbn [unit_end] in H.
  - destruct (bool_decide _); injection H as <- <-; exists [], s; rewrite Nat.add_0_r; split_and!; try done; auto.
  - destruct (bool_decide _).
    2:{ injection H as <- <-. exists [], s. rewrite Nat.add_0_r. split_and!; try done; auto. }
    destruct Hrest as (c & s3 & -> & Hc & Hstart & Hscan & Hrest).
    assert (scan (gap ++ [c]) = bare) as Hgc.
    { destruct Hg as [Hg|Hg]; [done|]. rewrite scan_app by done. by destruct Hc as [-> | ->]. }
    destruct (is_empty _).
    + eapply (IH last stop (gap ++ c :: text next) s s3 m); try done.
      * rewrite Hs. by rewrite <- app_assoc.
      * destruct Hscan as [->|Hscan]; [by left|]. right.
        change (c :: text next) with ([c] ++ text next). by rewrite app_assoc, scan_app.
      * rewrite blen_app. cbn [blen]. rewrite (line_break_len c Hc). rewrite Hstart in Hrest.
        by replace (m + (blen gap + (1 + blen (text next))))%nat with (S (m + blen gap) + blen (text next))%nat by lia.
      * etrans; [|exact Hsub]. by apply suffix_cons_r.
    + destruct (bool_decide _); [done|].
      destruct (IH next rest [] s3 s3 (start next + blen (text next))%nat last' rest' H) as (more & s' & -> & Hf & Hl & Hcase & Hsc & Hr);
        [done|done|by right|done|by rewrite Nat.add_0_r|done|].
      exists (gap ++ c :: text next ++ more), s'. rewrite Hs.
      assert (m + blen (gap ++ c :: text next ++ more) = start next + blen (text next) + blen more)%nat as Hb.
      { rewrite Hstart, blen_app. cbn [blen]. rewrite blen_app, (line_break_len c Hc). lia. }
      rewrite Hb. split_and!; [by rewrite <- !app_assoc; cbn; rewrite <- app_assoc|done|done| | |].
      * right. destruct Hcase as [ [_ ->]|Hcase]; lia.
      * destruct Hsc as [->|Hsc]; [by left|]. destruct Hscan as [Hscan|Hscan].
        { destruct more, s'; try done. left. done. }
        right. change (c :: text next ++ more) with ([c] ++ text next ++ more). by rewrite app_assoc, scan_app, scan_app.
      * etrans; [exact Hr|]. etrans; [|exact Hsub]. by apply suffix_cons_r.
Qed.

(** ** What a block keeps *)

(** [reblocked rewrites s b out]: [out] is the text with units of whole lines
    rewritten: the indentation and the breaks around a unit are kept, the white space
    behind it is not; [b] says whether there is one. The text in front of a break
    that separates two parts closes its quotes. *)
Inductive reblocked (rewrites : rstr -> rstr -> Prop) : rstr -> bool -> rstr -> Prop :=
| reblocked_copy s : reblocked rewrites s false s
| reblocked_unit w line w' r :
    forallb is_whitespace w = true -> forallb is_whitespace w' = true -> line = trim (w ++ line ++ w') ->
    rewrites line r -> r <> line -> reblocked rewrites (w ++ line ++ w') true (w ++ r)
| reblocked_lines a b t c s b' t' :
    scan a = bare -> is_line_break c -> reblocked rewrites a b t -> reblocked rewrites s b' t' ->
    reblocked rewrites (a ++ c :: s) (b || b') (t ++ c :: t').

Lemma reblocked_impl (R R' : rstr -> rstr -> Prop) s b out :
  (forall line r, R line r -> R' line r) -> reblocked R s b out -> reblocked R' s b out.
Proof. intros H. induction 1; [by apply reblocked_copy | apply reblocked_unit; auto | by apply reblocked_lines]. Qed.

Section Kept.
Context (rewrite_single : rstr -> option (option rstr)).

Abbreviation kept := (reblocked (fun line r => rewrite_single line = Some (Some r))).

Lemma indent_of segment more : trim segment <> [] -> exists w, segment = w ++ trim_start segment /\ forallb is_whitespace w = true /\
  trim_start (segment ++ more) = trim_start segment ++ more.
Proof.
  intros Hne. destruct (trim_start_split segment) as (w & Hw & Hb). exists w. split_and!; [done..|].
  assert (forall u v, skip_while is_whitespace u <> [] -> skip_while is_whitespace (u ++ v) = skip_while is_whitespace u ++ v) as H.
  { induction u as [|c u IH]; intros v; cbn; [done|]. destruct (is_whitespace c); [apply IH | done]. }
  apply H. intros He. apply Hne. unfold trim, trim_start. by rewrite He.
Qed.

Lemma write_unit_kept segment more : trim segment <> [] ->
  match write_unit rewrite_single segment (segment ++ more) with
  | None => exists line, rewrite_single line = None
  | Some (out, b) => kept (segment ++ more) b out
  end.
Proof.
  intros Hne. unfold write_unit. set (unit := segment ++ more). destruct (rewrite_single (trim unit)) as [ [r|]|] eqn:E; cbv [mbind option_bind];
    [|apply reblocked_copy|by eexists].
  destruct (str_eqb r (trim unit)) eqn:Er; [apply reblocked_copy|]. apply bool_decide_eq_false in Er.
  destruct (indent_of segment more Hne) as (w & Hw & Hb & Ht). destruct (trim_end_split (trim_start unit)) as (w' & Hu & Hb').
  assert (unit = w ++ trim unit ++ w') as Hunit.
  { unfold trim. rewrite <- Hu. subst unit. rewrite Ht, Hw at 1. by rewrite <- app_assoc. }
  assert (slice_to (blen segment - blen (trim_start segment)) segment = Some w) as ->.
  { rewrite Hw at 1 3. rewrite blen_app, Nat.add_sub. apply slice_to_app. }
  pose proof (reblocked_unit (fun line r => rewrite_single line = Some (Some r)) w (trim unit) w' r) as H. rewrite <- Hunit in H. by apply H.
Qed.

Lemma block_loop_kept fuel : forall cmd line lines pre brk s result any_changed,
  (length lines < fuel)%nat -> Forall nonblank (line :: lines) ->
  cmd = pre ++ brk ++ text line ++ s -> start line = blen (pre ++ brk) -> pre ++ brk = [] \/ (exists c, brk = [c] /\ is_line_break c) ->
  s = [] \/ scan (text line) = bare -> following s (start line + blen (text line)) (map place lines) ->
  match block_loop rewrite_single fuel cmd (line :: lines) result any_changed with
  | None => exists line, rewrite_single line = None
  | Some None => True
  | Some (Some (out, b)) => exists out' b', out = result ++ brk ++ out' /\ b = any_changed || b' /\ kept (text line ++ s) b' out'
  end.
Proof.
  induction fuel as [|fuel IH]; intros cmd line lines pre brk s result any_changed Hf Hnb -> Hstart Hbrk Hscan Hs; [lia|].
  cbn [block_loop]. apply Forall_cons in Hnb as [Hnb Hnbs].
  set (cmd := pre ++ brk ++ text line ++ s).
  assert ((if (0 <? start line)%nat then slice (start line - 1) (start line) cmd else Some []) = Some brk) as ->.
  { destruct Hbrk as [Hbrk|(c & -> & Hc)].
    - rewrite Hstart, Hbrk. by apply app_eq_nil in Hbrk as [_ ->].
    - rewrite Hstart, blen_app. cbn [blen]. rewrite (line_break_len c Hc), Nat.add_comm. cbn [Nat.ltb Nat.leb Nat.add Nat.sub].
      rewrite Nat.sub_0_r. replace (S (blen pre)) with (blen pre + blen [c])%nat by (cbn [blen]; rewrite (line_break_len c Hc); lia). apply slice_app. }
  cbv [mbind option_bind].
  assert (forall u b w rest s2, text line ++ s = u ++ s2 -> s2 = [] \/ scan u = bare -> following s2 (start line + blen u) (map place rest) ->
    rest `suffix_of` lines -> kept u b w ->
    match block_loop rewrite_single fuel cmd rest ((result ++ brk) ++ w) (any_changed || b) with
    | None => exists line, rewrite_single line = None
    | Some None => True
    | Some (Some (out, b)) => exists out' b', out = result ++ brk ++ out' /\ b = any_changed || b' /\ kept (text line ++ s) b' out'
    end) as Hnext.
  { intros u b w rest s2 Hu Hsc Hfol Hsuf Hre. destruct rest as [|next rest].
    - cbn in Hfol. subst s2. rewrite app_nil_r in Hu. rewrite Hu. destruct fuel; cbn; exists w, b; by rewrite <- app_assoc.
    - destruct Hfol as (c & s3 & -> & Hc & Hn & Hsc3 & Hfol). destruct Hsc as [Hsc|Hsc]; [done|].
      pose proof (IH cmd next rest (pre ++ brk ++ u) [c] s3 ((result ++ brk) ++ w) (any_changed || b)) as Hrec.
      destruct (block_loop _ _ _ (next :: rest) _ _) as [ [ [out b2]|]|]; [| |apply Hrec].
      + destruct Hrec as (out' & b' & -> & -> & Hre'); try done.
        * apply suffix_length in Hsuf. cbn in Hsuf. lia.
        * destruct Hsuf as [k ->]. by apply Forall_app in Hnbs as [_ ?].
        * unfold cmd. rewrite Hu, <- !app_assoc. done.
        * rewrite Hn, Hstart, !blen_app. cbn [blen]. rewrite (line_break_len c Hc). lia.
        * right. by exists c.
        * exists (w ++ c :: out'), (b || b'). rewrite Hu. split_and!; [by rewrite <- !app_assoc | by rewrite orb_assoc |]. by apply reblocked_lines.
      + done.
      + apply suffix_length in Hsuf. cbn in Hsuf. lia.
      + destruct Hsuf as [k ->]. by apply Forall_app in Hnbs as [_ ?].
      + unfold cmd. rewrite Hu, <- !app_assoc. done.
      + rewrite Hn, Hstart, !blen_app. cbn [blen]. rewrite (line_break_len c Hc). lia.
      + right. by exists c.
      + done.
      + done. }
  destruct (bool_decide (role line = Passive)) eqn:Hp.
  { pose proof (Hnext (text line) false (text line) lines s eq_refl Hscan Hs (reflexivity _) (reblocked_copy _ _)) as H. by rewrite orb_false_r in H. }
  apply bool_decide_eq_false in Hp. destruct Hnb as [Hnb|Hnb]; [done|].
  destruct (unit_end line lines lines) as [ [last rest]|] eqn:Eu; [|done].
  destruct (unit_end_text lines line lines [] s s _ last rest Eu eq_refl eq_refl (or_intror eq_refl) Hs) as (more & s' & Hmore & Hfol & Hend & Hcase & Hsc & Hsuf);
    [by rewrite Nat.add_0_r | done|].
  assert ((if (start last =? start line)%nat then Some (text line) else slice (start line) (start last + blen (text last)) cmd) = Some (text line ++ more)) as ->.
  { destruct (Nat.eqb_spec (start last) (start line)) as [He|He].
    - destruct Hcase as [ [-> _]|Hcase]; [by rewrite app_nil_r | lia].
    - rewrite Hend. apply (slice_parts _ (pre ++ brk) (text line ++ more) s'); [|done|].
      + unfold cmd. rewrite Hmore. by rewrite <- !app_assoc.
      + rewrite Hstart, !blen_app. lia. }
  cbv [mbind option_bind]. pose proof (write_unit_kept (text line) more Hnb) as Hw.
  destruct (write_unit _ _ _) as [ [w b]|]; [|done]. apply (Hnext (text line ++ more) b w rest s').
  - by rewrite Hmore, app_assoc.
  - destruct Hsc as [->|Hsc]; [by left|]. destruct Hscan as [Hscan|Hscan]; [|right; by rewrite scan_app].
    left. rewrite Hscan in Hmore. symmetry in Hmore. by apply app_eq_nil in Hmore as [_ ?].
  - by rewrite blen_app, Nat.add_assoc.
  - done.
  - done.
Qed.
End Kept.

(** *** The block *)

Lemma rewrite_multiline_block_kept rewrite_single cmd :
  match rewrite_multiline_block rewrite_single cmd with
  | None => exists line, rewrite_single line = None
  | Some None => True
  | Some (Some out) =>
      reblocked (fun line r => rewrite_single line = Some (Some r)) cmd true out \/
      newline_offsets cmd = [] /\ quotes_balanced cmd = true /\ rewrite_single cmd = Some (Some out)
  end.
Proof.
  unfold rewrite_multiline_block. destruct (Permissions.ansi_c_quote_defeats_lexer cmd); [done|]. destruct (negb _).
  { destruct (is_nil _ && _) eqn:H; [|done]. apply andb_true_iff in H as [H Hq].
    destruct (rewrite_single cmd) as [ [out|]|] eqn:E; [|done|by eexists]. right. split_and!; try done. by destruct (newline_offsets cmd). }
  destruct (segments_lines (tokenize_with_newlines cmd) [] [] cmd (tokenize_ahead cmd true)) as (t & s & segs & Hsegs & Hcmd & Hscan & Hfol);
    [by right|]. cbn [app blen Nat.add] in Hsegs, Hcmd, Hfol. unfold newline_offsets. rewrite Hsegs. cbv [mbind option_bind].
  destruct (classified_lines ((0%nat, t) :: segs)) as (lines & Hm & Hp & Hnb). cbv [mbind option_bind] in Hm. rewrite Hm. destruct (existsb _ lines); [done|].
  destruct lines as [|line lines]; [done|]. injection Hp as Hstart Htext Hp.
  pose proof (block_loop_kept rewrite_single (length (line :: lines)) cmd line lines [] [] s [] false (le_n _) Hnb) as H.
  rewrite Htext, Hstart, Hp in H. specialize (H Hcmd eq_refl (or_introl eq_refl) Hscan Hfol).
  destruct (block_loop _ _ _ _ _ _) as [ [ [out [] ]|]|]; try done.
  left. destruct H as (out' & b' & -> & Hb & H). cbn in Hb. subst b'. by rewrite <- Hcmd in H.
Qed.

(** ** Properties *)

(** A block of lines is rewritten unit by unit. The answer is the block with
    some units replaced by what [rewrite_single] makes of their trimmed text: lines
    that are not rewritten, comments, blank lines, the line breaks between units and
    the indentation stay as they are, and no unit begins or ends inside quotes; at
    least one unit is changed. The only other answer is that of [rewrite_single] for
    the whole block, where all its line breaks are in closed quotes or escaped; and
    the rewriting panics only if [rewrite_single] does. *)
Theorem blocks_keep_their_lines rewrite_single cmd :
  match rewrite_multiline_block rewrite_single cmd with
  | None => exists line, rewrite_single line = None
  | Some None => True
  | Some (Some out) =>
      reblocked (fun line r => rewrite_single line = Some (Some r)) cmd true out \/
      newline_offsets cmd = [] /\ quotes_balanced cmd = true /\ rewrite_single cmd = Some (Some out)
  end.
Proof. apply rewrite_multiline_block_kept. Qed.
End RewriteBlock.
