(* ===== verification/RewriteOutcome.v ===== *)
(** What becomes of a command ([fork-core/rtk/src/discover/registry.rs] and
    [rewrite_cmd.rs]): whether a shell wrapper in it is ambiguous, whether the user
    has to be asked, the outcome of its rewriting, the class of evasion it is
    attributed to, and the plan or the exit code for the host.

    As in [Rewrite], [None] is a panic of the source; of a function with fuel it is
    the end of the fuel, too. *)

From S2P Require Import Prelude RStr Contract Lexer Segments Permissions Rewrite Rules RewriteSegment RewriteBlock.
From Stdlib Require Import ZifyBool ZifyN ZifyNat.

Module RewriteOutcome.
Import Lexer Segments Rewrite RewriteSegment.

Definition MAX_SHELL_WRAPPER_DEPTH : nat := 3.

Inductive RewriteOutcome := Rewritten (command : rstr) | ByteFidelityProxy | NoEquivalent | AmbiguousShell | PolicyAsk.

(** [PATH] entries; of an empty text the one empty path. *)
Definition split_paths (path : rstr) : list rstr := split_char (N.eqb (ch ":")) path.

(** [words.windows(2)]. *)
Fixpoint pairs (words : list rstr) : list (rstr * rstr) :=
  match words with a :: ((b :: _) as rest) => (a, b) :: pairs rest | _ => [] end.

Definition looks_like_remote_logs (words : list rstr) : bool :=
  existsb (fun p => str_eqb p.1 (lit "docker") && str_eqb p.2 (lit "logs")) (pairs words)
  || existsb (fun word => match split_ascii_whitespace word with
                          | first :: second :: _ => str_eqb first (lit "docker") && str_eqb second (lit "logs")
                          | _ => false
                          end) (tail words).

(** The words behind the redirections of stdout to a file. *)
Fixpoint redirected_files (tokens : list ParsedToken) : list rstr :=
  match tokens with
  | t :: ((next :: _) as rest) =>
      if is_redirect t && one_of (value t) [lit ">"; lit "1>"; lit ">>"] && is_arg next then value next :: redirected_files rest
      else redirected_files rest
  | _ => []
  end.

(** ** Interpreters *)

Definition inline_code (words : list rstr) (flag : rstr) : option rstr :=
  match list_find (fun word => word = flag) words with Some (index, _) => words !! S index | None => None end.

Definition python_code_requires_ask (code : rstr) : bool :=
  let has s := contains s code in
  let emits_file := (has (lit "open(") || has (lit "read_text(") || has (lit "json.load(")) && (has (lit "print(") || has (lit "stdout")) in
  let launches_child := (has (lit "subprocess") || has (lit "os.system("))
    && existsb has [lit "git "; lit "rg "; lit "grep "; lit "cat "; lit "sed "; lit "head "; lit "tail "; lit "bun "; lit "cargo "; lit "npm "; lit "pnpm "] in
  emits_file || launches_child.

Definition none_or {A} (o : option A) (f : A -> bool) : bool := match o with Some a => f a | None => true end.
Definition some_and {A} (o : option A) (f : A -> bool) : bool := match o with Some a => f a | None => false end.

Definition is_python (name : rstr) : bool := str_eqb name (lit "python") || starts_with (lit "python3") name.

Section Outcome.
Context (o : Outside).

Definition executable_name (program : rstr) : rstr := Permissions.executable_name (on_path o) program.

Definition interpreter_reads_or_launches_children (command : rstr) : bool :=
  let words := shell_split command in
  match words with
  | [] => false
  | program :: _ =>
      let program := executable_name program in
      if is_python program then
        if RewriteBlock.has_heredoc command then python_code_requires_ask command
        else one_of (lit "-c") words && none_or (inline_code words (lit "-c")) python_code_requires_ask
      else if str_eqb program (lit "node") then
        one_of (lit "-e") words && none_or (inline_code words (lit "-e"))
          (fun code => contains (lit "readFileSync") code && (contains (lit "console.log") code || contains (lit "stdout.write") code))
      else if str_eqb program (lit "ruby") then
        one_of (lit "-e") words && none_or (inline_code words (lit "-e"))
          (fun code => contains (lit "File.read") code && (contains (lit "puts") code || contains (lit "print") code))
      else if str_eqb program (lit "perl") then
        existsb (fun word => starts_with (lit "-n") word || starts_with (lit "-p") word) words && existsb (contains (lit "print")) words
      else if str_eqb program (lit "awk") then
        some_and (words !! 1%nat) (contains (lit "print")) && some_and (words !! 2%nat) (fun file => negb (str_eqb file (lit "-")))
      else false
  end.

Definition DUMPERS : list rstr := [lit "cat"; lit "nl"; lit "head"; lit "tail"; lit "tar"].

Definition aggregate_dump (command : rstr) : bool :=
  let words := shell_split command in
  match words with
  | [] => false
  | program :: arguments =>
      let program := executable_name program in
      if str_eqb program (lit "find") then
        existsb (fun p => one_of p.1 [lit "-exec"; lit "-execdir"] && one_of (executable_name p.2) DUMPERS) (pairs words)
      else if str_eqb program (lit "xargs") then existsb (fun word => one_of (executable_name word) DUMPERS) arguments
      else if str_eqb program (lit "tar") then
        existsb (fun word => let flags := trim_start_matches (N.eqb (ch "-")) word in contains_char (ch "c") flags && contains_char (ch "f") flags) arguments
        && existsb (fun word => str_eqb word (lit "-")) arguments
      else false
  end.

Definition ledger_sqlite_query (command : rstr) : bool :=
  match shell_split command with
  | [] => false
  | program :: arguments =>
      str_eqb (executable_name program) (lit "sqlite3")
      && existsb (fun argument => ends_with (lit "/ledger/hzr.sqlite") argument || str_eqb argument (lit "ledger/hzr.sqlite")) arguments
  end.

(** ** Asking *)

Definition temp_log_requires_ask (command : rstr) : option bool :=
  let files := redirected_files (tokenize command) in
  if is_nil files then Some false
  else
    segments ← split_on_operators command false;
    Some (existsb (fun segment =>
      let words := shell_split segment in
      some_and (head words) (fun program => str_eqb (executable_name program) (lit "tail"))
      && some_and (last words) (fun path => one_of path files)) segments).

Definition typed_gap_requires_ask (command : rstr) : bool :=
  let words := shell_split command in
  match words with
  | [] => false
  | program :: _ =>
      let program := executable_name program in
      if str_eqb program (lit "sqlite3") then bool_decide (rewrite_sqlite_select o command = None)
      else if str_eqb program (lit "tar") then bool_decide (rewrite_tar_listing o command = None)
      else if str_eqb program (lit "ssh") && looks_like_remote_logs words then bool_decide (rewrite_remote_docker_logs o command = None)
      else false
  end.

Section Prefixes.
Context (transparent_prefixes : list rstr).

(** [room] is what is left of [MAX_PREFIX_DEPTH]. *)
Fixpoint segment_requires_ask (room : nat) (segment : rstr) : option bool :=
  match room with
  | O => Some true
  | S room =>
      let opaque command :=
        ask ← temp_log_requires_ask command;
        if (ask : bool) then Some true
        else segments ← split_on_operators command false; Permissions.any_of (segment_requires_ask room) segments in
      let trimmed := trim segment in
      '(_, command) ← strip_disabled_prefix o trimmed;
      if negb (str_eqb command trimmed) then segment_requires_ask room command
      else
        wrapped ← Permissions.execution_prefix (on_path o) command;
        match wrapped with
        | Some (_, child) => segment_requires_ask room child
        | None =>
            match strip_first command (Permissions.BUILTIN_TRANSPARENT_PREFIXES ++ transparent_prefixes) with
            | Some (_, child) => segment_requires_ask room child
            | None =>
                wrapper ← parse_shell_command_wrapper command;
                match wrapper with
                | Parsed payload => opaque (Segments.command payload)
                | _ => Some (typed_gap_requires_ask command)
                end
            end
        end
  end.

Definition opaque_wrapper_requires_ask (command : rstr) : option bool :=
  ask ← temp_log_requires_ask command;
  if (ask : bool) then Some true
  else segments ← split_on_operators command false; Permissions.any_of (segment_requires_ask MAX_PREFIX_DEPTH) segments.

(** ** Ambiguous wrappers *)

(** The body of [shell_segment_is_ambiguous], over the function it calls again. *)
Definition ambiguous_step (again : nat -> rstr -> option bool) (depth : nat) (segment : rstr) : option bool :=
  let trimmed := trim segment in
  '(_, after_env) ← strip_disabled_prefix o trimmed;
  if negb (str_eqb after_env trimmed) then again depth after_env
  else
    wrapped ← Permissions.execution_prefix (on_path o) trimmed;
    match wrapped with
    | Some (_, child) => again (S depth) child
    | None =>
        match strip_first trimmed (Permissions.BUILTIN_TRANSPARENT_PREFIXES ++ transparent_prefixes) with
        | Some (_, rest) => again depth rest
        | None =>
            wrapper ← parse_shell_command_wrapper trimmed;
            match wrapper with
            | Ambiguous => Some true
            | Parsed payload =>
                if (MAX_SHELL_WRAPPER_DEPTH <=? depth)%nat then Some true
                else segments ← split_on_operators (command payload) false; Permissions.any_of (again (S depth)) segments
            | NotWrapper => Some false
            end
        end
    end.

Fixpoint shell_segment_is_ambiguous (fuel : nat) (depth : nat) (segment : rstr) : option bool :=
  match fuel with O => None | S fuel => ambiguous_step (shell_segment_is_ambiguous fuel) depth segment end.

(** The fuel exceeds the characters of every segment. *)
Definition shell_wrapper_is_ambiguous (command : rstr) : option bool :=
  segments ← split_on_operators command false;
  Permissions.any_of (shell_segment_is_ambiguous (S (length command)) 0) segments.

(** ** The PATH of the rewritten command *)

(** [rtk_in directory]: the rtk of the directory is the running executable. *)
Context (rtk_in : rstr -> bool).

Definition path_override_resolves_rtk (environment : rstr) : option bool :=
  path ← head (omap (strip_prefix (lit "PATH=")) (reverse (shell_split environment)));
  Some (existsb rtk_in (split_paths path)).

(** The body of [rewritten_segment_path_resolves_rtk], over the function it calls
    again and the one for a whole command. *)
Definition path_step (again : nat -> rstr -> option bool) (depth : nat) (segment : rstr) : option bool :=
  let trimmed := trim segment in
  '(environment, cmd) ← strip_disabled_prefix o trimmed;
  if bool_decide (path_override_resolves_rtk environment = Some false) then Some false
  else if negb (str_eqb cmd trimmed) then again (S depth) cmd
  else
    wrapped ← Permissions.execution_prefix (on_path o) cmd;
    match wrapped with
    | Some (_, child) => again (S depth) child
    | None =>
        match strip_first cmd (Permissions.BUILTIN_TRANSPARENT_PREFIXES ++ transparent_prefixes) with
        | Some (_, child) => again (S depth) child
        | None =>
            wrapper ← parse_shell_command_wrapper cmd;
            match wrapper with
            | Parsed payload =>
                if (MAX_PREFIX_DEPTH <=? S depth)%nat then Some false
                else
                  segments ← split_on_operators (command payload) false;
                  elsewhere ← Permissions.any_of (fun s => option_map negb (again (S depth) s)) segments;
                  Some (negb elsewhere)
            | Ambiguous => Some false
            | NotWrapper => Some true
            end
        end
    end.

Fixpoint rewritten_segment_path_resolves_rtk (fuel : nat) (depth : nat) (segment : rstr) : option bool :=
  match fuel with O => None | S fuel => path_step (rewritten_segment_path_resolves_rtk fuel) depth segment end.

Definition rewritten_path_resolves_rtk (command : rstr) : option bool :=
  segments ← split_on_operators command false;
  elsewhere ← Permissions.any_of (fun s => option_map negb (rewritten_segment_path_resolves_rtk (S (length command)) 0 s)) segments;
  Some (negb elsewhere).

(** ** The outcome *)

Context (excluded : list rstr).

Definition rewrite_command_impl (cmd : rstr) : option (option rstr) :=
  let compiled := compile_exclude_patterns o excluded in
  let normalized_prefixes := Permissions.normalize_transparent_prefixes transparent_prefixes in
  RewriteBlock.rewrite_command_impl (rewrite_single (on_path o) (strip_env o) (RewriteSegment.rewrite_segment o compiled normalized_prefixes)) cmd.

Definition rewrite_command_outcome_with_fidelity (cmd : rstr) (byte_fidelity : bool) : option RewriteOutcome :=
  ambiguous ← shell_wrapper_is_ambiguous cmd;
  if (ambiguous : bool) then Some AmbiguousShell
  else
    ask ← opaque_wrapper_requires_ask cmd;
    if (ask : bool) then Some PolicyAsk
    else
      rewritten ← rewrite_command_impl cmd;
      match rewritten with
      | Some command =>
          resolves ← rewritten_path_resolves_rtk command;
          Some (if negb resolves then PolicyAsk else if byte_fidelity then ByteFidelityProxy else Rewritten command)
      | None => Some NoEquivalent
      end.

(** ** The attribution *)

(** The wrappers in the command, at most [room]. *)
Fixpoint wrappers_in (room : nat) (cmd : rstr) : option nat :=
  match room with
  | O => Some 0%nat
  | S room =>
      '(_, cmd) ← strip_disabled_prefix o (trim cmd);
      wrapper ← parse_shell_command_wrapper cmd;
      match wrapper with
      | Parsed payload => option_map S (wrappers_in room (command payload))
      | Ambiguous => Some 1%nat
      | NotWrapper => Some 0%nat
      end
  end.

(** [wrapper_depth(_, 0)]. *)
Definition wrapper_depth (command : rstr) : option nat := wrappers_in MAX_SHELL_WRAPPER_DEPTH command.

Definition interpreter_of (word : rstr) : option EvasionInterpreter.t :=
  let name := executable_name word in
  if one_of name [lit "sh"; lit "bash"; lit "dash"; lit "ksh"; lit "zsh"] then Some EvasionInterpreter.Shell
  else if is_python name then Some EvasionInterpreter.Python
  else if str_eqb name (lit "node") then Some EvasionInterpreter.Javascript
  else if str_eqb name (lit "ruby") then Some EvasionInterpreter.Ruby
  else if str_eqb name (lit "perl") then Some EvasionInterpreter.Perl
  else if str_eqb name (lit "awk") then Some EvasionInterpreter.Awk
  else if str_eqb name (lit "sed") then Some EvasionInterpreter.Sed
  else None.

Definition interpreter_signal (command : rstr) : option EvasionInterpreter.t := head (omap interpreter_of (shell_split command)).

(** [Path::components().count()]: the root, and the parts that are neither empty nor,
    except in front of a relative path, a dot. *)
Definition component_count (path : rstr) : nat :=
  let parts := List.filter (fun p => negb (is_empty p)) (split_char (N.eqb (ch "/")) path) in
  let rooted := starts_with (lit "/") path in
  let named := length (List.filter (fun p => negb (str_eqb p (lit "."))) parts) in
  ((if rooted then 1 else if bool_decide (head parts = Some (lit ".")) then 1 else 0) + named)%nat.

Definition path_form (command : rstr) : option EvasionPathForm.t :=
  '(environment, _) ← strip_disabled_prefix o (trim command);
  Some (if bool_decide (is_Some (path_override_resolves_rtk environment)) then EvasionPathForm.ResolvedAlias
        else match shell_split command with
             | [] => EvasionPathForm.Bare
             | program :: _ =>
                 if starts_with (lit "/") program && negb (str_eqb (executable_name program) program) then EvasionPathForm.AbsoluteSystem
                 else if (1 <? component_count program)%nat then EvasionPathForm.Relative
                 else EvasionPathForm.Bare
             end).

Record FidelitySignal := { requested : bool; reason : option FidelityReason.t; validation : FidelityValidation.t }.

Fixpoint fidelity_loop (words : list rstr) (requested : bool) (reason : option FidelityReason.t) (invalid : bool)
    : bool * option FidelityReason.t * bool :=
  match words with
  | [] => (requested, reason, invalid)
  | word :: words =>
      if str_eqb word (lit "HZR_RAW_FIDELITY=1") then fidelity_loop words true reason invalid
      else match strip_prefix (lit "HZR_RAW_FIDELITY_REASON=") word with
           | Some value =>
               match FidelityReason.parse value with
               | Some parsed => fidelity_loop words requested (Some parsed) (invalid || bool_decide (is_Some reason))
               | None => fidelity_loop words requested reason true
               end
           | None => if negb (contains_char (ch "=") word) then (requested, reason, invalid)
                     else fidelity_loop words requested reason invalid
           end
  end.

Definition fidelity_signal (command : rstr) : FidelitySignal :=
  let '(requested, reason, invalid) := fidelity_loop (shell_split command) false None false in
  {| requested := requested; reason := reason;
     validation := if negb requested then FidelityValidation.NotRequested
                   else if (invalid : bool) then FidelityValidation.InvalidReason
                   else if bool_decide (reason = None) then FidelityValidation.MissingReason
                   else FidelityValidation.Valid |}.

Definition is_rewritten (outcome : RewriteOutcome) : bool := match outcome with Rewritten _ => true | _ => false end.

Definition evasion_class (command : rstr) (outcome : RewriteOutcome) (depth : nat) (form : EvasionPathForm.t) : option EvasionClass.t :=
  let tokens := tokenize command in
  let pipeline := existsb (fun t => match kind t with Operator | Pipe _ | Redirect => true | _ => false end) tokens in
  let quoted := contains_char SQUOTE command || contains_char DQUOTE command in
  if bool_decide (is_Some (privilege_prefix command)) then Some EvasionClass.E11PrivilegedPrefix
  else if requested (fidelity_signal command) then Some EvasionClass.E7FidelityHatch
  else if ledger_sqlite_query command then Some EvasionClass.E9DiagnosticBypass
  else if aggregate_dump command then Some EvasionClass.E6NestedUnboundedReader
  else if bool_decide (is_Some (interpreter_signal command)) && interpreter_reads_or_launches_children command
  then Some EvasionClass.E3InterpreterRead
  else if (0 <? depth)%nat then Some EvasionClass.E2ShellWrapper
  else if pipeline then Some EvasionClass.E5PipelineOrRedirect
  else if bool_decide (form ∈ [EvasionPathForm.AbsoluteSystem; EvasionPathForm.ResolvedAlias]) then Some EvasionClass.E4ExecutablePath
  else if quoted && is_rewritten outcome then Some EvasionClass.E1QuotedCoveredCommand
  else match outcome with
       | NoEquivalent | PolicyAsk | AmbiguousShell => Some EvasionClass.E10CapabilityGap
       | _ => None
       end.

Definition canonical_attribution (command : rstr) (outcome : RewriteOutcome) : option (option EvasionAttribution) :=
  depth ← wrapper_depth command;
  form ← path_form command;
  match evasion_class command outcome depth form with
  | None => Some None
  | Some class =>
      let hatch := fidelity_signal command in
      let avoidable := negb (bool_decide (class ∈ [EvasionClass.E7FidelityHatch; EvasionClass.E10CapabilityGap; EvasionClass.E11PrivilegedPrefix]))
                       && is_rewritten outcome in
      Some (Some {|
        Contract.class := class;
        Contract.wrapper_depth := N.of_nat depth;
        Contract.interpreter := interpreter_signal command;
        Contract.path_form := form;
        Contract.stage_count := N.min (N.of_nat (length (List.filter separates (tokenize command))) + 1) 65535;
        Contract.hatch_marker := requested hatch;
        Contract.avoidable := avoidable;
        Contract.tier :=
          if bool_decide (class = EvasionClass.E7FidelityHatch) then EnforcementTier.T4HatchQuarantine
          else match outcome with
               | PolicyAsk | AmbiguousShell => EnforcementTier.T2DenyWithPrescription
               | _ => if avoidable && is_rewritten outcome then EnforcementTier.T1NamedCorrection else EnforcementTier.T0TransparentRewrite
               end;
        Contract.fidelity_reason := reason hatch;
        Contract.fidelity_validation := validation hatch |})
  end.

(** ** The command line *)

(** The rules of the host's settings. *)
Context (deny_rules ask_rules allow_rules : list rstr).

Definition check_command (cmd : rstr) : option Permissions.PermissionVerdict :=
  Permissions.check_command_with_prefixes (on_path o) cmd deny_rules ask_rules allow_rules transparent_prefixes.

(** [rtk rewrite]: the exit code and what is printed. *)
Definition run (cmd : rstr) (byte_fidelity : bool) : option (N * rstr) :=
  verdict ← check_command cmd;
  match verdict with
  | Permissions.Deny => Some (2, [])
  | _ =>
      outcome ← rewrite_command_outcome_with_fidelity cmd byte_fidelity;
      Some (match outcome, verdict with
            | Rewritten rewritten, Permissions.Allow => (0, rewritten)
            | Rewritten rewritten, _ => (3, rewritten)
            | NoEquivalent, _ => (1, [])
            | ByteFidelityProxy, Permissions.Allow => (1, [])
            | ByteFidelityProxy, _ => (4, [])
            | AmbiguousShell, _ | PolicyAsk, _ => (4, [])
            end)
  end.

Definition host_permission_verdict (verdict : Permissions.PermissionVerdict) : HostPermissionVerdict.t :=
  match verdict with
  | Permissions.Allow => HostPermissionVerdict.Allow
  | Permissions.Ask => HostPermissionVerdict.Ask
  | Permissions.Deny => HostPermissionVerdict.Deny
  | Permissions.Default => HostPermissionVerdict.Default
  end.

Definition plan_of (verdict : Permissions.PermissionVerdict) (outcome : RewriteOutcome) (attribution : option EvasionAttribution) : RewritePlan :=
  let plan decision proposed reason :=
    {| decision := decision; proposed := proposed; attribution := attribution; Contract.reason := reason;
       host_permission := Some (host_permission_verdict verdict) |} in
  match verdict, outcome with
  | Permissions.Deny, _ => plan RewritePlanDecision.Deny None (Some RewritePlanReason.PermissionPolicy)
  | Permissions.Allow, Rewritten command | Permissions.Default, Rewritten command => plan RewritePlanDecision.Rewrite (Some command) None
  | Permissions.Ask, Rewritten command => plan RewritePlanDecision.Ask (Some command) (Some RewritePlanReason.PermissionPolicy)
  | Permissions.Allow, ByteFidelityProxy | _, NoEquivalent => plan RewritePlanDecision.Proxy None None
  | _, ByteFidelityProxy | _, AmbiguousShell | _, PolicyAsk => plan RewritePlanDecision.Ask None (Some RewritePlanReason.CanonicalPolicy)
  end.

(** [rtk rewrite --plan]. *)
Definition run_plan (cmd : rstr) (byte_fidelity : bool) : option RewritePlan :=
  verdict ← check_command cmd;
  outcome ← rewrite_command_outcome_with_fidelity cmd byte_fidelity;
  attribution ← canonical_attribution cmd outcome;
  Some (plan_of verdict outcome attribution).
End Prefixes.
End Outcome.

(** ** The whole command *)

(** What may become of one logical line. *)
Definition line_respelled (o : Outside) (excluded : list ExcludePattern) (transparent_prefixes : list rstr) (line out : rstr) : Prop :=
  ((starts_with (lit "rtk ") line = true \/ line = lit "rtk") /\ out = line) \/
  rewrite_bounded_read_pipeline (on_path o) line = Some (Some out) \/
  relaid (respelled o excluded transparent_prefixes) line 0 (blen line) true out.

Lemma rewrite_single_respelled o excluded transparent_prefixes line out :
  rewrite_single (on_path o) (strip_env o) (RewriteSegment.rewrite_segment o excluded transparent_prefixes) line = Some (Some out) ->
  line_respelled o excluded transparent_prefixes line out.
Proof.
  unfold rewrite_single. destruct (_ && _) eqn:Hrtk.
  { intros [= <-]. left. split; [|done]. apply andb_true_iff in Hrtk as [_ Hrtk]. apply orb_true_iff in Hrtk as [?|Hrtk]; [by left | right].
    by apply bool_decide_eq_true in Hrtk. }
  destruct (rewrite_bounded_read_pipeline _ _) as [ [r|]|] eqn:Hb; [intros [= <-]; right; by left| |done]. cbv [mbind option_bind].
  set (seg := RewriteSegment.rewrite_segment o excluded transparent_prefixes). intros H. right. right.
  set (total ctx s := Some (default None (seg ctx s))).
  apply (rewrite_compound_mono _ _ seg total line) in H; [|intros ctx s r _ Hr; unfold total; by rewrite Hr].
  destruct (rewrite_compound_relaid (on_path o) (strip_env o) total line) as (answer & Ha & Hlaid); [done|by intros []|].
  rewrite H in Ha. injection Ha as <-. specialize (Hlaid _ eq_refl). eapply relaid_impl; [|exact Hlaid].
  intros ctx s r Hr. unfold answers, total in Hr. destruct (seg ctx s) as [ [x|]|] eqn:Hs; try done. injection Hr as <-.
  eapply (rewrite_segment_inner_kept _ _ _ (S (length s)) ctx 0); [lia|exact Hs].
Qed.

(** ** Ambiguity ends *)

Lemma any_of_ext {A} (f g : A -> option bool) l : (forall a, a ∈ l -> f a = g a) -> Permissions.any_of f l = Permissions.any_of g l.
Proof.
  induction l as [|a l IH]; intros H; [done|]. cbn [Permissions.any_of]. rewrite (H a) by by left. rewrite IH; [done|].
  intros b Hb. apply H. by right.
Qed.

Lemma push_segment_in results text g n : (forall g, g ∈ results -> length g <= n)%nat -> (length text <= n)%nat ->
  g ∈ push_segment results text -> (length g <= n)%nat.
Proof.
  intros Hr Ht. unfold push_segment. destruct (is_empty _); [apply Hr|]. intros [Hg|Hg]%elem_of_app; [by apply Hr|].
  apply list_elem_of_singleton in Hg as ->. pose proof (trim_length text). lia.
Qed.

Lemma operators_loop_length trimmed stop ts : forall results start gs g, (forall g, g ∈ results -> length g <= length trimmed)%nat ->
  operators_loop trimmed stop results start ts = Some gs -> g ∈ gs -> (length g <= length trimmed)%nat.
Proof.
  induction ts as [|t ts IH]; intros results start gs g Hr; cbn [operators_loop].
  - destruct (slice_from start trimmed) as [text|] eqn:E; [|done]. intros [= <-]. apply push_segment_in; [done|].
    apply slice_from_inv in E as (x & -> & _). rewrite length_app. lia.
  - assert (forall text, slice start (offset t) trimmed = Some text -> forall g, g ∈ push_segment results text -> (length g <= length trimmed)%nat) as Hp.
    { intros text E g'. apply push_segment_in; [done|]. by apply slice_length in E. }
    destruct (kind t); try (by apply IH); (destruct (slice start (offset t) trimmed) as [text|]; [|done]); cbv [mbind option_bind].
    + apply IH. by apply Hp.
    + destruct stop; [intros [= <-]; by apply Hp | apply IH; by apply Hp].
Qed.

Lemma split_on_operators_length cmd stop gs g : split_on_operators cmd stop = Some gs -> g ∈ gs -> (length g <= length cmd)%nat.
Proof.
  unfold split_on_operators. destruct (is_empty _); [intros [= <-] H; by apply not_elem_of_nil in H|]. intros H Hg.
  pose proof (trim_length cmd). enough (length g <= length (trim cmd))%nat by lia.
  eapply operators_loop_length; [|exact H|done]. intros g' H'. by apply not_elem_of_nil in H'.
Qed.

Section Ends.
Context (o : Outside) (transparent_prefixes : list rstr).
Context (no_empty_prefix : [] ∉ transparent_prefixes).

Lemma strip_first_shorter s p r : strip_first s (Permissions.BUILTIN_TRANSPARENT_PREFIXES ++ transparent_prefixes) = Some (p, r) -> (length r < length s)%nat.
Proof.
  intros H. apply strip_first_spec in H as [Hp H]. apply (strip_word_prefix_shorter s p); [|done]. intros ->.
  assert (p = []) as ->.
  { unfold Permissions.strip_word_prefix in H. destruct (str_eqb [] p) eqn:E; [by apply bool_decide_eq_true in E|]. by destruct p. }
  apply elem_of_app in Hp as [Hp|Hp]; [|done]. by vm_compute in Hp; set_solver.
Qed.

Lemma ambiguous_step_ext again again' depth segment :
  (forall d s, (length s < length segment)%nat -> again d s = again' d s) ->
  ambiguous_step o transparent_prefixes again depth segment = ambiguous_step o transparent_prefixes again' depth segment.
Proof.
  intros H. unfold ambiguous_step. pose proof (trim_length segment) as Hlen.
  destruct (strip_disabled_prefix _ _) as [ [p rest]|] eqn:Ed; [|done]. cbv [mbind option_bind].
  destruct (str_eqb rest (trim segment)) eqn:Er; cbn [negb].
  2:{ apply H. apply bool_decide_eq_false in Er. apply strip_disabled_spec in Ed as (w & Hw & ->). rewrite trim_trim in Hw.
      destruct p; [exfalso; apply Er; cbn in Hw; by rewrite <- Hw, trim_trim|]. pose proof (trim_length w). rewrite Hw, length_app in Hlen. cbn in Hlen. lia. }
  destruct (Permissions.execution_prefix _ _) as [ [ [p' child]|]|] eqn:Ee; [|clear Ee|done].
  { apply H. apply execution_prefix_shorter in Ee. lia. }
  destruct (strip_first _ _) as [ [p' child]|] eqn:Ef; [apply H; apply strip_first_shorter in Ef; lia|].
  destruct (parse_shell_command_wrapper _) as [ [|payload|]|] eqn:Ew; try done. destruct (_ <=? _)%nat; [done|].
  destruct (split_on_operators _ _) as [segments|] eqn:Es; [|done]. apply any_of_ext. intros g Hg. apply H.
  apply (split_on_operators_length _ _ _ _ Es) in Hg. apply payload_shorter in Ew. lia.
Qed.

Lemma shell_segment_is_ambiguous_fuel fuel : forall fuel' depth segment, (length segment < fuel)%nat -> (length segment < fuel')%nat ->
  shell_segment_is_ambiguous o transparent_prefixes fuel depth segment = shell_segment_is_ambiguous o transparent_prefixes fuel' depth segment.
Proof.
  induction fuel as [|fuel IH]; intros [|fuel'] depth segment H H'; try lia. cbn [shell_segment_is_ambiguous].
  apply ambiguous_step_ext. intros d s Hs. apply IH; lia.
Qed.
End Ends.

(** ** The attribution *)

Lemma wrappers_in_room o room : forall cmd n, wrappers_in o room cmd = Some n -> (n <= room)%nat.
Proof.
  induction room as [|room IH]; intros cmd n; cbn [wrappers_in]; [by intros [= <-]|].
  destruct (strip_disabled_prefix _ _) as [ [p r]|]; [|done]. cbv [mbind option_bind].
  destruct (parse_shell_command_wrapper r) as [ [|payload|]|]; [intros [= <-]; lia| |intros [= <-]; lia|done].
  destruct (wrappers_in o room (command payload)) as [m|] eqn:E; [|done]. intros [= <-]. apply IH in E. lia.
Qed.

(** ** Properties *)

(** The assignments in front of the segments of a command leave [PATH] alone, or set it
    to directories one of which has the managed rtk. *)
Definition overrides_find_rtk (o : Outside) (rtk_in : rstr -> bool) (command : rstr) : Prop :=
  exists segments, split_on_operators command false = Some segments
    /\ forall s environment rest, s ∈ segments -> strip_disabled_prefix o (trim s) = Some (environment, rest) ->
         path_override_resolves_rtk rtk_in environment <> Some false.

Lemma any_of_false {A} (f : A -> option bool) l a : Permissions.any_of f l = Some false -> a ∈ l -> f a = Some false.
Proof.
  induction l as [|b l IH]; [by intros _ ?%not_elem_of_nil|]. cbn [Permissions.any_of]. destruct (f b) as [ [|]|] eqn:Hb; try done.
  cbn [mbind option_bind]. intros H [->|Hin]%elem_of_cons; [done|auto].
Qed.

Lemma resolved_overrides o transparent_prefixes rtk_in command :
  rewritten_path_resolves_rtk o transparent_prefixes rtk_in command = Some true -> overrides_find_rtk o rtk_in command.
Proof.
  unfold rewritten_path_resolves_rtk. destruct (split_on_operators command false) as [segments|] eqn:Hs; [|done].
  cbv [mbind option_bind]. destruct (Permissions.any_of _ segments) as [ [|]|] eqn:Ha; try done. intros _.
  exists segments. split; [done|]. intros s environment rest Hin He Hp. apply (any_of_false _ _ _ Ha) in Hin.
  cbn [rewritten_segment_path_resolves_rtk] in Hin. unfold path_step in Hin. rewrite He in Hin. cbv [mbind option_bind] in Hin.
  by rewrite bool_decide_eq_true_2 in Hin by done.
Qed.


(** Looking for ambiguous wrappers ends where no transparent prefix is empty: each
    assignment, prefix and wrapper leaves a shorter text, so that the answer is that
    of the source's recursion for every segment. *)
Theorem ambiguity_is_decided_by_recursion o transparent_prefixes depth segment fuel : [] ∉ transparent_prefixes -> (length segment < fuel)%nat ->
  shell_segment_is_ambiguous o transparent_prefixes fuel depth segment =
  ambiguous_step o transparent_prefixes (fun d s => shell_segment_is_ambiguous o transparent_prefixes (S (length s)) d s) depth segment.
Proof.
  intros He Hf. destruct fuel as [|fuel]; [lia|]. cbn [shell_segment_is_ambiguous]. apply ambiguous_step_ext; [done|].
  intros d s Hs. apply (shell_segment_is_ambiguous_fuel o transparent_prefixes He fuel (S (length s))); lia.
Qed.

(** C38: the attribution of a command passes the contract's check exactly if the command
    asks for raw fidelity or gives no reason for it. Its tier is the hatch's for the
    hatch's class and only for it, and only a rewritten command is avoidable. *)
Theorem attributions_are_valid_but_for_a_lone_reason o rtk_in cmd outcome a :
  canonical_attribution o rtk_in cmd outcome = Some (Some a) ->
  evasion_is_valid a = hatch_marker a || bool_decide (fidelity_reason a = None) /\
  (class a = EvasionClass.E7FidelityHatch <-> tier a = EnforcementTier.T4HatchQuarantine) /\
  (avoidable a = true -> is_rewritten outcome = true) /\
  (class a = EvasionClass.E7FidelityHatch -> hatch_marker a = true).
Proof.
  unfold canonical_attribution. destruct (wrapper_depth o cmd) as [depth|] eqn:Hd; [|done]. cbv [mbind option_bind].
  destruct (path_form o rtk_in cmd) as [form|]; [|done]. destruct (evasion_class _ cmd outcome depth form) as [c|] eqn:Hc; [|done].
  intros [= <-]. cbn [class tier avoidable hatch_marker fidelity_reason]. apply wrappers_in_room in Hd. split_and!.
  - unfold evasion_is_valid. cbn. assert ((N.of_nat depth <=? 3) = true) as -> by (apply N.leb_le; unfold MAX_SHELL_WRAPPER_DEPTH in Hd; lia).
    assert ((0 <? N.min (N.of_nat (length (List.filter separates (tokenize cmd))) + 1) 65535) = true) as -> by (apply N.ltb_lt; lia).
    unfold fidelity_signal. destruct (fidelity_loop _ _ _ _) as [ [ [] reason] invalid]; cbn; [done|]. by rewrite andb_true_r.
  - destruct (bool_decide (c = EvasionClass.E7FidelityHatch)) eqn:E.
    + apply bool_decide_eq_true in E. by split.
    + apply bool_decide_eq_false in E. split; [done|]. destruct outcome; repeat case_match; done.
  - intros H. by apply andb_true_iff in H as [_ H].
  - intros ->. unfold evasion_class in Hc. destruct (bool_decide _); [done|]. destruct (requested _); [done|].
    repeat (case_match; try done).
Qed.

(** The exit code of [rtk rewrite] and the plan of [rtk rewrite --plan] say the same
    of a command. Exit code 2 is a denying plan; 1 a proxying one; 4 one that asks
    without a proposal; at 0 and 3 the proposal is printed, at 0 exactly for the host's
    verdict Allow; and the parts of the plan fit together, but for its attribution. *)
Theorem exit_codes_agree_with_plans o transparent_prefixes rtk_in excluded deny_rules ask_rules allow_rules cmd byte_fidelity plan :
  run_plan o transparent_prefixes rtk_in excluded deny_rules ask_rules allow_rules cmd byte_fidelity = Some plan ->
  exists code text, run o transparent_prefixes rtk_in excluded deny_rules ask_rules allow_rules cmd byte_fidelity = Some (code, text) /\
    proposed plan = (if (code =? 0) || (code =? 3) then Some text else None) /\ (text = [] \/ code = 0 \/ code = 3) /\
    match decision plan with
    | RewritePlanDecision.Deny => code = 2
    | RewritePlanDecision.Proxy => code = 1
    | RewritePlanDecision.Ask => code = 4 \/ code = 3 /\ host_permission plan = Some HostPermissionVerdict.Ask
    | RewritePlanDecision.Rewrite => code = 0 /\ host_permission plan = Some HostPermissionVerdict.Allow \/
                                     code = 3 /\ host_permission plan = Some HostPermissionVerdict.Default
    end /\
    plan_is_consistent plan = match attribution plan with Some a => evasion_is_valid a | None => true end.
Proof.
  unfold run_plan, run. destruct (check_command _ _ _ _ _ cmd) as [verdict|]; [|done]. cbv [mbind option_bind].
  destruct (rewrite_command_outcome_with_fidelity _ _ _ _ cmd byte_fidelity) as [outcome|]; [|done].
  destruct (canonical_attribution _ _ cmd outcome) as [a|]; [|done]. intros [= <-].
  destruct verdict, outcome; eexists _, _; (split; [done|]); split_and!; try done; cbn; auto.
Qed.

(** ** Witnesses and examples *)

(** The outcome on [git_only], without exclusions; no directory has the managed rtk. *)
Definition outcome_of (transparent_prefixes : list rstr) (cmd : rstr) : option RewriteOutcome :=
  rewrite_command_outcome_with_fidelity git_only transparent_prefixes (fun _ => false) [] cmd false.

Definition three_lines : rstr := lit "ls" ++ [LF] ++ lit "  A=1 git status | cat  " ++ [LF] ++ lit "# end".


(** A script for [bash -c] may send stdout to a file: the redirection is in quotes. *)
Example scripts_may_write_files :
  outcome_of [] (lit "bash -c 'git status > log'") = Some (Rewritten (lit "bash -c 'rtk git status > log'"))
  /\ outcome_of [] (lit "git status > log") = Some NoEquivalent.
Proof. split; vm_compute; reflexivity. Qed.

(** No directory has the managed rtk: a command that sets [PATH] is not rewritten, one
    that leaves it alone is. *)
Example path_is_looked_at_where_it_is_set :
  outcome_of [] (lit "PATH=/bin git status") = Some PolicyAsk /\ outcome_of [] (lit "git status") = Some (Rewritten (lit "rtk git status")).
Proof. split; vm_compute; reflexivity. Qed.

Lemma ambiguity_is_decided_by_recursion_witness :
  shell_segment_is_ambiguous git_only [lit "poetry run"] 40 0 (lit "poetry run bash -c 'a' 'b'") =
  ambiguous_step git_only [lit "poetry run"] (fun d s => shell_segment_is_ambiguous git_only [lit "poetry run"] (S (length s)) d s) 0
    (lit "poetry run bash -c 'a' 'b'").
Proof. apply ambiguity_is_decided_by_recursion; [by intros H%list_elem_of_singleton|]. vm_compute. lia. Defined.

Lemma attributions_are_valid_but_for_a_lone_reason_witness :
  exists a, canonical_attribution git_only (fun _ => false) (lit "HZR_RAW_FIDELITY_REASON=binary git log | cat") (Rewritten (lit "rtk git log | cat")) = Some (Some a) /\
    evasion_is_valid a = false.
Proof.
  eexists. split; [vm_compute; reflexivity|].
  refine (eq_trans (proj1 (attributions_are_valid_but_for_a_lone_reason git_only (fun _ => false)
    (lit "HZR_RAW_FIDELITY_REASON=binary git log | cat") (Rewritten (lit "rtk git log | cat")) _ _)) _); vm_compute; reflexivity.
Defined.

Lemma exit_codes_agree_with_plans_witness :
  let plan := {| decision := RewritePlanDecision.Rewrite; proposed := Some (lit "rtk git status"); attribution := None; Contract.reason := None;
                 host_permission := Some HostPermissionVerdict.Allow |} in
  run_plan git_only [] (fun _ => false) [] [] [] [lit "git status"] (lit "git status") false = Some plan /\
  exists code text, run git_only [] (fun _ => false) [] [] [] [lit "git status"] (lit "git status") false = Some (code, text) /\ code <> 2.
Proof.
  intros plan. assert (run_plan git_only [] (fun _ => false) [] [] [] [lit "git status"] (lit "git status") false = Some plan) as H by (vm_compute; reflexivity).
  split; [exact H|]. destruct (exit_codes_agree_with_plans _ _ _ _ _ _ _ _ _ _ H) as (code & text & Hr & _ & _ & Hd & _).
  exists code, text. split; [exact Hr|]. cbn in Hd. destruct Hd as [ [-> _]|[-> _] ]; discriminate.
Defined.

(** A plan with a reason for raw fidelity and no request for it is not consistent. *)
Example a_lone_reason_spoils_the_plan : exists plan,
  run_plan git_only [] (fun _ => false) [] [] [] [] (lit "HZR_RAW_FIDELITY_REASON=binary git log | cat") false = Some plan /\
  plan_is_consistent plan = false.
Proof. eexists. split; vm_compute; reflexivity. Qed.

(** A transparent prefix that is empty: the source calls itself for the empty text
    without end. *)
Lemma ambiguity_of_nothing_diverges fuel : shell_segment_is_ambiguous git_only [ [] ] fuel 0 [] = None.
Proof. induction fuel as [|fuel IH]; [done|]. change (shell_segment_is_ambiguous git_only [ [] ] fuel 0 [] = None). exact IH. Qed.

Example exec_alone_diverges fuel : shell_segment_is_ambiguous git_only [ [] ] fuel 0 (lit "exec") = None.
Proof.
  destruct fuel as [|fuel]; [done|].
  change (shell_segment_is_ambiguous git_only [ [] ] fuel 0 [] = None). apply ambiguity_of_nothing_diverges.
Qed.

(** A line continuation inside a word: the shell joins the parts, the answer has a
    space between them. *)
Example continuations_split_words :
  outcome_of [] (lit "git add src/ma\" ++ [LF] ++ lit "in.rs") = Some (Rewritten (lit "rtk git add src/ma in.rs")).
Proof. vm_compute. reflexivity. Qed.

(** A backslash in front of a line break that single quotes hold is text of the
    argument; the answer loses it. *)
Example continuations_change_quoted_text :
  outcome_of [] (lit "git commit -m 'a\" ++ [LF] ++ lit "b'") = Some (Rewritten (lit "rtk git commit -m 'a b'")).
Proof. vm_compute. reflexivity. Qed.

(** An escaped space at the end of a line: trimming the line leaves the backslash in
    front of the line break, which then joins the lines. *)
Example trimmed_escapes_join_lines :
  outcome_of [] (lit "git add a\ " ++ [LF] ++ lit "rm b") = Some (Rewritten (lit "rtk git add a\" ++ [LF] ++ lit "rm b")).
Proof. vm_compute. reflexivity. Qed.
End RewriteOutcome.
