(* ===== verification/Guard.v ===== *)
(** The output guards ([fork-core/rtk/src/guard.rs]): a filtered output is shown
    only where it is no worse than the raw one, and never looks like a success where
    the command failed.

    The regex crate, [serde_json] and Unicode's lower case are parameters. *)

From S2P Require Import Prelude RStr Json.
From Stdlib Require Import ZifyBool ZifyN ZifyNat.

Module Guard.
Import Json.

(** ** Text *)

(** [utils::truncate]: the byte positions that its loop counts are those of the
    characters. *)
Definition truncate (s : rstr) (max_len : nat) : rstr :=
  if (max_len <? 3)%nat then lit "..."
  else if (max_len <? length s)%nat then take (max_len - 3) s ++ lit "..." else s.

(** [tracking::estimate_tokens]: a quarter of the bytes, rounded up.  The source
    divides in [f64], which is exact for every length below 2^53. *)
Definition estimate_tokens (text : rstr) : nat := ((blen text + 3) / 4)%nat.

Definition estimate_body_tokens (body : rstr) : nat := estimate_tokens body.

(** Cap on the lines of a failure. *)
Definition CAP_ERRORS : nat := 20.

(** ** Protocols *)

Definition is_blank (s : rstr) : bool := is_empty (trim s).

Definition csv_record_protocol (text : rstr) : bool :=
  let fields line := length (split_char (N.eqb (ch ",")) line) in
  match List.filter (fun line => negb (is_blank line)) (lines text) with
  | [] => false
  | header :: records =>
      (1 <? fields header)%nat
      && forallb (fun field => negb (is_blank field) && negb (existsb is_whitespace field)) (split_char (N.eqb (ch ",")) header)
      && negb (is_nil records) && forallb (fun line => (fields line =? fields header)%nat) records
  end.

Definition STATUS_LETTERS : rstr := lit " ?!ACDMRTU".

Definition porcelain_line (line : rstr) : bool :=
  match utf8 line with
  | a :: b :: c :: _ :: _ => (c =? ch " ") && existsb (N.eqb a) STATUS_LETTERS && existsb (N.eqb b) STATUS_LETTERS
  | _ => false
  end.

Definition git_porcelain_protocol (text : rstr) : bool :=
  match List.filter (fun line => negb (is_empty line)) (lines text) with
  | [] => false
  | records => forallb porcelain_line records
  end.

(** The line of a checksum tool. *)
Definition is_digest_line (line : rstr) : bool :=
  match span is_whitespace line with
  | (_, []) => false
  | (digest, separator) =>
      existsb (Nat.eqb (blen digest)) [32; 40; 64; 128]%nat && forallb is_ascii_hexdigit digest
      && (starts_with (lit "  ") separator || starts_with (lit " *") separator)
  end.

(** What the guard asks outside itself: patterns on texts, with their first
    groups; the lower case; and the parser and the equality of JSON values. *)
Record Libraries (Num : Type) := {
  is_match : rstr -> rstr -> bool;
  captures_iter : rstr -> rstr -> list (option rstr);
  to_lowercase : rstr -> rstr;
  number_eqb : Num -> Num -> bool;
  from_str : rstr -> option (Value Num);
}.
Arguments is_match {Num}.
Arguments captures_iter {Num}.
Arguments to_lowercase {Num}.
Arguments number_eqb {Num}.
Arguments from_str {Num}.

Section Guard.
Context {Num : Type} (lib : Libraries Num).

Definition is_json (text : rstr) : bool := match from_str lib text with Some _ => true | None => false end.

Definition json_record_protocol (text : rstr) : bool :=
  if is_empty text then false
  else if is_json text then true
  else
    match List.filter (fun line => negb (is_blank line)) (lines text) with
    | [] => false
    | records => forallb is_json records
    end.

(** Re-rendered JSON is the same protocol. *)
Definition preserves_machine_protocol (raw filtered : rstr) : bool :=
  match from_str lib (trim raw), from_str lib (trim filtered) with
  | Some raw_value, Some filtered_value => value_eqb (number_eqb lib) raw_value filtered_value
  | _, _ => false
  end.

Definition exact_machine_protocol (text : rstr) : bool :=
  let trimmed := trim text in
  contains_char 0 text || json_record_protocol trimmed || csv_record_protocol trimmed || git_porcelain_protocol (trim_end text)
  || existsb is_digest_line (lines trimmed).

(** ** Failures *)

Definition has_failed_word (text : rstr) : bool :=
  existsb (fun group => match group with Some m => negb (str_eqb m (lit "0")) | None => true end)
    (captures_iter lib (lit "(?:(\d+)\s+)?failed\b") text).

Definition nonzero (noun : rstr) : rstr := lit "(?:^|[^0-9])[1-9]\d* " ++ noun.

Definition looks_failed (text : rstr) : bool :=
  let text := to_lowercase lib text in
  let found p := is_match lib p text in
  found (nonzero (lit "failed")) || found (nonzero (lit "errors")) || found (nonzero (lit "issues"))
  || found (nonzero (lit "warnings")) || found (nonzero (lit "problems"))
  || found (lit "\bfail\b") && negb (found (lit "\bfail\s*\(\s*0\s*\)"))
  || found (lit "\bfailures?\b") && negb (found (lit "\bfailures?\s*[:=]\s*0(?:\D|$)"))
  || found (lit "\berror\b")
  || found (lit "\b(?:panic(?:ked)?|exception|assertionerror|crashed)\b")
  || found (lit "needs? formatting|would (be )?reformat")
  || has_failed_word text.

(** A line of at most 512 characters, the first and the last 256 of a longer one. *)
Definition bounded_terminal_line (line : rstr) : rstr :=
  if (length line <=? 512)%nat then line
  else
    let head := take 256 line in
    let tail := drop (length line - 256) line in
    let omitted_bytes := (blen line - blen head - blen tail)%nat in
    head ++ lit " … " ++ dec (N.of_nat omitted_bytes)
      ++ lit " terminal bytes omitted; recover with HZR_RAW_FIDELITY=1 HZR_RAW_FIDELITY_REASON=complete_log hzr exec run '<command>' … " ++ tail.

(** The numbered lines from the number [index] on; [total] is the number of all. *)
Fixpoint numbered (total index : nat) (ls : list rstr) : rstr :=
  match ls with
  | [] => []
  | line :: ls =>
      let rendered := if (index + 1 =? total)%nat then bounded_terminal_line line else truncate line 120 in
      dec (N.of_nat (index + 1)) ++ lit ". " ++ rendered ++ [10] ++ numbered total (S index) ls
  end.

(** [exit_code.to_string()]. *)
Definition dec_i32 (n : Z) : rstr := (if (n <? 0)%Z then lit "-" else []) ++ dec (Z.abs_N n).

Definition failure_fallback (tool : rstr) (exit_code : Z) (output : rstr) : rstr :=
  let shown := List.filter (fun line => negb (is_empty line)) (map trim (lines output)) in
  let heading := tool ++ lit ": failed (exit " ++ dec_i32 exit_code ++ lit ")" in
  if is_nil shown then heading
  else
    let head_lines := ((CAP_ERRORS + 1) / 2)%nat in
    let tail_lines := (CAP_ERRORS / 2)%nat in
    let total := length shown in
    let omitted := (total - CAP_ERRORS)%nat in
    let head_end := Nat.min total head_lines in
    let tail_start := if (omitted =? 0)%nat then head_end else (total - tail_lines)%nat in
    trim (heading ++ [10] ++ numbered total 0 (take head_end shown)
          ++ (if (0 <? omitted)%nat then [10] ++ lit "… " ++ dec (N.of_nat omitted) ++ lit " output lines omitted …" ++ [10; 10] else [])
          ++ numbered total tail_start (drop tail_start shown)).

Definition guard_exit (raw : rstr) (exit_code : Z) (tool filtered : rstr) : rstr :=
  if (exit_code =? 0)%Z || looks_failed filtered then filtered else failure_fallback tool exit_code raw.

(** ** The guards *)

Definition loses_content (raw filtered : rstr) : bool := negb (is_blank raw) && is_blank filtered.
Definition costs_more (raw filtered : rstr) : bool := (estimate_tokens raw <? estimate_tokens filtered)%nat.
Definition loses_machine_protocol (raw filtered : rstr) : bool :=
  exact_machine_protocol raw && negb (str_eqb raw filtered) && negb (preserves_machine_protocol raw filtered).

Definition never_worse_summary (raw filtered : rstr) : rstr :=
  let loses_failure := looks_failed raw && negb (looks_failed filtered) in
  if loses_content raw filtered || loses_failure || costs_more raw filtered then raw else filtered.

Definition never_worse_rendered (raw filtered : rstr) : rstr :=
  if loses_content raw filtered || costs_more raw filtered then raw else filtered.

Definition never_worse (raw filtered : rstr) : rstr :=
  if loses_machine_protocol raw filtered then raw else never_worse_summary raw filtered.

Definition never_worse_content (raw filtered : rstr) : rstr :=
  if loses_machine_protocol raw filtered || loses_content raw filtered || costs_more raw filtered then raw else filtered.
End Guard.

(** ** What the guards promise *)

(** A filtered output that a guard may show: it does not hide everything, it is not
    longer, and it keeps the protocol and the failure where the guard asks for them. *)
Definition acceptable {Num} (lib : Libraries Num) (protocol failure : bool) (raw filtered : rstr) : Prop :=
  (trim raw <> [] -> trim filtered <> [])
  /\ (estimate_tokens filtered <= estimate_tokens raw)%nat
  /\ (protocol = true -> exact_machine_protocol lib raw = true -> raw = filtered \/ preserves_machine_protocol lib raw filtered = true)
  /\ (failure = true -> looks_failed lib raw = true -> looks_failed lib filtered = true).

(** The guard with the two checks as switches. *)
Definition guarded {Num} (lib : Libraries Num) (protocol failure : bool) (raw filtered : rstr) : rstr :=
  if (protocol && loses_machine_protocol lib raw filtered) || loses_content raw filtered
     || (failure && (looks_failed lib raw && negb (looks_failed lib filtered))) || costs_more raw filtered
  then raw else filtered.

Lemma is_blank_true s : is_blank s = true <-> trim s = [].
Proof. unfold is_blank. by destruct (trim s). Qed.

Lemma loses_content_false raw filtered : loses_content raw filtered = false <-> (trim raw <> [] -> trim filtered <> []).
Proof.
  unfold loses_content. rewrite andb_false_iff, negb_false_iff, <-!not_true_iff_false, !is_blank_true.
  destruct (decide (trim raw = [])); naive_solver.
Qed.

Lemma costs_more_false raw filtered : costs_more raw filtered = false <-> (estimate_tokens filtered <= estimate_tokens raw)%nat.
Proof. unfold costs_more. apply Nat.ltb_ge. Qed.

Lemma loses_machine_protocol_false {Num} (lib : Libraries Num) raw filtered :
  loses_machine_protocol lib raw filtered = false <->
  (exact_machine_protocol lib raw = true -> raw = filtered \/ preserves_machine_protocol lib raw filtered = true).
Proof.
  unfold loses_machine_protocol, str_eqb. destruct (exact_machine_protocol lib raw), (preserves_machine_protocol lib raw filtered);
    case_bool_decide; naive_solver.
Qed.

Lemma raw_is_acceptable {Num} (lib : Libraries Num) protocol failure raw : acceptable lib protocol failure raw raw.
Proof. unfold acceptable. auto. Qed.

Lemma guarded_spec {Num} (lib : Libraries Num) protocol failure raw filtered :
  let shown := guarded lib protocol failure raw filtered in
  (shown = filtered \/ shown = raw)
  /\ (acceptable lib protocol failure raw filtered -> shown = filtered)
  /\ acceptable lib protocol failure raw shown.
Proof.
  assert (guarded lib protocol failure raw filtered = raw
    \/ guarded lib protocol failure raw filtered = filtered /\ acceptable lib protocol failure raw filtered) as Hcases.
  - unfold guarded, acceptable. rewrite <-loses_content_false, <-costs_more_false, <-loses_machine_protocol_false.
    destruct protocol, failure, (loses_machine_protocol lib raw filtered), (loses_content raw filtered),
      (costs_more raw filtered), (looks_failed lib raw), (looks_failed lib filtered); simpl; naive_solver.
  - split; [|split].
    + destruct Hcases as [ ->|[-> _]]; auto.
    + unfold guarded, acceptable. rewrite <-loses_content_false, <-costs_more_false, <-loses_machine_protocol_false.
      destruct protocol, failure, (loses_machine_protocol lib raw filtered), (loses_content raw filtered),
        (costs_more raw filtered), (looks_failed lib raw), (looks_failed lib filtered); simpl; naive_solver.
    + destruct Hcases as [ ->|[-> Hok]]; [apply raw_is_acceptable|done].
Qed.

Lemma guards_are_guarded {Num} (lib : Libraries Num) raw filtered :
  never_worse lib raw filtered = guarded lib true true raw filtered
  /\ never_worse_content lib raw filtered = guarded lib true false raw filtered
  /\ never_worse_summary lib raw filtered = guarded lib false true raw filtered
  /\ never_worse_rendered raw filtered = guarded lib false false raw filtered.
Proof.
  unfold never_worse, never_worse_content, never_worse_summary, never_worse_rendered, guarded.
  destruct (loses_machine_protocol lib raw filtered), (loses_content raw filtered), (costs_more raw filtered),
    (looks_failed lib raw), (looks_failed lib filtered); simpl; auto.
Qed.

(** Every guard shows the filtered output or the raw one, and the filtered one
    whenever it is acceptable: where the raw output is not blank the shown one is not,
    it has no more tokens, and, as the guard at hand asks, a machine protocol is kept
    (the same text or the same JSON value) and an output that reads as a failure still
    does. *)
Theorem guards_are_never_worse {Num} (lib : Libraries Num) raw filtered :
  Forall (fun '(shown, protocol, failure) =>
            (shown = filtered \/ shown = raw)
            /\ (acceptable lib protocol failure raw filtered -> shown = filtered)
            /\ acceptable lib protocol failure raw shown)
    [(never_worse lib raw filtered, true, true); (never_worse_content lib raw filtered, true, false);
     (never_worse_summary lib raw filtered, false, true); (never_worse_rendered raw filtered, false, false)].
Proof.
  destruct (guards_are_guarded lib raw filtered) as (-> & -> & -> & ->).
  repeat (apply Forall_cons; split; [apply guarded_spec|]). by apply Forall_nil.
Qed.

(** ** A failure reads as a failure *)

Lemma skip_while_stops f a c s : f c = false -> exists a', skip_while f (a ++ c :: s) = a' ++ c :: s.
Proof.
  intros Hc. induction a as [|x a IH]; simpl; [rewrite Hc; by exists []|].
  destruct (f x); [done|]. by exists (x :: a).
Qed.

(** Trimming a text keeps a mark that begins and ends with other characters than white space. *)
Lemma trim_keeps_mark a c m d b : is_whitespace c = false -> is_whitespace d = false ->
  exists a' b', trim (a ++ c :: m ++ d :: b) = a' ++ c :: m ++ d :: b'.
Proof.
  intros Hc Hd. unfold trim, trim_start.
  destruct (skip_while_stops is_whitespace a c (m ++ d :: b) Hc) as [a' ->]. exists a'.
  unfold trim_end, trim_end_matches.
  assert (reverse (a' ++ c :: m ++ d :: b) = reverse b ++ d :: reverse (a' ++ c :: m)) as ->.
  { rewrite <- !reverse_snoc, <- !reverse_app. f_equal. rewrite <- !app_assoc. by simpl. }
  destruct (skip_while_stops is_whitespace (reverse b) d (reverse (a' ++ c :: m)) Hd) as [b' ->].
  exists (reverse b'). rewrite reverse_app, reverse_cons, reverse_involutive, <- !app_assoc. done.
Qed.

(** What is relied on of the lower case and of the pattern of [has_failed_word]: the
    mark of a fallback is there in lower case, and its word is a match without a
    count, since a colon and a space precede it. *)
Definition failed_mark : rstr := lit ": failed (exit".

Definition lower_keeps_mark {Num} (lib : Libraries Num) : Prop :=
  forall a b, exists a' b', to_lowercase lib (a ++ failed_mark ++ b) = a' ++ failed_mark ++ b'.

Definition failed_word_is_found {Num} (lib : Libraries Num) : Prop :=
  forall a b, None ∈ captures_iter lib (lit "(?:(\d+)\s+)?failed\b") (a ++ failed_mark ++ b).

Lemma trimmed_heading tool n rest :
  exists a b, trim ((tool ++ lit ": failed (exit " ++ n) ++ rest) = a ++ failed_mark ++ b.
Proof.
  destruct (trim_keeps_mark tool (ch ":") (lit " failed (exi") (ch "t") ([32] ++ n ++ rest)) as (a & b & H); [done..|].
  exists a, b. rewrite <- !app_assoc. exact H.
Qed.

Lemma failure_fallback_marked tool exit_code output : exists a b, failure_fallback tool exit_code output = a ++ failed_mark ++ b.
Proof.
  unfold failure_fallback. destruct (is_nil _); [|apply trimmed_heading].
  by exists tool, ([32] ++ dec_i32 exit_code ++ lit ")").
Qed.

Lemma mark_looks_failed {Num} (lib : Libraries Num) a b :
  lower_keeps_mark lib -> failed_word_is_found lib -> looks_failed lib (a ++ failed_mark ++ b) = true.
Proof.
  intros Hl Hf. unfold looks_failed. destruct (Hl a b) as (a' & b' & ->). rewrite orb_true_iff. right.
  unfold has_failed_word. apply existsb_exists. exists None. split; [|done]. apply list_elem_of_In, Hf.
Qed.

(** Whatever a filter makes of the output of a command that failed, what is shown
    reads as a failure; the output of a command that succeeded is shown as the filter
    made it. *)
Theorem failures_read_as_failures {Num} (lib : Libraries Num) raw exit_code tool filtered :
  lower_keeps_mark lib -> failed_word_is_found lib ->
  if (exit_code =? 0)%Z then guard_exit lib raw exit_code tool filtered = filtered
  else looks_failed lib (guard_exit lib raw exit_code tool filtered) = true.
Proof.
  intros Hl Hf. unfold guard_exit. destruct (exit_code =? 0)%Z; [done|]. simpl.
  destruct (looks_failed lib filtered) eqn:E; [done|].
  destruct (failure_fallback_marked tool exit_code raw) as (a & b & ->). by apply mark_looks_failed.
Qed.

(** A library with ASCII's lower case, which knows the mark only. *)
Definition mark_library : Libraries N := {|
  is_match p s := false;
  captures_iter p s := if contains failed_mark s then [None] else [];
  to_lowercase s := map (fun c => if is_ascii_uppercase c then c + 32 else c) s;
  number_eqb := N.eqb;
  from_str s := None;
|}.

Lemma failures_read_as_failures_witness :
  looks_failed mark_library (lit "All files formatted") = false
  /\ guard_exit mark_library (lit "boom") 2 (lit "Ruff") (lit "All files formatted") = lit "Ruff: failed (exit 2)" ++ [10] ++ lit "1. boom"
  /\ looks_failed mark_library (guard_exit mark_library (lit "boom") 2 (lit "Ruff") (lit "All files formatted")) = true.
Proof.
  split; [vm_compute; reflexivity|split; [vm_compute; reflexivity|]].
  apply (failures_read_as_failures mark_library (lit "boom") 2 (lit "Ruff") (lit "All files formatted")).
  - intros a b. exists (to_lowercase mark_library a), (to_lowercase mark_library b). cbn. rewrite !map_app. done.
  - intros a b. cbn [captures_iter mark_library]. destruct (split_once_complete failed_mark a b) as [s Hs].
    unfold contains. rewrite Hs. left.
Defined.
End Guard.
