(* ===== verification/Filter.v ===== *)
(** The declarative output filters ([fork-core/rtk/src/toml_filter.rs]): what a TOML
    filter is, how it is compiled and found, its pipeline of eight stages, and what the
    pipeline tells of its losses; [utils::strip_ansi].

    The regex crate and the TOML parser are parameters. *)

From S2P Require Import Prelude RStr Guard.
From Stdlib Require Import ZifyBool ZifyN ZifyNat.

Module Filter.

(** ** ANSI codes *)

(** What follows the code that [text] begins with: [\x1b\[[0-9;]*[a-zA-Z]]. *)
Definition ansi_code (text : rstr) : option rstr :=
  rest ← strip_prefix [27; ch "["] text;
  match skip_while (fun c => is_ascii_digit c || (c =? ch ";")) rest with
  | c :: rest => if is_ascii_alphabetic c then Some rest else None
  | [] => None
  end.

Fixpoint strip_ansi_fuel (fuel : nat) (text : rstr) : rstr :=
  match fuel, text with
  | S fuel, c :: rest =>
      match ansi_code text with
      | Some rest => strip_ansi_fuel fuel rest
      | None => c :: strip_ansi_fuel fuel rest
      end
  | _, _ => []
  end.

(** [utils::strip_ansi]. *)
Definition strip_ansi (text : rstr) : rstr := strip_ansi_fuel (length text) text.

(** ** The filters of a file *)

Record MatchOutputRule := { mo_pattern : rstr; mo_message : rstr; mo_unless : option rstr }.
Record ReplaceRule := { rr_pattern : rstr; rr_replacement : rstr }.

Record TomlFilterTestDef := { t_name : rstr; t_input : rstr; t_expected : rstr }.

Record TomlFilterDef := {
  description : option rstr;
  match_command : rstr;
  d_strip_ansi : bool;
  d_replace : list ReplaceRule;
  d_match_output : list MatchOutputRule;
  strip_lines_matching : list rstr;
  keep_lines_matching : list rstr;
  d_truncate_lines_at : option nat;
  d_head_lines : option nat;
  d_tail_lines : option nat;
  d_max_lines : option nat;
  d_on_empty : option rstr;
  d_filter_stderr : bool;
  d_pass_through_if_args : list rstr;
}.

(** A [BTreeMap] is the list of its entries in the order of the keys. *)
Record TomlFilterFile := {
  schema_version : N;
  filters : list (rstr * TomlFilterDef);
  tests : list (rstr * list TomlFilterTestDef);
}.

(** The regex crate and the TOML parser: errors are their texts. *)
Record Outside (Regex RegexSet : Type) := {
  regex_new : rstr -> result rstr Regex;
  regex_set_new : list rstr -> result rstr RegexSet;
  is_match : Regex -> rstr -> bool;
  set_is_match : RegexSet -> rstr -> bool;
  replace_all : Regex -> rstr -> rstr -> rstr;
  toml_from_str : rstr -> result rstr TomlFilterFile;
}.
Arguments regex_new {Regex RegexSet}.
Arguments regex_set_new {Regex RegexSet}.
Arguments is_match {Regex RegexSet}.
Arguments set_is_match {Regex RegexSet}.
Arguments replace_all {Regex RegexSet}.
Arguments toml_from_str {Regex RegexSet}.

(** ** Compiled filters *)

Record CompiledMatchOutputRule Regex := { pattern : Regex; message : rstr; unless : option Regex }.
Arguments pattern {Regex}.
Arguments message {Regex}.
Arguments unless {Regex}.

Record CompiledReplaceRule Regex := { replaced : Regex; replacement : rstr }.
Arguments replaced {Regex}.
Arguments replacement {Regex}.

Inductive LineFilter RegexSet := AllLines | Strip (set : RegexSet) | Keep (set : RegexSet).
Arguments AllLines {RegexSet}.
Arguments Strip {RegexSet}.
Arguments Keep {RegexSet}.

Record CompiledFilter Regex RegexSet := {
  name : rstr;
  filter_description : option rstr;
  match_regex : Regex;
  strips_ansi : bool;
  replace : list (CompiledReplaceRule Regex);
  match_output : list (CompiledMatchOutputRule Regex);
  line_filter : LineFilter RegexSet;
  truncate_lines_at : option nat;
  head_lines : option nat;
  tail_lines : option nat;
  max_lines : option nat;
  on_empty : option rstr;
  filter_stderr : bool;
  pass_through_if_args : list rstr;
}.
Arguments name {Regex RegexSet}.
Arguments match_regex {Regex RegexSet}.
Arguments strips_ansi {Regex RegexSet}.
Arguments replace {Regex RegexSet}.
Arguments match_output {Regex RegexSet}.
Arguments line_filter {Regex RegexSet}.
Arguments truncate_lines_at {Regex RegexSet}.
Arguments head_lines {Regex RegexSet}.
Arguments tail_lines {Regex RegexSet}.
Arguments max_lines {Regex RegexSet}.
Arguments on_empty {Regex RegexSet}.
Arguments filter_stderr {Regex RegexSet}.
Arguments pass_through_if_args {Regex RegexSet}.

(** An argument that a filter must not touch: the prefix is there, or the letter of a
    short option is in the cluster. *)
Definition passes_through (needle arg : rstr) : bool :=
  starts_with needle arg
  || match strip_prefix (lit "-") needle with
     | Some c =>
         negb (starts_with (lit "--") needle) && (length c =? 1)%nat
         && starts_with (lit "-") arg && negb (starts_with (lit "--") arg) && contains c (drop 1 arg)
     | None => false
     end.

Definition should_pass_through {Regex RegexSet} (filter : CompiledFilter Regex RegexSet) (args : list rstr) : bool :=
  existsb (fun needle => existsb (passes_through needle) args) (pass_through_if_args filter).

(** ** Anchors *)

(** The loop of [strip_inline_flags]: every turn takes a group. *)
Fixpoint strip_inline_flags_fuel (fuel : nat) (rest : rstr) : rstr :=
  match fuel, strip_prefix (lit "(?") rest with
  | S fuel, Some after =>
      match split_once (lit ")") after with
      | Some (flags, rest') =>
          if forallb (fun b => is_ascii_alphabetic b || (b =? ch "-")) (utf8 flags) then strip_inline_flags_fuel fuel rest' else rest
      | None => rest
      end
  | _, _ => rest
  end.

Definition strip_inline_flags (pattern : rstr) : rstr := strip_inline_flags_fuel (length pattern) pattern.

(** The scan of [top_level_branches]: [branch] is [&pattern[start..i]], backwards.  The
    source scans bytes; those of a longer character are none of the marks. *)
Fixpoint branches_from (depth : nat) (in_class escaped : bool) (branch : rstr) (s : rstr) : list rstr :=
  match s with
  | [] => [reverse branch]
  | c :: s =>
      let go := fun depth in_class escaped => branches_from depth in_class escaped (c :: branch) s in
      if escaped then go depth in_class false
      else if c =? ch "\" then go depth in_class true
      else if (c =? ch "[") && negb in_class then go depth true false
      else if (c =? ch "]") && in_class then go depth false false
      else if (c =? ch "(") && negb in_class then go (S depth) in_class false
      else if (c =? ch ")") && negb in_class then go (pred depth) in_class false
      else if (c =? ch "|") && negb in_class && (depth =? 0)%nat then reverse branch :: branches_from depth in_class false [] s
      else go depth in_class false
  end.

Definition top_level_branches (pattern : rstr) : list rstr := branches_from 0 false false [] pattern.

Definition is_fully_anchored (pattern : rstr) : bool :=
  forallb (fun branch => starts_with (lit "^") (strip_inline_flags branch)) (top_level_branches (strip_inline_flags pattern)).

Section Filter.
Context {Regex RegexSet : Type} (out : Outside Regex RegexSet).
Abbreviation Compiled := (CompiledFilter Regex RegexSet) (only parsing).

(** [Result::map_err] with a heading. *)
Definition headed {A} (heading : rstr) (r : result rstr A) : result rstr A :=
  match r with Ok a => Ok a | Err e => Err (heading ++ e) end.

(** [collect::<Result<Vec<_>, _>>()]: the first error, or all the values. *)
Fixpoint collect {A B} (f : A -> result rstr B) (l : list A) : result rstr (list B) :=
  match l with
  | [] => Ok []
  | a :: l => b ← f a; bs ← collect f l; Ok (b :: bs)
  end.

Definition compile_replace (r : ReplaceRule) : result rstr (CompiledReplaceRule Regex) :=
  pattern ← headed (lit "invalid replace pattern '" ++ rr_pattern r ++ lit "': ") (regex_new out (rr_pattern r));
  Ok {| replaced := pattern; replacement := rr_replacement r |}.

Definition compile_match_output (r : MatchOutputRule) : result rstr (CompiledMatchOutputRule Regex) :=
  pattern ← headed (lit "invalid match_output pattern '" ++ mo_pattern r ++ lit "': ") (regex_new out (mo_pattern r));
  unless ← match mo_unless r with
           | Some u => unless ← headed (lit "invalid match_output unless pattern '" ++ u ++ lit "': ") (regex_new out u); Ok (Some unless)
           | None => Ok None
           end;
  Ok {| pattern := pattern; message := mo_message r; unless := unless |}.

Definition compile_line_filter (def : TomlFilterDef) : result rstr (LineFilter RegexSet) :=
  if negb (is_nil (strip_lines_matching def)) then
    set ← headed (lit "invalid strip_lines_matching regex: ") (regex_set_new out (strip_lines_matching def)); Ok (Strip set)
  else if negb (is_nil (keep_lines_matching def)) then
    set ← headed (lit "invalid keep_lines_matching regex: ") (regex_set_new out (keep_lines_matching def)); Ok (Keep set)
  else Ok AllLines.

(** The warning about a command that a Rust module takes is printed only. *)
Definition compile_filter (name : rstr) (def : TomlFilterDef) : result rstr Compiled :=
  _ ← guard_err (negb (is_nil (strip_lines_matching def)) && negb (is_nil (keep_lines_matching def)))
        (lit "strip_lines_matching and keep_lines_matching are mutually exclusive");
  _ ← guard_err (negb (is_fully_anchored (match_command def)))
        (lit "match_command '" ++ match_command def ++ lit "' must anchor every alternative with '^'");
  match_regex ← headed (lit "invalid match_command regex: ") (regex_new out (match_command def));
  replace ← collect compile_replace (d_replace def);
  match_output ← collect compile_match_output (d_match_output def);
  line_filter ← compile_line_filter def;
  Ok {| name := name; filter_description := description def; match_regex := match_regex; strips_ansi := d_strip_ansi def;
        replace := replace; match_output := match_output; line_filter := line_filter;
        truncate_lines_at := d_truncate_lines_at def; head_lines := d_head_lines def; tail_lines := d_tail_lines def;
        max_lines := d_max_lines def; on_empty := d_on_empty def; filter_stderr := d_filter_stderr def;
        pass_through_if_args := d_pass_through_if_args def |}.

(** [TomlFilterRegistry::parse_and_compile]: a filter that does not compile is left
    out, with a warning. *)
Definition parse_and_compile (content source : rstr) : result rstr (list Compiled) :=
  file ← headed (lit "TOML parse error in " ++ source ++ lit ": ") (toml_from_str out content);
  if negb (schema_version file =? 1) then
    Err (lit "unsupported schema_version " ++ dec (schema_version file) ++ lit " in " ++ source ++ lit " (expected 1)")
  else Ok (omap (fun '(name, def) => match compile_filter name def with Ok f => Some f | Err _ => None end) (filters file)).

Definition find_filter_in (command : rstr) (filters : list Compiled) : option Compiled :=
  List.find (fun f => is_match out (match_regex f) command) filters.

(** ** The pipeline *)

Inductive Lossiness :=
| NoLoss
| Tail (tee_payload : rstr) (tail_offset : nat)
| Whole.

Definition lines_omitted (n : nat) : rstr := lit "... (" ++ dec (N.of_nat n) ++ lit " lines omitted)".
Definition lines_truncated (n : nat) : rstr := lit "... (" ++ dec (N.of_nat n) ++ lit " lines truncated)".

Definition join_lines (lines : list rstr) : rstr := join [10] lines.

(** Stages 1 and 2. *)
Definition stripped (filter : Compiled) (lines : list rstr) : list rstr :=
  if strips_ansi filter then map strip_ansi lines else lines.

Definition replace_line (rules : list (CompiledReplaceRule Regex)) (line : rstr) : rstr :=
  fold_left (fun line rule => replace_all out (replaced rule) line (replacement rule)) rules line.

Definition replaced_lines (filter : Compiled) (lines : list rstr) : list rstr :=
  if is_nil (replace filter) then lines else map (replace_line (replace filter)) lines.

(** Stage 3: the first rule that matches, unless its exception does. *)
Definition rule_applies (blob : rstr) (rule : CompiledMatchOutputRule Regex) : bool :=
  is_match out (pattern rule) blob
  && match unless rule with Some unless_re => negb (is_match out unless_re blob) | None => true end.

Definition matched_output (filter : Compiled) (lines : list rstr) : option rstr :=
  if is_nil (match_output filter) then None
  else
    let blob := join_lines lines in
    option_map message (List.find (rule_applies blob) (match_output filter)).

(** Stage 4. *)
Definition retained (filter : Compiled) (lines : list rstr) : list rstr :=
  match line_filter filter with
  | Strip set => List.filter (fun l => negb (set_is_match out set l)) lines
  | Keep set => List.filter (set_is_match out set) lines
  | AllLines => lines
  end.

(** Stage 5, and whether a line has lost something. *)
Definition truncated (filter : Compiled) (lines : list rstr) : list rstr * bool :=
  match truncate_lines_at filter with
  | Some max_chars =>
      let result := map (fun line => Guard.truncate line max_chars) lines in
      (result, existsb (fun '(line, truncated) => negb (str_eqb truncated line)) (combine lines result))
  | None => (lines, false)
  end.

(** Stage 6: the lines, where the head was cut, and whether lines were dropped
    elsewhere. *)
Definition head_and_tail (filter : Compiled) (lines : list rstr) : list rstr * option nat * bool :=
  let total := length lines in
  match head_lines filter, tail_lines filter with
  | Some head, Some tail =>
      if (head + tail <? total)%nat then
        (take head lines ++ [lines_omitted (total - head - tail)] ++ drop (total - tail) lines, None, true)
      else (lines, None, false)
  | Some head, None =>
      if (head <? total)%nat then (take head lines ++ [lines_omitted (total - head)], Some head, false) else (lines, None, false)
  | None, Some tail =>
      if (tail <? total)%nat then
        let omitted := (total - tail)%nat in
        (lines_omitted omitted :: drop omitted lines, None, true)
      else (lines, None, false)
  | None, None => (lines, None, false)
  end.

(** Stage 7. *)
Definition capped (filter : Compiled) (lines : list rstr) : list rstr * option nat :=
  match max_lines filter with
  | Some max =>
      if (max <? length lines)%nat then (take max lines ++ [lines_truncated (length lines - max)], Some max) else (lines, None)
  | None => (lines, None)
  end.

(** What was lost, from the cuts and the lines before them. *)
Definition loss_of (pre_cut : option (list rstr)) (noncontiguous_drop intra_line_loss : bool) (head_cut max_cut : option nat) : Lossiness :=
  match pre_cut with
  | Some snapshot =>
      match head_cut, max_cut with
      | Some _, Some _ => Whole
      | Some head, None => Tail (join_lines snapshot) (head + 1)
      | None, Some max => Tail (join_lines snapshot) (max + 1)
      | None, None => NoLoss
      end
  | None =>
      if noncontiguous_drop || intra_line_loss || bool_decide (is_Some head_cut) || bool_decide (is_Some max_cut) then Whole else NoLoss
  end.

(** Stages 5 to 8, on the lines that the filter keeps. *)
Definition shown_with_loss (filter : Compiled) (lines : list rstr) : rstr * Lossiness :=
  let '(lines, intra_line_loss) := truncated filter lines in
  let snapshot_for_tail :=
    negb intra_line_loss && negb (bool_decide (is_Some (tail_lines filter)))
    && (bool_decide (is_Some (head_lines filter)) || bool_decide (is_Some (max_lines filter))) in
  let pre_cut := if snapshot_for_tail then Some lines else None in
  let '(lines, head_cut, noncontiguous_drop) := head_and_tail filter lines in
  let '(lines, max_cut) := capped filter lines in
  let result := join_lines lines in
  let loss := loss_of pre_cut noncontiguous_drop intra_line_loss head_cut max_cut in
  match (if is_empty (trim result) then on_empty filter else None) with
  | Some msg => (msg, NoLoss)
  | None => (result, loss)
  end.

Definition apply_filter_with_info (filter : Compiled) (stdout : rstr) : rstr * Lossiness :=
  let rewritten := replaced_lines filter (stripped filter (lines stdout)) in
  match matched_output filter rewritten with
  | Some message => (message, Whole)
  | None => shown_with_loss filter (retained filter rewritten)
  end.

Definition apply_filter (filter : Compiled) (stdout : rstr) : rstr := (apply_filter_with_info filter stdout).1.

(** ** The tests of a file *)

Record TestOutcome := { o_filter_name : rstr; o_test_name : rstr; passed : bool; actual : rstr; expected : rstr }.

(** The accumulators of [collect_test_outcomes]. *)
Record Verification := { outcomes : list TestOutcome; all_filter_names : list rstr; tested_filter_names : gset rstr }.

Definition run_test (filter_name : rstr) (compiled : Compiled) (test : TomlFilterTestDef) : TestOutcome :=
  let actual_cmp := trim_end_matches (N.eqb 10) (apply_filter compiled (t_input test)) in
  let expected_cmp := trim_end_matches (N.eqb 10) (t_expected test) in
  {| o_filter_name := filter_name; o_test_name := t_name test; passed := str_eqb actual_cmp expected_cmp;
     actual := actual_cmp; expected := expected_cmp |}.

(** [filter_name_opt.is_none_or(..)]. *)
Definition is_requested (filter_name_opt : option rstr) (name : rstr) : bool :=
  match filter_name_opt with Some f => str_eqb name f | None => true end.

Definition collect_test_outcomes (content : rstr) (filter_name_opt : option rstr) (v : Verification) : Verification :=
  match toml_from_str out content with
  | Err _ => v
  | Ok file =>
      let compiled_filters : list (rstr * Compiled) :=
        omap (fun '(name, def) => match compile_filter name def with Ok f => Some (name, f) | Err _ => None end) (filters file) in
      let v := {| outcomes := outcomes v; all_filter_names := all_filter_names v ++ map fst (filters file);
                  tested_filter_names := tested_filter_names v |} in
      fold_left (fun v '(filter_name, tests) =>
        if negb (is_requested filter_name_opt filter_name) then v
        else
          {| outcomes := outcomes v ++
               match List.find (fun '(name, _) => str_eqb name filter_name) compiled_filters with
               | Some (_, compiled) => map (run_test filter_name compiled) tests
               | None => []
               end;
             all_filter_names := all_filter_names v;
             tested_filter_names := {[filter_name]} ∪ tested_filter_names v |}) (tests file) v
  end.

Record VerifyResults := { verified : list TestOutcome; filters_without_tests : list rstr }.

(** [project] is the content of a project's filters where it is there and trusted. *)
Definition run_filter_tests (builtin : rstr) (project : option rstr) (filter_name_opt : option rstr) : VerifyResults :=
  let v := collect_test_outcomes builtin filter_name_opt {| outcomes := []; all_filter_names := []; tested_filter_names := ∅ |} in
  let v := match project with Some content => collect_test_outcomes content filter_name_opt v | None => v end in
  {| verified := outcomes v;
     filters_without_tests :=
       List.filter (fun name => is_requested filter_name_opt name && negb (bool_decide (name ∈ tested_filter_names v))) (all_filter_names v) |}.
End Filter.

(** ** Lines stay lines *)

Definition no_line_feed (s : rstr) : Prop := contains_char 10 s = false.

Lemma split_char_pieces c s : Forall (fun w => contains_char c w = false) (split_char (N.eqb c) s).
Proof.
  induction s as [|d s IH]; simpl; [by repeat constructor|]. destruct (c =? d) eqn:E; [by constructor|].
  destruct (split_char (N.eqb c) s) as [|w ws]; [by repeat constructor; unfold contains_char; simpl; rewrite E|].
  inversion_clear IH. constructor; [by unfold contains_char; simpl; rewrite E|done].
Qed.

Lemma strip_cr_keeps s : no_line_feed s -> no_line_feed (strip_cr s).
Proof.
  intros H. unfold strip_cr. destruct (strip_suffix [13] s) as [t|] eqn:E; [|done].
  apply strip_suffix_Some in E as ->. unfold no_line_feed in *. rewrite contains_char_app in H. by apply orb_false_iff in H as [H _].
Qed.

Lemma lines_are_lines s : Forall no_line_feed (lines s).
Proof.
  unfold lines. pose proof (split_char_pieces 10 s) as H.
  destruct (split_char (N.eqb 10) s) as [|w ws] using rev_ind; [constructor|].
  rewrite removelast_last, last_last. apply Forall_app in H as [Hws Hw]. apply Forall_app. split.
  - apply Forall_map. eapply Forall_impl; [exact Hws|]. exact strip_cr_keeps.
  - destruct (is_empty w); [constructor|]. inversion_clear Hw. by repeat constructor.
Qed.

Lemma skip_while_keeps c f s : contains_char c s = false -> contains_char c (skip_while f s) = false.
Proof.
  intros H. destruct (skip_while_suffix f s) as (w & Hw & _). rewrite Hw, contains_char_app in H. by apply orb_false_iff in H as [_ H].
Qed.

Lemma ansi_code_suffix s rest : ansi_code s = Some rest -> exists w, s = w ++ rest /\ w <> [].
Proof.
  unfold ansi_code. destruct (strip_prefix _ s) as [t|] eqn:E; [|done]. cbv [mbind option_bind].
  apply strip_prefix_Some in E as ->. destruct (skip_while_suffix (fun c => is_ascii_digit c || (c =? ch ";")) t) as (w & Hw & _).
  destruct (skip_while _ t) as [|c u]; [done|]. destruct (is_ascii_alphabetic c); [|done]. intros [= <-].
  exists ([27; ch "["] ++ w ++ [c]). split; [|done]. rewrite Hw, <- !app_assoc. done.
Qed.

(** Taking the codes away leaves a part of the characters, in their order. *)
Lemma strip_ansi_sublist s : strip_ansi s `sublist_of` s.
Proof.
  unfold strip_ansi. assert (forall n s, strip_ansi_fuel n s `sublist_of` s) as H; [|apply H].
  clear s. induction n as [|n IH]; intros s; [apply sublist_nil_l|]. destruct s as [|c s]; [done|]. cbn [strip_ansi_fuel].
  destruct (ansi_code (c :: s)) as [rest|] eqn:E; [|by apply sublist_skip].
  apply ansi_code_suffix in E as (w & -> & _). etransitivity; [apply IH|]. by apply sublist_inserts_l.
Qed.

Lemma sublist_keeps c s t : s `sublist_of` t -> contains_char c t = false -> contains_char c s = false.
Proof.
  unfold contains_char. induction 1 as [|x s t _ IH|x s t _ IH]; simpl; [done| |]; intros [Hx Ht]%orb_false_iff; rewrite ?Hx; auto.
Qed.

Section Lines.
Context {Regex RegexSet : Type} (out : Outside Regex RegexSet).

(** What is relied on of [replace_all]: what it gives is made of pieces of the line and
    of the replacement. *)
Definition replacing_keeps_lines : Prop :=
  forall re line r, no_line_feed line -> no_line_feed r -> no_line_feed (replace_all out re line r).

Definition replacements_are_lines (filter : CompiledFilter Regex RegexSet) : Prop :=
  Forall (fun rule => no_line_feed (replacement rule)) (replace filter).

(** The lines that reach the stages that cut. *)
Definition kept_lines (filter : CompiledFilter Regex RegexSet) (stdout : rstr) : list rstr :=
  retained out filter (replaced_lines out filter (stripped filter (lines stdout))).

Lemma replace_line_keeps rules line : replacing_keeps_lines ->
  Forall (fun rule => no_line_feed (replacement rule)) rules -> no_line_feed line -> no_line_feed (replace_line out rules line).
Proof.
  intros Hlaw Hrules. revert line. unfold replace_line. induction Hrules as [|rule rules Hr _ IH]; intros line Hl; [done|].
  simpl. apply IH. by apply Hlaw.
Qed.

Lemma Forall_retained P filter ls : Forall P ls -> Forall P (retained out filter ls).
Proof.
  intros H. unfold retained. rewrite !Forall_forall in *. intros l Hl. apply H.
  destruct (line_filter filter); [done|..]; rewrite list_elem_of_In in *; by apply List.filter_In in Hl as [? _].
Qed.

Lemma kept_lines_are_lines filter stdout : replacing_keeps_lines -> replacements_are_lines filter ->
  Forall no_line_feed (kept_lines filter stdout).
Proof.
  intros Hlaw Hrules. apply Forall_retained. unfold replaced_lines, stripped.
  assert (Forall no_line_feed (if strips_ansi filter then map strip_ansi (lines stdout) else lines stdout)) as H.
  { destruct (strips_ansi filter); [|apply lines_are_lines]. apply Forall_map. eapply Forall_impl; [apply lines_are_lines|].
    intros l. apply sublist_keeps, strip_ansi_sublist. }
  destruct (is_nil (replace filter)); [done|]. apply Forall_map. eapply Forall_impl; [exact H|]. intros l. by apply replace_line_keeps.
Qed.
End Lines.

(** ** What the stages lose *)

(** [tail -n +offset] of a file: the lines from the one numbered [offset] on. *)
Definition tail_from (offset : nat) (content : rstr) : list rstr := drop (offset - 1) (split_char (N.eqb 10) content).

Section Losses.
Context {Regex RegexSet : Type} (filter : CompiledFilter Regex RegexSet).
Implicit Types ls : list rstr.

(** Where nothing is cut from a line, every line is what it was. *)
Lemma truncated_id ls : (truncated filter ls).2 = false -> (truncated filter ls).1 = ls.
Proof.
  unfold truncated. destruct (truncate_lines_at filter) as [n|]; [|done]. cbn [fst snd].
  induction ls as [|l ls IH]; [done|]. simpl. intros [Hl H]%orb_false_iff. rewrite IH by done.
  apply negb_false_iff in Hl. unfold str_eqb in Hl. apply bool_decide_eq_true in Hl. by rewrite Hl.
Qed.

Lemma head_and_tail_spec ls : let '(ls', head_cut, noncontiguous) := head_and_tail filter ls in
  match head_cut, noncontiguous with
  | None, false => ls' = ls
  | None, true => is_Some (tail_lines filter) /\ exists n, lines_omitted n ∈ ls'
  | Some n, b => b = false /\ (n < length ls)%nat /\ ls' = take n ls ++ [lines_omitted (length ls - n)]
  end.
Proof.
  unfold head_and_tail. destruct (head_lines filter) as [head|], (tail_lines filter) as [tail|]; simpl; try done.
  - destruct (Nat.ltb_spec (head + tail) (length ls)); [|done]. split; [done|]. eexists. apply elem_of_app. right. by left.
  - by destruct (Nat.ltb_spec head (length ls)).
  - destruct (Nat.ltb_spec tail (length ls)); [|done]. split; [done|]. eexists. by left.
Qed.

Lemma capped_spec ls : let '(ls', max_cut) := capped filter ls in
  match max_cut with
  | None => ls' = ls
  | Some n => (n < length ls)%nat /\ ls' = take n ls ++ [lines_truncated (length ls - n)]
  end.
Proof. unfold capped. destruct (max_lines filter) as [max|]; [|done]. by destruct (Nat.ltb_spec max (length ls)). Qed.

Lemma join_lines_snoc ls l : join_lines (ls ++ [l]) = match ls with [] => l | _ => join_lines ls ++ [10] ++ l end.
Proof.
  unfold join_lines. induction ls as [|w ls IH]; [done|]. destruct ls as [|w' ls]; [done|].
  change (join [10] ((w :: w' :: ls) ++ [l])) with (w ++ [10] ++ join [10] ((w' :: ls) ++ [l])). rewrite IH.
  change (join [10] (w :: w' :: ls)) with (w ++ [10] ++ join [10] (w' :: ls)). by rewrite <- !app_assoc.
Qed.

Lemma truncate_blank l n : forallb is_whitespace (Guard.truncate l n) = true -> Guard.truncate l n = l.
Proof.
  unfold Guard.truncate. destruct (n <? 3)%nat; [done|]. destruct (n <? length l)%nat; [|done].
  by rewrite forallb_app, andb_false_r.
Qed.

Lemma truncated_blank ls : forallb (forallb is_whitespace) (truncated filter ls).1 = true -> (truncated filter ls).1 = ls.
Proof.
  unfold truncated. destruct (truncate_lines_at filter) as [n|]; [|done]. cbn [fst].
  induction ls as [|l ls IH]; [done|]. simpl. intros [Hl H]%andb_true_iff. by rewrite IH, truncate_blank.
Qed.

Lemma join_lines_blank ls : forallb is_whitespace (join_lines ls) = forallb (forallb is_whitespace) ls.
Proof.
  unfold join_lines. induction ls as [|l ls IH]; [done|]. destruct ls as [|l' ls]; [simpl; by rewrite andb_true_r|].
  change (join [10] (l :: l' :: ls)) with (l ++ [10] ++ join [10] (l' :: ls)). by rewrite !forallb_app, IH.
Qed.

Lemma forallb_elem {A} (f : A -> bool) l x : x ∈ l -> forallb f l = true -> f x = true.
Proof. rewrite list_elem_of_In. intros Hx H. rewrite forallb_forall in H. auto. Qed.

(** Where what is left is blank, nothing was cut. *)
Lemma cuts_show ls :
  let cut := capped filter (head_and_tail filter ls).1.1 in
  forallb (forallb is_whitespace) cut.1 = true -> cut.1 = ls /\ cut.2 = None /\ (head_and_tail filter ls).1.2 = None /\ (head_and_tail filter ls).2 = false.
Proof.
  pose proof (head_and_tail_spec ls) as Hh. destruct (head_and_tail filter ls) as [ [ls' head_cut] drop]. cbn [fst snd] in *.
  pose proof (capped_spec ls') as Hc. destruct (capped filter ls') as [cut max_cut]. cbn [fst snd] in *. intros Hb.
  destruct max_cut as [n|].
  - destruct Hc as [_ ->]. rewrite forallb_app, andb_true_iff in Hb. by destruct Hb.
  - subst cut. destruct head_cut as [n|].
    + destruct Hh as (_ & _ & ->). rewrite forallb_app, andb_true_iff in Hb. by destruct Hb.
    + destruct drop; [|by subst ls'].
      destruct Hh as (_ & m & Hm). by apply (forallb_elem _ _ _ Hm) in Hb.
Qed.
End Losses.

(** What the pipeline says of its losses holds of the lines [kept] that reached the
    cuts: without a loss they are all shown, or a message in place of a blank text; and
    what is lost behind the tail is in the payload, from the offset on. *)
Definition told_of (on_empty : option rstr) (kept : list rstr) (shown : rstr) (loss : Lossiness) : Prop :=
  match loss with
  | NoLoss => shown = join_lines kept \/ trim (join_lines kept) = [] /\ on_empty = Some shown
  | Tail payload offset =>
      exists seen marker rest, kept = seen ++ rest /\ rest <> [] /\ shown = join_lines (seen ++ [marker])
        /\ payload = join_lines kept /\ offset = S (length seen)
  | Whole => True
  end.

Lemma told_of_tail on_empty ls n marker : (n < length ls)%nat ->
  told_of on_empty ls (join_lines (take n ls ++ [marker])) (Tail (join_lines ls) (n + 1)).
Proof.
  intros Hn. exists (take n ls), marker, (drop n ls). rewrite take_drop, length_take. repeat split; [|lia].
  intros E. apply (f_equal length) in E. rewrite length_drop in E. simpl in E. lia.
Qed.

Lemma shown_with_loss_told {Regex RegexSet} (filter : CompiledFilter Regex RegexSet) ls shown loss :
  shown_with_loss filter ls = (shown, loss) -> told_of (on_empty filter) ls shown loss.
Proof.
  unfold shown_with_loss. pose proof (truncated_id filter ls) as Ht. pose proof (truncated_blank filter ls) as Hb.
  destruct (truncated filter ls) as [tls intra]. cbn [fst snd] in *.
  pose proof (head_and_tail_spec filter tls) as Hh. pose proof (cuts_show filter tls) as Hcut.
  destruct (head_and_tail filter tls) as [ [hls head_cut] drop]. cbn [fst snd] in *.
  pose proof (capped_spec filter hls) as Hc. destruct (capped filter hls) as [cut max_cut]. cbn [fst snd] in *.
  assert (is_empty (trim (join_lines cut)) = true -> trim (join_lines ls) = []) as Hblank.
  { intros E. destruct (trim (join_lines cut)) eqn:Et; [|done]. apply trim_nil in Et. pose proof Et as Et'.
    rewrite join_lines_blank in Et. destruct (Hcut Et) as (Hcl & _). rewrite Hcl in *. rewrite Hb in Et' by done.
    by apply trim_nil. }
  assert (told_of (on_empty filter) ls (join_lines cut) (loss_of
    (if negb intra && negb (bool_decide (is_Some (tail_lines filter)))
        && (bool_decide (is_Some (head_lines filter)) || bool_decide (is_Some (max_lines filter))) then Some tls else None)
    drop intra head_cut max_cut)) as Hloss.
  { clear Hcut Hblank Hb. destruct (_ && _) eqn:Es; cbn [loss_of].
    - rewrite !andb_true_iff, !negb_true_iff, bool_decide_eq_false in Es. destruct Es as [ [-> Htail] _]. rewrite Ht in * by done.
      destruct head_cut as [n|], max_cut as [m|]; [done|..].
      + destruct Hh as (_ & Hn & ->). rewrite Hc. by apply told_of_tail.
      + destruct drop; [by destruct Hh|]. subst hls. destruct Hc as [Hm ->]. by apply told_of_tail.
      + left. destruct drop; [by destruct Hh|]. by subst.
    - destruct drop, intra, head_cut, max_cut; simpl; try done. left. rewrite Hc, Hh, Ht; done. }
  destruct (is_empty _) eqn:E; [destruct (on_empty filter) as [msg|] eqn:Eo|]; intros [= <- <-]; [|done..].
  right. auto.
Qed.

(** Behind the tail, [tail -n +offset] of the payload shows what the cut left out. *)
Lemma told_tail on_empty kept shown payload offset :
  Forall no_line_feed kept -> told_of on_empty kept shown (Tail payload offset) ->
  exists seen marker, shown = join_lines (seen ++ [marker]) /\ kept = seen ++ tail_from offset payload /\ tail_from offset payload <> [].
Proof.
  intros Hlines (seen & marker & rest & Hkept & Hne & -> & -> & ->). exists seen, marker.
  unfold tail_from, join_lines. rewrite split_join; [|rewrite Hkept; by destruct seen, rest|done].
  rewrite Hkept. replace (S (length seen) - 1)%nat with (length seen) by lia. by rewrite drop_app_length.
Qed.

Lemma apply_filter_told {Regex RegexSet} (out : Outside Regex RegexSet) (filter : CompiledFilter Regex RegexSet) stdout shown loss :
  apply_filter_with_info out filter stdout = (shown, loss) -> told_of (on_empty filter) (kept_lines out filter stdout) shown loss.
Proof.
  unfold apply_filter_with_info. destruct (matched_output _ _ _); [by intros [= <- <-]|]. apply shown_with_loss_told.
Qed.

(** A regex crate of literals and anchors, for examples: it shows that the law can hold. *)
Definition literal_is_match (re s : rstr) : bool :=
  match strip_prefix (lit "^") re with Some p => starts_with p s | None => contains re s end.

Definition literals (files : rstr -> result rstr TomlFilterFile) : Outside rstr (list rstr) := {|
  regex_new := Ok;
  regex_set_new := Ok;
  is_match := literal_is_match;
  set_is_match set s := existsb (fun re => literal_is_match re s) set;
  replace_all re line r := RStr.replace re r line;
  toml_from_str := files;
|}.

Lemma literals_keep_lines files : replacing_keeps_lines (literals files).
Proof.
  intros re line r Hl Hr. cbn [replace_all literals]. unfold RStr.replace. generalize (S (length line)). intros fuel. revert line Hl.
  induction fuel as [|fuel IH]; intros line Hl; cbn [replace_fuel]; [done|].
  destruct (split_once re line) as [ [a b]|] eqn:E; [|done]. apply split_once_Some in E as ->.
  unfold no_line_feed in *. rewrite !contains_char_app in Hl |- *. apply orb_false_iff in Hl as [-> Hl].
  apply orb_false_iff in Hl as [_ Hb]. by rewrite Hr, (IH b Hb).
Qed.

(** The rest of a filter that only cuts at some lines. *)
Definition head_filter (head max : option nat) (rules : list (CompiledReplaceRule rstr)) : CompiledFilter rstr (list rstr) := {|
  name := lit "make"; filter_description := None; match_regex := lit "^make"; strips_ansi := true; replace := rules;
  match_output := []; line_filter := Strip [lit "Entering"]; truncate_lines_at := Some 80%nat; head_lines := head; tail_lines := None;
  max_lines := max; on_empty := Some (lit "ok"); filter_stderr := false; pass_through_if_args := [];
|}.

(** A filter tells what it loses: without a loss every line that it keeps is
    shown, or its message for a blank text; a loss of the tail comes with a payload
    whose lines from the offset on, as [tail -n +offset] shows them, are exactly those
    that are not shown, where a marker takes their place. *)
Theorem filter_losses_are_told {Regex RegexSet} (out : Outside Regex RegexSet) (filter : CompiledFilter Regex RegexSet) stdout :
  replacing_keeps_lines out -> replacements_are_lines filter ->
  let '(shown, loss) := apply_filter_with_info out filter stdout in
  told_of (on_empty filter) (kept_lines out filter stdout) shown loss
  /\ match loss with
     | Tail payload offset => exists seen marker, shown = join_lines (seen ++ [marker])
         /\ kept_lines out filter stdout = seen ++ tail_from offset payload /\ tail_from offset payload <> []
     | _ => True
     end.
Proof.
  intros Hlaw Hrules. pose proof (kept_lines_are_lines out filter stdout Hlaw Hrules) as Hlines.
  destruct (apply_filter_with_info out filter stdout) as [shown loss] eqn:E.
  pose proof (apply_filter_told out filter stdout shown loss E) as Htold.
  split; [done|]. destruct loss as [|payload offset|]; [done| |done].
  by eapply told_tail.
Qed.

Lemma filter_losses_are_told_witness :
  let out := literals (fun _ => Err []) in
  let filter := head_filter (Some 2%nat) None [{| replaced := lit "cc1"; replacement := lit "cc" |}] in
  let stdout := join_lines [lit "cc1 a.c"; lit "make: Entering x"; lit "cc1 b.c"; lit "ld"; lit "done"; []] in
  let '(shown, loss) := apply_filter_with_info out filter stdout in
  shown = join_lines [lit "cc a.c"; lit "cc b.c"; lit "... (2 lines omitted)"]
  /\ loss = Tail (join_lines [lit "cc a.c"; lit "cc b.c"; lit "ld"; lit "done"]) 3
  /\ told_of (on_empty filter) (kept_lines out filter stdout) shown loss.
Proof.
  pose proof (filter_losses_are_told (literals (fun _ => Err []))
    (head_filter (Some 2%nat) None [{| replaced := lit "cc1"; replacement := lit "cc" |}])
    (join_lines [lit "cc1 a.c"; lit "make: Entering x"; lit "cc1 b.c"; lit "ld"; lit "done"; []])
    (literals_keep_lines _) ltac:(repeat constructor)) as H.
  cbv zeta. revert H. vm_compute (apply_filter_with_info _ _ _). intros H. split; [reflexivity|]. split; [reflexivity|exact (proj1 H)].
Defined.

(** A replacement that holds a line feed makes two lines of one, and the offset, which
    counts the filter's lines, is one line too early. *)
Lemma line_feed_in_replacement_misleads :
  let filter := head_filter (Some 1%nat) None [{| replaced := lit ";"; replacement := [10] |}] in
  let '(shown, loss) := apply_filter_with_info (literals (fun _ => Err [])) filter (join_lines [lit "a;b"; lit "c"]) in
  shown = join_lines [lit "a"; lit "b"; lit "... (1 lines omitted)"]
  /\ match loss with Tail payload offset => tail_from offset payload = [lit "b"; lit "c"] | _ => False end.
Proof. vm_compute. done. Qed.
End Filter.
