(* ===== verification/Trust.v ===== *)
(** The gates before a project's own files: which filters of a project are loaded
    ([fork-core/rtk/src/trust.rs], the consent of [fork-core/rtk/src/init.rs], and the
    registry of [fork-core/rtk/src/toml_filter.rs]), and whether the hook is the one
    that was installed ([fork-core/rtk/src/integrity.rs]).

    SHA-256 is a parameter.  A file may change between any two calls, so what a call
    reads of it is an input. *)

From S2P Require Import Prelude RStr Utf8 Filter.
From Stdlib Require Import ZifyBool ZifyN ZifyNat.

Module Trust.
Import Filter.

Definition bytes := list N.

(** ** The store *)

Record TrustEntry := { sha256 : rstr; trusted_at : rstr }.
Record TrustStore := { version : N; trusted : gmap rstr TrustEntry }.

Definition default_store : TrustStore := {| version := 0; trusted := ∅ |}.

(** What [store_path] leads to: no data directory, no file, one that cannot be read or
    parsed, or a store. *)
Inductive StoreFile := NoDataDir | Absent | Unreadable | Stored (store : TrustStore).

Definition read_store (file : StoreFile) : option TrustStore :=
  match file with
  | Absent => Some default_store
  | Stored store => Some store
  | NoDataDir | Unreadable => None
  end.

(** [read_store().unwrap_or_default()]. *)
Definition read_store_or_default (file : StoreFile) : TrustStore := default default_store (read_store file).

(** A write truncates the file first; where it fails the file is as before, or in
    part. *)
Inductive Write := Written | NotWritten | PartlyWritten.

Definition write_store (file : StoreFile) (store : TrustStore) (w : Write) : StoreFile * bool :=
  match file, w with
  | NoDataDir, _ => (NoDataDir, false)
  | _, Written => (Stored store, true)
  | _, NotWritten => (file, false)
  | _, PartlyWritten => (Unreadable, false)
  end.

(** ** The status of a file *)

Inductive TrustStatus :=
| Trusted
| Untrusted
| ContentChanged (expected actual : rstr)
| EnvOverride.

Definition env_var := rstr -> option rstr.

Definition in_ci (var : env_var) : bool :=
  existsb (fun name => bool_decide (is_Some (var name))) [lit "CI"; lit "GITHUB_ACTIONS"; lit "GITLAB_CI"; lit "JENKINS_URL"; lit "BUILDKITE"].

Definition overridden (var : env_var) : bool :=
  bool_decide (var (lit "RTK_TRUST_PROJECT_FILTERS") = Some (lit "1")) && in_ci var.

Section Trust.
Context (compute_hash_bytes : bytes -> rstr).

(** [None] is an error.  [read] is what the file was when it was read, and [key] its
    canonical path. *)
Definition check_trust_with_content (var : env_var) (read : option bytes) (key : option rstr) (file : StoreFile) :
  option (TrustStatus * option rstr) :=
  if overridden var then content ← read ≫= Utf8.from_utf8; Some (EnvOverride, Some content)
  else
    match read with
    | None => Some (Untrusted, None)
    | Some bytes =>
        key ← key;
        match trusted (read_store_or_default file) !! key with
        | None => Some (Untrusted, None)
        | Some entry =>
            let actual_hash := compute_hash_bytes bytes in
            if str_eqb actual_hash (sha256 entry) then
              match Utf8.from_utf8 bytes with
              | Some content => Some (Trusted, Some content)
              | None => Some (Untrusted, None)
              end
            else Some (ContentChanged (sha256 entry) actual_hash, None)
        end
    end.

Definition check_trust (var : env_var) (read : option bytes) (key : option rstr) (file : StoreFile) : option TrustStatus :=
  fst <$> check_trust_with_content var read key file.

(** The new store, and whether the call succeeded. *)
Definition trust_filter_with_hash (key : option rstr) (hash now : rstr) (w : Write) (file : StoreFile) : StoreFile * bool :=
  match key with
  | None => (file, false)
  | Some key =>
      let store := read_store_or_default file in
      write_store file {| version := 1; trusted := <[key := {| sha256 := hash; trusted_at := now |}]> (trusted store) |} w
  end.

(** The new store, and whether an entry was removed, [None] for an error. *)
Definition untrust_filter (key : option rstr) (w : Write) (file : StoreFile) : StoreFile * option bool :=
  match key with
  | None => (file, None)
  | Some key =>
      let store := read_store_or_default file in
      match trusted store !! key with
      | None => (file, Some false)
      | Some _ =>
          let '(file, written) := write_store file {| version := version store; trusted := delete key (trusted store) |} w in
          (file, if written then Some true else None)
      end
  end.

(** [run_trust(false)]: the bytes that are shown are those that are hashed. *)
Definition run_trust (read : option bytes) (key : option rstr) (now : rstr) (w : Write) (file : StoreFile) : StoreFile * bool :=
  match read with
  | None => (file, false)
  | Some bytes => trust_filter_with_hash key (compute_hash_bytes bytes) now w file
  end.

(** [run_untrust]: the new store, and whether it says that trust was revoked. *)
Definition run_untrust (key : option rstr) (w : Write) (file : StoreFile) : StoreFile * bool :=
  let '(file, removed) := untrust_filter key w file in (file, default false removed).

(** ** Consent at installation *)

Inductive FilterTrust := Ask | Trust | Skip.

(** The answer at the terminal, where there is one. *)
Definition should_trust (mode : FilterTrust) (answer : option rstr) : bool :=
  match mode with
  | Trust => true
  | Skip => false
  | Ask =>
      match answer with
      | Some answer => one_of (map (fun c => if is_ascii_uppercase c then c + 32 else c) (trim answer)) [lit "y"; lit "yes"]
      | None => false
      end
  end.

(** What the turn for a path finds. *)
Record Turn := {
  there : bool;
  read_at_check : option bytes;
  key_at_check : option rstr;
  answer : option rstr;
  read_at_consent : option bytes;
  key_at_consent : option rstr;
  now : rstr;
  write : Write;
}.

Definition is_active (status : option TrustStatus) : bool :=
  match status with Some Trusted | Some EnvOverride => true | _ => false end.

(** [finalize_filter_trust]: an error ends the loop. *)
Fixpoint finalize_filter_trust (var : env_var) (dry_run : bool) (mode : FilterTrust) (turns : list Turn) (file : StoreFile) : StoreFile * bool :=
  match turns with
  | [] => (file, true)
  | t :: turns =>
      let next file := finalize_filter_trust var dry_run mode turns file in
      if negb (there t) then next file
      else if is_active (check_trust var (read_at_check t) (key_at_check t) file) then next file
      else if should_trust mode (answer t) && negb dry_run then
        match read_at_consent t with
        | None => (file, false)
        | Some bytes =>
            let '(file, ok) := trust_filter_with_hash (key_at_consent t) (compute_hash_bytes bytes) (now t) (write t) file in
            if ok then next file else (file, false)
        end
      else next file
  end.

(** ** The registry *)

(** A file that may hold filters, as it is found. *)
Record Gated := { gated_there : bool; source : rstr; gated_read : option bytes; gated_key : option rstr }.

(** The content that [load] compiles. *)
Definition admitted (var : env_var) (file : StoreFile) (g : Gated) : option rstr :=
  if gated_there g then
    match default (Untrusted, None) (check_trust_with_content var (gated_read g) (gated_key g) file) with
    | (Trusted, content) | (EnvOverride, content) => content
    | _ => None
    end
  else None.

(** [TomlFilterRegistry::load]: the filters of the admitted files, then those that are
    built in; a file that does not compile is left out, with a warning. *)
Definition load {Regex RegexSet} (out : Outside Regex RegexSet) (var : env_var) (file : StoreFile)
    (paths : list Gated) (builtin : rstr) : list (CompiledFilter Regex RegexSet) :=
  let compiled content source := match parse_and_compile out content source with Ok compiled => compiled | Err _ => [] end in
  concat (map (fun g => match admitted var file g with Some content => compiled content (source g) | None => [] end) paths)
    ++ compiled builtin (lit "builtin").
End Trust.

(** ** Only consented files are loaded

    A state is the store, and the bytes that somebody consented to for each path since
    its trust was last revoked. *)

Record State := { file : StoreFile; consents : list (rstr * bytes) }.

Inductive step (compute_hash_bytes : bytes -> rstr) : State -> State -> Prop :=
| step_consent s key bytes now w f ok :
    trust_filter_with_hash (Some key) (compute_hash_bytes bytes) now w (file s) = (f, ok) ->
    step compute_hash_bytes s {| file := f; consents := if ok then (key, bytes) :: consents s else consents s |}
| step_untrust s key w f removed :
    untrust_filter (Some key) w (file s) = (f, removed) ->
    step compute_hash_bytes s
      {| file := f; consents := if default false removed then List.filter (fun c => negb (str_eqb c.1 key)) (consents s) else consents s |}
| step_lost s f : (forall store, f <> Stored store) -> step compute_hash_bytes s {| file := f; consents := consents s |}.

Definition initial (s : State) : Prop := (forall store, file s <> Stored store) /\ consents s = [].

(** Every entry of the store is the digest of bytes that were consented to. *)
Definition entries_are_consented (compute_hash_bytes : bytes -> rstr) (s : State) : Prop :=
  forall key entry, trusted (read_store_or_default (file s)) !! key = Some entry ->
    exists bytes, (key, bytes) ∈ consents s /\ sha256 entry = compute_hash_bytes bytes.

Lemma write_store_entries f store w f' ok key entry :
  write_store f store w = (f', ok) -> trusted (read_store_or_default f') !! key = Some entry ->
  ok = true /\ trusted store !! key = Some entry \/ ok = false /\ trusted (read_store_or_default f) !! key = Some entry.
Proof.
  unfold write_store, read_store_or_default.
  destruct f, w; intros [= <- <-]; cbn; intros H; try (by right); try (by left); by rewrite lookup_empty in H.
Qed.

Lemma step_keeps_consent H s t : entries_are_consented H s -> step H s t -> entries_are_consented H t.
Proof.
  intros Hinv Hstep. destruct Hstep as [s key b now w f ok E|s key w f removed E|s f Hf]; intros k e; cbn [file consents]; intros Hk.
  - unfold trust_filter_with_hash in E. destruct (write_store_entries _ _ _ _ _ _ _ E Hk) as [ [-> Hin]|[-> Hin] ].
    + cbn [trusted] in Hin. destruct (decide (key = k)) as [->|Hne].
      * rewrite lookup_insert_eq in Hin. injection Hin as <-. exists b. split; [by left|done].
      * rewrite lookup_insert_ne in Hin by done. destruct (Hinv k e Hin) as (b' & Hb & He). exists b'. split; [by right|done].
    + by apply Hinv.
  - unfold untrust_filter in E. destruct (trusted (read_store_or_default (file s)) !! key) as [e0|] eqn:Ek.
    + destruct (write_store _ _ _) as [f' ok] eqn:Ew. injection E as -> <-.
      destruct (write_store_entries _ _ _ _ _ _ _ Ew Hk) as [ [-> Hin]|[-> Hin] ].
      * cbn [trusted] in Hin. apply lookup_delete_Some in Hin as [Hne Hin]. destruct (Hinv k e Hin) as (b & Hb & He).
        exists b. split; [|done]. cbn. apply list_elem_of_In, List.filter_In. split; [by apply list_elem_of_In|].
        cbn. unfold str_eqb. by rewrite bool_decide_eq_false_2 by done.
      * by apply Hinv.
    + injection E as <- <-. by apply Hinv.
  - unfold read_store_or_default in Hk. destruct f as [| | |store]; cbn in Hk; try by rewrite lookup_empty in Hk.
    by destruct (Hf store).
Qed.

Lemma reachable_consented H s : reachable initial (step H) s -> entries_are_consented H s.
Proof.
  apply reachable_invariant; [|intros; by eapply step_keeps_consent].
  intros s0 [Hf _] k e Hk. unfold read_store_or_default in Hk.
  destruct (file s0) as [| | |store]; cbn in Hk; try by rewrite lookup_empty in Hk. by destruct (Hf store).
Qed.

(** A file is admitted with the content that was read when its digest was checked. *)
Lemma admitted_spec H var f g content : overridden var = false -> admitted H var f g = Some content ->
  exists bytes key entry, gated_read g = Some bytes /\ gated_key g = Some key /\ Utf8.from_utf8 bytes = Some content
    /\ trusted (read_store_or_default f) !! key = Some entry /\ sha256 entry = H bytes.
Proof.
  unfold admitted, check_trust_with_content. intros ->. destruct (gated_there g); [|done].
  destruct (gated_read g) as [b|]; [|done]. destruct (gated_key g) as [key|]; [|done]. cbv [mbind option_bind].
  destruct (trusted _ !! key) as [entry|] eqn:E; [|done]. unfold str_eqb. case_bool_decide as Eh; [|done].
  destruct (Utf8.from_utf8 b) as [c|] eqn:Ec; [|done]. cbn. intros [= <-]. by exists b, key, entry.
Qed.

(** C25: whatever sequence of consents, revocations and losses of the store led here, and
    whatever the files are by now, outside a continuous integration that overrides the
    gate a filter is loaded only if it is built in, or comes from the content that was
    read of a file whose path has bytes of the same digest among those that somebody
    consented to since its trust was last revoked. *)
Theorem only_consented_filters_are_loaded {Regex RegexSet} (out : Outside Regex RegexSet) H var s paths builtin f :
  reachable initial (step H) s -> overridden var = false ->
  f ∈ load H out var (file s) paths builtin ->
  (exists fs, parse_and_compile out builtin (lit "builtin") = Ok fs /\ f ∈ fs)
  \/ exists g key b consented content fs,
       g ∈ paths /\ gated_key g = Some key /\ gated_read g = Some b /\ Utf8.from_utf8 b = Some content
       /\ (key, consented) ∈ consents s /\ H consented = H b
       /\ parse_and_compile out content (source g) = Ok fs /\ f ∈ fs.
Proof.
  intros Hr Hvar Hf. unfold load in Hf. apply elem_of_app in Hf as [Hf|Hf].
  - right. apply list_elem_of_In, in_concat in Hf as (l & Hl & Hf). apply in_map_iff in Hl as (g & <- & Hg).
    destruct (admitted H var (file s) g) as [content|] eqn:E; [|done].
    destruct (admitted_spec _ _ _ _ _ Hvar E) as (b & key & entry & Hread & Hkey & Hutf & Hentry & Hsha).
    destruct (reachable_consented _ _ Hr _ _ Hentry) as (b' & Hb' & Hsha').
    destruct (parse_and_compile out content (source g)) as [fs|] eqn:Ep; [|done].
    exists g, key, b, b', content, fs. rewrite <- Hsha', Hsha. repeat split; try done; by apply list_elem_of_In.
  - left. destruct (parse_and_compile out builtin (lit "builtin")) as [fs|]; [by exists fs|by apply not_elem_of_nil in Hf].
Qed.

(** A file of filters that holds one, for a command of its own name. *)
Definition one_filter (content : rstr) : result rstr TomlFilterFile :=
  Ok {| schema_version := 1;
        filters := [(content, {| description := None; match_command := lit "^" ++ content; d_strip_ansi := false; d_replace := [];
                                 d_match_output := []; strip_lines_matching := []; keep_lines_matching := []; d_truncate_lines_at := None;
                                 d_head_lines := Some 2%nat; d_tail_lines := None; d_max_lines := None; d_on_empty := None;
                                 d_filter_stderr := false; d_pass_through_if_args := [] |})];
        tests := [] |}.

Lemma only_consented_filters_are_loaded_witness :
  let out := literals one_filter in
  let key := lit "/repo/.rtk/filters.toml" in
  let f := (trust_filter_with_hash (Some key) (utf8 (lit "make")) (lit "now") Written Absent).1 in
  let s := {| file := f; consents := [(key, utf8 (lit "make"))] |} in
  let g := {| gated_there := true; source := lit ".rtk/filters.toml"; gated_read := Some (utf8 (lit "make")); gated_key := Some key |} in
  exists filter, filter ∈ load (fun b => b) out (fun _ => None) f [g] (lit "df") /\ name filter = lit "make"
    /\ ((exists fs, parse_and_compile out (lit "df") (lit "builtin") = Ok fs /\ filter ∈ fs)
        \/ exists g' key b consented content fs,
             g' ∈ [g] /\ gated_key g' = Some key /\ gated_read g' = Some b /\ Utf8.from_utf8 b = Some content
             /\ (key, consented) ∈ consents s /\ consented = b
             /\ parse_and_compile out content (source g') = Ok fs /\ filter ∈ fs).
Proof.
  intros out key f s g.
  destruct (load (fun b => b) out (fun _ => None) f [g] (lit "df")) as [|filter l] eqn:E; [by vm_compute in E|].
  exists filter. split; [left|split; [by vm_compute in E; injection E as <- _|]].
  apply (only_consented_filters_are_loaded out (fun b => b) (fun _ => None) s [g] (lit "df") filter).
  - eapply reach_step; [apply (reach_init _ _ {| file := Absent; consents := [] |}); split; [done|reflexivity]|].
    exact (step_consent (fun b => b) {| file := Absent; consents := [] |} key (utf8 (lit "make")) (lit "now") Written f true eq_refl).
  - reflexivity.
  - cbn [file s]. rewrite E. left.
Defined.

(** The commands are made of these steps. *)
Lemma consent_steps H s key b now w : exists t, rtc (step H) s t /\ file t = (trust_filter_with_hash key (H b) now w (file s)).1.
Proof.
  destruct key as [key|]; [|by exists s].
  destruct (trust_filter_with_hash (Some key) (H b) now w (file s)) as [f ok] eqn:E.
  eexists. split; [eapply rtc_once, step_consent, E|done].
Qed.

Lemma run_trust_steps H s read key now w : exists t, rtc (step H) s t /\ file t = (run_trust H read key now w (file s)).1.
Proof. destruct read as [b|]; [apply consent_steps|by exists s]. Qed.

Lemma run_untrust_steps H s key w : exists t, rtc (step H) s t /\ file t = (run_untrust key w (file s)).1.
Proof.
  unfold run_untrust. destruct key as [key|]; [|by exists s].
  destruct (untrust_filter (Some key) w (file s)) as [f removed] eqn:E.
  eexists. split; [eapply rtc_once, step_untrust, E|done].
Qed.

Lemma finalize_filter_trust_steps H var dry_run mode turns s :
  exists t, rtc (step H) s t /\ file t = (finalize_filter_trust H var dry_run mode turns (file s)).1.
Proof.
  revert s. induction turns as [|t turns IH]; intros s; [by exists s|]. cbn [finalize_filter_trust].
  destruct (negb (there t)); [apply IH|]. destruct (is_active _); [apply IH|].
  destruct (should_trust mode (answer t) && negb dry_run); [|apply IH].
  destruct (read_at_consent t) as [b|]; [|by exists s].
  destruct (consent_steps H s (key_at_consent t) b (now t) (write t)) as (s1 & H1 & Hf1).
  destruct (trust_filter_with_hash (key_at_consent t) (H b) (now t) (write t) (file s)) as [f ok]. cbn [fst] in Hf1. subst f.
  destruct ok; [|by exists s1]. destruct (IH s1) as (s2 & H2 & Hf2). exists s2. split; [by etransitivity|done].
Qed.

Lemma read_stored_trust store : read_store_or_default (Stored store) = store.
Proof. done. Qed.

Lemma written_store f store w f' : write_store f store w = (f', true) -> f' = Stored store.
Proof. unfold write_store. by destruct f, w; intros [= <-]. Qed.

(** After a consent that was stored, the file with the bytes that were shown is
    admitted; and after a revocation that was reported, no file of the path is. *)
Theorem consents_are_honoured H var b key now w f f' content :
  Utf8.from_utf8 b = Some content -> overridden var = false ->
  run_trust H (Some b) (Some key) now w f = (f', true) ->
  (forall g, gated_there g = true -> gated_read g = Some b -> gated_key g = Some key -> admitted H var f' g = Some content)
  /\ (forall w' f'', run_untrust (Some key) w' f' = (f'', true) -> forall g, gated_key g = Some key -> admitted H var f'' g = None).
Proof.
  intros Hb Hvar Ht. cbn [run_trust trust_filter_with_hash] in Ht. apply written_store in Ht as ->. split.
  - intros g Hg Hr Hk. unfold admitted, check_trust_with_content. rewrite Hvar, Hg, Hr, Hk. cbv [mbind option_bind].
    rewrite read_stored_trust. cbn [trusted]. rewrite lookup_insert_eq. cbn [sha256].
    unfold str_eqb. rewrite bool_decide_eq_true_2 by done. by rewrite Hb.
  - intros w' f'' Hu g Hk. unfold run_untrust, untrust_filter in Hu. rewrite read_stored_trust in Hu. cbn [trusted] in Hu.
    rewrite lookup_insert_eq in Hu. destruct (write_store _ _ _) as [f2 ok] eqn:Ew. destruct ok; [|done]. injection Hu as ->.
    apply written_store in Ew as ->. destruct (admitted H var _ g) as [c|] eqn:E; [|done].
    destruct (admitted_spec _ _ _ _ _ Hvar E) as (b' & key' & entry & _ & Hk' & _ & Hentry & _).
    rewrite Hk in Hk'. injection Hk' as <-. rewrite read_stored_trust in Hentry. cbn [trusted] in Hentry. by rewrite lookup_delete_eq in Hentry.
Qed.

Lemma consents_are_honoured_witness :
  let key := lit "/repo/.rtk/filters.toml" in
  let b := utf8 (lit "make") in
  let g := {| gated_there := true; source := lit ".rtk/filters.toml"; gated_read := Some b; gated_key := Some key |} in
  let f := (run_trust (fun b => b) (Some b) (Some key) (lit "now") Written Unreadable).1 in
  let f' := (run_untrust (Some key) Written f).1 in
  admitted (fun b => b) (fun _ => None) f g = Some (lit "make") /\ admitted (fun b => b) (fun _ => None) f' g = None.
Proof.
  intros key b g f f'.
  destruct (consents_are_honoured (fun b => b) (fun _ => None) b key (lit "now") Written Unreadable f (lit "make")) as [H1 H2];
    [reflexivity..|].
  split; [by apply H1|]. apply (H2 Written f'); reflexivity.
Defined.
End Trust.

Module Integrity.

Abbreviation bytes := Trust.bytes (only parsing).

(** A file: absent, unreadable, or its bytes. *)
Abbreviation File := (option (option bytes)) (only parsing).

Inductive IntegrityStatus :=
| Verified
| Tampered (expected actual : rstr)
| NoBaseline
| NotInstalled
| OrphanedHash.

Section Integrity.
Context (sha256_hex : bytes -> rstr).

(** [None] is an error. *)
Definition compute_hash (file : File) : option rstr := sha256_hex <$> mjoin file.

(** [read_stored_hash]. *)
Definition read_stored_hash (file : File) : option rstr :=
  content ← mjoin file ≫= Utf8.from_utf8;
  line ← head (lines content);
  '(hash, _) ← split_once (lit "  ") line;
  if (blen hash =? 64)%nat && forallb is_ascii_hexdigit hash then Some hash else None.

Definition verify_hook_at (hook hash_file : File) : option IntegrityStatus :=
  match hook, hash_file with
  | None, None => Some NotInstalled
  | None, Some _ => Some OrphanedHash
  | Some _, None => Some NoBaseline
  | Some _, Some _ =>
      stored ← read_stored_hash hash_file;
      actual ← compute_hash hook;
      Some (if str_eqb stored actual then Verified else Tampered stored actual)
  end.

(** The new hash file, and whether the call succeeded: the write may fail, leaving the
    file [partial], and so may the last change of permissions. *)
Definition store_hash (hook hash_file : File) (filename : option rstr) (write : option (option bytes)) (restricted : bool) : File * bool :=
  match compute_hash hook with
  | None => (hash_file, false)
  | Some hash =>
      let content := hash ++ lit "  " ++ default (lit "rtk-rewrite.sh") filename ++ [10] in
      match write with
      | None => (Some (Some (utf8 content)), restricted)
      | Some partial => (match partial with Some b => Some (Some b) | None => hash_file end, false)
      end
  end.

(** The new hash file, and whether one was removed, [None] for an error. *)
Definition remove_hash (hash_file : File) (removed : bool) : File * option bool :=
  match hash_file with
  | None => (None, Some false)
  | Some _ => if removed then (None, Some true) else (hash_file, None)
  end.

(** [runtime_check]: whether commands go on, [None] where the check itself fails. *)
Definition runtime_check (hook hash_file : File) : option bool :=
  status ← verify_hook_at hook hash_file;
  Some match status with Tampered _ _ => false | _ => true end.
End Integrity.

(** What is relied on of SHA-256 in hexadecimal digits. *)
Definition is_sha256_hex (sha256_hex : bytes -> rstr) : Prop :=
  forall b, length (sha256_hex b) = 64%nat /\ forallb is_ascii_hexdigit (sha256_hex b) = true.

Lemma hexdigits_ascii s : forallb is_ascii_hexdigit s = true -> blen s = length s.
Proof.
  induction s as [|c s IH]; simpl; [done|]. intros [Hc H]%andb_true_iff. rewrite IH by done. rewrite len_utf8_ascii; [done|].
  unfold is_ascii_hexdigit, is_ascii_digit, between in Hc. lia.
Qed.

Lemma hexdigits_scalar s : forallb is_ascii_hexdigit s = true -> forallb Utf8.is_scalar s = true.
Proof.
  rewrite !forallb_forall. intros H c Hc. specialize (H c Hc). unfold is_ascii_hexdigit, is_ascii_digit, Utf8.is_scalar, between in *. lia.
Qed.

Lemma hexdigits_no c s : is_ascii_hexdigit c = false -> forallb is_ascii_hexdigit s = true -> contains_char c s = false.
Proof.
  intros Hc. induction s as [|d s IH]; [done|]. simpl. intros [Hd H]%andb_true_iff. unfold contains_char in *. simpl. rewrite IH by done.
  destruct (N.eqb_spec c d); [congruence|done].
Qed.

Lemma split_at_gap s r : contains_char 32 s = false -> split_once (lit "  ") (s ++ lit "  " ++ r) = Some (s, r).
Proof.
  induction s as [|c s IH]; [by destruct r|]. unfold contains_char. cbn [existsb]. intros [Hc H]%orb_false_iff. specialize (IH H).
  cbn [app split_once]. assert (strip_prefix (lit "  ") (c :: s ++ lit "  " ++ r) = None) as ->.
  { change (lit "  ") with [32; 32] at 1. cbn [strip_prefix]. by rewrite Hc. }
  by rewrite IH.
Qed.

(** The hook that was installed is verified, and any other one is told apart from
    it unless it has the same digest; commands go on in the first case only. *)
Theorem hooks_are_verified_as_stored sha256_hex b hash_file filename f :
  is_sha256_hex sha256_hex ->
  let name := default (lit "rtk-rewrite.sh") filename in
  forallb Utf8.is_scalar name = true -> contains_char 10 name = false -> last name <> Some 13 ->
  store_hash sha256_hex (Some (Some b)) hash_file filename None true = (f, true) ->
  forall b', verify_hook_at sha256_hex (Some (Some b')) f
             = Some (if str_eqb (sha256_hex b) (sha256_hex b') then Verified else Tampered (sha256_hex b) (sha256_hex b'))
    /\ runtime_check sha256_hex (Some (Some b')) f = Some (str_eqb (sha256_hex b) (sha256_hex b')).
Proof.
  intros Hsha name Hs Hlf Hcr Hstore b'. assert (f = Some (Some (utf8 (sha256_hex b ++ lit "  " ++ name ++ [10])))) as -> by by injection Hstore as <-.
  assert (read_stored_hash (Some (Some (utf8 (sha256_hex b ++ lit "  " ++ name ++ [10])))) = Some (sha256_hex b)) as Hread.
  - destruct (Hsha b) as [Hl Hh]. unfold read_stored_hash. cbn [mjoin option_join]. cbv [mbind option_bind].
    rewrite Utf8.from_utf8_utf8 by (rewrite !forallb_app, Hs, hexdigits_scalar by done; done).
    replace (sha256_hex b ++ lit "  " ++ name ++ [10]) with (concat (map (fun l => l ++ [10]) [sha256_hex b ++ lit "  " ++ name]))
      by (cbn; by rewrite app_nil_r, <- !app_assoc).
    rewrite lines_concat.
    + cbn [head]. rewrite split_at_gap by by apply hexdigits_no. by rewrite hexdigits_ascii, Hl, Hh by done.
    + repeat constructor.
      * rewrite !contains_char_app, Hlf, hexdigits_no by done. done.
      * destruct name as [|c n _] using rev_ind; [rewrite app_nil_r; by rewrite last_app|].
        rewrite !app_assoc, last_snoc. by rewrite last_snoc in Hcr.
  - unfold runtime_check, verify_hook_at. rewrite Hread. cbn. unfold str_eqb. by case_bool_decide.
Qed.


Lemma hooks_are_verified_as_stored_witness :
  let sha b := repeat (48 + (N.of_nat (length b)) mod 10) 64 in
  let f := (store_hash sha (Some (Some [1; 2])) None None None true).1 in
  runtime_check sha (Some (Some [1; 2])) f = Some true /\ runtime_check sha (Some (Some [1; 2; 3])) f = Some false.
Proof.
  intros sha f.
  assert (is_sha256_hex sha) as Hsha.
  - intros b. split; [by apply repeat_length|]. apply forallb_forall. intros c Hc. apply repeat_spec in Hc as ->.
    pose proof (N.mod_lt (N.of_nat (length b)) 10 ltac:(done)). unfold is_ascii_hexdigit, is_ascii_digit, between. lia.
  - pose proof (hooks_are_verified_as_stored sha [1; 2] None None f Hsha eq_refl eq_refl ltac:(done) eq_refl) as H.
    split; [exact (proj2 (H [1; 2]))|exact (proj2 (H [1; 2; 3]))].
Defined.
End Integrity.
