(* ===== verification/Tee.v ===== *)
(** The recovery files of cut output ([fork-core/rtk/src/tee.rs]): their names, what is
    written and when, the rotation of the directory, and the hints that name them. *)

From S2P Require Import Prelude RStr.
From Stdlib Require Import ZifyBool ZifyN ZifyNat.

Module Tee.

Definition MIN_TEE_SIZE : nat := 500.
Definition DEFAULT_MAX_FILES : nat := 20.
Definition DEFAULT_MAX_FILE_SIZE : nat := 1024 * 1024.

Inductive TeeMode := Failures | Always | Never.

Record TeeConfig := {
  enabled : bool;
  mode : TeeMode;
  max_files : nat;
  max_file_size : nat;
  directory : option rstr;
}.

Definition default_config : TeeConfig :=
  {| enabled := true; mode := Failures; max_files := DEFAULT_MAX_FILES; max_file_size := DEFAULT_MAX_FILE_SIZE; directory := None |}.

(** ** Names *)

(** SHA-256 in hexadecimal digits. *)
Definition short_hash (sha256_hex : rstr -> rstr) (s : rstr) : rstr := take 6 (sha256_hex s).

Definition sanitize_slug (sha256_hex : rstr -> rstr) (slug : rstr) : rstr :=
  let sanitized := map (fun c => if is_ascii_alphanumeric c || (c =? ch "_") || (c =? ch "-") then c else ch "_") slug in
  if (blen sanitized <=? 24)%nat then sanitized else take 8 sanitized ++ lit "_" ++ short_hash sha256_hex sanitized.

(** [entry.path().extension() == "log"]: the extension is what follows the last dot,
    where something precedes it. *)
Definition is_log (name : rstr) : bool :=
  match rsplit_once (lit ".") name with
  | Some (stem, extension) => negb (is_empty stem) && str_eqb extension (lit "log")
  | None => false
  end.

(** ** Writing *)

(** The files of the directory, by name. *)
Abbreviation Dir := (gmap rstr rstr) (only parsing).

(** What the calls of one attempt meet: the clock, the failures of the calls, the
    entries that a listing shows and the files that can be removed.  A failing write
    leaves the first characters of the content. *)
Record Calls := {
  mkdir_ok : bool;
  clock : option N;
  open_ok : bool;
  written : option nat;
  listed : rstr -> bool;
  removable : rstr -> bool;
}.

(** [cleanup_old_files]. *)
Definition to_remove (calls : Calls) (max_files : nat) (dir : Dir) : list rstr :=
  let entries := List.filter (fun name => listed calls name && is_log name) (map fst (map_to_list dir)) in
  if (length entries <=? max_files)%nat then [] else take (length entries - max_files) (sort_by str_cmp entries).

Definition cleanup_old_files (calls : Calls) (max_files : nat) (dir : Dir) : Dir :=
  fold_left (fun dir name => if removable calls name then delete name dir else dir) (to_remove calls max_files dir) dir.

Definition should_tee (config : TeeConfig) (raw_len : nat) (exit_code : Z) (tee_dir : option rstr) : option rstr :=
  if negb (enabled config) then None
  else if match mode config with Never => true | Failures => (exit_code =? 0)%Z | Always => false end then None
  else if (raw_len <? MIN_TEE_SIZE)%nat then None
  else tee_dir.

(** The characters that begin before the byte [max]. *)
Fixpoint chars_before (max : nat) (s : rstr) : rstr :=
  match s with
  | [] => []
  | c :: s => if (max =? 0)%nat then [] else c :: chars_before (max - len_utf8 c) s
  end.

Definition teed_content (raw : rstr) (max_file_size : nat) : rstr :=
  if (max_file_size <? blen raw)%nat then
    chars_before max_file_size raw ++ [10; 10] ++ lit "--- truncated at " ++ dec (N.of_nat max_file_size) ++ lit " bytes ---"
  else raw.

Definition file_name_of (sha256_hex : rstr -> rstr) (epoch : N) (command_slug : rstr) : rstr :=
  dec epoch ++ lit "_" ++ sanitize_slug sha256_hex command_slug ++ lit ".log".

(** The name of the file, [None] where a call failed, and the directory. *)
Definition write_tee_file (sha256_hex : rstr -> rstr) (calls : Calls) (raw command_slug : rstr) (max_file_size max_files : nat) (dir : Dir) :
  option rstr * Dir :=
  if negb (mkdir_ok calls) then (None, dir)
  else
    match clock calls with
    | None => (None, dir)
    | Some epoch =>
        let filename := file_name_of sha256_hex epoch command_slug in
        let content := teed_content raw max_file_size in
        if negb (open_ok calls) then (None, dir)
        else
          match written calls with
          | Some n => (None, <[filename := take n content]> dir)
          | None => (Some filename, cleanup_old_files calls max_files (<[filename := content]> dir))
          end
    end.

(** The environment of a process: [RTK_TEE=0], the configuration where it loads, and
    the directory, from [RTK_TEE_DIR], the configuration or the platform. *)
Record Env := { disabled : bool; config : option TeeConfig; env_dir : option rstr; data_local_dir : option rstr }.

Definition get_tee_dir (env : Env) (config : TeeConfig) : option rstr :=
  match env_dir env with
  | Some dir => Some dir
  | None =>
      match directory config with
      | Some dir => Some dir
      | None => (fun d => path_join (path_join d (lit "rtk")) (lit "tee")) <$> data_local_dir env
      end
  end.

Section Tee.
Context (sha256_hex : rstr -> rstr) (env : Env) (calls : Calls).

Definition in_dir (tee_dir : rstr) (r : option rstr * Dir) : option rstr * Dir := (path_join tee_dir <$> r.1, r.2).

(** [tee_raw] and [force_tee_path]: the path of the file, and the directory. *)
Definition tee_raw (raw command_slug : rstr) (exit_code : Z) (dir : Dir) : option rstr * Dir :=
  if disabled env then (None, dir)
  else
    match config env with
    | None => (None, dir)
    | Some config =>
        match get_tee_dir env config ≫= fun tee_dir => should_tee config (blen raw) exit_code (Some tee_dir) with
        | None => (None, dir)
        | Some tee_dir => in_dir tee_dir (write_tee_file sha256_hex calls raw command_slug (max_file_size config) (max_files config) dir)
        end
    end.

Definition force_tee_path (content command_slug : rstr) (dir : Dir) : option rstr * Dir :=
  if disabled env || is_empty content then (None, dir)
  else
    match config env with
    | None => (None, dir)
    | Some config =>
        if negb (enabled config) then (None, dir)
        else
          match get_tee_dir env config with
          | None => (None, dir)
          | Some tee_dir => in_dir tee_dir (write_tee_file sha256_hex calls content command_slug (max_file_size config) (max_files config) dir)
          end
    end.
End Tee.

(** ** Hints *)

(** [Path::strip_prefix], for paths without repeated separators. *)
Definition path_strip_prefix (base path : rstr) : option rstr :=
  if str_eqb path base then Some [] else strip_prefix (if ends_with (lit "/") base then base else base ++ lit "/") path.

Definition display_path (home : option rstr) (path : rstr) : rstr :=
  match home ≫= fun home => path_strip_prefix home path with
  | Some relative => lit "~/" ++ relative
  | None => path
  end.

Definition SHELL_SPECIAL : rstr := [39; 34] ++ lit "\$`!#&();<>?[]{}|*".

Definition needs_shell_quoting (path : rstr) : bool := existsb (fun c => is_whitespace c || contains_char c SHELL_SPECIAL) path.

Definition is_escaped_char (c : char) : bool := contains_char c ([34] ++ lit "\$`").

Definition escape_double_quoted_path (path : rstr) : rstr :=
  concat (map (fun c => if is_escaped_char c then [ch "\"; c] else [c]) path).

Definition display_shell_path (home : option rstr) (path : rstr) : rstr :=
  let display := display_path home path in
  if negb (needs_shell_quoting display) then display
  else
    match strip_prefix (lit "~/") display with
    | Some relative => [34] ++ lit "$HOME/" ++ escape_double_quoted_path relative ++ [34]
    | None => [34] ++ escape_double_quoted_path display ++ [34]
    end.

Definition format_hint (home : option rstr) (path : rstr) : rstr := lit "[full output: " ++ display_shell_path home path ++ lit "]".

Definition format_tail_hint (home : option rstr) (line_offset : nat) (path : rstr) : rstr :=
  lit "[see remaining: tail -n +" ++ dec (N.of_nat line_offset) ++ lit " " ++ display_shell_path home path ++ lit "]".

Definition on_path (format : rstr -> rstr) (r : option rstr * Dir) : option rstr * Dir := (format <$> r.1, r.2).

Section Hints.
Context (sha256_hex : rstr -> rstr) (env : Env) (home : option rstr) (calls : Calls).

Definition force_tee_hint (raw command_slug : rstr) (dir : Dir) : option rstr * Dir :=
  on_path (format_hint home) (force_tee_path sha256_hex env calls raw command_slug dir).

Definition force_tee_tail_hint (content command_slug : rstr) (line_offset : nat) (dir : Dir) : option rstr * Dir :=
  on_path (format_tail_hint home line_offset) (force_tee_path sha256_hex env calls content command_slug dir).

Definition tee_and_hint (raw command_slug : rstr) (exit_code : Z) (dir : Dir) : option rstr * Dir :=
  on_path (format_hint home) (tee_raw sha256_hex env calls raw command_slug exit_code dir).
End Hints.

(** ** Rotation *)

Definition is_later (name other : rstr) : bool := match str_cmp name other with Lt => true | _ => false end.

(** The log files that a listing shows. *)
Definition logs (calls : Calls) (dir : gmap rstr rstr) : list rstr :=
  List.filter (fun name => listed calls name && is_log name) (map fst (map_to_list dir)).

(** How many of them sort after a name: they are newer, by the clock in their names. *)
Definition newer (calls : Calls) (dir : gmap rstr rstr) (name : rstr) : nat := length (List.filter (is_later name) (logs calls dir)).

Lemma elem_of_logs calls dir name : name ∈ logs calls dir <-> listed calls name = true /\ is_log name = true /\ is_Some (dir !! name).
Proof.
  unfold logs. rewrite list_elem_of_In, List.filter_In, andb_true_iff, <- list_elem_of_In.
  assert (name ∈ map fst (map_to_list dir) <-> is_Some (dir !! name)) as ->; [|naive_solver].
  change (map fst) with (fmap (M := list) (@fst rstr rstr)). rewrite list_elem_of_fmap. split.
  - intros ( [k v] & -> & H). apply elem_of_map_to_list in H. by exists v.
  - intros [v H]. exists (name, v). split; [done|]. by apply elem_of_map_to_list.
Qed.

Lemma logs_NoDup calls dir : NoDup (logs calls dir).
Proof. apply NoDup_ListNoDup, List.NoDup_filter, NoDup_ListNoDup. apply (NoDup_fst_map_to_list dir). Qed.

(** In a sorted list without repetitions, what sorts after an element is what follows it. *)
Lemma later_follow l1 n l2 : StronglySorted (le_by str_cmp) (l1 ++ n :: l2) -> NoDup (l1 ++ n :: l2) ->
  length (List.filter (is_later n) (l1 ++ n :: l2)) = length l2.
Proof.
  intros Hs Hn. rewrite List.filter_app, length_app. cbn [List.filter]. unfold is_later at 2. rewrite str_cmp_refl.
  assert (forall l (f : rstr -> bool) b, (forall x, x ∈ l -> f x = b) -> List.filter f l = if b then l else []) as Hf.
  { induction l as [|x l IH]; intros f b H; [by destruct b|]. cbn. rewrite (H x) by left.
    rewrite (IH f b) by (intros y Hy; apply H; by right). by destruct b. }
  apply StronglySorted_app in Hs as (Hl & _ & Hs). apply StronglySorted_inv in Hs as [_ Hr]. rewrite Forall_forall in Hr.
  apply NoDup_app in Hn as (_ & Hd & Hn2). apply NoDup_cons in Hn2 as [Hn2 _].
  rewrite (Hf l1 _ false), (Hf l2 _ true); [done|..]; intros x Hx; unfold is_later.
  - specialize (Hr x Hx). unfold le_by in Hr. destruct (str_cmp n x) eqn:E; [|done..]. apply str_cmp_eq in E as ->. done.
  - specialize (Hl x n Hx ltac:(left)). unfold le_by in Hl. rewrite str_cmp_antisym. destruct (str_cmp x n); done.
Qed.

Lemma filter_perm {A} (f : A -> bool) l l' : l ≡ₚ l' -> length (List.filter f l) = length (List.filter f l').
Proof. induction 1; simpl; repeat case_match; simpl; congruence. Qed.

(** The names that the rotation takes: those with [max_files] newer ones. *)
Lemma elem_of_to_remove calls max_files dir name :
  name ∈ to_remove calls max_files dir <-> name ∈ logs calls dir /\ (max_files <= newer calls dir name)%nat.
Proof.
  unfold to_remove, newer. fold (logs calls dir). pose proof (logs_NoDup calls dir) as Hn.
  generalize dependent (logs calls dir). intros l Hn. pose proof (sort_by_perm str_cmp l) as Hp. pose proof (sort_by_sorted str_cmp l) as Hs.
  rewrite <- (filter_perm _ _ _ Hp). assert (NoDup (sort_by str_cmp l)) as Hns by by rewrite Hp.
  assert (name ∈ l <-> name ∈ sort_by str_cmp l) as -> by by rewrite Hp. rewrite <- (Permutation_length Hp).
  clear Hp Hn. generalize dependent (sort_by str_cmp l). clear l. intros l Hs Hn. split.
  - destruct (Nat.leb_spec (length l) max_files) as [Hle|Hlt]; [by intros ?%not_elem_of_nil|].
    intros H. apply list_elem_of_split in H as (a & b & H).
    rewrite <- (take_drop (length l - max_files) l) in Hn, Hs |- *. rewrite H in Hn, Hs |- *.
    rewrite <- app_assoc in Hn, Hs |- *. cbn [app] in *. split; [apply elem_of_app; right; left|].
    rewrite later_follow by done. rewrite length_app, length_drop. lia.
  - intros [Hin Hmax]. apply list_elem_of_split in Hin as (a & b & ->). rewrite later_follow in Hmax by done.
    rewrite length_app. cbn [length]. destruct (Nat.leb_spec (length a + S (length b)) max_files); [lia|].
    rewrite take_app, elem_of_app. right. destruct (length a + S (length b) - max_files - length a)%nat eqn:E; [lia|]. left.
Qed.

Lemma fold_delete_lookup (f : rstr -> bool) names dir name :
  fold_left (fun (dir : gmap rstr rstr) n => if f n then delete n dir else dir) names dir !! name
  = if f name && bool_decide (name ∈ names) then None else dir !! name.
Proof.
  revert dir. induction names as [|n names IH]; intros dir; cbn [fold_left]; [by rewrite andb_comm|]. rewrite IH.
  destruct (decide (n = name)) as [->|Hne].
  - rewrite (bool_decide_eq_true_2 (name ∈ name :: names)) by left. destruct (f name); cbn; [|done].
    case_bool_decide; [done|]. apply lookup_delete_eq.
  - assert (bool_decide (name ∈ n :: names) = bool_decide (name ∈ names)) as -> by
      (apply bool_decide_ext; rewrite elem_of_cons; naive_solver).
    destruct (f n); [|done]. by rewrite lookup_delete_ne.
Qed.

Lemma cleanup_lookup calls max_files dir name :
  cleanup_old_files calls max_files dir !! name
  = if removable calls name && listed calls name && is_log name && (max_files <=? newer calls dir name)%nat then None else dir !! name.
Proof.
  unfold cleanup_old_files. rewrite fold_delete_lookup.
  destruct (dir !! name) as [content|] eqn:E; [|by repeat case_match].
  assert (bool_decide (name ∈ to_remove calls max_files dir) = listed calls name && is_log name && (max_files <=? newer calls dir name)%nat) as ->.
  - apply eq_true_iff_eq. rewrite bool_decide_eq_true, elem_of_to_remove, elem_of_logs, !andb_true_iff, Nat.leb_le, E. naive_solver.
  - by rewrite !andb_assoc.
Qed.

Lemma write_tee_file_Some sha256_hex calls raw slug max_file_size max_files dir filename dir' :
  write_tee_file sha256_hex calls raw slug max_file_size max_files dir = (Some filename, dir') ->
  (exists epoch, clock calls = Some epoch /\ filename = file_name_of sha256_hex epoch slug)
  /\ dir' = cleanup_old_files calls max_files (<[filename := teed_content raw max_file_size]> dir).
Proof.
  unfold write_tee_file. destruct (mkdir_ok calls); [|done]. destruct (clock calls) as [epoch|]; [|done]. cbn [negb].
  destruct (open_ok calls); [|done]. destruct (written calls); [done|]. intros [= <- <-]. split; [by exists epoch|done].
Qed.

Lemma tee_name_is_log sha256_hex epoch slug : is_log (file_name_of sha256_hex epoch slug) = true.
Proof.
  unfold is_log, file_name_of.
  replace (dec epoch ++ lit "_" ++ sanitize_slug sha256_hex slug ++ lit ".log")
    with ((dec epoch ++ lit "_" ++ sanitize_slug sha256_hex slug) ++ ch "." :: lit "log") by (by rewrite <- !app_assoc).
  change (lit ".") with [ch "."]. rewrite rsplit_once_char by done.
  pose proof (dec_blen_pos epoch). by destruct (dec epoch) as [|c t].
Qed.

(** Where a recovery file is named, it was written with the whole output, or with
    its beginning and a note where the output is longer than a file may be, and the
    rotation then takes exactly the log files, the new one among them, that have at
    least [max_files] newer ones, as far as they are listed and can be removed. *)
Theorem tee_files_are_rotated sha256_hex calls raw slug max_file_size max_files dir filename dir' :
  write_tee_file sha256_hex calls raw slug max_file_size max_files dir = (Some filename, dir') ->
  let with_new := <[filename := teed_content raw max_file_size]> dir in
  ((blen raw <= max_file_size)%nat -> teed_content raw max_file_size = raw)
  /\ is_log filename = true
  /\ forall name, dir' !! name =
       if removable calls name && listed calls name && is_log name && (max_files <=? newer calls with_new name)%nat then None
       else with_new !! name.
Proof.
  intros H. apply write_tee_file_Some in H as [ (epoch & _ & ->) ->]. split; [|split].
  - intros Hle. unfold teed_content. by rewrite (proj2 (Nat.ltb_ge _ _)).
  - apply tee_name_is_log.
  - apply cleanup_lookup.
Qed.

(** Calls that all succeed. *)
Definition all_well (now : N) : Calls :=
  {| mkdir_ok := true; clock := Some now; open_ok := true; written := None; listed := fun _ => true; removable := fun _ => true |}.

Lemma tee_files_are_rotated_witness :
  let dir := <[lit "100_make.log" := lit "old"]> (<[lit "note.txt" := lit "kept"]> ∅) in
  let '(filename, dir') := write_tee_file (fun s => s) (all_well 200) (lit "long output") (lit "make all") 4 1 dir in
  filename = Some (lit "200_make_all.log") /\ dir' !! lit "100_make.log" = None /\ dir' !! lit "note.txt" = Some (lit "kept")
  /\ dir' !! lit "200_make_all.log" = Some (lit "long" ++ [10; 10] ++ lit "--- truncated at 4 bytes ---").
Proof.
  intros dir. destruct (write_tee_file _ _ _ _ _ _ _) as [r dir'] eqn:E.
  assert (r = Some (lit "200_make_all.log")) as -> by (apply (f_equal fst) in E; cbn [fst] in E; by rewrite <- E).
  destruct (tee_files_are_rotated _ _ _ _ _ _ _ _ _ E) as (_ & _ & H).
  rewrite !H. repeat split; vm_compute; reflexivity.
Defined.

(** A directory that keeps no file keeps not even the one that a hint names, and a file
    of the same second whose name sorts later displaces the new one. *)
Lemma new_file_can_be_removed :
  (write_tee_file (fun s => s) (all_well 200) (lit "output") (lit "make") 100 0 ∅ = (Some (lit "200_make.log"), ∅))
  /\ write_tee_file (fun s => s) (all_well 200) (lit "output") (lit "make") 100 1 {[lit "200_npm.log" := lit "other"]}
     = (Some (lit "200_make.log"), {[lit "200_npm.log" := lit "other"]}).
Proof. split; vm_compute; reflexivity. Qed.

(** ** The word of a hint *)

(** What a shell makes of the inside of double quotes: a backslash goes before the four
    characters that keep a meaning there (and joins lines), and an expansion is none of
    this text.  The text has to end with the quotes. *)
Fixpoint unquote (s : rstr) : option rstr :=
  match s with
  | [] => None
  | c :: s =>
      if c =? 34 then match s with [] => Some [] | _ => None end
      else if c =? ch "\" then
        match s with
        | [] => None
        | d :: s' => if is_escaped_char d then cons d <$> unquote s' else if d =? 10 then unquote s' else cons c <$> unquote s
        end
      else if is_escaped_char c then None
      else cons c <$> unquote s
  end.

(** What a shell makes of one word: a tilde and [$HOME] stand for the home directory, and
    a word without quotes has no special characters. *)
Definition shell_word (home w : rstr) : option rstr :=
  match w with
  | [] => None
  | c :: body =>
      if c =? 34 then
        match strip_prefix (lit "$HOME/") body with
        | Some rest => (fun r => home ++ lit "/" ++ r) <$> unquote rest
        | None => unquote body
        end
      else if needs_shell_quoting w then None
      else if c =? ch "~" then (fun r => home ++ lit "/" ++ r) <$> strip_prefix (lit "~/") w
      else Some w
  end.

Lemma unquote_escaped c t : is_escaped_char c = true -> unquote (ch "\" :: c :: t) = cons c <$> unquote t.
Proof. intros E. simpl. by rewrite E. Qed.

Lemma unquote_plain c t : is_escaped_char c = false -> unquote (c :: t) = cons c <$> unquote t.
Proof.
  intros E. cbn [unquote]. destruct (N.eqb_spec c 34) as [->|]; [done|]. destruct (N.eqb_spec c (ch "\")) as [->|]; [done|]. by rewrite E.
Qed.

Lemma unquote_escape s : unquote (escape_double_quoted_path s ++ [34]) = Some s.
Proof.
  unfold escape_double_quoted_path. induction s as [|c s IH]; [done|]. cbn [map concat].
  destruct (is_escaped_char c) eqn:E; cbn [app]; rewrite ?unquote_escaped, ?unquote_plain by done; by rewrite IH.
Qed.

(** A text in quotes begins with no dollar sign. *)
Lemma escape_no_dollar s t : strip_prefix (lit "$HOME/") (escape_double_quoted_path s ++ 34 :: t) = None.
Proof.
  destruct s as [|c s]; [done|]. unfold escape_double_quoted_path. cbn [map concat].
  destruct (is_escaped_char c) eqn:E; [done|]. cbn [app]. change (lit "$HOME/") with (ch "$" :: lit "HOME/"). cbn [strip_prefix].
  destruct (N.eqb_spec (ch "$") c) as [<-|]; [by vm_compute in E|done].
Qed.

Lemma tilde_word home relative : needs_shell_quoting (lit "~/" ++ relative) = false ->
  shell_word home (lit "~/" ++ relative) = Some (home ++ lit "/" ++ relative).
Proof.
  intros Eq. unfold shell_word. change (lit "~/" ++ relative) with (ch "~" :: ch "/" :: relative) at 1.
  cbv beta iota. rewrite Eq. change (ch "~" =? 34) with false. change (ch "~" =? ch "~") with true. cbv iota.
  assert (strip_prefix (lit "~/") (lit "~/" ++ relative) = Some relative) as -> by by apply strip_prefix_Some. done.
Qed.

Lemma quote_needs_quoting path : needs_shell_quoting (34 :: path) = true.
Proof. done. Qed.

(** The word that a hint names a file with is read back by a shell as the file's
    path, whatever characters it has, where the home directory is written without a
    slash at its end and the path does not begin with a tilde itself. *)
Theorem hinted_paths_read_back home path :
  ends_with (lit "/") home = false -> path <> [] -> path <> home -> starts_with (lit "~") path = false ->
  shell_word home (display_shell_path (Some home) path) = Some path.
Proof.
  intros Hh Hp Hne Ht. unfold display_shell_path, display_path. cbv [mbind option_bind]. unfold path_strip_prefix, str_eqb.
  rewrite bool_decide_eq_false_2, Hh by done.
  destruct (strip_prefix (home ++ lit "/") path) as [relative|] eqn:E.
  - apply strip_prefix_Some in E. destruct (needs_shell_quoting (lit "~/" ++ relative)) eqn:Eq; cbn [negb].
    + assert (strip_prefix (lit "~/") (lit "~/" ++ relative) = Some relative) as -> by by apply strip_prefix_Some.
      assert (forall t, shell_word home ([34] ++ lit "$HOME/" ++ t) = (fun r => home ++ lit "/" ++ r) <$> unquote t) as -> by done.
      rewrite unquote_escape. by rewrite E, <- app_assoc.
    + assert (shell_word home (lit "~/" ++ relative) = Some (home ++ lit "/" ++ relative)) as ->; [|by rewrite E, <- app_assoc].
      by apply tilde_word.
  - destruct (needs_shell_quoting path) eqn:Eq; cbn [negb].
    + assert (strip_prefix (lit "~/") path = None) as ->.
      { destruct (strip_prefix (lit "~/") path) as [r|] eqn:Er; [|done]. apply strip_prefix_Some in Er. subst path. done. }
      assert (shell_word home ([34] ++ escape_double_quoted_path path ++ [34]) = unquote (escape_double_quoted_path path ++ [34])) as ->.
      { cbn [app shell_word]. by rewrite escape_no_dollar. }
      apply unquote_escape.
    + unfold shell_word. destruct path as [|c path]; [done|]. rewrite Eq.
      assert ((c =? 34) = false) as -> by (apply N.eqb_neq; intros ->; by rewrite quote_needs_quoting in Eq).
      destruct (N.eqb_spec c (ch "~")) as [->|]; [|done]. by destruct path.
Qed.

Lemma hinted_paths_read_back_witness :
  display_shell_path (Some (lit "/home/a")) (lit "/home/a/my $files/1.log") = [34] ++ lit "$HOME/my \$files/1.log" ++ [34]
  /\ shell_word (lit "/home/a") (display_shell_path (Some (lit "/home/a")) (lit "/home/a/my $files/1.log")) = Some (lit "/home/a/my $files/1.log").
Proof. split; [reflexivity|]. by apply (hinted_paths_read_back (lit "/home/a") (lit "/home/a/my $files/1.log")). Defined.
End Tee.
