(* ===== verification/Fallback.v ===== *)
(** A command that the proxy does not know ([run_fallback] of
    [fork-core/rtk/src/main.rs]): the lookup of a declarative filter, the run, the
    recovery file for what the filter cuts, the guard, and what is printed.

    Running a program is an input: what it wrote, decoded with replacement characters,
    and its exit code. *)

From S2P Require Import Prelude RStr RewriteSegment Guard Filter Tee.
From Stdlib Require Import ZifyBool ZifyN ZifyNat.

Module Fallback.
Import Filter.

(** What a program did: its code is absent where a signal ended it. *)
Record Output := { stdout_raw : rstr; stderr_raw : rstr; code : option Z }.

(** What the process does: the error of the parser is shown, a text is printed, the
    filtered program did not start, or the program had the terminal. *)
Inductive Outcome :=
| ParserError
| Printed (shown : rstr) (exit_code : Z)
| NotStarted (exit_code : Z)
| Passed (exit_code : Z).

(** The command that filters are looked up for: the first argument without its path. *)
Definition lookup_cmd (arg0 : rstr) (args : list rstr) : rstr := join (lit " ") (default arg0 (file_name arg0) :: args).

Section Fallback.
Context {Regex RegexSet Num : Type} (out : Outside Regex RegexSet) (lib : Guard.Libraries Num).
Context (sha256_hex : rstr -> rstr) (env : Tee.Env) (home : option rstr) (calls : Tee.Calls).
Abbreviation Compiled := (CompiledFilter Regex RegexSet) (only parsing).

(** The hint of the recovery file, and the directory of those files. *)
Definition recovery (raw_command combined_raw : rstr) (success : bool) (exit_code : Z) (loss : Lossiness) (dir : gmap rstr rstr) :
  option rstr * gmap rstr rstr :=
  if negb success then Tee.tee_and_hint sha256_hex env home calls combined_raw raw_command exit_code dir
  else
    match loss with
    | NoLoss => (None, dir)
    | Tail tee_payload tail_offset => Tee.force_tee_tail_hint sha256_hex env home calls tee_payload raw_command tail_offset dir
    | Whole => Tee.force_tee_hint sha256_hex env home calls combined_raw raw_command dir
    end.

Definition is_lossy (loss : Lossiness) : bool := match loss with NoLoss => false | _ => true end.

(** The branch of a command that has a filter. *)
Definition run_filtered (filter : Compiled) (raw_command : rstr) (output : Output) (dir : gmap rstr rstr) : Outcome * gmap rstr rstr :=
  let exit_code := default 1%Z (code output) in
  let combined_raw := if filter_stderr filter then stdout_raw output ++ stderr_raw output else stdout_raw output in
  let success := bool_decide (code output = Some 0%Z) in
  let '(filtered, loss) := apply_filter_with_info out filter combined_raw in
  let '(hint, dir) := recovery raw_command combined_raw success exit_code loss dir in
  let candidate := match hint with Some hint => filtered ++ [10] ++ hint | None => filtered end in
  let shown := if is_lossy loss && negb (bool_decide (is_Some hint)) then combined_raw else Guard.never_worse lib combined_raw candidate in
  (Printed shown exit_code, dir).

(** [spawned] is the run with pipes, [inherited] the one with the terminal: [Some] of
    its exit code; both are [None] where the program does not start. *)
Definition run_fallback (args : list rstr) (no_toml : bool) (filters : list Compiled)
    (spawned : option Output) (inherited : option (option Z)) (dir : gmap rstr rstr) : Outcome * gmap rstr rstr :=
  match args with
  | [] => (ParserError, dir)
  | arg0 :: rest =>
      if one_of arg0 RewriteSegment.RTK_META_COMMANDS then (ParserError, dir)
      else
        let toml_match := if no_toml then None else find_filter_in out (lookup_cmd arg0 rest) filters in
        match (filter ← toml_match; if should_pass_through filter rest then None else Some filter) with
        | Some filter =>
            match spawned with
            | Some output => run_filtered filter (join (lit " ") args) output dir
            | None => (NotStarted 127, dir)
            end
        | None =>
            match inherited with
            | Some code => (Passed (default 1%Z code), dir)
            | None => (ParserError, dir)
            end
        end
  end.
End Fallback.

(** ** What is cut can be recovered *)

(** The recovery file that a hint names holds a text: where the text is not longer than a
    file may be, and the rotation keeps the file, the file is there with that text. *)
Definition recovers (env : Tee.Env) (calls : Tee.Calls) (dir dir' : gmap rstr rstr) (tee_dir filename text : rstr) : Prop :=
  exists config, Tee.config env = Some config /\ Tee.get_tee_dir env config = Some tee_dir
    /\ let dir1 := <[filename := Tee.teed_content text (Tee.max_file_size config)]> dir in
       ((blen text <= Tee.max_file_size config)%nat -> (Tee.newer calls dir1 filename < Tee.max_files config)%nat ->
        dir' !! filename = Some text).

Lemma write_recovers sha256_hex env calls config tee_dir text slug dir path dir' :
  Tee.config env = Some config -> Tee.get_tee_dir env config = Some tee_dir ->
  Tee.in_dir tee_dir (Tee.write_tee_file sha256_hex calls text slug (Tee.max_file_size config) (Tee.max_files config) dir) = (Some path, dir') ->
  exists filename, path = path_join tee_dir filename /\ recovers env calls dir dir' tee_dir filename text.
Proof.
  intros Hc Hd. unfold Tee.in_dir. destruct (Tee.write_tee_file _ _ _ _ _ _ _) as [r d] eqn:E. cbn [fst snd].
  destruct r as [filename|]; [|done]. intros [= <- <-]. exists filename. split; [done|]. exists config. split; [done|]. split; [done|].
  intros dir1 Hsize Hnew. apply Tee.write_tee_file_Some in E as [_ ->]. rewrite Tee.cleanup_lookup. fold dir1.
  rewrite (proj2 (Nat.leb_gt _ _)) by done. rewrite andb_false_r. unfold dir1. rewrite lookup_insert_eq. f_equal.
  unfold Tee.teed_content. by rewrite (proj2 (Nat.ltb_ge _ _)).
Qed.

Lemma force_tee_path_recovers sha256_hex env calls text slug dir path dir' :
  Tee.force_tee_path sha256_hex env calls text slug dir = (Some path, dir') ->
  exists tee_dir filename, path = path_join tee_dir filename /\ recovers env calls dir dir' tee_dir filename text.
Proof.
  unfold Tee.force_tee_path. destruct (_ || _); [done|]. destruct (Tee.config env) as [config|] eqn:Hc; [|done].
  destruct (Tee.enabled config); [|done]. cbn [negb]. destruct (Tee.get_tee_dir env config) as [tee_dir|] eqn:Hd; [|done].
  intros H. exists tee_dir. by eapply write_recovers.
Qed.

Lemma tee_raw_recovers sha256_hex env calls text slug exit_code dir path dir' :
  Tee.tee_raw sha256_hex env calls text slug exit_code dir = (Some path, dir') ->
  exists tee_dir filename, path = path_join tee_dir filename /\ recovers env calls dir dir' tee_dir filename text.
Proof.
  unfold Tee.tee_raw. destruct (Tee.disabled env); [done|]. destruct (Tee.config env) as [config|] eqn:Hc; [|done].
  destruct (Tee.get_tee_dir env config) as [tee_dir|] eqn:Hd; [|done]. cbv [mbind option_bind].
  destruct (Tee.should_tee _ _ _ _) as [tee_dir'|] eqn:Es; [|done].
  assert (tee_dir' = tee_dir) as -> by (unfold Tee.should_tee in Es; by repeat case_match; simplify_eq).
  intros H. exists tee_dir. by eapply write_recovers.
Qed.

(** A hint leads to what the filtered text leaves out: the whole raw text, or the lines
    behind the tail by their offset. *)
Definition leads_to_the_rest {Regex RegexSet} (out : Outside Regex RegexSet) (filter : CompiledFilter Regex RegexSet)
    (home : option rstr) (raw filtered hint path text : rstr) : Prop :=
  (text = raw /\ hint = Tee.format_hint home path)
  \/ exists offset seen marker, hint = Tee.format_tail_hint home offset path /\ filtered = join_lines (seen ++ [marker])
       /\ kept_lines out filter raw = seen ++ tail_from offset text.

Lemma on_path_Some format r hint dir' : Tee.on_path format r = (Some hint, dir') -> exists path, r = (Some path, dir') /\ hint = format path.
Proof. destruct r as [ [path|] d]; [|done]. intros [= <- <-]. by exists path. Qed.

Lemma recovery_leads {Regex RegexSet} (out : Outside Regex RegexSet) (filter : CompiledFilter Regex RegexSet)
    sha256_hex env home calls slug raw success exit_code filtered loss dir hint dir' :
  replacing_keeps_lines out -> replacements_are_lines filter ->
  apply_filter_with_info out filter raw = (filtered, loss) ->
  recovery sha256_hex env home calls slug raw success exit_code loss dir = (Some hint, dir') ->
  exists path tee_dir filename text, path = path_join tee_dir filename /\ recovers env calls dir dir' tee_dir filename text
    /\ leads_to_the_rest out filter home raw filtered hint path text.
Proof.
  intros Hlaw Hrules Happly. unfold recovery, Tee.tee_and_hint, Tee.force_tee_hint, Tee.force_tee_tail_hint.
  destruct success; cbn [negb]; [destruct loss as [|payload offset|]; [done|..]|];
    intros (path & Hpath & ->)%on_path_Some;
    [apply force_tee_path_recovers in Hpath|apply force_tee_path_recovers in Hpath|apply tee_raw_recovers in Hpath];
    destruct Hpath as (tee_dir & filename & Hjoin & Hrec); eexists path, tee_dir, filename, _; (split; [done|]); (split; [done|]).
  - right. apply apply_filter_told in Happly.
    destruct (told_tail _ _ _ _ _ (kept_lines_are_lines out filter raw Hlaw Hrules) Happly) as (seen & marker & Hf & Hk & _).
    by exists offset, seen, marker.
  - by left.
  - by left.
Qed.

(** C24: what a filter reports to have cut from the output of a command can be had back:
    the raw output is shown, or the filter reports no loss and its text is shown, or the
    text goes with a hint of a file.  That file holds the whole raw output, or the lines
    that are not shown from the line of the hint on, if the text is not longer than a file
    may be and fewer newer files than the directory keeps are there.  It is so for
    filters whose replacements put no line feeds into a line; lines that a filter strips
    without reporting a loss are not covered.  The exit code is the command's. *)
Theorem cut_output_is_recoverable {Regex RegexSet Num} (out : Outside Regex RegexSet) (lib : Guard.Libraries Num)
    sha256_hex env home calls filter slug output dir filtered loss :
  replacing_keeps_lines out -> replacements_are_lines filter ->
  let raw := if filter_stderr filter then stdout_raw output ++ stderr_raw output else stdout_raw output in
  apply_filter_with_info out filter raw = (filtered, loss) ->
  exists shown dir', run_filtered out lib sha256_hex env home calls filter slug output dir = (Printed shown (default 1%Z (code output)), dir')
    /\ (shown = raw
        \/ loss = NoLoss /\ shown = filtered
        \/ exists hint path tee_dir filename text,
             shown = filtered ++ [10] ++ hint /\ path = path_join tee_dir filename
             /\ recovers env calls dir dir' tee_dir filename text /\ leads_to_the_rest out filter home raw filtered hint path text).
Proof.
  intros Hlaw Hrules raw E. unfold run_filtered. fold raw. rewrite E.
  destruct (recovery _ _ _ _ _ _ _ _ _ _) as [hint dir'] eqn:Er.
  set (candidate := match hint with Some h => filtered ++ [10] ++ h | None => filtered end).
  eexists _, dir'. split; [done|].
  destruct (Guard.guards_are_guarded lib raw candidate) as (-> & _).
  destruct (Guard.guarded_spec lib true true raw candidate) as ([Hc| ->] & _).
  - destruct hint as [hint|]; cbn [is_Some].
    + rewrite andb_false_r, Hc. right. right. unfold candidate.
      destruct (recovery_leads _ _ _ _ _ _ _ _ _ _ _ _ _ _ _ Hlaw Hrules E Er) as (path & tee_dir & filename & text & H).
      by exists hint, path, tee_dir, filename, text.
    + destruct loss; cbn [is_lossy andb negb bool_decide]; [|by left..]. rewrite Hc. by right; left.
  - left. by destruct (_ && _).
Qed.

Lemma cut_output_is_recoverable_witness :
  let out := literals (fun _ => Err []) in
  let filter := head_filter (Some 1%nat) None [] in
  let bs := repeat (ch "b") 70 in
  let cs := repeat (ch "c") 70 in
  let raw := join_lines [lit "aaa"; bs; cs; []] in
  let config := {| Tee.enabled := true; Tee.mode := Tee.Failures; Tee.max_files := 2; Tee.max_file_size := 1000; Tee.directory := None |} in
  let env := {| Tee.disabled := false; Tee.config := Some config; Tee.env_dir := Some (lit "/home/a/tee"); Tee.data_local_dir := None |} in
  let output := {| stdout_raw := raw; stderr_raw := []; code := Some 0%Z |} in
  let '(filtered, loss) := apply_filter_with_info out filter raw in
  exists shown dir',
    run_filtered out Guard.mark_library (fun s => s) env (Some (lit "/home/a")) (Tee.all_well 7) filter (lit "make") output ∅ = (Printed shown 0, dir')
    /\ shown = join_lines [lit "aaa"; lit "... (2 lines omitted)"; lit "[see remaining: tail -n +2 ~/tee/7_make.log]"]
    /\ option_map (tail_from 2) (dir' !! lit "7_make.log") = Some [bs; cs]
    /\ (shown = raw \/ loss = NoLoss /\ shown = filtered
        \/ exists hint path tee_dir filename text,
             shown = filtered ++ [10] ++ hint /\ path = path_join tee_dir filename
             /\ recovers env (Tee.all_well 7) ∅ dir' tee_dir filename text
             /\ leads_to_the_rest out filter (Some (lit "/home/a")) raw filtered hint path text).
Proof.
  intros out filter bs cs raw config env output.
  destruct (apply_filter_with_info out filter raw) as [filtered loss] eqn:E.
  destruct (cut_output_is_recoverable out Guard.mark_library (fun s => s) env (Some (lit "/home/a")) (Tee.all_well 7)
    filter (lit "make") output ∅ filtered loss (literals_keep_lines _) ltac:(repeat constructor) E) as (shown & dir' & Hrun & H).
  exists shown, dir'. split; [exact Hrun|].
  assert (Hs : shown = join_lines [lit "aaa"; lit "... (2 lines omitted)"; lit "[see remaining: tail -n +2 ~/tee/7_make.log]"]).
  { apply (f_equal (fun r => match r.1 with Printed s _ => s | _ => [] end)) in Hrun. cbn [fst] in Hrun. rewrite <- Hrun. vm_compute. reflexivity. }
  split; [exact Hs|]. split; [|exact H].
  apply (f_equal snd) in Hrun. cbn [snd] in Hrun. rewrite <- Hrun. vm_compute. reflexivity.
Defined.
End Fallback.
