(* ===== verification/Candidate.v ===== *)
(** The evidence of a context plan ([crates/hzr-context/src/candidate.rs]): what the
    planner of the fork, its search and the memories found, as candidates of one form,
    each with its content, its identity by digest, its span and its symbol.

    JSON texts, SHA-256 and the paths of a workspace are parameters. *)

From S2P Require Import Prelude RStr F32 Json Namespace Budget.
From Stdlib Require Import ZifyBool ZifyN ZifyNat SpecFloat.

Module Candidate.

(** ** Data *)

Definition MAX_MEMORY_CONTENT_BYTES : nat := 4 * 1024.
Definition MAX_CANDIDATE_SYMBOLS : nat := 24.

Record ForkPlanCandidate := { rel_path : rstr; plan_score : f32; plan_sources : list rstr; estimated_tokens : N }.

Record ForkSymbolSpan := { start_line : N; end_line : N }.
Record ForkSymbol := { name : rstr; kind : rstr; symbol_span : ForkSymbolSpan }.

(** The outlines of the files, by path. *)
Abbreviation ForkSymbolIndex := (list ForkSymbol) (only parsing).
Abbreviation Outlines := (gmap rstr (list ForkSymbol)) (only parsing).

Inductive SymbolUnavailableReason := WholeFileCandidate | OutlineUnavailable | NoEnclosingSymbol | NotApplicable.

Record Provenance := {
  provenance_source : rstr;
  content_hash : rstr;
  generation : option rstr;
  canonical_ref : option rstr;
  derived_by : option rstr;
}.

(** The fields of a candidate that the choice under the budget does not read. *)
Record Details := {
  symbol_unavailable_reason : option SymbolUnavailableReason;
  freshness : rstr;
  trust : rstr;
  provenance : Provenance;
}.

Abbreviation ContextCandidate := (@Budget.ContextCandidate Details) (only parsing).

Record RetrievedCandidate := { candidate : ContextCandidate; content : rstr }.

Inductive ContextWarningCode :=
| PlannerFallback | PlannerUnavailable | SearchDegraded | SearchUnavailable | MemoryUnavailable | ContentUnavailable
| OutlineUnavailableWarning | WarningsTruncated.

#[export] Instance ContextWarningCode_eq_dec : EqDecision ContextWarningCode.
Proof. solve_decision. Defined.

Record ContextWarning := { code : ContextWarningCode; message : rstr }.

Record NormalizedSource := { candidates : list RetrievedCandidate; source_warnings : list ContextWarning }.

(** ** The answers of a search *)

Inductive SearchMode := ExactMode | SemanticMode | AutoMode.

#[export] Instance SearchMode_eq_dec : EqDecision SearchMode.
Proof. solve_decision. Defined.

Inductive SearchStrategy := ForkRgaiAdaptive | ForkRgaiBuiltin | ForkRgaiGrepai | ForkRgaiRipgrep | ForkRgaiFiles.

#[export] Instance SearchStrategy_eq_dec : EqDecision SearchStrategy.
Proof. solve_decision. Defined.

Inductive SearchFallbackCode := LegacyIndexRequiresMigration | SemanticIndexUnavailable | GrepaiUnavailable | RipgrepUnavailable.

Record SearchLine := { line : N; text : rstr }.
Record SearchSnippet := { snippet_lines : list SearchLine; matched_terms : list rstr }.
Record SearchHit := { hit_path : rstr; hit_score : spec_float; matched_lines : N; snippets : list SearchSnippet }.

Record SearchApiResponse := {
  query : rstr;
  search_path : rstr;
  total_hits : N;
  shown_hits : N;
  scanned_files : N;
  skipped_large : N;
  skipped_binary : N;
  hits : list SearchHit;
  effective_mode : SearchMode;
  strategy : SearchStrategy;
  fallback_code : option SearchFallbackCode;
  index_generation : option rstr;
  fallback_reason : option rstr;
  next_step : option rstr;
}.

(** ** Memories *)

Inductive MemorySource := ClaudeCode (session_id : rstr) (file_path : option rstr) | Conversation (thread_id : rstr) | Manual.
Inductive MemoryScope := User | Project | Org.

(** The fields of a memory that the namespaces do not read. *)
Record MemoryDetails := { weight : f32; summary : rstr; memory_source : MemorySource; scope : MemoryScope }.

Abbreviation MemoryRecord := (@Namespace.MemoryRecord MemoryDetails) (only parsing).

(** ** Errors *)

Inductive ContextError :=
| InvalidRequest (field reason : rstr)
| Index (error : rstr)
| ForkUnavailable (error : rstr)
| IndexNotReady (error : rstr)
| Fork (error : rstr)
| Accounting (error : rstr)
| ForkCommand (operation : rstr) (exit_code : option Z) (stderr : rstr)
| InvalidForkOutput (operation detail : rstr)
| Invariant (error : rstr).

(** ** Identity and size *)

(** [u32::try_from(index + 1).unwrap_or(u32::MAX)]. *)
Definition rank_of (index : nat) : N := N.min (N.of_nat index + 1) u32_max.

Definition finite_score (score : f32) : f32 := if F32.is_finite score then score else F32.zero.

Definition estimate_tokens (content : rstr) : Budget.TokenCount :=
  {| Budget.value := N.max (div_ceil (slen content) 4) 1; Budget.count_source := Budget.Estimate |}.

(** Steps down, and up, to the next boundary of a character: at most the length of one. *)
Fixpoint boundary_down (s : rstr) (at_ : nat) : nat :=
  match s with
  | [] => 0
  | c :: s => if (len_utf8 c <=? at_)%nat then (len_utf8 c + boundary_down s (at_ - len_utf8 c))%nat else 0
  end.

Fixpoint boundary_up (s : rstr) (at_ : nat) : nat :=
  match s with
  | [] => 0
  | c :: s => if (at_ =? 0)%nat then 0 else (len_utf8 c + boundary_up s (at_ - len_utf8 c))%nat
  end.

Definition marker (omitted : nat) (memory_id : rstr) : rstr :=
  [10; 10] ++ lit "[memory content bounded; " ++ dec (N.of_nat omitted) ++ lit " bytes omitted; fetch full memory id "
    ++ memory_id ++ lit " with `hzr memory get " ++ memory_id ++ lit "`]" ++ [10; 10].

(** [None] is a panic: a slice that is not at boundaries. *)
Definition bounded_memory_content (content memory_id : rstr) : option rstr :=
  if (blen content <=? MAX_MEMORY_CONTENT_BYTES)%nat then Some content
  else
    let available := (MAX_MEMORY_CONTENT_BYTES - blen (marker (blen content) memory_id))%nat in
    let head_end := boundary_down content (available / 2) in
    let tail_start := boundary_up content (blen content - (available - head_end)) in
    head ← slice_to head_end content;
    tail ← slice_from tail_start content;
    Some (head ++ marker (tail_start - head_end) memory_id ++ tail).

(** What the planner asks outside itself: digests, JSON texts with their numbers, and
    the path of a result in the workspace. *)
Record Outside (Num : Type) := {
  sha256_hex : rstr -> rstr;
  to_string : Json.Value Num -> rstr;
  number_of_f32 : f32 -> Json.Value Num;
  number_of_int : N -> Num;
  normalize_result : rstr -> result ContextError rstr;
}.
Arguments sha256_hex {Num}.
Arguments to_string {Num}.
Arguments number_of_f32 {Num}.
Arguments number_of_int {Num}.
Arguments normalize_result {Num}.

Section Candidate.
Context {Num : Type} (out : Outside Num).

(** The reference and the hash. *)
Definition content_identity (content : rstr) : rstr * rstr :=
  let content_hash := sha256_hex out content in (lit "sha256:" ++ content_hash, content_hash).

(** ** Plans *)

Definition number (n : N) : Json.Value Num := Json.Number (number_of_int out n).

Definition shown_symbol (symbol : ForkSymbol) : Json.Value Num :=
  Json.Object
    [(lit "symbol", Json.String (name symbol)); (lit "kind", Json.String (kind symbol));
     (lit "line_start", number (start_line (symbol_span symbol))); (lit "line_end", number (end_line (symbol_span symbol)))].

Definition evidence_of (path : rstr) (score : f32) (sources : list rstr) (estimated_tokens : N) (outline : list ForkSymbol) : Json.Value Num :=
  let shown := map shown_symbol (take MAX_CANDIDATE_SYMBOLS outline) in
  let omitted := (length outline - length shown)%nat in
  let evidence :=
    [(lit "path", Json.String path); (lit "score", number_of_f32 out score);
     (lit "sources", Json.Array (map Json.String sources)); (lit "estimated_tokens", number estimated_tokens);
     (lit "outline", Json.Array shown)] in
  Json.Object
    (if (0 <? omitted)%nat then
       Json.insert (Json.insert evidence (lit "outline_omitted") (number (N.of_nat omitted)))
         (lit "outline_recovery")
         (Json.String (dec (N.of_nat omitted) ++ lit " further symbols omitted; run `hzr rtk -- read " ++ path ++ lit " --outline` for all of them"))
     else evidence).

Definition normalize_plan_evidence (path : rstr) (score : f32) (sources : list rstr) (estimated_tokens : N) (outline : list ForkSymbol) : rstr :=
  to_string out (evidence_of path score sources estimated_tokens outline).

(** [iter.min()] and [iter.max()]. *)
Definition min_of (l : list N) : option N := match l with [] => None | x :: l => Some (fold_left N.min l x) end.
Definition max_of (l : list N) : option N := match l with [] => None | x :: l => Some (fold_left N.max l x) end.

Definition plan_candidate (generation : rstr) (pipeline_version : option rstr) (outlines : Outlines)
    (index : nat) (c : ForkPlanCandidate) : result ContextError RetrievedCandidate :=
  path ← normalize_result out (rel_path c);
  let outline := default [] (outlines !! path) in
  let content := normalize_plan_evidence path (plan_score c) (plan_sources c) (estimated_tokens c) outline in
  let '(content_ref, content_hash) := content_identity content in
  Ok {| candidate := {|
          Budget.id := lit "fork-plan:" ++ content_hash;
          Budget.source := Budget.Context;
          Budget.content_ref := content_ref;
          Budget.path := Some path;
          Budget.symbol := None;
          Budget.line_start := min_of (map (fun s => start_line (symbol_span s)) outline);
          Budget.line_end := max_of (map (fun s => end_line (symbol_span s)) outline);
          Budget.source_rank := rank_of index;
          Budget.relevance := finite_score (plan_score c);
          Budget.tokens := estimate_tokens content;
          Budget.rest := {|
            symbol_unavailable_reason := Some (if is_nil outline then OutlineUnavailable else WholeFileCandidate);
            freshness := generation;
            trust := lit "workspace:untrusted";
            provenance := {| provenance_source := lit "fork-core/memory-plan"; content_hash := content_hash;
                             generation := Some generation; canonical_ref := Some path; derived_by := pipeline_version |} |} |};
        content := content |}.

(** [collect::<Result<Vec<_>>>()] over the positions. *)
Fixpoint collect_from {A B} (f : nat -> A -> result ContextError B) (index : nat) (l : list A) : result ContextError (list B) :=
  match l with
  | [] => Ok []
  | a :: l => b ← f index a; bs ← collect_from f (S index) l; Ok (b :: bs)
  end.

Definition normalize_plan (selected : list ForkPlanCandidate) (generation : rstr) (pipeline_version : option rstr)
    (outlines : Outlines) : result ContextError NormalizedSource :=
  candidates ← collect_from (plan_candidate generation pipeline_version outlines) 0 selected;
  Ok {| candidates := candidates; source_warnings := [] |}.

(** ** Searches *)

Definition search_source (strategy : SearchStrategy) : Budget.CandidateSource :=
  match strategy with ForkRgaiBuiltin => Budget.Exact | _ => Budget.Index end.

Definition source_name (strategy : SearchStrategy) : rstr :=
  match strategy with
  | ForkRgaiAdaptive => lit "fork-core/rgai-adaptive"
  | ForkRgaiBuiltin => lit "fork-core/rgai-builtin"
  | ForkRgaiGrepai => lit "fork-core/rgai-grepai"
  | ForkRgaiRipgrep => lit "fork-core/rgai-ripgrep"
  | ForkRgaiFiles => lit "fork-core/rgai-files"
  end.

Definition hit_lines (hit : SearchHit) : list SearchLine := concat (map snippet_lines (snippets hit)).

Definition hit_content (hit : SearchHit) : rstr :=
  join [10] (map (fun l => lit "L" ++ dec (line l) ++ lit " " ++ text l) (hit_lines hit)).

(** The smallest symbol around the lines [start] to [fin]; the difference is one of
    [u32]s, which the filter keeps from wrapping. *)
Definition enclosing_symbol (index : list ForkSymbol) (start fin : N) : option ForkSymbol :=
  min_by_key (fun s => end_line (symbol_span s) - start_line (symbol_span s))
    (List.filter (fun s => (start_line (symbol_span s) <=? start) && (fin <=? end_line (symbol_span s))) index).

Definition search_candidate (response : SearchApiResponse) (generation : rstr) (outlines : Outlines) (index : nat) (hit : SearchHit) : RetrievedCandidate :=
  let content := hit_content hit in
  let '(content_ref, content_hash) := content_identity content in
  let line_start := min_of (map line (hit_lines hit)) in
  let line_end := max_of (map line (hit_lines hit)) in
  let outline := outlines !! hit_path hit in
  let symbol :=
    match line_start, line_end with
    | Some start, Some fin => outline ≫= fun index => name <$> enclosing_symbol index start fin
    | _, _ => None
    end in
  {| candidate := {|
       Budget.id := lit "fork-rgai:" ++ content_hash;
       Budget.source := search_source (strategy response);
       Budget.content_ref := content_ref;
       Budget.path := Some (hit_path hit);
       Budget.symbol := symbol;
       Budget.line_start := line_start;
       Budget.line_end := line_end;
       Budget.source_rank := rank_of index;
       Budget.relevance := finite_score (F32.of_f64 (hit_score hit));
       Budget.tokens := estimate_tokens content;
       Budget.rest := {|
         symbol_unavailable_reason :=
           match symbol with
           | Some _ => None
           | None => Some (match outline with Some _ => NoEnclosingSymbol | None => OutlineUnavailable end)
           end;
         freshness := generation;
         trust := lit "workspace:untrusted";
         provenance := {| provenance_source := source_name (strategy response); content_hash := content_hash;
                          generation := Some generation;
                          canonical_ref := Some (hit_path hit ++ lit "#L" ++ dec (default 0 line_start) ++ lit "-L" ++ dec (default 0 line_end));
                          derived_by := Some (lit "rtk-rgai-1.1.0-fork.1") |} |} |};
     content := content |}.

Definition omitted_snippets (hit : SearchHit) : ContextWarning :=
  {| code := ContentUnavailable; message := lit "fork rgai result " ++ hit_path hit ++ lit " omitted snippet content" |}.

(** The loop over the hits and their positions. *)
Fixpoint search_loop (response : SearchApiResponse) (generation : rstr) (outlines : Outlines) (index : nat) (hits : list SearchHit) : NormalizedSource :=
  match hits with
  | [] => {| candidates := []; source_warnings := [] |}
  | hit :: hits =>
      let next := search_loop response generation outlines (S index) hits in
      if is_empty (hit_content hit) then {| candidates := candidates next; source_warnings := omitted_snippets hit :: source_warnings next |}
      else {| candidates := search_candidate response generation outlines index hit :: candidates next; source_warnings := source_warnings next |}
  end.

Definition normalize_search (response : SearchApiResponse) (generation : rstr) (outlines : Outlines) : NormalizedSource :=
  search_loop response generation outlines 0 (hits response).

(** ** Memories *)

Definition memory_path (source : MemorySource) : option rstr :=
  match source with ClaudeCode _ file_path => file_path | Conversation _ | Manual => None end.

Definition memory_trust (scope : MemoryScope) : rstr :=
  match scope with User => lit "icm:user" | Project => lit "icm:project" | Org => lit "icm:org" end.

Definition memory_relevance (record : MemoryRecord) : f32 :=
  match F32.of_bits <$> Namespace.score record with
  | Some score => if F32.is_finite score then score else weight (Namespace.rest record)
  | None => weight (Namespace.rest record)
  end.

Definition memory_candidate (index : nat) (record : MemoryRecord) : option RetrievedCandidate :=
  content ← bounded_memory_content (summary (Namespace.rest record)) (Namespace.id record);
  let '(content_ref, content_hash) := content_identity content in
  Some {| candidate := {|
       Budget.id := lit "icm:" ++ content_hash;
       Budget.source := Budget.Memory;
       Budget.content_ref := content_ref;
       Budget.path := memory_path (memory_source (Namespace.rest record));
       Budget.symbol := None;
       Budget.line_start := None;
       Budget.line_end := None;
       Budget.source_rank := rank_of index;
       Budget.relevance := memory_relevance record;
       Budget.tokens := estimate_tokens content;
       Budget.rest := {|
         symbol_unavailable_reason := Some NotApplicable;
         freshness := Namespace.updated_at record;
         trust := memory_trust (scope (Namespace.rest record));
         provenance := {| provenance_source := lit "icm"; content_hash := content_hash;
                          generation := Some (lit "icm:" ++ Namespace.updated_at record);
                          canonical_ref := Some (lit "icm:memory:" ++ Namespace.id record); derived_by := None |} |} |};
     content := content |}.

Definition empty_memory (record : MemoryRecord) : ContextWarning :=
  {| code := ContentUnavailable; message := lit "ICM memory " ++ Namespace.id record ++ lit " has no summary content" |}.

Fixpoint memory_loop (index : nat) (records : list MemoryRecord) : option NormalizedSource :=
  match records with
  | [] => Some {| candidates := []; source_warnings := [] |}
  | record :: records =>
      if is_empty (summary (Namespace.rest record)) then
        next ← memory_loop (S index) records;
        Some {| candidates := candidates next; source_warnings := empty_memory record :: source_warnings next |}
      else
        c ← memory_candidate index record;
        next ← memory_loop (S index) records;
        Some {| candidates := c :: candidates next; source_warnings := source_warnings next |}
  end.

Definition normalize_memory (records : list MemoryRecord) : option NormalizedSource := memory_loop 0 records.
End Candidate.

(** ** Long memories *)

Lemma boundary_down_split s n : exists a b, s = a ++ b /\ blen a = boundary_down s n /\ (blen a <= n)%nat.
Proof.
  revert n. induction s as [|c s IH]; intros n; cbn [boundary_down]; [by exists [], []; split; [|split; [|simpl; lia]]|].
  destruct (Nat.leb_spec (len_utf8 c) n); [|by exists [], (c :: s); split; [|split; [|simpl; lia]]].
  destruct (IH (n - len_utf8 c)%nat) as (a & b & -> & Ha & Hle). exists (c :: a), b. cbn [blen app]. split; [done|]. lia.
Qed.

Lemma boundary_up_split s n : (n <= blen s)%nat -> exists a b, s = a ++ b /\ blen a = boundary_up s n /\ (n <= blen a)%nat.
Proof.
  revert n. induction s as [|c s IH]; intros n Hn; cbn [boundary_up]; [by exists [], []; split; [|split; [|simpl in *; lia]]|].
  destruct (Nat.eqb_spec n 0) as [->|Hne]; [by exists [], (c :: s); split; [|split; [|simpl; lia]]|]. cbn [blen] in Hn.
  destruct (IH (n - len_utf8 c)%nat ltac:(lia)) as (a & b & -> & Ha & Hle). exists (c :: a), b. cbn [blen app]. split; [done|]. lia.
Qed.

(** Two cuts of one text, the first before the second. *)
Lemma two_cuts (s a b c d : rstr) : s = a ++ b -> s = c ++ d -> (blen a <= blen c)%nat -> exists m, s = a ++ m ++ d /\ blen m = (blen c - blen a)%nat.
Proof.
  intros Hab Hcd Hle. rewrite Hab in Hcd. revert b c Hcd Hle Hab. clear. revert s. induction a as [|x a IH]; intros s b c Hcd Hle Hab.
  - simpl in *. exists c. subst. split; [done|lia].
  - destruct c as [|y c]; [simpl in Hle; pose proof (len_utf8_pos x); lia|]. injection Hcd as <- Hcd.
    destruct (IH (a ++ b) b c Hcd ltac:(simpl in Hle; lia) eq_refl) as (m & Hm & Hl). exists m. subst s. simpl. rewrite Hm. split; [done|lia].
Qed.

Lemma marker_mono m n id : (m <= n)%nat -> (blen (marker m id) <= blen (marker n id))%nat.
Proof.
  intros H. unfold marker. rewrite !blen_app. pose proof (dec_blen_mono (N.of_nat m) (N.of_nat n) ltac:(lia)). lia.
Qed.

(** The two cuts keep at most [available] bytes. *)
Lemma memory_cuts content available : (available <= blen content)%nat ->
  let head_end := boundary_down content (available / 2) in
  let tail_start := boundary_up content (blen content - (available - head_end)) in
  exists first omitted rest, content = first ++ omitted ++ rest
  /\ slice_to head_end content = Some first /\ slice_from tail_start content = Some rest
  /\ blen omitted = (tail_start - head_end)%nat /\ (blen first + blen rest <= available)%nat.
Proof.
  intros Hle head_end tail_start.
  destruct (boundary_down_split content (available / 2)) as (a & b & Hab & Ha & Hla). fold head_end in Ha.
  assert (available / 2 <= available)%nat as Hhalf by (apply Nat.Div0.div_le_upper_bound; lia).
  destruct (boundary_up_split content (blen content - (available - head_end))) as (c & d & Hcd & Hc & Hlc); [lia|]. fold tail_start in Hc.
  destruct (two_cuts content a b c d Hab Hcd) as (m & Hm & Hlm); [lia|].
  exists a, m, d. rewrite <- Ha, <- Hc. split_and!; [done| | |done|].
  - rewrite Hab. apply slice_to_app.
  - rewrite Hcd. apply slice_from_app.
  - assert (blen content = blen c + blen d)%nat by (rewrite Hcd at 1; apply blen_app). lia.
Qed.

Lemma bounded_memory_content_Some content memory_id : exists shown, bounded_memory_content content memory_id = Some shown.
Proof.
  unfold bounded_memory_content. generalize MAX_MEMORY_CONTENT_BYTES. intros most.
  destruct (Nat.leb_spec (blen content) most) as [Hle|Hlt]; [by eexists|]. cbv zeta.
  destruct (memory_cuts content (most - blen (marker (blen content) memory_id))) as (a & m & d & _ & -> & -> & _); [lia|]. by eexists.
Qed.

(** A memory's content never panics; one within the bound stays as it is, and of a
    longer one the beginning and the end are kept around a marker that names exactly
    the bytes between them, within the bound wherever the marker itself, with the
    memory's name, is. *)
Theorem memories_are_bounded content memory_id :
  exists shown, bounded_memory_content content memory_id = Some shown
  /\ if (blen content <=? MAX_MEMORY_CONTENT_BYTES)%nat then shown = content
     else exists first omitted rest,
       content = first ++ omitted ++ rest /\ shown = first ++ marker (blen omitted) memory_id ++ rest
       /\ ((blen (marker (blen content) memory_id) <= MAX_MEMORY_CONTENT_BYTES)%nat -> (blen shown <= MAX_MEMORY_CONTENT_BYTES)%nat).
Proof.
  unfold bounded_memory_content. generalize MAX_MEMORY_CONTENT_BYTES. intros most.
  destruct (Nat.leb_spec (blen content) most) as [Hle|Hlt]; [by exists content|]. cbv zeta.
  destruct (memory_cuts content (most - blen (marker (blen content) memory_id))) as (a & m & d & Hc & -> & -> & Hm & Hb); [lia|].
  eexists. split; [done|]. exists a, m, d. rewrite Hm. split; [done|]. split; [done|]. intros Hmark. rewrite <- Hm, !blen_app.
  assert (blen m <= blen content)%nat as Hlm by (rewrite Hc, !blen_app; lia).
  pose proof (marker_mono _ _ memory_id Hlm). lia.
Qed.

(** ** Spans and symbols *)

Lemma min_of_spec l m : min_of l = Some m -> m ∈ l /\ forall x, x ∈ l -> m <= x.
Proof.
  destruct l as [|a l]; [done|]. intros [= <-]. revert a. induction l as [|b l IH]; intros a; cbn [fold_left].
  - split; [by left|]. intros x ->%list_elem_of_singleton. done.
  - destruct (IH (N.min a b)) as [Hin Hle]. split.
    + apply elem_of_cons in Hin as [->|Hin]; [|by right; right]. destruct (N.min_spec a b) as [ [_ ->]|[_ ->] ]; [by left|by right; left].
    + intros x [->|[->|Hx]%elem_of_cons]%elem_of_cons; [pose proof (Hle _ (list_elem_of_here _ _)); lia..|]. apply Hle. by right.
Qed.

Lemma max_of_spec l m : max_of l = Some m -> m ∈ l /\ forall x, x ∈ l -> x <= m.
Proof.
  destruct l as [|a l]; [done|]. intros [= <-]. revert a. induction l as [|b l IH]; intros a; cbn [fold_left].
  - split; [by left|]. intros x ->%list_elem_of_singleton. done.
  - destruct (IH (N.max a b)) as [Hin Hle]. split.
    + apply elem_of_cons in Hin as [->|Hin]; [|by right; right]. destruct (N.max_spec a b) as [ [_ ->]|[_ ->] ]; [by right; left|by left].
    + intros x [->|[->|Hx]%elem_of_cons]%elem_of_cons; [pose proof (Hle _ (list_elem_of_here _ _)); lia..|]. apply Hle. by right.
Qed.

(** A symbol that spans the lines from [start] to [fin]. *)
Definition encloses (s : ForkSymbol) (start fin : N) : Prop := start_line (symbol_span s) <= start /\ fin <= end_line (symbol_span s).

Definition span_size (s : ForkSymbol) : N := end_line (symbol_span s) - start_line (symbol_span s).

Lemma enclosing_symbol_spec index start fin s :
  start <= fin -> enclosing_symbol index start fin = Some s ->
  s ∈ index /\ encloses s start fin /\ start_line (symbol_span s) <= end_line (symbol_span s)
  /\ forall s', s' ∈ index -> encloses s' start fin -> span_size s <= span_size s'.
Proof.
  intros Hle H. apply min_by_key_spec in H as [Hin Hmin]. apply list_elem_of_In, List.filter_In in Hin as [Hin Hs].
  unfold encloses. split; [by apply list_elem_of_In|]. split; [lia|]. split; [lia|]. intros s' Hs' Henc. apply Hmin.
  apply list_elem_of_In, List.filter_In. split; [by apply list_elem_of_In|]. lia.
Qed.

Lemma enclosing_symbol_None index start fin s : enclosing_symbol index start fin = None -> s ∈ index -> ~ encloses s start fin.
Proof.
  intros H Hin [H1 H2]. apply min_by_key_None in H.
  assert (s ∈ List.filter (fun s => (start_line (symbol_span s) <=? start) && (fin <=? end_line (symbol_span s))) index) as Hf.
  { apply list_elem_of_In, List.filter_In. split; [by apply list_elem_of_In|]. lia. }
  rewrite H in Hf. by apply not_elem_of_nil in Hf.
Qed.

Lemma search_loop_spec {Num} (out : Outside Num) response generation outlines index hs :
  let n := search_loop out response generation outlines index hs in
  (forall c, c ∈ candidates n -> exists i hit, hs !! i = Some hit /\ hit_content hit <> []
     /\ c = search_candidate out response generation outlines (index + i) hit)
  /\ (forall i hit, hs !! i = Some hit ->
        if is_empty (hit_content hit) then omitted_snippets hit ∈ source_warnings n
        else search_candidate out response generation outlines (index + i) hit ∈ candidates n).
Proof.
  revert index. induction hs as [|h hs IH]; intros index; cbn [search_loop].
  - split; [by intros c ?%not_elem_of_nil|done].
  - destruct (IH (S index)) as [IH1 IH2]. destruct (is_empty (hit_content h)) eqn:E; cbn [candidates source_warnings].
    + split.
      * intros c Hc. destruct (IH1 c Hc) as (i & hit & Hi & Hne & ->). exists (S i), hit. by rewrite Nat.add_succ_r.
      * intros [|i] hit; cbn; [intros [= <-]; rewrite E; left|]. intros Hi. specialize (IH2 i hit Hi). rewrite Nat.add_succ_r.
        destruct (is_empty (hit_content hit)); [by right|done].
    + split.
      * intros c [->|Hc]%elem_of_cons.
        -- exists 0%nat, h. rewrite Nat.add_0_r. split; [done|]. split; [by destruct (hit_content h)|done].
        -- destruct (IH1 c Hc) as (i & hit & Hi & Hne & ->). exists (S i), hit. by rewrite Nat.add_succ_r.
      * intros [|i] hit; cbn; [intros [= <-]; rewrite E, Nat.add_0_r; left|]. intros Hi. specialize (IH2 i hit Hi). rewrite Nat.add_succ_r.
        destruct (is_empty (hit_content hit)); [done|by right].
Qed.

(** The span of a candidate, and its symbol: the first of the smallest around the span. *)
Definition located (outlines : Outlines) (hit : SearchHit) (c : ContextCandidate) : Prop :=
  exists start fin, Budget.line_start c = Some start /\ Budget.line_end c = Some fin
  /\ start ∈ map line (hit_lines hit) /\ fin ∈ map line (hit_lines hit)
  /\ (forall l, l ∈ hit_lines hit -> start <= line l <= fin)
  /\ match Budget.symbol c with
     | Some n => exists index s, outlines !! hit_path hit = Some index /\ s ∈ index /\ name s = n /\ encloses s start fin
                   /\ forall s', s' ∈ index -> encloses s' start fin -> span_size s <= span_size s'
     | None => forall index s, outlines !! hit_path hit = Some index -> s ∈ index -> ~ encloses s start fin
     end.

Lemma hit_content_lines hit : hit_content hit <> [] -> exists l ls, hit_lines hit = l :: ls.
Proof. unfold hit_content. destruct (hit_lines hit) as [|l ls]; [done|]. intros _. by exists l, ls. Qed.

Lemma search_candidate_located {Num} (out : Outside Num) response generation outlines index hit :
  hit_content hit <> [] -> located outlines hit (candidate (search_candidate out response generation outlines index hit)).
Proof.
  intros Hne. apply hit_content_lines in Hne as (l & ls & Hls).
  assert (exists start, min_of (map line (hit_lines hit)) = Some start) as [start Hmin] by (rewrite Hls; by eexists).
  assert (exists fin, max_of (map line (hit_lines hit)) = Some fin) as [fin Hmax] by (rewrite Hls; by eexists).
  destruct (min_of_spec _ _ Hmin) as [Hs Hsle]. destruct (max_of_spec _ _ Hmax) as [Hf Hfle].
  assert (start <= fin) as Hle by by apply Hfle.
  exists start, fin. unfold search_candidate. destruct (content_identity out (hit_content hit)) as [r h].
  cbn [candidate Budget.line_start Budget.line_end Budget.symbol]. rewrite Hmin, Hmax. split_and!; try done.
  - intros x Hx. assert (line x ∈ map line (hit_lines hit)) as Hin by (apply list_elem_of_In, in_map; by apply list_elem_of_In).
    by split; [apply Hsle|apply Hfle].
  - destruct (outlines !! hit_path hit) as [index0|]; cbv [mbind option_bind]; [|done].
    destruct (enclosing_symbol index0 start fin) as [s|] eqn:E; cbn.
    + destruct (enclosing_symbol_spec _ _ _ _ Hle E) as (Hin & Henc & _ & Hm). by exists index0, s.
    + intros index' s [= <-] Hin. by eapply enclosing_symbol_None.
Qed.

(** Every hit of a search with text becomes one candidate, in its place of the
    ranking and with its own text, and every other hit a warning; and no candidate is
    anything else: its span is exactly that of its lines, and its symbol is a smallest
    of its file's outline around that span, or absent where none is there. *)
Theorem search_candidates_are_located {Num} (out : Outside Num) response generation outlines :
  let n := normalize_search out response generation outlines in
  (forall i hit, hits response !! i = Some hit ->
     if is_empty (hit_content hit) then omitted_snippets hit ∈ source_warnings n
     else exists c, c ∈ candidates n /\ content c = hit_content hit /\ Budget.source_rank (candidate c) = rank_of i)
  /\ forall c, c ∈ candidates n -> exists i hit,
       hits response !! i = Some hit /\ content c = hit_content hit /\ Budget.path (candidate c) = Some (hit_path hit)
       /\ Budget.source_rank (candidate c) = rank_of i /\ located outlines hit (candidate c).
Proof.
  intros n. destruct (search_loop_spec out response generation outlines 0 (hits response)) as [H1 H2].
  fold (normalize_search out response generation outlines) in H1, H2. fold n in H1, H2. split.
  - intros i hit Hi. specialize (H2 i hit Hi). destruct (is_empty (hit_content hit)); [done|].
    eexists. split; [exact H2|]. unfold search_candidate. by destruct (content_identity out (hit_content hit)).
  - intros c Hc. destruct (H1 c Hc) as (i & hit & Hi & Hne & ->). exists i, hit.
    pose proof (search_candidate_located out response generation outlines (0 + i) hit Hne) as Hl. cbn [Nat.add] in *.
    split_and!; [done|..|exact Hl]; unfold search_candidate; by destruct (content_identity out (hit_content hit)).
Qed.

(** ** Identities *)

(** A candidate whose reference is the digest of its content. *)
Definition identified {Num} (out : Outside Num) (c : RetrievedCandidate) : Prop :=
  Budget.content_ref (candidate c) = lit "sha256:" ++ sha256_hex out (content c).

Lemma search_identified {Num} (out : Outside Num) response generation outlines :
  Forall (identified out) (candidates (normalize_search out response generation outlines)).
Proof.
  apply Forall_forall. intros c Hc. unfold normalize_search in Hc.
  destruct (search_loop_spec out response generation outlines 0 (hits response)) as [H1 _].
  by destruct (H1 c Hc) as (i & hit & _ & _ & ->).
Qed.

Lemma plan_identified {Num} (out : Outside Num) selected generation pipeline outlines n :
  normalize_plan out selected generation pipeline outlines = Ok n -> Forall (identified out) (candidates n).
Proof.
  unfold normalize_plan. intros H. inv_ok. subst. cbn [candidates].
  assert (forall i l cs, collect_from (plan_candidate out generation pipeline outlines) i l = Ok cs -> Forall (identified out) cs) as Hcol; [|by eapply Hcol].
  intros i l. revert i. induction l as [|a l IH]; intros i cs Hcs; cbn [collect_from] in Hcs; [by injection Hcs as <-|].
  inv_ok. subst. constructor; [|by eapply IH]. unfold plan_candidate, content_identity in *. inv_ok. by subst.
Qed.

Lemma memory_identified {Num} (out : Outside Num) records : exists n, normalize_memory out records = Some n /\ Forall (identified out) (candidates n).
Proof.
  unfold normalize_memory. generalize 0%nat. induction records as [|r records IH]; intros i; cbn [memory_loop]; [by eexists|].
  destruct (IH (S i)) as (next & -> & Hnext). cbv [mbind option_bind]. destruct (is_empty _); [by eexists|].
  unfold memory_candidate. destruct (bounded_memory_content_Some (summary (Namespace.rest r)) (Namespace.id r)) as [shown ->].
  cbv [mbind option_bind]. eexists. split; [done|]. by constructor.
Qed.
End Candidate.
