(* ===== verification/Planner.v ===== *)
(** The context planner ([crates/hzr-context/src/planner.rs]): how a search is routed
    and degraded, how its hits are completed, how a plan is put together from code and
    memories, and how its answer is fitted into the token budget.

    The runs of the fork, the index, the memory service and the files are inputs; JSON
    lengths and SHA-256 are parameters. *)

From S2P Require Import Prelude RStr Utf8 F32 Json Namespace Budget Candidate.
From Stdlib Require Import ZifyBool ZifyN ZifyNat SpecFloat.

Module Planner.
Import Candidate.

Definition MAX_INTENT_BYTES : N := 64 * 1024.
Definition MAX_RETRIEVAL_RESULTS : N := 100.
Definition MAX_WARNINGS : nat := 8.
Definition MAX_WARNING_BYTES : nat := 512.
Definition SEMANTIC_READY_BUDGET_DIVISOR : N := 4.
Definition SEMANTIC_READY_BUDGET_MIN_MS : N := 1000.
Definition SEMANTIC_READY_BUDGET_MAX_MS : N := 8000.
Definition FORK_TIMEOUT_MARGIN_MS : N := 500.
Definition PLAN_WEIGHT : f32 := F32.one.
Definition MEMORY_WEIGHT : f32 := F32.of_parts 13421773 (-24).
Definition MAX_SNIPPET_REPAIR_BYTES : N := 4 * 1024 * 1024.

(** ** Requests *)

Record SearchRequest := {
  s_query : rstr;
  s_path : option rstr;
  s_limit : N;
  s_mode : SearchMode;
  include_content : bool;
}.

Record PlanRequest := {
  max_tokens : option N;
  no_memory : bool;
  intent : rstr;
  p_path : option rstr;
  topic : option rstr;
  search_limit : N;
  memory_limit : N;
}.

Definition validate_text (field text : rstr) (max_bytes : N) : result ContextError unit :=
  _ ← guard_err (is_empty (trim text)) (InvalidRequest field (field ++ lit " must not be empty"));
  guard_err (max_bytes <? slen text) (InvalidRequest field (field ++ lit " must not exceed " ++ dec max_bytes ++ lit " bytes")).

Definition validate_limit (field : rstr) (limit : N) : result ContextError unit :=
  guard_err (negb (between 1 MAX_RETRIEVAL_RESULTS limit))
    (InvalidRequest field (field ++ lit " must be between 1 and " ++ dec MAX_RETRIEVAL_RESULTS)).

Definition validate_optional_path (path : option rstr) : result ContextError unit :=
  guard_err (match path with Some p => is_empty p | None => false end) (InvalidRequest (lit "path") (lit "path must not be empty")).

Definition validate_search (r : SearchRequest) : result ContextError unit :=
  _ ← validate_text (lit "query") (s_query r) MAX_INTENT_BYTES;
  _ ← validate_limit (lit "limit") (s_limit r);
  validate_optional_path (s_path r).

Definition topic_error (error : Namespace.MemoryError) : ContextError :=
  match error with Namespace.InvalidRequest message => InvalidRequest (lit "topic") (lit "ICM request is invalid: " ++ message) end.

Definition map_topic {A} (r : result Namespace.MemoryError A) : result ContextError A :=
  match r with Ok a => Ok a | Err e => Err (topic_error e) end.

Definition validate_plan (r : PlanRequest) : result ContextError unit :=
  _ ← validate_text (lit "intent") (intent r) MAX_INTENT_BYTES;
  _ ← guard_err (bool_decide (max_tokens r = Some 0)) (InvalidRequest (lit "max_tokens") (lit "must be positive"));
  _ ← validate_limit (lit "search_limit") (search_limit r);
  _ ← validate_limit (lit "memory_limit") (memory_limit r);
  _ ← validate_optional_path (p_path r);
  match topic r with Some topic => map_topic (Namespace.validate_memory_kind topic) | None => Ok tt end.

(** ** Identifiers and literals *)

(** [bytes.windows(2).any(..)] and [bytes.windows(3).any(..)]. *)
Fixpoint any_pair (f : N -> N -> bool) (bytes : list N) : bool :=
  match bytes with
  | a :: (b :: _) as rest => f a b || any_pair f rest
  | _ => false
  end.

Fixpoint any_triple (f : N -> N -> N -> bool) (bytes : list N) : bool :=
  match bytes with
  | a :: (b :: c :: _) as rest => f a b c || any_triple f rest
  | _ => false
  end.

Definition is_camel (bytes : list N) : bool := any_pair (fun a b => is_ascii_lowercase a && is_ascii_uppercase b) bytes.

Definition identifier_shaped (token : rstr) : bool :=
  if is_empty token || (256 <? slen token) || existsb is_whitespace token || negb (existsb is_ascii_alphanumeric token) then false
  else
    let bytes := utf8 token in
    contains (lit "_") token || contains (lit "::") token || contains (lit "->") token || ends_with (lit "()") token
    || (starts_with (lit "-") token
        && match skip_while (N.eqb (ch "-")) token with c :: _ => is_ascii_alphanumeric c | [] => false end)
    || is_camel bytes
    || any_triple (fun a b c => (b =? ch ".") && is_ascii_alphanumeric a && is_ascii_alphabetic c) bytes.

(** The text between two quotes. *)
Definition quoted_by (quote : char) (query : rstr) : option rstr :=
  rest ← strip_prefix [quote] query;
  inner ← strip_suffix [quote] rest;
  if negb (is_empty (trim inner)) && negb (contains_char quote inner) then Some inner else None.

Fixpoint first_some {A B} (f : A -> option B) (l : list A) : option B :=
  match l with
  | [] => None
  | a :: l => match f a with Some b => Some b | None => first_some f l end
  end.

Definition auto_exact_literal (query : rstr) : option rstr :=
  let query := trim query in
  match first_some (fun quote => quoted_by quote query) [34; 39; ch "`"] with
  | Some inner => Some inner
  | None => if identifier_shaped query then Some query else None
  end.

(** [iter.max_by_key(key)]: the last of the greatest. *)
Definition max_by_key {A} (key : A -> nat) (l : list A) : option A :=
  match l with
  | [] => None
  | x :: l => Some (fold_left (fun best y => if (key best <=? key y)%nat then y else best) l x)
  end.

Definition exact_identifier (intent : rstr) : option rstr :=
  let trimmed token := trim_matches (fun c => negb (is_ascii_alphanumeric c) && negb (c =? ch "_") && negb (c =? ch ":")) token in
  max_by_key blen
    (List.filter (fun token => contains (lit "_") token || contains (lit "::") token || is_camel (utf8 token))
       (List.filter (fun token => between 3 256 (slen token)) (map trimmed (split_whitespace intent)))).

(** ** Kinds of search *)

Inductive ForkSearchKind := Adaptive | Literal | Lexical.

#[export] Instance ForkSearchKind_eq_dec : EqDecision ForkSearchKind.
Proof. solve_decision. Defined.

Definition kind_from (mode : SearchMode) : ForkSearchKind :=
  match mode with ExactMode => Literal | SemanticMode | AutoMode => Adaptive end.

Definition degraded_for (query : rstr) : ForkSearchKind :=
  match auto_exact_literal query with Some _ => Literal | None => Lexical end.

Definition effective_mode_of (kind : ForkSearchKind) (requested : SearchMode) : SearchMode :=
  match kind with Literal => ExactMode | Adaptive | Lexical => requested end.

Inductive ForkSearchBackend := Grepai | Ripgrep | Files | Builtin.

Definition backend_strategy (backend : ForkSearchBackend) : SearchStrategy :=
  match backend with
  | Grepai => ForkRgaiGrepai
  | Ripgrep => ForkRgaiRipgrep
  | Files => ForkRgaiFiles
  | Builtin => ForkRgaiBuiltin
  end.

Definition semantic_failure_degrades (error : ContextError) : bool :=
  match error with
  | Index _ | IndexNotReady _ | Fork _ | ForkCommand _ _ _ | InvalidForkOutput _ _ => true
  | _ => false
  end.

Definition fork_backend_fallback_code (requested_mode : SearchMode) (strategy : SearchStrategy) : option SearchFallbackCode :=
  match requested_mode, strategy with
  | ExactMode, _ | _, ForkRgaiGrepai => None
  | _, ForkRgaiRipgrep => Some GrepaiUnavailable
  | _, ForkRgaiBuiltin => Some RipgrepUnavailable
  | _, _ => None
  end.

Definition fork_search_args (query path workspace_root : rstr) (kind : ForkSearchKind) (limit : N) (include_content : bool) : list rstr :=
  [lit "rgai"; lit "--path"; path; lit "--project-root"; workspace_root; lit "--max"; dec limit; lit "--json"]
    ++ match kind with Literal => [lit "--literal"] | Lexical => [lit "--builtin"] | Adaptive => [] end
    ++ (if include_content then [] else [lit "--compact"])
    ++ [lit "--"; query].

(** ** Hits *)

Record ForkSearchLine := { f_line : N; f_text : rstr }.
Record ForkSearchSnippet := { f_lines : list ForkSearchLine; f_terms : list rstr }.
Record ForkSearchHit := { f_path : rstr; f_score : spec_float; f_matched_lines : N; f_snippets : list ForkSearchSnippet }.

Record ForkSearchOutput := {
  f_query : rstr;
  f_total_hits : N;
  f_scanned_files : N;
  f_skipped_large : N;
  f_skipped_binary : N;
  f_hits : list ForkSearchHit;
  parse_error : option rstr;
  backend : option ForkSearchBackend;
}.

Definition hit_relative_path (search_path hit_path : rstr) (workspace_relative : bool) : rstr :=
  if is_empty hit_path then search_path
  else if workspace_relative || str_eqb search_path (lit ".") then hit_path
  else if starts_with (lit "/") hit_path then hit_path
  else path_join search_path hit_path.

Definition repair_snippet_line (fragment : rstr) (actual : option rstr) : rstr :=
  match actual with
  | None => fragment
  | Some actual =>
      let complete := trim actual in
      if is_empty fragment || str_eqb fragment complete || negb (contains fragment complete) then fragment else complete
  end.

(** The workspace of a request: its root, how a filter and a result are placed in it, and
    what its regular files hold. *)
Record Workspace := {
  root : rstr;
  normalize_filter : option rstr -> result ContextError (option rstr);
  place_result : rstr -> result ContextError rstr;
  read_file : rstr -> option (list N);
}.

(** [repair_source]. *)
Definition repair_source (workspace : Workspace) (path : rstr) : option (list rstr) :=
  bytes ← read_file workspace path;
  if MAX_SNIPPET_REPAIR_BYTES <? N.of_nat (length bytes) then None
  else text ← Utf8.from_utf8 bytes; Some (lines text).

Definition invalid_output (operation detail : rstr) : ContextError := InvalidForkOutput operation detail.

Definition normalize_line (source : option (list rstr)) (l : ForkSearchLine) : result ContextError SearchLine :=
  _ ← guard_err (u32_max <? f_line l) (invalid_output (lit "rgai search") (lit "line number exceeds the protocol range"));
  let actual := lines ← source; if f_line l =? 0 then None else lines !! N.to_nat (f_line l - 1) in
  Ok {| line := f_line l; text := repair_snippet_line (f_text l) actual |}.

Definition normalize_snippet (source : option (list rstr)) (s : ForkSearchSnippet) : result ContextError SearchSnippet :=
  lines ← collect_from (fun _ => normalize_line source) 0 (f_lines s);
  Ok {| snippet_lines := lines; matched_terms := f_terms s |}.

Definition normalize_search_hit (workspace : Workspace) (search_path : rstr) (strategy : SearchStrategy) (hit : ForkSearchHit) :
  result ContextError SearchHit :=
  path ← place_result workspace (hit_relative_path search_path (f_path hit) (bool_decide (strategy = ForkRgaiGrepai)));
  let source := repair_source workspace path in
  snippets ← collect_from (fun _ => normalize_snippet source) 0 (f_snippets hit);
  Ok {| hit_path := path; hit_score := f_score hit; matched_lines := f_matched_lines hit; snippets := snippets |}.

(** ** One search

    [run] is the run of the fork with its arguments, and [config] the check of its
    settings that an adaptive search needs. *)
Record Engine := {
  config : result ContextError unit;
  run : list rstr -> result ContextError ForkSearchOutput;
}.

Definition bounded_next_step (raw : ForkSearchOutput) (shown : nat) : option rstr :=
  if N.of_nat shown <? f_total_hits raw then
    Some (dec (f_total_hits raw - N.of_nat shown) ++ lit " additional matches were bounded; narrow the query/path or rerun `hzr --json search '"
          ++ RStr.replace [39] (lit "'\''") (f_query raw) ++ lit "' --limit " ++ dec (N.min (f_total_hits raw) 50) ++ lit "`")
  else None.

Definition search_in (workspace : Workspace) (engine : Engine) (generation : rstr) (request : SearchRequest) (kind : ForkSearchKind) :
  result ContextError SearchApiResponse :=
  filter ← normalize_filter workspace (s_path request);
  let path_text := default (lit ".") filter in
  planned ← (if bool_decide (kind = Adaptive) then _ ← config engine; Ok ForkRgaiAdaptive else Ok ForkRgaiBuiltin);
  raw ← run engine (fork_search_args (s_query request) path_text (root workspace) kind (s_limit request) (include_content request));
  _ ← match parse_error raw with Some e => Err (invalid_output (lit "rgai search") e) | None => Ok tt end;
  let strategy := match backend raw with Some b => backend_strategy b | None => planned end in
  let effective_mode := effective_mode_of kind (s_mode request) in
  hits ← collect_from (fun _ => normalize_search_hit workspace path_text strategy) 0 (take (N.to_nat (s_limit request)) (f_hits raw));
  Ok {| query := f_query raw; search_path := path_text; total_hits := f_total_hits raw; shown_hits := N.of_nat (length hits);
        scanned_files := f_scanned_files raw; skipped_large := f_skipped_large raw; skipped_binary := f_skipped_binary raw;
        hits := hits; effective_mode := effective_mode; strategy := strategy;
        fallback_code := fork_backend_fallback_code effective_mode strategy;
        index_generation := Some generation; fallback_reason := None; next_step := bounded_next_step raw (length hits) |}.

(** ** Search with its fallbacks *)

Definition with_fallback (response : SearchApiResponse) (code : SearchFallbackCode) (reason : rstr) : SearchApiResponse :=
  {| query := query response; search_path := search_path response; total_hits := total_hits response;
     shown_hits := shown_hits response; scanned_files := scanned_files response; skipped_large := skipped_large response;
     skipped_binary := skipped_binary response; hits := hits response; effective_mode := effective_mode response;
     strategy := strategy response; fallback_code := Some code; index_generation := index_generation response;
     fallback_reason := Some reason; next_step := next_step response |}.

(** What a request meets: the workspace, which may be one whose old index waits for a
    migration; the generation of the index; the index, prepared in time or not, and
    whether its vectors are there; and the error texts. *)
Record Prepared := { p_workspace : Workspace; p_generation : rstr; vectors : bool }.

Record Situation := {
  workspace_for_read : result ContextError (Workspace * option (SearchFallbackCode * rstr));
  read_generation : Workspace -> result ContextError rstr;
  prepare : Workspace -> result ContextError Prepared;
  engine : Workspace -> Engine;
  display : ContextError -> rstr;
}.

Definition warming : rstr := lit "semantic index vectors are not built yet (index warming); auto used builtin search without the index".
Definition no_hits : rstr := lit "the semantic index returned no hits; auto retried builtin search without the index".

Definition with_query (r : SearchRequest) (query : rstr) (mode : SearchMode) : SearchRequest :=
  {| s_query := query; s_path := s_path r; s_limit := s_limit r; s_mode := mode; include_content := include_content r |}.

(** The request as it is run: without an index of this form, or for an identifier or a
    quoted literal, an exact one. *)
Definition routed (request : SearchRequest) (migrating : bool) : SearchRequest :=
  let request := if migrating then with_query request (s_query request) ExactMode else request in
  if bool_decide (s_mode request = AutoMode) then
    match auto_exact_literal (s_query request) with
    | Some literal => with_query request literal ExactMode
    | None => request
    end
  else request.

(** The workspace, the generation, the kind and the reason of a fallback. *)
Definition placed (sit : Situation) (requested_mode : SearchMode) (request : SearchRequest) (workspace : Workspace)
    (generation : rstr) (migration : option (SearchFallbackCode * rstr)) :
  Workspace * rstr * ForkSearchKind * option (SearchFallbackCode * rstr) :=
  if bool_decide (s_mode request = ExactMode) then (workspace, generation, Literal, migration)
  else
    match prepare sit workspace with
    | Ok prepared =>
        if bool_decide (requested_mode = AutoMode) && negb (vectors prepared) then
          (p_workspace prepared, p_generation prepared, degraded_for (s_query request), Some (SemanticIndexUnavailable, warming))
        else (p_workspace prepared, p_generation prepared, kind_from (s_mode request), None)
    | Err error =>
        (workspace, generation, degraded_for (s_query request),
         Some (SemanticIndexUnavailable,
               lit "canonical grepai lifecycle is unavailable; fork rgai used its builtin fallback: " ++ display sit error))
    end.

Definition search_with_accounting (sit : Situation) (request : SearchRequest) : result ContextError SearchApiResponse :=
  _ ← validate_search request;
  '(workspace, migration) ← workspace_for_read sit;
  let requested_mode := s_mode request in
  let request := routed request (bool_decide (is_Some migration)) in
  initial_generation ← read_generation sit workspace;
  let '(workspace, generation, kind, fallback_reason) := placed sit requested_mode request workspace initial_generation migration in
  let request :=
    if bool_decide (requested_mode = AutoMode) && bool_decide (s_mode request = AutoMode)
    then with_query request (s_query request) SemanticMode else request in
  let search kind := search_in workspace (engine sit workspace) generation request kind in
  let degraded := degraded_for (s_query request) in
  match search kind with
  | Err error =>
      if bool_decide (kind = Adaptive) && semantic_failure_degrades error then
        response ← search degraded;
        Ok (with_fallback response SemanticIndexUnavailable
              (lit "semantic search failed; fork rgai used its builtin fallback: " ++ display sit error))
      else Err error
  | Ok response =>
      if bool_decide (requested_mode = AutoMode) && bool_decide (kind = Adaptive) && (total_hits response =? 0)
         && negb (bool_decide (is_Some fallback_reason)) then
        retried ← search degraded;
        if total_hits retried =? 0 then Ok response else Ok (with_fallback retried SemanticIndexUnavailable no_hits)
      else
        Ok match fallback_reason with
           | Some (code, reason) => with_fallback response code reason
           | None => response
           end
  end.

(** ** What a search promises *)

(** The pass and the query that a request asks for. *)
Definition asked (request : SearchRequest) : ForkSearchKind * rstr :=
  match s_mode request with
  | ExactMode => (Literal, s_query request)
  | SemanticMode => (Adaptive, s_query request)
  | AutoMode =>
      match auto_exact_literal (s_query request) with
      | Some literal => (Literal, literal)
      | None => (Adaptive, s_query request)
      end
  end.

Lemma routed_asked request : let r := routed request false in (kind_from (s_mode r), s_query r) = asked request.
Proof.
  unfold routed, asked. case_bool_decide as E; [|by destruct (s_mode request)]. rewrite E.
  destruct (auto_exact_literal _); [done|]. by rewrite E.
Qed.

Lemma placed_asked sit request workspace generation migration :
  let r := routed request (bool_decide (is_Some migration)) in
  let '(_, _, kind, fallback) := placed sit (s_mode request) r workspace generation migration in
  fallback = None -> (kind, s_query r) = asked request.
Proof.
  unfold placed. destruct migration as [m|].
  - rewrite (bool_decide_eq_true_2 (is_Some (Some m))) by by eexists. unfold routed. cbn. by rewrite bool_decide_eq_true_2.
  - rewrite (bool_decide_eq_false_2 (is_Some None)) by by intros [? ?].
    pose proof (routed_asked request) as Ha. cbv zeta in Ha. case_bool_decide as E; [by rewrite E in Ha|].
    destruct (prepare sit workspace) as [p|e]; [|done]. by destruct (_ && _).
Qed.

(** An answer and the pass that it comes from. *)
Definition from_pass (sit : Situation) (r : SearchApiResponse) (kind : ForkSearchKind) (query : rstr) : Prop :=
  exists workspace generation request r0, s_query request = query
  /\ search_in workspace (engine sit workspace) generation request kind = Ok r0
  /\ (r = r0 \/ exists code reason, r = with_fallback r0 code reason).

Lemma final_query (b : bool) request mode :
  s_query (if b then with_query request (s_query request) mode else request) = s_query request.
Proof. by destruct b. Qed.

Lemma search_in_no_reason workspace e generation request kind r :
  search_in workspace e generation request kind = Ok r -> fallback_reason r = None.
Proof. unfold search_in. intros H. inv_ok. reflexivity. Qed.

(** An answer comes from the pass and the query that the request asks for, an
    identifier or a quoted literal being asked for literally, unless it gives the
    reason of its fallback; and an automatic search that found nothing, and gives no
    reason, found nothing in the pass without the index either. *)
Theorem searches_say_how_they_were_answered sit request r :
  search_with_accounting sit request = Ok r ->
  exists kind query, from_pass sit r kind query
  /\ (fallback_reason r = None ->
      (kind, query) = asked request
      /\ (s_mode request = AutoMode -> kind = Adaptive -> total_hits r = 0 ->
          exists r1, from_pass sit r1 (degraded_for query) query /\ total_hits r1 = 0)).
Proof.
  unfold search_with_accounting. intros H. inv_ok. destruct x0 as [workspace migration]. inv_ok.
  pose proof (placed_asked sit request workspace x0 migration) as Hasked. cbv zeta in Hasked.
  destruct (placed _ _ _ _ _ _) as [ [ [ws generation] kind] fallback].
  set (req := routed request (bool_decide (is_Some migration))) in *.
  set (req' := if _ && _ then _ else _) in *. assert (s_query req' = s_query req) as Hq by apply final_query.
  destruct (search_in ws (engine sit ws) generation req' kind) as [response|error] eqn:E.
  - assert (fallback_reason response = None) as Hnone by by eapply search_in_no_reason.
    destruct (_ && _ && _ && _) eqn:Eretry.
    + rewrite !andb_true_iff, !bool_decide_eq_true in Eretry. destruct Eretry as [ [ [Hauto ->] Hzero] Hfb].
      inv_ok. destruct (total_hits x1 =? 0) eqn:Ez; inv_ok.
      * exists Adaptive, (s_query req). split; [by exists ws, generation, req', r; auto|]. intros _. split; [apply Hasked; by destruct fallback|].
        intros _ _ _. exists x1. split; [|lia]. rewrite <- Hq. by exists ws, generation, req', x1; auto.
      * exists (degraded_for (s_query req)), (s_query req). split; [|done].
        exists ws, generation, req', x1. rewrite <- Hq. split; [done|]. split; [done|]. right. by eexists _, _.
    + injection H2 as <-. exists kind, (s_query req). destruct fallback as [ [fcode freason]|].
      * split; [|done]. exists ws, generation, req', response. split; [done|]. split; [done|]. right. by eexists _, _.
      * split; [by exists ws, generation, req', response; auto|]. intros _. split; [by apply Hasked|].
        intros Hauto -> Hz. rewrite Hauto in Eretry. cbn in Eretry. rewrite Hz in Eretry. done.
  - destruct (bool_decide (kind = Adaptive) && semantic_failure_degrades error); [|done]. inv_ok. exists (degraded_for (s_query req)), (s_query req). split; [|done].
    exists ws, generation, req', x1. rewrite <- Hq. split; [done|]. split; [done|]. right. by eexists _, _.
Qed.

(** The workspaces that a request meets, and the searches that are made for it. *)
Definition meets (sit : Situation) (ws : Workspace) : Prop :=
  (exists migration, workspace_for_read sit = Ok (ws, migration)) \/ (exists ws0 p, prepare sit ws0 = Ok p /\ ws = p_workspace p).

(** The passes without the index answer. *)
Definition builtin_answers (sit : Situation) (request : SearchRequest) : Prop :=
  forall ws generation r kind, meets sit ws -> s_path r = s_path request -> kind <> Adaptive ->
    is_ok (search_in ws (engine sit ws) generation r kind) = true.

(** The pass with the index answers, or fails by itself. *)
Definition only_the_index_fails (sit : Situation) (request : SearchRequest) : Prop :=
  forall ws generation r error, meets sit ws -> s_path r = s_path request ->
    search_in ws (engine sit ws) generation r Adaptive = Err error -> semantic_failure_degrades error = true.

Lemma routed_path request migrating : s_path (routed request migrating) = s_path request.
Proof.
  unfold routed. destruct migrating; (case_bool_decide; [|done]); by destruct (auto_exact_literal _).
Qed.

Lemma placed_meets sit requested request ws0 generation migration : meets sit ws0 ->
  let '(ws, _, _, _) := placed sit requested request ws0 generation migration in meets sit ws.
Proof.
  intros Hm. unfold placed. case_bool_decide; [done|]. destruct (prepare sit ws0) as [p|e] eqn:E; [|done].
  assert (meets sit (p_workspace p)) by (right; by eexists _, _). by destruct (_ && _).
Qed.

Lemma is_ok_Ok {E A} (r : result E A) : is_ok r = true <-> exists a, r = Ok a.
Proof. destruct r; simpl; naive_solver. Qed.

Lemma degraded_not_adaptive query : degraded_for query <> Adaptive.
Proof. unfold degraded_for. by destruct (auto_exact_literal query). Qed.

(** Whatever becomes of the index, whether it is not ready, fails to prepare, has no
    vectors or gives up in the middle of a search, a search that can be answered without
    it is answered. *)
Theorem index_failures_do_not_fail_searches sit request workspace migration generation :
  builtin_answers sit request -> only_the_index_fails sit request ->
  validate_search request = Ok tt -> workspace_for_read sit = Ok (workspace, migration) ->
  read_generation sit workspace = Ok generation ->
  is_ok (search_with_accounting sit request) = true.
Proof.
  intros Hb Hi Hv Hw Hg. unfold search_with_accounting. rewrite Hv, Hw. cbv [mbind result_bind]. rewrite Hg.
  pose proof (placed_meets sit (s_mode request) (routed request (bool_decide (is_Some migration))) workspace generation migration) as Hm.
  specialize (Hm ltac:(left; by eexists)). destruct (placed _ _ _ _ _ _) as [ [ [ws g] kind] fallback]. set (req := if _ && _ then _ else _).
  assert (s_path req = s_path request) as Hp by (unfold req; destruct (_ && _); apply routed_path).
  destruct (proj1 (is_ok_Ok _) (Hb ws g req (degraded_for (s_query req)) Hm Hp (degraded_not_adaptive _))) as [r1 Hr1].
  destruct (search_in ws (engine sit ws) g req kind) as [response|error] eqn:E.
  - destruct (_ && _ && _ && _); [|done]. rewrite Hr1. by destruct (total_hits r1 =? 0).
  - destruct (decide (kind = Adaptive)) as [->|Hne].
    + rewrite (Hi _ _ _ _ Hm Hp E), bool_decide_eq_true_2 by done. cbn [andb]. by rewrite Hr1.
    + specialize (Hb ws g req kind Hm Hp Hne). by rewrite E in Hb.
Qed.

(** A query in quotes that is ranked for want of an index is matched literally, but with
    its quotes: only an automatic search takes them off. *)
Lemma quoted_queries_degrade_with_their_quotes :
  let query := [34] ++ lit "retry budget" ++ [34] in
  degraded_for query = Literal
  /\ fork_search_args query (lit ".") (lit "/r") (degraded_for query) 5 true
     = map lit ["rgai"; "--path"; "."; "--project-root"; "/r"; "--max"; "5"; "--json"; "--literal"; "--"]%string ++ [query]
  /\ auto_exact_literal query = Some (lit "retry budget").
Proof. vm_compute. done. Qed.

(** ** Completed lines *)

Lemma contains_split p s : contains p s = true -> exists a b, s = a ++ p ++ b.
Proof.
  unfold contains. destruct (split_once p s) as [ [a b]|] eqn:E; [|done]. intros _. apply split_once_Some in E. by exists a, b.
Qed.

(** A line of a snippet is shown as the engine gave it, or as the whole line of the
    file at its number, without the white space around it, and then the given text is a
    part of that line; no other text is ever put there. *)
Theorem lines_are_completed_from_themselves fragment actual :
  let shown := repair_snippet_line fragment actual in
  shown = fragment \/ exists file_line a b, actual = Some file_line /\ fragment <> [] /\ shown = trim file_line /\ shown = a ++ fragment ++ b.
Proof.
  unfold repair_snippet_line. destruct actual as [file_line|]; [|by left].
  destruct (is_empty fragment) eqn:Ee; [by left|]. destruct (str_eqb fragment (trim file_line)); [by left|].
  destruct (contains fragment (trim file_line)) eqn:Ec; [|by left]. apply contains_split in Ec as (a & b & Hab).
  right. exists file_line, a, b. split_and!; [done| |done|done]. intros ->. done.
Qed.

(** ** Warnings *)

Definition TRUNCATED_SUFFIX : rstr := lit "...[truncated]".

Definition bounded_message (message : rstr) : rstr :=
  if (blen message <=? MAX_WARNING_BYTES)%nat then message
  else default [] (slice_to (boundary_down message (MAX_WARNING_BYTES - blen TRUNCATED_SUFFIX)) message) ++ TRUNCATED_SUFFIX.

Definition warnings_omitted : ContextWarning := {| code := WarningsTruncated; message := lit "additional context warnings were omitted" |}.

Definition push_warning (warnings : list ContextWarning) (warning : ContextWarning) : list ContextWarning :=
  let warning := {| code := code warning; message := bounded_message (message warning) |} in
  if (length warnings <? MAX_WARNINGS)%nat then warnings ++ [warning]
  else if match last warnings with Some w => negb (bool_decide (code w = WarningsTruncated)) | None => true end
  then <[ (MAX_WARNINGS - 1)%nat := warnings_omitted ]> warnings
  else warnings.

Definition push_warnings (warnings new : list ContextWarning) : list ContextWarning := fold_left push_warning new warnings.

(** ** The plan's answer *)

Record ForkPlannerMetadata := {
  pipeline_version : option rstr;
  semantic_backend_used : option rstr;
  graph_candidate_count : option N;
  semantic_hit_count : option N;
  candidates_total : N;
  candidates_selected : N;
  estimated_tokens_used : N;
  token_budget : N;
}.

Abbreviation ContextPack := (@Budget.ContextPack Details) (only parsing).

Record ContextPlanApiResponse := {
  pack : ContextPack;
  contents : gmap rstr rstr;
  warnings : list ContextWarning;
  planner : option ForkPlannerMetadata;
}.

Abbreviation Sources := (list (f32 * list RetrievedCandidate)) (only parsing).

Definition add_source (st : Sources * list ContextWarning) (weight : f32) (normalized : NormalizedSource) : Sources * list ContextWarning :=
  let '(sources, warnings) := st in
  let warnings := push_warnings warnings (source_warnings normalized) in
  (if is_nil (candidates normalized) then sources else sources ++ [(weight, candidates normalized)], warnings).

(** The texts of the evidence: one reference is one text. *)
Definition conflicting : ContextError := Invariant (lit "one content reference resolved to different content").

Fixpoint gather_candidates (contents : gmap rstr rstr) (retrieved : list RetrievedCandidate) : result ContextError (gmap rstr rstr) :=
  match retrieved with
  | [] => Ok contents
  | r :: retrieved =>
      let content_ref := Budget.content_ref (candidate r) in
      match contents !! content_ref with
      | None => gather_candidates (<[content_ref := content r]> contents) retrieved
      | Some known => if str_eqb known (content r) then gather_candidates contents retrieved else Err conflicting
      end
  end.

Fixpoint gather (contents : gmap rstr rstr) (sources : Sources) : result ContextError (gmap rstr rstr) :=
  match sources with
  | [] => Ok contents
  | (_, retrieved) :: sources => contents ← gather_candidates contents retrieved; gather contents sources
  end.

Definition fusion_inputs (sources : Sources) : list (@Budget.FusionInput Details) :=
  map (fun '(weight, retrieved) => {| Budget.source_weight := weight; Budget.input_candidates := map candidate retrieved |}) sources.

Fixpoint select_contents (contents selected_contents : gmap rstr rstr) (selected : list ContextCandidate) : result ContextError (gmap rstr rstr) :=
  match selected with
  | [] => Ok selected_contents
  | c :: selected =>
      let content_ref := Budget.content_ref c in
      match contents !! content_ref with
      | None => Err (Invariant (lit "selected content " ++ content_ref ++ lit " is unavailable"))
      | Some content => select_contents (delete content_ref contents) (<[content_ref := content]> selected_contents) selected
      end
  end.

(** ** Fitting the answer *)

Record Omitted := { omitted_candidates : N; omitted_rejections : N; omitted_warnings : N; omitted_planner : bool }.

Definition none_omitted : Omitted := {| omitted_candidates := 0; omitted_rejections := 0; omitted_warnings := 0; omitted_planner := false |}.

Definition budget_notice : rstr := lit "Response budget omitted ".

Definition is_budget_notice (w : ContextWarning) : bool := bool_decide (code w = WarningsTruncated) && starts_with budget_notice (message w).

Definition notice (o : Omitted) : ContextWarning :=
  {| code := WarningsTruncated;
     message := budget_notice ++ dec (omitted_candidates o) ++ lit " whole evidence candidates, " ++ dec (omitted_rejections o)
       ++ lit " rejection records, " ++ dec (omitted_warnings o) ++ lit " warnings; planner metadata omitted="
       ++ (if omitted_planner o then lit "true" else lit "false") ++ lit ". Increase max_tokens for more evidence." |}.

Definition something_omitted (o : Omitted) : bool :=
  (0 <? omitted_candidates o + omitted_rejections o + omitted_warnings o) || omitted_planner o.

Definition with_pack (r : ContextPlanApiResponse) (p : ContextPack) : ContextPlanApiResponse :=
  {| pack := p; contents := contents r; warnings := warnings r; planner := planner r |}.

Definition with_warnings (r : ContextPlanApiResponse) (ws : list ContextWarning) : ContextPlanApiResponse :=
  {| pack := pack r; contents := contents r; warnings := ws; planner := planner r |}.

Definition pack_used (p : ContextPack) (used : Budget.TokenCount) : ContextPack :=
  {| Budget.selected := Budget.selected p; Budget.rejected := Budget.rejected p; Budget.used := used;
     Budget.pack_hard_limit := Budget.pack_hard_limit p; Budget.pack_coverage := Budget.pack_coverage p;
     Budget.pack_confidence := Budget.pack_confidence p; Budget.ranking := Budget.ranking p; Budget.budget_exceeded := Budget.budget_exceeded p |}.

Definition pack_choice (p : ContextPack) (selected : list ContextCandidate) (rejected : list Budget.CandidateDecision) : ContextPack :=
  {| Budget.selected := selected; Budget.rejected := rejected; Budget.used := Budget.used p;
     Budget.pack_hard_limit := Budget.pack_hard_limit p; Budget.pack_coverage := Budget.pack_coverage p;
     Budget.pack_confidence := Budget.pack_confidence p; Budget.ranking := Budget.ranking p; Budget.budget_exceeded := true |}.

(** [response.pack.used.value = value]. *)
Definition with_used (r : ContextPlanApiResponse) (v : N) : ContextPlanApiResponse :=
  with_pack r (pack_used (pack r) {| Budget.value := v; Budget.count_source := Budget.count_source (Budget.used (pack r)) |}).

(** The notice of what was omitted, and the diagnostics of what is left. *)
Definition announced (o : Omitted) (r : ContextPlanApiResponse) : ContextPlanApiResponse :=
  let ws := List.filter (fun w => negb (is_budget_notice w)) (warnings r) in
  let ws := if something_omitted o then ws ++ [notice o] else ws in
  let r := with_warnings r ws in
  with_pack r (Budget.refresh_selection_diagnostics (pack r)).

(** [warnings.iter().rposition(f)], removed. *)
Fixpoint remove_last {A} (f : A -> bool) (l : list A) : option (list A) :=
  match l with
  | [] => None
  | x :: l => match remove_last f l with Some l' => Some (x :: l') | None => if f x then Some l else None end
  end.

(** Drops the next whole thing, in the order of the source; [None] where nothing is left. *)
Definition drop_step (o : Omitted) (r : ContextPlanApiResponse) : option (Omitted * ContextPlanApiResponse) :=
  let p := pack r in
  if negb (is_nil (Budget.rejected p)) then
    Some ({| omitted_candidates := omitted_candidates o;
             omitted_rejections := omitted_rejections o + N.of_nat (length (Budget.rejected p));
             omitted_warnings := omitted_warnings o; omitted_planner := omitted_planner o |},
          with_pack r (pack_choice p (Budget.selected p) []))
  else
    let r := with_pack r (pack_choice p (Budget.selected p) (Budget.rejected p)) in
    match remove_last (fun w => negb (is_budget_notice w)) (warnings r) with
    | Some ws =>
        Some ({| omitted_candidates := omitted_candidates o; omitted_rejections := omitted_rejections o;
                 omitted_warnings := omitted_warnings o + 1; omitted_planner := omitted_planner o |}, with_warnings r ws)
    | None =>
        match planner r with
        | Some _ =>
            Some ({| omitted_candidates := omitted_candidates o; omitted_rejections := omitted_rejections o;
                     omitted_warnings := omitted_warnings o; omitted_planner := true |},
                  {| pack := pack r; contents := contents r; warnings := warnings r; planner := None |})
        | None =>
            match last (Budget.selected p) with
            | Some c =>
                Some ({| omitted_candidates := omitted_candidates o + 1; omitted_rejections := omitted_rejections o;
                         omitted_warnings := omitted_warnings o; omitted_planner := omitted_planner o |},
                      {| pack := pack_choice p (removelast (Budget.selected p)) (Budget.rejected p);
                         contents := delete (Budget.content_ref c) (contents r); warnings := warnings r; planner := planner r |})
            | None => None
            end
        end
    end.

Section Fit.
(** The length in bytes of the compact JSON of an answer; writing it never fails, as its
    maps have texts for keys. *)
Context (json_len : ContextPlanApiResponse -> N).

Definition encoded_context_tokens (r : ContextPlanApiResponse) : N := div_ceil (json_len r) 4.

(** The rounds over the count that is part of what it counts. *)
Fixpoint settle (rounds : nat) (r : ContextPlanApiResponse) (estimated : N) : N :=
  match rounds with
  | O => estimated
  | S rounds =>
      let actual := encoded_context_tokens (with_used r estimated) in
      if actual =? estimated then estimated else settle rounds r actual
  end.

Definition settled (r : ContextPlanApiResponse) : ContextPlanApiResponse := with_used r (settle 4 r (encoded_context_tokens r)).

Definition too_small (estimated : N) : ContextError :=
  InvalidRequest (lit "max_tokens")
    (lit "budget is too small for complete context metadata; at least " ++ dec estimated ++ lit " estimated tokens are required").

(** The loop; [None] is out of fuel. *)
Fixpoint bound_loop (fuel : nat) (hard_limit : N) (o : Omitted) (r : ContextPlanApiResponse) : option (result ContextError ContextPlanApiResponse) :=
  match fuel with
  | O => None
  | S fuel =>
      let r := settled (announced o r) in
      if encoded_context_tokens r <=? hard_limit then Some (Ok r)
      else
        match drop_step o r with
        | Some (o, r) => bound_loop fuel hard_limit o r
        | None => Some (Err (too_small (Budget.value (Budget.used (pack r)))))
        end
  end.

(** What the loop can drop: one thing at a turn. *)
Definition droppable (r : ContextPlanApiResponse) : nat :=
  (if is_nil (Budget.rejected (pack r)) then 0 else 1)
  + length (List.filter (fun w => negb (is_budget_notice w)) (warnings r))
  + (match planner r with Some _ => 1 | None => 0 end) + length (Budget.selected (pack r)).

Definition estimate_source (r : ContextPlanApiResponse) : ContextPlanApiResponse :=
  with_pack r (pack_used (pack r) {| Budget.value := Budget.value (Budget.used (pack r)); Budget.count_source := Budget.Estimate |}).

Definition bound_context_response (r : ContextPlanApiResponse) (hard_limit : N) : option (result ContextError ContextPlanApiResponse) :=
  bound_loop (S (droppable r)) hard_limit none_omitted (estimate_source r).

Definition fuse (into_values : gmap rstr (ContextCandidate * f32) -> list (ContextCandidate * f32))
    (hard_token_limit : N) (sources : Sources) (warnings : list ContextWarning) (planner : option ForkPlannerMetadata) :
  option (result ContextError ContextPlanApiResponse) :=
  match gather ∅ sources with
  | Err e => Some (Err e)
  | Ok contents =>
      let pack := Budget.plan into_values (Budget.new hard_token_limit) (fusion_inputs sources) in
      match select_contents contents ∅ (Budget.selected pack) with
      | Err e => Some (Err e)
      | Ok selected_contents =>
          bound_context_response {| pack := pack; contents := selected_contents; warnings := warnings; planner := planner |} hard_token_limit
      end
  end.
End Fit.

(** ** Digits *)

Lemma dec_value_bound s : forallb is_ascii_digit s = true -> forall k, fold_left (fun n c => n * 10 + (c - 48)) s k < (k + 1) * 10 ^ N.of_nat (length s).
Proof.
  induction s as [|c s IH]; cbn [forallb fold_left length]; intros H k; [rewrite N.pow_0_r; lia|].
  apply andb_true_iff in H as [Hc H]. unfold is_ascii_digit, between in Hc. bool_prop.
  eapply N.lt_le_trans; [by apply IH|]. rewrite Nat2N.inj_succ, N.pow_succ_r'. nia.
Qed.

Lemma dec_below n : n < 10 ^ slen (dec n).
Proof.
  assert (forallb is_ascii_digit (dec n) = true) as Hd by by apply dec_digits_digits.
  pose proof (dec_value_bound _ Hd 0) as H. unfold slen. rewrite digits_blen by done.
  pose proof (dec_value_dec n) as Hv. unfold dec_value in Hv. rewrite Hv in H. lia.
Qed.

Lemma dec_slen_below n k : n < 10 ^ N.of_nat k -> (0 < k)%nat -> slen (dec n) <= N.of_nat k.
Proof.
  intros Hn Hk. unfold slen. rewrite digits_blen by by apply dec_digits_digits.
  pose proof (dec_digits_length k (S (N.size_nat n)) n [] Hn Hk) as H. unfold dec. cbn [length] in *. lia.
Qed.

Lemma dec_slen_mono m n : m <= n -> slen (dec m) <= slen (dec n).
Proof. intros H. apply dec_blen_mono in H. unfold slen. lia. Qed.

Lemma dec_slen_tenfold m n : n <= 10 * m -> slen (dec n) <= slen (dec m) + 1.
Proof.
  intros H. pose proof (dec_below m) as Hm. unfold slen in *.
  pose proof (dec_slen_below n (S (blen (dec m)))) as Hl. rewrite Nat2N.inj_succ, N.pow_succ_r' in Hl. unfold slen in Hl.
  specialize (Hl ltac:(lia) ltac:(lia)). lia.
Qed.

Lemma dec_slen_self n : 0 < n -> slen (dec n) <= n.
Proof.
  intros H. pose proof (dec_slen_below n (N.to_nat n)) as Hl. rewrite N2Nat.id in Hl. apply Hl; [|lia].
  apply N.pow_gt_lin_r. lia.
Qed.

Lemma dec_slen_pos n : 0 < slen (dec n).
Proof. pose proof (dec_blen_pos n). unfold slen. lia. Qed.

(** ** The count that counts itself *)

(** The JSON of an answer holds its count once, in decimal. *)
Definition counts_itself (json_len : ContextPlanApiResponse -> N) : Prop :=
  forall r, exists others, forall v, json_len (with_used r v) = others + slen (dec v).

Section Settle.
Context (json_len : ContextPlanApiResponse -> N) (Hcount : counts_itself json_len).

Lemma with_used_twice r a b : with_used (with_used r a) b = with_used r b.
Proof. done. Qed.

Lemma with_used_self r : with_used r (Budget.value (Budget.used (pack r))) = r.
Proof. by destruct r as [ [? ? [? ?] ] ? ? ?]. Qed.

Lemma encoded_mono r v w : v <= w -> encoded_context_tokens json_len (with_used r v) <= encoded_context_tokens json_len (with_used r w).
Proof.
  intros H. unfold encoded_context_tokens. destruct (Hcount r) as [n Hn]. rewrite !Hn.
  pose proof (dec_slen_mono _ _ H). pose proof (div_ceil_spec (n + slen (dec v)) 4 ltac:(done)).
  pose proof (div_ceil_spec (n + slen (dec w)) 4 ltac:(done)). lia.
Qed.

(** The least count, and the two that a close count leads to. *)
Lemma encoded_range r (e : N -> N) : (forall v, e v = encoded_context_tokens json_len (with_used r v)) ->
  0 < e 0
  /\ (forall v, slen (dec v) <= 20 -> e 0 <= e v <= 10 * e 0)
  /\ (exists a, forall v, e 0 <= v <= 10 * e 0 -> e 0 <= e v <= 10 * e 0 /\ (e v = a \/ e v = a + 1)).
Proof.
  intros He. destruct (Hcount r) as [n Hn]. set (m := e 0).
  assert (forall v, n + slen (dec v) <= 4 * e v /\ 4 * e v < n + slen (dec v) + 4) as Hs.
  { intros v. rewrite He. unfold encoded_context_tokens. rewrite Hn. by apply div_ceil_spec. }
  pose proof (Hs 0) as H0. fold m in H0. change (slen (dec 0)) with 1 in H0.
  assert (0 < m) as Hm by lia. split_and!; [done| |].
  - intros v Hv. pose proof (Hs v). pose proof (dec_slen_pos v). lia.
  - exists (e m). intros v Hv. pose proof (Hs v). pose proof (Hs m).
    pose proof (dec_slen_mono m v ltac:(lia)). pose proof (dec_slen_tenfold m v ltac:(lia)). pose proof (dec_slen_self m Hm).
    pose proof (dec_slen_pos v). lia.
Qed.

(** Four rounds are enough: the count of the answer is the count that it says. *)
Lemma settled_counts r : Budget.value (Budget.used (pack r)) <= u64_max ->
  encoded_context_tokens json_len (settled json_len r) = Budget.value (Budget.used (pack (settled json_len r))).
Proof.
  intros Hv. unfold settled. set (e1 := encoded_context_tokens json_len r).
  pose (e := fun v => encoded_context_tokens json_len (with_used r v)).
  destruct (encoded_range r e ltac:(done)) as (Hp & H20 & [a Ha]).
  assert (e 0 <= e1 <= 10 * e 0) as Hr1.
  { assert (e1 = e (Budget.value (Budget.used (pack r)))) as -> by (unfold e1, e; by rewrite with_used_self). apply H20.
    pose proof (dec_blen _ Hv). unfold slen. lia. }
  assert (forall v w, v <= w -> e v <= e w) as Hmono by (intros; by apply encoded_mono).
  change (e (settle json_len 4 r e1) = settle json_len 4 r e1).
  assert (forall k v, settle json_len (S k) r v = if e v =? v then v else settle json_len k r (e v)) as Hset by done.
  destruct (Ha _ Hr1) as [Hr2 Hc2]. destruct (Ha _ Hr2) as [Hr3 Hc3]. destruct (Ha _ Hr3) as [Hr4 Hc4].
  rewrite !Hset. destruct (N.eqb_spec (e e1) e1) as [|H1]; [done|]. destruct (N.eqb_spec (e (e e1)) (e e1)) as [|H2]; [done|].
  assert (e (e (e e1)) = e (e e1)) as E; [|rewrite E, N.eqb_refl; exact E].
  destruct (N.le_ge_cases (e e1) (e (e e1))) as [Hle|Hle]; pose proof (Hmono _ _ Hle); lia.
Qed.
End Settle.

(** ** What is left of an answer *)

Definition other_warnings (r : ContextPlanApiResponse) : list ContextWarning := List.filter (fun w => negb (is_budget_notice w)) (warnings r).

Definition without (m : gmap rstr rstr) (dropped : list ContextCandidate) : gmap rstr rstr :=
  fold_right (fun c m => delete (Budget.content_ref c) m) m dropped.

(** What was left of [r0] when [o] was omitted: whole things, from the end of each list. *)
Record kept (r0 : ContextPlanApiResponse) (o : Omitted) (r : ContextPlanApiResponse) : Prop := {
  kept_selected : exists dropped, Budget.selected (pack r0) = Budget.selected (pack r) ++ dropped
    /\ N.of_nat (length dropped) = omitted_candidates o /\ contents r = without (contents r0) dropped;
  kept_rejected : Budget.rejected (pack r) = (if omitted_rejections o =? 0 then Budget.rejected (pack r0) else [])
    /\ (omitted_rejections o = 0 \/ omitted_rejections o = N.of_nat (length (Budget.rejected (pack r0))));
  kept_warnings : exists dropped, other_warnings r0 = other_warnings r ++ dropped /\ N.of_nat (length dropped) = omitted_warnings o;
  kept_planner : planner r = if omitted_planner o then None else planner r0;
  kept_limit : Budget.pack_hard_limit (pack r) = Budget.pack_hard_limit (pack r0);
  kept_ranking : Budget.ranking (pack r) = Budget.ranking (pack r0);
  kept_source : Budget.count_source (Budget.used (pack r)) = Budget.count_source (Budget.used (pack r0));
}.

Lemma notice_is_notice o : is_budget_notice (notice o) = true.
Proof.
  unfold is_budget_notice, notice. cbn [code message]. rewrite bool_decide_eq_true_2 by done.
  apply starts_with_true. by eexists.
Qed.

Lemma other_announced o r : other_warnings (announced o r) = other_warnings r.
Proof.
  unfold other_warnings, announced. cbn [warnings with_pack with_warnings]. generalize (warnings r) as ws. intros ws.
  assert (forall l, List.filter (fun w => negb (is_budget_notice w)) (List.filter (fun w => negb (is_budget_notice w)) l) = List.filter (fun w => negb (is_budget_notice w)) l) as Hidem.
  { induction l as [|w l IH]; simpl; [done|]. destruct (negb (is_budget_notice w)) eqn:E; simpl; [by rewrite E, IH|done]. }
  destruct (something_omitted o); [|apply Hidem]. rewrite List.filter_app, Hidem. cbn [List.filter]. rewrite notice_is_notice. apply app_nil_r.
Qed.

Lemma kept_refl r : kept r none_omitted r.
Proof. split; [exists []; by rewrite app_nil_r|split; [done|by left]|exists []; by rewrite app_nil_r|done..]. Qed.

Lemma kept_announced r0 o r : kept r0 o r -> kept r0 o (announced o r).
Proof. intros [H1 H2 H3 H4 H5 H6 H7]. split; [done..| |done|done|done|done]. by rewrite other_announced. Qed.

Lemma kept_with_used r0 o r v : kept r0 o r -> kept r0 o (with_used r v).
Proof. by intros [H1 H2 H3 H4 H5 H6 H7]. Qed.

Lemma droppable_announced o r : droppable (announced o r) = droppable r.
Proof.
  unfold droppable. pose proof (other_announced o r) as H. unfold other_warnings in H. rewrite H. done.
Qed.

Lemma remove_last_spec {A} (f : A -> bool) l :
  match remove_last f l with
  | Some l' => exists w, List.filter f l = List.filter f l' ++ [w]
  | None => List.filter f l = []
  end.
Proof.
  induction l as [|x l IH]; cbn [remove_last]; [done|]. destruct (remove_last f l) as [l'|]; cbn [List.filter].
  - destruct IH as [w ->]. exists w. by destruct (f x).
  - rewrite IH. destruct (f x); [|done]. exists x. by rewrite IH.
Qed.

(** One turn drops one whole thing, and counts it. *)
Lemma drop_step_kept r0 o r o' r' : kept r0 o r -> drop_step o r = Some (o', r') -> kept r0 o' r' /\ (droppable r' < droppable r)%nat.
Proof.
  intros [ (ds & Hs & Hn & Hc) [Hr Hor] (dw & Hw & Hnw) Hp Hl Hk Hu]. unfold drop_step.
  destruct (is_nil (Budget.rejected (pack r))) eqn:Er; cbn [negb].
  - pose proof (remove_last_spec (fun w => negb (is_budget_notice w)) (warnings (with_pack r (pack_choice (pack r) (Budget.selected (pack r)) (Budget.rejected (pack r)))))) as Hrl.
    cbn [warnings planner contents with_pack pack pack_choice Budget.selected Budget.rejected] in *.
    destruct (remove_last _ (warnings r)) as [ws|].
    + destruct Hrl as [w Hrl]. intros [= <- <-]. split.
      * split; cbn; [by exists ds|done| |done|done|done|done]. exists (w :: dw). unfold other_warnings in *. cbn [warnings with_warnings].
        rewrite Hw, Hrl, <- app_assoc. split; [done|]. cbn [length]. lia.
      * unfold droppable. cbn. rewrite Hrl, length_app. cbn. lia.
    + destruct (planner r) as [pl|] eqn:Epl.
      * intros [= <- <-]. split; [by split; cbn; [by exists ds|done|by exists dw|done|done|done|done]|]. unfold droppable. cbn. rewrite Epl. lia.
      * destruct (last (Budget.selected (pack r))) as [c|] eqn:El; [|done]. apply last_Some in El as [sel El].
        intros [= <- <-]. rewrite El, removelast_last in *. split.
        { split; cbn; [|done|by exists dw|by rewrite <- Hp|done|done|done]. exists (c :: ds).
          rewrite Hs, <- app_assoc, Hc. split_and!; [done|cbn [length]; lia|done]. }
        unfold droppable. cbn. rewrite El, length_app. cbn. lia.
  - intros [= <- <-]. destruct (N.eqb_spec (omitted_rejections o) 0) as [E|E]; [|by rewrite Hr in Er].
    rewrite E. rewrite Hr in Er |- *.
    assert (0 + N.of_nat (length (Budget.rejected (pack r0))) <> 0) as Hne by (revert Er; clear; destruct (Budget.rejected (pack r0)); [done|]; intros _; cbn [length]; lia).
    split.
    + split; cbn [pack with_pack pack_choice Budget.selected Budget.rejected Budget.used Budget.pack_hard_limit Budget.ranking contents planner omitted_candidates omitted_rejections omitted_warnings omitted_planner];
        [by exists ds| |by exists dw|done|done|done|done].
      apply N.eqb_neq in Hne. rewrite Hne. split; [done|]. right. by rewrite N.add_0_l.
    + unfold droppable. cbn. rewrite Hr, Er. lia.
Qed.

(** Nothing is left to drop. *)
Definition bare (r : ContextPlanApiResponse) : Prop :=
  Budget.selected (pack r) = [] /\ Budget.rejected (pack r) = [] /\ other_warnings r = [] /\ planner r = None.

Lemma drop_step_None o r : drop_step o r = None -> bare r.
Proof.
  unfold drop_step. destruct (is_nil (Budget.rejected (pack r))) eqn:Er; [|done]. cbn [negb].
  pose proof (remove_last_spec (fun w => negb (is_budget_notice w)) (warnings r)) as Hrl.
  cbn [warnings with_pack planner]. destruct (remove_last _ _); [done|]. destruct (planner r) eqn:Ep; [done|].
  cbn. destruct (last (Budget.selected (pack r))) eqn:El; [done|]. intros _. apply last_None in El.
  split_and!; [done| |done|done]. by destruct (Budget.rejected (pack r)).
Qed.

Definition told (o : Omitted) (r : ContextPlanApiResponse) : Prop :=
  warnings r = other_warnings r ++ (if something_omitted o then [notice o] else []).

Lemma announced_told o r v : told o (with_used (announced o r) v).
Proof.
  unfold told. change (other_warnings (with_used (announced o r) v)) with (other_warnings (announced o r)). rewrite other_announced.
  unfold announced, other_warnings. cbn. destruct (something_omitted o); [done|]. by rewrite app_nil_r.
Qed.

(** The answers that fitting [r0] goes through fit in memory, and so do their lengths. *)
Definition within_memory (json_len : ContextPlanApiResponse -> N) (r0 : ContextPlanApiResponse) : Prop :=
  forall o r v, kept r0 o r -> v <= u64_max -> json_len (with_used (announced o r) v) <= u64_max.

Abbreviation used_value r := (Budget.value (Budget.used (pack r))).

Lemma settle_bounded json_len r0 o r : within_memory json_len r0 -> kept r0 o r -> forall rounds v,
  v <= u64_max -> settle json_len rounds (announced o r) v <= u64_max.
Proof.
  intros Hm Hk rounds. induction rounds as [|rounds IH]; intros v Hv; cbn [settle]; [done|].
  destruct (_ =? v); [done|]. apply IH. unfold encoded_context_tokens. specialize (Hm o r v Hk Hv).
  pose proof (div_ceil_spec (json_len (with_used (announced o r) v)) 4 ltac:(done)). lia.
Qed.

Lemma settled_bounded json_len r0 o r : within_memory json_len r0 -> kept r0 o r ->
  used_value r <= u64_max -> used_value (settled json_len (announced o r)) <= u64_max.
Proof.
  intros Hm Hk Hv. unfold settled. cbn -[settle announced]. eapply settle_bounded; [done..|].
  unfold encoded_context_tokens. rewrite <- (with_used_self (announced o r)). specialize (Hm o r (used_value r) Hk Hv).
  change (used_value (announced o r)) with (used_value r).
  pose proof (div_ceil_spec (json_len (with_used (announced o r) (used_value r))) 4 ltac:(done)). lia.
Qed.

Lemma drop_step_used o r o' r' : drop_step o r = Some (o', r') -> used_value r' = used_value r.
Proof.
  unfold drop_step. intros H. destruct (negb _); [by injection H as <- <-|]. destruct (remove_last _ _); [by injection H as <- <-|].
  destruct (planner _); [by injection H as <- <-|]. destruct (last _); [by injection H as <- <-|done].
Qed.

Lemma bound_loop_unfold json_len fuel hard_limit o r : bound_loop json_len (S fuel) hard_limit o r =
  let r := settled json_len (announced o r) in
  if encoded_context_tokens json_len r <=? hard_limit then Some (Ok r)
  else
    match drop_step o r with
    | Some (o, r) => bound_loop json_len fuel hard_limit o r
    | None => Some (Err (too_small (Budget.value (Budget.used (pack r)))))
    end.
Proof. done. Qed.

(** The loop ends, with an answer that is a part of the first one or with nothing left. *)
Lemma bound_loop_ends json_len hard_limit r0 fuel : forall o r, kept r0 o r -> (droppable r < fuel)%nat ->
  (within_memory json_len r0 /\ used_value r0 <= u64_max -> used_value r <= u64_max) ->
  exists o' r1, kept r0 o' r1 /\ (within_memory json_len r0 /\ used_value r0 <= u64_max -> used_value r1 <= u64_max) /\ let r' := settled json_len (announced o' r1) in
  (bound_loop json_len fuel hard_limit o r = Some (Ok r') /\ encoded_context_tokens json_len r' <= hard_limit)
  \/ (bound_loop json_len fuel hard_limit o r = Some (Err (too_small (Budget.value (Budget.used (pack r')))))
      /\ hard_limit < encoded_context_tokens json_len r' /\ bare r').
Proof.
  induction fuel as [|fuel IH]; intros o r Hk Hf Hv; [lia|]. rewrite bound_loop_unfold. cbv zeta.
  assert (kept r0 o (settled json_len (announced o r))) as Hk' by (by apply kept_with_used, kept_announced).
  destruct (N.leb_spec (encoded_context_tokens json_len (settled json_len (announced o r))) hard_limit) as [Hle|Hgt].
  - exists o, r. split; [done|]. split; [done|]. by left.
  - destruct (drop_step o (settled json_len (announced o r))) as [ [o' r'] |] eqn:Ed.
    + destruct (drop_step_kept _ _ _ _ _ Hk' Ed) as [Hk2 Hd]. apply IH; [done| |intros Hm; rewrite (drop_step_used _ _ _ _ Ed); destruct Hm; by apply (settled_bounded _ r0); auto].
      change (droppable (settled json_len (announced o r))) with (droppable (announced o r)) in Hd. rewrite droppable_announced in Hd. lia.
    + exists o, r. split; [done|]. split; [done|]. right. apply drop_step_None in Ed. done.
Qed.


(** C23: fitting an answer into its budget always ends. An answer that is given takes no
    more tokens than the budget, counts itself exactly, and is the first one with whole
    things left out from the end of each list, in exactly the numbers that its last
    warning tells, and without a notice if nothing is left out; and a budget is refused only when it does not
    hold the bare answer, whose size is then told. *)
Theorem context_plans_fit json_len r0 hard_limit :
  counts_itself json_len -> within_memory json_len (estimate_source r0) -> used_value r0 <= u64_max ->
  exists o r, kept (estimate_source r0) o r /\ told o r /\ used_value r = encoded_context_tokens json_len r
  /\ ((bound_context_response json_len r0 hard_limit = Some (Ok r) /\ encoded_context_tokens json_len r <= hard_limit)
      \/ (bound_context_response json_len r0 hard_limit = Some (Err (too_small (encoded_context_tokens json_len r)))
          /\ hard_limit < encoded_context_tokens json_len r /\ bare r)).
Proof.
  intros Hc Hm Hu. destruct (bound_loop_ends json_len hard_limit (estimate_source r0) (S (droppable r0)) none_omitted (estimate_source r0))
    as (o & r1 & Hk & Hv & Hres); [apply kept_refl|unfold droppable; cbn; lia|by intros [_ ?]|].
  exists o, (settled json_len (announced o r1)).
  assert (used_value (settled json_len (announced o r1)) = encoded_context_tokens json_len (settled json_len (announced o r1))) as He
    by (symmetry; apply settled_counts; [done|by apply Hv]).
  split_and!; [by apply kept_with_used, kept_announced|apply announced_told|done|]. cbv zeta in Hres. rewrite He in Hres. exact Hres.
Qed.

(** ** What a plan delivers *)

(** A reference of content names one text. *)
Definition refs_name_texts (sources : Sources) : Prop :=
  forall a b, a ∈ concat (map snd sources) -> b ∈ concat (map snd sources) ->
    Budget.content_ref (candidate a) = Budget.content_ref (candidate b) -> content a = content b.

Definition texts (l : list RetrievedCandidate) (r text : rstr) : Prop :=
  exists c, c ∈ l /\ Budget.content_ref (candidate c) = r /\ content c = text.

Lemma texts_app l l' r text : texts (l ++ l') r text <-> texts l r text \/ texts l' r text.
Proof. unfold texts. setoid_rewrite elem_of_app. naive_solver. Qed.

(** Each reference is filed with its text, and none conflicts. *)
Lemma gather_candidates_files l : forall m,
  (forall r a b, m !! r = Some a \/ texts l r a -> m !! r = Some b \/ texts l r b -> a = b) ->
  exists m', gather_candidates m l = Ok m' /\ forall r text, m' !! r = Some text <-> m !! r = Some text \/ texts l r text.
Proof.
  induction l as [|c l IH]; intros m Hone; cbn [gather_candidates].
  - exists m. split; [done|]. intros r text. split; [by left|]. intros [?|(c & Hc & _)]; [done|]. by apply not_elem_of_nil in Hc.
  - set (k := Budget.content_ref (candidate c)).
    assert (texts (c :: l) k (content c)) as Hhere by (by exists c; split; [left|]).
    assert (forall r text, texts l r text -> texts (c :: l) r text) as Hlater by (intros r text (x & Hx & ?); exists x; split; [by right|done]).
    destruct (m !! k) as [known|] eqn:Ek.
    + assert (known = content c) as -> by (apply (Hone k); auto). unfold str_eqb. rewrite bool_decide_eq_true_2 by done.
      destruct (IH m) as (m' & -> & Hm'); [intros r a b Ha Hb; apply (Hone r); naive_solver|]. exists m'. split; [done|]. intros r text. rewrite Hm'.
      split; [naive_solver|]. intros [?|(x & Hx & Hr & Ht)]; [by left|]. apply elem_of_cons in Hx as [->|Hx]; [left; by rewrite <- Hr, <- Ht|right; by exists x].
    + assert (forall r text, <[k := content c]> m !! r = Some text -> m !! r = Some text \/ texts (c :: l) r text) as Hins.
      { intros r text. destruct (decide (k = r)) as [<-|Hne]; [rewrite lookup_insert_eq; intros [= <-]; by right|rewrite lookup_insert_ne by done; by left]. }
      destruct (IH (<[k := content c]> m)) as (m' & -> & Hm').
      { intros r a b Ha Hb. apply (Hone r); naive_solver. }
      exists m'. split; [done|]. intros r text. rewrite Hm'. split; [naive_solver|].
      intros [Hr|(x & Hx & Hr & Ht)].
      * left. rewrite lookup_insert_ne; [done|]. intros <-. by rewrite Ek in Hr.
      * apply elem_of_cons in Hx as [->|Hx]; [left; rewrite <- Hr, <- Ht; apply lookup_insert_eq|right; by exists x].
Qed.

Lemma gather_flat sources : forall m, gather m sources = gather_candidates m (concat (map snd sources)).
Proof.
  induction sources as [|[w l] sources IH]; intros m; cbn [gather map concat snd]; [done|].
  assert (forall l' m, gather_candidates m (l ++ l') = (m ← gather_candidates m l; gather_candidates m l')) as Happ.
  { clear. induction l as [|c l IH]; intros l' m; cbn [gather_candidates app]; [done|].
    destruct (m !! _); [|apply IH]. by destruct (str_eqb _ _). }
  rewrite Happ. destruct (gather_candidates m l); cbv [mbind result_bind]; [apply IH|done].
Qed.

(** The texts of the chosen, each taken once. *)
Lemma select_contents_takes sel : forall contents acc, NoDup (map Budget.content_ref sel) ->
  (forall r, r ∈ map Budget.content_ref sel -> is_Some (contents !! r)) ->
  exists m, select_contents contents acc sel = Ok m
  /\ forall r, m !! r = if bool_decide (r ∈ map Budget.content_ref sel) then contents !! r else acc !! r.
Proof.
  induction sel as [|c sel IH]; intros contents acc Hn Hin; cbn [select_contents map] in *; [by exists acc|].
  apply NoDup_cons in Hn as [Hc Hn]. destruct (Hin _ (list_elem_of_here _ _)) as [text Ht]. rewrite Ht.
  destruct (IH (delete (Budget.content_ref c) contents) (<[Budget.content_ref c := text]> acc)) as (m & -> & Hm); [done| |].
  { intros r Hr. rewrite lookup_delete_ne by (by intros <-). apply Hin. by right. }
  exists m. split; [done|]. intros r. rewrite Hm. destruct (decide (r = Budget.content_ref c)) as [->|Hne].
  - rewrite bool_decide_eq_false_2 by done. rewrite bool_decide_eq_true_2 by by left. by rewrite lookup_insert_eq.
  - rewrite lookup_delete_ne, lookup_insert_ne by done. case_bool_decide as E; case_bool_decide as E'; [done| | |done].
    + destruct E'. by right.
    + apply elem_of_cons in E' as [|]; done.
Qed.

Lemma without_lookup m dropped r :
  without m dropped !! r = if bool_decide (r ∈ map Budget.content_ref dropped) then None else m !! r.
Proof.
  induction dropped as [|c dropped IH]; cbn [without fold_right map]; [done|]. fold (without m dropped).
  destruct (decide (r = Budget.content_ref c)) as [->|Hne].
  - rewrite lookup_delete_eq, bool_decide_eq_true_2 by by left. done.
  - rewrite lookup_delete_ne, IH by done. case_bool_decide as E; case_bool_decide as E'; [done| | |done].
    + destruct E'. by right.
    + apply elem_of_cons in E' as [|]; done.
Qed.

Lemma fused_refs sources r :
  r ∈ map Budget.content_ref (Budget.all_candidates (fusion_inputs sources)) <-> exists text, texts (concat (map snd sources)) r text.
Proof.
  assert (Budget.all_candidates (fusion_inputs sources) = map candidate (concat (map snd sources))) as ->.
  { unfold Budget.all_candidates, fusion_inputs. rewrite map_map, concat_map, map_map. f_equal. apply map_ext. by intros [w l]. }
  rewrite map_map, list_elem_of_fmap. split.
  - intros (c & -> & Hc). by exists (content c), c.
  - intros (text & c & Hc & Hr & _). by exists c.
Qed.

(** Evidence whose references name their texts is gathered and chosen from without an error. *)
Lemma fuse_bounds json_len into_values limit sources warnings planner :
  Budget.drains into_values -> refs_name_texts sources ->
  let p := Budget.plan into_values (Budget.new limit) (fusion_inputs sources) in
  exists taken,
    fuse json_len into_values limit sources warnings planner
    = bound_context_response json_len {| pack := p; contents := taken; warnings := warnings; planner := planner |} limit
    /\ forall ref text, taken !! ref = Some text
         <-> ref ∈ map Budget.content_ref (Budget.selected p) /\ texts (concat (map snd sources)) ref text.
Proof.
  intros Hd Hrefs p. unfold fuse. rewrite gather_flat.
  destruct (gather_candidates_files (concat (map snd sources)) ∅) as (m & -> & Hm).
  { intros r a b [?|(x & Hx & Hrx & <-)]; [by rewrite lookup_empty in *|]. intros [?|(y & Hy & Hry & <-)]; [by rewrite lookup_empty in *|].
    apply Hrefs; [done..|]. by rewrite Hrx. }
  cbv zeta. destruct (Budget.chosen_refs into_values (Budget.new limit) (fusion_inputs sources) Hd) as [Hn Hin]. fold p in Hn, Hin |- *.
  destruct (select_contents_takes (Budget.selected p) m ∅) as (taken & -> & Ht); [exact Hn| |].
  { intros r Hr. apply Hin, fused_refs in Hr as [text Hr]. exists text. apply Hm. by right. }
  exists taken. split; [done|]. intros ref text. specialize (Hm ref text). rewrite lookup_empty in Hm. rewrite Ht, lookup_empty.
  case_bool_decide; [rewrite Hm|]; naive_solver.
Qed.

(** A plan over such evidence ends with an answer, or with a budget that is too small. *)
Lemma fuse_ends json_len into_values limit sources warnings planner :
  Budget.drains into_values -> refs_name_texts sources ->
  exists res, fuse json_len into_values limit sources warnings planner = Some res /\ forall e, res = Err e -> exists n, e = too_small n.
Proof.
  intros Hd Hrefs. destruct (fuse_bounds json_len into_values limit sources warnings planner Hd Hrefs) as (taken & -> & _).
  set (r0 := {| pack := _; contents := taken; warnings := warnings; planner := planner |}).
  destruct (bound_loop_ends json_len limit (estimate_source r0) (S (droppable r0)) none_omitted (estimate_source r0))
    as (o & r1 & _ & _ & [ [Hres _] | [Hres _] ]); [apply kept_refl|unfold droppable; cbn; lia|by intros [_ ?]| |];
    eexists; (split; [exact Hres|]); intros e [= <-]. by eexists.
Qed.

(** C22: a plan over evidence whose references name their texts never fails on itself: it is
    an answer or a budget that is too small. The answer's evidence is the first of the
    plan's choice; each piece of it is delivered with the text that it was retrieved
    with, once, and no other text is sent. *)
Theorem plans_deliver_their_evidence json_len into_values limit sources warnings planner :
  Budget.drains into_values -> refs_name_texts sources ->
  exists res, fuse json_len into_values limit sources warnings planner = Some res
  /\ match res with
     | Ok r =>
         encoded_context_tokens json_len r <= limit
         /\ Budget.selected (pack r) `prefix_of` Budget.selected (Budget.plan into_values (Budget.new limit) (fusion_inputs sources))
         /\ NoDup (map Budget.content_ref (Budget.selected (pack r)))
         /\ forall ref text, contents r !! ref = Some text
              <-> ref ∈ map Budget.content_ref (Budget.selected (pack r)) /\ texts (concat (map snd sources)) ref text
     | Err e => exists n, e = too_small n
     end.
Proof.
  intros Hd Hrefs. destruct (fuse_bounds json_len into_values limit sources warnings planner Hd Hrefs) as (taken & -> & Ht).
  destruct (Budget.chosen_refs into_values (Budget.new limit) (fusion_inputs sources) Hd) as [Hn _].
  set (p := Budget.plan into_values (Budget.new limit) (fusion_inputs sources)) in *.
  set (r0 := {| pack := p; contents := taken; warnings := warnings; planner := planner |}).
  destruct (bound_loop_ends json_len limit (estimate_source r0) (S (droppable r0)) none_omitted (estimate_source r0))
    as (o & r1 & Hk & _ & [ [Hres Hle] | [Hres _] ]);
    [apply kept_refl|unfold droppable; cbn; lia|by intros [_ ?]| |]; eexists; (split; [exact Hres|]); [|by eexists].
  split; [exact Hle|]. apply kept_announced in Hk. destruct (kept_selected _ _ _ Hk) as (ds & Hs & _ & Hc).
  cbn [estimate_source pack with_pack pack_used Budget.selected r0 contents] in Hs, Hc. rewrite Hs, map_app in Hn. apply NoDup_app in Hn as (Hn1 & Hn2 & _).
  split; [by exists ds|]. split; [exact Hn1|]. intros ref text.
  change (contents (settled json_len (announced o r1))) with (contents (announced o r1)). rewrite Hc, without_lookup.
  change (Budget.selected (pack (settled json_len (announced o r1)))) with (Budget.selected (pack (announced o r1))).
  specialize (Ht ref text). rewrite Hs, map_app, elem_of_app in Ht.
  case_bool_decide as E1; [split; [done|]; intros [H _]; by destruct (Hn2 _ H)|]. rewrite Ht. naive_solver.
Qed.

(** ** Warnings *)

Definition warnings_bounded (ws : list ContextWarning) : Prop :=
  (length ws <= MAX_WARNINGS)%nat /\ Forall (fun w => (blen (message w) <= MAX_WARNING_BYTES)%nat) ws.

Lemma bounded_message_bounded m : (blen (bounded_message m) <= MAX_WARNING_BYTES)%nat.
Proof.
  unfold bounded_message. destruct (Nat.leb_spec (blen m) MAX_WARNING_BYTES) as [|Hgt]; [done|].
  destruct (boundary_down_split m (MAX_WARNING_BYTES - blen TRUNCATED_SUFFIX)) as (a & b & Hab & Ha & Hl).
  assert (slice_to (boundary_down m (MAX_WARNING_BYTES - blen TRUNCATED_SUFFIX)) m = Some a) as ->.
  { rewrite <- Ha, Hab. apply slice_to_app. }
  change (default [] (Some a)) with a. rewrite blen_app. assert (blen TRUNCATED_SUFFIX = 14%nat) as Hs by done. unfold MAX_WARNING_BYTES in *. lia.
Qed.

Lemma push_warning_bounded ws w : warnings_bounded ws -> warnings_bounded (push_warning ws w).
Proof.
  intros [Hl Hf]. unfold push_warning. destruct (Nat.ltb_spec (length ws) MAX_WARNINGS).
  - split; [rewrite length_app; cbn [length]; lia|]. apply Forall_app. split; [done|]. constructor; [apply bounded_message_bounded|done].
  - destruct (match last ws with Some _ => _ | None => _ end); [|done]. split; [by rewrite length_insert|].
    apply Forall_insert; [done|]. vm_compute. lia.
Qed.

Definition bounded_warning (w : ContextWarning) : ContextWarning := {| code := code w; message := bounded_message (message w) |}.

(** The warnings of a plan are at most eight, of at most 512 bytes each; up to eight
    they are all there, in their order, and of more than eight the first seven are, and the
    last says that warnings were left out. *)
Theorem warnings_say_when_they_are_cut new :
  let ws := push_warnings [] new in
  warnings_bounded ws
  /\ ((length new <= MAX_WARNINGS)%nat -> ws = map bounded_warning new)
  /\ ((MAX_WARNINGS < length new)%nat -> exists w, ws = take (MAX_WARNINGS - 1) (map bounded_warning new) ++ [w] /\ code w = WarningsTruncated).
Proof.
  cbv zeta. induction new as [|w new (IHb & IHe & IHc)] using rev_ind.
  - split; [split; [cbn [length push_warnings fold_left]; lia|constructor]|]. split; [done|]. cbn [length]. lia.
  - assert (push_warnings [] (new ++ [w]) = push_warning (push_warnings [] new) w) as -> by apply fold_left_app.
    split; [by apply push_warning_bounded|]. rewrite length_app, map_app. cbn [length map]. unfold MAX_WARNINGS in *. unfold push_warning.
    destruct (Nat.le_gt_cases (length new) 8) as [Hle|Hgt].
    + rewrite (IHe Hle), length_map. change MAX_WARNINGS with 8%nat. split; [intros H; by rewrite (proj2 (Nat.ltb_lt _ _)) by lia|]. intros H.
      assert (length new = 8%nat) as H8 by lia. rewrite (proj2 (Nat.ltb_ge _ _)) by lia.
      destruct new as [|n1 [|n2 [|n3 [|n4 [|n5 [|n6 [|n7 [|n8 [|] ] ] ] ] ] ] ] ]; try discriminate H8.
      cbn [map last]. case_bool_decide as E; [exists (bounded_warning n8); by split|]. exists warnings_omitted. by split.
    + split; [lia|]. intros _. destruct (IHc Hgt) as (w' & Hws & Hw'). exists w'. rewrite Hws.
      assert (length (take (8 - 1) (map bounded_warning new)) = 7%nat) as Hl by (rewrite length_take, length_map; lia).
      rewrite length_app, Hl. change (7 + length [w'] <? MAX_WARNINGS)%nat with false. cbn iota. rewrite last_snoc, bool_decide_eq_true_2 by done. cbn [negb].
      split; [|done]. rewrite take_app_le by (rewrite length_map; lia). done.
Qed.

(** ** Examples *)

Definition located_result (p : rstr) : result ContextError rstr := Ok p.

Definition sample_workspace : Workspace :=
  {| root := lit "/r"; normalize_filter := fun p => Ok p; place_result := located_result; read_file := fun _ => None |}.

(** An engine whose index is broken, and whose other passes find one line. *)
Definition sample_hit : ForkSearchHit :=
  {| f_path := lit "src/a.rs"; f_score := S754_zero false; f_matched_lines := 1;
     f_snippets := [{| f_lines := [{| f_line := 3; f_text := lit "fn main() {" |}]; f_terms := [lit "main"] |}] |}.

Definition sample_engine : Engine :=
  {| config := Err (Index (lit "broken"));
     run := fun _ => Ok {| f_query := lit "main"; f_total_hits := 1; f_scanned_files := 4; f_skipped_large := 0; f_skipped_binary := 0;
                           f_hits := [sample_hit]; parse_error := None; backend := Some Builtin |} |}.

Definition sample_situation : Situation :=
  {| workspace_for_read := Ok (sample_workspace, None); read_generation := fun _ => Ok (lit "g1");
     prepare := fun _ => Ok {| p_workspace := sample_workspace; p_generation := lit "g1"; vectors := true |};
     engine := fun _ => sample_engine; display := fun _ => lit "index failed" |}.

Definition sample_request : SearchRequest :=
  {| s_query := lit "where is the retry loop"; s_path := None; s_limit := 5; s_mode := AutoMode; include_content := true |}.

Definition sample_answer : result ContextError SearchApiResponse := search_with_accounting sample_situation sample_request.

Lemma searches_say_how_they_were_answered_witness :
  exists r kind query, sample_answer = Ok r /\ from_pass sample_situation r kind query /\ fallback_reason r <> None.
Proof.
  destruct sample_answer as [r|e] eqn:E; [|by vm_compute in E].
  destruct (searches_say_how_they_were_answered sample_situation sample_request r E) as (kind & query & Hf & _).
  exists r, kind, query. split; [done|]. split; [done|]. vm_compute in E. injection E as <-. done.
Defined.

Lemma sample_meets ws : meets sample_situation ws -> ws = sample_workspace.
Proof. intros [ [m H]|(ws0 & p & H & ->)]; by injection H as <-. Qed.

Lemma sample_builtin_answers : builtin_answers sample_situation sample_request.
Proof.
  intros ws g r kind ->%sample_meets Hp Hk. unfold search_in. rewrite Hp. cbv [mbind result_bind]. cbn [normalize_filter sample_workspace sample_request s_path].
  rewrite bool_decide_eq_false_2 by done. cbn [engine sample_situation run sample_engine parse_error f_hits backend].
  destruct (N.to_nat (s_limit r)) as [|n]; [done|]. cbn [take]. by rewrite take_nil.
Qed.

Lemma index_failures_do_not_fail_searches_witness : is_ok sample_answer = true.
Proof.
  apply (index_failures_do_not_fail_searches sample_situation sample_request sample_workspace None (lit "g1")); [| |reflexivity..].
  - exact sample_builtin_answers.
  - intros ws g r error ->%sample_meets Hp H. unfold search_in in H. rewrite Hp in H. by injection H as <-.
Defined.

(** Two pieces of code, and a budget for one of them. *)
Definition sample_retrieved (name text : rstr) (tokens : N) : RetrievedCandidate :=
  {| candidate := {| Budget.id := name; Budget.source := Budget.Index; Budget.content_ref := name; Budget.path := Some name; Budget.symbol := None;
                     Budget.line_start := Some 1; Budget.line_end := Some 9; Budget.source_rank := 1; Budget.relevance := F32.one;
                     Budget.tokens := {| Budget.value := tokens; Budget.count_source := Budget.Estimate |};
                     Budget.rest := {| symbol_unavailable_reason := None; freshness := []; trust := [];
                       provenance := {| provenance_source := []; content_hash := name; generation := None; canonical_ref := None; derived_by := None |} |} |};
     content := text |}.

Definition sample_retrieval : Sources :=
  [(PLAN_WEIGHT, [sample_retrieved (lit "a") (lit "fn a() {}") 40; sample_retrieved (lit "b") (lit "fn b() {}") 30])].

Definition sample_drain (m : gmap rstr (ContextCandidate * f32)) := map snd (map_to_list m).

(** A length that grows with what an answer holds. *)
Definition sample_len (r : ContextPlanApiResponse) : N :=
  100 + 120 * N.of_nat (length (Budget.selected (pack r))) + 30 * N.of_nat (length (Budget.rejected (pack r)))
  + 80 * N.of_nat (length (warnings r)) + match planner r with Some _ => 60 | None => 0 end + slen (dec (used_value r)).

Definition sample_plan : option (result ContextError ContextPlanApiResponse) := fuse sample_len sample_drain 85 sample_retrieval [] None.

Example sample_plan_drops_one : match sample_plan with
  | Some (Ok r) => (map Budget.id (Budget.selected (pack r)), contents r !! lit "a", contents r !! lit "b", used_value r)
                   = ([lit "a"], Some (lit "fn a() {}"), None, 76)
  | _ => False
  end.
Proof. vm_compute. done. Qed.

Lemma plans_deliver_their_evidence_witness :
  exists r, sample_plan = Some (Ok r) /\ contents r !! lit "a" = Some (lit "fn a() {}") /\ encoded_context_tokens sample_len r <= 85.
Proof.
  destruct (plans_deliver_their_evidence sample_len sample_drain 85 sample_retrieval [] None) as (res & Hres & Hr).
  - intros m. reflexivity.
  - intros a b Ha Hb. change (concat (map snd sample_retrieval)) with [sample_retrieved (lit "a") (lit "fn a() {}") 40; sample_retrieved (lit "b") (lit "fn b() {}") 30] in *.
    rewrite !elem_of_cons, elem_of_nil in Ha, Hb. by destruct Ha as [->|[->|[] ] ], Hb as [->|[->|[] ] ].
  - destruct res as [r|e].
    + exists r. split; [exact Hres|]. destruct Hr as (Hle & _ & _ & _). split; [|exact Hle].
      vm_compute in Hres. injection Hres as <-. vm_compute. done.
    + vm_compute in Hres. discriminate Hres.
Defined.

Lemma sample_counts_itself : counts_itself sample_len.
Proof. intros r. eexists. intros v. unfold sample_len. cbn [pack with_used with_pack pack_used warnings planner Budget.selected Budget.rejected Budget.used Budget.value]. done. Qed.

Definition sample_response : ContextPlanApiResponse :=
  {| pack := Budget.plan sample_drain (Budget.new 60) (fusion_inputs sample_retrieval); contents := ∅;
     warnings := [warnings_omitted]; planner := None |}.

Lemma sample_within_memory : within_memory sample_len (estimate_source sample_response).
Proof.
  intros o r v [ (ds & Hs & _) [Hr _] (dw & Hw & _) _ _ _ _] Hv.
  assert (length (Budget.selected (pack r)) <= 2)%nat as Hls by (apply (f_equal length) in Hs; rewrite length_app in Hs; assert (length (Budget.selected (pack (estimate_source sample_response))) <= 2)%nat by (vm_compute; lia); lia).
  assert (length (Budget.rejected (pack r)) <= 2)%nat as Hlr by (rewrite Hr; destruct (_ =? 0); vm_compute; lia).
  assert (length (other_warnings r) <= 1)%nat as Hlw by (apply (f_equal length) in Hw; rewrite length_app in Hw; assert (length (other_warnings (estimate_source sample_response)) = 1)%nat by done; lia).
  pose proof (announced_told o r v) as Ht. apply (f_equal length) in Ht. rewrite length_app in Ht.
  change (other_warnings (with_used (announced o r) v)) with (other_warnings (announced o r)) in Ht. rewrite other_announced in Ht.
  assert (length (if something_omitted o then [notice o] else []) <= 1)%nat by (destruct (something_omitted o); cbn; lia).
  pose proof (dec_blen _ Hv) as Hd. unfold sample_len.
  change (Budget.selected (pack (with_used (announced o r) v))) with (Budget.selected (pack r)).
  change (Budget.rejected (pack (with_used (announced o r) v))) with (Budget.rejected (pack r)).
  change (used_value (with_used (announced o r) v)) with v. unfold slen, u64_max in *. destruct (planner _); lia.
Qed.

Lemma context_plans_fit_witness : exists r,
  bound_context_response sample_len sample_response 60 = Some (Ok r) /\ used_value r = encoded_context_tokens sample_len r
  /\ encoded_context_tokens sample_len r <= 60.
Proof.
  destruct (context_plans_fit sample_len sample_response 60) as (o & r & _ & _ & Hu & [ [Hr Hle] | [Hr _] ]).
  - exact sample_counts_itself.
  - exact sample_within_memory.
  - vm_compute. done.
  - exists r. split_and!; assumption.
  - vm_compute in Hr. discriminate Hr.
Defined.
End Planner.
