(* ===== verification/ContextPlan.v ===== *)
(** Context plans ([crates/hzr-context/src/planner.rs], [plan] and [code_plan]): the
    evidence of a plan is gathered from the fork's planner, an exact search and the
    project's memories, each of which may fail by itself, and is put together under the
    budget.

    The runs of the fork, the index and the memory service are inputs. *)

From S2P Require Import Prelude RStr F32 Json Namespace Budget Candidate Planner.
From Stdlib Require Import ZifyBool ZifyN ZifyNat.

Module ContextPlan.
Import Candidate Planner.

(** ** Inputs *)

Record ForkBudgetReport := { token_budget : N; estimated_used : N; candidates_total : N; candidates_selected : N }.

Record ForkPlanOutput := {
  selected : list ForkPlanCandidate;
  budget_report : ForkBudgetReport;
  pipeline_version : option rstr;
  semantic_backend_used : option rstr;
  graph_candidate_count : option N;
  semantic_hit_count : option N;
}.

Record RecallRequest := { r_query : rstr; r_topic : option rstr; r_limit : N; r_keyword : option rstr; r_project : option rstr }.

Definition recall_new (query : rstr) : RecallRequest :=
  {| r_query := query; r_topic := None; r_limit := 5; r_keyword := None; r_project := None |}.

(** The planner's surroundings: those of a search, the identity of the repository, the
    budget of the policy, the fork's planner and outlines, and the memory service. *)
Record World (Num : Type) := {
  sit : Situation;
  out : Outside Num;
  repository_id : Workspace -> rstr;
  hard_token_limit : N;
  memory_plan : Workspace -> list rstr -> result ContextError ForkPlanOutput;
  read_symbols : Workspace -> rstr -> option (list ForkSymbol);
  recall : RecallRequest -> result rstr (list MemoryRecord);
  into_values : gmap rstr (ContextCandidate * f32) -> list (ContextCandidate * f32);
  json_len : ContextPlanApiResponse -> N;
}.
Arguments sit {Num}. Arguments out {Num}. Arguments repository_id {Num}. Arguments hard_token_limit {Num}.
Arguments memory_plan {Num}. Arguments read_symbols {Num}. Arguments recall {Num}. Arguments into_values {Num}. Arguments json_len {Num}.

Definition metadata (p : ForkPlanOutput) : ForkPlannerMetadata :=
  {| Planner.pipeline_version := pipeline_version p; Planner.semantic_backend_used := semantic_backend_used p;
     Planner.graph_candidate_count := graph_candidate_count p; Planner.semantic_hit_count := semantic_hit_count p;
     Planner.candidates_total := candidates_total (budget_report p); Planner.candidates_selected := candidates_selected (budget_report p);
     Planner.estimated_tokens_used := estimated_used (budget_report p); Planner.token_budget := token_budget (budget_report p) |}.

Section Plan.
Context {Num : Type} (w : World Num).

(** Results are placed in the workspace of the request. *)
Definition outside (ws : Workspace) : Outside Num :=
  {| sha256_hex := sha256_hex (out w); to_string := to_string (out w); number_of_f32 := number_of_f32 (out w);
     number_of_int := number_of_int (out w); normalize_result := place_result ws |}.

(** ** Outlines *)

Definition candidate_outline (ws : Workspace) (requested : rstr) : option (rstr * rstr * list ForkSymbol) :=
  match place_result ws requested with
  | Ok path => index ← read_symbols w ws path; Some (requested, path, index)
  | Err _ => None
  end.

(** One file after the other, whatever the order in which the runs end. *)
Fixpoint candidate_outlines_for_paths (ws : Workspace) (paths : list rstr) (outlines : Outlines) (unavailable : N) : Outlines * N :=
  match paths with
  | [] => (outlines, unavailable)
  | path :: paths =>
      match candidate_outline ws path with
      | Some (requested, path, index) => candidate_outlines_for_paths ws paths (<[path := index]> (<[requested := index]> outlines)) unavailable
      | None => candidate_outlines_for_paths ws paths outlines (unavailable + 1)
      end
  end.

Definition candidate_outlines (ws : Workspace) (selected : list ForkPlanCandidate) : Outlines * N :=
  candidate_outlines_for_paths ws (map rel_path selected) ∅ 0.

(** [Vec::dedup]: equal neighbours are one. *)
Fixpoint dedup (l : list rstr) : list rstr :=
  match l with
  | a :: (b :: _) as rest => if str_eqb a b then dedup rest else a :: dedup rest
  | _ => l
  end.

Definition search_outlines (ws : Workspace) (response : SearchApiResponse) : Outlines * N :=
  candidate_outlines_for_paths ws (dedup (sort_by str_cmp (map hit_path (hits response)))) ∅ 0.

Definition outline_warning (missing : N) (count : nat) (what : rstr) : ContextWarning :=
  {| code := OutlineUnavailableWarning;
     message := lit "symbol outline unavailable for " ++ dec missing ++ lit " of " ++ dec (N.of_nat count) ++ lit " " ++ what |}.

Definition with_missing (source : NormalizedSource) (missing : N) (count : nat) (what : rstr) : NormalizedSource :=
  if 0 <? missing then {| candidates := candidates source; source_warnings := push_warning (source_warnings source) (outline_warning missing count what) |}
  else source.

(** ** Code *)

Definition plan_limit (request : PlanRequest) : N := N.min (default (hard_token_limit w) (max_tokens request)) (hard_token_limit w).

Definition plan_token_budget (request : PlanRequest) : N := N.min (N.max (N.min (plan_limit request * 3) u64_max / 4) 1) u32_max.

Definition memory_plan_args (request : PlanRequest) (path_text : rstr) : list rstr :=
  [lit "memory"; lit "plan"; intent request; path_text; lit "--token-budget"; dec (plan_token_budget request);
   lit "--format"; lit "json"; lit "--top"; dec (search_limit request)].

Definition run_memory_plan (ws : Workspace) (request : PlanRequest) : result ContextError ForkPlanOutput :=
  filter ← normalize_filter ws (p_path request);
  memory_plan w ws (memory_plan_args request (default (lit ".") filter)).

Record CodePlanResult := { sources : list NormalizedSource; plan_warnings : list ContextWarning; planner_metadata : option ForkPlannerMetadata }.

Definition separate_code_sources (plan : NormalizedSource) (exact : option NormalizedSource) : list NormalizedSource :=
  plan :: option_list exact.

Definition searched (ws : Workspace) (generation : rstr) (response : SearchApiResponse) : NormalizedSource :=
  let '(outlines, missing) := search_outlines ws response in
  with_missing (normalize_search (outside ws) response generation outlines) missing (length (hits response)) (lit "search candidates").

(** The candidates with their paths placed in the workspace. *)
Definition placed_candidate (ws : Workspace) (scope : rstr) (c : ForkPlanCandidate) : result ContextError ForkPlanCandidate :=
  path ← place_result ws (hit_relative_path scope (rel_path c) false);
  Ok {| rel_path := path; plan_score := plan_score c; plan_sources := plan_sources c; estimated_tokens := estimated_tokens c |}.

Definition search_of (request : PlanRequest) (query : rstr) (limit : N) (mode : SearchMode) : SearchRequest :=
  {| s_query := query; s_path := p_path request; s_limit := limit; s_mode := mode; include_content := true |}.

(** The identifier of an intent, searched for literally. *)
Definition exact_evidence (ws : Workspace) (generation : rstr) (request : PlanRequest) (warnings : list ContextWarning) :
  option NormalizedSource * list ContextWarning :=
  match exact_identifier (intent request) with
  | None => (None, warnings)
  | Some identifier =>
      match search_in ws (engine (sit w) ws) generation (search_of request identifier (N.min (search_limit request) 5) ExactMode) Literal with
      | Ok response => (Some (searched ws generation response), warnings)
      | Err error =>
          (None, push_warning warnings {| code := SearchUnavailable;
                   message := lit "exact identifier search for " ++ identifier ++ lit " was unavailable: " ++ display (sit w) error |})
      end
  end.

(** The search in place of a planner that found nothing. *)
Definition fallback_evidence (ws : Workspace) (generation : rstr) (ready : bool) (request : PlanRequest) (warnings : list ContextWarning) :
  option NormalizedSource * list ContextWarning :=
  let warnings := push_warning warnings {| code := PlannerFallback;
    message := lit "fork memory planner returned no candidates; using one fork rgai fallback" |} in
  let mode := if ready then AutoMode else ExactMode in
  let kind := if ready then Adaptive else degraded_for (intent request) in
  match search_in ws (engine (sit w) ws) generation (search_of request (intent request) (search_limit request) mode) kind with
  | Ok response => (Some (searched ws generation response), warnings)
  | Err error => (None, push_warning warnings {| code := SearchUnavailable; message := display (sit w) error |})
  end.

Definition code_plan (ws : Workspace) (initial_generation : rstr) (request : PlanRequest) : result ContextError CodePlanResult :=
  let '(generation, ready, warnings) :=
    match prepare (sit w) ws with
    | Ok prepared => (p_generation prepared, true, [])
    | Err error =>
        (initial_generation, false,
         push_warning [] {| code := SearchDegraded;
           message := lit "canonical grepai lifecycle is unavailable; fork planner continues with structural evidence: " ++ display (sit w) error |})
    end in
  plan ← run_memory_plan ws request;
  scope ← normalize_filter ws (p_path request);
  placed ← collect_from (fun _ => placed_candidate ws (default (lit ".") scope)) 0 (selected plan);
  let planner := Some (metadata plan) in
  if negb (is_nil placed) then
    let selected := take (N.to_nat (search_limit request)) placed in
    let '(outlines, missing) := candidate_outlines ws selected in
    source ← normalize_plan (outside ws) selected generation (pipeline_version plan) outlines;
    let source := with_missing source missing (length selected) (lit "candidates") in
    let '(exact_source, warnings) := exact_evidence ws generation request warnings in
    Ok {| sources := separate_code_sources source exact_source; plan_warnings := warnings; planner_metadata := planner |}
  else
    let '(source, warnings) := fallback_evidence ws generation ready request warnings in
    Ok {| sources := option_list source; plan_warnings := warnings; planner_metadata := planner |}.

(** ** Plans *)

Definition memory_request (request : PlanRequest) (project : rstr) (exact_topic : option rstr) : RecallRequest :=
  let r := recall_new (intent request) in
  {| r_query := r_query r; r_topic := exact_topic; r_limit := Namespace.recall_candidate_limit (memory_limit request);
     r_keyword := r_keyword r; r_project := Some project |}.

Definition with_code (result : result ContextError CodePlanResult) : Sources * list ContextWarning * option ForkPlannerMetadata :=
  match result with
  | Ok r =>
      let '(sources, warnings) := fold_left (fun st source => add_source st PLAN_WEIGHT source) (sources r) ([], push_warnings [] (plan_warnings r)) in
      (sources, warnings, planner_metadata r)
  | Err error => ([], push_warning [] {| code := PlannerUnavailable; message := display (sit w) error |}, None)
  end.

(** [None] is a panic. *)
Definition with_memory (st : Sources * list ContextWarning) (memory : result rstr (list MemoryRecord)) (project : rstr)
    (exact_topic : option rstr) (limit : N) (ws : Workspace) : option (Sources * list ContextWarning) :=
  match memory with
  | Ok records =>
      source ← normalize_memory (outside ws) (Namespace.isolate_project_memories records project exact_topic (N.to_nat limit));
      Some (add_source st MEMORY_WEIGHT source)
  | Err error => Some (st.1, push_warning st.2 {| code := MemoryUnavailable; message := error |})
  end.

Definition recalled (request : PlanRequest) (project : rstr) (exact_topic : option rstr) : result rstr (list MemoryRecord) :=
  if no_memory request then Ok [] else recall w (memory_request request project exact_topic).

(** What a plan is made of: its sources, warnings and the planner's figures. *)
Definition evidence (ws : Workspace) (generation project : rstr) (exact_topic : option rstr) (request : PlanRequest) :
  option (Sources * list ContextWarning * option ForkPlannerMetadata) :=
  let '(sources, warnings, planner) := with_code (code_plan ws generation request) in
  '(sources, warnings) ← with_memory (sources, warnings) (recalled request project exact_topic) project exact_topic (memory_limit request) ws;
  Some (sources, warnings, planner).

Definition topic_of (request : PlanRequest) (project : rstr) : result ContextError (option rstr) :=
  match topic request with
  | Some kind => topic ← map_topic (Namespace.namespaced_topic kind project); Ok (Some topic)
  | None => Ok None
  end.

(** The checks of a request, and where it is answered. *)
Definition admitted (request : PlanRequest) : result ContextError (Workspace * rstr * rstr * option rstr) :=
  _ ← validate_plan request;
  '(ws, _) ← workspace_for_read (sit w);
  _ ← normalize_filter ws (p_path request);
  generation ← read_generation (sit w) ws;
  let project := repository_id w ws in
  exact_topic ← topic_of request project;
  Ok (ws, generation, project, exact_topic).

Definition plan (request : PlanRequest) : option (result ContextError ContextPlanApiResponse) :=
  match admitted request with
  | Err error => Some (Err error)
  | Ok (ws, generation, project, exact_topic) =>
      '(sources, warnings, planner) ← evidence ws generation project exact_topic request;
      fuse (json_len w) (into_values w) (plan_limit request) sources warnings planner
  end.
End Plan.

(** ** Warnings *)

(** What is said first stays the first. *)
Definition says_first (c : ContextWarningCode) (ws : list ContextWarning) : Prop := exists w, head ws = Some w /\ code w = c.

Lemma push_says_first c ws w : says_first c ws -> says_first c (push_warning ws w).
Proof.
  intros (v & Hv & Hc). destruct ws as [|v' ws]; [done|]. injection Hv as ->. unfold push_warning.
  destruct (_ <? _)%nat; [by exists v|]. destruct (match last _ with Some _ => _ | None => _ end); by exists v.
Qed.

Lemma pushes_say_first c new : forall ws, says_first c ws -> says_first c (push_warnings ws new).
Proof. induction new as [|w new IH]; intros ws H; [done|]. cbn. by apply IH, push_says_first. Qed.

Lemma says_first_pushed c ws : says_first c ws -> says_first c (push_warnings [] ws).
Proof.
  intros (w & Hw & Hc). destruct ws as [|w' ws]; [done|]. injection Hw as ->. cbn. apply pushes_say_first. by eexists.
Qed.

Lemma add_source_says_first c st weight source : says_first c st.2 -> says_first c (add_source st weight source).2.
Proof. destruct st as [ss ws]. intros H. unfold add_source. cbn [snd]. by apply pushes_say_first. Qed.

(** What is said last is there, or its place says that something was left out. *)
Lemma push_is_said ws w : warnings_bounded ws -> exists v, v ∈ push_warning ws w /\ (code v = code w \/ code v = WarningsTruncated).
Proof.
  intros [Hl _]. unfold push_warning. destruct (Nat.ltb_spec (length ws) MAX_WARNINGS) as [|Hge].
  - eexists. split; [apply elem_of_app; right; by left|]. by left.
  - destruct (last ws) as [v|] eqn:El.
    + destruct (bool_decide (code v = WarningsTruncated)) eqn:E; cbn [negb].
      * exists v. split; [|right; by apply bool_decide_eq_true in E]. apply last_Some in El as [l ->]. apply elem_of_app. right. by left.
      * exists warnings_omitted. split; [|by right]. apply list_elem_of_lookup. exists (MAX_WARNINGS - 1)%nat. apply list_lookup_insert_eq. unfold MAX_WARNINGS in *. lia.
    + apply last_None in El as ->. cbn in Hge. unfold MAX_WARNINGS in Hge. lia.
Qed.

Lemma pushes_bounded new : forall ws, warnings_bounded ws -> warnings_bounded (push_warnings ws new).
Proof. induction new as [|w new IH]; intros ws H; [done|]. cbn. by apply IH, push_warning_bounded. Qed.

Lemma none_bounded : warnings_bounded [].
Proof. split; [cbn; lia|constructor]. Qed.

Lemma add_source_bounded st weight source : warnings_bounded st.2 -> warnings_bounded (add_source st weight source).2.
Proof. destruct st as [ss ws]. intros H. unfold add_source. cbn [snd]. by apply pushes_bounded. Qed.

Lemma add_sources_keep (P : list ContextWarning -> Prop) weight l :
  (forall st source, P st.2 -> P (add_source st weight source).2) ->
  forall st, P st.2 -> P (fold_left (fun st source => add_source st weight source) l st).2.
Proof. intros Hs. induction l as [|x l IH]; intros st H; [done|]. cbn [fold_left]. by apply IH, Hs. Qed.

(** ** Sources *)

(** The retrieved evidence is that of the sources. *)
Lemma add_source_retrieved st weight source :
  concat (map snd (add_source st weight source).1) = concat (map snd st.1) ++ candidates source.
Proof.
  destruct st as [ss ws]. unfold add_source. cbn [fst]. destruct (candidates source) as [|c cs] eqn:E; cbn [is_nil].
  - by rewrite app_nil_r.
  - rewrite map_app, concat_app. cbn. by rewrite app_nil_r.
Qed.

Lemma add_sources_retrieved weight l : forall st,
  concat (map snd (fold_left (fun st source => add_source st weight source) l st).1) = concat (map snd st.1) ++ concat (map candidates l).
Proof.
  induction l as [|x l IH]; intros st; cbn [fold_left map concat]; [by rewrite app_nil_r|].
  by rewrite IH, add_source_retrieved, <- app_assoc.
Qed.

Lemma with_memory_ends {Num} (w : World Num) st memory project exact limit ws :
  exists st', with_memory w st memory project exact limit ws = Some st'.
Proof.
  destruct memory as [records|error]; cbn [with_memory]; [|by eexists].
  destruct (memory_identified (outside w ws) (Namespace.isolate_project_memories records project exact (N.to_nat limit))) as (n & -> & _). by eexists.
Qed.

Definition is_code (c : RetrievedCandidate) : Prop := Budget.source (candidate c) <> Budget.Memory.

Lemma plan_is_code {Num} (out : Outside Num) selected generation pipeline outlines n :
  normalize_plan out selected generation pipeline outlines = Ok n -> Forall is_code (candidates n).
Proof.
  unfold normalize_plan. intros H. inv_ok. subst. cbn [candidates]. revert H. generalize 0%nat as i. revert x.
  induction selected as [|a l IH]; intros cs i Hcs; cbn [collect_from] in Hcs; [by injection Hcs as <-|].
  inv_ok. subst. constructor; [|by eapply IH]. unfold plan_candidate, content_identity in *. inv_ok. by subst.
Qed.

Lemma search_is_code {Num} (out : Outside Num) response generation outlines :
  Forall is_code (candidates (normalize_search out response generation outlines)).
Proof.
  apply Forall_forall. intros c Hc. unfold normalize_search in Hc.
  destruct (search_loop_spec out response generation outlines 0 (hits response)) as [H1 _].
  destruct (H1 c Hc) as (i & hit & _ & _ & ->). unfold is_code, search_candidate. cbn. by destruct (strategy response).
Qed.

Lemma with_missing_candidates source missing count what : candidates (with_missing source missing count what) = candidates source.
Proof. unfold with_missing. by destruct (0 <? missing). Qed.

Lemma searched_is_code {Num} (w : World Num) ws generation response : Forall is_code (candidates (searched w ws generation response)).
Proof.
  unfold searched. destruct (search_outlines w ws response). rewrite with_missing_candidates. apply search_is_code.
Qed.

Lemma code_plan_is_code {Num} (w : World Num) ws generation request r :
  code_plan w ws generation request = Ok r -> Forall is_code (concat (map candidates (sources r))).
Proof.
  unfold code_plan. destruct (match prepare _ _ with Ok _ => _ | Err _ => _ end) as [ [g ready] warnings]. intros H. inv_ok.
  destruct (negb (is_nil x1)).
  - destruct (candidate_outlines w ws _) as [outlines missing]. inv_ok. destruct (exact_evidence _ _ _ _ _) as [exact ws'] eqn:Ee.
    injection H3 as <-. cbn [sources separate_code_sources map concat].
    apply Forall_app. split; [rewrite with_missing_candidates; by eapply plan_is_code|].
    unfold exact_evidence in Ee. destruct (exact_identifier _); [|injection Ee as <- _; constructor].
    destruct (search_in _ _ _ _ _); injection Ee as <- _; [|constructor]. cbn. rewrite app_nil_r. apply searched_is_code.
  - destruct (fallback_evidence _ _ _ _ _ _) as [source ws'] eqn:Ee. injection H2 as <-. cbn [sources].
    unfold fallback_evidence in Ee. destruct (search_in _ _ _ _ _); injection Ee as <- _; [|constructor]. cbn. rewrite app_nil_r. apply searched_is_code.
Qed.

(** What is said about an index that was not ready stays the first thing said. *)
Lemma code_plan_tells {Num} (w : World Num) ws generation request r error :
  prepare (sit w) ws = Err error -> code_plan w ws generation request = Ok r -> says_first SearchDegraded (plan_warnings r).
Proof.
  intros Hp. unfold code_plan. rewrite Hp. set (first := push_warning [] _). assert (says_first SearchDegraded first) as Hf by by eexists. clearbody first.
  intros H. inv_ok. destruct (negb (is_nil x1)).
  - destruct (candidate_outlines w ws _) as [outlines missing]. inv_ok. destruct (exact_evidence _ _ _ _ _) as [exact ws'] eqn:Ee.
    injection H3 as <-. cbn [plan_warnings]. unfold exact_evidence in Ee. destruct (exact_identifier _); [|by injection Ee as _ <-].
    destruct (search_in _ _ _ _ _); injection Ee as _ <-; [done|]. by apply push_says_first.
  - destruct (fallback_evidence _ _ _ _ _ _) as [source ws'] eqn:Ee. injection H2 as <-. cbn [plan_warnings].
    unfold fallback_evidence in Ee. destruct (search_in _ _ _ _ _); injection Ee as _ <-; repeat apply push_says_first; done.
Qed.

(** A memory's text, and whose it is. *)
Lemma memory_texts {Num} (out : Outside Num) records n c : normalize_memory out records = Some n -> c ∈ candidates n ->
  exists r, r ∈ records /\ bounded_memory_content (summary (Namespace.rest r)) (Namespace.id r) = Some (content c).
Proof.
  unfold normalize_memory. generalize 0%nat as i. revert n. induction records as [|r records IH]; intros n i; cbn [memory_loop].
  - intros [= <-] H. by apply not_elem_of_nil in H.
  - destruct (is_empty _).
    + intros (next & Hn & [= <-])%bind_Some Hc. destruct (IH _ _ Hn Hc) as (r' & ? & ?). exists r'. split; [by right|done].
    + intros (c0 & Hc0 & (next & Hn & [= <-])%bind_Some)%bind_Some Hc. cbn [candidates] in Hc. apply elem_of_cons in Hc as [->|Hc].
      * exists r. split; [by left|]. unfold memory_candidate in Hc0. apply bind_Some in Hc0 as (shown & Hs & Hc0).
        unfold content_identity in Hc0. injection Hc0 as <-. exact Hs.
      * destruct (IH _ _ Hn Hc) as (r' & ? & ?). exists r'. split; [by right|done].
Qed.

Lemma isolated_memories (records : list MemoryRecord) project exact limit r : r ∈ Namespace.isolate_project_memories records project exact limit ->
  r ∈ records /\ Namespace.topic_belongs_to_project (Namespace.topic r) project = true /\ forall t, exact = Some t -> Namespace.topic r = t.
Proof.
  unfold Namespace.isolate_project_memories, Namespace.isolate_memories. intros H.
  apply (sublist_subseteq _ _ (sublist_take _ _)), list_elem_of_In, filter_In in H as [Hin Hf]. apply andb_true_iff in Hf as [H1 H2].
  split; [by apply list_elem_of_In|]. split; [exact H1|]. intros t ->. cbn in H2. by apply bool_decide_eq_true in H2.
Qed.

(** A delivered text is a retrieved one. *)
Lemma gather_texts l : forall m m', gather_candidates m l = Ok m' -> forall r text, m' !! r = Some text -> m !! r = Some text \/ texts l r text.
Proof.
  induction l as [|c l IH]; intros m m' H r text Hr; cbn [gather_candidates] in H; [injection H as <-; by left|].
  assert (texts l r text -> texts (c :: l) r text) as Hlater by (intros (x & Hx & ?); exists x; split; [by right|done]).
  destruct (m !! _) as [known|] eqn:Ek.
  - destruct (str_eqb _ _); [|done]. destruct (IH _ _ H _ _ Hr); auto.
  - destruct (IH _ _ H _ _ Hr) as [Hi|]; [|auto]. destruct (decide (Budget.content_ref (candidate c) = r)) as [<-|Hne].
    + rewrite lookup_insert_eq in Hi. injection Hi as <-. right. exists c. by split; [left|].
    + rewrite lookup_insert_ne in Hi by done. by left.
Qed.

Lemma select_texts sel : forall contents acc m, select_contents contents acc sel = Ok m ->
  forall r text, m !! r = Some text -> contents !! r = Some text \/ acc !! r = Some text.
Proof.
  induction sel as [|c sel IH]; intros contents acc m H r text Hr; cbn [select_contents] in H; [injection H as <-; by right|].
  destruct (contents !! Budget.content_ref c) as [t|] eqn:Et; [|done]. destruct (IH _ _ _ H _ _ Hr) as [Hd|Hi].
  - apply lookup_delete_Some in Hd as [_ Hd]. by left.
  - destruct (decide (Budget.content_ref c = r)) as [<-|Hne]; [rewrite lookup_insert_eq in Hi; injection Hi as <-; by left|].
    rewrite lookup_insert_ne in Hi by done. by right.
Qed.

Lemma fuse_texts json_len into_values limit sources warnings planner r ref text :
  fuse json_len into_values limit sources warnings planner = Some (Ok r) -> contents r !! ref = Some text ->
  texts (concat (map snd sources)) ref text.
Proof.
  unfold fuse. rewrite gather_flat. destruct (gather_candidates ∅ _) as [m|e] eqn:Eg; [|done]. cbv zeta.
  destruct (select_contents m ∅ _) as [taken|e] eqn:Es; [|done]. intros Hb Hr.
  set (r0 := {| pack := _; contents := taken; warnings := warnings; planner := planner |}) in *.
  destruct (bound_loop_ends json_len limit (estimate_source r0) (S (droppable r0)) none_omitted (estimate_source r0))
    as (o & r1 & Hk & _ & [ [Hres Hle] | [Hres _] ]); [apply kept_refl|unfold droppable; cbn; lia|by intros [_ ?]| |];
    unfold bound_context_response in Hb; change (droppable (estimate_source r0)) with (droppable r0) in Hres; rewrite Hres in Hb; [|done]. injection Hb as <-.
  apply kept_announced in Hk. destruct (kept_selected _ _ _ Hk) as (ds & _ & _ & Hc).
  change (contents (settled json_len (announced o r1))) with (contents (announced o r1)) in Hr. rewrite Hc, without_lookup in Hr.
  case_bool_decide; [done|]. destruct (select_texts _ _ _ _ Es _ _ Hr) as [Hm|Hm]; [|by rewrite lookup_empty in Hm].
  destruct (gather_texts _ _ _ Eg _ _ Hm) as [He|]; [by rewrite lookup_empty in He|done].
Qed.

Lemma plan_evidence {Num} (w : World Num) request ws generation project exact :
  admitted w request = Ok (ws, generation, project, exact) ->
  exists sources warnings planner, evidence w ws generation project exact request = Some (sources, warnings, planner)
  /\ plan w request = fuse (json_len w) (into_values w) (plan_limit w request) sources warnings planner.
Proof.
  intros Ha. unfold plan, evidence. rewrite Ha. destruct (with_code w (code_plan w ws generation request)) as [ [sources warnings] planner].
  destruct (with_memory_ends w (sources, warnings) (recalled w request project exact) project exact (memory_limit request) ws) as [ [ss wss] Hm].
  exists ss, wss, planner. unfold evidence. rewrite Hm. done.
Qed.

(** What is known of the warnings of a plan's evidence. *)
Lemma evidence_tells {Num} (w : World Num) request ws generation project exact sources warnings planner :
  evidence w ws generation project exact request = Some (sources, warnings, planner) ->
  warnings_bounded warnings
  /\ (forall error r, prepare (sit w) ws = Err error -> code_plan w ws generation request = Ok r -> says_first SearchDegraded warnings)
  /\ (forall error, code_plan w ws generation request = Err error -> says_first PlannerUnavailable warnings)
  /\ (forall error, recalled w request project exact = Err error -> exists v, v ∈ warnings /\ (code v = MemoryUnavailable \/ code v = WarningsTruncated)).
Proof.
  unfold evidence. destruct (with_code w (code_plan w ws generation request)) as [ [ss cws] pl] eqn:Ec.
  assert (warnings_bounded cws
    /\ (forall error r, prepare (sit w) ws = Err error -> code_plan w ws generation request = Ok r -> says_first SearchDegraded cws)
    /\ (forall error, code_plan w ws generation request = Err error -> says_first PlannerUnavailable cws)) as (Hb & Hd & Hp).
  { unfold with_code in Ec. destruct (code_plan w ws generation request) as [r|e] eqn:Er.
    - pose proof (add_sources_keep warnings_bounded PLAN_WEIGHT (ContextPlan.sources r) (fun st source => add_source_bounded st PLAN_WEIGHT source)
        ([], push_warnings [] (plan_warnings r)) (pushes_bounded _ _ none_bounded)) as Hb.
      destruct (fold_left _ _ _) as [fs fw] eqn:Ef. injection Ec as <- <- <-. split_and!; [exact Hb| |done].
      intros error r' He [= <-]. pose proof (code_plan_tells w ws generation request r error He Er) as Ht.
      pose proof (add_sources_keep (says_first SearchDegraded) PLAN_WEIGHT (ContextPlan.sources r) (fun st source => add_source_says_first SearchDegraded st PLAN_WEIGHT source)
        ([], push_warnings [] (plan_warnings r)) (says_first_pushed _ _ Ht)) as Hs. rewrite Ef in Hs. exact Hs.
    - injection Ec as <- <- <-. split_and!; [apply push_warning_bounded, none_bounded|done|]. intros error _. by eexists. }
  intros ([ss' ws'] & Hm & [= <- <- <-])%bind_Some. unfold with_memory in Hm. destruct (recalled w request project exact) as [records|e].
  - apply bind_Some in Hm as (n & _ & Hm). apply (inj Some) in Hm.
    assert (ws' = (add_source (ss, cws) MEMORY_WEIGHT n).2) as -> by by rewrite Hm. split_and!; [by apply add_source_bounded| | |done].
    + intros. apply add_source_says_first. by eapply Hd.
    + intros. apply add_source_says_first. by eapply Hp.
  - injection Hm as <- <-. cbn [snd]. split_and!; [by apply push_warning_bounded| | |].
    + intros. apply push_says_first. by eapply Hd.
    + intros. apply push_says_first. by eapply Hp.
    + intros _ _. by apply push_is_said.
Qed.

(** C28: a request that is admitted is answered, whatever fails on the way: an index that is
    not ready, the planner of the fork, a search, or the memory service. The only error
    left is a budget too small for a bare answer. Before the answer is fitted into its
    budget, which can drop warnings, its first warning tells of the planner if that
    failed, and of the index if that failed and the planner did not; and a warning tells of
    memories that could not be read, or that warnings were left out. A search or an
    outline that fails in the engine need not leave a warning. *)
Theorem plans_degrade_and_say_so {Num} (w : World Num) request ws generation project exact :
  Budget.drains (into_values w) -> admitted w request = Ok (ws, generation, project, exact) ->
  exists sources warnings planner,
    evidence w ws generation project exact request = Some (sources, warnings, planner)
    /\ (refs_name_texts sources -> exists res, plan w request = Some res /\ forall e, res = Err e -> exists n, e = too_small n)
    /\ (forall error r, prepare (sit w) ws = Err error -> code_plan w ws generation request = Ok r -> says_first SearchDegraded warnings)
    /\ (forall error, code_plan w ws generation request = Err error -> says_first PlannerUnavailable warnings)
    /\ (forall error, recalled w request project exact = Err error -> exists v, v ∈ warnings /\ (code v = MemoryUnavailable \/ code v = WarningsTruncated)).
Proof.
  intros Hd Ha. destruct (plan_evidence w request ws generation project exact Ha) as (ss & wss & planner & He & Hp).
  destruct (evidence_tells w request ws generation project exact _ _ _ He) as (_ & H1 & H2 & H3).
  exists ss, wss, planner. split_and!; [exact He| |exact H1|exact H2|exact H3].
  intros Hr. rewrite Hp. by apply fuse_ends.
Qed.

(** C27: every text of a context plan is code evidence of this request, or a memory that the
    service recalled for it, filed under a topic of this repository, and under the topic
    that was asked for if one was; a memory is shown whole or as its bounded text. Where
    memories are not wanted there are none. *)
Theorem plans_show_only_the_projects_memories {Num} (w : World Num) request r ref text :
  plan w request = Some (Ok r) -> contents r !! ref = Some text ->
  exists ws generation project exact, admitted w request = Ok (ws, generation, project, exact)
  /\ ((exists code c, code_plan w ws generation request = Ok code /\ c ∈ concat (map candidates (sources code)) /\ is_code c /\ content c = text)
      \/ (exists records record, no_memory request = false /\ recall w (memory_request request project exact) = Ok records /\ record ∈ records
          /\ Namespace.topic_belongs_to_project (Namespace.topic record) project = true
          /\ (forall t, exact = Some t -> Namespace.topic record = t)
          /\ bounded_memory_content (summary (Namespace.rest record)) (Namespace.id record) = Some text)).
Proof.
  unfold plan. destruct (admitted w request) as [ [ [ [ws generation] project] exact] |e]; [|done]. intros Hp Ht.
  exists ws, generation, project, exact. split; [done|].
  apply bind_Some in Hp as ([ [ss wss] planner] & He & Hf). pose proof (fuse_texts _ _ _ _ _ _ _ _ _ Hf Ht) as (c & Hc & _ & <-).
  unfold evidence in He. destruct (with_code w (code_plan w ws generation request)) as [ [cs cw] cp] eqn:Ec.
  apply bind_Some in He as ([ms mw] & Hm & [= -> -> ->]).
  assert (c ∈ concat (map snd cs) -> exists code, code_plan w ws generation request = Ok code /\ c ∈ concat (map candidates (sources code))) as Hcode.
  { unfold with_code in Ec. destruct (code_plan w ws generation request) as [code|e]; [|injection Ec as <- _ _; intros H; by apply not_elem_of_nil in H].
    pose proof (add_sources_retrieved PLAN_WEIGHT (sources code) ([], push_warnings [] (plan_warnings code))) as Hr.
    destruct (fold_left _ _ _) as [fs fw]. injection Ec as <- _ _. cbn [fst map concat app] in Hr. rewrite Hr. by exists code. }
  assert (c ∈ concat (map snd cs) -> exists code c', code_plan w ws generation request = Ok code /\ c' ∈ concat (map candidates (sources code)) /\ is_code c' /\ content c' = content c) as Hleft.
  { intros H. destruct (Hcode H) as (code & Hok & Hin). exists code, c. split_and!; [done..| |done].
    eapply Forall_forall; [by eapply code_plan_is_code|exact Hin]. }
  unfold with_memory in Hm. destruct (recalled w request project exact) as [records|e] eqn:Erec.
  - apply bind_Some in Hm as (n & Hn & Hm). apply (inj Some) in Hm.
    pose proof (add_source_retrieved (cs, cw) MEMORY_WEIGHT n) as Hr. rewrite Hm in Hr. cbn [fst] in Hr. rewrite Hr in Hc.
    apply elem_of_app in Hc as [Hc|Hc]; [left; by apply Hleft|]. right.
    destruct (memory_texts _ _ _ _ Hn Hc) as (record & Hrec & Hshown). apply isolated_memories in Hrec as (Hin & Hbelongs & Hexact).
    unfold recalled in Erec. destruct (no_memory request); [injection Erec as <-; by apply not_elem_of_nil in Hin|]. by exists records, record.
  - injection Hm as -> _. left. by apply Hleft.
Qed.

(** ** Examples *)

Definition sample_project : rstr := concat (repeat (lit "ab") 32).

Definition sample_record : MemoryRecord :=
  {| Namespace.score := None; Namespace.id := lit "m1"; Namespace.updated_at := lit "2026"; Namespace.topic := lit "notes-" ++ sample_project;
     Namespace.rest := {| weight := F32.one; summary := lit "retries are bounded"; memory_source := Manual; scope := Candidate.Project |} |}.

Definition other_record : MemoryRecord :=
  {| Namespace.score := None; Namespace.id := lit "m2"; Namespace.updated_at := lit "2026"; Namespace.topic := lit "notes-other";
     Namespace.rest := {| weight := F32.one; summary := lit "not ours"; memory_source := Manual; scope := Candidate.Project |} |}.

(** A repository whose fork and index are down; its memory service may be. *)
Definition sample_world (memory : result rstr (list MemoryRecord)) : World N :=
  {| sit := {| workspace_for_read := Ok (sample_workspace, None); read_generation := fun _ => Ok (lit "g1");
               prepare := fun _ => Err (IndexNotReady (lit "cold")); engine := fun _ => sample_engine; display := fun _ => lit "down" |};
     out := {| sha256_hex := fun s => s; to_string := fun _ => lit "{}"; number_of_f32 := fun _ => Json.Null; number_of_int := fun n => n;
               normalize_result := fun p => Ok p |};
     repository_id := fun _ => sample_project; hard_token_limit := 8000;
     memory_plan := fun _ _ => Err (ForkUnavailable (lit "not installed")); read_symbols := fun _ _ => None;
     recall := fun _ => memory; into_values := sample_drain; json_len := sample_len |}.

Definition sample_plan_request : PlanRequest :=
  {| max_tokens := None; no_memory := false; intent := lit "bound the retries"; p_path := None; topic := Some (lit "notes");
     search_limit := 5; memory_limit := 3 |}.

Definition sample_answer : option (result ContextError ContextPlanApiResponse) := plan (sample_world (Ok [other_record; sample_record])) sample_plan_request.

Example sample_answer_shows_ours : match sample_answer with
  | Some (Ok r) => (map snd (map_to_list (contents r)), map code (warnings r)) = ([lit "retries are bounded"], [PlannerUnavailable])
  | _ => False
  end.
Proof. vm_compute. done. Qed.

Lemma Ok_inj {E A} (a b : A) : @Ok E A a = Ok b -> a = b.
Proof. by intros [=]. Qed.

Lemma sample_admitted memory : admitted (sample_world memory) sample_plan_request = Ok (sample_workspace, lit "g1", sample_project, Some (lit "notes-" ++ sample_project)).
Proof. vm_compute. reflexivity. Qed.

Lemma sample_code_plan memory ws : ws = sample_workspace -> code_plan (sample_world memory) ws (lit "g1") sample_plan_request = Err (ForkUnavailable (lit "not installed")).
Proof. intros ->. reflexivity. Qed.

Lemma plans_show_only_the_projects_memories_witness : exists record,
  record ∈ [other_record; sample_record] /\ Namespace.topic_belongs_to_project (Namespace.topic record) sample_project = true.
Proof.
  destruct sample_answer as [ [r|e] |] eqn:E; [|by vm_compute in E..].
  destruct (plans_show_only_the_projects_memories (sample_world (Ok [other_record; sample_record])) sample_plan_request r
    (lit "sha256:retries are bounded") (lit "retries are bounded") E) as (ws & generation & project & exact & Ha & Hs).
  - vm_compute in E. injection E as <-. vm_compute. done.
  - rewrite sample_admitted in Ha. apply Ok_inj in Ha. destruct Hs as [(code & c & Hc & _)|(records & record & _ & Hr & Hin & Hb & _)].
    + assert (ws = sample_workspace) as -> by exact (f_equal (fun t => t.1.1.1) (eq_sym Ha)).
      assert (generation = lit "g1") as -> by exact (f_equal (fun t => t.1.1.2) (eq_sym Ha)).
      by rewrite sample_code_plan in Hc.
    + assert (project = sample_project) as -> by exact (f_equal (fun t => t.1.2) (eq_sym Ha)). apply Ok_inj in Hr. subst records. exists record. exact (conj Hin Hb).
Defined.

Lemma plans_degrade_and_say_so_witness : exists res, plan (sample_world (Err (lit "memory is down"))) sample_plan_request = Some res
  /\ forall e, res = Err e -> exists n, e = too_small n.
Proof.
  destruct (plans_degrade_and_say_so (sample_world (Err (lit "memory is down"))) sample_plan_request sample_workspace (lit "g1") sample_project
    (Some (lit "notes-" ++ sample_project))) as (sources & warnings & planner & He & Hp & _).
  - intros m. reflexivity.
  - apply sample_admitted.
  - apply Hp. vm_compute in He. injection He as <- _ _. intros a b Ha. by apply not_elem_of_nil in Ha.
Defined.
End ContextPlan.
