(* ===== verification/Coordinator.v ===== *)
(** The index watchers of the daemon ([crates/hzr-index/src/coordinator.rs]): a bounded
    set of processes, one to a worktree. A watcher is started when a search needs it, and
    is stopped when it is idle or its place is needed.

    Whether a process runs, and what its start and its end give, are inputs; so is the
    order in which a hash map is walked. *)

From S2P Require Import Prelude.
From Stdlib Require Import ZifyBool ZifyN ZifyNat.

Module Coordinator.

Definition DEFAULT_WATCHER_LIMIT : N := 8.
Definition DEFAULT_WATCHER_IDLE_TTL : N := 15 * 60 * 1000.

Inductive IndexWatcherState := Live | Standby | Failed.

#[export] Instance IndexWatcherState_eq_dec : EqDecision IndexWatcherState.
Proof. solve_decision. Defined.

Section Watchers.
(** Worktree identifiers, with an order, and errors. *)
Context {K : Type} `{!EqDecision K, !Countable K} {E : Type}.

(** [handle] names the process; times are milliseconds of a clock. *)
Record WatcherEntry := { handle : N; last_used : N; failed_at : option N }.

Abbreviation Watchers := (gmap K WatcherEntry) (only parsing).

Record Limits := { watcher_limit : N; watcher_idle_ttl : N }.

(** [with_watcher_limits]: there is always room for one. *)
Definition with_watcher_limits (limit ttl : N) : Limits := {| watcher_limit := N.max limit 1; watcher_idle_ttl := ttl |}.

Definition with_failed_at (e : WatcherEntry) (t : option N) : WatcherEntry :=
  {| handle := handle e; last_used := last_used e; failed_at := t |}.

Definition used_at (e : WatcherEntry) (t : N) : WatcherEntry :=
  {| handle := handle e; last_used := t; failed_at := failed_at e |}.

(** [failed_at.get_or_insert(now)]. *)
Definition failing (e : WatcherEntry) (now : N) : WatcherEntry := with_failed_at e (Some (default now (failed_at e))).

(** What [try_wait] answers for a process. *)
Abbreviation Probe := (N -> result E bool) (only parsing).

(** ** Evictions *)

Record Scan := { scanned : Watchers; keys : list K; failed : list K }.

(** One turn of the first loop: what it did to the map is kept when it fails. *)
Definition scan_entry (limits : Limits) (now : N) (is_running : Probe) (s : Scan) (kv : K * WatcherEntry) : Scan * result E unit :=
  let '(key, e) := kv in
  match is_running (handle e) with
  | Err error => (s, Err error)
  | Ok false =>
      let e := failing e now in
      ({| scanned := <[key := e]> (scanned s);
          keys := if watcher_idle_ttl limits <=? sat_sub now (default now (failed_at e)) then keys s ++ [key] else keys s;
          failed := failed s ++ [key] |}, Ok tt)
  | Ok true =>
      if watcher_idle_ttl limits <=? sat_sub now (last_used e) then
        ({| scanned := <[key := with_failed_at e None]> (scanned s); keys := keys s ++ [key]; failed := failed s |}, Ok tt)
      else (s, Ok tt)
  end.

Fixpoint scan (limits : Limits) (now : N) (is_running : Probe) (s : Scan) (l : list (K * WatcherEntry)) : Scan * result E unit :=
  match l with
  | [] => (s, Ok tt)
  | kv :: l =>
      match scan_entry limits now is_running s kv with
      | (s, Ok _) => scan limits now is_running s l
      | (s, Err error) => (s, Err error)
      end
  end.

Definition mem (k : K) (l : list K) : bool := bool_decide (k ∈ l).

Definition oldest_failed (entries : list (K * WatcherEntry)) (failed keys : list K) : option (K * WatcherEntry) :=
  min_by_key (fun kv => default (last_used kv.2) (failed_at kv.2)) (List.filter (fun kv => mem kv.1 failed && negb (mem kv.1 keys)) entries).

Definition oldest_used (entries : list (K * WatcherEntry)) (keys : list K) : option (K * WatcherEntry) :=
  min_by_key (fun kv => last_used kv.2) (List.filter (fun kv => negb (mem kv.1 keys)) entries).

Definition oldest (entries : list (K * WatcherEntry)) (failed keys : list K) : option (K * WatcherEntry) :=
  match oldest_failed entries failed keys with Some kv => Some kv | None => oldest_used entries keys end.

(** The second loop; [None] is out of fuel. *)
Fixpoint make_room (fuel : nat) (entries : list (K * WatcherEntry)) (failed : list K) (target : N) (keys : list K) : option (list K) :=
  match fuel with
  | O => None
  | S fuel =>
      if target <? sat_sub (N.of_nat (length entries)) (N.of_nat (length keys)) then
        match oldest entries failed keys with
        | Some kv => make_room fuel entries failed target (keys ++ [kv.1])
        | None => Some keys
        end
      else Some keys
  end.

(** [keys.into_iter().filter_map(|key| watchers.remove(&key))]. *)
Fixpoint remove_all (m : Watchers) (keys : list K) : Watchers * list (K * WatcherEntry) :=
  match keys with
  | [] => (m, [])
  | k :: keys =>
      match m !! k with
      | Some e => let '(m, taken) := remove_all (delete k m) keys in (m, (k, e) :: taken)
      | None => remove_all m keys
      end
  end.

Section Coordinator.
Context (limits : Limits) (iter : Watchers -> list (K * WatcherEntry)) (cmp : K -> K -> comparison).

(** [take_evictions]: the map that is left, and the evicted. *)
Definition take_evictions (now : N) (is_running : Probe) (watchers : Watchers) (reserve_slot : bool) :
  Watchers * option (result E (list (K * WatcherEntry))) :=
  match scan limits now is_running {| scanned := watchers; keys := []; failed := [] |} (iter watchers) with
  | (s, Err error) => (scanned s, Some (Err error))
  | (s, Ok _) =>
      let target := sat_sub (watcher_limit limits) (if reserve_slot then 1 else 0) in
      let entries := iter (scanned s) in
      match make_room (S (length entries)) entries (failed s) target (keys s) with
      | None => (scanned s, None)
      | Some keys => let '(m, taken) := remove_all (scanned s) keys in (m, Some (Ok taken))
      end
  end.

(** ** Operations *)

(** The processes are stopped in the order of their worktrees; the first error is kept. *)
Definition shutdown_watchers (stop : K * WatcherEntry -> result E unit) (taken : list (K * WatcherEntry)) : result E unit :=
  fold_left (fun r kv => match r, stop kv with Ok _, Err e => Err e | _, _ => r end) (sort_by (by_key fst cmp) taken) (Ok tt).

Definition reap_idle_watchers (now : N) (is_running : Probe) (stop : K * WatcherEntry -> result E unit) (watchers : Watchers) :
  Watchers * option (result E N) :=
  match take_evictions now is_running watchers false with
  | (m, Some (Ok evicted)) => (m, Some (_ ← shutdown_watchers stop evicted; Ok (N.of_nat (length evicted))))
  | (m, Some (Err e)) => (m, Some (Err e))
  | (m, None) => (m, None)
  end.

(** [ensure_watcher] up to the start of the process: it is there, or there is room for it. *)
Inductive Ensured := Hit | Room | Failure (error : E) | OutOfFuel.

Definition make_way (key : K) (now now' : N) (is_running : Probe) (stop : K * WatcherEntry -> result E unit) (watchers : Watchers) : Watchers * Ensured :=
  let evict watchers :=
    match take_evictions now' is_running watchers true with
    | (m, Some (Ok evicted)) => (m, match shutdown_watchers stop evicted with Ok _ => Room | Err e => Failure e end)
    | (m, Some (Err e)) => (m, Failure e)
    | (m, None) => (m, OutOfFuel)
    end in
  match watchers !! key with
  | None => evict watchers
  | Some entry =>
      match is_running (handle entry) with
      | Err e => (watchers, Failure e)
      | Ok true => (<[key := used_at entry now]> watchers, Hit)
      | Ok false => evict (delete key watchers)
      end
  end.

(** The rest of it: the process is started, and is entered when it runs. *)
Definition enter (key : K) (now : N) (started : result E N) (watchers : Watchers) : Watchers * result E unit :=
  match started with
  | Ok handle => (<[key := {| handle := handle; last_used := now; failed_at := None |}]> watchers, Ok tt)
  | Err e => (watchers, Err e)
  end.

(** [clear_failed_watchers]. *)
Fixpoint dead_keys (is_running : Probe) (l : list (K * WatcherEntry)) : result E (list K) :=
  match l with
  | [] => Ok []
  | (key, e) :: l =>
      running ← is_running (handle e);
      rest ← dead_keys is_running l;
      Ok (if running : bool then rest else key :: rest)
  end.

Definition clear_failed_watchers (is_running : Probe) (stop : K * WatcherEntry -> result E unit) (watchers : Watchers) : Watchers * result E N :=
  match dead_keys is_running (iter watchers) with
  | Err e => (watchers, Err e)
  | Ok dead => let '(m, taken) := remove_all watchers dead in (m, _ ← shutdown_watchers stop taken; Ok (N.of_nat (length taken)))
  end.

(** The watcher's part of [status]. *)
Definition status (key : K) (now : N) (is_running : Probe) (watchers : Watchers) : Watchers * result E IndexWatcherState :=
  match watchers !! key with
  | None => (watchers, Ok Standby)
  | Some entry =>
      match is_running (handle entry) with
      | Err e => (watchers, Err e)
      | Ok true => (<[key := with_failed_at entry None]> watchers, Ok Live)
      | Ok false => (<[key := failing entry now]> watchers, Ok Failed)
      end
  end.

Record IndexRegistryWatcherSnapshot := { worktree_id : K; state : IndexWatcherState; pid : N; idle_ms : N }.

Record IndexCoordinatorRegistrySnapshot := {
  active_watchers : N;
  snapshot_limit : N;
  snapshot_idle_ttl_ms : N;
  snapshot_watchers : list IndexRegistryWatcherSnapshot;
}.

Fixpoint snapshot_entries (now : N) (is_running : Probe) (l : list (K * WatcherEntry)) (watchers : Watchers) :
  Watchers * result E (list IndexRegistryWatcherSnapshot) :=
  match l with
  | [] => (watchers, Ok [])
  | (key, e) :: l =>
      match status key now is_running watchers with
      | (watchers, Err error) => (watchers, Err error)
      | (watchers, Ok st) =>
          let '(watchers, rest) := snapshot_entries now is_running l watchers in
          (watchers, rest ← rest; Ok ({| worktree_id := key; state := st; pid := handle e; idle_ms := sat_sub now (last_used e) |} :: rest))
      end
  end.

Definition registry_snapshot (now : N) (is_running : Probe) (watchers : Watchers) : Watchers * result E IndexCoordinatorRegistrySnapshot :=
  let '(watchers, entries) := snapshot_entries now is_running (iter watchers) watchers in
  (watchers,
   entries ← entries;
   let entries := sort_by (by_key worktree_id cmp) entries in
   Ok {| active_watchers := N.of_nat (length (List.filter (fun w => bool_decide (state w = Live)) entries));
         snapshot_limit := watcher_limit limits; snapshot_idle_ttl_ms := watcher_idle_ttl limits; snapshot_watchers := entries |}).

Definition shutdown (stop : K * WatcherEntry -> result E unit) (watchers : Watchers) : Watchers * result E unit :=
  (∅, shutdown_watchers stop (iter watchers)).
End Coordinator.

(** ** What is evicted *)

Section Evictions.
Context (limits : Limits) (now : N) (is_running : N -> result E bool).

Definition is_dead (e : WatcherEntry) : bool := match is_running (handle e) with Ok false => true | _ => false end.

Definition is_expired (e : WatcherEntry) : bool :=
  match is_running (handle e) with
  | Ok false => watcher_idle_ttl limits <=? sat_sub now (default now (failed_at e))
  | Ok true => watcher_idle_ttl limits <=? sat_sub now (last_used e)
  | Err _ => false
  end.

(** What the check writes into an entry. *)
Definition checked (e : WatcherEntry) : WatcherEntry :=
  match is_running (handle e) with
  | Ok false => failing e now
  | Ok true => if watcher_idle_ttl limits <=? sat_sub now (last_used e) then with_failed_at e None else e
  | Err _ => e
  end.

Lemma scan_entry_eq s k e : scanned s !! k = Some e ->
  scan_entry limits now is_running s (k, e)
  = match is_running (handle e) with
    | Err error => (s, Err error)
    | Ok _ => ({| scanned := <[k := checked e]> (scanned s);
                  keys := if is_expired e then keys s ++ [k] else keys s;
                  failed := if is_dead e then failed s ++ [k] else failed s |}, Ok tt)
    end.
Proof.
  intros Hk. unfold scan_entry, checked, is_expired, is_dead. destruct (is_running (handle e)) as [ [|]|]; [|by cbn|done].
  destruct (_ <=? _); [done|]. rewrite insert_id by done. by destruct s.
Qed.

(** The first loop, over entries of the map. *)
Lemma scan_spec l : forall s, NoDup (map fst l) -> (forall k e, (k, e) ∈ l -> scanned s !! k = Some e) ->
  let '(s', r) := scan limits now is_running s l in
  dom (scanned s') = dom (scanned s)
  /\ (r = Ok tt ->
      keys s' = keys s ++ map fst (List.filter (fun kv => is_expired kv.2) l)
      /\ failed s' = failed s ++ map fst (List.filter (fun kv => is_dead kv.2) l)
      /\ forall k, scanned s' !! k = if bool_decide (k ∈ map fst l) then checked <$> scanned s !! k else scanned s !! k).
Proof.
  induction l as [|[k e] l IH]; intros s Hn Hl; cbn [scan].
  - split; [done|]. intros _. split_and!; [by rewrite app_nil_r..|]. intros k. done.
  - cbn [map fst] in Hn. apply NoDup_cons in Hn as [Hk Hn]. assert (scanned s !! k = Some e) as He by (apply Hl; by left).
    rewrite (scan_entry_eq s k e He). destruct (is_running (handle e)) as [b|error] eqn:Er; [|by split].
    set (s1 := {| scanned := _; keys := _; failed := _ |}).
    assert (forall k' e', (k', e') ∈ l -> scanned s1 !! k' = Some e') as Hl1.
    { intros k' e' Hin. cbn. rewrite lookup_insert_ne; [apply Hl; by right|]. intros <-. apply Hk. apply list_elem_of_fmap. by exists (k, e'). }
    specialize (IH s1 Hn Hl1).
    destruct (scan limits now is_running s1 l) as [s' r]. destruct IH as [Hd Hr]. split.
    { rewrite Hd. cbn. rewrite dom_insert_L. apply elem_of_dom_2 in He. set_solver. }
    intros ->. destruct (Hr eq_refl) as (H1 & H2 & H3). cbn [List.filter snd map]. split_and!.
    + rewrite H1. cbn [keys s1]. destruct (is_expired e); cbn [map fst]; [by rewrite <- app_assoc|done].
    + rewrite H2. cbn [failed s1]. destruct (is_dead e); cbn [map fst]; [by rewrite <- app_assoc|done].
    + intros k'. rewrite H3. cbn [scanned s1]. destruct (decide (k' = k)) as [->|Hne].
      * rewrite bool_decide_eq_false_2 by done. rewrite (bool_decide_eq_true_2 (k ∈ _)) by by left. by rewrite lookup_insert_eq, He.
      * rewrite lookup_insert_ne by done.
        destruct (bool_decide (k' ∈ map fst l)) eqn:Eb; bool_prop.
        -- rewrite bool_decide_eq_true_2; [done|by right].
        -- rewrite bool_decide_eq_false_2; [done|]. intros [->|]%elem_of_cons; done.
Qed.
End Evictions.

(** The order in which places are taken: processes that failed before those that run,
    the first to fail first, and the longest unused first. *)
Definition goes_before (dead : list K) (kv kv2 : K * WatcherEntry) : Prop :=
  if mem kv.1 dead then
    mem kv2.1 dead = true -> default (last_used kv.2) (failed_at kv.2) <= default (last_used kv2.2) (failed_at kv2.2)
  else mem kv2.1 dead = false /\ last_used kv.2 <= last_used kv2.2.

Lemma mem_true k l : mem k l = true <-> k ∈ l.
Proof. unfold mem. apply bool_decide_eq_true. Qed.

Lemma mem_false k l : mem k l = false <-> k ∉ l.
Proof. unfold mem. apply bool_decide_eq_false. Qed.

Lemma elem_filter {A} (f : A -> bool) l x : x ∈ List.filter f l <-> x ∈ l /\ f x = true.
Proof. rewrite !list_elem_of_In. apply List.filter_In. Qed.

Lemma oldest_spec entries dead keys kv : oldest entries dead keys = Some kv ->
  kv ∈ entries /\ ~ (kv.1 ∈ keys) /\ forall kv2, kv2 ∈ entries -> ~ (kv2.1 ∈ keys) -> goes_before dead kv kv2.
Proof.
  unfold oldest. destruct (oldest_failed entries dead keys) as [kv'|] eqn:Ef.
  - intros [= ->]. apply min_by_key_spec in Ef as [Hin Hmin]. apply elem_filter in Hin as [Hin Hf]. bool_prop.
    split; [done|]. split; [by apply mem_false|]. intros kv2 H2 Hk2. unfold goes_before. rewrite H. intros Hd2. apply Hmin, elem_filter.
    split; [done|]. rewrite Hd2. by apply mem_false in Hk2 as ->.
  - intros Hu. apply min_by_key_None in Ef. apply min_by_key_spec in Hu as [Hin Hmin]. apply elem_filter in Hin as [Hin Hf]. bool_prop.
    assert (forall kv2, kv2 ∈ entries -> mem kv2.1 keys = false -> mem kv2.1 dead = false) as Hlive.
    { intros kv2 H2 Hk2. destruct (mem kv2.1 dead) eqn:Ed; [|done]. assert (kv2 ∈ @nil (K * WatcherEntry)) as Hno by (rewrite <- Ef; apply elem_filter; by rewrite Ed, Hk2).
      by apply not_elem_of_nil in Hno. }
    split; [done|]. split; [by apply mem_false|]. intros kv2 H2 Hk2. apply mem_false in Hk2. unfold goes_before. rewrite (Hlive kv) by done.
    split; [by apply Hlive|]. apply Hmin, elem_filter. by rewrite Hk2.
Qed.

Lemma oldest_None entries dead keys : oldest entries dead keys = None -> map fst entries ⊆ keys.
Proof.
  unfold oldest. destruct (oldest_failed _ _ _); [done|]. intros Hu%min_by_key_None k Hk.
  apply list_elem_of_fmap in Hk as (kv & -> & Hkv). destruct (mem kv.1 keys) eqn:Em; [by apply mem_true|].
  assert (kv ∈ @nil (K * WatcherEntry)) as Hno by (rewrite <- Hu; apply elem_filter; by rewrite Em). by apply not_elem_of_nil in Hno.
Qed.

Lemma NoDup_map_fst_inj (l : list (K * WatcherEntry)) kv kv2 : NoDup (map fst l) -> kv ∈ l -> kv2 ∈ l -> kv.1 = kv2.1 -> kv = kv2.
Proof.
  intros Hn H1 H2 Heq. destruct kv as [k e], kv2 as [k2 e2]. cbn in Heq. subst k2. f_equal.
  pose proof (elem_of_list_to_map_1 (M := gmap K) l k e Hn H1). pose proof (elem_of_list_to_map_1 (M := gmap K) l k e2 Hn H2). congruence.
Qed.

(** The second loop ends; it takes no more places than are needed, each in its order. *)
Lemma make_room_spec entries dead target fuel : forall keys,
  NoDup keys -> keys ⊆ map fst entries -> NoDup (map fst entries) -> (length entries - length keys < fuel)%nat ->
  exists extra, make_room fuel entries dead target keys = Some (keys ++ extra)
  /\ NoDup (keys ++ extra) /\ keys ++ extra ⊆ map fst entries
  /\ N.of_nat (length entries) - N.of_nat (length (keys ++ extra)) <= target
  /\ (extra <> [] -> N.of_nat (length entries) - N.of_nat (length (keys ++ extra)) = target)
  /\ forall kv kv2, kv ∈ entries -> kv2 ∈ entries -> kv.1 ∈ extra -> kv2.1 ∉ keys ++ extra -> goes_before dead kv kv2.
Proof.
  induction fuel as [|fuel IH]; intros keys Hn Hsub Hne Hf; [lia|]. cbn [make_room]. unfold sat_sub.
  destruct (N.ltb_spec target (N.of_nat (length entries) - N.of_nat (length keys))) as [Hlt|Hge].
  - destruct (oldest entries dead keys) as [kv|] eqn:Eo.
    + destruct (oldest_spec _ _ _ _ Eo) as (Hin & Hnot & Hfirst).
      destruct (IH (keys ++ [kv.1])) as (extra & Hr & H1 & H2 & H3 & H4 & H5).
      * apply NoDup_app. split; [done|]. split; [|apply NoDup_singleton]. intros k Hk ->%list_elem_of_singleton. done.
      * intros k [Hk| ->%list_elem_of_singleton]%elem_of_app; [by apply Hsub|]. apply list_elem_of_fmap. by exists kv.
      * done.
      * rewrite length_app. cbn [length]. lia.
      * rewrite <- app_assoc in *. cbn [app] in *. exists (kv.1 :: extra). split_and!; [done..| |].
        -- intros _. destruct extra; [|by apply H4]. rewrite length_app in *. cbn [length] in *. lia.
        -- intros kv1 kv2 Hk1 Hk2 [Heq|Hex]%elem_of_cons Hnk2; [|by apply H5].
           assert (kv1 = kv) as -> by (eapply (NoDup_map_fst_inj entries); eauto). apply Hfirst; [done|]. intros Hk. apply Hnk2. apply elem_of_app. by left.
    + exfalso. apply oldest_None in Eo. pose proof (submseteq_length _ _ (NoDup_submseteq _ _ Hne Eo)) as Hl. rewrite length_map in Hl. lia.
  - exists []. rewrite app_nil_r. split_and!; [done..| |]; [done|]. intros kv kv2 _ _ H. by apply not_elem_of_nil in H.
Qed.

Lemma remove_all_spec keys : forall m : Watchers, NoDup keys -> (forall k, k ∈ keys -> is_Some (m !! k)) ->
  let '(m', taken) := remove_all m keys in
  map fst taken = keys
  /\ (forall k e, (k, e) ∈ taken <-> k ∈ keys /\ m !! k = Some e)
  /\ (forall k, m' !! k = if bool_decide (k ∈ keys) then None else m !! k).
Proof.
  induction keys as [|k keys IH]; intros m Hn Hin; cbn [remove_all].
  - split_and!; [done| |done]. intros k e. split; [intros H; by apply not_elem_of_nil in H|intros [H _]; by apply not_elem_of_nil in H].
  - apply NoDup_cons in Hn as [Hk Hn]. destruct (Hin k (list_elem_of_here _ _)) as [e He]. rewrite He.
    specialize (IH (delete k m) Hn). destruct (remove_all (delete k m) keys) as [m' taken].
    destruct IH as (H1 & H2 & H3); [intros k' Hk'; rewrite lookup_delete_ne by (by intros <-); apply Hin; by right|]. split_and!.
    + cbn [map fst]. by rewrite H1.
    + intros k' e'. rewrite elem_of_cons, H2, elem_of_cons. split.
      * intros [ [= -> ->]|[Hk' He'] ]; [split; [by left|done]|]. split; [by right|]. by apply lookup_delete_Some in He' as [_ He'].
      * intros [ [->|Hk'] He']; [left; congruence|]. right. split; [done|]. rewrite lookup_delete_ne; [done|]. by intros <-.
    + intros k'. rewrite H3. destruct (decide (k' = k)) as [->|Hne].
      * rewrite (bool_decide_eq_true_2 (k ∈ k :: keys)) by by left. rewrite bool_decide_eq_false_2 by done. apply lookup_delete_eq.
      * rewrite lookup_delete_ne by done. destruct (bool_decide (k' ∈ keys)) eqn:Eb; bool_prop.
        -- by rewrite bool_decide_eq_true_2 by by right.
        -- rewrite bool_decide_eq_false_2; [done|]. intros [->|]%elem_of_cons; done.
Qed.

Lemma remove_all_size keys (m : Watchers) : NoDup keys -> (forall k, k ∈ keys -> is_Some (m !! k)) ->
  (size (remove_all m keys).1 + length keys)%nat = size m.
Proof.
  revert m. induction keys as [|k keys IH]; intros m Hn Hin; cbn [remove_all length]; [cbn; lia|].
  apply NoDup_cons in Hn as [Hk Hn]. destruct (Hin k (list_elem_of_here _ _)) as [e He]. rewrite He.
  specialize (IH (delete k m) Hn). destruct (remove_all (delete k m) keys) as [m' taken]. cbn [fst] in *.
  assert (size m' + length keys = size (delete k m))%nat as Hs.
  { apply IH. intros k' Hk'. rewrite lookup_delete_ne by (by intros <-). apply Hin. by right. }
  rewrite map_size_delete_Some in Hs by by exists e.
  destruct (size m) eqn:Es; [apply map_size_empty_inv in Es; subst; by rewrite lookup_empty in He|lia].
Qed.

(** A hash map is walked in some order. *)
Definition walks (iter : Watchers -> list (K * WatcherEntry)) : Prop := forall m, iter m ≡ₚ map_to_list m.

Lemma walks_elem iter m k e : walks iter -> (k, e) ∈ iter m <-> m !! k = Some e.
Proof. intros Hw. rewrite (Hw m). apply elem_of_map_to_list. Qed.

Lemma walks_nodup iter m : walks iter -> NoDup (map fst (iter m)).
Proof. intros Hw. rewrite (Permutation_map fst (Hw m)). apply NoDup_fst_map_to_list. Qed.

Lemma walks_key iter m k : walks iter -> k ∈ map fst (iter m) <-> is_Some (m !! k).
Proof.
  intros Hw. rewrite list_elem_of_fmap. split.
  - intros ([k' e] & -> & He). apply (walks_elem iter m k' e Hw) in He. by exists e.
  - intros [e He]. exists (k, e). split; [done|]. by apply walks_elem.
Qed.

Lemma walks_length iter m : walks iter -> length (iter m) = size m.
Proof. intros Hw. rewrite (Hw m). apply length_map_to_list. Qed.

(** The first in the order in which places are taken. *)
Definition before (is_running : N -> result E bool) (e e2 : WatcherEntry) : Prop :=
  if is_dead is_running e then is_dead is_running e2 = true -> default (last_used e) (failed_at e) <= default (last_used e2) (failed_at e2)
  else is_dead is_running e2 = false /\ last_used e <= last_used e2.

Lemma checked_dead limits now is_running e : is_dead is_running (checked limits now is_running e) = is_dead is_running e.
Proof.
  unfold checked. destruct (is_running (handle e)) as [ [|]|] eqn:Er; [|done|done]. by destruct (_ <=? _).
Qed.

(** What an eviction does: the state, the evicted, and the target of the room. *)
Record eviction (limits : Limits) (now : N) (is_running : N -> result E bool) (target : N) (watchers m' : Watchers) (taken : list (K * WatcherEntry)) : Prop := {
  evicted_or_kept k e : (checked limits now is_running <$> watchers) !! k = Some e <-> m' !! k = Some e \/ (k, e) ∈ taken;
  evicted_gone k e : (k, e) ∈ taken -> m' !! k = None;
  evicted_once : NoDup (map fst taken);
  room_made : N.of_nat (size m') <= target;
  expired_go k e : watchers !! k = Some e -> is_expired limits now is_running e = true -> m' !! k = None;
  others_go_in_order k e0 e : watchers !! k = Some e0 -> is_expired limits now is_running e0 = false -> (k, e) ∈ taken ->
    N.of_nat (size m') = target /\ forall k2 e2, m' !! k2 = Some e2 -> before is_running e e2;
}.

Lemma take_evictions_spec limits iter now is_running watchers (reserve : bool) : walks iter ->
  match take_evictions limits iter now is_running watchers reserve with
  | (m', Some (Ok taken)) => eviction limits now is_running (watcher_limit limits - (if reserve then 1 else 0)) watchers m' taken
  | (m', Some (Err _)) => dom m' = dom watchers
  | (_, None) => False
  end.
Proof.
  intros Hw. unfold take_evictions, sat_sub.
  set (s0 := {| scanned := watchers; keys := []; failed := [] |}). set (target := watcher_limit limits - _).
  pose proof (scan_spec limits now is_running (iter watchers) s0 (walks_nodup _ _ Hw)) as Hs.
  specialize (Hs ltac:(intros k e; apply walks_elem, Hw)). destruct (scan limits now is_running s0 (iter watchers)) as [s r].
  destruct Hs as [Hd Hs]. destruct r as [ []|error]; [|exact Hd]. destruct (Hs eq_refl) as (Hkeys & Hfailed & Hlook). cbn [keys failed scanned s0 app] in *.
  assert (scanned s = checked limits now is_running <$> watchers) as Hm.
  { apply map_eq. intros k. rewrite Hlook, lookup_fmap. case_bool_decide as Hk; [done|].
    rewrite (walks_key iter watchers k Hw), <- eq_None_not_Some in Hk. by rewrite Hk. }
  set (m := checked limits now is_running <$> watchers) in *. rewrite Hm.
  assert (forall k e, m !! k = Some e -> mem k (failed s) = is_dead is_running e) as Hdead.
  { intros k e He. unfold m in He. rewrite lookup_fmap in He. apply fmap_Some in He as (e0 & He0 & ->). rewrite checked_dead.
    rewrite Hfailed. destruct (is_dead is_running e0) eqn:Ed.
    - apply mem_true, list_elem_of_fmap. exists (k, e0). split; [done|]. apply elem_filter. split; [by apply walks_elem|done].
    - apply mem_false. intros ([k' e'] & Heq & Hin)%list_elem_of_fmap. cbn in Heq. subst k'. apply elem_filter in Hin as [Hin Hd'].
      apply (walks_elem _ _ _ _ Hw) in Hin. cbn in Hd'. congruence. }
  assert (keys s ⊆ map fst (iter m)) as Hsub.
  { intros k Hk. rewrite Hkeys in Hk. apply list_elem_of_fmap in Hk as ([k' e] & -> & Hin). apply elem_filter in Hin as [Hin _].
    apply (walks_elem _ _ _ _ Hw) in Hin. apply walks_key; [done|]. unfold m. rewrite lookup_fmap. cbn [fst]. rewrite Hin. by eexists. }
  assert (NoDup (keys s)) as Hnk.
  { rewrite Hkeys. eapply sublist_NoDup; [exact (walks_nodup iter watchers Hw)|]. apply (fmap_sublist fst).
    generalize (iter watchers). intros l. induction l as [|kv l IH]; cbn [List.filter]; [constructor|]. destruct (is_expired _ _ _ _); by constructor. }
  destruct (make_room_spec (iter m) (failed s) target (S (length (iter m))) (keys s) Hnk Hsub (walks_nodup _ _ Hw) ltac:(lia))
    as (extra & -> & H1 & H2 & H3 & H4 & H5).
  assert (forall k, k ∈ keys s ++ extra -> is_Some (m !! k)) as Hin by (intros k Hk; apply (walks_key iter m k Hw); by apply H2).
  pose proof (remove_all_spec (keys s ++ extra) m H1 Hin) as Hr. pose proof (remove_all_size (keys s ++ extra) m H1 Hin) as Hz.
  destruct (remove_all m (keys s ++ extra)) as [m' taken]. destruct Hr as (R1 & R2 & R3). cbn [fst] in Hz.
  rewrite (walks_length iter m Hw) in H3, H4.
  split.
  - intros k e. rewrite R2, R3. fold m. case_bool_decide; naive_solver.
  - intros k e He. apply R2 in He as [Hk _]. by rewrite R3, bool_decide_eq_true_2.
  - by rewrite R1.
  - lia.
  - intros k e He Hx. rewrite R3, bool_decide_eq_true_2; [done|]. apply elem_of_app. left. rewrite Hkeys. apply list_elem_of_fmap.
    exists (k, e). split; [done|]. apply elem_filter. split; [by apply walks_elem|done].
  - intros k e0 e He0 Hx Ht. apply R2 in Ht as [Hk He].
    assert (k ∈ extra) as Hex.
    { apply elem_of_app in Hk as [Hk|]; [|done]. exfalso. rewrite Hkeys in Hk. apply list_elem_of_fmap in Hk as ([k' e'] & -> & Hf).
      apply elem_filter in Hf as [Hf Hx']. apply (walks_elem _ _ _ _ Hw) in Hf. cbn in *. congruence. }
    split; [destruct extra; [by apply not_elem_of_nil in Hex|]; specialize (H4 ltac:(done)); lia|].
    intros k2 e2 H2k. rewrite R3 in H2k. case_bool_decide as Hnot; [done|].
    specialize (H5 (k, e) (k2, e2) ltac:(by apply walks_elem) ltac:(by apply walks_elem) Hex Hnot).
    unfold goes_before in H5. cbn [fst snd] in H5. rewrite (Hdead k e), (Hdead k2 e2) in H5 by done. exact H5.
Qed.

(** ** The watchers over time *)

(** The watchers, and the worktree for which room was made and whose process is being
    started: the lock of the budget is held meanwhile. *)
Record State := { watchers : Watchers; starting : option K }.

Definition idle (m : Watchers) : State := {| watchers := m; starting := None |}.

Section Steps.
Context (limits : Limits) (iter : Watchers -> list (K * WatcherEntry)) (cmp : K -> K -> comparison).

Inductive step : State -> State -> Prop :=
| step_make_way m key now now' is_running stop m' r :
    make_way limits iter cmp key now now' is_running stop m = (m', r) ->
    step (idle m) {| watchers := m'; starting := match r with Room => Some key | _ => None end |}
| step_enter m key now started :
    step {| watchers := m; starting := Some key |} (idle (enter key now started m).1)
| step_abandon m key : step {| watchers := m; starting := Some key |} (idle m)
| step_reap m now is_running stop : step (idle m) (idle (reap_idle_watchers limits iter cmp now is_running stop m).1)
| step_clear m is_running stop : step (idle m) (idle (clear_failed_watchers iter cmp is_running stop m).1)
| step_status s key now is_running :
    step s {| watchers := (status key now is_running (watchers s)).1; starting := starting s |}
| step_snapshot s now is_running :
    step s {| watchers := (registry_snapshot limits iter cmp now is_running (watchers s)).1; starting := starting s |}
| step_shutdown m stop : step (idle m) (idle (shutdown iter cmp stop m).1).

Definition initial (s : State) : Prop := s = idle ∅.
End Steps.

(** A place is kept for the process that is being started. *)
Definition bounded (limits : Limits) (s : State) : Prop :=
  N.of_nat (size (watchers s)) + (match starting s with Some _ => 1 | None => 0 end) <= watcher_limit limits.

Lemma size_same_dom (m m' : Watchers) : dom m = dom m' -> size m = size m'.
Proof. intros H. by rewrite <- !size_dom, H. Qed.

Lemma status_dom key now is_running (m : Watchers) : dom (status key now is_running m).1 = dom m.
Proof.
  unfold status. destruct (m !! key) as [e|] eqn:Ek; [|done]. apply elem_of_dom_2 in Ek.
  destruct (is_running (handle e)) as [ [|]|]; cbn [fst]; [rewrite dom_insert_L; set_solver..|done].
Qed.

Lemma snapshot_entries_dom now is_running l : forall m : Watchers, dom (snapshot_entries now is_running l m).1 = dom m.
Proof.
  induction l as [|[key e] l IH]; intros m; cbn [snapshot_entries]; [done|].
  pose proof (status_dom key now is_running m) as Hd. destruct (status key now is_running m) as [m1 [st|error] ]; [|done]. cbn [fst] in Hd.
  specialize (IH m1). destruct (snapshot_entries now is_running l m1) as [m2 rest]. cbn [fst] in *. by rewrite IH.
Qed.

Lemma remove_all_shrinks keys : forall m : Watchers, (size (remove_all m keys).1 <= size m)%nat.
Proof.
  induction keys as [|k keys IH]; intros m; cbn [remove_all]; [done|]. destruct (m !! k) as [e|] eqn:Ek; [|done].
  specialize (IH (delete k m)). destruct (remove_all (delete k m) keys) as [m' taken]. cbn [fst] in *.
  rewrite map_size_delete_Some in IH by by exists e. lia.
Qed.

Lemma make_way_bounded limits iter cmp key now now' is_running stop (m m' : Watchers) r : walks iter -> 0 < watcher_limit limits ->
  N.of_nat (size m) <= watcher_limit limits -> make_way limits iter cmp key now now' is_running stop m = (m', r) ->
  bounded limits {| watchers := m'; starting := match r with Room => Some key | _ => None end |}.
Proof.
  intros Hw Hpos Hle. unfold make_way, bounded. cbn [watchers starting].
  assert (forall m0 : Watchers, (size m0 <= size m)%nat ->
    (let '(m1, r1) := match take_evictions limits iter now' is_running m0 true with
       | (m1, Some (Ok evicted)) => (m1, match shutdown_watchers cmp stop evicted with Ok _ => Room | Err e => Failure e end)
       | (m1, Some (Err e)) => (m1, Failure e)
       | (m1, None) => (m1, OutOfFuel)
       end in m1 = m' -> r1 = r -> N.of_nat (size m') + (match r with Room => 1 | _ => 0 end) <= watcher_limit limits)) as Hevict.
  { intros m0 Hm0. pose proof (take_evictions_spec limits iter now' is_running m0 true Hw) as Hs.
    destruct (take_evictions limits iter now' is_running m0 true) as [m1 [ [taken|error] |] ]; [| |done].
    - intros <- <-. pose proof (room_made _ _ _ _ _ _ _ Hs). destruct (shutdown_watchers cmp stop taken); lia.
    - intros <- <-. apply size_same_dom in Hs. lia. }
  destruct (m !! key) as [e|] eqn:Ek.
  - destruct (is_running (handle e)) as [ [|]|] eqn:Er.
    + intros [= <- <-]. rewrite map_size_insert_Some by by exists e. lia.
    + intros H. specialize (Hevict (delete key m)). rewrite map_size_delete_Some in Hevict by by exists e. specialize (Hevict ltac:(lia)).
      revert H Hevict. destruct (match take_evictions _ _ _ _ _ _ with (_, Some (Ok _)) => _ | _ => _ end). intros [= -> ->] Hevict. specialize (Hevict eq_refl eq_refl). by destruct r.
    + intros [= <- <-]. lia.
  - intros H. specialize (Hevict m ltac:(lia)).
    revert H Hevict. destruct (match take_evictions _ _ _ _ _ _ with (_, Some (Ok _)) => _ | _ => _ end). intros [= -> ->] Hevict. specialize (Hevict eq_refl eq_refl). by destruct r.
Qed.

Lemma reap_bounded limits iter cmp now is_running stop (m : Watchers) : walks iter -> N.of_nat (size m) <= watcher_limit limits ->
  N.of_nat (size (reap_idle_watchers limits iter cmp now is_running stop m).1) <= watcher_limit limits.
Proof.
  intros Hw Hle. unfold reap_idle_watchers. pose proof (take_evictions_spec limits iter now is_running m false Hw) as Hs.
  destruct (take_evictions limits iter now is_running m false) as [m1 [ [taken|error] |] ]; cbn [fst]; [| |done].
  - pose proof (room_made _ _ _ _ _ _ _ Hs). lia.
  - apply size_same_dom in Hs. lia.
Qed.

Lemma clear_shrinks iter cmp is_running stop (m : Watchers) : (size (clear_failed_watchers iter cmp is_running stop m).1 <= size m)%nat.
Proof.
  unfold clear_failed_watchers. destruct (dead_keys is_running (iter m)) as [dead|]; [|done].
  pose proof (remove_all_shrinks dead m). by destruct (remove_all m dead).
Qed.

Lemma registry_snapshot_dom limits iter cmp now is_running (m : Watchers) : dom (registry_snapshot limits iter cmp now is_running m).1 = dom m.
Proof.
  unfold registry_snapshot. pose proof (snapshot_entries_dom now is_running (iter m) m) as Hd.
  by destruct (snapshot_entries now is_running (iter m) m).
Qed.

Lemma step_bounded limits iter cmp s t : walks iter -> 0 < watcher_limit limits -> bounded limits s -> step limits iter cmp s t -> bounded limits t.
Proof.
  intros Hw Hpos Hb Hstep. destruct Hstep as [m key now now' is_running stop m' r H|m key now started|m key|m now is_running stop|m is_running stop|s key now is_running|s now is_running|m stop];
    unfold bounded in *; cbn [watchers starting idle] in *.
  - eapply make_way_bounded; [done..| |exact H]. lia.
  - unfold enter. destruct started as [h|e]; cbn [fst]; [|lia]. rewrite map_size_insert. destruct (m !! key); cbn; unfold id; lia.
  - lia.
  - pose proof (reap_bounded limits iter cmp now is_running stop m Hw). lia.
  - pose proof (clear_shrinks iter cmp is_running stop m). lia.
  - pose proof (size_same_dom _ _ (status_dom key now is_running (watchers s))). lia.
  - pose proof (size_same_dom _ _ (registry_snapshot_dom limits iter cmp now is_running (watchers s))). lia.
  - unfold shutdown; cbn [fst]; rewrite map_size_empty. lia.
Qed.
End Watchers.

(** C26: there are never more watchers than the configured limit, nor than one where the
    limit is none, counting the one that is being started; whatever is searched, reaped,
    cleared or shown in whatever order, and whichever processes start, fail or cannot be asked. *)
Theorem watchers_stay_within_their_limit {K : Type} `{!EqDecision K, !Countable K} {E : Type}
    (limit ttl : N) (iter : gmap K WatcherEntry -> list (K * WatcherEntry)) (cmp : K -> K -> comparison) (s : State) :
  walks iter -> reachable initial (step (E := E) (with_watcher_limits limit ttl) iter cmp) s ->
  N.of_nat (size (watchers s)) + (match starting s with Some _ => 1 | None => 0 end) <= N.max limit 1.
Proof.
  intros Hw. apply (reachable_invariant _ _ (bounded (with_watcher_limits limit ttl))).
  - intros t ->. unfold bounded. cbn. rewrite map_size_empty. lia.
  - intros t u Hb Hs. eapply step_bounded; [done| |done|exact Hs]. cbn. lia.
Qed.

(** When a watcher is needed, one that runs is kept and its use is noted; otherwise room is
    made for it, or an error is given. Making room stops everything that has been idle or
    dead for the time allowed, and beyond that only as many as the limit asks for: dead
    processes before running ones, and of each the longest dead or unused first; what is
    stopped is what leaves the set. *)
Theorem room_is_made_in_order {K : Type} `{!EqDecision K, !Countable K} {E : Type}
    (limits : Limits) (iter : gmap K WatcherEntry -> list (K * WatcherEntry)) (cmp : K -> K -> comparison)
    key now now' (is_running : N -> result E bool) stop m :
  walks iter ->
  match make_way limits iter cmp key now now' is_running stop m with
  | (m', Hit) => exists e, m !! key = Some e /\ is_running (handle e) = Ok true /\ m' = <[key := used_at e now]> m
  | (m', Room) =>
      (forall e, m !! key = Some e -> is_running (handle e) = Ok false)
      /\ exists taken, eviction limits now' is_running (watcher_limit limits - 1) (delete key m) m' taken
                       /\ shutdown_watchers cmp stop taken = Ok tt
  | (m', Failure _) => dom m' ⊆ dom m
  | (_, OutOfFuel) => False
  end.
Proof.
  intros Hw. unfold make_way.
  assert (forall m0, dom m0 ⊆ dom m -> (forall e, m !! key = Some e -> is_running (handle e) = Ok false) -> m0 = delete key m ->
    match (match take_evictions limits iter now' is_running m0 true with
       | (m1, Some (Ok evicted)) => (m1, match shutdown_watchers cmp stop evicted with Ok _ => Room | Err e => Failure e end)
       | (m1, Some (Err e)) => (m1, Failure e)
       | (m1, None) => (m1, OutOfFuel)
       end) with
    | (m', Hit) => exists e, m !! key = Some e /\ is_running (handle e) = Ok true /\ m' = <[key := used_at e now]> m
    | (m', Room) => (forall e, m !! key = Some e -> is_running (handle e) = Ok false)
        /\ exists taken, eviction limits now' is_running (watcher_limit limits - 1) (delete key m) m' taken
                         /\ shutdown_watchers cmp stop taken = Ok tt
    | (m', Failure _) => dom m' ⊆ dom m
    | (_, OutOfFuel) => False
    end) as Hevict.
  { intros m0 Hd Hdead ->. pose proof (take_evictions_spec limits iter now' is_running (delete key m) true Hw) as Hs.
    destruct (take_evictions limits iter now' is_running (delete key m) true) as [m1 [ [taken|error] |] ]; [| |done].
    - destruct (shutdown_watchers cmp stop taken) as [ []|e] eqn:Es; [split; [done|]; by exists taken|].
      intros k [e' Hk]%elem_of_dom. apply Hd.
      pose proof (proj2 (evicted_or_kept _ _ _ _ _ _ _ Hs k e') (or_introl Hk)) as Hc. rewrite lookup_fmap in Hc.
      apply fmap_Some in Hc as (e0 & He0 & _). by apply elem_of_dom_2 in He0.
    - by rewrite Hs. }
  destruct (m !! key) as [e|] eqn:Ek.
  - destruct (is_running (handle e)) as [ [|]|] eqn:Er; [by exists e| |done].
    apply Hevict; [rewrite dom_delete_L; set_solver|by intros e' [= <-]|done].
  - apply Hevict; [done|done|]. by rewrite delete_id.
Qed.

(** ** Examples *)

Definition all_run (handle : N) : result unit bool := Ok true.
Definition stops (kv : N * WatcherEntry) : result unit unit := Ok tt.

Definition sample_limits : Limits := with_watcher_limits 2 1000.

(** Two watchers, the first used long ago and the second dead. *)
Definition sample_watchers : gmap N WatcherEntry :=
  <[2 := {| handle := 12; last_used := 90; failed_at := Some 95 |}]> (<[1 := {| handle := 11; last_used := 10; failed_at := None |}]> ∅).

Definition sample_running (handle : N) : result unit bool := Ok (negb (handle =? 12)).

Definition sample_way := make_way sample_limits map_to_list N.compare 3 100 100 sample_running stops sample_watchers.

(** The dead one goes, though it was used last. *)
Example sample_way_evicts_the_dead : sample_way.2 = Room /\ map fst (map_to_list sample_way.1) = [1].
Proof. vm_compute. done. Qed.

Lemma walks_map_to_list {K : Type} `{!EqDecision K, !Countable K} : walks (K := K) map_to_list.
Proof. intros m. done. Qed.

Lemma room_is_made_in_order_witness : exists taken,
  eviction sample_limits 100 sample_running (watcher_limit sample_limits - 1) (delete 3 sample_watchers) sample_way.1 taken.
Proof.
  pose proof (room_is_made_in_order sample_limits map_to_list N.compare 3 100 100 sample_running stops sample_watchers walks_map_to_list) as H.
  fold sample_way in H. destruct sample_way as [m' r] eqn:E. destruct r as [| |e|].
  - vm_compute in E. discriminate E.
  - destruct H as (_ & taken & Ht & _). exists taken. exact Ht.
  - vm_compute in E. discriminate E.
  - destruct H.
Defined.

Lemma watchers_stay_within_their_limit_witness :
  exists s : State (K := N), size (watchers s) = 1%nat /\ starting s = Some 2 /\ N.of_nat (size (watchers s)) + 1 <= N.max 2 1.
Proof.
  pose (m1 := <[1 := {| handle := 7; last_used := 5; failed_at := None |}]> (∅ : gmap N WatcherEntry)).
  exists {| watchers := m1; starting := Some 2 |}. split; [reflexivity|]. split; [reflexivity|].
  apply (watchers_stay_within_their_limit (E := unit) 2 1000 map_to_list N.compare {| watchers := m1; starting := Some 2 |} walks_map_to_list).
  apply reach_step with (idle m1).
  - apply reach_step with {| watchers := ∅; starting := Some 1 |}; [|exact (step_enter _ _ _ ∅ 1 5 (Ok 7))].
    apply reach_step with (idle ∅); [by constructor|].
    apply (step_make_way sample_limits map_to_list N.compare ∅ 1 4 4 all_run stops ∅ Room). vm_compute. reflexivity.
  - apply (step_make_way sample_limits map_to_list N.compare m1 2 6 6 all_run stops m1 Room). vm_compute. reflexivity.
Defined.
End Coordinator.
