(* ===== verification/GrepaiConfig.v ===== *)
(** The managed settings of the index engine ([crates/hzr-index/src/grepai.rs]): the edits
    that are made, line by line, to its YAML file, what is read back from it, and the
    undoing of what the engine adds to a [.gitignore].

    Files are texts; how they are read and replaced is not modelled. *)

From S2P Require Import Prelude RStr.
From Stdlib Require Import ZifyBool ZifyN ZifyNat.

Module GrepaiConfig.

Definition SUPPORTED_GREPAI_VERSION : rstr := lit "1.2.0".
Definition MANAGED_INDEX_IGNORES : list rstr := [lit ".claude/worktrees"].

(** ** Lines *)

Definition LF : rstr := [10].

(** The lines before the first one of a kind, and those from it on. *)
Fixpoint break {A} (f : A -> bool) (l : list A) : list A * list A :=
  match l with
  | [] => ([], [])
  | a :: l' => if f a then ([], l) else let '(x, y) := break f l' in (a :: x, y)
  end.

Definition indented (line : rstr) : bool := match line with c :: _ => (c =? 32) || (c =? 9) | [] => false end.

Definition top_level (line : rstr) : bool := negb (indented line) && negb (is_empty (trim line)).

(** [trim_start_matches] of a text: as often as it is there. *)
Fixpoint skip_str_fuel (fuel : nat) (p s : rstr) : rstr :=
  match fuel with
  | O => s
  | S fuel => match strip_prefix p s with Some t => skip_str_fuel fuel p t | None => s end
  end.

Definition skip_str (p s : rstr) : rstr := skip_str_fuel (length s) p s.

(** ** The list of ignored paths *)

(** The lines, the last one with its end. *)
Definition finished_lines (config : rstr) : list rstr :=
  let lines := split_inclusive config in
  match last lines with
  | Some l => if ends_with LF l then lines else removelast lines ++ [l ++ LF]
  | None => lines
  end.

Definition is_header (line : rstr) : bool := top_level line && starts_with (lit "ignore:") (trim_end line).

(** What follows [ignore:] on its line. *)
Definition inline_of (line : rstr) : rstr := trim (drop 7 (trim_end line)).

Definition inline_entries (inline : rstr) : list rstr :=
  List.filter (fun entry => negb (is_empty entry))
    (map trim (split_char (N.eqb (ch ",")) (trim_end_matches (N.eqb (ch "]")) (trim_start_matches (N.eqb (ch "[")) inline)))).

Definition entry_line (indent entry : rstr) : rstr := indent ++ lit "- " ++ entry ++ LF.

Definition four : rstr := lit "    ".
Definition block_header : rstr := lit "ignore:" ++ LF.

Definition is_item (line : rstr) : bool := starts_with (lit "- ") (trim_start line).

Definition is_quote (c : char) : bool := (c =? 39) || (c =? 34).

Definition item_name (line : rstr) : rstr :=
  trim_end_matches (N.eqb (ch "/")) (trim_matches is_quote (trim (skip_str (lit "- ") (trim line)))).

(** [line[..line.len() - line.trim_start().len()]]. *)
Definition indent_of (line : rstr) : rstr := take (length line - length (trim_start line)) line.

Definition missing_lines (indent : rstr) (present : list rstr) : list rstr :=
  map (entry_line indent) (List.filter (fun entry => negb (one_of entry present)) MANAGED_INDEX_IGNORES).

Definition items_indent (items : list rstr) : rstr := match items with first :: _ => indent_of first | [] => four end.

Definition config_with_managed_ignores (config : rstr) : option rstr :=
  let lines := finished_lines config in
  match break is_header lines with
  | (before, start :: rest) =>
      let inline := inline_of start in
      let '(start, rest, header_rewritten) :=
        if is_empty inline then (start, rest, false)
        else (block_header, map (entry_line four) (inline_entries inline) ++ rest, true) in
      let '(body, after) := break top_level rest in
      let items := List.filter is_item body in
      let missing := missing_lines (items_indent items) (map item_name items) in
      if is_nil missing && negb header_rewritten then None
      else Some (concat (before ++ start :: body ++ missing ++ after))
  | (_, []) => Some (concat (lines ++ block_header :: missing_lines four []))
  end.

(** ** The repository graph *)

Inductive ConfigError := InvalidEnabled (value : rstr).

Fixpoint graph_loop (in_rpg : bool) (lines : list rstr) : result ConfigError bool :=
  match lines with
  | [] => Ok false
  | line :: lines =>
      let trimmed := trim line in
      if negb (indented line) then graph_loop (str_eqb trimmed (lit "rpg:")) lines
      else if in_rpg && starts_with (lit "enabled:") trimmed then
        let value := trim (skip_str (lit "enabled:") trimmed) in
        if str_eqb value (lit "true") then Ok true
        else if str_eqb value (lit "false") then Ok false
        else Err (InvalidEnabled value)
      else graph_loop in_rpg lines
  end.

Definition repository_graph_enabled (config : rstr) : result ConfigError bool := graph_loop false (lines config).

Definition is_section (line : rstr) : bool := str_eqb (trim_end line) (lit "rpg:").
Definition is_enabled_key (line : rstr) : bool := starts_with (lit "enabled:") (trim_start line).

Definition graph_on : rstr := lit "    enabled: true".

(** The edit of a text whose graph is not enabled. *)
Definition enable_graph (config : rstr) : rstr :=
  let lines := if contains_char 10 config then split_inclusive config else [config] in
  match break is_section lines with
  | (before, section :: rest) =>
      let '(body, after) := break top_level rest in
      match break is_enabled_key body with
      | (b1, enabled :: b2) =>
          concat (before ++ section :: b1 ++ (graph_on ++ (if ends_with LF enabled then LF else [])) :: b2 ++ after)
      | (_, []) => concat (before ++ section :: (graph_on ++ LF) :: rest)
      end
  | (_, []) =>
      concat (lines ++ (if negb (is_empty config) && negb (ends_with LF config) then [LF] else []) ++ [lit "rpg:" ++ LF; graph_on ++ LF])
  end.

(** [enable_repository_graph]: [None] where it is enabled already. *)
Definition enable_repository_graph (config : rstr) : result ConfigError (option rstr) :=
  enabled ← repository_graph_enabled config;
  Ok (if enabled : bool then None else Some (enable_graph config)).

(** ** The deduplication of hits *)

Definition dedup_off : rstr := lit "        enabled: false".

(** One line: whether it is in [search], and in its [dedup]; the line that is written. *)
Definition dedup_line (in_search in_dedup : bool) (line : rstr) : bool * bool * rstr :=
  let indent := slen line - slen (trim_start line) in
  let key := trim line in
  if (indent =? 0) && negb (is_empty key) then (str_eqb key (lit "search:"), false, line)
  else if in_search && (indent =? 4) then (in_search, str_eqb key (lit "dedup:"), line)
  else if in_dedup && (indent =? 8) && str_eqb key (lit "enabled: true") then
    (in_search, in_dedup, dedup_off ++ (if ends_with LF line then LF else []))
  else (in_search, in_dedup, line).

Fixpoint dedup_loop (in_search in_dedup : bool) (lines : list rstr) : list rstr :=
  match lines with
  | [] => []
  | line :: lines => let '(s, d, line) := dedup_line in_search in_dedup line in line :: dedup_loop s d lines
  end.

(** The text is written when a line has changed; a changed line is never the same. *)
Definition disable_search_dedup (config : rstr) : option rstr :=
  let old := split_inclusive config in
  let new := dedup_loop false false old in
  if bool_decide (new = old) then None else Some (concat new).

(** ** The ignore file of the repository *)

Definition is_only_grepai_gitignore_append (before after : list N) : bool :=
  match strip_prefix before after with
  | None => false
  | Some added =>
      let added := default added (strip_prefix LF added) in
      str_eqb added (lit ".grepai/" ++ LF) || str_eqb added (lit ".grepai/")
  end.

(** What the file holds in the end; [None] is a file that cannot be read. *)
Definition restore_gitignore_if_only_grepai_added (now : option (list N)) (before : list N) : option (list N) :=
  match now with
  | None => None
  | Some after => if is_only_grepai_gitignore_append before after then Some before else Some after
  end.

(** ** The version of the engine *)

Inductive VersionError := InvalidVersionOutput (output : rstr) | UnsupportedVersion (found : rstr).

Definition verify_version (output : rstr) : result VersionError rstr :=
  let output := trim output in
  found ← ok_or
    (version ← strip_prefix (lit "grepai version ") output;
     if negb (is_empty version) && negb (existsb is_whitespace version) then Some version else None)
    (InvalidVersionOutput output);
  _ ← guard_err (negb (str_eqb found SUPPORTED_GREPAI_VERSION)) (UnsupportedVersion found);
  Ok found.

(** ** Examples *)

Example ignores_of_a_block :
  config_with_managed_ignores (lit "ignore: [.git, target]" ++ LF ++ lit "rpg:" ++ LF)
  = Some (block_header ++ lit "    - .git" ++ LF ++ lit "    - target" ++ LF ++ lit "    - .claude/worktrees" ++ LF ++ lit "rpg:" ++ LF).
Proof. vm_compute. done. Qed.

(** A comment behind [ignore:] becomes an entry of the list, and a list that is not
    indented is cut in two by an entry that is. *)
Lemma ignores_misread_comments_and_flat_lists :
  config_with_managed_ignores (lit "ignore: # paths" ++ LF ++ lit "    - a" ++ LF)
  = Some (block_header ++ lit "    - # paths" ++ LF ++ lit "    - a" ++ LF ++ lit "    - .claude/worktrees" ++ LF)
  /\ config_with_managed_ignores (lit "ignore:" ++ LF ++ lit "- a" ++ LF)
     = Some (block_header ++ lit "    - .claude/worktrees" ++ LF ++ lit "- a" ++ LF).
Proof. vm_compute. done. Qed.

(** An empty line above the setting hides it from the check, but not from the edit: the
    setting is written again and again. *)
Lemma empty_lines_hide_the_graph :
  let config := lit "rpg:" ++ LF ++ LF ++ lit "    enabled: false" ++ LF in
  let edited := lit "rpg:" ++ LF ++ LF ++ lit "    enabled: true" ++ LF in
  enable_repository_graph config = Ok (Some edited) /\ enable_repository_graph edited = Ok (Some edited).
Proof. vm_compute. done. Qed.

(** A section without an end of its line swallows the setting, and one with a comment is
    not found, so that a second one is written. *)
Lemma graph_sections_are_damaged :
  enable_repository_graph (lit "rpg:") = Ok (Some (lit "rpg:    enabled: true" ++ LF))
  /\ enable_repository_graph (lit "rpg: # graph" ++ LF) = Ok (Some (lit "rpg: # graph" ++ LF ++ lit "rpg:" ++ LF ++ graph_on ++ LF)).
Proof. vm_compute. done. Qed.

(** ** Lines that are found again *)

Lemma break_spec {A} (f : A -> bool) l a b : break f l = (a, b) ->
  l = a ++ b /\ Forall (fun x => f x = false) a /\ match b with x :: _ => f x = true | [] => True end.
Proof.
  revert a. induction l as [|x l IH]; intros a; cbn [break]; [intros [= <- <-]; by split_and!|].
  destruct (f x) eqn:Ef; [intros [= <- <-]; by split_and!|]. destruct (break f l) as [y z]. intros [= <- <-].
  destruct (IH y eq_refl) as (-> & Hy & Hz). split_and!; [done|by constructor|done].
Qed.

Lemma break_app {A} (f : A -> bool) a b : Forall (fun x => f x = false) a -> match b with x :: _ => f x = true | [] => True end ->
  break f (a ++ b) = (a, b).
Proof.
  induction 1 as [|x a Hx _ IH]; intros Hb; cbn [break app].
  - destruct b as [|x b]; [done|]. cbn [break]. by rewrite Hb.
  - by rewrite Hx, (IH Hb).
Qed.

Lemma trim_start_app s t : forallb is_whitespace s = true -> trim_start (s ++ t) = trim_start t.
Proof. intros H. unfold trim_start. rewrite skip_while_app. by rewrite (proj2 (skip_while_nil _ _) H). Qed.

Lemma trim_end_snoc s c : is_whitespace c = true -> trim_end (s ++ [c]) = trim_end s.
Proof. intros H. unfold trim_end, trim_end_matches. rewrite reverse_app. change (reverse [c]) with [c]. cbn [app skip_while]. by rewrite H. Qed.

Lemma trim_feed s : trim (s ++ LF) = trim s.
Proof.
  unfold trim. destruct (forallb is_whitespace s) eqn:E.
  - rewrite trim_start_app by done. replace (trim_start s) with (@nil char); [done|]. symmetry. by apply skip_while_nil.
  - assert (trim_start (s ++ LF) = trim_start s ++ LF) as ->; [|by apply trim_end_snoc].
    induction s as [|c s IH]; [done|]. cbn in *. destruct (is_whitespace c); [|done]. by apply IH.
Qed.

(** The characters of a part are characters of the whole. *)
Lemma skip_while_incl f s c : c ∈ skip_while f s -> c ∈ s.
Proof. induction s as [|d s IH]; cbn; [done|]. destruct (f d); [intros H; right; by apply IH|done]. Qed.

Lemma trim_end_matches_incl f s c : c ∈ trim_end_matches f s -> c ∈ s.
Proof. unfold trim_end_matches. rewrite elem_of_reverse. intros H%skip_while_incl. by rewrite elem_of_reverse in H. Qed.

Lemma trim_incl s c : c ∈ trim s -> c ∈ s.
Proof. intros H%trim_end_matches_incl%skip_while_incl. done. Qed.

Lemma split_char_incl f s w c : w ∈ split_char f s -> c ∈ w -> c ∈ s.
Proof.
  revert w. induction s as [|d s IH]; intros w; cbn [split_char]; [by intros ->%list_elem_of_singleton|].
  destruct (f d).
  - intros [->|Hw]%elem_of_cons Hc; [by apply not_elem_of_nil in Hc|]. right. by eapply IH.
  - destruct (split_char f s) as [|v vs]; [intros ->%list_elem_of_singleton ->%list_elem_of_singleton; by left|].
    intros [->|Hw]%elem_of_cons Hc; [apply elem_of_cons in Hc as [->|Hc]; [by left|right; eapply IH; [by left|done]]|].
    right. eapply IH; [by right|done].
Qed.

Lemma no_feed w : contains_char 10 w = false <-> ~ (10 ∈ w).
Proof.
  unfold contains_char. rewrite <- not_true_iff_false, existsb_exists. split.
  - intros H Hin. apply H. exists 10. split; [by apply list_elem_of_In|done].
  - intros H (c & Hin & Hc). apply N.eqb_eq in Hc as <-. apply H. by apply list_elem_of_In.
Qed.

Lemma entry_line_full indent entry : ~ (10 ∈ indent) -> ~ (10 ∈ entry) -> full_line (entry_line indent entry).
Proof.
  intros Hi He. exists (indent ++ lit "- " ++ entry). split; [unfold entry_line; by rewrite <- !app_assoc|].
  apply no_feed. rewrite !elem_of_app. intros [H|[H|H] ]; [done| |done]. by vm_compute in H; apply elem_of_cons in H as [H|[H|H%not_elem_of_nil]%elem_of_cons].
Qed.

Lemma full_line_start w : full_line w -> ~ (10 ∈ trim_end w).
Proof.
  intros (v & -> & Hv). rewrite (trim_end_snoc v 10 eq_refl). intros H%trim_end_matches_incl. by apply no_feed in Hv.
Qed.

Lemma no_feed_four : ~ (10 ∈ four).
Proof. intros H. apply no_feed in H; [done|]. reflexivity. Qed.

Lemma inline_entries_full line : full_line line -> Forall full_line (map (entry_line four) (inline_entries (inline_of line))).
Proof.
  intros Hl. apply Forall_map, Forall_forall. intros e He. apply entry_line_full; [apply no_feed_four|].
  unfold inline_entries in He. apply list_elem_of_In, filter_In in He as [He _]. apply list_elem_of_In, list_elem_of_fmap in He as (w & -> & Hw).
  intros H. apply trim_incl in H. pose proof (split_char_incl _ _ _ _ Hw H) as H'.
  apply trim_end_matches_incl, skip_while_incl in H'. unfold inline_of in H'. apply trim_incl in H'.
  apply (full_line_start line Hl). rewrite <- (take_drop 7 (trim_end line)), elem_of_app. by right.
Qed.

(** ** The list of ignored paths, once and for all *)

Lemma indented_not_top line : indented line = true -> top_level line = false.
Proof. intros H. unfold top_level. by rewrite H. Qed.

Lemma top_not_blank line : top_level line = false -> is_item line = true -> indented line = true.
Proof.
  intros Ht Hi. unfold top_level in Ht. destruct (indented line); [done|]. cbn in Ht. apply negb_false_iff in Ht.
  assert (trim line = []) as Hn by (by destruct (trim line)). apply trim_nil in Hn. unfold is_item in Hi.
  assert (trim_start line = []) as Hs by (by apply skip_while_nil). by rewrite Hs in Hi.
Qed.

Lemma indent_of_split line : line = indent_of line ++ trim_start line /\ forallb is_whitespace (indent_of line) = true.
Proof.
  destruct (trim_start_split line) as (w & Hs & Hw). unfold indent_of.
  assert (length line - length (trim_start line) = length w)%nat as -> by (rewrite Hs at 1; rewrite length_app; lia).
  assert (take (length w) line = w) as ->; [|done]. rewrite Hs. apply take_app_length.
Qed.

(** The indent of an item of the list is one, and holds no line feed. *)
Lemma item_indent line : full_line line -> top_level line = false -> is_item line = true ->
  indented (indent_of line ++ lit "-") = true /\ forallb is_whitespace (indent_of line) = true /\ ~ (10 ∈ indent_of line).
Proof.
  intros (w & Hw & Hno) Ht Hi. pose proof (top_not_blank line Ht Hi) as Hind. destruct (indent_of_split line) as [Hs Hws].
  assert (exists c t, trim_start line = c :: t) as (c & t & Hst) by (unfold is_item in Hi; destruct (trim_start line) as [|c t]; [done|by exists c, t]).
  split_and!; [|done|].
  - destruct (indent_of line) as [|d ds]; [|by rewrite Hs in Hind]. cbn [app] in Hs. rewrite Hs in Hind. unfold is_item in Hi.
    apply starts_with_true in Hi as [u Hu]. rewrite Hu in Hind. discriminate Hind.
  - intros Hin. apply no_feed in Hno. apply Hno. set (ind := indent_of line) in *. clearbody ind. rewrite Hst in Hs. rewrite Hw in Hs. destruct t as [|t' ts] using rev_ind.
    + apply (f_equal reverse) in Hs. rewrite !reverse_app in Hs. cbn in Hs. injection Hs as Hc Hs. apply (f_equal reverse) in Hs. rewrite !reverse_involutive in Hs. by rewrite Hs.
    + rewrite app_comm_cons, app_assoc in Hs. apply app_inj_tail in Hs as [-> _]. apply elem_of_app. by left.
Qed.

(** A managed entry in the list, under any indent, is an item of its name, below the header. *)
Definition indents (indent : rstr) : Prop := indented (indent ++ lit "-") = true /\ forallb is_whitespace indent = true /\ ~ (10 ∈ indent).

Lemma indents_four : indents four.
Proof. split; [reflexivity|]. split; [reflexivity|apply no_feed_four]. Qed.

Lemma managed_line indent entry : indents indent -> entry ∈ MANAGED_INDEX_IGNORES ->
  full_line (entry_line indent entry) /\ top_level (entry_line indent entry) = false
  /\ is_item (entry_line indent entry) = true /\ item_name (entry_line indent entry) = entry.
Proof.
  intros (Hi & Hw & Hn) ->%list_elem_of_singleton. split_and!.
  - apply entry_line_full; [done|]. intros H. apply no_feed in H; [done|reflexivity].
  - apply indented_not_top. unfold entry_line. destruct indent as [|c indent]; [done|]. exact Hi.
  - unfold is_item, entry_line. by rewrite trim_start_app.
  - unfold item_name, entry_line, trim. rewrite trim_start_app by done. reflexivity.
Qed.

Lemma finished_concat ls : Forall full_line ls -> finished_lines (concat ls) = ls.
Proof.
  intros Hf. unfold finished_lines. rewrite split_inclusive_concat by done. destruct (last ls) as [l|] eqn:El; [|done].
  apply last_Some in El as [ls' ->]. apply Forall_app in Hf as [_ Hf]. inversion_clear Hf as [|? ? (w & -> & _) _].
  assert (ends_with LF (w ++ [10]) = true) as -> by (apply ends_with_true; by eexists). done.
Qed.

Lemma finished_full config : Forall full_line (finished_lines config).
Proof.
  unfold finished_lines. destruct (split_inclusive_lines config) as (ls & o & -> & Hf & Ho). cbv zeta. destruct o as [l|]; [change (option_list (Some l)) with [l]|change (@option_list rstr None) with (@nil rstr)].
  - rewrite last_snoc, removelast_last. destruct Ho as [_ Ho]. assert (ends_with LF l = false) as ->.
    { destruct (ends_with LF l) eqn:E; [|done]. apply ends_with_true in E as [t ->]. apply no_feed in Ho. exfalso. apply Ho, elem_of_app. right. by left. }
    apply Forall_app. split; [done|]. constructor; [by exists l|done].
  - rewrite app_nil_r. destruct (last ls) as [l|] eqn:El; [|done]. apply last_Some in El as [ls' ->]. pose proof Hf as Hf'. apply Forall_app in Hf' as [_ Hl].
    apply Forall_cons in Hl as [(w & Hw & _) _]. assert (ends_with LF l = true) as -> by (apply ends_with_true; by eexists). exact Hf.
Qed.

Lemma missing_none indent present : (forall entry, entry ∈ MANAGED_INDEX_IGNORES -> entry ∈ present) -> missing_lines indent present = [].
Proof.
  intros H. unfold missing_lines, MANAGED_INDEX_IGNORES. cbn [List.filter]. assert (one_of (lit ".claude/worktrees") present = true) as ->; [|done].
  apply existsb_exists. exists (lit ".claude/worktrees"). split; [apply list_elem_of_In, H; by left|]. unfold str_eqb. by apply bool_decide_eq_true.
Qed.

(** Each line that is added is one of a managed entry. *)
Lemma missing_are_managed indent present line : line ∈ missing_lines indent present ->
  exists entry, entry ∈ MANAGED_INDEX_IGNORES /\ line = entry_line indent entry.
Proof.
  intros (entry & -> & Hin)%list_elem_of_fmap. apply list_elem_of_In, filter_In in Hin as [Hin _]. exists entry. split; [by apply list_elem_of_In|done].
Qed.

Lemma missing_or_present indent present entry : entry ∈ MANAGED_INDEX_IGNORES -> entry ∈ present \/ entry_line indent entry ∈ missing_lines indent present.
Proof.
  intros He. destruct (one_of entry present) eqn:E.
  - left. apply existsb_exists in E as (x & Hx & Heq). apply bool_decide_eq_true in Heq as <-. by apply list_elem_of_In.
  - right. apply list_elem_of_fmap. exists entry. split; [done|]. apply list_elem_of_In, filter_In. split; [by apply list_elem_of_In|by rewrite E].
Qed.

(** A list that holds the managed entries needs no edit. *)
Lemma second_pass before start body indent present after :
  Forall full_line (before ++ start :: body ++ missing_lines indent present ++ after) ->
  Forall (fun x => is_header x = false) before -> is_header start = true -> inline_of start = [] ->
  Forall (fun x => top_level x = false) body -> match after with x :: _ => top_level x = true | [] => True end ->
  indents indent -> present = map item_name (List.filter is_item body) ->
  config_with_managed_ignores (concat (before ++ start :: body ++ missing_lines indent present ++ after)) = None.
Proof.
  intros Hfull Hb Hs Hinline Hbody Hafter Hind Hp. unfold config_with_managed_ignores. rewrite finished_concat by done.
  rewrite break_app by done. rewrite Hinline. cbn [is_empty]. rewrite app_assoc.
  assert (Forall (fun x => top_level x = false) (missing_lines indent present)) as Hmiss.
  { apply Forall_forall. intros l (entry & He & ->)%missing_are_managed. by apply (managed_line indent entry Hind He). }
  rewrite break_app by (by apply Forall_app || done). rewrite missing_none; [done|].
  intros entry He. apply list_elem_of_fmap. destruct (missing_or_present indent present entry He) as [Hin|Hin].
  - rewrite Hp in Hin. apply list_elem_of_fmap in Hin as (l & -> & Hl). exists l. split; [done|].
    apply list_elem_of_In, filter_In in Hl as [Hl Hi]. apply list_elem_of_In, filter_In. split; [|done]. apply list_elem_of_In, elem_of_app. left. by apply list_elem_of_In.
  - destruct (managed_line indent entry Hind He) as (_ & _ & Hitem & Hname). exists (entry_line indent entry). split; [done|].
    apply list_elem_of_In, filter_In. split; [|done]. by apply list_elem_of_In, elem_of_app; right.
Qed.

Lemma items_indents body : Forall full_line body -> Forall (fun x => top_level x = false) body -> indents (items_indent (List.filter is_item body)).
Proof.
  intros Hf Ht. unfold items_indent. destruct (List.filter is_item body) as [|l ls] eqn:E; [apply indents_four|].
  assert (l ∈ List.filter is_item body) as Hin by (rewrite E; by left). apply list_elem_of_In, filter_In in Hin as [Hin Hi]. apply list_elem_of_In in Hin.
  rewrite Forall_forall in Hf, Ht. by apply item_indent; auto.
Qed.

Lemma forall_full_parts (before : list rstr) start rest : Forall full_line (before ++ start :: rest) ->
  Forall full_line before /\ full_line start /\ Forall full_line rest.
Proof. intros [Hb Hr]%Forall_app. by apply Forall_cons in Hr. Qed.

(** The lines in which the list is one of lines: that of the header's line taken apart, or an
    empty one at the end. *)
Definition opened (config : rstr) : list rstr :=
  match break is_header (finished_lines config) with
  | (before, header :: rest) =>
      before ++ (if is_empty (inline_of header) then header :: rest else block_header :: map (entry_line four) (inline_entries (inline_of header)) ++ rest)
  | (before, []) => before ++ [block_header]
  end.

(** The names in the list of a text. *)
Definition listed (config : rstr) : list rstr :=
  match break is_header (finished_lines config) with
  | (_, header :: rest) => map item_name (List.filter is_item (break top_level rest).1)
  | _ => []
  end.

(** The edit puts lines into those, at the end of the list. *)
Lemma edit_shape config config' : config_with_managed_ignores config = Some config' ->
  exists before start body present after,
    let added := missing_lines (items_indent (List.filter is_item body)) present in
    opened config = before ++ start :: body ++ after
    /\ config' = concat (before ++ start :: body ++ added ++ after) /\ Forall full_line (before ++ start :: body ++ added ++ after)
    /\ Forall (fun x => is_header x = false) before /\ is_header start = true /\ inline_of start = []
    /\ Forall (fun x => top_level x = false) body /\ match after with x :: _ => top_level x = true | [] => True end
    /\ Forall full_line body /\ present = map item_name (List.filter is_item body).
Proof.
  unfold config_with_managed_ignores, opened. pose proof (finished_full config) as Hfull.
  assert (full_line block_header) as Hh by (exists (lit "ignore:"); done).
  assert (forall before start body after present, Forall full_line before -> full_line start -> Forall full_line body -> Forall full_line after ->
    Forall (fun x => top_level x = false) body ->
    Forall full_line (before ++ start :: body ++ missing_lines (items_indent (List.filter is_item body)) present ++ after)) as Hall.
  { intros before start body after present H1 H2 H3 H4 H5. apply Forall_app. split; [done|]. constructor; [done|]. apply Forall_app. split; [done|].
    apply Forall_app. split; [|done]. apply Forall_forall. intros l (entry & He & ->)%missing_are_managed.
    by apply (managed_line _ entry (items_indents body H3 H5) He). }
  destruct (break is_header (finished_lines config)) as [before [|start rest] ] eqn:Eb; apply break_spec in Eb as (El & Hb & Hs).
  - rewrite app_nil_r in El. intros [= <-]. exists before, block_header, [], [], []. rewrite El in Hfull |- *.
    split_and!; try done. by apply (Hall before block_header [] [] []).
  - rewrite El in Hfull. apply forall_full_parts in Hfull as (Hfb & Hfs & Hfr).
    destruct (is_empty (inline_of start)) eqn:Ei.
    + destruct (break top_level rest) as [body after] eqn:Et. apply break_spec in Et as (-> & Hbody & Hafter). apply Forall_app in Hfr as [Hfbody Hfafter].
      destruct (is_nil _ && _); [done|]. intros [= <-].
      exists before, start, body, (map item_name (List.filter is_item body)), after. split_and!; try done; [by apply Hall|].
      by destruct (inline_of start).
    + destruct (break top_level _) as [body after] eqn:Et. apply break_spec in Et as (Er & Hbody & Hafter).
      assert (Forall full_line (body ++ after)) as Hba by (rewrite <- Er; apply Forall_app; split; [by apply inline_entries_full|done]).
      apply Forall_app in Hba as [Hfbody Hfafter]. rewrite andb_false_r. intros [= <-].
      exists before, block_header, body, (map item_name (List.filter is_item body)), after. split_and!; try done; [by rewrite <- Er|by apply Hall].
Qed.

Lemma no_edit_is_listed config entry : config_with_managed_ignores config = None -> entry ∈ MANAGED_INDEX_IGNORES -> entry ∈ listed config.
Proof.
  unfold config_with_managed_ignores, listed. destruct (break is_header (finished_lines config)) as [before [|start rest] ]; [done|].
  destruct (is_empty (inline_of start)).
  - destruct (break top_level rest) as [body after]. cbn [fst]. set (present := map item_name _). destruct (is_nil (missing_lines _ present)) eqn:En; [|done].
    intros _ He. destruct (missing_or_present (items_indent (List.filter is_item body)) present entry He) as [|Hin]; [done|].
    destruct (missing_lines _ present); [by apply not_elem_of_nil in Hin|done].
  - destruct (break top_level _). by rewrite andb_false_r.
Qed.

(** The managed paths are put into the list of ignored paths once: they are in the list of
    an edited file, which is not edited again. No line of the file is lost or moved: the
    edit adds lines of managed paths in one place, after it has taken the list apart that was
    written on the line of its header, entry by entry, or has opened one at the end of the file. *)
Theorem managed_ignores_are_added_once config config' :
  config_with_managed_ignores config = Some config' ->
  config_with_managed_ignores config' = None
  /\ (forall entry, entry ∈ MANAGED_INDEX_IGNORES -> entry ∈ listed config')
  /\ exists a added b, opened config = a ++ b /\ split_inclusive config' = a ++ added ++ b
     /\ Forall (fun line => exists indent entry, entry ∈ MANAGED_INDEX_IGNORES /\ line = entry_line indent entry) added.
Proof.
  intros H. apply edit_shape in H as (before & start & body & present & after & Ho & -> & Hfull & Hb & Hs & Hi & Hbody & Hafter & Hfbody & Hp).
  assert (config_with_managed_ignores (concat (before ++ start :: body ++ missing_lines (items_indent (List.filter is_item body)) present ++ after)) = None) as Hnone.
  { apply second_pass; [done..|by apply items_indents|done]. }
  split; [done|]. split; [intros entry; by apply no_edit_is_listed|].
  exists (before ++ start :: body), (missing_lines (items_indent (List.filter is_item body)) present), after. split; [by rewrite Ho, <- app_assoc|].
  split; [rewrite split_inclusive_concat by done; by rewrite <- app_assoc|].
  apply Forall_forall. intros l (entry & He & ->)%missing_are_managed. by eexists _, entry.
Qed.

Lemma managed_ignores_are_added_once_witness : exists config',
  config_with_managed_ignores (lit "ignore: [.git, target]" ++ LF ++ lit "rpg:" ++ LF) = Some config' /\ config_with_managed_ignores config' = None.
Proof.
  destruct (config_with_managed_ignores (lit "ignore: [.git, target]" ++ LF ++ lit "rpg:" ++ LF)) as [config'|] eqn:E; [|by vm_compute in E].
  exists config'. split; [done|]. by apply (managed_ignores_are_added_once _ _ E).
Defined.

(** ** The graph, read back *)

Lemma trim_snoc s c : is_whitespace c = true -> trim (s ++ [c]) = trim s.
Proof.
  intros Hc. unfold trim. destruct (forallb is_whitespace s) eqn:E.
  - rewrite trim_start_app by done. replace (trim_start s) with (@nil char) by (symmetry; by apply skip_while_nil).
    unfold trim_start. cbn [skip_while]. by rewrite Hc.
  - assert (trim_start (s ++ [c]) = trim_start s ++ [c]) as ->; [|by apply trim_end_snoc].
    induction s as [|d s IH]; [done|]. cbn in *. destruct (is_whitespace d); [|done]. by apply IH.
Qed.

Lemma trim_bare l : full_line l -> trim (bare_line l) = trim l.
Proof.
  intros (w & -> & _). rewrite trim_snoc by done. unfold bare_line. rewrite (proj2 (strip_suffix_Some [10] (w ++ [10]) w) eq_refl).
  unfold strip_cr. destruct (strip_suffix [13] w) as [v|] eqn:E; [|done]. apply strip_suffix_Some in E as ->. cbn [default from_option]. by rewrite trim_snoc.
Qed.

Lemma indented_bare l : full_line l -> indented (bare_line l) = indented l.
Proof.
  intros (w & -> & _). unfold bare_line. rewrite (proj2 (strip_suffix_Some [10] (w ++ [10]) w) eq_refl).
  unfold strip_cr. destruct (strip_suffix [13] w) as [v|] eqn:E; [apply strip_suffix_Some in E as ->; by destruct v|by destruct w].
Qed.

Lemma graph_loop_bare ls : Forall full_line ls -> forall b, graph_loop b (map bare_line ls) = graph_loop b ls.
Proof.
  induction 1 as [|l ls Hl _ IH]; intros b; cbn [map graph_loop]; [done|]. rewrite trim_bare, indented_bare by done.
  destruct (negb (indented l)); [apply IH|]. destruct (b && _); [done|apply IH].
Qed.

Lemma graph_enabled_lines ls : Forall full_line ls -> repository_graph_enabled (concat ls) = graph_loop false ls.
Proof.
  intros Hf. unfold repository_graph_enabled. rewrite <- (app_nil_r (concat ls)), lines_full by done. change (lines []) with (@nil rstr).
  rewrite app_nil_r. by apply graph_loop_bare.
Qed.

(** No line is in front of a section by a white space other than that of an indent. *)
Definition plain_sections (config : rstr) : Prop :=
  Forall (fun l => indented l = false -> trim l = lit "rpg:" -> is_section l = true) (split_inclusive config).

Lemma graph_loop_before before rest : Forall (fun l => is_section l = false) before ->
  Forall (fun l => indented l = false -> trim l = lit "rpg:" -> is_section l = true) before -> graph_loop false (before ++ rest) = graph_loop false rest.
Proof.
  induction 1 as [|l before Hl _ IH]; intros Hp; [done|]. apply Forall_cons in Hp as [Hpl Hp]. cbn [app graph_loop andb].
  destruct (indented l) eqn:Ei; cbn [negb]; [by apply IH|]. unfold str_eqb. case_bool_decide as E; [by rewrite Hpl in Hl|]. by apply IH.
Qed.

Lemma section_opens l rest : is_section l = true -> graph_loop false (l :: rest) = graph_loop true rest.
Proof.
  intros H. apply bool_decide_eq_true in H. destruct (trim_end_split l) as (w & Hl & Hw). rewrite H in Hl.
  cbn [graph_loop]. assert (indented l = false) as -> by by rewrite Hl. cbn [negb].
  assert (trim l = lit "rpg:") as ->; [|done]. unfold trim. assert (trim_start l = l) as ->; [|done]. by rewrite Hl.
Qed.

Lemma enabled_key_trimmed l : starts_with (lit "enabled:") (trim l) = true -> is_enabled_key l = true.
Proof.
  intros (t & Ht)%starts_with_true. unfold is_enabled_key. apply starts_with_true. unfold trim in Ht.
  destruct (trim_end_split (trim_start l)) as (w & Hl & _). exists (t ++ w). by rewrite Hl, Ht, <- app_assoc.
Qed.

Lemma graph_loop_inside b1 rest : Forall (fun l => indented l = true) b1 -> Forall (fun l => is_enabled_key l = false) b1 ->
  graph_loop true (b1 ++ rest) = graph_loop true rest.
Proof.
  induction 1 as [|l b1 Hl _ IH]; intros Hk; [done|]. apply Forall_cons in Hk as [Hkl Hk]. cbn [app graph_loop]. rewrite Hl. cbn [negb andb].
  destruct (starts_with (lit "enabled:") (trim l)) eqn:E; [by rewrite enabled_key_trimmed in Hkl|]. by apply IH.
Qed.

Lemma graph_on_read rest : graph_loop true ((graph_on ++ LF) :: rest) = Ok true.
Proof. reflexivity. Qed.

Lemma graph_on_full : full_line (graph_on ++ LF).
Proof. by exists graph_on. Qed.

(** A graph that is enabled is read back as enabled, in a file whose last line is ended
    and whose section has no line without an indent above its setting, and the edit
    replaces the setting of that section, or adds lines in one place, and leaves every other line. *)
Theorem enabled_graph_is_read_back config :
  ends_with LF config = true -> plain_sections config ->
  (forall before section rest, break is_section (split_inclusive config) = (before, section :: rest) ->
    Forall (fun l => indented l = true) (break top_level rest).1) ->
  repository_graph_enabled (enable_graph config) = Ok true
  /\ exists a old new b, split_inclusive config = a ++ old ++ b /\ split_inclusive (enable_graph config) = a ++ new ++ b
     /\ (old = [] \/ exists setting, old = [setting] /\ is_enabled_key setting = true /\ new = [graph_on ++ LF])
     /\ Forall (fun l => l = lit "rpg:" ++ LF \/ l = graph_on ++ LF) new.
Proof.
  intros Hend Hplain Hind. destruct (proj1 (ends_with_true _ _) Hend) as [w Hw].
  assert (contains_char 10 config = true) as Hc.
  { rewrite Hw, contains_char_app. apply orb_true_r. }
  assert (Forall full_line (split_inclusive config)) as Hfull.
  { destruct (split_inclusive_lines config) as (ls & o & Hs & Hf & Ho). rewrite Hs. destruct o as [l|]; [|by rewrite app_nil_r]. exfalso.
    destruct Ho as [Hne Ho]. pose proof (concat_split_inclusive config) as Hcat. rewrite Hs, concat_app, Hw in Hcat. cbn in Hcat. rewrite app_nil_r in Hcat.
    destruct l as [|c l _] using rev_ind; [done|]. rewrite app_assoc in Hcat. apply app_inj_tail in Hcat as [_ ->]. apply no_feed in Ho. apply Ho, elem_of_app. right. by left. }
  unfold enable_graph. rewrite Hc. destruct (break is_section (split_inclusive config)) as [before [|section rest] ] eqn:Eb.
  - apply break_spec in Eb as (El & Hb & _). rewrite app_nil_r in El. rewrite Hend, andb_false_r, El in *. cbn [app].
    assert (Forall full_line (before ++ [lit "rpg:" ++ LF; graph_on ++ LF])) as Hf'.
    { apply Forall_app. split; [done|]. constructor; [by exists (lit "rpg:")|]. constructor; [apply graph_on_full|done]. }
    rewrite graph_enabled_lines, split_inclusive_concat by done. split.
    + rewrite graph_loop_before; [|done|by unfold plain_sections in Hplain; rewrite El in Hplain]. by rewrite section_opens.
    + exists before, [], [lit "rpg:" ++ LF; graph_on ++ LF], []. rewrite !app_nil_r. split_and!; [done|done|by left|]. constructor; [by left|]. constructor; [by right|constructor].
  - specialize (Hind before section rest eq_refl). apply break_spec in Eb as (El & Hb & Hs). unfold plain_sections in Hplain. rewrite El in Hplain, Hfull |- *.
    apply Forall_app in Hplain as [Hplain _]. apply forall_full_parts in Hfull as (Hfb & Hfs & Hfr).
    destruct (break top_level rest) as [body after] eqn:Et. cbn [fst] in Hind. apply break_spec in Et as (-> & Hbody & _). apply Forall_app in Hfr as [Hfbody Hfafter].
    destruct (break is_enabled_key body) as [b1 [|enabled b2] ] eqn:Ek; apply break_spec in Ek as (-> & Hk1 & Hk2).
    + assert (Forall full_line (before ++ section :: (graph_on ++ LF) :: (b1 ++ []) ++ after)) as Hf'.
      { apply Forall_app. split; [done|]. constructor; [done|]. constructor; [apply graph_on_full|]. by apply Forall_app. }
      rewrite graph_enabled_lines, split_inclusive_concat by done. split; [by rewrite graph_loop_before, section_opens|].
      exists (before ++ [section]), [], [graph_on ++ LF], ((b1 ++ []) ++ after). rewrite <- !app_assoc. split_and!; [done|done|by left|]. constructor; [by right|constructor].
    + apply Forall_app in Hfbody as [Hf1 Hf2]. apply Forall_cons in Hf2 as [(v & Hv & _) Hf2].
      assert (ends_with LF enabled = true) as -> by (apply ends_with_true; by eexists).
      assert (Forall full_line (before ++ section :: b1 ++ (graph_on ++ LF) :: b2 ++ after)) as Hf'.
      { apply Forall_app. split; [done|]. constructor; [done|]. apply Forall_app. split; [done|]. constructor; [apply graph_on_full|]. by apply Forall_app. }
      rewrite graph_enabled_lines, split_inclusive_concat by done. apply Forall_app in Hind as [Hi1 _]. split.
      * by rewrite graph_loop_before, section_opens, graph_loop_inside.
      * exists (before ++ section :: b1), [enabled], [graph_on ++ LF], (b2 ++ after). rewrite <- !app_assoc. cbn [app].
        split_and!; [done|done|right; by exists enabled|]. constructor; [by right|constructor].
Qed.

Definition sample_graph : rstr := lit "version: 1" ++ LF ++ lit "rpg:" ++ LF ++ lit "    enabled: false" ++ LF ++ lit "search:" ++ LF.

Lemma enabled_graph_is_read_back_witness : repository_graph_enabled sample_graph = Ok false /\ repository_graph_enabled (enable_graph sample_graph) = Ok true.
Proof.
  split; [reflexivity|]. apply (enabled_graph_is_read_back sample_graph).
  - reflexivity.
  - unfold plain_sections. vm_compute. repeat constructor; intros; discriminate.
  - intros before section rest H. vm_compute in H. injection H as <- <- <-. vm_compute. repeat constructor.
Defined.

(** ** Deduplication, disabled once *)

Lemma split_one_line o : open_line o -> split_inclusive o = [o].
Proof.
  intros [Hne Ho]. induction o as [|c o IH]; [done|]. cbn [split_inclusive].
  assert (c <> 10 /\ contains_char 10 o = false) as [Hc Ho'].
  { apply no_feed in Ho. split; [intros ->; apply Ho; by left|]. apply no_feed. intros H. apply Ho. by right. }
  apply N.eqb_neq in Hc as ->. destruct o as [|d o]; [done|]. by rewrite IH.
Qed.

Lemma split_inclusive_open ls o : Forall full_line ls -> open_line o -> split_inclusive (concat ls ++ o) = ls ++ [o].
Proof.
  intros Hf Ho. induction Hf as [|l ls Hl _ IH]; cbn [concat app]; [by apply split_one_line|].
  by rewrite <- app_assoc, split_inclusive_cons, IH.
Qed.

(** Lines as they are cut from a text. *)
Definition cut_lines (ls : list rstr) : Prop := split_inclusive (concat ls) = ls.

(** A line that the setting is turned off in is one of the same kind, full or open. *)
Lemma dedup_line_kind s d line : let line' := (dedup_line s d line).2 in
  (full_line line -> full_line line') /\ (open_line line -> open_line line').
Proof.
  unfold dedup_line. cbv zeta. destruct (_ && negb _); [done|]. destruct (s && _); [done|]. destruct (d && _ && _); [|done]. cbn [snd]. split.
  - intros (w & Hw & _). assert (ends_with LF line = true) as -> by (apply ends_with_true; by exists w). by exists dedup_off.
  - intros [_ Ho]. assert (ends_with LF line = false) as ->; [|done]. destruct (ends_with LF line) eqn:E; [|done].
    apply ends_with_true in E as [t ->]. apply no_feed in Ho. exfalso. apply Ho, elem_of_app. right. by left.
Qed.

Lemma dedup_loop_cut ls : forall s d o, Forall full_line ls -> match o with Some l => open_line l | None => True end ->
  cut_lines (dedup_loop s d (ls ++ option_list o)).
Proof.
  assert (forall s d l o, full_line l -> cut_lines (dedup_loop (dedup_line s d l).1.1 (dedup_line s d l).1.2 o) -> cut_lines (dedup_loop s d (l :: o))) as Hstep.
  { intros s d l o Hl Ho. cbn [dedup_loop]. pose proof (proj1 (dedup_line_kind s d l) Hl) as Hk. destruct (dedup_line s d l) as [ [s' d'] l']. cbn [fst snd] in *.
    unfold cut_lines in *. cbn [concat]. by rewrite split_inclusive_cons, Ho. }
  induction ls as [|l ls IH]; intros s d o Hf Ho; cbn [app].
  - destruct o as [l|]; [|done]. change (option_list (Some l)) with [l]. cbn [dedup_loop]. pose proof (proj2 (dedup_line_kind s d l) Ho) as Hk.
    destruct (dedup_line s d l) as [ [s' d'] l']. unfold cut_lines. cbn [concat]. rewrite app_nil_r. by apply split_one_line.
  - apply Forall_cons in Hf as [Hl Hf]. apply Hstep; [done|]. by apply IH.
Qed.

(** A line that was passed is passed again as it is, to the same place. *)
Lemma dedup_line_twice s d line : dedup_line s d (dedup_line s d line).2 = dedup_line s d line.
Proof.
  destruct (dedup_line s d line) as [ [s' d'] l'] eqn:El. cbn [snd]. pose proof El as Hl. unfold dedup_line in El.
  destruct (_ && negb _) eqn:E1; [by injection El as _ _ <-|].
  destruct (s && (slen line - slen (trim_start line) =? 4)) eqn:E2; [by injection El as _ _ <-|].
  destruct (d && (slen line - slen (trim_start line) =? 8) && str_eqb (trim line) (lit "enabled: true")) eqn:E3; [|by injection El as _ _ <-].
  injection El as <- <- <-. apply andb_true_iff in E3 as [ [-> _]%andb_true_iff _]. by destruct (ends_with LF line), s.
Qed.

Lemma dedup_loop_twice ls : forall s d, dedup_loop s d (dedup_loop s d ls) = dedup_loop s d ls.
Proof.
  induction ls as [|l ls IH]; intros s d; cbn [dedup_loop]; [done|]. pose proof (dedup_line_twice s d l) as Ht.
  destruct (dedup_line s d l) as [ [s' d'] l'] eqn:El. cbn [snd] in Ht. cbn [dedup_loop]. rewrite Ht. by rewrite IH.
Qed.

Lemma dedup_loop_changes ls : forall s d, Forall2 (fun l l' => l' = l \/ (trim l = lit "enabled: true" /\ trim l' = lit "enabled: false")) ls (dedup_loop s d ls).
Proof.
  induction ls as [|l ls IH]; intros s d; cbn [dedup_loop]; [constructor|]. destruct (dedup_line s d l) as [ [s' d'] l'] eqn:El. constructor; [|apply IH].
  unfold dedup_line in El. destruct (_ && negb _); [injection El as _ _ <-; by left|]. destruct (s && _); [injection El as _ _ <-; by left|].
  destruct (d && _ && str_eqb _ _) eqn:E3; [|injection El as _ _ <-; by left]. right. bool_prop. injection El as _ _ <-.
  split; [by apply bool_decide_eq_true in H0|]. by destruct (ends_with LF l).
Qed.

(** The deduplication of hits is turned off once: an edited file is not edited again, and
    the edit changes nothing but settings that were on, line by line. *)
Theorem dedup_is_disabled_once config config' :
  disable_search_dedup config = Some config' ->
  disable_search_dedup config' = None
  /\ Forall2 (fun l l' => l' = l \/ (trim l = lit "enabled: true" /\ trim l' = lit "enabled: false")) (split_inclusive config) (split_inclusive config').
Proof.
  unfold disable_search_dedup. cbv zeta. case_bool_decide as E; [done|]. intros [= <-].
  destruct (split_inclusive_lines config) as (ls & o & Hs & Hf & Ho).
  assert (split_inclusive (concat (dedup_loop false false (split_inclusive config))) = dedup_loop false false (split_inclusive config)) as Hcut
    by (rewrite Hs; by apply dedup_loop_cut).
  rewrite Hcut, dedup_loop_twice. split; [by rewrite bool_decide_eq_true_2|]. apply dedup_loop_changes.
Qed.

Definition sample_search : rstr := lit "search:" ++ LF ++ lit "    dedup:" ++ LF ++ lit "        enabled: true" ++ LF ++ lit "rpg:" ++ LF.

Lemma dedup_is_disabled_once_witness : exists config',
  disable_search_dedup sample_search = Some config' /\ disable_search_dedup config' = None.
Proof.
  destruct (disable_search_dedup sample_search) as [config'|] eqn:E; [|by vm_compute in E].
  exists config'. split; [done|]. by apply (dedup_is_disabled_once _ _ E).
Defined.

(** ** The ignore file, as it was *)

(** Only the engine's line is ever taken back: an ending line break and [.grepai/] on a
    line of its own behind what was there. *)
Lemma restored_is_the_old_file before after :
  is_only_grepai_gitignore_append before after = true <->
  exists feed last_feed, (feed = [] \/ feed = LF) /\ (last_feed = [] \/ last_feed = LF) /\ after = before ++ feed ++ lit ".grepai/" ++ last_feed.
Proof.
  unfold is_only_grepai_gitignore_append. split.
  - destruct (strip_prefix before after) as [added|] eqn:Ea; [|done]. apply strip_prefix_Some in Ea as ->. cbv zeta.
    destruct (strip_prefix LF added) as [rest|] eqn:Er; cbn [default from_option id].
    + apply strip_prefix_Some in Er as ->. intros [H|H]%orb_true_iff; apply bool_decide_eq_true in H as ->; [exists LF, LF|exists LF, []]; split_and!; auto.
    + intros [H|H]%orb_true_iff; apply bool_decide_eq_true in H as ->; [exists [], LF|exists [], []]; split_and!; auto.
  - intros (feed & last_feed & Hf & Hl & ->). rewrite (proj2 (strip_prefix_Some before _ _) eq_refl).
    destruct Hf as [->| ->], Hl as [->| ->]; reflexivity.
Qed.
End GrepaiConfig.
