(* ===== verification/Paths.v ===== *)
(** Paths within a worktree ([crates/hzr-index/src/paths.rs]): filters and results are
    brought to one form, relative to the root, and may not leave it.

    Paths are Unix paths in UTF-8; whether a path exists, and what it is with its links
    followed, are inputs. *)

From S2P Require Import Prelude RStr.
From Stdlib Require Import ZifyBool ZifyN ZifyNat.

Module Paths.

(** ** Components *)

Inductive Component := RootDir | CurDir | ParentDir | Normal (name : rstr).

#[export] Instance Component_eq_dec : EqDecision Component.
Proof. solve_decision. Defined.

Definition SLASH : N := 47.
Definition DOT : rstr := [46].
Definition DOTS : rstr := [46; 46].

Definition is_absolute (path : rstr) : bool := match path with c :: _ => c =? SLASH | [] => false end.

Definition parts (path : rstr) : list rstr := List.filter (fun p => negb (is_empty p)) (split_char (N.eqb SLASH) path).

Definition component_of (part : rstr) : Component := if str_eqb part DOTS then ParentDir else Normal part.

(** [Path::components]: a [.] is kept in front only. *)
Definition components (path : rstr) : list Component :=
  (if is_absolute path then [RootDir]
   else match parts path with p :: _ => if str_eqb p DOT then [CurDir] else [] | [] => [] end)
  ++ map component_of (List.filter (fun p => negb (str_eqb p DOT)) (parts path)).

(** [Path::strip_prefix], component by component. *)
Fixpoint strip_components (root path : list Component) : option (list Component) :=
  match root, path with
  | [], path => Some path
  | r :: root, p :: path => if decide (r = p) then strip_components root path else None
  | _ :: _, [] => None
  end.

(** ** Normal forms *)

Inductive PathError := Escapes | Outside | Canonicalize (error : rstr).

(** [clean.push(value)]. *)
Definition push (clean value : rstr) : rstr := if is_empty clean then value else path_join clean value.

Fixpoint clean_components (clean : rstr) (l : list Component) : result PathError rstr :=
  match l with
  | [] => Ok clean
  | Normal value :: l => clean_components (push clean value) l
  | CurDir :: l => clean_components clean l
  | (ParentDir | RootDir) :: _ => Err Escapes
  end.

Definition clean_relative (l : list Component) : result PathError rstr := clean_components [] l.

(** What is there at a path: nothing, or what it is with its links followed. *)
Abbreviation Disk := (rstr -> option (result rstr rstr)) (only parsing).

Definition resolve (disk : Disk) (candidate : rstr) : result PathError rstr :=
  match disk candidate with
  | None => Ok candidate
  | Some (Ok canonical) => Ok canonical
  | Some (Err error) => Err (Canonicalize error)
  end.

Definition candidate_of (root path : rstr) : result PathError rstr :=
  if is_absolute path then Ok path else clean ← clean_relative (components path); Ok (path_join root clean).

Definition normalize_within (disk : Disk) (root path : rstr) : result PathError rstr :=
  candidate ← candidate_of root path;
  candidate ← resolve disk candidate;
  relative ← ok_or (strip_components (components root) (components candidate)) Outside;
  if is_nil relative then Ok DOT else clean_relative relative.

Definition normalize_filter (disk : Disk) (root : rstr) (filter : option rstr) : result PathError (option rstr) :=
  match filter with
  | None => Ok None
  | Some path => p ← normalize_within disk root path; Ok (Some p)
  end.

Definition normalize_result (disk : Disk) (root path : rstr) : result PathError rstr := normalize_within disk root path.

(** ** Names and their paths *)

(** A name that a component can have. *)
Definition is_name (name : rstr) : Prop := name <> [] /\ contains_char SLASH name = false /\ name <> DOT /\ name <> DOTS.

Lemma parts_join s t : parts (s ++ SLASH :: t) = parts s ++ parts t.
Proof. unfold parts. by rewrite split_char_app, List.filter_app. Qed.

Lemma parts_name name : is_name name -> parts name = [name].
Proof.
  intros (Hne & Hs & _). unfold parts. rewrite split_char_none by done. cbn [List.filter]. by destruct name.
Qed.

Lemma parts_names names : Forall is_name names -> parts (join [SLASH] names) = names.
Proof.
  induction 1 as [|n names Hn Hns IH]; [done|]. destruct names as [|m names]; [by apply parts_name|].
  change (join [SLASH] (n :: m :: names)) with (n ++ SLASH :: join [SLASH] (m :: names)). rewrite parts_join, IH, parts_name by done. done.
Qed.

Lemma parts_no_slash path p : p ∈ parts path -> p <> [] /\ contains_char SLASH p = false.
Proof.
  unfold parts. intros [Hp Hne]%list_elem_of_In%filter_In. split; [by destruct p|]. apply list_elem_of_In in Hp. revert p Hp Hne.
  induction path as [|c path IH]; intros p; cbn [split_char]; [by intros ->%list_elem_of_singleton|].
  destruct (N.eqb_spec SLASH c) as [<-|Hc].
  - intros [->|Hp]%elem_of_cons Hne; [done|]. by apply IH.
  - assert (forall w, contains_char SLASH w = false -> contains_char SLASH (c :: w) = false) as Hcons.
    { intros w Hw. unfold contains_char in *. cbn [existsb]. rewrite Hw, orb_false_r. by apply N.eqb_neq. }
    destruct (split_char (N.eqb SLASH) path) as [|v vs] eqn:E.
    + intros ->%list_elem_of_singleton _. by apply Hcons.
    + intros [->|Hp]%elem_of_cons Hne; [|by apply IH; [right|]]. apply Hcons. destruct v as [|d v]; [done|]. apply IH; [by left|done].
Qed.

Lemma filter_not_dot names : Forall is_name names -> List.filter (fun p => negb (str_eqb p DOT)) names = names.
Proof.
  induction 1 as [|n names (_ & _ & Hn & _) _ IH]; [done|]. cbn [List.filter]. unfold str_eqb at 1. rewrite bool_decide_eq_false_2 by done. cbn [negb]. by rewrite IH.
Qed.

Lemma components_of_names names : Forall is_name names -> map component_of names = map Normal names.
Proof.
  induction 1 as [|n names (_ & _ & _ & Hn) _ IH]; [done|]. cbn [map]. rewrite IH. unfold component_of, str_eqb. by rewrite bool_decide_eq_false_2.
Qed.

(** The components of a path that is made of names, under an absolute root. *)
Lemma components_under root names : is_absolute root = true -> Forall is_name names ->
  components (path_join root (join [SLASH] names)) = components root ++ map Normal names.
Proof.
  intros Ha Hn. assert (exists t, path_join root (join [SLASH] names) = root ++ t /\ parts (root ++ t) = parts root ++ names) as (t & -> & Hp).
  { unfold path_join. assert (is_empty root = false) as -> by by destruct root. cbn [orb]. destruct (ends_with (lit "/") root) eqn:E.
    - apply ends_with_true in E as [r ->]. exists (join [SLASH] names). split; [done|]. change (lit "/") with [SLASH].
      rewrite <- app_assoc. cbn [app]. rewrite !parts_join, parts_names by done. change (parts []) with (@nil rstr). by rewrite app_nil_r.
    - exists (lit "/" ++ join [SLASH] names). split; [done|]. change (lit "/") with [SLASH]. cbn [app]. by rewrite parts_join, parts_names. }
  unfold components. rewrite Hp. assert (is_absolute (root ++ t) = true) as -> by by destruct root. rewrite Ha.
  by rewrite List.filter_app, map_app, app_assoc, (filter_not_dot names), (components_of_names names).
Qed.

(** The names among the components of a path. *)
Lemma component_names path name : Normal name ∈ components path -> is_name name.
Proof.
  unfold components. rewrite elem_of_app. intros [H|H].
  - destruct (is_absolute path); [by apply list_elem_of_singleton in H|]. destruct (parts path) as [|p ps]; [by apply not_elem_of_nil in H|].
    destruct (str_eqb p DOT); [by apply list_elem_of_singleton in H|by apply not_elem_of_nil in H].
  - apply list_elem_of_fmap in H as (p & Hc & Hp). apply list_elem_of_In, filter_In in Hp as [Hp Hd]. apply list_elem_of_In in Hp.
    destruct (parts_no_slash path p Hp) as [Hne Hs]. unfold component_of in Hc. destruct (str_eqb p DOTS) eqn:E; [done|]. injection Hc as ->.
    apply bool_decide_eq_false in E. apply negb_true_iff, bool_decide_eq_false in Hd. done.
Qed.

Lemma push_names names name : Forall is_name names -> is_name name -> push (join [SLASH] names) name = join [SLASH] (names ++ [name]).
Proof.
  intros Hns Hn. unfold push. induction Hns as [|n names Hn' Hns IH]; [done|].
  destruct names as [|m names].
  - cbn [join app]. destruct Hn' as (Hne & Hs & _). assert (is_empty n = false) as -> by by destruct n. unfold path_join.
    assert (is_empty n = false) as -> by by destruct n. cbn [orb]. destruct (ends_with (lit "/") n) eqn:E; [|done].
    apply ends_with_true in E as [t ->]. rewrite contains_char_app in Hs. by rewrite orb_true_r in Hs.
  - change (join [SLASH] (n :: m :: names)) with (n ++ SLASH :: join [SLASH] (m :: names)). change ((n :: m :: names) ++ [name]) with (n :: (m :: names) ++ [name]).
    change (join [SLASH] (n :: (m :: names) ++ [name])) with (n ++ SLASH :: join [SLASH] ((m :: names) ++ [name])). rewrite <- IH.
    set (rest := join [SLASH] (m :: names)) in *.
    assert (rest <> []) as Hne. { unfold rest. apply Forall_cons in Hns as [ [Hm _] _]. by destruct names, m. }
    assert (is_empty (n ++ SLASH :: rest) = false) as -> by by destruct n. assert (is_empty rest = false) as -> by by destruct rest.
    unfold path_join. assert (is_empty (n ++ SLASH :: rest) = false) as -> by by destruct n. assert (is_empty rest = false) as -> by by destruct rest. cbn [orb].
    assert (ends_with (lit "/") (n ++ SLASH :: rest) = ends_with (lit "/") rest) as ->.
    { destruct rest as [|c rest _] using rev_ind; [done|]. change (lit "/") with [SLASH].
      destruct (ends_with [SLASH] (rest ++ [c])) eqn:E; [apply ends_with_true in E as [t E]; apply ends_with_true; exists (n ++ SLASH :: t); rewrite E; by rewrite <- app_assoc|].
      destruct (ends_with [SLASH] (n ++ SLASH :: rest ++ [c])) eqn:E2; [|done]. apply ends_with_true in E2 as [t E2].
      rewrite app_comm_cons, app_assoc in E2. apply app_inj_tail in E2 as [_ ->]. exfalso. apply not_true_iff_false in E. apply E, ends_with_true. by exists rest. }
    by destruct (ends_with (lit "/") rest); rewrite <- app_assoc.
Qed.

Lemma clean_components_names l : forall names clean, Forall is_name names -> (forall n, Normal n ∈ l -> is_name n) ->
  clean_components (join [SLASH] names) l = Ok clean ->
  exists more, Forall is_name more /\ clean = join [SLASH] (names ++ more) /\ List.filter (fun c => negb (bool_decide (c = CurDir))) l = map Normal more.
Proof.
  induction l as [|c l IH]; intros names clean Hn Hl; cbn [clean_components].
  - intros [= <-]. exists []. by rewrite app_nil_r.
  - destruct c as [| | |n]; [done| |done|].
    + intros H. destruct (IH names clean Hn (fun n Hin => Hl n (list_elem_of_further _ _ _ Hin)) H) as (more & Hm & -> & Hf). by exists more.
    + assert (is_name n) as Hname by (apply Hl; by left). rewrite push_names by done. intros H.
      destruct (IH (names ++ [n]) clean) as (more & Hm & -> & Hf); [apply Forall_app; split; [done|by constructor]| |done|].
      { intros m Hin. apply Hl. by right. }
      exists (n :: more). split; [by constructor|]. split; [by rewrite <- app_assoc|]. cbn. by rewrite Hf.
Qed.

Lemma clean_relative_names path clean : clean_relative path = Ok clean -> (forall n, Normal n ∈ path -> is_name n) ->
  exists names, Forall is_name names /\ clean = join [SLASH] names /\ List.filter (fun c => negb (bool_decide (c = CurDir))) path = map Normal names.
Proof. intros H Hn. by destruct (clean_components_names path [] clean) as (names & ? & ? & ?); [constructor|..|exists names]. Qed.

Lemma strip_components_Some root path rest : strip_components root path = Some rest <-> path = root ++ rest.
Proof.
  revert path. induction root as [|r root IH]; intros path; cbn [strip_components app]; [naive_solver|].
  destruct path as [|p path]; [naive_solver|]. case_decide; [subst; rewrite IH; naive_solver|naive_solver].
Qed.

Lemma absolute_components path : is_absolute path = true -> exists rest, components path = RootDir :: rest /\ ~ (CurDir ∈ rest).
Proof.
  intros Ha. unfold components. rewrite Ha. eexists. split; [done|]. intros (q & Hc & Hq)%list_elem_of_fmap.
  unfold component_of in Hc. by destruct (str_eqb q DOTS).
Qed.

Lemma relative_components path rest : is_absolute path = false -> components path <> RootDir :: rest.
Proof.
  intros Ha H. unfold components in H. rewrite Ha in H.
  assert (RootDir ∈ components path) as Hin by (unfold components; rewrite Ha, H; by left). unfold components in Hin. rewrite Ha in Hin.
  apply elem_of_app in Hin as [Hin|(q & Hc & Hq)%list_elem_of_fmap].
  - destruct (parts path) as [|q ps]; [by apply not_elem_of_nil in Hin|].
    destruct (str_eqb q DOT); [by apply list_elem_of_singleton in Hin|by apply not_elem_of_nil in Hin].
  - unfold component_of in Hc. by destruct (str_eqb q DOTS).
Qed.

Lemma filter_no_curdir (l : list Component) : ~ (CurDir ∈ l) -> List.filter (fun c => negb (bool_decide (c = CurDir))) l = l.
Proof.
  induction l as [|c l IH]; [done|]. intros H. cbn [List.filter]. rewrite bool_decide_eq_false_2 by (intros ->; apply H; by left). cbn [negb].
  rewrite IH; [done|]. intros Hin. apply H. by right.
Qed.

(** Whatever path is given, a normalized path is made of names alone, or is the root's
    [.]; it holds no [..] and no root, and under the root it names the very place that was given,
    with the links of an existing one followed. So a path that leads out of the worktree,
    by itself or through a link, is refused. *)
Theorem normalized_paths_stay_inside (disk : rstr -> option (result rstr rstr)) root path p :
  is_absolute root = true -> normalize_within disk root path = Ok p ->
  exists candidate place names, candidate_of root path = Ok candidate /\ resolve disk candidate = Ok place
  /\ Forall is_name names /\ p = (if is_nil names then DOT else join [SLASH] names)
  /\ components place = components root ++ map Normal names
  /\ components (path_join root (join [SLASH] names)) = components place.
Proof.
  intros Ha H. unfold normalize_within in H. inv_ok. rename x into candidate, x0 into place, x1 into rest.
  apply strip_components_Some in H1. exists candidate, place.
  destruct (absolute_components root Ha) as (rs & Hroot & _).
  assert (is_absolute place = true) as Hp.
  { destruct (is_absolute place) eqn:E; [done|]. exfalso. rewrite Hroot in H1. by eapply relative_components. }
  destruct (absolute_components place Hp) as (ps & Hplace & Hcur).
  assert (~ (CurDir ∈ rest)) as Hnc.
  { intros Hin. apply Hcur. rewrite H1, Hroot in Hplace. cbn [app] in Hplace. injection Hplace as <-. apply elem_of_app. by right. }
  assert (forall n, Normal n ∈ rest -> is_name n) as Hnames.
  { intros n Hin. apply (component_names place). rewrite H1. apply elem_of_app. by right. }
  assert (exists names, Forall is_name names /\ rest = map Normal names /\ p = if is_nil names then DOT else join [SLASH] names) as (names & Hn & -> & ->).
  { destruct rest as [|c rest]; cbn [is_nil] in H2; [exists []; by injection H2 as <-|].
    destruct (clean_relative_names (c :: rest) p H2 Hnames) as (names & Hn & -> & Hf). rewrite filter_no_curdir in Hf by done.
    exists names. split; [done|]. split; [done|]. by destruct names. }
  exists names. split_and!; try done. by rewrite components_under.
Qed.

(** What escapes is told apart: a relative path may not go up, even to come back. *)
Example going_up_is_refused :
  normalize_within (fun _ => None) (lit "/r") (lit "a/../b") = Err Escapes
  /\ normalize_within (fun _ => None) (lit "/r") (lit "/s/a") = Err Outside
  /\ normalize_within (fun _ => None) (lit "/r") (lit "./a//b/") = Ok (lit "a/b")
  /\ normalize_within (fun _ => None) (lit "/r") (lit "/r") = Ok DOT.
Proof. vm_compute. done. Qed.

Definition linked (path : rstr) : option (result rstr rstr) := if str_eqb path (lit "/r/link") then Some (Ok (lit "/r/src")) else None.

Lemma normalized_paths_stay_inside_witness : exists names, normalize_within linked (lit "/r") (lit "link") = Ok (join [SLASH] names) /\ Forall is_name names.
Proof.
  assert (normalize_within linked (lit "/r") (lit "link") = Ok (lit "src")) as E by reflexivity.
  destruct (normalized_paths_stay_inside linked (lit "/r") (lit "link") (lit "src") eq_refl E) as (candidate & place & names & _ & _ & Hn & Hp & _).
  exists names. split; [|exact Hn]. destruct names as [|n names]; [discriminate Hp|]. cbn [is_nil] in Hp. rewrite E. by rewrite Hp.
Defined.
End Paths.
