(* ===== verification/WriteCore.v ===== *)
(** Atomic file writes ([fork-core/rtk/src/write_core.rs]): a file is replaced by
    a rename, after comparing it with what the writer expects, and synced.

    [write_bytes] takes what the calls of the file system answer ([WriteIo]) and
    gives the changes it makes, in order, with its result; [Disk] says what those
    changes do and what a crash may leave of them.  An error is the text that is
    displayed.  The hash function of the xxhash crate is the parameter [xxh3]. *)

From S2P Require Import Prelude RStr ReadWindow.
From Stdlib Require Import ZifyBool ZifyN ZifyNat.

Module WriteCore.
Import ReadWindow.

Inductive DurabilityMode := Durable | Fast.

Record FileSnapshot := { len : option N; modified : option N; hash : option N }.

Record CasOptions := { expected_len : option N; expected_modified : option N; expected_hash : option N }.

Definition from_snapshot (snapshot : FileSnapshot) : CasOptions :=
  {| expected_len := len snapshot; expected_modified := modified snapshot; expected_hash := hash snapshot |}.

Definition has_expectations (self : CasOptions) : bool :=
  bool_decide (is_Some (expected_len self)) || bool_decide (is_Some (expected_modified self))
  || bool_decide (is_Some (expected_hash self)).

Inductive CasError := LenMismatch (expected actual : N) | ModifiedChanged | HashMismatch.

Definition cas_error_text (e : CasError) : rstr :=
  match e with
  | LenMismatch expected actual =>
      lit "CAS: length mismatch (expected " ++ dec expected ++ lit ", got " ++ dec actual ++ lit ")"
  | ModifiedChanged => lit "CAS: modification time changed"
  | HashMismatch => lit "CAS: content hash changed"
  end.

(** An [anyhow::Error]: one that [downcast_ref::<CasError>] finds, or its text. *)
Inductive WriteError := Cas (e : CasError) | Message (text : rstr).

Definition error_text (e : WriteError) : rstr := match e with Cas e => cas_error_text e | Message text => text end.

Record WriteOptions := {
  durability : DurabilityMode;
  buffer_size : N;
  preserve_permissions : bool;
  idempotent_skip : bool;
  compare_hash_when_same_size : bool;
  cas : option CasOptions;
}.

Definition durable : WriteOptions :=
  {| durability := Durable; buffer_size := 64 * 1024; preserve_permissions := true; idempotent_skip := true;
     compare_hash_when_same_size := false; cas := None |}.

Definition fast : WriteOptions :=
  {| durability := Fast; buffer_size := 64 * 1024; preserve_permissions := true; idempotent_skip := true;
     compare_hash_when_same_size := false; cas := None |}.

(** Without the time elapsed. *)
Record WriteStats := {
  bytes_written : N;
  fsync_count : N;
  rename_count : N;
  skipped_unchanged : bool;
  stats_durability : DurabilityMode;
}.

Definition skipped (d : DurabilityMode) : WriteStats :=
  {| bytes_written := 0; fsync_count := 0; rename_count := 0; skipped_unchanged := true; stats_durability := d |}.

(** ** What the file system answers *)

(** [modified()] fails where the platform keeps no such time. *)
Record Metadata := { m_len : N; m_modified : option N; m_permissions : N }.

(** [fs::metadata]: [None] when there is no such file; an error is only shown as
    a failed [stat]. *)
Definition Stat : Type := result unit (option Metadata).

(** What the calls answer, in the order of the calls; a file that cannot be opened
    answers an error to its first read.  [write_fails] and [flush_fails] hold the
    bytes written before the failure. *)
Record WriteIo := {
  parent : option rstr;
  stat : Stat;
  cas_reads : list Read;
  hash_reads : list Read;
  compare_reads : list Read;
  create_dir_fails : bool;
  temp_fails : bool;
  new_file_mode : N;
  write_fails : option nat;
  flush_fails : option nat;
  permissions_fail : bool;
  sync_fails : bool;
  persist_fails : bool;
  sync_dir_fails : bool;
}.

(** The changes a write makes. *)
Inductive Effect :=
| CreateDir
| CreateTemp (mode : N)
| WriteTemp (bytes : list byte)
| SetPermissions (mode : N)
| SyncTemp
| Persist
| SyncDir
| RemoveTemp.

(** A computation that makes changes and can fail. *)
Definition W (A : Type) : Type := (list Effect * result WriteError A)%type.

Definition wret {A} (a : A) : W A := ([], Ok a).
Definition wlift {A} (r : result WriteError A) : W A := ([], r).
Definition wbind {A B} (m : W A) (k : A -> W B) : W B :=
  match m with
  | (es, Ok a) => let '(es', r) := k a in (es ++ es', r)
  | (es, Err e) => (es, Err e)
  end.
Notation "x ←w m ; k" := (wbind m (fun x => k)) (at level 20, m at level 100, k at level 200, only parsing).

(** A call: its change if it succeeds; if it fails, its error, and the temporary
    file is dropped if there is one. *)
Definition call (effect : Effect) (fails : bool) (text : rstr) : W unit :=
  if fails then ([], Err (Message text)) else ([effect], Ok tt).
Definition call_temp (effect : Effect) (fails : bool) (text : rstr) : W unit :=
  if fails then ([RemoveTemp], Err (Message text)) else ([effect], Ok tt).

Section WriteCore.
Context (xxh3 : list byte -> N) (shown : rstr).

Definition read_error : WriteError := Message (lit "Failed to read existing file " ++ shown).

(** The loop of [hash_file]; the hasher is what it was fed. *)
Fixpoint hash_loop (chunks : list Read) (hashed : list byte) : result WriteError N :=
  match chunks with
  | [] | Ok [] :: _ => Ok (xxh3 hashed)
  | Err _ :: _ => Err read_error
  | Ok bytes :: chunks => hash_loop chunks (hashed ++ bytes)
  end.

Definition hash_file (chunks : list Read) : result WriteError N := hash_loop chunks [].

Definition hash_bytes (content : list byte) : N := xxh3 content.

(** The loop of [file_equals_bytes]. *)
Fixpoint equals_loop (chunks : list Read) (offset : nat) (expected : list byte) : result WriteError bool :=
  match chunks with
  | [] | Ok [] :: _ => Ok (offset =? length expected)%nat
  | Err _ :: _ => Err read_error
  | Ok bytes :: chunks =>
      let n := length bytes in
      if (length expected <? offset + n)%nat then Ok false
      else if negb (str_eqb (take n (drop offset expected)) bytes) then Ok false
      else equals_loop chunks (offset + n) expected
  end.

Definition file_equals_bytes (chunks : list Read) (expected : list byte) : result WriteError bool := equals_loop chunks 0 expected.

Definition is_unchanged (io : WriteIo) (meta : Metadata) (content : list byte) (compare_hash : bool) : result WriteError bool :=
  if negb (m_len meta =? N.of_nat (length content)) then Ok false
  else
    same ← (if compare_hash then existing ← hash_file (hash_reads io); Ok (existing =? hash_bytes content) else Ok true);
    if negb (same : bool) then Ok false else file_equals_bytes (compare_reads io) content.

Definition verify_cas (io : WriteIo) (meta : option Metadata) (cas : CasOptions) : result WriteError unit :=
  match meta with
  | None =>
      if has_expectations cas then Err (Message (lit "CAS mismatch for " ++ shown ++ lit ": target does not exist")) else Ok tt
  | Some meta =>
      _ ← match expected_len cas with
          | Some expected => guard_err (negb (m_len meta =? expected)) (Cas (LenMismatch expected (m_len meta)))
          | None => Ok tt
          end;
      _ ← match expected_modified cas with
          | Some expected =>
              actual ← ok_or (m_modified meta)
                (Message (lit "Failed to read modification time for " ++ shown ++ lit " during CAS"));
              guard_err (negb (actual =? expected)) (Cas ModifiedChanged)
          | None => Ok tt
          end;
      match expected_hash cas with
      | Some expected => actual ← hash_file (cas_reads io); guard_err (negb (actual =? expected)) (Cas HashMismatch)
      | None => Ok tt
      end
  end.

Definition snapshot_from_content (stat : Stat) (content : list byte) (include_hash : bool)
    : result WriteError (option FileSnapshot) :=
  match stat with
  | Err _ => Err (Message (lit "Failed to stat " ++ shown))
  | Ok None => Ok None
  | Ok (Some meta) =>
      Ok (Some {| len := Some (m_len meta); modified := m_modified meta;
                  hash := if include_hash then Some (hash_bytes content) else None |})
  end.

Definition snapshot_file (stat : Stat) (chunks : list Read) (include_hash : bool) : result WriteError (option FileSnapshot) :=
  match stat with
  | Err _ => Err (Message (lit "Failed to stat " ++ shown))
  | Ok None => Ok None
  | Ok (Some meta) =>
      h ← (if include_hash then h ← hash_file chunks; Ok (Some h) else Ok None);
      Ok (Some {| len := Some (m_len meta); modified := m_modified meta; hash := h |})
  end.

(** The changes once nothing speaks against the write. *)
Definition replace_file (io : WriteIo) (options : WriteOptions) (existing : option Metadata) (dir : rstr) (content : list byte)
    : W WriteStats :=
  let synced := match durability options with Durable => true | Fast => false end in
  _ ←w (if negb (bool_decide (is_Some existing)) && negb (is_empty dir)
        then call CreateDir (create_dir_fails io) (lit "Failed to create parent directory for " ++ shown) else wret tt);
  _ ←w call (CreateTemp (if bool_decide (is_Some existing) then 384 else new_file_mode io)) (temp_fails io)
         (lit "Failed to create temp file in " ++ dir);
  _ ←w match write_fails io with
       | Some n => ([WriteTemp (take n content); RemoveTemp],
           Err (Message (lit "Failed to write " ++ dec (N.of_nat (length content)) ++ lit " bytes to temp file")))
       | None =>
           match flush_fails io with
           | Some n => ([WriteTemp (take n content); RemoveTemp], Err (Message (lit "Failed to flush temp file")))
           | None => ([WriteTemp content], Ok tt)
           end
       end;
  _ ←w match existing with
       | Some meta =>
           if preserve_permissions options
           then call_temp (SetPermissions (m_permissions meta)) (permissions_fail io)
                  (lit "Failed to preserve permissions while writing " ++ shown)
           else wret tt
       | None => wret tt
       end;
  _ ←w (if synced then call_temp SyncTemp (sync_fails io) (lit "Failed to sync temp data for " ++ shown) else wret tt);
  _ ←w call_temp Persist (persist_fails io) (lit "Failed to atomically replace " ++ shown);
  _ ←w (if synced then call SyncDir (sync_dir_fails io) (lit "Failed to sync parent dir " ++ dir) else wret tt);
  wret {| bytes_written := N.of_nat (length content); fsync_count := if synced then 2 else 0; rename_count := 1;
          skipped_unchanged := false; stats_durability := durability options |}.

Definition write_bytes (io : WriteIo) (options : WriteOptions) (content : list byte) : W WriteStats :=
  dir ←w wlift (ok_or (parent io) (Message (lit "Cannot write to " ++ shown ++ lit ": path has no parent directory")));
  let dir := if is_empty dir then lit "." else dir in
  existing ←w wlift (match stat io with Ok meta => Ok meta | Err _ => Err (Message (lit "Failed to stat " ++ shown)) end);
  _ ←w wlift (match cas options with Some cas => verify_cas io existing cas | None => Ok tt end);
  same ←w wlift (match existing with
                 | Some meta =>
                     if idempotent_skip options then is_unchanged io meta content (compare_hash_when_same_size options) else Ok false
                 | None => Ok false
                 end);
  if (same : bool) then wret (skipped (durability options)) else replace_file io options existing dir content.

Definition write_str (io : WriteIo) (options : WriteOptions) (content : rstr) : W WriteStats :=
  write_bytes io options (utf8 content).
End WriteCore.

(** ** The file system

    An inode and whether its data is synced; the file that the name stands for,
    those it may stand for after a crash, the latest first, and the temporary
    file.  The name is the directory entry of the path as given: a link there is
    replaced by the rename and not followed (WriteLock tells entries and links apart).
    The directories made for a new file count as being on the disk; only the one the
    file is in is synced. *)

Record Inode := { bytes : list byte; mode : N; synced : bool }.

Record Disk := { named : option Inode; after_crash : list (option Inode); temp : option Inode }.

Definition apply (e : Effect) (d : Disk) : Disk :=
  let with_temp t := {| named := named d; after_crash := after_crash d; temp := t |} in
  match e, temp d with
  | CreateDir, _ => d
  | CreateTemp m, _ => with_temp (Some {| bytes := []; mode := m; synced := false |})
  | WriteTemp b, Some i => with_temp (Some {| bytes := bytes i ++ b; mode := mode i; synced := false |})
  | SetPermissions m, Some i => with_temp (Some {| bytes := bytes i; mode := m; synced := synced i |})
  | SyncTemp, Some i => with_temp (Some {| bytes := bytes i; mode := mode i; synced := true |})
  | Persist, Some i => {| named := Some i; after_crash := Some i :: after_crash d; temp := None |}
  | SyncDir, _ => {| named := named d; after_crash := [named d]; temp := temp d |}
  | RemoveTemp, _ => with_temp None
  | _, None => d
  end.

Definition run (es : list Effect) (d : Disk) : Disk := fold_left (fun d e => apply e d) es d.

(** What is read under the name. *)
Definition content_of (d : Disk) : option (list byte) := bytes <$> named d.

(** A crash leaves one of the files the name may stand for; data that was not
    synced may be anything. *)
Definition survives (d : Disk) (c : option (list byte)) : Prop :=
  exists i, i ∈ after_crash d /\
    match i with Some i => exists b, c = Some b /\ (synced i = true -> b = bytes i) | None => c = None end.

(** Nothing is under way. *)
Definition settled (d : Disk) : Prop :=
  after_crash d = [named d] /\ match named d with Some i => synced i = true | None => True end /\ temp d = None.

(** [P] holds before, between and after the changes. *)
Fixpoint always (P : Disk -> Prop) (es : list Effect) (d : Disk) : Prop :=
  P d /\ match es with [] => True | e :: es => always P es (apply e d) end.

Lemma always_prefix P es d : always P es d -> forall k, P (run (take k es) d).
Proof.
  revert d. induction es as [|e es IH]; intros d [H Hes] k; [by rewrite take_nil|].
  destruct k as [|k]; [done|]. exact (IH _ Hes k).
Qed.

(** The file is the old one, or the new one complete. *)
Definition old_or_new (d0 : Disk) (content : list byte) (d : Disk) : Prop :=
  content_of d = content_of d0 \/ content_of d = Some content.

Definition crash_safe (d0 : Disk) (content : list byte) (d : Disk) : Prop :=
  forall c, survives d c -> c = content_of d0 \/ c = Some content.

Lemma settled_survives d c : settled d -> survives d c -> c = content_of d.
Proof.
  intros (Ha & Hs & _) (i & Hi & Hc). rewrite Ha in Hi. apply list_elem_of_singleton in Hi as ->. unfold content_of.
  destruct (named d) as [i|]; [|done]. destruct Hc as (b & -> & Hb). cbn. by rewrite Hb.
Qed.

(** What is known of a write that was not skipped: [Some] temporary file with the
    bytes written, the mode and whether they are synced. *)
Section Steps.
Context (d0 : Disk) (content : list byte) (strong : bool).
Context (Hd0 : settled d0).

Definition fine (d : Disk) : Prop := old_or_new d0 content d /\ (strong = true -> crash_safe d0 content d).

(** Before the rename only the temporary file changes. *)
Definition untouched (d : Disk) : Prop := named d = named d0 /\ after_crash d = after_crash d0.

Lemma untouched_fine d : untouched d -> fine d.
Proof.
  intros [Hn Ha]. split; [left; unfold content_of; by rewrite Hn|]. intros _ c (i & Hi & Hc). left.
  apply (settled_survives d0 c Hd0). exists i. by rewrite Ha in Hi.
Qed.

Lemma persist_fine d m s : untouched d -> temp d = Some {| bytes := content; mode := m; synced := s |} -> (strong = true -> s = true) ->
  fine (apply Persist d).
Proof.
  intros [Hn Ha] Ht Hs. unfold apply. rewrite Ht. split; [by right|]. intros Hstrong c (i & Hi & Hc). cbn in Hi. rewrite (Hs Hstrong) in Hi.
  apply elem_of_cons in Hi as [->|Hi].
  - destruct Hc as (b & -> & Hb). right. by rewrite Hb.
  - left. apply (settled_survives d0 c Hd0). exists i. by rewrite Ha in Hi.
Qed.
End Steps.

(** *** The shape of a write *)

(** A change before the rename. *)
Definition before_rename (e : Effect) : bool := match e with Persist | SyncDir => false | _ => true end.

Lemma before_rename_untouched d0 es : forallb before_rename es = true -> forall d, untouched d0 d ->
  always (untouched d0) es d /\ untouched d0 (run es d).
Proof.
  induction es as [|e es IH]; intros H d Hd; [by split|]. cbn [forallb] in H. apply andb_true_iff in H as [He Hes].
  assert (untouched d0 (apply e d)) as Hd' by (destruct Hd as [Hn Ha]; unfold untouched, apply; destruct e; try done; by destruct (temp d)).
  destruct (IH Hes _ Hd') as [Ha Hr]. split; [by split | done].
Qed.

Lemma always_app P a b d : always P a d -> always P b (run a d) -> always P (a ++ b) d.
Proof.
  revert d. induction a as [|e a IH]; intros d; cbn; [done|]. intros [Hd Ha] Hb. split; [done|]. by apply IH.
Qed.

Lemma always_impl (P Q : Disk -> Prop) es : (forall d, P d -> Q d) -> forall d, always P es d -> always Q es d.
Proof. intros HPQ. induction es as [|e es IH]; intros d H; cbn in *; [split; [by apply HPQ, H | done]|].
  destruct H as [Hd Hes]. split; [by apply HPQ | by apply IH].
Qed.

Definition is_durable (o : WriteOptions) : bool := match durability o with Durable => true | Fast => false end.

(** The mode that a written file ends up with. *)
Definition final_mode (io : WriteIo) (o : WriteOptions) (existing : option Metadata) : N :=
  match existing with
  | Some meta => if preserve_permissions o then m_permissions meta else 384
  | None => new_file_mode io
  end.

Definition written_stats (o : WriteOptions) (content : list byte) : WriteStats :=
  {| bytes_written := N.of_nat (length content); fsync_count := if is_durable o then 2 else 0; rename_count := 1;
     skipped_unchanged := false; stats_durability := durability o |}.

Lemma replace_file_shape shown io o existing dir content : exists pre post r,
  replace_file shown io o existing dir content = (pre ++ post, r) /\ forallb before_rename pre = true /\
  match post with
  | [] => (exists text, r = Err (Message text)) /\ forall d, temp d = None -> temp (run pre d) = None
  | _ =>
      (forall d, temp (run pre d) = Some {| bytes := content; mode := final_mode io o existing; synced := is_durable o |}) /\
      ((r = Ok (written_stats o content) /\ post = if is_durable o then [Persist; SyncDir] else [Persist]) \/
       (exists text, r = Err (Message text)) /\ post = [Persist] /\ is_durable o = true /\ sync_dir_fails io = true)
  end.
Proof.
  unfold replace_file, call, call_temp, wret, written_stats, final_mode, is_durable.
  destruct (durability o), existing as [meta|];
  [change (bool_decide (is_Some (Some meta))) with true | change (bool_decide (is_Some (@None Metadata))) with false
  |change (bool_decide (is_Some (Some meta))) with true | change (bool_decide (is_Some (@None Metadata))) with false];
  cbn [negb andb];
  repeat match goal with
    | |- context [if ?b then _ else _] => destruct b eqn:?; cbn [wbind app]
    | |- context [match ?o with Some _ => _ | None => _ end] => destruct o eqn:?; cbn [wbind app]
    end;
  match goal with |- exists pre post r, (?es, ?x) = _ /\ _ =>
    exists (List.filter before_rename es), (List.filter (fun e => negb (before_rename e)) es), x; cbn [List.filter before_rename negb forallb app]
  end;
  (split; [reflexivity|]; split; [reflexivity|]);
  first [ split; [eauto|]; intros d Hd; unfold run; cbn; by rewrite ?Hd
        | split; [intros d; reflexivity | first [left; split; reflexivity | right; eauto] ] ].
Qed.

(** *** Atomicity *)

(** A change that did not get to the rename, or did. *)
Lemma replace_file_runs shown io o existing dir content d0 es r :
  settled d0 -> replace_file shown io o existing dir content = (es, r) ->
  always (fine d0 content (is_durable o)) es d0 /\ temp (run es d0) = None /\
  match r with
  | Ok stats =>
      stats = written_stats o content /\
      named (run es d0) = Some {| bytes := content; mode := final_mode io o existing; synced := is_durable o |} /\
      (is_durable o = true -> settled (run es d0))
  | Err _ => named (run es d0) = named d0 \/
      (is_durable o = true /\ sync_dir_fails io = true /\ content_of (run es d0) = Some content)
  end.
Proof.
  intros Hd0 H. destruct (replace_file_shape shown io o existing dir content) as (pre & post & r' & Heq & Hpre & Hpost).
  rewrite H in Heq. injection Heq as -> ->.
  destruct (before_rename_untouched d0 pre Hpre d0 ltac:(done)) as [Ha Hu].
  assert (always (fine d0 content (is_durable o)) pre d0) as Hfine
    by (eapply always_impl; [|exact Ha]; intros d; by apply untouched_fine).
  destruct post as [|e post].
  { destruct Hpost as [ [text ->] Ht]. rewrite app_nil_r. split_and!; [done | by apply Ht, Hd0 | left; by destruct Hu]. }
  destruct Hpost as [Ht Hr]. specialize (Ht d0).
  pose proof (persist_fine d0 content (is_durable o) Hd0 (run pre d0) _ _ Hu Ht ltac:(done)) as Hp.
  assert (e = Persist /\ (post = [] \/ post = [SyncDir])) as [-> Hsync].
  { destruct Hr as [ [_ Hr]|(_ & Hr & _)]; [destruct (is_durable o)|]; injection Hr as -> ->; auto. }
  set (i := {| bytes := content; mode := final_mode io o existing; synced := is_durable o |}) in *.
  assert (apply Persist (run pre d0) = {| named := Some i; after_crash := Some i :: after_crash (run pre d0); temp := None |}) as Hap
    by (unfold apply; by rewrite Ht).
  rewrite Hap in Hp. assert (run (pre ++ Persist :: post) d0 = run post (apply Persist (run pre d0))) as Hrun by (unfold run; by rewrite fold_left_app).
  rewrite Hrun, Hap.
  assert (always (fine d0 content (is_durable o)) post {| named := Some i; after_crash := Some i :: after_crash (run pre d0); temp := None |}) as Hpost.
  { destruct Hsync as [->| ->]; [done|]. split; [done|]. split; [|done]. split; [by right|]. intros Hd c (j & Hj & Hc). cbn in Hj.
    apply list_elem_of_singleton in Hj as ->. destruct Hc as (b & -> & Hb). right. cbn in Hb. by rewrite Hb. }
  split; [apply always_app; [done | split; [by apply untouched_fine | by rewrite Hap] ]|].
  destruct Hr as [ [-> Hr]|([text ->] & Hr & Hd & Hs)].
  - assert (post = if is_durable o then [SyncDir] else []) as Hr' by (destruct (is_durable o); by injection Hr). clear Hr. rename Hr' into Hr.
    split_and!; [by destruct Hsync as [->| ->] | done | by destruct Hsync as [->| ->] |]. intros Hd. rewrite Hd in Hr. rewrite Hr.
    split_and!; [done | by cbn | done].
  - injection Hr as ->. split; [done|]. by right.
Qed.

(** C14: A write is atomic, whatever the file system answers and wherever it stops.
    Every reader finds the old file or the new one, complete; after a crash at any
    moment the same holds if the write is durable.  A write that succeeds leaves
    the new file with the mode it is to have, on disk if it is durable; one that
    fails leaves the old file, unless only the directory could not be synced; and
    no temporary file stays behind. *)
Theorem writes_are_atomic xxh3 shown io o content d0 es r :
  settled d0 -> write_bytes xxh3 shown io o content = (es, r) ->
  (forall k, old_or_new d0 content (run (take k es) d0)) /\
  (durability o = Durable -> forall k, crash_safe d0 content (run (take k es) d0)) /\
  temp (run es d0) = None /\
  match r with
  | Ok stats =>
      (skipped_unchanged stats = true /\ es = []) \/
      (exists existing, stat io = Ok existing /\
        named (run es d0) = Some {| bytes := content; mode := final_mode io o existing; synced := is_durable o |} /\
        (durability o = Durable -> settled (run es d0)))
  | Err _ => content_of (run es d0) = content_of d0 \/ (durability o = Durable /\ sync_dir_fails io = true)
  end.
Proof.
  intros Hd0. unfold write_bytes, wlift.
  assert (forall (e : result WriteError WriteStats),
    match e with Ok stats => skipped_unchanged stats = true | Err _ => True end -> ([], e) = (es, r) ->
    always (fine d0 content (is_durable o)) es d0 /\ temp (run es d0) = None /\
    match r with Ok stats => skipped_unchanged stats = true /\ es = [] | Err _ => content_of (run es d0) = content_of d0 end) as Hquiet.
  { intros e He [= <- <-]. split_and!; [split; [by apply untouched_fine | done] | by apply Hd0 | by destruct e]. }
  assert (is_durable o = true <-> durability o = Durable) as Hdur by (unfold is_durable; by destruct (durability o)).
  assert (forall P, always (fine d0 content (is_durable o)) es d0 /\ P -> 
    (forall k, old_or_new d0 content (run (take k es) d0)) /\
    (durability o = Durable -> forall k, crash_safe d0 content (run (take k es) d0)) /\ P) as Hall.
  { intros P [Ha HP]. split_and!; [| | done].
    - intros k. by destruct (always_prefix _ _ _ Ha k).
    - intros Hd k. destruct (always_prefix _ _ _ Ha k) as [_ Hc]. by apply Hc, Hdur. }
  intros H. apply Hall. clear Hall. revert H.
  destruct (parent io) as [dir|]; cbn [ok_or wbind app]; [|intros H; destruct (Hquiet (Err _) I H) as (? & ? & ?); destruct r; naive_solver].
  destruct (stat io) as [existing|]; cbn [wbind app]; [|intros H; destruct (Hquiet (Err _) I H) as (? & ? & ?); destruct r; naive_solver].
  destruct (match cas o with Some _ => _ | None => _ end) as [ []|]; cbn [wbind app];
    [|intros H; destruct (Hquiet (Err _) I H) as (? & ? & ?); destruct r; naive_solver].
  destruct (match existing with Some _ => _ | None => _ end) as [ [] |]; cbn [wbind app];
    [intros H; destruct (Hquiet (Ok (skipped (durability o))) eq_refl H) as (? & ? & ?); destruct r; naive_solver| |
     intros H; destruct (Hquiet (Err _) I H) as (? & ? & ?); destruct r; naive_solver].
  destruct (replace_file _ _ _ _ _ _) as [es' r'] eqn:E. intros [= <- <-].
  destruct (replace_file_runs _ _ _ _ _ _ d0 es' r' Hd0 E) as (Ha & Ht & Hr). split_and!; [done..|].
  destruct r' as [stats|e].
  - right. exists existing. destruct Hr as (_ & Hn & Hs). split_and!; [done | done |]. intros Hd. by apply Hs, Hdur.
  - unfold content_of in *. destruct Hr as [->|(Hd & Hs & _)]; [by left|]. right. split; [by apply Hdur | done].
Qed.

(** *** What a write has checked *)

Lemma hash_loop_reads xxh3 shown reads : forall hashed all, read_to_end reads = Ok all -> hash_loop xxh3 shown reads hashed = Ok (xxh3 (hashed ++ all)).
Proof.
  induction reads as [|[ [|b bs]|e] reads IH]; intros hashed all; cbn [read_to_end hash_loop]; try (by intros [= <-]; rewrite app_nil_r).
  intros H. apply bind_Ok in H as (rest & H & H'). injection H' as <-. rewrite (IH _ _ H), app_comm_cons, app_assoc. done.
Qed.

Lemma hash_file_reads xxh3 shown reads all : read_to_end reads = Ok all -> hash_file xxh3 shown reads = Ok (xxh3 all).
Proof. apply hash_loop_reads. Qed.

Lemma equals_loop_reads shown expected reads : forall offset all, (offset <= length expected)%nat -> read_to_end reads = Ok all ->
  equals_loop shown reads offset expected = Ok (str_eqb all (drop offset expected)).
Proof.
  induction reads as [|[ [|b bs]|e] reads IH]; intros offset all Ho; cbn [read_to_end equals_loop].
  1, 2: intros [= <-]; f_equal; unfold str_eqb; destruct (Nat.eqb_spec offset (length expected)) as [E|E];
    [rewrite bool_decide_eq_true_2; [done | by rewrite drop_ge by lia]
    |rewrite bool_decide_eq_false_2; [done|]; intros H; apply (f_equal length) in H; rewrite length_drop in H; cbn in H; lia].
  2: done.
  remember (b :: bs) as chunk eqn:Hc. intros H. apply bind_Ok in H as (rest & H & H'). injection H' as <-.
  assert (forall x, chunk ++ rest = x -> take (length chunk) x = chunk /\ drop (length chunk) x = rest) as Hcut
    by (intros x <-; by rewrite take_app_length, drop_app_length).
  destruct (Nat.ltb_spec (length expected) (offset + length chunk)) as [Hl|Hl].
  { f_equal. symmetry. apply bool_decide_eq_false_2. intros E. apply (f_equal length) in E. rewrite length_app, length_drop in E. lia. }
  unfold str_eqb at 1. case_bool_decide as E; cbn [negb].
  - rewrite (IH _ rest) by (done || lia). f_equal. unfold str_eqb. apply bool_decide_ext.
    rewrite <- (take_drop (length chunk) (drop offset expected)), E, drop_drop. split; [by intros -> | by intros ?%app_inv_head].
  - f_equal. symmetry. apply bool_decide_eq_false_2. intros H'. by destruct (Hcut _ H').
Qed.

(** Comparing a file with a text, in whatever pieces it is read. *)
Lemma file_equals_reads shown reads all expected : read_to_end reads = Ok all ->
  file_equals_bytes shown reads expected = Ok (str_eqb all expected).
Proof. intros H. unfold file_equals_bytes. rewrite (equals_loop_reads _ _ _ _ all) by (done || lia). by rewrite drop_0. Qed.

Lemma write_verified xxh3 shown io o content es r c : write_bytes xxh3 shown io o content = (es, r) -> (exists a, r = Ok a) \/ es <> [] ->
  cas o = Some c -> exists existing, stat io = Ok existing /\ verify_cas xxh3 shown io existing c = Ok tt.
Proof.
  unfold write_bytes, wlift. destruct (parent io) as [dir|]; cbn [ok_or wbind app]; [|by intros [= <- <-] [ [? [=] ]|] ].
  destruct (stat io) as [existing|]; cbn [wbind app]; [|by intros [= <- <-] [ [? [=] ]|] ].
  intros H Hr Hc. rewrite Hc in H. exists existing. split; [done|].
  destruct (verify_cas xxh3 shown io existing c) as [ []|]; [done|]. cbn [wbind app] in H. injection H as <- <-. by destruct Hr as [ [? [=] ]|].
Qed.

(** What a write does, seen from outside: changes before the rename only, or all of
    them up to the rename. *)
Definition write_does (o : WriteOptions) (content : list byte) (es : list Effect) (r : result WriteError WriteStats) : Prop :=
  exists pre post, es = pre ++ post /\ forallb before_rename pre = true /\
  match post with
  | [] => match r with Ok stats => idempotent_skip o = true | Err _ => True end
  | _ => exists m s, (forall d, temp (run pre d) = Some {| bytes := content; mode := m; synced := s |}) /\
      (post = [Persist] \/ post = [Persist; SyncDir]) /\ forall e, r <> Err (Cas e)
  end.

Lemma write_bytes_does xxh3 shown io o content es r : write_bytes xxh3 shown io o content = (es, r) -> write_does o content es r.
Proof.
  unfold write_bytes, wlift.
  assert (forall (e : result WriteError WriteStats), match e with Ok _ => idempotent_skip o = true | Err _ => True end -> ([], e) = (es, r) ->
    write_does o content es r) as Hquiet by (intros e He [= <- <-]; exists [], []; split_and!; done).
  destruct (parent io) as [dir|]; cbn [ok_or wbind app]; [|by apply (Hquiet (Err _))].
  destruct (stat io) as [existing|]; cbn [wbind app]; [|by apply (Hquiet (Err _))].
  destruct (match cas o with Some _ => _ | None => _ end) as [ []|]; cbn [wbind app]; [|by apply (Hquiet (Err _))].
  destruct (match existing with Some _ => _ | None => _ end) as [ [] |] eqn:Es; cbn [wbind app]; [| |by apply (Hquiet (Err _))].
  - apply (Hquiet (Ok _)). destruct existing; [|done]. by destruct (idempotent_skip o).
  - destruct (replace_file_shape shown io o existing (if is_empty dir then lit "." else dir) content) as (pre & post & r' & -> & Hpre & Hpost).
    intros [= <- <-]. exists pre, post. split_and!; [done..|]. destruct post as [|e post]; [by destruct Hpost as [ [? ->] _]|].
    destruct Hpost as [Ht Hr]. exists (final_mode io o existing), (is_durable o). split; [done|].
    destruct Hr as [ [-> ->]|([text ->] & -> & _)]; [|by auto]. split; [destruct (is_durable o); auto | done].
Qed.

(** A durable write over a file, and one that fails at its rename. *)
Definition sample_disk : Disk :=
  let i := {| bytes := utf8 (lit "old"); mode := 420; synced := true |} in {| named := Some i; after_crash := [Some i]; temp := None |}.

Definition sample_io (no_rename : bool) : WriteIo :=
  {| parent := Some (lit "/a"); stat := Ok (Some {| m_len := 3; m_modified := Some 7; m_permissions := 420 |}); cas_reads := [];
     hash_reads := []; compare_reads := [Ok (utf8 (lit "ol")); Ok (utf8 (lit "d"))]; create_dir_fails := false; temp_fails := false;
     new_file_mode := 420; write_fails := None; flush_fails := None; permissions_fail := false; sync_fails := false;
     persist_fails := no_rename; sync_dir_fails := false |}.

Lemma writes_are_atomic_witness :
  let w b := write_bytes (fun _ => 0) (lit "/a/f") (sample_io b) durable (utf8 (lit "new")) in
  (w false).1 = [CreateTemp 384; WriteTemp (utf8 (lit "new")); SetPermissions 420; SyncTemp; Persist; SyncDir] /\
  (forall k, crash_safe sample_disk (utf8 (lit "new")) (run (take k (w false).1) sample_disk)) /\
  content_of (run (w false).1 sample_disk) = Some (utf8 (lit "new")) /\
  temp (run (w true).1 sample_disk) = None /\ content_of (run (w true).1 sample_disk) = Some (utf8 (lit "old")).
Proof.
  cbv zeta. split; [vm_compute; reflexivity|]. split_and!.
  - exact (proj1 (proj2 (writes_are_atomic (fun _ => 0) (lit "/a/f") (sample_io false) durable (utf8 (lit "new")) sample_disk _ _
             ltac:(split_and!; reflexivity) ltac:(vm_compute; reflexivity))) eq_refl).
  - vm_compute. reflexivity.
  - exact (proj1 (proj2 (proj2 (writes_are_atomic (fun _ => 0) (lit "/a/f") (sample_io true) durable (utf8 (lit "new")) sample_disk _ _
             ltac:(split_and!; reflexivity) ltac:(vm_compute; reflexivity))))).
  - vm_compute. reflexivity.
Defined.
End WriteCore.
