(* ===== verification/WriteCmd.v ===== *)
(** Editing files ([fork-core/rtk/src/write_cmd.rs]): replacing text, setting keys
    and creating files, one at a time or in a batch, under a lock and with a
    comparison before the write.

    What other processes and the file system do is an argument of every attempt
    ([AttemptIo]).  Parameters stand for the regex crate ([find_flex], the search
    for an expression that is given by its literal parts), for the files an
    argument may name ([read_ref]), for [{:?}] on strings ([debug]) and for the
    JSON library; setting a key of a TOML document, which works on the documents
    of [toml_edit], is the parameter [set_toml].  What is printed and tracked is
    left out. *)

From S2P Require Import Prelude RStr ReadWindow WriteCore Json.
From Stdlib Require Import ZifyBool ZifyN ZifyNat.

Module WriteCmd.
Import WriteCore.

Inductive ConfigFormat := FormatAuto | FormatJson | FormatToml.
Inductive ConfigValueType := TypeAuto | TypeString | TypeNumber | TypeBool | TypeNull | TypeJson.
Inductive OutputMode := Quiet | Concise | JsonOutput.

#[export] Instance ConfigFormat_eq_dec : EqDecision ConfigFormat.
Proof. solve_decision. Defined.

Record ConcurrencyOpts := { use_cas_flag : bool; max_retries : nat }.

Record WriteParams := { dry_run : bool; fast_mode : bool; output : OutputMode; concurrency : ConcurrencyOpts }.

Record WriteResponse := {
  version : N;
  ok : bool;
  op_name : rstr;
  applied : option nat;
  failed : option nat;
  is_dry_run : option bool;
  error : option rstr;
  hint : option rstr;
  detail : option rstr;
  retries : option nat;
  conflict_resolved : option bool;
}.

Definition response_success (op : rstr) (applied : nat) : WriteResponse :=
  {| version := 1; ok := true; op_name := op; applied := Some applied; failed := None; is_dry_run := None; error := None;
     hint := None; detail := None; retries := None; conflict_resolved := None |}.

Definition response_dry_run (op : rstr) (planned : nat) : WriteResponse :=
  {| version := 1; ok := true; op_name := op; applied := Some planned; failed := None; is_dry_run := Some true; error := None;
     hint := None; detail := None; retries := None; conflict_resolved := None |}.

Definition response_noop (op : rstr) : WriteResponse :=
  {| version := 1; ok := true; op_name := op; applied := Some 0%nat; failed := None; is_dry_run := None; error := None;
     hint := Some (lit "no-op"); detail := None; retries := None; conflict_resolved := None |}.

Definition write_error (code hint : rstr) : WriteError := Message (lit "ERR " ++ code ++ lit " " ++ hint).

Record BatchOp := {
  op : rstr;
  file : rstr;
  from : option rstr;
  to : option rstr;
  old : option rstr;
  new : option rstr;
  key : option rstr;
  value : option rstr;
  all : bool;
  value_type : option rstr;
  format : option rstr;
  content : option rstr;
}.

Definition format_response_msg (resp : WriteResponse) (op : rstr) : rstr :=
  let count := dec (N.of_nat (default 0%nat (applied resp))) in
  if bool_decide (is_dry_run resp = Some true) then lit "dry-run: " ++ op ++ lit " " ++ count ++ lit " planned"
  else if bool_decide (hint resp = Some (lit "no-op")) then lit "no-op: " ++ op ++ lit " produces identical content"
  else lit "OK " ++ op ++ lit " applied=" ++ count
       ++ match retries resp with Some n => lit " retries=" ++ dec (N.of_nat n) | None => [] end.

Inductive WriteAttempt :=
| Success (updated : rstr) (count : nat)
| RetryableConflict (message : rstr)
| TerminalError (code hint : rstr)
| Unchanged.

(** [fs::read_to_string]. *)
Inductive ReadText := Text (s : rstr) | NotFound | ReadFails.

(** What an attempt is answered: the lock, the text, the state of the file right
    after it was read, and the calls of the write. *)
Record AttemptIo := { lock_fails : option rstr; read_text : ReadText; snapshot_stat : Stat; write_io : WriteIo }.

Definition with_cas (o : WriteOptions) (c : option CasOptions) : WriteOptions :=
  {| durability := durability o; buffer_size := buffer_size o; preserve_permissions := preserve_permissions o;
     idempotent_skip := idempotent_skip o; compare_hash_when_same_size := compare_hash_when_same_size o; cas := c |}.

Definition without_skip (o : WriteOptions) : WriteOptions :=
  {| durability := durability o; buffer_size := buffer_size o; preserve_permissions := preserve_permissions o;
     idempotent_skip := false; compare_hash_when_same_size := compare_hash_when_same_size o; cas := cas o |}.

Section LockedWrite.
Context (xxh3 : list N -> N) (shown : rstr).

Definition resolved (resp : WriteResponse) (attempt : nat) : WriteResponse :=
  if (0 <? attempt)%nat then
    {| version := version resp; ok := ok resp; op_name := op_name resp; applied := applied resp; failed := failed resp;
       is_dry_run := is_dry_run resp; error := error resp; hint := hint resp; detail := detail resp;
       retries := Some attempt; conflict_resolved := Some true |}
  else resp.

Definition uses_cas (params : WriteParams) : bool :=
  use_cas_flag (concurrency params) || (0 <? max_retries (concurrency params))%nat.

(** One turn of the loop: [None] goes on to the next. *)
Definition one_attempt (params : WriteParams) (op : rstr) (compute : rstr -> WriteAttempt) (io : AttemptIo) (attempt : nat)
    : W (option (WriteResponse * rstr)) :=
  let last := negb (attempt <? max_retries (concurrency params))%nat in
  _ ←w wlift (match lock_fails io with Some text => Err (Message text) | None => Ok tt end);
  text ←w wlift (match read_text io with
                 | Text s => Ok s
                 | NotFound => Ok []
                 | ReadFails => Err (Message (lit "Failed to read " ++ shown))
                 end);
  snapshot ←w wlift (if uses_cas params
                     then snapshot_from_content xxh3 shown (snapshot_stat io) (utf8 text) (use_cas_flag (concurrency params))
                     else Ok None);
  match compute text with
  | Success updated count =>
      if str_eqb updated text then wret (Some (response_noop op, text))
      else if dry_run params then wret (Some (response_dry_run op count, text))
      else
        let options := without_skip (if fast_mode params then fast else durable) in
        let options := match snapshot with Some snap => with_cas options (Some (from_snapshot snap)) | None => options end in
        match write_str xxh3 shown (write_io io) options updated with
        | (es, Ok _) => (es, Ok (Some (resolved (response_success op count) attempt, text)))
        | (es, Err (Cas e)) => if last then (es, Err (Cas e)) else (es, Ok None)
        | (es, Err e) => (es, Err e)
        end
  | RetryableConflict message => if last then wlift (Err (write_error (lit "CONFLICT") message)) else wret None
  | TerminalError code hint => wlift (Err (write_error code hint))
  | Unchanged => wret (Some (response_noop op, text))
  end.

(** The loop over [attempt..=max_retries], with [turns] to go. *)
Fixpoint attempts (turns : nat) (params : WriteParams) (op : rstr) (compute : rstr -> WriteAttempt) (io : nat -> AttemptIo)
    (attempt : nat) : W (WriteResponse * rstr) :=
  match turns with
  | O => wlift (Err (write_error (lit "RETRY_EXHAUSTED")
           (lit "failed after " ++ dec (N.of_nat (max_retries (concurrency params))) ++ lit " retries")))
  | S turns =>
      outcome ←w one_attempt params op compute (io attempt) attempt;
      match outcome with
      | Some answer => wret answer
      | None => attempts turns params op compute io (S attempt)
      end
  end.

Definition locked_write (params : WriteParams) (op : rstr) (compute : rstr -> WriteAttempt) (io : nat -> AttemptIo)
    : W (WriteResponse * rstr) :=
  attempts (S (max_retries (concurrency params))) params op compute io 0.
End LockedWrite.

(** ** Matching text that a shell may have changed *)

Definition is_shell_escaped_punct (c : char) : bool := existsb (N.eqb c) (lit "!$&()*;<>?[]{}|#").

Definition BACKSLASH : char := 92.

(** The loop of [maybe_unescape_shell_escapes_once], with whether it changed anything. *)
Fixpoint unescape_loop (input : rstr) : rstr * bool :=
  match input with
  | [] => ([], false)
  | c :: rest =>
      match rest with
      | next :: rest' =>
          if (c =? BACKSLASH) && is_shell_escaped_punct next then let '(out, _) := unescape_loop rest' in (next :: out, true)
          else let '(out, changed) := unescape_loop rest in (c :: out, changed)
      | [] => ([c], false)
      end
  end.

Definition maybe_unescape_shell_escapes_once (input : rstr) : option rstr :=
  let '(out, changed) := unescape_loop input in if changed : bool then Some out else None.

Fixpoint candidates_loop (steps step : nat) (current : rstr) (out : list (nat * rstr)) : list (nat * rstr) :=
  match steps with
  | O => out
  | S steps =>
      match maybe_unescape_shell_escapes_once current with
      | None => out
      | Some next =>
          if existsb (fun seen => str_eqb seen.2 next) out then out
          else candidates_loop steps (S step) next (out ++ [(step, next)])
      end
  end.

Definition shell_unescape_candidates (input : rstr) (max_steps : nat) : list (nat * rstr) := candidates_loop max_steps 1 input [].

Fixpoint apply_shell_unescape_steps (input : rstr) (steps : nat) : rstr :=
  match steps with
  | O => input
  | S steps =>
      match maybe_unescape_shell_escapes_once input with
      | None => input
      | Some next => apply_shell_unescape_steps next steps
      end
  end.

Fixpoint has_shell_escape_like_pattern (pattern : rstr) : bool :=
  match pattern with
  | [] => false
  | c :: rest =>
      (c =? BACKSLASH) && match rest with next :: _ => is_shell_escaped_punct next | [] => false end
      || has_shell_escape_like_pattern rest
  end.

(** [Vec::swap_remove]. *)
Definition swap_remove {A} (i : nat) (l : list A) : list A :=
  match last l with Some x => removelast (<[i := x]> l) | None => l end.

Definition bigrams (s : rstr) : list (char * char) :=
  let chars := take 400 (join (lit " ") (split_whitespace s)) in
  combine chars (tail chars).

Fixpoint bigram_hits (n : list (char * char)) (pool : list (char * char)) : nat :=
  match n with
  | [] => 0
  | g :: n =>
      match list_find (fun x => x = g) pool with
      | Some (pos, _) => S (bigram_hits n (swap_remove pos pool))
      | None => bigram_hits n pool
      end
  end.

(** The fraction is [hits / total] in double precision; with the same total, and
    totals below 400, such fractions compare like their numerators, and one is at
    least a half when twice its numerator reaches the total. *)
Definition bigram_containment (needle hay : rstr) : nat * nat :=
  let n := bigrams needle in (bigram_hits n (bigrams hay), length n).

Definition trim_nonempty (lines : list rstr) : list rstr := List.filter (fun l => negb (is_empty l)) (map trim lines).

(** [max_by_key]: the last of the longest. *)
Definition longest (l : list rstr) : option rstr :=
  fold_left (fun best x => match best with
                           | Some b => if (length b <=? length x)%nat then Some x else best
                           | None => Some x
                           end) l None.

Fixpoint closest_loop (anchor : rstr) (lines : list rstr) (number : nat) (best : option (nat * rstr * nat)) : option (nat * rstr * nat) :=
  match lines with
  | [] => best
  | line :: lines =>
      let trimmed := trim line in
      let best :=
        if is_empty trimmed then best
        else
          let hits := (bigram_containment anchor trimmed).1 in
          if (match best with Some (_, _, s) => s | None => 0 end <? hits)%nat then Some (number, line, hits) else best in
      closest_loop anchor lines (S number) best
  end.

Definition closest_line_candidate (content pattern : rstr) : option (nat * rstr) :=
  anchor ← longest (trim_nonempty (lines pattern));
  if (length anchor <? 8)%nat then None
  else
    '(n, l, hits) ← closest_loop anchor (take (N.to_nat 20000) (lines content)) 1 None;
    if (length (bigrams anchor) <=? 2 * hits)%nat then Some (n, l) else None.

Definition has_shell_substitution_markers (s : rstr) : bool :=
  contains_char (ch "`") s || contains (lit "${") s || contains (lit "$(") s.

Definition smart_no_match_hint (base flag pattern content : rstr) : rstr :=
  let closest :=
    match closest_line_candidate content pattern with
    | Some (number, line) =>
        [lit "closest candidate at line " ++ dec (N.of_nat number) ++ lit ": " ++ take 160 (trim line)]
        ++ (if has_shell_substitution_markers line && negb (has_shell_substitution_markers pattern) then
              [lit "that line contains ` or ${ } which are missing from " ++ flag ++ lit " " ++ [8212]
               ++ lit " the shell likely performed command/parameter substitution on the inline argument before rtk saw it; pass the block via @file: rtk write file /tmp/old.txt --content @- <<'EOF' ... EOF, then "
               ++ flag ++ lit " @/tmp/old.txt"]
            else [])
    | None => []
    end in
  let escapes :=
    if has_shell_escape_like_pattern pattern then
      [lit "pattern for " ++ flag
       ++ lit " contains shell-style escapes (for example, '\\\\!'); pass literal text or single-quote the argument"]
    else [] in
  let newlines :=
    if contains (lit "\n") pattern && negb (contains_char 10 pattern) then
      [lit "pattern for " ++ flag ++ lit " contains literal '\\n'; for multi-line hunks pass real newline characters"]
    else [] in
  let multiline :=
    if contains_char 10 pattern then
      [lit "pattern for " ++ flag
       ++ lit " is multi-line; flex-whitespace fallback was already tried; verify exact bytes with `rtk read <file>` and copy the block verbatim "
       ++ [8212] ++ lit " @file helps with shell-escaping but not content differences"]
    else [] in
  let hints := closest ++ escapes ++ newlines ++ multiline in
  if is_nil hints then base else base ++ lit "; " ++ join (lit "; ") hints.

Section Matching.
Context (find_flex : list rstr -> rstr -> option (nat * nat)).

(** The literal parts of a pattern of several lines. *)
Definition flex_parts (pattern : rstr) : list rstr :=
  List.filter (fun s => negb (is_empty s))
    (imap (fun i line => if (i =? 0)%nat then trim_end line else trim line) (split_char (N.eqb 10) pattern)).

(** A range that the regex crate finds lies between characters, so the slice does
    not panic. *)
Definition try_multiline_flex_match (content pattern : rstr) : option rstr :=
  if negb (contains_char 10 pattern) then None
  else
    let parts := flex_parts pattern in
    if (length parts <? 2)%nat then None
    else '(a, b) ← find_flex parts content; slice a b content.

Fixpoint first_candidate (content replacement : rstr) (candidates : list (nat * rstr)) : option (rstr * rstr) :=
  match candidates with
  | [] => None
  | (steps, candidate) :: candidates =>
      if contains candidate content then Some (candidate, apply_shell_unescape_steps replacement steps)
      else first_candidate content replacement candidates
  end.

Definition resolve_match_pair (content pattern replacement : rstr) : option (rstr * rstr) :=
  if contains pattern content then Some (pattern, replacement)
  else match first_candidate content replacement (shell_unescape_candidates pattern 4) with
       | Some found => Some found
       | None => actual ← try_multiline_flex_match content pattern; Some (actual, replacement)
       end.

(** [str::replacen(from, to, 1)]. *)
Definition replace_first (from to content : rstr) : rstr :=
  match split_once from content with Some (a, b) => a ++ to ++ b | None => content end.

(** The matches are found in the bytes; those of a text in a text start and end at
    characters.  Every turn takes a match, which is not empty. *)
Fixpoint replace_loop (fuel : nat) (content from to : rstr) : rstr * nat :=
  match fuel with
  | O => (content, 0%nat)
  | S fuel =>
      match split_once from content with
      | None => (content, 0%nat)
      | Some (a, b) => let '(rest, count) := replace_loop fuel b from to in (a ++ to ++ rest, S count)
      end
  end.

Definition replace_all_counted (content from to : rstr) : rstr * nat :=
  if is_empty from then (content, 0%nat) else replace_loop (S (length content)) content from to.

Definition replace_matched (every : bool) (content from to : rstr) : rstr * nat :=
  if every then replace_all_counted content from to else (replace_first from to content, 1%nat).

(** What [run_replace] and [run_patch] compute under the lock. *)
Definition edit_text (base flag from to : rstr) (every : bool) (content : rstr) : WriteAttempt :=
  match resolve_match_pair content from to with
  | None => TerminalError (lit "NO_MATCH") (smart_no_match_hint base flag from content)
  | Some (from_match, to_match) =>
      let '(updated, count) := replace_matched every content from_match to_match in
      if str_eqb updated content then Unchanged else Success updated count
  end.
End Matching.

(** ** Setting a key of a JSON document *)

Section Setting.
Context {Num : Type} (from_str : rstr -> result rstr (Json.Value Num)) (parse_number : rstr -> result rstr Num).
Context (to_string : Json.Value Num -> rstr) (to_pretty : rstr -> Json.Value Num -> rstr).

Definition parse_json_value (raw : rstr) (value_type : ConfigValueType) : result rstr (Json.Value Num) :=
  match value_type with
  | TypeAuto | TypeJson => match from_str raw with Ok v => Ok v | Err _ => Ok (Json.String raw) end
  | TypeString => Ok (Json.String raw)
  | TypeNumber => match parse_number raw with Ok n => Ok (Json.Number n) | Err _ => Err (lit "Invalid number value: " ++ raw) end
  | TypeBool =>
      if str_eqb raw (lit "true") then Ok (Json.Bool true)
      else if str_eqb raw (lit "false") then Ok (Json.Bool false) else Err (lit "Invalid bool value: " ++ raw)
  | TypeNull => Ok Json.Null
  end.

Definition key_parts (key : rstr) : list rstr := List.filter (fun p => negb (is_empty p)) (split_char (N.eqb (ch ".")) key).

(** The walk down from an object; a missing segment becomes an object. *)
Fixpoint set_parts (key : rstr) (parts : list rstr) (current : list (rstr * Json.Value Num)) (value : Json.Value Num)
    : result rstr (list (rstr * Json.Value Num)) :=
  match parts with
  | [] => Ok current
  | [name] => Ok (Json.insert current name value)
  | part :: parts =>
      match default (Json.Object []) (Json.get current part) with
      | Json.Object inner => inner ← set_parts key parts inner value; Ok (Json.insert current part (Json.Object inner))
      | _ => Err (lit "Cannot set key '" ++ key ++ lit "': path segment '" ++ part ++ lit "' is not an object")
      end
  end.

Definition set_json_path (root : Json.Value Num) (key : rstr) (value : Json.Value Num) : result rstr (Json.Value Num) :=
  let parts := key_parts key in
  if is_nil parts then Err (lit "--key must be non-empty")
  else match root with
       | Json.Object m => m ← set_parts key parts m value; Ok (Json.Object m)
       | _ => Err (lit "Cannot set nested key '" ++ key ++ lit "': top-level JSON value is not an object")
       end.

Definition is_indent (c : char) : bool := (c =? 32) || (c =? 9).

Fixpoint first_indent (lines : list rstr) : option rstr :=
  match lines with
  | [] => None
  | line :: lines =>
      if is_empty (trim line) then first_indent lines
      else
        let '(indent, trimmed) := span (fun c => negb (is_indent c)) line in
        if is_empty indent then first_indent lines
        else if forallb (N.eqb 32) indent || forallb (N.eqb 9) indent then Some indent else first_indent lines
  end.

Definition detect_json_indent (original : rstr) : option rstr := first_indent (tail (lines original)).

Definition serialize_json_preserving_style (root : Json.Value Num) (original : rstr) : rstr :=
  let serialized :=
    if negb (contains_char 10 original) then to_string root
    else to_pretty (default (lit "  ") (detect_json_indent original)) root in
  let serialized :=
    if ends_with [10] original && negb (ends_with [10] serialized) then serialized ++ [10] else serialized in
  if negb (ends_with [10] original) then trim_end_matches (N.eqb 10) serialized else serialized.

Definition extension_of (file : rstr) : option rstr :=
  name ← file_name file;
  '(stem, ext) ← rsplit_once (lit ".") name;
  if is_empty stem then None else Some ext.

Definition resolve_format (file : rstr) (format : ConfigFormat) : result rstr ConfigFormat :=
  match format with
  | FormatAuto =>
      match extension_of file with
      | Some ext =>
          if str_eqb ext (lit "json") then Ok FormatJson
          else if str_eqb ext (lit "toml") then Ok FormatToml
          else Err (lit "Cannot infer config format for " ++ file ++ lit ". Use --format json|toml")
      | None => Err (lit "Cannot infer config format for " ++ file ++ lit ". Use --format json|toml")
      end
  | _ => Ok format
  end.

Context (set_toml : rstr -> rstr -> rstr -> ConfigValueType -> result (rstr * rstr) rstr).

(** What [run_set] computes under the lock; [set_toml] answers the code and the
    hint of its error. *)
Definition set_text (format : ConfigFormat) (key value : rstr) (value_type : ConfigValueType) (content : rstr) : WriteAttempt :=
  let outcome : result (rstr * rstr) rstr :=
    match format with
    | FormatToml => set_toml content key value value_type
    | _ =>
        match from_str content with
        | Err e => Err (lit "INVALID_JSON", lit "Invalid JSON: " ++ e)
        | Ok root =>
            match parse_json_value value value_type with
            | Err e => Err (lit "INVALID_VALUE", lit "Invalid value: " ++ e)
            | Ok parsed =>
                match set_json_path root key parsed with
                | Err e => Err (lit "INVALID_KEY_PATH", e)
                | Ok root => Ok (serialize_json_preserving_style root content)
                end
            end
        end
    end in
  match outcome with
  | Err (code, hint) => TerminalError code hint
  | Ok result => if str_eqb result content then Unchanged else Success result 1
  end.
End Setting.

(** ** Batches *)

Section Batch.
Context {Num : Type} (from_str : rstr -> result rstr (Json.Value Num)) (parse_number : rstr -> result rstr Num).
Context (to_string : Json.Value Num -> rstr) (to_pretty : rstr -> Json.Value Num -> rstr).
Context (set_toml : rstr -> rstr -> rstr -> ConfigValueType -> result (rstr * rstr) rstr).
Context (find_flex : list rstr -> rstr -> option (nat * nat)) (read_ref : rstr -> option rstr) (debug : rstr -> rstr).
Context (xxh3 : list N -> N).

Definition expand_batch_field (val : rstr) : result rstr rstr :=
  match strip_prefix (lit "@") val with
  | None => Ok val
  | Some path =>
      if str_eqb path (lit "-") then Err (lit "@- is not supported in batch op fields; use @/path/to/file instead")
      else ok_or (read_ref path) (lit "@file ref: failed to read " ++ debug path)
  end.

Inductive BatchApplyResult := Applied (updated : rstr) (count : nat) | Noop.

(** The end of an operation that changes text. *)
Definition applied_to (content : rstr) (changed : rstr * nat) : BatchApplyResult :=
  if str_eqb changed.1 content then Noop else Applied changed.1 changed.2.

Definition value_type_of (name : option rstr) : ConfigValueType :=
  match name with
  | Some n =>
      if str_eqb n (lit "string") then TypeString else if str_eqb n (lit "number") then TypeNumber
      else if str_eqb n (lit "bool") then TypeBool else if str_eqb n (lit "null") then TypeNull
      else if str_eqb n (lit "json") then TypeJson else TypeAuto
  | None => TypeAuto
  end.

Definition format_of (name : option rstr) : ConfigFormat :=
  match name with
  | Some n => if str_eqb n (lit "json") then FormatJson else if str_eqb n (lit "toml") then FormatToml else FormatAuto
  | None => FormatAuto
  end.

Definition batch_replace (op : BatchOp) (content : rstr) : result rstr BatchApplyResult :=
  from_raw ← ok_or (from op) (lit "batch replace: missing 'from' field");
  to_raw ← ok_or (to op) (lit "batch replace: missing 'to' field");
  from ← expand_batch_field from_raw;
  to ← expand_batch_field to_raw;
  _ ← guard_err (is_empty from) (lit "batch replace: 'from' must be non-empty");
  match resolve_match_pair find_flex content from to with
  | None => Err (lit "NO_MATCH " ++ smart_no_match_hint (lit "no matches for --from") (lit "--from") from content)
  | Some (from_match, to_match) => Ok (applied_to content (replace_matched (all op) content from_match to_match))
  end.

Definition batch_patch (op : BatchOp) (content : rstr) : result rstr BatchApplyResult :=
  old_raw ← ok_or (old op) (lit "batch patch: missing 'old' field");
  new_raw ← ok_or (new op) (lit "batch patch: missing 'new' field");
  old ← expand_batch_field old_raw;
  new ← expand_batch_field new_raw;
  if is_empty old then
    if is_empty content then Ok (Applied new 1)
    else Err (lit "batch patch: 'old' must be non-empty (file has content; use 'create' op for new files, 'replace' to overwrite existing content)")
  else
    match resolve_match_pair find_flex content old new with
    | None => Err (lit "NO_MATCH " ++ smart_no_match_hint (lit "hunk not found") (lit "--old") old content)
    | Some (old_match, new_match) => Ok (applied_to content (replace_matched (all op) content old_match new_match))
    end.

Definition batch_set (op : BatchOp) (content : rstr) : result rstr BatchApplyResult :=
  key ← ok_or (key op) (lit "batch set: missing 'key' field");
  value ← ok_or (value op) (lit "batch set: missing 'value' field");
  let vt := value_type_of (value_type op) in
  fmt ← resolve_format (file op) (format_of (format op));
  updated ←
    match fmt with
    | FormatToml => match set_toml content key value vt with Ok s => Ok s | Err (_, e) => Err e end
    | _ =>
        root ← match from_str content with Ok v => Ok v | Err _ => Err (lit "Invalid JSON: " ++ file op) end;
        parsed ← parse_json_value from_str parse_number value vt;
        root ← set_json_path root key parsed;
        Ok (serialize_json_preserving_style to_string to_pretty root content)
    end;
  Ok (applied_to content (updated, 1%nat)).

Definition batch_create (op : BatchOp) (text : rstr) : result rstr BatchApplyResult :=
  let content_str := default [] (match content op with Some c => Some c | None => new op end) in
  if str_eqb text content_str then Ok Noop
  else if negb (is_empty text)
  then Err (lit "FILE_EXISTS: " ++ file op ++ lit " already exists with different content; use replace/patch to modify it")
  else Ok (Applied content_str 1).

Definition apply_batch_op_in_memory (o : BatchOp) (content : rstr) : result rstr BatchApplyResult :=
  if str_eqb (op o) (lit "replace") then batch_replace o content
  else if str_eqb (op o) (lit "patch") then batch_patch o content
  else if str_eqb (op o) (lit "set") then batch_set o content
  else if str_eqb (op o) (lit "create") then batch_create o content
  else Err (lit "Unknown batch operation: '" ++ op o ++ lit "'").

(** The turn of the loop over the operations of a file. *)
Record BatchState := { working : rstr; total_applied : nat; results : list (result rstr nat) }.

Definition batch_step (st : BatchState) (o : BatchOp) : BatchState :=
  match apply_batch_op_in_memory o (working st) with
  | Ok (Applied updated count) =>
      {| working := updated; total_applied := total_applied st + count; results := results st ++ [Ok count] |}
  | Ok Noop => {| working := working st; total_applied := total_applied st; results := results st ++ [Ok 0%nat] |}
  | Err e => {| working := working st; total_applied := total_applied st; results := results st ++ [Err e] |}
  end.

Definition batch_compute (ops : list BatchOp) (content : rstr) : BatchState :=
  fold_left batch_step ops {| working := content; total_applied := 0; results := [] |}.

Definition batch_attempt (ops : list BatchOp) (content : rstr) : WriteAttempt :=
  let st := batch_compute ops content in
  if (total_applied st =? 0)%nat then Unchanged else Success (working st) (total_applied st).

Definition quiet (params : WriteParams) : WriteParams :=
  {| dry_run := dry_run params; fast_mode := fast_mode params; output := Quiet; concurrency := concurrency params |}.

(** The operations of one file: the changes to it, and the result of each. *)
Definition execute_batch_file_group (ops : list BatchOp) (params : WriteParams) (io : nat -> AttemptIo)
    : list Effect * list (result rstr nat) :=
  match ops with
  | [] => ([], [])
  | first :: _ =>
      match locked_write xxh3 (file first) (quiet params) (lit "batch") (batch_attempt ops) io with
      | (es, Ok (_, content)) => (es, results (batch_compute ops content))
      | (es, Err e) => (es, map (fun _ => Err (error_text e)) ops)
      end
  end.

(** [group_batch_indices_by_file]: the files in the order of their first operation,
    each with the positions of its operations. *)
Fixpoint add_to_group (file : rstr) (idx : nat) (groups : list (rstr * list nat)) : list (rstr * list nat) :=
  match groups with
  | [] => [(file, [idx])]
  | (f, indices) :: groups =>
      if str_eqb f file then (f, indices ++ [idx]) :: groups else (f, indices) :: add_to_group file idx groups
  end.

Definition group_batch_indices_by_file (ops : list BatchOp) : list (rstr * list nat) :=
  fold_left (fun groups io => add_to_group (file io.2) io.1 groups) (imap pair ops) [].

Definition group_ops (ops : list BatchOp) (indices : list nat) : list BatchOp := omap (fun i => ops !! i) indices.

(** The changes of every group, and the outcome of every operation. *)
Definition run_groups (ops : list BatchOp) (params : WriteParams) (io : rstr -> nat -> AttemptIo)
    : list (rstr * list Effect) * gmap nat (result rstr nat) :=
  fold_left (fun acc group =>
    let '(changes, outcomes) := acc in
    let '(es, results) := execute_batch_file_group (group_ops ops group.2) params (io group.1) in
    (changes ++ [(group.1, es)], list_to_map (zip group.2 results) ∪ outcomes))
    (group_batch_indices_by_file ops) ([], ∅).

Definition outcome_of (outcomes : gmap nat (result rstr nat)) (i : nat) : result rstr nat :=
  default (Err (lit "batch internal error: missing operation outcome")) (outcomes !! i).

Definition batch_error (total i : nat) (o : BatchOp) (e : rstr) : rstr :=
  lit "[" ++ dec (N.of_nat (S i)) ++ lit "/" ++ dec (N.of_nat total) ++ lit "] " ++ op o ++ lit " " ++ file o ++ lit ": " ++ e.

(** What [run_batch] answers, behind the parsing of its plan; [None] for a plan
    without operations. *)
Definition run_batch (ops : list BatchOp) (params : WriteParams) (io : rstr -> nat -> AttemptIo)
    : option (list (rstr * list Effect) * WriteResponse) :=
  if is_nil ops then None
  else
    let total := length ops in
    let '(changes, outcomes) := run_groups ops params io in
    let answers := imap (fun i o => (i, o, outcome_of outcomes i)) ops in
    let applied := list_sum (map (fun a => match a.2 with Ok n => n | Err _ => 0%nat end) answers) in
    let errors := omap (fun a => match a.2 with Ok _ => None | Err e => Some (batch_error total a.1.1 a.1.2 e) end) answers in
    let failed := length errors in
    Some (changes,
      {| version := 1; ok := if (0 <? failed)%nat then (failed <? total)%nat else true; op_name := lit "batch";
         applied := Some applied; failed := Some failed; is_dry_run := if dry_run params then Some true else None; error := None;
         hint := None;
         detail := match output params with
                   | JsonOutput => if is_nil errors then None else Some (join (lit "; ") errors)
                   | _ => None
                   end;
         retries := None; conflict_resolved := None |}).
End Batch.

(** ** Creating a file *)

Section Create.
Context (xxh3 : list N -> N) (shown : rstr) (read_ref : rstr -> option rstr) (debug : rstr -> rstr).

(** An argument, or what the file or the standard input holds that it names. *)
Definition expand_at_ref (stdin : option rstr) (val : rstr) : result rstr rstr :=
  match strip_prefix (lit "@") val with
  | None => Ok val
  | Some path =>
      if str_eqb path (lit "-") then ok_or stdin (lit "@-: failed to read stdin")
      else ok_or (read_ref path) (lit "@file: failed to read " ++ debug path)
  end.

(** The parent directory is created once more by the write itself. *)
Definition run_create (stdin : option rstr) (read : ReadText) (content : rstr) (force : bool) (params : WriteParams) (mkdir_fails : bool) (io : WriteIo)
    : W WriteResponse :=
  text ←w wlift (match expand_at_ref stdin content with Ok text => Ok text | Err e => Err (Message e) end);
  existing ←w wlift (match read with
                     | Text s => Ok (Some s)
                     | NotFound => Ok None
                     | ReadFails => Err (Message (lit "Failed to read " ++ shown))
                     end);
  if bool_decide (existing = Some text) then wret (response_noop (lit "create"))
  else if bool_decide (is_Some existing) && negb force
  then wlift (Err (write_error (lit "FILE_EXISTS") (shown
         ++ lit " already exists with different content; use replace/patch to modify it, or pass --force to overwrite")))
  else if dry_run params then wret (response_dry_run (lit "create") 1)
  else
    _ ←w match parent io with
         | Some dir =>
             if is_empty dir then wret tt
             else call CreateDir mkdir_fails (lit "Failed to create parent directory for " ++ shown)
         | None => wret tt
         end;
    match write_str xxh3 shown io (if fast_mode params then fast else durable) text with
    | (es, Ok _) => (es, Ok (response_success (lit "create") 1))
    | (es, Err (Cas e)) => (es, Err (Cas e))
    | (es, Err _) => (es, Err (Message (lit "Failed to create " ++ shown)))
    end.

(** [run_replace], [run_patch] and [run_set]: the guard, and the edit under the lock. *)
Definition run_replace (find_flex : list rstr -> rstr -> option (nat * nat)) (from to : rstr) (every : bool) (params : WriteParams)
    (io : nat -> AttemptIo) : W (WriteResponse * rstr) :=
  if is_empty from then wlift (Err (write_error (lit "EMPTY_PATTERN") (lit "--from must be non-empty")))
  else locked_write xxh3 shown params (lit "replace")
         (edit_text find_flex (lit "no matches for --from") (lit "--from") from to every) io.

Definition run_patch (find_flex : list rstr -> rstr -> option (nat * nat)) (old new : rstr) (every : bool) (params : WriteParams)
    (io : nat -> AttemptIo) : W (WriteResponse * rstr) :=
  if is_empty old then wlift (Err (write_error (lit "EMPTY_PATTERN") (lit "--old must be non-empty")))
  else locked_write xxh3 shown params (lit "patch") (edit_text find_flex (lit "hunk not found") (lit "--old") old new every) io.

(** [run_set], whose format is settled before the lock is taken. *)
Definition run_set {Num} from_str parse_number (to_string : Json.Value Num -> rstr) to_pretty set_toml (key value : rstr)
    (value_type : ConfigValueType) (format : ConfigFormat) (params : WriteParams) (io : nat -> AttemptIo) : W (WriteResponse * rstr) :=
  match resolve_format shown format with
  | Err e => wlift (Err (Message e))
  | Ok format =>
      locked_write xxh3 shown params (lit "set")
        (set_text from_str parse_number to_string to_pretty set_toml format key value value_type) io
  end.
End Create.

(** ** What an edit changes *)

Lemma join_cons sep w ws : ws <> [] -> join sep (w :: ws) = w ++ sep ++ join sep ws.
Proof. by destruct ws. Qed.

Lemma split_str_nonempty p s : split_str p s <> [].
Proof. unfold split_str. cbn [split_str_fuel]. by destruct (split_once p s) as [ [a b]|]. Qed.

Lemma join_split_str p s : p <> [] -> join p (split_str p s) = s.
Proof.
  intros Hp. remember (length s) as n eqn:Hn. revert s Hn. induction (lt_wf n) as [n _ IH]. intros s ->. rewrite split_str_eq by done.
  destruct (split_once p s) as [ [a b]|] eqn:E; [|done]. pose proof (split_once_shorter _ _ _ _ Hp E) as Hlt.
  rewrite join_cons by apply split_str_nonempty. rewrite (IH _ Hlt b) by done. by apply split_once_Some in E as ->.
Qed.

(** Replacing every match joins the pieces between them by the replacement. *)
Lemma replace_loop_pieces from to : from <> [] -> forall fuel content, (length content < fuel)%nat ->
  replace_loop fuel content from to = (join to (split_str from content), count_matches from content).
Proof.
  intros Hf. induction fuel as [|fuel IH]; intros content Hl; [lia|]. cbn [replace_loop]. unfold count_matches.
  rewrite split_str_eq by done. destruct (split_once from content) as [ [a b]|] eqn:E; [|done].
  pose proof (split_once_shorter _ _ _ _ Hf E) as Hlt. rewrite IH by lia. unfold count_matches.
  rewrite join_cons by apply split_str_nonempty. cbn [length Nat.pred]. f_equal. pose proof (split_str_nonempty from b).
  destruct (split_str from b); [done|]. done.
Qed.

Lemma replace_all_pieces from to content : from <> [] ->
  replace_all_counted content from to = (join to (split_str from content), count_matches from content).
Proof. intros Hf. unfold replace_all_counted. destruct from; [done|]. by rewrite replace_loop_pieces by (done || lia). Qed.

Lemma unescape_nonempty input : input <> [] -> (unescape_loop input).1 <> [].
Proof.
  destruct input as [|c [|d rest] ]; [done..|]. intros _.
  change (unescape_loop (c :: d :: rest)) with
    (if (c =? BACKSLASH) && is_shell_escaped_punct d then let '(out, _) := unescape_loop rest in (d :: out, true)
     else let '(out, changed) := unescape_loop (d :: rest) in (c :: out, changed)).
  destruct (_ && _); [destruct (unescape_loop rest) | destruct (unescape_loop (d :: rest))]; done.
Qed.

(** [k] steps of unescaping lead from one text to the other. *)
Fixpoint unescapes (k : nat) (s t : rstr) : Prop :=
  match k with
  | O => s = t
  | S k => exists u, maybe_unescape_shell_escapes_once s = Some u /\ unescapes k u t
  end.

Lemma unescapes_snoc k s t u : unescapes k s t -> maybe_unescape_shell_escapes_once t = Some u -> unescapes (S k) s u.
Proof.
  revert s. induction k as [|k IH]; intros s; cbn [unescapes]; [intros <- H; by exists u|].
  intros (v & Hv & H) Hu. exists v. split; [done|]. by apply IH.
Qed.

Lemma unescapes_nonempty k : forall s t, unescapes k s t -> s <> [] -> t <> [].
Proof.
  induction k as [|k IH]; intros s t; cbn [unescapes]; [by intros <-|]. intros (u & Hu & H) Hs. apply (IH _ _ H).
  unfold maybe_unescape_shell_escapes_once in Hu. pose proof (unescape_nonempty s Hs). destruct (unescape_loop s) as [o [] ]; [|done].
  by injection Hu as <-.
Qed.

Lemma candidates_loop_spec input steps : forall step current out,
  unescapes step input current -> Forall (fun c => (0 < c.1 <= step)%nat /\ unescapes c.1 input c.2) out ->
  Forall (fun c => (0 < c.1 <= step + steps)%nat /\ unescapes c.1 input c.2) (candidates_loop steps (S step) current out).
Proof.
  induction steps as [|steps IH]; intros step current out Hc Ho; cbn [candidates_loop].
  { rewrite Nat.add_0_r. done. }
  assert (Forall (fun c => (0 < c.1 <= step + S steps)%nat /\ unescapes c.1 input c.2) out) as Hout
    by (eapply Forall_impl; [exact Ho|]; cbn; intros c [? ?]; split; [lia|done]).
  destruct (maybe_unescape_shell_escapes_once current) as [next|] eqn:En; [|done]. destruct (existsb _ out); [done|].
  replace (step + S steps)%nat with (S step + steps)%nat by lia. apply IH; [by eapply unescapes_snoc|].
  apply Forall_app. split; [eapply Forall_impl; [exact Ho|]; cbn; intros c [? ?]; split; [lia|done]|].
  apply Forall_singleton. cbn [fst snd]. split; [lia|]. by eapply unescapes_snoc.
Qed.

Lemma first_candidate_spec content replacement l m r : first_candidate content replacement l = Some (m, r) ->
  contains m content = true /\ exists k, (k, m) ∈ l /\ r = apply_shell_unescape_steps replacement k.
Proof.
  induction l as [|[k c] l IH]; cbn [first_candidate]; [done|]. destruct (contains c content) eqn:E.
  - intros [= <- <-]. split; [done|]. exists k. split; [left | done].
  - intros H. destruct (IH H) as (Hc & j & Hj & ->). split; [done|]. exists j. split; [by right | done].
Qed.

Lemma contains_slice a b s t : slice a b s = Some t -> contains t s = true.
Proof.
  unfold slice, slice_from, slice_to. destruct (a <=? b)%nat; [|done]. destruct (split_at a s) as [ [x y]|] eqn:E; [|done]. cbn.
  destruct (split_at _ y) as [ [u v]|] eqn:E'; [|done]. cbn. intros [= ->]. apply split_at_Some in E as [-> _], E' as [-> _].
  unfold contains. by destruct (split_once_complete t x v) as [ [p q] ->].
Qed.

(** What an edit looks for and puts in its place: the text that was given; or, if
    that does not occur, the text without some of a shell's escapes, taken off the
    replacement as often; or a piece of the content that the parts of a pattern of
    several lines match. *)
Inductive matched (find_flex : list rstr -> rstr -> option (nat * nat)) (content from to : rstr) : rstr -> rstr -> Prop :=
| matched_exactly : matched find_flex content from to from to
| matched_unescaped k m : contains from content = false -> (0 < k <= 4)%nat -> unescapes k from m ->
    matched find_flex content from to m (apply_shell_unescape_steps to k)
| matched_flexibly a b m : contains from content = false -> find_flex (flex_parts from) content = Some (a, b) ->
    slice a b content = Some m -> matched find_flex content from to m to.

Lemma resolve_matched find_flex content from to m r : resolve_match_pair find_flex content from to = Some (m, r) ->
  contains m content = true /\ matched find_flex content from to m r.
Proof.
  unfold resolve_match_pair. destruct (contains from content) eqn:Ec; [intros [= <- <-]; split; [done | constructor]|].
  destruct (first_candidate _ _ _) as [ [m' r']|] eqn:Ef.
  - intros [= <- <-]. apply first_candidate_spec in Ef as (Hc & k & Hk & ->). split; [done|].
    pose proof (candidates_loop_spec from 4 0 from [] eq_refl ltac:(constructor)) as Hall.
    rewrite Forall_forall in Hall. destruct (Hall _ Hk) as [? ?]. by constructor.
  - unfold try_multiline_flex_match. destruct (negb _); [done|]. destruct (_ <? _)%nat; [done|].
    destruct (find_flex _ _) as [ [a b]|] eqn:Eff; [|done]. cbv [mbind option_bind].
    destruct (slice a b content) as [s|] eqn:Es; [|done]. intros [= <- <-]. split; [by eapply contains_slice|]. by eapply matched_flexibly.
Qed.

Lemma resolve_none find_flex content from to : resolve_match_pair find_flex content from to = None -> contains from content = false.
Proof. unfold resolve_match_pair. by destruct (contains from content). Qed.

(** The first match is found. *)
Lemma split_once_first p s a b : split_once p s = Some (a, b) -> forall a' b', s = a' ++ p ++ b' -> (length a <= length a')%nat.
Proof.
  revert a b. induction s as [|c s IH]; intros a b.
  - cbn. destruct (strip_prefix p []); [intros [= <- <-]; cbn; lia | done].
  - cbn [split_once]. destruct (strip_prefix p (c :: s)) eqn:E; [intros [= <- <-]; cbn; lia|].
    destruct (split_once p s) as [ [x y]|] eqn:Es; [|done]. intros [= <- <-] [|d a'] b' H.
    + cbn [app] in H. assert (strip_prefix p (c :: s) = Some b') as Hp by by apply strip_prefix_Some. congruence.
    + injection H as -> ->. cbn [length]. specialize (IH _ _ eq_refl _ _ eq_refl). lia.
Qed.

Lemma slice_nonempty a b s t : (a < b)%nat -> slice a b s = Some t -> t <> [].
Proof.
  intros Hab. unfold slice, slice_from, slice_to. destruct (a <=? b)%nat; [|done]. destruct (split_at a s) as [ [x y]|]; [|done]. cbn.
  destruct (split_at (b - a) y) as [ [u v]|] eqn:E; [|done]. cbn. intros [= ->]. apply split_at_Some in E as [_ Hl]. intros ->. cbn in Hl. lia.
Qed.

(** What the search for an expression of two or more literal parts finds is not
    empty. *)
Definition finds_text (find_flex : list rstr -> rstr -> option (nat * nat)) : Prop :=
  forall parts content a b, (2 <= length parts)%nat -> Forall (fun p => p <> []) parts ->
    find_flex parts content = Some (a, b) -> (a < b)%nat.

Lemma matched_nonempty find_flex content from to m r : finds_text find_flex -> from <> [] ->
  resolve_match_pair find_flex content from to = Some (m, r) -> m <> [] /\ contains m content = true /\ matched find_flex content from to m r.
Proof.
  intros Hflex Hf H. destruct (resolve_matched _ _ _ _ _ _ H) as [Hc Hm]. split_and!; [|done..]. unfold resolve_match_pair in H.
  destruct (contains from content); [by injection H as <- <-|]. destruct (first_candidate _ _ _) as [ [m' r']|] eqn:Ef.
  - injection H as <- <-. apply first_candidate_spec in Ef as (_ & k & Hk & ->).
    pose proof (candidates_loop_spec from 4 0 from [] eq_refl ltac:(constructor)) as Hall.
    rewrite Forall_forall in Hall. destruct (Hall _ Hk) as [_ Hu]. by eapply unescapes_nonempty.
  - unfold try_multiline_flex_match in H. destruct (negb _); [done|]. destruct (Nat.ltb_spec (length (flex_parts from)) 2); [done|].
    destruct (find_flex _ _) as [ [a b]|] eqn:Eff; [|done]. cbv [mbind option_bind] in H.
    destruct (slice a b content) as [s|] eqn:Es; [|done]. injection H as <- <-. eapply slice_nonempty; [|exact Es].
    eapply (Hflex (flex_parts from)); [done | | done]. apply Forall_forall. intros p Hp. unfold flex_parts in Hp.
    apply list_elem_of_In, filter_In in Hp as [_ Hp]. by destruct p.
Qed.

(** [updated] is the content with [n] matches of [m] replaced. *)
Definition replaces (every : bool) (content m r updated : rstr) (n : nat) : Prop :=
  if every then content = join m (split_str m content) /\ updated = join r (split_str m content) /\ length (split_str m content) = S n
  else n = 1%nat /\ exists a b, content = a ++ m ++ b /\ updated = a ++ r ++ b /\
         forall a' b', content = a' ++ m ++ b' -> (length a <= length a')%nat.

Lemma replace_matched_spec every content m r : m <> [] -> contains m content = true ->
  replaces every content m r (replace_matched every content m r).1 (replace_matched every content m r).2.
Proof.
  intros Hm Hc. unfold replaces, replace_matched. destruct every.
  - rewrite replace_all_pieces by done. cbn [fst snd]. split_and!; [by rewrite join_split_str | done|]. unfold count_matches.
    pose proof (split_str_nonempty m content). by destruct (split_str m content).
  - cbn [fst snd]. split; [done|]. unfold replace_first, contains in *. destruct (split_once m content) as [ [a b]|] eqn:E; [|done].
    exists a, b. split_and!; [by apply split_once_Some in E | done | by eapply split_once_first].
Qed.


(** A search that knows patterns of two lines, with one break and blanks between. *)
Definition find_two (parts : list rstr) (content : rstr) : option (nat * nat) :=
  match parts with
  | [p; q] =>
      if is_empty p || is_empty q then None
      else '(a, b) ← split_once p content;
           let rest := trim_start b in
           if (length rest <? length b)%nat && starts_with q rest
           then Some (blen a, blen a + blen p + (blen b - blen rest) + blen q)%nat else None
  | _ => None
  end.

Lemma find_two_finds : finds_text find_two.
Proof.
  intros [|p [|q [|] ] ] content a b; cbn [find_two]; try done. intros _ _. destruct p as [|c p]; [done|]. destruct q as [|d q]; [done|].
  cbn [is_empty orb]. destruct (split_once _ _) as [ [x y]|]; [|done]. cbv [mbind option_bind]. destruct (_ && _); [|done].
  intros [= <- <-]. cbn [blen]. pose proof (len_utf8_pos c). lia.
Qed.


(** ** What setting a key changes *)

Section SetPath.
Context {Num : Type}.
Implicit Types v : Json.Value Num.

(** The value under a path of keys. *)
Fixpoint get_path (path : list rstr) v : option (Json.Value Num) :=
  match path with
  | [] => Some v
  | name :: path => match v with Json.Object m => Json.get m name ≫= get_path path | _ => None end
  end.

Definition is_object v : bool := match v with Json.Object _ => true | _ => false end.

(** [root'] is [root] with [value] under the path. *)
Definition sets_only (path : list rstr) root value root' : Prop :=
  get_path path root' = Some value /\
  forall other, ~ path `prefix_of` other -> ~ other `prefix_of` path -> get_path other root' = get_path other root.

Lemma sets_only_cons name path m v value v' :
  default (Json.Object []) (Json.get m name) = v -> sets_only path v value v' ->
  sets_only (name :: path) (Json.Object m) value (Json.Object (Json.insert m name v')).
Proof.
  intros Hv [Hget Hother]. split; [cbn [get_path]; by rewrite Json.get_insert_eq|].
  intros [|n other] H1 H2; [destruct H2; apply prefix_nil|]. cbn [get_path]. destruct (decide (n = name)) as [->|Hne].
  - rewrite Json.get_insert_eq. cbn. rewrite Hother by (intros H; first [apply H1, prefix_cons, H | apply H2, prefix_cons, H]).
    destruct (Json.get m name); cbn in Hv; subst v; [done|]. destruct other; [destruct H2; apply prefix_cons, prefix_nil | done].
  - by rewrite Json.get_insert_ne.
Qed.

(** Everything on the way to the last key that is there is an object. *)
Definition walkable (path : list rstr) root : Prop :=
  forall above below x, path = above ++ below -> below <> [] -> get_path above root = Some x -> is_object x = true.

Lemma walkable_cons name path m inner : default (Json.Object []) (Json.get m name) = inner -> (path = [] \/ walkable path inner) ->
  walkable (name :: path) (Json.Object m).
Proof.
  intros Hi Hw [|n above] below x H Hb; [by intros [= <-]|]. injection H as <- ->. cbn [get_path]. intros Hx.
  destruct (Json.get m name) as [w|]; [|done]. cbn in Hi, Hx. subst w. destruct Hw as [Hw|Hw]; [by apply app_eq_nil in Hw as [_ ->] | by eapply Hw].
Qed.

Lemma set_parts_spec key value parts : parts <> [] -> forall m,
  match set_parts key parts m value with
  | Ok m' => sets_only parts (Json.Object m) value (Json.Object m') /\ walkable parts (Json.Object m)
  | Err e => exists p rest x, parts = p ++ rest /\ p <> [] /\ rest <> [] /\ get_path p (Json.Object m) = Some x /\ is_object x = false
  end.
Proof.
  induction parts as [|name parts IH]; [done|]. intros _ m. destruct parts as [|next parts].
  { cbn [set_parts]. split; [|eapply walkable_cons; [done | by left] ]. eapply sets_only_cons; [done|]. split; [done|]. intros other H. by destruct H; apply prefix_nil. }
  specialize (IH ltac:(done)).
  change (set_parts key (name :: next :: parts) m value) with
    (match default (Json.Object []) (Json.get m name) with
     | Json.Object inner => inner ← set_parts key (next :: parts) inner value; Ok (Json.insert m name (Json.Object inner))
     | _ => Err (lit "Cannot set key '" ++ key ++ lit "': path segment '" ++ name ++ lit "' is not an object")
     end).
  assert (forall v, default (Json.Object []) (Json.get m name) = v -> is_object v = false ->
    exists p rest x, name :: next :: parts = p ++ rest /\ p <> [] /\ rest <> [] /\ get_path p (Json.Object m) = Some x /\ is_object x = false) as Hstop.
  { intros v Hv Ho. exists [name], (next :: parts), v. split_and!; [done..| |done]. cbn [get_path].
    destruct (Json.get m name) as [w|]; cbn in Hv; subst v; done. }
  destruct (default (Json.Object []) (Json.get m name)) as [| | | | |inner] eqn:E; [by apply (Hstop _ eq_refl)..|].
  specialize (IH inner). destruct (set_parts key (next :: parts) inner value) as [m'|e].
  - destruct IH as [IH Hw]. split; [by apply (sets_only_cons name (next :: parts) m (Json.Object inner))|].
    eapply walkable_cons; [exact E | by right].
  - destruct IH as (p & rest & x & -> & Hp & Hr & Hx & Ho). exists (name :: p), rest, x. split_and!; [done..| |done]. cbn [get_path].
    destruct (Json.get m name) as [w|] eqn:Ew; cbn in E; subst.
    + done.
    + injection E as <-. by destruct p.
Qed.
End SetPath.

(** Setting a key of a JSON document sets that key and no other: the value is
    found under the path of the key, whatever does not lie above or below it is as
    it was, and missing objects on the way are made.  It is refused exactly when
    the key names nothing or something on the way is no object. *)
Theorem setting_a_key_keeps_the_others {Num} (root : Json.Value Num) key value :
  match set_json_path root key value with
  | Ok root' => key_parts key <> [] /\ walkable (key_parts key) root /\ sets_only (key_parts key) root value root'
  | Err _ => key_parts key = [] \/
      exists above below x, key_parts key = above ++ below /\ below <> [] /\ get_path above root = Some x /\ is_object x = false
  end.
Proof.
  unfold set_json_path. destruct (key_parts key) as [|name parts] eqn:E; [by left|]. cbn [is_nil].
  destruct root as [| | | | |m]; try (by right; exists [], (name :: parts); eauto).
  pose proof (set_parts_spec key value (name :: parts) ltac:(done) m) as H. cbv [mbind result_bind].
  destruct (set_parts key (name :: parts) m value); [by destruct H|]. right. destruct H as (p & rest & x & -> & _ & Hr & Hx & Ho). by exists p, rest, x.
Qed.

(** ** What a batch does *)

Lemma list_filter_iff_in {A} (P Q : A -> Prop) `{forall x, Decision (P x), forall x, Decision (Q x)} (l : list A) :
  (forall x, x ∈ l -> P x <-> Q x) -> filter P l = filter Q l.
Proof.
  induction l as [|x l IH]; intros H'; [done|]. rewrite !filter_cons, IH by (intros y Hy; by apply H'; right).
  destruct (H' x ltac:(by left)). repeat case_decide; naive_solver.
Qed.

(** The files in the order in which they are first named, and where one is named. *)
Definition first_seen (files : list rstr) : list rstr :=
  fold_left (fun seen f => if bool_decide (f ∈ seen) then seen else seen ++ [f]) files [].

Definition positions (f : rstr) (ops : list BatchOp) : list nat :=
  filter (fun i => file <$> ops !! i = Some f) (seq 0 (length ops)).

Lemma first_seen_snoc l f : first_seen (l ++ [f]) = if bool_decide (f ∈ first_seen l) then first_seen l else first_seen l ++ [f].
Proof. unfold first_seen. by rewrite fold_left_app. Qed.

Lemma elem_of_first_seen l f : f ∈ first_seen l <-> f ∈ l.
Proof.
  induction l as [|g l IH] using rev_ind; [done|]. rewrite first_seen_snoc, elem_of_app, list_elem_of_singleton.
  case_bool_decide as E; [|rewrite elem_of_app, list_elem_of_singleton]; rewrite IH; [|done]. split; [auto|]. intros [?| ->]; [done | by apply IH].
Qed.

Lemma first_seen_nodup l : NoDup (first_seen l).
Proof.
  induction l as [|g l IH] using rev_ind; [constructor|]. rewrite first_seen_snoc. case_bool_decide as E; [done|].
  apply NoDup_app. split_and!; [done | | apply NoDup_singleton]. by intros x Hx ->%list_elem_of_singleton.
Qed.

Lemma elem_of_positions f ops i : i ∈ positions f ops <-> file <$> ops !! i = Some f.
Proof.
  unfold positions. rewrite list_elem_of_filter, elem_of_seq. split; [by intros [? _]|]. intros H. split; [done|].
  destruct (ops !! i) eqn:E; [|done]. apply lookup_lt_Some in E. lia.
Qed.

Lemma positions_nodup f ops : NoDup (positions f ops).
Proof. apply NoDup_filter, NoDup_seq. Qed.

Lemma positions_snoc f ops o : positions f (ops ++ [o]) = positions f ops ++ (if bool_decide (file o = f) then [length ops] else []).
Proof.
  unfold positions. rewrite length_app, seq_app, filter_app. cbn [length seq Nat.add]. f_equal.
  - apply list_filter_iff_in. intros i Hi%elem_of_seq. rewrite lookup_app_l by lia. done.
  - cbn [length seq Nat.add]. rewrite filter_cons, filter_nil, lookup_app_r, Nat.sub_diag by lia. cbn. case_bool_decide as E.
    + by rewrite decide_True by congruence.
    + rewrite decide_False; [done|]. by intros [= ?].
Qed.

Lemma positions_unseen f ops : f ∉ first_seen (map file ops) -> positions f ops = [].
Proof.
  intros H. apply elem_of_nil_inv. intros i Hi%elem_of_positions. destruct (ops !! i) as [o|] eqn:E; [|done]. injection Hi as <-.
  apply H, elem_of_first_seen, list_elem_of_fmap. exists o. split; [done | by eapply list_elem_of_lookup_2].
Qed.

Lemma add_to_group_map f idx (P : rstr -> list nat) fs : NoDup fs ->
  add_to_group f idx (map (fun g => (g, P g)) fs) =
  map (fun g => (g, P g ++ (if bool_decide (f = g) then [idx] else []))) fs ++ (if bool_decide (f ∈ fs) then [] else [(f, [idx])]).
Proof.
  induction fs as [|g fs IH]; intros Hn; [done|]. apply NoDup_cons in Hn as [Hg Hn]. cbn [map add_to_group]. unfold str_eqb.
  destruct (decide (g = f)) as [->|Hne].
  - rewrite !bool_decide_eq_true_2 by (done || by left). rewrite app_nil_r. f_equal. apply map_ext_in. intros h Hh%list_elem_of_In.
    rewrite bool_decide_eq_false_2 by congruence. by rewrite app_nil_r.
  - rewrite !(bool_decide_eq_false_2 (_ = _)) by congruence. rewrite IH by done. cbn [app]. rewrite app_nil_r. f_equal. f_equal.
    rewrite (bool_decide_ext (f ∈ fs) (f ∈ g :: fs)) by (rewrite elem_of_cons; naive_solver). done.
Qed.

Lemma groups_eq ops : group_batch_indices_by_file ops = map (fun f => (f, positions f ops)) (first_seen (map file ops)).
Proof.
  induction ops as [|o ops IH] using rev_ind; [done|]. unfold group_batch_indices_by_file in *. rewrite imap_app, fold_left_app, IH. cbn.
  rewrite Nat.add_0_r, add_to_group_map by apply first_seen_nodup. rewrite map_app. cbn [map]. rewrite first_seen_snoc.
  case_bool_decide as E; [rewrite app_nil_r|rewrite map_app; f_equal].
  1, 2: apply map_ext; intros g; by rewrite positions_snoc.
  cbn. by rewrite positions_snoc, positions_unseen, bool_decide_eq_true_2 by done.
Qed.

Section BatchSpec.
Context {Num : Type} (from_str : rstr -> result rstr (Json.Value Num)) (parse_number : rstr -> result rstr Num).
Context (to_string : Json.Value Num -> rstr) (to_pretty : rstr -> Json.Value Num -> rstr).
Context (set_toml : rstr -> rstr -> rstr -> ConfigValueType -> result (rstr * rstr) rstr).
Context (find_flex : list rstr -> rstr -> option (nat * nat)) (read_ref : rstr -> option rstr) (debug : rstr -> rstr).
Context (xxh3 : list N -> N).

Abbreviation apply_op := (apply_batch_op_in_memory from_str parse_number to_string to_pretty set_toml find_flex read_ref debug).
Abbreviation compute_all := (batch_compute from_str parse_number to_string to_pretty set_toml find_flex read_ref debug).
Abbreviation run_group := (execute_batch_file_group from_str parse_number to_string to_pretty set_toml find_flex read_ref debug xxh3).
Abbreviation attempt_all := (batch_attempt from_str parse_number to_string to_pretty set_toml find_flex read_ref debug).

(** The answer for one operation, on the text the earlier ones left. *)
Definition answer_of (r : result rstr BatchApplyResult) : result rstr nat :=
  match r with Ok (Applied _ n) => Ok n | Ok Noop => Ok 0%nat | Err e => Err e end.

Lemma compute_snoc ops o content : compute_all (ops ++ [o]) content =
  batch_step from_str parse_number to_string to_pretty set_toml find_flex read_ref debug (compute_all ops content) o.
Proof. unfold batch_compute. by rewrite fold_left_app. Qed.

Lemma compute_results ops content :
  length (results (compute_all ops content)) = length ops /\
  forall k o, ops !! k = Some o -> results (compute_all ops content) !! k = Some (answer_of (apply_op o (working (compute_all (take k ops) content)))).
Proof.
  induction ops as [|o ops [IHl IH] ] using rev_ind; [done|]. rewrite compute_snoc.
  assert (results (batch_step from_str parse_number to_string to_pretty set_toml find_flex read_ref debug (compute_all ops content) o) =
          results (compute_all ops content) ++ [answer_of (apply_op o (working (compute_all ops content)))]) as ->
    by (unfold batch_step; by destruct (apply_op _ _) as [ []|]).
  rewrite !length_app, IHl. split; [done|]. intros k o' Hk. destruct (decide (k < length ops)%nat) as [Hlt|Hge].
  - rewrite lookup_app_l in Hk by done. rewrite lookup_app_l by lia. rewrite take_app_le by lia. by apply IH.
  - rewrite lookup_app_r in Hk by lia. apply list_lookup_singleton_Some in Hk as [Hk <-]. assert (k = length ops) as -> by lia.
    rewrite lookup_app_r, IHl, Nat.sub_diag by lia. by rewrite take_app_length.
Qed.

(** The group of a file answers every operation on it. *)
Lemma group_results ops params io o k : ops !! k = Some o ->
  let outcome := locked_write xxh3 (default [] (file <$> head ops)) (quiet params) (lit "batch") (attempt_all ops) io in
  (run_group ops params io).1 = outcome.1 /\ length (run_group ops params io).2 = length ops /\
  (run_group ops params io).2 !! k = Some (match outcome.2 with
    | Ok (_, content) => answer_of (apply_op o (working (compute_all (take k ops) content)))
    | Err e => Err (error_text e)
    end).
Proof.
  intros Hk. destruct ops as [|first ops]; [done|]. cbn [head default from_option fmap option_fmap option_map id]. unfold execute_batch_file_group.
  destruct (locked_write _ _ _ _ _ _) as [es [ [resp content]|e] ]; cbn [fst snd].
  - destruct (compute_results (first :: ops) content) as [Hl Hr]. split_and!; [done | done | by apply Hr].
  - split_and!; [done | by rewrite length_map |]. rewrite list_lookup_fmap, Hk. done.
Qed.

Lemma group_ops_lookup ops f k i : positions f ops !! k = Some i -> group_ops ops (positions f ops) !! k = ops !! i /\ is_Some (ops !! i).
Proof.
  intros Hk. assert (Forall (fun i => is_Some (ops !! i)) (positions f ops)) as Hall
    by (apply Forall_forall; intros j Hj%elem_of_positions; by destruct (ops !! j)).
  unfold group_ops. revert k Hk. induction (positions f ops) as [|j l IH]; intros k Hk; [done|].
  apply Forall_cons in Hall as [ [o Ho] Hall]. destruct k as [|k]; cbn in Hk |- *; rewrite Ho; [injection Hk as <-; by rewrite Ho | by apply IH].
Qed.

Lemma group_ops_length ops f : length (group_ops ops (positions f ops)) = length (positions f ops).
Proof.
  assert (Forall (fun i => is_Some (ops !! i)) (positions f ops)) as Hall
    by (apply Forall_forall; intros j Hj%elem_of_positions; by destruct (ops !! j)).
  unfold group_ops. induction Hall as [|j l [o Ho] _ IH]; [done|]. cbn. rewrite Ho. cbn. by rewrite IH.
Qed.

Abbreviation run_all := (run_groups from_str parse_number to_string to_pretty set_toml find_flex read_ref debug xxh3).
Definition group_of (ops : list BatchOp) (params : WriteParams) (io : rstr -> nat -> AttemptIo) (f : rstr) :=
  run_group (group_ops ops (positions f ops)) params (io f).

(** What is known after some of the files. *)
Lemma run_groups_spec ops params io fs : NoDup fs ->
  let '(changes, outcomes) := fold_left (fun acc group =>
    let '(changes, outcomes) := acc in
    let '(es, results) := run_group (group_ops ops group.2) params (io group.1) in
    (changes ++ [(group.1, es)], list_to_map (zip group.2 results) ∪ outcomes)) (map (fun f => (f, positions f ops)) fs) ([], ∅) in
  changes = map (fun f => (f, (group_of ops params io f).1)) fs /\
  forall f k i, f ∈ fs -> positions f ops !! k = Some i -> (outcomes : gmap nat (result rstr nat)) !! i = (group_of ops params io f).2 !! k.
Proof.
  induction fs as [|g fs IH] using rev_ind; intros Hn; [split; [done|]; by intros f k i ?%elem_of_nil|].
  apply NoDup_app in Hn as (Hn & Hg & _). specialize (IH Hn). rewrite map_app, fold_left_app. cbn [map fold_left fst snd].
  destruct (fold_left _ _ _) as [changes outcomes]. destruct IH as [-> IH]. fold (group_of ops params io g). destruct (group_of ops params io g) as [es results] eqn:Eg.
  split; [by rewrite map_app; cbn; rewrite Eg|]. intros f k i Hf Hk.
  destruct (decide (f = g)) as [->|Hne].
  - rewrite Eg. cbn [snd]. destruct (group_ops_lookup _ _ _ _ Hk) as [Hop [o Ho] ]. rewrite Ho in Hop.
    destruct (group_results _ params (io g) _ _ Hop) as (_ & Hlen & Hres). fold (group_of ops params io g) in Hlen, Hres. rewrite Eg in Hlen, Hres. cbn [snd] in Hlen, Hres. rewrite Hres.
    apply lookup_union_Some_l, elem_of_list_to_map_1.
    + rewrite fst_zip by (rewrite Hlen, group_ops_length; done). apply positions_nodup.
    + apply list_elem_of_lookup. exists k. apply lookup_zip_Some. by split.
  - assert (f ∈ fs) as Hf' by (apply elem_of_app in Hf as [?|Hf%list_elem_of_singleton]; done).
    rewrite lookup_union_r; [by apply IH|]. apply not_elem_of_list_to_map_1. intros Hi. apply list_elem_of_fmap in Hi as ([j r] & -> & Hj).
    apply elem_of_zip_l, elem_of_positions in Hj. apply list_elem_of_lookup_2, elem_of_positions in Hk. cbn in Hk. congruence.
Qed.
End BatchSpec.

(** A batch answers every operation, each with what it did to the text that the
    earlier operations on the same file left, whatever the order in which files are
    mixed; the files are written one after the other in the order in which they are
    first named, each at most once; and if a file cannot be written every operation
    on it answers that error. *)
Theorem batches_answer_every_operation {Num} (from_str : rstr -> result rstr (Json.Value Num)) parse_number to_string to_pretty set_toml
    find_flex read_ref debug xxh3 ops params io changes outcomes :
  run_groups from_str parse_number to_string to_pretty set_toml find_flex read_ref debug xxh3 ops params io = (changes, outcomes) ->
  map fst changes = first_seen (map file ops) /\
  forall i o, ops !! i = Some o ->
    let mine := group_ops ops (positions (file o) ops) in
    let apply_op := apply_batch_op_in_memory from_str parse_number to_string to_pretty set_toml find_flex read_ref debug in
    let compute := batch_compute from_str parse_number to_string to_pretty set_toml find_flex read_ref debug in
    let '(es, outcome) := locked_write xxh3 (file o) (quiet params) (lit "batch")
      (batch_attempt from_str parse_number to_string to_pretty set_toml find_flex read_ref debug mine) (io (file o)) in
    (file o, es) ∈ changes /\ exists k, positions (file o) ops !! k = Some i /\
      outcome_of outcomes i = match outcome with
        | Ok (_, content) => answer_of (apply_op o (working (compute (take k mine) content)))
        | Err e => Err (error_text e)
        end.
Proof.
  unfold run_groups. rewrite groups_eq. intros H.
  pose proof (run_groups_spec from_str parse_number to_string to_pretty set_toml find_flex read_ref debug xxh3 ops params io _
    (first_seen_nodup (map file ops))) as Hspec.
  rewrite H in Hspec. destruct Hspec as [-> Hout]. split; [by rewrite map_map, map_id|]. intros i o Ho. cbv zeta.
  assert (file o ∈ first_seen (map file ops)) as Hin
    by (apply elem_of_first_seen, list_elem_of_fmap; exists o; split; [done | by eapply list_elem_of_lookup_2]).
  assert (i ∈ positions (file o) ops) as [k Hk]%list_elem_of_lookup by (apply elem_of_positions; by rewrite Ho).
  destruct (group_ops_lookup _ _ _ _ Hk) as [Hop _]. rewrite Ho in Hop.
  assert (file <$> head (group_ops ops (positions (file o) ops)) = Some (file o)) as Hhead.
  { destruct (positions (file o) ops) as [|j l] eqn:El; [done|]. assert (file <$> ops !! j = Some (file o)) as Hj
      by (apply elem_of_positions; rewrite El; by left). cbn. destruct (ops !! j); [done|]. done. }
  pose proof (group_results from_str parse_number to_string to_pretty set_toml find_flex read_ref debug xxh3 _ params (io (file o)) _ _ Hop)
    as (He & _ & Hr). fold (group_of from_str parse_number to_string to_pretty set_toml find_flex read_ref debug xxh3 ops params io (file o)) in He, Hr.
  rewrite Hhead in He, Hr. cbn [default from_option id] in He, Hr.
  destruct (locked_write _ _ _ _ _ _) as [es outcome]. cbn [fst snd] in He, Hr. split.
  - apply list_elem_of_fmap. exists (file o). by rewrite He.
  - exists k. split; [done|]. unfold outcome_of. rewrite (Hout _ _ _ Hin Hk), Hr. done.
Qed.

Definition replace_op (name from_text to_text : string) : BatchOp :=
  {| op := lit "replace"; file := lit name; from := Some (lit from_text); to := Some (lit to_text); old := None; new := None; key := None;
     value := None; all := false; value_type := None; format := None; content := None |}.

Definition create_op (name text : string) : BatchOp :=
  {| op := lit "create"; file := lit name; from := None; to := None; old := None; new := None; key := None;
     value := None; all := false; value_type := None; format := None; content := Some (lit text) |}.

(** The file holds a text, or is missing; every call succeeds. *)
Definition batch_io (text : option string) : AttemptIo :=
  {| lock_fails := None; read_text := match text with Some s => Text (lit s) | None => NotFound end; snapshot_stat := Err tt;
     write_io := {| WriteCore.parent := Some (lit "/a"); stat := Ok None; cas_reads := []; hash_reads := []; compare_reads := []; create_dir_fails := false;
                    temp_fails := false; new_file_mode := 420; write_fails := None; flush_fails := None; permissions_fail := false;
                    sync_fails := false; persist_fails := false; sync_dir_fails := false |} |}.

Definition batch_params : WriteParams :=
  {| dry_run := false; fast_mode := true; output := Quiet; concurrency := {| use_cas_flag := false; max_retries := 0 |} |}.

Definition sample_groups (ops : list BatchOp) (io : rstr -> nat -> AttemptIo) :=
  run_groups (fun _ => Err []) (fun _ => Err []) (fun _ : Json.Value unit => []) (fun _ _ => []) (fun _ _ _ _ => Err ([], []))
    find_two (fun _ => None) (fun s => s) (fun _ => 0) ops batch_params io.

(** Three operations, the third on what the first left, with one on another file
    between them. *)
Lemma batches_answer_every_operation_witness :
  let ops := [replace_op "f" "one" "two"; replace_op "g" "one" "two"; replace_op "f" "two" "three"] in
  let io f (_ : nat) := batch_io (Some (if str_eqb f (lit "f") then "one" else "none")) in
  exists changes outcomes, sample_groups ops io = (changes, outcomes) /\ map fst changes = [lit "f"; lit "g"] /\
    outcome_of outcomes 2 = Ok 1%nat /\ WriteTemp (utf8 (lit "three")) ∈ concat (map snd changes).
Proof.
  cbv zeta. eexists _, _. split; [vm_compute; reflexivity|]. split; [|split; [reflexivity | vm_compute; repeat constructor] ].
  refine (eq_trans (proj1 (batches_answer_every_operation (fun _ => Err []) (fun _ => Err []) (fun _ : Json.Value unit => []) (fun _ _ => [])
    (fun _ _ _ _ => Err ([], [])) find_two (fun _ => None) (fun s => s) (fun _ => 0)
    [replace_op "f" "one" "two"; replace_op "g" "one" "two"; replace_op "f" "two" "three"] batch_params
    (fun f (_ : nat) => batch_io (Some (if str_eqb f (lit "f") then "one" else "none"))) _ _ _)) _); [vm_compute; reflexivity | vm_compute; reflexivity].
Defined.

(** An operation that is to create an empty file succeeds and creates nothing: the
    missing file reads as the empty text, which is what it is to hold. *)
Lemma empty_files_are_not_created :
  (sample_groups [create_op "f" EmptyString] (fun _ _ => batch_io None)).1 = [(lit "f", [])] /\
  outcome_of (sample_groups [create_op "f" EmptyString] (fun _ _ => batch_io None)).2 0 = Ok 0%nat.
Proof. split; vm_compute; reflexivity. Qed.

(** ** What the comparison before a write is worth *)

(** The text that is edited. *)
Definition text_of (t : ReadText) : option rstr := match t with Text s => Some s | NotFound => Some [] | ReadFails => None end.

(** An attempt that makes changes runs a write that it has set up. *)
Lemma attempt_writes xxh3 shown params op compute io k es r :
  one_attempt xxh3 shown params op compute io k = (es, r) -> es <> [] ->
  exists text updated n snapshot r', text_of (read_text io) = Some text /\ compute text = Success updated n /\
    (if uses_cas params
     then snapshot_from_content xxh3 shown (snapshot_stat io) (utf8 text) (use_cas_flag (concurrency params)) = Ok snapshot
     else snapshot = None) /\
    let options := without_skip (if fast_mode params then fast else durable) in
    write_bytes xxh3 shown (write_io io)
      (match snapshot with Some snap => with_cas options (Some (from_snapshot snap)) | None => options end) (utf8 updated) = (es, r').
Proof.
  unfold one_attempt, wlift. intros H Hes. destruct (lock_fails io); cbn [wbind app] in H; [by injection H as <- _|].
  destruct (match read_text io with Text _ => _ | NotFound => _ | ReadFails => _ end) as [text|] eqn:Et; cbn [wbind app] in H; [|by injection H as <- _].
  assert (text_of (read_text io) = Some text) as Htext by (destruct (read_text io); by simplify_eq/=).
  destruct (if uses_cas params then _ else _) as [snapshot|] eqn:Es; cbn [wbind app] in H; [|by injection H as <- _].
  destruct (compute text) as [updated n|message|code hint|] eqn:Ec; [|destruct (negb _)|..]; try by injection H as <- _.
  destruct (str_eqb updated text); [by injection H as <- _|]. destruct (dry_run params); [by injection H as <- _|].
  unfold write_str in H. destruct (write_bytes _ _ _ _ _) as [es' r'] eqn:Ew.
  exists text, updated, n, snapshot, r'. cbv zeta. split_and!; [done | done | by destruct (uses_cas params); [|injection Es as <-]|].
  rewrite Ew. destruct r' as [|[] ]; [| destruct (negb _) |]; by injection H as <- _.
Qed.

(** With [--cas], an edit of a file that is there replaces it only if right
    before the write it has the length and the time that it had after it was read,
    and, read again, the hash of the text that was edited. *)
Theorem strict_cas_overwrites_what_it_read xxh3 shown params op compute io k es r meta now :
  use_cas_flag (concurrency params) = true -> one_attempt xxh3 shown params op compute io k = (es, r) -> es <> [] ->
  snapshot_stat io = Ok (Some meta) -> ReadWindow.read_to_end (cas_reads (write_io io)) = Ok now ->
  exists text updated n existing, text_of (read_text io) = Some text /\ compute text = Success updated n /\
    stat (write_io io) = Ok (Some existing) /\ m_len existing = m_len meta /\
    (is_Some (m_modified meta) -> m_modified existing = m_modified meta) /\ xxh3 now = xxh3 (utf8 text).
Proof.
  intros Hcas H Hes Hstat Hnow. destruct (attempt_writes _ _ _ _ _ _ _ _ _ H Hes) as (text & updated & n & snapshot & r' & Htext & Hc & Hs & Hw).
  unfold uses_cas in Hs. rewrite Hcas in Hs. cbn [orb] in Hs. unfold snapshot_from_content in Hs. rewrite Hstat in Hs. injection Hs as <-.
  destruct (write_verified _ _ _ _ _ _ _ _ Hw (or_intror Hes) eq_refl) as (existing & He & Hv).
  destruct existing as [existing|]; [|done]. exists text, updated, n, existing. split_and!; [done..| | |].
  - cbn in Hv. apply bind_Ok in Hv as ([] & Hl & _). destruct (N.eqb_spec (m_len existing) (m_len meta)); [done|]. done.
  - intros [t Ht]. cbn in Hv. rewrite Ht in Hv |- *. apply bind_Ok in Hv as ([] & _ & Hv). apply bind_Ok in Hv as ([] & Hm & _).
    destruct (m_modified existing) as [t'|]; [|done]. cbn in Hm. destruct (N.eqb_spec t' t) as [E|]; [by rewrite E | done].
  - cbn in Hv. apply bind_Ok in Hv as ([] & _ & Hv). apply bind_Ok in Hv as ([] & _ & Hv). rewrite (hash_file_reads _ _ _ _ Hnow) in Hv.
    apply bind_Ok in Hv as (actual & Ha & Hg). injection Ha as <-. destruct (N.eqb_spec (xxh3 now) (hash_bytes xxh3 (utf8 text))); [done|]. done.
Qed.

(** A file of three bytes that is read in one piece. *)
Definition guarded_io (seen now : string) : AttemptIo :=
  {| lock_fails := None; read_text := Text (lit seen);
     snapshot_stat := Ok (Some {| m_len := 3; m_modified := Some 7; m_permissions := 420 |});
     write_io := {| WriteCore.parent := Some (lit "/a"); stat := Ok (Some {| m_len := 3; m_modified := Some 7; m_permissions := 420 |});
                    cas_reads := [Ok (utf8 (lit now))]; hash_reads := []; compare_reads := []; create_dir_fails := false;
                    temp_fails := false; new_file_mode := 420; write_fails := None; flush_fails := None; permissions_fail := false;
                    sync_fails := false; persist_fails := false; sync_dir_fails := false |} |}.

Definition guarded_params (strict : bool) : WriteParams :=
  {| dry_run := false; fast_mode := true; output := Quiet; concurrency := {| use_cas_flag := strict; max_retries := 1 |} |}.

Definition guarded_attempt (strict : bool) (seen now : string) : W (option (WriteResponse * rstr)) :=
  one_attempt (fold_right N.add 0) (lit "f") (guarded_params strict) (lit "replace")
    (edit_text find_two [] [] (lit "one") (lit "two") false) (guarded_io seen now) 0.

Lemma strict_cas_overwrites_what_it_read_witness :
  WriteTemp (utf8 (lit "two")) ∈ (guarded_attempt true "one" "one").1 /\
  (exists text updated n existing, text_of (Text (lit "one")) = Some text /\
    edit_text find_two [] [] (lit "one") (lit "two") false text = Success updated n /\
    stat (write_io (guarded_io "one" "one")) = Ok (Some existing) /\ m_len existing = 3 /\
    (is_Some (Some 7) -> m_modified existing = Some 7) /\ fold_right N.add 0 (utf8 (lit "one")) = fold_right N.add 0 (utf8 text)) /\
  guarded_attempt true "one" "six" = ([], Ok None).
Proof.
  split_and!; [vm_compute; repeat constructor | | vm_compute; reflexivity].
  exact (strict_cas_overwrites_what_it_read (fold_right N.add 0) (lit "f") (guarded_params true) (lit "replace")
    (edit_text find_two [] [] (lit "one") (lit "two") false) (guarded_io "one" "one") 0 _ _ _ (utf8 (lit "one")) eq_refl eq_refl
    ltac:(discriminate) eq_refl eq_refl).
Defined.

(** Without [--cas] a change between the read and the [stat] behind it is missed:
    the [stat] describes a file that was never read. *)
Lemma lenient_cas_misses_early_changes : WriteTemp (utf8 (lit "two")) ∈ (guarded_attempt false "one" "six").1.
Proof. vm_compute. repeat constructor. Qed.
End WriteCmd.
