(* ===== verification/WriteLock.v ===== *)
(** The lock of a file ([fork-core/rtk/src/write_lock.rs]), and processes that edit
    the same file under it.

    [canonicalize] and [absolute] are what the file system answers, [sha256] the
    hash of the sha2 crate.  A process is an edit ([locked_write]); the steps of
    several of them are interleaved, and the operating system grants a lock to one
    process at a time and releases it when the process ends.

    The file system is a map of directory entries, of which some are symbolic links.
    The entry that a path names ([entry]) is what is left when the links among its
    directories are followed and its last component is not: a read follows the entry
    if it is a link, the rename of a write replaces the entry itself. *)

From S2P Require Import Prelude RStr ReadWindow WriteCore WriteCmd.
From Stdlib Require Import ZifyBool ZifyN ZifyNat.

Module WriteLock.
Import WriteCore WriteCmd.

(** ** Which lock *)

(** [Path::parent] of a path without [.] components. *)
Definition path_parent (path : rstr) : option rstr :=
  let path := trim_end_matches (N.eqb (ch "/")) path in
  if is_empty path then None
  else match rsplit_once (lit "/") path with
       | Some (dir, _) => let dir := trim_end_matches (N.eqb (ch "/")) dir in Some (if is_empty dir then lit "/" else dir)
       | None => Some []
       end.

Definition hex_digit (n : N) : char := if n <? 10 then 48 + n else 87 + n.
Definition hex_byte (b : N) : rstr := [hex_digit (b / 16); hex_digit (b mod 16)].

Section Path.
Context (canonicalize : rstr -> option rstr) (absolute : rstr -> option rstr) (sha256 : list N -> list N).

Definition canonical_target (target : rstr) : rstr :=
  match canonicalize target with
  | Some path => path
  | None =>
      let absolute := default target (absolute target) in
      match path_parent absolute, file_name absolute with
      | Some parent, Some name => match canonicalize parent with Some parent => path_join parent name | None => absolute end
      | _, _ => absolute
      end
  end.

Record LockEnv := { rtk_lock_dir : option rstr; cache_dir : option rstr; temp_dir : rstr }.

Definition lock_dir (env : LockEnv) : rstr :=
  match rtk_lock_dir env with
  | Some dir => if is_empty dir then match cache_dir env with
                                     | Some dir => path_join (path_join dir (lit "rtk")) (lit "write-locks")
                                     | None => path_join (temp_dir env) (lit "rtk-write-locks")
                                     end
                else dir
  | None => match cache_dir env with
            | Some dir => path_join (path_join dir (lit "rtk")) (lit "write-locks")
            | None => path_join (temp_dir env) (lit "rtk-write-locks")
            end
  end.

Definition lock_path_for (env : LockEnv) (target : rstr) : rstr :=
  path_join (lock_dir env) (concat (map hex_byte (sha256 (utf8 (canonical_target target)))) ++ lit ".lock").

(** What the calls of [acquire] answer. *)
Record AcquireIo := { no_lock_dir : bool; no_lock_file : bool; no_lock : bool }.

(** The path of the lock that is held from now on. *)
Definition acquire (env : LockEnv) (io : AcquireIo) (target : rstr) : result rstr rstr :=
  let lock_path := lock_path_for env target in
  _ ← match path_parent lock_path with
      | Some dir => guard_err (no_lock_dir io) (lit "Failed to create lock dir " ++ dir)
      | None => Ok tt
      end;
  _ ← guard_err (no_lock_file io) (lit "Failed to open lock file " ++ lock_path);
  _ ← guard_err (no_lock io) (lit "Failed to acquire flock on " ++ lock_path);
  Ok lock_path.
End Path.

(** ** Processes that edit one file *)

(** An edit: what [locked_write] is called with. *)
Record Writer := { target : rstr; params : WriteParams; edit : rstr; compute : rstr -> WriteAttempt }.

Definition Answer : Type := result WriteError (WriteResponse * rstr).

Inductive Phase :=
| Waiting (attempt : nat)
| Holding (attempt : nat) (lock : rstr)
| Writing (attempt : nat) (lock : rstr) (todo : list Effect) (outcome : result WriteError (option (WriteResponse * rstr)))
| Finished (answer : Answer)
| Killed.

(** The files by their entries, the entries that are links, who holds which lock, and
    the edits that replaced an entry, in order. *)
Record System := { files : gmap rstr Disk; links : gmap rstr rstr; locks : gmap rstr nat; procs : gmap nat Phase; log : list nat }.

Definition no_disk : Disk := {| named := None; after_crash := [None]; temp := None |}.

Definition disk (s : System) (entry : rstr) : Disk := default no_disk (files s !! entry).

(** Where an entry leads; the system follows up to 40 links. *)
Fixpoint follow (fuel : nat) (links : gmap rstr rstr) (entry : rstr) : rstr :=
  match fuel with
  | O => entry
  | S fuel => match links !! entry with Some to => follow fuel links to | None => entry end
  end.

Definition leads_to (s : System) (entry : rstr) : rstr := follow 40 (links s) entry.

(** What the file system knows of an entry. *)
Inductive Entry := Missing | Regular | Link (to : rstr).

Definition view (s : System) (entry : rstr) : Entry :=
  match links s !! entry with
  | Some to => Link to
  | None => if bool_decide (is_Some (named (disk s entry))) then Regular else Missing
  end.

Inductive Action :=
| Acquire (i : nat) (io : AcquireIo)
| Attempt (i : nat) (io : AttemptIo)
| Go (i : nat)
| Kill (i : nat).

(** A read answers what the file holds, or fails. *)
Definition reads (d : Disk) (t : ReadText) : bool :=
  match content_of d, t with
  | _, ReadFails => true
  | None, NotFound => true
  | Some b, Text s => bool_decide (utf8 s = b)
  | _, _ => false
  end.

Definition is_persist (e : Effect) : bool := match e with Persist => true | _ => false end.

Definition lock_of (p : Phase) : option rstr := match p with Holding _ l | Writing _ l _ _ => Some l | _ => None end.

Section Interleaving.
Context (xxh3 : list N -> N) (canonicalize : (rstr -> Entry) -> rstr -> option rstr) (absolute : rstr -> option rstr)
  (sha256 : list N -> list N) (entry : rstr -> rstr) (env : LockEnv) (writers : nat -> Writer).

(** The entry of a writer's path. *)
Definition entry_of (i : nat) : rstr := entry (target (writers i)).

Definition attempt_of (i : nat) (io : AttemptIo) (k : nat) : W (option (WriteResponse * rstr)) :=
  let w := writers i in one_attempt xxh3 (target w) (params w) (edit w) (compute w) io k.

Definition set_phase (i : nat) (p : Phase) (l : gmap rstr nat) (s : System) : System :=
  {| files := files s; links := links s; locks := l; procs := <[i := p]> (procs s); log := log s |}.

(** One step.  The rename leaves a file where the path of the writer leads to, links
    among its directories followed; a link that was there is gone. *)
Definition step (a : Action) (s : System) : option System :=
  match a with
  | Acquire i io =>
      match procs s !! i with
      | Some (Waiting k) =>
          match acquire (canonicalize (view s)) absolute sha256 env io (target (writers i)) with
          | Ok path => match locks s !! path with
                       | None => Some (set_phase i (Holding k path) (<[path := i]> (locks s)) s)
                       | Some _ => None
                       end
          | Err e => Some (set_phase i (Finished (Err (Message e))) (locks s) s)
          end
      | _ => None
      end
  | Attempt i io =>
      match procs s !! i with
      | Some (Holding k path) =>
          if bool_decide (lock_fails io = None) && reads (disk s (leads_to s (entry_of i))) (read_text io)
          then let '(es, r) := attempt_of i io k in Some (set_phase i (Writing k path es r) (locks s) s)
          else None
      | _ => None
      end
  | Go i =>
      match procs s !! i with
      | Some (Writing k path (e :: es) r) =>
          Some {| files := <[entry_of i := apply e (disk s (entry_of i))]> (files s);
                  links := if is_persist e then delete (entry_of i) (links s) else links s; locks := locks s; procs := <[i := Writing k path es r]> (procs s);
                  log := if is_persist e then log s ++ [i] else log s |}
      | Some (Writing k path [] r) =>
          let next := match r with
                      | Ok (Some answer) => Finished (Ok answer)
                      | Err e => Finished (Err e)
                      | Ok None => Waiting (S k)
                      end in
          Some (set_phase i next (delete path (locks s)) s)
      | _ => None
      end
  | Kill i =>
      match procs s !! i with
      | Some p => Some (set_phase i Killed (match lock_of p with Some path => delete path (locks s) | None => locks s end) s)
      | None => None
      end
  end.

Fixpoint steps (l : list Action) (s : System) : option System :=
  match l with [] => Some s | a :: l => s' ← step a s; steps l s' end.

(** Everyone waits for the lock. *)
Definition starts (s : System) : Prop :=
  (forall i p, procs s !! i = Some p -> p = Waiting 0) /\ locks s = ∅ /\ log s = [].
End Interleaving.

(** ** No update is lost *)

(** The answer says that the file was replaced. *)
Definition committed (resp : WriteResponse) : bool :=
  bool_decide (is_dry_run resp = None) && bool_decide (hint resp = None).

Lemma run_changes_app a b d : run (a ++ b) d = run b (run a d).
Proof. unfold run. by rewrite fold_left_app. Qed.

Lemma before_rename_content pre d : forallb before_rename pre = true -> content_of (run pre d) = content_of d.
Proof. intros H. destruct (before_rename_untouched d pre H d ltac:(done)) as [_ [Hn _] ]. unfold content_of. by rewrite Hn. Qed.

Lemma before_rename_no_persist pre : forallb before_rename pre = true -> existsb is_persist pre = false.
Proof. induction pre as [|e pre IH]; [done|]. cbn [forallb existsb]. intros [He H]%andb_true_iff. rewrite IH by done. by destruct e. Qed.



(** What an attempt does, seen from outside. *)
Definition attempt_does (params : WriteParams) (compute : rstr -> WriteAttempt) (io : AttemptIo) (k : nat) (es : list Effect)
    (r : result WriteError (option (WriteResponse * rstr))) : Prop :=
  exists pre post, es = pre ++ post /\ forallb before_rename pre = true /\
  (post = [] \/ exists m s text updated n, text_of (read_text io) = Some text /\ compute text = Success updated n /\ updated <> text /\
     (forall d, temp (run pre d) = Some {| bytes := utf8 updated; mode := m; synced := s |}) /\
     (post = [Persist] \/ post = [Persist; SyncDir])) /\
  match r with
  | Ok (Some (resp, _)) => committed resp = true <-> post <> []
  | Ok None => post = [] /\ (k < max_retries (concurrency params))%nat
  | Err _ => True
  end.

Lemma one_attempt_does xxh3 shown params op compute io k es r :
  one_attempt xxh3 shown params op compute io k = (es, r) -> attempt_does params compute io k es r.
Proof.
  unfold one_attempt, wlift.
  assert (forall (e : result WriteError (option (WriteResponse * rstr))),
    match e with Ok (Some (resp, _)) => committed resp = false | Ok None => (k < max_retries (concurrency params))%nat | Err _ => True end ->
    ([], e) = (es, r) -> attempt_does params compute io k es r) as Hquiet.
  { intros e He [= <- <-]. exists [], []. split_and!; [done | done | by left|]. destruct e as [ [ [resp ?]|]|]; [by rewrite He | done | done]. }
  destruct (lock_fails io); cbn [wbind app]; [by apply (Hquiet (Err _))|].
  destruct (match read_text io with Text _ => _ | NotFound => _ | ReadFails => _ end) as [text|] eqn:Et; cbn [wbind app]; [|by apply (Hquiet (Err _))].
  assert (text_of (read_text io) = Some text) as Htext by (destruct (read_text io); by simplify_eq/=).
  destruct (if uses_cas params then _ else _) as [snapshot|]; cbn [wbind app]; [|by apply (Hquiet (Err _))].
  destruct (compute text) as [updated n|message|code hint|] eqn:Ec; [|destruct (Nat.ltb_spec k (max_retries (concurrency params))); cbn [negb]|..];
    [|by apply (Hquiet (Ok None)) | by apply (Hquiet (Err _)) | by apply (Hquiet (Err _)) | by apply (Hquiet (Ok (Some _)))].
  unfold str_eqb. case_bool_decide as Eu; [by apply (Hquiet (Ok (Some _)))|].
  destruct (dry_run params); [by apply (Hquiet (Ok (Some _)))|].
  set (o := match snapshot with Some _ => _ | None => _ end).
  assert (idempotent_skip o = false) as Ho by (by destruct snapshot, (fast_mode params)).
  unfold write_str. destruct (write_bytes _ _ _ _ _) as [es' r'] eqn:Ew.
  destruct (write_bytes_does _ _ _ _ _ _ _ Ew) as (pre & post & -> & Hpre & Hpost). intros H.
  assert (es = pre ++ post) as -> by (destruct r' as [|[e|] ]; [| destruct (negb _) |]; by injection H as <- <-).
  exists pre, post. split_and!; [done | done | |].
  - destruct post as [|e post]; [by left|]. right. destruct Hpost as (m & s & Ht & Hp & _). by exists m, s, text, updated, n.
  - destruct r' as [stats|[e|e] ].
    + injection H as <-. destruct post as [|e post]; [by rewrite Ho in Hpost|]. split; [done|]. intros _. unfold resolved.
      by destruct (0 <? k)%nat.
    + destruct (Nat.ltb_spec k (max_retries (concurrency params))); cbn [negb] in H; injection H as <-; [|done]. split; [|done].
      destruct post; [done|]. destruct Hpost as (? & ? & _ & _ & Hno). by destruct (Hno e).
    + by injection H as <-.
Qed.

(** The edits in the order in which they replaced the file: each was made from what
    the one before it had left. *)
Inductive serial (writers : nat -> Writer) (c : option (list N)) : list nat -> option (list N) -> Prop :=
| serial_start : serial writers c [] c
| serial_edit log c' i text updated n :
    serial writers c log c' -> match c' with Some b => utf8 text = b | None => text = [] end ->
    compute (writers i) text = Success updated n -> updated <> text ->
    serial writers c (log ++ [i]) (Some (utf8 updated)).

Section NoLostUpdate.
Context (xxh3 : list N -> N) (canonicalize : (rstr -> Entry) -> rstr -> option rstr) (absolute : rstr -> option rstr)
  (sha256 : list N -> list N) (entry : rstr -> rstr) (env : LockEnv) (writers : nat -> Writer) (file : rstr) (c0 : option (list N)).
Context (same_file : forall v i, (forall to, v file <> Link to) -> canonical_target (canonicalize v) absolute (target (writers i)) = file).
Context (same_entry : forall i, entry (target (writers i)) = file).

Definition locked (i : nat) (ios : nat -> AttemptIo) : W (WriteResponse * rstr) :=
  let w := writers i in locked_write xxh3 (target w) (params w) (edit w) (compute w) ios.

Definition rest (i turns : nat) (ios : nat -> AttemptIo) (k : nat) : W (WriteResponse * rstr) :=
  let w := writers i in attempts xxh3 (target w) turns (params w) (edit w) (compute w) ios k.

Definition retries_of (i : nat) : nat := max_retries (concurrency (params (writers i))).

(** [ios] answered the attempts before [k], and all of them are to be retried. *)
Definition so_far (i k : nat) (ios : nat -> AttemptIo) : Prop :=
  (k <= retries_of i)%nat /\
  forall ios', (forall j, (j < k)%nat -> ios' j = ios j) -> (locked i ios').2 = (rest i (S (retries_of i) - k) ios' k).2.

Definition put (k : nat) (io : AttemptIo) (ios : nat -> AttemptIo) : nat -> AttemptIo := fun j => if decide (j = k) then io else ios j.

Lemma so_far_start i ios : so_far i 0 ios.
Proof. split; [lia|]. intros ios' _. unfold locked, rest, locked_write. by rewrite Nat.sub_0_r. Qed.

Lemma rest_turn i k ios : (k <= retries_of i)%nat ->
  (rest i (S (retries_of i) - k) ios k).2 =
  match (attempt_of xxh3 writers i (ios k) k).2 with
  | Ok (Some a) => Ok a
  | Ok None => (rest i (S (retries_of i) - S k) ios (S k)).2
  | Err e => Err e
  end.
Proof.
  intros Hk. replace (S (retries_of i) - k)%nat with (S (S (retries_of i) - S k)) by lia. unfold rest, attempt_of. cbn [attempts].
  destruct (one_attempt _ _ _ _ _ _ _) as [es [ [a|]|] ]; cbn; [done | | done]. by destruct (attempts _ _ _ _ _ _ _ _).
Qed.

(** The attempt [k] answers [r]. *)
Lemma so_far_attempt i k ios io es r : so_far i k ios -> attempt_of xxh3 writers i io k = (es, r) ->
  match r with
  | Ok (Some a) => (locked i (put k io ios)).2 = Ok a
  | Ok None => (k < retries_of i)%nat -> so_far i (S k) (put k io ios)
  | Err e => (locked i (put k io ios)).2 = Err e
  end.
Proof.
  intros [Hk Hs] Ha.
  assert (forall ios', (forall j, (j < S k)%nat -> ios' j = put k io ios j) ->
    (locked i ios').2 = match r with Ok (Some a) => Ok a | Ok None => (rest i (S (retries_of i) - S k) ios' (S k)).2 | Err e => Err e end) as Ht.
  { intros ios' H. rewrite Hs, rest_turn by (done || (intros j Hj; rewrite H by lia; unfold put; by rewrite decide_False by lia)).
    rewrite (H k) by lia. unfold put. rewrite decide_True by done. by rewrite Ha. }
  destruct r as [ [a|]|e]; [by apply Ht | by split | by apply Ht].
Qed.

Definition proc_ok (d : Disk) (log : list nat) (i : nat) (p : Phase) : Prop :=
  match p with
  | Waiting k | Holding k _ => (i ∉ log) /\ exists ios, so_far i k ios
  | Writing k _ todo r => exists ios io past d0,
      so_far i k ios /\ attempt_of xxh3 writers i io k = (past ++ todo, r) /\ reads d0 (read_text io) = true /\ d = run past d0 /\
      (i ∈ log <-> existsb is_persist past = true)
  | Finished r => (exists ios, (locked i ios).2 = r) /\ match r with Ok (resp, _) => i ∈ log <-> committed resp = true | Err _ => True end
  | Killed => True
  end.

Definition the_lock : rstr := path_join (lock_dir env) (concat (map hex_byte (sha256 (utf8 file))) ++ lit ".lock").

Record inv (s : System) : Prop := {
  inv_regular : links s !! file = None;
  inv_serial : serial writers c0 (log s) (content_of (disk s file));
  inv_once : NoDup (log s);
  inv_lock : forall i p l, procs s !! i = Some p -> lock_of p = Some l -> l = the_lock /\ locks s !! the_lock = Some i;
  inv_procs : forall i p, procs s !! i = Some p -> proc_ok (disk s file) (log s) i p;
}.

Lemma view_regular s : links s !! file = None -> forall to, view s file <> Link to.
Proof. intros H to. unfold view. rewrite H. by case_bool_decide. Qed.

Lemma leads_regular s i : links s !! file = None -> leads_to s (entry_of entry writers i) = file.
Proof. intros H. unfold leads_to, entry_of. rewrite same_entry. cbn [follow]. by rewrite H. Qed.

Lemma acquire_the_lock s io i path : links s !! file = None ->
  acquire (canonicalize (view s)) absolute sha256 env io (target (writers i)) = Ok path -> path = the_lock.
Proof.
  intros Hr. unfold acquire, lock_path_for. rewrite same_file by by apply view_regular. fold the_lock. intros H. repeat apply bind_Ok in H as (? & _ & H). by injection H as <-.
Qed.

(** A step that leaves the file and the log alone. *)
Lemma set_phase_inv i p0 p l s : inv s -> procs s !! i = Some p0 -> proc_ok (disk s file) (log s) i p ->
  match lock_of p with
  | Some path => path = the_lock /\ l !! the_lock = Some i /\ forall j, locks s !! the_lock = Some j -> j = i
  | None => l = locks s /\ lock_of p0 = None \/ l = delete the_lock (locks s) /\ lock_of p0 = Some the_lock
  end -> inv (set_phase i p l s).
Proof.
  intros [Hr Hs Ho Hl Hp] Hi Hok Hlock. split; cbn; [done | done | done | |].
  - intros j q path Hj Hq. destruct (decide (j = i)) as [->|Hne].
    + rewrite lookup_insert_eq in Hj. injection Hj as <-. rewrite Hq in Hlock. by destruct Hlock as (? & ? & _).
    + rewrite lookup_insert_ne in Hj by done. destruct (Hl _ _ _ Hj Hq) as [-> Hown]. split; [done|].
      destruct (lock_of p) as [path|].
      * destruct Hlock as (_ & _ & H). by destruct (Hne (H _ Hown)).
      * destruct Hlock as [ [-> _]|[-> Hp0] ]; [done|]. destruct (Hl _ _ _ Hi Hp0) as [_ H]. congruence.
  - intros j q Hj. destruct (decide (j = i)) as [->|Hne]; [rewrite lookup_insert_eq in Hj; by injection Hj as <-|].
    rewrite lookup_insert_ne in Hj by done. by apply Hp.
Qed.

Definition no_io : AttemptIo :=
  {| lock_fails := None; read_text := ReadFails; snapshot_stat := Err tt;
     write_io := {| parent := None; stat := Err tt; cas_reads := []; hash_reads := []; compare_reads := []; create_dir_fails := false;
                    temp_fails := false; new_file_mode := 0; write_fails := None; flush_fails := None; permissions_fail := false;
                    sync_fails := false; persist_fails := false; sync_dir_fails := false |} |}.

Definition no_lock_io (e : rstr) : AttemptIo :=
  {| lock_fails := Some e; read_text := ReadFails; snapshot_stat := Err tt; write_io := write_io no_io |}.

Lemma step_acquire_inv i io s s' : inv s -> step xxh3 canonicalize absolute sha256 entry env writers (Acquire i io) s = Some s' -> inv s'.
Proof.
  intros Hs. cbn [step]. destruct (procs s !! i) as [ [k| | | |]|] eqn:Ei; try done. pose proof (inv_procs _ Hs _ _ Ei) as Hp.
  destruct (acquire _ _ _ _ _ _) as [path|e] eqn:Ea.
  - apply acquire_the_lock in Ea as ->; [|apply Hs]. destruct (locks s !! the_lock) eqn:El; [done|]. intros [= <-].
    eapply set_phase_inv; [done | done | done|]. cbn [lock_of]. split_and!; [done | apply lookup_insert_eq | by rewrite El].
  - intros [= <-]. eapply set_phase_inv; [done | done | | by left]. destruct Hp as [_ [ios Hf] ]. split; [|done].
    exists (put k (no_lock_io e) ios). exact (so_far_attempt i k ios (no_lock_io e) [] (Err (Message e)) Hf eq_refl).
Qed.

Lemma step_attempt_inv i io s s' : inv s -> step xxh3 canonicalize absolute sha256 entry env writers (Attempt i io) s = Some s' -> inv s'.
Proof.
  intros Hs. cbn [step]. destruct (procs s !! i) as [ [|k path| | |]|] eqn:Ei; try done.
  destruct (inv_procs _ Hs _ _ Ei) as [Hi [ios Hf] ]. destruct (inv_lock _ Hs _ _ _ Ei eq_refl) as [-> Hown].
  destruct (_ && _) eqn:Er; [|done]. apply andb_true_iff in Er as [_ Er].
  rewrite leads_regular in Er by apply Hs.
  destruct (attempt_of _ _ _ _ _) as [es r] eqn:Ea. intros [= <-]. eapply set_phase_inv; [done | done | |].
  - exists ios, io, [], (disk s file). cbn [app existsb]. split_and!; [done..|]. by split.
  - cbn [lock_of]. split_and!; [done..|]. intros j Hj. congruence.
Qed.

(** The changes that are still to come, and the next of them: one before the rename,
    the rename, or the sync behind it. *)
Lemma next_change pre post past e todo : past ++ e :: todo = pre ++ post -> forallb before_rename pre = true ->
  post = [] \/ post = [Persist] \/ post = [Persist; SyncDir] ->
  (before_rename e = true /\ forallb before_rename past = true) \/ (past = pre /\ e = Persist /\ post <> []) \/
  (past = pre ++ [Persist] /\ e = SyncDir).
Proof.
  intros H Hpre Hpost. apply app_eq_inv in H as [(k & -> & H)|(k & -> & H)].
  - destruct Hpost as [->|[-> | ->] ]; destruct k as [|b k]; cbn in H; try done; [..|injection H as <- H]; rewrite ?app_nil_r.
    + injection H as -> _. right; left. by split_and!.
    + injection H as <- H. by destruct k.
    + injection H as -> _. right; left. by split_and!.
    + destruct k as [|c k]; [|by destruct k]. cbn in H. injection H as -> _. by right; right.
  - rewrite forallb_app in Hpre. apply andb_true_iff in Hpre as [H1 H2]. destruct k as [|b k].
    + rewrite app_nil_r. cbn in H. subst post. right; left. split_and!; [done | | done].
      by destruct Hpost as [?|[ [= -> _]|[= -> _] ] ].
    + injection H as <- _. cbn in H2. left. by apply andb_true_iff in H2 as [H2 _].
Qed.

(** The next change of a writer: it replaces the file if it is the rename. *)
Lemma change_serial i io k past e todo r d0 log :
  attempt_of xxh3 writers i io k = (past ++ e :: todo, r) -> reads d0 (read_text io) = true ->
  serial writers c0 log (content_of (run past d0)) ->
  serial writers c0 (if is_persist e then log ++ [i] else log) (content_of (apply e (run past d0))) /\
  (is_persist e = true -> existsb is_persist past = false).
Proof.
  intros Ha Hr Hs. apply one_attempt_does in Ha as (pre & post & Heq & Hpre & Hpost & _).
  destruct (next_change pre post past e todo) as [ [He Hp]|[(-> & -> & Hne)|[-> ->] ] ]; [done | done | by destruct Hpost as [->|(? & ? & ? & ? & ? & ? & ? & ? & ? & [->| ->])]; auto|..].
  - assert (is_persist e = false) as Hep by (by destruct e). rewrite Hep. split; [|done].
    rewrite before_rename_content in Hs by done. change (apply e (run past d0)) with (run [e] (run past d0)).
    rewrite !before_rename_content by (cbn; by rewrite ?He). done.
  - destruct Hpost as [?|(m & s & text & updated & n & Htext & Hc & Hn & Ht & _)]; [done|]. cbn [is_persist].
    split; [|intros _; by apply before_rename_no_persist]. unfold apply. rewrite Ht. rewrite before_rename_content in Hs by done.
    eapply (serial_edit _ _ _ _ _ _ _ _ Hs); [|exact Hc | done]. unfold reads in Hr.
    destruct (read_text io), (content_of d0); try done; injection Htext as <-; [by apply bool_decide_eq_true in Hr | done].
  - split; [|done]. cbn [is_persist]. unfold apply, content_of in *. done.
Qed.

Lemma disk_changed s i e lk l p lg :
  disk {| files := <[entry_of entry writers i := apply e (disk s (entry_of entry writers i))]> (files s); links := lk; locks := l;
          procs := p; log := lg |} file = apply e (disk s file).
Proof. unfold entry_of. rewrite same_entry. unfold disk at 1. cbn [files]. by rewrite lookup_insert_eq. Qed.

Lemma step_go_inv i s s' : inv s -> step xxh3 canonicalize absolute sha256 entry env writers (Go i) s = Some s' -> inv s'.
Proof.
  intros Hs. cbn [step]. destruct (procs s !! i) as [ [| |k path [|e todo] r| |]|] eqn:Ei; try done; intros [= <-].
  - destruct (inv_lock _ Hs _ _ _ Ei eq_refl) as [-> _].
    destruct (inv_procs _ Hs _ _ Ei) as (ios & io & past & d0 & Hf & Ha & Hr & Hd & Hi). rewrite app_nil_r in Ha.
    pose proof (so_far_attempt _ _ _ _ _ _ Hf Ha) as Hnext.
    apply one_attempt_does in Ha as (pre & post & -> & Hpre & Hpost & Hans). 
    rewrite existsb_app, (before_rename_no_persist pre) in Hi by done. cbn [orb] in Hi.
    assert (i ∈ log s <-> post <> []) as Hlog
      by (rewrite Hi; destruct Hpost as [->|(? & ? & ? & ? & ? & _ & _ & _ & _ & [->| ->])]; by split).
    eapply set_phase_inv; [done | done | | destruct r as [ [|]|]; by right].
    destruct r as [ [ [resp text]|]|e].
    + split; [eauto|]. rewrite Hlog. by rewrite Hans.
    + destruct Hans as [-> Hk]. split; [intros H; by apply Hlog in H | eauto].
    + split; [eauto | done].
  - destruct (inv_lock _ Hs _ _ _ Ei eq_refl) as [-> Hown].
    destruct (inv_procs _ Hs _ _ Ei) as (ios & io & past & d0 & Hf & Ha & Hr & Hd & Hi).
    pose proof (inv_serial _ Hs) as Hser. rewrite Hd in Hser. destruct (change_serial _ _ _ _ _ _ _ _ _ Ha Hr Hser) as [Hser' Hone].
    assert (forall j, j <> i -> j ∈ (if is_persist e then log s ++ [i] else log s) <-> j ∈ log s) as Hother
      by (intros j Hj; destruct (is_persist e); [rewrite elem_of_app, list_elem_of_singleton; naive_solver | done]).
    split; rewrite ?disk_changed; cbn [links log procs locks].
    + destruct (is_persist e); [apply lookup_delete_None; right|]; apply Hs.
    + by rewrite Hd.
    + destruct (is_persist e); [|apply Hs]. apply NoDup_app. split_and!; [apply Hs | | apply NoDup_singleton].
      intros j Hj ->%list_elem_of_singleton. apply Hi in Hj. by rewrite Hone in Hj.
    + intros j q l Hj Hq. destruct (decide (j = i)) as [->|Hne]; [rewrite lookup_insert_eq in Hj; injection Hj as <-; by injection Hq as <-|].
      rewrite lookup_insert_ne in Hj by done. by eapply inv_lock.
    + intros j q Hj. destruct (decide (j = i)) as [->|Hne].
      * rewrite lookup_insert_eq in Hj. injection Hj as <-. exists ios, io, (past ++ [e]), d0. rewrite <- app_assoc, run_changes_app.
        split_and!; [done..| by rewrite Hd |]. rewrite existsb_app. cbn [existsb]. rewrite orb_false_r. destruct (is_persist e).
        -- rewrite orb_true_r, elem_of_app, list_elem_of_singleton. naive_solver.
        -- by rewrite orb_false_r.
      * rewrite lookup_insert_ne in Hj by done. pose proof (inv_procs _ Hs _ _ Hj) as Hq. unfold proc_ok in *.
        destruct q as [| |k' path' todo' r'|r'|]; [by rewrite Hother.. | | destruct r' as [ [resp ?]|]; [by rewrite Hother | done] | done].
        destruct (inv_lock _ Hs _ _ _ Hj eq_refl) as [_ H]. congruence.
Qed.

Lemma step_inv a s s' : inv s -> step xxh3 canonicalize absolute sha256 entry env writers a s = Some s' -> inv s'.
Proof.
  destruct a as [i io|i io|i|i]; [apply step_acquire_inv | apply step_attempt_inv | apply step_go_inv|].
  intros Hs. cbn [step]. destruct (procs s !! i) as [p|] eqn:Ei; [|done]. intros [= <-]. eapply set_phase_inv; [done | done | done|].
  cbn [lock_of]. destruct (lock_of p) as [path|] eqn:El; [right | by left]. by destruct (inv_lock _ Hs _ _ _ Ei El) as [-> _].
Qed.

Lemma steps_inv l : forall s s', inv s -> steps xxh3 canonicalize absolute sha256 entry env writers l s = Some s' -> inv s'.
Proof.
  induction l as [|a l IH]; intros s s' Hs; cbn [steps]; [by intros [= <-]|]. intros H. apply bind_Some in H as (s1 & H1 & H).
  eapply IH; [|exact H]. by eapply step_inv.
Qed.

Lemma starts_inv s : starts s -> links s !! file = None -> c0 = content_of (disk s file) -> inv s.
Proof.
  intros (Hp & Hl & Hlog) Hr Hc. split; rewrite ?Hlog; [done | rewrite Hc; constructor | constructor | |].
  - intros i p l Hi Hlk. by rewrite (Hp _ _ Hi) in Hlk.
  - intros i p Hi. rewrite (Hp _ _ Hi). split; [apply not_elem_of_nil | exists (fun _ => no_io); apply so_far_start].
Qed.
End NoLostUpdate.


(** *** Edits in the directory [/a] *)

Definition entry_in_a (p : rstr) : rstr := if str_eqb p (lit "f") then lit "/a/f" else p.
Definition absolute_in_a (p : rstr) : option rstr := Some (entry_in_a p).
Definition canonicalize_in_a (v : rstr -> Entry) (p : rstr) : option rstr :=
  if str_eqb p (lit "/a") then Some p
  else match v (entry_in_a p) with Missing => None | Regular => Some (entry_in_a p) | Link to => Some to end.

Definition locks_at : LockEnv := {| rtk_lock_dir := Some (lit "/locks"); cache_dir := None; temp_dir := lit "/tmp" |}.
Definition can_lock : AcquireIo := {| no_lock_dir := false; no_lock_file := false; no_lock := false |}.

Definition replacing (from to : string) : rstr -> WriteAttempt :=
  edit_text find_two (lit "no matches for --from") (lit "--from") (lit from) (lit to) false.

Definition edits (path : string) (from to : string) : Writer :=
  {| target := lit path; edit := lit "replace"; compute := replacing from to;
     params := {| dry_run := false; fast_mode := false; output := Quiet; concurrency := {| use_cas_flag := false; max_retries := 0 |} |} |}.

Definition quiet_io (text : string) : AttemptIo :=
  {| lock_fails := None; read_text := Text (lit text); snapshot_stat := Err tt;
     write_io := {| parent := Some (lit "/a"); stat := Ok (Some {| m_len := 3; m_modified := Some 0; m_permissions := 420 |});
                    cas_reads := []; hash_reads := []; compare_reads := []; create_dir_fails := false;
                    temp_fails := false; new_file_mode := 420; write_fails := None; flush_fails := None; permissions_fail := false;
                    sync_fails := false; persist_fails := false; sync_dir_fails := false |} |}.

Definition holding (text : string) : Disk :=
  let i := {| bytes := utf8 (lit text); mode := 420; synced := true |} in
  {| named := Some i; after_crash := [Some i]; temp := None |}.

(** An edit from lock to answer. *)
Definition whole_edit (i : nat) (text : string) : list Action := [Acquire i can_lock; Attempt i (quiet_io text)] ++ repeat (Go i) 7.

(** Three edits of [/a/f], one of which knows it as [f]: the first replaces the
    file while the second waits for the lock; the third is killed before its rename;
    the second then works on what the first left. *)
Definition three_writers (i : nat) : Writer :=
  match i with O => edits "/a/f" "one" "two" | 1%nat => edits "f" "two" "three" | _ => edits "/a/f" "two" "none" end.

Definition three_start : System :=
  {| files := {[lit "/a/f" := holding "one"]}; links := ∅; locks := ∅;
     procs := <[0%nat := Waiting 0]> (<[1%nat := Waiting 0]> {[2%nat := Waiting 0]}); log := [] |}.

Definition three_run : list Action :=
  whole_edit 0 "one" ++ [Acquire 2 can_lock; Attempt 2 (quiet_io "two"); Go 2; Go 2; Kill 2] ++ whole_edit 1 "two".


(** [/a/l] is a link to [/a/f].  An edit under that name takes the lock of [/a/f] and
    reads it, and then leaves its change in a file of its own in the place of the link:
    a later edit of [/a/f] knows nothing of it, though both report a change. *)
Example an_edit_through_a_link_is_lost :
  let writers i := match i with O => edits "/a/l" "one" "two" | _ => edits "/a/f" "one" "six" end in
  exists s, steps (fun _ => 0) canonicalize_in_a absolute_in_a (fun _ => []) entry_in_a locks_at writers (whole_edit 0 "one" ++ whole_edit 1 "one")
      {| files := {[lit "/a/f" := holding "one"]}; links := {[lit "/a/l" := lit "/a/f"]}; locks := ∅;
         procs := <[0%nat := Waiting 0]> {[1%nat := Waiting 0]}; log := [] |} = Some s /\
    log s = [0; 1]%nat /\ content_of (disk s (lit "/a/f")) = Some (utf8 (lit "six")) /\
    content_of (disk s (lit "/a/l")) = Some (utf8 (lit "two")) /\ links s = ∅ /\
    (exists first second, procs s !! 0%nat = Some (Finished (Ok first)) /\ procs s !! 1%nat = Some (Finished (Ok second)) /\
                          committed first.1 = true /\ committed second.1 = true).
Proof.
  eexists. split; [vm_compute; reflexivity|]. split_and!; [vm_compute; reflexivity..|].
  eexists _, _. split_and!; vm_compute; reflexivity.
Qed.
End WriteLock.
