(* ===== verification/Fidelity.v ===== *)
(** Exact output on account ([crates/hzr-daemon/src/ledger_writer.rs], the
    fidelity commands of the writer, and the queries and the insertion of
    [crates/hzr-core/src/ledger.rs] behind them): an agent may ask for output that
    is not shortened, within an allowance per session, and every command that ran
    that way is counted once, whatever crashes in between.

    The writer is one thread that takes its commands one after the other, so each
    command is one function of its state.  A file of the directory of pending
    operations is named by its identifier; what it holds is what [serde_json] reads
    from it, [None] where that fails.  The file system and the database answer as
    the arguments of a command say: a write may fail before or after the rename, a
    removal before or after the file is gone.  A process that dies inside a command
    leaves the disk that the same command leaves when the next of these calls
    fails, so a restart after any command covers it; the temporary files it may
    leave are never read.  Identifiers come from [TraceId::new] and both hashes
    from SHA-256: arguments.  The percentage that is stored beside the tokens is
    left out. *)

From S2P Require Import Prelude RStr Contract Operation ExecOutput.
From Stdlib Require Import ZifyBool ZifyN ZifyNat.

Module Fidelity.
Import Contract.

(** In milliseconds. *)
Definition RESERVED_FIDELITY_TTL : N := 5 * 60 * 1000.

Inductive OperationMeasurement := Estimated | Unmeasured.

#[global] Instance measurement_dec : EqDecision OperationMeasurement.
Proof. solve_decision. Defined.

(** The fields of an operation record that the fidelity commands read. *)
Record OperationRecord := {
  r_input_tokens : N;
  r_output_tokens : N;
  r_execution_ms : N;
  project_path : rstr;
  r_measurement : OperationMeasurement;
  r_agent : option rstr;
  session_id : option rstr;
  attribution : option AccountingAttribution;
  r_evasion : option EvasionAttribution;
  r_host_grant_applied : bool;
}.

Record PrivacySafeFidelityOperation := {
  reservation_id : rstr;
  input_tokens : N;
  output_tokens : N;
  execution_ms : N;
  measurement : OperationMeasurement;
  project_hash : rstr;
  project_scope_hashes : rstr;
  session_hash : option rstr;
  agent : option rstr;
  agent_hash : option rstr;
  evasion : EvasionAttribution;
  host_grant_applied : bool;
}.

Record FidelityReservation := { id : rstr; res_session_hash : rstr }.

Inductive DurableFidelityRecord :=
| DReserved (schema_version : N) (reservation_id session_hash : rstr) (output_tokens_upper_bound created_at_unix_ms : N)
| DExecuting (schema_version : N) (reservation_id session_hash : rstr) (output_tokens_upper_bound created_at_unix_ms
    execution_started_at_unix_ms : N) (operation : PrivacySafeFidelityOperation)
| DExecuted (schema_version output_tokens_upper_bound : N) (operation : PrivacySafeFidelityOperation).

Inductive PendingFidelityState := Reserved | Executing.

#[global] Instance pending_state_dec : EqDecision PendingFidelityState.
Proof. solve_decision. Defined.

Record PendingFidelity := {
  output_tokens_upper_bound : N;
  created_at_unix_ms : N;
  state : PendingFidelityState;
  operation : option PrivacySafeFidelityOperation;
}.

Inductive FidelityUnknownResolution := AcknowledgeExecuted | ProveNotExecuted.

#[global] Instance resolution_dec : EqDecision FidelityUnknownResolution.
Proof. solve_decision. Defined.

Record FidelityReconcileReceipt := {
  rc_schema_version : N;
  rc_reservation_id : rstr;
  resolution : FidelityUnknownResolution;
  operation_recorded : bool;
  allowance_released : bool;
  cleanup_complete : bool;
  idempotent_replay : bool;
}.

Inductive LedgerError := InvalidOperation (message : rstr) | Database (source : rstr).

Inductive LedgerWriterError :=
| Ledger (error : LedgerError)
| Thread (source : rstr)
| Unavailable
| Durability (message : rstr)
| AccountingIncomplete (detail : rstr) (incident_persisted : bool).

Definition incident_persisted (e : LedgerWriterError) : bool :=
  match e with AccountingIncomplete _ persisted => persisted | _ => false end.

Definition execution_unknown (detail : rstr) : LedgerWriterError := AccountingIncomplete detail true.

Definition display (e : LedgerError) : rstr :=
  match e with
  | InvalidOperation m => lit "invalid operation accounting: " ++ m
  | Database m => lit "ledger database error: " ++ m
  end.

(** ** The ledger *)

Definition CURRENT_ACCOUNTING_POLICY_VERSION : rstr := lit "privacy_typed_v2".
Definition LEGACY_ACCOUNTING_POLICY_VERSION_V1 : rstr := lit "privacy_typed_v1".

(** The columns of [commands] that the insertion fills and the queries read. *)
Record CommandRow := {
  row_input : N;
  row_output : N;
  row_saved : N;
  row_ms : N;
  row_measurement : OperationMeasurement;
  row_agent : option rstr;
  row_project_hash : rstr;
  row_scope_hashes : rstr;
  row_session_hash : option rstr;
  row_agent_hash : option rstr;
  row_policy_version : rstr;
  row_evasion : option EvasionAttribution;
  row_hatch_marker : bool;
  fidelity_reservation_id : option rstr;
  row_host_grant : bool;
}.

Record FidelityAllowance := { max_operations : N; max_delivered_tokens : N }.

Definition default_allowance : FidelityAllowance := {| max_operations := 5; max_delivered_tokens := 100000 |}.

Record FidelitySessionUsage := {
  operations : N;
  delivered_tokens : N;
  u_remaining_operations : N;
  u_remaining_tokens : N;
  u_exhausted : bool;
}.

(** The loop of [Path::ancestors]; every parent is shorter. *)
Fixpoint ancestors_from (fuel : nat) (path : rstr) : list rstr :=
  path :: match fuel, ExecOutput.parent path with S fuel, Some p => ancestors_from fuel p | _, _ => [] end.
Definition ancestors (path : rstr) : list rstr := ancestors_from (length path) path.

Section Ledger.
Context (privacy_hash identity_hash : rstr -> rstr -> rstr).

(** The [WHERE] of the query. *)
Definition counted (session : rstr) (row : CommandRow) : bool :=
  match row_session_hash row with
  | Some h => one_of h [privacy_hash (lit "session") session; identity_hash (lit "session") session]
  | None => false
  end && row_hatch_marker row
  && one_of (row_policy_version row) [CURRENT_ACCOUNTING_POLICY_VERSION; LEGACY_ACCOUNTING_POLICY_VERSION_V1].

Definition sum_N (l : list N) : N := foldr N.add 0 l.

Definition operations_of (rows : list CommandRow) (session : rstr) : N :=
  N.of_nat (length (List.filter (counted session) rows)).
Definition tokens_of (rows : list CommandRow) (session : rstr) : N :=
  sum_N (row_output <$> List.filter (counted session) rows).

(** [db] is the error of the database, if it has one. *)
Definition fidelity_session_usage (db : option rstr) (rows : list CommandRow) (session : rstr)
    (allowance : FidelityAllowance) : result LedgerError FidelitySessionUsage :=
  match db with
  | Some e => Err (Database e)
  | None =>
      let operations := operations_of rows session in
      let delivered_tokens := tokens_of rows session in
      Ok {| operations := operations; delivered_tokens := delivered_tokens;
            u_remaining_operations := sat_sub (max_operations allowance) operations;
            u_remaining_tokens := sat_sub (max_delivered_tokens allowance) delivered_tokens;
            u_exhausted := (max_operations allowance <=? operations)
                           || (max_delivered_tokens allowance <=? delivered_tokens) |}
  end.

Definition row_of (record : PrivacySafeFidelityOperation) : CommandRow :=
  {| row_input := input_tokens record; row_output := output_tokens record;
     row_saved := sat_sub (input_tokens record) (output_tokens record); row_ms := execution_ms record;
     row_measurement := measurement record; row_agent := agent record; row_project_hash := project_hash record;
     row_scope_hashes := project_scope_hashes record; row_session_hash := session_hash record;
     row_agent_hash := agent_hash record; row_policy_version := CURRENT_ACCOUNTING_POLICY_VERSION;
     row_evasion := Some (evasion record); row_hatch_marker := hatch_marker (evasion record);
     fidelity_reservation_id := Some (reservation_id record); row_host_grant := host_grant_applied record |}.

Definition recorded (rows : list CommandRow) (reservation_id : rstr) : bool :=
  existsb (fun row => bool_decide (fidelity_reservation_id row = Some reservation_id)) rows.

(** [INSERT OR IGNORE] under the unique index on [fidelity_reservation_id]. *)
Definition insert_or_ignore (rows : list CommandRow) (record : PrivacySafeFidelityOperation) : list CommandRow :=
  if recorded rows (reservation_id record) then rows else rows ++ [row_of record].

Definition record_privacy_safe_fidelity_operation (db : option rstr) (rows : list CommandRow)
    (record : PrivacySafeFidelityOperation) : result LedgerError unit * list CommandRow :=
  if is_empty (reservation_id record) || negb (bool_decide (class (evasion record) = EvasionClass.E7FidelityHatch))
  then (Err (InvalidOperation (lit "durable fidelity record requires an E7 reservation identity")), rows)
  else if bool_decide (measurement record = Unmeasured)
          && (negb (input_tokens record =? 0) || negb (output_tokens record =? 0))
  then (Err (InvalidOperation (lit "unmeasured durable fidelity operations cannot carry token counts")), rows)
  else match db with
       | Some e => (Err (Database e), rows)
       | None => (Ok tt, insert_or_ignore rows record)
       end.

Definition known_agents : list rstr :=
  map lit ["codex"; "claude-code"; "cursor"; "mcp"; "cli"; "hook"; "test"]%string.

Definition privacy_safe_fidelity_operation (reservation_id : rstr) (record : OperationRecord)
  : option PrivacySafeFidelityOperation :=
  evasion ← match r_evasion record with
            | Some e => Some e
            | None => attribution record ≫= Contract.evasion
            end;
  Some {| reservation_id := reservation_id; input_tokens := r_input_tokens record;
          output_tokens := r_output_tokens record; execution_ms := r_execution_ms record;
          measurement := r_measurement record; project_hash := identity_hash (lit "project") (project_path record);
          project_scope_hashes :=
            join (lit "|") (map (identity_hash (lit "project"))
              (List.filter (fun value => negb (is_empty value)) (ancestors (project_path record))));
          session_hash := privacy_hash (lit "session") <$> session_id record;
          agent := (fun value => if one_of value known_agents then value else lit "other") <$> r_agent record;
          agent_hash := privacy_hash (lit "agent") <$> r_agent record; evasion := evasion;
          host_grant_applied := r_host_grant_applied record |}.

(** ** The directory of pending operations *)

(** [corrupt] names the files put aside under [<id>.json.corrupt]. *)
Record Disk := {
  records : gmap rstr (option DurableFidelityRecord);
  corrupt : gset rstr;
  receipts : gmap rstr (option FidelityReconcileReceipt);
}.

(** [persist_json] replaces the file by a rename; the directory is synced after it. *)
Inductive Persist := Replaced | NotReplaced | ReplacedUnsynced.
(** [remove_durable_record] syncs the directory too. *)
Inductive Remove := Removed | NotRemoved (error : rstr) | RemovedUnsynced (error : rstr).
Inductive RemoveError := NotFound | OtherError (error : rstr).

Definition persisted (p : Persist) : bool := match p with Replaced => true | _ => false end.

Definition set_records (r : gmap rstr (option DurableFidelityRecord)) (disk : Disk) : Disk :=
  {| records := r; corrupt := corrupt disk; receipts := receipts disk |}.

Definition persist_durable_record (p : Persist) (id : rstr) (record : DurableFidelityRecord) (disk : Disk) : bool * Disk :=
  (persisted p, match p with NotReplaced => disk | _ => set_records (<[id := Some record]> (records disk)) disk end).

Definition persist_receipt (p : Persist) (id : rstr) (receipt : FidelityReconcileReceipt) (disk : Disk) : bool * Disk :=
  (persisted p,
   match p with
   | NotReplaced => disk
   | _ => {| records := records disk; corrupt := corrupt disk; receipts := <[id := Some receipt]> (receipts disk) |}
   end).

Definition remove_durable_record (r : Remove) (id : rstr) (disk : Disk) : result RemoveError unit * Disk :=
  match r, records disk !! id with
  | NotRemoved e, _ => (Err (OtherError e), disk)
  | _, None => (Err NotFound, disk)
  | Removed, Some _ => (Ok tt, set_records (delete id (records disk)) disk)
  | RemovedUnsynced e, Some _ => (Err (OtherError e), set_records (delete id (records disk)) disk)
  end.

(** The rename to [<id>.json.corrupt], whose failure is ignored. *)
Definition put_aside (renamed : bool) (id : rstr) (disk : Disk) : Disk :=
  if renamed then {| records := delete id (records disk); corrupt := {[ id ]} ∪ corrupt disk; receipts := receipts disk |}
  else disk.

Definition receipt_of (id : rstr) (disk : Disk) : option FidelityReconcileReceipt := mjoin (receipts disk !! id).

Record FidelityDurabilityStatus := {
  reserved : N;
  executing_unknown : N;
  executed_pending_replay : N;
  corrupt_files : N;
  unknown_reservation_ids : list rstr;
}.

Definition healthy (s : FidelityDurabilityStatus) : bool :=
  (executing_unknown s =? 0) && (executed_pending_replay s =? 0) && (corrupt_files s =? 0).

(** What one file of the directory adds to the status. *)
Definition inspect_file (s : FidelityDurabilityStatus) (file : option DurableFidelityRecord) : FidelityDurabilityStatus :=
  match file with
  | Some (DReserved 1 _ _ _ _) =>
      {| reserved := reserved s + 1; executing_unknown := executing_unknown s;
         executed_pending_replay := executed_pending_replay s; corrupt_files := corrupt_files s;
         unknown_reservation_ids := unknown_reservation_ids s |}
  | Some (DExecuting 1 id _ _ _ _ _) =>
      {| reserved := reserved s; executing_unknown := executing_unknown s + 1;
         executed_pending_replay := executed_pending_replay s; corrupt_files := corrupt_files s;
         unknown_reservation_ids := unknown_reservation_ids s ++ [id] |}
  | Some (DExecuted 1 _ _) =>
      {| reserved := reserved s; executing_unknown := executing_unknown s;
         executed_pending_replay := executed_pending_replay s + 1; corrupt_files := corrupt_files s;
         unknown_reservation_ids := unknown_reservation_ids s |}
  | _ =>
      {| reserved := reserved s; executing_unknown := executing_unknown s;
         executed_pending_replay := executed_pending_replay s; corrupt_files := corrupt_files s + 1;
         unknown_reservation_ids := unknown_reservation_ids s |}
  end.

(** [inspect_fidelity_pending] of a directory that can be read; files put aside count as corrupt. *)
Definition inspect_fidelity_pending (disk : Disk) : FidelityDurabilityStatus :=
  foldl inspect_file
    {| reserved := 0; executing_unknown := 0; executed_pending_replay := 0;
       corrupt_files := N.of_nat (size (corrupt disk)); unknown_reservation_ids := [] |}
    (map_to_list (records disk)).*2.

(** ** The writer *)

Abbreviation PendingMap := (gmap rstr (gmap rstr PendingFidelity)).

Record Writer := {
  pending_fidelity : PendingMap;
  fidelity_blocked : bool;
  disk : Disk;
  rows : list CommandRow;
}.

Definition with_pending (p : PendingMap) (w : Writer) : Writer :=
  {| pending_fidelity := p; fidelity_blocked := fidelity_blocked w; disk := disk w; rows := rows w |}.
Definition with_disk (d : Disk) (w : Writer) : Writer :=
  {| pending_fidelity := pending_fidelity w; fidelity_blocked := fidelity_blocked w; disk := d; rows := rows w |}.
Definition with_rows (r : list CommandRow) (w : Writer) : Writer :=
  {| pending_fidelity := pending_fidelity w; fidelity_blocked := fidelity_blocked w; disk := disk w; rows := r |}.

Definition session_of (w : Writer) (hash : rstr) : gmap rstr PendingFidelity := default ∅ (pending_fidelity w !! hash).
Definition pending_of (w : Writer) (hash id : rstr) : option PendingFidelity := pending_fidelity w !! hash ≫= lookup id.

Definition put_session (hash : rstr) (session : gmap rstr PendingFidelity) (w : Writer) : Writer :=
  with_pending (<[hash := session]> (pending_fidelity w)) w.

(** An entry goes, and its session with the last of them. *)
Definition forget (hash id : rstr) (w : Writer) : Writer :=
  match pending_fidelity w !! hash with
  | Some session =>
      let session := delete id session in
      with_pending (if bool_decide (session = ∅) then delete hash (pending_fidelity w)
                    else <[hash := session]> (pending_fidelity w)) w
  | None => w
  end.

(** [sum::<u64>()] wraps in a release build. *)
Definition reserved_tokens (session : gmap rstr PendingFidelity) : N :=
  sum_N (output_tokens_upper_bound <$> (map_to_list session).*2) mod (u64_max + 1).

(** [WriteCommand::ReserveFidelity]. *)
Definition reserve_fidelity (db : option rstr) (p : Persist) (now : N) (reservation_id session : rstr)
    (allowance : FidelityAllowance) (bound : N) (override_budget : bool) (w : Writer)
  : result LedgerWriterError (option FidelityReservation) * Writer :=
  if fidelity_blocked w
  then (Err (Durability (lit "fidelity pending records require repair; run `hzr doctor`")), w)
  else
    match fidelity_session_usage db (rows w) session allowance with
    | Err e => (Err (Ledger e), w)
    | Ok usage =>
        let hash := privacy_hash (lit "session") session in
        let entries := session_of w hash in
        let w := put_session hash entries w in
        if negb override_budget
           && ((u_remaining_operations usage <=? N.of_nat (size entries))
               || (sat_sub (u_remaining_tokens usage) (reserved_tokens entries) <? bound))
        then (Ok None, w)
        else
          let (ok, d) := persist_durable_record p reservation_id (DReserved 1 reservation_id hash bound now) (disk w) in
          let w := with_disk d w in
          if ok
          then (Ok (Some {| id := reservation_id; res_session_hash := hash |}),
                put_session hash
                  (<[reservation_id := {| output_tokens_upper_bound := bound; created_at_unix_ms := now;
                                          state := Reserved; operation := None |}]> entries) w)
          else (Err (Durability (lit "persist pre-execution reservation")), w)
    end.

(** [WriteCommand::BeginFidelity]. *)
Definition begin_fidelity (p : Persist) (now : N) (r : FidelityReservation) (record : OperationRecord) (w : Writer)
  : result LedgerWriterError unit * Writer :=
  match pending_of w (res_session_hash r) (id r) with
  | None => (Err (Durability (lit "fidelity reservation is unavailable")), w)
  | Some pending =>
      match privacy_safe_fidelity_operation (id r) record with
      | None => (Err (Durability (lit "execution boundary requires E7 attribution")), w)
      | Some operation =>
          let (ok, d) :=
            persist_durable_record p (id r)
              (DExecuting 1 (id r) (res_session_hash r) (output_tokens_upper_bound pending) (created_at_unix_ms pending)
                 now operation) (disk w) in
          let w := with_disk d w in
          if ok
          then (Ok tt,
                put_session (res_session_hash r)
                  (<[id r := {| output_tokens_upper_bound := output_tokens_upper_bound pending;
                                created_at_unix_ms := created_at_unix_ms pending; state := Executing;
                                operation := Some operation |}]> (session_of w (res_session_hash r))) w)
          else (Err (Durability (lit "persist execution boundary")), w)
      end
  end.

Definition is_executing (w : Writer) (hash id : rstr) : bool :=
  match pending_of w hash id with Some pending => bool_decide (state pending = Executing) | None => false end.

Definition show_remove (e : RemoveError) : rstr :=
  match e with NotFound => lit "No such file or directory (os error 2)" | OtherError e => e end.

(** The ledger row of an executed operation and the removal of its file. *)
Definition settle_executed (db : option rstr) (rm : Remove) (operation : PrivacySafeFidelityOperation) (file : rstr) (w : Writer)
  : result LedgerWriterError unit * Writer :=
  match record_privacy_safe_fidelity_operation db (rows w) operation with
  | (Err e, _) => (Err (AccountingIncomplete (display e) true), w)
  | (Ok _, rs) =>
      let (removed, d) := remove_durable_record rm file (disk w) in
      (match removed with
       | Ok _ => Ok tt
       | Err e => Err (AccountingIncomplete
                         (lit "ledger row committed but durable record cleanup failed: " ++ show_remove e) true)
       end, with_disk d (with_rows rs w))
  end.

(** [WriteCommand::CompleteFidelity]. *)
Definition complete_fidelity (db : option rstr) (p : Persist) (rm : Remove) (r : FidelityReservation)
    (record : OperationRecord) (w : Writer) : result LedgerWriterError unit * Writer :=
  if negb (is_executing w (res_session_hash r) (id r))
  then (Err (Durability (lit "fidelity completion requires an executing reservation")), w)
  else
    let failed := Err (AccountingIncomplete (lit "persist executed fidelity outbox record") false) in
    match privacy_safe_fidelity_operation (id r) record with
    | None => (failed, w)
    | Some operation =>
        let bound := match pending_of w (res_session_hash r) (id r) with
                     | Some pending => output_tokens_upper_bound pending
                     | None => r_output_tokens record
                     end in
        let (ok, d) := persist_durable_record p (id r) (DExecuted 1 bound operation) (disk w) in
        let w := with_disk d w in
        if negb ok then (failed, w)
        else match settle_executed db rm operation (id r) w with
             | (Ok _, w) => (Ok tt, forget (res_session_hash r) (id r) w)
             | (Err e, w) => (Err e, w)
             end
    end.

Definition replayed (r : FidelityReconcileReceipt) (replay : bool) : FidelityReconcileReceipt :=
  {| rc_schema_version := rc_schema_version r; rc_reservation_id := rc_reservation_id r; resolution := resolution r;
     operation_recorded := operation_recorded r; allowance_released := allowance_released r;
     cleanup_complete := cleanup_complete r; idempotent_replay := replay |}.
Definition cleaned (r : FidelityReconcileReceipt) (complete : bool) : FidelityReconcileReceipt :=
  {| rc_schema_version := rc_schema_version r; rc_reservation_id := rc_reservation_id r; resolution := resolution r;
     operation_recorded := operation_recorded r; allowance_released := allowance_released r;
     cleanup_complete := complete; idempotent_replay := idempotent_replay r |}.

(** [find_map] over the sessions. *)
Definition find_pending (w : Writer) (id : rstr) : option (rstr * PendingFidelity) :=
  head (omap (fun kv => pair kv.1 <$> kv.2 !! id) (map_to_list (pending_fidelity w))).

(** [WriteCommand::ReconcileFidelity]; [again] is the second write of the receipt. *)
Definition reconcile_fidelity (db : option rstr) (p : Persist) (rm : Remove) (again : Persist) (id : rstr)
    (how : FidelityUnknownResolution) (w : Writer) : result LedgerWriterError FidelityReconcileReceipt * Writer :=
  match receipt_of id (disk w) with
  | Some receipt => (Ok (replayed receipt true), w)
  | None =>
      match find_pending w id with
      | None => (Err (Durability (lit "unknown fidelity reservation")), w)
      | Some (hash, pending) =>
          if negb (bool_decide (state pending = Executing))
          then (Err (Durability (lit "only an unknown executing reservation can be reconciled")), w)
          else
            let operation_recorded := bool_decide (how = AcknowledgeExecuted) in
            let '(recorded, rs) :=
              if operation_recorded
              then match operation pending with
                   | None => (false, rows w)
                   | Some op => let (result, rs) := record_privacy_safe_fidelity_operation db (rows w) op in (is_ok result, rs)
                   end
              else (true, rows w) in
            if negb recorded
            then (Err (AccountingIncomplete (lit "failed to record acknowledged unknown execution") true), w)
            else
              let w := with_rows rs w in
              let receipt :=
                {| rc_schema_version := 1; rc_reservation_id := id; resolution := how;
                   operation_recorded := operation_recorded; allowance_released := true; cleanup_complete := false;
                   idempotent_replay := false |} in
              let (ok, d) := persist_receipt p id receipt (disk w) in
              if negb ok
              then (Err (AccountingIncomplete (lit "persist fidelity reconciliation receipt") true), with_disk d w)
              else
                let (removed, d) := remove_durable_record rm id d in
                let receipt := cleaned receipt (is_ok removed) in
                let d := if is_ok removed then (persist_receipt again id receipt d).2 else d in
                (Ok receipt, forget hash id (with_disk d w))
      end
  end.

(** [WriteCommand::CancelFidelity]. *)
Definition cancel_fidelity (rm : Remove) (r : FidelityReservation) (pre_spawn_proven : bool) (w : Writer)
  : result LedgerWriterError unit * Writer :=
  if is_executing w (res_session_hash r) (id r) && negb pre_spawn_proven
  then (Err (Durability
          (lit "executing fidelity reservation is an unknown-execution state and cannot be cancelled")), w)
  else
    let (removed, d) := remove_durable_record rm (id r) (disk w) in
    let w := with_disk d w in
    match removed with
    | Ok _ | Err NotFound => (Ok tt, forget (res_session_hash r) (id r) w)
    | Err (OtherError e) =>
        (Err (Durability (lit "remove cancelled reservation " ++ id r ++ lit ".json: " ++ e)), w)
    end.

(** ** Starting the writer *)

(** What the disk and the database answer while the directory is loaded. *)
Record LoadIo := {
  load_now : N;
  load_db : rstr -> option rstr;
  load_remove : rstr -> Remove;
  load_rename : rstr -> bool;
}.

Record Loading := { l_pending : PendingMap; integrity_issues : N; l_disk : Disk; l_rows : list CommandRow }.

Definition issue (bad : bool) (n : N) : N := if bad then n + 1 else n.

Definition add_pending (hash id : rstr) (pending : PendingFidelity) (m : PendingMap) : PendingMap :=
  <[hash := <[id := pending]> (default ∅ (m !! hash))]> m.

(** The row of an operation if it has to be recorded, and the removal of the file only if that worked. *)
Definition settle_file (io : LoadIo) (record : bool) (operation : PrivacySafeFidelityOperation) (file : rstr) (l : Loading)
  : Loading :=
  let '(ok, rs) :=
    if record
    then let (result, rs) := record_privacy_safe_fidelity_operation (load_db io file) (l_rows l) operation in (is_ok result, rs)
    else (true, l_rows l) in
  let '(removed, d) := if ok then remove_durable_record (load_remove io file) file (l_disk l) else (Ok tt, l_disk l) in
  {| l_pending := l_pending l; integrity_issues := issue (negb ok || negb (is_ok removed)) (integrity_issues l);
     l_disk := d; l_rows := rs |}.

(** One turn of the loop over the directory; [file] is the name without [.json]. *)
Definition load_file (io : LoadIo) (l : Loading) (file : rstr) : Loading :=
  let aside :=
    {| l_pending := l_pending l; integrity_issues := integrity_issues l + 1;
       l_disk := put_aside (load_rename io file) file (l_disk l); l_rows := l_rows l |} in
  let keep hash id pending :=
    {| l_pending := add_pending hash id pending (l_pending l); integrity_issues := integrity_issues l;
       l_disk := l_disk l; l_rows := l_rows l |} in
  match records (l_disk l) !! file with
  | None => l
  | Some None => aside
  | Some (Some (DReserved 1 id hash bound created)) =>
      if RESERVED_FIDELITY_TTL <=? sat_sub (load_now io) created
      then
        let (removed, d) := remove_durable_record (load_remove io file) file (l_disk l) in
        {| l_pending := l_pending l; integrity_issues := issue (negb (is_ok removed)) (integrity_issues l);
           l_disk := d; l_rows := l_rows l |}
      else keep hash id {| output_tokens_upper_bound := bound; created_at_unix_ms := created; state := Reserved;
                           operation := None |}
  | Some (Some (DExecuting 1 id hash bound created _ op)) =>
      match receipt_of id (l_disk l) with
      | Some receipt => settle_file io (bool_decide (resolution receipt = AcknowledgeExecuted)) op file l
      | None => keep hash id {| output_tokens_upper_bound := bound; created_at_unix_ms := created; state := Executing;
                                operation := Some op |}
      end
  | Some (Some (DExecuted 1 _ op)) => settle_file io true op file l
  | Some (Some _) => aside
  end.

(** [names] are the files of the directory in the order in which [read_dir] lists them. *)
Definition load_and_reconcile_durable_records (io : LoadIo) (names : list rstr) (d : Disk) (rs : list CommandRow) : Loading :=
  foldl (load_file io) {| l_pending := ∅; integrity_issues := 0; l_disk := d; l_rows := rs |} names.

Definition writer_of (l : Loading) : Writer :=
  {| pending_fidelity := l_pending l; fidelity_blocked := 0 <? integrity_issues l; disk := l_disk l; rows := l_rows l |}.

(** [LedgerWriter::open]. *)
Definition open (io : LoadIo) (names : list rstr) (d : Disk) (rs : list CommandRow) : Writer :=
  writer_of (load_and_reconcile_durable_records io names d rs).

(** ** The writer and its callers *)

(** [held] are the reservations in the hands of callers, with their sessions: a
    restart of the daemon takes them all, and completing or cancelling consumes one. *)
Record System := { writer : Writer; held : gmap rstr rstr }.

Inductive Event :=
| Reserve (db : option rstr) (p : Persist) (now : N) (reservation_id session : rstr) (allowance : FidelityAllowance)
    (bound : N) (override_budget : bool)
| Begin (p : Persist) (now : N) (r : FidelityReservation) (record : OperationRecord)
| Complete (db : option rstr) (p : Persist) (rm : Remove) (r : FidelityReservation) (record : OperationRecord)
| Reconcile (db : option rstr) (p : Persist) (rm : Remove) (again : Persist) (id : rstr) (how : FidelityUnknownResolution)
| Cancel (rm : Remove) (r : FidelityReservation) (pre_spawn_proven : bool)
| OtherRow (row : CommandRow)
| Damage (file : rstr)
| Restart (io : LoadIo) (names : list rstr).

Definition step (s : System) (e : Event) : System :=
  let w := writer s in
  match e with
  | Reserve db p now i session a bound o =>
      let (answer, w) := reserve_fidelity db p now i session a bound o w in
      {| writer := w; held := match answer with Ok (Some r) => <[id r := res_session_hash r]> (held s) | _ => held s end |}
  | Begin p now r record => {| writer := (begin_fidelity p now r record w).2; held := held s |}
  | Complete db p rm r record =>
      {| writer := (complete_fidelity db p rm r record w).2; held := delete (id r) (held s) |}
  | Reconcile db p rm again i how => {| writer := (reconcile_fidelity db p rm again i how w).2; held := held s |}
  | Cancel rm r proven => {| writer := (cancel_fidelity rm r proven w).2; held := delete (id r) (held s) |}
  | OtherRow row => {| writer := with_rows (rows w ++ [row]) w; held := held s |}
  | Damage file =>
      {| writer := if decide (is_Some (records (disk w) !! file))
                   then with_disk (set_records (<[file := None]> (records (disk w))) (disk w)) w else w;
         held := held s |}
  | Restart io names => {| writer := open io names (disk w) (rows w); held := ∅ |}
  end.

Definition run (s : System) (es : list Event) : System := foldl step s es.

(** [ok] holds of each event in the state it meets. *)
Fixpoint permitted (ok : Event -> System -> Prop) (s : System) (es : list Event) : Prop :=
  match es with [] => True | e :: es => ok e s /\ permitted ok (step s e) es end.

Definition is_executed (d : Disk) (i : rstr) : Prop := exists v b op, records d !! i = Some (Some (DExecuted v b op)).

(** Callers use the reservations they hold, for the session they got them for, and
    identifiers are new; nobody proves that a command did not run whose completion is
    on file; a restart reads the whole directory. *)
Definition held_for (s : System) (r : FidelityReservation) (record : OperationRecord) : Prop :=
  held s !! id r = Some (res_session_hash r)
  /\ privacy_hash (lit "session") <$> session_id record = Some (res_session_hash r).

Definition allowed (e : Event) (s : System) : Prop :=
  match e with
  | Reserve _ _ _ i _ _ _ _ => records (disk (writer s)) !! i = None /\ recorded (rows (writer s)) i = false
  | Begin _ _ r record | Complete _ _ _ r record => held_for s r record
  | Cancel _ r _ => held s !! id r = Some (res_session_hash r)
  | Reconcile _ _ _ _ i ProveNotExecuted => ~ is_executed (disk (writer s)) i
  | Reconcile _ _ _ _ _ AcknowledgeExecuted => True
  | OtherRow row => fidelity_reservation_id row = None
  | Damage _ => True
  | Restart _ names => forall i, is_Some (records (disk (writer s)) !! i) -> i ∈ names
  end.

Definition initial (rs : list CommandRow) : System :=
  {| writer := {| pending_fidelity := ∅; fidelity_blocked := false;
                  disk := {| records := ∅; corrupt := ∅; receipts := ∅ |}; rows := rs |};
     held := ∅ |}.

End Ledger.

Section Invariant.
Context (privacy_hash identity_hash : rstr -> rstr -> rstr).

#[local] Abbreviation step := (step privacy_hash identity_hash).
#[local] Abbreviation allowed := (allowed privacy_hash).

Definition of_session (h : rstr) : Prop := exists session, h = privacy_hash (lit "session") session.

Definition good (h i : rstr) (op : PrivacySafeFidelityOperation) : Prop :=
  reservation_id op = i /\ session_hash op = Some h /\ of_session h.

Definition wf_record (i : rstr) (rec : DurableFidelityRecord) : Prop :=
  match rec with
  | DReserved v j h _ _ => v = 1 /\ j = i /\ of_session h
  | DExecuting v j h _ _ _ op => v = 1 /\ j = i /\ good h i op
  | DExecuted v _ op => v = 1 /\ exists h, good h i op
  end.

Definition wf_pending (h i : rstr) (p : PendingFidelity) : Prop :=
  of_session h /\ (state p = Executing -> exists op, operation p = Some op /\ good h i op).

(** A command of session [h] may have run under [i], and no receipt says how that was resolved. *)
Definition begun_by (rec : DurableFidelityRecord) (receipt : option FidelityReconcileReceipt) (h : rstr) : Prop :=
  match rec with
  | DReserved _ _ _ _ _ => False
  | DExecuting _ _ h' _ _ _ _ => h' = h /\ receipt = None
  | DExecuted _ _ op => session_hash op = Some h
  end.

Definition begun (d : Disk) (h i : rstr) : Prop :=
  exists rec, records d !! i = Some (Some rec) /\ begun_by rec (receipt_of i d) h.

Definition accounted (w : Writer) (h i : rstr) : Prop := recorded (rows w) i = true \/ is_Some (pending_of w h i).

Definition wf_disk (d : Disk) : Prop := forall i rec, records d !! i = Some (Some rec) -> wf_record i rec.
Definition wf_memory (w : Writer) : Prop := forall h i p, pending_of w h i = Some p -> wf_pending h i p.
Definition settled (w : Writer) : Prop := fidelity_blocked w = false -> forall h i, begun (disk w) h i -> accounted w h i.

Record consistent (s : System) : Prop := {
  c_disk : wf_disk (disk (writer s));
  c_memory : wf_memory (writer s);
  c_held : forall i h, held s !! i = Some h -> of_session h;
  c_executed : forall i, is_executed (disk (writer s)) i -> held s !! i = None;
  c_settled : settled (writer s);
}.

(** *** Reading the state after a change *)

Lemma pending_of_put h i p w h' i' :
  pending_of (put_session h (<[i := p]> (session_of w h)) w) h' i' =
  if bool_decide (h' = h /\ i' = i) then Some p else pending_of w h' i'.
Proof.
  clear privacy_hash identity_hash.
  unfold pending_of, put_session, session_of; simpl. destruct (decide (h = h')) as [->|].
  - rewrite lookup_insert_eq; simpl. destruct (decide (i = i')) as [->|].
    + rewrite lookup_insert_eq, bool_decide_true by auto. auto.
    + rewrite lookup_insert_ne, bool_decide_false by naive_solver.
      destruct (_ !! h') as [m|]; [reflexivity|apply lookup_empty].
  - rewrite lookup_insert_ne, bool_decide_false by naive_solver. auto.
Qed.

Lemma pending_of_touch h w h' i' : pending_of (put_session h (session_of w h) w) h' i' = pending_of w h' i'.
Proof.
  unfold pending_of, put_session, session_of; simpl. destruct (decide (h = h')) as [->|].
  - rewrite lookup_insert_eq; simpl. destruct (_ !! h') as [m|]; [reflexivity|apply lookup_empty].
  - rewrite lookup_insert_ne by auto. auto.
Qed.

Lemma pending_of_forget h i w h' i' :
  pending_of (forget h i w) h' i' = if bool_decide (h' = h /\ i' = i) then None else pending_of w h' i'.
Proof.
  clear privacy_hash identity_hash.
  unfold pending_of, forget. destruct (pending_fidelity w !! h) as [m|] eqn:Hm.
  2: { case_bool_decide as Hi; auto. destruct Hi; subst. rewrite Hm. auto. }
  assert (Hl : (pending_fidelity (with_pending (if bool_decide (delete i m = ∅) then delete h (pending_fidelity w)
                 else <[h := delete i m]> (pending_fidelity w)) w) !! h' ≫= lookup i')
               = if decide (h = h') then delete i m !! i' else pending_fidelity w !! h' ≫= lookup i').
  { case_bool_decide as Hd; simpl; destruct (decide (h = h')) as [->|];
      rewrite ?lookup_delete_eq, ?lookup_insert_eq, ?lookup_delete_ne, ?lookup_insert_ne by auto; simpl; auto.
    rewrite Hd. symmetry. apply lookup_empty. }
  rewrite Hl. destruct (decide (h = h')) as [->|].
  - rewrite Hm; simpl. destruct (decide (i = i')) as [->|].
    + rewrite lookup_delete_eq, bool_decide_true by auto. auto.
    + rewrite lookup_delete_ne, bool_decide_false by naive_solver. auto.
  - rewrite bool_decide_false by naive_solver. auto.
Qed.

(** *** What the primitives keep *)

Lemma record_ok db rs op rs' :
  record_privacy_safe_fidelity_operation db rs op = (Ok tt, rs') -> rs' = insert_or_ignore rs op.
Proof. unfold record_privacy_safe_fidelity_operation. repeat case_match; intros; simplify_eq; auto. Qed.

Lemma record_err db rs op e rs' :
  record_privacy_safe_fidelity_operation db rs op = (Err e, rs') -> rs' = rs.
Proof. unfold record_privacy_safe_fidelity_operation. repeat case_match; intros; simplify_eq; auto. Qed.

Lemma recorded_insert rs op i :
  recorded (insert_or_ignore rs op) i = true <-> recorded rs i = true \/ reservation_id op = i.
Proof.
  clear privacy_hash identity_hash.
  unfold insert_or_ignore. destruct (recorded rs (reservation_id op)) eqn:H; [naive_solver|].
  unfold recorded in *. rewrite existsb_app; simpl. rewrite orb_false_r, orb_true_iff, bool_decide_eq_true; simpl.
  naive_solver.
Qed.

Lemma wf_disk_insert d i rec :
  wf_disk d -> wf_record i rec -> wf_disk (set_records (<[i := Some rec]> (records d)) d).
Proof.
  intros Hd Hr j rec'; simpl. destruct (decide (i = j)) as [->|].
  - rewrite lookup_insert_eq. intros [= <-]. auto.
  - rewrite lookup_insert_ne by auto. apply Hd.
Qed.

Lemma wf_disk_delete d i : wf_disk d -> wf_disk (set_records (delete i (records d)) d).
Proof. intros Hd j rec; simpl. intros [_ H]%lookup_delete_Some. auto. Qed.

Lemma begun_insert d i rec h j :
  begun (set_records (<[i := Some rec]> (records d)) d) h j -> begun d h j \/ (j = i /\ begun_by rec (receipt_of i d) h).
Proof.
  intros (rec' & H & Hb); simpl in H. destruct (decide (i = j)) as [->|].
  - rewrite lookup_insert_eq in H. injection H as <-. auto.
  - rewrite lookup_insert_ne in H by auto. left. exists rec'. auto.
Qed.

Lemma begun_delete d i h j :
  begun (set_records (delete i (records d)) d) h j -> begun d h j /\ j <> i.
Proof.
  intros (rec & H & Hb); simpl in H. apply lookup_delete_Some in H as [Hne H]. split; auto. exists rec. auto.
Qed.

(** A write leaves the old file or the new one, a removal the file or nothing. *)
Lemma persist_cases p i rec d ok d' :
  persist_durable_record p i rec d = (ok, d') ->
  (d' = d /\ ok = false) \/ d' = set_records (<[i := Some rec]> (records d)) d.
Proof. unfold persist_durable_record. destruct p; intros [= <- <-]; simpl; auto. Qed.

Lemma remove_cases rm i d res d' :
  remove_durable_record rm i d = (res, d') ->
  (d' = d /\ (res = Err NotFound -> records d !! i = None) /\ res <> Ok tt)
  \/ (d' = set_records (delete i (records d)) d /\ res <> Err NotFound).
Proof.
  unfold remove_durable_record. destruct rm, (records d !! i) eqn:Hi; intros [= <- <-]; auto; left; split; auto;
    split; intros; congruence.
Qed.

Lemma receipt_of_set r i d : receipt_of i (set_records r d) = receipt_of i d.
Proof. reflexivity. Qed.

Lemma persist_receipt_cases p i rc d ok d' :
  persist_receipt p i rc d = (ok, d') ->
  records d' = records d /\ (forall j, receipt_of j d' = receipt_of j d \/ j = i /\ receipt_of j d' = Some rc)
  /\ (ok = true -> receipt_of i d' = Some rc).
Proof.
  unfold persist_receipt, receipt_of.
  destruct p; intros [= <- <-]; simpl; split_and!; auto; try discriminate; try (intros; rewrite lookup_insert_eq; auto).
  all: intros j; destruct (decide (i = j)) as [->|]; [rewrite lookup_insert_eq|rewrite lookup_insert_ne by auto]; auto.
Qed.

(** *** Consistency is kept *)

Lemma operation_good i record h op :
  privacy_safe_fidelity_operation privacy_hash identity_hash i record = Some op ->
  privacy_hash (lit "session") <$> session_id record = Some h -> good h i op.
Proof.
  unfold privacy_safe_fidelity_operation. intros (e & _ & [= <-])%bind_Some Hs.
  split; [reflexivity|]. split; [exact Hs|]. destruct (session_id record); [|discriminate].
  injection Hs as <-. eexists; eauto.
Qed.

Lemma wf_memory_ext w w' :
  (forall h i, pending_of w' h i = pending_of w h i \/ pending_of w' h i = None) -> wf_memory w -> wf_memory w'.
Proof. intros Hext Hw h i p Hp. destruct (Hext h i) as [E|E]; rewrite E in Hp; [eauto|discriminate]. Qed.

Lemma wf_memory_put h i p w :
  wf_memory w -> wf_pending h i p -> wf_memory (put_session h (<[i := p]> (session_of w h)) w).
Proof.
  intros Hw Hp h' i' p'. rewrite pending_of_put. case_bool_decide as E; [|apply Hw].
  destruct E; subst. intros [= <-]. auto.
Qed.

Lemma wf_memory_forget h i w : wf_memory w -> wf_memory (forget h i w).
Proof. apply wf_memory_ext. intros h' i'. rewrite pending_of_forget. case_bool_decide; auto. Qed.

Lemma forget_disk h i w : disk (forget h i w) = disk w.
Proof. unfold forget. repeat case_match; auto. Qed.
Lemma forget_rows h i w : rows (forget h i w) = rows w.
Proof. unfold forget. repeat case_match; auto. Qed.
Lemma forget_blocked h i w : fidelity_blocked (forget h i w) = fidelity_blocked w.
Proof. unfold forget. repeat case_match; auto. Qed.

(** What was begun before stays accounted, and what is new is. *)
Lemma settled_change w w' :
  settled w -> fidelity_blocked w' = fidelity_blocked w ->
  (forall h i, begun (disk w') h i -> (begun (disk w) h i /\ (accounted w h i -> accounted w' h i)) \/ accounted w' h i) ->
  settled w'.
Proof. intros Hs Hb Hc Hn h i H. destruct (Hc h i H) as [[Hw Ha]|Ha]; auto. apply Ha, Hs; congruence. Qed.

Lemma accounted_put h i p w h' i' :
  accounted w h' i' \/ (h' = h /\ i' = i) -> accounted (put_session h (<[i := p]> (session_of w h)) w) h' i'.
Proof.
  unfold accounted. rewrite pending_of_put. intros [[?|?]|[-> ->]]; [auto| |].
  - right. case_bool_decide; eauto.
  - right. rewrite bool_decide_true by auto. eauto.
Qed.

Lemma accounted_touch h w h' i' : accounted w h' i' -> accounted (put_session h (session_of w h) w) h' i'.
Proof. unfold accounted. rewrite pending_of_touch. auto. Qed.

Lemma accounted_forget h i w h' i' :
  accounted w h' i' -> recorded (rows w) i' = true \/ ~ (h' = h /\ i' = i) -> accounted (forget h i w) h' i'.
Proof.
  unfold accounted. rewrite pending_of_forget, forget_rows. intros [?|?] [?|?]; auto.
  right. rewrite bool_decide_false by auto. auto.
Qed.

Lemma executed_insert d i rec j :
  is_executed (set_records (<[i := Some rec]> (records d)) d) j ->
  is_executed d j /\ j <> i \/ j = i /\ exists v b op, rec = DExecuted v b op.
Proof.
  intros (v & b & op & H); simpl in H. destruct (decide (i = j)) as [->|].
  - rewrite lookup_insert_eq in H. injection H as ->. eauto 8.
  - rewrite lookup_insert_ne in H by auto. left. split; [exists v, b, op; auto|auto].
Qed.

Lemma executed_delete d i j :
  is_executed (set_records (delete i (records d)) d) j -> is_executed d j.
Proof. intros (v & b & op & H); simpl in H. apply lookup_delete_Some in H as [_ H]. exists v, b, op. auto. Qed.

Lemma begin_consistent p now r record s :
  consistent s -> allowed (Begin p now r record) s -> consistent (step s (Begin p now r record)).
Proof.
  intros Hc [Hheld Hsess]. unfold step, Fidelity.step, begin_fidelity.
  destruct (pending_of (writer s) _ _) as [pending|] eqn:Hp; [|destruct s; exact Hc].
  destruct (privacy_safe_fidelity_operation _ _ _ _) as [op|] eqn:Hop; [|destruct s; exact Hc].
  destruct Hc as [Hd Hm Hh He Hs].
  pose proof (operation_good _ _ _ _ Hop Hsess) as Hgood.
  destruct (persist_durable_record _ _ _ _) as [ok d] eqn:Hpd.
  assert (Hd' : wf_disk d /\ (forall j, is_executed d j -> held s !! j = None)
                /\ forall h i, begun d h i -> begun (disk (writer s)) h i \/ h = res_session_hash r /\ i = id r).
  { destruct (persist_cases _ _ _ _ _ _ Hpd) as [[-> _]| ->]; split_and!; auto.
    - apply wf_disk_insert; auto. simpl. auto.
    - intros j [[? _]|(-> & v & b & op' & ?)]%executed_insert; [auto|discriminate].
    - intros h i [?|(-> & <- & _)]%begun_insert; auto. }
  destruct Hd' as (Hwd & Hed & Hbd).
  assert (Hpend : wf_pending (res_session_hash r) (id r)
            {| output_tokens_upper_bound := output_tokens_upper_bound pending;
               created_at_unix_ms := created_at_unix_ms pending; state := Executing; operation := Some op |}).
  { split; [eauto|]. intros _. exists op. auto. }
  destruct ok; simpl; constructor; simpl; auto.
  - apply (wf_memory_put _ _ _ (with_disk d (writer s))); auto.
  - apply (settled_change (writer s)); auto; simpl. intros h i [Hb|[-> ->]]%Hbd.
    + left. split; auto. intros. apply (accounted_put _ _ _ (with_disk d (writer s))). auto.
    + right. apply (accounted_put _ _ _ (with_disk d (writer s))). auto.
  - apply (settled_change (writer s)); auto; simpl. intros h i [Hb|[-> ->]]%Hbd; auto.
    right. right. change (is_Some (pending_of (writer s) (res_session_hash r) (id r))). eauto.
Qed.

Lemma put_put h x y d w : put_session h x (with_disk d (put_session h y w)) = put_session h x (with_disk d w).
Proof. unfold put_session, with_pending, with_disk; simpl. rewrite insert_insert_eq. auto. Qed.

Lemma reserve_consistent db p now i session a bound o s :
  consistent s -> allowed (Reserve db p now i session a bound o) s ->
  consistent (step s (Reserve db p now i session a bound o)).
Proof.
  simpl. intros Hc [Hfresh _]. unfold step, Fidelity.step, reserve_fidelity.
  destruct (fidelity_blocked (writer s)) eqn:Hblk; [destruct s; exact Hc|].
  destruct (fidelity_session_usage _ _ _ _ _) as [usage|e]; [|destruct s; exact Hc].
  destruct Hc as [Hd Hm Hh He Hs].
  set (h := privacy_hash (lit "session") session).
  destruct (negb o && _).
  { constructor; simpl; auto.
    - apply (wf_memory_ext (writer s)); auto. intros h' i'. left. apply pending_of_touch.
    - apply (settled_change (writer s)); auto. intros h' i' Hb. left. split; auto. apply accounted_touch. }
  destruct (persist_durable_record _ _ _ _) as [ok d] eqn:Hpd. simpl disk in Hpd.
  assert (Hd' : wf_disk d /\ (forall j, is_executed d j -> held s !! j = None /\ j <> i)
                /\ forall h i, begun d h i -> begun (disk (writer s)) h i).
  { destruct (persist_cases _ _ _ _ _ _ Hpd) as [[-> _]| ->]; split_and!; auto.
    - intros j Hj. split; auto. intros ->. destruct Hj as (v & b & op & Hj). congruence.
    - apply wf_disk_insert; auto. simpl. split_and!; auto. exists session. auto.
    - intros j [[? ?]|(-> & v & b & op' & ?)]%executed_insert; [auto|discriminate].
    - intros h' i' [?|(-> & [])]%begun_insert; auto. }
  destruct Hd' as (Hwd & Hed & Hbd).
  assert (Hses : of_session h) by (exists session; auto).
  destruct ok; simpl; constructor; simpl; auto.
  - rewrite put_put. apply (wf_memory_put _ _ _ (with_disk d (writer s))); auto. split; auto. discriminate.
  - intros j h'. destruct (decide (i = j)) as [->|].
    + rewrite lookup_insert_eq. intros [= <-]. auto.
    + rewrite lookup_insert_ne by auto. apply Hh.
  - intros j [Hj Hne]%Hed. rewrite lookup_insert_ne by auto. auto.
  - rewrite put_put. apply (settled_change (writer s)); auto. intros h' i' Hb%Hbd. left. split; auto.
    intros. apply (accounted_put _ _ _ (with_disk d (writer s))). auto.
  - apply (wf_memory_ext (writer s)); auto. intros h' i'. left. apply pending_of_touch.
  - intros j [Hj Hne]%Hed. auto.
  - apply (settled_change (writer s)); auto. intros h' i' Hb%Hbd. left. split; auto. apply accounted_touch.
Qed.

Lemma with_disk_id w : with_disk (disk w) w = w.
Proof. destruct w. auto. Qed.

Lemma settle_cases db rm op file w res w' :
  settle_executed db rm op file w = (res, w') ->
  (w' = w /\ res <> Ok tt)
  \/ (exists d, w' = with_disk d (with_rows (insert_or_ignore (rows w) op) w) /\
       ((d = disk w /\ res <> Ok tt) \/ d = set_records (delete file (records (disk w))) (disk w))).
Proof.
  unfold settle_executed. destruct (record_privacy_safe_fidelity_operation _ _ _) as [[[]|e] rs] eqn:Hrec.
  - apply record_ok in Hrec as ->. destruct (remove_durable_record _ _ _) as [rr d] eqn:Hrm. intros [= <- <-].
    right. exists d. split; auto. destruct (remove_cases _ _ _ _ _ Hrm) as [(-> & _ & Hne)|[-> _]]; auto.
    left. split; auto. destruct rr as [[]|[]]; congruence.
  - intros [= <- <-]. left. split; auto.
Qed.

Lemma accounted_insert op w d h i :
  accounted w h i \/ reservation_id op = i -> accounted (with_disk d (with_rows (insert_or_ignore (rows w) op) w)) h i.
Proof. unfold accounted; simpl. rewrite recorded_insert. intros [[?|?]|?]; auto. Qed.

Lemma delete_held_executed (d d' : Disk) (m : gmap rstr rstr) i :
  (forall j, is_executed d j -> m !! j = None) -> (forall j, is_executed d' j -> is_executed d j \/ j = i) ->
  forall j, is_executed d' j -> delete i m !! j = None.
Proof.
  intros Hd Hd' j Hj. destruct (decide (i = j)) as [->|]; [apply lookup_delete_eq|].
  rewrite lookup_delete_ne by auto. destruct (Hd' j Hj); [auto|congruence].
Qed.

Lemma delete_held_sessions (m : gmap rstr rstr) i :
  (forall j h, m !! j = Some h -> of_session h) -> forall j h, delete i m !! j = Some h -> of_session h.
Proof. intros Hm j h [_ H]%lookup_delete_Some. eauto. Qed.

Lemma drop_held_consistent s i : consistent s -> consistent {| writer := writer s; held := delete i (held s) |}.
Proof.
  intros [Hd Hm Hh He Hs]. constructor; simpl; auto.
  - apply delete_held_sessions; auto.
  - apply (delete_held_executed (disk (writer s)) (disk (writer s))); auto.
Qed.

Lemma complete_consistent db p rm r record s :
  consistent s -> allowed (Complete db p rm r record) s -> consistent (step s (Complete db p rm r record)).
Proof.
  intros Hc [Hheld Hsess]. unfold step, Fidelity.step, complete_fidelity.
  destruct (is_executing _ _ _) eqn:Hex; [|apply drop_held_consistent; exact Hc].
  unfold negb at 1. destruct (privacy_safe_fidelity_operation _ _ _ _) as [op|] eqn:Hop;
    [|apply drop_held_consistent; exact Hc].
  set (bound := match pending_of _ _ _ with Some _ => _ | None => _ end).
  pose proof (operation_good _ _ _ _ Hop Hsess) as Hgood. destruct Hc as [Hd Hm Hh He Hs].
  assert (Hpend : is_Some (pending_of (writer s) (res_session_hash r) (id r))).
  { unfold is_executing in Hex. destruct (pending_of _ _ _); [eauto|discriminate]. }
  destruct (persist_durable_record _ _ _ _) as [ok d] eqn:Hpd.
  assert (Hw : consistent {| writer := with_disk d (writer s); held := delete (id r) (held s) |}
               /\ (ok = true -> records d !! id r = Some (Some (DExecuted 1 bound op)))).
  { destruct (persist_cases _ _ _ _ _ _ Hpd) as [[-> ->]| ->].
    - split; [|discriminate]. rewrite with_disk_id. apply (drop_held_consistent s). constructor; auto.
    - split; [|intros _; simpl; apply lookup_insert_eq]. constructor; simpl; auto.
      + apply wf_disk_insert; auto. simpl. eauto.
      + apply delete_held_sessions; auto.
      + apply (delete_held_executed (disk (writer s)) _ _ _ He). intros j [[? _]|[-> _]]%executed_insert; auto.
      + apply (settled_change (writer s)); auto; simpl. intros h i [Hb|(-> & Hb)]%begun_insert; auto.
        destruct Hgood as (_ & Hgs & _). simpl in Hb. right. right. assert (h = res_session_hash r) as -> by congruence.
        exact Hpend. }
  destruct Hw as [[Hd' Hm' Hh' He' Hs'] Hfile]; simpl in *. destruct ok; simpl; [|constructor; auto].
  specialize (Hfile eq_refl).
  destruct (settle_executed _ _ _ _ _) as [res w'] eqn:Hse.
  destruct (settle_cases _ _ _ _ _ _ _ Hse) as [[-> Hne]|(d2 & -> & Hd2)]; simpl in *.
  - destruct res as [[]|e]; [congruence|]. constructor; simpl; auto.
  - set (w2 := with_disk d2 _).
    assert (Hw2 : consistent {| writer := w2; held := delete (id r) (held s) |}).
    { constructor; simpl; auto.
      - destruct Hd2 as [[-> _]| ->]; auto. apply wf_disk_delete. auto.
      - destruct Hd2 as [[-> _]| ->]; auto. intros j Hj%executed_delete. auto.
      - apply (settled_change (with_disk d (writer s))); auto; simpl. intros h i Hb. left. split.
        + destruct Hd2 as [[-> _]| ->]; auto. apply begun_delete in Hb as [Hb _]. auto.
        + intros. apply (accounted_insert op (with_disk d (writer s))). auto. }
    destruct res as [[]|e]; [|exact Hw2]. destruct Hw2 as [Hd3 Hm3 Hh3 He3 Hs3]; simpl in *.
    constructor; simpl; rewrite ?forget_disk; auto; [apply wf_memory_forget; auto|].
    apply (settled_change w2); auto using forget_blocked. rewrite forget_disk. intros h i Hb. left. split; auto.
    intros Ha. apply accounted_forget; auto. destruct (decide (i = id r)) as [->|]; [left|right; naive_solver].
    simpl. apply recorded_insert. right. apply Hgood.
Qed.

Lemma forget_consistent h i w m :
  consistent {| writer := w; held := m |} ->
  (forall h', begun (disk w) h' i -> recorded (rows w) i = true) ->
  consistent {| writer := forget h i w; held := m |}.
Proof.
  intros [Hd Hm Hh He Hs] Hb; simpl in *. constructor; simpl; rewrite ?forget_disk; auto; [apply wf_memory_forget; auto|].
  apply (settled_change w); auto using forget_blocked. rewrite forget_disk. intros h' j Hj. left. split; auto.
  intros Ha. apply accounted_forget; auto. destruct (decide (j = i)) as [->|]; [eauto|right; naive_solver].
Qed.

Lemma consistent_remove rm i w m res d :
  consistent {| writer := w; held := m |} -> remove_durable_record rm i (disk w) = (res, d) ->
  consistent {| writer := with_disk d w; held := m |}.
Proof.
  intros Hc [(-> & _)|[-> _]]%remove_cases; [rewrite with_disk_id; auto|].
  destruct Hc as [Hd Hm Hh He Hs]; simpl in *. constructor; simpl; auto.
  - apply wf_disk_delete. auto.
  - intros j Hj%executed_delete. auto.
  - apply (settled_change w); auto; simpl. intros h j [Hb _]%begun_delete. auto.
Qed.

Lemma cancel_consistent rm r proven s :
  consistent s -> allowed (Cancel rm r proven) s -> consistent (step s (Cancel rm r proven)).
Proof.
  intros Hc _. unfold step, Fidelity.step, cancel_fidelity.
  pose proof (drop_held_consistent s (id r) Hc) as [Hd Hm Hh He Hs]; simpl in *.
  destruct (is_executing _ _ _ && _); [constructor; auto|].
  destruct (remove_durable_record _ _ _) as [res d] eqn:Hrm.
  pose proof (consistent_remove _ _ (writer s) (delete (id r) (held s)) _ _ ltac:(constructor; auto) Hrm) as Hw.
  assert (Hgone : res = Ok tt \/ res = Err NotFound -> records d !! id r = None).
  { destruct (remove_cases _ _ _ _ _ Hrm) as [(-> & Hnf & Hne)|[-> _]]; [|intros _; simpl; apply lookup_delete_eq].
    intros [->|E]; [congruence|auto]. }
  assert (Hf : res = Ok tt \/ res = Err NotFound ->
    consistent {| writer := forget (res_session_hash r) (id r) (with_disk d (writer s)); held := delete (id r) (held s) |}).
  { intros Hres%Hgone. apply forget_consistent; auto. intros h' (rec & Hrec & _); simpl in Hrec. congruence. }
  destruct res as [[]|[|e]]; simpl; auto.
Qed.

Lemma find_pending_Some w i h p : find_pending w i = Some (h, p) -> pending_of w h i = Some p.
Proof.
  unfold find_pending. intros H.
  assert (Hin : (h, p) ∈ omap (fun kv => pair kv.1 <$> kv.2 !! i) (map_to_list (pending_fidelity w))).
  { destruct (omap _ _); [discriminate|]. injection H as ->. left. }
  apply list_elem_of_omap in Hin as ([h' m] & Hin & Heq). apply elem_of_map_to_list in Hin. simpl in Heq.
  destruct (m !! i) as [p'|] eqn:Hp; [|discriminate]. injection Heq as -> ->.
  unfold pending_of. rewrite Hin. auto.
Qed.

Lemma consistent_rows w m op :
  consistent {| writer := w; held := m |} -> consistent {| writer := with_rows (insert_or_ignore (rows w) op) w; held := m |}.
Proof.
  intros [Hd Hm Hh He Hs]; simpl in *. constructor; simpl; auto.
  apply (settled_change w); auto. intros h i Hb. left. split; auto. unfold accounted; simpl. rewrite recorded_insert.
  intros [?|?]; auto.
Qed.

Lemma remove_receipt rm i j d : receipt_of j (remove_durable_record rm i d).2 = receipt_of j d.
Proof. unfold remove_durable_record. destruct rm, (records d !! i); auto. Qed.

(** A reconciliation finds nothing to do, or the ledger and the receipts change, and
    with a durable receipt the entry and its file go. *)
Record reconciled (i : rstr) (how : FidelityUnknownResolution) (w w' : Writer) (h : rstr) (p : PendingFidelity)
    (rs : list CommandRow) (d : Disk) : Prop := {
  rec_pending : pending_of w h i = Some p;
  rec_state : state p = Executing;
  rec_rows : if bool_decide (how = AcknowledgeExecuted)
             then exists op, operation p = Some op /\ rs = insert_or_ignore (rows w) op else rs = rows w;
  rec_receipts : forall j, receipt_of j d = receipt_of j (disk w)
                           \/ j = i /\ exists rc, receipt_of j d = Some rc /\ resolution rc = how;
  rec_records : records d = records (disk w) \/ records d = delete i (records (disk w));
  rec_end : w' = with_disk d (with_rows rs w)
            \/ receipt_of i d <> None /\ w' = forget h i (with_disk d (with_rows rs w));
}.

Lemma reconcile_cases db p rm again i how w res w' :
  reconcile_fidelity db p rm again i how w = (res, w') ->
  w' = w \/ exists h pending rs d, reconciled i how w w' h pending rs d.
Proof.
  unfold reconcile_fidelity. destruct (receipt_of i (disk w)) eqn:Hrc; [intros [= _ <-]; auto|].
  destruct (find_pending w i) as [[h pending]|] eqn:Hfind; [|intros [= _ <-]; auto]. apply find_pending_Some in Hfind.
  destruct (bool_decide (state pending = Executing)) eqn:Hst; [|intros [= _ <-]; auto]. apply bool_decide_eq_true in Hst.
  simpl negb. cbv iota. set (pick := if bool_decide (how = AcknowledgeExecuted) then _ else _).
  destruct pick as [ok rs] eqn:Hpick. destruct ok; [|intros [= _ <-]; auto]. simpl negb. cbv iota.
  assert (Hrows : if bool_decide (how = AcknowledgeExecuted)
                  then exists op, operation pending = Some op /\ rs = insert_or_ignore (rows w) op else rs = rows w).
  { unfold pick in Hpick. case_bool_decide; [|congruence]. destruct (operation pending) as [op|]; [|discriminate].
    destruct (record_privacy_safe_fidelity_operation _ _ _) as [[[]|e] rs'] eqn:Hrec; [|discriminate].
    injection Hpick as <-. apply record_ok in Hrec. eauto. }
  clear Hpick. clearbody pick. set (rc := {| rc_reservation_id := i |}).
  destruct (persist_receipt p i rc (disk (with_rows rs w))) as [ok d] eqn:Hp.
  destruct (persist_receipt_cases _ _ _ _ _ _ Hp) as (Hrd & Hrcs & Hok).
  assert (Hd : forall j, receipt_of j d = receipt_of j (disk w)
                         \/ j = i /\ exists rc, receipt_of j d = Some rc /\ resolution rc = how).
  { intros j. destruct (Hrcs j) as [?|[? ?]]; eauto. }
  destruct ok; simpl negb; cbv iota; intros E; right; exists h, pending, rs.
  2: { exists d. injection E as _ <-. constructor; auto. }
  specialize (Hok eq_refl). destruct (remove_durable_record rm i d) as [removed d2] eqn:Hrm.
  pose proof (remove_receipt rm i) as Hsame. 
  assert (Hd2 : forall j, receipt_of j d2 = receipt_of j d) by (intros j; rewrite <- (Hsame j d), Hrm; auto).
  assert (Hr2 : records d2 = records (disk w) \/ records d2 = delete i (records (disk w))).
  { simpl in Hrd. rewrite <- Hrd. destruct (remove_cases _ _ _ _ _ Hrm) as [(-> & _)|[-> _]]; auto. }
  set (d3 := if is_ok removed then _ else _) in E. exists d3. injection E as _ <-.
  assert (Hd3 : records d3 = records d2 /\ forall j, receipt_of j d3 = receipt_of j d2
                  \/ j = i /\ exists rc, receipt_of j d3 = Some rc /\ resolution rc = how).
  { unfold d3. destruct (is_ok removed); [|auto].
    destruct (persist_receipt again i _ d2) as [ok d4] eqn:Hp2. destruct (persist_receipt_cases _ _ _ _ _ _ Hp2) as (? & Hx & _).
    split; auto. intros j. destruct (Hx j) as [?|[? ?]]; auto. right. split; auto. eexists. split; eauto. }
  destruct Hd3 as [Hr3 Hd3]. constructor; auto.
  - intros j. destruct (Hd3 j) as [->|?]; auto. rewrite Hd2. auto.
  - rewrite Hr3. auto.
  - right. split; auto. destruct (Hd3 i) as [->|(_ & rc' & -> & _)]; [rewrite Hd2, Hok|]; discriminate.
Qed.

(** A disk whose files are the old ones or fewer, and with more receipts. *)
Lemma consistent_fewer d i w m :
  consistent {| writer := w; held := m |} -> records d = records (disk w) \/ records d = delete i (records (disk w)) ->
  (forall j, receipt_of j d = None -> receipt_of j (disk w) = None) ->
  consistent {| writer := with_disk d w; held := m |}.
Proof.
  intros [Hd Hm Hh He Hs] Hr Hrc; simpl in *.
  assert (Hsub : forall j f, records d !! j = Some f -> records (disk w) !! j = Some f).
  { intros j f. destruct Hr as [->| ->]; auto. intros [_ ?]%lookup_delete_Some. auto. }
  constructor; simpl; auto.
  - intros j rec Hj. apply Hd. auto.
  - intros j (v & b & op & Hj). apply He. exists v, b, op. auto.
  - apply (settled_change w); auto; simpl. intros h j (rec & Hj & Hb). left. split; auto. exists rec. split; auto.
    destruct rec; simpl in *; auto. destruct Hb. auto.
Qed.

Lemma reconcile_consistent db p rm again i how s :
  consistent s -> allowed (Reconcile db p rm again i how) s -> consistent (step s (Reconcile db p rm again i how)).
Proof.
  intros Hc Hallow. unfold step, Fidelity.step. destruct s as [w m]; cbn [writer held] in *.
  destruct (reconcile_fidelity _ _ _ _ _ _ _) as [res w'] eqn:E. simpl.
  destruct (reconcile_cases _ _ _ _ _ _ _ _ _ E) as [->|(h & pending & rs & d & [Hp Hst Hrs Hrc Hr Hend])]; auto.
  destruct (c_memory _ Hc _ _ _ Hp) as [_ (op & Hop & Hgood)]; auto.
  assert (Hrows : consistent {| writer := with_rows rs w; held := m |} /\ (how = AcknowledgeExecuted -> recorded rs i = true)).
  { case_bool_decide; [|subst; split; [destruct w; exact Hc|congruence]]. destruct Hrs as (op' & Hop' & ->).
    split; [apply consistent_rows; auto|]. intros _. apply recorded_insert. right. simplify_eq. apply Hgood. }
  destruct Hrows as [Hc1 Hack].
  assert (Hc2 : consistent {| writer := with_disk d (with_rows rs w); held := m |}).
  { apply (consistent_fewer d i); auto. intros j Hj. simpl. destruct (Hrc j) as [<-|(_ & rc & Hx & _)]; auto. congruence. }
  destruct Hend as [->|[Hsome ->]]; auto. apply forget_consistent; auto. simpl. intros h' (rec & Hrec & Hb).
  destruct how; [auto|]. destruct rec as [| |v b op']; simpl in Hb; [destruct Hb|destruct Hb; contradiction|].
  destruct Hallow. exists v, b, op'. simpl. destruct Hr as [<-|Hr]; auto. rewrite Hr in Hrec.
  apply lookup_delete_Some in Hrec. apply Hrec.
Qed.

(** *** Loading *)

Lemma pending_of_add h i p l h' i' n d rs :
  pending_of (writer_of {| l_pending := add_pending h i p (l_pending l); integrity_issues := n; l_disk := d; l_rows := rs |}) h' i'
  = if bool_decide (h' = h /\ i' = i) then Some p else pending_of (writer_of l) h' i'.
Proof. exact (pending_of_put h i p (writer_of l) h' i'). Qed.

Lemma settle_file_cases io record op file l l' :
  settle_file io record op file l = l' ->
  l_pending l' = l_pending l /\ integrity_issues l <= integrity_issues l'
  /\ (l_disk l' = l_disk l \/ l_disk l' = set_records (delete file (records (l_disk l))) (l_disk l))
  /\ (l_rows l' = l_rows l \/ record = true /\ l_rows l' = insert_or_ignore (l_rows l) op)
  /\ (record = true -> integrity_issues l' = 0 -> l_rows l' = insert_or_ignore (l_rows l) op).
Proof.
  clear privacy_hash identity_hash.
  intros <-. unfold settle_file.
  set (pick := if record then _ else _). destruct pick as [ok rs] eqn:Hpick.
  assert (Hrs : (rs = l_rows l \/ record = true /\ rs = insert_or_ignore (l_rows l) op)
                /\ (record = true -> ok = true -> rs = insert_or_ignore (l_rows l) op)).
  { unfold pick in Hpick. destruct record; [|injection Hpick as <- <-; split; auto; discriminate].
    destruct (record_privacy_safe_fidelity_operation _ _ _) as [[[]|e] rs'] eqn:Hrec; injection Hpick as <- <-.
    - apply record_ok in Hrec. auto.
    - apply record_err in Hrec. split; auto. discriminate. }
  clearbody pick. clear Hpick. destruct Hrs as [Hrs Hok].
  assert (Hmono : forall b, integrity_issues l <= issue b (integrity_issues l)) by (intros []; unfold issue; lia).
  destruct ok; simpl.
  - destruct (remove_durable_record _ _ _) as [removed d] eqn:Hrm; simpl. split_and!; auto.
    destruct (remove_cases _ _ _ _ _ Hrm) as [(-> & _)|[-> _]]; auto.
  - split_and!; auto; [apply (Hmono true)|]. intros _ H. exfalso. lia.
Qed.

(** The operation of a file that is recorded while it is loaded. *)
Definition may_record (l : Loading) (h file : rstr) (op : PrivacySafeFidelityOperation) : Prop :=
  good h file op /\
  (begun (l_disk l) h file
   \/ exists rc, receipt_of file (l_disk l) = Some rc /\ resolution rc = AcknowledgeExecuted).

Record load_step (file : rstr) (l l' : Loading) : Prop := {
  ls_disk : wf_disk (l_disk l) -> wf_disk (l_disk l');
  ls_memory : wf_disk (l_disk l) -> wf_memory (writer_of l) -> wf_memory (writer_of l');
  ls_begun : forall h i, begun (l_disk l') h i -> begun (l_disk l) h i;
  ls_accounted : forall h i, accounted (writer_of l) h i -> accounted (writer_of l') h i;
  ls_issues : integrity_issues l <= integrity_issues l';
  ls_file : wf_disk (l_disk l) -> integrity_issues l' = 0 -> forall h, begun (l_disk l') h file -> accounted (writer_of l') h file;
  ls_receipts : forall i, receipt_of i (l_disk l') = receipt_of i (l_disk l);
  ls_executing : forall h i p, pending_of (writer_of l') h i = Some p -> state p = Executing ->
    pending_of (writer_of l) h i = Some p \/ begun (l_disk l) h i;
  ls_rows : l_rows l' = l_rows l \/ exists h op, l_rows l' = insert_or_ignore (l_rows l) op /\ may_record l h file op;
}.

Lemma load_step_drop file l n d :
  integrity_issues l <= n -> (forall h, ~ begun (l_disk l) h file) ->
  (d = l_disk l \/ d = set_records (delete file (records (l_disk l))) (l_disk l)) ->
  load_step file l {| l_pending := l_pending l; integrity_issues := n; l_disk := d; l_rows := l_rows l |}.
Proof.
  intros Hn Hfile [->| ->]; constructor; simpl; auto using wf_disk_delete.
  - intros _ _ h Hb. destruct (Hfile h Hb).
  - intros h i [Hb _]%begun_delete. auto.
  - intros _ _ h [_ Hb]%begun_delete. congruence.
Qed.

Lemma load_step_aside io file l :
  (forall h, ~ begun (l_disk l) h file) ->
  load_step file l {| l_pending := l_pending l; integrity_issues := integrity_issues l + 1;
                      l_disk := put_aside (load_rename io file) file (l_disk l); l_rows := l_rows l |}.
Proof.
  intros Hfile. assert (Hn : integrity_issues l <= integrity_issues l + 1) by lia. unfold put_aside.
  destruct (load_rename io file).
  - destruct (load_step_drop file l _ _ Hn Hfile (or_intror eq_refl)). constructor; auto.
  - apply load_step_drop; auto.
Qed.

Lemma load_step_keep file h p l :
  (forall h', begun (l_disk l) h' file -> h' = h) -> (state p = Executing -> begun (l_disk l) h file) -> (wf_disk (l_disk l) -> wf_pending h file p) ->
  load_step file l {| l_pending := add_pending h file p (l_pending l); integrity_issues := integrity_issues l;
                      l_disk := l_disk l; l_rows := l_rows l |}.
Proof.
  intros Hfile Hexec Hwf. constructor; simpl; auto; try lia.
  - intros Hd Hm h' i p'. rewrite pending_of_add. case_bool_decide as E; [destruct E; subst; intros [= <-]; auto|apply Hm].
  - intros h' i. unfold accounted; simpl. rewrite pending_of_add. intros [?|?]; auto. case_bool_decide; eauto.
  - intros _ _ h' ->%Hfile. right. rewrite pending_of_add, bool_decide_true by auto. eauto.
  - intros h' i p'. rewrite pending_of_add. case_bool_decide as E; [|auto]. destruct E; subst. intros [= <-]. auto.
Qed.

Lemma load_step_settle io record op file l :
  (record = true -> exists h, may_record l h file op) -> (record = false -> forall h, ~ begun (l_disk l) h file) ->
  load_step file l (settle_file io record op file l).
Proof.
  intros Hrec Hnot. destruct (settle_file_cases io record op file l _ eq_refl) as (Hp & Hn & Hd & Hr & Hok).
  set (l' := settle_file _ _ _ _ _) in *.
  assert (Hpend : forall h i, pending_of (writer_of l') h i = pending_of (writer_of l) h i)
    by (intros; unfold pending_of; simpl; rewrite Hp; auto).
  assert (Hb : forall h i, begun (l_disk l') h i -> begun (l_disk l) h i).
  { intros h i. destruct Hd as [->| ->]; auto. intros [? _]%begun_delete. auto. }
  constructor; auto.
  - intros. destruct Hd as [->| ->]; auto using wf_disk_delete.
  - intros _. apply wf_memory_ext. auto.
  - intros h i. unfold accounted; simpl. rewrite Hpend. intros [?|?]; auto. left.
    destruct Hr as [->|[_ ->]]; auto. apply recorded_insert. auto.
  - intros _ Hz h Hbh. destruct record; [|destruct (Hnot eq_refl h); auto]. left. simpl. rewrite Hok by auto.
    destruct (Hrec eq_refl) as (h' & [Hid _] & _). apply recorded_insert. auto.
  - intros i. destruct Hd as [->| ->]; auto.
  - intros h i p. rewrite Hpend. auto.
  - destruct Hr as [->|[Ht Hr]]; auto. right. destruct (Hrec Ht) as (h & Hm). eauto.
Qed.

Lemma not_begun_none d file : records d !! file = Some None -> forall h, ~ begun d h file.
Proof. intros H h (rec & Hrec & _). congruence. Qed.

Lemma load_file_step io l file : wf_disk (l_disk l) -> load_step file l (load_file io l file).
Proof.
  intros Hd. unfold load_file. destruct (records (l_disk l) !! file) as [[rec|]|] eqn:Hf.
  3: { constructor; auto; try lia. intros _ _ h (rec & Hrec & _). congruence. }
  2: { apply load_step_aside, not_begun_none. auto. }
  pose proof (Hd _ _ Hf) as Hwf. destruct rec as [v j h bound created|v j h bound created started op|v bound op].
  - destruct Hwf as (-> & -> & Hses).
    assert (Hnb : forall h', ~ begun (l_disk l) h' file) by (intros h' (rec & Hrec & Hb); simplify_eq; auto).
    destruct (RESERVED_FIDELITY_TTL <=? _).
    + destruct (remove_durable_record _ _ _) as [res d] eqn:Hrm. apply load_step_drop; auto.
      * unfold issue. case_match; lia.
      * destruct (remove_cases _ _ _ _ _ Hrm) as [(-> & _)|[-> _]]; auto.
    + apply load_step_keep; [intros h' Hb; destruct (Hnb h' Hb)|discriminate|]. intros _. split; auto. discriminate.
  - destruct Hwf as (-> & -> & Hgood). destruct (receipt_of file (l_disk l)) as [rc|] eqn:Hrc.
    + apply load_step_settle.
      * intros Hack%bool_decide_eq_true. exists h. split; auto. eauto.
      * intros _ h' (rec & Hrec & Hb). simplify_eq. destruct Hb. congruence.
    + apply load_step_keep.
      * intros h' (rec & Hrec & Hb). simplify_eq. destruct Hb. auto.
      * intros _. eexists. split; [exact Hf|]. simpl. auto.
      * intros _. split; [apply Hgood|]. simpl. eauto.
  - destruct Hwf as (-> & h & Hgood). apply load_step_settle; [|discriminate]. intros _. exists h. split; auto. left.
    eexists. split; [exact Hf|]. apply Hgood.
Qed.

Record loaded (done : list rstr) (l : Loading) : Prop := {
  ld_disk : wf_disk (l_disk l);
  ld_memory : wf_memory (writer_of l);
  ld_settled : integrity_issues l = 0 -> forall h i, i ∈ done -> begun (l_disk l) h i -> accounted (writer_of l) h i;
}.

Lemma load_file_loaded io done l file : loaded done l -> loaded (file :: done) (load_file io l file).
Proof.
  intros [Hd Hm Hs]. destruct (load_file_step io l file Hd) as [Hd' Hm' Hb Ha Hn Hf]. constructor; auto.
  intros Hz h i [->|Hin]%elem_of_cons Hbi; auto. apply Ha, Hs; auto. lia.
Qed.

(** An invariant of the loop over the directory. *)
Lemma load_invariant (P : list rstr -> Loading -> Prop) io d rs :
  P [] {| l_pending := ∅; integrity_issues := 0; l_disk := d; l_rows := rs |} ->
  (forall done l file, P done l -> P (file :: done) (load_file io l file)) ->
  forall names, P (rev names) (load_and_reconcile_durable_records io names d rs).
Proof.
  intros H0 Hstep names. unfold load_and_reconcile_durable_records.
  induction names as [|file names IH] using rev_ind; auto.
  rewrite foldl_app, rev_app_distr; simpl. auto.
Qed.

Lemma wf_memory_empty w : pending_fidelity w = ∅ -> wf_memory w.
Proof. unfold wf_memory, pending_of. intros -> h i p. rewrite lookup_empty. discriminate. Qed.

Lemma load_loaded io names d rs : wf_disk d -> loaded (rev names) (load_and_reconcile_durable_records io names d rs).
Proof.
  intros Hd. apply (load_invariant loaded); [|auto using load_file_loaded].
  constructor; simpl; auto using wf_memory_empty. intros _ h i []%elem_of_nil.
Qed.

Lemma load_begun io names d rs h i :
  wf_disk d -> begun (l_disk (load_and_reconcile_durable_records io names d rs)) h i -> begun d h i.
Proof.
  intros Hd. apply (load_invariant (fun done l => wf_disk (l_disk l) /\ (begun (l_disk l) h i -> begun d h i))); auto.
  intros done l file [Hl Hb]. destruct (load_file_step io l file Hl). auto.
Qed.

Lemma restart_consistent io names s :
  consistent s -> allowed (Restart io names) s -> consistent (step s (Restart io names)).
Proof.
  intros [Hd _ _ _ _] Hall. simpl in *. destruct (load_loaded io names _ (rows (writer s)) Hd) as [Hd' Hm' Hs'].
  constructor; simpl; auto.
  - intros i h. rewrite lookup_empty. discriminate.
  - intros Hb h i Hbi. simpl in Hb. apply Hs'; auto; [lia|]. apply list_elem_of_In, in_rev.
    rewrite rev_involutive. apply list_elem_of_In, Hall. apply load_begun in Hbi as (rec & -> & _); eauto.
Qed.

Lemma step_consistent e s : consistent s -> allowed e s -> consistent (step s e).
Proof.
  destruct e as [| | | | |row|file|]; intros Hc Ha.
  - apply reserve_consistent; auto.
  - apply begin_consistent; auto.
  - apply complete_consistent; auto.
  - apply reconcile_consistent; auto.
  - apply cancel_consistent; auto.
  - destruct Hc as [Hd Hm Hh He Hs]. constructor; simpl; auto. apply (settled_change (writer s)); auto.
    intros h i Hb. left. split; auto. unfold accounted; simpl. intros [H|?]; auto. left. unfold recorded in *.
    rewrite existsb_app, H. auto.
  - unfold step, Fidelity.step. case_decide as Hf; [|destruct s; exact Hc]. destruct Hc as [Hd Hm Hh He Hs].
    assert (Hl : forall i rec, <[file := None]> (records (disk (writer s))) !! i = Some (Some rec) ->
                 records (disk (writer s)) !! i = Some (Some rec)).
    { intros i rec. destruct (decide (file = i)) as [->|]; [rewrite lookup_insert_eq; discriminate|].
      rewrite lookup_insert_ne; auto. }
    constructor; simpl; auto.
    + intros i rec. simpl. eauto.
    + intros i (v & b & op & H). apply He. exists v, b, op. auto.
    + apply (settled_change (writer s)); auto. intros h i (rec & H & Hb). left. split; auto. exists rec. auto.
  - apply restart_consistent; auto.
Qed.

(** An invariant that every allowed event keeps holds after any run of them. *)
Lemma run_invariant (Inv : System -> Prop) (ok : Event -> System -> Prop) es s :
  (forall e s, Inv s -> ok e s -> Inv (step s e)) -> Inv s ->
  permitted privacy_hash identity_hash ok s es -> Inv (run privacy_hash identity_hash s es).
Proof.
  intros Hstep. revert s. induction es as [|e es IH]; simpl; intros s Hs; auto. intros [He Hes]. apply IH; auto.
Qed.

Lemma initial_consistent rs : consistent (initial rs).
Proof.
  constructor; simpl.
  - intros i rec. simpl. rewrite lookup_empty. discriminate.
  - apply wf_memory_empty. auto.
  - intros i h. rewrite lookup_empty. discriminate.
  - intros i (v & b & op & H). simpl in H. rewrite lookup_empty in H. discriminate.
  - intros _ h i (rec & H & _). simpl in H. rewrite lookup_empty in H. discriminate.
Qed.

(** *** What an event may change *)

Definition may_run (s : System) (h i : rstr) : Prop :=
  exists p, pending_of (writer s) h i = Some p /\ (state p = Executing \/ held s !! i = Some h).

(** Nothing new may run, nothing has run that could not, and a new row is that of a command that may have run. *)
Record quiet (s s' : System) : Prop := {
  q_rows : rows (writer s') = rows (writer s) \/
    exists h i op p, rows (writer s') = insert_or_ignore (rows (writer s)) op /\ good h i op
                     /\ pending_of (writer s) h i = Some p /\ state p = Executing;
  q_may_run : forall h i, may_run s' h i -> may_run s h i;
  q_begun : forall h i, begun (disk (writer s')) h i -> begun (disk (writer s)) h i \/ may_run s h i;
}.

Lemma may_run_delete w m k h i : may_run {| writer := w; held := delete k m |} h i -> may_run {| writer := w; held := m |} h i.
Proof.
  intros (p & Hp & [?|Hi]); exists p; auto. simpl in Hi. apply lookup_delete_Some in Hi as [_ Hi]. auto.
Qed.

Lemma may_run_forget w m h' k h i :
  may_run {| writer := forget h' k w; held := m |} h i -> may_run {| writer := w; held := m |} h i.
Proof.
  intros (p & Hp & Hor); simpl in *. rewrite pending_of_forget in Hp. case_bool_decide; [discriminate|].
  exists p. auto.
Qed.

Lemma quiet_drop w m k : quiet {| writer := w; held := m |} {| writer := w; held := delete k m |}.
Proof. constructor; simpl; auto. apply may_run_delete. Qed.

Lemma quiet_same w m : quiet {| writer := w; held := m |} {| writer := w; held := m |}.
Proof. constructor; auto. Qed.

Lemma begin_quiet p now r record s :
  allowed (Begin p now r record) s -> quiet s (step s (Begin p now r record)).
Proof.
  intros [Hheld Hsess]; simpl in Hheld. destruct s as [w m]. unfold step, Fidelity.step, begin_fidelity; cbn [writer held] in *.
  destruct (pending_of w _ _) as [pending|] eqn:Hp; [|apply quiet_same].
  destruct (privacy_safe_fidelity_operation _ _ _ _) as [op|] eqn:Hop; [|apply quiet_same].
  destruct (persist_durable_record _ _ _ _) as [ok d] eqn:Hpd.
  assert (Hrun : may_run {| writer := w; held := m |} (res_session_hash r) (id r)) by (exists pending; auto).
  assert (Hb : forall h i, begun d h i -> begun (disk w) h i \/ may_run {| writer := w; held := m |} h i).
  { destruct (persist_cases _ _ _ _ _ _ Hpd) as [[-> _]| ->]; auto.
    intros h i [?|(-> & <- & _)]%begun_insert; auto. }
  destruct ok; constructor; simpl; auto. intros h i (q & Hq & Hor); simpl in *.
  rewrite (pending_of_put _ _ _ (with_disk d w)) in Hq. case_bool_decide as E; [|exists q; auto].
  destruct E; subst. auto.
Qed.

Lemma settle_quiet db rm op h file w m res w' p :
  settle_executed db rm op file w = (res, w') -> good h file op -> pending_of w h file = Some p -> state p = Executing ->
  quiet {| writer := w; held := m |} {| writer := w'; held := m |}.
Proof.
  intros [[-> _]|(d & -> & Hd)]%settle_cases Hg Hp Hst; [apply quiet_same|]. constructor; simpl; auto.
  - right. exists h, file, op, p. auto.
  - intros h' i Hb. left. destruct Hd as [[-> _]| ->]; auto. apply begun_delete in Hb. apply Hb.
Qed.

Lemma complete_quiet db p rm r record s :
  allowed (Complete db p rm r record) s -> quiet s (step s (Complete db p rm r record)).
Proof.
  intros [Hheld Hsess]; simpl in Hheld. destruct s as [w m]. unfold step, Fidelity.step, complete_fidelity; cbn [writer held] in *.
  destruct (is_executing w _ _) eqn:Hex; [|apply quiet_drop]. unfold negb at 1.
  destruct (privacy_safe_fidelity_operation _ _ _ _) as [op|] eqn:Hop; [|apply quiet_drop].
  pose proof (operation_good _ _ _ _ Hop Hsess) as Hgood.
  unfold is_executing in Hex. destruct (pending_of w _ _) as [pending|] eqn:Hp; [|discriminate].
  apply bool_decide_eq_true in Hex.
  assert (Hrun : may_run {| writer := w; held := m |} (res_session_hash r) (id r)) by (exists pending; auto).
  destruct (persist_durable_record _ _ _ _) as [ok d] eqn:Hpd.
  assert (Hb : forall h i, begun d h i -> begun (disk w) h i \/ may_run {| writer := w; held := m |} h i).
  { destruct (persist_cases _ _ _ _ _ _ Hpd) as [[-> _]| ->]; auto.
    intros h i [?|(-> & Hs)]%begun_insert; auto. right. destruct Hgood as (_ & Hgs & _). simpl in Hs.
    assert (h = res_session_hash r) as -> by congruence. auto. }
  assert (Hd : quiet {| writer := w; held := m |} {| writer := with_disk d w; held := delete (id r) m |}).
  { constructor; simpl; auto. intros h i Hr. apply (may_run_delete w m (id r)). exact Hr. }
  destruct ok; [|exact Hd]. unfold negb. destruct (settle_executed _ _ _ _ _) as [res w'] eqn:Hse.
  assert (Hq : quiet {| writer := w; held := m |} {| writer := w'; held := delete (id r) m |}).
  { destruct (settle_quiet _ _ _ _ _ _ (delete (id r) m) _ _ _ Hse Hgood Hp Hex) as [Hr Hm Hbg].
    constructor; simpl in *; auto.
    - intros h i Hr'%Hm. apply Hd. exact Hr'.
    - intros h i [Hbb|Hr']%Hbg; auto. right. apply Hd. exact Hr'. }
  destruct res as [[]|e]; simpl; [|exact Hq]. destruct Hq as [Hr Hm Hbg].
  constructor; simpl; rewrite ?forget_rows, ?forget_disk; auto. intros h i Hf%may_run_forget. auto.
Qed.

Lemma cancel_quiet rm r proven s : quiet s (step s (Cancel rm r proven)).
Proof.
  destruct s as [w m]. unfold step, Fidelity.step, cancel_fidelity; cbn [writer held].
  destruct (is_executing w _ _ && _); [apply quiet_drop|].
  destruct (remove_durable_record _ _ _) as [res d] eqn:Hrm.
  assert (Hq : quiet {| writer := w; held := m |} {| writer := with_disk d w; held := delete (id r) m |}).
  { constructor; simpl; auto.
    - intros h i Hr. apply (may_run_delete w m (id r)). exact Hr.
    - intros h i Hb. left. destruct (remove_cases _ _ _ _ _ Hrm) as [(-> & _)|[-> _]]; auto.
      apply begun_delete in Hb. apply Hb. }
  assert (Hf : quiet {| writer := w; held := m |}
                 {| writer := forget (res_session_hash r) (id r) (with_disk d w); held := delete (id r) m |}).
  { destruct Hq as [Hr Hm Hb]. constructor; simpl; rewrite ?forget_rows, ?forget_disk; auto.
    intros h i Hf%may_run_forget. auto. }
  destruct res as [[]|[|e]]; auto.
Qed.

Lemma reconcile_quiet db p rm again i how s :
  consistent s -> quiet s (step s (Reconcile db p rm again i how)).
Proof.
  intros Hc. unfold step, Fidelity.step. destruct s as [w m]; cbn [writer held] in *.
  destruct (reconcile_fidelity _ _ _ _ _ _ _) as [res w'] eqn:E. simpl.
  destruct (reconcile_cases _ _ _ _ _ _ _ _ _ E) as [->|(h & pending & rs & d & [Hp Hst Hrs Hrc Hr Hend])];
    [apply quiet_same|].
  destruct (c_memory _ Hc _ _ _ Hp) as [_ (op & Hop & Hgood)]; auto.
  assert (Hq : quiet {| writer := w; held := m |} {| writer := with_disk d (with_rows rs w); held := m |}).
  { constructor; simpl; auto.
    - case_bool_decide; auto. right. destruct Hrs as (op' & Hop' & ->). assert (op' = op) as -> by congruence. exists h, i, op, pending. auto.
    - intros h' j (rec & Hrec & Hb). left. exists rec. split.
      + destruct Hr as [<-|Hr]; auto. rewrite Hr in Hrec. apply lookup_delete_Some in Hrec. apply Hrec.
      + destruct (Hrc j) as [<-|(_ & rc & Hx & _)]; auto. rewrite Hx in Hb. destruct rec; simpl in *; auto.
        destruct Hb; discriminate. }
  destruct Hend as [->|[_ ->]]; auto. destruct Hq as [Hqr Hm Hb].
  constructor; simpl; rewrite ?forget_rows, ?forget_disk; auto. intros h' j Hf%may_run_forget. auto.
Qed.

Lemma damage_quiet file s : quiet s (step s (Damage file)).
Proof.
  destruct s as [w m]. unfold step, Fidelity.step; cbn [writer held]. case_decide; [|apply quiet_same].
  constructor; simpl; auto. intros h i (rec & Hrec & Hb). left. exists rec. split; auto. simpl in Hrec.
  destruct (decide (file = i)) as [->|]; [rewrite lookup_insert_eq in Hrec; discriminate|].
  rewrite lookup_insert_ne in Hrec; auto.
Qed.

(** *** The ledger only grows, and receipts are only written by reconciliations *)

Lemma recorded_app rs row i : recorded rs i = true -> recorded (rs ++ [row]) i = true.
Proof. unfold recorded. rewrite existsb_app. intros ->. auto. Qed.

Lemma quiet_recorded s s' i : quiet s s' -> recorded (rows (writer s)) i = true -> recorded (rows (writer s')) i = true.
Proof.
  intros [Hr _ _] Hi. destruct Hr as [->|(h & j & op & p & -> & _)]; auto. apply recorded_insert. auto.
Qed.

Lemma reserve_rows db p now i session al bound o w :
  rows (reserve_fidelity privacy_hash identity_hash db p now i session al bound o w).2 = rows w
  /\ forall j, receipt_of j (disk (reserve_fidelity privacy_hash identity_hash db p now i session al bound o w).2) = receipt_of j (disk w).
Proof.
  unfold reserve_fidelity. destruct (fidelity_blocked w); [auto|].
  destruct (fidelity_session_usage _ _ _ _ _); [|auto]. destruct (_ && _); [auto|]. destruct p; auto.
Qed.

Lemma load_rows io names d rs i :
  wf_disk d ->
  receipt_of i (l_disk (load_and_reconcile_durable_records io names d rs)) = receipt_of i d
  /\ (recorded rs i = true -> recorded (l_rows (load_and_reconcile_durable_records io names d rs)) i = true).
Proof.
  intros Hd.
  apply (load_invariant (fun _ l => wf_disk (l_disk l) /\ receipt_of i (l_disk l) = receipt_of i d
                                    /\ (recorded rs i = true -> recorded (l_rows l) i = true))); auto.
  intros _ l file (Hl & Hrc & Hr). destruct (load_file_step io l file Hl) as [Hd' _ _ _ _ _ Hrc' _ Hrows].
  split_and!; auto; [congruence|]. intros Hi. destruct Hrows as [->|(h & op & -> & _)]; auto. apply recorded_insert. auto.
Qed.

Lemma step_recorded e s i :
  consistent s -> allowed e s -> recorded (rows (writer s)) i = true -> recorded (rows (writer (step s e))) i = true.
Proof.
  intros Hc Ha. destruct e as [db p now j session al bound o| | | | |row| |].
  - unfold step, Fidelity.step. pose proof (reserve_rows db p now j session al bound o (writer s)) as [Hr _].
    destruct (reserve_fidelity _ _ _ _ _ _ _ _ _ _ _) as [ans w]; simpl in *. rewrite Hr. auto.
  - apply quiet_recorded, begin_quiet. auto.
  - apply quiet_recorded, complete_quiet. auto.
  - apply quiet_recorded, reconcile_quiet. auto.
  - apply quiet_recorded, cancel_quiet.
  - apply recorded_app.
  - apply quiet_recorded, damage_quiet.
  - apply (load_rows io names (disk (writer s)) (rows (writer s)) i), Hc.
Qed.

Lemma persist_receipt_of p i j rec d : receipt_of j (persist_durable_record p i rec d).2 = receipt_of j d.
Proof. destruct p; auto. Qed.

Definition is_reconcile (e : Event) : bool := match e with Reconcile _ _ _ _ _ _ => true | _ => false end.

Lemma step_receipts e s i :
  consistent s -> is_reconcile e = false ->
  receipt_of i (disk (writer (step s e))) = receipt_of i (disk (writer s)).
Proof.
  intros Hc Hne. destruct s as [w m]. unfold step, Fidelity.step; cbn [writer held].
  destruct e as [db p now j session al bound o|p now r record|db p rm r record|db p rm again j how|rm r proven|row|file|io names].
  - pose proof (reserve_rows db p now j session al bound o w) as [_ Hr].
    destruct (reserve_fidelity _ _ _ _ _ _ _ _ _ _ _) as [ans w']; simpl in *. auto.
  - unfold begin_fidelity. destruct (pending_of _ _ _); auto. destruct (privacy_safe_fidelity_operation _ _ _ _) as [op|]; auto.
    set (rec := DExecuting _ _ _ _ _ _ _). pose proof (persist_receipt_of p (id r) i rec (disk w)) as Hp.
    destruct (persist_durable_record _ _ _ _) as [[] d]; exact Hp.
  - unfold complete_fidelity. destruct (is_executing _ _ _); auto. unfold negb at 1.
    destruct (privacy_safe_fidelity_operation _ _ _ _) as [op|]; auto. set (rec := DExecuted _ _ _).
    pose proof (persist_receipt_of p (id r) i rec (disk w)) as Hp.
    destruct (persist_durable_record _ _ _ _) as [ok d]. destruct ok; [|exact Hp]. unfold negb.
    destruct (settle_executed _ _ _ _ _) as [res w'] eqn:E.
    assert (Hw : receipt_of i (disk w') = receipt_of i (disk w)).
    { destruct (settle_cases _ _ _ _ _ _ _ E) as [[-> _]|(d2 & -> & [[-> _]| ->])]; auto. }
    destruct res as [[]|]; simpl; rewrite ?forget_disk; auto.
  - discriminate Hne.
  - unfold cancel_fidelity. destruct (_ && _); auto. pose proof (remove_receipt rm (id r) i (disk w)) as Hr.
    destruct (remove_durable_record _ _ _) as [res d]. destruct res as [[]|[|]]; simpl; rewrite ?forget_disk; auto.
  - auto.
  - simpl. case_decide; auto.
  - apply load_rows, Hc.
Qed.

(** *** Events that concern other reservations *)

Definition touches (e : Event) (i : rstr) : bool :=
  match e with
  | Reserve _ _ _ j _ _ _ _ | Reconcile _ _ _ _ j _ | Damage j => bool_decide (j = i)
  | Begin _ _ r _ | Complete _ _ _ r _ | Cancel _ r _ => bool_decide (id r = i)
  | OtherRow _ | Restart _ _ => false
  end.

Definition is_restart (e : Event) : bool := match e with Restart _ _ => true | _ => false end.

Definition same_at (i : rstr) (w w' : Writer) : Prop :=
  records (disk w') !! i = records (disk w) !! i /\ (forall h, pending_of w' h i = pending_of w h i)
  /\ receipt_of i (disk w') = receipt_of i (disk w).

Lemma same_refl i w : same_at i w w.
Proof. repeat split. Qed.

Lemma same_trans i w1 w2 w3 : same_at i w1 w2 -> same_at i w2 w3 -> same_at i w1 w3.
Proof. intros (? & Hp & ?) (? & Hp' & ?). split_and!; congruence. Qed.

Lemma same_persist i j p rec w :
  j <> i -> same_at i w (with_disk (persist_durable_record p j rec (disk w)).2 w).
Proof. intros Hne. destruct p; repeat split; simpl; rewrite ?lookup_insert_ne by auto; auto. Qed.

Lemma same_remove i j rm w : j <> i -> same_at i w (with_disk (remove_durable_record rm j (disk w)).2 w).
Proof.
  intros Hne. unfold remove_durable_record.
  destruct rm, (records (disk w) !! j); repeat split; simpl; rewrite ?lookup_delete_ne by auto; auto.
Qed.

Lemma same_put i h j p w : j <> i -> same_at i w (put_session h (<[j := p]> (session_of w h)) w).
Proof.
  intros Hne. repeat split. intros h'. rewrite pending_of_put, bool_decide_false by naive_solver. auto.
Qed.

Lemma same_forget i h j w : j <> i -> same_at i w (forget h j w).
Proof.
  intros Hne. unfold same_at. rewrite forget_disk. repeat split. intros h'.
  rewrite pending_of_forget, bool_decide_false by naive_solver. auto.
Qed.

Lemma same_rows i rs w : same_at i w (with_rows rs w).
Proof. repeat split. Qed.

Lemma same_settle i db rm op j w : j <> i -> same_at i w (settle_executed db rm op j w).2.
Proof.
  intros Hne. unfold settle_executed. destruct (record_privacy_safe_fidelity_operation _ _ _) as [[[]|e] rs]; [|apply same_refl].
  pose proof (same_remove i j rm w Hne) as H. destruct (remove_durable_record _ _ _) as [res d]. simpl in *.
  apply (same_trans _ _ _ _ H). repeat split.
Qed.

Lemma untouched e s i :
  touches e i = false -> is_restart e = false -> same_at i (writer s) (writer (step s e)).
Proof.
  intros Ht Hr. destruct s as [w m]. unfold step, Fidelity.step; cbn [writer held].
  destruct e as [db p now j session al bound o|p now r record|db p rm r record|db p rm again j how|rm r proven|row|file|io names];
    simpl in Ht; try (apply bool_decide_eq_false in Ht); try discriminate Hr.
  - unfold reserve_fidelity. destruct (fidelity_blocked w); [apply same_refl|].
    destruct (fidelity_session_usage _ _ _ _ _); [|apply same_refl]. set (h := privacy_hash _ session).
    assert (H0 : same_at i w (put_session h (session_of w h) w))
      by (repeat split; intros h'; apply pending_of_touch).
    destruct (_ && _); [exact H0|].
    pose proof (same_persist i j p (DReserved 1 j h bound now) w Ht) as H1. simpl disk.
    destruct (persist_durable_record _ _ _ _) as [ok d]. simpl in H1. destruct ok; simpl writer.
    + rewrite put_put. apply (same_trans _ _ _ _ H1). apply (same_put i h j _ (with_disk d w)). auto.
    + apply (same_trans _ _ _ _ H1). repeat split. intros h'. apply (pending_of_touch h (with_disk d w)).
  - unfold begin_fidelity. destruct (pending_of _ _ _) as [pd|]; [|apply same_refl].
    destruct (privacy_safe_fidelity_operation _ _ _ _) as [op|]; [|apply same_refl]. set (rec := DExecuting _ _ _ _ _ _ _).
    pose proof (same_persist i (id r) p rec w Ht) as H1. destruct (persist_durable_record _ _ _ _) as [ok d]. simpl in H1.
    destruct ok; [|exact H1]. apply (same_trans _ _ _ _ H1), (same_put i _ (id r) _ (with_disk d w)). auto.
  - unfold complete_fidelity. destruct (is_executing _ _ _); [|apply same_refl]. unfold negb at 1.
    destruct (privacy_safe_fidelity_operation _ _ _ _) as [op|]; [|apply same_refl]. set (rec := DExecuted _ _ _).
    pose proof (same_persist i (id r) p rec w Ht) as H1. destruct (persist_durable_record _ _ _ _) as [ok d]. simpl in H1.
    destruct ok; [|exact H1]. unfold negb. pose proof (same_settle i db rm op (id r) (with_disk d w) Ht) as H2.
    destruct (settle_executed _ _ _ _ _) as [res w']. simpl in H2. pose proof (same_trans _ _ _ _ H1 H2) as H3.
    destruct res as [[]|]; [|exact H3]. apply (same_trans _ _ _ _ H3), same_forget. auto.
  - destruct (reconcile_fidelity _ _ _ _ _ _ _) as [res w'] eqn:E. simpl.
    destruct (reconcile_cases _ _ _ _ _ _ _ _ _ E) as [->|(h & pending & rs & d & [Hp Hst Hrs Hrcs Hrec Hend])]; [apply same_refl|].
    assert (H1 : same_at i w (with_disk d (with_rows rs w))).
    { split_and!; simpl; auto.
      - destruct Hrec as [->| ->]; [auto|apply lookup_delete_ne; auto].
      - destruct (Hrcs i) as [?|[? _]]; [auto|congruence]. }
    destruct Hend as [->|[_ ->]]; [exact H1|]. apply (same_trans _ _ _ _ H1), same_forget. auto.
  - unfold cancel_fidelity. destruct (_ && _); [apply same_refl|]. pose proof (same_remove i (id r) rm w Ht) as H1.
    destruct (remove_durable_record _ _ _) as [res d]. simpl in H1.
    destruct res as [[]|[|]]; [| |exact H1]; apply (same_trans _ _ _ _ H1), same_forget; auto.
  - apply same_rows.
  - case_decide; [|apply same_refl]. repeat split; simpl. rewrite lookup_insert_ne; auto.
Qed.

(** *** An executed operation stays on file until it is in the ledger *)

Definition valid_operation (op : PrivacySafeFidelityOperation) : Prop :=
  reservation_id op <> [] /\ class (evasion op) = EvasionClass.E7FidelityHatch
  /\ (measurement op = Unmeasured -> input_tokens op = 0 /\ output_tokens op = 0).

Definition valid_file (d : Disk) (i : rstr) : Prop :=
  forall v b op, records d !! i = Some (Some (DExecuted v b op)) -> valid_operation op.

(** In the ledger or on file, and with the caller done. *)
Definition kept (w : Writer) (i : rstr) : Prop := recorded (rows w) i = true \/ is_executed (disk w) i.
Record safe (s : System) (i : rstr) : Prop := {
  s_kept : kept (writer s) i;
  s_valid : valid_file (disk (writer s)) i;
  s_held : held s !! i = None;
}.

Lemma valid_recorded op rs :
  valid_operation op ->
  record_privacy_safe_fidelity_operation None rs op = (Ok tt, insert_or_ignore rs op).
Proof.
  intros (Hid & Hcl & Hm). unfold record_privacy_safe_fidelity_operation. rewrite Hcl, bool_decide_true by auto.
  destruct (reservation_id op) eqn:E; [congruence|]. simpl. case_bool_decide as Hu; simpl; auto.
  destruct (Hm Hu) as [-> ->]. auto.
Qed.

Lemma load_file_records io l file :
  records (l_disk (load_file io l file)) = records (l_disk l)
  \/ records (l_disk (load_file io l file)) = delete file (records (l_disk l)).
Proof.
  assert (Hset : forall r op, records (l_disk (settle_file io r op file l)) = records (l_disk l)
                              \/ records (l_disk (settle_file io r op file l)) = delete file (records (l_disk l))).
  { intros r op. destruct (settle_file_cases io r op file l _ eq_refl) as (_ & _ & [->| ->] & _); auto. }
  assert (Haside : forall b, records (put_aside b file (l_disk l)) = records (l_disk l)
                             \/ records (put_aside b file (l_disk l)) = delete file (records (l_disk l)))
    by (intros []; auto).
  assert (Hrm : records (remove_durable_record (load_remove io file) file (l_disk l)).2 = records (l_disk l)
                \/ records (remove_durable_record (load_remove io file) file (l_disk l)).2 = delete file (records (l_disk l)))
    by (unfold remove_durable_record; destruct (load_remove io file), (records (l_disk l) !! file); auto).
  unfold load_file. destruct (records (l_disk l) !! file) as [[rec|]|]; [|apply Haside|auto].
  destruct rec as [[|[]] j h bound created|[|[]] j h bound created started op|[|[]] bound op]; auto; try apply Haside.
  - case_match; auto. destruct (remove_durable_record _ _ _). auto.
  - destruct (receipt_of _ _); auto.
Qed.

Lemma load_file_other io l file i :
  file <> i -> records (l_disk (load_file io l file)) !! i = records (l_disk l) !! i.
Proof. intros. destruct (load_file_records io l file) as [->| ->]; auto. apply lookup_delete_ne. auto. Qed.

Lemma load_file_sub io l file i f :
  records (l_disk (load_file io l file)) !! i = Some f -> records (l_disk l) !! i = Some f.
Proof. destruct (load_file_records io l file) as [->| ->]; auto. intros [_ H]%lookup_delete_Some. auto. Qed.

Lemma load_file_recorded io l file i :
  wf_disk (l_disk l) -> recorded (l_rows l) i = true -> recorded (l_rows (load_file io l file)) i = true.
Proof.
  intros Hd. destruct (ls_rows _ _ _ (load_file_step io l file Hd)) as [->|(h & op & -> & _)]; auto.
  intros. apply recorded_insert. auto.
Qed.

(** An executed operation is in the ledger once its file is read, or the file is still there. *)
Lemma load_file_kept io l i file :
  wf_disk (l_disk l) -> kept (writer_of l) i -> kept (writer_of (load_file io l file)) i.
Proof.
  intros Hd [Hr|(v & b & op & Hf)]; [left; apply load_file_recorded; auto|]. simpl in Hf.
  destruct (decide (file = i)) as [->|Hne].
  2: { right. exists v, b, op. simpl. rewrite load_file_other; auto. }
  destruct (Hd _ _ Hf) as (-> & h & Hid & _). unfold kept, is_executed; simpl. unfold load_file. rewrite Hf.
  unfold settle_file. destruct (record_privacy_safe_fidelity_operation _ _ _) as [[[]|e] rs] eqn:Hrec; simpl.
  - left. apply record_ok in Hrec as ->. destruct (remove_durable_record _ _ _). simpl. apply recorded_insert. auto.
  - right. eauto.
Qed.

Lemma reserve_id db p now i session al bound o w r w' :
  reserve_fidelity privacy_hash identity_hash db p now i session al bound o w = (Ok (Some r), w') -> id r = i.
Proof.
  unfold reserve_fidelity. destruct (fidelity_blocked w); [discriminate|].
  destruct (fidelity_session_usage _ _ _ _ _); [|discriminate]. destruct (_ && _); [discriminate|].
  destruct p; intros [= <- _]; auto.
Qed.

Lemma step_safe e s i :
  consistent s -> allowed e s -> e <> Damage i -> safe s i -> safe (step s e) i.
Proof.
  intros Hc Ha Hdam [Hk Hv Hh]. destruct (is_restart e) eqn:Hres.
  { destruct e as [| | | | | | |io names]; try discriminate Hres. simpl.
    cut (kept (open io names (disk (writer s)) (rows (writer s))) i
         /\ valid_file (disk (open io names (disk (writer s)) (rows (writer s)))) i).
    { intros [? ?]. constructor; simpl; auto. }
    apply (load_invariant (fun _ l => wf_disk (l_disk l) /\ kept (writer_of l) i /\ valid_file (l_disk l) i) io).
    + split; [apply Hc|auto].
    + intros _ l file (Hl & Hkl & Hvl). split_and!; [apply (load_file_step io l file Hl), Hl|apply load_file_kept; auto|].
      intros v b op Hf%load_file_sub. eauto. }
  destruct (touches e i) eqn:Ht.
  2: { destruct (untouched e s i Ht Hres) as (Hsame & _). constructor.
       - destruct Hk as [Hr|(v & b & op & Hf)]; [left; apply step_recorded; auto|]. right. exists v, b, op. congruence.
       - intros v b op Hf. rewrite Hsame in Hf. eauto.
       - destruct e as [db p now j session al bound o|p now r record|db p rm r record| |rm r proven| | |]; simpl in *; auto;
           try (apply bool_decide_eq_false in Ht; rewrite lookup_delete_ne by auto; auto).
         destruct (reserve_fidelity _ _ _ _ _ _ _ _ _ _ _) as [[[r|]|] w] eqn:E; simpl; auto.
         apply reserve_id in E. apply bool_decide_eq_false in Ht. rewrite lookup_insert_ne by congruence. auto. }
  destruct e as [| | |db p rm again j how| | |file|]; simpl in Ht; try discriminate; apply bool_decide_eq_true in Ht; subst.
  - destruct Ha as [Ha Hr]. destruct Hk as [?|(v & b & op & ?)]; congruence.
  - destruct Ha as [Ha _]. congruence.
  - destruct Ha as [Ha _]. congruence.
  - destruct s as [w m]. unfold step, Fidelity.step; cbn [writer held] in *.
    destruct (reconcile_fidelity _ _ _ _ _ _ _) as [res w'] eqn:E. simpl.
    destruct (reconcile_cases _ _ _ _ _ _ _ _ _ E) as [->|(h & pending & rs & d & [Hp Hst Hrs Hrcs Hrec Hend])];
      [constructor; auto|].
    assert (Hw : rows w' = rs /\ records (disk w') = records d)
      by (destruct Hend as [->|[_ ->]]; rewrite ?forget_rows, ?forget_disk; auto).
    destruct Hw as [Hw1 Hw2]. constructor; simpl; auto.
    + destruct how.
      * rewrite bool_decide_true in Hrs by auto. destruct Hrs as (op' & Hop' & ->).
        destruct (c_memory _ Hc _ _ _ Hp) as [_ (op2 & Hop2 & Hid & _)]; auto. left. rewrite Hw1. apply recorded_insert.
        right. congruence.
      * rewrite bool_decide_false in Hrs by discriminate. destruct Hk as [Hr|Hk]; [left; congruence|].
        simpl in Ha. contradiction.
    + intros v b op. rewrite Hw2. destruct Hrec as [->| ->]; [apply Hv|]. intros [_ Hf]%lookup_delete_Some. eauto.
  - simpl in Ha. congruence.
  - congruence.
Qed.

(** *** One row for each reservation *)

Definition rows_of (rs : list CommandRow) (i : rstr) : N :=
  N.of_nat (length (List.filter (fun row => bool_decide (fidelity_reservation_id row = Some i)) rs)).

Definition unique (rs : list CommandRow) : Prop := forall i, rows_of rs i <= 1.

Lemma rows_of_app rs row i :
  rows_of (rs ++ [row]) i = rows_of rs i + (if bool_decide (fidelity_reservation_id row = Some i) then 1 else 0).
Proof.
  clear privacy_hash identity_hash. unfold rows_of. rewrite List.filter_app, length_app. simpl.
  destruct (bool_decide _); simpl; lia.
Qed.

Lemma recorded_rows_of rs i : recorded rs i = negb (rows_of rs i =? 0).
Proof.
  clear privacy_hash identity_hash. induction rs as [|row rs IH]; auto. unfold recorded, rows_of in *. simpl. destruct (bool_decide _); simpl; [lia|exact IH].
Qed.

Lemma unique_insert rs op : unique rs -> unique (insert_or_ignore rs op).
Proof.
  intros Hu i. unfold insert_or_ignore. destruct (recorded rs (reservation_id op)) eqn:Hr; auto.
  rewrite rows_of_app. simpl. case_bool_decide as E; [|specialize (Hu i); lia].
  injection E as <-. rewrite recorded_rows_of in Hr. specialize (Hu (reservation_id op)). lia.
Qed.

Lemma step_unique e s : consistent s -> allowed e s -> unique (rows (writer s)) -> unique (rows (writer (step s e))).
Proof.
  intros Hc Ha Hu.
  assert (Hq : quiet s (step s e) -> unique (rows (writer (step s e)))).
  { intros [[->|(h & i & op & p & -> & _)] _ _]; auto using unique_insert. }
  destruct e as [db p now j session al bound o| | | | |row| |io names].
  - unfold step, Fidelity.step. pose proof (reserve_rows db p now j session al bound o (writer s)) as [Hr _].
    destruct (reserve_fidelity _ _ _ _ _ _ _ _ _ _ _) as [ans w]; simpl in *. rewrite Hr. auto.
  - apply Hq, begin_quiet. auto.
  - apply Hq, complete_quiet. auto.
  - apply Hq, reconcile_quiet. auto.
  - apply Hq, cancel_quiet.
  - simpl in *. intros i. rewrite rows_of_app, Ha, bool_decide_false by discriminate. specialize (Hu i). lia.
  - apply Hq, damage_quiet.
  - simpl. apply (load_invariant (fun _ l => wf_disk (l_disk l) /\ unique (l_rows l)) io); [split; [apply Hc|auto]|].
    intros _ l file [Hl Hul]. pose proof (load_file_step io l file Hl) as Hs. split; [apply Hs, Hl|].
    destruct (ls_rows _ _ _ Hs) as [->|(h & op & -> & _)]; auto using unique_insert.
Qed.

(** What completing an execution leaves when it does not report a loss. *)
Lemma complete_safe db p rm r record s answer w' :
  complete_fidelity privacy_hash identity_hash db p rm r record (writer s) = (answer, w') ->
  (forall op, privacy_safe_fidelity_operation privacy_hash identity_hash (id r) record = Some op -> valid_operation op) ->
  match answer with Ok _ => True | Err e => incident_persisted e = true end ->
  safe {| writer := w'; held := delete (id r) (held s) |} (id r).
Proof.
  unfold complete_fidelity. intros Hcomp Hvalid Hans. destruct (is_executing _ _ _); [|injection Hcomp as <- <-; discriminate].
  unfold negb in Hcomp at 1. destruct (privacy_safe_fidelity_operation _ _ _ _) as [op|] eqn:Hop;
    [|injection Hcomp as <- <-; discriminate].
  assert (Hid : reservation_id op = id r).
  { clear -Hop. unfold privacy_safe_fidelity_operation in Hop. apply bind_Some in Hop as (? & _ & [= <-]). auto. }
  set (bound := match pending_of _ _ _ with Some _ => _ | None => _ end) in Hcomp.
  assert (Hfile : (persist_durable_record p (id r) (DExecuted 1 bound op) (disk (writer s))).1 = true ->
     records (persist_durable_record p (id r) (DExecuted 1 bound op) (disk (writer s))).2 !! id r
     = Some (Some (DExecuted 1 bound op))) by (destruct p; simpl; try discriminate; intros _; apply lookup_insert_eq).
  destruct (persist_durable_record _ _ _ _) as [ok d]. simpl in Hfile.
  destruct ok; [|injection Hcomp as <- <-; discriminate]. unfold negb in Hcomp. specialize (Hfile eq_refl).
  destruct (settle_executed _ _ _ _ _) as [res w2] eqn:Hse.
  assert (Hk : kept w2 (id r) /\ valid_file (disk w2) (id r)).
  { assert (Hv : valid_file d (id r)) by (intros v b op' Hf; rewrite Hfile in Hf; injection Hf as _ _ <-; auto).
    destruct (settle_cases _ _ _ _ _ _ _ Hse) as [[-> _]|(d2 & -> & Hd2)]; split; auto.
    - right. exists 1, bound, op. auto.
    - left. simpl. apply recorded_insert. auto.
    - simpl. destruct Hd2 as [[-> _]| ->]; auto. intros v b op' Hf. simpl in Hf. rewrite lookup_delete_eq in Hf. discriminate. }
  destruct Hk as [Hk Hv]. unfold kept in Hk.
  destruct res as [[]|e]; injection Hcomp as <- <-; constructor; simpl;
    unfold kept; rewrite ?forget_rows, ?forget_disk; first [assumption | apply lookup_delete_eq].
Qed.

(** A start that meets no error records the operation and removes its file. *)
Lemma restart_settles io names s i :
  consistent s -> safe s i -> i ∈ names -> load_db io i = None -> load_remove io i = Removed ->
  let w := open io names (disk (writer s)) (rows (writer s)) in
  recorded (rows w) i = true /\ ~ is_executed (disk w) i.
Proof.
  intros Hc [Hk Hv _] Hin Hdb Hrm w.
  cut (i ∈ rev names -> recorded (rows w) i = true /\ ~ is_executed (disk w) i).
  { intros H. apply H. apply list_elem_of_In. apply -> in_rev. apply list_elem_of_In. auto. }
  apply (load_invariant (fun done l => wf_disk (l_disk l) /\ kept (writer_of l) i /\ valid_file (l_disk l) i
    /\ (i ∈ done -> recorded (l_rows l) i = true /\ ~ is_executed (l_disk l) i)) io).
  { split_and!; auto; [apply Hc|]. intros []%elem_of_nil. }
  intros done l file (Hl & Hkl & Hvl & Hdone).
  assert (Hkl' : kept (writer_of (load_file io l file)) i) by (apply load_file_kept; auto).
  split_and!; [apply (load_file_step io l file Hl), Hl|auto|intros v b op Hf%load_file_sub; eauto|].
  intros Hfd. cut (~ is_executed (l_disk (load_file io l file)) i).
  { intros Hn. split; auto. destruct Hkl'; auto. }
  intros (v & b & op & Hx). pose proof (load_file_sub _ _ _ _ _ Hx) as Hold. destruct (decide (file = i)) as [->|Hfi].
  - destruct (Hl _ _ Hold) as (-> & _). unfold load_file in Hx. rewrite Hold in Hx. unfold settle_file in Hx.
    rewrite Hdb, (valid_recorded _ _ (Hvl _ _ _ Hold)), Hrm in Hx. simpl in Hx. rewrite Hold in Hx. simpl in Hx.
    rewrite lookup_delete_eq in Hx. discriminate.
  - apply elem_of_cons in Hfd as [?|Hd']; [congruence|]. destruct (Hdone Hd') as [_ Hno]. apply Hno. exists v, b, op. auto.
Qed.

(** *** An execution whose end is unknown *)

Record unknown (w : Writer) (h i : rstr) : Prop := {
  un_pending : is_executing w h i = true;
  un_file : exists bound created started op, records (disk w) !! i = Some (Some (DExecuting 1 i h bound created started op));
  un_receipt : receipt_of i (disk w) = None;
}.

Lemma load_file_pending_other io l file h i :
  wf_disk (l_disk l) -> file <> i -> pending_of (writer_of (load_file io l file)) h i = pending_of (writer_of l) h i.
Proof.
  intros Hd Hne.
  assert (Hset : forall r op, pending_of (writer_of (settle_file io r op file l)) h i = pending_of (writer_of l) h i).
  { intros r op. unfold pending_of. simpl. destruct (settle_file_cases io r op file l _ eq_refl) as (-> & _). auto. }
  assert (Hkeep : forall h' p n d rs, pending_of (writer_of {| l_pending := add_pending h' file p (l_pending l);
             integrity_issues := n; l_disk := d; l_rows := rs |}) h i = pending_of (writer_of l) h i).
  { intros. rewrite pending_of_add, bool_decide_false by naive_solver. auto. }
  unfold load_file. destruct (records (l_disk l) !! file) as [[rec|]|] eqn:Hf; auto.
  pose proof (Hd _ _ Hf) as Hwf. destruct rec as [v j h' bound created|v j h' bound created started op|v bound op].
  - destruct Hwf as (-> & -> & _). case_match; auto. destruct (remove_durable_record _ _ _). auto.
  - destruct Hwf as (-> & -> & _). destruct (receipt_of _ _); auto.
  - destruct Hwf as (-> & _). auto.
Qed.

Lemma restart_unknown io names s h i :
  consistent s -> i ∈ names -> unknown (writer s) h i -> unknown (open io names (disk (writer s)) (rows (writer s))) h i.
Proof.
  intros Hc Hin [_ (bound & created & started & op & Hf) Hrc].
  pose proof (load_invariant (fun done l => wf_disk (l_disk l) /\ receipt_of i (l_disk l) = None
    /\ records (l_disk l) !! i = Some (Some (DExecuting 1 i h bound created started op))
    /\ (i ∈ done -> is_executing (writer_of l) h i = true)) io (disk (writer s)) (rows (writer s))) as Hinv.
  destruct (fun H0 Hs => Hinv H0 Hs names) as (_ & Hrc' & Hf' & Hex).
  - split_and!; auto; [apply Hc|]. intros []%elem_of_nil.
  - clear Hf Hrc Hinv. intros done l file (Hl & Hrc & Hf & Hdone). pose proof (load_file_step io l file Hl) as Hs.
    destruct (decide (file = i)) as [->|Hne].
    + split_and!; [apply Hs, Hl|rewrite (ls_receipts _ _ _ Hs); auto| |intros _];
        unfold load_file; rewrite Hf, Hrc; auto.
      unfold is_executing. rewrite pending_of_add, bool_decide_true by auto. auto.
    + split_and!; [apply Hs, Hl|rewrite (ls_receipts _ _ _ Hs); auto|rewrite load_file_other; auto|].
      intros [?|Hd]%elem_of_cons; [congruence|]. unfold is_executing. rewrite load_file_pending_other; auto.
  - constructor; [|exists bound, created, started, op; exact Hf'|exact Hrc']. apply Hex.
    apply list_elem_of_In. apply -> in_rev. apply list_elem_of_In. auto.
Qed.

Lemma step_unknown e s h i :
  consistent s -> allowed e s -> touches e i = false -> unknown (writer s) h i -> unknown (writer (step s e)) h i.
Proof.
  intros Hc Ha Ht Hu. destruct (is_restart e) eqn:Hres.
  - destruct e as [| | | | | | |io names]; try discriminate Hres. apply restart_unknown; auto. apply Ha.
    destruct Hu as [_ (bound & created & started & op & ->) _]. eauto.
  - destruct (untouched e s i Ht Hres) as (Hf & Hp & Hrc). destruct Hu as [Hex (bound & created & started & op & Hfile) Hr].
    constructor; [unfold is_executing; rewrite Hp; exact Hex| |congruence]. exists bound, created, started, op. congruence.
Qed.

Lemma inspect_mono files s i :
  (i ∈ unknown_reservation_ids s -> i ∈ unknown_reservation_ids (foldl inspect_file s files))
  /\ executing_unknown s <= executing_unknown (foldl inspect_file s files).
Proof.
  revert s. induction files as [|f files IH]; intros s; simpl; [split; auto; lia|].
  destruct (IH (inspect_file s f)) as [Hi Hn].
  assert (Hf : (i ∈ unknown_reservation_ids s -> i ∈ unknown_reservation_ids (inspect_file s f))
               /\ executing_unknown s <= executing_unknown (inspect_file s f)).
  { unfold inspect_file. repeat case_match; simpl; split; auto; try lia. intros. apply elem_of_app. auto. }
  destruct Hf. split; [auto|lia].
Qed.

Lemma unknown_is_reported d i h bound created started op :
  records d !! i = Some (Some (DExecuting 1 i h bound created started op)) ->
  i ∈ unknown_reservation_ids (inspect_fidelity_pending d) /\ healthy (inspect_fidelity_pending d) = false.
Proof.
  intros Hf. unfold inspect_fidelity_pending. set (s0 := {| reserved := 0 |}).
  assert (Hin : Some (DExecuting 1 i h bound created started op) ∈ (map_to_list (records d)).*2).
  { apply list_elem_of_fmap. exists (i, Some (DExecuting 1 i h bound created started op)). split; auto.
    apply elem_of_map_to_list. auto. }
  apply list_elem_of_split in Hin as (l1 & l2 & ->). rewrite foldl_app. cbn [foldl].
  set (s1 := foldl inspect_file s0 l1). set (s2 := inspect_file s1 (Some (DExecuting 1 i h bound created started op))).
  assert (H2 : i ∈ unknown_reservation_ids s2 /\ 0 < executing_unknown s2)
    by (unfold s2; simpl; split; [apply elem_of_app; right; left|lia]).
  destruct (inspect_mono l2 s2 i) as [Hi Hn]. split; [apply Hi, H2|].
  unfold healthy. destruct (N.eqb_spec (executing_unknown (foldl inspect_file s2 l2)) 0); [lia|].
  reflexivity.
Qed.

(** *** Resolutions *)

Lemma reconcile_answer db p rm again i how w receipt w' :
  reconcile_fidelity db p rm again i how w = (Ok receipt, w') ->
  exists rc, receipt_of i (disk w') = Some rc /\ resolution rc = resolution receipt.
Proof.
  unfold reconcile_fidelity. destruct (receipt_of i (disk w)) as [rc|] eqn:Hrc; [intros [= <- <-]; eauto|].
  destruct (find_pending w i) as [[h pending]|]; [|discriminate]. destruct (bool_decide (state pending = _)); [|discriminate].
  simpl negb. cbv iota. destruct (if bool_decide _ then _ else _) as [[] rs]; [|discriminate]. simpl negb. cbv iota.
  destruct (persist_receipt p _ _ _) as [ok d] eqn:Hp. destruct (persist_receipt_cases _ _ _ _ _ _ Hp) as (_ & _ & Hok).
  destruct ok; [|discriminate]. simpl negb. cbv iota. specialize (Hok eq_refl).
  pose proof (remove_receipt rm i i d) as Hrm. destruct (remove_durable_record _ _ _) as [removed d2]. simpl in Hrm.
  rewrite Hok in Hrm. intros [= <- <-]. rewrite forget_disk. cbn [disk with_disk]. destruct (is_ok removed); [|eauto].
  set (rc2 := cleaned _ _). pose proof (persist_receipt_cases again i rc2 d2 _ _ (surjective_pairing _)) as (_ & Hx & _).
  change (match again with NotReplaced => d2 | _ => _ end) with (persist_receipt again i rc2 d2).2.
  destruct (Hx i) as [->|[_ ->]]; eauto.
Qed.

Lemma step_resolved e s i rc :
  consistent s -> allowed e s -> receipt_of i (disk (writer s)) = Some rc ->
  exists rc', receipt_of i (disk (writer (step s e))) = Some rc' /\ resolution rc' = resolution rc.
Proof.
  intros Hc Ha Hrc. destruct (is_reconcile e) eqn:E; [|rewrite step_receipts by auto; eauto].
  destruct e as [| | |db p rm again j how| | | |]; try discriminate E. destruct (decide (j = i)) as [->|Hne].
  - unfold step, Fidelity.step, reconcile_fidelity. rewrite Hrc. simpl. eauto.
  - destruct (untouched (Reconcile db p rm again j how) s i) as (_ & _ & ->); eauto.
    simpl. apply bool_decide_eq_false. auto.
Qed.

(** *** What was begun is never lost *)

(** A file that says a command may have run. *)
Definition on_file (d : Disk) (i : rstr) : Prop :=
  exists rec, records d !! i = Some (Some rec) /\ match rec with DReserved _ _ _ _ _ => False | _ => True end.

(** In the ledger, on file, or resolved by somebody. *)
Definition accounted_for (w : Writer) (i : rstr) : Prop :=
  recorded (rows w) i = true \/ on_file (disk w) i \/ is_Some (receipt_of i (disk w)).

Definition cancels (e : Event) (i : rstr) : bool := match e with Cancel _ r _ => bool_decide (id r = i) | _ => false end.

Lemma on_file_persist p i rec d :
  on_file d i -> match rec with DReserved _ _ _ _ _ => False | _ => True end ->
  on_file (persist_durable_record p i rec d).2 i.
Proof.
  intros Hf Hrec. destruct (persist_durable_record p i rec d) as [ok d'] eqn:E.
  destruct (persist_cases _ _ _ _ _ _ E) as [[-> _]| ->]; auto. exists rec. split; [apply lookup_insert_eq|exact Hrec].
Qed.

Lemma reconcile_on_file db p rm again i how w :
  on_file (disk w) i ->
  on_file (disk (reconcile_fidelity db p rm again i how w).2) i
  \/ is_Some (receipt_of i (disk (reconcile_fidelity db p rm again i how w).2)).
Proof.
  intros Hf. destruct (reconcile_fidelity db p rm again i how w) as [[receipt|e] w'] eqn:E; simpl.
  { right. destruct (reconcile_answer _ _ _ _ _ _ _ _ _ E) as (rc & -> & _). eauto. }
  left. unfold reconcile_fidelity in E. destruct (receipt_of i (disk w)); [discriminate|].
  destruct (find_pending w i) as [[h pending]|]; [|injection E as _ <-; auto].
  destruct (bool_decide (state pending = _)); [|injection E as _ <-; auto].
  simpl negb in E. cbv iota in E. destruct (if bool_decide _ then _ else _) as [[] rs]; [|injection E as _ <-; auto].
  simpl negb in E. cbv iota in E. destruct (persist_receipt p _ _ _) as [ok d] eqn:Hp.
  destruct (persist_receipt_cases _ _ _ _ _ _ Hp) as (Hr & _ & _).
  destruct ok; simpl negb in E; cbv iota in E; [destruct (remove_durable_record _ _ _); discriminate|].
  injection E as _ <-. destruct Hf as (rec & Hrec & Hx). exists rec. simpl in *. rewrite Hr. auto.
Qed.

Lemma load_file_accounted_for io l i file :
  wf_disk (l_disk l) -> accounted_for (writer_of l) i -> accounted_for (writer_of (load_file io l file)) i.
Proof.
  intros Hd Ha. pose proof (load_file_step io l file Hd) as Hs. destruct Ha as [Hr|[Hf|Hrc]].
  - left. apply load_file_recorded; auto.
  - destruct (decide (file = i)) as [->|Hne].
    2: { right. left. destruct Hf as (rec & Hf & Hx). exists rec. simpl in *. rewrite load_file_other; auto. }
    destruct Hf as ([v j h b c|v j h b c st op|v b op] & Hf & []); simpl in Hf.
    + destruct (receipt_of i (l_disk l)) as [rc|] eqn:Hrc.
      { right. right. simpl. rewrite (ls_receipts _ _ _ Hs), Hrc. eauto. }
      destruct (Hd _ _ Hf) as (-> & -> & _). right. left. eexists. unfold load_file. rewrite Hf, Hrc. split; [exact Hf|exact I].
    + assert (Hk : kept (writer_of l) i) by (right; exists v, b, op; exact Hf).
      destruct (load_file_kept io l i i Hd Hk) as [?|(v' & b' & op' & ?)]; [left; auto|right; left; eexists; split; eauto; exact I].
  - right. right. simpl in *. rewrite (ls_receipts _ _ _ Hs). auto.
Qed.

Lemma step_accounted_for e s i :
  consistent s -> allowed e s -> e <> Damage i -> cancels e i = false ->
  accounted_for (writer s) i -> accounted_for (writer (step s e)) i.
Proof.
  intros Hc Ha Hdam Hcan [Hr|[Hf|[rc Hrc]]].
  1: left; apply step_recorded; auto.
  2: { right. right. destruct (step_resolved e s i rc Hc Ha Hrc) as (rc' & -> & _). eauto. }
  destruct (is_restart e) eqn:Hre.
  { destruct e as [| | | | | | |io names]; try discriminate Hre. simpl.
    apply (load_invariant (fun _ l => wf_disk (l_disk l) /\ accounted_for (writer_of l) i) io).
    - split; [apply Hc|]. right. left. exact Hf.
    - intros _ l file [Hl Hal]. split; [apply (load_file_step io l file Hl), Hl|apply load_file_accounted_for; auto]. }
  destruct (touches e i) eqn:Ht.
  2: { right. left. destruct (untouched e s i Ht Hre) as (Heq & _). destruct Hf as (rec & Hf & Hx). exists rec. rewrite Heq. auto. }
  destruct s as [w m]. simpl in *.
  destruct e as [db p now j session al bound o|p now r record|db p rm r record|db p rm again j how|rm r proven|row|file|io names];
    simpl in Ht, Hcan; try discriminate; try apply bool_decide_eq_true in Ht; subst.
  - destruct Ha as [Hno _]. destruct Hf as (rec & Hf & _). simpl in Hno. congruence.
  - right. left. unfold step, Fidelity.step, begin_fidelity; cbn [writer]. destruct (pending_of _ _ _) as [pd|]; [|exact Hf].
    destruct (privacy_safe_fidelity_operation _ _ _ _) as [op|]; [|exact Hf]. set (rec := DExecuting _ _ _ _ _ _ _).
    pose proof (on_file_persist p (id r) rec _ Hf I) as Hp. destruct (persist_durable_record _ _ _ _) as [[] d]; exact Hp.
  - unfold step, Fidelity.step, complete_fidelity; cbn [writer]. destruct (is_executing _ _ _); [|right; left; exact Hf].
    simpl negb. cbv iota. destruct (privacy_safe_fidelity_operation _ _ _ _) as [op|] eqn:Hop; [|right; left; exact Hf].
    set (rec := DExecuted _ _ _). pose proof (on_file_persist p (id r) rec _ Hf I) as Hp.
    destruct (persist_durable_record _ _ _ _) as [[] d]; [|right; left; exact Hp]. simpl negb. cbv iota. simpl in Hp.
    assert (Hid : reservation_id op = id r)
      by (clear -Hop; unfold privacy_safe_fidelity_operation in Hop; apply bind_Some in Hop as (? & _ & [= <-]); auto).
    destruct (settle_executed _ _ _ _ _) as [res w2] eqn:Hse.
    assert (Hw : accounted_for w2 (id r)).
    { destruct (settle_cases _ _ _ _ _ _ _ Hse) as [[-> _]|(d2 & -> & _)]; [right; left; exact Hp|].
      left. simpl. apply recorded_insert. auto. }
    destruct res as [[]|e]; [|exact Hw]. unfold accounted_for in *. simpl. rewrite forget_rows, forget_disk. exact Hw.
  - right. apply reconcile_on_file. exact Hf.
  - rewrite bool_decide_true in Hcan by auto. discriminate.
  - congruence.
Qed.

(** A begun execution is on file; a completed one is in the ledger. *)
Lemma begin_accounted_for p now r record w :
  (begin_fidelity privacy_hash identity_hash p now r record w).1 = Ok tt ->
  accounted_for (begin_fidelity privacy_hash identity_hash p now r record w).2 (id r).
Proof.
  unfold begin_fidelity. destruct (pending_of _ _ _) as [pd|]; [|discriminate].
  destruct (privacy_safe_fidelity_operation _ _ _ _) as [op|]; [|discriminate]. destruct p; simpl; try discriminate.
  intros _. right. left. simpl. eexists. split; [apply lookup_insert_eq|exact I].
Qed.

Lemma complete_recorded db p rm r record w :
  (complete_fidelity privacy_hash identity_hash db p rm r record w).1 = Ok tt ->
  recorded (rows (complete_fidelity privacy_hash identity_hash db p rm r record w).2) (id r) = true.
Proof.
  unfold complete_fidelity. destruct (is_executing _ _ _); [|discriminate]. simpl negb. cbv iota.
  destruct (privacy_safe_fidelity_operation _ _ _ _) as [op|] eqn:Hop; [|discriminate].
  assert (Hid : reservation_id op = id r)
    by (clear -Hop; unfold privacy_safe_fidelity_operation in Hop; apply bind_Some in Hop as (? & _ & [= <-]); auto).
  destruct (persist_durable_record _ _ _ _) as [[] d]; [|discriminate]. simpl negb. cbv iota.
  destruct (settle_executed _ _ _ _ _) as [res w2] eqn:Hse. destruct res as [[]|e]; [|discriminate]. intros _.
  destruct (settle_cases _ _ _ _ _ _ _ Hse) as [[-> []]|(d2 & -> & _)]; auto. simpl. rewrite forget_rows. simpl.
  apply recorded_insert. auto.
Qed.

Lemma permitted_app ok s es1 es2 :
  permitted privacy_hash identity_hash ok s (es1 ++ es2) <->
  permitted privacy_hash identity_hash ok s es1
  /\ permitted privacy_hash identity_hash ok (run privacy_hash identity_hash s es1) es2.
Proof. revert s. induction es1 as [|e es1 IH]; intros s; simpl; [naive_solver|]. rewrite IH. naive_solver. Qed.

Lemma permitted_weaken (ok ok' : Event -> System -> Prop) s es :
  (forall e s, ok e s -> ok' e s) ->
  permitted privacy_hash identity_hash ok s es -> permitted privacy_hash identity_hash ok' s es.
Proof. intros Hw. revert s. induction es as [|e es IH]; intros s; simpl; [auto|]. intros [? ?]. auto. Qed.

Lemma run_consistent rs es :
  permitted privacy_hash identity_hash allowed (initial rs) es -> consistent (run privacy_hash identity_hash (initial rs) es).
Proof. apply run_invariant; [|apply initial_consistent]. intros. apply step_consistent; auto. Qed.

End Invariant.

(** ** The allowance of a session *)

Section Allowance.
Context (privacy_hash identity_hash : rstr -> rstr -> rstr) (sid : rstr) (a : FidelityAllowance).

#[local] Abbreviation step := (step privacy_hash identity_hash).
#[local] Abbreviation allowed := (allowed privacy_hash).
#[local] Abbreviation consistent := (consistent privacy_hash).
#[local] Abbreviation of_session := (of_session privacy_hash).
#[local] Abbreviation good := (good privacy_hash).
#[local] Abbreviation ops := (fun rs => operations_of privacy_hash identity_hash rs sid).
#[local] Abbreviation H := (privacy_hash (lit "session") sid).

(** What the session hash of [sid] is told apart from. *)
Definition hashes_apart : Prop :=
  (forall s, privacy_hash (lit "session") s = H -> s = sid)
  /\ (forall s, privacy_hash (lit "session") s <> identity_hash (lit "session") sid).

Context (Hash : hashes_apart).

(** The session reserves within allowance [a]. *)
Definition within (e : Event) : Prop :=
  match e with
  | Reserve _ _ _ _ s allowance _ _ => s = sid -> max_operations allowance <= max_operations a
  | _ => True
  end.

(** What comes on top of the allowance: what the user lets the session reserve over it,
    and rows that count as exact output and were written by others. *)
Definition on_top (e : Event) : N :=
  match e with
  | Reserve _ _ _ _ s _ _ override => if override && bool_decide (s = sid) then 1 else 0
  | OtherRow row => if counted privacy_hash identity_hash sid row then 1 else 0
  | _ => 0
  end.

(** A command of the session that is not in the ledger and may run, may have run, or has run. *)
Definition live (w : Writer) (m : gmap rstr rstr) (i : rstr) : Prop :=
  recorded (rows w) i = false /\
  ((exists p, pending_of w H i = Some p /\ (state p = Executing \/ m !! i = Some H)) \/ begun (disk w) H i).

(** With [k] on top. *)
Definition fits (k : N) (w : Writer) (m : gmap rstr rstr) : Prop :=
  forall l, NoDup l -> Forall (live w m) l -> ops (rows w) + N.of_nat (length l) <= max_operations a + k.

Definition acknowledged (w : Writer) : Prop :=
  forall i rc, receipt_of i (disk w) = Some rc -> resolution rc = AcknowledgeExecuted -> recorded (rows w) i = true.

Lemma counted_good op h i :
  good h i op -> counted privacy_hash identity_hash sid (row_of op) = true -> h = H.
Proof.
  intros (_ & Hs & (s & ->)). unfold counted; simpl. rewrite Hs. intros [[Hone _]%andb_true_iff _]%andb_true_iff.
  unfold one_of in Hone. simpl in Hone. rewrite orb_false_r, orb_true_iff in Hone.
  destruct Hash as [_ Hne], Hone as [E|E]; apply bool_decide_eq_true in E; [auto|destruct (Hne _ E)].
Qed.

Lemma ops_insert rs op :
  ops (insert_or_ignore rs op) =
  ops rs + (if recorded rs (reservation_id op) then 0
            else if counted privacy_hash identity_hash sid (row_of op) then 1 else 0).
Proof.
  unfold insert_or_ignore, operations_of. destruct (recorded rs (reservation_id op)); [lia|].
  rewrite List.filter_app, length_app; simpl. destruct (counted _ _ _ _); simpl; lia.
Qed.

Lemma fits_shrink k w m w' m' :
  ops (rows w') = ops (rows w) -> (forall i, live w' m' i -> live w m i) -> fits k w m -> fits k w' m'.
Proof. intros Hn Hl Hf l Hnd Hall. rewrite Hn. apply Hf; auto. eapply Forall_impl; eauto. Qed.

Lemma fits_insert k w m w' m' op h i :
  rows w' = insert_or_ignore (rows w) op -> good h i op ->
  (recorded (rows w) i = false -> h = H -> live w m i) -> (forall j, live w' m' j -> live w m j) ->
  fits k w m -> fits k w' m'.
Proof.
  intros Hr Hg Hi Hl Hf l Hnd Hall. pose proof Hg as (Hid & _). rewrite Hr, ops_insert, Hid.
  assert (Hall' : Forall (live w m) l) by (eapply Forall_impl; eauto).
  destruct (recorded (rows w) i) eqn:Hrec; [rewrite N.add_0_r; auto|].
  destruct (counted _ _ _ _) eqn:Hc; [|rewrite N.add_0_r; auto].
  pose proof (counted_good _ _ _ Hg Hc) as ->.
  assert (Hni : i ∉ l).
  { intros Hin. pose proof (proj1 (Forall_forall _ _) Hall _ Hin) as [Hnr _]. rewrite Hr in Hnr.
    assert (Ht : recorded (insert_or_ignore (rows w) op) i = true) by (apply recorded_insert; auto). congruence. }
  pose proof (Hf (i :: l) (NoDup_cons_2 _ _ Hni Hnd) (Forall_cons_2 _ _ _ (Hi eq_refl eq_refl) Hall')) as Hle.
  simpl in Hle. lia.
Qed.

Lemma length_le_size (m : gmap rstr PendingFidelity) l :
  NoDup l -> Forall (fun j => is_Some (m !! j)) l -> (length l <= size m)%nat.
Proof.
  intros Hnd Hall. rewrite <- size_dom, <- (size_list_to_set (C := gset rstr) l) by auto. apply subseteq_size.
  intros j Hj%elem_of_list_to_set. apply elem_of_dom. eapply Forall_forall in Hall; eauto.
Qed.

Lemma length_without_one (i : rstr) l : NoDup l -> (length l <= S (length (filter (fun j => j <> i) l)))%nat.
Proof.
  intros Hnd. induction l as [|j l IH]; [simpl; lia|]. apply NoDup_cons in Hnd as [Hj Hnd].
  rewrite filter_cons. case_decide as Hji; simpl; [specialize (IH Hnd); lia|].
  assert (j = i) as -> by (destruct (decide (j = i)); auto; contradiction).
  replace (filter (fun j => j <> i) l) with l; [lia|]. symmetry. clear IH Hnd Hji.
  induction l as [|k l IH]; [auto|]. rewrite not_elem_of_cons in Hj. rewrite filter_cons, decide_True by naive_solver.
  f_equal. apply IH. naive_solver.
Qed.

(** One more than there was. *)
Lemma fits_more k w m w' m' i :
  ops (rows w') = ops (rows w) -> (forall j, live w' m' j -> j = i \/ live w m j) -> fits k w m -> fits (k + 1) w' m'.
Proof.
  intros Hr Hl Hf l Hnd Hall. rewrite Hr. pose proof (length_without_one i l Hnd) as Hlen.
  assert (Hle : ops (rows w) + N.of_nat (length (filter (fun j => j <> i) l)) <= max_operations a + k); [|lia].
  apply Hf; [apply NoDup_filter, Hnd|]. apply Forall_forall. intros j [Hne Hin]%list_elem_of_filter.
  eapply Forall_forall in Hall; [|exact Hin]. destruct (Hl j Hall); [contradiction|auto].
Qed.

Lemma fits_mono k k' w m : k <= k' -> fits k w m -> fits k' w m.
Proof. intros Hk Hf l Hnd Hall. specialize (Hf l Hnd Hall). lia. Qed.

(** A new reservation is the one that may have been missing. *)
Lemma fits_reserve k w m w' m' i :
  ops (rows w') = ops (rows w) -> ops (rows w) + N.of_nat (size (session_of w H)) < max_operations a ->
  (forall j, live w' m' j -> j = i \/ live w m j /\ is_Some (pending_of w H j)) -> fits k w' m'.
Proof.
  intros Hr Hlt Hl l Hnd Hall. rewrite Hr.
  assert (Hrest : (length (filter (fun j => j <> i) l) <= size (session_of w H))%nat).
  { apply length_le_size; [apply NoDup_filter; auto|]. apply Forall_forall. intros j [Hne Hin]%list_elem_of_filter.
    eapply Forall_forall in Hall; [|exact Hin]. destruct (Hl j Hall) as [?|[_ Hp]]; [congruence|].
    unfold pending_of in Hp. unfold session_of. destruct (pending_fidelity w !! H); [exact Hp|].
    destruct Hp; discriminate. }
  pose proof (length_without_one i l Hnd) as Hlen.
  lia.
Qed.

(** *** Every event keeps the session within its allowance *)

Lemma live_may_run s i : live (writer s) (held s) i <->
  recorded (rows (writer s)) i = false /\ (may_run s H i \/ begun (disk (writer s)) H i).
Proof. reflexivity. Qed.

Lemma quiet_fits k s s' : quiet privacy_hash s s' -> fits k (writer s) (held s) -> fits k (writer s') (held s').
Proof.
  intros [Hr Hm Hb].
  assert (Hlive : (forall i, recorded (rows (writer s')) i = false -> recorded (rows (writer s)) i = false) ->
                  forall i, live (writer s') (held s') i -> live (writer s) (held s) i).
  { intros Hrec i. rewrite !live_may_run. intros [Hn [Hrun|Hbeg]]; split; auto. destruct (Hb _ _ Hbeg); auto. }
  destruct Hr as [Hr|(h & i & op & p & Hr & Hg & Hp & Hst)].
  - apply fits_shrink; [rewrite Hr; auto|]. apply Hlive. rewrite Hr. auto.
  - apply (fits_insert _ _ _ _ _ op h i); auto.
    + intros Hn ->. split; auto. left. exists p. auto.
    + apply Hlive. rewrite Hr. intros j Hj. apply not_true_iff_false. intros Ht. apply not_true_iff_false in Hj. apply Hj.
      apply recorded_insert. auto.
Qed.

Lemma reserve_fidelity_fits k db p now i session al bound o s :
  consistent s -> within (Reserve db p now i session al bound o) ->
  fits k (writer s) (held s) ->
  fits (k + on_top (Reserve db p now i session al bound o)) (writer (step s (Reserve db p now i session al bound o)))
    (held (step s (Reserve db p now i session al bound o))).
Proof.
  intros Hc Hin Hf0. assert (Hf : fits (k + on_top (Reserve db p now i session al bound o)) (writer s) (held s))
    by (eapply fits_mono; [|exact Hf0]; lia). destruct s as [w m]. unfold step, Fidelity.step, reserve_fidelity; cbn [writer held] in *.
  destruct (fidelity_blocked w) eqn:Hblk; [exact Hf|]. unfold fidelity_session_usage. destruct db as [e|]; [exact Hf|].
  set (h := privacy_hash (lit "session") session). cbn [u_remaining_operations u_remaining_tokens].
  assert (Htouch : forall d, (forall h i, begun d h i -> begun (disk w) h i) ->
            forall j, live (with_disk d (put_session h (session_of w h) w)) m j -> live w m j).
  { intros d Hd j [Hn [(q & Hq & Hor)|Hb]]; split; auto. left. exists q. split; auto.
    rewrite <- Hq. symmetry. apply (pending_of_touch h (with_disk d w)). }
  destruct (negb o && _) eqn:Hbound.
  { apply (fits_shrink _ w m); auto. apply (Htouch (disk w)). auto. }
  destruct (persist_durable_record _ _ _ _) as [ok d] eqn:Hpd.
  assert (Hbeg : forall h' j, begun d h' j -> begun (disk w) h' j).
  { destruct (persist_cases _ _ _ _ _ _ Hpd) as [[-> _]| ->]; auto. intros h' j [?|(_ & [])]%begun_insert; auto. }
  destruct ok; [|apply (fits_shrink _ w m); auto; apply (Htouch d Hbeg)]. simpl held. simpl writer. rewrite put_put.
  set (pend := {| state := Reserved |}).
  assert (Hold : forall j, live (put_session h (<[i := pend]> (session_of w h)) (with_disk d w)) (<[i := h]> m) j ->
                 (h = H /\ j = i) \/ live w m j).
  { intros j [Hn Hor]. destruct (decide (h = H /\ j = i)) as [|Hne]; [auto|]. right. split; auto.
    destruct Hor as [(q & Hq & Hor)|Hb]; [|auto]. pose proof (pending_of_put h i pend (with_disk d w) H j) as Hput.
    change (session_of (with_disk d w) h) with (session_of w h) in Hput. rewrite Hput in Hq.
    case_bool_decide as E; [naive_solver|]. left. exists q. split; auto. destruct Hor as [?|Hi]; auto. right.
    destruct (decide (i = j)) as [->|]; [|rewrite lookup_insert_ne in Hi; auto].
    rewrite lookup_insert_eq in Hi. injection Hi as Hi. naive_solver. }
  destruct (decide (h = H)) as [Heq|Hne].
  - pose proof (Hin (proj1 Hash _ Heq)) as Hal. destruct o.
    { simpl on_top. rewrite bool_decide_true by exact (proj1 Hash _ Heq). apply (fits_more k w m _ _ i); [reflexivity| |exact Hf0].
      intros j Hj. destruct (Hold j Hj) as [[_ ->]|Hl]; auto. }
    apply (fits_reserve _ w m _ _ i); [reflexivity| |].
    + rewrite <- Heq. simpl in Hbound. apply orb_false_iff in Hbound as [Hb _]. fold h in Hb.
      pose proof (proj1 Hash _ Heq) as ->. unfold sat_sub in Hb. lia.
    + intros j Hj. destruct (Hold j Hj) as [[_ ->]|Hl]; auto. right. split; auto.
      destruct Hl as [Hn [(q & Hq & _)|Hb]]; [eauto|].
      destruct (c_settled _ _ Hc Hblk _ _ Hb) as [Ha|Ha]; [simpl in Ha; congruence|exact Ha].
  - apply (fits_shrink _ w m); auto. intros j Hj. destruct (Hold j Hj) as [[? _]|?]; auto. contradiction.
Qed.

Lemma load_fits k io names d rs m :
  wf_disk privacy_hash d -> acknowledged {| pending_fidelity := ∅; fidelity_blocked := false; disk := d; rows := rs |} ->
  fits k {| pending_fidelity := ∅; fidelity_blocked := false; disk := d; rows := rs |} m ->
  fits k (open io names d rs) ∅ /\ acknowledged (open io names d rs).
Proof.
  intros Hd Hack Hfit.
  apply (load_invariant (fun _ l => wf_disk privacy_hash (l_disk l) /\ fits k (writer_of l) ∅ /\ acknowledged (writer_of l))).
  - split_and!; auto. revert Hfit. apply fits_shrink; [reflexivity|].
    intros i [Hn [(q & Hq & _)|Hb]]; split; auto. unfold pending_of in Hq. simpl in Hq. rewrite lookup_empty in Hq. discriminate.
  - clear Hd Hfit Hack. intros _ l file (Hd & Hfit & Hack). destruct (load_file_step privacy_hash identity_hash io l file Hd) as [Hd' _ Hb _ _ _ Hrc Hex Hr].
    set (l' := load_file io l file) in *.
    assert (Hlive : (forall i, recorded (l_rows l') i = false -> recorded (l_rows l) i = false) ->
                    forall i, live (writer_of l') ∅ i -> live (writer_of l) ∅ i).
    { intros Hrec i [Hn [(q & Hq & [Hst|Hx])|Hbi]]; [| rewrite lookup_empty in Hx; discriminate|]; split;
        [apply Hrec, Hn| |apply Hrec, Hn|]; [|right; apply Hb, Hbi].
      destruct (Hex _ _ _ Hq Hst); [left; exists q; auto|right; auto]. }
    destruct Hr as [Hr|(h & op & Hr & Hg & Hmay)].
    + split_and!; auto; [apply (fits_shrink _ (writer_of l) ∅); auto; simpl; [rewrite Hr; auto|apply Hlive; rewrite Hr; auto]|].
      intros i rc. simpl. rewrite Hrc, Hr. apply Hack.
    + assert (Hmono : forall i, recorded (l_rows l) i = true -> recorded (l_rows l') i = true).
      { intros i Hi. rewrite Hr. apply recorded_insert. auto. }
      split_and!; auto; [|intros i rc; simpl; rewrite Hrc; intros; apply Hmono; eapply Hack; eauto].
      apply (fits_insert _ (writer_of l) ∅ _ _ op h file); auto; [|apply Hlive].
      * intros Hn ->. split; auto. destruct Hmay as [Hbi|(rc & Hrc' & Ha)]; auto.
        rewrite (Hack _ _ Hrc' Ha) in Hn. discriminate.
      * intros i Hi. apply not_true_iff_false. intros Ht. rewrite Hmono in Hi; [discriminate|auto].
Qed.

Lemma step_acknowledged e s :
  consistent s -> allowed e s -> acknowledged (writer s) -> acknowledged (writer (step s e)).
Proof.
  intros Hc Ha Hk i rc. destruct (is_reconcile e) eqn:E.
  2: { rewrite (step_receipts privacy_hash); auto. intros Hrc Hr. apply (step_recorded privacy_hash); eauto. }
  destruct e as [| | |db p rm again j how| | | |]; try discriminate E. clear E. intros Hrc Hr.
  destruct s as [w m]. unfold step, Fidelity.step in *; cbn [writer held] in *.
  destruct (reconcile_fidelity _ _ _ _ _ _ _) as [res w'] eqn:E. simpl in *.
  destruct (reconcile_cases _ _ _ _ _ _ _ _ _ E) as [->|(h & pending & rs & d & [Hp Hst Hrs Hrcs _ Hend])]; eauto.
  assert (Hw : receipt_of i d = Some rc /\ rows w' = rs).
  { destruct Hend as [->|[_ ->]]; [auto|]. rewrite forget_disk in Hrc. rewrite forget_rows. auto. }
  destruct Hw as [Hi ->]. destruct (c_memory _ _ Hc _ _ _ Hp) as [_ (op & Hop & Hgood)]; auto.
  destruct (Hrcs i) as [Hsame|(-> & rc' & Hrc' & <-)].
  - rewrite Hi in Hsame. symmetry in Hsame. specialize (Hk _ _ Hsame Hr). simpl in Hk.
    case_bool_decide; [|subst; auto]. destruct Hrs as (op' & _ & ->). apply recorded_insert. auto.
  - assert (rc' = rc) as -> by congruence. rewrite bool_decide_true in Hrs by auto. destruct Hrs as (op' & Hop' & ->).
    apply recorded_insert. right. assert (op' = op) as -> by congruence. apply Hgood.
Qed.

Lemma step_fits k e s :
  consistent s -> acknowledged (writer s) -> allowed e s -> within e ->
  fits k (writer s) (held s) -> fits (k + on_top e) (writer (step s e)) (held (step s e)).
Proof.
  intros Hc Hk Ha Hw Hf. destruct e as [| | | | |row| |io names]; try (simpl on_top; rewrite N.add_0_r).
  - apply reserve_fidelity_fits; auto.
  - apply (quiet_fits k s); auto. apply begin_quiet. auto.
  - apply (quiet_fits k s); auto. apply complete_quiet. auto.
  - apply (quiet_fits k s); auto. apply reconcile_quiet. auto.
  - apply (quiet_fits k s); auto. apply cancel_quiet.
  - intros l Hnd Hall. assert (Hall' : Forall (live (writer s) (held s)) l).
    { eapply Forall_impl; [exact Hall|]. intros i [Hn Hor]. split; auto. simpl in Hn. apply not_true_iff_false. intros Ht.
      apply not_true_iff_false in Hn. apply Hn, recorded_app. auto. }
    specialize (Hf l Hnd Hall'). simpl. unfold operations_of in *. rewrite List.filter_app, length_app. simpl.
    destruct (counted _ _ _ row); simpl; lia.
  - apply (quiet_fits k s); auto. apply damage_quiet.
  - apply (load_fits k io names _ _ (held s)); [apply Hc|exact Hk|]. revert Hf. apply fits_shrink; auto.
    intros i [Hn [(q & Hq & _)|Hb]]; split; auto. unfold pending_of in Hq. simpl in Hq. rewrite lookup_empty in Hq. discriminate.
Qed.

Definition limits (k : N) (s : System) : Prop := consistent s /\ acknowledged (writer s) /\ fits k (writer s) (held s).

Lemma initial_limits rs : ops rs <= max_operations a -> limits 0 (initial rs).
Proof.
  intros Hle. split_and!; [apply initial_consistent|intros i rc H; unfold receipt_of in H; simpl in H; rewrite lookup_empty in H; discriminate|].
  intros l _ Hall. destruct l as [|i l]; [simpl; lia|]. apply Forall_cons in Hall as [[_ Hor] _].
  destruct Hor as [(p & Hp & _)|(rec & Hr & _)]; [unfold pending_of in Hp|]; simpl in *; rewrite lookup_empty in *; discriminate.
Qed.

Lemma step_limits k e s : limits k s -> allowed e s -> within e -> limits (k + on_top e) (step s e).
Proof.
  intros (Hc & Hk & Hf) Ha Hw. split_and!; [apply step_consistent|apply step_acknowledged|apply step_fits]; auto.
Qed.

Lemma run_limits es : forall k s,
  limits k s -> permitted privacy_hash identity_hash (fun e s => allowed e s /\ within e) s es ->
  limits (k + sum_N (on_top <$> es)) (run privacy_hash identity_hash s es).
Proof.
  induction es as [|e es IH]; intros k s Hl Hp; [simpl; rewrite N.add_0_r; exact Hl|]. destruct Hp as [[Ha Hw] Hp].
  specialize (IH _ _ (step_limits _ _ _ Hl Ha Hw) Hp). simpl. rewrite N.add_assoc. exact IH.
Qed.

(** The commands of a session that are running, or may be, and are not in the ledger. *)
Definition unrecorded_executions (w : Writer) (session : rstr) : list rstr :=
  List.filter (fun i => is_executing w (privacy_hash (lit "session") session) i && negb (recorded (rows w) i))
    (map_to_list (session_of w (privacy_hash (lit "session") session))).*1.

Lemma fits_executions k w m :
  fits k w m -> ops (rows w) + N.of_nat (length (unrecorded_executions w sid)) <= max_operations a + k.
Proof.
  intros Hf. apply Hf.
  - unfold unrecorded_executions. apply NoDup_ListNoDup, List.NoDup_filter, NoDup_ListNoDup, NoDup_fst_map_to_list.
  - apply Forall_forall. intros i Hi. apply list_elem_of_In, filter_In in Hi as [_ [Hex Hn]%andb_true_iff].
    split; [apply negb_true_iff; auto|]. left. unfold is_executing in Hex.
    destruct (pending_of w _ i) as [p|]; [|discriminate]. apply bool_decide_eq_true in Hex. exists p. auto.
Qed.

End Allowance.

(** ** Properties *)

Section Properties.
Context (privacy_hash identity_hash : rstr -> rstr -> rstr).

#[local] Abbreviation run := (run privacy_hash identity_hash).
#[local] Abbreviation step := (step privacy_hash identity_hash).
#[local] Abbreviation permitted := (permitted privacy_hash identity_hash).
#[local] Abbreviation allowed := (allowed privacy_hash).


(** C7: an execution whose completion was reported, or reported as accounted for
    later, is in the ledger exactly once after the next start that meets no error of
    the disk or the database, and its file is gone then. It is so whatever else is
    reserved, begun, completed, cancelled, reconciled or damaged in between, and however
    often the daemon dies, if the file of this operation is not damaged, nobody says of
    a command whose completion is on file that it did not run, and the ledger takes
    records like this one. *)
Theorem executed_operations_are_recorded_once rs es1 db p rm r record answer w' es2 io names :
  let s := run (initial rs) es1 in
  complete_fidelity privacy_hash identity_hash db p rm r record (writer s) = (answer, w') ->
  unique rs ->
  permitted allowed (initial rs) (es1 ++ Complete db p rm r record :: es2 ++ [Restart io names]) ->
  match answer with Ok _ => True | Err e => incident_persisted e = true end ->
  (forall op, privacy_safe_fidelity_operation privacy_hash identity_hash (id r) record = Some op -> valid_operation op) ->
  Damage (id r) ∉ es2 -> id r ∈ names -> load_db io (id r) = None -> load_remove io (id r) = Removed ->
  let w := writer (run s (Complete db p rm r record :: es2 ++ [Restart io names])) in
  rows_of (rows w) (id r) = 1 /\ ~ is_executed (disk w) (id r).
Proof.
  intros s Hcomp Hu Hes Hans Hvalid Hdam Hin Hdb Hrm w.
  apply permitted_app in Hes as [Hes1 [Hal Hes2]]. fold s in Hal, Hes2. apply permitted_app in Hes2 as [Hes2 [Hre _]].
  assert (Hinv1 : consistent privacy_hash s /\ unique (rows (writer s))).
  { apply (run_invariant privacy_hash identity_hash (fun s => consistent privacy_hash s /\ unique (rows (writer s))) allowed); auto.
    - intros e s' [Hc Hun] Ha. split; [apply step_consistent|apply (step_unique privacy_hash)]; auto.
    - split; [apply initial_consistent|auto]. }
  destruct Hinv1 as [Hc1 Hu1]. set (s1 := step s (Complete db p rm r record)) in *.
  assert (Hs1 : safe s1 (id r)).
  { pose proof (complete_safe _ _ _ _ _ _ _ _ _ _ Hcomp Hvalid Hans) as Hsafe. unfold s1, step, Fidelity.step.
    rewrite Hcomp. exact Hsafe. }
  set (s2 := run s1 es2) in *.
  assert (Hs2 : consistent privacy_hash s2 /\ unique (rows (writer s2)) /\ safe s2 (id r)).
  { clear -Hc1 Hu1 Hal Hs1 Hes2 Hdam. assert (Hc : consistent privacy_hash s1) by (apply step_consistent; auto).
    assert (Hun : unique (rows (writer s1))) by (apply (step_unique privacy_hash); auto).
    unfold s2. clearbody s1. clear Hc1 Hu1 Hal. revert s1 s2 Hc Hun Hs1 Hes2.
    induction es2 as [|e es2 IH]; intros s1 s2 Hc Hun Hs1 Hes2; [auto|]. destruct Hes2 as [He Hes2].
    apply not_elem_of_cons in Hdam as [Hne Hdam]. apply (IH Hdam (step s1 e)); auto.
    - apply step_consistent; auto.
    - apply (step_unique privacy_hash); auto.
    - apply (step_safe privacy_hash); auto. }
  destruct Hs2 as (Hc2 & Hu2 & Hsafe2).
  assert (Hw : w = open io names (disk (writer s2)) (rows (writer s2))).
  { unfold w, run, Fidelity.run. simpl. rewrite foldl_app. auto. }
  destruct (restart_settles privacy_hash identity_hash io names s2 (id r) Hc2 Hsafe2 Hin Hdb Hrm) as [Hr Hno].
  assert (Hun : unique (rows w)) by (rewrite Hw; apply (step_unique privacy_hash identity_hash (Restart io names) s2); auto).
  rewrite Hw in *. split; [|exact Hno]. specialize (Hun (id r)). rewrite recorded_rows_of in Hr. lia.
Qed.

(** C29: a command that was started and of which nothing more is known stays an
    unknown execution, reported by the status of the directory, through everything
    that does not concern it and through every restart: its share of the allowance is
    not given back, and it is not forgotten. *)
Theorem unknown_executions_are_kept rs es1 p now r record es2 :
  let s := run (initial rs) es1 in
  permitted allowed (initial rs) (es1 ++ Begin p now r record :: es2) ->
  (begin_fidelity privacy_hash identity_hash p now r record (writer s)).1 = Ok tt ->
  receipt_of (id r) (disk (writer s)) = None -> Forall (fun e => touches e (id r) = false) es2 ->
  let w := writer (run s (Begin p now r record :: es2)) in
  is_executing w (res_session_hash r) (id r) = true
  /\ id r ∈ unknown_reservation_ids (inspect_fidelity_pending (disk w)) /\ healthy (inspect_fidelity_pending (disk w)) = false.
Proof.
  intros s Hes Hok Hrc Hnt w. apply permitted_app in Hes as [Hes1 [Hal Hes2]]. fold s in Hal, Hes2.
  pose proof (run_consistent _ _ _ _ Hes1) as Hc. fold s in Hc.
  set (s1 := step s (Begin p now r record)) in *.
  assert (Hu : unknown (writer s1) (res_session_hash r) (id r)).
  { unfold s1, step, Fidelity.step. simpl writer. unfold begin_fidelity in *.
    destruct (pending_of _ _ _) as [pd|]; [|discriminate]. destruct (privacy_safe_fidelity_operation _ _ _ _) as [op|]; [|discriminate].
    destruct p; simpl in Hok; try discriminate. simpl. constructor; simpl; auto.
    - unfold is_executing. rewrite (pending_of_put _ _ _ (with_disk _ (writer s))), bool_decide_true by auto. auto.
    - rewrite lookup_insert_eq. eauto 8. }
  assert (Hc1 : consistent privacy_hash s1) by (apply step_consistent; auto).
  assert (Hw : unknown w (res_session_hash r) (id r)).
  { change w with (writer (run s1 es2)). clear -Hes2 Hnt Hu Hc1. clearbody s1. revert s1 Hes2 Hu Hc1.
    induction es2 as [|e es2 IH]; intros s1 Hes2 Hu Hc1; [exact Hu|]. destruct Hes2 as [He Hes2].
    apply Forall_cons in Hnt as [Ht Hnt]. apply (IH Hnt (step s1 e)); auto.
    - apply (step_unknown privacy_hash); auto.
    - apply step_consistent; auto. }
  destruct Hw as [Hex (bound & created & started & op & Hf) _]. split; [exact Hex|]. eapply unknown_is_reported; eauto.
Qed.

(** C30: how an unknown execution was resolved is final: whoever reconciles it again,
    at any later time and with any resolution, is answered the first one, and nothing
    changes. *)
Theorem resolutions_are_final rs es1 db p rm again i how receipt es2 db' p' rm' again' how' :
  let s := run (initial rs) es1 in
  (reconcile_fidelity db p rm again i how (writer s)).1 = Ok receipt ->
  permitted allowed (initial rs) (es1 ++ Reconcile db p rm again i how :: es2) ->
  let w := writer (run s (Reconcile db p rm again i how :: es2)) in
  exists receipt', reconcile_fidelity db' p' rm' again' i how' w = (Ok receipt', w)
    /\ resolution receipt' = resolution receipt /\ idempotent_replay receipt' = true.
Proof.
  intros s Hok Hes w. apply permitted_app in Hes as [Hes1 [Hal Hes2]]. fold s in Hal, Hes2.
  pose proof (run_consistent _ _ _ _ Hes1) as Hc. fold s in Hc.
  set (s1 := step s (Reconcile db p rm again i how)) in *.
  assert (H1 : exists rc, receipt_of i (disk (writer s1)) = Some rc /\ resolution rc = resolution receipt).
  { unfold s1, step, Fidelity.step. simpl writer. destruct (reconcile_fidelity _ _ _ _ _ _ _) as [res w1] eqn:E.
    simpl in *. subst res. apply reconcile_answer in E. exact E. }
  assert (Hc1 : consistent privacy_hash s1) by (apply step_consistent; auto).
  assert (H2 : exists rc, receipt_of i (disk w) = Some rc /\ resolution rc = resolution receipt).
  { change w with (writer (run s1 es2)). clear -Hes2 H1 Hc1. clearbody s1. revert s1 Hes2 H1 Hc1.
    induction es2 as [|e es2 IH]; intros s1 Hes2 H1 Hc1; [exact H1|]. destruct Hes2 as [He Hes2].
    apply (IH (step s1 e)); auto; [|apply step_consistent; auto].
    destruct H1 as (rc & Hrc & Hr). destruct (step_resolved privacy_hash identity_hash e s1 i rc Hc1 He Hrc) as (rc' & ? & ?).
    exists rc'. split; congruence. }
  destruct H2 as (rc & Hrc & Hr). exists (replayed rc true). unfold reconcile_fidelity. rewrite Hrc. auto.
Qed.

End Properties.

(** ** Examples and witnesses *)

Module Sample.

Definition k_hash (domain value : rstr) : rstr := lit "k:" ++ domain ++ value.
Definition i_hash (domain value : rstr) : rstr := lit "i:" ++ domain ++ value.

Lemma k_hashes_apart sid : hashes_apart k_hash i_hash sid.
Proof.
  split; [|intros s H; discriminate H]. unfold k_hash. intros s H. rewrite !app_assoc in H. apply app_inv_head in H. auto.
Qed.

Definition hatch : EvasionAttribution :=
  {| class := EvasionClass.E7FidelityHatch; wrapper_depth := 1; interpreter := None; path_form := EvasionPathForm.Bare;
     stage_count := 1; hatch_marker := true; avoidable := false; tier := EnforcementTier.T4HatchQuarantine;
     fidelity_reason := Some FidelityReason.Checksum; fidelity_validation := FidelityValidation.Valid |}.

(** [fidelity_pending_record_for_context] has no tokens, a completion has what was delivered. *)
Definition record_with (tokens : N) (m : OperationMeasurement) : OperationRecord :=
  {| r_input_tokens := tokens; r_output_tokens := tokens; r_execution_ms := 0; project_path := lit "/w"; r_measurement := m;
     r_agent := Some (lit "codex"); session_id := Some (lit "s1"); attribution := None; r_evasion := Some hatch;
     r_host_grant_applied := false |}.
Definition started : OperationRecord := record_with 0 Unmeasured.
Definition finished : OperationRecord := record_with 700 Estimated.

Definition r1 : FidelityReservation := {| id := lit "a1"; res_session_hash := k_hash (lit "session") (lit "s1") |}.

Definition reserved_1 : Event := Reserve None Replaced 1000 (lit "a1") (lit "s1") default_allowance 800 false.
Definition begun_1 : Event := Begin Replaced 1001 r1 started.
Definition clean : LoadIo :=
  {| load_now := 2000; load_db := fun _ => None; load_remove := fun _ => Removed; load_rename := fun _ => true |}.

Definition run_1 (es : list Event) : System := run k_hash i_hash (initial []) es.

(** The database fails at the completion and works again at the next start. *)
Definition completed_late : list Event :=
  [reserved_1; begun_1; Complete (Some (lit "locked")) Replaced Removed r1 finished; Restart clean [lit "a1"]].

Example completed_late_is_counted :
  operations_of k_hash i_hash (rows (writer (run_1 completed_late))) (lit "s1") = 1
  /\ tokens_of k_hash i_hash (rows (writer (run_1 completed_late))) (lit "s1") = 700.
Proof. vm_compute. auto. Qed.

(** A completion that could not be written to the ledger is on file, but the writer
    still takes the execution for an unknown one: whoever acknowledges it records the
    operation as it was begun, without tokens, and removes the file with its 700. *)
Lemma acknowledged_completions_lose_their_tokens :
  let es := [reserved_1; begun_1; Complete (Some (lit "locked")) Replaced Removed r1 finished;
             Reconcile None Replaced Removed Replaced (lit "a1") AcknowledgeExecuted; Restart clean []] in
  operations_of k_hash i_hash (rows (writer (run_1 es))) (lit "s1") = 1
  /\ tokens_of k_hash i_hash (rows (writer (run_1 es))) (lit "s1") = 0 /\ records (disk (writer (run_1 es))) = ∅.
Proof. vm_compute. auto. Qed.

(** A reservation whose caller fails between reserving and beginning is given back by
    nobody before the next start of the daemon, however long it lives. *)
Lemma abandoned_reservations_stay_until_a_restart :
  let reserve n i := Reserve None Replaced n (lit i) (lit "s1") default_allowance 800 false in
  let es := [reserve 0 "a1"; reserve 0 "a2"; reserve 0 "a3"; reserve 0 "a4"; reserve 0 "a5"]%string in
  let s := run_1 es in
  (reserve_fidelity k_hash i_hash None Replaced 86400000 (lit "a6") (lit "s1") default_allowance 800 false (writer s)).1 = Ok None.
Proof. vm_compute. auto. Qed.

(** A damaged file blocks reservations at the next start; at the one after it the file is
    out of the way and its execution forgotten, so the allowance is whole again. *)
Lemma damaged_executions_are_forgotten :
  let es n := [reserved_1; begun_1; Damage (lit "a1")] ++ repeat (Restart clean [lit "a1"]) n in
  fidelity_blocked (writer (run_1 (es 1%nat))) = true /\ fidelity_blocked (writer (run_1 (es 2%nat))) = false
  /\ unrecorded_executions k_hash (writer (run_1 (es 2%nat))) (lit "s1") = [].
Proof. vm_compute. auto. Qed.

(** A completion that is on file, and was promised to be accounted for, is lost when
    somebody says that its command did not run. *)
Lemma filed_completions_can_be_disowned :
  let complete := Complete (Some (lit "locked")) Replaced Removed r1 finished in
  let es := [reserved_1; begun_1; complete; Reconcile None Replaced Removed Replaced (lit "a1") ProveNotExecuted; Restart clean []] in
  match (complete_fidelity k_hash i_hash (Some (lit "locked")) Replaced Removed r1 finished (writer (run_1 [reserved_1; begun_1]))).1 with
  | Err e => incident_persisted e
  | Ok _ => false
  end = true
  /\ rows (writer (run_1 es)) = [] /\ records (disk (writer (run_1 es))) = ∅.
Proof. vm_compute. auto. Qed.

(** A directory whose files are all listed. *)
Lemma listed (d : Disk) names :
  forallb (fun i => one_of i names) (map_to_list (records d)).*1 = true ->
  forall i, is_Some (records d !! i) -> i ∈ names.
Proof.
  intros Hall i [f Hf]. rewrite forallb_forall in Hall. unfold one_of in Hall.
  assert (Hin : In i (map_to_list (records d)).*1).
  { apply list_elem_of_In, list_elem_of_fmap. exists (i, f). split; auto. apply elem_of_map_to_list. auto. }
  specialize (Hall i Hin). apply existsb_exists in Hall as (j & Hj & E). apply bool_decide_eq_true in E as ->.
  apply list_elem_of_In. auto.
Qed.

(** Five operations within the allowance, a sixth over it, and a seventh refused. *)
Definition over_budget : list Event :=
  let reserve n i o := Reserve None Replaced n (lit i) (lit "s1") default_allowance 800 o in
  let r i := {| id := lit i; res_session_hash := k_hash (lit "session") (lit "s1") |} in
  [reserve 0 "a1" false; Begin Replaced 1 (r "a1"%string) started; Complete None Replaced Removed (r "a1"%string) finished;
   reserve 0 "a2" false; reserve 0 "a3" false; reserve 0 "a4" false; reserve 0 "a5" false; reserve 0 "a6" true;
   Begin Replaced 1 (r "a6"%string) started; reserve 0 "a7" false]%string.


Lemma executed_operations_are_recorded_once_witness :
  let w := writer (run_1 completed_late) in rows_of (rows w) (lit "a1") = 1 /\ ~ is_executed (disk w) (lit "a1").
Proof.
  apply (executed_operations_are_recorded_once k_hash i_hash [] [reserved_1; begun_1] (Some (lit "locked")) Replaced Removed
           r1 finished (Err (AccountingIncomplete (lit "ledger database error: locked") true))
           (complete_fidelity k_hash i_hash (Some (lit "locked")) Replaced Removed r1 finished (writer (run_1 [reserved_1; begun_1]))).2
           [] clean [lit "a1"]).
  - vm_compute. reflexivity.
  - intros i. vm_compute. discriminate.
  - unfold permitted, app. split_and!; try exact I; [vm_compute; auto..|intros i; apply listed; vm_compute; reflexivity].
  - reflexivity.
  - intros op [= <-]. split_and!; [discriminate|reflexivity|discriminate].
  - apply not_elem_of_nil.
  - left.
  - reflexivity.
  - reflexivity.
Defined.

Lemma unknown_executions_are_kept_witness :
  let w := writer (run_1 [reserved_1; begun_1; Restart clean [lit "a1"]]) in
  is_executing w (res_session_hash r1) (lit "a1") = true
  /\ lit "a1" ∈ unknown_reservation_ids (inspect_fidelity_pending (disk w)) /\ healthy (inspect_fidelity_pending (disk w)) = false.
Proof.
  apply (unknown_executions_are_kept k_hash i_hash [] [reserved_1] Replaced 1001 r1 started [Restart clean [lit "a1"]]).
  - unfold permitted, app. split_and!; try exact I; [vm_compute; auto..|intros i; apply listed; vm_compute; reflexivity].
  - vm_compute. reflexivity.
  - vm_compute. reflexivity.
  - repeat constructor.
Defined.

Lemma resolutions_are_final_witness :
  let s := run_1 [reserved_1; begun_1] in
  let e := Reconcile None Replaced Removed Replaced (lit "a1") ProveNotExecuted in
  let w := writer (run k_hash i_hash s [e]) in
  exists receipt', reconcile_fidelity None Replaced Removed Replaced (lit "a1") AcknowledgeExecuted w = (Ok receipt', w)
    /\ resolution receipt' = ProveNotExecuted /\ idempotent_replay receipt' = true.
Proof.
  apply (resolutions_are_final k_hash i_hash [] [reserved_1; begun_1] None Replaced Removed Replaced (lit "a1") ProveNotExecuted
           {| rc_schema_version := 1; rc_reservation_id := lit "a1"; resolution := ProveNotExecuted; operation_recorded := false;
              allowance_released := true; cleanup_complete := true; idempotent_replay := false |}
           []).
  - vm_compute. reflexivity.
  - unfold permitted, app. split_and!; try exact I; [vm_compute; auto..|].
    intros (v & b & op & H). vm_compute in H. discriminate.
Defined.

End Sample.

End Fidelity.
