(* ===== verification/ShellWords.v ===== *)
(** Plain shell commands as words and back ([crates/hzr-exec/src/shell.rs], and
    the quoting of [adapter.rs]): which commands are read without a shell, how an
    argument vector is written for one, and which commands may run as words behind
    the engine's proxy.

    [parse_loop] is the loop of [parse_simple_shell], with its state as arguments.
    The words of a command that uses no expansion and no operator of a shell are those of
    a grammar of words and quotes: [reads_as], where any white space parts words, is the
    specification of the parser, [shell_reads], where blanks do, that of a shell.  The Unix branches of the source are modelled. *)

From S2P Require Import Prelude RStr.
From Stdlib Require Import ZifyBool ZifyN ZifyNat.

Module ShellWords.

Inductive Quote := NoQuote | Single | Double.

Inductive ShellSafety := Simple (argv : list rstr) | RawRequired (reason : rstr).

Definition QUOTE : char := 39.
Definition DQUOTE : char := 34.
Definition BACKSLASH : char := 92.
Definition BACKTICK : char := 96.
Definition DOLLAR : char := 36.

Definition among (chars : rstr) (c : char) : bool := contains_char c chars.
#[global] Arguments among : simpl never.

(** The arms of the unquoted state that end the parse. *)
Definition expansions : rstr := lit "$*?[]{}~".
Definition operators : rstr := lit "|&;<>" ++ [10; 13].
Definition keeps_no_backslash : rstr := [DOLLAR; BACKTICK; DQUOTE; BACKSLASH].

Definition no_expansion : rstr := lit "shell expansion requires raw execution".
Definition no_substitution : rstr := lit "command substitution requires raw execution".
Definition no_continuation : rstr := lit "shell line continuation requires raw execution".

Fixpoint parse_loop (s : rstr) (quote : Quote) (started : bool) (current : rstr) (args : list rstr)
  : result rstr (list rstr) :=
  match s with
  | [] =>
      match quote with
      | NoQuote => Ok (if started then args ++ [current] else args)
      | _ => Err (lit "unterminated shell quote")
      end
  | c :: s =>
      match quote with
      | Single => if c =? QUOTE then parse_loop s NoQuote started current args
                  else parse_loop s Single started (current ++ [c]) args
      | Double =>
          if c =? DQUOTE then parse_loop s NoQuote started current args
          else if c =? BACKSLASH
          then match s with
               | [] => Err (lit "trailing escape in double quotes")
               | e :: s =>
                   if among keeps_no_backslash e then parse_loop s Double started (current ++ [e]) args
                   else if e =? 10 then Err no_continuation
                   else parse_loop s Double started (current ++ [BACKSLASH; e]) args
               end
          else if c =? BACKTICK then Err no_substitution
          else if c =? DOLLAR then Err no_expansion
          else parse_loop s Double started (current ++ [c]) args
      | NoQuote =>
          if c =? QUOTE then parse_loop s Single true current args
          else if c =? DQUOTE then parse_loop s Double true current args
          else if c =? BACKSLASH
          then match s with
               | [] => Err (lit "trailing escape")
               | e :: s => if e =? 10 then Err no_continuation else parse_loop s NoQuote true (current ++ [e]) args
               end
          else if c =? BACKTICK then Err no_substitution
          else if among expansions c then Err no_expansion
          else if c =? ch "#" then Err (lit "shell comment syntax requires raw execution")
          else if among operators c then Err (lit "shell control operator requires raw execution")
          else if is_whitespace c
          then if started then parse_loop s NoQuote false [] (args ++ [current]) else parse_loop s NoQuote started current args
          else parse_loop s NoQuote true (current ++ [c]) args
      end
  end.

Definition parse_simple_shell (command : rstr) : result rstr (list rstr) := parse_loop command NoQuote false [] [].

Definition nested_launchers : list rstr :=
  map lit ["xargs"; "eval"; "sh"; "bash"; "zsh"; "fish"; "cmd"; "powershell"; "cd"; "export"; "source"; "."; "exec";
           "command"; "builtin"; "time"; "if"; "for"; "while"; "until"; "case"]%string.

Definition launches_nested_command (argv : list rstr) : bool :=
  match argv with [] => false | word :: _ => contains_char (ch "=") word || one_of word nested_launchers end.

Definition analyze_shell (command : rstr) : ShellSafety :=
  match parse_simple_shell command with
  | Ok argv =>
      if bool_decide (argv = []) then RawRequired (lit "empty shell command")
      else if launches_nested_command argv then RawRequired (lit "nested command launcher requires raw execution")
      else Simple argv
  | Err reason => RawRequired reason
  end.

(** ** Quoting *)

Definition plain_char (c : char) : bool := is_ascii_alphanumeric c || among (lit "_+-./:=,@%") c.

Definition shell_quote (word : rstr) : rstr :=
  if negb (is_empty word) && forallb plain_char word then word
  else [QUOTE] ++ replace [QUOTE] [QUOTE; DQUOTE; QUOTE; DQUOTE; QUOTE] word ++ [QUOTE].

Definition render_argv (argv : list rstr) : rstr := join (lit " ") (map shell_quote argv).

Definition SHELL_ONLY_WORDS : list rstr :=
  map lit [".";  ":"; "["; "[["; "alias"; "bg"; "builtin"; "cd"; "command"; "declare"; "echo"; "eval";
    "exec"; "exit"; "export"; "false"; "fc"; "fg"; "getopts"; "hash"; "jobs"; "kill"; "let";
    "local"; "noglob"; "popd"; "print"; "printf"; "pushd"; "pwd"; "read"; "readonly"; "return";
    "set"; "setopt"; "shift"; "source"; "test"; "time"; "times"; "trap"; "true"; "type"; "typeset";
    "ulimit"; "umask"; "unalias"; "unset"; "unsetopt"; "wait"; "whence"; "which"]%string.

Definition blank (c : char) : bool := (c =? 32) || (c =? 9).

Definition shell_proxy_words (shell command : rstr) : option (list rstr) :=
  let words := List.filter (fun word => negb (is_empty word)) (split_char blank command) in
  match words with
  | [] => None
  | program :: _ =>
      let plain := forallb (fun word => negb (starts_with (lit "=") word) && forallb plain_char word) words in
      if negb plain || contains_char (ch "=") program || one_of program SHELL_ONLY_WORDS then None else Some words
  end.

(** ** The grammar of plain commands *)

(** What may stand between double quotes, and in a word. *)
Inductive quoted_item : rstr -> rstr -> Prop :=
| q_char c : c <> DQUOTE -> c <> BACKSLASH -> c <> BACKTICK -> c <> DOLLAR -> quoted_item [c] [c]
| q_escape c : among keeps_no_backslash c = true -> quoted_item [BACKSLASH; c] [c]
| q_kept c : among keeps_no_backslash c = false -> c <> 10 -> quoted_item [BACKSLASH; c] [BACKSLASH; c].

Inductive quoted : rstr -> rstr -> Prop :=
| quoted_nil : quoted [] []
| quoted_cons t m t' m' : quoted_item t m -> quoted t' m' -> quoted (t ++ t') (m ++ m').

(** The grammar, for a notion of what parts words: any white space of Unicode for the
    parser, blanks for a shell. *)
Section Grammar.
Context (space : char -> bool).

Definition bare_char (c : char) : bool :=
  negb (among (QUOTE :: DQUOTE :: BACKSLASH :: BACKTICK :: ch "#" :: expansions ++ operators) c || space c).

Inductive piece_of : rstr -> rstr -> Prop :=
| p_bare c : bare_char c = true -> piece_of [c] [c]
| p_escape c : c <> 10 -> piece_of [BACKSLASH; c] [c]
| p_single t : contains_char QUOTE t = false -> piece_of (QUOTE :: t ++ [QUOTE]) t
| p_double t m : quoted t m -> piece_of (DQUOTE :: t ++ [DQUOTE]) m.

(** A word is one piece or more. *)
Inductive word_of : rstr -> rstr -> Prop :=
| word_one t m : piece_of t m -> word_of t m
| word_more t m t' m' : piece_of t m -> word_of t' m' -> word_of (t ++ t') (m ++ m').

Definition gap_char (c : char) : bool := space c && negb (among operators c).
Definition gap_of (s : rstr) : Prop := forallb gap_char s = true.

(** Words with space between them, and around them. *)
Inductive words_of : rstr -> list rstr -> Prop :=
| words_end s : gap_of s -> words_of s []
| words_last s t m : gap_of s -> word_of t m -> words_of (s ++ t) [m]
| words_more s t m s' rest ws : gap_of s -> word_of t m -> gap_of s' -> s' <> [] -> words_of rest ws ->
    words_of (s ++ t ++ s' ++ rest) (m :: ws).
End Grammar.

(** The words of the parser, and those of a shell. *)
Definition reads_as (command : rstr) (argv : list rstr) : Prop := words_of is_whitespace command argv.
Definition shell_reads (command : rstr) (argv : list rstr) : Prop := words_of blank command argv.

(** White space is blanks and line ends only (those stand in quotes, or end a command). *)
Definition ascii_spaced (command : rstr) : bool :=
  forallb (fun c => among operators c || Bool.eqb (is_whitespace c) (blank c)) command.

(** Two notions of space that agree on the text read the same words in it. *)
Lemma piece_transfer sp sp' t m : (forall c, c ∈ t -> among operators c = false -> sp c = sp' c) -> piece_of sp t m -> piece_of sp' t m.
Proof.
  intros Hs Hp. revert Hs. destruct Hp as [c Hc|c Hc|t' Ht|t' m' Ht]; intros Hs; [apply p_bare|apply p_escape, Hc|apply p_single, Ht|apply p_double, Ht].
  unfold bare_char in *. rewrite <- Hs; [exact Hc|left|]. apply negb_true_iff, orb_false_iff in Hc as [Hc _].
  change (QUOTE :: DQUOTE :: BACKSLASH :: BACKTICK :: ch "#" :: expansions ++ operators)
    with ((QUOTE :: DQUOTE :: BACKSLASH :: BACKTICK :: ch "#" :: expansions) ++ operators) in Hc.
  unfold among in *. rewrite contains_char_app in Hc. apply orb_false_iff in Hc as [_ Hc]. exact Hc.
Qed.

Lemma word_transfer sp sp' t m : (forall c, c ∈ t -> among operators c = false -> sp c = sp' c) -> word_of sp t m -> word_of sp' t m.
Proof.
  intros Hs Hw. induction Hw as [t m Hp|t m t' m' Hp _ IH].
  - apply word_one. eapply piece_transfer; eauto.
  - apply word_more; [eapply piece_transfer; [|exact Hp]|apply IH]; intros c Hc; apply Hs, elem_of_app; auto.
Qed.

Lemma gap_transfer sp sp' s : (forall c, c ∈ s -> among operators c = false -> sp c = sp' c) -> gap_of sp s -> gap_of sp' s.
Proof.
  unfold gap_of. rewrite !forallb_forall. intros Hs Hg c Hc. specialize (Hg c Hc). unfold gap_char in *.
  apply andb_true_iff in Hg as [Hw Ho]. rewrite <- Hs, Hw, Ho; [reflexivity|apply list_elem_of_In, Hc|apply negb_true_iff, Ho].
Qed.

Lemma words_transfer sp sp' s ws : (forall c, c ∈ s -> among operators c = false -> sp c = sp' c) -> words_of sp s ws -> words_of sp' s ws.
Proof.
  intros Hs Hw. induction Hw as [s Hg|s t m Hg Ht|s t m s' rest ws Hg Ht Hg' Hne _ IH].
  - apply words_end. eapply gap_transfer; eauto.
  - apply words_last; [eapply gap_transfer; [|exact Hg]|eapply word_transfer; [|exact Ht]]; intros c Hc; apply Hs, elem_of_app; auto.
  - apply words_more; [eapply gap_transfer; [|exact Hg]|eapply word_transfer; [|exact Ht]|eapply gap_transfer; [|exact Hg']|exact Hne|apply IH];
      intros c Hc; apply Hs; rewrite !elem_of_app; auto.
Qed.

Lemma ascii_reads command argv : ascii_spaced command = true -> reads_as command argv <-> shell_reads command argv.
Proof.
  unfold ascii_spaced. rewrite forallb_forall. intros Ha.
  assert (Hs : forall c, c ∈ command -> among operators c = false -> is_whitespace c = blank c).
  { intros c Hc Ho. specialize (Ha c (proj1 (list_elem_of_In _ _) Hc)). cbv beta in Ha. rewrite Ho in Ha. apply eqb_prop, Ha. }
  split; apply words_transfer; [exact Hs|]. intros c Hc Ho. symmetry. auto.
Qed.

Abbreviation bare := (bare_char is_whitespace).
Abbreviation piece := (piece_of is_whitespace).
Abbreviation word := (word_of is_whitespace).
Abbreviation is_gap := (gap_char is_whitespace).
Abbreviation gap := (gap_of is_whitespace).
Abbreviation words := (words_of is_whitespace).

(** ** The parser reads the grammar *)

#[local] Arguments N.eqb : simpl never.

Lemma among_app c a b : among (a ++ b) c = among a c || among b c.
Proof. apply contains_char_app. Qed.

Lemma among_cons c d l : among (d :: l) c = (d =? c) || among l c.
Proof. unfold among, contains_char. simpl. rewrite N.eqb_sym. auto. Qed.

Lemma word_app t m t' m' : word t m -> word t' m' -> word (t ++ t') (m ++ m').
Proof.
  induction 1 as [t m Hp|t m t2 m2 Hp _ IH]; intros H'; [apply word_more; auto|].
  rewrite <- !app_assoc. apply word_more; auto.
Qed.

Lemma gap_app g h : gap g -> gap h -> gap (g ++ h).
Proof. unfold gap_of. intros Hg Hh. rewrite forallb_app, Hg, Hh. auto. Qed.

Lemma words_gap g s ws : gap g -> words s ws -> words (g ++ s) ws.
Proof.
  intros Hg H. destruct H as [h Hh|h t m Hh Ht|h t m h' rest ws Hh Ht Hh' Hne Hw].
  - apply words_end, gap_app; auto.
  - rewrite app_assoc. apply words_last; auto using gap_app.
  - rewrite app_assoc. apply words_more; auto using gap_app.
Qed.

(** What an unquoted character that is no quote, backslash, operator or space is. *)
Lemma bare_cases c :
  (c =? QUOTE) = false -> (c =? DQUOTE) = false -> (c =? BACKSLASH) = false -> (c =? BACKTICK) = false ->
  among expansions c = false -> (c =? ch "#") = false -> among operators c = false -> is_whitespace c = false -> bare c = true.
Proof.
  intros. unfold bare_char. rewrite !among_cons, among_app.
  rewrite (N.eqb_sym QUOTE), (N.eqb_sym DQUOTE), (N.eqb_sym BACKSLASH), (N.eqb_sym BACKTICK), (N.eqb_sym (ch "#")).
  repeat match goal with H : _ = false |- _ => rewrite H; clear H end. auto.
Qed.

Lemma bare_parts c : bare c = true ->
  (c =? QUOTE) = false /\ (c =? DQUOTE) = false /\ (c =? BACKSLASH) = false /\ (c =? BACKTICK) = false /\
  among expansions c = false /\ (c =? ch "#") = false /\ among operators c = false /\ is_whitespace c = false.
Proof.
  unfold bare_char. rewrite !among_cons, among_app, negb_true_iff, !orb_false_iff.
  rewrite (N.eqb_sym c QUOTE), (N.eqb_sym c DQUOTE), (N.eqb_sym c BACKSLASH), (N.eqb_sym c BACKTICK), (N.eqb_sym c (ch "#")).
  tauto.
Qed.

(** The parser inside quotes. *)
Lemma single_parse s : forall started current args argv,
  parse_loop s Single started current args = Ok argv ->
  exists t s', s = t ++ QUOTE :: s' /\ contains_char QUOTE t = false
               /\ parse_loop s' NoQuote started (current ++ t) args = Ok argv.
Proof.
  induction s as [|c s IH]; simpl; intros started current args argv H; [discriminate|].
  destruct (N.eqb_spec c QUOTE) as [->|Hc].
  - exists [], s. rewrite app_nil_r. auto.
  - apply IH in H as (t & s' & -> & Ht & H). exists (c :: t), s'. split_and!; auto.
    + unfold contains_char in *. cbn [existsb]. rewrite Ht, orb_false_r. apply N.eqb_neq. congruence.
    + rewrite <- app_assoc in H. auto.
Qed.

Lemma double_parse n : forall s started current args argv, (length s < n)%nat ->
  parse_loop s Double started current args = Ok argv ->
  exists t m s', s = t ++ DQUOTE :: s' /\ quoted t m
                 /\ parse_loop s' NoQuote started (current ++ m) args = Ok argv.
Proof.
  induction n as [|n IH]; intros s started current args argv Hlen H; [lia|].
  destruct s as [|c s]; simpl in H; [discriminate|]. simpl in Hlen.
  assert (Hstep : forall t m s1, c :: s = t ++ s1 -> (length s1 < n)%nat -> quoted_item t m ->
            parse_loop s1 Double started (current ++ m) args = Ok argv ->
            exists t m s', c :: s = t ++ DQUOTE :: s' /\ quoted t m
                           /\ parse_loop s' NoQuote started (current ++ m) args = Ok argv).
  { intros t m s1 -> Hl Hq Hs. apply IH in Hs as (t2 & m2 & s' & -> & Hq2 & Hs); auto.
    exists (t ++ t2), (m ++ m2), s'. rewrite <- !app_assoc in *. split_and!; auto. constructor; auto. }
  destruct (N.eqb_spec c DQUOTE) as [->|Hd].
  { exists [], [], s. rewrite app_nil_r. split_and!; auto. constructor. }
  destruct (N.eqb_spec c BACKSLASH) as [->|Hb].
  - destruct s as [|e s]; [discriminate|]. simpl in Hlen. destruct (among keeps_no_backslash e) eqn:He.
    + apply (Hstep [BACKSLASH; e] [e] s); auto; [lia|apply q_escape; auto].
    + destruct (N.eqb_spec e 10); [discriminate|].
      apply (Hstep [BACKSLASH; e] [BACKSLASH; e] s); auto; [lia|apply q_kept; auto].
  - destruct (N.eqb_spec c BACKTICK); [discriminate|]. destruct (N.eqb_spec c DOLLAR); [discriminate|].
    apply (Hstep [c] [c] s); auto; [lia|apply q_char; auto].
Qed.

(** Behind the pieces of a word that was begun: nothing, or space and more words. *)
Definition rest_of (rest : rstr) (ws : list rstr) : Prop :=
  (rest = [] /\ ws = []) \/ exists g rest', rest = g ++ rest' /\ gap g /\ g <> [] /\ words rest' ws.

Lemma word_rest g t m rest ws : gap g -> word t m -> rest_of rest ws -> words (g ++ t ++ rest) (m :: ws).
Proof.
  intros Hg Ht [[-> ->]|(g' & rest' & -> & Hg' & Hne & Hw)]; [rewrite app_nil_r; apply words_last; auto|].
  apply words_more; auto.
Qed.

Lemma parse_words n : forall s started current args argv, (length s < n)%nat ->
  parse_loop s NoQuote started current args = Ok argv ->
  if started
  then exists t m rest ws, s = t ++ rest /\ (word t m \/ t = [] /\ m = []) /\ rest_of rest ws /\ argv = args ++ (current ++ m) :: ws
  else current = [] -> exists ws, words s ws /\ argv = args ++ ws.
Proof.
  induction n as [|n IH]; intros s started current args argv Hlen H; [lia|].
  assert (Hpiece : forall t m s1, piece t m -> s = t ++ s1 -> (length s1 < n)%nat ->
            parse_loop s1 NoQuote true (current ++ m) args = Ok argv ->
            exists t' m' rest ws, s = t' ++ rest /\ word t' m' /\ rest_of rest ws /\ argv = args ++ (current ++ m') :: ws).
  { intros t m s1 Hp -> Hl Hs. apply IH in Hs as (t2 & m2 & rest & ws & -> & Hw & Hrest & ->); auto.
    exists (t ++ t2), (m ++ m2), rest, ws. rewrite <- !app_assoc. split_and!; auto.
    destruct Hw as [Hw|[-> ->]]; [apply word_more; auto|rewrite !app_nil_r; apply word_one; auto]. }
  assert (Hdone : (exists t' m' rest ws, s = t' ++ rest /\ word t' m' /\ rest_of rest ws /\ argv = args ++ (current ++ m') :: ws) ->
    if started
    then exists t m rest ws, s = t ++ rest /\ (word t m \/ t = [] /\ m = []) /\ rest_of rest ws /\ argv = args ++ (current ++ m) :: ws
    else current = [] -> exists ws, words s ws /\ argv = args ++ ws).
  { intros (t & m & rest & ws & -> & Hw & Hr & ->). destruct started; [exists t, m, rest, ws; auto|].
    intros ->. exists (m :: ws). split; auto. apply (word_rest [] t m rest ws); auto. reflexivity. }
  destruct s as [|c s]; simpl in H.
  { destruct started; injection H as <-.
    - exists [], [], [], []. rewrite (app_nil_r current). split_and!; auto. left. auto.
    - intros _. exists []. rewrite app_nil_r. split; auto. apply words_end. reflexivity. }
  simpl in Hlen. destruct (c =? QUOTE) eqn:E1.
  { apply N.eqb_eq in E1 as ->. apply single_parse in H as (t & s' & -> & Ht & H). apply Hdone.
    apply (Hpiece (QUOTE :: t ++ [QUOTE]) t s'); auto; [constructor; auto| |].
    - simpl. rewrite <- app_assoc. auto.
    - rewrite length_app in Hlen. simpl in Hlen. lia. }
  destruct (c =? DQUOTE) eqn:E2.
  { apply N.eqb_eq in E2 as ->. apply (double_parse (S (length s))) in H as (t & m & s' & -> & Ht & H); [|lia]. apply Hdone.
    apply (Hpiece (DQUOTE :: t ++ [DQUOTE]) m s'); auto; [constructor; auto| |].
    - simpl. rewrite <- app_assoc. auto.
    - rewrite length_app in Hlen. simpl in Hlen. lia. }
  destruct (c =? BACKSLASH) eqn:E3.
  { apply N.eqb_eq in E3 as ->. destruct s as [|e s]; [discriminate|]. destruct (N.eqb_spec e 10); [discriminate|].
    apply Hdone. apply (Hpiece [BACKSLASH; e] [e] s); auto; [constructor; auto|simpl in Hlen; lia]. }
  destruct (c =? BACKTICK) eqn:E4; [discriminate|]. destruct (among expansions c) eqn:E5; [discriminate|].
  destruct (c =? ch "#") eqn:E6; [discriminate|]. destruct (among operators c) eqn:E7; [discriminate|].
  destruct (is_whitespace c) eqn:E8.
  - assert (Hgap : gap [c]) by (unfold gap_of, gap_char; simpl; rewrite E7, E8; auto). destruct started.
    + apply IH in H; [|lia]. destruct (H eq_refl) as (ws & Hw & ->). exists [], [], (c :: s), ws.
      rewrite (app_nil_r current), <- app_assoc. split_and!; auto. right. exists [c], s. split_and!; auto.
    + apply IH in H; [|lia]. intros Hcur. destruct (H Hcur) as (ws & Hw & ->). exists ws. split; auto.
      apply (words_gap [c] s); auto.
  - apply Hdone. apply (Hpiece [c] [c] s); auto; [|lia]. constructor. apply bare_cases; auto.
Qed.

Lemma parse_sound command argv : parse_simple_shell command = Ok argv -> reads_as command argv.
Proof.
  intros H. apply (parse_words (S (length command))) in H; [|lia]. destruct (H eq_refl) as (ws & Hw & ->). exact Hw.
Qed.

Lemma single_reads t : forall rest started current args, contains_char QUOTE t = false ->
  parse_loop (t ++ QUOTE :: rest) Single started current args = parse_loop rest NoQuote started (current ++ t) args.
Proof.
  induction t as [|c t IH]; intros rest started current args Ht; simpl; [rewrite app_nil_r; auto|].
  simpl in Ht. apply orb_false_iff in Ht as [Hc Ht]. rewrite (N.eqb_sym c QUOTE), Hc, IH, <- app_assoc; auto.
Qed.

Lemma double_reads t m : quoted t m -> forall rest started current args,
  parse_loop (t ++ DQUOTE :: rest) Double started current args = parse_loop rest NoQuote started (current ++ m) args.
Proof.
  induction 1 as [|t m t' m' Hi _ IH]; intros rest started current args; [simpl; rewrite app_nil_r; auto|].
  rewrite <- app_assoc. destruct Hi as [c H1 H2 H3 H4|c Hc|c Hc Hn]; simpl.
  - rewrite (proj2 (N.eqb_neq _ _) H1), (proj2 (N.eqb_neq _ _) H2), (proj2 (N.eqb_neq _ _) H3), (proj2 (N.eqb_neq _ _) H4).
    rewrite IH, <- app_assoc. auto.
  - rewrite Hc, IH, <- app_assoc. auto.
  - rewrite Hc, (proj2 (N.eqb_neq _ _) Hn), IH, <- app_assoc. auto.
Qed.

Lemma piece_reads t m : piece t m -> forall rest started current args,
  parse_loop (t ++ rest) NoQuote started current args = parse_loop rest NoQuote true (current ++ m) args.
Proof.
  intros [c Hc|c Hc|t' Ht|t' m' Ht] rest started current args; simpl.
  - apply bare_parts in Hc as (-> & -> & -> & -> & -> & -> & -> & ->). auto.
  - rewrite (proj2 (N.eqb_neq _ _) Hc). auto.
  - rewrite <- app_assoc. simpl. apply single_reads. auto.
  - rewrite <- app_assoc. simpl. apply double_reads. auto.
Qed.

Lemma word_reads t m : word t m -> forall rest started current args,
  parse_loop (t ++ rest) NoQuote started current args = parse_loop rest NoQuote true (current ++ m) args.
Proof.
  induction 1 as [t m Hp|t m t' m' Hp _ IH]; intros rest started current args; [apply piece_reads; auto|].
  rewrite <- app_assoc, (piece_reads _ _ Hp), IH, <- app_assoc. auto.
Qed.

Lemma gap_char_cases c : is_gap c = true -> is_whitespace c = true /\ bare c = false /\
  (c =? QUOTE) = false /\ (c =? DQUOTE) = false /\ (c =? BACKSLASH) = false /\ (c =? BACKTICK) = false /\
  among expansions c = false /\ (c =? ch "#") = false /\ among operators c = false.
Proof.
  unfold gap_char. intros [Hw Ho]%andb_true_iff. apply negb_true_iff in Ho. split; auto.
  unfold bare_char. rewrite Hw, orb_true_r. split; auto.
  assert (Hd : forall l, forallb (fun d => negb (is_whitespace d)) l = true -> among l c = false).
  { intros l Hl. apply not_true_iff_false. intros Hin. apply existsb_exists in Hin as (d & Hin & Hd).
    apply N.eqb_eq in Hd as <-. eapply forallb_forall in Hl; eauto. simpl in Hl. rewrite Hw in Hl. discriminate. }
  assert (Hne : forall d, negb (is_whitespace d) = true -> (c =? d) = false).
  { intros d Hdw. apply N.eqb_neq. intros ->. rewrite Hw in Hdw. discriminate. }
  split_and!; try (apply Hne; reflexivity); auto.
Qed.

Lemma gap_reads g : forall rest started current args, gap g -> g <> [] \/ (started = false /\ current = []) ->
  parse_loop (g ++ rest) NoQuote started current args =
  parse_loop rest NoQuote false [] (if started then args ++ [current] else args)
  \/ (started = false /\ current <> []).
Proof.
  induction g as [|c g IH]; intros rest started current args Hg Hne.
  - destruct Hne as [?|[-> ->]]; [congruence|]. auto.
  - unfold gap_of in Hg. simpl in Hg. apply andb_true_iff in Hg as [Hc Hg].
    apply gap_char_cases in Hc as (Hw & _ & E1 & E2 & E3 & E4 & E5 & E6 & E7). simpl.
    rewrite E1, E2, E3, E4, E5, E6, E7, Hw. destruct started.
    + left. destruct (IH rest false [] (args ++ [current]) Hg) as [->|[_ ?]]; [auto|auto|congruence].
    + destruct (decide (current = [])) as [->|]; [|auto]. left. destruct (IH rest false [] args Hg) as [->|[_ ?]]; [auto|auto|congruence].
Qed.

Lemma words_read s ws : words s ws -> forall args, parse_loop s NoQuote false [] args = Ok (args ++ ws).
Proof.
  induction 1 as [s Hg|s t m Hg Ht|s t m s' rest ws Hg Ht Hg' Hne _ IH]; intros args.
  - rewrite <- (app_nil_r s). destruct (gap_reads s [] false [] args Hg) as [->|[_ ?]]; auto; [|congruence].
    simpl. rewrite app_nil_r. auto.
  - destruct (gap_reads s t false [] args Hg) as [->|[_ ?]]; auto; [|congruence].
    rewrite <- (app_nil_r t), (word_reads _ _ Ht). simpl. auto.
  - destruct (gap_reads s (t ++ s' ++ rest) false [] args Hg) as [->|[_ ?]]; auto; [|congruence].
    rewrite (word_reads _ _ Ht). simpl. destruct (gap_reads s' rest true m args Hg') as [->|[? _]]; auto; [|discriminate].
    rewrite IH, <- app_assoc. auto.
Qed.

Lemma parse_complete command argv : reads_as command argv -> parse_simple_shell command = Ok argv.
Proof. intros H. exact (words_read _ _ H []). Qed.

(** ** Quoted words *)

Lemma plain_bare c : plain_char c = true -> bare c = true.
Proof.
  intros Hp.
  assert (Hd : forall l, forallb (fun d => negb (plain_char d)) l = true -> among l c = false).
  { intros l Hl. apply not_true_iff_false. intros Hin. apply existsb_exists in Hin as (d & Hin & Hd).
    apply N.eqb_eq in Hd as <-. eapply forallb_forall in Hl; eauto. simpl in Hl. rewrite Hp in Hl. discriminate. }
  unfold bare_char. rewrite negb_true_iff, orb_false_iff. split; [apply Hd; reflexivity|].
  apply not_true_iff_false. intros Hw. unfold plain_char, is_ascii_alphanumeric, is_ascii_alphabetic, is_ascii_uppercase,
    is_ascii_lowercase, is_ascii_digit, is_whitespace, between in *.
  apply orb_true_iff in Hp as [Hp|Hp]; [lia|]. unfold among, contains_char in Hp. simpl in Hp. lia.
Qed.

Lemma plain_word w : w <> [] -> forallb plain_char w = true -> word w w.
Proof.
  induction w as [|c w IH]; [congruence|]. simpl. intros _ [Hc Hw]%andb_true_iff.
  assert (Hp : piece [c] [c]) by (constructor; apply plain_bare; auto). destruct w as [|d w]; [apply word_one; auto|].
  apply (word_more is_whitespace [c] [c]); auto.
Qed.

Lemma strip_one_char c d s : strip_prefix [c] (d :: s) = if c =? d then Some s else None.
Proof. reflexivity. Qed.

Lemma split_once_none_char c s : split_once [c] s = None -> contains_char c s = false.
Proof.
  induction s as [|d s IH]; [auto|]. cbn [split_once]. rewrite strip_one_char. unfold contains_char in *. cbn [existsb].
  destruct (c =? d); [discriminate|]. destruct (split_once [c] s) as [[a b]|]; [discriminate|]. intros _. apply IH. auto.
Qed.

Lemma split_once_first_char c s a b : split_once [c] s = Some (a, b) -> s = a ++ c :: b /\ contains_char c a = false.
Proof.
  revert a b. induction s as [|d s IH]; intros a b; [discriminate|]. cbn [split_once]. rewrite strip_one_char.
  destruct (N.eqb_spec c d) as [->|Hne]; [intros [= <- <-]; auto|].
  destruct (split_once [c] s) as [[a' b']|]; [|discriminate]. intros [= <- <-].
  destruct (IH _ _ eq_refl) as [-> Ha]. split; auto. unfold contains_char in *. cbn [existsb].
  rewrite Ha, orb_false_r. apply N.eqb_neq. auto.
Qed.

Definition quote_quoted : rstr := [QUOTE; DQUOTE; QUOTE; DQUOTE; QUOTE].

Lemma quote_pieces fuel w : (length w < fuel)%nat ->
  word (QUOTE :: replace_fuel fuel [QUOTE] quote_quoted w ++ [QUOTE]) w.
Proof.
  revert w. induction fuel as [|fuel IH]; intros w Hlen; [lia|]. cbn [replace_fuel].
  destruct (split_once [QUOTE] w) as [[a b]|] eqn:Hs.
  - apply split_once_first_char in Hs as [-> Ha]. rewrite length_app in Hlen. simpl in Hlen.
    replace (QUOTE :: (a ++ quote_quoted ++ replace_fuel fuel [QUOTE] quote_quoted b) ++ [QUOTE])
      with ((QUOTE :: a ++ [QUOTE]) ++ (DQUOTE :: [QUOTE] ++ [DQUOTE])
            ++ (QUOTE :: replace_fuel fuel [QUOTE] quote_quoted b ++ [QUOTE]))
      by (unfold quote_quoted; simpl; rewrite <- !app_assoc; auto).
    apply (word_more _ _ a); [apply p_single; auto|]. apply (word_more _ _ [QUOTE]); [|apply IH; lia].
    apply p_double. apply (quoted_cons [QUOTE] [QUOTE] [] []); [apply q_char; discriminate|constructor].
  - apply word_one, p_single, split_once_none_char. auto.
Qed.

Lemma shell_quote_word w : word (shell_quote w) w.
Proof.
  unfold shell_quote. destruct (negb (is_empty w) && forallb plain_char w) eqn:E.
  - apply andb_true_iff in E as [Hne Hp]. apply plain_word; auto. intros ->. discriminate.
  - apply (quote_pieces (S (length w)) w). lia.
Qed.

Lemma space_gap : gap (lit " ").
Proof. reflexivity. Qed.

Lemma rendered_words argv : reads_as (render_argv argv) argv.
Proof.
  unfold reads_as, render_argv. induction argv as [|w argv IH]; [apply words_end; reflexivity|].
  destruct argv as [|v argv].
  - apply (words_last _ []); [reflexivity|apply shell_quote_word].
  - change (join (lit " ") (map shell_quote (w :: v :: argv)))
      with ([] ++ shell_quote w ++ lit " " ++ join (lit " ") (map shell_quote (v :: argv))).
    apply words_more; [reflexivity|apply shell_quote_word|apply space_gap|discriminate|exact IH].
Qed.

(** An assignment in front of a quoted value is one word with that value. *)
Lemma quoted_assignment name value : name <> [] -> forallb plain_char name = true ->
  reads_as (name ++ lit "=" ++ shell_quote value) [name ++ lit "=" ++ value].
Proof.
  intros Hne Hp. apply (words_last _ []); [reflexivity|]. apply word_app; [apply plain_word; auto|].
  apply word_app; [apply plain_word; [discriminate|reflexivity]|apply shell_quote_word].
Qed.

(** ** Words behind the proxy *)

Lemma blank_gap c : blank c = true -> is_gap c = true.
Proof. unfold blank. intros [->%N.eqb_eq| ->%N.eqb_eq]%orb_true_iff; reflexivity. Qed.

Lemma blank_not_plain c : blank c = true -> plain_char c = false.
Proof. unfold blank. intros [->%N.eqb_eq| ->%N.eqb_eq]%orb_true_iff; reflexivity. Qed.

Lemma gap_cons c s : is_gap c = true -> gap s -> gap (c :: s).
Proof. unfold gap_of. simpl. intros -> ->. auto. Qed.

(** Blanks, then a plain word up to the next blank, then more of this. *)
Lemma split_blank_words s :
  forallb (forallb plain_char) (split_char blank s) = true ->
  match split_char blank s with
  | [] => False
  | w :: ws => exists rest, s = w ++ rest
      /\ rest_of rest (List.filter (fun w => negb (is_empty w)) ws)
  end.
Proof.
  induction s as [|c s IH]; simpl; [intros _; exists []; split; auto; left; auto|].
  destruct (blank c) eqn:Hc; simpl.
  - intros Hall. specialize (IH Hall). destruct (split_char blank s) as [|w ws] eqn:Hs; [destruct IH|].
    simpl in Hall. apply andb_true_iff in Hall as [Hw Hws]. destruct IH as (rest & -> & Hrest). exists (c :: w ++ rest). split; auto.
    assert (Hg : gap [c]) by (apply gap_cons; [apply blank_gap; auto|reflexivity]). simpl. destruct w as [|d w]; simpl.
    + destruct Hrest as [[-> ->]|(g & r & -> & Hg' & Hne & Hw')].
      * right. exists [c], []. split; [auto|]. split; [auto|]. split; [discriminate|apply words_end; reflexivity].
      * right. exists (c :: g), r. split; [auto|]. split; [apply gap_cons; auto; apply blank_gap; auto|]. split; [discriminate|auto].
    + right. exists [c], ((d :: w) ++ rest). split; [auto|]. split; [auto|]. split; [discriminate|].
      apply (word_rest [] (d :: w)); [reflexivity|apply plain_word; [discriminate|auto]|auto].
  - destruct (split_char blank s) as [|w ws] eqn:Hs; [destruct (IH eq_refl)|]. simpl. intros Hall.
    apply andb_true_iff in Hall as [[Hcp Hw]%andb_true_iff Hws]. destruct IH as (rest & -> & Hrest); [apply andb_true_iff; auto|].
    exists rest. auto.
Qed.

Lemma plain_list_words s :
  forallb (forallb plain_char) (split_char blank s) = true ->
  words s (List.filter (fun w => negb (is_empty w)) (split_char blank s)).
Proof.
  intros Hall. pose proof (split_blank_words s Hall) as H. destruct (split_char blank s) as [|w ws]; [destruct H|].
  simpl in Hall. apply andb_true_iff in Hall as [Hw _]. destruct H as (rest & -> & Hrest). destruct w as [|d w]; simpl.
  - destruct Hrest as [[-> ->]|(g & r & -> & Hg & _ & Hr)]; [apply words_end; reflexivity|apply words_gap; auto].
  - apply (word_rest [] (d :: w)); [reflexivity|apply plain_word; [discriminate|auto]|auto].
Qed.

Lemma render_plain ws : Forall (fun w => w <> [] /\ forallb plain_char w = true) ws -> render_argv ws = join (lit " ") ws.
Proof.
  intros H. unfold render_argv. f_equal. induction H as [|w ws [Hne Hp] _ IH]; auto. simpl. rewrite IH. f_equal.
  unfold shell_quote. rewrite Hp. destruct w; [congruence|]. auto.
Qed.

Lemma proxy_words_spec shell command ws :
  shell_proxy_words shell command = Some ws ->
  reads_as command ws /\ Forall (fun w => w <> [] /\ forallb plain_char w = true) ws
  /\ match ws with [] => False | program :: _ => one_of program SHELL_ONLY_WORDS = false /\ contains_char (ch "=") program = false end.
Proof.
  unfold shell_proxy_words. set (l := List.filter _ _). destruct l as [|program rest] eqn:Hl; [discriminate|]. rewrite <- Hl.
  destruct (_ || _) eqn:E; [discriminate|]. apply orb_false_iff in E as [[Hplain He]%orb_false_iff Ho].
  apply negb_false_iff in Hplain. intros [= <-]. rewrite forallb_forall in Hplain.
  assert (Hall : forall w, In w l -> w <> [] /\ forallb plain_char w = true).
  { intros w Hw. specialize (Hplain w Hw). apply andb_true_iff in Hplain as [_ Hp]. split; auto.
    unfold l in Hw. apply filter_In in Hw as [_ Hn]. intros ->. discriminate. }
  split_and!; [|apply List.Forall_forall; auto|rewrite Hl; auto]. unfold l. apply plain_list_words. apply forallb_forall. intros w Hw.
  destruct w as [|d w]; auto. apply Hall. unfold l. apply filter_In. auto.
Qed.

(** ** Properties *)

(** C20: the parser reads exactly the commands of the grammar of words and quotes, as
    the words that the grammar says: it accepts nothing whose meaning needs a shell,
    and it turns no plain command away.  Its words are parted by any white space of
    Unicode; where the command has none but blanks and line ends, they are the words
    of a shell, which parts them at blanks only ([unicode_spaces_split_words] is a
    command where the two differ). *)
Theorem simple_commands_are_read_as_written command argv :
  (parse_simple_shell command = Ok argv <-> reads_as command argv)
  /\ (ascii_spaced command = true -> parse_simple_shell command = Ok argv <-> shell_reads command argv).
Proof.
  assert (H : parse_simple_shell command = Ok argv <-> reads_as command argv) by (split; [apply parse_sound|apply parse_complete]).
  split; [exact H|]. intros Ha. rewrite H. apply ascii_reads, Ha.
Qed.

Lemma simple_commands_are_read_as_written_witness :
  parse_simple_shell (lit "git log 'a b'") = Ok [lit "git"; lit "log"; lit "a b"] /\ shell_reads (lit "git log 'a b'") [lit "git"; lit "log"; lit "a b"].
Proof.
  split; [reflexivity|].
  apply (simple_commands_are_read_as_written (lit "git log 'a b'") [lit "git"; lit "log"; lit "a b"]); reflexivity.
Defined.

(** C21: an argument vector that is written for a shell is read back word for word,
    whatever characters are in it, empty words and quotes included. *)
Theorem rendered_words_are_read_back argv : parse_simple_shell (render_argv argv) = Ok argv.
Proof. apply parse_complete, rendered_words. Qed.

(** The name of a program with a space of Unicode in it is two words for the parser
    and one for a shell. *)
Example unicode_spaces_split_words :
  parse_simple_shell (lit "a" ++ [160] ++ lit "b") = Ok [lit "a"; lit "b"] /\ shell_reads (lit "a" ++ [160] ++ lit "b") [lit "a" ++ [160] ++ lit "b"].
Proof.
  split; [reflexivity|]. apply (words_last blank []); [reflexivity|].
  apply (word_more blank [_] [_]), (word_more blank [_] [_]), word_one; apply p_bare; reflexivity.
Qed.

(** Builtins of bash that are not on the list are run as programs. *)
Example unlisted_builtins_are_proxied :
  shell_proxy_words [] (lit "shopt -s extglob") = Some [lit "shopt"; lit "-s"; lit "extglob"]
  /\ shell_proxy_words [] (lit "coproc sleep 5") = Some [lit "coproc"; lit "sleep"; lit "5"].
Proof. split; reflexivity. Qed.

End ShellWords.
