(* ===== verification/Adapter.v ===== *)
(** The engine as the control plane uses it ([crates/hzr-exec/src/adapter.rs]): the
    probe that accepts only the pinned engine, the decision about a command from
    the engine's plan, the scripts that run a managed command with its accounting,
    and the shim through which [rtk] is found.

    A path is a string without a slash at its end.  What the file system answers is in
    [AdapterIo], what the engine prints is what [Output] holds; a JSON text is read by
    the parameters of the sections.  Identifiers come from [Uuid::new_v4]. *)

From S2P Require Import Prelude RStr Contract Exec ExecOutput ShellWords.
From Stdlib Require Import ZifyBool ZifyN ZifyNat.

Module Adapter.
Import Contract Exec ShellWords.

Definition PINNED_RTK_VERSION : rstr := lit "1.1.0-fork.1".
Definition RTK_SHIM_BINARY_ENV : rstr := lit "HZR_FORK_CORE_BINARY".
Definition RTK_SHIM_DIRECTORY : rstr := lit "shim".
Definition ACCOUNTING_RECEIPT_JOURNAL_ENV : rstr := lit "HZR_INTERNAL_ACCOUNTING_RECEIPT_JOURNAL".
Definition ACCOUNTING_FAILURE_JOURNAL_ENV : rstr := lit "HZR_INTERNAL_ACCOUNTING_FAILURE_JOURNAL".
Definition ACCOUNTING_CORRELATION_ENV : rstr := lit "HZR_INTERNAL_ACCOUNTING_CORRELATION".
Definition INTERNAL_EVASION_ENV : rstr := lit "HZR_INTERNAL_EVASION_JSON".

Inductive AdapterError :=
| MissingForkRuntimePaths
| InvalidForkRuntimePath (path : rstr)
| InvalidForkBinaryPath (path : rstr)
| InvalidForkPathEnvironment (reason : rstr)
| PrepareForkRuntime (path source : rstr)
| ForkCoreUnavailable (reason : rstr)
| Model (error : ExecError).

(** The texts of the errors of [Exec]. *)
Definition display_model (e : ExecError) : rstr :=
  match e with
  | EmptyProgram => lit "command program cannot be empty"
  | EmptyShell => lit "shell program cannot be empty"
  | InvalidMemoryLimit => lit "capture memory limit must be greater than zero"
  | InvalidCaptureLimit => lit "capture byte limit must be greater than zero"
  | MemoryLimitExceedsCaptureLimit => lit "capture memory limit cannot exceed the total byte limit"
  | InvalidEventBuffer => lit "stream event buffer must be greater than zero"
  | CreateSpillDirectory p s => lit "failed to create spill directory " ++ p ++ lit ": " ++ s
  | OpenSpill p s => lit "failed to open spill file " ++ p ++ lit ": " ++ s
  | WriteSpill p s => lit "failed to write spill file " ++ p ++ lit ": " ++ s
  | FlushSpill p s => lit "failed to flush spill file " ++ p ++ lit ": " ++ s
  | MissingSpillState => lit "capture spill state was unavailable after initialization"
  | Exec.Wait p s => lit "failed to wait for " ++ p ++ lit ": " ++ s
  end.

Definition display (e : AdapterError) : rstr :=
  match e with
  | MissingForkRuntimePaths => lit "managed fork-core runtime paths were not configured"
  | InvalidForkRuntimePath p => lit "fork-core runtime path has no parent directory: " ++ p
  | InvalidForkBinaryPath p => lit "fork-core binary path has no parent directory: " ++ p
  | InvalidForkPathEnvironment r => lit "failed to construct fork-core PATH: " ++ r
  | PrepareForkRuntime p s => lit "failed to prepare private fork-core runtime path " ++ p ++ lit ": " ++ s
  | ForkCoreUnavailable r => lit "managed fork-core is unavailable: " ++ r
  | Model e => display_model e
  end.

Definition map_model {A} (r : result ExecError A) : result AdapterError A :=
  match r with Ok a => Ok a | Err e => Err (Model e) end.

Record ForkRuntimePaths := {
  memory_db : rstr;
  tee_dir : rstr;
  audit_dir : rstr;
  accounting_receipt_journal : rstr;
  accounting_failure_journal : rstr;
}.

Record ForkAccountingHandle := { correlation_id : rstr; receipt_journal : rstr; failure_journal : rstr }.

Definition from_data_root (data_root : rstr) : ForkRuntimePaths :=
  let root := path_join data_root (lit "fork") in
  {| memory_db := path_join root (lit "mem.db"); tee_dir := path_join root (lit "tee"); audit_dir := path_join root (lit "audit");
     accounting_receipt_journal := path_join root (lit "accounting-receipts.jsonl");
     accounting_failure_journal := path_join root (lit "accounting-failures.jsonl") |}.

Definition parent_or_error (path : rstr) : result AdapterError rstr :=
  ok_or (ExecOutput.parent path) (InvalidForkRuntimePath path).

Definition require_binary_directory (binary : rstr) : result AdapterError rstr :=
  ok_or (ExecOutput.parent binary) (InvalidForkBinaryPath binary).

(** [create] is the error of creating or protecting a directory, [shim_write] that of
    the shim's directory and file. *)
Record AdapterIo := {
  create : rstr -> option rstr;
  shim_write : option rstr;
  uuid : rstr;
}.

Fixpoint create_all (io : AdapterIo) (directories : list rstr) : result AdapterError unit :=
  match directories with
  | [] => Ok tt
  | d :: ds => match create io d with Some e => Err (PrepareForkRuntime d e) | None => create_all io ds end
  end.

Definition ensure_layout (io : AdapterIo) (self : ForkRuntimePaths) : result AdapterError unit :=
  memory_parent ← parent_or_error (memory_db self);
  receipt_parent ← parent_or_error (accounting_receipt_journal self);
  create_all io [memory_parent; receipt_parent; tee_dir self; audit_dir self].

Definition rtk_shim_directory (self : ForkRuntimePaths) : result AdapterError rstr :=
  parent ← parent_or_error (tee_dir self);
  Ok (path_join parent RTK_SHIM_DIRECTORY).

Definition ensure_rtk_shim (io : AdapterIo) (self : ForkRuntimePaths) : result AdapterError rstr :=
  directory ← rtk_shim_directory self;
  _ ← guard_err (contains_char (ch ":") directory)
        (InvalidForkPathEnvironment (directory ++ lit " contains the PATH separator"));
  match shim_write io with Some e => Err (PrepareForkRuntime directory e) | None => Ok directory end.

(** [Path::file_stem] of a file name. *)
Definition file_stem (path : rstr) : option rstr :=
  name ← file_name path;
  Some (match rsplit_once (lit ".") name with Some (stem, _) => if is_empty stem then name else stem | None => name end).

Definition correlated_journal_path (base correlation_id : rstr) : result AdapterError rstr :=
  parent ← parent_or_error base;
  stem ← ok_or (file_stem base) (InvalidForkRuntimePath base);
  Ok (path_join parent (stem ++ lit "-" ++ correlation_id ++ lit ".jsonl")).

Definition accounting_context (self : ForkRuntimePaths) (correlation_id : rstr) : result AdapterError ForkAccountingHandle :=
  receipts ← correlated_journal_path (accounting_receipt_journal self) correlation_id;
  failures ← correlated_journal_path (accounting_failure_journal self) correlation_id;
  Ok {| correlation_id := correlation_id; receipt_journal := receipts; failure_journal := failures |}.

Definition new_accounting_context (io : AdapterIo) (self : ForkRuntimePaths) : result AdapterError ForkAccountingHandle :=
  accounting_context self (uuid io).

Definition LF : rstr := [10].
Definition Q : rstr := [DQUOTE].

(** ** The scripts *)

Definition assignment (name value : rstr) : rstr := name ++ lit "=" ++ shell_quote value ++ LF.

Definition constants : list (rstr * rstr) :=
  [(lit "RTK_TEE", lit "0"); (lit "RTK_HISTORY_DAYS", lit "0"); (lit "RTK_TRACKING_DISABLED", lit "0");
   (lit "RTK_TELEMETRY_DISABLED", lit "1")].

Definition exported (self : ForkRuntimePaths) (accounting : ForkAccountingHandle) : list (rstr * rstr) :=
  [(lit "RTK_MEM_DB_PATH", memory_db self); (lit "RTK_TEE_DIR", tee_dir self); (lit "RTK_AUDIT_DIR", audit_dir self);
   (ACCOUNTING_RECEIPT_JOURNAL_ENV, receipt_journal accounting); (ACCOUNTING_FAILURE_JOURNAL_ENV, failure_journal accounting);
   (ACCOUNTING_CORRELATION_ENV, correlation_id accounting)].

Definition shell_exports (io : AdapterIo) (self : ForkRuntimePaths) (shim : option rstr) (accounting : ForkAccountingHandle)
  : result AdapterError rstr :=
  resolution ←
    match shim with
    | Some binary =>
        directory ← ensure_rtk_shim io self;
        Ok (RTK_SHIM_BINARY_ENV ++ lit "=" ++ shell_quote binary ++ LF
            ++ lit "PATH=" ++ shell_quote directory ++ lit "${PATH:+" ++ Q ++ lit ":$PATH" ++ Q ++ lit "}" ++ LF
            ++ lit "export " ++ RTK_SHIM_BINARY_ENV ++ lit " PATH" ++ LF)
    | None => Ok []
    end;
  Ok (lit "# HZR managed route: engine environment for the command that follows; accounting is attributed by correlation, output is filtered by fork-core."
      ++ LF ++ lit "unset RTK_DB_PATH" ++ LF
      ++ concat (map (fun kv => assignment kv.1 kv.2) (exported self accounting))
      ++ concat (map (fun kv => kv.1 ++ lit "=" ++ kv.2 ++ LF) constants)
      ++ lit "export " ++ join (lit " ") (exported self accounting ++ constants).*1 ++ LF ++ resolution).

Definition render_command (command : CanonicalCommand) : rstr :=
  match command with Argv program args => render_argv (program :: args) | Shell _ command => command end.

Definition execution_shell (command : CanonicalCommand) : rstr :=
  match command with Shell shell _ => shell | Argv _ _ => default_shell end.

(** The text of the shim. *)
Definition rtk_shim_script (directory : rstr) : rstr :=
  lit "#!/bin/sh" ++ LF
  ++ lit "# HZR managed fork-core shim: resolves `rtk` in a managed command, then runs the pinned engine under the caller's PATH." ++ LF
  ++ lit "shim=" ++ shell_quote directory ++ LF
  ++ lit "while :; do" ++ LF ++ lit "  case $PATH in" ++ LF
  ++ lit "    " ++ Q ++ lit "$shim" ++ Q ++ lit ") PATH= ;;" ++ LF
  ++ lit "    " ++ Q ++ lit "$shim" ++ Q ++ lit ":*) PATH=${PATH#" ++ Q ++ lit "$shim" ++ Q ++ lit ":} ;;" ++ LF
  ++ lit "    *:" ++ Q ++ lit "$shim" ++ Q ++ lit ") PATH=${PATH%:" ++ Q ++ lit "$shim" ++ Q ++ lit "} ;;" ++ LF
  ++ lit "    *:" ++ Q ++ lit "$shim" ++ Q ++ lit ":*) PATH=${PATH%%:" ++ Q ++ lit "$shim" ++ Q ++ lit ":*}:${PATH#*:" ++ Q
  ++ lit "$shim" ++ Q ++ lit ":} ;;" ++ LF
  ++ lit "    *) break ;;" ++ LF ++ lit "  esac" ++ LF ++ lit "done" ++ LF ++ lit "export PATH" ++ LF
  ++ lit "exec " ++ Q ++ lit "${" ++ RTK_SHIM_BINARY_ENV ++ lit ":?HZR managed fork-core binary is not set}" ++ Q
  ++ lit " " ++ Q ++ lit "$@" ++ Q ++ LF.

Definition COLON : rstr := [58].
#[global] Arguments COLON : simpl never.

(** One turn of its loop, as the shell's [case] and expansions mean it: the first arm that
    matches; [None] is the [break]. *)
Definition shim_step (shim path : rstr) : option rstr :=
  if str_eqb path shim then Some []
  else match strip_prefix (shim ++ COLON) path with
       | Some rest => Some rest
       | None =>
           match strip_suffix (COLON ++ shim) path with
           | Some rest => Some rest
           | None =>
               match split_once (COLON ++ shim ++ COLON) path with
               | Some (before, after) => Some (before ++ COLON ++ after)
               | None => None
               end
           end
       end.

Fixpoint shim_loop (fuel : nat) (shim path : rstr) : rstr :=
  match fuel, shim_step shim path with
  | S fuel, Some path => shim_loop fuel shim path
  | _, _ => path
  end.

(** [PATH=<shim>${PATH:+":$PATH"}] of the exports, and what the shim leaves of it. *)
Definition path_with_shim (shim path : rstr) : rstr := if is_empty path then shim else shim ++ COLON ++ path.
Definition path_behind_shim (shim path : rstr) : rstr := shim_loop (S (length path)) shim path.

(** ** The environment of a process *)

Record Environment := { set : gmap rstr rstr; remove : list rstr }.

Record RtkRewriteOutcome := {
  decision : RewriteDecision;
  evasion : option EvasionAttribution;
  accounting_correlation_id : option rstr;
  host_permission : option HostPermissionVerdict.t;
}.

(** [to_json] is [serde_json::to_string] of an attribution, which cannot fail. *)
Definition apply_evasion_environment (to_json : EvasionAttribution -> rstr) (self : RtkRewriteOutcome) (environment : Environment)
  : Environment :=
  let kept := List.filter (fun variable => negb (str_eqb variable INTERNAL_EVASION_ENV)) (remove environment) in
  match evasion self with
  | Some evasion => {| set := <[INTERNAL_EVASION_ENV := to_json evasion]> (set environment); remove := kept |}
  | None => {| set := delete INTERNAL_EVASION_ENV (set environment); remove := kept ++ [INTERNAL_EVASION_ENV] |}
  end.

Definition outcome_without_evasion (d : RewriteDecision) : RtkRewriteOutcome :=
  {| decision := d; evasion := None; accounting_correlation_id := None; host_permission := None |}.

Definition policy_reason (decision : rstr) (plan_reason : option RewritePlanReason.t) (attribution : option EvasionAttribution)
    (proposed : option rstr) : rstr :=
  let policy := match plan_reason with
                | Some RewritePlanReason.PermissionPolicy => lit "fork-core permission policy"
                | Some RewritePlanReason.CanonicalPolicy | None => lit "fork-core canonical policy"
                end in
  let verb := if str_eqb decision (lit "deny") then lit "denied the command" else lit "requires approval" in
  match attribution with
  | None => policy ++ lit " " ++ verb
  | Some a =>
      EnforcementTier.as_str (tier a) ++ lit " " ++ decision ++ lit " " ++ EvasionClass.as_str (class a) ++ lit " ("
      ++ EvasionClass.construct (class a) ++ lit "): " ++ policy ++ lit " " ++ verb ++ lit "; "
      ++ EvasionClass.prescription (class a)
      ++ match trim <$> proposed with
         | Some p => if is_empty p then [] else lit "; approving runs the managed form: " ++ p
         | None => []
         end
  end.

(** ** The probe *)

Inductive RtkRewriteInterface := ForkCli | Unavailable (reason : rstr).

Record RtkCapabilities := {
  cap_binary : rstr;
  detected_version : option rstr;
  contract : option EngineContractIdentity;
  rewrite : RtkRewriteInterface;
  proxy : bool;
}.

Record ForkCoreConfig := {
  binary : rstr;
  runtime_paths : option ForkRuntimePaths;
  rewrite_timeout_ms : N;
}.

(** A finished process: its texts are decoded as [from_utf8_lossy] does. *)
Record Output := { success : bool; status : rstr; stdout : rstr; stderr : rstr }.

Definition output_text (o : Output) : rstr := stdout o ++ stderr o.

Definition unavailable (binary : rstr) (detected : option rstr) (reason : rstr) : RtkCapabilities :=
  {| cap_binary := binary; detected_version := detected; contract := None; rewrite := Unavailable reason; proxy := false |}.

Definition parse_version (stdout : rstr) : option rstr :=
  List.find (fun part => match part with c :: _ => is_ascii_digit c | [] => false end)
    (map (trim_start_matches (N.eqb (ch "v"))) (split_whitespace stdout)).

(** [resolve] is [resolve_binary], [run_probe] runs the engine with arguments, both
    with the text of their error; [identity_of] reads a contract. *)
Record ProbeIo := {
  adapter_io : AdapterIo;
  resolve : rstr -> result rstr rstr;
  run_probe : rstr -> list rstr -> result rstr Output;
  identity_of : rstr -> result rstr EngineContractIdentity;
  expected_identity : result rstr EngineContractIdentity;
}.

Definition words_of (s : String.string) : list rstr := split_whitespace (lit s).

(** A probe that has to succeed: its output, or the capabilities without an engine. *)
Definition probed (io : ProbeIo) (binary : rstr) (detected : option rstr) (args : list rstr) (failed name : rstr)
  : result RtkCapabilities Output :=
  match run_probe io binary args with
  | Ok output => if success output then Ok output else Err (unavailable binary detected failed)
  | Err reason => Err (unavailable binary detected (name ++ lit " probe " ++ reason))
  end.

Definition refuse_unless (good : bool) (c : RtkCapabilities) : result RtkCapabilities unit := guard_err (negb good) c.

Definition probe_steps (io : ProbeIo) (config : ForkCoreConfig) : result RtkCapabilities RtkCapabilities :=
  match runtime_paths config with
  | None => Err (unavailable (binary config) None (lit "managed runtime paths were not configured"))
  | Some paths =>
      _ ← match ensure_layout (adapter_io io) paths with
          | Ok _ => Ok tt
          | Err e => Err (unavailable (binary config) None (lit "runtime layout failed: " ++ display e))
          end;
      binary ← match resolve io (binary config) with
               | Ok b => Ok b
               | Err reason => Err (unavailable (binary config) None reason)
               end;
      _ ← refuse_unless (bool_decide (file_name binary = Some (lit "rtk")))
            (unavailable binary None (lit "managed fork binary must be named rtk"));
      version ← probed io binary None (words_of "--version") (lit "version probe returned failure") (lit "version");
      let detected := parse_version (stdout version) in
      _ ← refuse_unless (bool_decide (detected = Some PINNED_RTK_VERSION))
            (unavailable binary detected (lit "expected fork-core " ++ PINNED_RTK_VERSION));
      expected ← match expected_identity io with
                 | Ok found => Ok found
                 | Err reason => Err (unavailable binary detected reason)
                 end;
      output ← probed io binary detected (words_of "contract --json") (lit "contract probe returned failure") (lit "contract");
      contract ← match identity_of io (stdout output) with
                 | Ok found => Ok found
                 | Err e => Err (unavailable binary detected (lit "contract probe returned invalid JSON: " ++ e))
                 end;
      _ ← refuse_unless (bool_decide (contract = expected))
            (unavailable binary detected (lit "fork contract identity did not match CURRENT_ENGINE.toml"));
      help ← probed io binary detected (words_of "rewrite --help") (lit "rewrite probe returned failure") (lit "rewrite");
      _ ← refuse_unless (contains (lit "rtk rewrite") (output_text help)
                         && contains (lit "Raw command to rewrite") (output_text help))
            (unavailable binary detected (lit "fork rewrite contract was not detected"));
      help ← probed io binary detected (words_of "proxy --help") (lit "proxy probe returned failure") (lit "proxy");
      _ ← refuse_unless (contains (lit "rtk proxy") (output_text help) && contains (lit "without filtering") (output_text help))
            (unavailable binary detected (lit "fork proxy contract was not detected"));
      Ok {| cap_binary := binary; detected_version := detected; contract := Some contract; rewrite := ForkCli; proxy := true |}
  end.

Definition probe (io : ProbeIo) (config : ForkCoreConfig) : RtkCapabilities :=
  match probe_steps io config with Ok c | Err c => c end.

(** [PinnedRtkAdapter]: [detect] puts the resolved binary into the configuration. *)
Record PinnedRtkAdapter := { config : ForkCoreConfig; capabilities : RtkCapabilities }.

Definition detect (io : ProbeIo) (config : ForkCoreConfig) : PinnedRtkAdapter :=
  let capabilities := probe io config in
  {| config := {| binary := cap_binary capabilities; runtime_paths := runtime_paths config;
                  rewrite_timeout_ms := rewrite_timeout_ms config |};
     capabilities := capabilities |}.

(** ** Decisions *)

Section Decide.
Context (io : AdapterIo).

Definition managed_shell_command (self : PinnedRtkAdapter) (original : CanonicalCommand) (rewritten : rstr)
  : result AdapterError (CanonicalCommand * ForkAccountingHandle) :=
  let shell := execution_shell original in
  runtime ← ok_or (runtime_paths (config self)) MissingForkRuntimePaths;
  _ ← require_binary_directory (binary (config self));
  accounting ← new_accounting_context io runtime;
  exports ← shell_exports io runtime (Some (binary (config self))) accounting;
  command ← map_model (with_shell shell (exports ++ rewritten));
  Ok (command, accounting).

Definition proxied_words (original : CanonicalCommand) : result rstr (list rstr) :=
  match original with
  | Argv program args => Ok (program :: args)
  | Shell shell command => ok_or (shell_proxy_words shell command) command
  end.

Definition managed_proxy_command (self : PinnedRtkAdapter) (original : CanonicalCommand)
  : result AdapterError (CanonicalCommand * ForkAccountingHandle) :=
  runtime ← ok_or (runtime_paths (config self)) MissingForkRuntimePaths;
  _ ← require_binary_directory (binary (config self));
  let invocation :=
    match proxied_words original with
    | Ok words => render_argv (binary (config self) :: lit "proxy" :: words)
    | Err verbatim => verbatim
    end in
  accounting ← new_accounting_context io runtime;
  exports ← shell_exports io runtime None accounting;
  command ← map_model (with_shell (execution_shell original) (exports ++ invocation));
  Ok (command, accounting).

(** [rewritten] is what [from_utf8] makes of the bytes. *)
Definition rewritten_decision (self : PinnedRtkAdapter) (original : CanonicalCommand) (rewritten : option rstr)
    (approval_required : bool) : RewriteDecision * option rstr :=
  match rewritten with
  | None => (Deny (lit "fork-core rewrite was not valid UTF-8"), None)
  | Some [] => (Deny (lit "fork-core returned an empty rewrite"), None)
  | Some rewritten =>
      match managed_shell_command self original rewritten with
      | Err e => (Deny (lit "fork-core rewrite could not be anchored: " ++ display e), None)
      | Ok (command, accounting) =>
          if approval_required
          then (Ask (Some command) (lit "fork-core permission policy requires approval"), Some (correlation_id accounting))
          else (AllowRewrite command (Rtk PINNED_RTK_VERSION Optimized)
                  (lit "fork-core approved and produced the managed command"), Some (correlation_id accounting))
      end
  end.

Definition proxy_decision (self : PinnedRtkAdapter) (original : CanonicalCommand) : RewriteDecision * option rstr :=
  match managed_proxy_command self original with
  | Err e => (Deny (lit "fork-core proxy could not be anchored: " ++ display e), None)
  | Ok (command, accounting) =>
      (AllowRewrite command (Rtk PINNED_RTK_VERSION Proxy) (lit "fork-core selected tracked raw proxy execution"),
       Some (correlation_id accounting))
  end.

Inductive PlannerRunError := Spawn (source : rstr) | Wait (source : rstr) | Timeout (ms : N).

Definition display_planner (e : PlannerRunError) : rstr :=
  match e with
  | Spawn e => lit "could not start: " ++ e
  | Wait e => lit "could not collect planner output: " ++ e
  | Timeout ms => lit "timed out after " ++ dec ms ++ lit " ms"
  end.

(** The engine's [rewrite-plan], run with the text of a command and with or without
    [BYTE_FIDELITY_ENV], and [serde_json]'s reading of a plan. *)
Context (rewrite_plan : rstr -> bool -> result PlannerRunError Output) (plan_of_json : rstr -> result rstr RewritePlan).

(** The plan of the engine as a decision. *)
Definition plan_decision (self : PinnedRtkAdapter) (command : CanonicalCommand) (plan : RewritePlan)
  : RewriteDecision * option rstr :=
  match Contract.decision plan, proposed plan with
  | RewritePlanDecision.Rewrite, Some proposed => rewritten_decision self command (Some proposed) false
  | RewritePlanDecision.Rewrite, None => (Deny (lit "fork-core rewrite plan omitted its proposed command"), None)
  | RewritePlanDecision.Proxy, None => proxy_decision self command
  | RewritePlanDecision.Proxy, Some _ => (Deny (lit "fork-core proxy plan unexpectedly included a command"), None)
  | RewritePlanDecision.Ask, prescribed =>
      let managed := p ← prescribed; match managed_shell_command self command p with Ok m => Some m | Err _ => None end in
      (Ask (fst <$> managed) (policy_reason (lit "ask") (Contract.reason plan) (Contract.attribution plan) prescribed),
       (fun m => correlation_id m.2) <$> managed)
  | RewritePlanDecision.Deny, _ =>
      (Deny (policy_reason (lit "deny") (Contract.reason plan) (Contract.attribution plan) None), None)
  end.

Definition deny (reason : rstr) : RtkRewriteOutcome := outcome_without_evasion (Deny reason).

Definition decide_in_mode (self : PinnedRtkAdapter) (command : CanonicalCommand) (byte_fidelity : bool) : RtkRewriteOutcome :=
  match rewrite (capabilities self) with
  | Unavailable reason => deny (lit "managed fork-core unavailable: " ++ reason)
  | ForkCli =>
      if negb (proxy (capabilities self)) then deny (lit "managed fork-core proxy capability is unavailable")
      else
        match runtime_paths (config self) with
        | None => deny (lit "managed fork-core runtime paths are unavailable")
        | Some paths =>
            match ensure_layout io paths with
            | Err e => deny (lit "managed fork-core runtime is unavailable: " ++ display e)
            | Ok _ =>
                match (_ ← new_accounting_context io paths; require_binary_directory (binary (config self))) with
                | Err e => deny (lit "managed fork-core environment is unavailable: " ++ display e)
                | Ok _ =>
                    match rewrite_plan (render_command command) byte_fidelity with
                    | Err (Spawn e) =>
                        outcome_without_evasion
                          (AllowRaw (lit "managed fork-core " ++ binary (config self) ++ lit " could not start: " ++ e
                                     ++ lit "; tracked raw fallback, no savings credit"))
                    | Err e =>
                        outcome_without_evasion
                          (Ask None (lit "managed fork-core " ++ binary (config self) ++ lit " rewrite infrastructure failure: "
                                     ++ display_planner e ++ lit "; policy could not be evaluated"))
                    | Ok output =>
                        if negb (success output)
                        then deny (lit "managed fork-core rewrite plan exited with " ++ status output)
                        else
                          match plan_of_json (stdout output) with
                          | Err e => deny (lit "managed fork-core rewrite plan was invalid JSON: " ++ e)
                          | Ok plan =>
                              if negb (plan_is_consistent plan)
                              then deny (lit "managed fork-core rewrite plan had inconsistent policy metadata")
                              else
                                let (decision, correlation) := plan_decision self command plan in
                                {| decision := decision; evasion := Contract.attribution plan;
                                   accounting_correlation_id := correlation; host_permission := Contract.host_permission plan |}
                          end
                    end
                end
            end
        end
  end.

End Decide.

(** ** The shim leaves the caller's path *)

Definition entries (path : rstr) : list rstr := split_char (N.eqb (ch ":")) path.
Definition unentries (l : list rstr) : rstr := join (COLON) l.
Definition others (shim : rstr) (l : list rstr) : list rstr := List.filter (fun e => negb (str_eqb e shim)) l.

Lemma join_split c s : join [c] (split_char (N.eqb c) s) = s.
Proof.
  induction s as [|d s IH]; [auto|]. simpl. destruct (N.eqb_spec c d) as [->|Hne].
  - destruct (split_char (N.eqb d) s) as [|w ws] eqn:E; [destruct (split_char_nonempty _ _ E)|]. simpl in *. rewrite IH. auto.
  - destruct (split_char (N.eqb c) s) as [|w ws] eqn:E; [destruct (split_char_nonempty _ _ E)|].
    destruct ws as [|v ws]; simpl in *; rewrite IH; auto.
Qed.

Lemma entries_app a b : entries (a ++ COLON ++ b) = entries a ++ entries b.
Proof. apply (split_char_app (N.eqb (ch ":"))). reflexivity. Qed.

Lemma others_app shim a b : others shim (a ++ b) = others shim a ++ others shim b.
Proof. apply List.filter_app. Qed.

Section Shim.
Context (shim : rstr) (Hne : shim <> []) (Hcolon : contains_char (ch ":") shim = false).

Lemma entries_shim : entries shim = [shim].
Proof. apply split_char_none. auto. Qed.

Lemma others_shim : others shim [shim] = [].
Proof. unfold others, str_eqb. simpl. rewrite bool_decide_true by auto. auto. Qed.

(** A turn takes entries that are the shim's directory, and makes the path shorter. *)
Lemma shim_step_entries path path' :
  shim_step shim path = Some path' ->
  (length path' < length path)%nat /\ unentries (others shim (entries path')) = unentries (others shim (entries path)).
Proof.
  unfold shim_step. destruct (str_eqb path shim) eqn:E.
  { intros [= <-]. unfold str_eqb in E. apply bool_decide_eq_true in E as ->. split.
    - destruct shim; [congruence|simpl; lia].
    - rewrite entries_shim, others_shim. unfold others, str_eqb. simpl. rewrite bool_decide_false by auto. auto. }
  destruct (strip_prefix _ path) as [rest|] eqn:Hp.
  { intros [= <-]. apply strip_prefix_Some in Hp as ->. rewrite <- app_assoc, entries_app, others_app, entries_shim, others_shim.
    split; [rewrite !length_app; simpl; lia|auto]. }
  destruct (strip_suffix _ path) as [rest|] eqn:Hs.
  { intros [= <-]. apply strip_suffix_Some in Hs as ->. rewrite entries_app, others_app, entries_shim, others_shim, app_nil_r.
    split; [rewrite !length_app; simpl; lia|auto]. }
  destruct (split_once _ path) as [[before after]|] eqn:Ho; [|discriminate]. intros [= <-].
  apply split_once_Some in Ho as ->. change (before ++ 58 :: after) with (before ++ COLON ++ after).
  rewrite <- !app_assoc, !entries_app, !others_app, entries_shim, others_shim.
  split; [rewrite !length_app; simpl; destruct shim; [congruence|simpl; lia]|auto].
Qed.

Lemma shim_step_none path : shim_step shim path = None -> others shim (entries path) = entries path.
Proof.
  intros H. apply List.forallb_filter_id, forallb_forall. intros e Hin. apply negb_true_iff. unfold str_eqb.
  apply bool_decide_eq_false. intros ->. apply list_elem_of_In, list_elem_of_split in Hin as (l1 & l2 & Hl).
  assert (Hpath : path = unentries (l1 ++ shim :: l2)) by (rewrite <- Hl; symmetry; apply join_split).
  unfold shim_step in H. destruct (str_eqb path shim) eqn:E; [discriminate|].
  destruct (strip_prefix _ path) as [r|] eqn:Hp; [discriminate|]. destruct (strip_suffix _ path) as [r|] eqn:Hs; [discriminate|].
  destruct (split_once _ path) as [[a b]|] eqn:Ho; [discriminate|].
  assert (Hjoin : forall l x, l <> [] -> unentries (l ++ [x]) = unentries l ++ COLON ++ x).
  { intros l x. induction l as [|y l IH]; [congruence|]. intros _. destruct l as [|z l]; [reflexivity|].
    change (unentries ((y :: z :: l) ++ [x])) with (y ++ COLON ++ unentries ((z :: l) ++ [x])).
    rewrite IH by discriminate. unfold unentries. cbn [join]. rewrite <- !app_assoc. auto. }
  assert (Hcons : forall x l, l <> [] -> unentries (x :: l) = x ++ COLON ++ unentries l) by (intros x [|y l]; [congruence|auto]).
  assert (Happ : forall l l', l <> [] -> l' <> [] -> unentries (l ++ l') = unentries l ++ COLON ++ unentries l').
  { intros l l'. induction l as [|y l IH]; [congruence|]. intros _ Hl'. destruct l as [|z l]; [apply Hcons; auto|].
    change ((y :: z :: l) ++ l') with (y :: ((z :: l) ++ l')). rewrite (Hcons y ((z :: l) ++ l')) by discriminate.
    rewrite IH, (Hcons y (z :: l)), <- !app_assoc by (auto; discriminate). auto. }
  destruct l1 as [|x l1], l2 as [|y l2].
  - subst path. unfold str_eqb in E. apply bool_decide_eq_false in E. apply E. reflexivity.
  - assert (Hx : strip_prefix (shim ++ COLON) path = Some (unentries (y :: l2))).
    { apply strip_prefix_Some. rewrite Hpath. simpl app. rewrite Hcons, <- app_assoc by discriminate. auto. }
    congruence.
  - assert (Hx : strip_suffix (COLON ++ shim) path = Some (unentries (x :: l1))).
    { apply strip_suffix_Some. rewrite Hpath. rewrite Happ by discriminate. auto. }
    congruence.
  - destruct (split_once_complete (COLON ++ shim ++ COLON) (unentries (x :: l1)) (unentries (y :: l2))) as [s Hs'].
    rewrite Hpath, (Happ (x :: l1) (shim :: y :: l2)), (Hcons shim (y :: l2)) in Ho by discriminate.
    rewrite <- !app_assoc in Hs'. congruence.
Qed.

Lemma shim_loop_filters fuel path :
  (length path < fuel)%nat -> shim_loop fuel shim path = unentries (others shim (entries path)).
Proof.
  revert path. induction fuel as [|fuel IH]; intros path Hlen; [lia|]. simpl.
  destruct (shim_step shim path) as [path'|] eqn:E.
  - apply shim_step_entries in E as [Hl He]. rewrite IH by lia. auto.
  - apply shim_step_none in E. rewrite E. symmetry. apply join_split.
Qed.

End Shim.

(** Behind the shim, the engine and what it runs see the path of the caller: the
    loop ends, every entry of the shim's own directory is gone, and the others are
    there in their order; a caller whose path does not name that directory has its
    path back unchanged. *)
Theorem shim_restores_the_callers_path io self shim path :
  ensure_rtk_shim io self = Ok shim -> shim <> [] ->
  path_behind_shim shim (path_with_shim shim path) = unentries (others shim (entries path))
  /\ (shim ∉ entries path -> path_behind_shim shim (path_with_shim shim path) = path).
Proof.
  intros Hshim Hne.
  assert (Hc : contains_char (ch ":") shim = false).
  { unfold ensure_rtk_shim in Hshim. destruct (rtk_shim_directory self) as [d|e]; [|discriminate]. simpl in Hshim.
    unfold guard_err in Hshim. destruct (contains_char (ch ":") d) eqn:E; [discriminate|]. simpl in Hshim.
    destruct (shim_write io); [discriminate|]. injection Hshim as <-. exact E. }
  assert (H : path_behind_shim shim (path_with_shim shim path) = unentries (others shim (entries path))).
  { unfold path_behind_shim. rewrite (shim_loop_filters shim Hne Hc) by lia. unfold path_with_shim. destruct path as [|c path].
    - simpl is_empty. cbv iota. rewrite (entries_shim shim Hc), (others_shim shim). unfold others, str_eqb. simpl.
      rewrite bool_decide_false by auto. auto.
    - simpl is_empty. cbv iota. rewrite entries_app, others_app, (entries_shim shim Hc), (others_shim shim). auto. }
  split; [exact H|]. intros Hin. rewrite H. replace (others shim (entries path)) with (entries path); [apply join_split|].
  symmetry. apply List.forallb_filter_id, forallb_forall. intros e He. apply negb_true_iff. unfold str_eqb.
  apply bool_decide_eq_false. intros ->. apply Hin, list_elem_of_In. auto.
Qed.

(** ** What a decision rests on *)

(** The binary is the pinned engine: its name, its version, and the identity that this
    program was built with. *)
Definition pinned (io : ProbeIo) (binary : rstr) : Prop :=
  file_name binary = Some (lit "rtk")
  /\ (exists o, run_probe io binary (words_of "--version") = Ok o /\ success o = true
                 /\ parse_version (stdout o) = Some PINNED_RTK_VERSION)
  /\ (exists o identity, run_probe io binary (words_of "contract --json") = Ok o /\ success o = true
        /\ identity_of io (stdout o) = Ok identity /\ expected_identity io = Ok identity).

Lemma guard_ok {E} bad (e : E) u : guard_err bad e = Ok u -> bad = false.
Proof. unfold guard_err. destruct bad; [discriminate|auto]. Qed.

Lemma probed_ok io b detected args failed name o :
  probed io b detected args failed name = Ok o -> run_probe io b args = Ok o /\ success o = true.
Proof. unfold probed. destruct (run_probe io b args) as [o'|]; [|discriminate]. destruct (success o') eqn:E; intros [= <-]; auto. Qed.

Lemma probe_refuses io cfg c : probe_steps io cfg = Err c -> exists reason, rewrite c = Unavailable reason.
Proof.
  assert (Hp : forall b d args f n e, probed io b d args f n = Err e -> exists reason, rewrite e = Unavailable reason).
  { intros b d args f n e. unfold probed. repeat case_match; intros [= <-]; simpl; eauto. }
  unfold probe_steps, refuse_unless, guard_err. destruct (runtime_paths cfg); [|intros [= <-]; simpl; eauto].
  destruct (ensure_layout _ _); [simpl|intros [= <-]; simpl; eauto].
  destruct (resolve _ _) as [b|]; [simpl|intros [= <-]; simpl; eauto].
  repeat match goal with
  | |- context [ if ?x then _ else _ ] => destruct x; simpl; [try (intros [= <-]; simpl; eauto; fail)|try (intros [= <-]; simpl; eauto; fail)]
  | |- context [ probed ?a ?b ?c ?d ?e ?f ] => destruct (probed a b c d e f) as [?|?] eqn:?; simpl; [|intros [= <-]; eapply Hp; eauto]
  | |- context [ match expected_identity io with _ => _ end ] => destruct (expected_identity io); simpl; [|intros [= <-]; simpl; eauto]
  | |- context [ match identity_of io ?x with _ => _ end ] => destruct (identity_of io x); simpl; [|intros [= <-]; simpl; eauto]
  end.
  all: discriminate.
Qed.

Lemma probe_pinned io cfg : rewrite (probe io cfg) = ForkCli -> pinned io (cap_binary (probe io cfg)).
Proof.
  unfold probe. destruct (probe_steps io cfg) as [c|c] eqn:E.
  2: { apply probe_refuses in E as [reason ->]. discriminate. }
  intros _. unfold probe_steps in E. destruct (runtime_paths cfg); [|discriminate].
  destruct (ensure_layout _ _); [simpl in E|discriminate]. destruct (resolve _ _) as [b|]; [simpl in E|discriminate].
  unfold refuse_unless in E.
  repeat match type of E with
  | context [ guard_err ?x ?y ] => destruct (guard_err x y) eqn:?; simpl in E; [|discriminate]
  | context [ probed ?a ?b ?c ?d ?e ?f ] => destruct (probed a b c d e f) eqn:?; simpl in E; [|discriminate]
  | context [ match expected_identity io with _ => _ end ] => destruct (expected_identity io) eqn:?; simpl in E; [|discriminate]
  | context [ match identity_of io ?x with _ => _ end ] => destruct (identity_of io x) eqn:?; simpl in E; [|discriminate]
  end.
  injection E as <-. simpl. unfold pinned.
  repeat match goal with
  | H : guard_err _ _ = Ok _ |- _ => apply guard_ok, negb_false_iff in H
  | H : probed _ _ _ _ _ _ = Ok _ |- _ => apply probed_ok in H as [? ?]
  | H : bool_decide _ = true |- _ => apply bool_decide_eq_true in H
  end. subst. eauto 12.
Qed.

(** What the script of a command behind the proxy runs: the engine with the words of the
    command, or the command as it was written. *)
Definition tracked (binary : rstr) (original : CanonicalCommand) (invocation : rstr) : Prop :=
  match original with
  | Argv program args => parse_simple_shell invocation = Ok (binary :: lit "proxy" :: program :: args)
  | Shell shell command =>
      match shell_proxy_words shell command with
      | Some words => parse_simple_shell invocation = Ok (binary :: lit "proxy" :: words) /\ parse_simple_shell command = Ok words
      | None => invocation = command
      end
  end.

(** The exports in front of a command, and its correlation. *)
Definition exports_for (io : AdapterIo) (self : PinnedRtkAdapter) (shim : option rstr) (exports id : rstr) : Prop :=
  exists paths accounting, runtime_paths (config self) = Some paths /\ new_accounting_context io paths = Ok accounting
    /\ shell_exports io paths shim accounting = Ok exports /\ correlation_id accounting = id.

Definition managed (io : AdapterIo) (self : PinnedRtkAdapter) (original : CanonicalCommand) (rewritten : rstr)
    (command : CanonicalCommand) (id : rstr) : Prop :=
  exists exports, exports_for io self (Some (binary (config self))) exports id
    /\ command = Shell (execution_shell original) (exports ++ rewritten).

Lemma bind_ok {E A B} (m : result E A) (k : A -> result E B) b :
  (x ← m; k x) = Ok b -> exists a, m = Ok a /\ k a = Ok b.
Proof. destruct m; simpl; [eauto|discriminate]. Qed.

Lemma ok_or_ok {E A} (o : option A) (e : E) a : ok_or o e = Ok a -> o = Some a.
Proof. destruct o; simpl; congruence. Qed.

Lemma with_shell_ok shell script c : map_model (with_shell shell script) = Ok c -> c = Shell shell script.
Proof. unfold map_model, with_shell. destruct (is_empty shell); [discriminate|]. intros [= <-]. auto. Qed.

Lemma managed_shell_ok io self original rewritten command accounting :
  managed_shell_command io self original rewritten = Ok (command, accounting) ->
  managed io self original rewritten command (correlation_id accounting).
Proof.
  unfold managed_shell_command. intros (paths & Hp%ok_or_ok & H)%bind_ok. apply bind_ok in H as (d & _ & H).
  apply bind_ok in H as (acc & Hacc & H). apply bind_ok in H as (exports & He & H). apply bind_ok in H as (c & Hc & H).
  injection H as <- <-. apply with_shell_ok in Hc. exists exports. split; auto. exists paths, acc. auto.
Qed.

Lemma managed_proxy_ok io self original command accounting :
  managed_proxy_command io self original = Ok (command, accounting) ->
  exists exports invocation, exports_for io self None exports (correlation_id accounting)
    /\ command = Shell (execution_shell original) (exports ++ invocation)
    /\ tracked (binary (config self)) original invocation.
Proof.
  unfold managed_proxy_command. intros (paths & Hp%ok_or_ok & H)%bind_ok. apply bind_ok in H as (d & _ & H).
  apply bind_ok in H as (acc & Hacc & H). apply bind_ok in H as (exports & He & H). apply bind_ok in H as (c & Hc & H).
  injection H as <- <-. apply with_shell_ok in Hc. eexists exports, _. split; [exists paths, acc; auto|]. split; [exact Hc|].
  unfold proxied_words, tracked. destruct original as [program args|shell command]; simpl.
  - apply (parse_complete (render_argv _)), rendered_words.
  - destruct (shell_proxy_words shell command) as [ws|] eqn:Hw; simpl; auto. split.
    + apply (parse_complete (render_argv _)), rendered_words.
    + apply proxy_words_spec in Hw as [Hr _]. apply parse_complete, Hr.
Qed.

(** What each decision says of the engine's answer. *)
Definition rests_on (io : AdapterIo) (rewrite_plan : rstr -> bool -> result PlannerRunError Output)
    (plan_of_json : rstr -> result rstr RewritePlan) (self : PinnedRtkAdapter) (original : CanonicalCommand)
    (byte_fidelity : bool) (out : RtkRewriteOutcome) : Prop :=
  let answer := rewrite_plan (render_command original) byte_fidelity in
  let planned plan := exists o, answer = Ok o /\ success o = true /\ plan_of_json (stdout o) = Ok plan
                        /\ plan_is_consistent plan = true /\ evasion out = Contract.attribution plan
                        /\ host_permission out = Contract.host_permission plan in
  match decision out with
  | AllowRaw _ => exists e, answer = Err (Spawn e)
  | AllowRewrite command (Rtk version Optimized) _ =>
      exists plan rewritten id, planned plan /\ Contract.decision plan = RewritePlanDecision.Rewrite /\ proposed plan = Some rewritten
        /\ version = PINNED_RTK_VERSION /\ managed io self original rewritten command id /\ accounting_correlation_id out = Some id
  | AllowRewrite command (Rtk version Proxy) _ =>
      exists plan exports invocation id, planned plan /\ Contract.decision plan = RewritePlanDecision.Proxy
        /\ version = PINNED_RTK_VERSION /\ exports_for io self None exports id
        /\ command = Shell (execution_shell original) (exports ++ invocation)
        /\ tracked (binary (config self)) original invocation /\ accounting_correlation_id out = Some id
  | AllowRewrite _ HzrPolicy _ => False
  | Ask None _ => (exists e, answer = Err e /\ forall s, e <> Spawn s)
                  \/ exists plan, planned plan /\ Contract.decision plan = RewritePlanDecision.Ask
  | Ask (Some command) _ =>
      exists plan rewritten id, planned plan /\ Contract.decision plan = RewritePlanDecision.Ask /\ proposed plan = Some rewritten
        /\ managed io self original rewritten command id /\ accounting_correlation_id out = Some id
  | Deny _ => True
  end.

Lemma plan_decision_rests io rewrite_plan plan_of_json self original fid o plan :
  rewrite_plan (render_command original) fid = Ok o -> success o = true -> plan_of_json (stdout o) = Ok plan ->
  plan_is_consistent plan = true ->
  rests_on io rewrite_plan plan_of_json self original fid
    (let (decision, correlation) := plan_decision io self original plan in
     {| decision := decision; evasion := Contract.attribution plan; accounting_correlation_id := correlation;
        host_permission := Contract.host_permission plan |}).
Proof.
  intros Ha Hs Hj Hc. unfold plan_decision. destruct (Contract.decision plan) eqn:Hd; destruct (proposed plan) as [p|] eqn:Hp;
    try exact I.
  - unfold rewritten_decision. destruct p as [|c p]; [exact I|].
    destruct (managed_shell_command io self original (c :: p)) as [[command accounting]|e] eqn:Hm; [|exact I].
    apply managed_shell_ok in Hm. exists plan, (c :: p), (correlation_id accounting). split_and!; auto. exists o. auto 8.
  - unfold proxy_decision. destruct (managed_proxy_command io self original) as [[command accounting]|e] eqn:Hm; [|exact I].
    apply managed_proxy_ok in Hm as (exports & invocation & He & Hcmd & Ht).
    exists plan, exports, invocation, (correlation_id accounting). split_and!; auto. exists o. auto 8.
  - simpl. destruct (managed_shell_command io self original p) as [[command accounting]|e] eqn:Hm.
    + apply managed_shell_ok in Hm. exists plan, p, (correlation_id accounting). split_and!; auto. exists o. auto 8.
    + right. exists plan. split; auto. exists o. auto 8.
  - right. exists plan. split; auto. exists o. auto 8.
Qed.

(** C19: a decision that does not deny was taken with the pinned engine, whose name,
    version and identity were checked, and rests on what came of asking it: a rewrite or a proxied
    command on a consistent plan that says so, with the proposed text, or the words of
    the command, behind the exports; an approval on a plan that asks or an engine that
    did not answer; and raw execution only on an engine that could not be started.
    Everything else is denied. *)
Theorem decisions_rest_on_the_pinned_engine pio cfg io rewrite_plan plan_of_json command byte_fidelity :
  let self := detect pio cfg in
  let out := decide_in_mode io rewrite_plan plan_of_json self command byte_fidelity in
  (exists reason, decision out = Deny reason)
  \/ pinned pio (binary (config self)) /\ rests_on io rewrite_plan plan_of_json self command byte_fidelity out.
Proof.
  intros self out. unfold out, decide_in_mode, deny, outcome_without_evasion.
  destruct (rewrite (capabilities self)) as [|reason] eqn:Hr; [|left; simpl; eauto].
  assert (Hpin : pinned pio (binary (config self))) by (apply (probe_pinned pio cfg), Hr).
  destruct (proxy _); [|left; simpl; eauto]. destruct (runtime_paths _) as [paths|]; [|left; simpl; eauto].
  simpl negb. cbv iota. destruct (ensure_layout _ _); [|left; simpl; eauto].
  destruct (new_accounting_context _ _ ≫= _); [|left; simpl; eauto].
  destruct (rewrite_plan _ _) as [o|[e|e|ms]] eqn:Ha.
  - destruct (success o) eqn:Hs; [|left; simpl; eauto]. simpl negb. cbv iota.
    destruct (plan_of_json _) as [plan|] eqn:Hj; [|left; simpl; eauto].
    destruct (plan_is_consistent plan) eqn:Hc; [|left; simpl; eauto]. simpl negb. cbv iota.
    right. split; auto. eapply plan_decision_rests; eauto.
  - right. split; auto. unfold rests_on. simpl. eauto.
  - right. split; auto. unfold rests_on. simpl. left. exists (Wait e). split; [auto|discriminate].
  - right. split; auto. unfold rests_on. simpl. left. exists (Timeout ms). split; [auto|discriminate].
Qed.

(** ** Examples *)

Module Sample.

Definition io : AdapterIo := {| create := fun _ => None; shim_write := None; uuid := lit "0123456789abcdef0123456789abcdef" |}.
Definition paths : ForkRuntimePaths := from_data_root (lit "/d").

(** The exports of a run, read by the shell's grammar: each value is what it was. *)
Example exports_carry_their_values :
  forallb (fun kv => match parse_simple_shell (kv.1 ++ lit "=" ++ shell_quote kv.2) with
                     | Ok [word] => str_eqb word (kv.1 ++ lit "=" ++ kv.2)
                     | _ => false
                     end)
    (exported paths {| correlation_id := uuid io; receipt_journal := lit "/it's/r"; failure_journal := lit "/a b/f" |}) = true.
Proof. vm_compute. reflexivity. Qed.

Lemma shim_restores_the_callers_path_witness :
  path_behind_shim (lit "/d/fork/shim") (path_with_shim (lit "/d/fork/shim") (lit "/usr/bin:/bin")) = lit "/usr/bin:/bin".
Proof.
  apply (shim_restores_the_callers_path io paths (lit "/d/fork/shim") (lit "/usr/bin:/bin")).
  - reflexivity.
  - discriminate.
  - refine (bool_decide_eq_true_1 (lit "/d/fork/shim" ∉ entries (lit "/usr/bin:/bin")) _). vm_compute. reflexivity.
Defined.

End Sample.

End Adapter.
