(* ===== verification/Grants.v ===== *)
(** The host's answer as every process below an approved command sees it
    ([crates/hzr-protocol/src/api.rs], [crates/hzr-core/src/host_grant.rs] and the
    part of [crates/hzr-cli/src/hook_runner.rs] that mints a grant): the modes of
    the host, the grant with its session and its age, where a filter may be placed,
    and the statements that carry session and grant into the approved command.

    An environment is a function from names; the clock, the JSON text of a grant and
    the digest of a session are arguments.  The hook's input is the JSON value that
    the host sends. *)

From S2P Require Import Prelude RStr Contract Exec Json ShellWords.
From Stdlib Require Import ZifyBool ZifyN ZifyNat.

Module Grants.
Import Exec ShellWords.

(** ** The modes of the host *)

Definition ascii_lower (c : char) : char := if is_ascii_uppercase c then c + 32 else c.
Definition eq_ignore_ascii_case (a b : rstr) : bool := str_eqb (map ascii_lower a) (map ascii_lower b).

Inductive HostPermissionMode := Default | AcceptEdits | Plan | BypassPermissions.

Definition mode_str (self : HostPermissionMode) : rstr :=
  match self with
  | Default => lit "default"
  | AcceptEdits => lit "acceptEdits"
  | Plan => lit "plan"
  | BypassPermissions => lit "bypassPermissions"
  end.

Definition parse_mode (value : rstr) : option HostPermissionMode :=
  let value := trim value in
  List.find (fun candidate => eq_ignore_ascii_case value (mode_str candidate)) [Default; AcceptEdits; Plan; BypassPermissions].

Definition grants_execution (self : HostPermissionMode) : bool :=
  match self with BypassPermissions => true | _ => false end.

(** ** Where a filter may be placed *)

Inductive FilterPlacement := Anywhere | TurnBoundary.
Inductive PrefixEffect := Append | HistoryMutation.

#[global] Instance placement_dec : EqDecision FilterPlacement.
Proof. solve_decision. Defined.

Definition effect_str (self : PrefixEffect) : rstr :=
  match self with Append => lit "append" | HistoryMutation => lit "history_mutation" end.

Definition placement_str (self : FilterPlacement) : rstr :=
  match self with Anywhere => lit "anywhere" | TurnBoundary => lit "turn_boundary" end.

Definition parse_placement (value : rstr) : option FilterPlacement :=
  let value := trim value in
  List.find (fun candidate => eq_ignore_ascii_case value (placement_str candidate)) [Anywhere; TurnBoundary].

Definition permits (self : FilterPlacement) (effect : PrefixEffect) (at_turn_boundary : bool) : bool :=
  match self, effect with
  | Anywhere, _ | TurnBoundary, Append => true
  | TurnBoundary, HistoryMutation => at_turn_boundary
  end.

(** ** The grant *)

Definition HOST_EXECUTION_GRANT_ENV : rstr := lit "HZR_HOST_EXECUTION_GRANT".
Definition HOST_GRANT_APPLIED_ENV : rstr := lit "HZR_INTERNAL_HOST_GRANT_APPLIED".
Definition HOST_EXECUTION_GRANT_MAX_AGE_MS : N := 12 * 60 * 60 * 1000.
Definition HOST_EXECUTION_GRANT_MAX_FUTURE_SKEW_MS : N := 5 * 60 * 1000.

Record HostExecutionGrant := {
  mode : HostPermissionMode;
  granted_for_session : rstr;
  granted_at_ms : N;
  source : rstr;
}.

Inductive HostGrantRejection := ModeDoesNotGrantExecution | SessionMismatch | Expired | FutureTimestamp.

Definition rejection_str (self : HostGrantRejection) : rstr :=
  match self with
  | ModeDoesNotGrantExecution => lit "mode_does_not_grant_execution"
  | SessionMismatch => lit "session_mismatch"
  | Expired => lit "expired"
  | FutureTimestamp => lit "future_timestamp"
  end.

Definition authorize (self : HostExecutionGrant) (session_digest : option rstr) (now_ms : N) : result HostGrantRejection unit :=
  if negb (grants_execution (mode self)) then Err ModeDoesNotGrantExecution
  else if negb (bool_decide (session_digest = Some (granted_for_session self))) then Err SessionMismatch
  else if sat_add u64_max now_ms HOST_EXECUTION_GRANT_MAX_FUTURE_SKEW_MS <? granted_at_ms self then Err FutureTimestamp
  else if HOST_EXECUTION_GRANT_MAX_AGE_MS <? sat_sub now_ms (granted_at_ms self) then Err Expired
  else Ok tt.

(** ** The reader of the environment *)

Definition SESSION_ENV_KEYS : list rstr :=
  [lit "HZR_SESSION_ID"; lit "CODEX_THREAD_ID"; lit "CLAUDE_SESSION_ID"; lit "CURSOR_TRACE_ID"].
Definition MAX_SESSION_ID_CHARS : nat := 128.

Definition normalize_session_id (value : rstr) : option rstr :=
  let value := trim value in
  if is_empty value then None else Some (take MAX_SESSION_ID_CHARS value).

Fixpoint find_map {A B} (f : A -> option B) (l : list A) : option B :=
  match l with [] => None | a :: l => match f a with Some b => Some b | None => find_map f l end end.

Section Grant.
Context {Num : Type}.
Abbreviation value := (Json.Value Num).
(** [privacy_identity_hash], and [serde_json] on a grant, which cannot fail to write. *)
Context (identity_hash : rstr -> rstr -> rstr) (to_json : HostExecutionGrant -> rstr)
        (from_json : rstr -> option HostExecutionGrant).

Definition ambient_session_id (env : rstr -> option rstr) : option rstr :=
  find_map (fun name => env name ≫= normalize_session_id) SESSION_ENV_KEYS.

Definition inspect_ambient_host_grant (env : rstr -> option rstr) (now_ms : N) : option (result HostGrantRejection HostExecutionGrant) :=
  encoded ← trim <$> env HOST_EXECUTION_GRANT_ENV;
  if is_empty encoded then None
  else match from_json encoded with
       | None => Some (Err SessionMismatch)
       | Some grant =>
           let session_digest := identity_hash (lit "session") <$> ambient_session_id env in
           Some (match authorize grant session_digest now_ms with Ok _ => Ok grant | Err e => Err e end)
       end.

Definition ambient_host_grants_execution (env : rstr -> option rstr) (now_ms : N) : bool :=
  match inspect_ambient_host_grant env now_ms with Some (Ok _) => true | _ => false end.

(** ** The hook's side *)

(** [input.get(key).and_then(Value::as_str)]. *)
Definition field (input : value) (key : rstr) : option value := Json.as_object input ≫= fun m => Json.get m key.
Definition as_str (v : value) : option rstr := match v with Json.String s => Some s | _ => None end.
Definition str_field (input : value) (key : rstr) : option rstr := field input key ≫= as_str.

Definition permission_mode (input : value) : option rstr :=
  find_map (str_field input) [lit "permission_mode"; lit "permissionMode"].

Definition host_grants_execution (input : value) : bool :=
  match permission_mode input with Some mode => eq_ignore_ascii_case mode (lit "bypassPermissions") | None => false end.

(** The session as it is exported: trimmed, and none if nothing is left. *)
Definition hook_session (input : value) : option rstr :=
  session ← trim <$> str_field input (lit "session_id");
  if is_empty session then None else Some session.

Definition granted (mode : HostPermissionMode) (session : rstr) (now_ms : N) : HostExecutionGrant :=
  {| mode := mode; granted_for_session := identity_hash (lit "session") session; granted_at_ms := now_ms;
     source := lit "claude_code_pre_tool_use" |}.

Definition host_grant_from_input (input : value) (now_ms : N) : option HostExecutionGrant :=
  if negb (host_grants_execution input) then None
  else
    mode ← permission_mode input ≫= parse_mode;
    session ← hook_session input;
    Some (granted mode session now_ms).

Definition QUOTE_ESCAPED : rstr := [39; 92; 39; 39].
Definition hook_quote (value : rstr) : rstr := [39] ++ replace [39] QUOTE_ESCAPED value ++ [39].

Definition hook_render (command : CanonicalCommand) : rstr :=
  match command with
  | Shell _ command => command
  | Argv program args => join (lit " ") (map hook_quote (program :: args))
  end.

Definition already_exported (variable : rstr) : rstr := lit "export " ++ variable ++ lit "=".

Definition exported_hook_command (variable value command : rstr) : rstr :=
  already_exported variable ++ hook_quote value ++ lit ";" ++ [10] ++ command.

Definition attach_session_attribution (input : value) (decision : RewriteDecision) : RewriteDecision :=
  match hook_session input, decision with
  | Some session, AllowRewrite command source reason =>
      let rendered := hook_render command in
      if contains (already_exported (lit "HZR_SESSION_ID")) rendered then decision
      else AllowRewrite (shell (exported_hook_command (lit "HZR_SESSION_ID") session rendered)) source reason
  | _, _ => decision
  end.

Definition attach_host_grant (input : value) (now_ms : N) (decision : RewriteDecision) : RewriteDecision :=
  if negb (host_grants_execution input) then decision
  else
    match permission_mode input ≫= parse_mode, hook_session input, decision with
    | Some mode, Some session, AllowRewrite command source reason =>
        let applied := host_grant_applied decision in
        let rendered := hook_render command in
        if contains (already_exported HOST_EXECUTION_GRANT_ENV) rendered then decision
        else
          let encoded := to_json (granted mode session now_ms) in
          let command := exported_hook_command HOST_EXECUTION_GRANT_ENV encoded rendered in
          let command := if applied then exported_hook_command HOST_GRANT_APPLIED_ENV (lit "1") command else command in
          AllowRewrite (shell command) source reason
    | _, _, _ => decision
    end.

(** ** What the statements mean *)

(** [export NAME=word;] statements in front of a text, by the grammar of words of
    [ShellWords], and the environment behind them. *)
Inductive exports : rstr -> list (rstr * rstr) -> rstr -> Prop :=
| exports_end body : exports body [] body
| exports_cons name text value rest es body : word text value -> exports rest es body ->
    exports (already_exported name ++ text ++ lit ";" ++ [10] ++ rest) ((name, value) :: es) body.

Definition behind (env : rstr -> option rstr) (es : list (rstr * rstr)) : rstr -> option rstr :=
  foldl (fun env kv name => if str_eqb name kv.1 then Some kv.2 else env name) env es.

End Grant.

(** ** Quoting *)

Lemma hook_quote_pieces fuel w : (length w < fuel)%nat ->
  word ([39] ++ replace_fuel fuel [39] QUOTE_ESCAPED w ++ [39]) w.
Proof.
  revert w. induction fuel as [|fuel IH]; intros w Hlen; [lia|]. cbn [replace_fuel].
  destruct (split_once [39] w) as [[a b]|] eqn:Hs.
  - apply split_once_first_char in Hs as [-> Ha]. rewrite length_app in Hlen. simpl in Hlen.
    replace ([39] ++ (a ++ QUOTE_ESCAPED ++ replace_fuel fuel [39] QUOTE_ESCAPED b) ++ [39])
      with ((QUOTE :: a ++ [QUOTE]) ++ [BACKSLASH; QUOTE] ++ ([39] ++ replace_fuel fuel [39] QUOTE_ESCAPED b ++ [39]))
      by (unfold QUOTE_ESCAPED; simpl; rewrite <- !app_assoc; auto).
    apply (word_more _ _ a); [apply p_single; auto|]. apply (word_more _ _ [QUOTE]); [apply p_escape; discriminate|]. apply IH. lia.
  - apply word_one, (p_single _ w), split_once_none_char. auto.
Qed.

Lemma hook_quote_word w : word (hook_quote w) w.
Proof. apply (hook_quote_pieces (S (length w)) w). lia. Qed.

Lemma exported_exports name value command es body : exports command es body ->
  exports (exported_hook_command name value command) ((name, value) :: es) body.
Proof. intros H. apply exports_cons; auto. apply hook_quote_word. Qed.

(** ** Modes *)

Lemma lower_whitespace c : is_whitespace c = true -> ascii_lower c = c.
Proof.
  unfold ascii_lower, is_whitespace, is_ascii_uppercase, between. intros H.
  destruct ((65 <=? c) && (c <=? 90)) eqn:E; [lia|auto].
Qed.

Lemma lower_all_dark m : forallb (fun c => negb (is_whitespace c)) (map ascii_lower m) = true ->
  forallb (fun c => negb (is_whitespace c)) m = true.
Proof.
  rewrite !forallb_forall. intros H c Hc. apply negb_true_iff. destruct (is_whitespace c) eqn:E; [|auto].
  assert (Hl : In c (map ascii_lower m)) by (apply in_map_iff; exists c; auto using lower_whitespace).
  specialize (H c Hl). rewrite E in H. discriminate.
Qed.

Lemma dark_skip s : forallb (fun c => negb (is_whitespace c)) s = true -> skip_while is_whitespace s = s.
Proof. destruct s as [|c s]; [auto|]. simpl. intros [->%negb_true_iff _]%andb_true_iff. auto. Qed.

Lemma dark_trim s : forallb (fun c => negb (is_whitespace c)) s = true -> trim s = s.
Proof.
  intros H. unfold trim, trim_start, trim_end, trim_end_matches. rewrite (dark_skip s) by auto. rewrite dark_skip.
  - apply reverse_involutive.
  - apply forallb_forall. intros c. rewrite <- list_elem_of_In, elem_of_reverse, list_elem_of_In. revert c. apply forallb_forall, H.
Qed.

Lemma bypass_parses m : eq_ignore_ascii_case m (lit "bypassPermissions") = true -> parse_mode m = Some BypassPermissions.
Proof.
  unfold eq_ignore_ascii_case, str_eqb. intros H%bool_decide_eq_true_1. unfold parse_mode. rewrite dark_trim.
  - unfold List.find, eq_ignore_ascii_case, str_eqb. rewrite H. reflexivity.
  - apply lower_all_dark. rewrite H. reflexivity.
Qed.

(** ** Properties *)

Section Minted.
Context {Num : Type} (identity_hash : rstr -> rstr -> rstr) (to_json : HostExecutionGrant -> rstr)
        (from_json : rstr -> option HostExecutionGrant).
Implicit Types input : Json.Value Num.

Lemma hook_session_trimmed input session : hook_session input = Some session -> trim session = session /\ session <> [].
Proof.
  unfold hook_session. destruct (str_field input (lit "session_id")) as [s|]; [|discriminate]. cbn.
  destruct (is_empty (trim s)) eqn:E; [discriminate|]. intros [= <-]. split; [apply trim_trim|]. intros H. rewrite H in E. discriminate.
Qed.

Lemma normalized_hook_session input session : hook_session input = Some session ->
  normalize_session_id session = Some (take MAX_SESSION_ID_CHARS session).
Proof.
  intros [Ht Hne]%hook_session_trimmed. unfold normalize_session_id. rewrite Ht. destruct session; [congruence|]. reflexivity.
Qed.

Lemma mode_of_grant input : host_grants_execution input = true -> permission_mode input ≫= parse_mode = Some BypassPermissions.
Proof. unfold host_grants_execution. destruct (permission_mode input) as [m|]; [|discriminate]. apply bypass_parses. Qed.

Lemma authorize_ok g digest now : authorize g digest now = Ok tt <->
  mode g = BypassPermissions /\ digest = Some (granted_for_session g)
  /\ granted_at_ms g <= sat_add u64_max now HOST_EXECUTION_GRANT_MAX_FUTURE_SKEW_MS
  /\ sat_sub now (granted_at_ms g) <= HOST_EXECUTION_GRANT_MAX_AGE_MS.
Proof.
  unfold authorize. destruct (mode g); cbn [grants_execution negb]; try (split; [discriminate|intros [H _]; discriminate]).
  case_bool_decide as Hd; cbn [negb]; [|split; [discriminate|tauto]].
  destruct (N.ltb_spec (sat_add u64_max now HOST_EXECUTION_GRANT_MAX_FUTURE_SKEW_MS) (granted_at_ms g));
    [split; [discriminate|lia]|].
  destruct (N.ltb_spec HOST_EXECUTION_GRANT_MAX_AGE_MS (sat_sub now (granted_at_ms g))); split; try discriminate; auto; lia.
Qed.

(** What the reader makes of a grant that it can read. *)
Lemma inspected env now g : from_json [] = None -> from_json (trim (to_json g)) = Some g ->
  env HOST_EXECUTION_GRANT_ENV = Some (to_json g) ->
  inspect_ambient_host_grant identity_hash from_json env now
  = Some (match authorize g (identity_hash (lit "session") <$> ambient_session_id env) now with Ok _ => Ok g | Err e => Err e end).
Proof.
  intros He Hj Hg. unfold inspect_ambient_host_grant. rewrite Hg. cbn. destruct (is_empty (trim (to_json g))) eqn:E.
  - destruct (trim (to_json g)); [rewrite He in Hj; discriminate|discriminate].
  - rewrite Hj. reflexivity.
Qed.

Lemma attached_statements input now_ms session command source reason :
  host_grants_execution input = true -> hook_session input = Some session ->
  let rendered := hook_render command in
  contains (already_exported (lit "HZR_SESSION_ID")) rendered = false ->
  contains (already_exported HOST_EXECUTION_GRANT_ENV) (exported_hook_command (lit "HZR_SESSION_ID") session rendered) = false ->
  exists text es,
    attach_host_grant identity_hash to_json input now_ms (attach_session_attribution input (AllowRewrite command source reason))
    = AllowRewrite (shell text) source reason
    /\ exports text es rendered
    /\ forall env, behind env es HOST_EXECUTION_GRANT_ENV = Some (to_json (granted identity_hash BypassPermissions session now_ms))
                  /\ behind env es (lit "HZR_SESSION_ID") = Some session.
Proof.
  intros Hg Hs rendered H1 H2. unfold attach_session_attribution. rewrite Hs. fold rendered. rewrite H1. cbv zeta.
  unfold attach_host_grant. rewrite Hg, Hs, (mode_of_grant input Hg). cbn [negb]. cbv iota zeta.
  cbn [shell hook_render]. rewrite H2.
  set (enc := to_json _). set (sess := exported_hook_command (lit "HZR_SESSION_ID") session rendered).
  assert (Hx : exports (exported_hook_command HOST_EXECUTION_GRANT_ENV enc sess)
                 [(HOST_EXECUTION_GRANT_ENV, enc); (lit "HZR_SESSION_ID", session)] rendered)
    by (do 2 apply exported_exports; constructor).
  destruct (host_grant_applied _).
  - eexists _, _. split; [reflexivity|]. split; [apply exported_exports, Hx|]. intros env. split; reflexivity.
  - eexists _, _. split; [reflexivity|]. split; [exact Hx|]. intros env. split; reflexivity.
Qed.


End Minted.

Module Sample.

Definition input : Json.Value N :=
  Json.Object [(lit "session_id", Json.String (lit " s1 ")); (lit "permissionMode", Json.String (lit "BYPASSpermissions"))].
Definition id_hash (domain value : rstr) : rstr := domain ++ lit ":" ++ value.
Definition text_of (g : HostExecutionGrant) : rstr := lit "{it's a grant}".
Definition grant_of (t : rstr) : option HostExecutionGrant :=
  if is_empty t then None else Some (granted id_hash BypassPermissions (lit "s1") 1000).


(** The reader cuts the name of a session at 128 characters, the hook does not: the
    grant of a session with a longer name is refused in that session. *)
Example long_sessions_are_refused :
  let session := repeat 97 129 in
  inspect_ambient_host_grant id_hash (fun _ => Some (granted id_hash BypassPermissions session 1000))
    (fun name => if str_eqb name (lit "HZR_SESSION_ID") then Some session
                 else if str_eqb name HOST_EXECUTION_GRANT_ENV then Some (lit "{}") else None) 1000
  = Some (Err SessionMismatch).
Proof. vm_compute. reflexivity. Qed.

End Sample.

End Grants.
