(* ===== verification/HookSession.v ===== *)
(** The counters that the host's hooks keep of a session, and what is said from them
    ([crates/hzr-cli/src/hook_runner.rs]): the file of a session and its updates under
    a lock, the intervals in which the ledger did not record, the report of the gaps,
    the status line, the nudge at a prompt, and where the workspace of a hook is.

    The file of a session is what [serde_json] reads from it; an update that fails
    leaves it as it was.  Times are seconds of the clock. *)

From S2P Require Import Prelude RStr Contract Exec Json Coverage Paths Grants.
From Stdlib Require Import ZifyBool ZifyN ZifyNat.

Module HookSession.
Import Grants.

Definition SESSION_CORRECTION_NUDGE : N := 3.

Record SessionFeedback := {
  operations : N;
  corrections : N;
  native_denials : N;
  nudged : bool;
  host_grant_seen : bool;
  accounting_degraded : bool;
  accounting_was_degraded : bool;
  session_started_at_unix : option N;
  accounting_degraded_started_at_unix : option N;
  accounting_degraded_seconds : N;
  accounting_degraded_operations : N;
  operations_this_turn : N;
  placement_deferred_operations : N;
  placement_append_filtered_operations : N;
  observed_model_id : option rstr;
}.

Definition default_feedback : SessionFeedback :=
  {| operations := 0; corrections := 0; native_denials := 0; nudged := false; host_grant_seen := false;
     accounting_degraded := false; accounting_was_degraded := false; session_started_at_unix := None;
     accounting_degraded_started_at_unix := None; accounting_degraded_seconds := 0; accounting_degraded_operations := 0;
     operations_this_turn := 0; placement_deferred_operations := 0; placement_append_filtered_operations := 0;
     observed_model_id := None |}.

(** ** The updates of the hooks, field by field *)

Definition with_counts (f : N -> N -> N * N) (seen : bool) (s : SessionFeedback) : SessionFeedback :=
  let '(all, turn) := f (operations s) (operations_this_turn s) in
  {| operations := all; corrections := corrections s; native_denials := native_denials s; nudged := nudged s;
     host_grant_seen := host_grant_seen s || seen; accounting_degraded := accounting_degraded s;
     accounting_was_degraded := accounting_was_degraded s; session_started_at_unix := session_started_at_unix s;
     accounting_degraded_started_at_unix := accounting_degraded_started_at_unix s;
     accounting_degraded_seconds := accounting_degraded_seconds s;
     accounting_degraded_operations := accounting_degraded_operations s; operations_this_turn := turn;
     placement_deferred_operations := placement_deferred_operations s;
     placement_append_filtered_operations := placement_append_filtered_operations s; observed_model_id := observed_model_id s |}.

(** [dispatch] counts a tool call, a prompt begins a turn. *)
Definition count_operation (granted : bool) : SessionFeedback -> SessionFeedback :=
  with_counts (fun all turn => (sat_add u64_max all 1, sat_add u64_max turn 1)) granted.
Definition begin_turn : SessionFeedback -> SessionFeedback := with_counts (fun all _ => (all, 0)) false.

Definition with_policy (corrected deferred appended : N) (nudge : bool) (model : option rstr) (s : SessionFeedback) : SessionFeedback :=
  {| operations := operations s; corrections := corrected; native_denials := native_denials s; nudged := nudge;
     host_grant_seen := host_grant_seen s; accounting_degraded := accounting_degraded s;
     accounting_was_degraded := accounting_was_degraded s; session_started_at_unix := session_started_at_unix s;
     accounting_degraded_started_at_unix := accounting_degraded_started_at_unix s;
     accounting_degraded_seconds := accounting_degraded_seconds s;
     accounting_degraded_operations := accounting_degraded_operations s; operations_this_turn := operations_this_turn s;
     placement_deferred_operations := deferred; placement_append_filtered_operations := appended; observed_model_id := model |}.

Definition correct (s : SessionFeedback) : SessionFeedback :=
  with_policy (sat_add u64_max (corrections s) 1) (placement_deferred_operations s) (placement_append_filtered_operations s)
    (nudged s) (observed_model_id s) s.
Definition defer_placement (s : SessionFeedback) : SessionFeedback :=
  with_policy (corrections s) (placement_deferred_operations s + 1) (placement_append_filtered_operations s) (nudged s)
    (observed_model_id s) s.
Definition keep_append (s : SessionFeedback) : SessionFeedback :=
  with_policy (corrections s) (placement_deferred_operations s) (placement_append_filtered_operations s + 1) (nudged s)
    (observed_model_id s) s.
Definition nudge (s : SessionFeedback) : SessionFeedback :=
  with_policy (corrections s) (placement_deferred_operations s) (placement_append_filtered_operations s) true (observed_model_id s) s.
Definition observe_model (model : rstr) (s : SessionFeedback) : SessionFeedback :=
  with_policy (corrections s) (placement_deferred_operations s) (placement_append_filtered_operations s) (nudged s) (Some model) s.

Definition with_accounting (degraded was : bool) (started degraded_since : option N) (seconds ops : N) (s : SessionFeedback)
  : SessionFeedback :=
  {| operations := operations s; corrections := corrections s; native_denials := native_denials s; nudged := nudged s;
     host_grant_seen := host_grant_seen s; accounting_degraded := degraded; accounting_was_degraded := was;
     session_started_at_unix := started; accounting_degraded_started_at_unix := degraded_since;
     accounting_degraded_seconds := seconds; accounting_degraded_operations := ops;
     operations_this_turn := operations_this_turn s; placement_deferred_operations := placement_deferred_operations s;
     placement_append_filtered_operations := placement_append_filtered_operations s; observed_model_id := observed_model_id s |}.

(** [session_started_at_unix.get_or_insert(now)]. *)
Definition begin_session (now : N) (s : SessionFeedback) : SessionFeedback :=
  with_accounting (accounting_degraded s) (accounting_was_degraded s) (Some (default now (session_started_at_unix s)))
    (accounting_degraded_started_at_unix s) (accounting_degraded_seconds s) (accounting_degraded_operations s) s.

(** The closure of [accounting_transition_at]. *)
Definition transition (degraded : bool) (now : N) (s : SessionFeedback) : SessionFeedback :=
  let changed := negb (Bool.eqb (accounting_degraded s) degraded) in
  let ops := if degraded then sat_add u64_max (accounting_degraded_operations s) 1 else accounting_degraded_operations s in
  let since := if changed then if degraded then Some now else None else accounting_degraded_started_at_unix s in
  let seconds :=
    match accounting_degraded_started_at_unix s with
    | Some started =>
        if changed && negb degraded
        then sat_add u64_max (accounting_degraded_seconds s) (sat_sub now started) else accounting_degraded_seconds s
    | None => accounting_degraded_seconds s
    end in
  with_accounting degraded (accounting_was_degraded s || degraded) (session_started_at_unix s) since seconds ops s.

(** ** The file of a session *)

Inductive Stored := Missing | Damaged | Holds (state : SessionFeedback).

(** What becomes of a write: [Unacknowledged] when only releasing the lock fails. *)
Inductive Writing := Acknowledged | Refused | Unacknowledged.

(** [named] if the input has a session and a workspace. *)
Record SessionFile := { named : bool; stored : Stored; writing : Writing }.

Definition holding (file : SessionFile) (s : SessionFeedback) : SessionFile :=
  {| named := named file; stored := Holds s; writing := writing file |}.

Definition loaded (file : SessionFile) : option SessionFeedback :=
  match stored file with Missing => Some default_feedback | Damaged => None | Holds s => Some s end.

Definition update_session_at (now_unix : N) (update : SessionFeedback -> SessionFeedback) (file : SessionFile)
  : option SessionFeedback * SessionFile :=
  if negb (named file) then (None, file)
  else match loaded file with
       | None => (None, file)
       | Some state =>
           let state := update (begin_session now_unix state) in
           match writing file with
           | Acknowledged => (Some state, holding file state)
           | Unacknowledged => (None, holding file state)
           | Refused => (None, file)
           end
       end.

Definition read_session (file : SessionFile) : option SessionFeedback :=
  if named file then match stored file with Holds s => Some s | _ => None end else None.

Definition degraded_notice : rstr :=
  lit "HZR ACCOUNTING DEGRADED: the ledger is no longer recording this session's operations; coverage is unknown. Check `hzr daemon service status`.".
Definition recovered_notice : rstr :=
  lit "HZR ACCOUNTING RECOVERED: managed rewrites are recording again. This session's earlier degraded interval remains partial evidence.".

(** The notice of a transition, and the file behind it. *)
Definition accounting_transition_at (degraded : bool) (now_unix : N) (file : SessionFile) : option rstr * SessionFile :=
  let (answer, file') := update_session_at now_unix (transition degraded now_unix) file in
  (match answer, loaded file with
   | Some _, Some before =>
       if Bool.eqb (accounting_degraded before) degraded then None
       else Some (if degraded then degraded_notice else recovered_notice)
   | _, _ => None
   end, file').

Definition session_degraded_seconds (state : SessionFeedback) (now_unix : N) : N :=
  sat_add u64_max (accounting_degraded_seconds state)
    (match accounting_degraded_started_at_unix state with Some started => sat_sub now_unix started | None => 0 end).

Definition session_degraded_percent (state : SessionFeedback) (now_unix : N) : N :=
  let elapsed := match session_started_at_unix state with Some started => sat_sub now_unix started | None => 0 end in
  if elapsed =? 0 then 0
  else N.min (N.min (session_degraded_seconds state now_unix * 100) u64_max / elapsed) 100.

(** ** The status line *)

Definition accounting_statusline (state : option SessionFeedback) : rstr :=
  match state with
  | Some state =>
      if accounting_degraded state then lit "ACCOUNTING: DEGRADED"
      else if accounting_was_degraded state then lit "ACCOUNTING: RECOVERED (SESSION PARTIAL)"
      else lit "ACCOUNTING: COMPLETE"
  | None => lit "ACCOUNTING: UNKNOWN"
  end.

Section Input.
Context {Num : Type}.
Abbreviation value := (Json.Value Num).

(** ** Who asks, and where *)

Definition agent_identity (input : value) : rstr :=
  let supplied := map ascii_lower
    (default (lit "claude-code") (find_map (str_field input) [lit "agent_type"; lit "agent"; lit "host"])) in
  if contains (lit "codex") supplied then lit "codex"
  else if contains (lit "cursor") supplied then lit "cursor"
  else lit "claude-code".

Definition tool_field (input : value) (key : rstr) : option rstr := field input (lit "tool_input") ≫= fun t => str_field t key.

Definition agent_id (input : value) : option rstr :=
  match find_map (str_field input) [lit "agent_id"; lit "subagent_id"] with
  | Some id => Some id
  | None => tool_field input (lit "agent_id")
  end.

Definition agent_attribution (input : value) : rstr :=
  let host := agent_identity input in
  match trim <$> agent_id input with
  | Some identity => if is_empty identity then host else host ++ lit ":" ++ identity
  | None => host
  end.

(** The registry of workspaces: a root with the identities that [allows] is asked about. *)
Record Registration := { root : rstr; allowed : bool }.
Inductive ActivationMode := All | Selected.

(** [Path::starts_with], and [max_by_key] of the number of components: the last of the greatest. *)
Definition under (path root : rstr) : bool :=
  match Paths.strip_components (Paths.components root) (Paths.components path) with Some _ => true | None => false end.
Definition component_count (r : Registration) : N := N.of_nat (length (Paths.components (root r))).
Definition deeper (best : option Registration) (r : Registration) : option Registration :=
  match best with
  | Some b => if component_count r <? component_count b then best else Some r
  | None => Some r
  end.
Definition deepest (path : rstr) (registrations : list Registration) : option Registration :=
  fold_left deeper (List.filter (fun r => under path (root r)) registrations) None.

(** [canonical] is [fs::canonicalize]. *)
Definition hook_workspace_root (mode : ActivationMode) (canonical : rstr -> option rstr) (registrations : list Registration)
    (input : value) : option rstr :=
  requested ← str_field input (lit "cwd");
  requested ← match canonical requested with
              | Some path => Some path
              | None => match mode with
                        | All => if Paths.is_absolute requested then Some requested else None
                        | Selected => None
                        end
              end;
  let registration := deepest requested registrations in
  match mode with
  | All => Some (default requested (root <$> registration))
  | Selected => r ← registration; if allowed r then Some (root r) else None
  end.

(** The name of the file of a session: what is digested, if there is a session. *)
Definition session_state_key (identity_hash : rstr -> rstr -> rstr) (workspace : option rstr) (input : value) : option rstr :=
  session ← trim <$> str_field input (lit "session_id");
  if is_empty session then None
  else
    let subagent := default (lit "root") (agent_id input) in
    w ← workspace;
    Some (lit "hook-session" ++ [0] ++ session ++ [0] ++ agent_identity input ++ [0] ++ subagent ++ [0]
          ++ identity_hash (lit "workspace") w).

End Input.

(** The last line of the status: [coverage] is the snapshot of the session's gaps, [None]
    where the store does not validate. *)
Definition statusline (coverage : option (option Coverage.AccountingCoverageSnapshot)) (file : SessionFile) : rstr :=
  match coverage with
  | None => lit "ACCOUNTING: UNKNOWN"
  | Some (Some c) =>
      if negb (Coverage.live_complete c) then lit "ACCOUNTING: DEGRADED"
      else if negb (Coverage.historical_complete c) then lit "ACCOUNTING: RECOVERED (SESSION PARTIAL)"
      else accounting_statusline (read_session file)
  | Some None => accounting_statusline (read_session file)
  end.

(** [remember_observed_model]: once per change, names of 1 to 128 bytes. *)
Definition remember_observed_model (model : option rstr) (now_unix : N) (file : SessionFile) : SessionFile :=
  match model with
  | None => file
  | Some model =>
      if is_empty model || (128 <? slen model) then file
      else if match read_session file with Some s => bool_decide (observed_model_id s = Some model) | None => false end then file
      else (update_session_at now_unix (observe_model model) file).2
  end.

(** ** The report of the gaps *)

Record AccountingJournalInventory := { inv_undrained_receipts : N; oldest_modified_at_unix : option N }.

Record AccountingCoverage := {
  unreconciled_rewrites : N;
  lifetime_rewrites : N;
  daemon_unavailable_operations : N;
  complete : bool;
  live_complete : bool;
  historical_complete : bool;
  open_intervals : N;
  closed_intervals : N;
  last_degraded_at_unix : option N;
  gap_started_at_unix : option N;
  last_recovered_at_unix : option N;
  open_gap_seconds : option N;
  closed_gap_seconds : N;
  hook_missing_operations : N;
  cli_missing_operations : N;
  mcp_missing_operations : N;
  fork_producer_missing_operations : N;
  rewrite_missing_operations : N;
  legacy_missing_operations : N;
  undrained_receipts : N;
}.

Definition sum64 : N -> N -> N := sat_add u64_max.

(** The end of [degraded_rewrite_coverage_at], behind the import of the old counters. *)
Definition coverage_report (snapshot : Coverage.AccountingCoverageSnapshot) (inventory : AccountingJournalInventory) (now_unix : N)
  : AccountingCoverage :=
  let undrained := inv_undrained_receipts inventory in
  let drained := undrained =? 0 in
  let started := match Coverage.gap_started_at_unix snapshot, oldest_modified_at_unix inventory with
                 | Some a, Some b => Some (N.min a b)
                 | Some a, None => Some a
                 | None, oldest => oldest
                 end in
  {| unreconciled_rewrites := sum64 (Coverage.open_missing_operations snapshot) undrained;
     lifetime_rewrites := sum64 (Coverage.lifetime_missing_operations snapshot) undrained;
     daemon_unavailable_operations :=
       sum64 (sum64 (sum64 (Coverage.hook_missing_operations snapshot) (Coverage.cli_missing_operations snapshot))
                (Coverage.mcp_missing_operations snapshot)) (Coverage.fork_producer_missing_operations snapshot);
     complete := Coverage.live_complete snapshot && Coverage.historical_complete snapshot && drained;
     live_complete := Coverage.live_complete snapshot && drained;
     historical_complete := Coverage.historical_complete snapshot && drained;
     open_intervals := Coverage.open_intervals snapshot + (if 0 <? undrained then 1 else 0);
     closed_intervals := Coverage.closed_intervals snapshot;
     last_degraded_at_unix := Coverage.snap_last_failure_at_unix snapshot;
     gap_started_at_unix := started;
     last_recovered_at_unix := Coverage.last_recovered_at_unix snapshot;
     open_gap_seconds := (fun s => sat_sub now_unix s) <$> started;
     closed_gap_seconds := Coverage.closed_gap_seconds snapshot;
     hook_missing_operations := Coverage.hook_missing_operations snapshot;
     cli_missing_operations := Coverage.cli_missing_operations snapshot;
     mcp_missing_operations := Coverage.mcp_missing_operations snapshot;
     fork_producer_missing_operations := sum64 (Coverage.fork_producer_missing_operations snapshot) undrained;
     rewrite_missing_operations := Coverage.rewrite_missing_operations snapshot;
     legacy_missing_operations := Coverage.snap_legacy_missing_operations snapshot;
     undrained_receipts := undrained |}.

(** ** Prompts and stops *)

Inductive Shown := Nothing | Context (event text : rstr) | Scorecard (state : SessionFeedback).

(** What the ledger says of the session: the avoidable operations, and whether their
    share has reached [SESSION_AVOIDABLE_SHARE_NUDGE]. *)
Record SessionEvasion := { avoidable_operations : N; share_reached : bool }.

Definition unknown_journal : rstr :=
  lit "HZR ACCOUNTING UNKNOWN: the accounting coverage journal failed integrity validation. Run `hzr doctor` before trusting savings.".
Definition unknown_session : rstr :=
  lit "HZR ACCOUNTING UNKNOWN: session accounting state failed integrity validation and was not reset. Run `hzr doctor` before trusting savings for this session.".
Definition degraded_prompt : rstr :=
  lit "HZR ACCOUNTING DEGRADED: the ledger is not recording this session's operations, so savings and leakage for this interval are unknown rather than zero. Check `hzr daemon service status`.".
Definition nudge_text (corrections : N) : rstr :=
  lit "HZR: avoidable route share crossed the session threshold (" ++ dec corrections
  ++ lit " corrections); use the prescribed first-class route.".

Definition PROMPT : rstr := lit "UserPromptSubmit".
Definition is_stop (event : rstr) : bool := one_of event [lit "Stop"; lit "SubagentStop"].

(** The state that [feedback] works with, once the gaps of the session are compared with it. *)
Definition reconciled_state (coverage : option Coverage.AccountingCoverageSnapshot) (now_unix : N) (state : SessionFeedback)
    (file : SessionFile) : SessionFeedback * SessionFile :=
  match coverage with
  | None => (state, file)
  | Some c =>
      let degraded := negb (Coverage.live_complete c) in
      if Bool.eqb (accounting_degraded state) degraded then (state, file)
      else let file := (accounting_transition_at degraded now_unix file).2 in (default state (read_session file), file)
  end.

(** The last part of [feedback]: the nudge, or the score of the session. *)
Definition nudge_or_score (event : rstr) (now_unix : N) (crosses : bool) (state : SessionFeedback) (file : SessionFile)
  : Shown * SessionFile :=
  if str_eqb event PROMPT && crosses && negb (nudged state)
  then match update_session_at now_unix nudge file with
       | (Some _, file) => (Context PROMPT (nudge_text (corrections state)), file)
       | (None, file) => (Nothing, file)
       end
  else if is_stop event then (Scorecard state, file) else (Nothing, file).

(** [coverage] as in [statusline]; [model] is what the transcript names; [listening] asks the daemon's port. *)
Definition feedback (event : rstr) (coverage : option (option Coverage.AccountingCoverageSnapshot)) (model : option rstr)
    (summary : option SessionEvasion) (listening : bool) (now_unix : N) (file : SessionFile) : Shown * SessionFile :=
  match coverage with
  | None => (Context event unknown_journal, file)
  | Some coverage =>
      match read_session file, named file, stored file with
      | None, true, (Damaged | Holds _) => (Context event unknown_session, file)
      | read, _, _ =>
          let '(state, file) := reconciled_state coverage now_unix (default default_feedback read) file in
          let state := match model with Some m => if is_stop event then observe_model m state else state | None => state end in
          let crosses := (SESSION_CORRECTION_NUDGE <=? corrections state)
                         || match summary with Some s => (0 <? avoidable_operations s) && share_reached s | None => false end in
          if (operations state =? 0) && negb (bool_decide (is_Some summary)) then (Nothing, file)
          else
            let file := if str_eqb event PROMPT then (update_session_at now_unix begin_turn file).2 else file in
            if str_eqb event PROMPT && accounting_degraded state
            then if listening
                 then match accounting_transition_at false now_unix file with
                      | (Some notice, file) => (Context PROMPT notice, file)
                      | (None, file) => nudge_or_score event now_unix crosses state file
                      end
                 else (Context PROMPT degraded_prompt, file)
            else nudge_or_score event now_unix crosses state file
      end
  end.

(** ** What the counters mean *)

(** The updates of the hooks. *)
Inductive Update :=
| Transition (degraded : bool)
| Count (granted : bool)
| Turn
| Correct
| Defer
| KeepAppend
| Nudge
| Model (model : rstr).

Definition apply (u : Update) (now : N) : SessionFeedback -> SessionFeedback :=
  match u with
  | Transition degraded => transition degraded now
  | Count granted => count_operation granted
  | Turn => begin_turn
  | Correct => correct
  | Defer => defer_placement
  | KeepAppend => keep_append
  | Nudge => nudge
  | Model model => observe_model model
  end.

Definition change (s : SessionFeedback) (e : N * Update) : SessionFeedback := apply e.2 e.1 (begin_session e.1 s).

(** An update of the file with what becomes of its write. *)
Definition update_file (file : SessionFile) (e : Writing * (N * Update)) : SessionFile :=
  (update_session_at e.2.1 (apply e.2.2 e.2.1) {| named := named file; stored := stored file; writing := e.1 |}).2.

Definition effective (es : list (Writing * (N * Update))) : list (N * Update) :=
  map snd (List.filter (fun e => match e.1 with Refused => false | _ => true end) es).

(** The seconds during which the ledger did not record, by the transitions alone. *)
Fixpoint degraded_time (since : option N) (es : list (N * Update)) (now : N) : N :=
  match es with
  | [] => match since with Some s => now - s | None => 0 end
  | (t, Transition true) :: es => degraded_time (Some (default t since)) es now
  | (t, Transition false) :: es => match since with Some s => t - s | None => 0 end + degraded_time None es now
  | _ :: es => degraded_time since es now
  end.

Definition is_transition (degraded : bool) (e : N * Update) : bool :=
  match e.2 with Transition d => Bool.eqb d degraded | _ => false end.

Fixpoint last_transition (default : bool) (es : list (N * Update)) : bool :=
  match es with [] => default | (_, Transition d) :: es => last_transition d es | _ :: es => last_transition default es end.

Fixpoint ascending (t : N) (es : list (N * Update)) (now : N) : Prop :=
  match es with [] => t <= now | (t', _) :: es => t <= t' /\ ascending t' es now end.

Definition counted (es : list (N * Update)) : N := N.of_nat (length (List.filter (is_transition true) es)).

(** What of a state is about the ledger, and how an update changes it. *)
Definition view (s : SessionFeedback) : bool * bool * option N * N * N :=
  (accounting_degraded s, accounting_was_degraded s, accounting_degraded_started_at_unix s, accounting_degraded_seconds s,
   accounting_degraded_operations s).

Definition view_step (v : bool * bool * option N * N * N) (e : N * Update) : bool * bool * option N * N * N :=
  let '(d, was, since, seconds, ops) := v in
  match e.2 with
  | Transition true => (true, true, if d then since else Some e.1, seconds, sat_add u64_max ops 1)
  | Transition false =>
      (false, was, if d then None else since,
       match since with Some started => if d then sat_add u64_max seconds (e.1 - started) else seconds | None => seconds end, ops)
  | _ => v
  end.

Lemma view_change s e : view (change s e) = view_step (view s) e.
Proof.
  destruct e as [t u]. destruct u as [d| | | | | | |]; try reflexivity. unfold change, apply, transition, view, sat_sub. cbn.
  destruct d, (accounting_degraded s), (accounting_degraded_started_at_unix s); cbn; rewrite ?orb_true_r, ?orb_false_r; reflexivity.
Qed.

Lemma view_changes es : forall s, view (foldl change s es) = foldl view_step (view s) es.
Proof. induction es as [|e es IH]; intros s; cbn [foldl]; [reflexivity|]. rewrite IH, view_change. reflexivity. Qed.

Lemma ascending_le es : forall t now, ascending t es now -> t <= now.
Proof. induction es as [|[t' u] es IH]; cbn; [auto|]. intros t now [H1 H2]. specialize (IH _ _ H2). lia. Qed.

Lemma degraded_time_le es : forall t since now, ascending t es now -> (forall s, since = Some s -> s <= t) ->
  degraded_time since es now <= now - default t since.
Proof.
  induction es as [|[t' u] es IH]; intros t since now Ha Hs.
  - cbn in *. destruct since as [s|]; cbn; lia.
  - destruct Ha as [Ht Ha]. cbn [degraded_time].
    assert (Hother : degraded_time since es now <= now - default t since).
    { pose proof (IH t' since now Ha) as H. destruct since as [s|]; cbn in *; [apply H; intros ? [= <-]; specialize (Hs _ eq_refl); lia|].
      specialize (H ltac:(discriminate)). lia. }
    destruct u as [[|]| | | | | | |]; try exact Hother.
    + pose proof (IH t' (Some (default t' since)) now Ha) as H. cbn in H. destruct since as [s|]; cbn in *.
      * apply H. intros ? [= <-]. specialize (Hs _ eq_refl). lia.
      * etransitivity; [apply H; intros ? [= <-]; lia|lia].
    + pose proof (IH t' None now Ha ltac:(discriminate)) as H. cbn in H.
      pose proof (ascending_le es t' now Ha) as Hle.
      destruct since as [s|]; cbn in *; [specialize (Hs _ eq_refl); lia|lia].
Qed.

Lemma viewed es : forall t was since seconds ops now, ascending t es now -> now <= u64_max ->
  (forall s, since = Some s -> s <= t) -> seconds + (now - default t since) <= u64_max -> ops <= u64_max ->
  exists since' seconds',
    foldl view_step (bool_decide (is_Some since), was, since, seconds, ops) es
    = (last_transition (bool_decide (is_Some since)) es, was || existsb (is_transition true) es, since', seconds',
       N.min (ops + counted es) u64_max)
    /\ sat_add u64_max seconds' (match since' with Some s => now - s | None => 0 end) = seconds + degraded_time since es now.
Proof.
  induction es as [|[t' u] es IH]; intros t was since seconds ops now Ha Hnow Hs Hfit Hops.
  { exists since, seconds. cbn in *. unfold counted. cbn. rewrite orb_false_r. split.
    - repeat f_equal. lia.
    - unfold sat_add. destruct since; cbn in *; lia. }
  destruct Ha as [Ht Ha]. pose proof (ascending_le es t' now Ha) as Hle. cbn [foldl].
  assert (Hsame : forall u', u = u' -> (forall d, u' <> Transition d) -> exists since' seconds',
    foldl view_step (bool_decide (is_Some since), was, since, seconds, ops) es
    = (last_transition (bool_decide (is_Some since)) es, was || existsb (is_transition true) es, since', seconds',
       N.min (ops + counted es) u64_max)
    /\ sat_add u64_max seconds' (match since' with Some s => now - s | None => 0 end) = seconds + degraded_time since es now).
  { intros _ _ _. apply (IH t'); auto; [intros s E; specialize (Hs s E); lia|]. destruct since as [s|]; cbn in *;
      [|lia]. exact Hfit. }
  assert (Hc : forall d, counted ((t', Transition d) :: es) = (if d then 1 else 0) + counted es)
    by (intros [|]; unfold counted; cbn -[N.of_nat]; lia).
  destruct u as [[|]| | | | | | |]; try exact (Hsame _ eq_refl ltac:(discriminate)).
  - cbn [view_step fst snd last_transition existsb is_transition Bool.eqb degraded_time]. rewrite Hc.
    set (since' := Some (default t' since)).
    replace (if bool_decide (is_Some since) then since else Some t') with since'
      by (unfold since'; destruct since; reflexivity).
    destruct (IH t' true since' seconds (sat_add u64_max ops 1) now Ha Hnow) as (s2 & c2 & Heq & Hsum).
    + intros s [= <-]. destruct since as [s|]; cbn; [specialize (Hs s eq_refl); lia|lia].
    + unfold since'. cbn. destruct since as [s|]; cbn in *; lia.
    + unfold sat_add. lia.
    + exists s2, c2. change (bool_decide (is_Some since')) with true in Heq. rewrite Heq. split; [|exact Hsum].
      cbn [orb]. rewrite orb_true_r.
      assert (N.min (sat_add u64_max ops 1 + counted es) u64_max = N.min (ops + (1 + counted es)) u64_max) as ->
        by (unfold sat_add; lia). reflexivity.
  - cbn [view_step fst snd last_transition existsb is_transition Bool.eqb degraded_time orb]. rewrite Hc.
    set (seconds2 := match since with Some s => seconds + (t' - s) | None => seconds end).
    destruct (IH t' was None seconds2 ops now Ha Hnow) as (s2 & c2 & Heq & Hsum).
    + discriminate.
    + unfold seconds2. destruct since as [s|]; cbn in *; [specialize (Hs s eq_refl); lia|lia].
    + exact Hops.
    + exists s2, c2. change (bool_decide (is_Some (@None N))) with false in Heq.
      destruct since as [s|]; cbn [bool_decide] in *.
      * replace (sat_add u64_max seconds (t' - s)) with seconds2
          by (unfold seconds2, sat_add; cbn in *; specialize (Hs s eq_refl); lia).
        change (bool_decide (is_Some (Some s))) with true. cbv iota. rewrite Heq. split; [rewrite N.add_0_l; reflexivity|].
        rewrite Hsum. unfold seconds2. lia.
      * change (bool_decide (is_Some (@None N))) with false. cbv iota. fold seconds2. rewrite Heq. split; [rewrite N.add_0_l; reflexivity|].
        rewrite Hsum. unfold seconds2. lia.
Qed.

(** The file holds what its effective updates make of the state before. *)
Lemma update_file_named file e : named (update_file file e) = named file.
Proof.
  unfold update_file, update_session_at. cbn. destruct (named file); [|reflexivity]. cbn. unfold loaded. cbn.
  destruct (stored file); cbn; destruct (e.1); reflexivity.
Qed.

Lemma update_files es : forall file s, named file = true -> loaded file = Some s ->
  stored (foldl update_file file es)
  = match effective es with [] => stored file | _ => Holds (foldl change s (effective es)) end.
Proof.
  induction es as [|[w [t u]] es IH]; intros file s Hn Hl; [reflexivity|]. cbn [foldl].
  assert (Hstep : stored (update_file file (w, (t, u))) = match w with Refused => stored file | _ => Holds (change s (t, u)) end).
  { unfold update_file, update_session_at. cbn [fst snd named stored writing]. rewrite Hn. cbn [negb]. unfold loaded in *.
    cbn [stored]. rewrite Hl. destruct w; reflexivity. }
  pose proof (update_file_named file (w, (t, u))) as Hn'. rewrite Hn in Hn'. destruct w; unfold effective; cbn [List.filter fst map snd].
  - rewrite (IH _ (change s (t, u)) Hn') by (unfold loaded; rewrite Hstep; reflexivity). fold (effective es).
    destruct (effective es); cbn [foldl]; auto.
  - rewrite (IH _ s Hn') by (unfold loaded in *; rewrite Hstep; exact Hl). rewrite Hstep. fold (effective es). reflexivity.
  - rewrite (IH _ (change s (t, u)) Hn') by (unfold loaded; rewrite Hstep; reflexivity). fold (effective es).
    destruct (effective es); cbn [foldl]; auto.
Qed.

Lemma change_started s e : session_started_at_unix (change s e) = Some (default e.1 (session_started_at_unix s)).
Proof. destruct e as [t u]. destruct u; reflexivity. Qed.

Lemma changes_started es : forall s start, session_started_at_unix s = Some start ->
  session_started_at_unix (foldl change s es) = Some start.
Proof.
  induction es as [|e es IH]; intros s start H; cbn [foldl]; [exact H|]. apply IH. rewrite change_started, H. reflexivity.
Qed.

(** ** Properties *)


(** The status line calls the accounting of a session complete only where the store
    of the gaps validates and reports no gap, open or closed, and the session was never
    degraded; and it never calls a session recovered whose ledger does not record. *)
Theorem status_is_not_overstated coverage file :
  (statusline coverage file = lit "ACCOUNTING: COMPLETE" ->
     exists s, read_session file = Some s /\ accounting_degraded s = false /\ accounting_was_degraded s = false
       /\ forall c, coverage = Some (Some c) -> Coverage.live_complete c = true /\ Coverage.historical_complete c = true)
  /\ (statusline coverage file = lit "ACCOUNTING: RECOVERED (SESSION PARTIAL)" ->
        (forall c, coverage = Some (Some c) -> Coverage.live_complete c = true)
        /\ ((exists c, coverage = Some (Some c) /\ Coverage.historical_complete c = false)
            \/ exists s, read_session file = Some s /\ accounting_degraded s = false)).
Proof.
  unfold statusline, accounting_statusline. split.
  - destruct coverage as [[c|]|]; [| |discriminate].
    + destruct (Coverage.live_complete c) eqn:E1; [|discriminate]. destruct (Coverage.historical_complete c) eqn:E2; [|discriminate].
      cbn [negb]. destruct (read_session file) as [s|]; [|discriminate].
      destruct (accounting_degraded s) eqn:E3; [discriminate|]. destruct (accounting_was_degraded s) eqn:E4; [discriminate|].
      intros _. exists s. split_and!; auto. intros c' [= <-]. auto.
    + destruct (read_session file) as [s|]; [|discriminate].
      destruct (accounting_degraded s) eqn:E3; [discriminate|]. destruct (accounting_was_degraded s) eqn:E4; [discriminate|].
      intros _. exists s. split_and!; auto. discriminate.
  - destruct coverage as [[c|]|]; [| |discriminate].
    + destruct (Coverage.live_complete c) eqn:E1; [|discriminate]. intros H. split; [intros c' [= <-]; auto|].
      destruct (Coverage.historical_complete c) eqn:E2; [|eauto]. cbn [negb] in H. right.
      destruct (read_session file) as [s|]; [|discriminate]. exists s. split; auto. destruct (accounting_degraded s); [discriminate|auto].
    + intros H. split; [discriminate|]. right.
      destruct (read_session file) as [s|]; [|discriminate]. exists s. split; auto. destruct (accounting_degraded s); [discriminate|auto].
Qed.

Module Sample.

Definition fresh : SessionFile := {| named := true; stored := Missing; writing := Acknowledged |}.
Definition outage : list (Writing * (N * Update)) :=
  [(Acknowledged, (100, Count false)); (Acknowledged, (110, Transition true)); (Refused, (115, Transition false));
   (Acknowledged, (120, Transition true)); (Unacknowledged, (150, Transition false)); (Acknowledged, (160, Correct))].


End Sample.

End HookSession.
