(* ===== verification/Policy.v ===== *)
(** What the daemon makes of the engine's decision about a command
    ([crates/hzr-daemon/src/api.rs], [fork_outcome_with_managed_unwrap] to
    [hzr_policy_rewrite], and the same functions in
    [crates/hzr-cli/src/hook_runner.rs] for a host without its daemon): the raw wrapper
    taken off, exact output asked for, the replacement by a first-class command, and the
    host's grant.

    [decide] is the adapter ([Adapter.decide_in_mode]) for a command, with or without
    byte fidelity; [host_shell] is the shell that [CanonicalCommand::host_shell] finds. *)

From S2P Require Import Prelude RStr Contract Exec ExecOutput Operation Adapter Grants.
From Stdlib Require Import ZifyBool ZifyN ZifyNat.

Module Policy.
Import Contract Exec Adapter.

#[global] Instance command_dec : EqDecision CanonicalCommand.
Proof. solve_decision. Defined.

Definition hzr_policy_rewrite (replacement : Operation.RawReplacement) : RewriteDecision :=
  AllowRewrite (shell (Operation.suggestion replacement)) HzrPolicy
    (lit "`" ++ Operation.tool replacement ++ lit "` selected a higher-output route. " ++ Operation.rationale replacement
     ++ lit ". HZR automatically selected the lower-output first-class route.").

(** Raw execution, or the tracked proxy. *)
Definition is_raw_or_proxy (decision : RewriteDecision) : bool :=
  match decision with AllowRaw _ | AllowRewrite _ (Rtk _ Proxy) _ => true | _ => false end.

(** [enforce_first_class] of the daemon, [steer_to_first_class] of the hook. *)
Definition enforce_first_class (raw : rstr) (decision : RewriteDecision) : RewriteDecision :=
  if negb (is_raw_or_proxy decision) then decision
  else match Operation.first_class_replacement raw with
       | Some replacement => hzr_policy_rewrite replacement
       | None => decision
       end.

Definition policy_evasion_of (hatch : bool) (reason : option FidelityReason.t) (validation : FidelityValidation.t)
    (avoid : bool) (tier : EnforcementTier.t) : EvasionAttribution :=
  {| class := EvasionClass.E7FidelityHatch; wrapper_depth := 1; interpreter := None; path_form := EvasionPathForm.Bare;
     stage_count := 1; hatch_marker := hatch; avoidable := avoid; tier := tier; fidelity_reason := reason;
     fidelity_validation := validation |}.

Definition raw_policy_evasion (raw : rstr) (fidelity : Operation.RawFidelityRequest) : option EvasionAttribution :=
  match fidelity with
  | Operation.Authorized reason _ =>
      Some (policy_evasion_of true (Some (Operation.protocol_fidelity_reason reason)) FidelityValidation.Valid false
              EnforcementTier.T4HatchQuarantine)
  | Operation.MissingReason =>
      Some (policy_evasion_of true None FidelityValidation.MissingReason true EnforcementTier.T4HatchQuarantine)
  | Operation.InvalidReason =>
      Some (policy_evasion_of true None FidelityValidation.InvalidReason true EnforcementTier.T4HatchQuarantine)
  | Operation.NotRequested =>
      match Operation.managed_raw_payload raw with
      | Some _ => Some (policy_evasion_of false None FidelityValidation.NotRequested true EnforcementTier.T1NamedCorrection)
      | None => None
      end
  end.

Definition with_evasion (evasion : option EvasionAttribution) (out : RtkRewriteOutcome) : RtkRewriteOutcome :=
  {| decision := decision out; evasion := evasion; accounting_correlation_id := accounting_correlation_id out;
     host_permission := host_permission out |}.
Definition with_decision (d : RewriteDecision) (out : RtkRewriteOutcome) : RtkRewriteOutcome :=
  {| decision := d; evasion := evasion out; accounting_correlation_id := accounting_correlation_id out;
     host_permission := host_permission out |}.

Section Decide.
Context (decide : CanonicalCommand -> bool -> RtkRewriteOutcome) (host_shell : rstr).

(** The decision about [command], with exact output if it was [authorized]. *)
Definition decided (authorized : bool) (command : rstr) : RtkRewriteOutcome :=
  let outcome := decide (Shell host_shell command) authorized in
  match decision outcome with
  | AllowRewrite _ (Rtk _ Proxy) _ =>
      if authorized
      then with_decision (AllowRaw (lit "authorized raw fidelity request has no byte-faithful managed equivalent")) outcome
      else outcome
  | _ => outcome
  end.

(** [fallback_decision] of the hook: without the attribution of the policy. *)
Definition fallback_decision (raw : rstr) : RtkRewriteOutcome :=
  match Operation.raw_fidelity_request raw with
  | Operation.NotRequested => decided false (default raw (Operation.managed_raw_payload raw))
  | Operation.MissingReason =>
      outcome_without_evasion (Ask None (lit "HZR_RAW_FIDELITY=1 requires a closed HZR_RAW_FIDELITY_REASON"))
  | Operation.InvalidReason =>
      outcome_without_evasion (Ask None (lit "HZR_RAW_FIDELITY_REASON is not an allowed fidelity reason"))
  | Operation.Authorized _ payload =>
      match Operation.first_class_replacement raw with
      | Some replacement => outcome_without_evasion (hzr_policy_rewrite replacement)
      | None => decided true payload
      end
  end.

(** The attribution of an authorized request that has a first-class equivalent. *)
Definition proven_equivalent (evasion : EvasionAttribution) : EvasionAttribution :=
  {| class := class evasion; wrapper_depth := wrapper_depth evasion; interpreter := interpreter evasion;
     path_form := path_form evasion; stage_count := stage_count evasion; hatch_marker := hatch_marker evasion;
     avoidable := true; tier := tier evasion; fidelity_reason := fidelity_reason evasion;
     fidelity_validation := FidelityValidation.ProvenEquivalent |}.

Definition fork_outcome_with_managed_unwrap (raw : rstr) : RtkRewriteOutcome :=
  let fidelity := Operation.raw_fidelity_request raw in
  let policy_evasion := raw_policy_evasion raw fidelity in
  let attributed out := match policy_evasion with Some _ => with_evasion policy_evasion out | None => out end in
  match fidelity with
  | Operation.NotRequested => attributed (decided false (default raw (Operation.managed_raw_payload raw)))
  | Operation.MissingReason =>
      with_evasion policy_evasion
        (outcome_without_evasion (Ask None (lit "HZR_RAW_FIDELITY=1 requires a closed HZR_RAW_FIDELITY_REASON")))
  | Operation.InvalidReason =>
      with_evasion policy_evasion
        (outcome_without_evasion (Ask None (lit "HZR_RAW_FIDELITY_REASON is not an allowed fidelity reason")))
  | Operation.Authorized _ payload =>
      match Operation.first_class_replacement raw with
      | Some replacement =>
          with_evasion (proven_equivalent <$> policy_evasion) (outcome_without_evasion (hzr_policy_rewrite replacement))
      | None => attributed (decided true payload)
      end
  end.

End Decide.

(** ** Requests *)

(** The request of the hook and of [hzr exec run]. *)
Record ExecApiRequest := {
  channel : option AccountingChannel.t;
  cwd : rstr;
  command : rstr;
  fidelity_requested : bool;
  fidelity_reason : option rstr;
  timeout_ms : option N;
  caller_path : option rstr;
  agent : option rstr;
  session_id : option rstr;
  host_execution_grant : option Grants.HostExecutionGrant;
}.

Definition apply_host_grant (identity_hash : rstr -> rstr -> rstr) (now_ms : N) (request : ExecApiRequest) (decision : RewriteDecision)
  : RewriteDecision :=
  let granted :=
    match host_execution_grant request with
    | None => false
    | Some grant =>
        let digest := session ← trim <$> session_id request;
                      if is_empty session then None else Some (identity_hash (lit "session") session) in
        is_ok (Grants.authorize grant digest now_ms)
    end in
  reconcile_host_grant decision granted.

(** The text from which the daemon builds the classifier's command. *)
Definition classifier_command (request : ExecApiRequest) : rstr :=
  match fidelity_reason request with
  | Some reason =>
      lit "HZR_RAW_FIDELITY=1 HZR_RAW_FIDELITY_REASON=" ++ reason ++ lit " hzr rtk -- raw " ++ command request
  | None => lit "HZR_RAW_FIDELITY=1 hzr rtk -- raw " ++ command request
  end.

Section Preflight.
Context (metadata : rstr -> option N) (read_sample : rstr -> N -> option (list N)).

(** [usage] asks the ledger for what a session has left. *)
Definition daemon_fidelity_preflight (usage : rstr -> option Operation.FidelityBudget) (cwd : rstr) (request : ExecApiRequest)
  : Operation.FidelityPreflight :=
  if negb (fidelity_requested request) then Operation.PreflightNotRequested
  else
    let budget := match session_id request with
                  | Some session => if is_empty (trim session) then None else usage session
                  | None => None
                  end in
    Operation.fidelity_preflight metadata read_sample (classifier_command request) cwd budget.

Context (decide : CanonicalCommand -> bool -> RtkRewriteOutcome) (host_shell : rstr) (identity_hash : rstr -> rstr -> rstr).

(** What [exec_rewrite] answers once the request is accepted; its registration and the
    record of the event can fail the whole answer. *)
Definition rewrite_outcome (usage : rstr -> option Operation.FidelityBudget) (now_ms : N) (cwd : rstr) (request : ExecApiRequest)
  : RtkRewriteOutcome :=
  let preflight := daemon_fidelity_preflight usage cwd request in
  let outcome :=
    match preflight with
    | Operation.Ask evasion reason =>
        {| decision := Ask (Some (Shell host_shell (command request))) reason; evasion := Some evasion;
           accounting_correlation_id := None; host_permission := None |}
    | _ => fork_outcome_with_managed_unwrap decide host_shell (command request)
    end in
  let outcome := match preflight with Operation.Allow evasion _ => with_evasion (Some evasion) outcome | _ => outcome end in
  let runs d := match d with AllowRewrite command _ _ => Some command | Ask proposed _ => proposed | _ => None end in
  let final := apply_host_grant identity_hash now_ms request (enforce_first_class (command request) (decision outcome)) in
  {| decision := final; evasion := evasion outcome;
     accounting_correlation_id := (id ← accounting_correlation_id outcome;
                                   if bool_decide (runs (decision outcome) = runs final) then Some id else None);
     host_permission := host_permission outcome |}.
End Preflight.
End Policy.
