(* ===== verification/Hook.v ===== *)
(** The hook in front of the host's commands ([crates/hzr-cli/src/hook_runner.rs] and
    [host_hooks.rs]): from the input of a tool call, the daemon's decision or the
    engine's own if the daemon does not answer, the rules of the host, its mode and its
    session, to the one JSON answer, or to none, which leaves the call to the host.

    Failures of the hook print nothing.  The daemon, the ledger, the clock, the
    workspace and the JSON texts of grants and attributions are in [HookIo]; the file of
    the session is a state that the steps pass on. *)

From S2P Require Import Prelude RStr Contract Exec Json ExecOutput ShellWords Operation Adapter Grants HookSession Policy.
From Stdlib Require Import ZifyBool ZifyN ZifyNat.

Module Hook.
Import Contract Exec Adapter Grants HookSession Policy.

#[local] Arguments lit : simpl never.

Inductive HookHost := Claude | Codex.

#[global] Instance host_dec : EqDecision HookHost.
Proof. solve_decision. Defined.

Definition host_name (self : HookHost) : rstr := match self with Claude => lit "claude" | Codex => lit "codex" end.

Section Hook.
Context {Num : Type}.
Abbreviation value := (Json.Value Num).

(** ** JSON *)

(** [v[key] = x]; [None] is a panic. *)
Definition set_field (v : value) (key : rstr) (x : value) : option value :=
  match v with
  | Json.Object m => Some (Json.Object (Json.insert m key x))
  | Json.Null => Some (Json.Object [(key, x)])
  | _ => None
  end.
Definition without_key (m : list (rstr * value)) (key : rstr) : list (rstr * value) :=
  List.filter (fun kv => negb (str_eqb kv.1 key)) m.

Definition text (s : rstr) : value := Json.String s.
Definition is_string (v : option value) : bool := match v with Some (Json.String _) => true | _ => false end.
Definition is_object_field (v : option value) : bool := match v with Some v => Json.is_object v | None => false end.

Definition HOOK_OUTPUT : rstr := lit "hookSpecificOutput".
Definition TOOL_INPUT : rstr := lit "tool_input".

(** The command of the call. *)
Definition raw_command (input : value) : option rstr := field input TOOL_INPUT ≫= fun t => str_field t (lit "command").

(** ** The answer *)

Definition supports_pre_tool (host : HookHost) (input : value) : bool :=
  if negb (bool_decide (str_field input (lit "hook_event_name") = Some (lit "PreToolUse"))) then false
  else match str_field input (lit "tool_name") with
       | Some tool =>
           if str_eqb tool (lit "Bash")
           then is_object_field (field input TOOL_INPUT)
                && is_string (field input TOOL_INPUT ≫= fun t => field t (lit "command"))
           else if one_of tool [lit "Agent"; lit "Task"] && bool_decide (host = Claude)
                then is_object_field (field input TOOL_INPUT) else false
       | None => false
       end.

Definition adapt_response (host : HookHost) (input output : value) (host_granted : bool) : option value :=
  if negb (supports_pre_tool host input) then None
  else
    let finish (output : value) : option value :=
      match host, output with
      | Codex, Json.Object m => Some (Json.Object (without_key m (lit "systemMessage")))
      | Codex, _ => None
      | Claude, _ => Some output
      end in
    match field output HOOK_OUTPUT with
    | Some (Json.Object hook) =>
        let answer := Json.get hook (lit "permissionDecision") ≫= as_str in
        if bool_decide (answer = Some (lit "allow")) && negb host_granted
        then match host with
             | Claude => (fun notice => Json.Object [(lit "systemMessage", notice)]) <$> field output (lit "systemMessage")
             | Codex => None
             end
        else if bool_decide (answer = Some (lit "ask")) && bool_decide (host = Codex)
        then
          let hook := without_key (Json.insert hook (lit "permissionDecision") (text (lit "deny"))) (lit "updatedInput") in
          output ← set_field output HOOK_OUTPUT (Json.Object hook); finish output
        else finish output
    | _ => if bool_decide (host = Claude) then Some output else None
    end.

Definition updated_command (input : value) (command : CanonicalCommand) : option value :=
  tool_input ← field input TOOL_INPUT;
  set_field tool_input (lit "command") (text (hook_render command)).

Definition pre_tool_use (answer reason : rstr) (updated : option value) : value :=
  Json.Object
    [(HOOK_OUTPUT,
      Json.Object ([(lit "hookEventName", text (lit "PreToolUse")); (lit "permissionDecision", text answer);
                    (lit "permissionDecisionReason", text reason)]
                   ++ match updated with Some v => [(lit "updatedInput", v)] | None => [] end))].

(** The value that [write_decision] starts from; [None] if nothing is to be written. *)
Definition decision_value (input : value) (decision : RewriteDecision) (notice : option rstr) : option value :=
  match decision with
  | AllowRaw _ => (fun n => Json.Object [(lit "systemMessage", text n)]) <$> notice
  | AllowRewrite command _ reason => updated ← updated_command input command; Some (pre_tool_use (lit "allow") reason (Some updated))
  | Ask (Some command) reason => updated ← updated_command input command; Some (pre_tool_use (lit "ask") reason (Some updated))
  | Ask None reason => Some (pre_tool_use (lit "ask") reason None)
  | Deny reason => Some (pre_tool_use (lit "deny") reason None)
  end.

Definition hook_host (input : value) : HookHost :=
  if bool_decide (str_field input (lit "_hzr_host") = Some (lit "codex")) then Codex else Claude.

Definition write_decision (input : value) (decision : RewriteDecision) (notice : option rstr) (host_rule_allows : bool) : option value :=
  output ← decision_value input decision notice;
  output ← match notice with Some n => set_field output (lit "systemMessage") (text n) | None => Some output end;
  adapt_response (hook_host input) input output (host_grants_execution input || host_rule_allows).

(** ** The host's rules *)

Definition hook_host_is_claude (input : value) : bool := bool_decide (hook_host input = Claude).

(** What the host refuses to match by a prefix: more than one line, substitutions. *)
Definition unmatchable (raw : rstr) : bool := contains_char 10 raw || contains (lit "$(") raw || contains_char 96 raw.

Definition host_rule_allows (input : value) (raw : rstr) (host_permission : option HostPermissionVerdict.t) : bool :=
  hook_host_is_claude input && bool_decide (host_permission = Some HostPermissionVerdict.Allow) && negb (unmatchable raw).

Definition reconcile_host_permission_rules (input : value) (host_permission : option HostPermissionVerdict.t)
    (decision : RewriteDecision) : RewriteDecision :=
  if host_grants_execution input || negb (hook_host_is_claude input) then decision
  else if match raw_command input with Some raw => host_rule_allows input raw host_permission | None => false end then decision
  else match decision with
       | AllowRewrite _ _ _ =>
           AllowRaw (lit "Claude permission for the original command is not confirmed; leave its input unchanged for the host to evaluate; this run is unfiltered and earns no savings credit")
       | _ => decision
       end.

Definition keep_operator_ask_rules (input : value) (host_permission : option HostPermissionVerdict.t) (decision : RewriteDecision)
  : RewriteDecision :=
  if negb (host_grants_execution input) || negb (bool_decide (host_permission = Some HostPermissionVerdict.Ask)) then decision
  else match decision with
       | Ask _ _ | AllowRewrite _ _ _ =>
           AllowRaw (lit "an operator ask rule matches the original command; leave it unchanged for the host to apply its own rule; this run is unfiltered and earns no savings credit")
       | _ => decision
       end.

Definition honor_host_permission_mode (input : value) (decision : RewriteDecision) : RewriteDecision :=
  reconcile_host_grant decision (host_grants_execution input).

Definition deferred_reason (placement : FilterPlacement) (effect : PrefixEffect) : rstr :=
  lit "filter placement policy `" ++ placement_str placement ++ lit "` defers a `" ++ effect_str effect
  ++ lit "` transform mid-turn to keep the cached request prefix stable; this operation ran unfiltered and earns no savings credit".

Definition apply_filter_placement (placement : FilterPlacement) (effect : PrefixEffect) (now_unix : N) (decision : RewriteDecision)
    (file : SessionFile) : RewriteDecision * SessionFile :=
  if bool_decide (placement = Anywhere) then (decision, file)
  else
    let at_boundary := match read_session file with Some state => operations_this_turn state <=? 1 | None => true end in
    let rewrites := match decision with AllowRewrite _ _ _ => true | _ => false end in
    let appends := match effect with Append => true | HistoryMutation => false end in
    if permits placement effect at_boundary
    then (decision, if appends && negb at_boundary && rewrites then (update_session_at now_unix keep_append file).2 else file)
    else if rewrites
    then (AllowRaw (deferred_reason placement effect), (update_session_at now_unix defer_placement file).2)
    else (decision, file).

(** ** What the command carries *)

Definition attributed_hook_command (encoded command : rstr) : rstr := exported_hook_command INTERNAL_EVASION_ENV encoded command.

Definition attach_hook_evasion (to_json : EvasionAttribution -> rstr) (raw : rstr) (decision : RewriteDecision)
    (evasion : option EvasionAttribution) : RewriteDecision :=
  match evasion with
  | None => decision
  | Some evasion =>
      if negb (hatch_marker evasion) then decision
      else
        let encoded := to_json evasion in
        match decision with
        | AllowRaw _ =>
            AllowRewrite (shell (attributed_hook_command encoded raw)) HzrPolicy
              (lit "T4 fidelity execution carries closed typed attribution")
        | AllowRewrite command source reason =>
            AllowRewrite (shell (attributed_hook_command encoded (hook_render command))) source reason
        | _ => decision
        end
  end.

Definition feedback_suffix (corrections : N) : rstr := lit "; session avoidable-bypass count=" ++ dec corrections.

Definition attach_policy_feedback (now_unix : N) (decision : RewriteDecision) (file : SessionFile) : RewriteDecision * SessionFile :=
  let counted := feedback_suffix <$> (corrections <$> read_session file) in
  match decision with
  | AllowRewrite command HzrPolicy reason =>
      let (answer, file) := update_session_at now_unix correct file in
      (match answer with
       | Some state =>
           AllowRewrite command HzrPolicy
             (reason ++ lit " T1 named correction class=covered_route; session avoidable-bypass count=" ++ dec (corrections state)
              ++ lit ".")
       | None => decision
       end, file)
  | Ask proposed reason => (Ask proposed (reason ++ default [] counted), file)
  | Deny reason => (Deny (reason ++ default [] counted), file)
  | _ => (decision, file)
  end.

(** Whether the final decision still runs the command a correlation was made for. *)
Definition decision_carries_correlation (decision : RewriteDecision) (correlation_id : rstr) : bool :=
  match decision with
  | AllowRewrite command _ _ | Ask (Some command) _ => contains correlation_id (hook_render command)
  | _ => false
  end.

(** ** Delegated work *)

Definition MAX_BRIEF_LEADS : nat := 12.

(** [Value::as_u64] of a number. *)
Context (as_u64 : Num -> option N).

Definition u64_field (v : value) (key : rstr) : option N := field v key ≫= fun n => match n with Json.Number n => as_u64 n | _ => None end.

Definition lead_of (candidate : value) : option rstr :=
  if bool_decide (str_field candidate (lit "source") = Some (lit "memory")) then None
  else
    path ← str_field candidate (lit "path");
    let span := match u64_field candidate (lit "line_start"), u64_field candidate (lit "line_end") with
                | Some start, Some end_ => lit ":" ++ dec start ++ lit "-" ++ dec end_
                | _, _ => []
                end in
    let symbol := match str_field candidate (lit "symbol") with Some s => lit " (" ++ s ++ lit ")" | None => [] end in
    Some (lit "- " ++ path ++ span ++ symbol).

Definition context_brief (plan : value) : rstr :=
  let selected := match field plan (lit "pack") ≫= fun p => field p (lit "selected") with Some (Json.Array l) => l | _ => [] end in
  match take MAX_BRIEF_LEADS (omap lead_of selected) with
  | [] => lit "HZR planned this task and found no code leads for it. Start from the task itself; there is nothing here to confirm or rule out."
  | leads =>
      lit "HZR ranked these as the most likely relevant places for the task below. They are unverified leads, not findings: confirm each one before relying on it, and ignore any that do not fit. Read them with `hzr rtk -- read <path> --from N --to M`, and search with `hzr search " ++ [34] ++ lit "<pattern>" ++ [34] ++ lit " --mode exact` when a lead is wrong."
      ++ [10; 10] ++ join [10] leads
  end.

Definition UNIFIED_CONTEXT : rstr := lit "## HZR Unified Context".
Definition INTENT_CHARS : nat := 700.

(** The answer to a call of [Agent] or [Task]; [plan] asks the daemon for a context plan
    with the first characters of the prompt. *)
Definition task (plan : rstr -> option value) (input : value) : option value :=
  let tool_text key := field input TOOL_INPUT ≫= fun t => str_field t key in
  if eq_ignore_ascii_case (default [] (tool_text (lit "subagent_type"))) (lit "explore") then None
  else
    prompt ← tool_text (lit "prompt");
    if is_empty prompt || contains UNIFIED_CONTEXT prompt then None
    else
      response ← plan (take INTENT_CHARS prompt);
      tool_input ← field input TOOL_INPUT;
      updated ← set_field tool_input (lit "prompt")
                  (text (UNIFIED_CONTEXT ++ [10] ++ context_brief response ++ [10; 10] ++ lit "---" ++ [10; 10] ++ prompt));
      Some (pre_tool_use (lit "allow") (lit "HZR injected one bounded graph-first + ICM context plan") (Some updated)).

(** ** The hook *)

Inductive HookFidelityPreflight := NotRequested | Allowed (evasion : EvasionAttribution)
| Asked (decision : RewriteDecision) (evasion : EvasionAttribution).

Record HookIo := {
  workspace : option rstr;
  usage : rstr -> option Operation.FidelityBudget;
  metadata : rstr -> option N;
  read_sample : rstr -> N -> option (list N);
  caller_PATH : option rstr;
  daemon : ExecApiRequest -> option RtkRewriteOutcome;
  engine : CanonicalCommand -> bool -> RtkRewriteOutcome;
  context_plan : rstr -> option value;
  host_shell : rstr;
  placement : FilterPlacement;
  now_ms : N;
  now_unix : N;
  identity_hash : rstr -> rstr -> rstr;
  grant_json : HostExecutionGrant -> rstr;
  evasion_json : EvasionAttribution -> rstr;
}.

Definition hook_fidelity_preflight (io : HookIo) (input : value) (raw cwd : rstr) : HookFidelityPreflight :=
  if negb (Operation.fidelity_preflight_required raw) then NotRequested
  else
    let budget := match str_field input (lit "session_id") with
                  | Some session => if is_empty (trim session) then None else usage io session
                  | None => None
                  end in
    match Operation.fidelity_preflight (metadata io) (read_sample io) raw cwd budget with
    | Operation.PreflightNotRequested => NotRequested
    | Operation.Allow evasion _ => Allowed evasion
    | Operation.Ask evasion reason => Asked (Ask (Some (shell raw)) reason) evasion
    end.

(** [HOOK_TIMEOUT]. *)
Definition HOOK_TIMEOUT_MS : N := 2000.

Definition hook_request (io : HookIo) (input : value) (raw cwd : rstr) (fidelity : option EvasionAttribution) : ExecApiRequest :=
  {| channel := None; cwd := cwd; command := raw; fidelity_requested := bool_decide (is_Some fidelity);
     fidelity_reason := e ← fidelity; FidelityReason.as_str <$> Contract.fidelity_reason e;
     timeout_ms := Some HOOK_TIMEOUT_MS; caller_path := caller_PATH io; agent := Some (agent_attribution input);
     session_id := str_field input (lit "session_id");
     host_execution_grant := host_grant_from_input (identity_hash io) input (now_ms io) |}.

(** The decision and the notice: the daemon's, or the engine's if the daemon fails. *)
Definition consult (io : HookIo) (request : ExecApiRequest) (raw : rstr) (file : SessionFile)
  : RtkRewriteOutcome * option rstr * SessionFile :=
  match daemon io request with
  | Some outcome =>
      let (notice, file) := accounting_transition_at false (now_unix io) file in (outcome, notice, file)
  | None =>
      let (notice, file) := accounting_transition_at true (now_unix io) file in
      (fallback_decision (engine io) (host_shell io) raw, notice, file)
  end.

(** From the decision of the engine to that of the hook, without the counters. *)
Definition reconciled (io : HookIo) (input : value) (raw : rstr) (outcome : RtkRewriteOutcome) (decision : RewriteDecision) : RewriteDecision :=
  let decision := keep_operator_ask_rules input (host_permission outcome) decision in
  let decision := honor_host_permission_mode input decision in
  reconcile_host_permission_rules input (host_permission outcome) decision.

Definition carried (io : HookIo) (input : value) (decision : RewriteDecision) : RewriteDecision :=
  attach_host_grant (identity_hash io) (grant_json io) input (now_ms io) (attach_session_attribution input decision).

(** [rewrite]: what is printed, the final decision, and the correlation that is completed. *)
Record Rewritten := { printed : option value; final : option RewriteDecision; completed : option rstr; session : SessionFile }.

Definition rewrite_quietly (file : SessionFile) : Rewritten := {| printed := None; final := None; completed := None; session := file |}.

Definition rewrite (io : HookIo) (input : value) (file : SessionFile) : Rewritten :=
  match raw_command input, workspace io with
  | Some (c :: cs), Some cwd =>
      let raw := c :: cs in
      match hook_fidelity_preflight io input raw cwd with
      | Asked decision _ =>
          {| printed := write_decision input decision None false; final := Some decision; completed := None; session := file |}
      | preflight =>
          let fidelity := match preflight with Allowed e => Some e | _ => None end in
          if negb (bool_decide (is_Some fidelity)) && Operation.is_direct_hzr_command raw
          then
            let decision := AllowRaw (lit "command already enters the HZR control plane; no fork proxy is needed") in
            {| printed := write_decision input decision None false; final := Some decision; completed := None; session := file |}
          else
            let '(outcome, notice, file) := consult io (hook_request io input raw cwd fidelity) raw file in
            let decision := enforce_first_class raw (decision outcome) in
            let evasion := match fidelity with Some e => Some e | None => evasion outcome end in
            let (decision, file) := apply_filter_placement (placement io) Append (now_unix io) decision file in
            let decision := reconciled io input raw outcome decision in
            let decision := attach_hook_evasion (evasion_json io) raw decision evasion in
            let (decision, file) := attach_policy_feedback (now_unix io) decision file in
            let decision := carried io input decision in
            {| printed := write_decision input decision notice (host_rule_allows input raw (host_permission outcome));
               final := Some decision;
               completed := (id ← accounting_correlation_id outcome;
                             if decision_carries_correlation decision id then None else Some id);
               session := file |}
      end
  | _, _ => rewrite_quietly file
  end.

Definition tagged (host : HookHost) (input : value) : option value :=
  input ← set_field input (lit "_hzr_host") (text (host_name host));
  match host with Codex => set_field input (lit "agent_type") (text (lit "codex")) | Claude => Some input end.

Definition dispatch (io : HookIo) (host : HookHost) (input : value) (file : SessionFile) : Rewritten :=
  if negb (bool_decide (is_Some (workspace io))) || negb (supports_pre_tool host input)
     || bool_decide (host = Codex) && negb (host_grants_execution input)
  then rewrite_quietly file
  else match tagged host input with
       | None => rewrite_quietly file
       | Some input =>
           let file := (update_session_at (now_unix io) (count_operation (host_grants_execution input)) file).2 in
           match str_field input (lit "tool_name") with
           | Some tool =>
               if str_eqb tool (lit "Bash") then rewrite io input file
               else if one_of tool [lit "Agent"; lit "Task"]
               then {| printed := task (context_plan io) input; final := None; completed := None; session := file |}
               else rewrite_quietly file
           | None => rewrite_quietly file
           end
       end.

(** ** What an answer says *)

Definition answer (out : value) : option rstr := field out HOOK_OUTPUT ≫= fun h => str_field h (lit "permissionDecision").
Definition updated (out : value) : option value := field out HOOK_OUTPUT ≫= fun h => field h (lit "updatedInput").

Lemma field_set v key x v' k : set_field v key x = Some v' -> k <> key -> field v' k = field v k.
Proof.
  intros H Hk. destruct v; try discriminate; cbn in H; injection H as <-; unfold field; cbn.
  - unfold str_eqb. rewrite bool_decide_eq_false_2 by congruence. reflexivity.
  - apply Json.get_insert_ne, Hk.
Qed.

Lemma field_set_same v key x v' : set_field v key x = Some v' -> field v' key = Some x.
Proof.
  intros H. destruct v; try discriminate; cbn in H; injection H as <-; unfold field; cbn.
  - unfold str_eqb. rewrite bool_decide_eq_true_2 by reflexivity. reflexivity.
  - apply Json.get_insert_eq.
Qed.

Lemma get_without (m : list (rstr * value)) key k : Json.get (without_key m key) k = if str_eqb k key then None else Json.get m k.
Proof.
  induction m as [|[k' v] m IH]; [destruct (str_eqb k key); reflexivity|].
  change (without_key ((k', v) :: m) key) with (if negb (str_eqb k' key) then (k', v) :: without_key m key else without_key m key).
  unfold str_eqb in *. cbn [Json.get]. unfold str_eqb. destruct (decide (k' = key)) as [E|E].
  - rewrite (bool_decide_eq_true_2 _ E). cbn [negb]. rewrite IH. repeat case_bool_decide; congruence.
  - rewrite (bool_decide_eq_false_2 _ E). cbn [negb Json.get]. unfold str_eqb. rewrite IH. repeat case_bool_decide; congruence.
Qed.

Lemma some_eqb a b : bool_decide (Some a = Some b) = str_eqb a b.
Proof. unfold str_eqb. repeat case_bool_decide; congruence. Qed.

Lemma pre_tool_answer a r u : answer (pre_tool_use a r u) = Some a /\ updated (pre_tool_use a r u) = u.
Proof. destruct u; split; reflexivity. Qed.

(** What [write_decision] says of each decision. *)
Definition says (input : value) (decision : RewriteDecision) (rule : bool) (out : value) : Prop :=
  match decision with
  | AllowRaw _ => answer out = None
  | AllowRewrite command _ _ =>
      if host_grants_execution input || rule
      then answer out = Some (lit "allow") /\ updated out = updated_command input command else answer out = None
  | Ask proposed _ =>
      match hook_host input with
      | Claude => answer out = Some (lit "ask") /\ updated out = (command ← proposed; updated_command input command)
      | Codex => answer out = Some (lit "deny") /\ updated out = None
      end
  | Deny _ => answer out = Some (lit "deny") /\ updated out = None
  end.

Lemma noticed (v v' : value) notice : (match notice with Some n => set_field v (lit "systemMessage") (text n) | None => Some v end) = Some v' ->
  field v' HOOK_OUTPUT = field v HOOK_OUTPUT.
Proof. destruct notice as [n|]; [|intros [= <-]; reflexivity]. intros H. eapply field_set; [exact H|discriminate]. Qed.

Lemma adapted host input v out granted : adapt_response host input v granted = Some out ->
  match field v HOOK_OUTPUT with
  | Some (Json.Object hook) =>
      match Json.get hook (lit "permissionDecision") ≫= as_str with
      | Some a =>
          if str_eqb a (lit "allow") && negb granted then answer out = None
          else if str_eqb a (lit "ask") && bool_decide (host = Codex) then answer out = Some (lit "deny") /\ updated out = None
          else answer out = answer v /\ updated out = updated v
      | None => answer out = answer v
      end
  | _ => answer out = answer v
  end.
Proof.
  unfold adapt_response. destruct (supports_pre_tool host input); [|discriminate]. cbn [negb].
  assert (Hfin : forall w, (match host, w with Codex, Json.Object m => Some (Json.Object (without_key m (lit "systemMessage")))
                             | Codex, _ => None | Claude, _ => Some w end) = Some out -> field out HOOK_OUTPUT = field w HOOK_OUTPUT).
  { intros w. destruct host; [intros [= <-]; reflexivity|]. destruct w; try discriminate. intros [= <-]. unfold field. cbn.
    rewrite get_without. reflexivity. }
  destruct (field v HOOK_OUTPUT) as [hook|] eqn:Hv; [|destruct (bool_decide (host = Claude)); [intros [= <-]; reflexivity|discriminate]].
  destruct hook as [| | | | |hook]; try (destruct (bool_decide (host = Claude)); [intros [= <-]; reflexivity|discriminate]).
  destruct (Json.get hook (lit "permissionDecision") ≫= as_str) as [a|] eqn:Ha.
  - rewrite !some_eqb. destruct (str_eqb a (lit "allow")) eqn:E1.
    + apply bool_decide_eq_true_1 in E1 as ->. change (str_eqb (lit "allow") (lit "ask")) with false. destruct granted; cbn [negb andb].
      * intros H%Hfin. unfold answer, updated. rewrite H, Hv. auto.
      * destruct host; [|discriminate]. destruct (field v (lit "systemMessage")); [|discriminate]. intros [= <-]. reflexivity.
    + cbn [andb]. destruct (str_eqb a (lit "ask")) eqn:E2; [|cbn [andb]; intros H%Hfin; unfold answer, updated; rewrite H, Hv; auto].
      destruct host.
      { intros H; apply (Hfin v) in H; unfold answer, updated; rewrite H, Hv. split; reflexivity. }
      change (true && bool_decide (Codex = Codex)) with true. cbv iota.
      destruct (set_field v HOOK_OUTPUT _) as [w|] eqn:Hw; [|discriminate]. cbn [mbind option_bind]. intros H%Hfin.
      apply field_set_same in Hw. rewrite Hw in H. unfold answer, updated. rewrite H. cbn. unfold str_field, field. cbn.
      rewrite !get_without, Json.get_insert_eq. split; reflexivity.
  - rewrite !bool_decide_eq_false_2 by discriminate. cbn [andb]. intros H%Hfin. unfold answer. rewrite H, Hv. reflexivity.
Qed.

Lemma written input decision notice rule out : write_decision input decision notice rule = Some out -> says input decision rule out.
Proof.
  unfold write_decision. destruct (decision_value input decision notice) as [v|] eqn:Hd; [|discriminate]. cbn [mbind option_bind].
  destruct (match notice with Some n => set_field v (lit "systemMessage") (text n) | None => Some v end) as [w|] eqn:Hw; [|discriminate].
  cbn [mbind option_bind]. intros H%adapted. pose proof (noticed v w notice Hw) as Hf. rewrite Hf in H.
  assert (Hau : answer w = answer v /\ updated w = updated v) by (unfold answer, updated; rewrite Hf; auto).
  destruct Hau as [Hau1 Hau2]. rewrite Hau1, ?Hau2 in H. destruct decision as [r|command src r|[command|] r|r]; cbn [decision_value] in Hd.
  - destruct notice; [|discriminate]. injection Hd as <-. exact H.
  - destruct (updated_command input command) as [u|] eqn:Hu; [|discriminate]. injection Hd as <-. cbn in H. cbn [says].
    destruct (host_grants_execution input || rule); cbn in H; [|exact H]. rewrite Hu. exact H.
  - destruct (updated_command input command) as [u|] eqn:Hu; [|discriminate]. injection Hd as <-. cbn in H. cbn [says].
    destruct (hook_host input); cbn in H; [|exact H]. cbn. rewrite Hu. exact H.
  - injection Hd as <-. cbn in H. cbn [says]. destruct (hook_host input); cbn in H; exact H.
  - injection Hd as <-. cbn in H. exact H.
Qed.

(** ** The tag of the host *)

Lemma tagged_field host input input' key : tagged host input = Some input' -> key <> lit "_hzr_host" -> key <> lit "agent_type" ->
  field input' key = field input key.
Proof.
  unfold tagged. destruct (set_field input _ _) as [v|] eqn:E; [|discriminate]. cbn [mbind option_bind]. intros H H1 H2.
  rewrite <- (field_set _ _ _ _ key E H1). destruct host; [injection H as <-; reflexivity|]. eapply field_set; eauto.
Qed.

Lemma tagged_host host input input' : tagged host input = Some input' -> hook_host input' = host.
Proof.
  unfold tagged. destruct (set_field input _ _) as [v|] eqn:E; [|discriminate]. cbn [mbind option_bind]. apply field_set_same in E.
  unfold hook_host, str_field. destruct host; intros H.
  - injection H as <-. rewrite E. reflexivity.
  - rewrite (field_set _ _ _ _ (lit "_hzr_host") H) by discriminate. rewrite E. reflexivity.
Qed.

Lemma tagged_str host input input' key : tagged host input = Some input' -> key <> lit "_hzr_host" -> key <> lit "agent_type" ->
  str_field input' key = str_field input key.
Proof. intros H H1 H2. unfold str_field. rewrite (tagged_field host input input') by auto. reflexivity. Qed.

Lemma tagged_grants host input input' : tagged host input = Some input' -> host_grants_execution input' = host_grants_execution input.
Proof.
  intros H. unfold host_grants_execution, permission_mode. cbn [find_map].
  rewrite !(tagged_str host input input') by (auto; discriminate). reflexivity.
Qed.

Lemma tagged_command host input input' : tagged host input = Some input' -> raw_command input' = raw_command input.
Proof. intros H. unfold raw_command. rewrite (tagged_field host input input') by (auto; discriminate). reflexivity. Qed.

(** ** The steps on a decision *)

Definition denies (d : RewriteDecision) : Prop := exists r, d = Deny r.
Definition inert (d : RewriteDecision) : Prop := denies d \/ exists r, d = AllowRaw r.

Lemma reconciled_operator_ask io input raw outcome d :
  host_grants_execution input = true -> host_permission outcome = Some HostPermissionVerdict.Ask ->
  inert (reconciled io input raw outcome d).
Proof.
  intros Hg Hp. unfold reconciled, keep_operator_ask_rules, honor_host_permission_mode, reconcile_host_permission_rules.
  rewrite Hg, Hp. cbn. unfold inert, denies. destruct d; cbn; eauto.
Qed.

Lemma reconciled_keeps_denials io input raw outcome d : denies d -> denies (reconciled io input raw outcome d).
Proof.
  intros [r ->].
  assert (keep_operator_ask_rules input (host_permission outcome) (Deny r) = Deny r) as E1
    by (unfold keep_operator_ask_rules; destruct (negb _ || _); reflexivity).
  assert (honor_host_permission_mode input (Deny r) = Deny r) as E2
    by (unfold honor_host_permission_mode, reconcile_host_grant; destruct (negb _); reflexivity).
  exists r. unfold reconciled. rewrite E1, E2. unfold reconcile_host_permission_rules. destruct (_ || _); [reflexivity|].
  destruct (raw_command input) as [c|]; [destruct (host_rule_allows input c (host_permission outcome))|]; reflexivity.
Qed.

Lemma enforced_denials raw d : denies d -> denies (enforce_first_class raw d).
Proof. intros [r ->]. eexists. reflexivity. Qed.

Lemma placed_denials p e now d file : denies d -> denies (apply_filter_placement p e now d file).1.
Proof.
  intros [r ->]. unfold apply_filter_placement. destruct (bool_decide _); [eexists; reflexivity|].
  destruct (permits p e _); eexists; reflexivity.
Qed.

Lemma attributed_denials to_json raw d e : denies d -> denies (attach_hook_evasion to_json raw d e).
Proof. intros [r ->]. unfold attach_hook_evasion. destruct e as [e|]; [|eexists; reflexivity]. destruct (negb _); eexists; reflexivity. Qed.

Lemma fed_back now d file : (denies d -> denies (attach_policy_feedback now d file).1)
  /\ (inert d -> inert (attach_policy_feedback now d file).1).
Proof.
  unfold inert, denies, attach_policy_feedback. split.
  - intros [r ->]. eexists. reflexivity.
  - intros [[r ->]|[r ->]]; [left|right]; eexists; reflexivity.
Qed.

Lemma carried_inert io input d : (denies d -> denies (carried io input d)) /\ (inert d -> inert (carried io input d)).
Proof.
  assert (H1 : inert d -> attach_session_attribution input d = d)
    by (intros [[r ->]|[r ->]]; unfold attach_session_attribution; destruct (hook_session input); reflexivity).
  assert (H2 : inert d -> attach_host_grant (identity_hash io) (grant_json io) input (now_ms io) d = d).
  { unfold attach_host_grant. destruct (negb _); [reflexivity|].
    intros [[r ->]|[r ->]]; destruct (permission_mode input ≫= parse_mode), (hook_session input); reflexivity. }
  assert (H : inert d -> carried io input d = d) by (intros Hd; unfold carried; rewrite H1 by auto; apply H2, Hd).
  split; intros Hd; rewrite H by (auto; left; auto); auto.
Qed.

Lemma not_hatched to_json raw d e : (forall a, e = Some a -> hatch_marker a = false) -> attach_hook_evasion to_json raw d e = d.
Proof. intros H. unfold attach_hook_evasion. destruct e as [a|]; [|reflexivity]. rewrite (H a eq_refl). reflexivity. Qed.

(** ** The branches of [rewrite] *)

(** The attribution of a call whose fidelity was checked. *)
Definition attributed_to (fidelity : option EvasionAttribution) (outcome : RtkRewriteOutcome) : option EvasionAttribution :=
  match fidelity with Some e => Some e | None => evasion outcome end.

Definition fidelity_of (p : HookFidelityPreflight) : option EvasionAttribution := match p with Allowed e => Some e | _ => None end.

(** The decision of the hook about a call that went to the engine, before the answer. *)
Definition chain (io : HookIo) (input : value) (raw : rstr) (fidelity : option EvasionAttribution) (outcome : RtkRewriteOutcome)
    (file : SessionFile) : RewriteDecision :=
  let (d, file) := apply_filter_placement (placement io) Append (now_unix io) (enforce_first_class raw (decision outcome)) file in
  let d := attach_hook_evasion (evasion_json io) raw (reconciled io input raw outcome d) (attributed_to fidelity outcome) in
  carried io input (attach_policy_feedback (now_unix io) d file).1.

Definition consults (io : HookIo) (input : value) (raw cwd : rstr) : Prop :=
  raw_command input = Some raw /\ raw <> [] /\ workspace io = Some cwd
  /\ (forall d e, hook_fidelity_preflight io input raw cwd <> Asked d e)
  /\ (fidelity_of (hook_fidelity_preflight io input raw cwd) = None -> Operation.is_direct_hzr_command raw = false).

Lemma rewrite_consults io input raw cwd file : consults io input raw cwd ->
  let fidelity := fidelity_of (hook_fidelity_preflight io input raw cwd) in
  let c := consult io (hook_request io input raw cwd fidelity) raw file in
  let d := chain io input raw fidelity c.1.1 c.2 in
  printed (rewrite io input file) = write_decision input d c.1.2 (host_rule_allows input raw (host_permission c.1.1))
  /\ final (rewrite io input file) = Some d.
Proof.
  intros (Hr & Hne & Hw & Hask & Hdir) fidelity. unfold rewrite. rewrite Hr, Hw. destruct raw as [|ch cs]; [congruence|].
  subst fidelity. destruct (hook_fidelity_preflight io input (ch :: cs) cwd) as [|e|d e] eqn:Hp; [| |destruct (Hask d e eq_refl)];
    cbn [fidelity_of] in *.
  - rewrite bool_decide_eq_false_2 by (intros [? ?]; discriminate). rewrite (Hdir eq_refl). cbn [negb andb].
    destruct (consult _ _ _ file) as [[outcome notice] file1]. cbn [fst snd]. unfold chain.
    destruct (apply_filter_placement _ _ _ _ file1) as [d1 file2]. unfold attributed_to.
    destruct (attach_policy_feedback _ _ file2) as [d2 file3]. split; reflexivity.
  - rewrite bool_decide_eq_true_2 by eauto. cbn [negb andb].
    destruct (consult _ _ _ file) as [[outcome notice] file1]. cbn [fst snd]. unfold chain.
    destruct (apply_filter_placement _ _ _ _ file1) as [d1 file2]. unfold attributed_to.
    destruct (attach_policy_feedback _ _ file2) as [d2 file3]. split; reflexivity.
Qed.

Lemma chain_denies io input raw fidelity outcome file : denies (decision outcome) -> denies (chain io input raw fidelity outcome file).
Proof.
  intros H. unfold chain. pose proof (placed_denials (placement io) Append (now_unix io) _ file (enforced_denials raw _ H)) as Hp.
  destruct (apply_filter_placement _ _ _ _ file) as [d file1]. cbn [fst] in Hp. apply carried_inert, fed_back, attributed_denials.
  apply reconciled_keeps_denials, Hp.
Qed.

Lemma chain_operator_ask io input raw fidelity outcome file :
  host_grants_execution input = true -> host_permission outcome = Some HostPermissionVerdict.Ask ->
  (forall a, attributed_to fidelity outcome = Some a -> hatch_marker a = false) -> inert (chain io input raw fidelity outcome file).
Proof.
  intros Hg Hp He. unfold chain. destruct (apply_filter_placement _ _ _ _ file) as [d file1].
  apply carried_inert, fed_back. rewrite not_hatched by auto. apply reconciled_operator_ask; auto.
Qed.

(** The engine's outcome for a call: the daemon's, or the hook's own. *)
Definition engine_outcome (io : HookIo) (request : ExecApiRequest) (raw : rstr) : RtkRewriteOutcome :=
  match daemon io request with Some outcome => outcome | None => fallback_decision (engine io) (host_shell io) raw end.

Lemma consulted io request raw file : (consult io request raw file).1.1 = engine_outcome io request raw.
Proof.
  unfold consult, engine_outcome. destruct (daemon io request).
  - destruct (accounting_transition_at false (now_unix io) file). reflexivity.
  - destruct (accounting_transition_at true (now_unix io) file). reflexivity.
Qed.

(** A tool call for which the daemon, or the fallback over the engine, gave an outcome. *)
Record asked (io : HookIo) (host : HookHost) (input : value) (raw : rstr) (fidelity : option EvasionAttribution)
    (outcome : RtkRewriteOutcome) : Prop := {
  asked_command : raw_command input = Some raw;
  asked_outcome : exists tagged_input cwd, tagged host input = Some tagged_input /\ workspace io = Some cwd
    /\ consults io tagged_input raw cwd /\ fidelity = fidelity_of (hook_fidelity_preflight io tagged_input raw cwd)
    /\ outcome = engine_outcome io (hook_request io tagged_input raw cwd fidelity) raw;
}.

Lemma rewrite_answers io input file out a : printed (rewrite io input file) = Some out -> answer out = Some a ->
  (exists raw cwd, consults io input raw cwd) \/ a = lit "ask" /\ hook_host input = Claude
  \/ a = lit "deny" /\ hook_host input = Codex /\ updated out = None.
Proof.
  intros H Ha. destruct (raw_command input) as [raw|] eqn:Hr; [|unfold rewrite in H; rewrite Hr in H; discriminate].
  destruct raw as [|ch cs]; [unfold rewrite in H; rewrite Hr in H; discriminate|].
  destruct (workspace io) as [cwd|] eqn:Hw; [|unfold rewrite in H; rewrite Hr, Hw in H; discriminate].
  destruct (hook_fidelity_preflight io input (ch :: cs) cwd) as [|e|d e] eqn:Hp.
  - destruct (Operation.is_direct_hzr_command (ch :: cs)) eqn:Hd.
    + exfalso. unfold rewrite in H. rewrite Hr, Hw, Hp in H. rewrite Hd in H.
      rewrite bool_decide_eq_false_2 in H by (intros [? ?]; discriminate). cbn [negb andb printed] in H. apply written in H.
      cbn [says] in H. rewrite H in Ha. discriminate.
    + left. exists (ch :: cs), cwd. split; [exact Hr|]. split; [discriminate|]. split; [exact Hw|]. rewrite Hp.
      split; [discriminate|]. intros _. exact Hd.
  - left. exists (ch :: cs), cwd. split; [exact Hr|]. split; [discriminate|]. split; [exact Hw|]. rewrite Hp. split; discriminate.
  - right. unfold rewrite in H. rewrite Hr, Hw, Hp in H. cbn [printed] in H. apply written in H.
    unfold hook_fidelity_preflight in Hp. destruct (negb _); [discriminate|].
    destruct (Operation.fidelity_preflight _ _ _ _ _) as [|e' r'|e' b'] eqn:E; try discriminate; injection Hp as <- _; cbn [says] in H;
    destruct (hook_host input); destruct H as [H Hu]; rewrite H in Ha; injection Ha as <-; auto.
Qed.

Lemma dispatch_bash io host input file out :
  str_field input (lit "tool_name") = Some (lit "Bash") -> printed (dispatch io host input file) = Some out ->
  exists input' file', tagged host input = Some input' /\ printed (rewrite io input' file') = Some out
    /\ (host = Codex -> host_grants_execution input = true).
Proof.
  intros Ht. unfold dispatch. destruct (_ || _) eqn:E; [discriminate|].
  destruct (tagged host input) as [input'|] eqn:Htag; [|discriminate].
  rewrite (tagged_str host input input') by (auto; discriminate). rewrite Ht.
  change (str_eqb (lit "Bash") (lit "Bash")) with true. intros H. exists input', (update_session_at (now_unix io) (count_operation (host_grants_execution input')) file).2.
  split; [reflexivity|]. split; [exact H|]. intros ->. apply orb_false_iff in E as [_ E]. cbn in E. apply negb_false_iff, E.
Qed.

Lemma rule_allows input raw permission : host_rule_allows input raw permission = true ->
  hook_host input = Claude /\ permission = Some HostPermissionVerdict.Allow /\ unmatchable raw = false.
Proof.
  unfold host_rule_allows, hook_host_is_claude. intros [[H1%bool_decide_eq_true_1 H2%bool_decide_eq_true_1]%andb_true_iff H3%negb_true_iff]%andb_true_iff.
  auto.
Qed.

(** What stands behind an answer [allow]. *)
Lemma allow_backed io host input file out :
  str_field input (lit "tool_name") = Some (lit "Bash") -> printed (dispatch io host input file) = Some out ->
  answer out = Some (lit "allow") ->
  exists raw fidelity outcome command tool_input,
    asked io host input raw fidelity outcome
    /\ ~ denies (decision outcome)
    /\ field input TOOL_INPUT = Some tool_input /\ updated out = set_field tool_input (lit "command") (text command)
    /\ (host_grants_execution input = true
           /\ (host_permission outcome = Some HostPermissionVerdict.Ask ->
                exists e, attributed_to fidelity outcome = Some e /\ hatch_marker e = true)
        \/ host = Claude /\ host_permission outcome = Some HostPermissionVerdict.Allow /\ unmatchable raw = false).
Proof.
  intros Ht Hp Ha. destruct (dispatch_bash _ _ _ _ _ Ht Hp) as (input' & file' & Htag & Hp' & Hcodex).
  destruct (rewrite_answers _ _ _ _ _ Hp' Ha) as [(raw & cwd & Hc)|[[H _]|[H _]]]; [|discriminate H|discriminate H].
  destruct (rewrite_consults io input' raw cwd file' Hc) as [Hpr _]. rewrite Hpr in Hp'. apply written in Hp'.
  rewrite consulted in Hp'. set (fidelity := fidelity_of _) in *. set (outcome := engine_outcome _ _ _) in *.
  set (file2 := (consult _ _ _ _).2) in *. pose proof Hc as (Hraw & Hne & Hw & _).
  exists raw, fidelity, outcome.
  assert (Hasked : asked io host input raw fidelity outcome).
  { split; [rewrite <- (tagged_command host input input'); auto|]. exists input', cwd. auto. }
  assert (Hnd : ~ denies (decision outcome)).
  { intros Hd%(chain_denies io input' raw fidelity outcome file2). destruct Hd as [r Hd]. rewrite Hd in Hp'. cbn [says] in Hp'.
    destruct Hp' as [H _]. rewrite H in Ha. discriminate. }
  destruct (chain io input' raw fidelity outcome file2) as [r|command src r|p r|r] eqn:Hd; cbn [says] in Hp'.
  { rewrite Hp' in Ha. discriminate. }
  2:{ destruct (hook_host input'); destruct Hp' as [H _]; rewrite H in Ha; discriminate. }
  2:{ destruct Hp' as [H _]. rewrite H in Ha. discriminate. }
  destruct (host_grants_execution input' || host_rule_allows input' raw (host_permission outcome)) eqn:E;
    [|rewrite Hp' in Ha; discriminate]. destruct Hp' as [_ Hu].
  assert (Htool : is_Some (field input' TOOL_INPUT)).
  { unfold raw_command in Hraw. destruct (field input' TOOL_INPUT); [eauto|discriminate]. }
  destruct Htool as [t Htool]. unfold updated_command in Hu. rewrite Htool in Hu. cbn [mbind option_bind] in Hu.
  exists (hook_render command), t. split; [exact Hasked|]. split; [exact Hnd|].
  split; [rewrite <- (tagged_field host input input' TOOL_INPUT) by (auto; discriminate); exact Htool|]. split; [exact Hu|].
  apply orb_true_iff in E as [E|E].
  - left. rewrite (tagged_grants host input input' Htag) in E. split; [exact E|]. intros Hask.
    destruct (attributed_to fidelity outcome) as [e|] eqn:He.
    + destruct (hatch_marker e) eqn:Hh; [eauto|]. exfalso.
      destruct (chain_operator_ask io input' raw fidelity outcome file2) as [[r' H]|[r' H]]; try congruence.
      rewrite (tagged_grants host input input' Htag). exact E.
    + exfalso. destruct (chain_operator_ask io input' raw fidelity outcome file2) as [[r' H]|[r' H]]; try congruence.
      rewrite (tagged_grants host input input' Htag). exact E.
  - right. apply rule_allows in E as (Hh & Hperm & Hun). rewrite (tagged_host host input input' Htag) in Hh. auto.
Qed.

Lemma denial_written input r notice rule : supports_pre_tool (hook_host input) input = true ->
  exists out, write_decision input (Deny r) notice rule = Some out.
Proof.
  intros Hs. unfold write_decision. cbn [decision_value mbind option_bind].
  assert (Hobj : forall m hook, field (Json.Object m) HOOK_OUTPUT = Some (Json.Object hook) ->
    Json.get hook (lit "permissionDecision") ≫= as_str = Some (lit "deny") ->
    exists out, adapt_response (hook_host input) input (Json.Object m) (host_grants_execution input || rule) = Some out).
  { intros m hook Hm Ha. unfold adapt_response. rewrite Hs. cbn [negb]. rewrite Hm, Ha. rewrite !bool_decide_eq_false_2 by discriminate.
    cbn [andb]. destruct (hook_host input); eauto. }
  destruct notice as [n|].
  - change (set_field (pre_tool_use (lit "deny") r None) (lit "systemMessage") (text n))
      with (Some (Json.Object (Json.insert
              [(HOOK_OUTPUT, Json.Object [(lit "hookEventName", text (lit "PreToolUse")); (lit "permissionDecision", text (lit "deny"));
                                          (lit "permissionDecisionReason", text r)])] (lit "systemMessage") (text n)))).
    cbn [mbind option_bind]. eapply Hobj.
    + unfold field. cbn [Json.as_object mbind option_bind]. rewrite Json.get_insert_ne by discriminate. reflexivity.
    + reflexivity.
  - cbn [mbind option_bind]. eapply Hobj; reflexivity.
Qed.

Lemma tagged_supports host input input' : tagged host input = Some input' -> supports_pre_tool host input' = supports_pre_tool host input.
Proof.
  intros H. unfold supports_pre_tool. rewrite !(tagged_str host input input') by (auto; discriminate).
  rewrite !(tagged_field host input input') by (auto; discriminate). reflexivity.
Qed.

(** A denied command is answered with [deny]. *)
Lemma denial_answered io host input file raw fidelity outcome :
  str_field input (lit "tool_name") = Some (lit "Bash") -> supports_pre_tool host input = true ->
  (host = Codex -> host_grants_execution input = true) -> asked io host input raw fidelity outcome -> denies (decision outcome) ->
  exists out, printed (dispatch io host input file) = Some out /\ answer out = Some (lit "deny") /\ updated out = None.
Proof.
  intros Ht Hs Hcodex [_ (input' & cwd & Htag & Hw & Hc & -> & Hout)] Hd. unfold dispatch. rewrite Hw, Hs, Htag.
  rewrite bool_decide_eq_true_2 by eauto. cbn [negb orb].
  assert (bool_decide (host = Codex) && negb (host_grants_execution input) = false) as ->.
  { destruct host; [reflexivity|]. rewrite (Hcodex eq_refl). reflexivity. }
  rewrite (tagged_str host input input') by (auto; discriminate). rewrite Ht.
  change (str_eqb (lit "Bash") (lit "Bash")) with true. cbv iota. set (file' := (update_session_at _ _ _).2).
  destruct (rewrite_consults io input' raw cwd file' Hc) as [Hpr _]. rewrite Hpr, consulted, <- Hout.
  destruct (chain_denies io input' raw (fidelity_of (hook_fidelity_preflight io input' raw cwd)) outcome
              (consult io (hook_request io input' raw cwd (fidelity_of (hook_fidelity_preflight io input' raw cwd))) raw file').2 Hd)
    as [r ->].
  destruct (denial_written input' r (consult io (hook_request io input' raw cwd (fidelity_of (hook_fidelity_preflight io input' raw cwd))) raw file').1.2
              (host_rule_allows input' raw (host_permission outcome))) as [out Hwr].
  { rewrite (tagged_host host input input') by auto. rewrite (tagged_supports host input input') by auto. exact Hs. }
  exists out. split; [exact Hwr|]. apply written in Hwr. exact Hwr.
Qed.

(** ** Properties *)


(** Codex, which does not know the answer [ask], never gets it: where the hook
    answers a shell command there at all, the answer allows or denies, it allows only
    when the host runs commands without asking, and a denial changes no input. *)
Theorem codex_is_never_asked io input file out a :
  str_field input (lit "tool_name") = Some (lit "Bash") -> printed (dispatch io Codex input file) = Some out ->
  answer out = Some a ->
  host_grants_execution input = true /\ (a = lit "allow" \/ a = lit "deny" /\ updated out = None).
Proof.
  intros Ht Hp Ha. destruct (dispatch_bash _ _ _ _ _ Ht Hp) as (input' & file' & Htag & Hp' & Hcodex).
  split; [auto|]. pose proof (tagged_host _ _ _ Htag) as Hh.
  destruct (rewrite_answers _ _ _ _ _ Hp' Ha) as [(raw & cwd & Hc)|[[_ H]|(-> & _ & Hu)]]; [|congruence|].
  - destruct (rewrite_consults io input' raw cwd file' Hc) as [Hpr _]. rewrite Hpr in Hp'. apply written in Hp'.
    destruct (chain _ _ _ _ _ _) as [r|command src r|p r|r]; cbn [says] in Hp'; rewrite ?Hh in Hp'.
    + rewrite Hp' in Ha. discriminate.
    + destruct (_ || _); [destruct Hp' as [H _]; rewrite H in Ha; injection Ha as <-; auto|rewrite Hp' in Ha; discriminate].
    + destruct Hp' as [H Hu]. rewrite H in Ha. injection Ha as <-. auto.
    + destruct Hp' as [H Hu]. rewrite H in Ha. injection Ha as <-. auto.
  - auto.
Qed.

End Hook.

Module Sample.

Definition managed : RtkRewriteOutcome :=
  {| decision := AllowRewrite (shell (lit "rtk git status")) (Rtk PINNED_RTK_VERSION Optimized) (lit "managed");
     evasion := None; accounting_correlation_id := None; host_permission := Some HostPermissionVerdict.Allow |}.

Definition io : @HookIo N :=
  {| workspace := Some (lit "/w"); usage := fun _ => None; metadata := fun _ => None; read_sample := fun _ _ => None;
     caller_PATH := None; daemon := fun _ => Some managed; engine := fun _ _ => managed; context_plan := fun _ => None;
     host_shell := lit "/bin/sh"; placement := Anywhere; now_ms := 2000; now_unix := 2;
     identity_hash := fun d v => d ++ v; grant_json := fun _ => lit "{}"; evasion_json := fun _ => lit "{}" |}.

Definition call (mode : rstr) : Json.Value N :=
  Json.Object
    [(lit "hook_event_name", text (lit "PreToolUse")); (lit "tool_name", text (lit "Bash")); (lit "permission_mode", text mode);
     (lit "tool_input", Json.Object [(lit "command", text (lit "git status"))])].
Definition file : SessionFile := {| named := false; stored := Missing; writing := Acknowledged |}.


Lemma codex_is_never_asked_witness :
  exists out, printed (dispatch Some io Codex (call (lit "bypassPermissions")) file) = Some out /\ answer out = Some (lit "allow").
Proof.
  destruct (printed (dispatch Some io Codex (call (lit "bypassPermissions")) file)) as [out|] eqn:E; [|vm_compute in E; discriminate E].
  assert (Ha : answer out = Some (lit "allow")) by (revert E; vm_compute; intros [= <-]; reflexivity).
  destruct (codex_is_never_asked Some io (call (lit "bypassPermissions")) file out (lit "allow") eq_refl E Ha) as [_ _].
  exists out. split; [reflexivity|exact Ha].
Defined.

(** A call that delegates work is answered [allow] whatever the host's mode and rules. *)
Example delegated_calls_are_always_allowed :
  let input mode := Json.Object
    [(lit "hook_event_name", text (lit "PreToolUse")); (lit "tool_name", text (lit "Task")); (lit "permission_mode", text mode);
     (lit "tool_input", Json.Object [(lit "prompt", text (lit "p"))])] in
  let io := {| workspace := Some (lit "/w"); usage := fun _ => None; metadata := fun _ => None; read_sample := fun _ _ => None;
               caller_PATH := None; daemon := fun _ => None; engine := fun _ _ => managed;
               context_plan := fun _ => Some (Json.Object []); host_shell := lit "/bin/sh"; placement := Anywhere; now_ms := 2000;
               now_unix := 2; identity_hash := fun d v => d ++ v; grant_json := fun _ => lit "{}";
               evasion_json := fun _ => lit "{}" |} in
  printed (dispatch Some io Claude (input (lit "default")) file) ≫= answer = Some (lit "allow").
Proof. vm_compute. reflexivity. Qed.

End Sample.
End Hook.
