(* ===== verification/HookChain.v ===== *)
(** From the operator's rules to the host's answer: the hook of [Hook] over the daemon
    of [Policy], the adapter of [Adapter] and the engine of [RewriteOutcome] with its
    gate [Permissions], put together as they are when the engine answers.

    [serde_json] on a plan is a pair of functions that are inverse on plans; what the
    engine prints for a panic is no success. *)

From stdpp Require Import countable finite.
From S2P Require Import Prelude RStr Contract Segments Permissions Rewrite RewriteSegment RewriteOutcome Exec Json ExecOutput ShellWords Operation Adapter Grants HookSession Policy Hook.
From Stdlib Require Import ZifyBool ZifyN ZifyNat.

Module HookChain.
Import Contract Exec Adapter Grants Policy Hook.

#[local] Arguments lit : simpl never.

Section Chain.
Context {Num : Type} (as_u64 : Num -> option N).
Context (o : RewriteSegment.Outside) (transparent_prefixes : list rstr) (rtk_in : rstr -> bool)
        (excluded deny_rules ask_rules allow_rules : list rstr).
Context (plan_to_json : RewritePlan -> rstr) (plan_of_json : rstr -> result rstr RewritePlan).
Context (aio : AdapterIo) (self : PinnedRtkAdapter).
Hypothesis plan_law : forall plan, plan_of_json (plan_to_json plan) = Ok plan.

Definition verdict_of (text : rstr) : option Permissions.PermissionVerdict :=
  RewriteOutcome.check_command o transparent_prefixes deny_rules ask_rules allow_rules text.

(** [rtk rewrite --plan] as a process. *)
Definition engine_process (text : rstr) (byte_fidelity : bool) : result PlannerRunError Output :=
  Ok match RewriteOutcome.run_plan o transparent_prefixes rtk_in excluded deny_rules ask_rules allow_rules text byte_fidelity with
     | Some plan => {| success := true; status := lit "exit status: 0"; stdout := plan_to_json plan; stderr := [] |}
     | None => {| success := false; status := lit "exit status: 101"; stdout := []; stderr := [] |}
     end.

Definition adapter (command : CanonicalCommand) (byte_fidelity : bool) : RtkRewriteOutcome :=
  decide_in_mode aio engine_process plan_of_json self command byte_fidelity.

(** What the engine is asked about, if it is asked. *)
Definition asked_text (raw : rstr) : option rstr :=
  match Operation.raw_fidelity_request raw with
  | Operation.NotRequested => Some (default raw (Operation.managed_raw_payload raw))
  | Operation.Authorized _ payload => match Operation.first_class_replacement raw with Some _ => None | None => Some payload end
  | _ => None
  end.

(** ** The adapter over the gate *)

Lemma plan_verdict text fid plan :
  RewriteOutcome.run_plan o transparent_prefixes rtk_in excluded deny_rules ask_rules allow_rules text fid = Some plan ->
  exists v, verdict_of text = Some v /\ Contract.host_permission plan = Some (RewriteOutcome.host_permission_verdict v)
    /\ (v = Permissions.Deny -> Contract.decision plan = RewritePlanDecision.Deny).
Proof.
  unfold RewriteOutcome.run_plan, verdict_of. destruct (RewriteOutcome.check_command _ _ _ _ _ text) as [v|]; [|discriminate].
  cbn [mbind option_bind]. destruct (RewriteOutcome.rewrite_command_outcome_with_fidelity _ _ _ _ text fid) as [out|]; [|discriminate].
  cbn [mbind option_bind]. destruct (RewriteOutcome.canonical_attribution _ _ text out) as [a|]; [|discriminate].
  cbn [mbind option_bind]. intros [= <-]. exists v. split; [reflexivity|]. destruct v, out; split; try reflexivity; discriminate.
Qed.

Lemma adapter_permission sh text fid v : host_permission (adapter (Shell sh text) fid) = Some v ->
  exists verdict, verdict_of text = Some verdict /\ v = RewriteOutcome.host_permission_verdict verdict.
Proof.
  unfold adapter, decide_in_mode, deny, outcome_without_evasion.
  destruct (Adapter.rewrite (capabilities self)); [|discriminate]. destruct (proxy _); [|discriminate]. cbn [negb].
  destruct (runtime_paths _); [|discriminate]. destruct (ensure_layout _ _); [|discriminate].
  destruct (new_accounting_context _ _ ≫= _); [|discriminate]. unfold engine_process. cbn [render_command].
  destruct (RewriteOutcome.run_plan _ _ _ _ _ _ _ text fid) as [plan|] eqn:Hp; cbn [success negb stdout]; [|discriminate].
  rewrite plan_law. destruct (negb (plan_is_consistent plan)); [discriminate|].
  destruct (plan_decision _ _ _ _). cbn [host_permission]. destruct (plan_verdict text fid plan Hp) as (verdict & Hv & Hh & _).
  rewrite Hh. intros [= <-]. eauto.
Qed.

Lemma adapter_denies sh text fid : verdict_of text = Some Permissions.Deny -> denies (decision (adapter (Shell sh text) fid)).
Proof.
  intros Hv. unfold adapter, decide_in_mode, deny, outcome_without_evasion, denies.
  destruct (Adapter.rewrite (capabilities self)); [|eauto]. destruct (proxy _); [|eauto]. cbn [negb].
  destruct (runtime_paths _); [|eauto]. destruct (ensure_layout _ _); [|eauto].
  destruct (new_accounting_context _ _ ≫= _); [|eauto]. unfold engine_process. cbn [render_command].
  destruct (RewriteOutcome.run_plan _ _ _ _ _ _ _ text fid) as [plan|] eqn:Hp; cbn [success negb stdout]; [|eauto].
  rewrite plan_law. destruct (negb (plan_is_consistent plan)); [eauto|].
  destruct (plan_verdict text fid plan Hp) as (verdict & Hv' & _ & Hd). rewrite Hv in Hv'. injection Hv' as <-.
  unfold plan_decision. rewrite (Hd eq_refl). cbn. eauto.
Qed.

(** ** The daemon and the hook over the adapter *)

Definition asks_for (raw : rstr) (out : RtkRewriteOutcome) : Prop :=
  forall v, host_permission out = Some v ->
    exists text verdict, asked_text raw = Some text /\ verdict_of text = Some verdict
      /\ v = RewriteOutcome.host_permission_verdict verdict.

Lemma decided_permission sh authorized text : host_permission (decided adapter sh authorized text) = host_permission (adapter (Shell sh text) authorized).
Proof.
  unfold decided. destruct (decision (adapter (Shell sh text) authorized)) as [|c [|v []] r| |]; try reflexivity.
  destruct authorized; reflexivity.
Qed.

Lemma decided_denies sh authorized text : verdict_of text = Some Permissions.Deny -> denies (decision (decided adapter sh authorized text)).
Proof. intros H. unfold decided. destruct (adapter_denies sh text authorized H) as [r Hr]. rewrite Hr. exists r. exact Hr. Qed.

Lemma fallback_permission sh raw : asks_for raw (fallback_decision adapter sh raw).
Proof.
  intros v. unfold fallback_decision, asked_text. destruct (Operation.raw_fidelity_request raw) as [| | |reason payload]; try discriminate.
  - rewrite decided_permission. intros H%adapter_permission. destruct H as (verdict & Hv & ->). eauto.
  - destruct (Operation.first_class_replacement raw); [discriminate|]. rewrite decided_permission.
    intros H%adapter_permission. destruct H as (verdict & Hv & ->). eauto.
Qed.

Lemma fork_permission sh raw : host_permission (fork_outcome_with_managed_unwrap adapter sh raw) = host_permission (fallback_decision adapter sh raw).
Proof.
  unfold fork_outcome_with_managed_unwrap, fallback_decision.
  destruct (Operation.raw_fidelity_request raw) as [| | |reason payload]; try reflexivity.
  - destruct (raw_policy_evasion raw Operation.NotRequested); reflexivity.
  - destruct (Operation.first_class_replacement raw); reflexivity.
Qed.

Lemma fork_decision sh raw : decision (fork_outcome_with_managed_unwrap adapter sh raw) = decision (fallback_decision adapter sh raw).
Proof.
  unfold fork_outcome_with_managed_unwrap, fallback_decision.
  destruct (Operation.raw_fidelity_request raw) as [| | |reason payload]; try reflexivity.
  - destruct (raw_policy_evasion raw Operation.NotRequested); reflexivity.
  - destruct (Operation.first_class_replacement raw); reflexivity.
Qed.

Lemma fallback_denies sh raw text : Operation.raw_fidelity_request raw = Operation.NotRequested -> asked_text raw = Some text ->
  verdict_of text = Some Permissions.Deny -> denies (decision (fallback_decision adapter sh raw)).
Proof.
  intros Hn Ha Hv. unfold asked_text in Ha. rewrite Hn in Ha. injection Ha as <-. unfold fallback_decision. rewrite Hn.
  apply decided_denies, Hv.
Qed.

Lemma granted_denials hash now request d : denies d -> denies (apply_host_grant hash now request d).
Proof. intros [r ->]. unfold apply_host_grant, reconcile_host_grant. destruct (negb _); exists r; reflexivity. Qed.

Lemma rewrite_permission md rs sh hash budget now cwd request :
  asks_for (command request) (rewrite_outcome md rs adapter sh hash budget now cwd request).
Proof.
  intros v. unfold rewrite_outcome. destruct (daemon_fidelity_preflight md rs budget cwd request) as [|e b|e r]; cbn [host_permission with_evasion].
  - rewrite fork_permission. apply fallback_permission.
  - rewrite fork_permission. apply fallback_permission.
  - discriminate.
Qed.

Lemma rewrite_denies md rs sh hash budget now cwd request text :
  fidelity_requested request = false -> Operation.raw_fidelity_request (command request) = Operation.NotRequested ->
  asked_text (command request) = Some text -> verdict_of text = Some Permissions.Deny ->
  denies (decision (rewrite_outcome md rs adapter sh hash budget now cwd request)).
Proof.
  intros Hf Hn Ha Hv. unfold rewrite_outcome, daemon_fidelity_preflight. rewrite Hf. cbn [negb decision].
  apply granted_denials, enforced_denials. rewrite fork_decision. eapply fallback_denies; eauto.
Qed.

(** A hook whose engine is the adapter and whose daemon, where it answers, decides with it. *)
Definition chained (io : @HookIo Num) : Prop :=
  engine io = adapter
  /\ forall request outcome, daemon io request = Some outcome ->
       exists md rs sh hash budget now cwd, outcome = rewrite_outcome md rs adapter sh hash budget now cwd request.

Lemma chained_permission io request : chained io -> asks_for (command request) (engine_outcome io request (command request)).
Proof.
  intros [He Hd]. unfold engine_outcome. destruct (daemon io request) as [outcome|] eqn:E.
  - destruct (Hd _ _ E) as (md & rs & sh & hash & budget & now & cwd & ->). apply rewrite_permission.
  - rewrite He. apply fallback_permission.
Qed.

(** ** Properties *)

(** C18: from the operator's rules to the host's answer: when the host does not run
    commands without asking and the hook still answers [allow] to a shell command, the
    gate allowed the text that the engine was asked about: every segment of it matches
    an allow rule as it is written, none matches a deny rule, and the shell runs no
    substitution in it. *)
Theorem answers_follow_the_operators_rules io host (input : Json.Value Num) file out :
  chained io -> str_field input (lit "tool_name") = Some (lit "Bash") -> host_grants_execution input = false ->
  printed (dispatch as_u64 io host input file) = Some out -> answer out = Some (lit "allow") ->
  exists raw text, raw_command input = Some raw /\ asked_text raw = Some text
    /\ verdict_of text = Some Permissions.Allow
    /\ Segments.contains_substitution text = false
    /\ exists segments, Segments.split_for_permissions text = Some segments
       /\ forall s, s ∈ segments -> trim s <> [] ->
            (exists rule, rule ∈ allow_rules /\ Permissions.command_matches_pattern (trim s) rule = true)
            /\ forall rule, rule ∈ deny_rules -> Permissions.command_matches_pattern (trim s) rule = false.
Proof.
  intros Hc Ht Hg Hp Ha. destruct (allow_backed as_u64 io host input file out Ht Hp Ha)
    as (raw & fidelity & outcome & cmd & tool_input & Hasked & _ & _ & _ & Hback).
  destruct Hback as [[Hg' _]|(_ & Hperm & _)]; [congruence|]. destruct Hasked as [Hraw (input' & cwd & _ & _ & _ & _ & ->)].
  destruct (chained_permission io (hook_request io input' raw cwd fidelity) Hc _ Hperm) as (text & verdict & Htext & Hv & Heq).
  cbn [command hook_request] in Htext. destruct verdict; try discriminate. exists raw, text. split; [exact Hraw|]. split; [exact Htext|].
  split; [exact Hv|]. unfold verdict_of, RewriteOutcome.check_command in Hv.
  destruct (Permissions.check_allow _ _ _ _ _ _ Hv) as (Hu & _ & gs & Hs & _ & Hgs). split.
  { unfold Segments.contains_unattestable_construct in Hu. destruct (Segments.contains_substitution text); [discriminate|reflexivity]. }
  exists gs. split; [exact Hs|]. intros s Hin Hne. destruct (Hgs s Hin) as (peeled & Hr & Hd & Hrest).
  destruct (Hrest Hne) as (Hallow & _ & _). split.
  - apply existsb_exists in Hallow as (rule & Hrule & Hm). exists rule. split; [apply list_elem_of_In; exact Hrule|exact Hm].
  - intros rule Hrule. pose proof (Permissions.existsb_false_elem _ _ _ Hd Hrule) as H. cbn in H.
    unfold Permissions.matches_any in H. apply orb_false_iff in H as [H _]. exact H.
Qed.


End Chain.

(** ** Witnesses and examples *)

Module Sample.

Ltac by_listing l :=
  refine {| enum := l |};
  [apply (bool_decide_unpack _); vm_compute; exact I
  | intros []; apply (bool_decide_unpack _); vm_compute; exact I].

(** A machine on which the engine is the pinned one, and rules of an operator. *)
Definition outside : RewriteSegment.Outside := RewriteSegment.git_only.
Definition paths : ForkRuntimePaths := from_data_root (lit "/d").
Definition adapter_io : AdapterIo :=
  {| create := fun _ => None; shim_write := None; uuid := lit "0123456789abcdef0123456789abcdef" |}.
Definition binary : rstr := lit "/opt/rtk".
Definition self : PinnedRtkAdapter :=
  {| config := {| Adapter.binary := binary; runtime_paths := Some paths; rewrite_timeout_ms := 1000 |};
     capabilities := {| cap_binary := binary; detected_version := Some PINNED_RTK_VERSION; contract := None; Adapter.rewrite := ForkCli;
                        proxy := true |} |}.
Definition deny_rules : list rstr := [lit "git push"; lit "head"].
Definition ask_rules : list rstr := [lit "cat"].
Definition allow_rules : list rstr := [lit "git *"].

(** A text for every plan that can be read back, as [serde_json] promises. *)
#[local] Instance EvasionClass_finite : Finite EvasionClass.t.
Proof. by_listing [EvasionClass.E1QuotedCoveredCommand; EvasionClass.E2ShellWrapper; EvasionClass.E3InterpreterRead; EvasionClass.E4ExecutablePath; EvasionClass.E5PipelineOrRedirect; EvasionClass.E6NestedUnboundedReader; EvasionClass.E7FidelityHatch; EvasionClass.E8NativeTool; EvasionClass.E9DiagnosticBypass; EvasionClass.E10CapabilityGap; EvasionClass.E11PrivilegedPrefix]. Defined.
#[local] Instance EvasionInterpreter_finite : Finite EvasionInterpreter.t.
Proof. by_listing [EvasionInterpreter.Shell; EvasionInterpreter.Python; EvasionInterpreter.Javascript; EvasionInterpreter.Ruby; EvasionInterpreter.Perl; EvasionInterpreter.Awk; EvasionInterpreter.Sed]. Defined.
#[local] Instance EvasionPathForm_finite : Finite EvasionPathForm.t.
Proof. by_listing [EvasionPathForm.Bare; EvasionPathForm.AbsoluteSystem; EvasionPathForm.Relative; EvasionPathForm.ResolvedAlias]. Defined.
#[local] Instance EnforcementTier_finite : Finite EnforcementTier.t.
Proof. by_listing [EnforcementTier.T0TransparentRewrite; EnforcementTier.T1NamedCorrection; EnforcementTier.T2DenyWithPrescription; EnforcementTier.T3BudgetExhaustion; EnforcementTier.T4HatchQuarantine]. Defined.
#[local] Instance FidelityReason_finite : Finite FidelityReason.t.
Proof. by_listing [FidelityReason.Binary; FidelityReason.Checksum; FidelityReason.MachineProtocol; FidelityReason.CompleteLog; FidelityReason.FullPatch; FidelityReason.VerbatimSource]. Defined.
#[local] Instance FidelityValidation_finite : Finite FidelityValidation.t.
Proof. by_listing [FidelityValidation.NotRequested; FidelityValidation.Valid; FidelityValidation.MissingReason; FidelityValidation.InvalidReason; FidelityValidation.Contradicted; FidelityValidation.ProvenEquivalent; FidelityValidation.BudgetExhausted]. Defined.
#[local] Instance RewritePlanDecision_finite : Finite RewritePlanDecision.t.
Proof. by_listing [RewritePlanDecision.Rewrite; RewritePlanDecision.Proxy; RewritePlanDecision.Ask; RewritePlanDecision.Deny]. Defined.
#[local] Instance RewritePlanReason_finite : Finite RewritePlanReason.t.
Proof. by_listing [RewritePlanReason.PermissionPolicy; RewritePlanReason.CanonicalPolicy]. Defined.
#[local] Instance HostPermissionVerdict_finite : Finite HostPermissionVerdict.t.
Proof. by_listing [HostPermissionVerdict.Allow; HostPermissionVerdict.Ask; HostPermissionVerdict.Deny; HostPermissionVerdict.Default]. Defined.

#[local] Instance evasion_dec : EqDecision EvasionAttribution.
Proof. solve_decision. Defined.
#[local] Instance plan_dec : EqDecision RewritePlan.
Proof. solve_decision. Defined.
#[local] Instance evasion_countable : Countable EvasionAttribution.
Proof.
  refine (inj_countable'
    (fun e => (class e, wrapper_depth e, interpreter e, path_form e, stage_count e, hatch_marker e, avoidable e, tier e,
               Contract.fidelity_reason e, fidelity_validation e))
    (fun '(c, w, i, p, s, h, a, t, r, v) =>
       {| class := c; wrapper_depth := w; interpreter := i; path_form := p; stage_count := s; hatch_marker := h; avoidable := a;
          tier := t; Contract.fidelity_reason := r; fidelity_validation := v |}) _).
  intros []. reflexivity.
Defined.
#[local] Instance plan_countable : Countable RewritePlan.
Proof.
  refine (inj_countable'
    (fun p => (Contract.decision p, proposed p, Contract.attribution p, Contract.reason p, Contract.host_permission p))
    (fun '(d, c, a, r, h) =>
       {| Contract.decision := d; proposed := c; Contract.attribution := a; Contract.reason := r; Contract.host_permission := h |}) _).
  intros []. reflexivity.
Defined.

Definition plan_json (plan : RewritePlan) : rstr := [Npos (encode plan)].
Definition json_plan (text : rstr) : result rstr RewritePlan :=
  match text with [Npos p] => ok_or (decode p) (lit "expected value") | _ => Err (lit "expected value") end.

Lemma plan_reads_back plan : json_plan (plan_json plan) = Ok plan.
Proof. unfold json_plan, plan_json. rewrite decode_encode. reflexivity. Qed.

Definition engine_here : CanonicalCommand -> bool -> RtkRewriteOutcome :=
  adapter outside [] (fun _ => false) [] deny_rules ask_rules allow_rules plan_json json_plan adapter_io self.

Definition id_hash (domain value : rstr) : rstr := domain ++ lit ":" ++ value.
Definition usage_of (session : rstr) : option Operation.FidelityBudget :=
  Some {| Operation.remaining_operations := 5; Operation.remaining_tokens := 1000; Operation.exhausted := false |}.
Definition sizes (path : rstr) : option N := Some 100.
Definition sample (path : rstr) (n : N) : option (list N) := Some [65].

Definition daemon_here (request : ExecApiRequest) : RtkRewriteOutcome :=
  rewrite_outcome sizes sample engine_here (lit "/bin/sh") id_hash usage_of 2000 (lit "/w") request.

(** The hook, with and without its daemon. *)
Definition hook (up : bool) : @HookIo N :=
  {| workspace := Some (lit "/w"); usage := usage_of; metadata := sizes; read_sample := sample; caller_PATH := None;
     daemon := fun request => if up then Some (daemon_here request) else None; engine := engine_here;
     context_plan := fun _ => None; host_shell := lit "/bin/sh"; placement := Anywhere; now_ms := 2000; now_unix := 2;
     identity_hash := id_hash; grant_json := fun _ => lit "{}"; evasion_json := fun _ => lit "{}" |}.

Lemma hook_chained up :
  chained outside [] (fun _ => false) [] deny_rules ask_rules allow_rules plan_json json_plan adapter_io self (hook up).
Proof.
  split; [reflexivity|]. intros request outcome. cbn. destruct up; [|discriminate]. intros [= <-].
  exists sizes, sample, (lit "/bin/sh"), id_hash, usage_of, 2000, (lit "/w"). reflexivity.
Qed.

Definition call (mode command : rstr) : Json.Value N :=
  Json.Object
    [(lit "hook_event_name", Json.String (lit "PreToolUse")); (lit "tool_name", Json.String (lit "Bash"));
     (lit "session_id", Json.String (lit "s1")); (lit "permission_mode", Json.String mode);
     (lit "tool_input", Json.Object [(lit "command", Json.String command); (lit "timeout", Json.Number 1000)])].

Definition file : HookSession.SessionFile :=
  {| HookSession.named := true; HookSession.stored := HookSession.Missing; HookSession.writing := HookSession.Acknowledged |}.

Definition answered (up : bool) (host : HookHost) (mode command : rstr) : option (Json.Value N) :=
  printed (dispatch Some (hook up) host (call mode command) file).

Definition ask_default : rstr := lit "default".
Definition bypass : rstr := lit "bypassPermissions".

Lemma answers_follow_the_operators_rules_witness :
  exists text, asked_text (lit "git status") = Some text
    /\ verdict_of outside [] deny_rules ask_rules allow_rules text = Some Permissions.Allow.
Proof.
  destruct (answered true Claude ask_default (lit "git status")) as [out|] eqn:E; [|vm_compute in E; discriminate E].
  assert (Ha : answer out = Some (lit "allow")) by (revert E; vm_compute; intros [= <-]; reflexivity).
  destruct (answers_follow_the_operators_rules Some outside [] (fun _ => false) [] deny_rules ask_rules allow_rules plan_json json_plan
              adapter_io self plan_reads_back (hook true) Claude (call ask_default (lit "git status")) file out (hook_chained true)
              eq_refl eq_refl E Ha) as (raw & text & Hraw & Ht & Hv & _).
  exists text. injection Hraw as <-. split; [exact Ht|exact Hv].
Defined.


(** What an answer says, and the command it would run. *)
Definition shown (out : option (Json.Value N)) : option (option rstr * option rstr) :=
  (fun v => (answer v, updated v ≫= fun u => str_field u (lit "command"))) <$> out.

Definition raw_cat : rstr := lit "HZR_RAW_FIDELITY=1 HZR_RAW_FIDELITY_REASON=verbatim_source hzr rtk -- raw cat key.pem".

(** [keep_operator_ask_rules] leaves a command with an ask rule to the host, but
    [attach_hook_evasion] makes a rewritten command of it again: exact output of [cat]
    is allowed although the operator wants to be asked about [cat]. *)
Example ask_rules_are_passed_over_by_exact_output :
  shown (answered true Claude bypass (lit "cat key.pem")) = None
  /\ (fst <$> shown (answered true Claude bypass raw_cat)) = Some (Some (lit "allow")).
Proof. split; vm_compute; reflexivity. Qed.

(** The hook accepts a request for exact output that the daemon calls contradicted: the
    daemon's classifier leaves the marker in front of the command. *)
Example exact_requests_are_contradicted_by_the_daemon :
  let command := lit "HZR_EXACT_FIDELITY=1 cat key.pem" in
  (exists e, hook_fidelity_preflight (hook true) (call ask_default command) command (lit "/w") = Allowed e)
  /\ (fst <$> shown (answered true Claude ask_default command)) = Some (Some (lit "ask"))
  /\ (fst <$> shown (answered false Claude ask_default command)) = Some None.
Proof. split; [eexists; vm_compute; reflexivity|]. split; vm_compute; reflexivity. Qed.

(** The deny rules are not asked about such a request: under a granting mode the
    daemon's question is granted, and the denied [head] is allowed. *)
Example deny_rules_are_not_asked_about_contradicted_requests :
  (fst <$> shown (answered true Claude bypass (lit "head key.pem"))) = Some (Some (lit "deny"))
  /\ (fst <$> shown (answered true Claude bypass (lit "HZR_EXACT_FIDELITY=1 head key.pem"))) = Some (Some (lit "allow")).
Proof. split; vm_compute; reflexivity. Qed.

End Sample.
End HookChain.
