(* ===== verification/DaemonExec.v ===== *)
(** Running commands in the daemon ([crates/hzr-daemon/src/api.rs]: [exec_run] with
    [execute_command], [exec_approval] and [fidelity_reconcile];
    [crates/hzr-exec/src/executor.rs]: [ExecutionPipeline::start] and
    [start_process]): from a request to the decision about it, the reservation of exact
    output, the process, and the accounts of what it wrote.

    Handlers run at the same time and await one another's services: the thread of the
    ledger, the engine, the approvals, the operating system.  A handler is therefore a
    program that makes calls, [Prog]; between two of its calls any other handler may
    run, which [DaemonTasks] lets happen.  What a call answers is the argument of its
    continuation.  The dashboard's spans and the events of a process are left out; a
    journal error while a process is followed is its text. *)

From S2P Require Import Prelude RStr Contract Operation Exec Api ExecOutput Adapter Grants Policy Fidelity.
From Stdlib Require Import ZifyBool ZifyN ZifyNat.

Module DaemonExec.
Import Contract Exec.

#[local] Arguments lit : simpl never.

Abbreviation RtkRewriteOutcome := Adapter.RtkRewriteOutcome.
Abbreviation Environment := Adapter.Environment.
Abbreviation FidelityReservation := Fidelity.FidelityReservation.
Abbreviation OperationRecord := Fidelity.OperationRecord.
Abbreviation LedgerWriterError := Fidelity.LedgerWriterError.
Abbreviation ApiError := Api.ApiError.

(** ** Calls *)

Inductive OperationChannel := HookCli | Mcp | NativeHost.

Record PendingApproval := {
  p_channel : option AccountingChannel.t;
  p_requested : CanonicalCommand;
  approved_decision : RewriteDecision;
  p_evasion : option EvasionAttribution;
  p_correlation : option rstr;
  p_cwd : rstr;
  p_timeout_ms : option N;
  p_caller_path : option rstr;
  p_agent : option rstr;
  p_session_id : option rstr;
  trace_hash : rstr;
}.

Record PolicyEventRecord := {
  e_project_path : rstr;
  e_agent : option rstr;
  e_session_id : option rstr;
  e_evasion : EvasionAttribution;
  e_decision : PolicyDecision.t;
  e_command_identity : option rstr;
}.

(** What is registered for the receipts of the engine. *)
Record Registration := {
  correlation : rstr;
  g_workspace : rstr;
  g_agent : option rstr;
  g_session_id : option rstr;
  g_channel : AccountingChannel.t;
  command_summary : option rstr;
}.

Record Files := { metadata : rstr -> option N; read_sample : rstr -> N -> option (list N) }.

(** The errors of the executor: those of [Exec], that of starting a process, and the
    text of one met while it is followed. *)
Inductive ExecutorError := Model (error : ExecError) | SpawnError (program source : rstr) | FollowError (text : rstr).

(** How a process ended. *)
Record ProcessEnd := {
  z_stdout : CapturedStream;
  z_stderr : CapturedStream;
  z_termination : Termination;
  z_duration_ms : N;
}.

Inductive Call :=
| Canonicalize (path : rstr)
| BeginTrace (workspace : rstr) (session : option rstr)
| LookAtFiles
| Usage (session : rstr)
| Reserve (session : rstr) (bound : N) (override_budget : bool)
| Begin (r : FidelityReservation) (record : OperationRecord) (channel : OperationChannel)
| Complete (r : FidelityReservation) (record : OperationRecord) (channel : OperationChannel)
| Cancel (r : FidelityReservation) (pre_spawn_proven : bool)
| Reconcile (id : rstr) (how : Fidelity.FidelityUnknownResolution)
| AskEngine
| Clock
| WritePolicyEvent (event : PolicyEventRecord)
| Approve (pending : PendingApproval)
| Take (decision_id : rstr)
| IsCancelled
| Register (registration : Registration)
| CompleteContext (correlation : rstr)
| Elapsed
| SpawnProcess (command : CanonicalCommand) (environment : Environment) (cwd : option rstr)
| WaitProcess (command : CanonicalCommand) (timeout_ms : option N) (capture : CaptureConfig)
| WriteOperation (record : OperationRecord) (channel : OperationChannel).

(** A canonical path and whether it is a directory; a text where only the error of a
    call matters. The engine is asked once, with arguments that are not known before. *)
Definition Reply (c : Call) : Type :=
  match c with
  | Canonicalize _ => result rstr (rstr * bool)
  | BeginTrace _ _ => rstr
  | LookAtFiles => Files
  | Usage _ => option Operation.FidelityBudget
  | Reserve _ _ _ => result LedgerWriterError (option FidelityReservation)
  | Begin _ _ _ | Complete _ _ _ | Cancel _ _ | WritePolicyEvent _ | WriteOperation _ _ => result LedgerWriterError unit
  | Reconcile _ _ => result LedgerWriterError Fidelity.FidelityReconcileReceipt
  | AskEngine => CanonicalCommand -> bool -> RtkRewriteOutcome
  | Clock | Elapsed => N
  | Approve _ => rstr
  | Take _ => option PendingApproval
  | IsCancelled => bool
  | Register _ | SpawnProcess _ _ _ => option rstr
  | CompleteContext _ => unit
  | WaitProcess _ _ _ => result ExecutorError ProcessEnd
  end.

Inductive Prog (A : Type) :=
| Ret (a : A)
| Do (c : Call) (k : Reply c -> Prog A).
#[global] Arguments Ret {_} _.
#[global] Arguments Do {_} _ _.

Fixpoint bind {A B} (p : Prog A) (f : A -> Prog B) : Prog B :=
  match p with Ret a => f a | Do c k => Do c (fun x => bind (k x) f) end.

#[global] Instance prog_ret : MRet Prog := fun _ => Ret.
#[global] Instance prog_bind : MBind Prog := fun _ _ f p => bind p f.

Definition call (c : Call) : Prog (Reply c) := Do c Ret.

(** [?] on a value. *)
Definition ensure {E A B} (r : result E A) (k : A -> Prog (result E B)) : Prog (result E B) :=
  match r with Ok a => k a | Err e => Ret (Err e) end.

Notation "x ?← r ; k" := (ensure r (fun x => k)) (at level 20, r at level 100, k at level 200).
Notation "' x ?← r ; k" := (ensure r (fun x => k)) (at level 20, x pattern, r at level 100, k at level 200).

(** ** Errors and their texts *)

Definition display_writer (e : LedgerWriterError) : rstr :=
  match e with
  | Fidelity.Ledger e => lit "failed to initialize usage ledger: " ++ Fidelity.display e
  | Fidelity.Thread m => lit "failed to start usage ledger writer: " ++ m
  | Fidelity.Unavailable => lit "usage ledger writer is unavailable"
  | Fidelity.Durability m => lit "durable fidelity reservation failed: " ++ m
  | Fidelity.AccountingIncomplete detail incident =>
      lit "executed fidelity operation was not written to the ledger: " ++ detail ++ lit "; durable_incident="
      ++ (if incident then lit "true" else lit "false")
  end.

Definition display_executor (e : ExecutorError) : rstr :=
  match e with
  | Model e => Adapter.display_model e
  | SpawnError p s => lit "failed to spawn " ++ p ++ lit ": " ++ s
  | FollowError t => t
  end.

Definition error_of {E A} (r : result E A) : option E := match r with Ok _ => None | Err e => Some e end.

(** ** Checks of a request *)

Definition MAX_CALLER_PATH_BYTES : N := 32 * 1024.

Definition validate_exec_timeout (timeout_ms : option N) : result ApiError unit :=
  guard_err (match timeout_ms with Some value => negb ((1 <=? value) && (value <=? 1800000)) | None => false end)
    (Api.bad_request (lit "execution timeout must be between 1 and 1800000 milliseconds")).

Definition validate_caller_path (caller_path : option rstr) : result ApiError unit :=
  guard_err (match caller_path with
             | Some path => (MAX_CALLER_PATH_BYTES <? N.of_nat (blen path)) || contains_char 0 path
             | None => false
             end)
    (Api.bad_request (lit "caller PATH must not exceed 32768 bytes or contain NUL")).

Definition managed_timeout_ms (request_timeout_ms : N) (requested : option N) : result ApiError N :=
  let available := N.max (sat_sub request_timeout_ms 500) 1 in
  _ ← guard_err (match requested with Some timeout => available <? timeout | None => false end)
        (Api.bad_request (lit "execution timeout exceeds the daemon's " ++ dec available ++ lit " millisecond managed limit"));
  Ok (default available requested).

Definition remaining_ms (limit_ms elapsed_ms : N) : result ApiError N :=
  let remaining := sat_sub limit_ms elapsed_ms in
  if remaining =? 0
  then Err (Api.service (lit "execution_timed_out") (lit "execution deadline elapsed before the child process started") true)
  else Ok remaining.

Definition canonical_workspace (value : rstr) : Prog (result ApiError rstr) :=
  _ ?← guard_err (is_empty (trim value)) (Api.bad_request (lit "workspace path must not be empty"));
  canonical ← call (Canonicalize value);
  Ret (match canonical with
       | Err error => Err (Api.bad_request (lit "invalid workspace path: " ++ error))
       | Ok (path, directory) =>
           if directory : bool then Ok path else Err (Api.bad_request (lit "workspace path must be a directory"))
       end).

(** ** The records of the ledger *)

(** [with_exec_channel]. *)
Definition exec_channel (channel : option AccountingChannel.t) : OperationChannel :=
  match default AccountingChannel.HookCli channel with
  | AccountingChannel.HookCli => HookCli
  | AccountingChannel.Mcp => Mcp
  | AccountingChannel.NativeHost => NativeHost
  end.

Definition delivered_tokens (r : ExecutionResult) : N :=
  div_ceil (sat_add u64_max (total_bytes (stdout r)) (total_bytes (stderr r))) 4.

Definition fidelity_pending_record_for_context (cwd : rstr) (agent session_id : option rstr) (evasion : EvasionAttribution)
    (granted : bool) : OperationRecord :=
  {| Fidelity.r_input_tokens := 0; Fidelity.r_output_tokens := 0; Fidelity.r_execution_ms := 0; Fidelity.project_path := cwd;
     Fidelity.r_measurement := Fidelity.Unmeasured; Fidelity.r_agent := agent; Fidelity.session_id := session_id;
     Fidelity.attribution := None; Fidelity.r_evasion := Some evasion; Fidelity.r_host_grant_applied := granted |}.

Definition fidelity_operation_record_for_context (cwd : rstr) (agent session_id : option rstr) (evasion : EvasionAttribution)
    (outcome : ExecutionOutcome) (granted : bool) : option OperationRecord :=
  match outcome with
  | Completed r =>
      Some {| Fidelity.r_input_tokens := delivered_tokens r; Fidelity.r_output_tokens := delivered_tokens r;
              Fidelity.r_execution_ms := duration_ms r; Fidelity.project_path := cwd;
              Fidelity.r_measurement := Fidelity.Estimated; Fidelity.r_agent := agent; Fidelity.session_id := session_id;
              Fidelity.attribution := None; Fidelity.r_evasion := Some evasion; Fidelity.r_host_grant_applied := granted |}
  | _ => None
  end.

Definition raw_execution_record (request : Policy.ExecApiRequest) (cwd : rstr) (outcome : ExecutionOutcome) : option OperationRecord :=
  match outcome with
  | Completed r =>
      Some {| Fidelity.r_input_tokens := delivered_tokens r; Fidelity.r_output_tokens := delivered_tokens r;
              Fidelity.r_execution_ms := duration_ms r; Fidelity.project_path := cwd;
              Fidelity.r_measurement := Fidelity.Estimated; Fidelity.r_agent := Policy.agent request;
              Fidelity.session_id := Policy.session_id request; Fidelity.attribution := None; Fidelity.r_evasion := None;
              Fidelity.r_host_grant_applied := false |}
  | _ => None
  end.

Definition mark_accounting_incomplete (outcome : ExecutionOutcome) (error : option LedgerWriterError) : ExecutionOutcome :=
  match error, outcome with
  | Some error, Completed r =>
      ExecutedAccountingIncomplete r
        {| code := lit "fidelity_accounting_incomplete"; retryable := false;
           incident_persisted := Fidelity.incident_persisted error |}
  | _, _ => outcome
  end.

Definition approved_execution_decision (proposed : CanonicalCommand) (evasion : option EvasionAttribution) : RewriteDecision :=
  if match evasion with Some e => bool_decide (class e = EvasionClass.E7FidelityHatch) | None => false end
  then AllowRaw (lit "user approved the pending T4 fidelity command")
  else AllowRewrite proposed (Rtk Adapter.PINNED_RTK_VERSION Optimized) (lit "user approved the pending fork-core command").

Definition canonical_command_text (command : CanonicalCommand) : rstr :=
  match command with Argv program args => join (lit " ") (program :: args) | Shell _ command => command end.

(** ** The executor *)

Record ExecutionEnvelope := {
  e_command : CanonicalCommand;
  decision : RewriteDecision;
  cwd : option rstr;
  environment : Environment;
  timeout_ms : option N;
  capture : CaptureConfig;
}.

Definition default_capture (directory : rstr) : CaptureConfig :=
  {| memory_limit_bytes := 256 * 1024; max_capture_bytes := 64 * 1024 * 1024; overflow := Spill directory; event_buffer := 64 |}.

(** An outcome without a process, or a process: what it runs, and whether that is the
    command as it was requested. *)
Inductive ExecutionHandle := Immediate (outcome : ExecutionOutcome) | Process (executed : CanonicalCommand) (raw_fallback : bool).

Definition spawn_command (command : CanonicalCommand) (envelope : ExecutionEnvelope) : Prog (result ExecutorError unit) :=
  match command with
  | Argv [] _ => Ret (Err (Model EmptyProgram))
  | Shell [] _ => Ret (Err (Model EmptyShell))
  | _ =>
      error ← call (SpawnProcess command (environment envelope) (cwd envelope));
      Ret (match error with None => Ok tt | Some source => Err (SpawnError (program command) source) end)
  end.

Definition start_process (envelope : ExecutionEnvelope) : Prog (result ExecutorError ExecutionHandle) :=
  let requested := e_command envelope in
  let preferred := match decision envelope with AllowRewrite command _ _ => command | _ => requested end in
  let raw_fallback_allowed := match decision envelope with AllowRewrite _ HzrPolicy _ => true | _ => false end in
  child ← spawn_command preferred envelope;
  match child with
  | Ok _ => Ret (Ok (Process preferred false))
  | Err error =>
      if raw_fallback_allowed
      then child ← spawn_command requested envelope; _ ?← child; Ret (Ok (Process requested true))
      else Ret (Err error)
  end.

(** [ExecutionPipeline::start]. *)
Definition start (envelope : ExecutionEnvelope) : Prog (result ExecutorError ExecutionHandle) :=
  match validate (capture envelope) with
  | Err e => Ret (Err (Model e))
  | Ok _ =>
      match decision envelope with
      | Ask proposed reason =>
          Ret (Ok (Immediate (NotStartedOutcome (ApprovalRequired None (e_command envelope) proposed reason))))
      | Deny reason => Ret (Ok (Immediate (NotStartedOutcome (Denied (e_command envelope) reason))))
      | AllowRaw _ | AllowRewrite _ _ _ => start_process envelope
      end
  end.

(** [ExecutionHandle::wait], with the end of [run_process]. *)
Definition wait (envelope : ExecutionEnvelope) (handle : ExecutionHandle) : Prog (result ExecutorError ExecutionOutcome) :=
  match handle with
  | Immediate outcome => Ret (Ok outcome)
  | Process executed raw_fallback =>
      ended ← call (WaitProcess executed (timeout_ms envelope) (capture envelope));
      z ?← ended;
      Ret (Ok (Completed
        {| requested := e_command envelope; executed := executed; Exec.decision := decision envelope;
           raw_fallback := raw_fallback; stdout := z_stdout z; stderr := z_stderr z; termination := z_termination z;
           duration_ms := z_duration_ms z |}))
  end.

(** ** Handlers *)

Section Handlers.
(** The configuration, the host's shell, [privacy_identity_hash], [serde_json] on an
    attribution, the derived [Debug] of a cancellation, and the directory of temporary
    files. *)
Context (request_timeout_ms : N) (host_shell : rstr) (identity_hash : rstr -> rstr -> rstr)
        (evasion_json : EvasionAttribution -> rstr) (debug_cancellation : result LedgerWriterError unit -> rstr)
        (temp_dir : rstr).

Definition HOST_GRANT_APPLIED : rstr := Grants.HOST_GRANT_APPLIED_ENV.

(** The allowance that another request took in the meantime. *)
Definition exhausted (evasion : EvasionAttribution) : EvasionAttribution :=
  {| class := class evasion; wrapper_depth := wrapper_depth evasion; interpreter := interpreter evasion;
     path_form := path_form evasion; stage_count := stage_count evasion; hatch_marker := hatch_marker evasion;
     avoidable := true; tier := EnforcementTier.T3BudgetExhaustion; fidelity_reason := fidelity_reason evasion;
     fidelity_validation := FidelityValidation.BudgetExhausted |}.

(** [daemon_fidelity_preflight], whose question to the ledger comes first. *)
Definition preflight_call (request : Policy.ExecApiRequest) (cwd : rstr) : Prog Operation.FidelityPreflight :=
  budget ← match Policy.session_id request with
           | Some session =>
               if Policy.fidelity_requested request && negb (is_empty (trim session)) then call (Usage session) else Ret None
           | None => Ret None
           end;
  files ← call LookAtFiles;
  Ret (Policy.daemon_fidelity_preflight (metadata files) (read_sample files) (fun _ => budget) cwd request).

Definition daemon_fidelity_preflight_for_run (request : Policy.ExecApiRequest) (cwd : rstr)
  : Prog (Operation.FidelityPreflight * option FidelityReservation) :=
  preflight ← preflight_call request cwd;
  match preflight with
  | Operation.Allow evasion bound =>
      match Policy.session_id request with
      | None =>
          Ret (Operation.Ask evasion (lit "T4 fidelity preflight cannot reserve an anonymous session allowance"), None)
      | Some session =>
          answer ← call (Reserve session bound false);
          Ret (match answer with
               | Ok (Some reservation) => (preflight, Some reservation)
               | Ok None =>
                   (Operation.Ask (exhausted evasion)
                      (lit "T4 fidelity session allowance is exhausted or concurrently reserved"), None)
               | Err error =>
                   (Operation.Ask evasion
                      (lit "T4 fidelity allowance reservation is unavailable; execution remains blocked: "
                       ++ display_writer error), None)
               end)
      end
  | _ => Ret (preflight, None)
  end.

Definition record_exec_policy_event (request : Policy.ExecApiRequest) (cwd : rstr) (evasion : option EvasionAttribution)
    (decision : RewriteDecision) : Prog (result ApiError unit) :=
  let event :=
    match decision with
    | Ask _ _ => Some PolicyDecision.Ask
    | Deny _ => Some PolicyDecision.Deny
    | AllowRewrite _ _ _ => Some PolicyDecision.Correction
    | AllowRaw _ => None
    end in
  match evasion, event with
  | Some evasion, Some event =>
      answer ← call (WritePolicyEvent
        {| e_project_path := cwd; e_agent := Policy.agent request; e_session_id := Policy.session_id request;
           e_evasion := evasion; e_decision := event; e_command_identity := Some (Policy.command request) |});
      Ret (match answer with
           | Ok _ => Ok tt
           | Err error => Err (Api.internal (lit "policy event ledger write failed: " ++ display_writer error))
           end)
  | _, _ => Ret (Ok tt)
  end.

Definition register_accounting_context (correlation_id : option rstr) (workspace : rstr) (agent session_id : option rstr)
    (channel : option AccountingChannel.t) (summary : option rstr) : Prog (result ApiError unit) :=
  match correlation_id with
  | None => Ret (Ok tt)
  | Some correlation_id =>
      error ← call (Register
        {| correlation := correlation_id; g_workspace := workspace; g_agent := agent; g_session_id := session_id;
           g_channel := default AccountingChannel.HookCli channel; command_summary := summary |});
      Ret (match error with
           | None => Ok tt
           | Some error => Err (Api.internal (lit "accounting receipt registration failed: " ++ error))
           end)
  end.

Definition complete_accounting_context (correlation_id : option rstr) : Prog unit :=
  match correlation_id with Some correlation_id => call (CompleteContext correlation_id) | None => Ret tt end.

(** [let _ = state.ledger.cancel_fidelity(reservation).await]. *)
Definition release (reservation : option FidelityReservation) : Prog unit :=
  match reservation with Some r => _ ← call (Cancel r false); Ret tt | None => Ret tt end.

(** The environment of the envelope. *)
Definition run_environment (plan : RtkRewriteOutcome) (grant_applied : bool) (caller_path : option rstr) : Environment :=
  let e := Adapter.apply_evasion_environment evasion_json plan {| Adapter.set := ∅; Adapter.remove := [] |} in
  let e := if grant_applied
           then {| Adapter.set := <[HOST_GRANT_APPLIED := lit "1"]> (Adapter.set e); Adapter.remove := Adapter.remove e |} else e in
  match caller_path with
  | Some path => {| Adapter.set := <[lit "PATH" := path]> (Adapter.set e); Adapter.remove := Adapter.remove e |}
  | None => e
  end.

(** The texts in which the two handlers differ. *)
Record Wording := {
  boundary_failed : rstr; boundary_rerun : rstr; not_spawned : rstr; no_completion : rstr; may_have_started : rstr;
}.

Definition run_wording : Wording :=
  {| boundary_failed := lit "command was not executed because the durable execution boundary failed: ";
     boundary_rerun := lit "; rerun the original command";
     not_spawned := lit "process was not spawned (";
     no_completion := lit "executor returned no recordable completion after the execution boundary; durable state retained";
     may_have_started := lit "execution may have started before the executor failed: " |}.

Definition approval_wording : Wording :=
  {| boundary_failed := lit "approved command was not executed because the durable execution boundary failed: ";
     boundary_rerun := lit "; rerun the original command to request a new approval";
     not_spawned := lit "approved process was not spawned (";
     no_completion := lit "approved executor returned no recordable completion after the execution boundary; durable state retained";
     may_have_started := lit "approved execution may have started before the executor failed: " |}.

(** The boundary on disk before the process, with the record of the reservation. *)
Definition cross_boundary (w : Wording) (pending : option (FidelityReservation * OperationRecord)) (channel : OperationChannel)
  : Prog (result ApiError unit) :=
  match pending with
  | None => Ret (Ok tt)
  | Some (reservation, record) =>
      answer ← call (Begin reservation record channel);
      match answer with
      | Ok _ => Ret (Ok tt)
      | Err error =>
          cancellation ← call (Cancel reservation false);
          Ret (Err (Api.service (lit "fidelity_execution_boundary_failed")
            (boundary_failed w ++ display_writer error ++ lit "; cancellation=" ++ debug_cancellation cancellation
             ++ boundary_rerun w) false))
      end
  end.

(** Starting and following the process: its outcome, and whether the executor took it. *)
Definition start_and_wait (w : Wording) (envelope : ExecutionEnvelope) (reservation : option FidelityReservation)
  : Prog (result ApiError (result ExecutorError ExecutionOutcome * bool)) :=
  started ← start envelope;
  match started with
  | Ok handle => outcome ← wait envelope handle; Ret (Ok (outcome, true))
  | Err error =>
      match reservation with
      | None => Ret (Ok (Err error, false))
      | Some r =>
          answer ← call (Cancel r true);
          Ret (match answer with
               | Ok _ => Ok (Err error, false)
               | Err recovery =>
                   Err (Api.service (lit "fidelity_pre_spawn_recovery_failed")
                     (not_spawned w ++ display_executor error ++ lit "), but its durable reservation could not be released: "
                      ++ display_writer recovery ++ lit "; do not replay until `hzr doctor` is clean") false)
               end)
      end
  end.

(** The completion of the reservation, and what went wrong with it; [record] makes the
    record of an outcome. *)
Definition complete_reservation (w : Wording) (reservation : option FidelityReservation)
    (outcome : result ExecutorError ExecutionOutcome) (record : ExecutionOutcome -> option OperationRecord)
    (channel : OperationChannel) : Prog (option LedgerWriterError) :=
  match reservation, outcome with
  | Some r, Ok execution =>
      match record execution with
      | Some record => answer ← call (Complete r record channel); Ret (error_of answer)
      | None => Ret (Some (Fidelity.execution_unknown (no_completion w)))
      end
  | _, _ => Ret None
  end.

Definition execution_error (w : Wording) (unknown : bool) (error : ExecutorError) : ApiError :=
  if unknown
  then Api.service (lit "fidelity_execution_state_unknown")
         (may_have_started w ++ display_executor error ++ lit "; do not replay; inspect `hzr doctor`") false
  else Api.service (lit "execution_failed") (display_executor error) true.

(** What [execute_command] does with a decision that does not ask. *)
Definition run_decided (request : Policy.ExecApiRequest) (output_directory : option rstr) (limit_ms : N) (workspace : rstr)
    (plan : RtkRewriteOutcome) (final : RewriteDecision) (reservation : option FidelityReservation)
  : Prog (result ApiError ExecutionOutcome) :=
  let w := run_wording in
  let grant_applied := host_grant_applied final in
  let channel := exec_channel (Policy.channel request) in
  let correlation_id := Adapter.accounting_correlation_id plan in
  registered ← register_accounting_context correlation_id workspace (Policy.agent request) (Policy.session_id request)
                 (Policy.channel request) (Operation.command_summary (Policy.command request));
  _ ?← registered;
  elapsed ← call Elapsed;
  remaining ?← remaining_ms limit_ms elapsed;
  let envelope :=
    {| e_command := Shell host_shell (Policy.command request); decision := final; cwd := Some workspace;
       environment := run_environment plan grant_applied (Policy.caller_path request);
       timeout_ms := Some remaining; capture := default_capture (default temp_dir output_directory) |} in
  let pending :=
    r ← reservation; evasion ← Adapter.evasion plan;
    Some (r, fidelity_pending_record_for_context workspace (Policy.agent request) (Policy.session_id request) evasion grant_applied) in
  boundary ← cross_boundary w pending channel;
  _ ?← boundary;
  ran ← start_and_wait w envelope reservation;
  '(outcome, process_started) ?← ran;
  _ ← complete_accounting_context correlation_id;
  accounting_error ← complete_reservation w reservation outcome
    (fun execution =>
       evasion ← Adapter.evasion plan;
       fidelity_operation_record_for_context workspace (Policy.agent request) (Policy.session_id request) evasion execution
         grant_applied) channel;
  match outcome with
  | Err error => Ret (Err (execution_error w (bool_decide (is_Some reservation) && process_started) error))
  | Ok outcome =>
      let answer := Ret (Ok (mark_accounting_incomplete outcome accounting_error)) in
      match final, reservation, raw_execution_record request workspace outcome with
      | AllowRaw _, None, Some record =>
          written ← call (WriteOperation record channel);
          match written, outcome with
          | Err error, Completed r =>
              Ret (Ok (ExecutedAccountingIncomplete r
                {| code := lit "raw_execution_accounting_incomplete"; retryable := false;
                   incident_persisted := Fidelity.incident_persisted error |}))
          | _, _ => answer
          end
      | _, _, _ => answer
      end
  end.

(** The plan of a request: that of the engine, unless the preflight asks. *)
Definition plan_of (request : Policy.ExecApiRequest) (preflight : Operation.FidelityPreflight) : Prog RtkRewriteOutcome :=
  let command := Shell host_shell (Policy.command request) in
  match preflight with
  | Operation.Ask evasion reason =>
      Ret {| Adapter.decision := Ask (Some command) reason; Adapter.evasion := Some evasion;
             Adapter.accounting_correlation_id := None; Adapter.host_permission := None |}
  | _ =>
      engine ← call AskEngine;
      let plan := if Policy.fidelity_requested request then engine command true
                  else Policy.fork_outcome_with_managed_unwrap engine host_shell (Policy.command request) in
      Ret (match preflight with Operation.Allow evasion _ => Policy.with_evasion (Some evasion) plan | _ => plan end)
  end.

(** The question of a decision that asks: what it proposes waits for an approval. *)
Definition ask_for (request : Policy.ExecApiRequest) (limit_ms : N) (workspace trace : rstr) (plan : RtkRewriteOutcome)
    (proposed : option CanonicalCommand) (reason : rstr) : Prog (result ApiError ExecutionOutcome) :=
  let command := Shell host_shell (Policy.command request) in
  decision_id ←
    match proposed with
    | None => Ret None
    | Some proposed =>
        id ← call (Approve
          {| p_channel := Policy.channel request; p_requested := command;
             approved_decision := approved_execution_decision proposed (Adapter.evasion plan);
             p_evasion := Adapter.evasion plan; p_correlation := Adapter.accounting_correlation_id plan;
             p_cwd := workspace; p_timeout_ms := Some limit_ms; p_caller_path := Policy.caller_path request;
             p_agent := Policy.agent request; p_session_id := Policy.session_id request; trace_hash := trace |});
        Ret (Some id)
    end;
  Ret (Ok (NotStartedOutcome (ApprovalRequired decision_id command proposed reason))).

(** A job may be cancelled until here. *)
Definition unless_cancelled (command : CanonicalCommand) (job : option (N * rstr)) (reservation : option FidelityReservation)
    (k : Prog (result ApiError ExecutionOutcome)) : Prog (result ApiError ExecutionOutcome) :=
  cancelled ← match job with Some _ => call IsCancelled | None => Ret false end;
  if cancelled : bool
  then
    let answer := NotStartedOutcome (Denied command (lit "execution cancelled before process creation")) in
    match reservation with
    | None => Ret (Ok answer)
    | Some r =>
        released ← call (Cancel r false);
        Ret (match released with
             | Ok _ => Ok answer
             | Err error => Err (Api.internal (lit "cancel execution reservation: " ++ display_writer error))
             end)
    end
  else k.

(** [execute_command]; a job brings its time limit, its cancellation and a directory. *)
Definition execute_command (request : Policy.ExecApiRequest) (job : option (N * rstr)) : Prog (result ApiError ExecutionOutcome) :=
  _ ?← guard_err (is_empty (trim (Policy.command request))) (Api.bad_request (lit "command must not be empty"));
  _ ?← validate_exec_timeout (Policy.timeout_ms request);
  _ ?← validate_caller_path (Policy.caller_path request);
  limit_ms ?← match job with
              | Some (limit_ms, _) => Ok limit_ms
              | None => managed_timeout_ms request_timeout_ms (Policy.timeout_ms request)
              end;
  canonical ← canonical_workspace (Policy.cwd request);
  workspace ?← canonical;
  trace ← call (BeginTrace workspace (Policy.session_id request));
  '(preflight, reservation) ← daemon_fidelity_preflight_for_run request workspace;
  plan ← plan_of request preflight;
  now ← call Clock;
  let final := Policy.apply_host_grant identity_hash now request
                 (Policy.enforce_first_class (Policy.command request) (Adapter.decision plan)) in
  event ← record_exec_policy_event request workspace (Adapter.evasion plan) final;
  match event, final with
  | Err error, _ => _ ← release reservation; Ret (Err error)
  | Ok _, Ask proposed reason => _ ← release reservation; ask_for request limit_ms workspace trace plan proposed reason
  | Ok _, _ =>
      unless_cancelled (Shell host_shell (Policy.command request)) job reservation
        (run_decided request (snd <$> job) limit_ms workspace plan final reservation)
  end.

(** The session of an approved request for exact output. *)
Definition approved_session (session_id : option rstr) : result ApiError rstr :=
  match session_id with
  | Some session =>
      if is_empty (trim session)
      then Err (Api.bad_request (lit "approved fidelity execution requires a non-empty session identity")) else Ok session
  | None => Err (Api.bad_request (lit "approved fidelity execution requires a non-empty session identity"))
  end.

(** The reservation of an approved request, which may exceed the allowance. *)
Definition reserve_approved (exact : option EvasionAttribution) (session_id : option rstr)
  : Prog (result ApiError (option FidelityReservation)) :=
  match exact with
  | None => Ret (Ok None)
  | Some _ =>
      session ?← approved_session session_id;
      answer ← call (Reserve session (Fidelity.max_delivered_tokens Fidelity.default_allowance) true);
      let failed error :=
        Err (Api.service (lit "fidelity_reservation_failed")
          (lit "approved command was not executed because its durable fidelity reservation failed: " ++ display_writer error
           ++ lit "; rerun the original command to request a new approval") false) in
      Ret (match answer with
           | Ok (Some r) => Ok (Some r)
           | Ok None => failed (Fidelity.Durability (lit "approved reservation was rejected"))
           | Err error => failed error
           end)
  end.

(** [exec_approval]. *)
Definition exec_approval (decision_id : rstr) (approved : bool) : Prog (result ApiError ExecutionOutcome) :=
  _ ?← guard_err (is_empty (trim decision_id) || (128 <? N.of_nat (blen decision_id)))
         (Api.bad_request (lit "invalid approval decision id"));
  taken ← call (Take decision_id);
  pending ?← ok_or taken (Api.bad_request (lit "approval is unknown, expired, or already used"));
  if negb approved
  then Ret (Ok (NotStartedOutcome (Denied (p_requested pending) (lit "user denied the pending fork-core command"))))
  else
    let w := approval_wording in
    let channel := exec_channel (p_channel pending) in
    let exact := evasion ← p_evasion pending;
                 if bool_decide (class evasion = EvasionClass.E7FidelityHatch) then Some evasion else None in
    reserved ← reserve_approved exact (p_session_id pending);
    reservation ?← reserved;
    registered ← register_accounting_context (p_correlation pending) (p_cwd pending) (p_agent pending) (p_session_id pending)
                   (p_channel pending) (Operation.command_summary (canonical_command_text (p_requested pending)));
    _ ?← registered;
    let plan := {| Adapter.decision := approved_decision pending; Adapter.evasion := p_evasion pending;
                   Adapter.accounting_correlation_id := p_correlation pending; Adapter.host_permission := None |} in
    let envelope :=
      {| e_command := p_requested pending; decision := approved_decision pending; cwd := Some (p_cwd pending);
         environment := run_environment plan false (p_caller_path pending); timeout_ms := p_timeout_ms pending;
         capture := default_capture temp_dir |} in
    let record evasion := fidelity_pending_record_for_context (p_cwd pending) (p_agent pending) (p_session_id pending) evasion false in
    boundary ← cross_boundary w (r ← reservation; evasion ← exact; Some (r, record evasion)) channel;
    _ ?← boundary;
    ran ← start_and_wait w envelope reservation;
    '(outcome, process_started) ?← ran;
    _ ← complete_accounting_context (p_correlation pending);
    accounting_error ← complete_reservation w reservation outcome
      (fun execution =>
         evasion ← exact;
         fidelity_operation_record_for_context (p_cwd pending) (p_agent pending) (p_session_id pending) evasion execution false)
      channel;
    Ret (match outcome with
         | Err error => Err (execution_error w (bool_decide (is_Some reservation) && process_started) error)
         | Ok outcome => Ok (mark_accounting_incomplete outcome accounting_error)
         end).

(** [fidelity_reconcile]. *)
Definition fidelity_reconcile (reservation_id : rstr) (how : Fidelity.FidelityUnknownResolution)
  : Prog (result ApiError Fidelity.FidelityReconcileReceipt) :=
  let reservation_id := trim reservation_id in
  _ ?← guard_err (is_empty reservation_id || (128 <? N.of_nat (blen reservation_id))
                  || negb (forallb (fun c => is_ascii_alphanumeric c || (c =? ch "-")) reservation_id))
         (Api.bad_request (lit "invalid fidelity reservation id"));
  answer ← call (Reconcile reservation_id how);
  Ret (match answer with
       | Ok receipt => Ok receipt
       | Err error => Err (Api.service (lit "fidelity_reconcile_failed") (display_writer error) false)
       end).

End Handlers.
End DaemonExec.
