(* ===== verification/DaemonSpec.v ===== *)
(** What the handlers of [DaemonExec] keep to: which calls they make after which others,
    which commands they start, which approvals they ask for and what they answer.

    A handler's past is the list of its notes ([Note]), of the calls that matter here
    and their answers.  [always] says that a program keeps to a discipline whatever its
    calls are answered; the handlers do ([execute_command_always],
    [exec_approval_always]), piece by piece. *)

From S2P Require Import Prelude RStr Contract Operation Exec Api ExecOutput Adapter Grants Policy Fidelity DaemonExec.
From Stdlib Require Import ZifyBool ZifyN ZifyNat.

Module DaemonSpec.
Import Contract Exec DaemonExec.

#[local] Arguments lit : simpl never.

Create HintDb tasks.

(** ** Notes *)

Inductive Note :=
| NReserved (r : FidelityReservation) (session : rstr)
| NBegun
| NReleased
| NCompleted (r : FidelityReservation) (ok : bool)
| NEngine (engine : CanonicalCommand -> bool -> RtkRewriteOutcome)
| NTime (now : N)
| NAsked (decision_id : rstr) (pending : PendingApproval)
| NTaken (decision_id : rstr) (pending : PendingApproval)
| NNotSpawned (command : CanonicalCommand)
| NSpawned (command : CanonicalCommand) (environment : Environment).

Definition note (c : Call) : Reply c -> option Note :=
  match c with
  | Reserve session _ _ => fun a => match a with Ok (Some r) => Some (NReserved r session) | _ => None end
  | Begin _ _ _ => fun a => if is_ok a then Some NBegun else None
  | Complete r _ _ => fun a => Some (NCompleted r (is_ok a))
  | Cancel _ _ => fun _ => Some NReleased
  | AskEngine => fun engine => Some (NEngine engine)
  | Clock => fun now => Some (NTime now)
  | Approve pending => fun id => Some (NAsked id pending)
  | Take id => fun a => NTaken id <$> a
  | SpawnProcess c e _ => fun a => Some (match a with None => NSpawned c e | Some _ => NNotSpawned c end)
  | _ => fun _ => None
  end.

(** Calls that leave no note and ask for nothing. *)
Definition mute (c : Call) : bool :=
  match c with
  | Canonicalize _ | BeginTrace _ _ | LookAtFiles | Usage _ | Reconcile _ _ | WritePolicyEvent _ | IsCancelled | Register _
  | CompleteContext _ | Elapsed | WaitProcess _ _ _ | WriteOperation _ _ => true
  | _ => false
  end.

Definition noted (h : list Note) (n : option Note) : list Note := match n with Some n => h ++ [n] | None => h end.

(** *** The reservation a handler holds *)

Inductive Phase := PReserved | PExecuting | PRunning.
#[export] Instance phase_eq : EqDecision Phase.
Proof. solve_decision. Defined.

(** The reservation in hand, if any, and those under which a process was started. *)
Definition Holding : Type := option (FidelityReservation * rstr * Phase) * list rstr.

Definition hold (s : Holding) (n : Note) : Holding :=
  match n, s.1 with
  | NReserved r session, _ => (Some (r, session, PReserved), s.2)
  | NBegun, Some (r, session, _) => (Some (r, session, PExecuting), s.2)
  | (NReleased | NCompleted _ _), _ => (None, s.2)
  | NSpawned _ _, Some (r, session, _) => (Some (r, session, PRunning), Fidelity.id r :: s.2)
  | _, _ => s
  end.

Definition holding (h : list Note) : Holding := foldl hold (None, []) h.
Definition own (h : list Note) : option (FidelityReservation * rstr * Phase) := (holding h).1.

(** The reservations under which a handler with these notes started a process. *)
Definition exact_runs (h : list Note) : list rstr := (holding h).2.

Lemma holding_noted h n : holding (noted h n) = match n with Some n => hold (holding h) n | None => holding h end.
Proof. destruct n as [n|]; [unfold holding; simpl; rewrite foldl_app|]; reflexivity. Qed.

(** ** What a program always does *)

(** A discipline: what may be called after which notes, with which notes, and what answered. *)
Record Spec (A : Type) := {
  on_call : list Note -> Call -> Prop;
  on_note : list Note -> Note -> Prop;
  on_answer : list Note -> A -> Prop;
}.
#[global] Arguments on_call {_} _ _ _.
#[global] Arguments on_note {_} _ _ _.
#[global] Arguments on_answer {_} _ _ _.

Definition fine {A} (s : Spec A) (h : list Note) (n : option Note) : Prop := match n with Some n => on_note s h n | None => True end.

Fixpoint always {A} (s : Spec A) (h : list Note) (p : Prog A) : Prop :=
  match p with
  | Ret a => on_answer s h a
  | Do c k =>
      (mute c = true \/ on_call s h c)
      /\ forall x, fine s h (note c x) /\ always s (noted h (note c x)) (k x)
  end.

(** The same discipline with another claim about the answer. *)
Definition answering {A B} (s : Spec A) (Q : list Note -> B -> Prop) : Spec B :=
  {| on_call := on_call s; on_note := on_note s; on_answer := Q |}.

Lemma always_bind {A B} (s : Spec B) (Q : list Note -> A -> Prop) (p : Prog A) (f : A -> Prog B) h :
  always (answering s Q) h p -> (forall h' a, Q h' a -> always s h' (f a)) -> always s h (p ≫= f).
Proof.
  unfold mbind, prog_bind. intros Hp Hf. revert h Hp. induction p as [a|c k IH]; intros h Hp; [apply Hf, Hp|].
  destruct Hp as [Hc Hk]. split; [exact Hc|]. intros x. destruct (Hk x) as [Hn Ha]. split; [exact Hn|]. apply IH, Ha.
Qed.

Lemma always_weaken {A} (s : Spec A) (Q Q' : list Note -> A -> Prop) (p : Prog A) h :
  (forall h a, Q h a -> Q' h a) -> always (answering s Q) h p -> always (answering s Q') h p.
Proof.
  intros HQ. revert h. induction p as [a|c k IH]; intros h; simpl; [apply HQ|].
  intros [Hc Hk]. split; [exact Hc|]. intros x. destruct (Hk x). split; auto.
Qed.

(** Programs that make mute calls only, and what they return. *)
Fixpoint silent {A} (Q : A -> Prop) (p : Prog A) : Prop :=
  match p with Ret a => Q a | Do c k => mute c = true /\ forall x, silent Q (k x) end.

Lemma mute_note c x : mute c = true -> note c x = None.
Proof. destruct c; try discriminate; reflexivity. Qed.

Lemma silent_bind {A B} (s : Spec B) (Q : A -> Prop) (p : Prog A) (f : A -> Prog B) h :
  silent Q p -> (forall a, Q a -> always s h (f a)) -> always s h (p ≫= f).
Proof.
  unfold mbind, prog_bind. intros Hp Hf. induction p as [a|c k IH]; simpl in *; [auto|]. destruct Hp as [Hm Hk].
  split; [auto|]. intros x. rewrite (mute_note c x Hm). split; [exact I|]. apply IH, Hk.
Qed.

(** One call and what follows. *)
Lemma call_bind {B} (s : Spec B) (c : Call) (f : Reply c -> Prog B) h :
  (mute c = true \/ on_call s h c) ->
  (forall x, fine s h (note c x) /\ always s (noted h (note c x)) (f x)) -> always s h (call c ≫= f).
Proof. intros Hc Hf. split; [exact Hc|exact Hf]. Qed.

Lemma mute_bind {B} (s : Spec B) (c : Call) (f : Reply c -> Prog B) h :
  mute c = true -> (forall x, always s h (f x)) -> always s h (call c ≫= f).
Proof. intros Hm Hf. apply silent_bind with (Q := fun _ => True); [|auto]. split; [exact Hm|]. intros; exact I. Qed.

Lemma always_ensure {E A B} (s : Spec (result E B)) (r : result E A) (k : A -> Prog (result E B)) h :
  (forall e, r = Err e -> on_answer s h (Err e)) -> (forall a, r = Ok a -> always s h (k a)) -> always s h (ensure r k).
Proof. intros He Ha. destruct r as [a|e]; simpl; auto. Qed.

(** ** The disciplines of the handlers *)

(** What the ledger may be asked for: one reservation at a time, its boundary before any
    process, its completion after one, and its release before; and a process only with
    no reservation in hand or behind its boundary. *)
Definition ledger_discipline (h : list Note) (c : Call) : Prop :=
  match c with
  | Reserve _ _ _ => own h = None
  | Begin r record _ => exists s, own h = Some (r, s, PReserved) /\ Fidelity.session_id record = Some s
  | Complete r record _ => exists s, own h = Some (r, s, PRunning) /\ Fidelity.session_id record = Some s
  | Cancel r proven => exists s, own h = Some (r, s, PReserved) \/ own h = Some (r, s, PExecuting) /\ proven = true
  | SpawnProcess _ _ _ => own h = None \/ exists r s, own h = Some (r, s, PExecuting)
  | _ => True
  end.

Definition spawned (h : list Note) : Prop := exists c e, NSpawned c e ∈ h.
Definition reserved (h : list Note) : Prop := exists r s, NReserved r s ∈ h.

Definition EXECUTION_UNKNOWN : rstr := lit "fidelity_execution_state_unknown".

(** An answer says what happened: nothing was started, or the very command that was
    started ended, completely accounted for if it was exact output. An error has the
    code of an unknown execution exactly if a process of exact output was started;
    one that was started without a reservation is answered as a failed execution, like
    a process that could not be started. *)
Definition truthful (h : list Note) (a : result ApiError ExecutionOutcome) : Prop :=
  match a with
  | Ok (NotStartedOutcome _) => ~ spawned h
  | Ok (Completed r) => (exists e, NSpawned (executed r) e ∈ h) /\ forall r' s, NReserved r' s ∈ h -> NCompleted r' true ∈ h
  | Ok (ExecutedAccountingIncomplete r _) => exists e, NSpawned (executed r) e ∈ h
  | Err e =>
      (Api.code e = EXECUTION_UNKNOWN <-> spawned h /\ reserved h)
      /\ (spawned h -> ~ reserved h -> Api.code e = lit "execution_failed")
  end.

(** Results whose error does not speak of an unknown execution. *)
Definition clean {A} (r : result ApiError A) : Prop :=
  match r with Ok _ => True | Err e => Api.code e <> EXECUTION_UNKNOWN end.

Lemma clean_guard b e : Api.code e <> EXECUTION_UNKNOWN -> clean (guard_err b e).
Proof. intros He. destruct b; simpl; auto. Qed.

Ltac cleanly := unfold validate_exec_timeout, validate_caller_path; repeat match goal with |- clean (guard_err _ _) => apply clean_guard end; try exact I; try (vm_compute; discriminate).

(** What an executor may run for a decision about a requested command: the command
    itself if it is allowed raw; what it was rewritten to; and the command itself again
    if an equivalent of hzr itself cannot be started. *)
Definition starts (requested : CanonicalCommand) (d : RewriteDecision) (h : list Note) (c : CanonicalCommand) : Prop :=
  match d with
  | AllowRaw _ => c = requested
  | AllowRewrite rewritten source _ =>
      c = rewritten \/ c = requested /\ source = HzrPolicy /\ (NNotSpawned rewritten ∈ h \/ program rewritten = [])
  | _ => False
  end.

(** A handler that runs commands, where [D] tells the decisions it may come to after
    its notes. It starts one process, which a decision allows, and asks about what one
    asks about. *)
Definition Decided : Type := list Note -> CanonicalCommand -> RewriteDecision -> Prop.

Definition run_spec (D : Decided) : Spec (result ApiError ExecutionOutcome) :=
  {| on_call := ledger_discipline;
     on_note h n :=
       match n with
       | NSpawned c _ => ~ spawned h /\ exists requested d, D h requested d /\ starts requested d h c
       | NAsked _ p =>
           exists proposed reason evasion, D h (p_requested p) (Ask (Some proposed) reason)
             /\ approved_decision p = approved_execution_decision proposed evasion
       | _ => True
       end;
     on_answer := truthful |}.

Definition extends (h h' : list Note) : Prop := forall n, n ∈ h -> n ∈ h'.

Section Run.
Context (D : Decided) (HD : forall h h' c d, extends h h' -> D h c d -> D h' c d).

#[local] Abbreviation spec Q := (answering (run_spec D) Q).

Lemma own_snoc h n : own (h ++ [n]) = (hold (holding h) n).1.
Proof. unfold own, holding. rewrite foldl_app. reflexivity. Qed.

Lemma spawned_snoc h n : spawned (h ++ [n]) <-> spawned h \/ exists c e, n = NSpawned c e.
Proof.
  unfold spawned. split.
  - intros (c & e & Hin). apply elem_of_app in Hin as [Hin|Hin%list_elem_of_singleton]; eauto.
  - intros [(c & e & Hin)|(c & e & ->)]; exists c, e; apply elem_of_app; [left|right; left]; auto.
Qed.

Lemma reserved_snoc h n r s : NReserved r s ∈ h ++ [n] <-> NReserved r s ∈ h \/ n = NReserved r s.
Proof. rewrite elem_of_app, list_elem_of_singleton. split; (intros [?|?]; [left|right]; auto). Qed.

Lemma extends_refl h : extends h h.
Proof. intros n Hn. exact Hn. Qed.

Lemma extends_snoc h n : extends h (h ++ [n]).
Proof. intros m Hm. apply elem_of_app. auto. Qed.

Lemma extends_trans h1 h2 h3 : extends h1 h2 -> extends h2 h3 -> extends h1 h3.
Proof. intros H1 H2 n Hn. auto. Qed.

(** The notes of a process that ran under [reservation]. *)
Definition only (h : list Note) (reservation : option FidelityReservation) : Prop :=
  (forall r s, NReserved r s ∈ h -> reservation = Some r) /\ (is_Some reservation -> reserved h).

Lemma only_snoc h n reservation :
  match n with NReserved _ _ => False | _ => True end -> only h reservation -> only (h ++ [n]) reservation.
Proof.
  intros Hn [Hr Hs]. split.
  - intros r s Hin. apply reserved_snoc in Hin as [Hin| ->]; [eauto|destruct Hn].
  - intros Hres. destruct (Hs Hres) as (r & s & Hin). exists r, s. apply reserved_snoc. auto.
Qed.

(** The handler holds [reservation], the only one it ever had, in this phase. *)
Record holds (h : list Note) (reservation : option FidelityReservation) (session : rstr) (ph : Phase) : Prop := {
  h_own : own h = (fun r => (r, session, ph)) <$> reservation;
  h_only : only h reservation;
}.

Lemma holds_snoc h n reservation session ph ph' :
  match n with
  | NReserved _ _ | NReleased | NCompleted _ _ => False
  | NBegun => ph' = PExecuting
  | NSpawned _ _ => ph' = PRunning
  | _ => ph' = ph
  end ->
  holds h reservation session ph -> holds (h ++ [n]) reservation session ph'.
Proof.
  intros Hph [Ho Hn]. split; [|apply only_snoc; [destruct n; auto|exact Hn]].
  rewrite own_snoc. unfold own in Ho. destruct (holding h) as [o l]. simpl in Ho. subst o.
  destruct n, reservation; simpl in *; try destruct Hph; subst; reflexivity.
Qed.

Lemma holds_none h session ph session' ph' : holds h None session ph -> holds h None session' ph'.
Proof. intros [Ho Hn]. split; auto. Qed.

Lemma not_spawned_snoc h n : match n with NSpawned _ _ => False | _ => True end -> ~ spawned h -> ~ spawned (h ++ [n]).
Proof. intros Hn Hs. rewrite spawned_snoc. intros [?|(? & ? & ->)]; auto. Qed.

#[local] Hint Resolve extends_refl extends_snoc holds_snoc not_spawned_snoc only_snoc I : tasks.

(** *** Their parts *)

Lemma cross_boundary_always debug w pending channel reservation session h :
  holds h reservation session PReserved -> ~ spawned h ->
  match reservation, pending with
  | None, None => True
  | Some r, Some (r', record) => r' = r /\ Fidelity.session_id record = Some session
  | _, _ => False
  end ->
  always (spec (fun h' a => extends h h' /\ ~ spawned h' /\ clean a /\ (a = Ok tt -> holds h' reservation session PExecuting))) h
    (cross_boundary debug w pending channel).
Proof.
  intros Hh Hs Hp. destruct reservation as [r|], pending as [[r' record]|]; try destruct Hp.
  2: { simpl. split; [auto with tasks|]. split; [exact Hs|]. split; [exact I|]. intros _. eapply holds_none, Hh. }
  subst r'. pose proof (h_own _ _ _ _ Hh) as Ho. apply call_bind; [right; exists session; auto|].
  intros [[]|e]; (split; [exact I|]).
  - simpl. split; [auto with tasks|]. split; [auto with tasks|]. split; [exact I|]. intros _. eapply holds_snoc; [reflexivity|exact Hh].
  - apply call_bind; [right; exists session; left; exact Ho|].
    intros y. simpl. split; [exact I|]. split; [auto with tasks|]. split; [auto with tasks|]. split; [vm_compute|]; discriminate.
Qed.

(** Starting a process behind the boundary. *)
Definition ran (h : list Note) (c : CanonicalCommand) : Prop := exists e, NSpawned c e ∈ h.

Lemma spawn_command_always h reservation session c envelope requested d :
  holds h reservation session PExecuting -> ~ spawned h -> D h requested d -> starts requested d h c ->
  always (spec (fun h' a => extends h h' /\
                 match a with
                 | Ok _ => holds h' reservation session PRunning /\ ran h' c
                 | Err _ => holds h' reservation session PExecuting /\ ~ spawned h' /\ (NNotSpawned c ∈ h' \/ program c = [])
                 end)) h (spawn_command c envelope).
Proof.
  intros Hh Hs HDh Hc. unfold spawn_command.
  assert (Hcall : always (spec (fun h' a => extends h h' /\
                 match a with
                 | Ok _ => holds h' reservation session PRunning /\ ran h' c
                 | Err _ => holds h' reservation session PExecuting /\ ~ spawned h' /\ (NNotSpawned c ∈ h' \/ program c = [])
                 end)) h (error ← call (SpawnProcess c (environment envelope) (cwd envelope));
                          Ret (match error with None => Ok tt | Some source => Err (SpawnError (program c) source) end))).
  { apply call_bind.
    - right. simpl. rewrite (h_own _ _ _ _ Hh). destruct reservation; simpl; eauto.
    - intros [source|]; (split; simpl; [|split; [auto with tasks|]]).
      + exact I.
      + split; [eapply holds_snoc; [reflexivity|exact Hh]|]. split; [auto with tasks|]. left. apply elem_of_app. right. left.
      + split; [exact Hs|eauto].
      + split; [eapply holds_snoc; [reflexivity|exact Hh]|]. exists (environment envelope). apply elem_of_app. right. left. }
  destruct c as [[|p0 p] args|[|s0 s] command]; try exact Hcall; simpl; auto with tasks.
Qed.

(** Why a handler may start what its envelope says. *)
Definition justified (h : list Note) (envelope : ExecutionEnvelope) : Prop := D h (e_command envelope) (decision envelope).

Definition begun (reservation : option FidelityReservation) (session : rstr) (h : list Note)
    (a : result ExecutorError ExecutionHandle) : Prop :=
  match a with
  | Ok (Process command _) => holds h reservation session PRunning /\ ran h command
  | Ok (Immediate outcome) => only h reservation /\ ~ spawned h /\ (exists s, outcome = NotStartedOutcome s)
  | Err _ => holds h reservation session PExecuting /\ ~ spawned h
  end.

Lemma start_always h reservation session envelope :
  holds h reservation session PExecuting -> ~ spawned h -> justified h envelope ->
  always (spec (fun h' a => extends h h' /\ begun reservation session h' a)) h (start envelope).
Proof.
  intros Hh Hs Hj. unfold start. destruct (validate (capture envelope)) as [u|e].
  2: { simpl. auto with tasks. }
  assert (Hp : forall allowed, decision envelope = allowed ->
    match allowed with AllowRaw _ | AllowRewrite _ _ _ => True | _ => False end ->
    always (spec (fun h' a => extends h h' /\ begun reservation session h' a)) h (start_process envelope)).
  2: { destruct (decision envelope) eqn:Hd; try (eapply Hp; [reflexivity|exact I]);
         simpl; split; auto with tasks; pose proof (h_only _ _ _ _ Hh); eauto. }
  intros d Hd Hok. unfold justified in Hj. rewrite Hd in Hj. unfold start_process. rewrite Hd.
  eapply always_bind; [eapply spawn_command_always with (d := d); [exact Hh|exact Hs|exact Hj|]|].
  { destruct d; simpl; auto. }
  intros h1 a [He Ha]. destruct a as [u'|error]; [simpl; auto|]. destruct Ha as (Hh1 & Hs1 & Hn).
  destruct d as [reason|rewritten source reason|p reason|reason]; try destruct Hok; [simpl; auto|].
  destruct source as [|version route]; [|simpl; auto].
  eapply always_bind; [eapply spawn_command_always with (d := AllowRewrite rewritten HzrPolicy reason)|].
  - exact Hh1.
  - exact Hs1.
  - eapply HD; [exact He|exact Hj].
  - right. auto.
  - intros h2 a [He2 Ha]. pose proof (extends_trans _ _ _ He He2). destruct a as [u'|e']; simpl; [auto|].
    destruct Ha as (? & ? & _). auto.
Qed.

(** What is known when a process was started and followed, or was not started. *)
Definition followed (reservation : option FidelityReservation) (session : rstr) (h : list Note)
    (a : result ApiError (result ExecutorError ExecutionOutcome * bool)) : Prop :=
  match a with
  | Ok (Ok (Completed r), _) => holds h reservation session PRunning /\ ran h (executed r)
  | Ok (Ok (NotStartedOutcome _), _) => ~ spawned h
  | Ok (Ok (ExecutedAccountingIncomplete _ _), _) => False
  | Ok (Err _, started) => only h reservation /\ (spawned h <-> started = true)
  | Err e => ~ spawned h /\ Api.code e <> EXECUTION_UNKNOWN
  end.

Lemma start_and_wait_always w envelope reservation session h :
  holds h reservation session PExecuting -> ~ spawned h -> justified h envelope ->
  always (spec (followed reservation session)) h (start_and_wait w envelope reservation).
Proof.
  intros Hh Hs Hj. unfold start_and_wait.
  eapply always_bind; [eapply start_always; eauto|]. intros h1 a [He Ha]. destruct a as [handle|error].
  - destruct handle as [outcome|executed fallback].
    + destruct Ha as (Ho & Hn & s & ->). simpl. exact Hn.
    + destruct Ha as [Hh1 Hr]. unfold wait. apply mute_bind; [reflexivity|]. intros [z|e]; simpl; [auto|].
      split; [apply Hh1|]. split; [auto|]. intros _. destruct Hr as [env Hr]. exists executed, env. exact Hr.
  - destruct Ha as [Hh1 Hs1]. destruct reservation as [r|].
    2: { simpl. split; [apply Hh1|]. split; [tauto|discriminate]. }
    apply call_bind; [right; exists session; right; split; [apply (h_own _ _ _ _ Hh1)|reflexivity]|].
    intros [u|e]; (split; [exact I|]); simpl.
    + split; [apply only_snoc; [exact I|apply Hh1]|]. split; [|discriminate].
      intros Hsp. destruct (not_spawned_snoc h1 NReleased I Hs1 Hsp).
    + split; [auto with tasks|vm_compute; discriminate].
Qed.

(** What is known once the reservation was completed, or needed none. *)
Definition accounted (reservation : option FidelityReservation) (started : bool) (outcome : result ExecutorError ExecutionOutcome)
    (h : list Note) (error : option LedgerWriterError) : Prop :=
  match outcome with
  | Ok (Completed r) => ran h (executed r) /\ (error = None -> forall r' s, NReserved r' s ∈ h -> NCompleted r' true ∈ h)
  | Ok (NotStartedOutcome _) => ~ spawned h
  | Ok (ExecutedAccountingIncomplete _ _) => False
  | Err _ => only h reservation /\ (spawned h <-> started = true)
  end.

Lemma complete_reservation_always w reservation session h outcome started record channel :
  followed reservation session h (Ok (outcome, started)) ->
  (is_Some reservation -> forall o rec, record o = Some rec -> Fidelity.session_id rec = Some session) ->
  (forall s, record (NotStartedOutcome s) = None) ->
  always (spec (accounted reservation started outcome)) h (complete_reservation w reservation outcome record channel).
Proof.
  intros Hf Hrec Hns. unfold complete_reservation.
  destruct reservation as [r|], outcome as [[e|e info|s]|error]; simpl in Hf; try destruct Hf as [Hh Hr]; try (rewrite ?Hns; simpl; auto; fail).
  2: destruct Hf.
  - destruct (record (Completed e)) as [rec|] eqn:E; [|simpl; split; [exact Hr|discriminate]].
    apply call_bind.
    { right. exists session. split; [apply (h_own _ _ _ _ Hh)|eapply Hrec; [eauto|exact E]]. }
    intros x. split; [exact I|]. simpl. split.
    + destruct Hr as [env Hr]. exists env. apply elem_of_app. auto.
    + intros Hx r' s' Hin. apply reserved_snoc in Hin as [Hin|?]; [|discriminate].
      destruct (h_only _ _ _ _ Hh) as [Ho _]. specialize (Ho _ _ Hin). injection Ho as <-.
      destruct x; [|discriminate]. apply elem_of_app. right. left.
  - simpl. split; [exact Hr|]. intros _ r' s' Hin. destruct (h_only _ _ _ _ Hh) as [Ho _]. discriminate (Ho _ _ Hin).
Qed.

(** The answer of a handler once its reservation is accounted for. *)
Lemma answer_truthful w reservation started outcome error h :
  accounted reservation started outcome h error ->
  truthful h (match outcome with
              | Err e => Err (execution_error w (bool_decide (is_Some reservation) && started) e)
              | Ok o => Ok (mark_accounting_incomplete o error)
              end).
Proof.
  destruct outcome as [[e|e info|s]|e]; simpl.
  - intros [Hr He]. destruct error; [exact Hr|]. split; [exact Hr|exact (He eq_refl)].
  - intros [].
  - destruct error; auto.
  - intros [[Ho Hs] Hst]. unfold execution_error. case_bool_decide as Hres; destruct started; simpl.
    + split; [split; [intros _; split; [apply Hst; reflexivity|auto]|reflexivity]|]. intros _ Hn. destruct (Hn (Hs Hres)).
    + split; [split; [intros He; vm_compute in He; discriminate|]|reflexivity]. intros [Hsp _]. discriminate (proj1 Hst Hsp).
    + split; [split; [intros He; vm_compute in He; discriminate|]|reflexivity]. intros [_ (r & s & Hin)].
      destruct Hres. rewrite (Ho _ _ Hin). eauto.
    + split; [split; [intros He; vm_compute in He; discriminate|]|reflexivity]. intros [Hsp _]. discriminate (proj1 Hst Hsp).
Qed.

End Run.
(** *** The handlers *)

Section Handlers.
Context (request_timeout_ms : N) (host_shell : rstr) (identity_hash : rstr -> rstr -> rstr)
        (evasion_json : EvasionAttribution -> rstr) (debug_cancellation : result LedgerWriterError unit -> rstr)
        (temp_dir : rstr).

#[local] Abbreviation shell request := (Shell host_shell (Policy.command request)).

Definition engine_plan (request : Policy.ExecApiRequest) (engine : CanonicalCommand -> bool -> RtkRewriteOutcome) : RtkRewriteOutcome :=
  if Policy.fidelity_requested request then engine (shell request) true
  else Policy.fork_outcome_with_managed_unwrap engine host_shell (Policy.command request).

(** The decision of a request: that of the engine, or the question of the preflight,
    under the policy of hzr and the grant of the host at that time. *)
Definition decided (request : Policy.ExecApiRequest) : Decided := fun h command d =>
  command = shell request /\
  exists now planned,
    NTime now ∈ h
    /\ d = Policy.apply_host_grant identity_hash now request (Policy.enforce_first_class (Policy.command request) planned)
    /\ ((exists engine, NEngine engine ∈ h /\ planned = Adapter.decision (engine_plan request engine))
        \/ Policy.fidelity_requested request = true /\ exists reason, planned = Ask (Some (shell request)) reason).

(** The decision of an approval: the one that was put aside, once it is approved. *)
Definition confirmed (decision_id : rstr) (approved : bool) : Decided := fun h command d =>
  approved = true /\ exists p, NTaken decision_id p ∈ h /\ command = p_requested p /\ d = approved_decision p.

Lemma decided_extends request h h' c d : extends h h' -> decided request h c d -> decided request h' c d.
Proof.
  intros He (Hc & now & planned & Hn & Hd & Hp). split; [exact Hc|]. exists now, planned. split; [auto|]. split; [exact Hd|].
  destruct Hp as [(engine & Hin & Hp)|Hp]; [left; eauto|right; exact Hp].
Qed.

Lemma confirmed_extends i approved h h' c d : extends h h' -> confirmed i approved h c d -> confirmed i approved h' c d.
Proof. intros He (Ha & p & Hin & Hr). split; [exact Ha|]. exists p. auto. Qed.

Lemma bind_silent {A B} (Q : A -> Prop) (R : B -> Prop) (p : Prog A) (f : A -> Prog B) :
  silent Q p -> (forall a, Q a -> silent R (f a)) -> silent R (p ≫= f).
Proof.
  unfold mbind, prog_bind. intros Hp Hf. induction p as [a|c k IH]; simpl in *; [auto|]. destruct Hp as [Hm Hk]. auto.
Qed.

Lemma canonical_workspace_silent v : silent clean (canonical_workspace v).
Proof.
  unfold canonical_workspace. destruct (is_empty (trim v)); simpl; [vm_compute; discriminate|]. split; [reflexivity|].
  intros [[path [|]]|error]; simpl; cleanly.
Qed.

Lemma register_silent correlation_id workspace agent session_id channel summary :
  silent clean (register_accounting_context correlation_id workspace agent session_id channel summary).
Proof.
  destruct correlation_id; simpl; [|exact I]. split; [reflexivity|]. intros [error|]; simpl; [vm_compute; discriminate|exact I].
Qed.

Lemma complete_context_silent correlation_id : silent (fun _ => True) (complete_accounting_context correlation_id).
Proof. destruct correlation_id; simpl; auto. Qed.

Lemma policy_event_silent request cwd evasion d : silent clean (record_exec_policy_event request cwd evasion d).
Proof.
  unfold record_exec_policy_event. destruct evasion, d; simpl; auto; (split; [reflexivity|]);
    intros [[]|error]; simpl; cleanly.
Qed.

Lemma preflight_call_asks request cwd D (s : Spec D) k h :
  (forall preflight, (Policy.fidelity_requested request = false -> preflight = Operation.PreflightNotRequested) ->
                     always s h (k preflight)) ->
  always s h (preflight_call request cwd ≫= k).
Proof.
  intros Hk. unfold preflight_call.
  assert (Hrest : forall budget, always s h (call LookAtFiles ≫= (fun files =>
    k (Policy.daemon_fidelity_preflight (metadata files) (read_sample files) (fun _ => budget) cwd request)))).
  { intros budget. apply mute_bind; [reflexivity|]. intros files. apply Hk. intros Hr.
    unfold Policy.daemon_fidelity_preflight. rewrite Hr. reflexivity. }
  destruct (Policy.session_id request) as [session|]; [|apply (Hrest None)].
  destruct (_ && _); [|apply (Hrest None)]. split; [left; reflexivity|]. intros budget. split; [exact I|apply (Hrest budget)].
Qed.

(** What the preflight leaves: a reservation with its attribution, or none. *)
Definition preflighted (request : Policy.ExecApiRequest) (h : list Note)
    (a : Operation.FidelityPreflight * option FidelityReservation) : Prop :=
  (Policy.fidelity_requested request = false -> a.1 = Operation.PreflightNotRequested) /\
  match a.2 with
  | Some r => exists session evasion bound,
      Policy.session_id request = Some session /\ a.1 = Operation.Allow evasion bound /\ h = [NReserved r session]
  | None => h = []
  end.

Lemma preflight_always request cwd (D : Decided) :
  always (answering (run_spec D) (preflighted request)) [] (daemon_fidelity_preflight_for_run request cwd).
Proof.
  unfold daemon_fidelity_preflight_for_run. apply preflight_call_asks. intros preflight Hp.
  destruct preflight as [|evasion bound|evasion reason]; try (split; simpl; auto; fail).
  destruct (Policy.session_id request) as [session|] eqn:Hs.
  2: { split; simpl; [|reflexivity]. intros Hr. discriminate (Hp Hr). }
  apply call_bind; [right; reflexivity|].
  intros [[r|]|error]; (split; [exact I|split; simpl; [intros Hr; discriminate (Hp Hr)|]]); eauto 10.
Qed.

Lemma plan_always request preflight (D : Decided) h :
  (Policy.fidelity_requested request = false -> preflight = Operation.PreflightNotRequested) ->
  always (answering (run_spec D) (fun h' plan =>
            (h' = h \/ exists engine, h' = h ++ [NEngine engine])
            /\ ((exists engine, NEngine engine ∈ h' /\ Adapter.decision plan = Adapter.decision (engine_plan request engine))
                \/ Policy.fidelity_requested request = true /\ exists reason, Adapter.decision plan = Ask (Some (shell request)) reason)
            /\ match preflight with Operation.Allow evasion _ => Adapter.evasion plan = Some evasion | _ => True end)) h
    (plan_of host_shell request preflight).
Proof.
  intros Hp. unfold plan_of.
  assert (Hin : forall engine, NEngine engine ∈ h ++ [NEngine engine]) by (intros; apply elem_of_app; right; left).
  destruct preflight as [|evasion bound|evasion reason].
  3: { simpl. split; [auto|]. split; [|exact I]. right.
       split; [destruct (Policy.fidelity_requested request); [reflexivity|discriminate (Hp eq_refl)]|eauto]. }
  all: apply call_bind; [right; exact I|]; intros engine; (split; [exact I|]); simpl; split; [eauto|split; [left; eauto|auto]].
Qed.

(** Error answers before any process. *)
Lemma early h e : ~ spawned h -> Api.code e <> EXECUTION_UNKNOWN -> truthful h (Err e).
Proof. intros Hs He. split; [split; [contradiction|intros [Hsp _]]|intros Hsp]; destruct (Hs Hsp). Qed.

Lemma always_check {A} (D : Decided) (r : result ApiError A) (k : A -> Prog (result ApiError ExecutionOutcome)) h :
  ~ spawned h -> clean r -> (forall a, r = Ok a -> always (run_spec D) h (k a)) -> always (run_spec D) h (ensure r k).
Proof. intros Hs Hr Hk. apply always_ensure; [|exact Hk]. intros e ->. apply early; [exact Hs|exact Hr]. Qed.

Lemma remaining_clean limit elapsed : clean (remaining_ms limit elapsed).
Proof. unfold remaining_ms. destruct (_ =? 0); simpl; [vm_compute; discriminate|exact I]. Qed.

Lemma managed_timeout_clean request_timeout requested : clean (managed_timeout_ms request_timeout requested).
Proof. unfold managed_timeout_ms. destruct (match requested with Some _ => _ | None => _ end); simpl; [vm_compute; discriminate|exact I]. Qed.

#[local] Hint Extern 1 (~ spawned _) => (simpl; apply not_spawned_snoc; [exact I|]) : tasks.

Lemma run_decided_always request output_directory limit_ms workspace plan final reservation session h :
  holds h reservation session PReserved -> ~ spawned h -> decided request h (shell request) final ->
  (is_Some reservation -> Policy.session_id request = Some session /\ is_Some (Adapter.evasion plan)) ->
  always (run_spec (decided request)) h
    (run_decided host_shell evasion_json debug_cancellation temp_dir request output_directory limit_ms workspace plan final reservation).
Proof.
  intros Hh Hs Hd Hr. unfold run_decided. cbv zeta.
  eapply silent_bind; [apply register_silent|]. intros registered Hclean.
  apply always_check; [exact Hs|exact Hclean|]. intros _ _.
  apply mute_bind; [reflexivity|]. intros elapsed.
  apply always_check; [exact Hs|apply remaining_clean|]. intros remaining _.
  eapply always_bind; [eapply cross_boundary_always with (reservation := reservation) (session := session)|].
  - exact Hh.
  - exact Hs.
  - destruct reservation as [r|]; [|exact I]. destruct (Hr (ex_intro _ r eq_refl)) as [Hsid [evasion ->]]. simpl. auto.
  - intros h1 boundary (He1 & Hs1 & Hc1 & Hh1). apply always_check; [exact Hs1|exact Hc1|].
    intros [] ->. specialize (Hh1 eq_refl).
    eapply always_bind; [eapply start_and_wait_always with (session := session)|].
    + apply decided_extends.
    + exact Hh1.
    + exact Hs1.
    + unfold justified. simpl. eapply decided_extends; [exact He1|exact Hd].
    + intros h2 ran Hf. apply always_ensure.
      { intros e ->. apply early; apply Hf. }
      intros [outcome started] ->. eapply silent_bind; [apply complete_context_silent|]. intros _ _.
      eapply always_bind; [eapply complete_reservation_always with (session := session); [exact Hf| |]|].
      * intros Hres o rec Ho. apply bind_Some in Ho as (evasion & _ & Ho). destruct o; try discriminate. injection Ho as <-.
        apply (Hr Hres).
      * intros s. destruct (Adapter.evasion plan); reflexivity.
      * intros h3 error Ha. pose proof (answer_truthful run_wording _ _ _ _ _ Ha) as Ht. destruct outcome as [outcome|e]; [|exact Ht].
        destruct final; try exact Ht. destruct reservation; [exact Ht|]. destruct (raw_execution_record _ _ _) as [record|]; [|exact Ht].
        apply mute_bind; [reflexivity|]. intros [u|e]; [exact Ht|]. destruct outcome; try exact Ht. simpl. apply Ha.
Qed.

(** A handler before its process: the reservation in hand, if any, and nothing started. *)
Definition ready (h : list Note) (reservation : option FidelityReservation) (session : rstr) : Prop :=
  holds h reservation session PReserved /\ ~ spawned h.

Lemma ready_nil session : ready [] None session.
Proof.
  split; [split; [reflexivity|]|]; [split; [intros r s Hin; inversion Hin|intros [? ?]; discriminate]|].
  intros (c & e & Hin). inversion Hin.
Qed.

Lemma ready_snoc h n reservation session :
  match n with NReserved _ _ | NReleased | NCompleted _ _ | NBegun | NSpawned _ _ => False | _ => True end ->
  ready h reservation session -> ready (h ++ [n]) reservation session.
Proof.
  intros Hn [Hh Hs]. split; [|apply not_spawned_snoc; [destruct n; auto|exact Hs]].
  apply holds_snoc with (ph := PReserved); [destruct n; try destruct Hn; reflexivity|exact Hh].
Qed.

Lemma ready_reserved h r session : ready h None session -> ready (h ++ [NReserved r session]) (Some r) session.
Proof.
  intros [[Ho [Hr _]] Hs]. split; [|auto with tasks]. split.
  - rewrite own_snoc. unfold hold. destruct (holding h) as [o l]. reflexivity.
  - split; [|intros _; exists r, session; apply elem_of_app; right; left].
    intros r' s' Hin. apply reserved_snoc in Hin as [Hin|[= -> _]]; [discriminate (Hr _ _ Hin)|reflexivity].
Qed.

Lemma release_always reservation session (D : Decided) (k : Prog (result ApiError ExecutionOutcome)) h :
  ready h reservation session ->
  (forall h', extends h h' -> ~ spawned h' -> always (run_spec D) h' k) -> always (run_spec D) h (_ ← release reservation; k).
Proof.
  intros [Hh Hs] Hk. destruct reservation as [r|]; [|apply Hk; [apply extends_refl|exact Hs]].
  split; [right; exists session; left; apply (h_own _ _ _ _ Hh)|]. intros x. split; [exact I|].
  apply Hk; [apply extends_snoc|auto with tasks].
Qed.

Lemma unless_cancelled_always command job reservation session (D : Decided) k h :
  ready h reservation session -> always (run_spec D) h k -> always (run_spec D) h (unless_cancelled command job reservation k).
Proof.
  intros [Hh Hs] Hk. unfold unless_cancelled. apply silent_bind with (Q := fun _ => True); [destruct job; simpl; auto|]. intros [|] _; [|exact Hk].
  destruct reservation as [r|]; [|exact Hs]. apply call_bind; [right; exists session; left; apply (h_own _ _ _ _ Hh)|].
  intros [x|x]; (split; [exact I|]); [simpl; auto with tasks|]. apply early; [auto with tasks|vm_compute; discriminate].
Qed.

Lemma ask_for_always request limit_ms workspace trace plan proposed reason h :
  ~ spawned h -> decided request h (shell request) (Ask proposed reason) ->
  always (run_spec (decided request)) h (ask_for host_shell request limit_ms workspace trace plan proposed reason).
Proof.
  intros Hs Hd. unfold ask_for. destruct proposed as [c|]; [|exact Hs]. apply call_bind; [right; exact I|]. intros i. split.
  - exists c, reason, (Adapter.evasion plan). split; [exact Hd|reflexivity].
  - simpl. auto with tasks.
Qed.

Lemma preflighted_ready request h a : preflighted request h a -> ready h a.2 (default [] (Policy.session_id request)).
Proof.
  intros [_ Hr]. destruct a.2 as [r|]; [|subst h; apply ready_nil].
  destruct Hr as (session & evasion & bound & -> & _ & ->). apply (ready_reserved []). apply ready_nil.
Qed.

Lemma execute_command_always request job :
  always (run_spec (decided request)) []
    (execute_command request_timeout_ms host_shell identity_hash evasion_json debug_cancellation temp_dir request job).
Proof.
  pose proof (ready_nil []) as [_ Hs]. unfold execute_command. cbv zeta.
  do 3 (apply always_check; [exact Hs|cleanly|]; intros ? _).
  apply always_check; [exact Hs|destruct job as [[limit directory]|]; [exact I|apply managed_timeout_clean]|]. intros limit_ms _.
  eapply silent_bind; [apply canonical_workspace_silent|]. intros canonical Hclean.
  apply always_check; [exact Hs|exact Hclean|]. intros workspace _.
  apply mute_bind; [reflexivity|]. intros trace.
  eapply always_bind; [apply preflight_always|]. intros h1 [preflight reservation] Hp.
  pose proof (preflighted_ready _ _ _ Hp) as Hr1. destruct Hp as [Hp Hr]. simpl in Hp, Hr, Hr1.
  eapply always_bind; [apply plan_always; exact Hp|]. intros h2 plan (Hh2 & Hplan & Hev).
  assert (Hr2 : ready h2 reservation (default [] (Policy.session_id request)))
    by (destruct Hh2 as [->|[engine ->]]; [|apply ready_snoc; [exact I|]]; exact Hr1).
  apply call_bind; [right; exact I|]. intros now. split; [exact I|]. simpl.
  pose proof (ready_snoc _ (NTime now) _ _ I Hr2) as Hr3.
  set (final := Policy.apply_host_grant identity_hash now request _).
  assert (Hd : decided request (h2 ++ [NTime now]) (shell request) final).
  { split; [reflexivity|]. exists now, (Adapter.decision plan). split; [apply elem_of_app; right; left|]. split; [reflexivity|].
    destruct Hplan as [(engine & Hin & ->)|Hasks]; [|auto]. left. exists engine. split; [apply elem_of_app; auto|reflexivity]. }
  eapply silent_bind; [apply policy_event_silent|]. intros [u|error] Hevent.
  2: { eapply release_always; [exact Hr3|]. intros h4 _ Hs4. apply early; [exact Hs4|exact Hevent]. }
  destruct final as [reason|command source reason|proposed reason|reason];
    try (eapply unless_cancelled_always; [exact Hr3|]; eapply run_decided_always; [apply Hr3|apply Hr3|exact Hd|];
         intros [r ->]; destruct Hr as (session & evasion & bound & -> & -> & _); rewrite Hev; simpl; eauto).
  eapply release_always; [exact Hr3|]. intros h4 He4 Hs4. apply ask_for_always; [exact Hs4|].
  eapply decided_extends; [exact He4|exact Hd].
Qed.

(** *** Approvals *)

Lemma reserve_approved_always exact session_id (D : Decided) h :
  ready h None [] ->
  always (answering (run_spec D) (fun h' a =>
            match a with
            | Ok reservation =>
                extends h h' /\ ready h' reservation (default [] session_id)
                /\ (is_Some reservation <-> is_Some exact) /\ (is_Some exact -> is_Some session_id)
            | Err e => ~ spawned h' /\ Api.code e <> EXECUTION_UNKNOWN
            end)) h (reserve_approved exact session_id).
Proof.
  intros Hr. unfold reserve_approved. destruct exact as [evasion|].
  2: { simpl. split; [apply extends_refl|]. split; [split; [eapply holds_none, Hr|apply Hr]|]. split; [split|]; intros [? ?]; discriminate. }
  apply always_ensure.
  { intros e He. split; [apply Hr|]. destruct session_id as [s|]; simpl in He; [destruct (is_empty (trim s))|]; try discriminate;
      injection He as <-; vm_compute; discriminate. }
  intros session Hsid. assert (session_id = Some session) as ->.
  { destruct session_id as [s|]; simpl in Hsid; [|discriminate]. destruct (is_empty (trim s)); congruence. }
  apply call_bind; [right; apply Hr|]. intros [[r|]|error]; (split; [exact I|]); simpl; try (split; [apply Hr|vm_compute; discriminate]).
  split; [apply extends_snoc|]. split; [apply ready_reserved; split; [eapply holds_none, Hr|apply Hr]|].
  split; [split; eauto|eauto].
Qed.

Lemma exec_approval_always decision_id approved :
  always (run_spec (confirmed decision_id approved)) []
    (exec_approval evasion_json debug_cancellation temp_dir decision_id approved).
Proof.
  pose proof (ready_nil []) as Hr. unfold exec_approval. apply always_check; [apply Hr|cleanly|]. intros _ _.
  apply call_bind; [right; exact I|]. intros taken. split; [destruct taken; exact I|].
  apply always_ensure.
  { intros e He. destruct taken; [discriminate|]. injection He as <-. apply early; [apply Hr|vm_compute; discriminate]. }
  intros p Hp. destruct taken as [p'|]; [|discriminate]. injection Hp as ->. simpl.
  pose proof (ready_snoc [] (NTaken decision_id p) _ _ I Hr) as Hr1. simpl in Hr1. destruct approved; simpl; [|apply Hr1].
  set (exact := evasion ← p_evasion p; _). set (session := default [] (p_session_id p)).
  eapply always_bind; [apply reserve_approved_always; exact Hr1|]. intros h1 reserved Ha.
  apply always_ensure; [intros e ->; apply early; apply Ha|]. intros reservation ->. destruct Ha as (He & Hr2 & Hex & Hsid).
  eapply silent_bind; [apply register_silent|]. intros registered Hclean. apply always_check; [apply Hr2|exact Hclean|]. intros _ _.
  assert (Hsession : is_Some exact -> p_session_id p = Some session).
  { intros Hx. destruct (Hsid Hx) as [s Hs]. unfold session. rewrite Hs. reflexivity. }
  eapply always_bind; [eapply cross_boundary_always; [apply Hr2|apply Hr2|]|].
  { destruct reservation as [r|]; [|exact I]. destruct Hex as [Hex _]. destruct (Hex (ex_intro _ r eq_refl)) as [evasion E].
    rewrite E. simpl. split; [reflexivity|]. apply Hsession. rewrite E. eauto. }
  intros h2 boundary (He2 & Hs2 & Hc2 & Hh2). apply always_check; [exact Hs2|exact Hc2|]. intros [] ->. specialize (Hh2 eq_refl).
  eapply always_bind; [eapply start_and_wait_always; [apply confirmed_extends|exact Hh2|exact Hs2|]|].
  { split; [reflexivity|]. exists p. split; [apply He2, He; left|auto]. }
  intros h3 ran Hf. apply always_ensure; [intros e ->; apply early; apply Hf|].
  intros [outcome started] ->. eapply silent_bind; [apply complete_context_silent|]. intros _ _.
  eapply always_bind; [eapply complete_reservation_always; [exact Hf| |]|].
  - intros Hres o rec Ho. apply bind_Some in Ho as (evasion & E & Ho). destruct o; try discriminate. injection Ho as <-.
    apply Hsession. rewrite E. eauto.
  - intros s. destruct exact; reflexivity.
  - intros h4 error Hacc. exact (answer_truthful approval_wording _ _ _ _ _ Hacc).
Qed.
End Handlers.
End DaemonSpec.
