(* ===== verification/DaemonTasks.v ===== *)
(** The handlers of [DaemonExec] at work: any number of them at the same time over one
    ledger and one store of approvals, with clients that go away, a daemon that dies, a
    ledger whose thread is gone and a directory that is damaged.  A handler goes on by one call at a time, and
    between two calls of one handler anything else may happen.

    The log of the daemon, which the program does not have, tells which handlers were
    accepted, what of their calls matters ([DaemonSpec.note]) and what they answered. *)

From S2P Require Import Prelude RStr Contract Operation Exec Api ExecOutput Adapter Grants Policy Approvals Fidelity DaemonExec DaemonSpec.
From Stdlib Require Import ZifyBool ZifyN ZifyNat.

Module DaemonTasks.
Import Contract Exec DaemonExec DaemonSpec.

#[local] Arguments lit : simpl never.

Abbreviation accounted_for s i := (Fidelity.accounted_for (Fidelity.writer s) i).
Abbreviation recorded s i := (Fidelity.recorded (Fidelity.rows (Fidelity.writer s)) i).

Section Daemon.
Context (request_timeout_ms : N) (host_shell : rstr) (identity_hash privacy_hash : rstr -> rstr -> rstr)
        (evasion_json : EvasionAttribution -> rstr) (debug_cancellation : result LedgerWriterError unit -> rstr)
        (temp_dir : rstr) (oldest : gmap rstr (@Approvals.StoredApproval PendingApproval) -> option rstr).

Inductive Handler :=
| ExecRun (request : Policy.ExecApiRequest) (job : option (N * rstr))
| ExecApproval (decision_id : rstr) (approved : bool)
| FidelityReconcile (reservation_id : rstr) (how : Fidelity.FidelityUnknownResolution).

Inductive Answer :=
| Outcome (a : result ApiError ExecutionOutcome)
| Receipt (a : result ApiError Fidelity.FidelityReconcileReceipt).

Definition program (handler : Handler) : Prog Answer :=
  match handler with
  | ExecRun request job =>
      a ← execute_command request_timeout_ms host_shell identity_hash evasion_json debug_cancellation temp_dir request job;
      Ret (Outcome a)
  | ExecApproval decision_id approved =>
      a ← exec_approval evasion_json debug_cancellation temp_dir decision_id approved; Ret (Outcome a)
  | FidelityReconcile reservation_id how => a ← fidelity_reconcile reservation_id how; Ret (Receipt a)
  end.

(** The decisions a handler may come to. *)
Definition decided_by (handler : Handler) : Decided :=
  match handler with
  | ExecRun request _ => decided host_shell identity_hash request
  | ExecApproval decision_id approved => confirmed decision_id approved
  | FidelityReconcile _ _ => fun _ _ _ => False
  end.

Definition handler_spec (handler : Handler) : Spec Answer :=
  answering (run_spec (decided_by handler)) (fun h a => match a with Outcome a => truthful h a | Receipt _ => True end).

Lemma program_always handler : always (handler_spec handler) [] (program handler).
Proof.
  destruct handler as [request job|decision_id approved|reservation_id how]; simpl.
  - eapply always_bind; [apply execute_command_always|]. intros h a Ha. exact Ha.
  - eapply always_bind; [apply exec_approval_always|]. intros h a Ha. exact Ha.
  - apply silent_bind with (Q := fun _ => True); [|intros a _; exact I].
    unfold fidelity_reconcile. cbv zeta. destruct (guard_err _ _); simpl; auto.
Qed.

Inductive Entry := Accepted (handler : Handler) | Noted (n : Note) | Answered (a : Answer).

Abbreviation Log := (list (N * Entry)).

Record Daemon := {
  ledger : Fidelity.System;
  approvals : gmap rstr (@Approvals.StoredApproval PendingApproval);
  tasks : gmap N (Prog Answer);
  log : Log;
}.

(** What the world answers to one call: whether the thread of the ledger is gone, the
    database, the disk, the clocks, a new identifier, and all that is asked outside the
    ledger and the approvals. *)
Record Io := {
  io_gone : bool;
  io_db : option rstr;
  io_persist : Fidelity.Persist;
  io_again : Fidelity.Persist;
  io_remove : Fidelity.Remove;
  io_now : N;
  io_instant : N;
  io_fresh : rstr;
  outside : forall c, Reply c;
}.

(** A call as the thread of the ledger gets it, if it is still there. *)
Definition ledger_call (io : Io) (c : Call) : option Fidelity.Event :=
  match c with
  | Reserve session bound o =>
      Some (Fidelity.Reserve (io_db io) (io_persist io) (io_now io) (io_fresh io) session Fidelity.default_allowance bound o)
  | Begin r record _ => Some (Fidelity.Begin (io_persist io) (io_now io) r record)
  | Complete r record _ => Some (Fidelity.Complete (io_db io) (io_persist io) (io_remove io) r record)
  | Cancel r proven => Some (Fidelity.Cancel (io_remove io) r proven)
  | Reconcile i how => Some (Fidelity.Reconcile (io_db io) (io_persist io) (io_remove io) (io_again io) i how)
  | _ => None
  end.

Definition ledger_event (io : Io) (c : Call) : option Fidelity.Event := if io_gone io then None else ledger_call io c.

Lemma ledger_event_call io c e : ledger_event io c = Some e -> ledger_call io c = Some e.
Proof. unfold ledger_event. destruct (io_gone io); [discriminate|auto]. Qed.

(** Nobody answers for a thread that is gone. *)
Definition sent {A} (io : Io) (answer : result LedgerWriterError A) : result LedgerWriterError A :=
  if io_gone io then Err Fidelity.Unavailable else answer.

Definition serve (io : Io) (c : Call) (d : Daemon) : Reply c :=
  let w := Fidelity.writer (ledger d) in
  match c return Reply c with
  | Reserve session bound o =>
      sent io (Fidelity.reserve_fidelity privacy_hash identity_hash (io_db io) (io_persist io) (io_now io) (io_fresh io) session
                 Fidelity.default_allowance bound o w).1
  | Begin r record _ =>
      sent io (Fidelity.begin_fidelity privacy_hash identity_hash (io_persist io) (io_now io) r record w).1
  | Complete r record _ =>
      sent io (Fidelity.complete_fidelity privacy_hash identity_hash (io_db io) (io_persist io) (io_remove io) r record w).1
  | Cancel r proven => sent io (Fidelity.cancel_fidelity (io_remove io) r proven w).1
  | Reconcile i how =>
      sent io (Fidelity.reconcile_fidelity (io_db io) (io_persist io) (io_remove io) (io_again io) i how w).1
  | Approve _ => io_fresh io
  | Take i => (Approvals.take (io_instant io) i (approvals d)).1
  | c => outside io c
  end.

Definition keep_approvals (io : Io) (c : Call) (m : gmap rstr (@Approvals.StoredApproval PendingApproval)) :=
  match c with
  | Approve p => Approvals.insert oldest (io_instant io) (io_fresh io) p m
  | Take i => (Approvals.take (io_instant io) i m).2
  | _ => m
  end.

Definition tell (s : Fidelity.System) (e : option Fidelity.Event) : Fidelity.System :=
  match e with Some e => Fidelity.step privacy_hash identity_hash s e | None => s end.

(** A handler goes on as [p]. *)
Definition settle (t : N) (p : Prog Answer) (d : Daemon) : Daemon :=
  match p with
  | Ret a => {| ledger := ledger d; approvals := approvals d; tasks := tasks d; log := log d ++ [(t, Answered a)] |}
  | Do _ _ => {| ledger := ledger d; approvals := approvals d; tasks := <[t := p]> (tasks d); log := log d |}
  end.

Definition entries (t : N) (n : option Note) : Log := match n with Some n => [(t, Noted n)] | None => [] end.

(** A call is served: its handler is taken out until it goes on. *)
Definition served (io : Io) (t : N) (c : Call) (d : Daemon) : Daemon :=
  {| ledger := tell (ledger d) (ledger_event io c);
     approvals := keep_approvals io c (approvals d);
     tasks := delete t (tasks d);
     log := log d ++ entries t (note c (serve io c d)) |}.

Inductive Event :=
| Accept (t : N) (handler : Handler)
| Perform (t : N) (io : Io)
| Gone (t : N)
| OtherRow (row : Fidelity.CommandRow)
| Damage (file : rstr)
| Restart (io : Fidelity.LoadIo) (names : list rstr).

Definition with_ledger (e : Fidelity.Event) (d : Daemon) : Daemon :=
  {| ledger := Fidelity.step privacy_hash identity_hash (ledger d) e; approvals := approvals d; tasks := tasks d; log := log d |}.

Definition step (d : Daemon) (e : Event) : Daemon :=
  match e with
  | Accept t handler =>
      settle t (program handler)
        {| ledger := ledger d; approvals := approvals d; tasks := tasks d; log := log d ++ [(t, Accepted handler)] |}
  | Perform t io =>
      match tasks d !! t with
      | Some (Do c k) => settle t (k (serve io c d)) (served io t c d)
      | _ => d
      end
  | Gone t => {| ledger := ledger d; approvals := approvals d; tasks := delete t (tasks d); log := log d |}
  | OtherRow row => with_ledger (Fidelity.OtherRow row) d
  | Damage file => with_ledger (Fidelity.Damage file) d
  | Restart io names =>
      {| ledger := Fidelity.step privacy_hash identity_hash (ledger d) (Fidelity.Restart io names);
         approvals := ∅; tasks := ∅; log := log d |}
  end.

Definition run (d : Daemon) (es : list Event) : Daemon := foldl step d es.

Definition start_daemon (rs : list Fidelity.CommandRow) : Daemon :=
  {| ledger := Fidelity.initial rs; approvals := ∅; tasks := ∅; log := [] |}.

(** Identifiers are new, of handlers, of reservations and of approvals; nobody proves
    that a command did not run whose completion is on file; the rows of others carry
    no reservation; a restart reads the whole directory. *)
Definition possible (d : Daemon) (e : Event) : Prop :=
  match e with
  | Accept t _ => forall entry, (t, entry) ∉ log d
  | Perform t io =>
      (Fidelity.records (Fidelity.disk (Fidelity.writer (ledger d))) !! io_fresh io = None
       /\ Fidelity.recorded (Fidelity.rows (Fidelity.writer (ledger d))) (io_fresh io) = false)
      /\ (forall t' r s, (t', Noted (NReserved r s)) ∈ log d -> Fidelity.id r <> io_fresh io)
      /\ (forall t' p, (t', Noted (NAsked (io_fresh io) p)) ∉ log d)
      /\ match tasks d !! t with
         | Some (Do (Reconcile i Fidelity.ProveNotExecuted) _) =>
             ~ Fidelity.is_executed (Fidelity.disk (Fidelity.writer (ledger d))) i
         | _ => True
         end
  | Gone _ | Damage _ => True
  | OtherRow row => Fidelity.fidelity_reservation_id row = None
  | Restart _ names =>
      forall i, is_Some (Fidelity.records (Fidelity.disk (Fidelity.writer (ledger d))) !! i) -> i ∈ names
  end.

Fixpoint possible_run (d : Daemon) (es : list Event) : Prop :=
  match es with [] => True | e :: es => possible d e /\ possible_run (step d e) es end.

(** What the thread of the ledger is told. *)
Definition told (d : Daemon) (e : Event) : list Fidelity.Event :=
  match e with
  | Perform t io =>
      match tasks d !! t with
      | Some (Do c _) => match ledger_event io c with Some e => [e] | None => [] end
      | _ => []
      end
  | OtherRow row => [Fidelity.OtherRow row]
  | Damage file => [Fidelity.Damage file]
  | Restart io names => [Fidelity.Restart io names]
  | Accept _ _ | Gone _ => []
  end.

Fixpoint ledger_events (d : Daemon) (es : list Event) : list Fidelity.Event :=
  match es with [] => [] | e :: es => told d e ++ ledger_events (step d e) es end.

(** ** Invariants *)

(** The notes of a handler. *)
Definition notes (t : N) (l : Log) : list Note :=
  omap (fun x => if decide (x.1 = t) then match x.2 with Noted n => Some n | _ => None end else None) l.

Definition reserved_ids_differ (l : Log) (r : FidelityReservation) : Prop :=
  forall t r' s, (t, Noted (NReserved r' s)) ∈ l -> Fidelity.id r' <> Fidelity.id r.

(** What an entry says is new, is backed by what precedes it, and keeps to the discipline
    of its handler. *)
Definition entry_ok (l : Log) (t : N) (e : Entry) : Prop :=
  match e with
  | Accepted _ => forall e, (t, e) ∉ l
  | Noted n =>
      (exists handler, (t, Accepted handler) ∈ l /\ on_note (handler_spec handler) (notes t l) n)
      /\ match n with
         | NReserved r _ => reserved_ids_differ l r
         | NAsked i _ => forall t' p, (t', Noted (NAsked i p)) ∉ l
         | NTaken i p =>
             (exists t', (t', Noted (NAsked i p)) ∈ l) /\ forall t' p', (t', Noted (NTaken i p')) ∉ l
         | _ => True
         end
  | Answered a => exists handler, (t, Accepted handler) ∈ l /\ on_answer (handler_spec handler) (notes t l) a
  end.

Definition sound (l : Log) : Prop := forall l1 t e l2, l = l1 ++ (t, e) :: l2 -> entry_ok l1 t e.

Lemma notes_app t l l' : notes t (l ++ l') = notes t l ++ notes t l'.
Proof. apply omap_app. Qed.

Lemma notes_entries t t' l n : notes t (l ++ entries t' n) = if decide (t' = t) then noted (notes t l) n else notes t l.
Proof.
  rewrite notes_app. destruct n as [n|]; simpl; unfold notes; simpl; [|rewrite app_nil_r; destruct (decide _); reflexivity].
  destruct (decide (t' = t)); [reflexivity|apply app_nil_r].
Qed.

Lemma in_notes t l n : n ∈ notes t l <-> (t, Noted n) ∈ l.
Proof.
  unfold notes. rewrite list_elem_of_omap. split.
  - intros ([t' e] & Hin & He). simpl in He. destruct (decide (t' = t)) as [->|]; [|discriminate].
    destruct e; try discriminate. injection He as ->. exact Hin.
  - intros Hin. exists (t, Noted n). split; [exact Hin|]. simpl. rewrite decide_True by auto. reflexivity.
Qed.

Lemma sound_nil : sound [].
Proof. intros l1 t e l2 He. destruct l1; discriminate. Qed.

Lemma sound_snoc l t e : sound l -> entry_ok l t e -> sound (l ++ [(t, e)]).
Proof.
  intros Hs He l1 t' e' l2 Heq. destruct l2 as [|x l2 _] using rev_ind.
  - apply app_inj_tail in Heq as [-> [= -> ->]]. exact He.
  - rewrite app_comm_cons, app_assoc in Heq. apply app_inj_tail in Heq as [-> _]. eapply Hs. reflexivity.
Qed.

Lemma sound_entry l x : sound l -> x ∈ l -> exists l1 l2, l = l1 ++ x :: l2 /\ entry_ok l1 x.1 x.2.
Proof. intros Hs (l1 & l2 & ->)%list_elem_of_split. exists l1, l2. split; [reflexivity|]. destruct x. eapply Hs. reflexivity. Qed.

(** Entries of which either excludes the other after it are one entry. *)
Definition clash (e e' : Entry) : Prop :=
  match e, e' with
  | Noted (NReserved r _), Noted (NReserved r' _) => Fidelity.id r = Fidelity.id r'
  | Noted (NAsked i _), Noted (NAsked j _) | Noted (NTaken i _), Noted (NTaken j _) => i = j
  | _, _ => False
  end.

Lemma clash_sym e e' : clash e e' -> clash e' e.
Proof. destruct e as [|[]|], e' as [|[]|]; simpl; auto. Qed.

Lemma clash_excludes l t e t' e' : entry_ok l t e -> clash e e' -> (t', e') ∉ l.
Proof.
  destruct e as [|[]|], e' as [|[]|]; simpl; try tauto.
  - intros [_ Hn] Heq Hin. exact (Hn _ _ _ Hin (eq_sym Heq)).
  - intros [_ Hn] -> Hin. exact (Hn _ _ Hin).
  - intros [_ [_ Hn]] -> Hin. exact (Hn _ _ Hin).
Qed.

Lemma sound_unique l t e t' e' : sound l -> (t, e) ∈ l -> (t', e') ∈ l -> clash e e' -> t = t' /\ e = e'.
Proof.
  intros Hs (l1 & l2 & ->)%list_elem_of_split Hin Hc.
  apply elem_of_app in Hin as [Hin|Hin]; [destruct (clash_excludes l1 t e t' e' (Hs _ _ _ _ eq_refl) Hc Hin)|].
  apply elem_of_cons in Hin as [[= -> ->]|(l3 & l4 & ->)%list_elem_of_split]; [auto|].
  exfalso. eapply (clash_excludes (l1 ++ (t, e) :: l3) t' e' t e); [|apply clash_sym, Hc|apply elem_of_app; right; left].
  eapply Hs. rewrite <- app_assoc. reflexivity.
Qed.

Lemma reserved_once l t r s t' r' s' :
  sound l -> (t, Noted (NReserved r s)) ∈ l -> (t', Noted (NReserved r' s')) ∈ l -> Fidelity.id r = Fidelity.id r' ->
  t = t' /\ r = r'.
Proof. intros Hs H1 H2 Hid. destruct (sound_unique l _ _ _ _ Hs H1 H2 Hid) as [-> [= -> _]]. auto. Qed.

Lemma own_reserved h r s ph : own h = Some (r, s, ph) -> NReserved r s ∈ h.
Proof.
  revert r s ph. induction h as [|n h IH] using rev_ind; intros r s ph; [discriminate|]. rewrite own_snoc. intros Ho.
  apply elem_of_app. unfold own in IH. destruct (holding h) as [[[[r0 s0] ph0]|] l]; destruct n; simpl in Ho; try discriminate;
    injection Ho; intros; subst; auto; try (left; eapply IH; reflexivity); right; left.
Qed.

Lemma runs_reserved h i : i ∈ exact_runs h -> exists r s, Fidelity.id r = i /\ NReserved r s ∈ h.
Proof.
  unfold exact_runs. induction h as [|n h IH] using rev_ind; [intros Hin; inversion Hin|].
  unfold holding. rewrite foldl_app. fold (holding h). pose proof (own_reserved h) as Ho. unfold own in Ho. simpl.
  assert (Hold : i ∈ (holding h).2 -> exists r s, Fidelity.id r = i /\ NReserved r s ∈ h ++ [n]).
  { intros Hin. destruct (IH Hin) as (r & s & Hid & Hr). exists r, s. split; [exact Hid|apply elem_of_app; auto]. }
  destruct (holding h) as [[[[r0 s0] ph0]|] l]; destruct n; simpl; auto.
  intros [->|Hin]%elem_of_cons; [|auto]. exists r0, s0. split; [reflexivity|]. apply elem_of_app. left. eapply Ho. reflexivity.
Qed.

(** A reservation in the hands of its handler, for the session it got it for. *)
Definition in_hand (s : Fidelity.System) (r : FidelityReservation) (session : rstr) : Prop :=
  Fidelity.held s !! Fidelity.id r = Some (Fidelity.res_session_hash r)
  /\ Fidelity.res_session_hash r = privacy_hash (lit "session") session.

Record coherent (d : Daemon) : Prop := {
  k_ledger : Fidelity.consistent privacy_hash (ledger d);
  k_log : sound (log d);
  k_tasks : forall t p, tasks d !! t = Some p ->
    exists handler, (t, Accepted handler) ∈ log d /\ always (handler_spec handler) (notes t (log d)) p;
  k_own : forall t p r s ph, tasks d !! t = Some p -> own (notes t (log d)) = Some (r, s, ph) -> in_hand (ledger d) r s;
  k_approvals : forall i a, approvals d !! i = Some a ->
    (exists t, (t, Noted (NAsked i (Approvals.pending a))) ∈ log d) /\ forall t p, (t, Noted (NTaken i p)) ∉ log d;
}.

(** The reservation that a call gives back. *)
Definition consumed (c : Call) : option FidelityReservation :=
  match c with Complete r _ _ | Cancel r _ => Some r | _ => None end.

Lemma reserve_answer db p now i session a b o w r w' :
  Fidelity.reserve_fidelity privacy_hash identity_hash db p now i session a b o w = (Ok (Some r), w') ->
  Fidelity.id r = i /\ Fidelity.res_session_hash r = privacy_hash (lit "session") session.
Proof.
  unfold Fidelity.reserve_fidelity. destruct (Fidelity.fidelity_blocked w); [discriminate|].
  destruct (Fidelity.fidelity_session_usage _ _ _ _ _); [|discriminate]. destruct (_ && _); [discriminate|].
  destruct p; intros [= <- _]; auto.
Qed.

Lemma hold_own s n r session ph :
  (hold s n).1 = Some (r, session, ph) ->
  n = NReserved r session
  \/ (exists ph0, s.1 = Some (r, session, ph0)) /\ match n with NReleased | NCompleted _ _ => False | _ => True end.
Proof. destruct s as [[[[r0 s0] ph0]|] l], n; simpl; intros [=]; subst; eauto. Qed.

Lemma serve_own io c d h r s ph :
  own (noted h (note c (serve io c d))) = Some (r, s, ph) ->
  (consumed c = None /\ exists ph0, own h = Some (r, s, ph0))
  \/ Fidelity.held (tell (ledger d) (ledger_event io c)) !! Fidelity.id r = Some (Fidelity.res_session_hash r)
     /\ Fidelity.id r = io_fresh io /\ Fidelity.res_session_hash r = privacy_hash (lit "session") s.
Proof.
  unfold own. rewrite holding_noted. destruct (note c (serve io c d)) as [n|] eqn:En.
  2: { intros Ho. left. split; [|eauto]. destruct c; try reflexivity; discriminate. }
  intros [->|[Ho Hn]]%hold_own.
  - right. destruct c; simpl in En; repeat case_match; try discriminate; try (apply fmap_Some in En as (? & _ & ?); discriminate).
    unfold ledger_event, sent in *. destruct (io_gone io); [discriminate|].
    destruct (Fidelity.reserve_fidelity _ _ _ _ _ _ _ _ _ _ _) as [x w] eqn:E. simpl in *. simplify_eq/=.
    split; [rewrite E; apply lookup_insert_eq|]. exact (reserve_answer _ _ _ _ _ _ _ _ _ _ _ E).
  - left. split; [|exact Ho]. destruct c; try reflexivity; simpl in En; injection En as <-; destruct Hn.
Qed.

Lemma held_unless io c d r s :
  in_hand (ledger d) r s -> Fidelity.id r <> io_fresh io ->
  (forall r', consumed c = Some r' -> Fidelity.id r' <> Fidelity.id r) -> in_hand (tell (ledger d) (ledger_event io c)) r s.
Proof.
  intros [Hh Hp] Hf Hc. split; [|exact Hp]. unfold ledger_event. destruct (io_gone io); [exact Hh|]. destruct c; simpl in *; auto.
  - destruct (Fidelity.reserve_fidelity _ _ _ _ _ _ _ _ _ _ _) as [[[r0|]|e] w] eqn:E; simpl; auto.
    destruct (reserve_answer _ _ _ _ _ _ _ _ _ _ _ E) as [-> _]. rewrite lookup_insert_ne; auto.
  - rewrite lookup_delete_ne; auto.
  - rewrite lookup_delete_ne; auto.
Qed.

(** Every call to the ledger is one that its contract allows. *)
Lemma ledger_allowed io t c k d e :
  coherent d -> tasks d !! t = Some (Do c k) -> possible d (Perform t io) -> ledger_event io c = Some e ->
  Fidelity.allowed privacy_hash e (ledger d).
Proof.
  intros [_ _ Htasks Hown _] Ht (Hnew & _ & _ & Hrec) He%ledger_event_call. destruct (Htasks _ _ Ht) as (handler & _ & Ha).
  rewrite Ht in Hrec. destruct Ha as [Hc _]. pose proof (fun r s ph => Hown t _ r s ph Ht) as Hmine. simpl in Hc.
  destruct c; simpl in He; try discriminate; injection He as <-; try (destruct Hc as [Hc|Hc]; [discriminate|]); simpl in *.
  - exact Hnew.
  - destruct Hc as (s & Ho & Hs). destruct (Hmine _ _ _ Ho) as [Hh Hp]. split; [exact Hh|]. rewrite Hs. simpl. congruence.
  - destruct Hc as (s & Ho & Hs). destruct (Hmine _ _ _ Ho) as [Hh Hp]. split; [exact Hh|]. rewrite Hs. simpl. congruence.
  - destruct Hc as (s & [Ho|[Ho _]]); apply (Hmine _ _ _ Ho).
  - destruct how; auto.
Qed.

(** *** Each step keeps the daemon coherent *)

Lemma notes_quiet t t' l e : match e with Noted _ => False | _ => True end -> notes t (l ++ [(t', e)]) = notes t l.
Proof.
  intros He. rewrite notes_app. unfold notes at 2. simpl.
  destruct (decide _), e; try destruct He; apply app_nil_r.
Qed.

Lemma settle_coherent t handler p d :
  coherent d -> (t, Accepted handler) ∈ log d -> always (handler_spec handler) (notes t (log d)) p ->
  (forall r s ph, own (notes t (log d)) = Some (r, s, ph) -> in_hand (ledger d) r s) -> coherent (settle t p d).
Proof.
  intros [Hl Hs Ht Ho Ha] Hacc Hp Hown. destruct p as [a|c k]; constructor; simpl; auto.
  - apply sound_snoc; [exact Hs|]. exists handler. auto.
  - intros t' p Htp. destruct (Ht _ _ Htp) as (handler' & Hin & Hal). exists handler'.
    rewrite notes_quiet by exact I. split; [apply elem_of_app; auto|exact Hal].
  - intros t' p r s ph Htp. rewrite notes_quiet by exact I. eauto.
  - intros i a' Hi. destruct (Ha _ _ Hi) as [[t' Hin] Hn]. split; [exists t'; apply elem_of_app; auto|].
    intros t0 p [Hin'|Hin'%list_elem_of_singleton]%elem_of_app; [exact (Hn _ _ Hin')|discriminate].
  - intros t' p [[<- <-]|[Hne Htp]]%lookup_insert_Some; [eauto|eauto].
  - intros t' p r s ph [[<- <-]|[Hne Htp]]%lookup_insert_Some; eauto.
Qed.

Lemma in_entries t l n e t' : (t', e) ∈ l ++ entries t n <-> (t', e) ∈ l \/ t' = t /\ exists m, n = Some m /\ e = Noted m.
Proof.
  rewrite elem_of_app. destruct n as [m|]; simpl.
  - rewrite list_elem_of_singleton. split; (intros [?|H]; [auto|right]); [injection H as -> ->; eauto|].
    destruct H as (-> & m' & [= ->] & ->). reflexivity.
  - split; [intros [?|H]; [auto|inversion H]|]. intros [?|(_ & m & ? & _)]; [auto|discriminate].
Qed.

(** What a note of a call that was served says is new. *)
Lemma noted_ok io t c k d n handler :
  coherent d -> tasks d !! t = Some (Do c k) -> possible d (Perform t io) ->
  (t, Accepted handler) ∈ log d -> always (handler_spec handler) (notes t (log d)) (Do c k) ->
  note c (serve io c d) = Some n -> entry_ok (log d) t (Noted n).
Proof.
  intros [_ _ _ _ Happ] Ht (_ & Hids & Hasks & _) Hacc [_ Ha] Hn. destruct (Ha (serve io c d)) as [Hf _]. rewrite Hn in Hf.
  split; [eauto|]. clear Ht Ha Hf. destruct n as [r s| | | | | |i p|i p| |]; try exact I.
  - destruct c; simpl in Hn; repeat case_match; try discriminate; try (apply fmap_Some in Hn as (? & _ & ?); discriminate).
    unfold sent in *. destruct (io_gone io); [discriminate|].
    destruct (Fidelity.reserve_fidelity _ _ _ _ _ _ _ _ _ _ _) as [x w] eqn:E. simpl in *. simplify_eq/=.
    destruct (reserve_answer _ _ _ _ _ _ _ _ _ _ _ E) as [Hid _]. intros t' r' s' Hin. rewrite Hid. eauto.
  - destruct c; simpl in Hn; repeat case_match; try discriminate; try (apply fmap_Some in Hn as (? & _ & ?); discriminate).
    injection Hn as <- <-. exact Hasks.
  - destruct c; simpl in Hn; repeat case_match; try discriminate. apply fmap_Some in Hn as (p' & Hn & [= -> ->]).
    apply fmap_Some in Hn as (a & Hl & ->). apply Approvals.prune_lookup in Hl as [Hl _]. exact (Happ _ _ Hl).
Qed.

Lemma taken_was_asked l t i p : sound l -> (t, Noted (NTaken i p)) ∈ l -> exists t', (t', Noted (NAsked i p)) ∈ l.
Proof.
  intros Hs Hin. destruct (sound_entry _ _ Hs Hin) as (l1 & l2 & -> & _ & (t' & Ht') & _). exists t'. apply elem_of_app. auto.
Qed.

Lemma served_coherent io t c k d handler :
  coherent d -> tasks d !! t = Some (Do c k) -> possible d (Perform t io) ->
  (t, Accepted handler) ∈ log d -> always (handler_spec handler) (notes t (log d)) (Do c k) ->
  coherent (served io t c d).
Proof.
  intros Hco Ht Hposs Hacc Hal. pose proof Hco as [Hl Hs Htasks Hown Happ]. constructor; simpl.
  - destruct (ledger_event io c) as [e|] eqn:He; simpl; [|exact Hl].
    apply Fidelity.step_consistent; [exact Hl|]. exact (ledger_allowed io t c k d e Hco Ht Hposs He).
  - destruct (note c (serve io c d)) as [n|] eqn:Hn; simpl; [|rewrite app_nil_r; exact Hs].
    apply sound_snoc; [exact Hs|]. exact (noted_ok io t c k d n handler Hco Ht Hposs Hacc Hal Hn).
  - intros t' p [Hne Htp]%lookup_delete_Some. destruct (Htasks _ _ Htp) as (handler' & Hin & Ha). exists handler'.
    rewrite notes_entries, decide_False by auto. split; [apply in_entries; auto|exact Ha].
  - intros t' p r s ph [Hne Htp]%lookup_delete_Some. rewrite notes_entries, decide_False by auto. intros Ho.
    pose proof (Hown _ _ _ _ _ Htp Ho) as Hh. apply held_unless; [exact Hh| |].
    + apply own_reserved, in_notes in Ho. destruct Hposs as (_ & Hids & _). eauto.
    + intros r' Hc Heq. apply own_reserved, in_notes in Ho.
      assert (exists s' ph', own (notes t (log d)) = Some (r', s', ph')) as (s' & ph' & Ho').
      { destruct Hal as [[Hm|Hd] _]; destruct c; try discriminate; injection Hc as <-; simpl in Hd.
        - destruct Hd as (s' & Hd & _). eauto.
        - destruct Hd as (s' & [Hd|[Hd _]]); eauto. }
      apply own_reserved, in_notes in Ho'. destruct (reserved_once _ _ _ _ _ _ _ Hs Ho' Ho Heq) as [-> _]. auto.
  - intros i a Hi.
    assert (Hold : approvals d !! i = Some a -> (forall j, c = Take j -> j <> i) ->
      (exists t0, (t0, Noted (NAsked i (Approvals.pending a))) ∈ log d ++ entries t (note c (serve io c d)))
      /\ forall t0 p, (t0, Noted (NTaken i p)) ∉ log d ++ entries t (note c (serve io c d))).
    { intros Hi' Hc. destruct (Happ _ _ Hi') as [[t0 Hin] Hn]. split; [exists t0; apply in_entries; auto|].
      intros t1 p [Hin'|(-> & m & Hm & [= <-])]%in_entries; [exact (Hn _ _ Hin')|].
      destruct c; simpl in Hm; repeat case_match; try discriminate. apply fmap_Some in Hm as (? & _ & [= -> _]). exact (Hc _ eq_refl eq_refl). }
    destruct c; try (apply Hold; [exact Hi|discriminate]).
    + apply (Approvals.step_lookup oldest _ (Approvals.OInsert (io_instant io) (io_fresh io) pending)) in Hi
        as [Hi|(now & p & [= <- <- <-] & ->)]; [apply Hold; [exact Hi|discriminate]|].
      destruct Hposs as (_ & _ & Hasks & _). split; [exists t; apply in_entries; right; eauto|].
      intros t1 p' [Hin'|(-> & m & [= <-] & [=])]%in_entries. destruct (taken_was_asked _ _ _ _ Hs Hin') as [t2 Hin2].
      exact (Hasks _ _ Hin2).
    + simpl in Hi. apply lookup_delete_Some in Hi as [Hne [Hi _]%Approvals.prune_lookup]. apply Hold; [exact Hi|]. intros j [= <-]. exact Hne.
Qed.

Lemma coherent_fewer d T : coherent d -> T ⊆ tasks d ->
  coherent {| ledger := ledger d; approvals := approvals d; tasks := T; log := log d |}.
Proof.
  intros [Hl Hs Ht Ho Ha] HT. constructor; simpl; auto.
  - intros t p Htp. eapply Ht, lookup_weaken; eauto.
  - intros t p r s ph Htp. eapply Ho, lookup_weaken; eauto.
Qed.

(** An event of the ledger by itself. *)
Lemma coherent_ledger e d :
  coherent d -> Fidelity.allowed privacy_hash e (ledger d) ->
  Fidelity.held (Fidelity.step privacy_hash identity_hash (ledger d) e) = Fidelity.held (ledger d) -> coherent (with_ledger e d).
Proof.
  intros [Hl Hs Ht Ho Ha] Hal Hh. constructor; simpl; auto.
  - apply Fidelity.step_consistent; auto.
  - intros t p r s ph Htp Hown. destruct (Ho _ _ _ _ _ Htp Hown). split; [rewrite Hh|]; auto.
Qed.

Lemma step_coherent d e : coherent d -> possible d e -> coherent (step d e).
Proof.
  intros Hco Hp. destruct e as [t handler|t io|t|row|file|io names]; simpl.
  - assert (Hnil : notes t (log d ++ [(t, Accepted handler)]) = []).
    { rewrite notes_quiet by exact I. destruct (notes t (log d)) as [|n h] eqn:E; [reflexivity|exfalso].
      apply (Hp (Noted n)), in_notes. rewrite E. left. }
    apply settle_coherent with (handler := handler); simpl; [|apply elem_of_app; right; left|rewrite Hnil; apply program_always|].
    2: { rewrite Hnil. discriminate. }
    destruct Hco as [Hl Hs Ht Ho Ha]. constructor; simpl; auto.
    + apply sound_snoc; [exact Hs|exact Hp].
    + intros t' p Htp. destruct (Ht _ _ Htp) as (handler' & Hin & Hal). exists handler'. rewrite notes_quiet by exact I.
      split; [apply elem_of_app; auto|exact Hal].
    + intros t' p r s ph Htp. rewrite notes_quiet by exact I. eauto.
    + intros i a Hi. destruct (Ha _ _ Hi) as [[t' Hin] Hn]. split; [exists t'; apply elem_of_app; auto|].
      intros t0 p [Hin'|Hin'%list_elem_of_singleton]%elem_of_app; [exact (Hn _ _ Hin')|discriminate].
  - destruct (tasks d !! t) as [[a|c k]|] eqn:Ht; try exact Hco.
    destruct (k_tasks _ Hco _ _ Ht) as (handler & Hacc & Hal).
    apply settle_coherent with (handler := handler); [eapply served_coherent; eauto|simpl; apply in_entries; auto| |]; simpl;
      rewrite notes_entries, decide_True by auto.
    + apply Hal.
    + intros r s ph Ho. destruct (serve_own _ _ _ _ _ _ _ Ho) as [[Hc (ph0 & Ho0)]|(Hh & _ & Hq)]; [|split; auto].
      apply held_unless; [exact (k_own _ Hco _ _ _ _ _ Ht Ho0)| |congruence].
      apply own_reserved, in_notes in Ho0. destruct Hp as (_ & Hids & _). eauto.
  - apply coherent_fewer; [exact Hco|apply delete_subseteq].
  - apply coherent_ledger; [exact Hco|exact Hp|reflexivity].
  - apply coherent_ledger; [exact Hco|exact I|reflexivity].
  - destruct Hco as [Hl Hs Ht Ho Ha]. constructor; simpl; [|exact Hs|..].
    + apply (Fidelity.step_consistent privacy_hash identity_hash (Fidelity.Restart io names)); [exact Hl|exact Hp].
    + intros t p Htp. destruct (lookup_empty_Some t p Htp).
    + intros t p r s ph Htp. destruct (lookup_empty_Some t p Htp).
    + intros i a Hi. destruct (lookup_empty_Some i a Hi).
Qed.

Lemma start_coherent rs : coherent (start_daemon rs).
Proof.
  constructor; simpl.
  - apply Fidelity.initial_consistent.
  - apply sound_nil.
  - intros t p Htp. destruct (lookup_empty_Some t p Htp).
  - intros t p r s ph Htp. destruct (lookup_empty_Some t p Htp).
  - intros i a Hi. destruct (lookup_empty_Some i a Hi).
Qed.

(** What each possible step keeps holds at the end. *)
Lemma possible_invariant (Inv : Daemon -> Prop) (safe : Event -> Prop) d es :
  (forall d e, coherent d -> Inv d -> possible d e -> safe e -> Inv (step d e)) ->
  coherent d -> Inv d -> possible_run d es -> Forall safe es -> Inv (run d es).
Proof.
  intros Hstep. revert d. induction es as [|e es IH]; intros d Hc Hi Hp Hs; [exact Hi|]. destruct Hp as [Hp Hps].
  inversion_clear Hs. apply IH; auto. apply step_coherent; auto.
Qed.

Lemma run_coherent rs es : possible_run (start_daemon rs) es -> coherent (run (start_daemon rs) es).
Proof.
  intros Hp. apply (possible_invariant coherent (fun _ => True)); auto.
  - intros. apply step_coherent; auto.
  - apply start_coherent.
  - apply start_coherent.
  - apply Forall_forall. auto.
Qed.

(** The log and the ledger of a step. *)
Lemma settle_ledger t p d : ledger (settle t p d) = ledger d.
Proof. destruct p; reflexivity. Qed.

Lemma settle_log t p d : exists es, log (settle t p d) = log d ++ es /\ forall x, x ∈ es -> exists a, p = Ret a /\ x = (t, Answered a).
Proof.
  destruct p as [a|c k]; simpl.
  - eexists. split; [reflexivity|]. intros x Hx%list_elem_of_singleton. eauto.
  - exists []. split; [symmetry; apply app_nil_r|]. intros x Hx. inversion Hx.
Qed.

Lemma step_told d e : ledger (step d e) = Fidelity.run privacy_hash identity_hash (ledger d) (told d e).
Proof.
  destruct e as [t handler|t io|t|row|file|io names]; simpl; try reflexivity; [rewrite settle_ledger; reflexivity|].
  destruct (tasks d !! t) as [[a|c k]|]; try reflexivity. rewrite settle_ledger. simpl.
  destruct (ledger_event io c); reflexivity.
Qed.

Lemma told_allowed d e :
  coherent d -> possible d e -> Fidelity.permitted privacy_hash identity_hash (Fidelity.allowed privacy_hash) (ledger d) (told d e).
Proof.
  intros Hco Hp. destruct e as [t handler|t io|t|row|file|io names]; simpl; auto.
  destruct (tasks d !! t) as [[a|c k]|] eqn:Ht; try exact I. destruct (ledger_event io c) eqn:He; [|exact I].
  split; [eapply ledger_allowed; eauto|exact I].
Qed.

(** ** What was started stays accounted for *)

Definition completions_recorded (s : Fidelity.System) (l : Log) : Prop :=
  forall t r, NCompleted r true ∈ notes t l -> recorded s (Fidelity.id r) = true.

(** An execution whose boundary was crossed is accounted for; once its process was
    started nobody can give it up. *)
Record kept (i : rstr) (s : Fidelity.System) (l : Log) : Prop := {
  q_own : forall t r session ph, own (notes t l) = Some (r, session, ph) -> Fidelity.id r = i -> ph <> PReserved -> accounted_for s i;
  q_runs : forall t, i ∈ exact_runs (notes t l) ->
    accounted_for s i /\ forall t' r session ph, own (notes t' l) = Some (r, session, ph) -> Fidelity.id r = i -> ph = PRunning;
}.

Lemma kept_quiet i t s l e : match e with Noted _ => False | _ => True end -> kept i s l -> kept i s (l ++ [(t, e)]).
Proof.
  intros He [Ho Hr]. constructor.
  - intros t'. rewrite notes_quiet by exact He. apply Ho.
  - intros t'. rewrite notes_quiet by exact He. intros Hin. destruct (Hr _ Hin) as [Ha Hall]. split; [exact Ha|].
    intros t0. rewrite notes_quiet by exact He. apply Hall.
Qed.

Lemma kept_settle i t p d : kept i (ledger d) (log d) -> kept i (ledger (settle t p d)) (log (settle t p d)).
Proof. intros Hk. destruct p as [a|c k]; [apply kept_quiet; [exact I|]|]; exact Hk. Qed.

Lemma hold_phase s n r session ph :
  (hold s n).1 = Some (r, session, ph) ->
  (n = NReserved r session /\ ph = PReserved)
  \/ exists ph0, s.1 = Some (r, session, ph0)
       /\ ph = match n with NBegun => PExecuting | NSpawned _ _ => PRunning | _ => ph0 end.
Proof. destruct s as [[[[r0 s0] ph0]|] l], n; simpl; intros [=]; subst; eauto. Qed.

Lemma hold_runs s n i :
  i ∈ (hold s n).2 ->
  i ∈ s.2 \/ exists c e r session ph, n = NSpawned c e /\ s.1 = Some (r, session, ph) /\ Fidelity.id r = i.
Proof.
  destruct s as [[[[r0 s0] ph0]|] l], n; simpl; auto. intros [->|Hin]%elem_of_cons; [right; eauto 10|auto].
Qed.

(** What the notes of a call say about it. *)
Lemma note_call c x n :
  note c x = Some n ->
  match n with
  | NBegun => exists r record channel, c = Begin r record channel
  | NSpawned command e => exists cwd, c = SpawnProcess command e cwd
  | NCompleted r _ => exists record channel, c = Complete r record channel
  | _ => True
  end.
Proof.
  destruct c; simpl; intros Hn; repeat case_match; simplify_eq/=; eauto; try (apply fmap_Some in Hn as (? & _ & ?); discriminate).
Qed.

Lemma own_same_handler l t t' r s ph r' s' ph' :
  sound l -> own (notes t l) = Some (r, s, ph) -> own (notes t' l) = Some (r', s', ph') -> Fidelity.id r = Fidelity.id r' -> t = t' /\ r = r'.
Proof. intros Hs H%own_reserved%in_notes H'%own_reserved%in_notes. eapply reserved_once; eauto. Qed.

Section Served.
Context (i : rstr) (d : Daemon) (t : N) (io : Io) (c : Call) (k : Reply c -> Prog Answer).
Context (Hco : coherent d) (Ht : tasks d !! t = Some (Do c k)) (Hp : possible d (Perform t io)).

#[local] Abbreviation h := (notes t (log d)).

Lemma served_discipline : mute c = true \/ ledger_discipline h c.
Proof. destruct (k_tasks _ Hco _ _ Ht) as (handler & _ & [Hc _]). exact Hc. Qed.

Lemma served_recorded : recorded (ledger d) i = true -> recorded (ledger (served io t c d)) i = true.
Proof.
  intros Hr. simpl. destruct (ledger_event io c) as [e|] eqn:He; [|exact Hr]. simpl. apply Fidelity.step_recorded; [apply Hco| |exact Hr].
  eapply ledger_allowed; eauto.
Qed.

(** Only who holds a reservation, and started nothing under it, gives it up. *)
Lemma served_accounted_for :
  accounted_for (ledger d) i ->
  (forall r s ph, own h = Some (r, s, ph) -> Fidelity.id r = i -> consumed c = Some r -> ph = PRunning) ->
  accounted_for (ledger (served io t c d)) i.
Proof.
  intros Ha Hcan. simpl. destruct (ledger_event io c) as [e|] eqn:He; [|exact Ha]. simpl.
  apply Fidelity.step_accounted_for; [apply Hco|eapply ledger_allowed; eauto| | |exact Ha].
  - apply ledger_event_call in He. destruct c; try discriminate; injection He as <-; discriminate.
  - apply ledger_event_call in He. assert (Hcan' : forall rm r proven, e = Fidelity.Cancel rm r proven -> Fidelity.id r <> i).
    { intros rm r proven -> Hid. pose proof served_discipline as Hd. destruct c; try discriminate. injection He as _ -> ->.
      destruct Hd as [?|(s & [Ho|[Ho _]])]; try discriminate; discriminate (Hcan _ _ _ Ho Hid eq_refl). }
    destruct e; try reflexivity. simpl. apply bool_decide_eq_false. eapply Hcan'. reflexivity.
Qed.

#[local] Abbreviation s' := (ledger (served io t c d)).
#[local] Abbreviation l' := (log (served io t c d)).

Lemma notes_served t' : notes t' l' = if decide (t = t') then noted h (note c (serve io c d)) else notes t' (log d).
Proof. simpl. rewrite notes_entries. destruct (decide _) as [->|]; reflexivity. Qed.

(** A completion that was noted is in the ledger. *)
Lemma served_completed t' r :
  completions_recorded (ledger d) (log d) -> NCompleted r true ∈ notes t' l' -> Fidelity.id r = i -> recorded s' i = true.
Proof.
  intros Hold. rewrite notes_served. intros Hin Hid.
  assert (NCompleted r true ∈ notes t' (log d) \/ note c (serve io c d) = Some (NCompleted r true)) as [Hin'|Hn].
  { destruct (decide _) as [<-|_]; [|auto]. destruct (note _ _) as [n|]; [|auto].
    apply elem_of_app in Hin as [Hin|Hin%list_elem_of_singleton]; [auto|subst; auto]. }
  - apply served_recorded. rewrite <- Hid. exact (Hold _ _ Hin').
  - destruct (note_call _ _ _ Hn) as (record & channel & Hc1). clear Ht Hin. revert k Hp. rewrite Hc1 in Hn |- *. intros _ _.
    simpl in Hn |- *. rewrite <- Hid. unfold ledger_event, sent in *. destruct (io_gone io); [discriminate|].
    apply Fidelity.complete_recorded. injection Hn as Hn.
    destruct (Fidelity.complete_fidelity _ _ _ _ _ _ _ _) as [[[]|e] w]; [reflexivity|discriminate].
Qed.

Section Kept.
Context (Hk : kept i (ledger d) (log d)).

Lemma kept_own t' r session ph :
  own (notes t' l') = Some (r, session, ph) -> Fidelity.id r = i -> ph <> PReserved -> accounted_for s' i.
Proof.
  intros Ho Hid Hph. rewrite notes_served in Ho. destruct (decide (t = t')) as [<-|Hne].
  2: { apply served_accounted_for; [exact (q_own _ _ _ Hk _ _ _ _ Ho Hid Hph)|]. intros r0 s0 ph0 Ho0 Hid0 _.
       destruct (own_same_handler _ _ _ _ _ _ _ _ _ (k_log _ Hco) Ho0 Ho) as [-> _]; [congruence|]. destruct (Hne eq_refl). }
  unfold own in Ho. rewrite holding_noted in Ho. destruct (note c (serve io c d)) as [n|] eqn:Hn.
  2: { apply served_accounted_for; [exact (q_own _ _ _ Hk _ _ _ _ Ho Hid Hph)|]. intros r0 s0 ph0 _ _ Hc.
       destruct c; discriminate. }
  destruct (hold_own _ _ _ _ _ Ho) as [->|[_ Hc]]; [destruct (hold_phase _ _ _ _ _ Ho) as [[_ ->]|(? & _ & Hq)]|].
  { destruct (Hph eq_refl). }
  { simpl in Ho. congruence. }
  destruct (hold_phase _ _ _ _ _ Ho) as [[-> ->]|(ph0 & Ho0 & ->)]; [destruct (Hph eq_refl)|].
  assert (Hcons : consumed c = None) by (destruct c; simpl in Hn; simplify_eq/=; auto; destruct Hc).
  destruct (decide (ph0 = PReserved)) as [->|Hph0].
  2: { apply served_accounted_for; [exact (q_own _ _ _ Hk t _ _ _ Ho0 Hid Hph0)|]. intros ? ? ? _ _ ?. congruence. }
  destruct n; try destruct (Hph eq_refl).
  - destruct (note_call _ _ _ Hn) as (r1 & record & channel & Hc1). destruct served_discipline as [Hm|Hd]; [rewrite Hc1 in Hm; discriminate|].
    clear Ht Hp. revert k. rewrite Hc1 in Hd, Hn |- *. intros _. destruct Hd as (s1 & Ho1 & _).
    unfold own in Ho1. rewrite Ho0 in Ho1. injection Ho1 as <- <-. subst i.
    simpl in Hn |- *. unfold ledger_event, sent in *. destruct (io_gone io); [discriminate|]. apply Fidelity.begin_accounted_for. destruct (Fidelity.begin_fidelity _ _ _ _ _ _ _) as [[[]|e] w]; [reflexivity|discriminate].
  - destruct (note_call _ _ _ Hn) as (cwd & Hc1). destruct served_discipline as [Hm|Hd]; rewrite Hc1 in *; [discriminate|].
    exfalso. destruct Hd as [Hd|(r1 & s1 & Hd)]; unfold own in Hd; congruence.
Qed.

Lemma kept_runs t' :
  i ∈ exact_runs (notes t' l') ->
  accounted_for s' i /\ forall t0 r session ph, own (notes t0 l') = Some (r, session, ph) -> Fidelity.id r = i -> ph = PRunning.
Proof.
  intros Hin.
  assert ((exists t1, i ∈ exact_runs (notes t1 (log d)))
          \/ exists command e r session ph, note c (serve io c d) = Some (NSpawned command e)
                                            /\ own h = Some (r, session, ph) /\ Fidelity.id r = i) as [[t1 Hold]|Hnew].
  { rewrite notes_served in Hin. destruct (decide _) as [_|_]; [|eauto]. unfold exact_runs in Hin. rewrite holding_noted in Hin.
    destruct (note _ _) as [n|]; [|left; exists t; exact Hin]. apply hold_runs in Hin as [Hin|(command & e & r & session & ph & -> & Hr)].
    - left. exists t. exact Hin.
    - right. exists command, e, r, session, ph. auto. }
  - destruct (q_runs _ _ _ Hk _ Hold) as [Ha Hall]. split; [apply served_accounted_for; [exact Ha|eauto]|].
    intros t0 r session ph Ho Hid. rewrite notes_served in Ho. destruct (decide _) as [_|_]; [|eauto].
    unfold own in Ho. rewrite holding_noted in Ho. destruct (note c (serve io c d)) as [n|] eqn:Hn; [|exact (Hall _ _ _ _ Ho Hid)].
    destruct (hold_phase _ _ _ _ _ Ho) as [[-> _]|(ph0 & Ho0 & ->)].
    + exfalso. destruct (runs_reserved _ _ Hold) as (r1 & s1 & Hid1 & Hin1%in_notes).
      destruct (k_tasks _ Hco _ _ Ht) as (handler & Hacc & Hal).
      destruct (noted_ok _ _ _ _ _ _ _ Hco Ht Hp Hacc Hal Hn) as [_ Hd]. apply (Hd _ _ _ Hin1). congruence.
    + pose proof (Hall _ _ _ _ Ho0 Hid) as ->. destruct n; try reflexivity. exfalso.
      destruct (note_call _ _ _ Hn) as (r1 & record & channel & Hc1). destruct served_discipline as [Hm|Hd]; rewrite Hc1 in *; [discriminate|].
      destruct Hd as (s1 & Ho1 & _). unfold own in Ho1. congruence.
  - destruct Hnew as (command & e & r & session & ph & Hn & Ho & Hid). destruct (note_call _ _ _ Hn) as (cwd & Hc1).
    assert (ph = PExecuting) as ->.
    { destruct served_discipline as [Hm|Hd]; rewrite Hc1 in *; [discriminate|]. destruct Hd as [Hd|(r1 & s1 & Hd)]; congruence. }
    split.
    + apply served_accounted_for; [eapply (q_own _ _ _ Hk); eauto; discriminate|]. intros ? ? ? _ _ Hc. rewrite Hc1 in Hc. discriminate.
    + intros t0 r0 s0 ph0 Ho0 Hid0. rewrite notes_served in Ho0. destruct (decide _) as [_|Hne].
      * unfold own in Ho0, Ho. rewrite holding_noted, Hn in Ho0. destruct (hold_phase _ _ _ _ _ Ho0) as [[? _]|(? & _ & ->)]; [discriminate|reflexivity].
      * destruct (own_same_handler _ _ _ _ _ _ _ _ _ (k_log _ Hco) Ho Ho0) as [-> _]; [congruence|]. destruct (Hne eq_refl).
Qed.

Lemma kept_served : kept i s' l'.
Proof.
  constructor; [intros t'; apply kept_own|apply kept_runs].
Qed.
End Kept.

End Served.

Lemma kept_ledger i e d :
  kept i (ledger d) (log d) -> coherent d -> Fidelity.allowed privacy_hash e (ledger d) -> e <> Fidelity.Damage i ->
  Fidelity.cancels e i = false -> kept i (Fidelity.step privacy_hash identity_hash (ledger d) e) (log d).
Proof.
  intros [Ho Hr] Hco Ha Hd Hcan.
  assert (Hacc : accounted_for (ledger d) i -> accounted_for (Fidelity.step privacy_hash identity_hash (ledger d) e) i)
    by (apply Fidelity.step_accounted_for; auto; apply Hco).
  constructor; [eauto|intros t Hin; destruct (Hr t Hin); auto].
Qed.

Lemma step_kept i d e :
  coherent d -> kept i (ledger d) (log d) -> possible d e -> e <> Damage i ->
  kept i (ledger (step d e)) (log (step d e)).
Proof.
  intros Hco Hk Hp Hd. destruct e as [t handler|t io|t|row|file|io names]; simpl step.
  - apply kept_settle. apply kept_quiet; [exact I|exact Hk].
  - destruct (tasks d !! t) as [[a|c k]|] eqn:Ht; try exact Hk. apply kept_settle. exact (kept_served _ _ _ _ _ _ Hco Ht Hp Hk).
  - exact Hk.
  - apply (kept_ledger i (Fidelity.OtherRow row) d); auto; discriminate.
  - apply (kept_ledger i (Fidelity.Damage file) d); auto; congruence.
  - apply (kept_ledger i (Fidelity.Restart io names) d); auto; discriminate.
Qed.

Lemma run_kept i rs es :
  possible_run (start_daemon rs) es -> Forall (fun e => e <> Damage i) es ->
  kept i (ledger (run (start_daemon rs) es)) (log (run (start_daemon rs) es)).
Proof.
  intros Hp Hd. apply (possible_invariant (fun d => kept i (ledger d) (log d)) (fun e => e <> Damage i)); auto.
  - intros. apply step_kept; auto.
  - apply start_coherent.
  - constructor; simpl; [intros t r s ph; discriminate|intros t Hin; inversion Hin].
Qed.

Lemma step_completions d e :
  coherent d -> completions_recorded (ledger d) (log d) -> possible d e ->
  completions_recorded (ledger (step d e)) (log (step d e)).
Proof.
  intros Hco Hk Hp.
  assert (Hledger : forall fe, Fidelity.allowed privacy_hash fe (ledger d) ->
    completions_recorded (Fidelity.step privacy_hash identity_hash (ledger d) fe) (log d)).
  { intros fe Ha t r Hin. apply Fidelity.step_recorded; [apply Hco|exact Ha|exact (Hk _ _ Hin)]. }
  assert (Hsettle : forall t p d', completions_recorded (ledger d') (log d') ->
    completions_recorded (ledger (settle t p d')) (log (settle t p d'))).
  { intros t p d' Hd'. destruct p as [a|c k]; [|exact Hd']. intros t' r. simpl. rewrite notes_quiet by exact I. apply Hd'. }
  destruct e as [t handler|t io|t|row|file|io names]; simpl step.
  - apply Hsettle. intros t' r. simpl. rewrite notes_quiet by exact I. apply Hk.
  - destruct (tasks d !! t) as [[a|c k]|] eqn:Ht; try exact Hk. apply Hsettle. intros t' r Hin.
    exact (served_completed _ _ _ _ _ _ Hco Ht Hp _ _ Hk Hin eq_refl).
  - exact Hk.
  - exact (Hledger (Fidelity.OtherRow row) Hp).
  - exact (Hledger (Fidelity.Damage file) I).
  - exact (Hledger (Fidelity.Restart io names) Hp).
Qed.

Lemma run_completions rs es :
  possible_run (start_daemon rs) es ->
  completions_recorded (ledger (run (start_daemon rs) es)) (log (run (start_daemon rs) es)).
Proof.
  intros Hp. apply (possible_invariant (fun d => completions_recorded (ledger d) (log d)) (fun _ => True)); auto.
  - intros. apply step_completions; auto.
  - apply start_coherent.
  - intros t r Hin. inversion Hin.
  - apply Forall_forall. auto.
Qed.

(** ** Properties *)


(** C8: an exact-output process that was started is in the ledger, on file or resolved
    from then on, unless its file is damaged. *)
Theorem started_exact_runs_stay_accounted_for rs es i t :
  possible_run (start_daemon rs) es -> Forall (fun e => e <> Damage i) es ->
  i ∈ exact_runs (notes t (log (run (start_daemon rs) es))) ->
  accounted_for (ledger (run (start_daemon rs) es)) i.
Proof. intros Hp Hd Hin. apply (q_runs _ _ _ (run_kept i rs es Hp Hd) t Hin). Qed.

(** Why a process was started: by the decision about a request, or by an approval of
    what an earlier request asked for. *)
Definition requested_run (l : Log) (t : N) (c : CanonicalCommand) : Prop :=
  exists request job requested d,
    (t, Accepted (ExecRun request job)) ∈ l
    /\ decided host_shell identity_hash request (notes t l) requested d /\ starts requested d (notes t l) c.

Definition approved_run (l : Log) (t : N) (c : CanonicalCommand) : Prop :=
  exists i p, (t, Accepted (ExecApproval i true)) ∈ l /\ (t, Noted (NTaken i p)) ∈ l
    /\ starts (p_requested p) (approved_decision p) (notes t l) c
    /\ exists t' request job proposed reason evasion,
         (t', Accepted (ExecRun request job)) ∈ l /\ (t', Noted (NAsked i p)) ∈ l
         /\ decided host_shell identity_hash request (notes t' l) (p_requested p) (Ask (Some proposed) reason)
         /\ approved_decision p = approved_execution_decision proposed evasion.

Lemma asked_by l t i p :
  sound l -> (t, Noted (NAsked i p)) ∈ l ->
  exists request job proposed reason evasion,
    (t, Accepted (ExecRun request job)) ∈ l
    /\ decided host_shell identity_hash request (notes t l) (p_requested p) (Ask (Some proposed) reason)
    /\ approved_decision p = approved_execution_decision proposed evasion.
Proof.
  intros Hs Hin. destruct (sound_entry _ _ Hs Hin) as (l1 & l2 & -> & (handler & Hacc & Hn) & _). simpl in Hacc, Hn.
  destruct Hn as (proposed & reason & evasion & Hd & Hp).
  assert (Hext : extends (notes t l1) (notes t (l1 ++ (t, Noted (NAsked i p)) :: l2)))
    by (intros n Hnn; rewrite notes_app; apply elem_of_app; auto).
  destruct handler as [request job|j approved|j how]; simpl in Hd; [|exfalso|destruct Hd].
  - exists request, job, proposed, reason, evasion. split; [apply elem_of_app; auto|]. split; [|exact Hp].
    eapply decided_extends; eauto.
  - destruct Hd as (_ & p' & Hin' & _ & Hd). apply in_notes in Hin'.
    assert (Hs1 : sound l1) by (intros a t0 e b ->; eapply (Hs a t0 e); rewrite <- app_assoc; reflexivity).
    destruct (taken_was_asked _ _ _ _ Hs1 Hin') as [t' Hask].
    destruct (sound_entry _ _ Hs1 Hask) as (l3 & l4 & -> & (handler' & _ & (pr & re & ev & _ & Hp')) & _).
    rewrite Hp' in Hd. unfold approved_execution_decision in Hd. destruct (match ev with Some _ => _ | None => _ end); discriminate.
Qed.

(** C3: a process is what the decision about its request allows, or what a user approved
    after an earlier request had asked for it. *)
Theorem processes_have_a_reason rs es l1 t c env l2 :
  possible_run (start_daemon rs) es -> log (run (start_daemon rs) es) = l1 ++ (t, Noted (NSpawned c env)) :: l2 ->
  requested_run l1 t c \/ approved_run l1 t c.
Proof.
  intros Hp Hl. pose proof (k_log _ (run_coherent rs es Hp)) as Hs. rewrite Hl in Hs.
  assert (Hs1 : sound l1) by (intros a t0 e b ->; eapply (Hs a t0 e); rewrite <- app_assoc; reflexivity).
  destruct (Hs _ _ _ _ eq_refl) as [(handler & Hacc & _ & requested & d & Hd & Hst) _].
  destruct handler as [request job|i approved|i how]; simpl in Hd; [| |destruct Hd].
  - left. exists request, job, requested, d. auto.
  - right. destruct Hd as (-> & p & Hin%in_notes & -> & ->). exists i, p. split; [exact Hacc|]. split; [exact Hin|]. split; [exact Hst|].
    destruct (taken_was_asked _ _ _ _ Hs1 Hin) as [t' Hask].
    destruct (asked_by _ _ _ _ Hs1 Hask) as (request & job & proposed & reason & evasion & H1 & H2 & H3).
    exists t', request, job, proposed, reason, evasion. auto.
Qed.

Lemma accepted_once l t handler handler' :
  sound l -> (t, Accepted handler) ∈ l -> (t, Accepted handler') ∈ l -> handler = handler'.
Proof.
  intros Hs (l1 & l2 & ->)%list_elem_of_split Hin.
  apply elem_of_app in Hin as [Hin|Hin]; [destruct (Hs _ _ _ _ eq_refl _ Hin)|].
  apply elem_of_cons in Hin as [[= ->]|(l3 & l4 & ->)%list_elem_of_split]; [reflexivity|].
  rewrite (app_comm_cons l3 ((t, Accepted handler') :: l4)), app_assoc in Hs.
  destruct (Hs _ _ _ _ eq_refl (Accepted handler)). apply elem_of_app. right. left.
Qed.

Lemma approval_behind l t i a c env :
  sound l -> (t, Accepted (ExecApproval i a)) ∈ l -> (t, Noted (NSpawned c env)) ∈ l -> exists p, (t, Noted (NTaken i p)) ∈ l.
Proof.
  intros Hs Hacc Hin. destruct (sound_entry _ _ Hs Hin) as (l1 & l2 & -> & (handler & Hacc' & _ & requested & d & Hd & _) & _).
  simpl in Hacc', Hd. assert (handler = ExecApproval i a) as -> by (eapply accepted_once; [exact Hs| |exact Hacc]; apply elem_of_app; auto).
  destruct Hd as (_ & p & Hp%in_notes & _). exists p. apply elem_of_app. auto.
Qed.

(** C10: an approval starts at most one process, by whomever it is confirmed. *)
Theorem an_approval_starts_one_process rs es i t1 t2 a1 a2 c1 e1 l1 c2 e2 l2 :
  possible_run (start_daemon rs) es ->
  log (run (start_daemon rs) es) = l1 ++ (t2, Noted (NSpawned c2 e2)) :: l2 ->
  (t1, Accepted (ExecApproval i a1)) ∈ l1 -> (t2, Accepted (ExecApproval i a2)) ∈ l1 ->
  (t1, Noted (NSpawned c1 e1)) ∉ l1.
Proof.
  intros Hp Hl H1 H2 Hin. pose proof (k_log _ (run_coherent rs es Hp)) as Hs. rewrite Hl in Hs.
  assert (Hup : forall x, x ∈ l1 -> x ∈ l1 ++ (t2, Noted (NSpawned c2 e2)) :: l2) by (intros; apply elem_of_app; auto).
  destruct (approval_behind _ t1 i a1 c1 e1 Hs) as [p1 Ht1]; [auto..|].
  destruct (approval_behind _ t2 i a2 c2 e2 Hs) as [p2 Ht2]; [auto|apply elem_of_app; right; left|].
  destruct (sound_unique _ _ _ _ _ Hs Ht1 Ht2 eq_refl) as [-> _].
  destruct (Hs _ _ _ _ eq_refl) as [(handler & _ & Hn & _) _]. apply Hn. exists c1, e1. apply in_notes. exact Hin.
Qed.

(** C9: an answer says that nothing was started only when nothing was, that a command
    completed only when it was started and its exact output is in the ledger, and an error
    has the code of an unknown execution exactly if a process was started under a
    reservation for exact output.  A process that was started without one and fails is
    answered as a failed execution, the code of a process that could not be started
    (see [plain_starts_may_be_called_recoverable]). *)
Theorem answers_tell_what_happened rs es l1 t a l2 :
  possible_run (start_daemon rs) es -> log (run (start_daemon rs) es) = l1 ++ (t, Answered (Outcome a)) :: l2 ->
  truthful (notes t l1) a
  /\ forall e r s, a = Ok (Completed e) -> NReserved r s ∈ notes t l1 ->
       recorded (ledger (run (start_daemon rs) es)) (Fidelity.id r) = true.
Proof.
  intros Hp Hl. pose proof (k_log _ (run_coherent rs es Hp)) as Hs. rewrite Hl in Hs.
  destruct (Hs _ _ _ _ eq_refl) as (handler & _ & Ht). split; [exact Ht|]. intros e r s -> Hin. destruct Ht as [_ Hc].
  apply (run_completions rs es Hp t). rewrite Hl, notes_app. apply elem_of_app. left. exact (Hc _ _ Hin).
Qed.

(** ** Checking a run *)

Definition new_in (l : Log) (i : rstr) : bool :=
  forallb (fun x => match x.2 with
                    | Noted (NReserved r _) => negb (str_eqb (Fidelity.id r) i)
                    | Noted (NAsked j _) => negb (str_eqb j i)
                    | _ => true
                    end) l.

(** [possible], decided; a proof that something did not run is not looked into. *)
Definition possible_b (d : Daemon) (e : Event) : bool :=
  match e with
  | Accept t _ => forallb (fun x => negb (x.1 =? t)) (log d)
  | Perform t io =>
      bool_decide (Fidelity.records (Fidelity.disk (Fidelity.writer (ledger d))) !! io_fresh io = None)
      && negb (recorded (ledger d) (io_fresh io)) && new_in (log d) (io_fresh io)
      && match tasks d !! t with Some (Do (Reconcile _ Fidelity.ProveNotExecuted) _) => false | _ => true end
  | Gone _ | Damage _ => true
  | OtherRow row => match Fidelity.fidelity_reservation_id row with None => true | Some _ => false end
  | Restart _ names =>
      forallb (fun x => bool_decide (x.1 ∈ names)) (map_to_list (Fidelity.records (Fidelity.disk (Fidelity.writer (ledger d)))))
  end.

Fixpoint possible_run_b (d : Daemon) (es : list Event) : bool :=
  match es with [] => true | e :: es => possible_b d e && possible_run_b (step d e) es end.

Lemma possible_checked d e : possible_b d e = true -> possible d e.
Proof.
  destruct e as [t handler|t io|t|row|file|io names]; simpl; intros Hb; auto.
  - intros entry Hin. rewrite forallb_forall in Hb. apply list_elem_of_In in Hin. specialize (Hb _ Hin). simpl in Hb. lia.
  - rewrite !andb_true_iff, negb_true_iff, bool_decide_eq_true in Hb. destruct Hb as [[[Hrec Hrow] Hnew] Htask].
    assert (Hn : forall t' e, (t', e) ∈ log d -> match e with
               | Noted (NReserved r _) => Fidelity.id r <> io_fresh io | Noted (NAsked j _) => j <> io_fresh io | _ => True end).
    { intros t' e Hin. unfold new_in in Hnew. rewrite forallb_forall in Hnew. apply list_elem_of_In in Hin. specialize (Hnew _ Hin).
      simpl in Hnew. destruct e as [|[]|]; auto; intros Heq; unfold str_eqb in Hnew; rewrite bool_decide_true in Hnew; done. }
    split; [auto|]. split; [intros t' r s Hin; exact (Hn _ _ Hin)|]. split; [intros t' p Hin; exact (Hn _ _ Hin eq_refl)|].
    destruct (tasks d !! t) as [[a|[] k]|]; auto. destruct how; [exact I|discriminate].
  - destruct (Fidelity.fidelity_reservation_id row); [discriminate|reflexivity].
  - intros i [r Hi]. rewrite forallb_forall in Hb. apply elem_of_map_to_list, list_elem_of_In in Hi.
    exact (bool_decide_eq_true_1 _ (Hb _ Hi)).
Qed.

Lemma run_checked es d : possible_run_b d es = true -> possible_run d es.
Proof.
  revert d. induction es as [|e es IH]; intros d; simpl; [auto|]. rewrite andb_true_iff. intros [He Hes].
  split; [apply possible_checked, He|apply IH, Hes].
Qed.

End Daemon.

(** ** A day of the daemon *)

Module Sample.

Definition keyed (domain value : rstr) : rstr := domain ++ lit ":" ++ value.
Definition no_oldest (m : gmap rstr (@Approvals.StoredApproval PendingApproval)) : option rstr := None.

#[local] Abbreviation step := (step 30000 (lit "/bin/sh") keyed keyed (fun _ => lit "{}") (fun _ => []) (lit "/tmp") no_oldest).
#[local] Abbreviation run := (run 30000 (lit "/bin/sh") keyed keyed (fun _ => lit "{}") (fun _ => []) (lit "/tmp") no_oldest).
#[local] Abbreviation possible_run_b := (possible_run_b 30000 (lit "/bin/sh") keyed keyed (fun _ => lit "{}") (fun _ => []) (lit "/tmp") no_oldest).

#[local] Abbreviation ledger_events := (ledger_events 30000 (lit "/bin/sh") keyed keyed (fun _ => lit "{}") (fun _ => []) (lit "/tmp") no_oldest).

(** Exact output, and a command that the engine asks about. *)
Definition exact : Policy.ExecApiRequest :=
  {| Policy.channel := None; Policy.cwd := lit "/w"; Policy.command := lit "cat key.pem"; Policy.fidelity_requested := true;
     Policy.fidelity_reason := Some (lit "binary"); Policy.timeout_ms := None; Policy.caller_path := None; Policy.agent := None;
     Policy.session_id := Some (lit "s1"); Policy.host_execution_grant := None |}.
Definition asking : Policy.ExecApiRequest :=
  {| Policy.channel := None; Policy.cwd := lit "/w"; Policy.command := lit "make"; Policy.fidelity_requested := false;
     Policy.fidelity_reason := None; Policy.timeout_ms := None; Policy.caller_path := None; Policy.agent := None;
     Policy.session_id := Some (lit "s1"); Policy.host_execution_grant := None |}.

Definition proposal : CanonicalCommand := Argv (lit "rtk") [lit "make"].
Definition engine (c : CanonicalCommand) (exact : bool) : RtkRewriteOutcome :=
  {| Adapter.decision := if exact then AllowRaw (lit "exact") else Ask (Some proposal) (lit "a rule asks");
     Adapter.evasion := None; Adapter.accounting_correlation_id := None; Adapter.host_permission := None |}.

Definition shown (n : N) : CapturedStream :=
  {| content := Inline []; total_bytes := n; stored_bytes := n; sha256_hex := []; truncated := false; dropped_event_bytes := 0 |}.

(** A world without errors; processes write 400 bytes. *)
Definition replies (c : Call) : Reply c :=
  match c with
  | Canonicalize path => Ok (path, true)
  | BeginTrace _ _ => []
  | LookAtFiles => {| metadata := fun _ => Some 100; read_sample := fun _ _ => Some [0; 1; 2] |}
  | Usage _ => Some {| Operation.remaining_operations := 5; Operation.remaining_tokens := 1000; Operation.exhausted := false |}
  | Reserve _ _ _ => Ok None
  | Begin _ _ _ | Complete _ _ _ | Cancel _ _ | WritePolicyEvent _ | WriteOperation _ _ => Ok tt
  | Reconcile _ _ => Err (Fidelity.Durability [])
  | AskEngine => engine
  | Clock | Elapsed => 7
  | Approve _ => []
  | Take _ => None
  | IsCancelled => false
  | Register _ | SpawnProcess _ _ _ => None
  | CompleteContext _ => tt
  | WaitProcess _ _ _ => Ok {| z_stdout := shown 400; z_stderr := shown 0; z_termination := {| cause := Exited; exit_code := Some 0%Z; signal := None |}; z_duration_ms := 3 |}
  end.

Definition io_with (n : N) (outside : forall c, Reply c) : Io :=
  {| io_gone := false; io_db := None; io_persist := Fidelity.Replaced; io_again := Fidelity.Replaced; io_remove := Fidelity.Removed;
     io_now := 1000 + n; io_instant := n; io_fresh := [n]; outside := outside |}.

Definition perform_with (t : N) (n : nat) (from : N) (outside : forall c, Reply c) : list Event :=
  (fun i => Perform t (io_with (from + N.of_nat i) outside)) <$> seq 0 n.
Definition perform (t : N) (n : nat) (from : N) : list Event := perform_with t n from replies.

(** Two requests at the same time; the second one is asked about and approved while the
    first one's process runs, whose client then goes away. *)
Definition morning : list Event :=
  Accept 1 (ExecRun exact None) :: Accept 2 (ExecRun asking None)
    :: perform 1 5 0 ++ perform 2 6 20 ++ perform 1 5 40 ++ Accept 3 (ExecApproval [25] true) :: perform 3 2 60.
Definition noon : list Event := morning ++ perform 1 2 80 ++ perform 3 1 100.


Lemma noon_possible : possible_run_b (start_daemon []) noon = true.
Proof. vm_compute. reflexivity. Qed.

Lemma noon_ok :
  possible_run 30000 (lit "/bin/sh") keyed keyed (fun _ => lit "{}") (fun _ => []) (lit "/tmp") no_oldest (start_daemon []) noon.
Proof. apply run_checked, noon_possible. Qed.


(** The client of the first request goes away while its process runs, and the daemon is
    started again. *)
Definition abandoned : list Event := morning ++ [Gone 1; Restart Fidelity.Sample.clean [[4]]].

Lemma started_exact_runs_stay_accounted_for_witness :
  accounted_for (ledger (run (start_daemon []) abandoned)) [4]
  /\ recorded (ledger (run (start_daemon []) abandoned)) [4] = false.
Proof.
  split; [|vm_compute; reflexivity].
  apply (started_exact_runs_stay_accounted_for 30000 (lit "/bin/sh") keyed keyed (fun _ => lit "{}") (fun _ => []) (lit "/tmp")
    no_oldest [] abandoned [4] 1).
  - apply run_checked. vm_compute. reflexivity.
  - unfold abandoned, morning, perform, perform_with. repeat constructor; discriminate.
  - apply (bool_decide_unpack _). vm_compute. exact I.
Defined.

Lemma processes_have_a_reason_witness :
  exists env l2,
    log (run (start_daemon []) noon) = take 13 (log (run (start_daemon []) noon)) ++ (3, Noted (NSpawned proposal env)) :: l2
    /\ (requested_run (lit "/bin/sh") keyed (take 13 (log (run (start_daemon []) noon))) 3 proposal
        \/ approved_run (lit "/bin/sh") keyed (take 13 (log (run (start_daemon []) noon))) 3 proposal).
Proof.
  assert (exists env, log (run (start_daemon []) noon) !! 13%nat = Some (3, Noted (NSpawned proposal env))) as [env Hl]
    by (eexists; vm_compute; reflexivity).
  exists env, (drop 14 (log (run (start_daemon []) noon))). pose proof (take_drop_middle _ _ _ Hl) as Hlog.
  split; [symmetry; exact Hlog|].
  exact (processes_have_a_reason 30000 (lit "/bin/sh") keyed keyed (fun _ => lit "{}") (fun _ => []) (lit "/tmp") no_oldest
    [] noon _ _ _ _ _ noon_ok (eq_sym Hlog)).
Defined.

Lemma an_approval_starts_one_process_witness :
  exists env l2,
    log (run (start_daemon []) noon) = take 13 (log (run (start_daemon []) noon)) ++ (3, Noted (NSpawned proposal env)) :: l2
    /\ (3, Noted (NSpawned proposal env)) ∉ take 13 (log (run (start_daemon []) noon)).
Proof.
  assert (exists env, log (run (start_daemon []) noon) !! 13%nat = Some (3, Noted (NSpawned proposal env))) as [env Hl]
    by (eexists; vm_compute; reflexivity).
  exists env, (drop 14 (log (run (start_daemon []) noon))). pose proof (take_drop_middle _ _ _ Hl) as Hlog.
  split; [symmetry; exact Hlog|].
  assert (Hacc : (3, Accepted (ExecApproval [25] true)) ∈ take 13 (log (run (start_daemon []) noon)))
    by (apply (list_elem_of_lookup_2 _ 11); vm_compute; reflexivity).
  exact (an_approval_starts_one_process 30000 (lit "/bin/sh") keyed keyed (fun _ => lit "{}") (fun _ => []) (lit "/tmp") no_oldest
    [] noon [25] 3 3 true true proposal env _ _ _ _ noon_ok (eq_sym Hlog) Hacc Hacc).
Defined.

Lemma answers_tell_what_happened_witness :
  exists e, log (run (start_daemon []) noon) !! 15%nat = Some (1, Answered (Outcome (Ok (Completed e))))
            /\ recorded (ledger (run (start_daemon []) noon)) [4] = true.
Proof.
  assert (exists e, log (run (start_daemon []) noon) !! 15%nat = Some (1, Answered (Outcome (Ok (Completed e))))) as [e Hl]
    by (eexists; vm_compute; reflexivity).
  exists e. split; [exact Hl|].
  destruct (answers_tell_what_happened 30000 (lit "/bin/sh") keyed keyed (fun _ => lit "{}") (fun _ => []) (lit "/tmp") no_oldest
    [] noon _ _ _ _ noon_ok (eq_sym (take_drop_middle _ _ _ Hl))) as [_ Hrec].
  refine (Hrec e {| Fidelity.id := [4]; Fidelity.res_session_hash := keyed (lit "session") (lit "s1") |} (lit "s1") eq_refl _).
  apply in_notes, (list_elem_of_lookup_2 _ 2). vm_compute. reflexivity.
Defined.

(** *** Cases at the edge *)

Definition engine_says (f : CanonicalCommand -> bool -> RtkRewriteOutcome) (c : Call) : Reply c :=
  match c with AskEngine => f | c => replies c end.
Definition too_late (c : Call) : Reply c := match c with Elapsed => 40000 | c => replies c end.
Definition deciding (d : RewriteDecision) (c : CanonicalCommand) (exact : bool) : RtkRewriteOutcome :=
  {| Adapter.decision := d; Adapter.evasion := None; Adapter.accounting_correlation_id := None; Adapter.host_permission := None |}.

Definition status (es : list Event) : Fidelity.FidelityDurabilityStatus :=
  Fidelity.inspect_fidelity_pending (Fidelity.disk (Fidelity.writer (ledger (run (start_daemon []) es)))).

(** A denial of exact output crosses the boundary and stays an unknown execution:
    nothing was started, and somebody has to resolve it. *)
Example denied_exact_output_stays_unknown :
  let es := Accept 1 (ExecRun exact None) :: perform_with 1 10 0 (engine_says (deciding (Deny (lit "a rule denies")))) in
  last (log (run (start_daemon []) es))
    = Some (1, Answered (Outcome (Ok (NotStartedOutcome (Denied (Shell (lit "/bin/sh") (lit "cat key.pem")) (lit "a rule denies"))))))
  /\ exact_runs (notes 1 (log (run (start_daemon []) es))) = []
  /\ Fidelity.executing_unknown (status es) = 1 /\ Fidelity.healthy (status es) = false.
Proof. vm_compute. auto. Qed.

(** A request whose time is over before its process keeps its reservation. *)
Example late_requests_keep_their_reservation :
  let es := Accept 1 (ExecRun exact None) :: perform_with 1 8 0 too_late in
  (exists e, last (log (run (start_daemon []) es)) = Some (1, Answered (Outcome (Err e))) /\ Api.code e = lit "execution_timed_out")
  /\ Fidelity.reserved (status es) = 1 /\ tasks (run (start_daemon []) es) = ∅.
Proof. vm_compute. split; [eexists; auto|auto]. Qed.

(** The answer to a plain command whose process was started and then lost to the
    executor calls the failure recoverable; it is the answer to a process that could
    not be started. *)
Definition lost (c : Call) : Reply c :=
  match c return Reply c with
  | AskEngine => deciding (AllowRaw (lit "plain"))
  | WaitProcess _ _ _ => Err (Model (Wait (lit "make") (lit "no child")))
  | c => replies c
  end.

Example plain_starts_may_be_called_recoverable :
  let l := log (run (start_daemon []) (Accept 1 (ExecRun asking None) :: perform_with 1 12 0 lost)) in
  (exists c e, (1, Noted (NSpawned c e)) ∈ l)
  /\ exists e, last l = Some (1, Answered (Outcome (Err e))) /\ Api.code e = lit "execution_failed" /\ Api.recoverable e = true.
Proof. vm_compute. split; [eexists _, _; do 3 right; left|eexists; auto]. Qed.

(** A ledger whose thread is gone: exact output is refused before anything is started, or
    the answer says that its account is incomplete. *)
Definition without_ledger (n : nat) (e : Event) : Event :=
  match e with
  | Perform t io =>
      if N.of_nat n <=? io_instant io
      then Perform t {| io_gone := true; io_db := io_db io; io_persist := io_persist io; io_again := io_again io;
                        io_remove := io_remove io; io_now := io_now io; io_instant := io_instant io;
                        io_fresh := io_fresh io; outside := outside io |}
      else e
  | e => e
  end.

Example a_dead_ledger_is_told :
  let es n := without_ledger n <$> Accept 1 (ExecRun exact None) :: perform 1 14 0 in
  (exists e, last (log (run (start_daemon []) (es 0%nat))) = Some (1, Answered (Outcome e)) /\ forall r, e <> Ok (Completed r))
  /\ exact_runs (notes 1 (log (run (start_daemon []) (es 0%nat)))) = []
  /\ exists r i, last (log (run (start_daemon []) (es 10%nat))) = Some (1, Answered (Outcome (Ok (ExecutedAccountingIncomplete r i)))).
Proof. vm_compute. split; [eexists; split; [reflexivity|discriminate]|]. split; [reflexivity|]. eauto. Qed.

(** An approved question about a managed raw command runs that command, not the form
    that was proposed. *)
Definition managed_raw : Policy.ExecApiRequest :=
  {| Policy.channel := None; Policy.cwd := lit "/w"; Policy.command := lit "hzr rtk -- raw make"; Policy.fidelity_requested := false;
     Policy.fidelity_reason := None; Policy.timeout_ms := None; Policy.caller_path := None; Policy.agent := None;
     Policy.session_id := Some (lit "s1"); Policy.host_execution_grant := None |}.

Example approved_managed_raw_commands_run_raw :
  let es := Accept 1 (ExecRun managed_raw None) :: perform 1 7 0 ++ Accept 2 (ExecApproval [6] true) :: perform 2 6 20 in
  (exists i reason, (1, Answered (Outcome (Ok (NotStartedOutcome
      (ApprovalRequired (Some i) (Shell (lit "/bin/sh") (lit "hzr rtk -- raw make")) (Some proposal) reason)))))
    ∈ log (run (start_daemon []) es))
  /\ exists e, (2, Noted (NSpawned (Shell (lit "/bin/sh") (lit "hzr rtk -- raw make")) e)) ∈ log (run (start_daemon []) es).
Proof.
  split; [exists [6], (lit "a rule asks"); apply (list_elem_of_lookup_2 _ 4)|eexists; apply (list_elem_of_lookup_2 _ 9)];
    vm_compute; reflexivity.
Qed.

End Sample.
End DaemonTasks.
